(* ===== verification/_CoqProject ===== *)
-Q . S2P
Prelude.v
World.v
Array.v
Sequence.v
Vector.v
DLL.v
List.v
Deque.v
SLL.v
Stack.v
Queue.v
Map.v
RobinHood.v
HashMap.v
HashMapProofs.v
HashMapRefine.v
HashMapSpec.v
CobaltSet.v
TreeMap.v
RBTree.v
TreeHeap.v
TreeInsert.v
TreeFind.v
TreePut.v
TreeDelete.v
TreeFixup.v
TreeRemove.v
TreeMapRefine.v
TreeMapOps.v
TreeIter.v
TreeMapSpec.v
SortSpec.v
ListSort.v
SortArray.v
InsertionSort.v
Heapsort.v
Pdqsort.v
AdaptiveSort.v
Sorting.v
FreeList.v
Pool.v
Slab.v
Arena.v
Buffer.v
ErrorStack.v
TicketRing.v
TicketRingInv.v
LFQueue.v
LFQueueSpec.v
Double.v
Json.v
JsonSer.v
JsonRef.v
JsonHeap.v
JsonParse.v
JsonBuild.v
JsonValue.v
JsonPrint.v
JsonGrammar.v
JsonSpec.v
TaskTopo.v
TaskGraph.v
TaskGraphCompile.v
TaskRun.v
TaskRunInv.v
TaskGraphSpec.v
Regex.v
RegexVM.v
RegexSem.v
RegexPike.v
RegexRun.v
RegexGen.v
RegexRef.v
RegexParse.v
RegexCompile.v
RegexSpec.v
ShmRing.v
Strings.v
Functional.v
Clients.v
