(* ===== verification/Prelude.v ===== *)
(** * Cobalt: a verified model of the Cobalt C library

    Cobalt (src/) is a C library of containers, allocators and algorithms over
    an object model with explicit allocators.  This development models its
    core as executable functions and proves what callers rely on.

    ** The program and its model

    - A C function is a function in the monad [M S A] of this file: it takes the
      state and returns a result and the new state, or a [fault] for what C
      leaves undefined (a null dereference, an access outside an object, a read
      of memory never written) and for a loop that exceeds its fuel.  [wp c Q s]
      is total correctness: [c] run from [s] returns, without a fault, and [Q]
      holds.  No theorem is about "if it returns".
    - [World]: one container object, the heap of the nodes it allocates, the
      allocator as an oracle that grants or refuses each request, and the
      thread's last error (src/src/runtime/error.c).  A theorem for every oracle
      holds under every pattern of allocation failures.
    - [size_t] and [uint32_t] values are integers [Z] with [wrap64] and [wrap32]
      where the code can overflow; pointers are addresses, 0 is NULL.

    ** Files

    - [Prelude], [World], [Array]: monad, loops, refinement, heap, arrays.
    - [Sequence] (interface/sequence.c, iterator.c) and [Map] (interface/map.c):
      the method tables as classes, with the laws a container promises.
    - [Vector] (container/vector.c); [DLL], [List], [ListSort] (container/list.c);
      [Deque] (container/deque.c); [SLL], [Stack], [Queue] (container/stack.c,
      queue.c): each file has the operations, the representation predicate, one
      lemma per operation and the refinement of a list.
    - [RobinHood], [HashMap], [HashMapProofs], [HashMapRefine], [HashMapSpec]
      (container/hashmap.c): the slot array and its loops; the operations; the
      invariant; one lemma per operation for any callbacks that agree on what a
      key is; the session theorem for string keys.
    - [CobaltSet], [SetSpec] (container/set.c): the set over the hash map.
    - [SortSpec], [SortArray], [InsertionSort], [Heapsort], [Pdqsort],
      [AdaptiveSort], [Sorting] (algorithm/sort.c): reference sort, the
      algorithms, and the theorems about the public functions.
    - [FreeList], [Pool], [Slab] (memory/pool.c, slab.c), [Arena]
      (memory/arena.c): the allocators.
    - [Buffer] (container/buffer.c), [ErrorStack] (runtime/error.c,
      error_stack.c).
    - [TreeMap] (container/treemap.c) has the operations; [RBTree], [TreeHeap],
      [TreeRotate] trees with a hole and their nodes in the heap; [TreeInsert],
      [TreePut], [TreeFind], [TreeDelete], [TreeFixup], [TreeRemove] the two
      fixups, search, linking and unlinking; [TreeMapRefine], [TreeMapOps],
      [TreeIter] each call against an ordered dictionary; [TreeMapSpec] sessions.
    - [TicketRing], [TicketRingInv] (the cells, tickets and atomic steps of
      container/lfqueue.c and their invariant), [LFQueue], [LFQueueSpec]: threads
      as state machines whose every step touches shared memory once, with loads
      that may be stale and compare-and-swaps that may fail for no reason.
    - [Double]: binary64 numbers, [strtod] and [%.17g] as the C library
      specifies them, and that 17 digits read back as the same number.
    - [Json] (module/json_parse.c, json.c), [JsonSer] (module/json_serialize.c):
      nodes and strings in an [Arena]; [JsonRef] a parser on lists of bytes;
      [JsonHeap], [JsonParse], [JsonBuild], [JsonValue] that the code builds what
      it reads; [JsonPrint] the serializer against a printer; [JsonGrammar] the
      texts of a document; [JsonSpec], [JsonTexts] the public functions.
    - [TaskTopo] (finite graphs, acyclicity, counts of crossed edges),
      [TaskGraph], [TaskGraphRep], [TaskGraphCompile] (module/taskgraph.c:
      building and compiling), [TaskRun], [TaskRunInv] (the workers as threads
      of atomic steps), [TaskGraphSpec] (the public functions).
    - [Regex] (algorithm/regex.c: parser and code generator), [RegexVM] (its
      Pike machine); [RegexSem] what expressions match and the code they stand
      for, [RegexRef], [RegexWf] a reference parser and what it accepts,
      [RegexClass] what a class holds;
      [RegexMem], [RegexLex], [RegexParse], [RegexGen], [RegexCompile] the
      compiler against them; [RegexPike], [RegexRun], [RegexLink] the machine;
      [RegexSpec], [RegexTexts] the public functions.
    - Modules that share the file of another: [SetSpec] in CobaltSet.v,
      [TreeRotate] in TreeHeap.v, [JsonTexts] in JsonSpec.v, [TaskGraphRep] in
      TaskGraphCompile.v, [RegexWf] and [RegexClass] in RegexRef.v, [RegexMem] in
      RegexGen.v, [RegexLex] in RegexParse.v, [RegexLink] in RegexCompile.v, [RegexTexts]
      in RegexSpec.v.
    - [Strings] (utils/string.c) and [Functional] (algorithm/functional.c,
      stream.c), with their theorems in [StringsSpec] and [FunctionalSpec].
    - [ShmRing] (container/shm_ring.c): the single-producer ring as trees of
      shared accesses, [SpscSystem] two processes that interleave, [SpscInv] the
      invariant, by rely and guarantee, [SpscSpec] its theorems; [ShmMpmc] the
      multi-producer ring, [MpmcSpec] its simulation by [TicketRing].
    - [Clients]: code that goes through the interfaces, verified against the
      laws once for all containers.

    ** Theorems

    - [*_session]: from creation to destruction, every sequence of calls
      terminates without a fault and returns what the same calls on the abstract
      value (list, finite map, finite set, byte queue, bounded stack) return;
      calls fail only when memory is short and then change nothing; destruction
      frees everything.  They instantiate [refines_all] below.
    - Invariants of the Robin Hood table; safety of the allocators (blocks
      disjoint, aligned, never moved); the sorts against one reference sort.
    - The tree map: the same answers as an ordered dictionary, balance as long
      as nothing is removed; the one fault is a removal after another one.
    - The lock-free queue: in every interleaving the dequeued values are the
      enqueued ones in order, no cell has two owners, and a thread that runs
      alone returns.
    - JSON: the parser is safe under every allocator and, unless memory runs
      short, builds the document a reference parser reads; every text of the
      grammar is read (with two exceptions that are stated), printing and parsing
      are inverse for the documents stated, destruction releases the arena.
      UTF-8 is specified by RFC 3629, not by the code.
    - The task graph: compilation accepts exactly the acyclic graphs; in every
      interleaving each task runs once and after its predecessors, and the
      execution ends.
    - Regular expressions: compiling yields the program of the expression a
      reference parser reads; matching and searching agree with the meaning of
      the expression, completely so without back references; a class holds
      exactly the characters of its members; what the code loses with back
      references, and three other departures, are recorded on concrete patterns.
    - Strings and arrays: splitting and joining are inverse, the string tests
      and stripping mean what they say, binary search finds, filtering in place
      keeps, taking and dropping while a predicate holds split an array.
    - The shared-memory rings: in every interleaving messages arrive whole, once
      and in order, no access leaves the region; when a peek or a reserve must
      succeed, and when an empty ring refuses a message for good.
    - Theorems that end in a fault or a wrong result record defects: overflow of
      size computations, unchecked allocations, stale links, lost callbacks.

    ** Fuel

    Loops run with a fuel computed from the state (the length of a chain, the
    capacity of a table, the number of elements).  The theorems show that it is
    never used up, because a fault is not a result.

    ** Not modelled

    The other components about threads (lock-free hash map and skip list, epoch
    reclamation, thread pool, thread-safe wrappers), system calls (event loop,
    shared memory, notifier, logger), the object system
    and the SAX parser.
*)
From stdpp Require Export base tactics list list_numbers gmap numbers sorting.
From Stdlib Require Export ZArith Lia.

#[global] Open Scope Z_scope.

(** ** Machine integers *)

Definition SIZE_MAX : Z := 2 ^ 64 - 1.
Definition UINT32_MAX : Z := 2 ^ 32 - 1.
Definition wrap64 (z : Z) : Z := z mod 2 ^ 64.
Definition wrap32 (z : Z) : Z := z mod 2 ^ 32.
Definition sizeof_ptr : Z := 8.

Lemma wrap64_small z : 0 ≤ z < 2 ^ 64 → wrap64 z = z.
Proof. apply Z.mod_small. Qed.

Lemma size_nat_bound p : Zpos p < 2 ^ Z.of_nat (Pos.size_nat p).
Proof.
  induction p as [p IH|p IH|]; [| |done]; cbn [Pos.size_nat];
    rewrite Nat2Z.inj_succ, Z.pow_succ_r by lia; lia.
Qed.

(** ** Errors: [cobalt_error_t] of include/cobalt/runtime/error.h *)

Inductive cobalt_error : Set :=
  | COBALT_SUCCESS
  | COBALT_ERROR_GENERAL
  | COBALT_ERROR_INVALID_ARGUMENT
  | COBALT_ERROR_OUT_OF_MEMORY
  | COBALT_ERROR_NOT_FOUND
  | COBALT_ERROR_ALREADY_EXISTS
  | COBALT_ERROR_PERMISSION_DENIED
  | COBALT_ERROR_IO
  | COBALT_ERROR_TIMEOUT
  | COBALT_ERROR_OUT_OF_BOUNDS
  | COBALT_ERROR_EMPTY_CONTAINER
  | COBALT_ERROR_QUEUE_FULL.

#[export] Instance cobalt_error_eq_dec : EqDecision cobalt_error.
Proof. solve_decision. Defined.

(** ** The execution monad

    [Ret a s] is a run that returned [a] in state [s]; [Fault f] is a run
    that C leaves undefined, or a loop that used up its fuel. *)

Inductive fault : Set := NullDeref | BadAccess | Uninit | OutOfFuel.

Inductive outcome (S A : Type) : Type :=
  | Ret (a : A) (s : S)
  | Fault (f : fault).
Arguments Ret {S A} a s.
Arguments Fault {S A} f.

(** What a run shows to its caller. *)
Definition result {S A} (o : outcome S A) : A + fault :=
  match o with Ret a _ => inl a | Fault f => inr f end.

Definition M (S A : Type) : Type := S → outcome S A.

Definition mret {S A} (a : A) : M S A := λ s, Ret a s.
Definition mbind {S A B} (c : M S A) (k : A → M S B) : M S B :=
  λ s, match c s with Ret a s' => k a s' | Fault f => Fault f end.
Definition mfail {S A} (f : fault) : M S A := λ _, Fault f.
Definition mget {S} : M S S := λ s, Ret s s.
Definition mput {S} (s' : S) : M S unit := λ _, Ret tt s'.

Declare Scope prog_scope.
Delimit Scope prog_scope with prog.
Notation "x <- c ;; k" := (mbind c (λ x, k))
  (at level 100, c at next level, right associativity) : prog_scope.
Notation "c1 ;;; c2" := (mbind c1 (λ _, c2))
  (at level 100, right associativity) : prog_scope.
Open Scope prog_scope.

(** A C [while] loop: the body returns [inl] to go round again and [inr] to
    leave the loop.  [fuel] bounds the number of rounds. *)
Fixpoint loop {S A B} (fuel : nat) (body : A → M S (A + B)) (a : A) : M S B :=
  match fuel with
  | O => mfail OutOfFuel
  | Datatypes.S n =>
      r <- body a ;;
      match r with inl a' => loop n body a' | inr b => mret b end
  end.

(** ** Total-correctness weakest preconditions *)

Definition wp {S A} (c : M S A) (Q : A → S → Prop) (s : S) : Prop :=
  match c s with Ret a s' => Q a s' | Fault _ => False end.

Lemma wp_ret {S A} (a : A) Q (s : S) : Q a s → wp (mret a) Q s.
Proof. done. Qed.

Lemma wp_bind {S A B} (c : M S A) (k : A → M S B) Q (s : S) :
  wp c (λ a, wp (k a) Q) s → wp (mbind c k) Q s.
Proof. unfold wp, mbind. by destruct (c s). Qed.

Lemma wp_bind_inv {S A B} (c : M S A) (k : A → M S B) Q (s : S) :
  wp (mbind c k) Q s → wp c (λ a, wp (k a) Q) s.
Proof. unfold wp, mbind. by destruct (c s). Qed.

Lemma wp_mono {S A} (c : M S A) (Q Q' : A → S → Prop) s :
  wp c Q s → (∀ a s', Q a s' → Q' a s') → wp c Q' s.
Proof. unfold wp. destruct (c s); naive_solver. Qed.

Lemma wp_get {S} (Q : S → S → Prop) s : Q s s → wp mget Q s.
Proof. done. Qed.

Lemma wp_put {S} s' (Q : unit → S → Prop) s : Q tt s' → wp (mput s') Q s.
Proof. done. Qed.

(** The loop rule: an invariant and a measure that every round decreases and
    that starts below the fuel. *)
Lemma wp_loop {S A B} (I : A → S → Prop) (m : A → S → nat)
    (body : A → M S (A + B)) Q fuel a s :
  I a s → (m a s < fuel)%nat →
  (∀ a s, I a s →
     wp (body a) (λ r s', match r with
                          | inl a' => I a' s' ∧ (m a' s' < m a s)%nat
                          | inr b => Q b s'
                          end) s) →
  wp (loop fuel body a) Q s.
Proof.
  intros HI Hm Hbody. revert a s HI Hm.
  induction fuel as [|n IH]; intros a s HI Hm; [lia|].
  simpl. apply wp_bind. eapply wp_mono; [by apply Hbody|].
  intros [a'|b] s'; simpl; [|done]. intros [HI' Hlt]. apply IH; [done|lia].
Qed.

(** The loop rule with a ghost value that the invariant and the measure are
    about. *)
Lemma wp_loop_ghost {S A B G} (I : G → A → S → Prop) (m : G → nat)
    (body : A → M S (A + B)) Q fuel g a s :
  I g a s → (m g < fuel)%nat →
  (∀ g a s, I g a s →
     wp (body a) (λ r s', match r with
                          | inl a' => ∃ g', I g' a' s' ∧ (m g' < m g)%nat
                          | inr b => Q b s'
                          end) s) →
  wp (loop fuel body a) Q s.
Proof.
  intros HI Hm Hbody. revert g a s HI Hm.
  induction fuel as [|n IH]; intros g a s HI Hm; [lia|].
  simpl. apply wp_bind. eapply wp_mono; [by eapply Hbody|].
  intros [a'|b] s'; simpl; [|done]. intros (g' & HI' & Hlt). eapply IH; [done|lia].
Qed.

Lemma wp_run {S A} (c : M S A) Q s :
  wp c Q s ↔ ∃ a s', c s = Ret a s' ∧ Q a s'.
Proof. unfold wp. destruct (c s); naive_solver. Qed.

Lemma wp_elim {S A} (c : M S A) Q s a s' : wp c Q s → c s = Ret a s' → Q a s'.
Proof. unfold wp. by intros H E; rewrite E in H. Qed.

Lemma wp_ext {S A} (c' c : M S A) Q s : c s = c' s → wp c Q s = wp c' Q s.
Proof. unfold wp. by intros ->. Qed.

(** ** Runs that may dereference NULL

    [wp_null c Q s]: [c] returns and [Q] holds, or it dereferences NULL.  No
    other fault happens, and no loop runs out of fuel. *)

Definition wp_null {S A} (c : M S A) (Q : A → S → Prop) (s : S) : Prop :=
  match c s with Ret a s' => Q a s' | Fault f => f = NullDeref end.

Lemma wp_null_of {S A} (c : M S A) Q s : wp c Q s → wp_null c Q s.
Proof. unfold wp, wp_null. by destruct (c s). Qed.

Lemma wp_null_bind {S A B} (c : M S A) (k : A → M S B) Q s :
  wp_null c (λ a, wp_null (k a) Q) s → wp_null (mbind c k) Q s.
Proof. unfold wp_null, mbind. by destruct (c s). Qed.

(** A first part that does not fault. *)
Lemma wp_null_seq {S A B} (c : M S A) (k : A → M S B) Q s :
  wp c (λ a, wp_null (k a) Q) s → wp_null (mbind c k) Q s.
Proof. intros H. by apply wp_null_bind, wp_null_of. Qed.

Lemma wp_null_mono {S A} (c : M S A) (Q Q' : A → S → Prop) s :
  wp_null c Q s → (∀ a s', Q a s' → Q' a s') → wp_null c Q' s.
Proof. unfold wp_null. destruct (c s); naive_solver. Qed.

Lemma wp_null_loop {S A B G} (I : G → A → S → Prop) (m : G → nat)
    (body : A → M S (A + B)) Q fuel g a s :
  I g a s → (m g < fuel)%nat →
  (∀ g a s, I g a s →
     wp_null (body a) (λ r s', match r with
                               | inl a' => ∃ g', I g' a' s' ∧ (m g' < m g)%nat
                               | inr b => Q b s'
                               end) s) →
  wp_null (loop fuel body a) Q s.
Proof.
  intros HI Hm Hbody. revert g a s HI Hm.
  induction fuel as [|n IH]; intros g a s HI Hm; [lia|].
  simpl. apply wp_null_bind. eapply wp_null_mono; [by eapply Hbody|].
  intros [a'|b] s'; simpl; [|done]. intros (g' & HI' & Hlt). eapply IH; [done|lia].
Qed.

(** ** Runs that may end in one of the faults [F] *)

Definition wp_or {S A} (F : fault → Prop) (c : M S A) (Q : A → S → Prop) (s : S) : Prop :=
  match c s with Ret a s' => Q a s' | Fault f => F f end.

Section wp_or.
Context {S A B : Type} (F : fault → Prop).

Lemma wp_or_of (c : M S A) Q s : wp c Q s → wp_or F c Q s.
Proof. unfold wp, wp_or. by destruct (c s). Qed.

Lemma wp_or_ret (a : A) Q (s : S) : Q a s → wp_or F (mret a) Q s.
Proof. done. Qed.

Lemma wp_or_bind (c : M S A) (k : A → M S B) Q s :
  wp_or F c (λ a, wp_or F (k a) Q) s → wp_or F (mbind c k) Q s.
Proof. unfold wp_or, mbind. by destruct (c s). Qed.

Lemma wp_or_mono (c : M S A) (Q Q' : A → S → Prop) s :
  wp_or F c Q s → (∀ a s', Q a s' → Q' a s') → wp_or F c Q' s.
Proof. unfold wp_or. destruct (c s); naive_solver. Qed.

(** When none of the faults can happen. *)
Lemma wp_or_wp (c : M S A) Q s : (∀ f, ¬ F f) → wp_or F c Q s → wp c Q s.
Proof. unfold wp_or, wp. destruct (c s); naive_solver. Qed.
End wp_or.

(** ** Lists *)

Lemma existsb_true {A} (p : A → bool) xs : existsb p xs = true ↔ Exists (λ x, p x = true) xs.
Proof.
  induction xs as [|x xs IH]; simpl; [by rewrite Exists_nil|].
  by rewrite orb_true_iff, IH, Exists_cons.
Qed.

Lemma existsb_false {A} (p : A → bool) xs : existsb p xs = false ↔ Forall (λ x, p x = false) xs.
Proof.
  induction xs as [|x xs IH]; simpl; [by rewrite Forall_nil|].
  by rewrite orb_false_iff, IH, Forall_cons.
Qed.

Lemma filter_id {A} (P : A → Prop) `{∀ x, Decision (P x)} xs : Forall P xs → filter P xs = xs.
Proof.
  induction 1 as [|x xs Hx _ IH]; [done|]. by rewrite filter_cons_True, IH by done.
Qed.

Lemma delete_middle_Z {A} (xs ys : list A) y i :
  Z.of_nat (length xs) = i → delete (Z.to_nat i) (xs ++ y :: ys) = xs ++ ys.
Proof. intros <-. rewrite Nat2Z.id. apply delete_middle. Qed.

(** ** Refinement of a call interface

    [run] executes a call, [spec] says on the abstract value what the call may
    return and leave behind (the state before the call tells whether memory was
    short), [rep] relates the two.  If every call refines its specification, so
    does every sequence of calls. *)

Section refinement.
Context {S O X R : Type}.
Variable run : O → M S R.
Variable spec : O → S → X → R → X → Prop.
Variable rep : S → X → Prop.
Variable op_ok : O → Prop.

(** The calls [os] return one after the other, each as specified, and [Q]
    holds at the end. *)
Fixpoint behaves (os : list O) (w : S) (x : X) (Q : S → X → Prop) : Prop :=
  match os with
  | [] => Q w x
  | o :: os => ∃ r w' x', run o w = Ret r w' ∧ spec o w x r x' ∧ behaves os w' x' Q
  end.

Definition refines : Prop :=
  ∀ o w x, rep w x → op_ok o → wp (run o) (λ r w', ∃ x', spec o w x r x' ∧ rep w' x') w.

Lemma refines_all (Hrun : refines) os Q : ∀ w x,
  rep w x → Forall op_ok os → (∀ w' x', rep w' x' → Q w' x') → behaves os w x Q.
Proof.
  induction os as [|o os IH]; intros w x Hrep Hok HQ; simpl; [by apply HQ|].
  apply Forall_cons in Hok as [Ho Hos].
  destruct (proj1 (wp_run _ _ _) (Hrun o w x Hrep Ho)) as (r & w' & E & x' & Hs & Hrep').
  exists r, w', x'. auto.
Qed.
End refinement.
