(* ===== verification/World.v ===== *)
(** * The world a container runs in

    One container object (a handle that may be NULL), the heap of the nodes
    it allocates, the allocator and the thread-local error slot
    ([last_error] of src/src/runtime/error.c).

    The allocator is the environment: [oracle k n] says whether the [k]-th
    request, for [n] bytes, succeeds, so a theorem that holds for every oracle holds for every
    pattern of out-of-memory failures.  A successful node allocation returns
    an address that was never handed out before, below [2^64]; [0] is NULL.
    Reads, writes and frees of an address that is not allocated fault. *)
From S2P Require Import Prelude.

Definition NULL : Z := 0.

Record world (T C : Type) := World {
  obj : option T;
  heap : gmap Z C;
  brk : Z;
  oracle : nat → Z → bool;
  allocs : nat;
  last_error : cobalt_error
}.
Arguments World {T C}.
Arguments obj {T C}.
Arguments heap {T C}.
Arguments brk {T C}.
Arguments oracle {T C}.
Arguments allocs {T C}.
Arguments last_error {T C}.

Section world.
Context {T C : Type}.
Implicit Types (w : world T C) (p : Z) (c : C).

Definition with_obj w (o : option T) : world T C :=
  World o (heap w) (brk w) (oracle w) (allocs w) (last_error w).
Definition with_heap w (h : gmap Z C) : world T C :=
  World (obj w) h (brk w) (oracle w) (allocs w) (last_error w).
Definition with_error w (e : cobalt_error) : world T C :=
  World (obj w) (heap w) (brk w) (oracle w) (allocs w) e.
Definition with_request w : world T C :=
  World (obj w) (heap w) (brk w) (oracle w) (S (allocs w)) (last_error w).
Definition with_node w c : world T C :=
  World (obj w) (<[brk w := c]> (heap w)) (brk w + 1) (oracle w) (S (allocs w))
    (last_error w).

Lemma with_obj_id w : with_obj w (obj w) = w.
Proof. by destruct w. Qed.
Lemma with_heap_id w : with_heap w (heap w) = w.
Proof. by destruct w. Qed.

(** A fresh world: nothing allocated, no error. *)
Definition world0 (orc : nat → Z → bool) : world T C :=
  World None ∅ 1 orc 0 COBALT_SUCCESS.

(** ** Primitive operations *)

Definition get_obj : M (world T C) (option T) := λ w, Ret (obj w) w.
Definition set_obj (o : option T) : M (world T C) unit := λ w, Ret tt (with_obj w o).
Definition get_heap : M (world T C) (gmap Z C) := λ w, Ret (heap w) w.

(** Dereference of the container handle. *)
Definition deref : M (world T C) T :=
  λ w, match obj w with Some o => Ret o w | None => Fault NullDeref end.

(** A request for a block the container owns by value (its own struct, an
    array) of [bytes] bytes: only whether it succeeds matters. *)
Definition request (bytes : Z) : M (world T C) bool :=
  λ w, Ret (oracle w (allocs w) bytes) (with_request w).

(** [alloc->alloc] for a heap node of [bytes] bytes: NULL when the allocator
    fails. *)
Definition alloc_node (bytes : Z) (c : C) : M (world T C) Z :=
  λ w, if oracle w (allocs w) bytes && (brk w <? 2 ^ 64)
       then Ret (brk w) (with_node w c) else Ret NULL (with_request w).

Definition free_node (p : Z) : M (world T C) unit :=
  λ w, if p =? NULL then Ret tt w
       else match heap w !! p with
            | Some _ => Ret tt (with_heap w (delete p (heap w)))
            | None => Fault BadAccess
            end.

Definition load (p : Z) : M (world T C) C :=
  λ w, match heap w !! p with
       | Some c => Ret c w
       | None => Fault (if p =? NULL then NullDeref else BadAccess)
       end.

Definition store (p : Z) (c : C) : M (world T C) unit :=
  λ w, match heap w !! p with
       | Some _ => Ret tt (with_heap w (<[p := c]> (heap w)))
       | None => Fault (if p =? NULL then NullDeref else BadAccess)
       end.

(** [cobalt_error_set(error_ptr, code)]: the result is the value left behind
    [error_ptr], when there is one. *)
Definition cobalt_error_set (error_ptr : option cobalt_error) (code : cobalt_error)
    : M (world T C) (option cobalt_error) :=
  λ w, Ret (match error_ptr with Some _ => Some code | None => None end)
           (with_error w code).

Definition cobalt_error_get_current : M (world T C) cobalt_error :=
  λ w, Ret (last_error w) w.

(** ** Rules *)

(** The next request for a node of [n] bytes is refused. *)
Definition refuses w (n : Z) : Prop :=
  oracle w (allocs w) n = false ∨ 2 ^ 64 ≤ brk w.

(** Memory is short: the allocator refuses some request of at most [n] bytes,
    or the address space is used up. *)
Definition starved w (n : Z) : Prop :=
  2 ^ 64 ≤ brk w ∨ ∃ k n', n' ≤ n ∧ oracle w k n' = false.

Lemma refuses_starved w n : refuses w n → starved w n.
Proof. intros [Hf|Hb]; [right; by eexists _, _|by left]. Qed.

Lemma starved_mono w n n' : starved w n → n ≤ n' → starved w n'.
Proof. intros [Hb|(k & m & ? & ?)] Hn; [by left|]. right. exists k, m. split; [lia|done]. Qed.

Lemma wp_get_obj Q w : Q (obj w) w → wp get_obj Q w.
Proof. done. Qed.

Lemma wp_set_obj o Q w : Q tt (with_obj w o) → wp (set_obj o) Q w.
Proof. done. Qed.

Lemma wp_get_heap Q w : Q (heap w) w → wp get_heap Q w.
Proof. done. Qed.

Lemma wp_deref o Q w : obj w = Some o → Q o w → wp deref Q w.
Proof. unfold wp, deref. by intros ->. Qed.

Lemma wp_request n Q w :
  (oracle w (allocs w) n = true → Q true (with_request w)) →
  (oracle w (allocs w) n = false → Q false (with_request w)) →
  wp (request n) Q w.
Proof. unfold wp, request. destruct (oracle w (allocs w) n); auto. Qed.

Lemma wp_alloc_node n c Q w :
  (oracle w (allocs w) n = true → brk w < 2 ^ 64 → Q (brk w) (with_node w c)) →
  (refuses w n → Q NULL (with_request w)) →
  wp (alloc_node n c) Q w.
Proof.
  unfold refuses. intros H1 H2. unfold wp, alloc_node.
  destruct (oracle w (allocs w) n); simpl; [|by auto].
  destruct (Z.ltb_spec (brk w) (2 ^ 64)); auto.
Qed.

Lemma wp_free_node p c Q w :
  p ≠ NULL → heap w !! p = Some c →
  Q tt (with_heap w (delete p (heap w))) → wp (free_node p) Q w.
Proof.
  unfold wp, free_node. intros Hp ->. by rewrite (proj2 (Z.eqb_neq _ _) Hp).
Qed.

Lemma wp_load p c Q w : heap w !! p = Some c → Q c w → wp (load p) Q w.
Proof. unfold wp, load. by intros ->. Qed.

Lemma wp_store p c c0 Q w :
  heap w !! p = Some c0 → Q tt (with_heap w (<[p := c]> (heap w))) →
  wp (store p c) Q w.
Proof. unfold wp, store. by intros ->. Qed.

Lemma wp_error_set e code Q w :
  Q (match e with Some _ => Some code | None => None end) (with_error w code) →
  wp (cobalt_error_set e code) Q w.
Proof. done. Qed.

Lemma wp_error_get Q w : Q (last_error w) w → wp cobalt_error_get_current Q w.
Proof. done. Qed.

(** A block is never larger than [PTRDIFF_MAX] bytes: every C allocator in use
    refuses such a request. *)
Definition sane (orc : nat → Z → bool) : Prop :=
  ∀ k n, orc k n = true → n < 2 ^ 63.

(** ** Well-formed heaps

    Every allocated address lies in [1, brk) and the allocator never goes past
    the address space, so fewer than [2^64] nodes are ever alive. *)
Definition heap_ok w : Prop :=
  1 ≤ brk w ≤ 2 ^ 64 ∧ ∀ p c, heap w !! p = Some c → 1 ≤ p < brk w.

Lemma heap_ok_world0 orc : heap_ok (world0 orc).
Proof. split; simpl; [lia|]. intros p c. by rewrite lookup_empty. Qed.

Lemma heap_ok_ext w w' :
  heap_ok w → brk w' = brk w → heap w' = heap w → heap_ok w'.
Proof. unfold heap_ok. by intros ? -> ->. Qed.

Lemma heap_ok_dom w w' :
  heap_ok w → brk w' = brk w → dom (heap w') ⊆ dom (heap w) → heap_ok w'.
Proof.
  intros [Hb Hp] Hbrk Hd. split; [by rewrite Hbrk|].
  intros p c Hpc. rewrite Hbrk.
  assert (p ∈ dom (heap w)) as [c' ?]%elem_of_dom.
  { apply Hd. apply elem_of_dom. eauto. }
  eauto.
Qed.

Lemma heap_ok_node w c : heap_ok w → brk w < 2 ^ 64 → heap_ok (with_node w c).
Proof.
  intros [Hb Hp] Hlt. split; [simpl; lia|]. simpl. intros p c'.
  rewrite lookup_insert_Some. intros [[<- _]|[_ ?%Hp]]; lia.
Qed.

Lemma heap_fresh w : heap_ok w → heap w !! brk w = None.
Proof.
  intros [_ Hp]. destruct (heap w !! brk w) eqn:E; [|done].
  apply Hp in E. lia.
Qed.

Lemma heap_null w : heap_ok w → heap w !! NULL = None.
Proof.
  intros [_ Hp]. destruct (heap w !! NULL) eqn:E; [|done].
  apply Hp in E. unfold NULL in E. lia.
Qed.

(** Distinct allocated addresses are fewer than the addresses there are. *)
Lemma heap_ok_length w (ps : list Z) :
  heap_ok w → NoDup ps → (∀ p, p ∈ ps → is_Some (heap w !! p)) →
  Z.of_nat (length ps) < brk w.
Proof.
  intros [Hb Hp] Hnd Hin.
  assert (ps ⊆+ seqZ 1 (brk w - 1)) as Hsub.
  { apply NoDup_submseteq; [done|]. intros p [c Hc]%Hin.
    apply elem_of_seqZ. apply Hp in Hc. lia. }
  apply submseteq_length in Hsub. rewrite length_seqZ in Hsub. lia.
Qed.
End world.

Lemma alter_insert_Some {A} (f : A → A) (h : gmap Z A) p c :
  h !! p = Some c → alter f p h = <[p := f c]> h.
Proof.
  intros Hp. apply map_eq. intros q. rewrite lookup_alter, lookup_insert.
  case_decide; [|done]. subst. by rewrite Hp.
Qed.

(** ** Automation: one step of symbolic execution *)

Create HintDb world.
#[export] Hint Resolve refuses_starved heap_ok_world0 heap_ok_node heap_fresh heap_null : world.

Ltac wp_simpl := cbn beta iota delta [negb].

Ltac wp_step :=
  wp_simpl;
  lazymatch goal with
  | |- wp (mbind _ _) _ _ => apply wp_bind
  | |- wp (mret _) _ _ => apply wp_ret
  | |- wp get_obj _ _ => apply wp_get_obj
  | |- wp deref _ _ => eapply wp_deref; [first [eassumption | reflexivity]|]
  | |- wp (set_obj _) _ _ => apply wp_set_obj
  | |- wp get_heap _ _ => apply wp_get_heap
  | |- wp (cobalt_error_set _ _) _ _ => apply wp_error_set
  | |- wp cobalt_error_get_current _ _ => apply wp_error_get
  | |- wp mget _ _ => apply wp_get
  | |- wp (mput _) _ _ => apply wp_put
  end; wp_simpl.

Ltac wp_steps := repeat wp_step.
