(* ===== verification/Array.v ===== *)
(** * Arrays

    A C array is a list that is read and written through indices; an index
    outside the array faults.  The programs run in the monad over the array. *)
From S2P Require Import Prelude.

Definition aget {A} (i : Z) : M (list A) A :=
  λ s, if i <? 0 then Fault BadAccess
       else match s !! Z.to_nat i with Some x => Ret x s | None => Fault BadAccess end.

Definition aset {A} (i : Z) (x : A) : M (list A) unit :=
  λ s, if i <? 0 then Fault BadAccess
       else match s !! Z.to_nat i with
            | Some _ => Ret tt (<[Z.to_nat i := x]> s)
            | None => Fault BadAccess
            end.

Lemma wp_aget {A} i x Q (s : list A) :
  0 ≤ i → s !! Z.to_nat i = Some x → Q x s → wp (aget i) Q s.
Proof.
  intros Hi Hx HQ. unfold wp, aget. destruct (Z.ltb_spec i 0); [lia|]. by rewrite Hx.
Qed.

Lemma wp_aset {A} i y x Q (s : list A) :
  0 ≤ i → s !! Z.to_nat i = Some x → Q tt (<[Z.to_nat i := y]> s) → wp (aset i y) Q s.
Proof.
  intros Hi Hx HQ. unfold wp, aset. destruct (Z.ltb_spec i 0); [lia|]. by rewrite Hx.
Qed.

Lemma lookup_in_range {A} (s : list A) i :
  0 ≤ i < Z.of_nat (length s) → is_Some (s !! Z.to_nat i).
Proof. intros. apply lookup_lt_is_Some_2. lia. Qed.

(** Lookup after a write, at [Z] indices. *)
Lemma lookup_insert_Z {A} (s : list A) i j x y :
  0 ≤ i → 0 ≤ j → s !! Z.to_nat i = Some x →
  <[Z.to_nat i := y]> s !! Z.to_nat j = if i =? j then Some y else s !! Z.to_nat j.
Proof.
  intros Hi Hj Hx. destruct (Z.eqb_spec i j) as [->|Hne].
  - rewrite list_lookup_insert_eq; [done|]. by eapply lookup_lt_Some.
  - rewrite list_lookup_insert_ne; [done|lia].
Qed.

(** Replacing one element of a list seen as a multiset. *)
Lemma insert_bind_perm {A B} (f : A → list B) (s : list A) i x y :
  s !! i = Some x → f x ++ (<[i := y]> s ≫= f) ≡ₚ f y ++ (s ≫= f).
Proof.
  revert i. induction s as [|a s IH]; intros [|i] Hx; simplify_eq/=.
  - solve_Permutation.
  - specialize (IH _ Hx). rewrite (Permutation_app_swap_app (f x)), IH. solve_Permutation.
Qed.
