(* ===== verification/Sequence.v ===== *)
(** * The sequence interface: src/src/interface/sequence.c, iterator.c

    [Sequence] is the method table [cobalt_sequence_t]; [SequenceLaws] is what
    a container promises to the code that goes through the table.  The wrappers
    and the generic iterator are verified against the laws only; the containers
    discharge them in their own files. *)
From S2P Require Import Prelude World.

(** The first occurrence of [x], when there is one, is dropped. *)
Fixpoint remove_first (x : Z) (xs : list Z) : list Z :=
  match xs with
  | [] => []
  | y :: ys => if y =? x then ys else y :: remove_first x ys
  end.

Lemma remove_first_length x xs :
  ((x ∈ xs) ∧ length xs = S (length (remove_first x xs))) ∨
  (x ∉ xs ∧ remove_first x xs = xs).
Proof.
  induction xs as [|y ys IH]; simpl; [right; set_solver|].
  destruct (Z.eqb_spec y x) as [->|]; [left; set_solver|].
  destruct IH as [[? ?]|[? ->]]; [left|right]; simpl; split; try set_solver; congruence.
Qed.

(** The same for the first element that satisfies a predicate. *)
Fixpoint remove_first_if (pred : Z → bool) (xs : list Z) : list Z :=
  match xs with
  | [] => []
  | y :: ys => if pred y then ys else y :: remove_first_if pred ys
  end.

Lemma remove_first_if_eqb x xs : remove_first_if (λ y, y =? x) xs = remove_first x xs.
Proof. induction xs as [|y ys IH]; simpl; [done|]. by rewrite IH. Qed.

(** ** The method table *)

Class Sequence (T C : Type) := {
  seq_size : M (world T C) Z;
  seq_is_empty : M (world T C) bool;
  seq_add : Z → M (world T C) unit;
  seq_remove : Z → M (world T C) unit;
  seq_get_at_index : Z → M (world T C) Z
}.

Class SequenceLaws {T C : Type} `{!Sequence T C} (rep : world T C → list Z → Prop) : Prop := {
  seq_obj w xs : rep w xs → is_Some (obj w);
  seq_request w xs : rep w xs → rep (with_request w) xs;
  seq_length w xs : rep w xs → Z.of_nat (length xs) < 2 ^ 64;
  seq_size_spec w xs : rep w xs →
    wp seq_size (λ n w', w' = w ∧ n = Z.of_nat (length xs)) w;
  seq_is_empty_spec w xs : rep w xs →
    wp seq_is_empty (λ b w', w' = w ∧ b = bool_decide (xs = [])) w;
  seq_add_spec w xs x : rep w xs →
    wp (seq_add x) (λ _ w', rep w' (xs ++ [x]) ∨ rep w' xs) w;
  seq_remove_spec w xs x : rep w xs →
    wp (seq_remove x) (λ _ w', rep w' (if x =? NULL then xs else remove_first x xs)) w;
  seq_get_spec w xs i : rep w xs → 0 ≤ i →
    wp (seq_get_at_index i) (λ r w', rep w' xs ∧ r = default NULL (xs !! Z.to_nat i)) w
}.

Section sequence.
Context {T C : Type} `{!Sequence T C}.

(** ** Wrappers of sequence.c *)

Definition cobalt_sequence_size : M (world T C) Z :=
  o <- get_obj ;; match o with None => mret 0 | Some _ => seq_size end.

Definition cobalt_sequence_is_empty : M (world T C) bool :=
  o <- get_obj ;; match o with None => mret true | Some _ => seq_is_empty end.

Definition cobalt_sequence_add (item : Z) : M (world T C) Z :=
  o <- get_obj ;;
  match o with
  | None => mret (-1)
  | Some _ =>
      before <- seq_size ;;
      seq_add item ;;;
      after <- seq_size ;;
      mret (if before <? after then 0 else -1)
  end.

Definition cobalt_sequence_remove (item : Z) : M (world T C) Z :=
  o <- get_obj ;;
  match o with
  | None => mret (-1)
  | Some _ =>
      before <- seq_size ;;
      seq_remove item ;;;
      after <- seq_size ;;
      mret (if after <? before then 0 else -1)
  end.

(** ** The generic iterator of iterator.c *)

Record cobalt_iterator_impl := Iter { index : Z; total : Z }.

Definition generic_has_next (impl : cobalt_iterator_impl) : bool :=
  index impl <? total impl.

Definition generic_next (impl : cobalt_iterator_impl)
    : M (world T C) (Z * cobalt_iterator_impl) :=
  if total impl <=? index impl then mret (NULL, impl)
  else
    item <- seq_get_at_index (index impl) ;;
    mret (item, Iter (wrap64 (index impl + 1)) (total impl)).

(** [None] is the NULL iterator. *)
Definition cobalt_iterator_new_with_allocator : M (world T C) (option cobalt_iterator_impl) :=
  o <- get_obj ;;
  match o with
  | None => mret None
  | Some _ =>
      ok <- request 24 ;;
      if negb ok then mret None
      else
        ok' <- request 32 ;;
        if negb ok' then mret None
        else n <- seq_size ;; mret (Some (Iter 0 n))
  end.

Definition cobalt_iterator_new : M (world T C) (option cobalt_iterator_impl) :=
  cobalt_iterator_new_with_allocator.

Definition cobalt_iterator_has_next (iter : option cobalt_iterator_impl) : bool :=
  match iter with None => false | Some it => generic_has_next it end.

Definition cobalt_iterator_next (iter : option cobalt_iterator_impl)
    : M (world T C) (Z * option cobalt_iterator_impl) :=
  match iter with
  | None => mret (NULL, None)
  | Some it => r <- generic_next it ;; mret (r.1, Some r.2)
  end.

(** The loop [while (cobalt_iterator_has_next(it)) cobalt_iterator_next(it)]
    of a client, collecting what it is given. *)
Definition drain (fuel : nat) (iter : option cobalt_iterator_impl) : M (world T C) (list Z) :=
  loop fuel (λ st : option cobalt_iterator_impl * list Z,
    if cobalt_iterator_has_next st.1 then
      r <- cobalt_iterator_next st.1 ;; mret (inl (r.2, st.2 ++ [r.1]))
    else mret (inr st.2)) (iter, []).

(** ** Clients of the laws *)

Context {rep : world T C → list Z → Prop} `{!SequenceLaws rep}.

Lemma wp_sequence_add w xs x :
  rep w xs →
  wp (cobalt_sequence_add x) (λ r w',
    (r = 0 ∧ rep w' (xs ++ [x])) ∨ (r = -1 ∧ rep w' xs)) w.
Proof.
  intros Hrep. unfold cobalt_sequence_add. wp_steps.
  destruct (seq_obj _ _ Hrep) as [o ->].
  wp_step. eapply wp_mono; [by apply seq_size_spec|]. intros n w' [-> ->]. wp_step.
  eapply wp_mono; [by apply seq_add_spec|]. intros _ w1 [H1|H1]; wp_step;
    (eapply wp_mono; [by apply seq_size_spec|]); intros m w2 [-> ->]; wp_step.
  - left. split; [|done]. rewrite length_app; simpl.
    by rewrite (proj2 (Z.ltb_lt _ _)) by lia.
  - right. split; [|done]. by rewrite Z.ltb_irrefl.
Qed.

Lemma wp_sequence_remove w xs x :
  rep w xs → x ≠ NULL →
  wp (cobalt_sequence_remove x) (λ r w', rep w' (remove_first x xs) ∧
    r = if bool_decide (x ∈ xs) then 0 else -1) w.
Proof.
  intros Hrep Hx. unfold cobalt_sequence_remove. wp_steps.
  destruct (seq_obj _ _ Hrep) as [o ->].
  wp_step. eapply wp_mono; [by apply seq_size_spec|]. intros n w' [-> ->]. wp_step.
  eapply wp_mono; [by apply seq_remove_spec|]. intros u w1.
  rewrite (proj2 (Z.eqb_neq _ _) Hx). intros H1. wp_step.
  eapply wp_mono; [by apply seq_size_spec|]. intros m w2 [-> ->]. wp_step.
  split; [done|]. destruct (remove_first_length x xs) as [[Hin Hl]|[Hin Hl]].
  - rewrite bool_decide_true by done. by rewrite (proj2 (Z.ltb_lt _ _)) by lia.
  - rewrite bool_decide_false, Hl by done. by rewrite Z.ltb_irrefl.
Qed.

Lemma wp_drain w xs i fuel (acc : list Z) :
  rep w xs → acc = take i xs → (i <= length xs)%nat → (length xs - i < fuel)%nat →
  wp (loop fuel (λ st : option cobalt_iterator_impl * list Z,
        if cobalt_iterator_has_next st.1 then
          r <- cobalt_iterator_next st.1 ;; mret (inl (r.2, st.2 ++ [r.1]))
        else mret (inr st.2))
        (Some (Iter (Z.of_nat i) (Z.of_nat (length xs))), acc))
     (λ r w', r = xs ∧ rep w' xs) w.
Proof.
  intros Hrep -> Hi Hf.
  eapply (wp_loop (λ st w, rep w xs ∧ ∃ i, (i <= length xs)%nat ∧
      st = (Some (Iter (Z.of_nat i) (Z.of_nat (length xs))), take i xs))
    (λ st _, length xs - length st.2)%nat); [eauto| |].
  { simpl. rewrite length_take. lia. }
  clear w i Hrep Hi Hf. intros ? w [Hrep (i & Hi & ->)]. simpl.
  unfold generic_has_next; simpl.
  pose proof (seq_length _ _ Hrep).
  destruct (Z.ltb_spec (Z.of_nat i) (Z.of_nat (length xs))).
  - unfold generic_next; simpl. rewrite (proj2 (Z.leb_gt _ _)) by done.
    wp_steps. eapply wp_mono; [apply seq_get_spec; [done|lia]|].
    intros x w' [Hrep' ->]. wp_steps. rewrite Nat2Z.id, wrap64_small by lia.
    destruct (lookup_lt_is_Some_2 xs i) as [x Hx]; [lia|]. rewrite Hx; simpl.
    rewrite <- (take_S_r _ _ _ Hx). split; [split; [done|]|].
    + exists (S i). split; [lia|]. do 3 f_equal. lia.
    + rewrite !length_take. lia.
  - wp_step. split; [|done]. apply take_ge. lia.
Qed.

Lemma wp_iterate w xs :
  rep w xs →
  wp (it <- cobalt_iterator_new ;;
      r <- drain (S (length xs)) it ;; mret (it, r))
     (λ p w', rep w' xs ∧ match p.1 with Some _ => p.2 = xs | None => p.2 = [] end) w.
Proof.
  intros Hrep. unfold cobalt_iterator_new, cobalt_iterator_new_with_allocator, drain.
  wp_steps. destruct (seq_obj _ _ Hrep) as [o ->]. wp_steps.
  apply seq_request in Hrep as Hrep1. apply seq_request in Hrep1 as Hrep2.
  apply wp_request; intros _; wp_steps; [|by wp_steps].
  apply wp_request; intros _; wp_steps; [|by wp_steps].
  eapply wp_mono; [by apply seq_size_spec|]. intros n w' [-> ->]. wp_steps.
  eapply wp_mono; [apply (wp_drain _ xs 0 _ []); [done..|lia|lia]|].
  intros r w' [-> Hrep']. by wp_step.
Qed.
End sequence.
