(* ===== verification/Vector.v ===== *)
(** * Dynamic array: src/src/container/vector.c

    [items] is the block [vec->items] points to ([None] is NULL): one cell per
    [void *], [None] in a cell that was never written. *)
From S2P Require Import Prelude World Sequence.

Module Vector.

Record cobalt_vector := Vec {
  items : option (list (option Z));
  capacity : Z;
  size : Z
}.

Abbreviation vworld := (world cobalt_vector unit).

Definition sizeof_vector : Z := 80.

(** ** Memory primitives on the item block *)

(** A fresh block of [bytes] bytes holds [bytes / sizeof(void * )] cells. *)
Definition malloc_items (bytes : Z) : list (option Z) :=
  replicate (Z.to_nat (bytes / sizeof_ptr)) None.

(** [realloc]: the common prefix is kept, the rest is indeterminate. *)
Definition realloc_items (old : option (list (option Z))) (bytes : Z) : list (option Z) :=
  let n := Z.to_nat (bytes / sizeof_ptr) in
  let l := default [] old in
  take n l ++ replicate (n - length l) None.

Definition memmove_items (l : list (option Z)) (dst src n : nat) : list (option Z) :=
  take dst l ++ take n (drop src l) ++ drop (dst + n) l.

(** [vec->items[index]] as an rvalue and as an lvalue. *)
Definition read_item (vec : cobalt_vector) (index : Z) : M vworld Z :=
  match items vec with
  | None => mfail NullDeref
  | Some l =>
      match l !! Z.to_nat index with
      | None => mfail BadAccess
      | Some None => mfail Uninit
      | Some (Some v) => mret v
      end
  end.

Definition write_item (vec : cobalt_vector) (index item : Z) : M vworld cobalt_vector :=
  match items vec with
  | None => mfail NullDeref
  | Some l =>
      if decide (Z.to_nat index < length l)%nat
      then mret (Vec (Some (<[Z.to_nat index := Some item]> l)) (capacity vec) (size vec))
      else mfail BadAccess
  end.

(** [memmove(items + i, items + i + 1, (size - i - 1) * sizeof(void * ))] *)
Definition close_gap (vec : cobalt_vector) (i : Z) : M vworld cobalt_vector :=
  match items vec with
  | None => mfail NullDeref
  | Some l =>
      let n := Z.to_nat (wrap64 ((size vec - i - 1) * sizeof_ptr) / sizeof_ptr) in
      let i' := Z.to_nat i in
      if decide (S i' + n <= length l)%nat
      then mret (Vec (Some (memmove_items l i' (S i') n)) (capacity vec) (size vec))
      else mfail BadAccess
  end.

Definition set_size (vec : cobalt_vector) (n : Z) : cobalt_vector :=
  Vec (items vec) (capacity vec) n.

(** ** Operations *)

Definition vector_size_seq : M vworld Z := vec <- deref ;; mret (size vec).

Definition vector_is_empty_seq : M vworld bool :=
  vec <- deref ;; mret (size vec =? 0).

Definition max_cap : Z := SIZE_MAX / sizeof_ptr.

Definition grown_capacity (cap : Z) : Z :=
  if cap =? 0 then 1
  else if max_cap / 2 <? cap then max_cap
  else cap * 2.

Definition vector_push_internal (item : Z) : M vworld Z :=
  vec <- deref ;;
  room <- (if capacity vec <=? size vec then
             let new_cap := grown_capacity (capacity vec) in
             let bytes := wrap64 (new_cap * sizeof_ptr) in
             ok <- request bytes ;;
             if ok : bool then
               set_obj (Some (Vec (Some (realloc_items (items vec) bytes)) new_cap (size vec))) ;;;
               mret true
             else
               cobalt_error_set None COBALT_ERROR_OUT_OF_MEMORY ;;; mret false
           else mret true) ;;
  if room : bool then
    vec <- deref ;;
    vec' <- write_item vec (size vec) item ;;
    set_obj (Some (set_size vec' (wrap64 (size vec + 1)))) ;;;
    mret 0
  else mret (-1).

Definition vector_add_seq (item : Z) : M vworld unit :=
  vector_push_internal item ;;; mret tt.

(** The search loop of [vector_remove_seq]; [n] counts the indices left. *)
Fixpoint find_item (vec : cobalt_vector) (item : Z) (i : Z) (n : nat) : M vworld (option Z) :=
  match n with
  | O => mret None
  | S n' =>
      x <- read_item vec i ;;
      if x =? item then mret (Some i) else find_item vec item (i + 1) n'
  end.

Definition vector_remove_seq (item : Z) : M vworld unit :=
  o <- get_obj ;;
  match o with
  | None => mret tt
  | Some vec =>
      if item =? NULL then mret tt
      else
        r <- find_item vec item 0 (Z.to_nat (size vec)) ;;
        match r with
        | None => mret tt
        | Some i =>
            vec' <- close_gap vec i ;;
            set_obj (Some (set_size vec' (wrap64 (size vec - 1))))
        end
  end.

Definition vector_get_at_index_seq (index : Z) : M vworld Z :=
  vec <- deref ;;
  if size vec <=? index then mret NULL else read_item vec index.

(** [alloc] says whether the allocator argument is non-NULL. *)
Definition cobalt_vector_create_with_allocator (initial_capacity : Z) (alloc : bool)
    : M vworld bool :=
  if negb alloc then mret false
  else
    ok <- request sizeof_vector ;;
    if negb ok then mret false
    else if max_cap <? initial_capacity then mret false
    else
      its <- (if 0 <? initial_capacity then
                let bytes := wrap64 (initial_capacity * sizeof_ptr) in
                ok' <- request bytes ;;
                mret (if ok' : bool then Some (malloc_items bytes) else None)
              else mret None) ;;
      set_obj (Some (Vec its initial_capacity 0)) ;;;
      mret true.

Definition cobalt_vector_create (initial_capacity : Z) : M vworld bool :=
  cobalt_vector_create_with_allocator initial_capacity true.

Definition cobalt_vector_destroy : M vworld unit :=
  o <- get_obj ;;
  match o with Some _ => set_obj None | None => mret tt end.

Definition cobalt_vector_push (item : Z) : M vworld Z :=
  o <- get_obj ;;
  match o with
  | None => cobalt_error_set None COBALT_ERROR_INVALID_ARGUMENT ;;; mret (-1)
  | Some _ => vector_push_internal item
  end.

Definition cobalt_vector_get (index : Z) : M vworld Z :=
  o <- get_obj ;;
  match o with
  | None => cobalt_error_set None COBALT_ERROR_INVALID_ARGUMENT ;;; mret NULL
  | Some impl =>
      if size impl <=? index
      then cobalt_error_set None COBALT_ERROR_OUT_OF_BOUNDS ;;; mret NULL
      else read_item impl index
  end.

Definition cobalt_vector_get_unchecked (index : Z) : M vworld Z :=
  impl <- deref ;; read_item impl index.

Definition cobalt_vector_set (index item : Z) : M vworld Z :=
  o <- get_obj ;;
  match o with
  | None => cobalt_error_set None COBALT_ERROR_INVALID_ARGUMENT ;;; mret (-1)
  | Some vec =>
      if size vec <=? index
      then cobalt_error_set None COBALT_ERROR_INVALID_ARGUMENT ;;; mret (-1)
      else vec' <- write_item vec index item ;; set_obj (Some vec') ;;; mret 0
  end.

Definition cobalt_vector_remove_at (index : Z) : M vworld unit :=
  o <- get_obj ;;
  match o with
  | None => mret tt
  | Some impl =>
      if size impl <=? index then mret tt
      else
        vec' <- close_gap impl index ;;
        set_obj (Some (set_size vec' (wrap64 (size impl - 1))))
  end.

Definition cobalt_vector_size : M vworld Z :=
  o <- get_obj ;; mret (match o with Some v => size v | None => 0 end).

Definition cobalt_vector_is_empty : M vworld bool :=
  o <- get_obj ;; mret (match o with Some v => size v =? 0 | None => false end).

Definition cobalt_vector_capacity : M vworld Z :=
  o <- get_obj ;; mret (match o with Some v => capacity v | None => 0 end).

Definition cobalt_vector_reserve (n : Z) : M vworld Z :=
  o <- get_obj ;;
  match o with
  | None => mret (-1)
  | Some impl =>
      if n <=? capacity impl then mret 0
      else if max_cap <? n then mret (-1)
      else
        let bytes := wrap64 (n * sizeof_ptr) in
        ok <- request bytes ;;
        if ok : bool then
          set_obj (Some (Vec (Some (realloc_items (items impl) bytes)) n (size impl))) ;;;
          mret 0
        else mret (-1)
  end.

(** [memcpy(new_items, impl->items, impl->size * sizeof(void * ))] *)
Definition memcpy_items (dst src : list (option Z)) (n : nat) : list (option Z) :=
  take n src ++ drop n dst.

Definition cobalt_vector_shrink_to_fit : M vworld Z :=
  o <- get_obj ;;
  match o with
  | None => mret (-1)
  | Some impl =>
      if capacity impl <=? size impl then mret 0
      else
        let new_cap := size impl in
        if new_cap =? 0 then set_obj (Some (Vec None 0 (size impl))) ;;; mret 0
        else
          let bytes := wrap64 (new_cap * sizeof_ptr) in
          ok <- request bytes ;;
          if negb ok then mret (-1)
          else
            let new_items :=
              match items impl with
              | Some l => if 0 <? size impl
                          then memcpy_items (malloc_items bytes) l (Z.to_nat (size impl))
                          else malloc_items bytes
              | None => malloc_items bytes
              end in
            set_obj (Some (Vec (Some new_items) new_cap (size impl))) ;;;
            mret 0
  end.

(** ** Representation: the vector holds the list [xs] *)

Record vec_ok (v : cobalt_vector) (xs : list Z) : Prop := {
  ok_length : length (default [] (items v)) = Z.to_nat (capacity v);
  ok_prefix : take (length xs) (default [] (items v)) = Some <$> xs;
  ok_size : size v = Z.of_nat (length xs);
  ok_le : size v ≤ capacity v;
  ok_cap : capacity v * sizeof_ptr < 2 ^ 63
}.

Definition rep (w : vworld) (xs : list Z) : Prop :=
  sane (oracle w) ∧ ∃ v, obj w = Some v ∧ vec_ok v xs.

Lemma ok_lookup v xs i x :
  vec_ok v xs → xs !! i = Some x → default [] (items v) !! i = Some (Some x).
Proof.
  intros Hv Hi. assert (i < length xs)%nat by (by eapply lookup_lt_Some).
  rewrite <- (lookup_take_lt _ (length xs)) by done.
  by rewrite (ok_prefix _ _ Hv), list_lookup_fmap, Hi.
Qed.

Lemma ok_room v xs : vec_ok v xs → (length xs <= length (default [] (items v)))%nat.
Proof.
  intros Hv. rewrite (ok_length _ _ Hv).
  pose proof (ok_size _ _ Hv). pose proof (ok_le _ _ Hv). lia.
Qed.

Lemma wp_read_item v xs i x Q w :
  vec_ok v xs → xs !! Z.to_nat i = Some x → Q x w → wp (read_item v i) Q w.
Proof.
  intros Hv Hi HQ. pose proof (ok_lookup _ _ _ _ Hv Hi) as Hl.
  unfold read_item. destruct (items v); simpl in Hl; [|done]. by rewrite Hl.
Qed.

(** Writing at or below the end, inside the block. *)
Lemma wp_write_item v i x Q w :
  (Z.to_nat i < length (default [] (items v)))%nat →
  (Q (Vec (Some (<[Z.to_nat i := Some x]> (default [] (items v)))) (capacity v) (size v)) w) →
  wp (write_item v i x) Q w.
Proof.
  intros Hi HQ. unfold write_item. destruct (items v); simpl in *; [|lia].
  by rewrite decide_True by lia.
Qed.

Lemma bytes_cells n : 0 ≤ n → n * sizeof_ptr < 2 ^ 63 →
  wrap64 (n * sizeof_ptr) = n * sizeof_ptr ∧ n * sizeof_ptr / sizeof_ptr = n.
Proof.
  unfold sizeof_ptr. intros. split; [apply wrap64_small; lia|]. by apply Z.div_mul.
Qed.

Lemma realloc_ok v xs n :
  vec_ok v xs → size v ≤ n → n * sizeof_ptr < 2 ^ 63 →
  vec_ok (Vec (Some (realloc_items (items v) (wrap64 (n * sizeof_ptr)))) n (size v)) xs.
Proof.
  intros Hv Hn Hb. pose proof (ok_size _ _ Hv) as Hs. pose proof (ok_room _ _ Hv).
  destruct (bytes_cells n) as [Hw Hd]; [lia|done|].
  unfold realloc_items. rewrite Hw, Hd.
  split; simpl; try done.
  - rewrite length_app, length_take, length_replicate. lia.
  - rewrite take_app_le by (rewrite length_take; lia).
    rewrite take_take, Nat.min_l by lia. apply (ok_prefix _ _ Hv).
Qed.

Lemma insert_ok v xs i x :
  vec_ok v xs → (i < length xs)%nat →
  vec_ok (Vec (Some (<[i := Some x]> (default [] (items v)))) (capacity v) (size v))
    (<[i := x]> xs).
Proof.
  intros Hv Hi. split; simpl; rewrite ?length_insert; try apply Hv.
  rewrite take_insert_lt by done. by rewrite (ok_prefix _ _ Hv), list_fmap_insert.
Qed.

Lemma append_ok v xs x :
  vec_ok v xs → size v < capacity v →
  vec_ok (Vec (Some (<[length xs := Some x]> (default [] (items v)))) (capacity v) (size v + 1))
    (xs ++ [x]).
Proof.
  intros Hv Hlt. pose proof (ok_size _ _ Hv). pose proof (ok_length _ _ Hv) as Hlen.
  split; simpl; rewrite ?length_insert, ?length_app; simpl; try apply Hv; try lia.
  replace (length xs + 1)%nat with (S (length xs)) by lia.
  erewrite take_S_r by (apply list_lookup_insert_eq; lia).
  rewrite take_insert_ge by done. by rewrite (ok_prefix _ _ Hv), fmap_app.
Qed.

Lemma close_gap_ok v xs i :
  vec_ok v xs → (i < length xs)%nat →
  vec_ok (set_size (Vec (Some (memmove_items (default [] (items v)) i (S i)
                                 (length xs - i - 1))) (capacity v) (size v)) (size v - 1))
    (delete i xs).
Proof.
  intros Hv Hi. pose proof (ok_size _ _ Hv). pose proof (ok_room _ _ Hv) as Hr.
  pose proof (ok_prefix _ _ Hv) as Hp. set (l := default [] (items v)) in *.
  assert (length (delete i xs) = length xs - 1)%nat as Hd
    by (apply length_delete; by apply lookup_lt_is_Some_2).
  split; simpl; rewrite ?Hd; try apply Hv; try (pose proof (ok_le _ _ Hv); lia).
  - rewrite <- (ok_length _ _ Hv). fold l. unfold memmove_items.
    rewrite !length_app, !length_take, !length_drop. lia.
  - apply list_eq. intros j. unfold memmove_items.
    rewrite delete_take_drop, fmap_app, fmap_take, fmap_drop, <- Hp.
    destruct (decide (j < length xs - 1)%nat).
    + rewrite lookup_take_lt by done. destruct (decide (j < i)%nat).
      * rewrite !lookup_app_l by (rewrite !length_take; lia).
        by rewrite !lookup_take_lt by lia.
      * rewrite lookup_app_r by (rewrite length_take; lia).
        rewrite lookup_app_l by (rewrite !length_take, length_drop; lia).
        rewrite (lookup_app_r (take i _)) by (rewrite !length_take; lia).
        rewrite !length_take, lookup_take_lt by lia. rewrite !lookup_drop.
        rewrite lookup_take_lt by lia. f_equal. lia.
    + rewrite lookup_take_ge by lia. symmetry. apply lookup_ge_None.
      rewrite length_app, length_drop, !length_take. lia.
Qed.

Lemma wp_close_gap v xs i Q w :
  vec_ok v xs → 0 ≤ i < size v →
  (∀ v', vec_ok (set_size v' (size v - 1)) (delete (Z.to_nat i) xs) → Q v' w) →
  wp (close_gap v i) Q w.
Proof.
  intros Hv Hi HQ. pose proof (ok_size _ _ Hv) as Hs. pose proof (ok_room _ _ Hv) as Hr.
  pose proof (ok_le _ _ Hv). pose proof (ok_cap _ _ Hv).
  assert (Z.to_nat (wrap64 ((size v - i - 1) * sizeof_ptr) / sizeof_ptr)
          = (length xs - Z.to_nat i - 1)%nat) as Hn.
  { destruct (bytes_cells (size v - i - 1)) as [-> ->]; unfold sizeof_ptr in *; lia. }
  pose proof (close_gap_ok v xs (Z.to_nat i) Hv ltac:(lia)) as Hok.
  unfold close_gap. destruct (items v) as [l|] eqn:E; simpl in Hr, Hok; [|lia].
  rewrite Hn, decide_True by lia. apply wp_ret, HQ, Hok.
Qed.

(** ** Each operation on a represented vector *)

Lemma vrep_intro (w : vworld) v xs :
  sane (oracle w) → obj w = Some v → vec_ok v xs → rep w xs.
Proof. intros. split; eauto. Qed.

Lemma wp_vector_append v xs x Q w :
  vec_ok v xs → size v < capacity v →
  (∀ v', vec_ok (set_size v' (wrap64 (size v + 1))) (xs ++ [x]) → Q v' w) →
  wp (write_item v (size v) x) Q w.
Proof.
  intros Hv Hlt HQ. pose proof (ok_size _ _ Hv) as Hs.
  pose proof (ok_length _ _ Hv). pose proof (ok_cap _ _ Hv). unfold sizeof_ptr in *.
  apply wp_write_item; [lia|]. apply HQ. unfold set_size; simpl.
  rewrite wrap64_small by lia. rewrite Hs at 1. rewrite Nat2Z.id. by apply append_ok.
Qed.

(** Doubling makes room, and an allocator that grants the doubled block keeps
    it below the address-space bound. *)
Lemma grown_capacity_ok c :
  0 ≤ c → c * sizeof_ptr < 2 ^ 63 →
  c < grown_capacity c ∧ wrap64 (grown_capacity c * sizeof_ptr) = grown_capacity c * sizeof_ptr.
Proof.
  unfold grown_capacity, max_cap, SIZE_MAX, sizeof_ptr. intros.
  change ((2 ^ 64 - 1) / 8 / 2) with 1152921504606846975.
  change ((2 ^ 64 - 1) / 8) with 2305843009213693951.
  split; [|apply wrap64_small]; repeat case_match; lia.
Qed.

(** The block a growing vector asks for. *)
Definition grown_bytes (w : vworld) : Z :=
  match obj w with Some v => sizeof_ptr * grown_capacity (capacity v) | None => 0 end.

Lemma wp_push w xs x :
  rep w xs →
  wp (cobalt_vector_push x) (λ r w',
    (r = 0 ∧ rep w' (xs ++ [x])) ∨
    (r = -1 ∧ rep w' xs ∧ last_error w' = COBALT_ERROR_OUT_OF_MEMORY ∧
     starved w (grown_bytes w))) w.
Proof.
  intros (Hsane & v & Hobj & Hv). unfold cobalt_vector_push, vector_push_internal.
  wp_steps. rewrite Hobj. wp_steps.
  pose proof (ok_size _ _ Hv) as Hs. pose proof (ok_le _ _ Hv).
  destruct (Z.leb_spec (capacity v) (size v)); wp_steps.
  - destruct (grown_capacity_ok (capacity v)) as [Hgt Hw]; [lia|apply Hv|].
    apply wp_request; intros Hok; wp_steps.
    + eapply wp_vector_append; simpl; [apply realloc_ok; [done|lia|]|lia|].
      { rewrite Hw in Hok. by apply Hsane in Hok. }
      intros v' Hv'. wp_steps. left. split; [done|]. by eapply vrep_intro.
    + right. split_and!; [done| |done|]; [by eapply vrep_intro|].
      right. eexists _, _. split; [|exact Hok]. unfold grown_bytes. rewrite Hobj.
      unfold sizeof_ptr in *. lia.
  - eapply wp_vector_append; [done|lia|].
    intros v' Hv'. wp_steps. left. split; [done|]. by eapply vrep_intro.
Qed.

Lemma wp_vget w xs i :
  rep w xs → 0 ≤ i →
  wp (cobalt_vector_get i) (λ r w', rep w' xs ∧ r = default NULL (xs !! Z.to_nat i) ∧
    (xs !! Z.to_nat i = None → last_error w' = COBALT_ERROR_OUT_OF_BOUNDS)) w.
Proof.
  intros Hrep Hi. destruct (id Hrep) as (Hsane & v & Hobj & Hv).
  unfold cobalt_vector_get. wp_steps. rewrite Hobj.
  pose proof (ok_size _ _ Hv) as Hs. destruct (Z.leb_spec (size v) i).
  - wp_steps. split; [by eapply vrep_intro|].
    by rewrite lookup_ge_None_2 by lia.
  - destruct (lookup_lt_is_Some_2 xs (Z.to_nat i)) as [x Hx]; [lia|].
    eapply wp_read_item; [done..|]. by rewrite Hx.
Qed.

Lemma wp_vset w xs i x :
  rep w xs → 0 ≤ i →
  wp (cobalt_vector_set i x) (λ r w',
    if decide (Z.to_nat i < length xs)%nat then r = 0 ∧ rep w' (<[Z.to_nat i := x]> xs)
    else r = -1 ∧ rep w' xs) w.
Proof.
  intros Hrep Hi. destruct (id Hrep) as (Hsane & v & Hobj & Hv).
  unfold cobalt_vector_set. wp_steps. rewrite Hobj.
  pose proof (ok_size _ _ Hv) as Hs. pose proof (ok_room _ _ Hv).
  destruct (Z.leb_spec (size v) i).
  - wp_steps. rewrite decide_False by lia. split; [done|]. by eapply vrep_intro.
  - wp_step. apply wp_write_item; [lia|]. wp_steps. rewrite decide_True by lia.
    split; [done|]. eapply vrep_intro; [done..|]. apply insert_ok; [done|lia].
Qed.

Lemma wp_vremove_at w xs i :
  rep w xs → 0 ≤ i →
  wp (cobalt_vector_remove_at i) (λ _ w', rep w' (delete (Z.to_nat i) xs)) w.
Proof.
  intros Hrep Hi. destruct (id Hrep) as (Hsane & v & Hobj & Hv).
  unfold cobalt_vector_remove_at. wp_steps. rewrite Hobj.
  pose proof (ok_size _ _ Hv) as Hs. pose proof (ok_cap _ _ Hv). pose proof (ok_le _ _ Hv).
  destruct (Z.leb_spec (size v) i).
  - wp_steps. rewrite delete_take_drop, take_ge, drop_ge, app_nil_r by lia. done.
  - wp_step. eapply wp_close_gap; [done|lia|]. intros v' Hv'. wp_steps.
    eapply vrep_intro; [done..|]. unfold sizeof_ptr in *.
    rewrite wrap64_small by lia. done.
Qed.

Lemma wp_find_item v xs x w (Q : option Z → vworld → Prop) (i : Z) n :
  vec_ok v xs → 0 ≤ i → (Z.to_nat i + n = length xs)%nat →
  (drop (Z.to_nat i) xs = remove_first x (drop (Z.to_nat i) xs) → Q None w) →
  (∀ j, i ≤ j < size v → remove_first x (drop (Z.to_nat i) xs)
        = drop (Z.to_nat i) (delete (Z.to_nat j) xs) → Q (Some j) w) →
  wp (find_item v x i n) Q w.
Proof.
  intros Hv Hi Hn. revert i Hi Hn. induction n as [|n IH]; intros i Hi Hn HN HS; simpl.
  - apply wp_ret, HN. by rewrite drop_ge by lia.
  - pose proof (ok_size _ _ Hv) as Hs.
    destruct (lookup_lt_is_Some_2 xs (Z.to_nat i)) as [y Hy]; [lia|].
    pose proof (drop_S _ _ _ Hy) as Hd.
    wp_step. eapply wp_read_item; [done..|]. case_match eqn:E.
    + wp_step. apply HS; [lia|]. rewrite Hd. simpl. rewrite E.
      rewrite delete_take_drop, drop_app_length'; [done|]. rewrite length_take. lia.
    + apply IH; try lia; replace (Z.to_nat (i + 1)) with (S (Z.to_nat i)) by lia.
      * intros Hnil. apply HN. rewrite Hd. simpl. rewrite E. by f_equal.
      * intros j Hj Hrm. apply HS; [lia|]. rewrite Hd. simpl. rewrite E, Hrm.
        symmetry. apply drop_S. rewrite list_lookup_delete_lt by lia. done.
Qed.

Lemma wp_vremove w xs x :
  rep w xs →
  wp (vector_remove_seq x) (λ _ w',
    rep w' (if x =? NULL then xs else remove_first x xs)) w.
Proof.
  intros Hrep. destruct (id Hrep) as (Hsane & v & Hobj & Hv).
  unfold vector_remove_seq. wp_steps. rewrite Hobj.
  destruct (x =? NULL); [by apply wp_ret|].
  pose proof (ok_size _ _ Hv) as Hs. pose proof (ok_cap _ _ Hv). pose proof (ok_le _ _ Hv).
  wp_step. eapply wp_find_item; [done|lia|lia| |]; simpl.
  - rewrite drop_0. intros <-. by wp_step.
  - intros j Hj Heq. rewrite !drop_0 in Heq. wp_step.
    eapply wp_close_gap; [done|lia|]. intros v' Hv'. wp_steps.
    eapply vrep_intro; [done..|]. unfold sizeof_ptr in *.
    rewrite wrap64_small by lia. by rewrite Heq.
Qed.

Lemma wp_vreserve w xs n :
  rep w xs → 0 ≤ n →
  wp (cobalt_vector_reserve n) (λ r w', rep w' xs ∧
    ((r = 0 ∧ ∃ v, obj w' = Some v ∧ n ≤ capacity v) ∨
     (r = -1 ∧ (max_cap < n ∨ starved w (n * sizeof_ptr))))) w.
Proof.
  intros Hrep Hn. destruct (id Hrep) as (Hsane & v & Hobj & Hv).
  unfold cobalt_vector_reserve. wp_steps. rewrite Hobj.
  destruct (Z.leb_spec n (capacity v)); [apply wp_ret; eauto 10|].
  destruct (Z.ltb_spec max_cap n) as [|Hmax]; [apply wp_ret; auto|].
  wp_step. pose proof (ok_le _ _ Hv).
  apply wp_request; intros Hok; wp_steps.
  2: { split; [by eapply vrep_intro|]. right. split; [done|]. right. right. eexists _, _.
       split; [|exact Hok]. unfold wrap64. apply Z.mod_le; unfold sizeof_ptr; lia. }
  split.
  - eapply vrep_intro; [done..|]. apply realloc_ok; [done|lia|].
    unfold max_cap, SIZE_MAX, sizeof_ptr in *.
    change ((2 ^ 64 - 1) / 8) with 2305843009213693951 in Hmax.
    apply Hsane in Hok. by rewrite wrap64_small in Hok by lia.
  - left. split; [done|]. eexists. split; [done|]. simpl. lia.
Qed.

Lemma wp_vshrink w xs :
  rep w xs →
  wp cobalt_vector_shrink_to_fit (λ r w', rep w' xs ∧
    ((r = 0 ∧ ∃ v, obj w' = Some v ∧ capacity v = Z.of_nat (length xs)) ∨
     (r = -1 ∧ starved w (Z.of_nat (length xs) * sizeof_ptr)))) w.
Proof.
  intros Hrep. destruct (id Hrep) as (Hsane & v & Hobj & Hv).
  unfold cobalt_vector_shrink_to_fit. wp_steps. rewrite Hobj.
  pose proof (ok_size _ _ Hv) as Hs. pose proof (ok_le _ _ Hv).
  pose proof (ok_cap _ _ Hv) as Hc. pose proof (ok_prefix _ _ Hv) as Hp.
  destruct (Z.leb_spec (capacity v) (size v)).
  { apply wp_ret. split; [done|]. left. split; [done|]. exists v. split; [done|lia]. }
  destruct (Z.eqb_spec (size v) 0) as [Hz|Hnz].
  { wp_steps. assert (xs = []) as -> by (destruct xs; simpl in *; [done|lia]).
    split; [|left; split; [done|]; by eexists].
    eapply vrep_intro; [done..|]. split; simpl; try done; unfold sizeof_ptr; lia. }
  wp_step. apply wp_request; intros Hok; wp_steps.
  2: { split; [by eapply vrep_intro|]. right. split; [done|]. right. eexists _, _.
       split; [|exact Hok]. unfold wrap64. rewrite Hs. apply Z.mod_le; unfold sizeof_ptr; lia. }
  destruct (bytes_cells (size v)) as [Hw Hd]; [lia|unfold sizeof_ptr in *; lia|].
  pose proof (ok_room _ _ Hv) as Hr.
  destruct (items v) as [l|] eqn:E; simpl in *; [|lia].
  rewrite (proj2 (Z.ltb_lt 0 (size v))) by lia. simpl.
  split; [|left; split; [done|]; eexists; split; [done|]; simpl; lia].
  eapply vrep_intro; [done..|]. unfold memcpy_items, malloc_items. rewrite Hw, Hd.
  split; simpl; try done; try lia; try rewrite Hs, Nat2Z.id.
  - rewrite length_app, length_take, length_drop, length_replicate. lia.
  - rewrite take_app_le by (rewrite length_take; lia).
    by rewrite take_take, Nat.min_id.
  - unfold sizeof_ptr in *. lia.
Qed.

Lemma wp_vcreate w cap :
  sane (oracle w) → 0 ≤ cap →
  wp (cobalt_vector_create cap) (λ ok w',
    if ok then
      (0 < cap ∧ oracle w (S (allocs w)) (cap * sizeof_ptr) = false) ∨ rep w' []
    else obj w' = obj w) w.
Proof.
  intros Hsane Hcap. unfold cobalt_vector_create, cobalt_vector_create_with_allocator.
  wp_steps. apply wp_request; intros _; wp_steps; [|done].
  destruct (Z.ltb_spec max_cap cap) as [|Hmax]; [by apply wp_ret|]. wp_steps.
  unfold max_cap, SIZE_MAX, sizeof_ptr in Hmax.
  change ((2 ^ 64 - 1) / 8) with 2305843009213693951 in Hmax.
  destruct (Z.ltb_spec 0 cap); wp_steps.
  - apply wp_request; intros Hok; wp_steps.
    + right. eapply vrep_intro; [done..|]. simpl in Hok. apply Hsane in Hok.
      unfold sizeof_ptr in Hok. rewrite wrap64_small in Hok by lia.
      destruct (bytes_cells cap) as [Hw Hd]; [lia|done|].
      split; simpl; try done; unfold malloc_items.
      by rewrite Hw, Hd, length_replicate.
    + left. split; [done|]. by rewrite wrap64_small in Hok by (unfold sizeof_ptr; lia).
  - right. eapply vrep_intro; [done..|].
    assert (cap = 0) as -> by lia. by split.
Qed.

(** ** The vector as a sequence *)

#[export] Instance vector_sequence : Sequence cobalt_vector unit := {
  seq_size := vector_size_seq;
  seq_is_empty := vector_is_empty_seq;
  seq_add := vector_add_seq;
  seq_remove := vector_remove_seq;
  seq_get_at_index := vector_get_at_index_seq
}.

Lemma wp_vget_seq w xs i :
  rep w xs → 0 ≤ i →
  wp (vector_get_at_index_seq i) (λ r w', rep w' xs ∧ r = default NULL (xs !! Z.to_nat i)) w.
Proof.
  intros Hrep Hi. destruct (id Hrep) as (Hsane & v & Hobj & Hv).
  unfold vector_get_at_index_seq. wp_steps. pose proof (ok_size _ _ Hv) as Hs.
  destruct (Z.leb_spec (size v) i).
  - wp_steps. by rewrite lookup_ge_None_2 by lia.
  - destruct (lookup_lt_is_Some_2 xs (Z.to_nat i)) as [x Hx]; [lia|].
    eapply wp_read_item; [done..|]. by rewrite Hx.
Qed.

#[export] Instance vector_sequence_laws : SequenceLaws rep.
Proof.
  split.
  - intros w xs (_ & v & -> & _). eauto.
  - intros w xs (Hs & v & Hobj & Hv). by eapply vrep_intro.
  - intros w xs (_ & v & _ & Hv). pose proof (ok_size _ _ Hv).
    pose proof (ok_le _ _ Hv). pose proof (ok_cap _ _ Hv). unfold sizeof_ptr in *. lia.
  - intros w xs (_ & v & Hobj & Hv). simpl. unfold vector_size_seq. wp_steps.
    split; [done|apply Hv].
  - intros w xs (_ & v & Hobj & Hv). simpl. unfold vector_is_empty_seq. wp_steps.
    split; [done|]. rewrite (ok_size _ _ Hv). by destruct xs.
  - intros w xs x Hrep. destruct (id Hrep) as (_ & v & Hobj & _).
    pose proof (wp_push w xs x Hrep) as Hp. simpl. unfold vector_add_seq, cobalt_vector_push in *.
    apply wp_bind. unfold mbind at 1, get_obj in Hp. unfold wp at 1 in Hp.
    rewrite Hobj in Hp. eapply wp_mono; [apply Hp|]. intros r w' H. wp_step. naive_solver.
  - intros w xs x. apply wp_vremove.
  - intros w xs i. apply wp_vget_seq.
Qed.

(** ** Refinement: any sequence of calls behaves like the list *)

Inductive op : Set :=
  | OPush (x : Z) | OGet (i : Z) | OSet (i x : Z) | ORemoveAt (i : Z)
  | ORemove (x : Z) | OReserve (n : Z) | OShrink | OSize | OIsEmpty.

Definition op_ok (o : op) : Prop :=
  match o with
  | OGet i | OSet i _ | ORemoveAt i | OReserve i => 0 ≤ i
  | _ => True
  end.

(** A [void] call returns 0. *)
Definition run (o : op) : M vworld Z :=
  match o with
  | OPush x => cobalt_vector_push x
  | OGet i => cobalt_vector_get i
  | OSet i x => cobalt_vector_set i x
  | ORemoveAt i => cobalt_vector_remove_at i ;;; mret 0
  | ORemove x => vector_remove_seq x ;;; mret 0
  | OReserve n => cobalt_vector_reserve n
  | OShrink => cobalt_vector_shrink_to_fit
  | OSize => cobalt_vector_size
  | OIsEmpty => b <- cobalt_vector_is_empty ;; mret (Z.b2z b)
  end.

(** What the call returns and leaves behind, on the list itself. *)
Definition spec (o : op) (w : vworld) (xs : list Z) (r : Z) (xs' : list Z) : Prop :=
  match o with
  | OPush x => (r = 0 ∧ xs' = xs ++ [x]) ∨ (r = -1 ∧ xs' = xs ∧ starved w (grown_bytes w))
  | OGet i => r = default NULL (xs !! Z.to_nat i) ∧ xs' = xs
  | OSet i x => if decide (Z.to_nat i < length xs)%nat
                then r = 0 ∧ xs' = <[Z.to_nat i := x]> xs else r = -1 ∧ xs' = xs
  | ORemoveAt i => r = 0 ∧ xs' = delete (Z.to_nat i) xs
  | ORemove x => r = 0 ∧ xs' = if x =? NULL then xs else remove_first x xs
  | OReserve n => xs' = xs ∧
      (r = 0 ∨ (r = -1 ∧ (max_cap < n ∨ starved w (n * sizeof_ptr))))
  | OShrink => xs' = xs ∧
      (r = 0 ∨ (r = -1 ∧ starved w (Z.of_nat (length xs) * sizeof_ptr)))
  | OSize => r = Z.of_nat (length xs) ∧ xs' = xs
  | OIsEmpty => r = Z.b2z (bool_decide (xs = [])) ∧ xs' = xs
  end.

Lemma vector_refines : refines run spec rep op_ok.
Proof.
  intros o w xs Hrep Hok. destruct o; simpl in *; wp_steps.
  - eapply wp_mono; [by apply wp_push|]. naive_solver.
  - eapply wp_mono; [by apply wp_vget|]. naive_solver.
  - eapply wp_mono; [by apply wp_vset|]. simpl. intros r w'. case_decide; naive_solver.
  - eapply wp_mono; [by apply wp_vremove_at|]. intros ? ? ?. wp_step. eauto.
  - eapply wp_mono; [by apply wp_vremove|]. intros ? ? ?. wp_step. eauto.
  - eapply wp_mono; [by apply wp_vreserve|]. naive_solver.
  - eapply wp_mono; [by apply wp_vshrink|]. naive_solver.
  - unfold cobalt_vector_size. destruct (id Hrep) as (_ & v & Hobj & Hv). wp_steps.
    rewrite Hobj. exists xs. split; [|done]. split; [apply Hv|done].
  - unfold cobalt_vector_is_empty. destruct (id Hrep) as (_ & v & Hobj & Hv). wp_steps.
    rewrite Hobj. exists xs. split; [|done]. split; [|done]. f_equal.
    rewrite (ok_size _ _ Hv). by destruct xs.
Qed.

(** C29: A vector with any initial capacity.  Whatever the allocator does (it
    never grants a block beyond [PTRDIFF_MAX], and it grants the item array that
    a positive capacity asks for at the creation), either the creation is
    refused, or every call of any sequence of pushes, indexed reads and writes,
    removals, [reserve], [shrink_to_fit], size queries and tests for emptiness
    returns what the same call on a plain list returns; a push, a [reserve] or a
    [shrink_to_fit] that fails leaves the elements alone and fails only when
    memory is short or the capacity asked for cannot be expressed in bytes. *)
Theorem vector_session orc cap os :
  sane orc → 0 ≤ cap → (0 < cap → orc 1%nat (cap * sizeof_ptr) = true) → Forall op_ok os →
  wp (cobalt_vector_create cap) (λ ok w,
    if ok then behaves run spec os w [] (λ w' _, wp cobalt_vector_destroy (λ _ w'', obj w'' = None) w')
    else obj w = None) (world0 orc).
Proof.
  intros Hs Hcap Hitems Hos. eapply wp_mono; [by apply wp_vcreate|]. intros [] w; [|done].
  intros [[Hlt Hno]|Hrep]; [specialize (Hitems Hlt); simpl in Hno; congruence|].
  eapply (refines_all _ _ _ _ vector_refines); [done|done|].
  intros w' xs (_ & v & Ho & _). unfold cobalt_vector_destroy. wp_steps. by rewrite Ho.
Qed.

Lemma vector_session_witness :
  wp (cobalt_vector_create 2) (λ ok w,
    if ok then behaves run spec [OPush 5; OPush 6; OPush 8; OSet 0 7; OGet 0; ORemoveAt 0; OIsEmpty; OReserve 10] w []
      (λ w' _, wp cobalt_vector_destroy (λ _ w'', obj w'' = None) w')
    else obj w = None) (world0 (λ _ n, n <? 2 ^ 63)).
Proof.
  apply vector_session; [intros k n Hn; by apply Z.ltb_lt|lia|reflexivity|]. repeat constructor; simpl; lia.
Defined.

(** The item array of a vector created with a positive capacity is not
    checked: when that allocation is refused, [cobalt_vector_create] still
    returns a vector, and the first push writes through the null array. *)
Theorem vector_create_unchecked cap x orc :
  0 < cap ≤ max_cap → orc 0%nat sizeof_vector = true → (∀ n, orc 1%nat n = false) →
  (ok <- cobalt_vector_create cap ;; cobalt_vector_push x) (world0 orc) = Fault NullDeref.
Proof.
  intros [Hpos Hcap] Ho0 Ho1. unfold cobalt_vector_create, cobalt_vector_create_with_allocator.
  unfold mbind, request. simpl. rewrite Ho0. simpl.
  rewrite (proj2 (Z.ltb_ge _ _) Hcap), (proj2 (Z.ltb_lt _ _) Hpos). simpl. rewrite Ho1.
  unfold mret, set_obj, cobalt_vector_push, get_obj, vector_push_internal, deref.
  repeat (unfold mbind; simpl). rewrite (proj2 (Z.leb_gt cap 0)) by lia. done.
Qed.

Lemma vector_create_unchecked_witness :
  (ok <- cobalt_vector_create 4 ;; cobalt_vector_push 9)
    (world0 (λ k _, Nat.eqb k 0)) = Fault NullDeref.
Proof. apply vector_create_unchecked; [vm_compute; by split|done|done]. Defined.

End Vector.
