(* ===== verification/DLL.v ===== *)
(** * Doubly-linked chains

    The node of src/src/container/list.c and src/src/container/deque.c, the
    container header both files use (head, tail, size), field updates, and the
    theory of a chain of nodes in the heap. *)
From S2P Require Import Prelude World Sequence.

Module DLL.

Record node := Node { data : Z; next : Z; prev : Z }.
Record dlist := DList { head : Z; tail : Z; size : Z }.

Abbreviation lworld := (world dlist node).

Definition sizeof_node : Z := 24.

(** ** Field updates *)

Definition set_next (p v : Z) : M lworld unit :=
  c <- load p ;; store p (Node (data c) v (prev c)).
Definition set_prev (p v : Z) : M lworld unit :=
  c <- load p ;; store p (Node (data c) (next c) v).
Definition set_head (v : Z) : M lworld unit :=
  l <- deref ;; set_obj (Some (DList v (tail l) (size l))).
Definition set_tail (v : Z) : M lworld unit :=
  l <- deref ;; set_obj (Some (DList (head l) v (size l))).
Definition incr_size : M lworld unit :=
  l <- deref ;; set_obj (Some (DList (head l) (tail l) (wrap64 (size l + 1)))).
Definition decr_size : M lworld unit :=
  l <- deref ;; set_obj (Some (DList (head l) (tail l) (wrap64 (size l - 1)))).

(** ** Chains: nodes [ps] hold [xs]; [prv] and [nxt] are the links at the ends *)

Fixpoint dlseg (h : gmap Z node) (prv : Z) (ps xs : list Z) (nxt : Z) : Prop :=
  match ps, xs with
  | [], [] => True
  | p :: ps, x :: xs =>
      h !! p = Some (Node x (hd nxt ps) prv) ∧ dlseg h p ps xs nxt
  | _, _ => False
  end.

Definition lastp (d : Z) (ps : list Z) : Z := default d (last ps).

Lemma lastp_snoc d ps p : lastp d (ps ++ [p]) = p.
Proof. unfold lastp. by rewrite last_snoc. Qed.

Lemma lastp_cons d p ps : lastp d (p :: ps) = lastp p ps.
Proof. unfold lastp. destruct ps; [done|]. rewrite last_cons_cons.
  destruct (last (z :: ps)) eqn:E; [done|]. by apply last_None in E. Qed.

Lemma hd_app (d : Z) (ps qs : list Z) : hd d (ps ++ qs) = hd (hd d qs) ps.
Proof. by destruct ps. Qed.

Lemma dlseg_length h ps : ∀ prv xs nxt, dlseg h prv ps xs nxt → length ps = length xs.
Proof.
  induction ps as [|p ps IH]; intros prv [|x xs] nxt; simpl; try done.
  intros [_ H]. f_equal. by eapply IH.
Qed.

Lemma dlseg_frame h h' ps : ∀ prv xs nxt,
  dlseg h prv ps xs nxt → (∀ p, p ∈ ps → h' !! p = h !! p) → dlseg h' prv ps xs nxt.
Proof.
  induction ps as [|p ps IH]; intros prv [|x xs] nxt; simpl; try done.
  intros [H1 H2] Hf. split; [rewrite Hf; [done|set_solver]|].
  apply IH; [done|]. set_solver.
Qed.

Lemma dlseg_app h ps1 : ∀ prv ps2 xs1 xs2 nxt,
  length ps1 = length xs1 →
  dlseg h prv (ps1 ++ ps2) (xs1 ++ xs2) nxt ↔
  dlseg h prv ps1 xs1 (hd nxt ps2) ∧ dlseg h (lastp prv ps1) ps2 xs2 nxt.
Proof.
  induction ps1 as [|p ps1 IH]; intros prv ps2 [|x xs1] xs2 nxt; simpl; try done.
  - intros _. unfold lastp; simpl. tauto.
  - intros [= Hl]. rewrite IH by done. rewrite hd_app, lastp_cons. tauto.
Qed.

(** Every chain over an appended value list splits the same way. *)
Lemma dlseg_split h prv ps xs1 xs2 nxt :
  dlseg h prv ps (xs1 ++ xs2) nxt →
  ∃ ps1 ps2, ps = ps1 ++ ps2 ∧ length ps1 = length xs1 ∧
    dlseg h prv ps1 xs1 (hd nxt ps2) ∧ dlseg h (lastp prv ps1) ps2 xs2 nxt.
Proof.
  intros H. pose proof (dlseg_length _ _ _ _ _ H) as Hl. rewrite length_app in Hl.
  exists (take (length xs1) ps), (drop (length xs1) ps).
  assert (length (take (length xs1) ps) = length xs1) by (rewrite length_take; lia).
  split; [by rewrite take_drop|]. split; [done|].
  apply dlseg_app; [done|]. by rewrite take_drop.
Qed.

Lemma dlseg_lookup h prv ps xs nxt i p x :
  dlseg h prv ps xs nxt → ps !! i = Some p → xs !! i = Some x →
  h !! p = Some (Node x (default nxt (ps !! S i))
                   (match i with O => prv | S j => default NULL (ps !! j) end)).
Proof.
  revert prv xs i. induction ps as [|q ps IH]; intros prv [|y xs] i; simpl; try done.
  intros [H1 H2]. destruct i as [|i]; simpl.
  - intros [= ->] [= ->]. rewrite H1. by destruct ps.
  - intros Hp Hx. rewrite (IH _ _ _ H2 Hp Hx). by destruct i.
Qed.

(** Redirecting the [next] link of one node, the [prev] link of one node; a
    NULL address stands for "there is no such node". *)
Definition f_next (v : Z) (c : node) : node := Node (data c) v (prev c).
Definition f_prev (v : Z) (c : node) : node := Node (data c) (next c) v.

Definition link_next (t v : Z) (h : gmap Z node) : gmap Z node :=
  if t =? NULL then h else alter (f_next v) t h.
Definition link_prev (t v : Z) (h : gmap Z node) : gmap Z node :=
  if t =? NULL then h else alter (f_prev v) t h.

Lemma dom_link_next t v h : dom (link_next t v h) = dom h.
Proof. unfold link_next. case_match; [done|]. apply dom_alter_L. Qed.
Lemma dom_link_prev t v h : dom (link_prev t v h) = dom h.
Proof. unfold link_prev. case_match; [done|]. apply dom_alter_L. Qed.

Lemma lookup_link_next_ne t v h p : p ≠ t → link_next t v h !! p = h !! p.
Proof. intros. unfold link_next. case_match; [done|]. by rewrite lookup_alter_ne. Qed.
Lemma lookup_link_prev_ne t v h p : p ≠ t → link_prev t v h !! p = h !! p.
Proof. intros. unfold link_prev. case_match; [done|]. by rewrite lookup_alter_ne. Qed.

Lemma lastp_in d ps : ps ≠ [] → lastp d ps ∈ ps.
Proof.
  intros Hne. destruct ps as [|p ps _] using rev_ind; [done|].
  rewrite lastp_snoc. set_solver.
Qed.

Lemma lastp_NULL ps : NULL ∉ ps → lastp NULL ps = NULL ↔ ps = [].
Proof.
  intros Hn. split; [|by intros ->]. intros Hl. destruct ps as [|p ps]; [done|].
  exfalso. apply Hn. rewrite <- Hl. by apply lastp_in.
Qed.

Lemma hd_NULL (ps : list Z) : NULL ∉ ps → hd NULL ps = NULL ↔ ps = [].
Proof.
  intros Hn. destruct ps as [|p ps]; [done|]. simpl. split; [|done]. intros ->. set_solver.
Qed.

Lemma dlseg_relink_next h nxt nxt' ps : ∀ prv xs,
  NULL ∉ ps → NoDup ps → dlseg h prv ps xs nxt →
  dlseg (link_next (lastp NULL ps) nxt' h) prv ps xs nxt'.
Proof.
  unfold link_next. induction ps as [|p ps IH]; intros prv [|x xs]; simpl; try done.
  intros Hn [Hp Hnd]%NoDup_cons [H1 H2].
  rewrite (proj2 (Z.eqb_neq _ _)) by (rewrite lastp_NULL by done; done).
  destruct ps as [|q ps].
  - destruct xs; [|done]. unfold lastp; simpl. by rewrite lookup_alter_eq, H1.
  - rewrite lastp_cons.
    assert (lastp p (q :: ps) = lastp NULL (q :: ps)) as -> by (by rewrite !lastp_cons).
    assert (lastp NULL (q :: ps) ∈ q :: ps) as Hin by (by apply lastp_in).
    split; [rewrite lookup_alter_ne by (by intros <-); done|].
    specialize (IH p xs ltac:(set_solver) Hnd H2).
    rewrite (proj2 (Z.eqb_neq _ _)) in IH; [done|]. intros E. rewrite E in Hin. set_solver.
Qed.

Lemma dlseg_relink_prev h prv prv' ps xs nxt :
  NULL ∉ ps → NoDup ps → dlseg h prv ps xs nxt →
  dlseg (link_prev (hd NULL ps) prv' h) prv' ps xs nxt.
Proof.
  unfold link_prev. destruct ps as [|p ps], xs as [|x xs]; simpl; try done.
  intros Hn [Hp _]%NoDup_cons [H1 H2].
  rewrite (proj2 (Z.eqb_neq _ _)) by set_solver.
  split; [by rewrite lookup_alter_eq, H1|].
  eapply dlseg_frame; [done|]. intros q Hq. rewrite lookup_alter_ne; [done|]. by intros <-.
Qed.

(** ** Representation of a list by header, chain and heap

    The heap holds the nodes of the chain and nothing else: no node leaks. *)

Record chain_ok (w : lworld) (l : dlist) (ps xs : list Z) : Prop := {
  ok_head : head l = hd NULL ps;
  ok_tail : tail l = lastp NULL ps;
  ok_size : size l = Z.of_nat (length xs);
  ok_seg : dlseg (heap w) NULL ps xs NULL;
  ok_nodup : NoDup ps;
  ok_dom : dom (heap w) = list_to_set ps;
  ok_heap : heap_ok w
}.

Definition rep (w : lworld) (xs : list Z) : Prop :=
  ∃ l ps, obj w = Some l ∧ chain_ok w l ps xs.

Lemma chain_in w l ps xs p :
  chain_ok w l ps xs → p ∈ ps → is_Some (heap w !! p) ∧ p ≠ NULL.
Proof.
  intros Hc Hp. assert (p ∈ dom (heap w)) as Hd.
  { rewrite (ok_dom _ _ _ _ Hc). by apply elem_of_list_to_set. }
  apply elem_of_dom in Hd. split; [done|]. intros ->.
  rewrite (heap_null _ (ok_heap _ _ _ _ Hc)) in Hd. by destruct Hd.
Qed.

Lemma chain_brk w l ps xs : chain_ok w l ps xs → brk w ∉ ps.
Proof.
  intros Hc Hp. destruct (chain_in _ _ _ _ _ Hc Hp) as [[c Hb] _].
  by rewrite (heap_fresh _ (ok_heap _ _ _ _ Hc)) in Hb.
Qed.

Lemma chain_length w l ps xs :
  chain_ok w l ps xs → length ps = length xs ∧ Z.of_nat (length xs) < brk w.
Proof.
  intros Hc. pose proof (dlseg_length _ _ _ _ _ (ok_seg _ _ _ _ Hc)) as Hl.
  split; [done|]. rewrite <- Hl. apply heap_ok_length; [apply Hc..|].
  intros p Hp. by apply (chain_in _ _ _ _ _ Hc Hp).
Qed.

Lemma chain_size_bound w l ps xs : chain_ok w l ps xs → Z.of_nat (length xs) < 2 ^ 64.
Proof.
  intros Hc. destruct (chain_length _ _ _ _ Hc) as [_ Hl].
  destruct (ok_heap _ _ _ _ Hc) as [? _]. lia.
Qed.

Lemma chain_heap_size w l ps xs : chain_ok w l ps xs → base.size (heap w) = length ps.
Proof.
  intros Hc. rewrite <- size_dom, (ok_dom _ _ _ _ Hc).
  apply size_list_to_set, Hc.
Qed.

Lemma rep_request w xs : rep w xs → rep (with_request w) xs.
Proof. intros (l & ps & Hobj & []). exists l, ps. by split. Qed.

Lemma rep_error w xs e : rep w xs → rep (with_error w e) xs.
Proof. intros (l & ps & Hobj & []). exists l, ps. by split. Qed.

(** ** What the three link manipulations leave behind *)

Lemma chain_null w l ps xs : chain_ok w l ps xs → NULL ∉ ps.
Proof. intros Hc Hp. by destruct (chain_in _ _ _ _ _ Hc Hp). Qed.

Lemma chain_snoc w w' l ps xs x :
  chain_ok w l ps xs → brk w < 2 ^ 64 → brk w' = brk w + 1 →
  heap w' = link_next (tail l) (brk w) (<[brk w := Node x NULL (tail l)]> (heap w)) →
  chain_ok w' (DList (if tail l =? NULL then brk w else head l) (brk w)
                 (wrap64 (size l + 1))) (ps ++ [brk w]) (xs ++ [x]).
Proof.
  intros Hc Hlt Hb Hh. pose proof (chain_brk _ _ _ _ Hc) as Hfresh.
  pose proof (chain_null _ _ _ _ Hc) as Hn. destruct (chain_length _ _ _ _ Hc) as [Hl Hsz].
  pose proof (ok_heap _ _ _ _ Hc) as Hok. pose proof (ok_tail _ _ _ _ Hc) as Ht.
  assert (brk w ≠ NULL) by (destruct Hok; unfold NULL; lia).
  assert (brk w ≠ tail l) as Hbt.
  { rewrite Ht. intros E. destruct (decide (ps = [])) as [->|]; [done|].
    apply Hfresh. rewrite E. by apply lastp_in. }
  split; simpl.
  - rewrite hd_app, Ht. destruct (Z.eqb_spec (lastp NULL ps) NULL) as [E|E].
    + apply lastp_NULL in E as ->; done.
    + rewrite (ok_head _ _ _ _ Hc). by destruct ps.
  - by rewrite lastp_snoc.
  - rewrite (ok_size _ _ _ _ Hc), length_app; simpl. rewrite wrap64_small by lia. lia.
  - rewrite Hh. apply dlseg_app; [done|]. simpl. split.
    + rewrite Ht. eapply dlseg_relink_next; [done|apply Hc|].
      eapply dlseg_frame; [apply Hc|]. intros p Hp. rewrite lookup_insert_ne; [done|].
      by intros <-.
    + rewrite lookup_link_next_ne by done. by rewrite lookup_insert_eq, Ht.
  - apply NoDup_app. split; [apply Hc|]. split; [set_solver|apply NoDup_singleton].
  - rewrite Hh, dom_link_next, dom_insert_L, (ok_dom _ _ _ _ Hc). set_solver.
  - apply (heap_ok_dom (with_node w (Node x NULL (tail l)))); [by apply heap_ok_node|done|].
    rewrite Hh, dom_link_next. done.
Qed.

Lemma chain_cons w w' l ps xs x :
  chain_ok w l ps xs → brk w < 2 ^ 64 → brk w' = brk w + 1 →
  heap w' = link_prev (head l) (brk w) (<[brk w := Node x (head l) NULL]> (heap w)) →
  chain_ok w' (DList (brk w) (if head l =? NULL then brk w else tail l)
                 (wrap64 (size l + 1))) (brk w :: ps) (x :: xs).
Proof.
  intros Hc Hlt Hb Hh. pose proof (chain_brk _ _ _ _ Hc) as Hfresh.
  pose proof (chain_null _ _ _ _ Hc) as Hn. destruct (chain_length _ _ _ _ Hc) as [Hl Hsz].
  pose proof (ok_heap _ _ _ _ Hc) as Hok. pose proof (ok_head _ _ _ _ Hc) as Ht.
  assert (brk w ≠ NULL) by (destruct Hok; unfold NULL; lia).
  assert (brk w ≠ head l) as Hbt.
  { rewrite Ht. intros E. destruct ps; [done|]. simpl in E. set_solver. }
  split; simpl.
  - done.
  - rewrite lastp_cons, Ht. destruct (Z.eqb_spec (hd NULL ps) NULL) as [E|E].
    + apply hd_NULL in E as ->; done.
    + rewrite (ok_tail _ _ _ _ Hc). destruct ps; [done|]. by rewrite !lastp_cons.
  - rewrite (ok_size _ _ _ _ Hc), wrap64_small by lia. lia.
  - rewrite Hh. split.
    + rewrite lookup_link_prev_ne by done. by rewrite lookup_insert_eq, Ht.
    + rewrite Ht. eapply dlseg_relink_prev; [done|apply Hc|].
      eapply dlseg_frame; [apply Hc|]. intros p Hp. rewrite lookup_insert_ne; [done|].
      by intros <-.
  - apply NoDup_cons. split; [done|apply Hc].
  - rewrite Hh, dom_link_prev, dom_insert_L, (ok_dom _ _ _ _ Hc). set_solver.
  - apply (heap_ok_dom (with_node w (Node x (head l) NULL))); [by apply heap_ok_node|done|].
    rewrite Hh, dom_link_prev. done.
Qed.

Lemma chain_unlink w w' l ps1 p ps2 xs1 x xs2 :
  chain_ok w l (ps1 ++ p :: ps2) (xs1 ++ x :: xs2) → length ps1 = length xs1 →
  brk w' = brk w →
  heap w' = delete p (link_prev (hd NULL ps2) (lastp NULL ps1)
                        (link_next (lastp NULL ps1) (hd NULL ps2) (heap w))) →
  chain_ok w' (DList (hd NULL (ps1 ++ ps2)) (lastp NULL (ps1 ++ ps2))
                 (wrap64 (size l - 1))) (ps1 ++ ps2) (xs1 ++ xs2).
Proof.
  intros Hc Hl Hb Hh. pose proof (chain_null _ _ _ _ Hc) as Hn.
  destruct (chain_length _ _ _ _ Hc) as [_ Hsz].
  pose proof (chain_size_bound _ _ _ _ Hc) as Hsb. rewrite length_app in Hsb; simpl in Hsb.
  pose proof (ok_seg _ _ _ _ Hc) as Hseg.
  apply dlseg_app in Hseg as [Hseg1 [Hp Hseg2]]; [|done].
  pose proof (ok_nodup _ _ _ _ Hc) as Hnd.
  apply NoDup_app in Hnd as (Hnd1 & Hd & [Hp2 Hnd2]%NoDup_cons).
  assert (p ∉ ps1) as Hp1 by (intros ?; eapply Hd; [done|]; set_solver).
  split; simpl; try done.
  - rewrite (ok_size _ _ _ _ Hc), !length_app; simpl. rewrite wrap64_small by lia. lia.
  - rewrite Hh. apply dlseg_app; [done|]. split.
    + eapply dlseg_frame.
      { eapply (dlseg_relink_next _ _ (hd NULL ps2)); [set_solver|done|exact Hseg1]. }
      intros q Hq. rewrite lookup_delete_ne by set_solver.
      rewrite lookup_link_prev_ne; [done|]. destruct ps2; simpl; [set_solver|].
      intros ->. eapply Hd; [done|]. set_solver.
    + eapply dlseg_frame.
      { eapply (dlseg_relink_prev _ _ (lastp NULL ps1)); [set_solver|done|].
        eapply dlseg_frame; [exact Hseg2|].
        intros q Hq. apply (lookup_link_next_ne (lastp NULL ps1) (hd NULL ps2)).
        destruct (decide (ps1 = [])) as [->|Hne]; [unfold lastp; simpl; set_solver|].
        intros ->. apply (Hd (lastp NULL ps1)); [by apply lastp_in|]. set_solver. }
      intros q Hq. rewrite lookup_delete_ne by set_solver. done.
  - apply NoDup_app. split; [done|]. split; [|done]. intros q ??. eapply Hd; [done|]. set_solver.
  - rewrite Hh, dom_delete_L, dom_link_prev, dom_link_next, (ok_dom _ _ _ _ Hc).
    set_solver.
  - apply (heap_ok_dom w); [apply Hc|done|].
    rewrite Hh, dom_delete_L, dom_link_prev, dom_link_next. set_solver.
Qed.

(** ** Symbolic execution of the field updates *)

Lemma wp_set_next p v Q (w : lworld) :
  is_Some (heap w !! p) → p ≠ NULL → Q tt (with_heap w (link_next p v (heap w))) →
  wp (set_next p v) Q w.
Proof.
  intros [c Hp] Hn HQ. unfold set_next. wp_step. eapply wp_load; [done|].
  eapply wp_store; [done|]. unfold link_next in HQ.
  rewrite (proj2 (Z.eqb_neq _ _) Hn) in HQ. by rewrite (alter_insert_Some _ _ _ _ Hp) in HQ.
Qed.

Lemma wp_set_prev p v Q (w : lworld) :
  is_Some (heap w !! p) → p ≠ NULL → Q tt (with_heap w (link_prev p v (heap w))) →
  wp (set_prev p v) Q w.
Proof.
  intros [c Hp] Hn HQ. unfold set_prev. wp_step. eapply wp_load; [done|].
  eapply wp_store; [done|]. unfold link_prev in HQ.
  rewrite (proj2 (Z.eqb_neq _ _) Hn) in HQ. by rewrite (alter_insert_Some _ _ _ _ Hp) in HQ.
Qed.

Lemma wp_set_head v l Q (w : lworld) :
  obj w = Some l → Q tt (with_obj w (Some (DList v (tail l) (size l)))) →
  wp (set_head v) Q w.
Proof. intros Hl HQ. unfold set_head. wp_steps. done. Qed.

Lemma wp_set_tail v l Q (w : lworld) :
  obj w = Some l → Q tt (with_obj w (Some (DList (head l) v (size l)))) →
  wp (set_tail v) Q w.
Proof. intros Hl HQ. unfold set_tail. wp_steps. done. Qed.

Lemma wp_incr_size l Q (w : lworld) :
  obj w = Some l →
  Q tt (with_obj w (Some (DList (head l) (tail l) (wrap64 (size l + 1))))) →
  wp incr_size Q w.
Proof. intros Hl HQ. unfold incr_size. wp_steps. done. Qed.

Lemma wp_decr_size l Q (w : lworld) :
  obj w = Some l →
  Q tt (with_obj w (Some (DList (head l) (tail l) (wrap64 (size l - 1))))) →
  wp decr_size Q w.
Proof. intros Hl HQ. unfold decr_size. wp_steps. done. Qed.

(** Header and chain after a run, up to the form of the header. *)
Lemma rep_intro (w : lworld) l l' ps xs :
  obj w = Some l' → l' = l → chain_ok w l ps xs → rep w xs.
Proof. intros Ho -> Hc. by exists l, ps. Qed.

End DLL.
