(* ===== verification/List.v ===== *)
(** * Doubly-linked list: src/src/container/list.c *)
From S2P Require Import Prelude World Sequence DLL.
Import DLL.

Module LinkedList.

(** ** Operations *)

Definition list_size_seq : M lworld Z := l <- deref ;; mret (size l).
Definition list_is_empty_seq : M lworld bool := l <- deref ;; mret (size l =? 0).

Definition list_add_seq (item : Z) : M lworld unit :=
  l <- deref ;;
  node <- alloc_node sizeof_node (Node item NULL (tail l)) ;;
  if node =? NULL
  then cobalt_error_set None COBALT_ERROR_OUT_OF_MEMORY ;;; mret tt
  else
    (if tail l =? NULL
     then set_tail node ;;; set_head node
     else set_next (tail l) node ;;; set_tail node) ;;;
    incr_size.

(** The unlinking code that [list_remove_seq], [cobalt_list_remove],
    [cobalt_list_remove_if] and [cobalt_list_remove_at] repeat. *)
Definition unlink (node prev : Z) : M lworld unit :=
  c <- load node ;;
  (if prev =? NULL then set_head (next c) else set_next prev (next c)) ;;;
  c <- load node ;;
  (if next c =? NULL then set_tail prev else set_prev (next c) prev) ;;;
  free_node node ;;;
  decr_size.

(** The search loop of the removals: [inr true] after an unlink, [inr false]
    at the end of the list. *)
Definition remove_loop (fuel : nat) (pred : Z → bool) (start : Z) : M lworld bool :=
  loop fuel (λ st : Z * Z,
    let '(node, prev) := st in
    if node =? NULL then mret (inr false)
    else
      c <- load node ;;
      if pred (data c) then unlink node prev ;;; mret (inr true)
      else mret (inl (next c, node))) (start, NULL).

(** No chain is longer than the heap: the fuel of every walk. *)
Definition walk_fuel : M lworld nat := h <- get_heap ;; mret (S (base.size h)).

Definition list_remove_seq (item : Z) : M lworld unit :=
  o <- get_obj ;;
  match o with
  | None => mret tt
  | Some l =>
      if item =? NULL then mret tt
      else
        fuel <- walk_fuel ;;
        remove_loop fuel (λ d, d =? item) (head l) ;;; mret tt
  end.

Definition cobalt_list_create_with_allocator (alloc : bool) : M lworld bool :=
  if negb alloc then mret false
  else
    ok <- request 80 ;;
    if negb ok then mret false
    else set_obj (Some (DList NULL NULL 0)) ;;; mret true.

Definition cobalt_list_create : M lworld bool := cobalt_list_create_with_allocator true.

Definition cobalt_list_destroy : M lworld unit :=
  o <- get_obj ;;
  match o with
  | None => mret tt
  | Some l =>
      fuel <- walk_fuel ;;
      loop fuel (λ node : Z,
        if node =? NULL then mret (inr tt)
        else c <- load node ;; free_node node ;;; mret (inl (next c))) (head l) ;;;
      set_obj None
  end.

Definition cobalt_list_push_front (item : Z) : M lworld Z :=
  o <- get_obj ;;
  match o with
  | None => mret (-1)
  | Some l =>
      node <- alloc_node sizeof_node (Node item (head l) NULL) ;;
      if node =? NULL
      then cobalt_error_set None COBALT_ERROR_OUT_OF_MEMORY ;;; mret (-1)
      else
        (if head l =? NULL then set_tail node else set_prev (head l) node) ;;;
        set_head node ;;;
        incr_size ;;;
        mret 0
  end.

Definition cobalt_list_push_back (item : Z) : M lworld Z :=
  o <- get_obj ;;
  match o with
  | None => mret (-1)
  | Some l =>
      node <- alloc_node sizeof_node (Node item NULL (tail l)) ;;
      if node =? NULL
      then cobalt_error_set None COBALT_ERROR_OUT_OF_MEMORY ;;; mret (-1)
      else
        (if tail l =? NULL then set_head node else set_next (tail l) node) ;;;
        set_tail node ;;;
        incr_size ;;;
        mret 0
  end.

Definition empty_error : M lworld Z :=
  cobalt_error_set None COBALT_ERROR_EMPTY_CONTAINER ;;; mret NULL.

Definition cobalt_list_pop_front : M lworld Z :=
  o <- get_obj ;;
  match o with
  | None => empty_error
  | Some l =>
      if head l =? NULL then empty_error
      else
        c <- load (head l) ;;
        set_head (next c) ;;;
        (if next c =? NULL then set_tail NULL else set_prev (next c) NULL) ;;;
        c' <- load (head l) ;;
        free_node (head l) ;;;
        decr_size ;;;
        mret (data c')
  end.

Definition cobalt_list_pop_back : M lworld Z :=
  o <- get_obj ;;
  match o with
  | None => empty_error
  | Some l =>
      if tail l =? NULL then empty_error
      else
        c <- load (tail l) ;;
        set_tail (prev c) ;;;
        (if prev c =? NULL then set_head NULL else set_next (prev c) NULL) ;;;
        c' <- load (tail l) ;;
        free_node (tail l) ;;;
        decr_size ;;;
        mret (data c')
  end.

(** [for (i = a; i < b; i++) node = node->next] with [n = b - a] rounds, and
    its backward twin. *)
Fixpoint walk_next (n : nat) (node : Z) : M lworld Z :=
  match n with O => mret node | S n' => c <- load node ;; walk_next n' (next c) end.
Fixpoint walk_prev (n : nat) (node : Z) : M lworld Z :=
  match n with O => mret node | S n' => c <- load node ;; walk_prev n' (prev c) end.

Definition cobalt_list_get (index : Z) : M lworld Z :=
  o <- get_obj ;;
  match o with
  | None => cobalt_error_set None COBALT_ERROR_INVALID_ARGUMENT ;;; mret NULL
  | Some l =>
      if size l <=? index
      then cobalt_error_set None COBALT_ERROR_OUT_OF_BOUNDS ;;; mret NULL
      else
        node <- (if index <? size l / 2
                 then walk_next (Z.to_nat index) (head l)
                 else walk_prev (Z.to_nat (size l - 1 - index)) (tail l)) ;;
        c <- load node ;;
        mret (data c)
  end.

Definition list_get_at_index_seq (index : Z) : M lworld Z := cobalt_list_get index.

Definition cobalt_list_size : M lworld Z :=
  o <- get_obj ;; mret (match o with Some l => size l | None => 0 end).

Definition cobalt_list_is_empty : M lworld bool :=
  o <- get_obj ;; mret (match o with Some l => size l =? 0 | None => false end).

Definition cobalt_list_remove (item : Z) : M lworld Z :=
  o <- get_obj ;;
  match o with
  | None => mret (-1)
  | Some l =>
      if item =? NULL then mret (-1)
      else
        fuel <- walk_fuel ;;
        r <- remove_loop fuel (λ d, d =? item) (head l) ;;
        mret (if r : bool then 0 else -1)
  end.

Definition cobalt_list_remove_if (predicate : Z → bool) : M lworld Z :=
  o <- get_obj ;;
  match o with
  | None => mret (-1)
  | Some l =>
      fuel <- walk_fuel ;;
      r <- remove_loop fuel predicate (head l) ;;
      mret (if r : bool then 0 else -1)
  end.

Definition cobalt_list_remove_at (index : Z) : M lworld Z :=
  o <- get_obj ;;
  match o with
  | None => mret (-1)
  | Some l =>
      fuel <- walk_fuel ;;
      st <- loop fuel (λ st : Z * Z * Z,
              let '(node, prev, i) := st in
              if negb (node =? NULL) && (i <? index)
              then c <- load node ;; mret (inl (next c, node, i + 1))
              else mret (inr (node, prev))) (head l, NULL, 0) ;;
      if st.1 =? NULL then mret (-1)
      else unlink st.1 st.2 ;;; mret 0
  end.

(** ** The list iterator *)

Definition list_iterator_has_next (current : Z) : bool := negb (current =? NULL).

Definition list_iterator_next (current : Z) : M lworld (Z * Z) :=
  if current =? NULL then mret (NULL, current)
  else c <- load current ;; mret (data c, next c).

(** [None] is the NULL iterator. *)
Definition cobalt_list_iterator_create : M lworld (option Z) :=
  o <- get_obj ;;
  match o with
  | None => mret None
  | Some l =>
      ok <- request 24 ;;
      if negb ok then mret None
      else
        ok' <- request 24 ;;
        if negb ok' then mret None else mret (Some (head l))
  end.

Definition cobalt_list_get_head : M lworld Z :=
  o <- get_obj ;; mret (match o with Some l => head l | None => NULL end).

Definition cobalt_list_set_head (hd tl : Z) : M lworld unit :=
  o <- get_obj ;;
  match o with
  | None => mret tt
  | Some l => set_obj (Some (DList hd tl (size l)))
  end.

(** ** Operations on a represented list *)

Lemma wp_push_back w xs x :
  rep w xs →
  wp (cobalt_list_push_back x) (λ r w',
    (r = 0 ∧ rep w' (xs ++ [x])) ∨
    (r = -1 ∧ rep w' xs ∧ last_error w' = COBALT_ERROR_OUT_OF_MEMORY ∧
     refuses w sizeof_node)) w.
Proof.
  intros Hrep. destruct (id Hrep) as (l & ps & Hobj & Hc).
  unfold cobalt_list_push_back. wp_steps. rewrite Hobj. wp_step.
  apply wp_alloc_node; [intros Hok Hlt|intros Hno].
  - rewrite (proj2 (Z.eqb_neq _ _)) by (destruct (ok_heap _ _ _ _ Hc); unfold NULL; lia).
    wp_step. destruct (Z.eqb_spec (tail l) NULL) as [Ht|Ht].
    + eapply wp_set_head; [done|]. wp_step. eapply wp_set_tail; [done|].
      wp_step. eapply wp_incr_size; [done|]. wp_step. left. split; [done|].
      eapply rep_intro; [done| |eapply chain_snoc; [exact Hc|done|done|]]; simpl.
      * by rewrite Ht.
      * by rewrite Ht.
    + eapply wp_set_next; [|done|].
      { simpl. rewrite lookup_insert. case_decide; [by eexists|].
        apply (chain_in _ _ _ _ _ Hc). rewrite (ok_tail _ _ _ _ Hc) in *.
        apply lastp_in. by intros ->. }
      wp_step. eapply wp_set_tail; [done|]. wp_step. eapply wp_incr_size; [done|].
      wp_step. left. split; [done|].
      eapply rep_intro; [done| |eapply chain_snoc; [exact Hc|done|done|done]]; simpl.
      by rewrite (proj2 (Z.eqb_neq _ _) Ht).
  - wp_steps. right. split_and!; [done| |done..].
    apply rep_error. by apply rep_request.
Qed.

Lemma wp_push_front w xs x :
  rep w xs →
  wp (cobalt_list_push_front x) (λ r w',
    (r = 0 ∧ rep w' (x :: xs)) ∨
    (r = -1 ∧ rep w' xs ∧ last_error w' = COBALT_ERROR_OUT_OF_MEMORY ∧
     refuses w sizeof_node)) w.
Proof.
  intros Hrep. destruct (id Hrep) as (l & ps & Hobj & Hc).
  unfold cobalt_list_push_front. wp_steps. rewrite Hobj. wp_step.
  apply wp_alloc_node; [intros Hok Hlt|intros Hno].
  - rewrite (proj2 (Z.eqb_neq _ _)) by (destruct (ok_heap _ _ _ _ Hc); unfold NULL; lia).
    wp_step. destruct (Z.eqb_spec (head l) NULL) as [Ht|Ht].
    + eapply wp_set_tail; [done|]. wp_step. eapply wp_set_head; [done|].
      wp_step. eapply wp_incr_size; [done|]. wp_step. left. split; [done|].
      eapply rep_intro; [done| |eapply chain_cons; [exact Hc|done|done|]]; simpl.
      * by rewrite Ht.
      * by rewrite Ht.
    + eapply wp_set_prev; [|done|].
      { simpl. rewrite lookup_insert. case_decide; [by eexists|].
        apply (chain_in _ _ _ _ _ Hc). rewrite (ok_head _ _ _ _ Hc) in *.
        destruct ps; simpl in *; [done|set_solver]. }
      wp_step. eapply wp_set_head; [done|]. wp_step. eapply wp_incr_size; [done|].
      wp_step. left. split; [done|].
      eapply rep_intro; [done| |eapply chain_cons; [exact Hc|done|done|done]]; simpl.
      by rewrite (proj2 (Z.eqb_neq _ _) Ht).
  - wp_steps. right. split_and!; [done| |done..].
    apply rep_error. by apply rep_request.
Qed.

(** The second half of [unlink]: the predecessor already skips the node. *)
Lemma wp_unlink_rest w w1 l l1 ps1 p ps2 xs1 x xs2 Q :
  chain_ok w l (ps1 ++ p :: ps2) (xs1 ++ x :: xs2) → length ps1 = length xs1 →
  obj w1 = Some l1 → brk w1 = brk w →
  heap w1 = link_next (lastp NULL ps1) (hd NULL ps2) (heap w) →
  heap w1 !! p = Some (Node x (hd NULL ps2) (lastp NULL ps1)) →
  l1 = DList (hd NULL (ps1 ++ ps2)) (tail l) (size l) →
  (∀ w', rep w' (xs1 ++ xs2) → Q tt w') →
  wp (c <- load p ;;
      (if next c =? NULL then set_tail (lastp NULL ps1)
       else set_prev (next c) (lastp NULL ps1)) ;;;
      free_node p ;;; decr_size) Q w1.
Proof.
  intros Hc Hl Ho1 Hb1 Hh1 Hp -> HQ. pose proof (chain_null _ _ _ _ Hc) as Hn.
  pose proof (ok_nodup _ _ _ _ Hc) as Hnd.
  apply NoDup_app in Hnd as (_ & _ & [Hp2 _]%NoDup_cons).
  wp_step. eapply wp_load; [done|]. simpl. wp_step.
  destruct (Z.eqb_spec (hd NULL ps2) NULL) as [E|E].
  - apply hd_NULL in E as ->; [|set_solver]. eapply wp_set_tail; [done|]. wp_step.
    eapply wp_free_node; [set_solver|done|]. eapply wp_decr_size; [done|]. apply HQ.
    eapply rep_intro; [done| |eapply (chain_unlink _ _ _ _ _ []); [exact Hc|done|done|]]; simpl.
    + by rewrite app_nil_r.
    + by rewrite Hh1.
  - destruct ps2 as [|q ps2]; [done|]. simpl in *.
    assert (is_Some (heap w1 !! q)) as Hq.
    { apply elem_of_dom. rewrite Hh1, dom_link_next. apply elem_of_dom.
      apply (chain_in _ _ _ _ _ Hc). set_solver. }
    eapply wp_set_prev; [done|done|]. wp_step.
    eapply wp_free_node; [set_solver|simpl; rewrite lookup_link_prev_ne by set_solver; done|].
    eapply wp_decr_size; [done|]. apply HQ.
    eapply rep_intro; [done| |eapply (chain_unlink _ _ _ _ _ (q :: ps2)); [exact Hc|done|done|]]; simpl.
    + rewrite (ok_tail _ _ _ _ Hc). f_equal. unfold lastp. by rewrite !last_app, !last_cons_cons.
    + by rewrite Hh1.
Qed.

(** [unlink] at a node of the chain, given its predecessor. *)
Lemma wp_unlink w l ps1 p ps2 xs1 x xs2 Q :
  obj w = Some l → chain_ok w l (ps1 ++ p :: ps2) (xs1 ++ x :: xs2) →
  length ps1 = length xs1 →
  (∀ w', rep w' (xs1 ++ xs2) → Q tt w') →
  wp (unlink p (lastp NULL ps1)) Q w.
Proof.
  intros Hobj Hc Hl HQ. pose proof (chain_null _ _ _ _ Hc) as Hn.
  pose proof (ok_seg _ _ _ _ Hc) as Hseg.
  apply dlseg_app in Hseg as [_ [Hp _]]; [|done].
  pose proof (ok_nodup _ _ _ _ Hc) as Hnd. apply NoDup_app in Hnd as (_ & Hd & _).
  unfold unlink. wp_step. eapply wp_load; [done|]. simpl. wp_step.
  destruct (Z.eqb_spec (lastp NULL ps1) NULL) as [E|E].
  - apply lastp_NULL in E as ->; [|set_solver]. eapply wp_set_head; [done|].
    by eapply wp_unlink_rest.
  - destruct (decide (ps1 = [])) as [->|Hne]; [done|].
    assert (lastp NULL ps1 ∈ ps1) as Hlin by (by apply lastp_in).
    eapply wp_set_next; [apply (chain_in _ _ _ _ _ Hc); set_solver|done|].
    eapply (wp_unlink_rest w _ l l); simpl; try done.
    + rewrite lookup_link_next_ne; [done|]. intros ->. eapply Hd; [done|]. set_solver.
    + pose proof (ok_head _ _ _ _ Hc) as Hh. destruct l, ps1; simpl in *; by rewrite Hh.
Qed.

Lemma wp_walk_fuel w l ps xs Q :
  chain_ok w l ps xs → Q (S (length ps)) w → wp walk_fuel Q w.
Proof. intros Hc HQ. unfold walk_fuel. wp_steps. by rewrite (chain_heap_size _ _ _ _ Hc). Qed.

Lemma wp_remove_loop pred Q fuel : ∀ ps2 ps1 xs1 xs2 w l,
  obj w = Some l → chain_ok w l (ps1 ++ ps2) (xs1 ++ xs2) →
  length ps1 = length xs1 → (length ps2 < fuel)%nat →
  (remove_first_if pred xs2 = xs2 → Forall (λ x, pred x = false) xs2 → Q false w) →
  (∀ w', Exists (λ x, pred x = true) xs2 →
         rep w' (xs1 ++ remove_first_if pred xs2) → Q true w') →
  wp (loop fuel (λ st : Z * Z,
        let '(node, prev) := st in
        if node =? NULL then mret (inr false)
        else
          c <- load node ;;
          if pred (data c) then unlink node prev ;;; mret (inr true)
          else mret (inl (next c, node))) (hd NULL ps2, lastp NULL ps1)) Q w.
Proof.
  induction fuel as [|n IH]; intros ps2 ps1 xs1 xs2 w l Hobj Hc Hl Hf HN HS; [lia|].
  pose proof (chain_null _ _ _ _ Hc) as Hn.
  pose proof (ok_seg _ _ _ _ Hc) as Hseg. apply dlseg_app in Hseg as [_ Hseg2]; [|done].
  destruct ps2 as [|p ps2], xs2 as [|x xs2]; simpl in Hseg2; try done.
  - simpl. wp_steps. apply HN; auto.
  - destruct Hseg2 as [Hp _]. simpl.
    rewrite (proj2 (Z.eqb_neq _ _)) by set_solver. wp_steps. eapply wp_load; [done|].
    simpl. destruct (pred x) eqn:E; wp_steps.
    + eapply wp_unlink; [done..|]. intros w' Hrep. wp_steps. apply HS; [by left|].
      simpl. by rewrite E.
    + rewrite <- (lastp_snoc NULL ps1 p).
      eapply (IH ps2 (ps1 ++ [p]) (xs1 ++ [x]) xs2).
      * done.
      * by rewrite <- !app_assoc.
      * rewrite !length_app; simpl; lia.
      * simpl in Hf; lia.
      * intros H1 H2. apply HN; [simpl; rewrite E, H1; done|by constructor].
      * intros w' H1 H2. apply HS; [by right|]. simpl. rewrite E.
        by rewrite <- app_assoc in H2.
Qed.

Lemma wp_remove_if w xs pred :
  rep w xs →
  wp (cobalt_list_remove_if pred) (λ r w', rep w' (remove_first_if pred xs) ∧
    r = if existsb pred xs then 0 else -1) w.
Proof.
  intros Hrep. destruct (id Hrep) as (l & ps & Hobj & Hc).
  unfold cobalt_list_remove_if, remove_loop. wp_steps. rewrite Hobj. wp_steps.
  eapply wp_walk_fuel; [done|]. wp_steps. rewrite (ok_head _ _ _ _ Hc).
  eapply (wp_remove_loop pred _ _ ps [] [] xs); [done|done|done|lia| |].
  - intros Heq HF. wp_step. rewrite Heq. split; [done|].
    rewrite (proj2 (existsb_false pred xs) HF). done.
  - intros w' HE Hrep'. wp_step. split; [done|].
    rewrite (proj2 (existsb_true pred xs) HE). done.
Qed.

Lemma wp_remove w xs x :
  rep w xs →
  wp (cobalt_list_remove x) (λ r w',
    if x =? NULL then r = -1 ∧ rep w' xs
    else r = (if bool_decide (x ∈ xs) then 0 else -1) ∧ rep w' (remove_first x xs)) w.
Proof.
  intros Hrep. destruct (id Hrep) as (l & ps & Hobj & Hc).
  unfold cobalt_list_remove, remove_loop. wp_steps. rewrite Hobj.
  destruct (x =? NULL); wp_steps; [done|].
  eapply wp_walk_fuel; [done|]. wp_steps. rewrite (ok_head _ _ _ _ Hc).
  rewrite <- remove_first_if_eqb.
  eapply (wp_remove_loop (λ d, d =? x) _ _ ps [] [] xs); [done|done|done|lia| |].
  - intros Heq HF. wp_step. rewrite Heq. split; [|done]. rewrite bool_decide_false; [done|].
    rewrite Forall_forall in HF. intros Hin. apply HF in Hin. lia.
  - intros w' HE Hrep'. wp_step. split; [|done]. rewrite bool_decide_true; [done|].
    apply Exists_exists in HE as (y & Hy & E). by apply Z.eqb_eq in E as ->.
Qed.

Lemma wp_lremove_seq w xs x :
  rep w xs →
  wp (list_remove_seq x) (λ _ w', rep w' (if x =? NULL then xs else remove_first x xs)) w.
Proof.
  intros Hrep. destruct (id Hrep) as (l & ps & Hobj & Hc).
  unfold list_remove_seq, remove_loop. wp_steps. rewrite Hobj.
  destruct (x =? NULL); wp_steps; [done|].
  eapply wp_walk_fuel; [done|]. wp_steps. rewrite (ok_head _ _ _ _ Hc).
  rewrite <- remove_first_if_eqb.
  eapply (wp_remove_loop (λ d, d =? x) _ _ ps [] [] xs); [done|done|done|lia| |].
  - intros Heq _. wp_step. by rewrite Heq.
  - intros w' _ Hrep'. by wp_step.
Qed.

Lemma wp_remove_at_loop Q index fuel : ∀ ps2 ps1 xs1 xs2 w l i,
  chain_ok w l (ps1 ++ ps2) (xs1 ++ xs2) → length ps1 = length xs1 →
  i = Z.of_nat (length ps1) → i ≤ index → (length ps2 < fuel)%nat →
  (Z.of_nat (length (xs1 ++ xs2)) ≤ index → ∀ q, Q (NULL, q) w) →
  (∀ qs1 q qs2 ys1 y ys2, ps1 ++ ps2 = qs1 ++ q :: qs2 → xs1 ++ xs2 = ys1 ++ y :: ys2 →
     length qs1 = length ys1 → Z.of_nat (length ys1) = index → Q (q, lastp NULL qs1) w) →
  wp (loop fuel (λ st : Z * Z * Z,
        let '(node, prev, i) := st in
        if negb (node =? NULL) && (i <? index)
        then c <- load node ;; mret (inl (next c, node, i + 1))
        else mret (inr (node, prev))) (hd NULL ps2, lastp NULL ps1, i)) Q w.
Proof.
  induction fuel as [|n IH]; intros ps2 ps1 xs1 xs2 w l i Hc Hl Hi Hle Hf HN HS; [lia|].
  pose proof (chain_null _ _ _ _ Hc) as Hn.
  pose proof (ok_seg _ _ _ _ Hc) as Hseg. apply dlseg_app in Hseg as [_ Hseg2]; [|done].
  destruct ps2 as [|p ps2], xs2 as [|x xs2]; simpl in Hseg2; try done.
  - simpl. wp_steps. apply HN. rewrite app_nil_r. lia.
  - destruct Hseg2 as [Hp _]. simpl.
    rewrite (proj2 (Z.eqb_neq _ _)) by set_solver. simpl.
    destruct (Z.ltb_spec i index); wp_steps.
    + eapply wp_load; [done|]. wp_steps. simpl. rewrite <- (lastp_snoc NULL ps1 p).
      eapply (IH ps2 (ps1 ++ [p]) (xs1 ++ [x]) xs2);
        rewrite <- ?app_assoc, ?length_app; simpl in *; try done; try lia.
      by rewrite length_app in HN.
    + eapply HS; [done..|]. lia.
Qed.

Lemma wp_remove_at w xs index :
  rep w xs → 0 ≤ index →
  wp (cobalt_list_remove_at index) (λ r w',
    rep w' (delete (Z.to_nat index) xs) ∧
    r = if index <? Z.of_nat (length xs) then 0 else -1) w.
Proof.
  intros Hrep Hi. destruct (id Hrep) as (l & ps & Hobj & Hc).
  unfold cobalt_list_remove_at. wp_steps. rewrite Hobj. wp_steps.
  eapply wp_walk_fuel; [done|]. wp_steps. rewrite (ok_head _ _ _ _ Hc).
  eapply (wp_remove_at_loop _ _ _ ps [] [] xs w l); [done|done|done|done|lia| |].
  - simpl. intros Hge q. wp_steps. rewrite (proj2 (Z.ltb_ge _ _)) by lia.
    split; [|done]. rewrite delete_take_drop, take_ge, drop_ge, app_nil_r by lia. done.
  - simpl. intros qs1 q qs2 ys1 y ys2 -> -> Hl Hidx. simpl.
    rewrite (proj2 (Z.eqb_neq _ _)) by (pose proof (chain_null _ _ _ _ Hc); set_solver).
    wp_steps. eapply wp_unlink; [done..|]. intros w' Hrep'. wp_steps.
    rewrite length_app; simpl. rewrite (proj2 (Z.ltb_lt _ _)) by lia. split; [|done].
    by rewrite delete_middle_Z.
Qed.

Lemma wp_pop_front w xs :
  rep w xs →
  wp cobalt_list_pop_front (λ r w',
    match xs with
    | [] => r = NULL ∧ rep w' [] ∧ last_error w' = COBALT_ERROR_EMPTY_CONTAINER
    | x :: xs' => r = x ∧ rep w' xs'
    end) w.
Proof.
  intros Hrep. destruct (id Hrep) as (l & ps & Hobj & Hc).
  unfold cobalt_list_pop_front, empty_error. wp_steps. rewrite Hobj.
  pose proof (chain_null _ _ _ _ Hc) as Hn. rewrite (ok_head _ _ _ _ Hc).
  pose proof (ok_seg _ _ _ _ Hc) as Hseg. pose proof (ok_nodup _ _ _ _ Hc) as Hnd.
  destruct ps as [|p ps], xs as [|x xs]; simpl in Hseg; try done.
  { simpl. wp_steps. split_and!; [done| |done]. by apply rep_error. }
  destruct Hseg as [Hp Hseg]. simpl.
  rewrite (proj2 (Z.eqb_neq _ _)) by set_solver. wp_steps. eapply wp_load; [done|].
  wp_steps. simpl. eapply wp_set_head; [done|]. wp_steps.
  destruct ps as [|q ps]; simpl in *.
  - eapply wp_set_tail; [done|]. wp_steps. eapply wp_load; [done|]. wp_steps.
    eapply wp_free_node; [set_solver|done|]. wp_step. eapply wp_decr_size; [done|]. wp_steps.
    split; [done|].
    by eapply rep_intro; [done| |eapply (chain_unlink _ _ _ [] p [] []); [exact Hc|done..]].
  - rewrite (proj2 (Z.eqb_neq _ _)) by set_solver.
    apply NoDup_cons in Hnd as [Hpq _].
    eapply wp_set_prev; [apply (chain_in _ _ _ _ _ Hc); set_solver|set_solver|]. wp_steps.
    eapply wp_load; [simpl; rewrite lookup_link_prev_ne by set_solver; done|]. wp_steps.
    eapply wp_free_node; [set_solver|simpl; rewrite lookup_link_prev_ne by set_solver; done|].
    wp_step. eapply wp_decr_size; [done|]. wp_steps. split; [done|].
    eapply rep_intro; [done| |eapply (chain_unlink _ _ _ [] p (q :: ps) []); [exact Hc|done..]].
    simpl. by rewrite (ok_tail _ _ _ _ Hc), !lastp_cons.
Qed.

Lemma wp_pop_back w xs :
  rep w xs →
  wp cobalt_list_pop_back (λ r w',
    match last xs with
    | None => r = NULL ∧ rep w' [] ∧ last_error w' = COBALT_ERROR_EMPTY_CONTAINER
    | Some x => r = x ∧ rep w' (take (length xs - 1) xs)
    end) w.
Proof.
  intros Hrep. destruct (id Hrep) as (l & ps & Hobj & Hc).
  unfold cobalt_list_pop_back, empty_error. wp_steps. rewrite Hobj.
  pose proof (chain_null _ _ _ _ Hc) as Hn. rewrite (ok_tail _ _ _ _ Hc).
  destruct (chain_length _ _ _ _ Hc) as [Hlen _].
  destruct xs as [|x xs _] using rev_ind.
  { destruct ps; [|done]. simpl. wp_steps. split_and!; [done| |done]. by apply rep_error. }
  destruct ps as [|p ps _] using rev_ind; [rewrite length_app in Hlen; simpl in Hlen; lia|].
  assert (length ps = length xs) as Hl by (rewrite !length_app in Hlen; simpl in Hlen; lia).
  pose proof (ok_seg _ _ _ _ Hc) as Hseg. apply dlseg_app in Hseg as [_ [Hp _]]; [|done].
  pose proof (ok_nodup _ _ _ _ Hc) as Hnd. apply NoDup_app in Hnd as (_ & Hd & _).
  rewrite last_snoc, lastp_snoc, length_app; simpl.
  rewrite Nat.add_sub, take_app_length.
  rewrite (proj2 (Z.eqb_neq _ _)) by set_solver. wp_steps. eapply wp_load; [done|].
  wp_steps. simpl. eapply wp_set_tail; [done|]. wp_steps.
  destruct (decide (ps = [])) as [->|Hne]; simpl in *.
  - eapply wp_set_head; [done|]. wp_steps. eapply wp_load; [done|]. wp_steps.
    eapply wp_free_node; [set_solver|done|]. wp_step. eapply wp_decr_size; [done|]. wp_steps.
    split; [done|]. rewrite <- (app_nil_r xs).
    by eapply rep_intro; [done| |eapply (chain_unlink _ _ _ [] p [] _ x []); [exact Hc|done..]].
  - assert (lastp NULL ps ∈ ps) as Hlin by (by apply lastp_in).
    assert (p ≠ lastp NULL ps) by (intros ->; eapply Hd; [done|set_solver]).
    rewrite (proj2 (Z.eqb_neq _ _)) by (rewrite lastp_NULL by set_solver; done).
    eapply wp_set_next; [apply (chain_in _ _ _ _ _ Hc); set_solver
                        |rewrite lastp_NULL by set_solver; done|]. wp_steps.
    eapply wp_load; [simpl; rewrite lookup_link_next_ne by done; done|]. wp_steps.
    eapply wp_free_node; [set_solver|simpl; rewrite lookup_link_next_ne by done; done|].
    wp_step. eapply wp_decr_size; [done|]. wp_steps. split; [done|]. rewrite <- (app_nil_r xs).
    eapply rep_intro; [done| |eapply (chain_unlink _ _ _ ps p [] _ x []); [exact Hc|done..]].
    simpl. rewrite app_nil_r, (ok_head _ _ _ _ Hc). by destruct ps.
Qed.

Lemma wp_walk_next w l ps xs Q n : ∀ i p,
  chain_ok w l ps xs → ps !! i = Some p → (i + n < length ps)%nat →
  (∀ q, ps !! (i + n)%nat = Some q → Q q w) → wp (walk_next n p) Q w.
Proof.
  induction n as [|n IH]; intros i p Hc Hp Hlt HQ; simpl.
  { apply wp_ret, HQ. by rewrite Nat.add_0_r. }
  destruct (chain_length _ _ _ _ Hc) as [Hl _].
  destruct (lookup_lt_is_Some_2 xs i) as [x Hx]; [lia|].
  destruct (lookup_lt_is_Some_2 ps (S i)) as [q Hq]; [lia|].
  wp_step. eapply wp_load; [by eapply dlseg_lookup; [apply Hc|..]|]. simpl. rewrite Hq; simpl.
  eapply (IH (S i)); [done..|lia|]. intros r. replace (S i + n)%nat with (i + S n)%nat by lia.
  apply HQ.
Qed.

Lemma wp_walk_prev w l ps xs Q n : ∀ i p,
  chain_ok w l ps xs → ps !! i = Some p → (n <= i)%nat →
  (∀ q, ps !! (i - n)%nat = Some q → Q q w) → wp (walk_prev n p) Q w.
Proof.
  induction n as [|n IH]; intros i p Hc Hp Hlt HQ; simpl.
  { apply wp_ret, HQ. by rewrite Nat.sub_0_r. }
  destruct (chain_length _ _ _ _ Hc) as [Hl _]. apply lookup_lt_Some in Hp as Hi.
  destruct (lookup_lt_is_Some_2 xs i) as [x Hx]; [lia|].
  destruct i as [|i]; [lia|]. destruct (lookup_lt_is_Some_2 ps i) as [q Hq]; [lia|].
  wp_step. eapply wp_load; [by eapply dlseg_lookup; [apply Hc|..]|]. simpl. rewrite Hq; simpl.
  eapply (IH i); [done..|lia|]. intros r. replace (i - n)%nat with (S i - S n)%nat by lia.
  apply HQ.
Qed.

Lemma wp_lget w xs i :
  rep w xs → 0 ≤ i →
  wp (cobalt_list_get i) (λ r w', rep w' xs ∧ r = default NULL (xs !! Z.to_nat i)) w.
Proof.
  intros Hrep Hi. destruct (id Hrep) as (l & ps & Hobj & Hc).
  unfold cobalt_list_get. wp_steps. rewrite Hobj.
  destruct (chain_length _ _ _ _ Hc) as [Hl _]. pose proof (ok_size _ _ _ _ Hc) as Hs.
  destruct (Z.leb_spec (size l) i).
  { wp_steps. split; [by apply rep_error|]. by rewrite lookup_ge_None_2 by lia. }
  assert (∀ q, ps !! Z.to_nat i = Some q →
    wp (c <- load q ;; mret (data c))
      (λ r w', rep w' xs ∧ r = default NULL (xs !! Z.to_nat i)) w) as Hread.
  { intros q Hq. destruct (lookup_lt_is_Some_2 xs (Z.to_nat i)) as [x Hx]; [lia|].
    wp_step. eapply wp_load; [by eapply dlseg_lookup; [apply Hc|..]|]. wp_step.
    by rewrite Hx. }
  wp_step. destruct (Z.ltb_spec i (size l / 2)).
  - rewrite (ok_head _ _ _ _ Hc). destruct ps as [|p ps]; [simpl in *; lia|].
    eapply (wp_walk_next _ _ (p :: ps) xs _ _ 0%nat); [done|done|simpl in *; lia|].
    simpl. intros q Hq. by apply Hread.
  - rewrite (ok_tail _ _ _ _ Hc).
    assert (ps !! (length ps - 1)%nat = Some (lastp NULL ps)) as Hlast.
    { unfold lastp. replace (length ps - 1)%nat with (pred (length ps)) by lia.
      rewrite <- last_lookup. destruct (last ps) eqn:E; [done|].
      apply last_None in E as ->. simpl in *. lia. }
    eapply wp_walk_prev; [done|exact Hlast|lia|]. intros q Hq. apply Hread.
    rewrite <- Hq. f_equal. lia.
Qed.

Lemma wp_destroy_nodes Q fuel : ∀ ps xs prv (w : lworld),
  dlseg (heap w) prv ps xs NULL → NULL ∉ ps → NoDup ps → (length ps < fuel)%nat →
  (∀ w', obj w' = obj w → heap w' = foldr delete (heap w) ps → brk w' = brk w → Q tt w') →
  wp (loop fuel (λ node : Z,
        if node =? NULL then mret (inr tt)
        else c <- load node ;; free_node node ;;; mret (inl (next c))) (hd NULL ps)) Q w.
Proof.
  induction fuel as [|n IH]; intros ps xs prv w Hseg Hn Hnd Hf HQ; [lia|].
  destruct ps as [|p ps], xs as [|x xs]; simpl in Hseg; try done; simpl.
  { wp_steps. by apply HQ. }
  destruct Hseg as [Hp Hseg]. apply NoDup_cons in Hnd as [Hpp Hnd].
  rewrite (proj2 (Z.eqb_neq _ _)) by set_solver. wp_steps. eapply wp_load; [done|].
  wp_steps. eapply wp_free_node; [set_solver|done|]. wp_steps. simpl.
  eapply (IH ps xs p); simpl in *; [|set_solver|done|lia|].
  - eapply dlseg_frame; [done|]. simpl. intros q Hq.
    rewrite lookup_delete_ne; [done|]. by intros <-.
  - intros w' Ho Hh Hb. apply HQ; [done| |done].
    rewrite Hh; simpl. clear. induction ps as [|q ps IH]; simpl; [done|].
    by rewrite IH, delete_delete.
Qed.

(** Every node is given back: the heap is empty after [cobalt_list_destroy]. *)
Lemma wp_ldestroy w xs :
  rep w xs → wp cobalt_list_destroy (λ _ w', obj w' = None ∧ heap w' = ∅) w.
Proof.
  intros Hrep. destruct (id Hrep) as (l & ps & Hobj & Hc).
  unfold cobalt_list_destroy. wp_steps. rewrite Hobj. wp_steps.
  eapply wp_walk_fuel; [done|]. wp_steps. rewrite (ok_head _ _ _ _ Hc).
  eapply wp_destroy_nodes; [apply Hc|by eapply chain_null|apply Hc|lia|].
  intros w' _ Hh _. wp_steps. split; [done|]. simpl. rewrite Hh.
  apply dom_empty_inv_L. pose proof (ok_dom _ _ _ _ Hc) as Hd. clear -Hd.
  apply set_eq. intros q. rewrite elem_of_dom.
  split; [|set_solver]. intros [c Hq]. exfalso.
  assert (q ∈ ps) as Hin.
  { assert (q ∈ dom (heap w)); [|set_solver]. apply elem_of_dom.
    clear Hd. induction ps as [|p ps IH]; simpl in Hq; [eauto|].
    apply lookup_delete_Some in Hq as [_ Hq]. auto. }
  clear Hd. induction ps as [|p ps IH]; simpl in Hq; [set_solver|].
  apply lookup_delete_Some in Hq as [Hne Hq]. apply IH; [done|set_solver].
Qed.

(** ** The list as a sequence *)

#[export] Instance list_sequence : Sequence dlist node := {
  seq_size := list_size_seq;
  seq_is_empty := list_is_empty_seq;
  seq_add := list_add_seq;
  seq_remove := list_remove_seq;
  seq_get_at_index := list_get_at_index_seq
}.

Lemma wp_add_seq w xs x :
  rep w xs → wp (list_add_seq x) (λ _ w', rep w' (xs ++ [x]) ∨ rep w' xs) w.
Proof.
  intros Hrep. destruct (id Hrep) as (l & ps & Hobj & Hc).
  unfold list_add_seq. wp_steps. apply wp_alloc_node; [intros Hok Hlt|intros Hno].
  - rewrite (proj2 (Z.eqb_neq _ _)) by (destruct (ok_heap _ _ _ _ Hc); unfold NULL; lia).
    wp_step. destruct (Z.eqb_spec (tail l) NULL) as [Ht|Ht]; wp_step.
    + eapply wp_set_tail; [done|]. eapply wp_set_head; [done|].
      eapply wp_incr_size; [done|]. left.
      eapply rep_intro; [done| |eapply chain_snoc; [exact Hc|done|done|]]; simpl; by rewrite Ht.
    + eapply wp_set_next; [|done|].
      { simpl. rewrite lookup_insert. case_decide; [by eexists|].
        apply (chain_in _ _ _ _ _ Hc). rewrite (ok_tail _ _ _ _ Hc) in *.
        apply lastp_in. by intros ->. }
      eapply wp_set_tail; [done|]. eapply wp_incr_size; [done|]. left.
      eapply rep_intro; [done| |eapply chain_snoc; [exact Hc|done|done|done]]; simpl.
      by rewrite (proj2 (Z.eqb_neq _ _) Ht).
  - wp_steps. right. apply rep_error. by apply rep_request.
Qed.

#[export] Instance list_sequence_laws : SequenceLaws rep.
Proof.
  split.
  - intros w xs (l & ps & -> & _). eauto.
  - apply rep_request.
  - intros w xs (l & ps & _ & Hc). by eapply chain_size_bound.
  - intros w xs (l & ps & Hobj & Hc). simpl. unfold list_size_seq. wp_steps.
    split; [done|apply Hc].
  - intros w xs (l & ps & Hobj & Hc). simpl. unfold list_is_empty_seq. wp_steps.
    split; [done|]. rewrite (ok_size _ _ _ _ Hc). by destruct xs.
  - intros w xs x. apply wp_add_seq.
  - intros w xs x. apply wp_lremove_seq.
  - intros w xs i. apply wp_lget.
Qed.

(** ** Refinement *)

Inductive op : Type :=
  | OPushFront (x : Z) | OPushBack (x : Z) | OPopFront | OPopBack | OGet (i : Z)
  | ORemove (x : Z) | ORemoveIf (pred : Z → bool) | ORemoveAt (i : Z) | OSize | OIsEmpty.

Definition op_ok (o : op) : Prop :=
  match o with OGet i | ORemoveAt i => 0 ≤ i | _ => True end.

Definition run (o : op) : M lworld Z :=
  match o with
  | OPushFront x => cobalt_list_push_front x
  | OPushBack x => cobalt_list_push_back x
  | OPopFront => cobalt_list_pop_front
  | OPopBack => cobalt_list_pop_back
  | OGet i => cobalt_list_get i
  | ORemove x => cobalt_list_remove x
  | ORemoveIf pred => cobalt_list_remove_if pred
  | ORemoveAt i => cobalt_list_remove_at i
  | OSize => cobalt_list_size
  | OIsEmpty => b <- cobalt_list_is_empty ;; mret (Z.b2z b)
  end.

Definition spec (o : op) (w : lworld) (xs : list Z) (r : Z) (xs' : list Z) : Prop :=
  match o with
  | OPushFront x => (r = 0 ∧ xs' = x :: xs) ∨ (r = -1 ∧ xs' = xs ∧ starved w sizeof_node)
  | OPushBack x => (r = 0 ∧ xs' = xs ++ [x]) ∨ (r = -1 ∧ xs' = xs ∧ starved w sizeof_node)
  | OPopFront => r = hd NULL xs ∧ xs' = List.tl xs
  | OPopBack => r = default NULL (last xs) ∧ xs' = take (length xs - 1) xs
  | OGet i => r = default NULL (xs !! Z.to_nat i) ∧ xs' = xs
  | ORemove x => if x =? NULL then r = -1 ∧ xs' = xs
                 else r = (if bool_decide (x ∈ xs) then 0 else -1) ∧ xs' = remove_first x xs
  | ORemoveIf pred => r = (if existsb pred xs then 0 else -1) ∧ xs' = remove_first_if pred xs
  | ORemoveAt i => r = (if i <? Z.of_nat (length xs) then 0 else -1) ∧
                   xs' = delete (Z.to_nat i) xs
  | OSize => r = Z.of_nat (length xs) ∧ xs' = xs
  | OIsEmpty => r = Z.b2z (bool_decide (xs = [])) ∧ xs' = xs
  end.

Lemma list_refines : refines run spec rep op_ok.
Proof.
  intros o w xs Hrep Hok. destruct o; simpl in *.
  - eapply wp_mono; [by apply wp_push_front|]. naive_solver (eauto with world).
  - eapply wp_mono; [by apply wp_push_back|]. naive_solver (eauto with world).
  - eapply wp_mono; [by apply wp_pop_front|]. destruct xs; naive_solver.
  - eapply wp_mono; [by apply wp_pop_back|]. simpl. intros r w'.
    destruct (last xs) eqn:E; [naive_solver|]. apply last_None in E as ->. naive_solver.
  - eapply wp_mono; [by apply wp_lget|]. naive_solver.
  - eapply wp_mono; [by apply wp_remove|]. simpl. intros r w'. case_match; naive_solver.
  - eapply wp_mono; [by apply wp_remove_if|]. naive_solver.
  - eapply wp_mono; [by apply wp_remove_at|]. naive_solver.
  - unfold cobalt_list_size. destruct (id Hrep) as (l & ps & Hobj & Hc). wp_steps.
    rewrite Hobj. exists xs. split; [|done]. split; [apply Hc|done].
  - unfold cobalt_list_is_empty. destruct (id Hrep) as (l & ps & Hobj & Hc). wp_steps.
    rewrite Hobj. exists xs. split; [|done]. split; [|done]. f_equal.
    rewrite (ok_size _ _ _ _ Hc). by destruct xs.
Qed.

Lemma wp_lcreate orc :
  wp cobalt_list_create (λ ok w, if ok then rep w [] else orc 0%nat 80 = false) (world0 orc).
Proof.
  unfold cobalt_list_create, cobalt_list_create_with_allocator. wp_steps.
  apply wp_request; intros Ho; wp_steps; [|done]. eexists _, []. split; [done|].
  split; simpl; try done. by apply NoDup_nil_2.
Qed.

(** C24: A doubly linked list from its creation to its destruction.  Whatever
    the allocator does, either the creation is refused, or every call of any
    sequence of pushes and pops at both ends, indexed reads, removals by value,
    by predicate and by index, size queries and tests for emptiness returns what the same call on a
    plain list returns (a push fails only when memory is short), and destroying
    the list at the end frees every node. *)
Theorem list_session orc os :
  Forall op_ok os →
  wp cobalt_list_create (λ ok w,
    if ok then behaves run spec os w [] (λ w' _,
      wp cobalt_list_destroy (λ _ w'', obj w'' = None ∧ heap w'' = ∅) w')
    else orc 0%nat 80 = false) (world0 orc).
Proof.
  intros Hos. eapply wp_mono; [apply wp_lcreate|]. intros [] w; [|done]. intros Hrep.
  eapply (refines_all _ _ _ _ list_refines); [done|done|]. intros w' xs. apply wp_ldestroy.
Qed.

Lemma list_session_witness :
  wp cobalt_list_create (λ ok w,
    if ok then behaves run spec [OPushBack 7; OPushFront 3; OGet 1; ORemove 7; OIsEmpty; OSize] w []
      (λ w' _, wp cobalt_list_destroy (λ _ w'', obj w'' = None ∧ heap w'' = ∅) w')
    else (λ (_ : nat) (_ : Z), true) 0%nat 80 = false) (world0 (λ _ _, true)).
Proof. apply list_session. repeat constructor; simpl; lia. Defined.

End LinkedList.
