(* ===== verification/Deque.v ===== *)
(** * Double-ended queue: src/src/container/deque.c

    The deque keeps the same header and the same nodes as the list, so the
    chain theory of [DLL] applies to it as it is. *)
From S2P Require Import Prelude World Sequence DLL List.
Import DLL.

Module Deque.

(** ** Operations *)

Definition deque_size_seq : M lworld Z := d <- deref ;; mret (size d).
Definition deque_is_empty_seq : M lworld bool := d <- deref ;; mret (size d =? 0).

Definition cobalt_deque_create_with_allocator (alloc : bool) : M lworld bool :=
  if negb alloc then mret false
  else
    ok <- request 80 ;;
    if negb ok then mret false
    else set_obj (Some (DList NULL NULL 0)) ;;; mret true.

Definition cobalt_deque_create : M lworld bool := cobalt_deque_create_with_allocator true.

Definition cobalt_deque_destroy : M lworld unit :=
  o <- get_obj ;;
  match o with
  | None => mret tt
  | Some d =>
      fuel <- LinkedList.walk_fuel ;;
      loop fuel (λ node : Z,
        if node =? NULL then mret (inr tt)
        else c <- load node ;; free_node node ;;; mret (inl (next c))) (head d) ;;;
      set_obj None
  end.

Definition cobalt_deque_push_front (item : Z) : M lworld Z :=
  o <- get_obj ;;
  match o with
  | None => mret (-1)
  | Some d =>
      node <- alloc_node sizeof_node (Node item (head d) NULL) ;;
      if node =? NULL
      then cobalt_error_set None COBALT_ERROR_OUT_OF_MEMORY ;;; mret (-1)
      else
        (if head d =? NULL then set_tail node else set_prev (head d) node) ;;;
        set_head node ;;;
        incr_size ;;;
        mret 0
  end.

Definition cobalt_deque_push_back (item : Z) : M lworld Z :=
  o <- get_obj ;;
  match o with
  | None => mret (-1)
  | Some d =>
      node <- alloc_node sizeof_node (Node item NULL (tail d)) ;;
      if node =? NULL
      then cobalt_error_set None COBALT_ERROR_OUT_OF_MEMORY ;;; mret (-1)
      else
        (if tail d =? NULL then set_head node else set_next (tail d) node) ;;;
        set_tail node ;;;
        incr_size ;;;
        mret 0
  end.

Definition deque_add_seq (item : Z) : M lworld unit :=
  cobalt_deque_push_back item ;;; mret tt.

Definition empty_error : M lworld Z :=
  cobalt_error_set None COBALT_ERROR_EMPTY_CONTAINER ;;; mret NULL.

Definition cobalt_deque_pop_front : M lworld Z :=
  o <- get_obj ;;
  match o with
  | None => empty_error
  | Some d =>
      if head d =? NULL then empty_error
      else
        c <- load (head d) ;;
        set_head (next c) ;;;
        (if next c =? NULL then set_tail NULL else set_prev (next c) NULL) ;;;
        free_node (head d) ;;;
        decr_size ;;;
        mret (data c)
  end.

Definition cobalt_deque_pop_back : M lworld Z :=
  o <- get_obj ;;
  match o with
  | None => empty_error
  | Some d =>
      if tail d =? NULL then empty_error
      else
        c <- load (tail d) ;;
        set_tail (prev c) ;;;
        (if prev c =? NULL then set_head NULL else set_next (prev c) NULL) ;;;
        free_node (tail d) ;;;
        decr_size ;;;
        mret (data c)
  end.

Definition cobalt_deque_peek_front : M lworld Z :=
  o <- get_obj ;;
  match o with
  | None => empty_error
  | Some d => if head d =? NULL then empty_error else c <- load (head d) ;; mret (data c)
  end.

Definition cobalt_deque_peek_back : M lworld Z :=
  o <- get_obj ;;
  match o with
  | None => empty_error
  | Some d => if tail d =? NULL then empty_error else c <- load (tail d) ;; mret (data c)
  end.

Definition cobalt_deque_size : M lworld Z :=
  o <- get_obj ;; mret (match o with Some d => size d | None => 0 end).

Definition cobalt_deque_is_empty : M lworld bool :=
  o <- get_obj ;; mret (match o with Some d => size d =? 0 | None => true end).

(** The body of the match in [deque_remove_seq]; [c] is the node read by the
    comparison. *)
Definition unlink_node (p : Z) (c : node) : M lworld unit :=
  (if prev c =? NULL then set_head (next c) else set_next (prev c) (next c)) ;;;
  c' <- load p ;;
  (if next c' =? NULL then set_tail (prev c') else set_prev (next c') (prev c')) ;;;
  free_node p ;;;
  decr_size.

Definition deque_remove_seq (item : Z) : M lworld unit :=
  o <- get_obj ;;
  match o with
  | None => mret tt
  | Some d =>
      if item =? NULL then mret tt
      else
        fuel <- LinkedList.walk_fuel ;;
        loop fuel (λ p : Z,
          if p =? NULL then mret (inr tt)
          else
            c <- load p ;;
            if data c =? item then unlink_node p c ;;; mret (inr tt)
            else mret (inl (next c))) (head d)
  end.

Definition deque_get_at_index_seq (index : Z) : M lworld Z :=
  o <- get_obj ;;
  match o with
  | None => mret NULL
  | Some d =>
      if size d <=? index then mret NULL
      else
        node <- (if wrap64 (index * 2) <? size d
                 then LinkedList.walk_next (Z.to_nat index) (head d)
                 else LinkedList.walk_prev (Z.to_nat (size d - 1 - index)) (tail d)) ;;
        c <- load node ;;
        mret (data c)
  end.

(** ** Operations on a represented deque *)

Lemma deque_push_front_list x : cobalt_deque_push_front x = LinkedList.cobalt_list_push_front x.
Proof. done. Qed.

Lemma deque_push_back_list x : cobalt_deque_push_back x = LinkedList.cobalt_list_push_back x.
Proof. done. Qed.

Lemma deque_destroy_list : cobalt_deque_destroy = LinkedList.cobalt_list_destroy.
Proof. done. Qed.

(** The list re-reads the node it is about to free, the deque has read it
    before: the two pops agree on a represented deque. *)
Lemma wp_dpop_front w xs :
  rep w xs →
  wp cobalt_deque_pop_front (λ r w',
    match xs with
    | [] => r = NULL ∧ rep w' [] ∧ last_error w' = COBALT_ERROR_EMPTY_CONTAINER
    | x :: xs' => r = x ∧ rep w' xs'
    end) w.
Proof.
  intros Hrep. destruct (id Hrep) as (l & ps & Hobj & Hc).
  unfold cobalt_deque_pop_front, empty_error. wp_steps. rewrite Hobj.
  pose proof (chain_null _ _ _ _ Hc) as Hn. rewrite (ok_head _ _ _ _ Hc).
  pose proof (ok_seg _ _ _ _ Hc) as Hseg. pose proof (ok_nodup _ _ _ _ Hc) as Hnd.
  destruct ps as [|p ps], xs as [|x xs]; simpl in Hseg; try done.
  { simpl. wp_steps. split_and!; [done| |done]. by apply rep_error. }
  destruct Hseg as [Hp Hseg]. simpl.
  rewrite (proj2 (Z.eqb_neq _ _)) by set_solver. wp_steps. eapply wp_load; [done|].
  wp_steps. simpl. eapply wp_set_head; [done|]. wp_steps.
  destruct ps as [|q ps]; simpl in *.
  - eapply wp_set_tail; [done|]. wp_steps.
    eapply wp_free_node; [set_solver|done|]. wp_step. eapply wp_decr_size; [done|]. wp_steps.
    split; [done|].
    by eapply rep_intro; [done| |eapply (chain_unlink _ _ _ [] p [] []); [exact Hc|done..]].
  - rewrite (proj2 (Z.eqb_neq _ _)) by set_solver.
    apply NoDup_cons in Hnd as [Hpq _].
    eapply wp_set_prev; [apply (chain_in _ _ _ _ _ Hc); set_solver|set_solver|]. wp_steps.
    eapply wp_free_node; [set_solver|simpl; rewrite lookup_link_prev_ne by set_solver; done|].
    wp_step. eapply wp_decr_size; [done|]. wp_steps. split; [done|].
    eapply rep_intro; [done| |eapply (chain_unlink _ _ _ [] p (q :: ps) []); [exact Hc|done..]].
    simpl. by rewrite (ok_tail _ _ _ _ Hc), !lastp_cons.
Qed.

Lemma wp_dpop_back w xs :
  rep w xs →
  wp cobalt_deque_pop_back (λ r w',
    match last xs with
    | None => r = NULL ∧ rep w' [] ∧ last_error w' = COBALT_ERROR_EMPTY_CONTAINER
    | Some x => r = x ∧ rep w' (take (length xs - 1) xs)
    end) w.
Proof.
  intros Hrep. destruct (id Hrep) as (l & ps & Hobj & Hc).
  unfold cobalt_deque_pop_back, empty_error. wp_steps. rewrite Hobj.
  pose proof (chain_null _ _ _ _ Hc) as Hn. rewrite (ok_tail _ _ _ _ Hc).
  destruct (chain_length _ _ _ _ Hc) as [Hlen _].
  destruct xs as [|x xs _] using rev_ind.
  { destruct ps; [|done]. simpl. wp_steps. split_and!; [done| |done]. by apply rep_error. }
  destruct ps as [|p ps _] using rev_ind; [rewrite length_app in Hlen; simpl in Hlen; lia|].
  assert (length ps = length xs) as Hl by (rewrite !length_app in Hlen; simpl in Hlen; lia).
  pose proof (ok_seg _ _ _ _ Hc) as Hseg. apply dlseg_app in Hseg as [_ [Hp _]]; [|done].
  pose proof (ok_nodup _ _ _ _ Hc) as Hnd. apply NoDup_app in Hnd as (_ & Hd & _).
  rewrite last_snoc, lastp_snoc, length_app; simpl.
  rewrite Nat.add_sub, take_app_length.
  rewrite (proj2 (Z.eqb_neq _ _)) by set_solver. wp_steps. eapply wp_load; [done|].
  wp_steps. simpl. eapply wp_set_tail; [done|]. wp_steps.
  destruct (decide (ps = [])) as [->|Hne]; simpl in *.
  - eapply wp_set_head; [done|]. wp_steps.
    eapply wp_free_node; [set_solver|done|]. wp_step. eapply wp_decr_size; [done|]. wp_steps.
    split; [done|]. rewrite <- (app_nil_r xs).
    by eapply rep_intro; [done| |eapply (chain_unlink _ _ _ [] p [] _ x []); [exact Hc|done..]].
  - assert (lastp NULL ps ∈ ps) as Hlin by (by apply lastp_in).
    assert (p ≠ lastp NULL ps) by (intros ->; eapply Hd; [done|set_solver]).
    rewrite (proj2 (Z.eqb_neq _ _)) by (rewrite lastp_NULL by set_solver; done).
    eapply wp_set_next; [apply (chain_in _ _ _ _ _ Hc); set_solver
                        |rewrite lastp_NULL by set_solver; done|]. wp_steps.
    eapply wp_free_node; [set_solver|simpl; rewrite lookup_link_next_ne by done; done|].
    wp_step. eapply wp_decr_size; [done|]. wp_steps. split; [done|]. rewrite <- (app_nil_r xs).
    eapply rep_intro; [done| |eapply (chain_unlink _ _ _ ps p [] _ x []); [exact Hc|done..]].
    simpl. rewrite app_nil_r, (ok_head _ _ _ _ Hc). by destruct ps.
Qed.

Lemma wp_peek_front w xs :
  rep w xs → wp cobalt_deque_peek_front (λ r w', r = hd NULL xs ∧ rep w' xs) w.
Proof.
  intros Hrep. destruct (id Hrep) as (l & ps & Hobj & Hc).
  unfold cobalt_deque_peek_front, empty_error. wp_steps. rewrite Hobj, (ok_head _ _ _ _ Hc).
  pose proof (chain_null _ _ _ _ Hc) as Hn. pose proof (ok_seg _ _ _ _ Hc) as Hseg.
  destruct ps as [|p ps], xs as [|x xs]; simpl in Hseg; try done; simpl.
  - wp_steps. split; [done|]. by apply rep_error.
  - rewrite (proj2 (Z.eqb_neq _ _)) by set_solver. wp_steps.
    eapply wp_load; [apply Hseg|]. by wp_steps.
Qed.

Lemma wp_peek_back w xs :
  rep w xs → wp cobalt_deque_peek_back (λ r w', r = default NULL (last xs) ∧ rep w' xs) w.
Proof.
  intros Hrep. destruct (id Hrep) as (l & ps & Hobj & Hc).
  unfold cobalt_deque_peek_back, empty_error. wp_steps. rewrite Hobj, (ok_tail _ _ _ _ Hc).
  pose proof (chain_null _ _ _ _ Hc) as Hn. destruct (chain_length _ _ _ _ Hc) as [Hlen _].
  destruct xs as [|x xs _] using rev_ind.
  { destruct ps; [|done]. simpl. wp_steps. split; [done|]. by apply rep_error. }
  destruct ps as [|p ps _] using rev_ind; [rewrite length_app in Hlen; simpl in Hlen; lia|].
  pose proof (ok_seg _ _ _ _ Hc) as Hseg.
  apply dlseg_app in Hseg as [_ [Hp _]]; [|rewrite !length_app in Hlen; simpl in Hlen; lia].
  rewrite last_snoc, lastp_snoc. rewrite (proj2 (Z.eqb_neq _ _)) by set_solver. wp_steps.
  eapply wp_load; [done|]. by wp_steps.
Qed.

Lemma wp_unlink_node w l ps1 p ps2 xs1 x xs2 Q :
  obj w = Some l → chain_ok w l (ps1 ++ p :: ps2) (xs1 ++ x :: xs2) →
  length ps1 = length xs1 → (∀ w', rep w' (xs1 ++ xs2) → Q tt w') →
  wp (unlink_node p (Node x (hd NULL ps2) (lastp NULL ps1))) Q w.
Proof.
  intros Hobj Hc Hl HQ.
  pose proof (ok_seg _ _ _ _ Hc) as Hseg. apply dlseg_app in Hseg as [_ [Hp _]]; [|done].
  pose proof (ok_nodup _ _ _ _ Hc) as Hnd. apply NoDup_app in Hnd as (_ & Hd & _).
  pose proof (LinkedList.wp_unlink _ _ _ _ _ _ _ _ _ Hobj Hc Hl HQ) as Hu.
  unfold unlink_node, LinkedList.unlink in *. unfold wp in Hu at 1.
  unfold mbind at 1, load at 1 in Hu. rewrite Hp in Hu. simpl in Hu |- *.
  unfold wp, mbind in *. destruct (Z.eqb_spec (lastp NULL ps1) NULL) as [E|E].
  - unfold set_head, deref, mbind, set_obj in *. rewrite Hobj in *. simpl in *.
    unfold load in *. simpl in *. rewrite Hp in *. done.
  - destruct (decide (ps1 = [])) as [->|Hne]; [done|].
    assert (p ≠ lastp NULL ps1) as Hpl.
    { intros Epl. apply (Hd (lastp NULL ps1)); [by apply lastp_in|]. rewrite <- Epl. by left. }
    destruct (set_next (lastp NULL ps1) (hd NULL ps2) w) as [[] w1|] eqn:Es; [|done].
    assert (heap w1 !! p = heap w !! p) as Hp1.
    { unfold set_next, mbind, load, store in Es.
      destruct (heap w !! lastp NULL ps1) eqn:Eh; [|done]. rewrite Eh in Es.
      injection Es as <-. simpl. by rewrite lookup_insert_ne. }
    unfold load in *. rewrite Hp1, Hp in *. done.
Qed.

Lemma wp_dremove_loop item Q fuel : ∀ ps2 ps1 xs1 xs2 w l,
  obj w = Some l → chain_ok w l (ps1 ++ ps2) (xs1 ++ xs2) →
  length ps1 = length xs1 → (length ps2 < fuel)%nat →
  (∀ w', rep w' (xs1 ++ remove_first item xs2) → Q tt w') →
  wp (loop fuel (λ p : Z,
          if p =? NULL then mret (inr tt)
          else
            c <- load p ;;
            if data c =? item then unlink_node p c ;;; mret (inr tt)
            else mret (inl (next c))) (hd NULL ps2)) Q w.
Proof.
  induction fuel as [|n IH]; intros ps2 ps1 xs1 xs2 w l Hobj Hc Hl Hf HQ; [lia|].
  pose proof (chain_null _ _ _ _ Hc) as Hn.
  pose proof (ok_seg _ _ _ _ Hc) as Hseg. apply dlseg_app in Hseg as [_ Hseg2]; [|done].
  destruct ps2 as [|p ps2], xs2 as [|x xs2]; simpl in Hseg2; try done.
  - simpl. wp_steps. apply HQ. by exists l, (ps1 ++ []).
  - destruct Hseg2 as [Hp _]. simpl.
    rewrite (proj2 (Z.eqb_neq _ _)) by set_solver. wp_steps. eapply wp_load; [done|].
    simpl. destruct (x =? item) eqn:E; wp_steps.
    + eapply wp_unlink_node; [done..|]. intros w' Hrep. wp_steps. apply HQ.
      simpl. by rewrite E.
    + eapply (IH ps2 (ps1 ++ [p]) (xs1 ++ [x]) xs2);
        rewrite <- ?app_assoc, ?length_app; simpl in *; try done; try lia.
      intros w'. specialize (HQ w'). simpl in HQ. by rewrite E, <- ?app_assoc in *.
Qed.

Lemma wp_dremove_seq w xs x :
  rep w xs →
  wp (deque_remove_seq x) (λ _ w', rep w' (if x =? NULL then xs else remove_first x xs)) w.
Proof.
  intros Hrep. destruct (id Hrep) as (l & ps & Hobj & Hc).
  unfold deque_remove_seq. wp_steps. rewrite Hobj. destruct (x =? NULL); wp_steps; [done|].
  eapply LinkedList.wp_walk_fuel; [done|]. rewrite (ok_head _ _ _ _ Hc).
  eapply (wp_dremove_loop _ _ _ ps [] [] xs); [done|done|done|lia|]. done.
Qed.

Lemma wp_dget w xs i :
  rep w xs → 0 ≤ i →
  wp (deque_get_at_index_seq i) (λ r w', rep w' xs ∧ r = default NULL (xs !! Z.to_nat i)) w.
Proof.
  intros Hrep Hi. destruct (id Hrep) as (l & ps & Hobj & Hc).
  unfold deque_get_at_index_seq. wp_steps. rewrite Hobj.
  destruct (chain_length _ _ _ _ Hc) as [Hl _]. pose proof (ok_size _ _ _ _ Hc) as Hs.
  destruct (Z.leb_spec (size l) i).
  { wp_steps. split; [done|]. by rewrite lookup_ge_None_2 by lia. }
  assert (∀ q, ps !! Z.to_nat i = Some q →
    wp (c <- load q ;; mret (data c))
      (λ r w', rep w' xs ∧ r = default NULL (xs !! Z.to_nat i)) w) as Hread.
  { intros q Hq. destruct (lookup_lt_is_Some_2 xs (Z.to_nat i)) as [x Hx]; [lia|].
    wp_step. eapply wp_load; [by eapply dlseg_lookup; [apply Hc|..]|]. wp_step.
    by rewrite Hx. }
  wp_step. case_match.
  - rewrite (ok_head _ _ _ _ Hc). destruct ps as [|p ps]; [simpl in *; lia|].
    eapply (LinkedList.wp_walk_next _ _ (p :: ps) xs _ _ 0%nat); [done|done|simpl in *; lia|].
    simpl. intros q Hq. by apply Hread.
  - rewrite (ok_tail _ _ _ _ Hc).
    assert (ps !! (length ps - 1)%nat = Some (lastp NULL ps)) as Hlast.
    { unfold lastp. replace (length ps - 1)%nat with (pred (length ps)) by lia.
      rewrite <- last_lookup. destruct (last ps) eqn:E; [done|].
      apply last_None in E as ->. simpl in *. lia. }
    eapply LinkedList.wp_walk_prev; [done|exact Hlast|lia|]. intros q Hq. apply Hread.
    rewrite <- Hq. f_equal. lia.
Qed.

(** ** The deque as a sequence *)

Definition deque_sequence : Sequence dlist node := {|
  seq_size := deque_size_seq;
  seq_is_empty := deque_is_empty_seq;
  seq_add := deque_add_seq;
  seq_remove := deque_remove_seq;
  seq_get_at_index := deque_get_at_index_seq
|}.

Lemma deque_sequence_laws : @SequenceLaws _ _ deque_sequence rep.
Proof.
  split.
  - intros w xs (l & ps & -> & _). eauto.
  - apply rep_request.
  - intros w xs (l & ps & _ & Hc). by eapply chain_size_bound.
  - intros w xs (l & ps & Hobj & Hc). simpl. unfold deque_size_seq. wp_steps.
    split; [done|apply Hc].
  - intros w xs (l & ps & Hobj & Hc). simpl. unfold deque_is_empty_seq. wp_steps.
    split; [done|]. rewrite (ok_size _ _ _ _ Hc). by destruct xs.
  - intros w xs x Hrep. simpl. unfold deque_add_seq. wp_steps.
    rewrite deque_push_back_list. eapply wp_mono; [by apply LinkedList.wp_push_back|].
    intros r w' H. wp_step. naive_solver.
  - intros w xs x. apply wp_dremove_seq.
  - intros w xs i. apply wp_dget.
Qed.

(** ** Refinement *)

Inductive op : Set :=
  | OPushFront (x : Z) | OPushBack (x : Z) | OPopFront | OPopBack
  | OPeekFront | OPeekBack | ORemove (x : Z) | OSize.

Definition run (o : op) : M lworld Z :=
  match o with
  | OPushFront x => cobalt_deque_push_front x
  | OPushBack x => cobalt_deque_push_back x
  | OPopFront => cobalt_deque_pop_front
  | OPopBack => cobalt_deque_pop_back
  | OPeekFront => cobalt_deque_peek_front
  | OPeekBack => cobalt_deque_peek_back
  | ORemove x => deque_remove_seq x ;;; mret 0
  | OSize => cobalt_deque_size
  end.

Definition spec (o : op) (w : lworld) (xs : list Z) (r : Z) (xs' : list Z) : Prop :=
  match o with
  | OPushFront x => (r = 0 ∧ xs' = x :: xs) ∨ (r = -1 ∧ xs' = xs ∧ starved w sizeof_node)
  | OPushBack x => (r = 0 ∧ xs' = xs ++ [x]) ∨ (r = -1 ∧ xs' = xs ∧ starved w sizeof_node)
  | OPopFront => r = hd NULL xs ∧ xs' = List.tl xs
  | OPopBack => r = default NULL (last xs) ∧ xs' = take (length xs - 1) xs
  | OPeekFront => r = hd NULL xs ∧ xs' = xs
  | OPeekBack => r = default NULL (last xs) ∧ xs' = xs
  | ORemove x => r = 0 ∧ xs' = if x =? NULL then xs else remove_first x xs
  | OSize => r = Z.of_nat (length xs) ∧ xs' = xs
  end.

Lemma deque_refines : refines run spec rep (λ _, True).
Proof.
  intros o w xs Hrep _. destruct o; simpl in *.
  - rewrite deque_push_front_list. eapply wp_mono; [by apply LinkedList.wp_push_front|].
    naive_solver (eauto with world).
  - rewrite deque_push_back_list. eapply wp_mono; [by apply LinkedList.wp_push_back|].
    naive_solver (eauto with world).
  - eapply wp_mono; [by apply wp_dpop_front|]. destruct xs; naive_solver.
  - eapply wp_mono; [by apply wp_dpop_back|]. simpl. intros r w'.
    destruct (last xs) eqn:E; [naive_solver|]. apply last_None in E as ->. naive_solver.
  - eapply wp_mono; [by apply wp_peek_front|]. naive_solver.
  - eapply wp_mono; [by apply wp_peek_back|]. naive_solver.
  - wp_step. eapply wp_mono; [by apply wp_dremove_seq|]. intros ???. wp_step. eauto.
  - unfold cobalt_deque_size. destruct (id Hrep) as (l & ps & Hobj & Hc). wp_steps.
    rewrite Hobj. exists xs. split; [|done]. split; [apply Hc|done].
Qed.

(** A deque from its creation to its destruction.  Whatever the allocator
    does, either the creation is refused, or every call of any sequence of
    pushes, pops and peeks at both ends, removals and size queries returns what
    the same call on a plain list returns (a push fails only when memory is
    short), and destroying the deque at the end frees every node. *)
Theorem deque_session orc os :
  wp cobalt_deque_create (λ ok w,
    if ok then behaves run spec os w [] (λ w' _,
      wp cobalt_deque_destroy (λ _ w'', obj w'' = None ∧ heap w'' = ∅) w')
    else orc 0%nat 80 = false) (world0 orc).
Proof.
  eapply wp_mono; [apply LinkedList.wp_lcreate|]. intros [] w; [|done]. intros Hrep.
  eapply (refines_all _ _ _ _ deque_refines); [done|by apply Forall_true|].
  intros w' xs. rewrite deque_destroy_list. apply LinkedList.wp_ldestroy.
Qed.

End Deque.
