(* ===== verification/SLL.v ===== *)
(** * Singly-linked chains

    The node of src/src/container/queue.c and src/src/container/stack.c (both
    files declare the same struct under their own name) and the theory of a
    NULL-terminated chain of nodes that makes up the whole heap. *)
From S2P Require Import Prelude World.

Module SLL.

Record node := Node { data : Z; next : Z }.
Definition sizeof_node : Z := 16.

Fixpoint lseg (h : gmap Z node) (ps xs : list Z) (nxt : Z) : Prop :=
  match ps, xs with
  | [], [] => True
  | p :: ps, x :: xs => h !! p = Some (Node x (hd nxt ps)) ∧ lseg h ps xs nxt
  | _, _ => False
  end.

Lemma lseg_frame h h' ps : ∀ xs nxt,
  lseg h ps xs nxt → (∀ p, p ∈ ps → h' !! p = h !! p) → lseg h' ps xs nxt.
Proof.
  induction ps as [|p ps IH]; intros [|x xs] nxt; simpl; try done.
  intros [H1 H2] Hf. split; [rewrite Hf; [done|set_solver]|].
  apply IH; [done|]. set_solver.
Qed.

Lemma lseg_length h ps : ∀ xs nxt, lseg h ps xs nxt → length ps = length xs.
Proof.
  induction ps as [|p ps IH]; intros [|x xs] nxt; simpl; try done.
  intros [_ H]. f_equal. by eapply IH.
Qed.

(** Hanging a node behind the last one. *)
Lemma lseg_snoc h ps : ∀ xs t d q y,
  lseg h (ps ++ [t]) (xs ++ [d]) NULL → length ps = length xs →
  NoDup (ps ++ [t]) → q ∉ ps ++ [t] → h !! q = Some (Node y NULL) →
  lseg (<[t := Node d q]> h) ((ps ++ [t]) ++ [q]) ((xs ++ [d]) ++ [y]) NULL.
Proof.
  induction ps as [|p ps IH]; intros [|x xs] t d q y; simpl; try done.
  - intros [H1 _] _ _ Hq Hh. rewrite lookup_insert_eq. split_and!; [done| |done].
    rewrite lookup_insert_ne; [done|set_solver].
  - intros [H1 H2] [= Hl] [Hp Hnd]%NoDup_cons Hq Hh. split.
    + rewrite lookup_insert_ne by set_solver. rewrite H1. by destruct ps.
    + apply IH; [done..|set_solver|done].
Qed.

(** ** A heap that is exactly one chain *)

Section chain.
Context {T : Type}.
Implicit Types (w : world T node).

Record chain w (ps xs : list Z) : Prop := {
  ch_seg : lseg (heap w) ps xs NULL;
  ch_nodup : NoDup ps;
  ch_dom : dom (heap w) = list_to_set ps;
  ch_heap : heap_ok w
}.

Lemma schain_ext w w' ps xs :
  chain w ps xs → heap w' = heap w → brk w' = brk w → chain w' ps xs.
Proof.
  intros [] Hh Hb. split; rewrite ?Hh; try done. by eapply heap_ok_ext.
Qed.

Lemma schain_world0 w : heap w = ∅ → brk w = 1 → chain w [] [].
Proof.
  intros Hh Hb. split; rewrite ?Hh; [done|by apply NoDup_nil_2|set_solver|].
  split; [lia|]. rewrite Hh. intros p c. by rewrite lookup_empty.
Qed.

Lemma schain_in w ps xs p : chain w ps xs → p ∈ ps → is_Some (heap w !! p) ∧ p ≠ NULL.
Proof.
  intros Hc Hp. assert (p ∈ dom (heap w)) as Hd.
  { rewrite (ch_dom _ _ _ Hc). by apply elem_of_list_to_set. }
  apply elem_of_dom in Hd. split; [done|]. intros ->.
  rewrite (heap_null _ (ch_heap _ _ _ Hc)) in Hd. by destruct Hd.
Qed.

Lemma schain_brk w ps xs : chain w ps xs → brk w ∉ ps ∧ brk w ≠ NULL.
Proof.
  intros Hc. split; [|destruct (ch_heap _ _ _ Hc); unfold NULL; lia].
  intros Hp. destruct (schain_in _ _ _ _ Hc Hp) as [[c Hb] _].
  by rewrite (heap_fresh _ (ch_heap _ _ _ Hc)) in Hb.
Qed.

Lemma schain_length w ps xs : chain w ps xs →
  length ps = length xs ∧ Z.of_nat (length xs) < brk w ∧ brk w ≤ 2 ^ 64.
Proof.
  intros Hc. pose proof (lseg_length _ _ _ _ (ch_seg _ _ _ Hc)) as Hl.
  split; [done|]. split; [|apply Hc]. rewrite <- Hl. apply heap_ok_length; [apply Hc..|].
  intros p Hp. by apply (schain_in _ _ _ _ Hc Hp).
Qed.

(** A new node in front of the chain, behind it, and the first node freed. *)
Lemma schain_cons w w' ps xs x :
  chain w ps xs → brk w < 2 ^ 64 → brk w' = brk w + 1 →
  heap w' = <[brk w := Node x (hd NULL ps)]> (heap w) →
  chain w' (brk w :: ps) (x :: xs).
Proof.
  intros Hc Hlt Hb Hh. destruct (schain_brk _ _ _ Hc) as [Hf _]. split.
  - rewrite Hh. simpl. rewrite lookup_insert_eq. split; [done|].
    eapply lseg_frame; [apply Hc|]. intros p Hp. rewrite lookup_insert_ne; [done|set_solver].
  - apply NoDup_cons. split; [done|apply Hc].
  - rewrite Hh, dom_insert_L, (ch_dom _ _ _ Hc). set_solver.
  - eapply heap_ok_ext; [apply (heap_ok_node w (Node x (hd NULL ps))); [apply Hc|done]|done..].
Qed.

Lemma schain_snoc w w' ps t xs d x :
  chain w (ps ++ [t]) (xs ++ [d]) → brk w < 2 ^ 64 → brk w' = brk w + 1 →
  heap w' = <[t := Node d (brk w)]> (<[brk w := Node x NULL]> (heap w)) →
  chain w' ((ps ++ [t]) ++ [brk w]) ((xs ++ [d]) ++ [x]).
Proof.
  intros Hc Hlt Hb Hh. destruct (schain_brk _ _ _ Hc) as [Hf _].
  destruct (schain_length _ _ _ Hc) as [Hl _]. rewrite !length_app in Hl. simpl in Hl. split.
  - rewrite Hh. apply lseg_snoc; [|lia|apply Hc|done|by rewrite lookup_insert_eq].
    eapply lseg_frame; [apply Hc|]. intros p Hp. rewrite lookup_insert_ne; [done|].
    intros <-. by apply Hf.
  - apply NoDup_app. split; [apply Hc|]. split; [set_solver|apply NoDup_singleton].
  - rewrite Hh, !dom_insert_L, (ch_dom _ _ _ Hc). set_solver.
  - eapply (heap_ok_dom (with_node w (Node x NULL))); [apply heap_ok_node; [apply Hc|done]|done|].
    rewrite Hh. simpl. rewrite !dom_insert_L, (ch_dom _ _ _ Hc). set_solver.
Qed.

Lemma schain_tail w w' p ps x xs :
  chain w (p :: ps) (x :: xs) → brk w' = brk w → heap w' = delete p (heap w) →
  chain w' ps xs.
Proof.
  intros Hc Hb Hh. pose proof (ch_nodup _ _ _ Hc) as [Hp Hnd]%NoDup_cons. split.
  - rewrite Hh. eapply lseg_frame; [apply Hc|]. intros q Hq.
    rewrite lookup_delete_ne; [done|set_solver].
  - done.
  - rewrite Hh, dom_delete_L, (ch_dom _ _ _ Hc). set_solver.
  - apply (heap_ok_dom w); [apply Hc|done|]. rewrite Hh, dom_delete_L. set_solver.
Qed.

Lemma schain_nil_heap w xs : chain w [] xs → heap w = ∅.
Proof.
  intros Hc. apply dom_empty_inv_L. by rewrite (ch_dom _ _ _ Hc).
Qed.

(** The loop both destructors run: every node is freed, none is read after. *)
Definition free_chain (fuel : nat) (p : Z) : M (world T node) unit :=
  loop fuel (λ p : Z,
    if p =? NULL then mret (inr tt)
    else c <- load p ;; free_node p ;;; mret (inl (next c))) p.

Lemma wp_free_chain fuel : ∀ ps xs w Q,
  chain w ps xs → (length ps < fuel)%nat →
  (∀ w', heap w' = ∅ → obj w' = obj w → last_error w' = last_error w → Q tt w') →
  wp (free_chain fuel (hd NULL ps)) Q w.
Proof.
  induction fuel as [|n IH]; intros ps xs w Q Hc Hf HQ; [lia|].
  destruct ps as [|p ps].
  { simpl. wp_steps. apply HQ; [by eapply schain_nil_heap|done..]. }
  destruct (schain_in _ _ _ p Hc) as [_ Hn]; [set_solver|].
  pose proof (ch_seg _ _ _ Hc) as Hs. destruct xs as [|x xs]; [done|]. destruct Hs as [Hp _].
  unfold free_chain. simpl. rewrite (proj2 (Z.eqb_neq _ _) Hn). wp_steps.
  eapply wp_load; [done|]. wp_steps. eapply wp_free_node; [done..|]. wp_steps.
  eapply (IH ps xs); [by eapply schain_tail|simpl in Hf; lia|]. done.
Qed.
End chain.

End SLL.
