(* ===== verification/Stack.v ===== *)
(** * The stack of src/src/container/stack.c: a LIFO over a singly-linked chain *)
From S2P Require Import Prelude World SLL.

Module Stack.
Import SLL.

Record cobalt_stack := CStack { top : Z; size : Z }.
Abbreviation sworld := (world cobalt_stack node).
Definition sizeof_stack : Z := 24.

(** ** Operations *)

Definition cobalt_stack_create_with_allocator (alloc : bool) : M sworld unit :=
  if negb alloc then set_obj None
  else
    ok <- request sizeof_stack ;;
    if ok then set_obj (Some (CStack NULL 0)) else set_obj None.

Definition cobalt_stack_create : M sworld unit := cobalt_stack_create_with_allocator true.

Definition cobalt_stack_destroy : M sworld unit :=
  o <- get_obj ;;
  match o with
  | None => mret tt
  | Some s =>
      h <- get_heap ;;
      free_chain (Datatypes.S (base.size h)) (top s) ;;; set_obj None
  end.

Definition cobalt_stack_push (item : Z) : M sworld Z :=
  o <- get_obj ;;
  match o with
  | None => mret (-1)
  | Some s =>
      node <- alloc_node sizeof_node (Node item (top s)) ;;
      if node =? NULL then
        cobalt_error_set None COBALT_ERROR_OUT_OF_MEMORY ;;; mret (-1)
      else set_obj (Some (CStack node (wrap64 (size s + 1)))) ;;; mret 0
  end.

Definition cobalt_stack_pop : M sworld Z :=
  o <- get_obj ;;
  match o with
  | None => cobalt_error_set None COBALT_ERROR_EMPTY_CONTAINER ;;; mret NULL
  | Some s =>
      if top s =? NULL then
        cobalt_error_set None COBALT_ERROR_EMPTY_CONTAINER ;;; mret NULL
      else
        node <- load (top s) ;;
        set_obj (Some (CStack (next node) (wrap64 (size s - 1)))) ;;;
        free_node (top s) ;;;
        mret (data node)
  end.

Definition cobalt_stack_peek : M sworld Z :=
  o <- get_obj ;;
  match o with
  | None => cobalt_error_set None COBALT_ERROR_EMPTY_CONTAINER ;;; mret NULL
  | Some s =>
      if top s =? NULL then
        cobalt_error_set None COBALT_ERROR_EMPTY_CONTAINER ;;; mret NULL
      else node <- load (top s) ;; mret (data node)
  end.

Definition cobalt_stack_size : M sworld Z :=
  o <- get_obj ;; mret (match o with Some s => size s | None => 0 end).

Definition cobalt_stack_is_empty : M sworld bool :=
  o <- get_obj ;; mret (match o with Some s => size s =? 0 | None => false end).

(** ** Representation: the chain holds the stack, top first *)

Definition rep (w : sworld) (xs : list Z) : Prop :=
  ∃ s ps, obj w = Some s ∧ chain w ps xs ∧ top s = hd NULL ps ∧
          size s = Z.of_nat (length xs).

Lemma stack_rep_ext w w' xs :
  rep w xs → obj w' = obj w → heap w' = heap w → brk w' = brk w → rep w' xs.
Proof.
  intros (s & ps & Ho & Hc & ?) Ho' ??. exists s, ps. rewrite Ho'.
  split_and!; try tauto. by eapply schain_ext.
Qed.

Lemma stack_wp_create orc :
  wp cobalt_stack_create (λ _ w,
    rep w [] ∨ (obj w = None ∧ orc 0%nat sizeof_stack = false)) (world0 orc).
Proof.
  unfold cobalt_stack_create, cobalt_stack_create_with_allocator. wp_steps.
  apply wp_request; intros Ho; wp_steps; [left|by right].
  eexists _, []. split_and!; [done| |done..]. by apply schain_world0.
Qed.

Lemma stack_wp_push w xs x :
  rep w xs →
  wp (cobalt_stack_push x) (λ r w',
    (r = 0 ∧ rep w' (x :: xs)) ∨
    (r = -1 ∧ rep w' xs ∧ refuses w sizeof_node ∧
       last_error w' = COBALT_ERROR_OUT_OF_MEMORY)) w.
Proof.
  intros Hrep. destruct (id Hrep) as (s & ps & Ho & Hc & Ht & Hs).
  unfold cobalt_stack_push. wp_steps. rewrite Ho. wp_steps.
  destruct (schain_brk _ _ _ Hc) as [_ Hb]. destruct (schain_length _ _ _ Hc) as (_ & ? & ?).
  apply wp_alloc_node.
  - intros _ Hlt. rewrite (proj2 (Z.eqb_neq _ _) Hb). wp_steps. left. split; [done|].
    eexists _, (brk w :: ps). split_and!; [done| |done|].
    + eapply schain_cons; [done..|]. by rewrite Ht.
    + simpl. rewrite wrap64_small by lia. lia.
  - intros Href. wp_steps. right. split_and!; [done| |done..]. by eapply stack_rep_ext.
Qed.

Lemma stack_wp_pop w xs :
  rep w xs →
  wp cobalt_stack_pop (λ r w',
    match xs with
    | [] => r = NULL ∧ rep w' [] ∧ last_error w' = COBALT_ERROR_EMPTY_CONTAINER
    | x :: xs' => r = x ∧ rep w' xs'
    end) w.
Proof.
  intros Hrep. destruct (id Hrep) as (s & ps & Ho & Hc & Ht & Hs).
  unfold cobalt_stack_pop. wp_steps. rewrite Ho, Ht.
  pose proof (ch_seg _ _ _ Hc) as Hseg. destruct (schain_length _ _ _ Hc) as (_ & ? & ?).
  destruct ps as [|p ps], xs as [|x xs]; simpl in Hseg; try done; simpl.
  { wp_steps. split_and!; [done| |done]. by eapply stack_rep_ext. }
  destruct (schain_in _ _ _ p Hc) as [_ Hn]; [set_solver|]. destruct Hseg as [Hp _].
  rewrite (proj2 (Z.eqb_neq _ _) Hn). wp_steps. eapply wp_load; [done|]. wp_steps.
  eapply wp_free_node; [done..|]. wp_steps. split; [done|].
  eexists _, ps. split_and!; [done|by eapply schain_tail|done|].
  simpl in *. rewrite wrap64_small by lia. lia.
Qed.

Lemma stack_wp_peek w xs :
  rep w xs → wp cobalt_stack_peek (λ r w', r = hd NULL xs ∧ rep w' xs) w.
Proof.
  intros Hrep. destruct (id Hrep) as (s & ps & Ho & Hc & Ht & Hs).
  unfold cobalt_stack_peek. wp_steps. rewrite Ho, Ht.
  pose proof (ch_seg _ _ _ Hc) as Hseg.
  destruct ps as [|p ps], xs as [|x xs]; simpl in Hseg; try done; simpl.
  { wp_steps. split; [done|]. by eapply stack_rep_ext. }
  destruct (schain_in _ _ _ p Hc) as [_ Hn]; [set_solver|].
  rewrite (proj2 (Z.eqb_neq _ _) Hn). wp_steps. eapply wp_load; [apply Hseg|]. by wp_steps.
Qed.

Lemma stack_wp_destroy w xs :
  rep w xs → wp cobalt_stack_destroy (λ _ w', obj w' = None ∧ heap w' = ∅) w.
Proof.
  intros (s & ps & Ho & Hc & Ht & _). unfold cobalt_stack_destroy. wp_steps. rewrite Ho, Ht.
  wp_steps. eapply wp_free_chain; [done| |].
  - rewrite <- size_dom, (ch_dom _ _ _ Hc), size_list_to_set by apply Hc. lia.
  - intros w' Hh _ _. by wp_steps.
Qed.

(** ** Refinement of a LIFO *)

Inductive op : Set := OPush (x : Z) | OPop | OPeek | OSize | OIsEmpty.

Definition run (o : op) : M sworld Z :=
  match o with
  | OPush x => cobalt_stack_push x
  | OPop => cobalt_stack_pop
  | OPeek => cobalt_stack_peek
  | OSize => cobalt_stack_size
  | OIsEmpty => b <- cobalt_stack_is_empty ;; mret (if b then 1 else 0)
  end.

Definition spec (o : op) (w : sworld) (xs : list Z) (r : Z) (xs' : list Z) : Prop :=
  match o with
  | OPush x => (r = 0 ∧ xs' = x :: xs) ∨ (r = -1 ∧ xs' = xs ∧ starved w sizeof_node)
  | OPop => r = hd NULL xs ∧ xs' = List.tl xs
  | OPeek => r = hd NULL xs ∧ xs' = xs
  | OSize => r = Z.of_nat (length xs) ∧ xs' = xs
  | OIsEmpty => r = (if bool_decide (xs = []) then 1 else 0) ∧ xs' = xs
  end.

Lemma stack_refines : refines run spec rep (λ _, True).
Proof.
  intros o w xs Hrep _. destruct o; simpl in *.
  - eapply wp_mono; [by apply stack_wp_push|]. naive_solver (eauto with world).
  - eapply wp_mono; [by apply stack_wp_pop|]. destruct xs; naive_solver.
  - eapply wp_mono; [by apply stack_wp_peek|]. naive_solver.
  - destruct (id Hrep) as (s & ps & Ho & _ & _ & Hs). unfold cobalt_stack_size. wp_steps.
    rewrite Ho. eauto.
  - destruct (id Hrep) as (s & ps & Ho & _ & _ & Hs). unfold cobalt_stack_is_empty. wp_steps.
    rewrite Ho, Hs. exists xs. split; [|done]. by destruct xs.
Qed.

(** A stack from its creation to its destruction.  Whatever the allocator
    does, either the creation is refused, or every call of any sequence of
    pushes, pops, peeks and size queries returns what a LIFO list returns (a
    push fails only when memory is short), and destroying the stack at the end
    frees every node. *)
Theorem stack_session orc os :
  wp cobalt_stack_create (λ _ w,
    (obj w = None ∧ orc 0%nat sizeof_stack = false) ∨
    behaves run spec os w [] (λ w' _,
      wp cobalt_stack_destroy (λ _ w'', obj w'' = None ∧ heap w'' = ∅) w')) (world0 orc).
Proof.
  eapply wp_mono; [apply stack_wp_create|]. intros _ w [Hrep|?]; [right|by left].
  eapply (refines_all _ _ _ _ stack_refines); [done|by apply Forall_true|].
  intros w' xs. apply stack_wp_destroy.
Qed.

End Stack.
