(* ===== verification/Queue.v ===== *)
(** * The queue of src/src/container/queue.c: a FIFO over a singly-linked chain *)
From S2P Require Import Prelude World SLL.

Module Queue.
Import SLL.

Record cobalt_queue := CQueue { head : Z; tail : Z; size : Z }.
Abbreviation qworld := (world cobalt_queue node).
Definition sizeof_queue : Z := 32.

(** ** Operations *)

Definition cobalt_queue_create_with_allocator (alloc : bool) : M qworld unit :=
  if negb alloc then set_obj None
  else
    ok <- request sizeof_queue ;;
    if ok then set_obj (Some (CQueue NULL NULL 0)) else set_obj None.

Definition cobalt_queue_create : M qworld unit := cobalt_queue_create_with_allocator true.

Definition cobalt_queue_destroy : M qworld unit :=
  o <- get_obj ;;
  match o with
  | None => mret tt
  | Some q =>
      h <- get_heap ;;
      free_chain (Datatypes.S (base.size h)) (head q) ;;; set_obj None
  end.

Definition cobalt_queue_enqueue (item : Z) : M qworld Z :=
  o <- get_obj ;;
  match o with
  | None => mret (-1)
  | Some q =>
      node <- alloc_node sizeof_node (Node item NULL) ;;
      if node =? NULL then
        cobalt_error_set None COBALT_ERROR_OUT_OF_MEMORY ;;; mret (-1)
      else
        (if tail q =? NULL then set_obj (Some (CQueue node node (size q)))
         else
           t <- load (tail q) ;;
           store (tail q) (Node (data t) node) ;;;
           set_obj (Some (CQueue (head q) node (size q)))) ;;;
        q' <- deref ;;
        set_obj (Some (CQueue (head q') (tail q') (wrap64 (size q' + 1)))) ;;;
        mret 0
  end.

Definition cobalt_queue_dequeue : M qworld Z :=
  o <- get_obj ;;
  match o with
  | None => cobalt_error_set None COBALT_ERROR_EMPTY_CONTAINER ;;; mret NULL
  | Some q =>
      if head q =? NULL then
        cobalt_error_set None COBALT_ERROR_EMPTY_CONTAINER ;;; mret NULL
      else
        node <- load (head q) ;;
        set_obj (Some (CQueue (next node) (if next node =? NULL then NULL else tail q)
                         (wrap64 (size q - 1)))) ;;;
        free_node (head q) ;;;
        mret (data node)
  end.

Definition cobalt_queue_peek : M qworld Z :=
  o <- get_obj ;;
  match o with
  | None => cobalt_error_set None COBALT_ERROR_EMPTY_CONTAINER ;;; mret NULL
  | Some q =>
      if head q =? NULL then
        cobalt_error_set None COBALT_ERROR_EMPTY_CONTAINER ;;; mret NULL
      else node <- load (head q) ;; mret (data node)
  end.

Definition cobalt_queue_size : M qworld Z :=
  o <- get_obj ;; mret (match o with Some q => size q | None => 0 end).

Definition cobalt_queue_is_empty : M qworld bool :=
  o <- get_obj ;; mret (match o with Some q => size q =? 0 | None => false end).

(** ** Representation *)

Definition rep (w : qworld) (xs : list Z) : Prop :=
  ∃ q ps, obj w = Some q ∧ chain w ps xs ∧ head q = hd NULL ps ∧
          tail q = default NULL (last ps) ∧ size q = Z.of_nat (length xs).

Lemma queue_rep_ext w w' xs :
  rep w xs → obj w' = obj w → heap w' = heap w → brk w' = brk w → rep w' xs.
Proof.
  intros (s & ps & Ho & Hc & ?) Ho' ??. exists s, ps. rewrite Ho'.
  split_and!; try tauto. by eapply schain_ext.
Qed.

Lemma queue_wp_create orc :
  wp cobalt_queue_create (λ _ w,
    rep w [] ∨ (obj w = None ∧ orc 0%nat sizeof_queue = false)) (world0 orc).
Proof.
  unfold cobalt_queue_create, cobalt_queue_create_with_allocator. wp_steps.
  apply wp_request; intros Ho; wp_steps; [left|by right].
  eexists _, []. split_and!; [done| |done..]. by apply schain_world0.
Qed.

Lemma queue_wp_enqueue w xs x :
  rep w xs →
  wp (cobalt_queue_enqueue x) (λ r w',
    (r = 0 ∧ rep w' (xs ++ [x])) ∨
    (r = -1 ∧ rep w' xs ∧ refuses w sizeof_node ∧
       last_error w' = COBALT_ERROR_OUT_OF_MEMORY)) w.
Proof.
  intros Hrep. destruct (id Hrep) as (q & ps & Ho & Hc & Hh & Ht & Hs).
  unfold cobalt_queue_enqueue. wp_steps. rewrite Ho. wp_steps.
  destruct (schain_brk _ _ _ Hc) as [Hf Hb]. destruct (schain_length _ _ _ Hc) as (Hl & ? & ?).
  apply wp_alloc_node.
  2:{ intros Href. wp_steps. right. split_and!; [done| |done..]. by eapply queue_rep_ext. }
  intros _ Hlt. rewrite (proj2 (Z.eqb_neq _ _) Hb). wp_steps. rewrite Ht.
  destruct xs as [|d xs _] using rev_ind; destruct ps as [|t ps _] using rev_ind;
    rewrite ?length_app in Hl; simpl in Hl; try lia.
  - simpl. wp_steps. left. split; [done|]. eexists _, [brk w].
    split_and!; [done|by eapply schain_cons|done..|]. simpl. by rewrite Hs.
  - rewrite last_snoc. simpl. destruct (schain_in _ _ _ t Hc) as [_ Hn]; [set_solver|].
    rewrite (proj2 (Z.eqb_neq _ _) Hn). wp_steps.
    pose proof (ch_seg _ _ _ Hc) as Hseg.
    assert (heap w !! t = Some (Node d NULL)) as Hd.
    { clear -Hseg Hl. revert xs Hl Hseg. induction ps as [|p ps IH]; intros [|x xs]; simpl; try lia.
      - tauto.
      - intros Hl [_ ?]. apply (IH xs); [lia|done]. }
    assert (t ≠ brk w) by (intros ->; set_solver).
    eapply wp_load; [simpl; by rewrite lookup_insert_ne|]. wp_steps.
    eapply wp_store; [simpl; by rewrite lookup_insert_ne|]. wp_steps.
    left. split; [done|]. eexists _, ((ps ++ [t]) ++ [brk w]).
    split_and!; [done|by eapply schain_snoc|simpl; rewrite Hh; by destruct ps| |].
    + simpl. by rewrite last_snoc.
    + simpl. rewrite Hs, !length_app in *. simpl in *. rewrite wrap64_small by lia. lia.
Qed.

Lemma queue_wp_dequeue w xs :
  rep w xs →
  wp cobalt_queue_dequeue (λ r w',
    match xs with
    | [] => r = NULL ∧ rep w' [] ∧ last_error w' = COBALT_ERROR_EMPTY_CONTAINER
    | x :: xs' => r = x ∧ rep w' xs'
    end) w.
Proof.
  intros Hrep. destruct (id Hrep) as (q & ps & Ho & Hc & Hh & Ht & Hs).
  unfold cobalt_queue_dequeue. wp_steps. rewrite Ho, Hh.
  pose proof (ch_seg _ _ _ Hc) as Hseg. destruct (schain_length _ _ _ Hc) as (_ & ? & ?).
  destruct ps as [|p ps], xs as [|x xs]; simpl in Hseg; try done; simpl.
  { wp_steps. split_and!; [done| |done]. by eapply queue_rep_ext. }
  destruct (schain_in _ _ _ p Hc) as [_ Hn]; [set_solver|]. destruct Hseg as [Hp _].
  rewrite (proj2 (Z.eqb_neq _ _) Hn). wp_steps. eapply wp_load; [done|]. wp_steps.
  eapply wp_free_node; [done..|]. wp_steps. split; [done|].
  eexists _, ps. split_and!; [done|by eapply schain_tail|done| |].
  - simpl. destruct ps as [|p2 ps]; [done|]. simpl.
    destruct (schain_in _ _ _ p2 Hc) as [_ Hn2]; [set_solver|].
    rewrite (proj2 (Z.eqb_neq _ _) Hn2). by rewrite Ht, last_cons_cons.
  - simpl in *. rewrite wrap64_small by lia. lia.
Qed.

Lemma queue_wp_peek w xs :
  rep w xs → wp cobalt_queue_peek (λ r w', r = hd NULL xs ∧ rep w' xs) w.
Proof.
  intros Hrep. destruct (id Hrep) as (q & ps & Ho & Hc & Hh & Ht & Hs).
  unfold cobalt_queue_peek. wp_steps. rewrite Ho, Hh.
  pose proof (ch_seg _ _ _ Hc) as Hseg.
  destruct ps as [|p ps], xs as [|x xs]; simpl in Hseg; try done; simpl.
  { wp_steps. split; [done|]. by eapply queue_rep_ext. }
  destruct (schain_in _ _ _ p Hc) as [_ Hn]; [set_solver|].
  rewrite (proj2 (Z.eqb_neq _ _) Hn). wp_steps. eapply wp_load; [apply Hseg|]. by wp_steps.
Qed.

Lemma queue_wp_destroy w xs :
  rep w xs → wp cobalt_queue_destroy (λ _ w', obj w' = None ∧ heap w' = ∅) w.
Proof.
  intros (s & ps & Ho & Hc & Hh & _). unfold cobalt_queue_destroy. wp_steps. rewrite Ho, Hh.
  wp_steps. eapply wp_free_chain; [done| |].
  - rewrite <- size_dom, (ch_dom _ _ _ Hc), size_list_to_set by apply Hc. lia.
  - intros w' Hh' _ _. by wp_steps.
Qed.

(** ** Refinement of a FIFO *)

Inductive op : Set := OEnqueue (x : Z) | ODequeue | OPeek | OSize | OIsEmpty.

Definition run (o : op) : M qworld Z :=
  match o with
  | OEnqueue x => cobalt_queue_enqueue x
  | ODequeue => cobalt_queue_dequeue
  | OPeek => cobalt_queue_peek
  | OSize => cobalt_queue_size
  | OIsEmpty => b <- cobalt_queue_is_empty ;; mret (if b then 1 else 0)
  end.

Definition spec (o : op) (w : qworld) (xs : list Z) (r : Z) (xs' : list Z) : Prop :=
  match o with
  | OEnqueue x => (r = 0 ∧ xs' = xs ++ [x]) ∨ (r = -1 ∧ xs' = xs ∧ starved w sizeof_node)
  | ODequeue => r = hd NULL xs ∧ xs' = List.tl xs
  | OPeek => r = hd NULL xs ∧ xs' = xs
  | OSize => r = Z.of_nat (length xs) ∧ xs' = xs
  | OIsEmpty => r = (if bool_decide (xs = []) then 1 else 0) ∧ xs' = xs
  end.

Lemma queue_refines : refines run spec rep (λ _, True).
Proof.
  intros o w xs Hrep _. destruct o; simpl in *.
  - eapply wp_mono; [by apply queue_wp_enqueue|]. naive_solver (eauto with world).
  - eapply wp_mono; [by apply queue_wp_dequeue|]. destruct xs; naive_solver.
  - eapply wp_mono; [by apply queue_wp_peek|]. naive_solver.
  - destruct (id Hrep) as (s & ps & Ho & _ & _ & _ & Hs). unfold cobalt_queue_size. wp_steps.
    rewrite Ho. eauto.
  - destruct (id Hrep) as (s & ps & Ho & _ & _ & _ & Hs). unfold cobalt_queue_is_empty. wp_steps.
    rewrite Ho, Hs. exists xs. split; [|done]. by destruct xs.
Qed.

(** A queue from its creation to its destruction.  Whatever the allocator
    does, either the creation is refused, or every call of any sequence of
    enqueues, dequeues, peeks and size queries returns what a FIFO list returns
    (an enqueue fails only when memory is short), and destroying the queue at
    the end frees every node. *)
Theorem queue_session orc os :
  wp cobalt_queue_create (λ _ w,
    (obj w = None ∧ orc 0%nat sizeof_queue = false) ∨
    behaves run spec os w [] (λ w' _,
      wp cobalt_queue_destroy (λ _ w'', obj w'' = None ∧ heap w'' = ∅) w')) (world0 orc).
Proof.
  eapply wp_mono; [apply queue_wp_create|]. intros _ w [Hrep|?]; [right|by left].
  eapply (refines_all _ _ _ _ queue_refines); [done|by apply Forall_true|].
  intros w' xs. apply queue_wp_destroy.
Qed.

End Queue.
