(* ===== verification/Map.v ===== *)
(** * The map interface: src/src/interface/map.c

    [MapTable] is the method table [cobalt_map_t] of one container; a method
    that the container leaves out is [None].  [MapLaws] is what a container
    promises the code that goes through the table: it behaves as the finite
    map [m] it represents.  Iterators are cursors (the [data] of a
    [cobalt_map_iterator_t]); a NULL iterator is [None]. *)
From S2P Require Import Prelude World.

Class MapTable (T C : Type) := {
  m_get : option (Z → Z → M (world T C) Z);
  m_put : option (Z → Z → Z → M (world T C) Z);
  m_remove : option (Z → Z → M (world T C) Z);
  m_contains : option (Z → Z → M (world T C) bool);
  m_clear : option (M (world T C) unit);
  m_size : option (M (world T C) Z);
  m_is_empty : option (M (world T C) bool);
  m_iterator : option (M (world T C) (option Z));
  mi_has_next : Z → M (world T C) bool;
  mi_next : Z → M (world T C) ((Z * Z) * Z)
}.

Section map.
Context {T C : Type} `{!MapTable T C}.

(** A wrapper: [d] for a NULL map or a missing method, the method otherwise. *)
Definition via {A} (d : A) (method : option (M (world T C) A)) : M (world T C) A :=
  o <- get_obj ;;
  match o, method with Some _, Some f => f | _, _ => mret d end.

Definition cobalt_map_get (key key_len : Z) : M (world T C) Z :=
  via NULL ((λ f, f key key_len) <$> m_get).
Definition cobalt_map_put (key key_len value : Z) : M (world T C) Z :=
  via (-1) ((λ f, f key key_len value) <$> m_put).
Definition cobalt_map_remove (key key_len : Z) : M (world T C) Z :=
  via (-1) ((λ f, f key key_len) <$> m_remove).
Definition cobalt_map_contains (key key_len : Z) : M (world T C) bool :=
  via false ((λ f, f key key_len) <$> m_contains).
Definition cobalt_map_clear : M (world T C) unit := via tt m_clear.
Definition cobalt_map_size : M (world T C) Z := via 0 m_size.
Definition cobalt_map_is_empty : M (world T C) bool := via true m_is_empty.
Definition cobalt_map_iterator_create : M (world T C) (option Z) := via None m_iterator.

Definition cobalt_map_iterator_has_next (iter : option Z) : M (world T C) bool :=
  match iter with None => mret false | Some c => mi_has_next c end.

(** [next] moves the cursor: the iterator after the call is part of the result. *)
Definition cobalt_map_iterator_next (iter : option Z) : M (world T C) ((Z * Z) * option Z) :=
  match iter with
  | None => mret ((NULL, NULL), None)
  | Some c => r <- mi_next c ;; mret (r.1, Some r.2)
  end.

(** A client: collect every pair the iterator yields. *)
Definition map_collect (fuel : nat) (iter : option Z) : M (world T C) (list (Z * Z)) :=
  loop fuel (λ '(iter, acc),
    more <- cobalt_map_iterator_has_next iter ;;
    if more then
      r <- cobalt_map_iterator_next iter ;; mret (inl (r.2, acc ++ [r.1]))
    else mret (inr acc)) (iter, []).

Lemma wp_via {A} (d : A) method f Q w :
  is_Some (obj w) → method = Some f → wp f Q w → wp (via d method) Q w.
Proof. intros [o Ho] -> Hf. unfold via. wp_steps. by rewrite Ho. Qed.

Lemma wp_via_null {A} (d : A) method Q w :
  obj w = None → Q d w → wp (via d method) Q w.
Proof. intros Ho HQ. unfold via. wp_steps. by rewrite Ho. Qed.

Lemma wp_collect_null fuel Q w : Q [] w → wp (map_collect (S fuel) None) Q w.
Proof. done. Qed.
End map.

(** ** What a map container promises

    [key_of w p n k]: in [w], the [n] bytes at [p] are the key [k]. *)
Class MapLaws {T C : Type} `{!MapTable T C} (K : Type) `{Countable K}
    (key_of : world T C → Z → Z → K → Prop) (rep : world T C → gmap K Z → Prop) : Prop := {
  ml_obj w m : rep w m → is_Some (obj w);
  ml_get w m p n k : rep w m → key_of w p n k →
    wp (cobalt_map_get p n) (λ r w', r = default NULL (m !! k) ∧ rep w' m) w;
  ml_put w m p n k v : rep w m → key_of w p n k →
    wp (cobalt_map_put p n v) (λ r w',
      (r = 0 ∧ rep w' (<[k := v]> m)) ∨ (r = -1 ∧ rep w' m)) w;
  ml_remove w m p n k : rep w m → key_of w p n k →
    wp (cobalt_map_remove p n) (λ r w',
      r = (if decide (is_Some (m !! k)) then 0 else -1) ∧ rep w' (delete k m)) w;
  ml_size w m : rep w m →
    wp cobalt_map_size (λ r w', r = Z.of_nat (base.size m) ∧ rep w' m) w;
  ml_clear w m : rep w m → wp cobalt_map_clear (λ _ w', rep w' ∅) w;
  ml_stable w w' m m' p n k : rep w m → rep w' m' → key_of w p n k → key_of w' p n k
}.

(** ** A client of the interface: insert a batch of pairs, stop at the first
    failure; the map then holds a prefix of the batch on top of what it held. *)
Section client.
Context {T C : Type} `{!MapTable T C} {K : Type} `{Countable K}
  {key_of : world T C → Z → Z → K → Prop} {rep : world T C → gmap K Z → Prop}
  `{!MapLaws K key_of rep}.

Fixpoint put_all (kvs : list (Z * Z * Z)) : M (world T C) Z :=
  match kvs with
  | [] => mret 0
  | (p, n, v) :: kvs =>
      r <- cobalt_map_put p n v ;;
      if r =? 0 then put_all kvs else mret (-1)
  end.

Definition insert_all (kvs : list (K * Z)) (m : gmap K Z) : gmap K Z :=
  foldl (λ m kv, <[kv.1 := kv.2]> m) m kvs.

Lemma wp_put_all w m args kvs :
  rep w m →
  Forall2 (λ a kv, key_of w a.1.1 a.1.2 kv.1 ∧ a.2 = kv.2) args kvs →
  wp (put_all args) (λ r w',
    (r = 0 ∧ rep w' (insert_all kvs m)) ∨
    (r = -1 ∧ ∃ j, (j < length kvs)%nat ∧ rep w' (insert_all (take j kvs) m))) w.
Proof.
  intros Hrep Hargs. revert w m Hrep Hargs.
  induction args as [|[[p n] v] args IH] in kvs |- *; intros w m Hrep Hargs.
  { apply Forall2_nil_inv_l in Hargs as ->. apply wp_ret. by left. }
  apply Forall2_cons_inv_l in Hargs as ([k v'] & kvs' & [Hk Hv] & Hrest & ->).
  simpl in Hk, Hv. subst v'. simpl. apply wp_bind.
  eapply wp_mono; [by eapply ml_put|]. intros r w' [[-> Hrep']|[-> Hrep']]; simpl.
  - eapply wp_mono; [apply (IH kvs' w' _ Hrep')|].
    + eapply Forall2_impl; [exact Hrest|]. intros a kv [??]. split; [|done].
      by apply (ml_stable w w' m (<[k:=v]> m)).
    + intros r' w'' [[-> ?]|(-> & j & ? & ?)]; [by left|]. right. split; [done|].
      exists (S j). simpl. split; [lia|done].
  - apply wp_ret. right. split; [done|]. exists 0%nat. simpl. split; [lia|done].
Qed.
End client.
