(* ===== verification/RobinHood.v ===== *)
(** * Robin Hood open addressing

    The slot array of src/src/container/hashmap.c and the three loops that
    maintain it: displacement insertion, the probe path of a lookup, and
    backward-shift deletion. *)
From S2P Require Import Prelude Array.

Module RobinHood.

Record hashmap_slot := Slot {
  key : Z;
  value : Z;
  hash : Z;
  psl : Z;
  key_len : Z;
  key_owned : bool
}.

Definition COBALT_HASHMAP_EMPTY_PSL : Z := 2 ^ 32 - 1.

Definition empty_slot : hashmap_slot := Slot 0 0 0 COBALT_HASHMAP_EMPTY_PSL 0 false.

Definition set_psl (x : hashmap_slot) (d : Z) : hashmap_slot :=
  Slot (key x) (value x) (hash x) d (key_len x) (key_owned x).
Definition set_value (x : hashmap_slot) (v : Z) : hashmap_slot :=
  Slot (key x) v (hash x) (psl x) (key_len x) (key_owned x).

Definition init_slots (count : Z) : list hashmap_slot := replicate (Z.to_nat count) empty_slot.

(** ** The loops *)

Definition robin_hood_insert_entry (mask : Z) (entry : hashmap_slot)
    : M (list hashmap_slot) unit :=
  slots <- mget ;;
  loop (S (length slots)) (λ '(idx, curr),
    slot <- aget idx ;;
    if psl slot =? COBALT_HASHMAP_EMPTY_PSL then aset idx curr ;;; mret (inr tt)
    else
      curr' <- (if psl slot <? psl curr then aset idx curr ;;; mret slot else mret curr) ;;
      mret (inl (Z.land (wrap64 (idx + 1)) mask, set_psl curr' (wrap32 (psl curr' + 1)))))
  (Z.land (hash entry) mask, set_psl entry 0).

(** The second half of [hashmap_remove_key]: close the gap at [idx]. *)
Definition backward_shift (mask idx : Z) : M (list hashmap_slot) unit :=
  slots <- mget ;;
  curr <- loop (S (length slots)) (λ curr : Z,
    let next := Z.land (wrap64 (curr + 1)) mask in
    slot <- aget next ;;
    if (psl slot =? COBALT_HASHMAP_EMPTY_PSL) || (psl slot =? 0) then mret (inr curr)
    else aset curr (set_psl slot (wrap32 (psl slot - 1))) ;;; mret (inl next)) idx ;;
  aset curr empty_slot.

(** ** The table invariant *)

Definition occ (x : hashmap_slot) : Prop := psl x ≠ COBALT_HASHMAP_EMPTY_PSL.

#[export] Instance occ_dec x : Decision (occ x).
Proof. unfold occ. apply _. Defined.

(** The entries a table holds, whatever their position. *)
Definition ent (x : hashmap_slot) : list hashmap_slot :=
  if decide (occ x) then [set_psl x 0] else [].
Definition ents (s : list hashmap_slot) : list hashmap_slot := s ≫= ent.
#[global] Arguments ents _ : simpl never.

Lemma ent_occ x : occ x → ent x = [set_psl x 0].
Proof. intros. unfold ent. by rewrite decide_True. Qed.
Lemma ent_empty x : ¬ occ x → ent x = [].
Proof. intros. unfold ent. by rewrite decide_False. Qed.

Lemma ents_cons x s : ents (x :: s) = ent x ++ ents s.
Proof. done. Qed.

Lemma ents_insert s i x y :
  s !! i = Some x → ent x ++ ents (<[i := y]> s) ≡ₚ ent y ++ ents s.
Proof. apply insert_bind_perm. Qed.

Lemma elem_of_ents s e :
  e ∈ ents s ↔ ∃ i x, s !! i = Some x ∧ occ x ∧ e = set_psl x 0.
Proof.
  unfold ents. rewrite list_elem_of_bind. split.
  - intros (x & He & Hx). apply list_elem_of_lookup in Hx as [i Hi]. exists i, x.
    unfold ent in He. case_decide; set_solver.
  - intros (i & x & Hi & Ho & ->). exists x. rewrite ent_occ by done.
    split; [set_solver|]. by eapply list_elem_of_lookup_2.
Qed.

Lemma ents_init n : ents (init_slots n) = [].
Proof.
  unfold init_slots. induction (Z.to_nat n) as [|m IH]; [done|].
  simpl. by rewrite ents_cons, IH.
Qed.

Lemma ents_length s : (length (ents s) ≤ length s)%nat.
Proof.
  induction s as [|x s IH]; [done|]. rewrite ents_cons, length_app.
  unfold ent at 1. case_decide; simpl; lia.
Qed.

(** A table with fewer entries than slots has an empty slot. *)
Lemma ents_room s :
  (length (ents s) < length s)%nat → ∃ i x, s !! i = Some x ∧ ¬ occ x.
Proof.
  induction s as [|x s IH]; [simpl; lia|]. rewrite ents_cons, length_app.
  unfold ent at 1. case_decide as Ho; simpl; intros Hl.
  - destruct IH as (i & y & ? & ?); [lia|]. by exists (S i), y.
  - by exists 0%nat, x.
Qed.

(** Two facts about one slot, one of them that it is empty. *)
Ltac occ_clash := simplify_eq; unfold occ in *; first [contradiction | congruence].

Section table.
Variable k : Z.
Hypothesis Hk : 1 ≤ k ≤ 31.

Definition cap : Z := 2 ^ k.
Implicit Types (i j d : Z) (s : list hashmap_slot) (x y c : hashmap_slot).

Definition nx i : Z := if i + 1 =? cap then 0 else i + 1.
Definition pv i : Z := if i =? 0 then cap - 1 else i - 1.
Definition home x : Z := hash x mod cap.

(** [x] may sit at [i]: its probe length is the distance from its home. *)
Definition at_home i x : Prop :=
  0 ≤ hash x < 2 ^ 32 ∧ 0 ≤ psl x < cap ∧ (i = home x + psl x ∨ i + cap = home x + psl x).

(** An entry of probe length [d] may sit at [i]: the slot before it holds an
    entry at most one step closer to its home. *)
Definition fits s i d : Prop :=
  d = 0 ∨ ∃ y, s !! Z.to_nat (pv i) = Some y ∧ occ y ∧ d ≤ psl y + 1.

Definition table_ok s : Prop :=
  Z.of_nat (length s) = cap ∧
  ∀ i x, 0 ≤ i < cap → s !! Z.to_nat i = Some x → occ x → at_home i x ∧ fits s i (psl x).

Lemma cap_bounds : 2 ≤ cap ≤ 2 ^ 31.
Proof.
  unfold cap. split.
  - change 2 with (2 ^ 1) at 1. apply Z.pow_le_mono_r; lia.
  - apply Z.pow_le_mono_r; lia.
Qed.

Lemma home_bounds x : 0 ≤ home x < cap.
Proof. apply Z.mod_pos_bound. pose proof cap_bounds. lia. Qed.

Lemma land_mask a : Z.land a (cap - 1) = a mod cap.
Proof. unfold cap. rewrite <- Z.land_ones by lia. by rewrite Z.ones_equiv, Z.sub_1_r. Qed.

Lemma land_nx i : 0 ≤ i < cap → Z.land (wrap64 (i + 1)) (cap - 1) = nx i.
Proof.
  intros Hi. pose proof cap_bounds. rewrite land_mask, wrap64_small by lia. unfold nx.
  destruct (Z.eqb_spec (i + 1) cap) as [->|]; [by rewrite Z_mod_same_full|].
  apply Z.mod_small. lia.
Qed.

Lemma nx_bounds i : 0 ≤ i < cap → 0 ≤ nx i < cap ∧ pv (nx i) = i.
Proof.
  intros Hi. pose proof cap_bounds. unfold nx, pv.
  destruct (Z.eqb_spec (i + 1) cap); repeat case_match; lia.
Qed.

Lemma pv_bounds i : 0 ≤ i < cap → 0 ≤ pv i < cap ∧ pv i ≠ i ∧ nx (pv i) = i.
Proof.
  intros Hi. pose proof cap_bounds. unfold nx, pv.
  destruct (Z.eqb_spec i 0); repeat case_match; lia.
Qed.

Lemma occ_small x d : 0 ≤ d < cap → occ (set_psl x d).
Proof.
  pose proof cap_bounds. unfold occ, COBALT_HASHMAP_EMPTY_PSL. simpl. lia.
Qed.

(** *** Probe lengths are bounded by the distance to an empty slot *)

Definition dist e i : Z := if e <? i then i - e else i - e + cap.

Lemma fits_bound s e y : table_ok s → 0 ≤ e < cap → s !! Z.to_nat e = Some y → ¬ occ y →
  ∀ m i d, 0 ≤ i < cap → dist e i ≤ Z.of_nat m → fits s i d → d < dist e i.
Proof.
  intros [_ Hs] He Hy Hno m. induction m as [|m IH]; intros i d Hi Hm Hf.
  { unfold dist in Hm. case_match; lia. }
  destruct Hf as [->|(z & Hz & Hoz & Hd)]; [unfold dist; case_match; lia|].
  destruct (pv_bounds i Hi) as (Hp & _ & _).
  destruct (Hs _ _ Hp Hz Hoz) as [_ Hfz].
  assert (pv i ≠ e) as Hne by (intros <-; occ_clash).
  assert (dist e (pv i) = dist e i - 1) as Hd1.
  { clear -Hi He Hne Hp. unfold dist, pv in *.
    destruct (Z.eqb_spec i 0); destruct (Z.ltb_spec e i);
      match goal with |- context [?a <? ?b] => destruct (Z.ltb_spec a b) end; lia. }
  specialize (IH (pv i) (psl z) Hp ltac:(lia) Hfz). lia.
Qed.

Definition has_room s : Prop :=
  ∃ e y, 0 ≤ e < cap ∧ s !! Z.to_nat e = Some y ∧ ¬ occ y.

Lemma fits_cap s i d : table_ok s → has_room s → 0 ≤ i < cap → fits s i d → d < cap.
Proof.
  intros Hs (e & y & He & Hy & Hno) Hi Hf.
  assert (dist e i ≤ cap) by (unfold dist; case_match; lia).
  pose proof (fits_bound s e y Hs He Hy Hno (Z.to_nat cap) i d Hi ltac:(lia) Hf). lia.
Qed.

(** *** Placing an entry *)

Lemma table_place s i y c :
  table_ok s → 0 ≤ i < cap → s !! Z.to_nat i = Some y → (occ y → psl y ≤ psl c) →
  occ c → at_home i c → fits s i (psl c) → table_ok (<[Z.to_nat i := c]> s).
Proof.
  intros [Hl Hs] Hi Hy Hle Hoc Hc Hf. split; [by rewrite length_insert|].
  intros j x Hj Hx Hox. destruct (pv_bounds j Hj) as (Hpj & Hpne & _).
  rewrite (lookup_insert_Z _ _ _ _ _ (proj1 Hi) (proj1 Hj) Hy) in Hx. revert Hx.
  unfold fits. rewrite (lookup_insert_Z _ _ _ _ _ (proj1 Hi) (proj1 Hpj) Hy).
  destruct (Z.eqb_spec i j) as [<-|Hij]; intros Hx.
  - simplify_eq. split; [done|]. destruct (Z.eqb_spec i (pv i)); [lia|]. exact Hf.
  - destruct (Hs _ _ Hj Hx Hox) as [Hx1 [Hx2|(z & Hz & Hoz & Hd)]]; (split; [done|]).
    { by left. }
    right. destruct (Z.eqb_spec i (pv j)) as [->|]; [|by eauto].
    simplify_eq. exists c. split_and!; [done|done|]. specialize (Hle Hoz). lia.
Qed.

Lemma fits_advance s i y d :
  0 ≤ i < cap → s !! Z.to_nat i = Some y → occ y → d ≤ psl y → fits s (nx i) (d + 1).
Proof.
  intros Hi Hy Ho Hd. right. exists y. destruct (nx_bounds i Hi) as [_ ->].
  split_and!; [done..|lia].
Qed.

Lemma at_home_advance i x :
  0 ≤ i < cap → at_home i x → psl x + 1 < cap → at_home (nx i) (set_psl x (psl x + 1)).
Proof.
  intros Hi (Hh & Hp & Hx) Hlt. pose proof (home_bounds x). unfold at_home, home in *. simpl.
  split; [done|]. split; [lia|]. unfold nx. destruct (Z.eqb_spec (i + 1) cap); lia.
Qed.

Lemma at_home_start x :
  0 ≤ hash x < 2 ^ 32 → at_home (Z.land (hash x) (cap - 1)) (set_psl x 0).
Proof.
  intros Hh. pose proof cap_bounds. rewrite land_mask. split; [done|]. unfold home. simpl. lia.
Qed.

(** Steps left until the empty slot [e]. *)
Definition togo e i : nat := Z.to_nat (if i <=? e then e - i else e - i + cap).

Lemma togo_nx e i : 0 ≤ e < cap → 0 ≤ i < cap → i ≠ e → (togo e (nx i) < togo e i)%nat.
Proof.
  intros He Hi Hne. unfold togo, nx.
  destruct (Z.eqb_spec (i + 1) cap); destruct (Z.leb_spec i e);
    match goal with |- context [?a <=? e] => destruct (Z.leb_spec a e) end; lia.
Qed.

Lemma togo_bound e i : 0 ≤ e < cap → 0 ≤ i < cap → (togo e i < Z.to_nat cap)%nat.
Proof. intros He Hi. unfold togo. case_match; lia. Qed.

Lemma set_psl_idem x d : set_psl (set_psl x d) 0 = set_psl x 0.
Proof. done. Qed.

Lemma set_psl_self x : set_psl x (psl x) = x.
Proof. by destruct x. Qed.

(** Insertion terminates, keeps the table well formed and adds the entry to
    the ones that were there. *)
Lemma wp_robin_hood_insert s entry :
  table_ok s → has_room s → 0 ≤ hash entry < 2 ^ 32 →
  wp (robin_hood_insert_entry (cap - 1) entry) (λ _ s',
    table_ok s' ∧ ents s' ≡ₚ set_psl entry 0 :: ents s) s.
Proof.
  intros Hs Hroom Hh. destruct (id Hroom) as (e & ye & He & Hye & Hne).
  pose proof cap_bounds as Hcap. unfold robin_hood_insert_entry.
  apply wp_bind, wp_get.
  apply (wp_loop (λ '(idx, curr) t,
     0 ≤ idx < cap ∧ table_ok t ∧ at_home idx curr ∧ fits t idx (psl curr) ∧
     t !! Z.to_nat e = Some ye ∧
     set_psl curr 0 :: ents t ≡ₚ set_psl entry 0 :: ents s)
     (λ '(idx, _) _, togo e idx)).
  - split_and!; try done; [| |by apply at_home_start|by left];
      rewrite land_mask; apply Z.mod_pos_bound; lia.
  - destruct Hs as [Hl _]. assert (0 ≤ Z.land (hash entry) (cap - 1) < cap) as Hb.
    { rewrite land_mask. apply Z.mod_pos_bound. lia. }
    pose proof (togo_bound e _ He Hb). lia.
  - intros [idx curr] t (Hidx & Ht & Hc & Hf & Hte & Hp).
    destruct (lookup_in_range t idx) as [y Hy]; [rewrite (proj1 Ht); lia|].
    apply wp_bind. eapply wp_aget; [lia|exact Hy|].
    assert (occ curr) as Hoc.
    { rewrite <- (set_psl_self curr). apply occ_small, Hc. }
    destruct (Z.eqb_spec (psl y) COBALT_HASHMAP_EMPTY_PSL) as [Hey|Hoy].
    + apply wp_bind. eapply wp_aset; [lia|exact Hy|]. apply wp_ret. split.
      * by eapply table_place.
      * pose proof (ents_insert t _ y curr Hy) as Hi.
        rewrite (ent_empty y), (ent_occ curr) in Hi by (by intros ?).
        simpl in Hi. by rewrite Hi.
    + assert (idx ≠ e) as Hnx by (intros ->; occ_clash).
      destruct (nx_bounds idx Hidx) as [Hnb Hpn].
      assert (has_room t) as Hrt by (by exists e, ye).
      apply wp_bind. destruct (Z.ltb_spec (psl y) (psl curr)) as [Hlt|Hge].
      * apply wp_bind. eapply wp_aset; [lia|exact Hy|]. apply wp_ret, wp_ret.
        set (t' := <[Z.to_nat idx := curr]> t).
        assert (table_ok t') as Ht' by (eapply table_place; eauto; lia).
        assert (t' !! Z.to_nat e = Some ye) as Hte'.
        { unfold t'. rewrite (lookup_insert_Z _ _ _ y) by (try lia; done).
          by rewrite (proj2 (Z.eqb_neq _ _) Hnx). }
        assert (fits t' (nx idx) (psl y + 1)) as Hf'.
        { eapply fits_advance; [done| |exact Hoc|lia].
          unfold t'. rewrite (lookup_insert_Z _ _ _ y) by (try lia; done).
          by rewrite Z.eqb_refl. }
        assert (psl y + 1 < cap) as Hyb.
        { apply (fits_cap t' (nx idx)); [done|by exists e, ye|done..]. }
        destruct (proj2 Ht _ _ Hidx Hy Hoy) as [Hyh _].
        assert (wrap32 (psl y + 1) = psl y + 1) as ->.
        { apply Z.mod_small. destruct Hyh. lia. }
        rewrite land_nx by done. split; [|by apply togo_nx].
        split_and!; [lia|lia|done|by apply at_home_advance|done|done|].
        pose proof (ents_insert t _ y curr Hy) as Hi.
        rewrite (ent_occ y), (ent_occ curr) in Hi by done. simpl in Hi.
        fold t' in Hi. rewrite set_psl_idem. by rewrite Hi.
      * apply wp_ret, wp_ret.
        assert (fits t (nx idx) (psl curr + 1)) as Hf' by (eapply fits_advance; eauto).
        assert (psl curr + 1 < cap) as Hyb by (by apply (fits_cap t (nx idx))).
        assert (wrap32 (psl curr + 1) = psl curr + 1) as ->.
        { apply Z.mod_small. destruct Hc. lia. }
        rewrite land_nx by done. split; [|by apply togo_nx].
        split_and!; [lia|lia|done|by apply at_home_advance|done..].
Qed.

(** *** The probe path of an entry *)

Definition back i (m : nat) : Z :=
  if i - Z.of_nat m <? 0 then i - Z.of_nat m + cap else i - Z.of_nat m.

(** Every slot between an entry's home and the entry is occupied by an entry
    that is at least as far from its own home, so no lookup stops early. *)
Lemma probe_path s : table_ok s → ∀ m i x,
  0 ≤ i < cap → s !! Z.to_nat i = Some x → occ x → Z.of_nat m ≤ psl x →
  ∃ y, s !! Z.to_nat (back i m) = Some y ∧ occ y ∧ psl x - Z.of_nat m ≤ psl y.
Proof.
  intros [Hl Hs] m. induction m as [|m IH]; intros i x Hi Hx Ho Hm.
  - exists x. unfold back. replace (i - Z.of_nat 0) with i by lia.
    destruct (Z.ltb_spec i 0); [lia|]. split_and!; [done..|lia].
  - destruct (Hs _ _ Hi Hx Ho) as [(_ & Hb & _) [?|(y & Hy & Hoy & Hd)]]; [lia|].
    destruct (pv_bounds i Hi) as (Hp & _ & _).
    destruct (IH (pv i) y Hp Hy Hoy) as (z & Hz & Hoz & Hdz); [lia|].
    exists z. split_and!; [|done|lia]. rewrite <- Hz. f_equal. f_equal.
    unfold back, pv. destruct (Z.eqb_spec i 0);
      repeat match goal with |- context [?a <? ?b] => destruct (Z.ltb_spec a b) end; lia.
Qed.

(** A probe that has not passed an entry yet stands on an occupied slot that
    does not stop it, and stands on the entry when the lengths agree. *)
Lemma probe_hit s t x i d :
  table_ok s → 0 ≤ t < cap → s !! Z.to_nat t = Some x → occ x →
  0 ≤ i < cap → 0 ≤ d ≤ psl x → (i = home x + d ∨ i + cap = home x + d) →
  (∃ y, s !! Z.to_nat i = Some y ∧ occ y ∧ d ≤ psl y) ∧ (d = psl x → i = t).
Proof.
  intros Hs Ht Hx Hox Hi Hd Hpos.
  destruct (proj2 Hs _ _ Ht Hx Hox) as [(_ & Hp & Hh) _]. pose proof (home_bounds x).
  split; [|lia]. destruct (probe_path s Hs (Z.to_nat (psl x - d)) t x) as (y & Hy & Hoy & Hle);
    [done..|lia|]. exists y. split_and!; [|done|lia]. rewrite <- Hy. f_equal. f_equal.
  unfold back. match goal with |- context [?a <? ?b] => destruct (Z.ltb_spec a b) end; lia.
Qed.

(** *** Closing a gap *)

(** The table with a hole at [c]: the slot after the hole would fit into it. *)
Definition hole_ok s (c : Z) : Prop :=
  Z.of_nat (length s) = cap ∧
  (∀ i x, 0 ≤ i < cap → i ≠ c → s !! Z.to_nat i = Some x → occ x → at_home i x) ∧
  (∀ i x, 0 ≤ i < cap → i ≠ c → i ≠ nx c → s !! Z.to_nat i = Some x → occ x →
     fits s i (psl x)) ∧
  (∀ x, s !! Z.to_nat (nx c) = Some x → occ x → 0 < psl x → fits s c (psl x - 1)).

Lemma hole_start s (c : Z) y :
  table_ok s → 0 ≤ c < cap → s !! Z.to_nat c = Some y → occ y → hole_ok s c.
Proof.
  intros [Hl Hs] Hc Hy Ho. split_and!; [done|by intros; eapply Hs|by intros; eapply Hs|].
  intros x Hx Hox Hpos. destruct (nx_bounds c Hc) as [Hn Hp].
  destruct (Hs _ _ Hn Hx Hox) as [_ [?|(z & Hz & Hoz & Hd)]]; [lia|].
  rewrite Hp in Hz. simplify_eq.
  destruct (decide (psl x - 1 = 0)); [by left|]. right.
  destruct (Hs _ _ Hc Hy Ho) as [_ [?|(z & Hz2 & ? & ?)]]; [lia|].
  exists z. split_and!; [done..|lia].
Qed.

Lemma at_home_retreat i x :
  0 ≤ i < cap → at_home (nx i) x → 0 < psl x → at_home i (set_psl x (psl x - 1)).
Proof.
  intros Hi (Hh & Hp & Hx) Hlt. pose proof (home_bounds x). unfold at_home, home in *. simpl.
  split; [done|]. split; [lia|]. revert Hx. unfold nx.
  destruct (Z.eqb_spec (i + 1) cap); lia.
Qed.

Lemma fits_insert_ne s i j y c d :
  0 ≤ i < cap → 0 ≤ j < cap → s !! Z.to_nat i = Some y → pv j ≠ i →
  fits s j d → fits (<[Z.to_nat i := c]> s) j d.
Proof.
  intros Hi Hj Hy Hne [?|(z & Hz & ?)]; [by left|]. right. exists z. split; [|done].
  destruct (pv_bounds j Hj) as (Hp & _). rewrite (lookup_insert_Z _ _ _ y) by (try lia; done).
  destruct (Z.eqb_spec i (pv j)); [lia|done].
Qed.

Lemma hole_step s (c e : Z) ye y x :
  hole_ok s c → 0 ≤ c < cap → 0 ≤ e < cap → e ≠ c →
  s !! Z.to_nat e = Some ye → ¬ occ ye →
  s !! Z.to_nat c = Some y → s !! Z.to_nat (nx c) = Some x → occ x → psl x ≠ 0 →
  hole_ok (<[Z.to_nat c := set_psl x (psl x - 1)]> s) (nx c).
Proof.
  intros (Hl & Hh & Hf & Hn) Hc He Hec Hye Hno Hy Hx Hox Hpos.
  destruct (nx_bounds c Hc) as [Hnb Hpn]. pose proof cap_bounds.
  assert (nx c ≠ c) as Hcn. { unfold nx. case_match; lia. }
  assert (nx c ≠ e) as Hne by (intros Heq; rewrite Heq in Hx; occ_clash).
  assert (at_home (nx c) x) as Hxh by (by apply Hh).
  assert (0 < psl x) as Hp0 by (destruct Hxh; lia).
  assert (nx (nx c) ≠ c) as Hnn.
  { clear -Hc He Hec Hne Hcn Hnb. unfold nx in *.
    destruct (Z.eqb_spec (c + 1) cap); repeat case_match; lia. }
  split_and!; [by rewrite length_insert|..].
  - intros i z Hi Hin. rewrite (lookup_insert_Z _ _ _ y) by (try lia; done).
    destruct (Z.eqb_spec c i) as [<-|]; [|by eauto].
    intros [= <-] _. by apply at_home_retreat.
  - intros i z Hi Hi1 Hi2. destruct (pv_bounds i Hi) as (? & ? & Hpi).
    rewrite (lookup_insert_Z _ _ _ y) by (try lia; done).
    destruct (Z.eqb_spec c i) as [<-|Hci].
    + intros [= <-] _. simpl. eapply fits_insert_ne; eauto.
    + intros Hz Hoz. eapply fits_insert_ne; eauto. intros <-. by rewrite Hpi in Hi1.
  - intros z Hz Hoz Hpz. destruct (nx_bounds _ Hnb) as [Hnnb Hpnn].
    rewrite (lookup_insert_Z _ _ _ y) in Hz by (try lia; done).
    destruct (Z.eqb_spec c (nx (nx c))); [lia|].
    assert (nx (nx c) ≠ nx c) as Hnne. { unfold nx at 1. case_match; lia. }
    destruct (Hf _ _ Hnnb ltac:(done) Hnne Hz Hoz) as [?|(v & Hv & Hov & Hd)]; [lia|].
    rewrite Hpnn in Hv. simplify_eq. right. exists (set_psl x (psl x - 1)).
    rewrite Hpn. rewrite (lookup_insert_Z _ _ _ y), Z.eqb_refl by (try lia; done).
    split_and!; [done| |simpl; lia]. apply occ_small. destruct Hxh. lia.
Qed.

Lemma hole_close s (c : Z) y x :
  hole_ok s c → 0 ≤ c < cap → s !! Z.to_nat c = Some y →
  s !! Z.to_nat (nx c) = Some x → (¬ occ x ∨ psl x = 0) →
  table_ok (<[Z.to_nat c := empty_slot]> s).
Proof.
  intros (Hl & Hh & Hf & Hn) Hc Hy Hx Hor. split; [by rewrite length_insert|].
  intros i z Hi Hz Hoz. rewrite (lookup_insert_Z _ _ _ y) in Hz by (try lia; done).
  destruct (Z.eqb_spec c i) as [<-|Hci]; [by simplify_eq|]. split; [by apply Hh|].
  destruct (decide (i = nx c)) as [->|Hin].
  - simplify_eq. left. by destruct Hor.
  - destruct (pv_bounds i Hi) as (? & ? & Hpi).
    eapply fits_insert_ne; eauto. intros <-. by rewrite Hpi in Hin.
Qed.

(** Deletion terminates, keeps the table well formed and removes exactly the
    entry it was asked to. *)
Lemma wp_backward_shift s (c : Z) y R :
  table_ok s → has_room s → 0 ≤ c < cap → s !! Z.to_nat c = Some y → occ y →
  ents s ≡ₚ set_psl y 0 :: R →
  wp (backward_shift (cap - 1) c) (λ _ s', table_ok s' ∧ ents s' ≡ₚ R) s.
Proof.
  intros Hs (e & ye & He & Hye & Hne) Hc Hy Hoy HR. unfold backward_shift.
  apply wp_bind, wp_get, wp_bind.
  apply (wp_loop (λ (c : Z) t, 0 ≤ c < cap ∧ c ≠ e ∧ hole_ok t c ∧
     t !! Z.to_nat e = Some ye ∧
     ∃ y, t !! Z.to_nat c = Some y ∧ occ y ∧ ents t ≡ₚ set_psl y 0 :: R)
     (λ (c : Z) _, togo e c)).
  - assert (c ≠ e) by (intros ->; occ_clash).
    split_and!; [lia|lia|done|by eapply hole_start|done|]. by exists y.
  - pose proof (togo_bound e c He Hc). destruct Hs. lia.
  - clear y Hs Hc Hy Hoy HR c. intros c t (Hc & Hce & Ht & Hte & y & Hy & Hoy & HR).
    destruct (nx_bounds c Hc) as [Hnb Hpn]. rewrite land_nx by done.
    destruct (lookup_in_range t (nx c)) as [x Hx]; [destruct Ht; lia|].
    apply wp_bind. eapply wp_aget; [lia|exact Hx|].
    destruct (Z.eqb_spec (psl x) COBALT_HASHMAP_EMPTY_PSL) as [Hex|Hox];
      [|destruct (Z.eqb_spec (psl x) 0) as [H0|H0]]; simpl.
    3:{ apply wp_bind. eapply wp_aset; [lia|exact Hy|]. apply wp_ret.
        assert (nx c ≠ c) as Hcn. { pose proof cap_bounds. unfold nx. case_match; lia. }
        assert (at_home (nx c) x) as Hxh by (by apply Ht).
        assert (nx c ≠ e) as Hcne by (intros Heq; rewrite Heq in Hx; occ_clash).
        pose proof cap_bounds as Hcb.
        assert (wrap32 (psl x - 1) = psl x - 1) as ->.
        { apply Z.mod_small. destruct Hxh. lia. }
        split; [|by apply togo_nx].
        split_and!; [lia|lia|done|by apply (hole_step t c e ye y x); auto| |].
        - rewrite (lookup_insert_Z _ _ _ y) by (try lia; done).
          by rewrite (proj2 (Z.eqb_neq _ _) Hce).
        - exists x. rewrite (lookup_insert_Z _ _ _ y) by (try lia; done).
          rewrite (proj2 (Z.eqb_neq c (nx c))) by done. split_and!; [done..|].
          pose proof (ents_insert t _ y (set_psl x (psl x - 1)) Hy) as Hi.
          rewrite (ent_occ y), (ent_occ (set_psl x _)) in Hi
            by (try done; apply occ_small; destruct Hxh; lia).
          rewrite HR, set_psl_idem in Hi. simpl in Hi. rewrite (Permutation_swap _ _ R) in Hi.
          by apply Permutation_cons_inv in Hi. }
    all: apply wp_ret; eapply wp_aset; [lia|exact Hy|]; split;
      [eapply hole_close; [done..|first [by right | left; intros Ho; by apply Ho]]|];
      pose proof (ents_insert t _ y empty_slot Hy) as Hi;
      rewrite (ent_occ y), (ent_empty empty_slot) in Hi by (try done; by intros ?);
      simpl in Hi; rewrite HR in Hi; by apply Permutation_cons_inv in Hi.
Qed.

Lemma table_init : table_ok (init_slots cap).
Proof.
  unfold init_slots. split; [rewrite length_replicate; pose proof cap_bounds; lia|].
  intros i x _ Hx Ho. apply lookup_replicate in Hx as [-> _]. done.
Qed.

Lemma room_of_load s :
  table_ok s → Z.of_nat (length (ents s)) < cap → has_room s.
Proof.
  intros [Hl _] Hlt. destruct (ents_room s) as (i & x & Hx & Hno); [lia|].
  exists (Z.of_nat i), x. rewrite Nat2Z.id. apply lookup_lt_Some in Hx as Hi.
  split_and!; [lia|lia|done..].
Qed.

(** Overwriting a value in place moves nothing. *)
Lemma table_set_value s i x v :
  table_ok s → 0 ≤ i < cap → s !! Z.to_nat i = Some x → occ x →
  table_ok (<[Z.to_nat i := set_value x v]> s).
Proof.
  intros Hs Hi Hx Ho. destruct (proj2 Hs _ _ Hi Hx Ho) as [Hh Hf].
  eapply table_place; eauto. simpl. lia.
Qed.
End table.

(** C4: Robin Hood insertion.  In a well-formed table of [2^k] slots with a free
    one, [robin_hood_insert_entry] terminates, keeps the table well formed
    (every entry sits behind its home slot at the recorded probe length, and no
    probe length exceeds the one before it by more than one), and the entries
    afterwards are the old ones and the new one. *)
Theorem robin_hood_insert_keeps k s entry :
  1 ≤ k ≤ 31 → table_ok k s → has_room k s → 0 ≤ hash entry < 2 ^ 32 →
  wp (robin_hood_insert_entry (cap k - 1) entry) (λ _ s',
    table_ok k s' ∧ ents s' ≡ₚ set_psl entry 0 :: ents s) s.
Proof. intros. by apply wp_robin_hood_insert. Qed.

Lemma empty_table_room k : 1 ≤ k ≤ 31 → has_room k (init_slots (cap k)).
Proof.
  intros Hk. apply (room_of_load k); [by apply table_init|]. rewrite ents_init.
  pose proof (cap_bounds k Hk). simpl. lia.
Qed.

Lemma robin_hood_insert_keeps_witness :
  wp (robin_hood_insert_entry (cap 2 - 1) (Slot 7 8 5 0 1 false)) (λ _ s',
    table_ok 2 s' ∧ ents s' ≡ₚ [Slot 7 8 5 0 1 false]) (init_slots (cap 2)).
Proof.
  refine (robin_hood_insert_keeps 2 (init_slots (cap 2)) (Slot 7 8 5 0 1 false) _ _ _ _);
    [lia|by apply table_init|by apply empty_table_room|simpl; lia].
Defined.

(** C5: Backward-shift deletion.  Emptying an occupied slot of a well-formed
    table with a free slot terminates, keeps the table well formed without
    leaving a tombstone, and removes exactly the entry of that slot. *)
Theorem backward_shift_removes k s (c : Z) y rest :
  1 ≤ k ≤ 31 → table_ok k s → has_room k s → 0 ≤ c < cap k →
  s !! Z.to_nat c = Some y → occ y → ents s ≡ₚ set_psl y 0 :: rest →
  wp (backward_shift (cap k - 1) c) (λ _ s', table_ok k s' ∧ ents s' ≡ₚ rest) s.
Proof. intros. by eapply wp_backward_shift. Qed.

(** Four slots with one entry, whose home is slot 1. *)
Definition one_slot : list hashmap_slot := <[1%nat := Slot 7 8 5 0 1 false]> (init_slots (cap 2)).

Lemma one_slot_ok : table_ok 2 one_slot.
Proof.
  destruct (proj1 (wp_run _ _ _) (wp_robin_hood_insert 2 ltac:(lia) (init_slots (cap 2))
    (Slot 7 8 5 0 1 false) (table_init 2 ltac:(lia)) (empty_table_room 2 ltac:(lia))
    ltac:(simpl; lia))) as (u & s & E & Hs & _).
  vm_compute in E. injection E as <- <-. exact Hs.
Qed.

Lemma backward_shift_removes_witness :
  wp (backward_shift (cap 2 - 1) 1) (λ _ s', table_ok 2 s' ∧ ents s' ≡ₚ []) one_slot.
Proof.
  refine (backward_shift_removes 2 one_slot 1 (Slot 7 8 5 0 1 false) [] _ _ _ _ _ _ _);
    [lia|apply one_slot_ok| |unfold cap; lia|reflexivity|done|reflexivity].
  apply (room_of_load 2); [apply one_slot_ok|vm_compute; reflexivity].
Defined.

End RobinHood.
