(* ===== verification/HashMap.v ===== *)
(** * The hash map of src/src/container/hashmap.c

    Keys are addresses of byte strings in the heap (the bytes before the
    terminating NUL); the map either copies them ([cobalt_hashmap_put]) or
    keeps the caller's pointer ([cobalt_hashmap_put_ext]).  Hash and equality
    callbacks are functions of the memory and their arguments. *)
From S2P Require Import Prelude World Array RobinHood Map.

Module HashMap.
Import RobinHood.

Abbreviation mem := (gmap Z (list Z)).

Definition cobalt_hash_func : Type := mem → Z → Z → Z.
Definition cobalt_equal_func : Type := mem → Z → Z → Z → Z.

Record hashmap_impl := HImpl {
  slots : option (list hashmap_slot);
  capacity : Z;
  mask : Z;
  size : Z;
  max_load : Z;
  hash_func : option cobalt_hash_func;
  equal_func : option cobalt_equal_func
}.

Abbreviation hworld := (world hashmap_impl (list Z)).

Definition sizeof_slot : Z := 40.
Definition sizeof_hashmap : Z := 136.
Definition sizeof_iter : Z := 24.
Definition COBALT_FNV1A_OFFSET_BASIS : Z := 2166136261.
Definition COBALT_FNV1A_PRIME : Z := 16777619.
Definition COBALT_HASHMAP_DEFAULT_BUCKETS : Z := 16.

(** ** Helpers *)

Definition smear (v s : Z) : Z := Z.lor v (Z.shiftr v s).

Definition hashmap_next_pow2 (v : Z) : Z :=
  let v := wrap64 (v - 1) in
  let v := smear (smear (smear (smear (smear (smear v 1) 2) 4) 8) 16) 32 in
  let v := wrap64 (v + 1) in
  if v <? 2 then 2 else v.

Definition hash_string (str : list Z) : Z :=
  foldl (λ hash_val c, wrap32 (Z.lxor hash_val c * COBALT_FNV1A_PRIME))
    COBALT_FNV1A_OFFSET_BASIS str.

(** [strcmp] on the bytes before the terminator. *)
Fixpoint strcmp (a b : list Z) : Z :=
  match a, b with
  | [], [] => 0
  | [], y :: _ => - y
  | x :: _, [] => x
  | x :: a, y :: b => if x =? y then strcmp a b else x - y
  end.

Definition strlen (s : list Z) : Z := Z.of_nat (length s).

Definition slot_hash (hf : option cobalt_hash_func) (key key_len : Z) : M hworld Z :=
  match hf with
  | Some f => h <- get_heap ;; mret (f h key key_len)
  | None => s <- load key ;; mret (hash_string s)
  end.

Definition slot_equal (ef : option cobalt_equal_func) (slot : hashmap_slot)
    (key key_len : Z) : M hworld bool :=
  match ef with
  | Some f => h <- get_heap ;; mret (negb (f h key (RobinHood.key slot) key_len =? 0))
  | None =>
      a <- load key ;; b <- load (RobinHood.key slot) ;; mret (strcmp a b =? 0)
  end.

(** Reads of [impl->slots[i]], and a program on the slot array in place. *)
Definition slots_of (impl : hashmap_impl) : list hashmap_slot := default [] (slots impl).

Definition slot_at (impl : hashmap_impl) (i : Z) : M hworld hashmap_slot :=
  match slots impl with
  | None => mfail NullDeref
  | Some s => match aget i s with Ret x _ => mret x | Fault f => mfail f end
  end.

Definition with_slots (impl : hashmap_impl) (s : list hashmap_slot) : hashmap_impl :=
  HImpl (Some s) (capacity impl) (mask impl) (size impl) (max_load impl)
    (hash_func impl) (equal_func impl).
Definition with_size (impl : hashmap_impl) (n : Z) : hashmap_impl :=
  HImpl (slots impl) (capacity impl) (mask impl) n (max_load impl)
    (hash_func impl) (equal_func impl).
Definition with_funcs (impl : hashmap_impl) hf ef : hashmap_impl :=
  HImpl (slots impl) (capacity impl) (mask impl) (size impl) (max_load impl) hf ef.

Definition on_slots {A} (c : M (list hashmap_slot) A) : M hworld A :=
  impl <- deref ;;
  match slots impl with
  | None => mfail NullDeref
  | Some s =>
      match c s with
      | Ret a s' => set_obj (Some (with_slots impl s')) ;;; mret a
      | Fault f => mfail f
      end
  end.

Definition NOT_FOUND : Z := SIZE_MAX.

(** ** Lookup *)

Definition find_slot (impl : hashmap_impl) (key key_len hash : Z) : M hworld Z :=
  match slots impl with
  | None => mret NOT_FOUND
  | Some s =>
      if (capacity impl =? 0) || (size impl =? 0) then mret NOT_FOUND
      else
        loop (S (length s)) (λ '(idx, cur_psl),
          slot <- slot_at impl idx ;;
          if psl slot =? COBALT_HASHMAP_EMPTY_PSL then mret (inr NOT_FOUND)
          else if psl slot <? cur_psl then mret (inr NOT_FOUND)
          else
            hit <- (if RobinHood.hash slot =? hash
                    then slot_equal (equal_func impl) slot key key_len else mret false) ;;
            if hit then mret (inr idx)
            else mret (inl (Z.land (wrap64 (idx + 1)) (mask impl), wrap32 (cur_psl + 1))))
        (Z.land hash (mask impl), 0)
  end.

(** ** Growth *)

(** A fresh slot array: the request is for [sizeof_slot * count] bytes computed
    in [size_t]; initialising more slots than the block holds is out of bounds. *)
Definition alloc_slots (count : Z) : M hworld (option (list hashmap_slot)) :=
  ok <- request (wrap64 (sizeof_slot * count)) ;;
  if negb ok then mret None
  else if wrap64 (sizeof_slot * count) <? sizeof_slot * count then mfail BadAccess
  else mret (Some (init_slots count)).

(** Rehash: every occupied slot of the old array into the new one. *)
Fixpoint rehash (new_mask : Z) (old : list hashmap_slot) : M (list hashmap_slot) unit :=
  match old with
  | [] => mret tt
  | slot :: old =>
      (if psl slot =? COBALT_HASHMAP_EMPTY_PSL then mret tt
       else robin_hood_insert_entry new_mask slot) ;;;
      rehash new_mask old
  end.

Definition hashmap_ensure_capacity (min_capacity : Z) : M hworld Z :=
  impl <- deref ;;
  let new_cap := hashmap_next_pow2
    (if min_capacity <? COBALT_HASHMAP_DEFAULT_BUCKETS
     then COBALT_HASHMAP_DEFAULT_BUCKETS else min_capacity) in
  if (new_cap <=? capacity impl) && (if slots impl then true else false) then mret 0
  else
    new <- alloc_slots new_cap ;;
    match new with
    | None => cobalt_error_set None COBALT_ERROR_OUT_OF_MEMORY ;;; mret (-1)
    | Some new_slots =>
        let new_mask := new_cap - 1 in
        let filled :=
          match slots impl with
          | Some old =>
              if 0 <? size impl
              then rehash new_mask (take (Z.to_nat (capacity impl)) old) new_slots
              else Ret tt new_slots
          | None => Ret tt new_slots
          end in
        match filled with
        | Fault f => mfail f
        | Ret _ s =>
            set_obj (Some (HImpl (Some s) new_cap new_mask (size impl)
                             (wrap64 (new_cap * 3) / 4) (hash_func impl) (equal_func impl))) ;;;
            mret 0
        end
    end.

(** ** Removal *)

Definition hashmap_remove_key (key key_len hash : Z) : M hworld Z :=
  impl <- deref ;;
  idx <- find_slot impl key key_len hash ;;
  if idx =? NOT_FOUND then mret (-1)
  else
    slot <- slot_at impl idx ;;
    (if key_owned slot && negb (RobinHood.key slot =? NULL)
     then free_node (RobinHood.key slot) else mret tt) ;;;
    on_slots (backward_shift (mask impl) idx) ;;;
    impl' <- deref ;;
    set_obj (Some (with_size impl' (wrap64 (size impl' - 1)))) ;;;
    mret 0.

(** ** Lifecycle *)

Definition cobalt_hashmap_create_with_allocator (initial_buckets : Z) (alloc : bool)
    : M hworld unit :=
  if negb alloc then set_obj None
  else
    ok <- request sizeof_hashmap ;;
    if negb ok then cobalt_error_set None COBALT_ERROR_OUT_OF_MEMORY ;;; set_obj None
    else if 0 <? initial_buckets then
      let pow2_count := hashmap_next_pow2 initial_buckets in
      new <- alloc_slots pow2_count ;;
      match new with
      | None => cobalt_error_set None COBALT_ERROR_OUT_OF_MEMORY ;;; set_obj None
      | Some s =>
          set_obj (Some (HImpl (Some s) pow2_count (pow2_count - 1) 0
                           (wrap64 (pow2_count * 3) / 4) None None))
      end
    else set_obj (Some (HImpl None 0 0 0 0 None None)).

Definition cobalt_hashmap_create (initial_buckets : Z) : M hworld unit :=
  cobalt_hashmap_create_with_allocator initial_buckets true.

Definition cobalt_hashmap_set_funcs (hf : option cobalt_hash_func)
    (ef : option cobalt_equal_func) : M hworld Z :=
  o <- get_obj ;;
  match o with
  | None => mret (-1)
  | Some impl => set_obj (Some (with_funcs impl hf ef)) ;;; mret 0
  end.

Definition cobalt_hashmap_create_ext (initial_buckets : Z) (hf : option cobalt_hash_func)
    (ef : option cobalt_equal_func) : M hworld unit :=
  cobalt_hashmap_create initial_buckets ;;;
  o <- get_obj ;;
  match o with
  | None => mret tt
  | Some impl => set_obj (Some (with_funcs impl hf ef))
  end.

(** The loop that [clear] and [destroy] share: the keys the map owns go. *)
Fixpoint free_keys (s : list hashmap_slot) : M hworld unit :=
  match s with
  | [] => mret tt
  | slot :: s =>
      (if negb (psl slot =? COBALT_HASHMAP_EMPTY_PSL) && key_owned slot
            && negb (RobinHood.key slot =? NULL)
       then free_node (RobinHood.key slot) else mret tt) ;;;
      free_keys s
  end.

Definition hashmap_map_clear : M hworld unit :=
  o <- get_obj ;;
  match o with
  | None => mret tt
  | Some impl =>
      match slots impl with
      | None => mret tt
      | Some s =>
          free_keys (take (Z.to_nat (capacity impl)) s) ;;;
          set_obj (Some (with_size (with_slots impl (init_slots (capacity impl))) 0))
      end
  end.

Definition cobalt_hashmap_destroy : M hworld unit :=
  o <- get_obj ;;
  match o with
  | None => mret tt
  | Some impl =>
      match slots impl with
      | None => mret tt
      | Some s => free_keys (take (Z.to_nat (capacity impl)) s)
      end ;;;
      set_obj None
  end.

(** ** Operations *)

(** The part the two [put]s share: update in place, or grow when needed. *)
Definition put_existing (idx value : Z) : M hworld Z :=
  on_slots (slot <- aget idx ;; aset idx (set_value slot value)) ;;; mret 0.

Definition grow_if_full : M hworld Z :=
  impl <- deref ;;
  if (capacity impl =? 0) || (max_load impl <=? size impl) then
    hashmap_ensure_capacity
      (if capacity impl =? 0 then COBALT_HASHMAP_DEFAULT_BUCKETS
       else wrap64 (Z.shiftl (capacity impl) 1))
  else mret 0.

Definition put_new (entry : hashmap_slot) : M hworld Z :=
  impl <- deref ;;
  on_slots (robin_hood_insert_entry (mask impl) entry) ;;;
  impl' <- deref ;;
  set_obj (Some (with_size impl' (wrap64 (size impl' + 1)))) ;;;
  mret 0.

(** [cobalt_strdup_with_alloc] of src/src/utils/string.c. *)
Definition cobalt_strdup_with_alloc (s : Z) : M hworld Z :=
  if s =? NULL then mret NULL
  else c <- load s ;; alloc_node (wrap64 (strlen c + 1)) c.

Definition cobalt_hashmap_put (key value : Z) : M hworld Z :=
  o <- get_obj ;;
  match o with
  | None => cobalt_error_set None COBALT_ERROR_INVALID_ARGUMENT ;;; mret (-1)
  | Some impl =>
      if key =? NULL then
        cobalt_error_set None COBALT_ERROR_INVALID_ARGUMENT ;;; mret (-1)
      else
        s <- load key ;;
        let len := strlen s in
        hash <- slot_hash (hash_func impl) key len ;;
        existing <- find_slot impl key len hash ;;
        if negb (existing =? NOT_FOUND) then put_existing existing value
        else
          r <- grow_if_full ;;
          if negb (r =? 0) then mret (-1)
          else
            key_copy <- cobalt_strdup_with_alloc key ;;
            if key_copy =? NULL then
              cobalt_error_set None COBALT_ERROR_OUT_OF_MEMORY ;;; mret (-1)
            else put_new (Slot key_copy value hash 0 len true)
  end.

Definition cobalt_hashmap_put_ext (key key_len value : Z) : M hworld Z :=
  o <- get_obj ;;
  match o with
  | None => cobalt_error_set None COBALT_ERROR_INVALID_ARGUMENT ;;; mret (-1)
  | Some impl =>
      if key =? NULL then
        cobalt_error_set None COBALT_ERROR_INVALID_ARGUMENT ;;; mret (-1)
      else
        hash <- slot_hash (hash_func impl) key key_len ;;
        existing <- find_slot impl key key_len hash ;;
        if negb (existing =? NOT_FOUND) then put_existing existing value
        else
          r <- grow_if_full ;;
          if negb (r =? 0) then mret (-1)
          else put_new (Slot key value hash 0 key_len false)
  end.

Definition cobalt_hashmap_get (key : Z) : M hworld Z :=
  o <- get_obj ;;
  match o with
  | None => cobalt_error_set None COBALT_ERROR_INVALID_ARGUMENT ;;; mret NULL
  | Some impl =>
      if key =? NULL then
        cobalt_error_set None COBALT_ERROR_INVALID_ARGUMENT ;;; mret NULL
      else
        s <- load key ;;
        hash <- slot_hash (hash_func impl) key (strlen s) ;;
        idx <- find_slot impl key (strlen s) hash ;;
        if idx =? NOT_FOUND then
          cobalt_error_set None COBALT_ERROR_NOT_FOUND ;;; mret NULL
        else slot <- slot_at impl idx ;; mret (RobinHood.value slot)
  end.

Definition cobalt_hashmap_get_ext (key key_len : Z) : M hworld Z :=
  o <- get_obj ;;
  match o with
  | None => mret NULL
  | Some impl =>
      if key =? NULL then mret NULL
      else
        hash <- slot_hash (hash_func impl) key key_len ;;
        idx <- find_slot impl key key_len hash ;;
        if idx =? NOT_FOUND then mret NULL
        else slot <- slot_at impl idx ;; mret (RobinHood.value slot)
  end.

Definition cobalt_hashmap_remove (key : Z) : M hworld Z :=
  o <- get_obj ;;
  match o with
  | None => cobalt_error_set None COBALT_ERROR_INVALID_ARGUMENT ;;; mret (-1)
  | Some impl =>
      if key =? NULL then
        cobalt_error_set None COBALT_ERROR_INVALID_ARGUMENT ;;; mret (-1)
      else
        s <- load key ;;
        hash <- slot_hash (hash_func impl) key (strlen s) ;;
        ret <- hashmap_remove_key key (strlen s) hash ;;
        if negb (ret =? 0) then
          cobalt_error_set None COBALT_ERROR_NOT_FOUND ;;; mret (-1)
        else mret 0
  end.

Definition cobalt_hashmap_remove_ext (key key_len : Z) : M hworld Z :=
  o <- get_obj ;;
  match o with
  | None => mret (-1)
  | Some impl =>
      if key =? NULL then mret (-1)
      else
        hash <- slot_hash (hash_func impl) key key_len ;;
        hashmap_remove_key key key_len hash
  end.

Definition cobalt_hashmap_size : M hworld Z :=
  o <- get_obj ;; mret (match o with Some impl => size impl | None => 0 end).

Definition cobalt_hashmap_capacity : M hworld Z :=
  o <- get_obj ;; mret (match o with Some impl => capacity impl | None => 0 end).

(** ** The iterator: a slot index *)

Definition hashmap_iter_advance (slot_idx : Z) : M hworld Z :=
  impl <- deref ;;
  loop (S (Z.to_nat (capacity impl - slot_idx))) (λ slot_idx : Z,
    if slot_idx <? capacity impl then
      slot <- slot_at impl slot_idx ;;
      if negb (psl slot =? COBALT_HASHMAP_EMPTY_PSL) then mret (inr slot_idx)
      else mret (inl (wrap64 (slot_idx + 1)))
    else mret (inr slot_idx)) slot_idx.

Definition hashmap_map_iter_has_next (slot_idx : Z) : M hworld bool :=
  o <- get_obj ;;
  mret (match o with
        | Some impl => (if slots impl then true else false) && (slot_idx <? capacity impl)
        | None => false
        end).

Definition hashmap_map_iter_next (slot_idx : Z) : M hworld ((Z * Z) * Z) :=
  more <- hashmap_map_iter_has_next slot_idx ;;
  if negb more then mret ((NULL, NULL), slot_idx)
  else
    impl <- deref ;;
    slot <- slot_at impl slot_idx ;;
    idx <- hashmap_iter_advance (wrap64 (slot_idx + 1)) ;;
    mret ((RobinHood.key slot, RobinHood.value slot), idx).

Definition hashmap_map_iterator : M hworld (option Z) :=
  ok <- request sizeof_iter ;;
  if negb ok then mret None
  else
    idx <- hashmap_iter_advance 0 ;;
    ok2 <- request sizeof_iter ;;
    mret (if ok2 then Some idx else None).

Definition cobalt_hashmap_iterator_create : M hworld (option Z) :=
  o <- get_obj ;;
  match o with None => mret None | Some _ => hashmap_map_iterator end.

(** ** The method table *)

Definition hashmap_map_contains (key key_len : Z) : M hworld bool :=
  v <- cobalt_hashmap_get_ext key key_len ;; mret (negb (v =? NULL)).

Definition hashmap_map_is_empty : M hworld bool :=
  n <- cobalt_hashmap_size ;; mret (n =? 0).

#[export] Instance hashmap_map_vtable : MapTable hashmap_impl (list Z) := {|
  m_get := Some cobalt_hashmap_get_ext;
  m_put := Some cobalt_hashmap_put_ext;
  m_remove := Some cobalt_hashmap_remove_ext;
  m_contains := Some hashmap_map_contains;
  m_clear := Some hashmap_map_clear;
  m_size := Some cobalt_hashmap_size;
  m_is_empty := Some hashmap_map_is_empty;
  m_iterator := Some hashmap_map_iterator;
  mi_has_next := hashmap_map_iter_has_next;
  mi_next := hashmap_map_iter_next
|}.

End HashMap.
