(* ===== verification/HashMapProofs.v ===== *)
(** * Correctness of the hash map

    The map represented by a slot array, for every pair of hash and equality
    callbacks that agree on what a key is ([KeyLaws]). *)
From S2P Require Import Prelude World Array RobinHood Map HashMap.

Module HashMapProofs.
Import RobinHood HashMap.

(** ** Rounding up to a power of two *)

(** The [m] bits from [l] down are set and none above. *)
Definition smeared (v l m : Z) : Prop :=
  ∀ i, 0 ≤ i → (l < i → Z.testbit v i = false) ∧ (l - m < i ≤ l → Z.testbit v i = true).

Lemma smear_double v l m : 0 ≤ m → smeared v l m → smeared (smear v m) l (2 * m).
Proof.
  intros Hm Hv i Hi. unfold smear. rewrite Z.lor_spec, Z.shiftr_spec by done.
  destruct (Hv i Hi) as [H1 H2]. destruct (Hv (i + m) ltac:(lia)) as [H3 H4]. split.
  - intros. rewrite H1, H3 by lia. done.
  - intros. destruct (decide (l - m < i)); [by rewrite H2 by lia|].
    rewrite H4 by lia. apply orb_true_r.
Qed.

Lemma smeared_log v : 0 < v → smeared v (Z.log2 v) 1.
Proof.
  intros Hv i Hi. split; intros ?.
  - apply Z.bits_above_log2; lia.
  - replace i with (Z.log2 v) by lia. by apply Z.bit_log2.
Qed.

Lemma smeared_ones v l m : 0 ≤ l < m → smeared v l m → v = Z.ones (l + 1).
Proof.
  intros Hl Hv. apply Z.bits_inj_iff. intros i. destruct (decide (0 ≤ i)) as [Hi|].
  - destruct (Hv i Hi) as [H1 H2]. rewrite Z.testbit_ones_nonneg by lia.
    destruct (Z.ltb_spec i (l + 1)); [apply H2|apply H1]; lia.
  - rewrite !Z.testbit_neg_r by lia. done.
Qed.

(** [hashmap_next_pow2 v] is the least power of two that is at least [v] and 2. *)
Lemma next_pow2_spec v : 1 ≤ v ≤ 2 ^ 63 →
  ∃ k, 1 ≤ k ≤ 63 ∧ hashmap_next_pow2 v = 2 ^ k ∧ v ≤ 2 ^ k ∧ (k = 1 ∨ 2 ^ (k - 1) < v).
Proof.
  intros Hv. unfold hashmap_next_pow2. rewrite (wrap64_small (v - 1)) by lia.
  destruct (decide (v = 1)) as [->|Hne]; [exists 1; split_and!; try done; by left|].
  set (l := Z.log2 (v - 1)).
  assert (0 ≤ l ∧ 2 ^ l ≤ v - 1 < 2 ^ (l + 1)) as [Hl0 Hl].
  { split; [apply Z.log2_nonneg|]. unfold l. rewrite Z.add_1_r. apply Z.log2_spec. lia. }
  assert (l < 63) as Hl63.
  { apply (Z.pow_lt_mono_r_iff 2); [lia..|]. lia. }
  assert (smear (smear (smear (smear (smear (smear (v - 1) 1) 2) 4) 8) 16) 32
          = Z.ones (l + 1)) as ->.
  { apply (smeared_ones _ l 64); [lia|].
    do 6 (match goal with |- smeared (smear _ ?m) _ _ => apply (smear_double _ _ m); [lia|] end).
    apply smeared_log. lia. }
  rewrite Z.ones_equiv. replace (Z.pred (2 ^ (l + 1)) + 1) with (2 ^ (l + 1)) by lia.
  assert (2 ^ 1 ≤ 2 ^ (l + 1) ≤ 2 ^ 63) as Hb by (split; apply Z.pow_le_mono_r; lia).
  rewrite wrap64_small by lia.
  destruct (Z.ltb_spec (2 ^ (l + 1)) 2); [lia|]. exists (l + 1).
  split; [lia|]. split; [done|]. split; [lia|]. right.
  replace (l + 1 - 1) with l by lia. lia.
Qed.

Lemma strcmp_eq a b :
  Forall (λ c, 0 < c < 256) a → Forall (λ c, 0 < c < 256) b → strcmp a b = 0 ↔ a = b.
Proof.
  revert b. induction a as [|x a IH]; intros [|y b] Ha Hb; simpl; try done.
  - apply Forall_cons in Hb as [? _]. split; [lia|done].
  - apply Forall_cons in Ha as [? _]. split; [lia|done].
  - apply Forall_cons in Ha as [? Ha]. apply Forall_cons in Hb as [? Hb].
    destruct (Z.eqb_spec x y) as [->|]; [rewrite IH by done; naive_solver|].
    split; [lia|congruence].
Qed.

Lemma hash_string_range s : 0 ≤ hash_string s < 2 ^ 32.
Proof.
  unfold hash_string. destruct s as [|c s _] using rev_ind; [by vm_compute|].
  rewrite foldl_app. simpl. apply Z.mod_pos_bound. lia.
Qed.

(** ** What the callbacks must agree on

    [key_ok h p n]: the argument [(p, n)] is a key in memory [h]; [key_view]
    is the key it stands for.  A key stays the same key when memory grows. *)
Class KeyFuncs (K : Type) := {
  key_ok : mem → Z → Z → Prop;
  key_view : mem → Z → Z → K;
  key_digest : K → Z
}.

Class KeyLaws (hf : option cobalt_hash_func) (ef : option cobalt_equal_func)
    (K : Type) `{!KeyFuncs K} `{!EqDecision K} : Prop := {
  kl_range k : 0 ≤ key_digest k < 2 ^ 32;
  kl_null h p n : key_ok h p n → p ≠ NULL;
  kl_mono h h' p n : h ⊆ h' → key_ok h p n →
    key_ok h' p n ∧ key_view h' p n = key_view h p n;
  kl_hash w p n : key_ok (heap w) p n →
    slot_hash hf p n w = Ret (key_digest (key_view (heap w) p n)) w;
  kl_equal w x p n : key_ok (heap w) p n → key_ok (heap w) (RobinHood.key x) (key_len x) →
    slot_equal ef x p n w =
      Ret (bool_decide (key_view (heap w) p n =
                        key_view (heap w) (RobinHood.key x) (key_len x))) w
}.

(** Keys that may be copied: the view depends on the bytes only. *)
Class KeyCopy (K : Type) `{!KeyFuncs K} : Prop := {
  kc_copy h p q s : key_ok h p (strlen s) → h !! p = Some s → q ≠ NULL →
    key_ok {[q := s]} q (strlen s) ∧
    key_view {[q := s]} q (strlen s) = key_view h p (strlen s)
}.

(** *** Instance: C strings under FNV-1a and [strcmp] *)

Definition cstring (s : list Z) : Prop := Forall (λ c, 0 < c < 256) s.

#[export] Instance string_keys : KeyFuncs (list Z) := {|
  key_ok h p n := p ≠ NULL ∧ ∃ s, h !! p = Some s ∧ cstring s;
  key_view h p n := default [] (h !! p);
  key_digest s := hash_string s
|}.

Lemma string_key_laws : KeyLaws None None (list Z).
Proof.
  split; simpl.
  - apply hash_string_range.
  - tauto.
  - intros h h' p n Hsub (Hp & s & Hs & Hc).
    pose proof (lookup_weaken _ _ _ _ Hs Hsub) as Hs'. rewrite Hs, Hs'. eauto.
  - intros w p n (_ & s & Hs & _). unfold slot_hash, mbind, load. by rewrite Hs.
  - intros w x p n (_ & s & Hs & Hc) (_ & s' & Hs' & Hc').
    unfold slot_equal, mbind, load. rewrite Hs, Hs'. simpl. unfold mret. f_equal.
    apply eq_bool_prop_intro. rewrite bool_decide_spec, <- strcmp_eq by done.
    by rewrite Is_true_true, Z.eqb_eq.
Qed.

Lemma string_key_copy : KeyCopy (list Z).
Proof.
  split. simpl. intros h p q s (_ & s' & Hs' & Hc) Hs Hq.
  rewrite Hs in Hs'. injection Hs' as <-. rewrite lookup_singleton_eq, Hs. split; [|done]. split; [done|]. eauto.
Qed.

(** *** Instance: pointers compared by identity, kept by the map as they are *)

Definition ptr_hash : cobalt_hash_func := λ _ p _, wrap32 p.
Definition ptr_equal : cobalt_equal_func := λ _ p q _, if p =? q then 1 else 0.

Definition pointer_keys : KeyFuncs Z := {|
  key_ok h p n := p ≠ NULL;
  key_view h p n := p;
  key_digest p := wrap32 p
|}.

Lemma pointer_key_laws : @KeyLaws (Some ptr_hash) (Some ptr_equal) Z pointer_keys _.
Proof.
  split; simpl; try done.
  - intros k. apply Z.mod_pos_bound. lia.
  - intros w x p n _ _. unfold slot_equal, mbind, get_heap, mret, ptr_equal. f_equal.
    destruct (Z.eqb_spec p (RobinHood.key x)); [by rewrite bool_decide_true|].
    by rewrite bool_decide_false.
Qed.

(** ** The represented map *)

Section rep.
Context {hf : option cobalt_hash_func} {ef : option cobalt_equal_func}
  {K : Type} `{Countable K} `{!KeyFuncs K} `{!KeyLaws hf ef K}.
Implicit Types (h U : mem) (w : hworld) (e x y : hashmap_slot) (m : gmap K Z).

Definition eview h e : K := key_view h (RobinHood.key e) (key_len e).
Definition kvs h (es : list hashmap_slot) : list (K * Z) :=
  (λ e, (eview h e, RobinHood.value e)) <$> es.
Definition owned (es : list hashmap_slot) : list Z :=
  RobinHood.key <$> filter (λ e, key_owned e = true) es.

(** An entry's key is the map's own block or lies in the caller's memory [U]. *)
Definition entry_ok U h e : Prop :=
  RobinHood.hash e = key_digest (eview h e) ∧
  if key_owned e
  then ∃ s, h !! RobinHood.key e = Some s ∧
            key_ok {[RobinHood.key e := s]} (RobinHood.key e) (key_len e)
  else key_ok U (RobinHood.key e) (key_len e).

(** Memory is the caller's memory plus the keys the map owns: none leaks. *)
Record entries_ok U h (es : list hashmap_slot) (m : gmap K Z) : Prop := {
  eo_nodup : NoDup (kvs h es).*1;
  eo_map : m = list_to_map (kvs h es);
  eo_entry : Forall (entry_ok U h) es;
  eo_user : U ⊆ h;
  eo_owned : NoDup (owned es);
  eo_disj : ∀ p, p ∈ owned es → U !! p = None;
  eo_dom : dom h = dom U ∪ list_to_set (owned es)
}.

Definition table_of (impl : hashmap_impl) : Prop :=
  match slots impl with
  | None => capacity impl = 0 ∧ mask impl = 0 ∧ size impl = 0 ∧ max_load impl = 0
  | Some s => ∃ k, 1 ≤ k ≤ 31 ∧ capacity impl = cap k ∧ mask impl = cap k - 1 ∧
      max_load impl = cap k * 3 / 4 ∧ table_ok k s ∧
      size impl = Z.of_nat (length (ents s)) ∧ size impl ≤ max_load impl
  end.

(** Blocks stay below 128 GiB, so tables stay below [2^32] slots and a probe
    length never reaches the empty marker. *)
Definition small_blocks (orc : nat → Z → bool) : Prop :=
  ∀ j n, orc j n = true → n < 2 ^ 37.

Record hm_ok U w (impl : hashmap_impl) m : Prop := {
  hm_obj : obj w = Some impl;
  hm_hf : hash_func impl = hf;
  hm_ef : equal_func impl = ef;
  hm_table : table_of impl;
  hm_entries : entries_ok U (heap w) (ents (slots_of impl)) m;
  hm_heap : heap_ok w;
  hm_small : small_blocks (oracle w)
}.

Definition rep U w m : Prop := ∃ impl, hm_ok U w impl m.

(** *** Entries and the map they spell *)

Lemma entry_key_ok U h e : U ⊆ h → entry_ok U h e → key_ok h (RobinHood.key e) (key_len e).
Proof.
  intros HU [_ He]. destruct (key_owned e).
  - destruct He as (s & Hs & Hk).
    apply (kl_mono (hf := hf) (ef := ef) {[RobinHood.key e := s]}); [|done].
    by apply map_singleton_subseteq_l.
  - by apply (kl_mono (hf := hf) (ef := ef) U).
Qed.

Lemma entries_lookup U h es m e :
  entries_ok U h es m → e ∈ es → m !! eview h e = Some (RobinHood.value e).
Proof.
  intros He Hin. rewrite (eo_map _ _ _ _ He). apply elem_of_list_to_map_1; [apply He|].
  apply list_elem_of_fmap. eauto.
Qed.

Lemma entries_lookup_None U h es m k :
  entries_ok U h es m → m !! k = None ↔ ∀ e, e ∈ es → eview h e ≠ k.
Proof.
  intros He. rewrite (eo_map _ _ _ _ He), <- not_elem_of_list_to_map.
  unfold kvs. rewrite <- list_fmap_compose, list_elem_of_fmap. simpl. naive_solver.
Qed.

Lemma entries_size U h es m : entries_ok U h es m → base.size m = length es.
Proof.
  intros He. rewrite (eo_map _ _ _ _ He), map_size_list_to_map by apply He.
  unfold kvs. by rewrite length_fmap.
Qed.

Lemma entries_perm U h es es' m :
  es ≡ₚ es' → entries_ok U h es m → entries_ok U h es' m.
Proof.
  intros Hp [Hnd Hm Hf Hu Ho Hd Hdom].
  assert (kvs h es ≡ₚ kvs h es') as Hk by (by apply fmap_Permutation).
  assert (owned es ≡ₚ owned es') as Hw.
  { apply fmap_Permutation. by rewrite Hp. }
  split; try done.
  - by rewrite <- Hk.
  - rewrite Hm. by apply list_to_map_proper.
  - by rewrite <- Hp.
  - by rewrite <- Hw.
  - intros p Hin. apply Hd. by rewrite Hw.
  - by rewrite <- Hw.
Qed.

(** A key keeps its meaning as long as the caller's memory and its own block do. *)
Lemma entry_frame U h h' e :
  U ⊆ h → U ⊆ h' → entry_ok U h e →
  (key_owned e = true → h' !! RobinHood.key e = h !! RobinHood.key e) →
  entry_ok U h' e ∧ eview h' e = eview h e.
Proof.
  intros HU HU' [Hh He] Hf.
  assert (eview h' e = eview h e) as Hv.
  { unfold eview. destruct (key_owned e).
    - destruct He as (s & Hs & Hk). rewrite <- (Hf eq_refl) in Hs.
      destruct (kl_mono (hf := hf) (ef := ef) {[RobinHood.key e := s]} h' _ _
                  ltac:(by apply map_singleton_subseteq_l) Hk) as [_ ->].
      rewrite (Hf eq_refl) in Hs.
      by destruct (kl_mono (hf := hf) (ef := ef) {[RobinHood.key e := s]} h _ _
                  ltac:(by apply map_singleton_subseteq_l) Hk) as [_ ->].
    - destruct (kl_mono (hf := hf) (ef := ef) U h' _ _ HU' He) as [_ ->].
      by destruct (kl_mono (hf := hf) (ef := ef) U h _ _ HU He) as [_ ->]. }
  split; [|done]. split; [by rewrite Hv|]. destruct (key_owned e); [|done].
  destruct He as (s & Hs & Hk). exists s. by rewrite (Hf eq_refl).
Qed.

Lemma kvs_cons h e es : kvs h (e :: es) = (eview h e, RobinHood.value e) :: kvs h es.
Proof. done. Qed.

Lemma kvs_frame U h h' es :
  U ⊆ h → U ⊆ h' → Forall (entry_ok U h) es →
  (∀ e, e ∈ es → key_owned e = true → h' !! RobinHood.key e = h !! RobinHood.key e) →
  Forall (entry_ok U h') es ∧ kvs h' es = kvs h es.
Proof.
  intros HU HU' Hes Hf. induction es as [|e es IH]; [done|].
  apply Forall_cons in Hes as [He Hes].
  destruct (entry_frame U h h' e HU HU' He) as [He' Hv]; [apply Hf; set_solver|].
  destruct IH as [Hes' Hk]; [done|set_solver|].
  split; [by apply Forall_cons|]. by rewrite !kvs_cons, Hv, Hk.
Qed.

Lemma elem_of_owned es p : p ∈ owned es ↔ ∃ e, e ∈ es ∧ key_owned e = true ∧ RobinHood.key e = p.
Proof.
  unfold owned. rewrite list_elem_of_fmap. setoid_rewrite list_elem_of_filter. naive_solver.
Qed.

Lemma owned_cons e es :
  owned (e :: es) = if key_owned e then RobinHood.key e :: owned es else owned es.
Proof. unfold owned. rewrite filter_cons. destruct (key_owned e); by case_decide. Qed.

Lemma entries_set_value U h e es m v :
  entries_ok U h (e :: es) m →
  entries_ok U h (set_psl (set_value e v) 0 :: es) (<[eview h e := v]> m).
Proof.
  intros [Hnd Hm Hf Hu Ho Hd Hdom]. apply Forall_cons in Hf as [He Hes].
  rewrite owned_cons in Ho, Hd, Hdom. split; rewrite ?owned_cons; try done.
  - rewrite Hm, !kvs_cons. simpl. by rewrite insert_insert_eq.
  - by apply Forall_cons.
Qed.

Lemma entries_add U h e es m :
  entries_ok U h es m → entry_ok U h e → key_owned e = false → m !! eview h e = None →
  entries_ok U h (e :: es) (<[eview h e := RobinHood.value e]> m).
Proof.
  intros He Hok Hno Hk. rewrite (entries_lookup_None _ _ _ _ _ He) in Hk.
  destruct He as [Hnd Hm Hf Hu Ho Hd Hdom].
  split; rewrite ?owned_cons, ?Hno; try done.
  - rewrite kvs_cons. simpl. apply NoDup_cons. split; [|done].
    unfold kvs. rewrite <- list_fmap_compose, list_elem_of_fmap. simpl. naive_solver.
  - by rewrite Hm, kvs_cons.
  - by apply Forall_cons.
Qed.

(** A copied key: a fresh block joins the memory and the entries. *)
Lemma entries_add_owned U h q s e es m :
  entries_ok U h es m → h !! q = None → key_owned e = true → RobinHood.key e = q →
  key_ok {[q := s]} q (key_len e) →
  RobinHood.hash e = key_digest (key_view {[q := s]} q (key_len e)) →
  m !! key_view {[q := s]} q (key_len e) = None →
  entries_ok U (<[q := s]> h) (e :: es)
    (<[key_view {[q := s]} q (key_len e) := RobinHood.value e]> m).
Proof.
  intros He Hq Hown Hkey Hok Hh Hk. rewrite (entries_lookup_None _ _ _ _ _ He) in Hk.
  destruct He as [Hnd Hm Hf Hu Ho Hd Hdom].
  assert (U ⊆ <[q := s]> h) as Hu'.
  { etrans; [exact Hu|]. by apply insert_subseteq. }
  assert (q ∉ owned es) as Hqo.
  { intros Hin. apply not_elem_of_dom in Hq. apply Hq. rewrite Hdom. set_solver. }
  destruct (kvs_frame U h (<[q := s]> h) es Hu Hu' Hf) as [Hf' Hkv].
  { intros e' He' Ho'. rewrite lookup_insert_ne; [done|]. intros ->. apply Hqo, elem_of_owned.
    eauto. }
  assert (eview (<[q := s]> h) e = key_view {[q := s]} q (key_len e)) as Hv.
  { unfold eview. rewrite Hkey.
    apply (kl_mono (hf := hf) (ef := ef)); [|done].
    apply map_singleton_subseteq_l. apply lookup_insert_eq. }
  split; rewrite ?owned_cons, ?kvs_cons, ?Hown, ?Hkv, ?Hv; try done; simpl.
  - apply NoDup_cons. split; [|done].
    unfold kvs. rewrite <- list_fmap_compose, list_elem_of_fmap. simpl. naive_solver.
  - by rewrite Hm.
  - apply Forall_cons. split; [|done]. split; [by rewrite Hv|]. rewrite Hown.
    exists s. rewrite Hkey. split; [apply lookup_insert_eq|done].
  - rewrite Hkey. by apply NoDup_cons.
  - rewrite Hkey. intros p [->|Hp]%elem_of_cons; [|by apply Hd].
    destruct (U !! q) eqn:E; [|done]. rewrite (lookup_weaken _ _ _ _ E Hu) in Hq. done.
  - rewrite dom_insert_L, Hdom, Hkey. set_solver.
Qed.

Lemma entries_remove U h e es m :
  entries_ok U h (e :: es) m →
  entries_ok U (if key_owned e then delete (RobinHood.key e) h else h) es
    (delete (eview h e) m).
Proof.
  intros [Hnd Hm Hf Hu Ho Hd Hdom]. rewrite kvs_cons in *. simpl in Hnd.
  apply NoDup_cons in Hnd as [Hni Hnd]. apply Forall_cons in Hf as [He Hf].
  assert (delete (eview h e) m = list_to_map (kvs h es)) as Hm'.
  { rewrite Hm. simpl. apply delete_insert_id. by apply not_elem_of_list_to_map. }
  rewrite owned_cons in *. destruct (key_owned e) eqn:Hown; [|by split].
  apply NoDup_cons in Ho as [Hno Ho].
  assert (U ⊆ delete (RobinHood.key e) h) as Hu'.
  { apply map_subseteq_spec. intros p s Hp. rewrite lookup_delete_ne.
    - by eapply lookup_weaken.
    - intros <-. rewrite Hd in Hp; [done|set_solver]. }
  destruct (kvs_frame U h (delete (RobinHood.key e) h) es Hu Hu' Hf) as [Hf' Hkv].
  { intros e' He' Ho'. rewrite lookup_delete_ne; [done|]. intros Heq. apply Hno, elem_of_owned.
    eauto. }
  split; rewrite ?Hkv; try done.
  - intros p Hp. apply Hd. set_solver.
  - rewrite dom_delete_L, Hdom.
    assert (RobinHood.key e ∉ dom U) by (apply not_elem_of_dom, Hd; set_solver). set_solver.
Qed.

(** *** Lookup *)

Lemma slot_at_run impl s i x w :
  slots impl = Some s → 0 ≤ i → s !! Z.to_nat i = Some x → slot_at impl i w = Ret x w.
Proof.
  intros Hs Hi Hx. unfold slot_at, aget. rewrite Hs. destruct (Z.ltb_spec i 0); [lia|].
  by rewrite Hx.
Qed.

Lemma wp_slot_at impl s i x Q w :
  slots impl = Some s → 0 ≤ i → s !! Z.to_nat i = Some x → Q x w → wp (slot_at impl i) Q w.
Proof. intros. unfold wp. by erewrite slot_at_run. Qed.

Lemma ent_in s i x : s !! i = Some x → occ x → set_psl x 0 ∈ ents s.
Proof. intros. apply elem_of_ents. eauto. Qed.

Lemma wp_find U w impl m p n Q :
  hm_ok U w impl m → key_ok (heap w) p n →
  (m !! key_view (heap w) p n = None → Q NOT_FOUND w) →
  (∀ s i x, slots impl = Some s → 0 ≤ i < Z.of_nat (length s) → i ≠ NOT_FOUND →
     s !! Z.to_nat i = Some x → occ x → eview (heap w) x = key_view (heap w) p n →
     m !! key_view (heap w) p n = Some (RobinHood.value x) → Q i w) →
  wp (find_slot impl p n (key_digest (key_view (heap w) p n))) Q w.
Proof.
  intros Hw Hp HN HF. set (key := key_view (heap w) p n) in *.
  pose proof (hm_table _ _ _ _ Hw) as Ht. pose proof (hm_entries _ _ _ _ Hw) as He.
  unfold find_slot, table_of, slots_of in *. destruct (slots impl) as [s|] eqn:Es.
  2:{ wp_steps. apply HN. by rewrite (eo_map _ _ _ _ He). }
  destruct Ht as (k & Hk & Hcap & Hmask & Hml & Htab & Hsz & Hle).
  pose proof (cap_bounds k Hk) as Hcb. simpl in He.
  destruct (Z.eqb_spec (capacity impl) 0); [lia|].
  destruct (Z.eqb_spec (size impl) 0) as [H0|H0].
  { wp_steps. apply HN. apply (entries_lookup_None _ _ _ _ _ He). intros e Hin.
    destruct (ents s); [set_solver|simpl in Hsz; lia]. }
  assert (has_room k s) as (f & yf & Hf & Hyf & Hnf).
  { apply room_of_load; [done..|]. assert (cap k * 3 / 4 < cap k); [|lia].
    apply Z.div_lt_upper_bound; lia. }
  pose proof (kl_range (hf := hf) (ef := ef) key) as Hkr. cbn [orb]. rewrite Hmask.
  (* an entry with the sought key is at home in the table and carries its digest *)
  assert (∀ t x, 0 ≤ t < cap k → s !! Z.to_nat t = Some x → occ x →
    entry_ok U (heap w) (set_psl x 0) ∧
    key_ok (heap w) (RobinHood.key x) (key_len x)) as Hent.
  { intros t x Htr Hx Hox. pose proof (ent_in _ _ _ Hx Hox) as Hin.
    pose proof (proj1 (Forall_forall _ _) (eo_entry _ _ _ _ He) _ Hin) as Hok. split; [done|].
    apply (entry_key_ok U _ _ (eo_user _ _ _ _ He) Hok). }
  apply (wp_loop (λ '(i, d) w', w' = w ∧ 0 ≤ i < cap k ∧ 0 ≤ d ≤ cap k ∧
      (i = key_digest key mod cap k + d ∨ i + cap k = key_digest key mod cap k + d) ∧
      ∀ t x, 0 ≤ t < cap k → s !! Z.to_nat t = Some x → occ x → eview (heap w) x = key →
        d ≤ psl x)
    (λ '(i, _) _, togo k f i)).
  - rewrite land_mask by done. pose proof (Z.mod_pos_bound (key_digest key) (cap k)).
    split_and!; [done|lia..|]. intros t x Htr Hx Hox _.
    apply (proj2 Htab t x Htr Hx Hox).
  - rewrite land_mask by done. destruct Htab as [Hl _].
    pose proof (togo_bound k f (key_digest key mod cap k) Hf
                  ltac:(apply Z.mod_pos_bound; lia)). lia.
  - intros [i d] w' (-> & Hi & Hd & Hpos & Hinv).
    destruct (lookup_in_range s i) as [y Hy]; [rewrite (proj1 Htab); lia|].
    (* the entry, if there is one, keeps this probe going *)
    assert (∀ t x, 0 ≤ t < cap k → s !! Z.to_nat t = Some x → occ x → eview (heap w) x = key →
      occ y ∧ d ≤ psl y ∧ (d = psl x → i = t)) as Hgo.
    { intros t x Htr Hx Hox Hv. destruct (Hent t x Htr Hx Hox) as [[Hh _] _].
      specialize (Hinv t x Htr Hx Hox Hv).
      destruct (probe_hit k Hk s t x i d) as [(y' & Hy' & Hoy & Hle') Hst]; try done; try lia.
      { unfold home. simpl in Hh. unfold eview in Hv, Hh. simpl in Hh. rewrite Hv in Hh.
        rewrite Hh. lia. }
      simplify_eq. eauto. }
    assert (∀ e, e ∈ ents s → eview (heap w) e = key →
      occ y ∧ d ≤ psl y) as Hgo2.
    { intros e Hin Hv. apply elem_of_ents in Hin as (j & x & Hx & Hox & ->).
      apply lookup_lt_Some in Hx as Hj.
      destruct (Hgo (Z.of_nat j) x) as (? & ? & _); rewrite ?Nat2Z.id; try done.
      rewrite <- (proj1 Htab). lia. }
    apply wp_bind. eapply wp_slot_at; [done|lia|exact Hy|].
    destruct (Z.eqb_spec (psl y) COBALT_HASHMAP_EMPTY_PSL) as [Hey|Hoy].
    { apply wp_ret, HN. apply (entries_lookup_None _ _ _ _ _ He). intros e Hin Hv.
      by destruct (Hgo2 e Hin Hv). }
    destruct (Z.ltb_spec (psl y) d).
    { apply wp_ret, HN. apply (entries_lookup_None _ _ _ _ _ He). intros e Hin Hv.
      destruct (Hgo2 e Hin Hv). lia. }
    destruct (Hent i y Hi Hy Hoy) as [Hyok Hykey].
    assert (wp (if RobinHood.hash y =? key_digest key
                then slot_equal (equal_func impl) y p n else mret false)
              (λ b w', w' = w ∧ b = bool_decide (key = eview (heap w) y)) w) as Hcmp.
    { destruct Hyok as [Hh _]. simpl in Hh. unfold eview in Hh. simpl in Hh.
      destruct (Z.eqb_spec (RobinHood.hash y) (key_digest key)) as [Heq|Hneq].
      - unfold wp. rewrite (hm_ef _ _ _ _ Hw), (kl_equal (hf := hf)) by done. done.
      - apply wp_ret. split; [done|]. rewrite bool_decide_false; [done|].
        intros Hk'. apply Hneq. rewrite Hh. f_equal. symmetry. exact Hk'. }
    apply wp_bind. eapply wp_mono; [exact Hcmp|]. intros b w' [-> ->].
    case_bool_decide as Hkv; apply wp_ret.
    + eapply (HF s); try done; [rewrite (proj1 Htab); lia| |].
      * unfold NOT_FOUND, SIZE_MAX. lia.
      * rewrite Hkv. apply (entries_lookup _ _ _ _ (set_psl y 0) He). by eapply ent_in.
    + destruct (proj2 Htab _ _ Hi Hy Hoy) as [(_ & Hyp & _) _].
      assert (i ≠ f) as Hif by (intros ->; rewrite Hyf in Hy; by simplify_eq).
      rewrite land_nx by done. split; [|by apply togo_nx].
      destruct (nx_bounds k Hk i Hi) as [Hnb _].
      assert (∀ t x, 0 ≤ t < cap k → s !! Z.to_nat t = Some x → occ x →
        eview (heap w) x = key → d + 1 ≤ psl x) as Hnext.
      { intros t x Htr Hx Hox Hv. pose proof (Hinv t x Htr Hx Hox Hv).
        destruct (Hgo t x Htr Hx Hox Hv) as (_ & _ & Hst).
        destruct (decide (d = psl x)) as [Hdx|]; [|lia].
        specialize (Hst Hdx). subst t. simplify_eq. }
      unfold wrap32. rewrite Z.mod_small by lia. split_and!; [done|lia..| |done].
      pose proof (Z.mod_pos_bound (key_digest key) (cap k) ltac:(lia)). unfold nx.
      destruct (Z.eqb_spec (i + 1) (cap k)); lia.
Qed.
End rep.

End HashMapProofs.
