(* ===== verification/HashMapRefine.v ===== *)
(** * The hash map refines a finite map

    Every operation of src/src/container/hashmap.c on a represented map, and
    the method table as an instance of the map interface. *)
From S2P Require Import Prelude World Array RobinHood Map HashMap HashMapProofs.

Module HashMapRefine.
Import RobinHood HashMap HashMapProofs.

Section ops.
Context {hf : option cobalt_hash_func} {ef : option cobalt_equal_func}
  {K : Type} `{Countable K} `{!KeyFuncs K} `{!KeyLaws hf ef K}.
Implicit Types (h U : mem) (w : hworld) (m : gmap K Z).
Abbreviation hm_ok := (hm_ok (hf := hf) (ef := ef)).
Abbreviation rep := (rep (hf := hf) (ef := ef)).

(** ** Plumbing *)

Lemma hm_ext U w w' impl m :
  hm_ok U w impl m → obj w' = obj w → heap w' = heap w → brk w' = brk w →
  oracle w' = oracle w → hm_ok U w' impl m.
Proof.
  intros [] Ho Hh Hb Hor. split; rewrite ?Ho, ?Hh, ?Hor; try done. by eapply heap_ok_ext.
Qed.

Lemma wp_slot_hash U w impl m p n Q :
  hm_ok U w impl m → key_ok (heap w) p n →
  Q (key_digest (key_view (heap w) p n)) w → wp (slot_hash (hash_func impl) p n) Q w.
Proof.
  intros Hw Hp HQ. unfold wp. rewrite (hm_hf _ _ _ _ Hw), (kl_hash (ef := ef)); done.
Qed.

Lemma wp_on_slots {A} (c : M (list hashmap_slot) A) w impl s Q :
  obj w = Some impl → slots impl = Some s →
  wp c (λ a s', Q a (with_obj w (Some (with_slots impl s')))) s → wp (on_slots c) Q w.
Proof.
  intros Ho Hs Hc. unfold on_slots. wp_steps. rewrite Hs. unfold wp in Hc.
  destruct (c s); [|done]. by wp_steps.
Qed.

Lemma key_ok_not_null h p n : key_ok h p n → (p =? NULL) = false.
Proof. intros Hp. apply Z.eqb_neq. by eapply (kl_null (hf := hf) (ef := ef)). Qed.

Lemma load_bound k : 1 ≤ k ≤ 31 → 0 ≤ cap k * 3 / 4 < cap k.
Proof.
  intros Hk. pose proof (cap_bounds k Hk). split; [apply Z.div_pos; lia|].
  apply Z.div_lt_upper_bound; lia.
Qed.

Lemma table_some impl s :
  slots impl = Some s → table_of impl →
  ∃ k, 1 ≤ k ≤ 31 ∧ capacity impl = cap k ∧ mask impl = cap k - 1 ∧
       max_load impl = cap k * 3 / 4 ∧ table_ok k s ∧
       size impl = Z.of_nat (length (ents s)) ∧ size impl ≤ max_load impl.
Proof. unfold table_of. by intros ->. Qed.

(** ** Reads *)

Lemma wp_hget_ext U w m p n :
  rep U w m → key_ok (heap w) p n →
  wp (cobalt_hashmap_get_ext p n) (λ r w',
    w' = w ∧ r = default NULL (m !! key_view (heap w) p n)) w.
Proof.
  intros [impl Hw] Hp. unfold cobalt_hashmap_get_ext. wp_step. wp_step.
  rewrite (hm_obj _ _ _ _ Hw), (key_ok_not_null _ _ _ Hp). wp_step.
  eapply wp_slot_hash; [done..|]. wp_step. eapply wp_find; [done..| |].
  - intros Hm. wp_steps. by rewrite Hm.
  - intros s i x Hs Hi Hne Hx Ho Hv Hm. rewrite (proj2 (Z.eqb_neq _ _) Hne). wp_step.
    eapply wp_slot_at; [done|lia|done|]. wp_steps. by rewrite Hm.
Qed.

Lemma wp_hget U w m p str :
  rep U w m → heap w !! p = Some str → key_ok (heap w) p (strlen str) →
  wp (cobalt_hashmap_get p) (λ r w',
    r = default NULL (m !! key_view (heap w) p (strlen str)) ∧ rep U w' m ∧
    (m !! key_view (heap w) p (strlen str) = None → last_error w' = COBALT_ERROR_NOT_FOUND)) w.
Proof.
  intros [impl Hw] Hstr Hp. unfold cobalt_hashmap_get. wp_step. wp_step.
  rewrite (hm_obj _ _ _ _ Hw), (key_ok_not_null _ _ _ Hp). wp_step.
  eapply wp_load; [done|]. wp_step. eapply wp_slot_hash; [done..|]. wp_step.
  eapply wp_find; [done..| |].
  - intros Hm. wp_steps. rewrite Hm. split_and!; [done| |done].
    exists impl. by eapply hm_ext.
  - intros s i x Hs Hi Hne Hx Ho Hv Hm. rewrite (proj2 (Z.eqb_neq _ _) Hne). wp_step.
    eapply wp_slot_at; [done|lia|done|]. wp_steps. rewrite Hm.
    split_and!; [done|by exists impl|done].
Qed.

(** ** Growth *)

Definition same_mem w w' : Prop := heap w' = heap w ∧ brk w' = brk w ∧ oracle w' = oracle w.

(** What the next table may take. *)
Definition table_bytes (impl : hashmap_impl) : Z :=
  sizeof_slot * (2 * capacity impl + COBALT_HASHMAP_DEFAULT_BUCKETS).

Lemma next_pow2_pow k : 1 ≤ k ≤ 63 → hashmap_next_pow2 (2 ^ k) = 2 ^ k.
Proof.
  intros Hk. destruct (next_pow2_spec (2 ^ k)) as (j & Hj & -> & Hle & Hor).
  { split; [|apply Z.pow_le_mono_r; lia]. assert (0 < 2 ^ k) by (apply Z.pow_pos_nonneg; lia). lia. }
  f_equal. apply Z.pow_le_mono_r_iff in Hle; [|lia..].
  destruct Hor as [->|Hlt]; [lia|]. apply Z.pow_lt_mono_r_iff in Hlt; lia.
Qed.

Lemma wp_alloc_slots count Q w :
  small_blocks (oracle w) → 0 < count ≤ 2 ^ 32 →
  (count < 2 ^ 32 → Q (Some (init_slots count)) (with_request w)) →
  (oracle w (allocs w) (sizeof_slot * count) = false → Q None (with_request w)) →
  wp (alloc_slots count) Q w.
Proof.
  intros Hsm Hc H1 H2. unfold alloc_slots, sizeof_slot. wp_step.
  rewrite wrap64_small by lia.
  apply wp_request; intros Ho; wp_steps; [|by apply H2].
  apply Hsm in Ho. rewrite Z.ltb_irrefl. wp_steps. apply H1. lia.
Qed.

Lemma wp_rehash k : 1 ≤ k ≤ 31 → ∀ old t,
  Forall (λ x, occ x → 0 ≤ RobinHood.hash x < 2 ^ 32) old →
  table_ok k t → Z.of_nat (length (ents old) + length (ents t)) < cap k →
  wp (rehash (cap k - 1) old) (λ _ t', table_ok k t' ∧ ents t' ≡ₚ ents old ++ ents t) t.
Proof.
  intros Hk old. induction old as [|x old IH]; intros t Hh Ht Hl; simpl.
  { by apply wp_ret. }
  apply Forall_cons in Hh as [Hx Hh]. rewrite ents_cons, length_app in Hl.
  apply wp_bind. rewrite ents_cons.
  destruct (Z.eqb_spec (psl x) COBALT_HASHMAP_EMPTY_PSL) as [He|Ho].
  - apply wp_ret. rewrite (ent_empty x) in * by (by intros ?). by apply IH.
  - rewrite (ent_occ x) in * by done. simpl in Hl.
    eapply wp_mono; [apply wp_robin_hood_insert; [done|done|apply room_of_load; [done..|lia]|by apply Hx]|].
    intros _ t1 [Ht1 Hp1]. eapply wp_mono; [apply IH; [done..|rewrite Hp1; simpl; lia]|].
    intros _ t2 [Ht2 Hp2]. split; [done|]. rewrite Hp2, Hp1. solve_Permutation.
Qed.

Lemma table_hashes k s :
  table_ok k s → Forall (λ x, occ x → 0 ≤ RobinHood.hash x < 2 ^ 32) s.
Proof.
  intros [Hl Hs]. apply Forall_lookup. intros i x Hx Ho.
  apply lookup_lt_Some in Hx as Hi.
  apply (Hs (Z.of_nat i) x); rewrite ?Nat2Z.id; try done. lia.
Qed.

(** The table of [new_cap] slots that [hashmap_ensure_capacity] fills. *)
Lemma wp_ensure U w impl m j min_cap :
  hm_ok U w impl m → 4 ≤ j ≤ 32 →
  hashmap_next_pow2 (if min_cap <? COBALT_HASHMAP_DEFAULT_BUCKETS
                     then COBALT_HASHMAP_DEFAULT_BUCKETS else min_cap) = 2 ^ j →
  capacity impl < 2 ^ j → size impl < 2 ^ j * 3 / 4 →
  wp (hashmap_ensure_capacity min_cap) (λ r w',
    (r = 0 ∧ same_mem w w' ∧ ∃ impl' s', hm_ok U w' impl' m ∧
       slots impl' = Some s' ∧ size impl' < max_load impl') ∨
    (r = -1 ∧ rep U w' m ∧ last_error w' = COBALT_ERROR_OUT_OF_MEMORY ∧
     starved w (sizeof_slot * 2 ^ j))) w.
Proof.
  intros Hw Hj Hnew Hcap Hsz. unfold hashmap_ensure_capacity. wp_step.
  eapply wp_deref; [apply Hw|]. rewrite Hnew.
  destruct (Z.leb_spec (2 ^ j) (capacity impl)); [lia|]. cbn [andb]. wp_step.
  assert (2 ^ 4 ≤ 2 ^ j ≤ 2 ^ 32) as Hjb by (split; apply Z.pow_le_mono_r; lia).
  apply wp_alloc_slots; [apply Hw|lia| |].
  2:{ intros Hno. wp_steps. right. split_and!; [done| |done|].
      - exists impl. by eapply hm_ext.
      - right. by eexists _, _. }
  intros Hlt.
  assert (j ≤ 31) as Hj31 by (assert (j < 32); [apply (Z.pow_lt_mono_r_iff 2); lia|lia]).
  assert (1 ≤ j ≤ 31) as Hj1 by lia. pose proof (hm_table _ _ _ _ Hw) as Ht.
  assert (wrap64 (2 ^ j * 3) / 4 = cap j * 3 / 4) as ->
    by (unfold cap; rewrite wrap64_small by lia; done).
  assert (∀ s, table_ok j s → ents s ≡ₚ ents (slots_of impl) →
    wp (set_obj (Some (HImpl (Some s) (2 ^ j) (2 ^ j - 1) (size impl)
          (cap j * 3 / 4) (hash_func impl) (equal_func impl))) ;;; mret 0)
      (λ r w', (r = 0 ∧ same_mem w w' ∧ ∃ impl' s', hm_ok U w' impl' m ∧
         slots impl' = Some s' ∧ size impl' < max_load impl') ∨
         (r = -1 ∧ rep U w' m ∧ last_error w' = COBALT_ERROR_OUT_OF_MEMORY ∧
          starved w (sizeof_slot * 2 ^ j)))
      (with_request w)) as Hdone.
  { intros s Hs Hp. wp_steps. left. split_and!; [done..|]. eexists _, s.
    split; [split; [reflexivity|apply Hw|apply Hw| | |apply Hw|apply Hw]|by split].
    - exists j. split; [done|]. split_and!; try done; simpl.
      + rewrite (Permutation_length Hp). unfold table_of, slots_of in *.
        destruct (slots impl); [|by destruct Ht as (_ & _ & -> & _)].
        by destruct Ht as (? & _ & _ & _ & _ & _ & -> & _).
      + unfold cap. lia.
    - simpl. eapply entries_perm; [symmetry; exact Hp|apply Hw]. }
  unfold slots_of, table_of in *. destruct (slots impl) as [old|].
  - destruct Ht as (k & Hk & Hc & Hm & Hml & Ht & Hs & Hle). simpl in Hdone.
    destruct (Z.ltb_spec 0 (size impl)).
    + rewrite take_ge by (destruct Ht; lia).
      assert (wp (rehash (cap j - 1) old)
        (λ _ t', table_ok j t' ∧ ents t' ≡ₚ ents old ++ ents (init_slots (cap j)))
        (init_slots (cap j))) as Hr.
      { apply wp_rehash; [done|by eapply table_hashes|by apply table_init|].
        rewrite ents_init. simpl. pose proof (load_bound j Hj1). unfold cap in *. lia. }
      unfold wp in Hr. change (2 ^ j) with (cap j).
      destruct (rehash (cap j - 1) old (init_slots (cap j))) as [[] t'|]; [|done].
      destruct Hr as [Ht' Hp]. rewrite ents_init, app_nil_r in Hp. by apply Hdone.
    + apply Hdone; [by apply table_init|]. rewrite ents_init.
      destruct (ents old); [done|simpl in Hs; lia].
  - simpl in Hdone. apply Hdone; [by apply table_init|]. by rewrite ents_init.
Qed.

Lemma wp_ensure_grow U w impl m :
  hm_ok U w impl m →
  wp grow_if_full (λ r w',
    (r = 0 ∧ same_mem w w' ∧ ∃ impl' s', hm_ok U w' impl' m ∧
       slots impl' = Some s' ∧ size impl' < max_load impl') ∨
    (r = -1 ∧ rep U w' m ∧ last_error w' = COBALT_ERROR_OUT_OF_MEMORY ∧
     starved w (table_bytes impl))) w.
Proof.
  intros Hw. unfold grow_if_full. wp_step. eapply wp_deref; [apply Hw|].
  pose proof (hm_table _ _ _ _ Hw) as Ht. unfold table_of in Ht.
  destruct (slots impl) as [s|] eqn:Es.
  - destruct Ht as (k & Hk & Hc & Hm & Hml & Ht & Hs & Hle).
    pose proof (cap_bounds k Hk) as Hcb. pose proof (load_bound k Hk) as Hlb.
    destruct (Z.eqb_spec (capacity impl) 0); [lia|]. cbn [orb].
    destruct (Z.leb_spec (max_load impl) (size impl)).
    2:{ wp_steps. left. split_and!; [done..|]. by exists impl, s. }
    rewrite Z.shiftl_mul_pow2, Hc by lia. change (2 ^ 1) with 2.
    rewrite wrap64_small by lia.
    assert (cap k * 2 = 2 ^ (k + 1)) as Hc2.
    { unfold cap. rewrite Z.pow_add_r by lia. done. }
    rewrite Hc2. assert (2 ^ Z.max 4 (k + 1) ≤ 2 * capacity impl + 16) as Hneed.
    { destruct (Z.max_spec 4 (k + 1)) as [[_ ->]|[_ ->]]; [|change (2 ^ 4) with 16]; lia. }
    eapply wp_mono; [apply (wp_ensure U w impl m (Z.max 4 (k + 1))); [done|lia|..]|].
    4: { intros r w' [?|(-> & ? & ? & ?)]; [by left|right]. split_and!; [done..|].
         eapply starved_mono; [done|]. unfold table_bytes, sizeof_slot,
           COBALT_HASHMAP_DEFAULT_BUCKETS. lia. }
    + destruct (Z.ltb_spec (2 ^ (k + 1)) COBALT_HASHMAP_DEFAULT_BUCKETS) as [Hlt|Hge].
      * change COBALT_HASHMAP_DEFAULT_BUCKETS with (2 ^ 4) in *.
        apply Z.pow_lt_mono_r_iff in Hlt; [|lia..].
        rewrite Z.max_l by lia. by vm_compute.
      * change COBALT_HASHMAP_DEFAULT_BUCKETS with (2 ^ 4) in *.
        apply Z.pow_le_mono_r_iff in Hge; [|lia..].
        rewrite Z.max_r by lia. apply next_pow2_pow. lia.
    + assert (2 ^ (k + 1) ≤ 2 ^ (Z.max 4 (k + 1))) by (apply Z.pow_le_mono_r; lia). lia.
    + assert (2 ^ (k + 1) ≤ 2 ^ (Z.max 4 (k + 1))) by (apply Z.pow_le_mono_r; lia).
      assert (cap k * 3 / 4 < 2 ^ Z.max 4 (k + 1) * 3 / 4); [|lia].
      apply Z.lt_le_trans with (cap k * 2 * 3 / 4).
      * pose proof (Z.div_le_mono (cap k * 3 + 4) (cap k * 2 * 3) 4 ltac:(lia) ltac:(lia)) as Hd.
        replace (cap k * 3 + 4) with (cap k * 3 + 1 * 4) in Hd by lia.
        rewrite Z.div_add in Hd by lia. lia.
      * apply Z.div_le_mono; lia.
  - destruct Ht as (Hc & _ & Hs & _). rewrite Hc. cbn [orb Z.eqb].
    eapply wp_mono; [apply (wp_ensure U w impl m 4); [done|lia|by vm_compute|lia|]|].
    { rewrite Hs. by vm_compute. }
    intros r w' [?|(-> & ? & ? & ?)]; [by left|right]. split_and!; [done..|].
    eapply starved_mono; [done|]. unfold table_bytes. by rewrite Hc.
Qed.

(** ** Writes *)

Lemma wp_put_existing U w impl m s i x v :
  hm_ok U w impl m → slots impl = Some s → 0 ≤ i < Z.of_nat (length s) →
  s !! Z.to_nat i = Some x → occ x →
  wp (put_existing i v) (λ r w', r = 0 ∧ rep U w' (<[eview (heap w) x := v]> m)) w.
Proof.
  intros Hw Hs Hi Hx Ho. unfold put_existing. wp_step. eapply wp_on_slots; [apply Hw|done|].
  apply wp_bind. eapply wp_aget; [lia|done|]. eapply wp_aset; [lia|done|].
  apply wp_ret. split; [done|].
  destruct (table_some _ _ Hs (hm_table _ _ _ _ Hw)) as (k & Hk & Hc & Hm & Hml & Ht & Hsz & Hle).
  destruct (elem_of_Permutation (ents s) (set_psl x 0)) as [[R HR] _]; [by eapply ent_in|].
  assert (ents (<[Z.to_nat i := set_value x v]> s) ≡ₚ set_psl (set_value x v) 0 :: R) as HR'.
  { pose proof (ents_insert s _ x (set_value x v) Hx) as Hp.
    rewrite (ent_occ x), (ent_occ (set_value x v)), HR in Hp by done. simpl in Hp.
    rewrite (Permutation_swap _ _ R) in Hp. by apply Permutation_cons_inv in Hp. }
  eexists. split; try done; try apply Hw.
  - exists k. split; [done|]. split_and!; try done.
    + apply table_set_value; [done..|destruct Ht; lia|done|done].
    + simpl. rewrite HR', Hsz, HR. done.
  - simpl. eapply entries_perm; [symmetry; exact HR'|].
    apply (entries_set_value U (heap w) (set_psl x 0) R m v).
    eapply entries_perm; [exact HR|]. pose proof (hm_entries _ _ _ _ Hw) as He.
    unfold slots_of in He. by rewrite Hs in He.
Qed.

Lemma wp_put_new U w impl s m' entry :
  obj w = Some impl → hash_func impl = hf → equal_func impl = ef → table_of impl →
  slots impl = Some s → size impl < max_load impl →
  entries_ok U (heap w) (set_psl entry 0 :: ents s) m' →
  0 ≤ RobinHood.hash entry < 2 ^ 32 → heap_ok w → small_blocks (oracle w) →
  wp (put_new entry) (λ r w', r = 0 ∧ rep U w' m') w.
Proof.
  intros Ho Hhf Hef Ht Hs Hlt He Hh Hok Hsm. unfold put_new.
  destruct (table_some _ _ Hs Ht) as (k & Hk & Hc & Hm & Hml & Htab & Hsz & Hle).
  pose proof (load_bound k Hk). pose proof (cap_bounds k Hk).
  wp_step. eapply wp_deref; [done|]. wp_step. eapply wp_on_slots; [done..|]. rewrite Hm.
  eapply wp_mono; [apply wp_robin_hood_insert; [done|done|apply room_of_load; [done..|lia]|done]|].
  intros _ s' [Ht' Hp]. wp_steps. simpl. split; [done|]. eexists. split; try done.
  - exists k. split; [done|]. split_and!; try done.
    + simpl. rewrite wrap64_small by lia. rewrite Hp. simpl. lia.
    + simpl. rewrite wrap64_small by lia. lia.
  - simpl. eapply entries_perm; [symmetry; exact Hp|done].
Qed.

(** What a [put] may ask for: a table, or the copy of a key of [n] bytes. *)
Definition put_bytes w (n : Z) : Z :=
  Z.max n (match obj w with Some impl => table_bytes impl | None => 0 end).

Lemma wp_hput_ext U w m p n v :
  rep U w m → key_ok U p n →
  wp (cobalt_hashmap_put_ext p n v) (λ r w',
    (r = 0 ∧ rep U w' (<[key_view U p n := v]> m)) ∨
    (r = -1 ∧ rep U w' m ∧ last_error w' = COBALT_ERROR_OUT_OF_MEMORY ∧
     starved w (put_bytes w 0))) w.
Proof.
  intros [impl Hw] HpU. pose proof (eo_user _ _ _ _ (hm_entries _ _ _ _ Hw)) as HU.
  destruct (kl_mono (hf := hf) (ef := ef) U (heap w) _ _ HU HpU) as [Hp Hview].
  unfold cobalt_hashmap_put_ext. wp_step. wp_step.
  rewrite (hm_obj _ _ _ _ Hw), (key_ok_not_null _ _ _ Hp). wp_step.
  eapply wp_slot_hash; [done..|]. wp_step. eapply wp_find; [done..| |].
  2:{ intros s i x Hs Hi Hne Hx Ho Hv _. rewrite (proj2 (Z.eqb_neq _ _) Hne). wp_simpl.
      eapply wp_mono; [by eapply wp_put_existing|]. rewrite Hv, Hview. naive_solver. }
  intros Hnone. rewrite Z.eqb_refl. wp_step. eapply wp_mono; [by eapply wp_ensure_grow|].
  intros r w' [(-> & (Hh & _ & _) & impl' & s' & Hw' & Hs' & Hlt)|(-> & Hrep & Herr & Hst)]; simpl.
  2:{ wp_steps. right. split_and!; [done..|]. eapply starved_mono; [done|].
      unfold put_bytes. rewrite (hm_obj _ _ _ _ Hw). lia. }
  pose proof (hm_entries _ _ _ _ Hw') as He. unfold slots_of in He. rewrite Hs' in He. simpl in He.
  rewrite Hview in *. rewrite <- Hh in Hview.
  set (e := Slot p v (key_digest (key_view U p n)) 0 n false).
  assert (eview (heap w') e = key_view U p n) as Hev by (exact Hview).
  eapply wp_mono.
  - eapply (wp_put_new U w' impl' s' (<[eview (heap w') e := v]> m) e); try done; try apply Hw'.
    + change (set_psl e 0) with e. apply entries_add; [done| |done|by rewrite Hev].
      split; [by rewrite Hev|done].
    + apply (kl_range (hf := hf) (ef := ef)).
  - intros r w'' [-> Hrep]. left. by rewrite Hev in Hrep.
Qed.

Lemma wp_hput `{!KeyCopy K} U w m p str v :
  rep U w m → U !! p = Some str → key_ok U p (strlen str) →
  wp (cobalt_hashmap_put p v) (λ r w',
    (r = 0 ∧ rep U w' (<[key_view U p (strlen str) := v]> m)) ∨
    (r = -1 ∧ rep U w' m ∧ last_error w' = COBALT_ERROR_OUT_OF_MEMORY ∧
     starved w (put_bytes w (strlen str + 1)))) w.
Proof.
  intros [impl Hw] Hstr HpU. pose proof (eo_user _ _ _ _ (hm_entries _ _ _ _ Hw)) as HU.
  pose proof (lookup_weaken _ _ _ _ Hstr HU) as Hstr'.
  destruct (kl_mono (hf := hf) (ef := ef) U (heap w) _ _ HU HpU) as [Hp Hview].
  unfold cobalt_hashmap_put. wp_step. wp_step.
  rewrite (hm_obj _ _ _ _ Hw), (key_ok_not_null _ _ _ Hp). wp_step.
  eapply wp_load; [done|]. wp_step. eapply wp_slot_hash; [done..|]. wp_step.
  eapply wp_find; [done..| |].
  2:{ intros s i x Hs Hi Hne Hx Ho Hv _. rewrite (proj2 (Z.eqb_neq _ _) Hne). wp_simpl.
      eapply wp_mono; [by eapply wp_put_existing|]. rewrite Hv, Hview. naive_solver. }
  intros Hnone. rewrite Z.eqb_refl. wp_step. eapply wp_mono; [by eapply wp_ensure_grow|].
  intros r w' [(-> & (Hh & Hb & Hor) & impl' & s' & Hw' & Hs' & Hlt)|(-> & Hrep & Herr & Hst)];
    simpl.
  2:{ wp_steps. right. split_and!; [done..|]. eapply starved_mono; [done|].
      unfold put_bytes. rewrite (hm_obj _ _ _ _ Hw). lia. }
  pose proof (hm_entries _ _ _ _ Hw') as He. unfold slots_of in He. rewrite Hs' in He. simpl in He.
  pose proof (hm_heap _ _ _ _ Hw') as Hok. rewrite Hview in *.
  wp_step. unfold cobalt_strdup_with_alloc. rewrite (key_ok_not_null _ _ _ Hp). wp_step.
  eapply wp_load; [by rewrite Hh|]. apply wp_alloc_node.
  2:{ intros Hno. wp_steps. right. split_and!; [done| |done|].
      - exists impl'. by eapply hm_ext.
      - unfold refuses, starved in *. rewrite Hb, Hor in Hno. destruct Hno as [Hno|]; [right|by left].
        eexists _, _. split; [|exact Hno]. pose proof (Z.mod_le (strlen str + 1) (2 ^ 64)).
        unfold wrap64, put_bytes, strlen in *. lia. }
  intros _ Hlt64. assert (brk w' ≠ NULL) as Hbn by (destruct Hok; unfold NULL; lia).
  rewrite (proj2 (Z.eqb_neq _ _) Hbn). wp_simpl.
  destruct (kc_copy U p (brk w') str HpU Hstr Hbn) as [Hck Hcv].
  set (e := Slot (brk w') v (key_digest (key_view U p (strlen str))) 0 (strlen str) true).
  eapply wp_mono.
  - eapply (wp_put_new U _ impl' s' (<[key_view {[brk w' := str]} (brk w') (key_len e) := v]> m) e);
      try done; try apply Hw'.
    + change (set_psl e 0) with e.
      apply (entries_add_owned U (heap w') (brk w') str e); [done|by apply heap_fresh|done..| |].
      * simpl. by rewrite Hcv.
      * simpl. by rewrite Hcv.
    + apply (kl_range (hf := hf) (ef := ef)).
    + by apply heap_ok_node.
  - intros r w'' [-> Hrep]. left. simpl in Hrep. by rewrite Hcv in Hrep.
Qed.

(** ** Removal *)

Lemma entry_owned_live U h e es m :
  entries_ok U h (e :: es) m → key_owned e = true →
  RobinHood.key e ≠ NULL ∧ is_Some (h !! RobinHood.key e).
Proof.
  intros He Ho. pose proof (eo_entry _ _ _ _ He) as Hf. apply Forall_cons in Hf as [[_ Hk] _].
  rewrite Ho in Hk. destruct Hk as (s & Hs & Hk). split; [|by eauto].
  by eapply (kl_null (hf := hf) (ef := ef)).
Qed.

(** Freeing the key of an entry that leaves the table. *)
Lemma wp_free_key U e es m Q w (occupied : bool) :
  entries_ok U (heap w) (e :: es) m → heap_ok w → occupied = true →
  (∀ w', entries_ok U (heap w') es (delete (eview (heap w) e) m) → heap_ok w' →
     obj w' = obj w → oracle w' = oracle w → brk w' = brk w →
     last_error w' = last_error w → Q tt w') →
  wp (if occupied && key_owned e && negb (RobinHood.key e =? NULL)
      then free_node (RobinHood.key e) else mret tt) Q w.
Proof.
  intros He Hok -> HQ. pose proof (entries_remove _ _ _ _ _ He) as Hr. cbn [andb].
  destruct (key_owned e) eqn:Ho.
  - destruct (entry_owned_live _ _ _ _ _ He Ho) as [Hn [s Hs]].
    rewrite (proj2 (Z.eqb_neq _ _) Hn). cbn [andb negb].
    eapply wp_free_node; [done..|]. apply HQ; try done.
    eapply heap_ok_dom; [exact Hok|done|]. simpl. rewrite dom_delete_L. set_solver.
  - cbn [andb]. wp_steps. by apply HQ.
Qed.

Lemma wp_remove_key U w m p n :
  rep U w m → key_ok (heap w) p n →
  wp (hashmap_remove_key p n (key_digest (key_view (heap w) p n))) (λ r w',
    r = (if decide (is_Some (m !! key_view (heap w) p n)) then 0 else -1) ∧
    rep U w' (delete (key_view (heap w) p n) m) ∧ last_error w' = last_error w) w.
Proof.
  intros [impl Hw] Hp. unfold hashmap_remove_key. wp_step. eapply wp_deref; [apply Hw|].
  wp_step. eapply wp_find; [done..| |].
  { intros Hm. rewrite Z.eqb_refl. wp_steps. rewrite Hm, delete_id by done.
    split_and!; [|by exists impl|done]. rewrite decide_False; [done|]. by intros []. }
  intros s i x Hs Hi Hne Hx Ho Hv Hm. rewrite (proj2 (Z.eqb_neq _ _) Hne). wp_step.
  eapply wp_slot_at; [done|lia|done|]. wp_step.
  destruct (table_some _ _ Hs (hm_table _ _ _ _ Hw)) as (k & Hk & Hc & Hmk & Hml & Ht & Hsz & Hle).
  pose proof (load_bound k Hk). pose proof (cap_bounds k Hk).
  destruct (elem_of_Permutation (ents s) (set_psl x 0)) as [[R HR] _]; [by eapply ent_in|].
  pose proof (hm_entries _ _ _ _ Hw) as He. unfold slots_of in He. rewrite Hs in He. simpl in He.
  eapply entries_perm in He; [|exact HR].
  apply (wp_free_key U (set_psl x 0) R m _ w true He (hm_heap _ _ _ _ Hw) eq_refl).
  intros w1 He1 Hok1 Ho1 Hor1 _ Herr1. wp_step. eapply wp_on_slots; [rewrite Ho1; apply Hw|done|].
  rewrite Hmk.
  eapply wp_mono; [apply (wp_backward_shift k Hk s i x R); try done|].
  - apply room_of_load; [done..|lia].
  - destruct Ht. lia.
  - intros _ s' [Ht' HR']. wp_steps. simpl.
    split_and!; [by rewrite Hm, decide_True by eauto| |done]. eexists. split; try done; try apply Hw.
    + exists k. rewrite HR in Hsz. simpl in Hsz. split; [done|]. split_and!; try done.
      * simpl. rewrite wrap64_small by lia. rewrite HR'. lia.
      * simpl. rewrite wrap64_small by lia. lia.
    + simpl. eapply entries_perm; [symmetry; exact HR'|]. by rewrite <- Hv.
    + simpl. rewrite Hor1. apply Hw.
Qed.

Lemma wp_hremove_ext U w m p n :
  rep U w m → key_ok (heap w) p n →
  wp (cobalt_hashmap_remove_ext p n) (λ r w',
    r = (if decide (is_Some (m !! key_view (heap w) p n)) then 0 else -1) ∧
    rep U w' (delete (key_view (heap w) p n) m)) w.
Proof.
  intros Hrep Hp. destruct (id Hrep) as [impl Hw]. unfold cobalt_hashmap_remove_ext.
  wp_step. wp_step. rewrite (hm_obj _ _ _ _ Hw), (key_ok_not_null _ _ _ Hp). wp_step.
  eapply wp_slot_hash; [done..|]. eapply wp_mono; [by apply wp_remove_key|]. naive_solver.
Qed.

Lemma wp_hremove U w m p str :
  rep U w m → heap w !! p = Some str → key_ok (heap w) p (strlen str) →
  wp (cobalt_hashmap_remove p) (λ r w',
    r = (if decide (is_Some (m !! key_view (heap w) p (strlen str))) then 0 else -1) ∧
    rep U w' (delete (key_view (heap w) p (strlen str)) m) ∧
    (m !! key_view (heap w) p (strlen str) = None → last_error w' = COBALT_ERROR_NOT_FOUND)) w.
Proof.
  intros Hrep Hstr Hp. destruct (id Hrep) as [impl Hw]. unfold cobalt_hashmap_remove.
  wp_step. wp_step. rewrite (hm_obj _ _ _ _ Hw), (key_ok_not_null _ _ _ Hp). wp_step.
  eapply wp_load; [done|]. wp_step. eapply wp_slot_hash; [done..|]. wp_step.
  eapply wp_mono; [by apply wp_remove_key|]. intros r w' (-> & [impl' Hw'] & Herr).
  case_decide as Hd; simpl; wp_steps.
  - split_and!; [done|by exists impl'|]. intros Hn. rewrite Hn in Hd. by destruct Hd.
  - split_and!; [done| |done]. exists impl'. by eapply hm_ext.
Qed.

(** ** Emptying the map *)

Lemma wp_free_keys U s : ∀ w m,
  entries_ok U (heap w) (ents s) m → heap_ok w →
  wp (free_keys s) (λ _ w', entries_ok (K := K) U (heap w') [] ∅ ∧ heap_ok w' ∧
    obj w' = obj w ∧ oracle w' = oracle w ∧ brk w' = brk w) w.
Proof.
  induction s as [|x s IH]; intros w m He Hok; simpl.
  { wp_steps. split_and!; try done. pose proof (eo_map _ _ _ _ He) as Hm. by rewrite Hm in He. }
  rewrite ents_cons in He. wp_step.
  destruct (Z.eqb_spec (psl x) COBALT_HASHMAP_EMPTY_PSL) as [E|Ho]; cbn [negb andb].
  - wp_step. rewrite (ent_empty x) in He by (by intros ?). by eapply IH.
  - rewrite (ent_occ x) in He by done.
    apply (wp_free_key U (set_psl x 0) (ents s) m _ w true He Hok eq_refl).
    intros w1 He1 Hok1 Ho1 Hor1 Hb1 _. eapply wp_mono; [by eapply IH|].
    intros _ w2 (?&?&Ho2&Hor2&Hb2). by rewrite Ho2, Hor2, Hb2.
Qed.

Lemma entries_nil U h (m : gmap K Z) : entries_ok U h [] m → h = U.
Proof.
  intros He. symmetry. apply (anti_symm (⊆)); [apply He|].
  apply map_subseteq_spec. intros p c Hp.
  assert (p ∈ dom U) as [c' Hc']%elem_of_dom.
  { pose proof (eo_dom _ _ _ _ He) as Hd. assert (p ∈ dom h) by (by eapply elem_of_dom_2).
    set_solver. }
  pose proof (lookup_weaken _ _ _ _ Hc' (eo_user _ _ _ _ He)). by simplify_eq.
Qed.

Lemma table_take impl s :
  slots impl = Some s → table_of impl → take (Z.to_nat (capacity impl)) s = s.
Proof.
  intros Hs Ht. destruct (table_some _ _ Hs Ht) as (k & Hk & Hc & _ & _ & [Hl _] & _).
  apply take_ge. lia.
Qed.

Lemma wp_hclear U w m :
  rep U w m → wp hashmap_map_clear (λ _ w', rep U w' ∅) w.
Proof.
  intros [impl Hw]. unfold hashmap_map_clear. wp_step. wp_step. rewrite (hm_obj _ _ _ _ Hw).
  pose proof (hm_entries _ _ _ _ Hw) as He. unfold slots_of in He.
  destruct (slots impl) as [s|] eqn:Hs.
  2:{ wp_steps. exists impl. pose proof (eo_map _ _ _ _ He) as Hm. simpl in Hm. by rewrite Hm in Hw. }
  wp_step. rewrite (table_take impl s Hs (hm_table _ _ _ _ Hw)).
  eapply wp_mono; [eapply wp_free_keys; [exact He|apply Hw]|].
  intros _ w1 (He1 & Hok1 & Ho1 & Hor1 & _). wp_steps.
  destruct (table_some _ _ Hs (hm_table _ _ _ _ Hw)) as (k & Hk & Hc & Hmk & Hml & Ht & Hsz & Hle).
  pose proof (load_bound k Hk).
  eexists. split; try done; try apply Hw.
  - exists k. simpl. rewrite Hc, ents_init. split; [done|]. split_and!; try done.
    + by apply table_init.
    + lia.
  - unfold slots_of. simpl. by rewrite ents_init.
  - simpl. rewrite Hor1. apply Hw.
Qed.

Lemma wp_hdestroy_keeps U w m :
  rep U w m → wp cobalt_hashmap_destroy (λ _ w',
    obj w' = None ∧ heap w' = U ∧ brk w' = brk w ∧ oracle w' = oracle w) w.
Proof.
  intros [impl Hw]. unfold cobalt_hashmap_destroy. wp_step. wp_step. rewrite (hm_obj _ _ _ _ Hw).
  wp_step. pose proof (hm_entries _ _ _ _ Hw) as He. unfold slots_of in He.
  destruct (slots impl) as [s|] eqn:Hs.
  - rewrite (table_take impl s Hs (hm_table _ _ _ _ Hw)).
    eapply wp_mono; [eapply wp_free_keys; [exact He|apply Hw]|].
    intros _ w1 (He1 & _ & _ & Hor & Hb). wp_steps. split_and!; try done.
    simpl. by apply entries_nil in He1.
  - wp_steps. split_and!; try done. by apply entries_nil in He.
Qed.

Lemma wp_hdestroy U w m :
  rep U w m → wp cobalt_hashmap_destroy (λ _ w', obj w' = None ∧ heap w' = U) w.
Proof. intros. eapply wp_mono; [by eapply wp_hdestroy_keeps|]. naive_solver. Qed.

Lemma wp_hsize U w m :
  rep U w m → wp cobalt_hashmap_size (λ r w', w' = w ∧ r = Z.of_nat (base.size m)) w.
Proof.
  intros [impl Hw]. unfold cobalt_hashmap_size. wp_steps. rewrite (hm_obj _ _ _ _ Hw).
  split; [done|]. pose proof (hm_entries _ _ _ _ Hw) as He.
  rewrite (entries_size _ _ _ _ He). pose proof (hm_table _ _ _ _ Hw) as Ht.
  unfold table_of, slots_of in *. destruct (slots impl); simpl; [|by destruct Ht as (_&_&?&_)].
  by destruct Ht as (k&_&_&_&_&_&?&_).
Qed.

(** ** Iteration *)

Definition pair_of (e : hashmap_slot) : Z * Z := (RobinHood.key e, RobinHood.value e).

Lemma wp_iter_advance w impl s k i Q :
  obj w = Some impl → slots impl = Some s → capacity impl = cap k → 1 ≤ k ≤ 31 →
  table_ok k s → 0 ≤ i ≤ cap k →
  (∀ j, i ≤ j ≤ cap k → ents (drop (Z.to_nat j) s) = ents (drop (Z.to_nat i) s) →
     (j < cap k → ∃ x, s !! Z.to_nat j = Some x ∧ occ x) → Q j w) →
  wp (hashmap_iter_advance i) Q w.
Proof.
  intros Ho Hs Hc Hk Ht Hi HQ. unfold hashmap_iter_advance. wp_step.
  eapply wp_deref; [done|]. rewrite Hc. pose proof (cap_bounds k Hk).
  apply (wp_loop (λ j w', w' = w ∧ i ≤ j ≤ cap k ∧
            ents (drop (Z.to_nat j) s) = ents (drop (Z.to_nat i) s))
           (λ j _, Z.to_nat (cap k - j))); [split_and!; [done|lia..|done]|lia|].
  intros j w' (-> & Hj & He). destruct (Z.ltb_spec j (cap k)).
  2:{ wp_steps. apply HQ; [lia|done|lia]. }
  destruct (lookup_in_range s j) as [x Hx]; [destruct Ht; lia|].
  wp_step. eapply wp_slot_at; [done|lia|done|].
  destruct (Z.eqb_spec (psl x) COBALT_HASHMAP_EMPTY_PSL) as [E|Hox]; wp_steps.
  - rewrite wrap64_small by lia. split; [|lia]. split_and!; [done|lia..|]. rewrite <- He.
    rewrite (drop_S s x (Z.to_nat j) Hx), ents_cons, (ent_empty x) by (by intros ?).
    simpl. do 2 f_equal. lia.
  - apply HQ; [lia|done|]. eauto.
Qed.

Lemma wp_collect w impl s k : obj w = Some impl → slots impl = Some s → capacity impl = cap k →
  1 ≤ k ≤ 31 → table_ok k s → ∀ fuel i acc,
  0 ≤ i ≤ cap k → (i < cap k → ∃ x, s !! Z.to_nat i = Some x ∧ occ x) →
  (length (ents (drop (Z.to_nat i) s)) < fuel)%nat →
  wp (loop fuel (λ '(iter, acc),
    more <- cobalt_map_iterator_has_next iter ;;
    if more then
      r <- cobalt_map_iterator_next iter ;; mret (inl (r.2, acc ++ [r.1]))
    else mret (inr acc)) (Some i, acc))
    (λ l w', w' = w ∧ l = acc ++ (pair_of <$> ents (drop (Z.to_nat i) s))) w.
Proof.
  intros Ho Hs Hc Hk Ht fuel. pose proof (cap_bounds k Hk).
  induction fuel as [|fuel IH]; intros i acc Hi Hnx Hf; [lia|].
  assert (wp (hashmap_map_iter_has_next i) (λ b w', w' = w ∧ b = (i <? cap k)) w) as Hhn.
  { unfold hashmap_map_iter_has_next. wp_steps. by rewrite Ho, Hs, Hc. }
  cbn [loop]. wp_step. wp_step. cbn [cobalt_map_iterator_has_next mi_has_next hashmap_map_vtable].
  eapply wp_mono; [exact Hhn|]. intros b w' [-> ->]. destruct (Z.ltb_spec i (cap k)).
  2:{ wp_steps. split; [done|]. rewrite drop_ge by (destruct Ht; lia). by rewrite app_nil_r. }
  destruct Hnx as (x & Hx & Hox); [done|].
  assert (ents (drop (Z.to_nat i) s) = set_psl x 0 :: ents (drop (Z.to_nat (i + 1)) s)) as Hdr.
  { rewrite (drop_S s x _ Hx), ents_cons, (ent_occ x) by done. simpl. do 3 f_equal. lia. }
  cbn [cobalt_map_iterator_next mi_next hashmap_map_vtable]. unfold hashmap_map_iter_next.
  do 3 wp_step. eapply wp_mono; [exact Hhn|]. intros b w' [-> ->].
  wp_step. eapply wp_deref; [done|].
  wp_step. eapply wp_slot_at; [done|lia|done|]. wp_step. rewrite wrap64_small by lia.
  eapply (wp_iter_advance w impl s k); [done..|lia|].
  intros j Hj Hej Hjx. do 3 wp_step. cbn [fst snd].
  eapply wp_mono; [apply IH; [lia|done|]|].
  - rewrite Hej. rewrite Hdr in Hf. simpl in Hf. lia.
  - intros l w' [-> ->]. split; [done|]. by rewrite Hdr, Hej, <- app_assoc.
Qed.

(** Creating an iterator and draining it yields every entry once, or nothing
    when the iterator could not be allocated. *)
Lemma wp_iterate_all U w m fuel :
  rep U w m → (base.size m < fuel)%nat →
  wp (it <- hashmap_map_iterator ;; map_collect fuel it) (λ l w',
    rep U w' m ∧
    ((l = [] ∧ starved w sizeof_iter) ∨
     ∃ es, l = pair_of <$> es ∧ kvs (heap w) es ≡ₚ map_to_list m)) w.
Proof.
  intros [impl Hw] Hf. pose proof (hm_entries _ _ _ _ Hw) as He.
  rewrite (entries_size _ _ _ _ He) in Hf. destruct fuel as [|fuel]; [lia|].
  assert (∀ w', obj w' = obj w → heap w' = heap w → brk w' = brk w → oracle w' = oracle w →
    rep U w' m) as Hext by (intros; exists impl; by eapply hm_ext).
  wp_step. unfold hashmap_map_iterator. wp_step.
  apply wp_request; intros Hno; wp_step;
    [clear Hno|apply wp_collect_null; split; [by apply Hext|left; split; [done|]; right; by eexists _, _]].
  assert (kvs (heap w) (ents (slots_of impl)) ≡ₚ map_to_list m) as Hkv.
  { rewrite (eo_map _ _ _ _ He). symmetry. apply map_to_list_to_map, He. }
  pose proof (hm_table _ _ _ _ Hw) as Ht. pose proof (hm_obj _ _ _ _ Hw) as Ho.
  unfold slots_of in *. destruct (slots impl) as [s|] eqn:Hs.
  - destruct (table_some impl s Hs (hm_table _ _ _ _ Hw)) as (k & Hk & Hc & _ & _ & Htab & _).
    pose proof (cap_bounds k Hk).
    eapply (wp_iter_advance (with_request w) impl s k); [done..|lia|]. intros j Hj Hej Hjx. wp_step.
    apply wp_request; intros Hno; wp_step;
    [clear Hno|apply wp_collect_null; split; [by apply Hext|left; split; [done|]; right; by eexists _, _]].
    unfold map_collect.
    eapply wp_mono;
      [apply (wp_collect (with_request (with_request w)) impl s k); [done..|lia|done|]|].
    + rewrite Hej, drop_0. simpl in Hf. lia.
    + intros l w' [-> ->]. split; [by apply Hext|]. right. exists (ents s).
      by rewrite Hej, drop_0.
  - unfold table_of in Ht. rewrite Hs in Ht. destruct Ht as (Hc & _).
    unfold hashmap_iter_advance. wp_step. eapply wp_deref; [exact Ho|]. rewrite Hc.
    cbn [loop Z.ltb Z.compare]. wp_steps.
    apply wp_request; intros Hno; wp_step;
    [clear Hno|apply wp_collect_null; split; [by apply Hext|left; split; [done|]; right; by eexists _, _]].
    unfold map_collect. cbn [loop]. wp_step. wp_step.
    cbn [cobalt_map_iterator_has_next mi_has_next hashmap_map_vtable].
    unfold hashmap_map_iter_has_next. wp_steps. simpl. rewrite Ho, Hs. wp_steps.
    split; [by apply Hext|]. right. by exists [].
Qed.

(** ** The map interface *)

Lemma hashmap_map_laws U :
  MapLaws K (λ _ p n k, key_ok U p n ∧ key_view U p n = k) (rep U).
Proof.
  assert (∀ w m, rep U w m → is_Some (obj w)) as Hobj.
  { intros w m [impl Hw]. rewrite (hm_obj _ _ _ _ Hw). eauto. }
  assert (∀ w m p n, rep U w m → key_ok U p n →
    key_ok (heap w) p n ∧ key_view (heap w) p n = key_view U p n) as Hlift.
  { intros w m p n [impl Hw] Hp. apply (kl_mono (hf := hf) (ef := ef)); [|done].
    apply (hm_entries _ _ _ _ Hw). }
  split; try done.
  - intros w m p n k Hrep [Hp <-]. destruct (Hlift _ _ _ _ Hrep Hp) as [Hp' <-].
    eapply wp_via; [by eapply Hobj|done|]. eapply wp_mono; [by eapply wp_hget_ext|].
    intros r w' [-> ->]. done.
  - intros w m p n k v Hrep [Hp <-]. eapply wp_via; [by eapply Hobj|done|].
    eapply wp_mono; [by apply wp_hput_ext|]. naive_solver.
  - intros w m p n k Hrep [Hp <-]. destruct (Hlift _ _ _ _ Hrep Hp) as [Hp' <-].
    eapply wp_via; [by eapply Hobj|done|]. by apply wp_hremove_ext.
  - intros w m Hrep. eapply wp_via; [by eapply Hobj|done|].
    eapply wp_mono; [by eapply wp_hsize|]. intros r w' [-> ->]. done.
  - intros w m Hrep. eapply wp_via; [by eapply Hobj|done|]. by eapply wp_hclear.
Qed.

(** ** Creation *)

Lemma wp_hcreate (U : mem) orc b n a e :
  small_blocks orc → 1 ≤ b ≤ 2 ^ 64 → (∀ p c, U !! p = Some c → 1 ≤ p < b) → 0 ≤ n ≤ 2 ^ 32 →
  wp (cobalt_hashmap_create_ext n hf ef) (λ _ w', rep U w' ∅ ∨
      (obj w' = None ∧ heap w' = U ∧ last_error w' = COBALT_ERROR_OUT_OF_MEMORY))
    (World None U b orc a e).
Proof.
  intros Hsm Hb HU Hn. unfold cobalt_hashmap_create_ext, cobalt_hashmap_create,
    cobalt_hashmap_create_with_allocator. wp_step. wp_step.
  assert (entries_ok U U [] (∅ : gmap K Z)) as He.
  { split; try done; simpl; try set_solver; apply NoDup_nil_2. }
  apply wp_request; intros _; wp_simpl; [|wp_steps; by right].
  destruct (Z.ltb_spec 0 n).
  - destruct (next_pow2_spec n ltac:(lia)) as (k & Hk & Hpow & Hle & Hor). rewrite Hpow.
    assert (k ≤ 32) as Hk32.
    { destruct Hor as [->|Hlt]; [lia|].
      assert (k - 1 < 32); [|lia]. apply (Z.pow_lt_mono_r_iff 2); lia. }
    assert (2 ^ 1 ≤ 2 ^ k ≤ 2 ^ 32) as Hkb by (split; apply Z.pow_le_mono_r; lia).
    wp_step. apply wp_alloc_slots; [done|lia| |wp_steps; by right].
    intros Hlt. assert (1 ≤ k ≤ 31) as Hk31.
    { split; [lia|]. assert (k < 32); [|lia]. apply (Z.pow_lt_mono_r_iff 2); lia. }
    pose proof (load_bound k Hk31). wp_steps. left. eexists. split; try done.
    + exists k. split; [done|]. simpl. rewrite ents_init. split_and!; try done.
      * by rewrite wrap64_small by lia.
      * by apply table_init.
      * rewrite wrap64_small by lia. unfold cap in *. simpl. lia.
    + unfold slots_of. simpl. by rewrite ents_init.
  - wp_steps. left. eexists. by split.
Qed.
End ops.

(** Without callbacks the two constructors agree. *)
Lemma create_plain n w : cobalt_hashmap_create_ext n None None w = cobalt_hashmap_create n w.
Proof.
  unfold cobalt_hashmap_create_ext, cobalt_hashmap_create, cobalt_hashmap_create_with_allocator.
  unfold alloc_slots, request, cobalt_error_set, set_obj, get_obj, with_funcs, mret, mfail.
  repeat (unfold mbind; simpl). repeat (case_match; simplify_eq/=; try done).
Qed.

End HashMapRefine.
