(* ===== verification/HashMapSpec.v ===== *)
(** * The hash map with string keys as a finite map

    The call interface of src/src/container/hashmap.c under the default
    callbacks (FNV-1a and [strcmp]), from creation to destruction.  [U] is the
    memory of the caller: the strings it passes as keys. *)
From S2P Require Import Prelude World Array RobinHood Map HashMap HashMapProofs HashMapRefine.

Module HashMapSpec.
Import HashMap HashMapProofs HashMapRefine.

#[local] Existing Instance string_key_laws.
#[local] Existing Instance string_key_copy.

Abbreviation srep := (HashMapProofs.rep (hf := None) (ef := None) (K := list Z)).

Inductive hop : Set :=
  | HPut (p v : Z) | HPutExt (p v : Z) | HGet (p : Z) | HGetExt (p : Z)
  | HRemove (p : Z) | HRemoveExt (p : Z) | HContains (p : Z) | HClear | HSize.

Section interface.
Variable U : mem.

(** The string a caller's pointer stands for. *)
Definition str (p : Z) : list Z := default [] (U !! p).
Definition is_key (p : Z) : Prop := p ≠ NULL ∧ ∃ s, U !! p = Some s ∧ cstring s.

(** The arguments: keys are strings of the caller, and values are not NULL,
    which a get could not tell from a missing key. *)
Definition op_ok (o : hop) : Prop :=
  match o with
  | HPut p v | HPutExt p v => is_key p ∧ v ≠ NULL
  | HGet p | HGetExt p | HRemove p | HRemoveExt p | HContains p => is_key p
  | HClear | HSize => True
  end.

(** A [void] call returns 0. *)
Definition run (o : hop) : M hworld Z :=
  match o with
  | HPut p v => cobalt_hashmap_put p v
  | HPutExt p v => cobalt_hashmap_put_ext p (strlen (str p)) v
  | HGet p => cobalt_hashmap_get p
  | HGetExt p => cobalt_hashmap_get_ext p (strlen (str p))
  | HRemove p => cobalt_hashmap_remove p
  | HRemoveExt p => cobalt_hashmap_remove_ext p (strlen (str p))
  | HContains p => b <- hashmap_map_contains p (strlen (str p)) ;; mret (if b then 1 else 0)
  | HClear => hashmap_map_clear ;;; mret 0
  | HSize => cobalt_hashmap_size
  end.

Definition spec (o : hop) (w : hworld) (m : gmap (list Z) Z) (r : Z) (m' : gmap (list Z) Z) : Prop :=
  match o with
  | HPut p v => (r = 0 ∧ m' = <[str p := v]> m) ∨
                (r = -1 ∧ m' = m ∧ starved w (put_bytes w (strlen (str p) + 1)))
  | HPutExt p v => (r = 0 ∧ m' = <[str p := v]> m) ∨
                   (r = -1 ∧ m' = m ∧ starved w (put_bytes w 0))
  | HGet p | HGetExt p => r = default NULL (m !! str p) ∧ m' = m
  | HRemove p | HRemoveExt p =>
      r = (if decide (is_Some (m !! str p)) then 0 else -1) ∧ m' = delete (str p) m
  | HContains p => r = (if decide (is_Some (m !! str p)) then 1 else 0) ∧ m' = m
  | HClear => r = 0 ∧ m' = ∅
  | HSize => r = Z.of_nat (base.size m) ∧ m' = m
  end.

(** A key of the caller is a key in every world whose memory extends [U]. *)
Lemma key_facts w m p :
  srep U w m → is_key p →
  U !! p = Some (str p) ∧ heap w !! p = Some (str p) ∧
  key_ok U p (strlen (str p)) ∧ key_ok (heap w) p (strlen (str p)) ∧
  key_view U p (strlen (str p)) = str p ∧ key_view (heap w) p (strlen (str p)) = str p.
Proof.
  intros [impl Hw] (Hn & s & Hs & Hc). unfold str. rewrite Hs. simpl.
  assert (heap w !! p = Some s) as Hh.
  { eapply lookup_weaken; [exact Hs|]. apply (hm_entries _ _ _ _ Hw). }
  rewrite Hs, Hh. simpl. split_and!; try done; eauto.
Qed.

(** The map, with values that are not NULL. *)
Definition holds (w : hworld) (m : gmap (list Z) Z) : Prop := srep U w m ∧ map_Forall (λ _ v, v ≠ NULL) m.

Lemma spec_nonnull o w m r m' : op_ok o → spec o w m r m' → map_Forall (λ _ v, v ≠ NULL) m → map_Forall (λ _ v, v ≠ NULL) m'.
Proof.
  destruct o as [p v|p v|p|p|p|p|p| |]; simpl; try (intros _ [_ ->]; done).
  1-2: intros [_ Hv] [[_ ->]|(_ & -> & _)] Hm; [|done]; by apply map_Forall_insert_2.
  1-2: intros _ [_ ->] Hm; by apply map_Forall_delete.
Qed.

Lemma hashmap_op_refines : ∀ o w m, holds w m → op_ok o → wp (run o) (λ r w', ∃ m', spec o w m r m' ∧ srep U w' m') w.
Proof.
  intros o w m [Hrep Hnn] Hok. assert (match o with HClear | HSize => True | HPut p _ | HPutExt p _ | HGet p | HGetExt p
    | HRemove p | HRemoveExt p | HContains p => is_key p end) as Hkey by (destruct o; simpl in Hok; try apply Hok; done).
  destruct o as [p v|p v|p|p|p|p|p| |]; cbn [run] in *.
  1-7: destruct (key_facts w m p Hrep Hkey) as (HU & Hh & HkU & Hkh & HvU & Hvh).
  - eapply wp_mono; [eapply (wp_hput U w m p (str p) v); done|]. rewrite HvU. simpl. naive_solver.
  - eapply wp_mono; [eapply (wp_hput_ext U w m p _ v); done|]. rewrite HvU. simpl. naive_solver.
  - eapply wp_mono; [eapply (wp_hget U w m p (str p)); done|]. rewrite Hvh. simpl. naive_solver.
  - eapply wp_mono; [eapply (wp_hget_ext U w m p); done|]. rewrite Hvh. simpl. naive_solver.
  - eapply wp_mono; [eapply (wp_hremove U w m p (str p)); done|]. rewrite Hvh. simpl. naive_solver.
  - eapply wp_mono; [eapply (wp_hremove_ext U w m p); done|]. rewrite Hvh. simpl. naive_solver.
  - wp_step. unfold hashmap_map_contains. wp_step.
    eapply wp_mono; [eapply (wp_hget_ext U w m p); done|]. rewrite Hvh.
    intros r w' [-> ->]. wp_steps. exists m. split; [|done]. simpl. split; [|done].
    destruct (decide (is_Some (m !! str p))) as [[v Ev]|Hno].
    + rewrite Ev. simpl. by rewrite (proj2 (Z.eqb_neq _ _) (Hnn _ _ Ev)).
    + by rewrite (proj2 (eq_None_not_Some _) Hno).
  - wp_step. eapply wp_mono; [by eapply wp_hclear|]. intros [] w' Hr. wp_steps. by exists ∅.
  - eapply wp_mono; [by eapply wp_hsize|]. intros r w' [-> ->]. by exists m.
Qed.

Lemma hashmap_refines : refines run spec holds op_ok.
Proof.
  intros o w m Hh Hok. eapply wp_mono; [by apply hashmap_op_refines|]. intros r w' (m' & Hs & Hr).
  exists m'. split; [done|]. split; [done|]. eapply spec_nonnull; [done|done|apply Hh].
Qed.
End interface.

(** Requests the map can live with: every block it is given is below 128 GiB. *)
Definition start (U : mem) (b : Z) (orc : nat → Z → bool) : hworld :=
  World None U b orc 0 COBALT_SUCCESS.

(** C1: A hash map with string keys, from creation to destruction.  For any
    memory of the caller and any allocator whose granted blocks are below
    128 GiB: if the creation succeeds, every call of any sequence of puts and
    gets (copied or borrowed keys), removals, membership tests, clears and size
    queries terminates and returns what the same call on a finite map from
    strings to values returns; values are not NULL; a put fails only when memory
    is short and then changes nothing; and after destroying the map the strings
    in memory are those of the caller, so that every copied key has been freed
    once (the map's structure and its slots are not blocks of this memory). *)
Theorem hashmap_session U b orc n os :
  small_blocks orc → 1 ≤ b ≤ 2 ^ 64 → (∀ p s, U !! p = Some s → 1 ≤ p < b) →
  0 ≤ n ≤ 2 ^ 32 → Forall (op_ok U) os →
  wp (cobalt_hashmap_create n) (λ _ w,
    (obj w = None ∧ heap w = U ∧ last_error w = COBALT_ERROR_OUT_OF_MEMORY) ∨
    behaves (run U) (spec U) os w ∅ (λ w' _,
      wp cobalt_hashmap_destroy (λ _ w'', obj w'' = None ∧ heap w'' = U) w')) (start U b orc).
Proof.
  intros Hsm Hb HU Hn Hos. pose proof (wp_hcreate (K := list Z) (hf := None) (ef := None)
    U orc b n 0%nat COBALT_SUCCESS Hsm Hb HU Hn) as Hc.
  rewrite (wp_ext (cobalt_hashmap_create n)) in Hc by apply create_plain.
  eapply wp_mono; [exact Hc|]. intros _ w [Hrep|?]; [right|by left].
  eapply (refines_all _ _ _ _ (hashmap_refines U)); [split; [done|apply map_Forall_empty]|done|].
  intros w' m' [Hr _]. by eapply wp_hdestroy.
Qed.

(** The keys "a" and "b" and room for everything. *)
Definition two_keys : mem := {[1 := [97]; 2 := [98]]}.
Definition roomy : nat → Z → bool := λ _ n,
  match n with Zpos p => Nat.leb (Pos.size_nat p) 37 | _ => true end.

Lemma two_keys_bound p s : two_keys !! p = Some s → 1 ≤ p < 3.
Proof.
  unfold two_keys. rewrite lookup_insert_Some, lookup_singleton_Some. intros [[<- _]|[_ [<- _]]]; lia.
Qed.

Lemma two_keys_ok p : p = 1 ∨ p = 2 → is_key two_keys p.
Proof.
  intros [-> | ->]; (split; [done|]); [exists [97]|exists [98]];
    (split; [reflexivity|repeat constructor]).
Qed.

Lemma roomy_small : small_blocks roomy.
Proof.
  intros j [|p|p] Hn; [done| |done]. apply Nat.leb_le in Hn.
  eapply Z.lt_le_trans; [apply size_nat_bound|]. apply Z.pow_le_mono_r; lia.
Qed.

Lemma hashmap_session_witness :
  wp (cobalt_hashmap_create 2) (λ _ w,
    (obj w = None ∧ heap w = two_keys ∧ last_error w = COBALT_ERROR_OUT_OF_MEMORY) ∨
    behaves (run two_keys) (spec two_keys)
      [HPut 1 10; HPutExt 2 20; HGet 2; HContains 2; HRemove 1; HSize] w ∅ (λ w' _,
      wp cobalt_hashmap_destroy (λ _ w'', obj w'' = None ∧ heap w'' = two_keys) w'))
    (start two_keys 3 roomy).
Proof.
  apply hashmap_session; [apply roomy_small|lia|apply two_keys_bound|lia|].
  repeat (apply Forall_cons; split; [simpl; try (split; [|done]); try apply two_keys_ok; tauto|]). apply Forall_nil_2.
Defined.

(** Iterating over a hash map with string keys.  Draining a fresh iterator
    terminates, changes nothing and yields every key of the map with its value
    exactly once; it yields nothing only when the iterator could not be
    allocated. *)
Theorem hashmap_iterates U w m fuel :
  srep U w m → (base.size m < fuel)%nat →
  wp (it <- cobalt_hashmap_iterator_create ;; map_collect fuel it) (λ l w', srep U w' m ∧
    ((l = [] ∧ starved w sizeof_iter) ∨
     (λ kv : Z * Z, (default [] (heap w !! kv.1), kv.2)) <$> l ≡ₚ map_to_list m)) w.
Proof.
  intros Hrep Hf. destruct (id Hrep) as [impl Hw]. unfold cobalt_hashmap_iterator_create.
  pose proof (wp_iterate_all U w m fuel Hrep Hf) as Hit. unfold wp, mbind in Hit |- *. simpl.
  rewrite (hm_obj _ _ _ _ Hw). destruct (hashmap_map_iterator w) as [it w1|]; [|done].
  destruct (map_collect fuel it w1) as [l w2|]; [|done].
  destruct Hit as [Hr [?|(es & -> & Hp)]]; (split; [done|]); [by left|right].
  rewrite <- Hp. unfold kvs. by rewrite <- list_fmap_compose.
Qed.

(** A map with one entry, "a" to 10, borrowed from the caller. *)
Definition one_entry : hworld :=
  match (cobalt_hashmap_create 2 ;;; cobalt_hashmap_put_ext 1 1 10) (start two_keys 3 roomy) with
  | Ret _ w => w
  | Fault _ => start two_keys 3 roomy
  end.

Lemma one_entry_rep : srep two_keys one_entry {[ [97] := 10 ]}.
Proof.
  pose proof (wp_hcreate (K := list Z) (hf := None) (ef := None) two_keys roomy 3 2
    0%nat COBALT_SUCCESS roomy_small ltac:(lia) two_keys_bound ltac:(lia)) as Hc.
  apply wp_run in Hc as (u & w0 & E0 & Hc). vm_compute in E0. injection E0 as <- <-.
  destruct Hc as [Hrep|[[=] _]].
  assert (op_ok two_keys (HPutExt 1 10)) as Hok by (split; [apply two_keys_ok; by left|done]).
  pose proof (hashmap_op_refines two_keys _ _ _ (conj Hrep (map_Forall_empty _)) Hok) as Hp.
  apply wp_run in Hp as (r & w1 & E1 & m1 & Hs & Hrep1).
  vm_compute in E1. injection E1 as <- <-. destruct Hs as [[_ ->]|[[=] _]]. exact Hrep1.
Qed.

Lemma hashmap_iterates_witness :
  wp (it <- cobalt_hashmap_iterator_create ;; map_collect 2 it) (λ l w',
    srep two_keys w' {[ [97] := 10 ]} ∧
    ((l = [] ∧ starved one_entry sizeof_iter) ∨
     (λ kv : Z * Z, (default [] (heap one_entry !! kv.1), kv.2)) <$> l ≡ₚ
       map_to_list {[ [97] := 10 ]})) one_entry.
Proof. apply hashmap_iterates; [apply one_entry_rep|vm_compute; lia]. Defined.

(** [hashmap_next_pow2] rounds up to a power of two: for every argument up
    to [2^63] the result is the smallest power of two, at least 2, that is not
    below it. *)
Theorem next_pow2_least v :
  1 ≤ v ≤ 2 ^ 63 →
  v ≤ hashmap_next_pow2 v ∧
  (∃ k, 1 ≤ k ≤ 63 ∧ hashmap_next_pow2 v = 2 ^ k) ∧
  ∀ j, 1 ≤ j → v ≤ 2 ^ j → hashmap_next_pow2 v ≤ 2 ^ j.
Proof.
  intros Hv. destruct (next_pow2_spec v Hv) as (k & Hk & -> & Hle & Hor). split_and!; [done|eauto|].
  intros j Hj Hvj. apply Z.pow_le_mono_r; [lia|]. destruct Hor as [->|Hlt]; [lia|].
  assert (k - 1 < j); [|lia]. apply (Z.pow_lt_mono_r_iff 2); lia.
Qed.

Lemma next_pow2_least_witness :
  33 ≤ hashmap_next_pow2 33 ∧ (∃ k, 1 ≤ k ≤ 63 ∧ hashmap_next_pow2 33 = 2 ^ k) ∧
  ∀ j, 1 ≤ j → 33 ≤ 2 ^ j → hashmap_next_pow2 33 ≤ 2 ^ j.
Proof. apply next_pow2_least. lia. Defined.

(** The size of the slot array is computed in [size_t] without a check: a
    map created with [2^61] buckets asks for 0 bytes, and when the allocator
    grants that, the initialisation of the slots runs out of the block. *)
Theorem hashmap_create_wraps U b orc :
  orc 0%nat sizeof_hashmap = true → orc 1%nat 0 = true →
  cobalt_hashmap_create (2 ^ 61) (start U b orc) = Fault BadAccess.
Proof.
  intros H0 H1. unfold cobalt_hashmap_create, cobalt_hashmap_create_with_allocator.
  unfold mbind at 1, request. simpl. rewrite H0. unfold negb.
  change (0 <? 2 ^ 61) with true. cbv iota.
  change (hashmap_next_pow2 (2 ^ 61)) with (2 ^ 61). unfold alloc_slots, mbind, request.
  change (wrap64 (sizeof_slot * 2 ^ 61)) with 0. simpl. rewrite H1. done.
Qed.

Lemma hashmap_create_wraps_witness :
  cobalt_hashmap_create (2 ^ 61) (start ∅ 1 (λ _ _, true)) = Fault BadAccess.
Proof. apply hashmap_create_wraps; reflexivity. Defined.

(** A key stored with the value NULL is in the map (the size counts it and
    removing it succeeds), but [contains] reports it absent. *)
Theorem contains_misses_null :
  (cobalt_hashmap_create 2 ;;;
   r <- cobalt_hashmap_put_ext 1 1 NULL ;;
   n <- cobalt_hashmap_size ;;
   b <- hashmap_map_contains 1 1 ;;
   d <- cobalt_hashmap_remove_ext 1 1 ;;
   cobalt_hashmap_destroy ;;;
   mret (r, n, b, d)) (start two_keys 3 roomy) =
  Ret (0, 1, false, 0) (World None two_keys 3 roomy 2 COBALT_SUCCESS).
Proof. vm_compute. reflexivity. Qed.

End HashMapSpec.
