(* ===== verification/CobaltSet.v ===== *)
(** * The set of src/src/container/set.c: a wrapper of the hash map *)
From S2P Require Import Prelude World Array RobinHood Map HashMap HashMapProofs HashMapRefine HashMapSpec.

Module CobaltSet.
Import HashMap HashMapProofs.

Record cobalt_set := CSet { map : option hashmap_impl }.
Abbreviation setworld := (world cobalt_set (list Z)).
Definition sizeof_set : Z := 88.

(** The address of the static [set_sentinel]: any non-NULL address. *)
Definition set_sentinel : Z := 2 ^ 47.

(** [set->map] as the receiver of a hash map call. *)
Definition to_map (w : setworld) (s : cobalt_set) : hworld :=
  World (map s) (heap w) (brk w) (oracle w) (allocs w) (last_error w).
Definition of_map (w : hworld) : setworld :=
  World (Some (CSet (obj w))) (heap w) (brk w) (oracle w) (allocs w) (last_error w).

Definition on_map {A} (c : M hworld A) : M setworld A :=
  λ w, match obj w with
       | None => Fault NullDeref
       | Some s => match c (to_map w s) with
                   | Ret a w' => Ret a (of_map w')
                   | Fault f => Fault f
                   end
       end.

(** ** Method table *)

Definition set_map_get (key key_len : Z) : M setworld Z :=
  v <- on_map (cobalt_hashmap_get_ext key key_len) ;;
  mret (if v =? NULL then NULL else set_sentinel).

Definition set_map_put (key key_len value : Z) : M setworld Z :=
  ret <- on_map (cobalt_hashmap_put_ext key key_len set_sentinel) ;;
  mret (if ret =? 0 then 0 else -1).

Definition set_map_remove (key key_len : Z) : M setworld Z :=
  on_map (cobalt_hashmap_remove_ext key key_len).

Definition set_map_contains (key key_len : Z) : M setworld bool :=
  v <- on_map (cobalt_hashmap_get_ext key key_len) ;; mret (negb (v =? NULL)).

Definition set_map_clear : M setworld unit :=
  on_map cobalt_hashmap_destroy ;;;
  on_map (cobalt_hashmap_create_with_allocator 0 true) ;;;
  s <- deref ;;
  match map s with
  | None => cobalt_error_set None COBALT_ERROR_OUT_OF_MEMORY ;;; mret tt
  | Some _ => mret tt
  end.

Definition set_map_size : M setworld Z := on_map cobalt_hashmap_size.
Definition set_map_is_empty : M setworld bool :=
  n <- on_map cobalt_hashmap_size ;; mret (n =? 0).
Definition set_map_iterator : M setworld (option Z) := on_map cobalt_hashmap_iterator_create.

#[export] Instance set_map_vtable : MapTable cobalt_set (list Z) := {|
  m_get := Some set_map_get;
  m_put := Some set_map_put;
  m_remove := Some set_map_remove;
  m_contains := Some set_map_contains;
  m_clear := Some set_map_clear;
  m_size := Some set_map_size;
  m_is_empty := Some set_map_is_empty;
  m_iterator := Some set_map_iterator;
  mi_has_next c := on_map (hashmap_map_iter_has_next c);
  mi_next c := on_map (hashmap_map_iter_next c)
|}.

(** ** Public operations *)

(** [create_map] builds the backing map; on failure the set goes too. *)
Definition create_over (alloc : bool) (create_map : M hworld unit) : M setworld unit :=
  if negb alloc then set_obj None
  else
    ok <- request sizeof_set ;;
    if negb ok then cobalt_error_set None COBALT_ERROR_OUT_OF_MEMORY ;;; set_obj None
    else
      set_obj (Some (CSet None)) ;;;
      on_map create_map ;;;
      s <- deref ;;
      match map s with None => set_obj None | Some _ => mret tt end.

Definition cobalt_set_create_with_allocator (initial_capacity : Z) (alloc : bool)
    : M setworld unit :=
  create_over alloc (cobalt_hashmap_create_with_allocator initial_capacity alloc).

Definition cobalt_set_create (initial_capacity : Z) : M setworld unit :=
  cobalt_set_create_with_allocator initial_capacity true.

Definition cobalt_set_create_ext_with_allocator (initial_capacity : Z)
    (hf : option cobalt_hash_func) (ef : option cobalt_equal_func) (alloc : bool)
    : M setworld unit :=
  create_over alloc (cobalt_hashmap_create_ext initial_capacity hf ef).

Definition cobalt_set_create_ext (initial_capacity : Z)
    (hf : option cobalt_hash_func) (ef : option cobalt_equal_func) : M setworld unit :=
  cobalt_set_create_ext_with_allocator initial_capacity hf ef true.

Definition cobalt_set_destroy : M setworld unit :=
  o <- get_obj ;;
  match o with
  | None => mret tt
  | Some _ => on_map cobalt_hashmap_destroy ;;; set_obj None
  end.

(** A guarded call: [d] for a NULL set or a NULL item. *)
Definition guarded {A} (item : Z) (d : A) (c : M setworld A) : M setworld A :=
  o <- get_obj ;;
  match o with
  | None => mret d
  | Some _ => if item =? NULL then mret d else c
  end.

Definition cobalt_set_insert (item : Z) : M setworld Z :=
  guarded item (-1)
    (r <- on_map (cobalt_hashmap_put item item) ;; mret (if r =? 0 then 0 else -1)).

Definition cobalt_set_insert_ext (item item_len : Z) : M setworld Z :=
  guarded item (-1)
    (r <- on_map (cobalt_hashmap_put_ext item item_len item) ;; mret (if r =? 0 then 0 else -1)).

Definition cobalt_set_remove (item : Z) : M setworld Z :=
  guarded item (-1)
    (r <- on_map (cobalt_hashmap_remove item) ;; mret (if r =? 0 then 0 else -1)).

Definition cobalt_set_remove_ext (item item_len : Z) : M setworld Z :=
  guarded item (-1)
    (r <- on_map (cobalt_hashmap_remove_ext item item_len) ;; mret (if r =? 0 then 0 else -1)).

Definition cobalt_set_contains (item : Z) : M setworld bool :=
  guarded item false (v <- on_map (cobalt_hashmap_get item) ;; mret (negb (v =? NULL))).

Definition cobalt_set_contains_ext (item item_len : Z) : M setworld bool :=
  guarded item false
    (v <- on_map (cobalt_hashmap_get_ext item item_len) ;; mret (negb (v =? NULL))).

Definition cobalt_set_size : M setworld Z :=
  o <- get_obj ;;
  match o with None => mret 0 | Some _ => on_map cobalt_hashmap_size end.

Definition cobalt_set_is_empty : M setworld bool :=
  o <- get_obj ;;
  match o with
  | None => mret true
  | Some _ => n <- on_map cobalt_hashmap_size ;; mret (n =? 0)
  end.

Definition cobalt_set_get (item : Z) : M setworld Z :=
  guarded item NULL (on_map (cobalt_hashmap_get item)).

Definition cobalt_set_iterator_create : M setworld (option Z) :=
  o <- get_obj ;;
  match o with None => mret None | Some _ => on_map cobalt_hashmap_iterator_create end.

(** ** The represented set: no member maps to NULL *)

Section set.
Context {hf : option cobalt_hash_func} {ef : option cobalt_equal_func}
  {K : Type} `{Countable K} `{!KeyFuncs K} `{!KeyLaws hf ef K}.
Implicit Types (w : setworld) (X : gset K).

Definition set_rep (U : mem) w X : Prop :=
  ∃ s m, obj w = Some s ∧ HashMapProofs.rep (hf := hf) (ef := ef) U (to_map w s) m ∧
    dom m = X ∧ map_Forall (λ _ v, v ≠ NULL) m.

Lemma wp_on_map {A} (c : M hworld A) s Q w :
  obj w = Some s → wp c (λ a (v : hworld), Q a (of_map v)) (to_map w s) → wp (on_map c) Q w.
Proof. intros Ho. unfold wp, on_map. rewrite Ho. by destruct (c (to_map w s)). Qed.

Lemma set_rep_intro (U : mem) (w : hworld) (m : gmap K Z) :
  HashMapProofs.rep (hf := hf) (ef := ef) U w m → map_Forall (λ _ v, v ≠ NULL) m →
  set_rep U (of_map w) (dom m).
Proof.
  intros Hrep Hv. eexists _, m. split; [done|]. split; [|done]. by destruct w.
Qed.

Lemma wp_guarded {A} item (d : A) c Q w :
  is_Some (obj w) → item ≠ NULL → wp c Q w → wp (guarded item d c) Q w.
Proof.
  intros [s Hs] Hi Hc. unfold guarded. wp_steps. by rewrite Hs, (proj2 (Z.eqb_neq _ _) Hi).
Qed.

(** Membership of a key is a non-NULL value in the map. *)
Lemma member_value (m : gmap K Z) k :
  map_Forall (λ _ v, v ≠ NULL) m →
  negb (default NULL (m !! k) =? NULL) = bool_decide (k ∈ dom m).
Proof.
  intros Hv. destruct (m !! k) as [v|] eqn:E; simpl.
  - rewrite bool_decide_true by (by eapply elem_of_dom_2).
    by rewrite (proj2 (Z.eqb_neq _ _) (Hv _ _ E)).
  - rewrite bool_decide_false; [done|]. by apply not_elem_of_dom.
Qed.

Lemma user_key (U : mem) (w : hworld) (m : gmap K Z) p n :
  HashMapProofs.rep (hf := hf) (ef := ef) U w m → key_ok U p n →
  key_ok (heap w) p n ∧ key_view (heap w) p n = key_view U p n ∧ p ≠ NULL.
Proof.
  intros [impl Hw] Hp.
  destruct (kl_mono (hf := hf) (ef := ef) U (heap w) p n) as [? ?];
    [apply (hm_entries _ _ _ _ Hw)|done|].
  split_and!; [done..|]. by eapply (kl_null (hf := hf) (ef := ef)).
Qed.

(** What an insertion may ask for. *)
Definition insert_bytes w (n : Z) : Z :=
  match obj w with Some s => HashMapRefine.put_bytes (to_map w s) n | None => 0 end.

Lemma wp_set_insert_ext U w X p n :
  set_rep U w X → key_ok U p n →
  wp (cobalt_set_insert_ext p n) (λ r w',
    (r = 0 ∧ set_rep U w' ({[key_view U p n]} ∪ X)) ∨
    (r = -1 ∧ set_rep U w' X ∧ last_error w' = COBALT_ERROR_OUT_OF_MEMORY ∧
     starved w (insert_bytes w 0))) w.
Proof.
  intros (s & m & Ho & Hrep & <- & Hv) Hp. destruct (user_key _ _ _ _ _ Hrep Hp) as (_ & _ & Hn).
  apply wp_guarded; [by rewrite Ho|done|]. wp_step. eapply wp_on_map; [done|].
  eapply wp_mono; [by apply HashMapRefine.wp_hput_ext|].
  intros r w' [[-> Hrep']|(-> & Hrep' & Herr & Hst)]; wp_steps; simpl; [left|right].
  - split; [done|]. rewrite <- dom_insert_L with (x := p). apply set_rep_intro; [done|].
    by apply map_Forall_insert_2.
  - split_and!; [done|by apply set_rep_intro|done|]. unfold insert_bytes. by rewrite Ho.
Qed.

Lemma wp_set_insert `{!KeyCopy K} U w X p str :
  set_rep U w X → U !! p = Some str → key_ok U p (strlen str) →
  wp (cobalt_set_insert p) (λ r w',
    (r = 0 ∧ set_rep U w' ({[key_view U p (strlen str)]} ∪ X)) ∨
    (r = -1 ∧ set_rep U w' X ∧ last_error w' = COBALT_ERROR_OUT_OF_MEMORY ∧
     starved w (insert_bytes w (strlen str + 1)))) w.
Proof.
  intros (s & m & Ho & Hrep & <- & Hv) Hs Hp.
  destruct (user_key _ _ _ _ _ Hrep Hp) as (_ & _ & Hn).
  apply wp_guarded; [by rewrite Ho|done|]. wp_step. eapply wp_on_map; [done|].
  eapply wp_mono; [by apply HashMapRefine.wp_hput|].
  intros r w' [[-> Hrep']|(-> & Hrep' & Herr & Hst)]; wp_steps; simpl; [left|right].
  - split; [done|]. rewrite <- dom_insert_L with (x := p). apply set_rep_intro; [done|].
    by apply map_Forall_insert_2.
  - split_and!; [done|by apply set_rep_intro|done|]. unfold insert_bytes. by rewrite Ho.
Qed.

Lemma wp_set_remove_ext U w X p n :
  set_rep U w X → key_ok U p n →
  wp (cobalt_set_remove_ext p n) (λ r w',
    r = (if decide (key_view U p n ∈ X) then 0 else -1) ∧
    set_rep U w' (X ∖ {[key_view U p n]})) w.
Proof.
  intros (s & m & Ho & Hrep & <- & Hv) Hp.
  destruct (user_key _ _ _ _ _ Hrep Hp) as (Hp' & <- & Hn).
  apply wp_guarded; [by rewrite Ho|done|]. wp_step. eapply wp_on_map; [done|].
  eapply wp_mono; [by eapply HashMapRefine.wp_hremove_ext|]. intros r w' [-> Hrep']. wp_steps.
  split.
  - simpl. destruct (decide (is_Some _)) as [Hd|Hd];
      [rewrite decide_True|rewrite decide_False]; try done; by rewrite elem_of_dom.
  - rewrite <- dom_delete_L. apply set_rep_intro; [done|]. by apply map_Forall_delete.
Qed.

Lemma wp_set_remove U w X p str :
  set_rep U w X → U !! p = Some str → key_ok U p (strlen str) →
  wp (cobalt_set_remove p) (λ r w',
    r = (if decide (key_view U p (strlen str) ∈ X) then 0 else -1) ∧
    set_rep U w' (X ∖ {[key_view U p (strlen str)]})) w.
Proof.
  intros (s & m & Ho & Hrep & <- & Hv) Hs Hp.
  destruct (user_key _ _ _ _ _ Hrep Hp) as (Hp' & <- & Hn).
  apply wp_guarded; [by rewrite Ho|done|]. wp_step. eapply wp_on_map; [done|].
  eapply wp_mono; [eapply (HashMapRefine.wp_hremove U _ m p str); [done| |done]|].
  - destruct Hrep as [impl Hw]. eapply lookup_weaken; [done|]. apply (hm_entries _ _ _ _ Hw).
  - intros r w' (-> & Hrep' & _). wp_steps. split.
    + simpl. destruct (decide (is_Some _)) as [Hd|Hd];
        [rewrite decide_True|rewrite decide_False]; try done; by rewrite elem_of_dom.
    + rewrite <- dom_delete_L. apply set_rep_intro; [done|]. by apply map_Forall_delete.
Qed.

Lemma wp_set_contains_ext U w X p n :
  set_rep U w X → key_ok U p n →
  wp (cobalt_set_contains_ext p n) (λ r w',
    r = bool_decide (key_view U p n ∈ X) ∧ set_rep U w' X) w.
Proof.
  intros (s & m & Ho & Hrep & <- & Hv) Hp.
  destruct (user_key _ _ _ _ _ Hrep Hp) as (Hp' & <- & Hn).
  apply wp_guarded; [by rewrite Ho|done|]. wp_step. eapply wp_on_map; [done|].
  eapply wp_mono; [by eapply HashMapRefine.wp_hget_ext|]. intros r w' [-> ->]. wp_steps.
  split; [by apply member_value|by apply set_rep_intro].
Qed.

Lemma wp_set_contains U w X p str :
  set_rep U w X → U !! p = Some str → key_ok U p (strlen str) →
  wp (cobalt_set_contains p) (λ r w',
    r = bool_decide (key_view U p (strlen str) ∈ X) ∧ set_rep U w' X) w.
Proof.
  intros (s & m & Ho & Hrep & <- & Hv) Hs Hp.
  destruct (user_key _ _ _ _ _ Hrep Hp) as (Hp' & <- & Hn).
  apply wp_guarded; [by rewrite Ho|done|]. wp_step. eapply wp_on_map; [done|].
  eapply wp_mono; [eapply (HashMapRefine.wp_hget U _ m p str); [done| |done]|].
  - destruct Hrep as [impl Hw]. eapply lookup_weaken; [done|]. apply (hm_entries _ _ _ _ Hw).
  - intros r w' (-> & Hrep' & _). wp_steps. split; [by apply member_value|by apply set_rep_intro].
Qed.

Lemma wp_set_size U w X :
  set_rep U w X → wp cobalt_set_size (λ r w', r = Z.of_nat (base.size X) ∧ set_rep U w' X) w.
Proof.
  intros (s & m & Ho & Hrep & <- & Hv). unfold cobalt_set_size. wp_steps. rewrite Ho.
  eapply wp_on_map; [done|]. eapply wp_mono; [by eapply HashMapRefine.wp_hsize|].
  intros r w' [-> ->]. split; [by rewrite size_dom|by apply set_rep_intro].
Qed.

Lemma wp_set_is_empty U w X :
  set_rep U w X →
  wp cobalt_set_is_empty (λ r w', r = bool_decide (X = ∅) ∧ set_rep U w' X) w.
Proof.
  intros (s & m & Ho & Hrep & <- & Hv). unfold cobalt_set_is_empty. wp_steps. rewrite Ho. wp_step.
  eapply wp_on_map; [done|]. eapply wp_mono; [by eapply HashMapRefine.wp_hsize|].
  intros r w' [-> ->]. wp_steps. split; [|by apply set_rep_intro].
  case_bool_decide as He.
  - apply dom_empty_inv_L in He as ->. done.
  - apply Z.eqb_neq. intros Hz. apply He. apply dom_empty_iff_L, map_size_empty_inv. lia.
Qed.

Lemma wp_set_destroy U w X :
  set_rep U w X → wp cobalt_set_destroy (λ _ w', obj w' = None ∧ heap w' = U) w.
Proof.
  intros (s & m & Ho & Hrep & _). unfold cobalt_set_destroy. wp_step. wp_step. rewrite Ho.
  wp_step. eapply wp_on_map; [done|]. eapply wp_mono; [by eapply HashMapRefine.wp_hdestroy|].
  intros _ w' [_ Hh]. by wp_steps.
Qed.
End set.

Lemma wp_set_create {K : Type} `{Countable K} `{!KeyFuncs K} `{!KeyLaws None None K}
    (U : mem) orc b n :
  small_blocks orc → 1 ≤ b ≤ 2 ^ 64 → (∀ p c, U !! p = Some c → 1 ≤ p < b) → 0 ≤ n ≤ 2 ^ 32 →
  wp (cobalt_set_create n) (λ _ w',
      set_rep (hf := None) (ef := None) U w' (∅ : gset K) ∨
      (obj w' = None ∧ heap w' = U ∧ last_error w' = COBALT_ERROR_OUT_OF_MEMORY))
    (World None U b orc 0 COBALT_SUCCESS).
Proof.
  intros Hsm Hb HU Hn. unfold cobalt_set_create, cobalt_set_create_with_allocator, create_over.
  wp_step. apply wp_request; intros _; wp_simpl; [|wp_steps; by right].
  wp_steps. eapply wp_on_map; [done|].
  pose proof (HashMapRefine.wp_hcreate (K := K) (hf := None) (ef := None)
    U orc b n 1%nat COBALT_SUCCESS Hsm Hb HU Hn) as Hc.
  rewrite (wp_ext (cobalt_hashmap_create n)) in Hc by apply HashMapRefine.create_plain.
  eapply wp_mono; [exact Hc|]. intros _ w [Hrep|(Ho & Hh & He)]; wp_steps; simpl.
  - destruct (id Hrep) as [impl Hw]. rewrite (hm_obj _ _ _ _ Hw). wp_steps. left.
    rewrite <- (dom_empty_L (M := gmap K) (A := Z)). by apply set_rep_intro.
  - rewrite Ho. wp_steps. by right.
Qed.

(** Clearing a set of strings: the new map has the default callbacks, which
    are the ones a string set was created with. *)
Lemma wp_set_clear {K : Type} `{Countable K} `{!KeyFuncs K} `{!KeyLaws None None K} U w (X : gset K) :
  set_rep (hf := None) (ef := None) U w X →
  wp set_map_clear (λ _ w',
    set_rep (hf := None) (ef := None) U w' (∅ : gset K) ∨
    (obj w' = Some (CSet None) ∧ heap w' = U ∧
     last_error w' = COBALT_ERROR_OUT_OF_MEMORY)) w.
Proof.
  intros (s & m & Ho & Hrep & <- & Hv). unfold set_map_clear. wp_step.
  eapply wp_on_map; [done|]. pose proof Hrep as [impl [Himpl _ _ _ _ Hok Hsm]].
  eapply wp_mono; [by eapply HashMapRefine.wp_hdestroy_keeps|].
  intros _ w1 (_ & Hh & Hb & Hor). wp_step. eapply wp_on_map; [done|].
  unfold cobalt_hashmap_create_with_allocator. wp_step.
  apply wp_request; intros _; wp_simpl; cbn [Z.ltb Z.compare]; wp_steps; simpl; wp_steps; simpl.
  - left. rewrite <- (dom_empty_L (M := gmap K) (A := Z)).
    apply (set_rep_intro (hf := None) (ef := None) U (with_obj (with_request _) _)); [|done].
    eexists. split; try done; simpl.
    + rewrite Hh. split; try done; simpl; try set_solver; apply NoDup_nil_2.
    + destruct Hok as [Hb1 Hp]. split; simpl; [by rewrite Hb|]. rewrite Hh, Hb.
      intros p c Hc. eapply Hp. eapply lookup_weaken; [exact Hc|].
      destruct Hrep as [impl' Hw']. apply (hm_entries _ _ _ _ Hw').
    + by rewrite Hor.
  - right. split_and!; [done|exact Hh|done].
Qed.

End CobaltSet.

(** ** The set of strings as a finite set

    The call interface of src/src/container/set.c under the default callbacks,
    from creation to destruction, and the set whose callbacks are lost. *)
Module SetSpec.
Import HashMap HashMapProofs HashMapRefine HashMapSpec CobaltSet.

#[local] Existing Instance string_key_laws.
#[local] Existing Instance string_key_copy.

Abbreviation xrep := (set_rep (hf := None) (ef := None) (K := list Z)).

Inductive sop : Set :=
  | SInsert (p : Z) | SInsertExt (p : Z) | SRemove (p : Z) | SRemoveExt (p : Z)
  | SContains (p : Z) | SContainsExt (p : Z) | SSize | SIsEmpty.

Section interface.
Variable U : mem.

Definition op_ok (o : sop) : Prop :=
  match o with
  | SInsert p | SInsertExt p | SRemove p | SRemoveExt p | SContains p | SContainsExt p => is_key U p
  | SSize | SIsEmpty => True
  end.

Definition b2z (b : bool) : Z := if b then 1 else 0.

Definition run (o : sop) : M setworld Z :=
  match o with
  | SInsert p => cobalt_set_insert p
  | SInsertExt p => cobalt_set_insert_ext p (strlen (str U p))
  | SRemove p => cobalt_set_remove p
  | SRemoveExt p => cobalt_set_remove_ext p (strlen (str U p))
  | SContains p => b <- cobalt_set_contains p ;; mret (b2z b)
  | SContainsExt p => b <- cobalt_set_contains_ext p (strlen (str U p)) ;; mret (b2z b)
  | SSize => cobalt_set_size
  | SIsEmpty => b <- cobalt_set_is_empty ;; mret (b2z b)
  end.

Definition spec (o : sop) (w : setworld) (X : gset (list Z)) (r : Z) (X' : gset (list Z)) : Prop :=
  match o with
  | SInsert p => (r = 0 ∧ X' = {[str U p]} ∪ X) ∨
                 (r = -1 ∧ X' = X ∧ starved w (insert_bytes w (strlen (str U p) + 1)))
  | SInsertExt p => (r = 0 ∧ X' = {[str U p]} ∪ X) ∨
                    (r = -1 ∧ X' = X ∧ starved w (insert_bytes w 0))
  | SRemove p | SRemoveExt p =>
      r = (if decide (str U p ∈ X) then 0 else -1) ∧ X' = X ∖ {[str U p]}
  | SContains p | SContainsExt p => r = b2z (bool_decide (str U p ∈ X)) ∧ X' = X
  | SSize => r = Z.of_nat (base.size X) ∧ X' = X
  | SIsEmpty => r = b2z (bool_decide (X = ∅)) ∧ X' = X
  end.

Lemma str_key p : is_key U p →
  U !! p = Some (str U p) ∧ key_ok U p (strlen (str U p)) ∧
  key_view U p (strlen (str U p)) = str U p.
Proof.
  intros (Hn & s & Hs & Hc). unfold str. rewrite Hs. simpl. rewrite Hs. eauto 10.
Qed.

Lemma set_refines : refines run spec (xrep U) op_ok.
Proof.
  intros o w X Hrep Hok. destruct o as [p|p|p|p|p|p| |]; cbn [run op_ok] in *.
  1-6: destruct (str_key p Hok) as (HU & Hk & Hv).
  - eapply wp_mono; [by eapply (wp_set_insert U w X p)|]. rewrite Hv. simpl. naive_solver.
  - eapply wp_mono; [by eapply (wp_set_insert_ext U w X p)|]. rewrite Hv. simpl. naive_solver.
  - eapply wp_mono; [by eapply (wp_set_remove U w X p)|]. rewrite Hv. simpl. naive_solver.
  - eapply wp_mono; [by eapply (wp_set_remove_ext U w X p)|]. rewrite Hv. simpl. naive_solver.
  - wp_step. eapply wp_mono; [by eapply (wp_set_contains U w X p)|]. rewrite Hv.
    intros r w' [-> ?]. wp_steps. simpl. eauto.
  - wp_step. eapply wp_mono; [by eapply (wp_set_contains_ext U w X p)|]. rewrite Hv.
    intros r w' [-> ?]. wp_steps. simpl. eauto.
  - eapply wp_mono; [by eapply wp_set_size|]. simpl. naive_solver.
  - wp_step. eapply wp_mono; [by eapply wp_set_is_empty|]. intros r w' [-> ?]. wp_steps. simpl. eauto.
Qed.
End interface.

(** C31: A set of strings, from creation to destruction.  For any memory of the
    caller and any allocator whose granted blocks are below 128 GiB: if the
    creation succeeds, every call of any sequence of insertions (copied or
    borrowed items), removals, membership tests and size queries terminates and
    returns what the same call on a finite set of strings returns; an insertion
    fails only when memory is short; destroying the set leaves exactly the
    memory of the caller. *)
Theorem set_session U b orc n os :
  small_blocks orc → 1 ≤ b ≤ 2 ^ 64 → (∀ p s, U !! p = Some s → 1 ≤ p < b) →
  0 ≤ n ≤ 2 ^ 32 → Forall (op_ok U) os →
  wp (cobalt_set_create n) (λ _ w,
    (obj w = None ∧ heap w = U ∧ last_error w = COBALT_ERROR_OUT_OF_MEMORY) ∨
    behaves (run U) (spec U) os w ∅ (λ w' _,
      wp cobalt_set_destroy (λ _ w'', obj w'' = None ∧ heap w'' = U) w'))
    (World None U b orc 0 COBALT_SUCCESS).
Proof.
  intros Hsm Hb HU Hn Hos. eapply wp_mono; [by apply (wp_set_create (K := list Z))|].
  intros [] w [Hrep|?]; [right|by left].
  eapply (refines_all _ _ _ _ (set_refines U)); [done|done|]. intros w' X. apply wp_set_destroy.
Qed.

Lemma set_session_witness :
  wp (cobalt_set_create 2) (λ _ w,
    (obj w = None ∧ heap w = two_keys ∧ last_error w = COBALT_ERROR_OUT_OF_MEMORY) ∨
    behaves (run two_keys) (spec two_keys)
      [SInsert 1; SInsertExt 2; SContains 2; SRemove 1; SSize] w ∅ (λ w' _,
      wp cobalt_set_destroy (λ _ w'', obj w'' = None ∧ heap w'' = two_keys) w'))
    (World None two_keys 3 roomy 0 COBALT_SUCCESS).
Proof.
  apply set_session; [apply roomy_small|lia|apply two_keys_bound|lia|].
  repeat (apply Forall_cons; split; [simpl; try apply two_keys_ok; tauto|]). apply Forall_nil_2.
Defined.

(** Clearing a set forgets its callbacks.  In a set of pointers (custom hash
    and equality that never look behind the pointer), the address 5, which is
    no string, is inserted and found; after a clear through the map interface
    the same insertion reads a string at address 5. *)
Theorem set_clear_forgets_callbacks :
  result ((cobalt_set_create_ext 2 (Some ptr_hash) (Some ptr_equal) ;;;
           r <- cobalt_set_insert_ext 5 0 ;;
           b <- cobalt_set_contains_ext 5 0 ;;
           mret (r, b)) (World None ∅ 1 (λ _ _, true) 0 COBALT_SUCCESS)) = inl (0, true) ∧
  result ((cobalt_set_create_ext 2 (Some ptr_hash) (Some ptr_equal) ;;;
           cobalt_set_insert_ext 5 0 ;;;
           set_map_clear ;;;
           cobalt_set_insert_ext 5 0) (World None ∅ 1 (λ _ _, true) 0 COBALT_SUCCESS)) =
    inr BadAccess.
Proof. split; vm_compute; reflexivity. Qed.

End SetSpec.
