(* ===== verification/TreeMap.v ===== *)
(** * The tree map of src/src/container/treemap.c: a red-black tree

    Nodes carry parent links and live in the heap beside the key strings they
    point to (the bytes before the terminating NUL).  The two rotations, and
    the two halves of each fixup, are mirror images of one another: they are
    written once, for the side [d]. *)
From S2P Require Import Prelude World Array Map RobinHood HashMap.

Module TreeMap.

Inductive color : Set := RB_RED | RB_BLACK.
#[export] Instance color_eq_dec : EqDecision color.
Proof. solve_decision. Defined.

Record treemap_node := TNode {
  key : Z;
  value : Z;
  left : Z;
  right : Z;
  parent : Z;
  node_color : color;
  key_owned : bool
}.

(** A heap cell: a node or a string. *)
Inductive cell : Type := CNode (n : treemap_node) | CStr (s : list Z).

(** The comparator is a function of the strings its arguments point to. *)
Definition cobalt_compare_func : Type := list Z → list Z → Z.

Record treemap_impl := TImpl {
  root : Z;
  size : Z;
  compare_func : option cobalt_compare_func
}.

Abbreviation tworld := (world treemap_impl cell).
Definition sizeof_treemap : Z := 104.
Definition sizeof_node : Z := 48.

(** ** Fields *)

Inductive side : Set := L | R.
Definition flip (d : side) : side := match d with L => R | R => L end.
Definition child (d : side) (n : treemap_node) : Z := match d with L => left n | R => right n end.

Definition with_value (n : treemap_node) v :=
  TNode (key n) v (left n) (right n) (parent n) (node_color n) (key_owned n).
Definition with_child (d : side) (n : treemap_node) p :=
  match d with
  | L => TNode (key n) (value n) p (right n) (parent n) (node_color n) (key_owned n)
  | R => TNode (key n) (value n) (left n) p (parent n) (node_color n) (key_owned n)
  end.
Definition with_parent (n : treemap_node) p :=
  TNode (key n) (value n) (left n) (right n) p (node_color n) (key_owned n).
Definition with_color (n : treemap_node) c :=
  TNode (key n) (value n) (left n) (right n) (parent n) c (key_owned n).

Definition load_node (p : Z) : M tworld treemap_node :=
  c <- load p ;; match c with CNode n => mret n | CStr _ => mfail BadAccess end.
Definition load_str (p : Z) : M tworld (list Z) :=
  c <- load p ;; match c with CStr s => mret s | CNode _ => mfail BadAccess end.
Definition update (p : Z) (f : treemap_node → treemap_node) : M tworld unit :=
  n <- load_node p ;; store p (CNode (f n)).

Definition parent_of (p : Z) : M tworld Z := n <- load_node p ;; mret (parent n).
Definition child_of (d : side) (p : Z) : M tworld Z := n <- load_node p ;; mret (child d n).
Definition color_of (p : Z) : M tworld color := n <- load_node p ;; mret (node_color n).

Definition set_child (d : side) (p v : Z) : M tworld unit := update p (λ n, with_child d n v).
Definition set_parent (p v : Z) : M tworld unit := update p (λ n, with_parent n v).
Definition set_color (p : Z) (c : color) : M tworld unit := update p (λ n, with_color n c).
Definition set_value (p v : Z) : M tworld unit := update p (λ n, with_value n v).

Definition set_root (p : Z) : M tworld unit :=
  t <- deref ;; set_obj (Some (TImpl p (size t) (compare_func t))).
Definition set_size (n : Z) : M tworld unit :=
  t <- deref ;; set_obj (Some (TImpl (root t) n (compare_func t))).

(** [p && p->color == RB_RED], [!p || p->color == RB_BLACK] *)
Definition is_red (p : Z) : M tworld bool :=
  if p =? NULL then mret false else c <- color_of p ;; mret (bool_decide (c = RB_RED)).
Definition is_black (p : Z) : M tworld bool :=
  if p =? NULL then mret true else c <- color_of p ;; mret (bool_decide (c = RB_BLACK)).

(** Enough rounds for any walk along the nodes of the heap. *)
Definition tree_fuel : M tworld nat := h <- get_heap ;; mret (2 * base.size h + 2)%nat.

(** ** Nodes *)

Definition cobalt_strdup_with_alloc (str : Z) : M tworld Z :=
  s <- load_str str ;; alloc_node (Z.of_nat (length s) + 1) (CStr s).

Definition rb_node_create_ext (key value : Z) (owned : bool) : M tworld Z :=
  node <- alloc_node sizeof_node (CNode (TNode NULL value NULL NULL NULL RB_RED owned)) ;;
  if node =? NULL then cobalt_error_set None COBALT_ERROR_OUT_OF_MEMORY ;;; mret NULL
  else if owned then
    copy <- cobalt_strdup_with_alloc key ;;
    if copy =? NULL then
      cobalt_error_set None COBALT_ERROR_OUT_OF_MEMORY ;;; free_node node ;;; mret NULL
    else
      store node (CNode (TNode copy value NULL NULL NULL RB_RED owned)) ;;; mret node
  else
    store node (CNode (TNode key value NULL NULL NULL RB_RED owned)) ;;; mret node.

Definition rb_node_create (key value : Z) : M tworld Z := rb_node_create_ext key value true.

Definition rb_node_free (node : Z) : M tworld unit :=
  if node =? NULL then mret tt
  else
    n <- load_node node ;;
    (if negb (key n =? NULL) && key_owned n then free_node (key n) else mret tt) ;;;
    free_node node.

Fixpoint destroy_tree (fuel : nat) (node : Z) : M tworld unit :=
  match fuel with
  | O => mfail OutOfFuel
  | S fuel =>
      if node =? NULL then mret tt
      else
        l <- child_of L node ;; destroy_tree fuel l ;;;
        r <- child_of R node ;; destroy_tree fuel r ;;;
        rb_node_free node
  end.

Definition rb_destroy_tree (node : Z) : M tworld unit :=
  fuel <- tree_fuel ;; destroy_tree fuel node.

(** ** Rotations *)

(** [new] takes the place of the child [old] of [p], or of the root; the side
    [d] is tested first. *)
Definition replace_child (d : side) (p old new : Z) : M tworld unit :=
  if p =? NULL then set_root new
  else
    c <- child_of d p ;;
    if old =? c then set_child d p new else set_child (flip d) p new.

Definition rb_rotate (d : side) (x : Z) : M tworld unit :=
  y <- child_of (flip d) x ;;
  b <- child_of d y ;;
  set_child (flip d) x b ;;;
  (if b =? NULL then mret tt else set_parent b x) ;;;
  p <- parent_of x ;;
  set_parent y p ;;;
  replace_child d p x y ;;;
  set_child d y x ;;;
  set_parent x y.

Definition rb_rotate_left : Z → M tworld unit := rb_rotate L.
Definition rb_rotate_right : Z → M tworld unit := rb_rotate R.

(** ** Insertion *)

(** One round of the fixup, for a parent [p] that is the child [d] of [g]. *)
Definition insert_fixup_side (d : side) (z p g : Z) : M tworld Z :=
  uncle <- child_of (flip d) g ;;
  red <- is_red uncle ;;
  if red : bool then
    set_color p RB_BLACK ;;; set_color uncle RB_BLACK ;;; set_color g RB_RED ;;; mret g
  else
    inner <- child_of (flip d) p ;;
    z <- (if z =? inner then rb_rotate d p ;;; mret p else mret z) ;;
    p <- parent_of z ;;
    set_color p RB_BLACK ;;;
    g <- parent_of p ;;
    set_color g RB_RED ;;;
    rb_rotate (flip d) g ;;;
    mret z.

Definition rb_insert_fixup (z : Z) : M tworld unit :=
  fuel <- tree_fuel ;;
  loop fuel (λ z,
    p <- parent_of z ;;
    red <- is_red p ;;
    if negb red then mret (inr tt)
    else
      g <- parent_of p ;;
      l <- child_of L g ;;
      z' <- insert_fixup_side (if p =? l then L else R) z p g ;;
      mret (inl z')) z ;;;
  t <- deref ;; set_color (root t) RB_BLACK.

Definition rb_compare (a b : Z) : M tworld Z :=
  t <- deref ;;
  x <- load_str a ;; y <- load_str b ;;
  mret (match compare_func t with Some f => f x y | None => HashMap.strcmp x y end).

Definition key_of (p : Z) : M tworld Z := n <- load_node p ;; mret (key n).

(** The node [z] becomes a child of [y], or the root. *)
Definition link_leaf (z y : Z) : M tworld unit :=
  set_parent z y ;;;
  (if y =? NULL then set_root z
   else
     kz <- key_of z ;; ky <- key_of y ;;
     cmp <- rb_compare kz ky ;;
     if cmp <? 0 then set_child L y z else set_child R y z).

Definition rb_insert (z : Z) : M tworld unit :=
  t <- deref ;;
  fuel <- tree_fuel ;;
  r <- loop fuel (λ '(x, y),
    if x =? NULL then mret (inr (Some y))
    else
      kz <- key_of z ;; kx <- key_of x ;;
      cmp <- rb_compare kz kx ;;
      if cmp <? 0 then l <- child_of L x ;; mret (inl (l, x))
      else if 0 <? cmp then r <- child_of R x ;; mret (inl (r, x))
      else
        n <- load_node z ;; set_value x (value n) ;;; rb_node_free z ;;; mret (inr None))
    (root t, NULL) ;;
  match r with
  | None => mret tt
  | Some y =>
      link_leaf z y ;;;
      rb_insert_fixup z ;;;
      t <- deref ;; set_size (wrap64 (size t + 1))
  end.

(** ** Deletion *)

Definition rb_replace (old_node new_node : Z) : M tworld unit :=
  p <- parent_of old_node ;;
  replace_child L p old_node new_node ;;;
  if new_node =? NULL then mret tt else p <- parent_of old_node ;; set_parent new_node p.

(** One round of the fixup, for an [x] that is the child [d] of its parent:
    first the sibling is made black, ... *)
Definition fixup_red_sibling (d : side) (x : Z) : M tworld Z :=
  p <- parent_of x ;;
  sibling <- child_of (flip d) p ;;
  c <- color_of sibling ;;
  if bool_decide (c = RB_RED) then
    set_color sibling RB_BLACK ;;;
    set_color p RB_RED ;;;
    rb_rotate d p ;;;
    p <- parent_of x ;; child_of (flip d) p
  else mret sibling.

(** ... then, if its children are black, it gives up its colour and the round
    moves up; otherwise two rotations at most end the loop. *)
Definition fixup_inner_child (d : side) (x sibling near : Z) : M tworld Z :=
  (if near =? NULL then mret tt else set_color near RB_BLACK) ;;;
  set_color sibling RB_RED ;;;
  rb_rotate (flip d) sibling ;;;
  p <- parent_of x ;; child_of (flip d) p.

Definition fixup_outer_child (d : side) (x sibling : Z) : M tworld Z :=
  p <- parent_of x ;;
  pc <- color_of p ;;
  set_color sibling pc ;;;
  set_color p RB_BLACK ;;;
  far <- child_of (flip d) sibling ;;
  (if far =? NULL then mret tt else set_color far RB_BLACK) ;;;
  rb_rotate d p ;;;
  t <- deref ;; mret (root t).

Definition fixup_black_sibling (d : side) (x sibling : Z) : M tworld Z :=
  near <- child_of d sibling ;; far <- child_of (flip d) sibling ;;
  bn <- is_black near ;;
  bf <- is_black far ;;
  if bn && bf then set_color sibling RB_RED ;;; parent_of x
  else
    sibling <- (if bf : bool then fixup_inner_child d x sibling near else mret sibling) ;;
    fixup_outer_child d x sibling.

Definition delete_fixup_side (d : side) (x : Z) : M tworld Z :=
  sibling <- fixup_red_sibling d x ;; fixup_black_sibling d x sibling.

Definition rb_delete_fixup (x : Z) : M tworld unit :=
  fuel <- tree_fuel ;;
  x <- loop fuel (λ x,
    t <- deref ;;
    if (x =? NULL) || (x =? root t) then mret (inr x)
    else
      c <- color_of x ;;
      if bool_decide (c = RB_RED) then mret (inr x)
      else
        p <- parent_of x ;;
        l <- child_of L p ;;
        x' <- delete_fixup_side (if x =? l then L else R) x ;;
        mret (inl x')) x ;;
  if x =? NULL then mret tt else set_color x RB_BLACK.

(** The leftmost node of the subtree at [y]. *)
Definition leftmost (y : Z) : M tworld Z :=
  fuel <- tree_fuel ;;
  loop fuel (λ y, l <- child_of L y ;; if l =? NULL then mret (inr y) else mret (inl l)) y.

(** [y] takes the place, the left child and the colour of [z]. *)
Definition take_place (z y : Z) : M tworld unit :=
  rb_replace z y ;;;
  l <- child_of L z ;;
  set_child L y l ;;;
  (if l =? NULL then mret tt else set_parent l y) ;;;
  cz <- color_of z ;;
  set_color y cz.

(** A node [z] with two children: its successor [y] takes its place.  The
    result is the colour that left the tree and the child that moved up. *)
Definition splice_successor (z : Z) : M tworld (color * Z) :=
  r <- child_of R z ;;
  y <- leftmost r ;;
  c <- color_of y ;;
  x <- child_of R y ;;
  p <- parent_of y ;;
  (if negb (p =? z) then
     rb_replace y x ;;;
     r <- child_of R z ;;
     set_child R y r ;;;
     (if r =? NULL then mret tt else set_parent r y)
   else mret tt) ;;;
  take_place z y ;;;
  mret (c, x).

(** [z] leaves the tree; the result as above. *)
Definition rb_unlink (z : Z) : M tworld (color * Z) :=
  c <- color_of z ;;
  l <- child_of L z ;; r <- child_of R z ;;
  (if l =? NULL then rb_replace z r ;;; mret (c, r)
   else if r =? NULL then rb_replace z l ;;; mret (c, l)
   else splice_successor z).

Definition rb_delete (z : Z) : M tworld unit :=
  cx <- rb_unlink z ;;
  rb_node_free z ;;;
  t <- deref ;; set_size (wrap64 (size t - 1)) ;;;
  if bool_decide (cx.1 = RB_BLACK) then rb_delete_fixup cx.2 else mret tt.

(** ** Search *)

Definition rb_find (node k : Z) : M tworld Z :=
  fuel <- tree_fuel ;;
  loop fuel (λ node,
    if node =? NULL then mret (inr NULL)
    else
      kn <- key_of node ;;
      cmp <- rb_compare k kn ;;
      if cmp <? 0 then l <- child_of L node ;; mret (inl l)
      else if 0 <? cmp then r <- child_of R node ;; mret (inl r)
      else mret (inr node)) node.

Definition rb_find_end (d : side) (node : Z) : M tworld Z :=
  fuel <- tree_fuel ;;
  loop fuel (λ node,
    if node =? NULL then mret (inr node)
    else c <- child_of d node ;; if c =? NULL then mret (inr node) else mret (inl c)) node.

Definition rb_find_min : Z → M tworld Z := rb_find_end L.
Definition rb_find_max : Z → M tworld Z := rb_find_end R.

(** ** Calls *)

Definition cobalt_treemap_create_with_allocator (alloc : bool) : M tworld unit :=
  if negb alloc then set_obj None
  else
    ok <- request sizeof_treemap ;;
    if negb ok then
      cobalt_error_set None COBALT_ERROR_OUT_OF_MEMORY ;;; set_obj None
    else set_obj (Some (TImpl NULL 0 None)).

Definition cobalt_treemap_create : M tworld unit := cobalt_treemap_create_with_allocator true.

Definition cobalt_treemap_create_ext (cf : option cobalt_compare_func) : M tworld unit :=
  cobalt_treemap_create ;;;
  o <- get_obj ;;
  match o with
  | None => mret tt
  | Some t => set_obj (Some (TImpl (root t) (size t) cf))
  end.

Definition cobalt_treemap_destroy : M tworld unit :=
  o <- get_obj ;;
  match o with
  | None => mret tt
  | Some t =>
      (if root t =? NULL then mret tt else rb_destroy_tree (root t)) ;;; set_obj None
  end.

Definition cobalt_treemap_put (k v : Z) : M tworld Z :=
  o <- get_obj ;;
  match o with
  | None => mret (-1)
  | Some t =>
      if k =? NULL then mret (-1)
      else
        existing <- rb_find (root t) k ;;
        if negb (existing =? NULL) then set_value existing v ;;; mret 0
        else
          node <- rb_node_create k v ;;
          if node =? NULL then mret (-1) else rb_insert node ;;; mret 0
  end.

Definition cobalt_treemap_get (k : Z) : M tworld Z :=
  o <- get_obj ;;
  match o with
  | None => mret NULL
  | Some t =>
      if k =? NULL then mret NULL
      else
        node <- rb_find (root t) k ;;
        if node =? NULL then mret NULL else n <- load_node node ;; mret (value n)
  end.

Definition cobalt_treemap_remove (k : Z) : M tworld Z :=
  o <- get_obj ;;
  match o with
  | None => mret (-1)
  | Some t =>
      if k =? NULL then mret (-1)
      else
        node <- rb_find (root t) k ;;
        if node =? NULL then mret (-1) else rb_delete node ;;; mret 0
  end.

Definition end_key (d : side) : M tworld Z :=
  o <- get_obj ;;
  match o with
  | None => mret NULL
  | Some t =>
      if root t =? NULL then mret NULL
      else
        node <- rb_find_end d (root t) ;;
        if node =? NULL then mret NULL else key_of node
  end.
Definition cobalt_treemap_min_key : M tworld Z := end_key L.
Definition cobalt_treemap_max_key : M tworld Z := end_key R.

Definition cobalt_treemap_size : M tworld Z :=
  o <- get_obj ;; mret (match o with Some t => size t | None => 0 end).

(** ** The map methods *)

Definition treemap_map_get (k key_len : Z) : M tworld Z := cobalt_treemap_get k.
Definition treemap_map_put (k key_len v : Z) : M tworld Z := cobalt_treemap_put k v.
Definition treemap_map_remove (k key_len : Z) : M tworld Z := cobalt_treemap_remove k.
Definition treemap_map_size : M tworld Z := cobalt_treemap_size.
Definition treemap_map_is_empty : M tworld bool :=
  n <- cobalt_treemap_size ;; mret (n =? 0).
Definition treemap_map_contains (k key_len : Z) : M tworld bool :=
  t <- deref ;; node <- rb_find (root t) k ;; mret (negb (node =? NULL)).
Definition treemap_map_clear : M tworld unit :=
  t <- deref ;;
  (if root t =? NULL then mret tt else rb_destroy_tree (root t) ;;; set_root NULL) ;;;
  set_size 0.

(** ** The iterator

    The stack of ancestors is the list [stack], its end the top; [stack_cap] is
    the number of entries of the block behind it. *)

Record treemap_map_iter := TIter {
  stack : list Z;
  stack_cap : Z;
  finished : bool
}.
Definition sizeof_map_iter : Z := 48.
Definition sizeof_map_iterator : Z := 24.
Definition max_stack : Z := SIZE_MAX `div` sizeof_ptr.

Definition stack_push (iter : treemap_map_iter) (node : Z) : M tworld treemap_map_iter :=
  if Z.of_nat (length (stack iter)) =? stack_cap iter then
    let new_cap := if stack_cap iter =? 0 then 16
                   else if max_stack / 2 <? stack_cap iter then max_stack
                   else stack_cap iter * 2 in
    ok <- request (wrap64 (new_cap * sizeof_ptr)) ;;
    if negb ok then mret (TIter (stack iter) (stack_cap iter) true)
    else if new_cap <=? Z.of_nat (length (stack iter)) then mfail BadAccess
    else mret (TIter (stack iter ++ [node]) new_cap (finished iter))
  else mret (TIter (stack iter ++ [node]) (stack_cap iter) (finished iter)).

(** Push [cur] and its chain of left children. *)
Definition push_left (iter : treemap_map_iter) (cur : Z) : M tworld treemap_map_iter :=
  fuel <- tree_fuel ;;
  loop fuel (λ '(iter, cur),
    if cur =? NULL then mret (inr iter)
    else
      iter <- stack_push iter cur ;; l <- child_of L cur ;; mret (inl (iter, l))) (iter, cur).

Definition treemap_map_iter_has_next (iter : treemap_map_iter) : bool := negb (finished iter).

Definition treemap_map_iter_next (iter : treemap_map_iter)
    : M tworld ((Z * Z) * treemap_map_iter) :=
  if finished iter then mret ((NULL, NULL), iter)
  else
    t <- deref ;;
    iter <- (match stack iter with [] => push_left iter (root t) | _ => mret iter end) ;;
    match last (stack iter) with
    | None => mret ((NULL, NULL), TIter [] (stack_cap iter) true)
    | Some node =>
        let rest := take (length (stack iter) - 1) (stack iter) in
        let iter := TIter rest (stack_cap iter) (finished iter) in
        n <- load_node node ;;
        iter <- (if negb (right n =? NULL) then push_left iter (right n)
                 else match rest with
                      | [] => mret (TIter rest (stack_cap iter) true)
                      | _ => mret iter
                      end) ;;
        mret ((key n, value n), iter)
    end.

Definition treemap_map_iterator : M tworld (option treemap_map_iter) :=
  ok <- request sizeof_map_iter ;;
  if negb ok then mret None
  else
    ok <- request sizeof_map_iterator ;;
    if negb ok then mret None else mret (Some (TIter [] 0 false)).

Definition cobalt_treemap_iterator_create : M tworld (option treemap_map_iter) :=
  o <- get_obj ;; match o with None => mret None | Some _ => treemap_map_iterator end.
End TreeMap.
