(* ===== verification/RBTree.v ===== *)
(** * Red-black trees and their contexts

    The shape behind the nodes of src/src/container/treemap.c: a tree with an
    entry at every node, and the path from a subtree to the root as a list of
    frames, innermost first.  A frame records on which side the hole is. *)
From S2P Require Import Prelude World TreeMap.

Module RBTree.
Import TreeMap.

(** A node of the heap: its address, the address of its key, the key string,
    the value and whether the tree owns the key. *)
Record entry := Entry { addr : Z; kptr : Z; kstr : list Z; val : Z; owned : bool }.

Inductive tree : Type := E | T (c : color) (l : tree) (e : entry) (r : tree).

(** The tree with [a] on side [d] of the entry and [b] on the other. *)
Definition mk (d : side) (c : color) (a : tree) (e : entry) (b : tree) : tree :=
  match d with L => T c a e b | R => T c b e a end.

Record frame := Fr { hole : side; fc : color; fe : entry; sib : tree }.
Abbreviation ctx := (list frame).

Definition close (t : tree) (f : frame) : tree := mk (hole f) (fc f) t (fe f) (sib f).
Definition plug (k : ctx) (t : tree) : tree := foldl close t k.

Definition ptr (t : tree) : Z := match t with E => NULL | T _ _ e _ => addr e end.
Definition tcolor (t : tree) : color := match t with E => RB_BLACK | T c _ _ _ => c end.
Definition paint (c : color) (t : tree) : tree :=
  match t with E => E | T _ l e r => T c l e r end.

Fixpoint entries (t : tree) : list entry :=
  match t with E => [] | T _ l e r => entries l ++ e :: entries r end.
Fixpoint card (t : tree) : nat :=
  match t with E => 0 | T _ l _ r => S (card l + card r) end.
Fixpoint height (t : tree) : nat :=
  match t with E => 0 | T _ l _ r => S (height l `max` height r) end.

(** ** No red node has a red child *)
Fixpoint nrr (t : tree) : Prop :=
  match t with
  | E => True
  | T c l _ r => (c = RB_RED → tcolor l = RB_BLACK ∧ tcolor r = RB_BLACK) ∧ nrr l ∧ nrr r
  end.

(** ** Every path to a leaf has [n] black nodes *)
Fixpoint bh (n : nat) (t : tree) : Prop :=
  match t with
  | E => n = 0%nat
  | T RB_RED l _ r => bh n l ∧ bh n r
  | T RB_BLACK l _ r => match n with O => False | S n => bh n l ∧ bh n r end
  end.

Arguments bh n !t : simpl nomatch.

Definition rb (t : tree) : Prop := nrr t ∧ tcolor t = RB_BLACK ∧ ∃ n, bh n t.

(** ** The invariants through a context *)
Definition fok (f : frame) (c : color) : Prop :=
  fc f = RB_RED → c = RB_BLACK ∧ tcolor (sib f) = RB_BLACK.

(** [nrr] for a context whose hole holds a tree of colour [c]. *)
Fixpoint nrr_ctx (k : ctx) (c : color) : Prop :=
  match k with
  | [] => True
  | f :: k => fok f c ∧ nrr (sib f) ∧ nrr_ctx k (fc f)
  end.

Definition blacks (c : color) (n : nat) : nat := match c with RB_BLACK => S n | RB_RED => n end.

(** The context closes every tree of black height [n] to one of height [m]. *)
Fixpoint bh_ctx (k : ctx) (n m : nat) : Prop :=
  match k with
  | [] => n = m
  | f :: k => bh n (sib f) ∧ bh_ctx k (blacks (fc f) n) m
  end.

Section facts.
Implicit Types (t a b : tree) (k : ctx) (e : entry) (d : side).

Lemma nrr_mk d c a e b :
  nrr (mk d c a e b) ↔
    (c = RB_RED → tcolor a = RB_BLACK ∧ tcolor b = RB_BLACK) ∧ nrr a ∧ nrr b.
Proof. destruct d; simpl; tauto. Qed.

Lemma bh_mk d c a e b n :
  bh (blacks c n) (mk d c a e b) ↔ bh n a ∧ bh n b.
Proof. destruct d, c; simpl; tauto. Qed.

Lemma bh_blacks c l e r n : bh n (T c l e r) → ∃ m, n = blacks c m ∧ bh m l ∧ bh m r.
Proof. destruct c; simpl; [by eexists|]. destruct n; [done|]. by eexists. Qed.

Lemma tcolor_mk d c a e b : tcolor (mk d c a e b) = c.
Proof. by destruct d. Qed.

Lemma ptr_mk d c a e b : ptr (mk d c a e b) = addr e.
Proof. by destruct d. Qed.

Lemma nrr_plug k t : nrr t → nrr_ctx k (tcolor t) → nrr (plug k t).
Proof.
  revert t. induction k as [|f k IH]; intros t Ht; simpl; [done|].
  intros (Hf & Hs & Hk). apply IH; unfold close; [by apply nrr_mk|by rewrite tcolor_mk].
Qed.

Lemma nrr_unplug k t : nrr (plug k t) → nrr t ∧ nrr_ctx k (tcolor t).
Proof.
  revert t. induction k as [|f k IH]; intros t; simpl; [done|].
  intros [Hc Hk]%IH. unfold close in *. rewrite nrr_mk, tcolor_mk in *. tauto.
Qed.

Lemma nrr_ctx_black k c : nrr_ctx k c → nrr_ctx k RB_BLACK.
Proof. destruct k as [|f k]; simpl; [done|]. intros (Hf & ? & ?). unfold fok in *. tauto. Qed.

Lemma bh_plug k t n m : bh n t → bh_ctx k n m → bh m (plug k t).
Proof.
  revert t n. induction k as [|f k IH]; intros t n Ht; simpl; [by intros <-|].
  intros [Hs Hk]. eapply IH; [|exact Hk]. by apply bh_mk.
Qed.

Lemma bh_unplug k t m : bh m (plug k t) → ∃ n, bh n t ∧ bh_ctx k n m.
Proof.
  revert t. induction k as [|f k IH]; intros t; simpl; [by eexists|].
  intros (n & Hn & Hk)%IH. unfold close, mk in Hn.
  destruct (hole f); apply bh_blacks in Hn as (n' & -> & ? & ?); by exists n'.
Qed.

Lemma tcolor_plug k t : k ≠ [] → tcolor (plug k t) = fc (List.last k (Fr L RB_BLACK (Entry 0 0 [] 0 true) E)).
Proof.
  revert t. induction k as [|f k IH]; intros t Hk; [done|]. simpl.
  destruct k as [|g k]; [simpl; unfold close; by rewrite tcolor_mk|]. by apply IH.
Qed.

(** The entries of a tree around a hole. *)
Fixpoint before (k : ctx) : list entry :=
  match k with
  | [] => []
  | f :: k => before k ++ match hole f with L => [] | R => entries (sib f) ++ [fe f] end
  end.
Fixpoint after (k : ctx) : list entry :=
  match k with
  | [] => []
  | f :: k => match hole f with L => fe f :: entries (sib f) | R => [] end ++ after k
  end.

Lemma entries_plug k t : entries (plug k t) = before k ++ entries t ++ after k.
Proof.
  revert t. induction k as [|f k IH]; intros t; simpl; [by rewrite app_nil_r|].
  rewrite IH. unfold close, mk. destruct (hole f); simpl; by rewrite <- ?app_assoc.
Qed.

Lemma plug_app k1 k2 t : plug (k1 ++ k2) t = plug k2 (plug k1 t).
Proof. apply foldl_app. Qed.

Lemma card_entries t : card t = length (entries t).
Proof. induction t as [|c l IHl e r IHr]; simpl; [done|]. rewrite length_app. simpl. lia. Qed.

Lemma length_ctx k : (length k ≤ length (before k) + length (after k))%nat.
Proof.
  induction k as [|f k IH]; simpl; [lia|]. rewrite !length_app.
  destruct (hole f); simpl; rewrite ?length_app; simpl; lia.
Qed.

Lemma nrr_paint c t : nrr t → (c = RB_BLACK ∨ tcolor t = RB_RED) → nrr (paint c t).
Proof.
  destruct t as [|c' l e r]; simpl; [done|]. intros (Hc & ? & ?) Hor. split; [|done].
  intros ->. destruct Hor as [|]; [done|auto].
Qed.

(** ** Height *)

Lemma height_card t : (height t ≤ card t)%nat.
Proof. induction t; simpl; lia. Qed.

Lemma height_bh t n : nrr t → bh n t →
  (height t ≤ 2 * n + match tcolor t with RB_RED => 1 | RB_BLACK => 0 end)%nat.
Proof.
  revert n. induction t as [|c l IHl e r IHr]; intros n; simpl; [lia|].
  intros (Hc & Hl & Hr) (m & -> & Hbl & Hbr)%bh_blacks.
  specialize (IHl _ Hl Hbl). specialize (IHr _ Hr Hbr). destruct c; simpl in *.
  - destruct Hc as [Hcl Hcr]; [done|]. rewrite Hcl in IHl. rewrite Hcr in IHr. lia.
  - destruct (tcolor l), (tcolor r); lia.
Qed.

Lemma card_bh t n : bh n t → (2 ^ n ≤ S (card t))%nat.
Proof.
  revert n. induction t as [|c l IHl e r IHr]; intros n; simpl; [by intros ->|].
  intros (m & -> & Hl & Hr)%bh_blacks. specialize (IHl _ Hl). specialize (IHr _ Hr).
  destruct c; simpl; lia.
Qed.

Lemma rb_height t : rb t → (2 ^ (height t `div` 2) ≤ S (card t))%nat.
Proof.
  intros (Hn & Hb & n & Hbh). pose proof (height_bh _ _ Hn Hbh) as Hh. rewrite Hb in Hh.
  pose proof (card_bh _ _ Hbh).
  assert (height t `div` 2 ≤ n)%nat by (apply Nat.Div0.div_le_upper_bound; lia).
  pose proof (Nat.pow_le_mono_r 2 (height t `div` 2) n). lia.
Qed.
End facts.
End RBTree.
