(* ===== verification/TreeHeap.v ===== *)
(** * A red-black tree in the heap

    [zrep F k t w]: the nodes of the tree [plug k t] are in the heap of [w],
    linked as the context [k] and the focused subtree [t] say; everything else
    in the heap is [F].  Moving the focus changes nothing; rotations, colour
    changes and replacements of the focused subtree are verified once, for any
    context. *)
From S2P Require Import Prelude World TreeMap RBTree.

Module TreeHeap.
Import TreeMap RBTree.

(** A node with child [a] on side [d] and [b] on the other. *)
Definition nd (d : side) (e : entry) (a b par : Z) (c : color) : treemap_node :=
  match d with
  | L => TNode (kptr e) (val e) a b par c (owned e)
  | R => TNode (kptr e) (val e) b a par c (owned e)
  end.

Definition addrs (t : tree) : list Z := addr <$> entries t.
Definition caddrs (k : ctx) : list Z := addr <$> (before k ++ after k).
Definition cpar (k : ctx) : Z := match k with [] => NULL | f :: _ => addr (fe f) end.
Fixpoint croot (k : ctx) (p : Z) : Z :=
  match k with [] => p | f :: k => croot k (addr (fe f)) end.

Fixpoint tree_at (h : gmap Z cell) (par : Z) (t : tree) : Prop :=
  match t with
  | E => True
  | T c l e r =>
      h !! addr e = Some (CNode (nd L e (ptr l) (ptr r) par c)) ∧
      tree_at h (addr e) l ∧ tree_at h (addr e) r
  end.

Definition top_at (h : gmap Z cell) (k : ctx) (p : Z) : Prop :=
  match k with
  | [] => True
  | f :: k => h !! addr (fe f) = Some (CNode (nd (hole f) (fe f) p (ptr (sib f)) (cpar k) (fc f)))
  end.

Fixpoint ctx_at (h : gmap Z cell) (k : ctx) (p : Z) : Prop :=
  match k with
  | [] => True
  | f :: k' => top_at h k p ∧ tree_at h (addr (fe f)) (sib f) ∧ ctx_at h k' (addr (fe f))
  end.

(** The parent link of the root of [t] becomes [par]. *)
Definition reparent (t : tree) (par : Z) (h : gmap Z cell) : gmap Z cell :=
  match t with
  | E => h
  | T c l e r => <[addr e := CNode (nd L e (ptr l) (ptr r) par c)]> h
  end.

(** The pointer in the hole of [k] becomes [p]. *)
Definition fill (k : ctx) (p : Z) (h : gmap Z cell) : gmap Z cell :=
  match k with
  | [] => h
  | f :: k' =>
      <[addr (fe f) := CNode (nd (hole f) (fe f) p (ptr (sib f)) (cpar k') (fc f))]> h
  end.

Record zheap (F h : gmap Z cell) (k : ctx) (t : tree) : Prop := {
  zh_ctx : ctx_at h k (ptr t);
  zh_tree : tree_at h (cpar k) t;
  zh_nodup : NoDup (caddrs k ++ addrs t);
  zh_own q : q ∈ caddrs k ++ addrs t → q ≠ NULL ∧ F !! q = None;
  zh_frame q : q ∉ caddrs k ++ addrs t → h !! q = F !! q
}.

Section facts.
Implicit Types (t a b : tree) (k : ctx) (e : entry) (d : side) (h F : gmap Z cell).

Lemma flip_flip d : flip (flip d) = d.
Proof. by destruct d. Qed.

Lemma mk_flip d c a e b : mk (flip d) c a e b = mk d c b e a.
Proof. by destruct d. Qed.

Lemma nd_flip d e p q par c : nd (flip d) e p q par c = nd d e q p par c.
Proof. by destruct d. Qed.

Lemma child_nd d e p q par c : child d (nd d e p q par c) = p.
Proof. by destruct d. Qed.
Lemma child_flip_nd d e p q par c : child (flip d) (nd d e p q par c) = q.
Proof. by destruct d. Qed.
Lemma parent_nd d e p q par c : parent (nd d e p q par c) = par.
Proof. by destruct d. Qed.
Lemma color_nd d e p q par c : node_color (nd d e p q par c) = c.
Proof. by destruct d. Qed.
Lemma key_nd d e p q par c : key (nd d e p q par c) = kptr e.
Proof. by destruct d. Qed.
Lemma value_nd d e p q par c : value (nd d e p q par c) = val e.
Proof. by destruct d. Qed.
Lemma with_child_nd d e p q par c v : with_child d (nd d e p q par c) v = nd d e v q par c.
Proof. by destruct d. Qed.
Lemma with_child_flip_nd d e p q par c v :
  with_child (flip d) (nd d e p q par c) v = nd d e p v par c.
Proof. by destruct d. Qed.
Lemma with_parent_nd d e p q par c v : with_parent (nd d e p q par c) v = nd d e p q v c.
Proof. by destruct d. Qed.
Lemma with_color_nd d e p q par c v : with_color (nd d e p q par c) v = nd d e p q par v.
Proof. by destruct d. Qed.

Lemma tree_at_mk h par d c a e b :
  tree_at h par (mk d c a e b) ↔
    h !! addr e = Some (CNode (nd d e (ptr a) (ptr b) par c)) ∧
    tree_at h (addr e) a ∧ tree_at h (addr e) b.
Proof. destruct d; simpl; tauto. Qed.

Lemma addrs_mk d c a e b : addrs (mk d c a e b) ≡ₚ addr e :: addrs a ++ addrs b.
Proof.
  unfold addrs. destruct d; simpl; rewrite fmap_app, fmap_cons; [solve_Permutation|].
  solve_Permutation.
Qed.

Lemma addrs_plug k t : addrs (plug k t) ≡ₚ caddrs k ++ addrs t.
Proof.
  unfold addrs, caddrs. rewrite entries_plug, !fmap_app. solve_Permutation.
Qed.

Lemma caddrs_cons f k : caddrs (f :: k) ≡ₚ addr (fe f) :: addrs (sib f) ++ caddrs k.
Proof.
  unfold caddrs, addrs. simpl. destruct (hole f); simpl;
    rewrite ?fmap_app, ?fmap_cons, ?fmap_app, ?fmap_cons; solve_Permutation.
Qed.

Lemma tree_at_ext h h' par t :
  (∀ q, q ∈ addrs t → h' !! q = h !! q) → tree_at h par t → tree_at h' par t.
Proof.
  revert par. induction t as [|c l IHl e r IHr]; intros par Hext; simpl; [done|].
  pose proof (addrs_mk L c l e r) as Hp. simpl in Hp. setoid_rewrite Hp in Hext.
  intros (He & Hl & Hr). split_and!.
  - rewrite Hext; [done|]. rewrite elem_of_cons, elem_of_app. tauto.
  - apply IHl; [|done]. intros q Hq. apply Hext. rewrite elem_of_cons, elem_of_app. tauto.
  - apply IHr; [|done]. intros q Hq. apply Hext. rewrite elem_of_cons, elem_of_app. tauto.
Qed.

Lemma ctx_at_ext h h' k p :
  (∀ q, q ∈ caddrs k → h' !! q = h !! q) → ctx_at h k p → ctx_at h' k p.
Proof.
  revert p. induction k as [|f k IH]; intros p Hext; [done|]. cbn [ctx_at top_at].
  setoid_rewrite (caddrs_cons f k) in Hext.
  intros (Hf & Hs & Hk). split_and!.
  - rewrite Hext; [done|]. rewrite elem_of_cons, elem_of_app. tauto.
  - eapply tree_at_ext; [|done]. intros q Hq. apply Hext. rewrite elem_of_cons, elem_of_app. tauto.
  - apply IH; [|done]. intros q Hq. apply Hext. rewrite elem_of_cons, elem_of_app. tauto.
Qed.

Lemma tree_at_dom h par t q : tree_at h par t → q ∈ addrs t → is_Some (h !! q).
Proof.
  revert par. induction t as [|c l IHl e r IHr]; intros par; simpl.
  { intros _ Hq. by apply elem_of_nil in Hq. }
  pose proof (addrs_mk L c l e r) as Hp. simpl in Hp. rewrite Hp.
  intros (He & Hl & Hr) [->|[?|?]%elem_of_app]%elem_of_cons; eauto.
Qed.

Lemma ctx_at_dom h k p q : ctx_at h k p → q ∈ caddrs k → is_Some (h !! q).
Proof.
  revert p. induction k as [|f k IH]; intros p; simpl.
  { intros _ Hq. by apply elem_of_nil in Hq. }
  rewrite caddrs_cons.
  intros (He & Hs & Hk) [->|[?|?]%elem_of_app]%elem_of_cons; [by eexists|by eapply tree_at_dom|eauto].
Qed.

Lemma ptr_in_ne t : t ≠ E → ptr t ∈ addrs t.
Proof. destruct t as [|c l e r]; [done|]. intros _. unfold addrs. simpl. set_solver. Qed.

Lemma ptr_in t : ptr t = NULL ∨ ptr t ∈ addrs t.
Proof. destruct t as [|c l e r]; [by left|right]. by apply ptr_in_ne. Qed.

(** ** Moving the focus *)

Lemma zheap_up F h d c e s k t :
  zheap F h (Fr d c e s :: k) t ↔ zheap F h k (mk d c t e s).
Proof.
  assert (caddrs (Fr d c e s :: k) ++ addrs t ≡ₚ caddrs k ++ addrs (mk d c t e s)) as Hp.
  { rewrite caddrs_cons, addrs_mk. simpl. solve_Permutation. }
  split; intros [Hc Ht Hnd Ho Hf].
  - destruct Hc as (H1 & H2 & H3). simpl in *. split.
    + by rewrite ptr_mk.
    + apply tree_at_mk. by split_and!.
    + by rewrite <- Hp.
    + intros q. rewrite <- Hp. apply Ho.
    + intros q. rewrite <- Hp. apply Hf.
  - apply tree_at_mk in Ht as (H1 & H2 & H3). rewrite ptr_mk in Hc. split.
    + by split_and!.
    + done.
    + by rewrite Hp.
    + intros q. rewrite Hp. apply Ho.
    + intros q. rewrite Hp. apply Hf.
Qed.

(** ** Replacing the focused subtree *)

Lemma zheap_swap F F' h h' k t t' :
  zheap F h k t →
  (∀ q, q ∈ caddrs k → F' !! q = None ∧ (q ≠ cpar k → h' !! q = h !! q)) →
  top_at h' k (ptr t') → tree_at h' (cpar k) t' → NoDup (addrs t') →
  (∀ q, q ∈ addrs t' → q ≠ NULL ∧ q ∉ caddrs k ∧ F' !! q = None) →
  (∀ q, q ∉ caddrs k → q ∉ addrs t' → h' !! q = F' !! q) →
  zheap F' h' k t'.
Proof.
  intros [Hc Ht Hnd Ho Hf] Hk Htop Ht' Hnd' Ho' Hf'.
  apply NoDup_app in Hnd as (Hndk & _ & _). split.
  - destruct k as [|f k]; [done|]. destruct Hc as (_ & Hs & Hc).
    rewrite caddrs_cons in Hndk. apply NoDup_cons in Hndk as [Hnf _].
    setoid_rewrite (caddrs_cons f k) in Hk. split_and!; [done| |].
    + eapply tree_at_ext; [|done]. intros q Hq. apply Hk; [set_solver|]. simpl. set_solver.
    + eapply ctx_at_ext; [|done]. intros q Hq. apply Hk; [set_solver|]. simpl. set_solver.
  - done.
  - apply NoDup_app. split_and!; [done| |done]. intros q Hq Hq'. by apply Ho' in Hq' as (_ & ? & _).
  - intros q [Hq|Hq]%elem_of_app; [|by apply Ho' in Hq as (? & _ & ?)].
    split; [|by apply Hk]. apply Ho. set_solver.
  - intros q Hq. apply Hf'; set_solver.
Qed.

(** The replacement keeps the nodes. *)
Lemma zheap_swap_same F h h' k t t' :
  zheap F h k t → addrs t' ≡ₚ addrs t →
  (∀ q, q ∉ addrs t → q ≠ cpar k → h' !! q = h !! q) →
  top_at h' k (ptr t') → tree_at h' (cpar k) t' → h' !! NULL = h !! NULL → zheap F h' k t'.
Proof.
  intros Hz Hp Hext Htop Ht' Hnull. destruct (id Hz) as [Hc Ht Hnd Ho Hf].
  apply NoDup_app in Hnd as (Hndk & Hdis & Hndt).
  eapply zheap_swap; [done| |done..| | |].
  - intros q Hq. split; [apply Ho; set_solver|]. intros Hne. apply Hext; [by apply Hdis|done].
  - by rewrite Hp.
  - intros q. rewrite Hp. intros Hq. split_and!; [apply Ho; set_solver| |apply Ho; set_solver].
    intros Hk. by apply (Hdis q).
  - intros q Hqk. rewrite Hp. intros Hqt. rewrite <- Hf by set_solver.
    destruct (decide (q = cpar k)) as [->|Hne]; [|by apply Hext].
    destruct k as [|f k]; [exact Hnull|]. exfalso. apply Hqk. rewrite caddrs_cons. simpl. set_solver.
Qed.

Lemma tree_at_reparent h par par' t :
  NoDup (addrs t) → tree_at h par t → tree_at (reparent t par' h) par' t.
Proof.
  destruct t as [|c l e r]; [done|]. intros Hnd (He & Hl & Hr).
  pose proof (addrs_mk L c l e r) as Hp. simpl in Hp. rewrite Hp in Hnd.
  apply NoDup_cons in Hnd as [Hn _]. simpl. rewrite lookup_insert_eq. split_and!; [done| |].
  - eapply tree_at_ext; [|done]. intros q Hq. apply lookup_insert_ne. set_solver.
  - eapply tree_at_ext; [|done]. intros q Hq. apply lookup_insert_ne. set_solver.
Qed.

Lemma reparent_ne t par h q : q ∉ addrs t → reparent t par h !! q = h !! q.
Proof.
  destruct t as [|c l e r]; [done|]. intros Hq. simpl. apply lookup_insert_ne.
  intros <-. apply Hq. unfold addrs. simpl. set_solver.
Qed.

Lemma reparent_ext t par h h' q :
  h' !! q = h !! q → reparent t par h' !! q = reparent t par h !! q.
Proof.
  destruct t as [|c l e r]; [done|]. simpl. rewrite !lookup_insert. by case_decide.
Qed.

Lemma fill_ne k p h q : q ≠ cpar k → fill k p h !! q = h !! q.
Proof. destruct k as [|f k]; [done|]. intros Hq. by apply lookup_insert_ne. Qed.

Lemma fill_ext k p h h' q : h' !! q = h !! q → fill k p h' !! q = fill k p h !! q.
Proof. destruct k as [|f k]; [done|]. simpl. rewrite !lookup_insert. by case_decide. Qed.

Lemma fill_top k p h : top_at (fill k p h) k p.
Proof. destruct k as [|f k]; [done|]. apply lookup_insert_eq. Qed.

Lemma top_at_ext k p h h' : h' !! cpar k = h !! cpar k → top_at h k p → top_at h' k p.
Proof. destruct k as [|f k]; [done|]. simpl. by intros ->. Qed.

Lemma cpar_in k : cpar k = NULL ∨ cpar k ∈ caddrs k.
Proof. destruct k as [|f k]; [by left|]. right. rewrite caddrs_cons. simpl. set_solver. Qed.
End facts.

(** ** The tree in a world *)

(** What the operations on links leave alone. *)
Record base := Base {
  b_size : Z;
  b_cmp : option cobalt_compare_func;
  b_brk : Z;
  b_oracle : nat → Z → bool;
  b_allocs : nat;
  b_error : cobalt_error
}.

Definition mkw (B : base) (r : Z) (h : gmap Z cell) : tworld :=
  World (Some (TImpl r (b_size B) (b_cmp B))) h (b_brk B) (b_oracle B) (b_allocs B) (b_error B).

Definition zrep (B : base) (F : gmap Z cell) (k : ctx) (t : tree) (w : tworld) : Prop :=
  ∃ h, w = mkw B (croot k (ptr t)) h ∧ zheap F h k t.

Section zrep.
Context {B : base}.
Implicit Types (t a b : tree) (k : ctx) (e : entry) (d : side) (h F : gmap Z cell) (w : tworld).

Lemma zrep_up F d c e s k t w : zrep B F (Fr d c e s :: k) t w ↔ zrep B F k (mk d c t e s) w.
Proof.
  unfold zrep. setoid_rewrite zheap_up. cbn [croot fe]. by setoid_rewrite ptr_mk.
Qed.

Lemma zrep_close F d c e s k t w : zrep B F (Fr d c e s :: k) t w → zrep B F k (mk d c t e s) w.
Proof. apply zrep_up. Qed.
Lemma zrep_open F d c e s k t w : zrep B F k (mk d c t e s) w → zrep B F (Fr d c e s :: k) t w.
Proof. apply zrep_up. Qed.

Lemma zrep_node F k d c a e b w :
  zrep B F k (mk d c a e b) w →
  heap w !! addr e = Some (CNode (nd d e (ptr a) (ptr b) (cpar k) c)).
Proof. intros (h & -> & Hz). by destruct (proj1 (tree_at_mk _ _ _ _ _ _ _) (zh_tree _ _ _ _ Hz)). Qed.

Lemma zrep_nonnull F k d c a e b w : zrep B F k (mk d c a e b) w → addr e ≠ NULL.
Proof.
  intros (h & -> & Hz). eapply (zh_own _ _ _ _ Hz). apply elem_of_app. right.
  rewrite addrs_mk. set_solver.
Qed.

Lemma zrep_deref F k t w : zrep B F k t w → obj w = Some (TImpl (croot k (ptr t)) (b_size B) (b_cmp B)).
Proof. by intros (h & -> & _). Qed.

Lemma wp_load_node p nn Q w : heap w !! p = Some (CNode nn) → Q nn w → wp (load_node p) Q w.
Proof. intros Hp HQ. unfold load_node. wp_step. eapply wp_load; [done|]. by wp_steps. Qed.

Lemma wp_update p nn f Q w :
  heap w !! p = Some (CNode nn) → Q tt (with_heap w (<[p := CNode (f nn)]> (heap w))) →
  wp (update p f) Q w.
Proof.
  intros Hp HQ. unfold update. wp_step. eapply wp_load_node; [done|]. by eapply wp_store.
Qed.

Lemma wp_child_at d p nn Q w : heap w !! p = Some (CNode nn) → Q (child d nn) w → wp (child_of d p) Q w.
Proof. intros Hp HQ. unfold child_of. wp_step. by eapply wp_load_node. Qed.
Lemma wp_parent_at p nn Q w : heap w !! p = Some (CNode nn) → Q (parent nn) w → wp (parent_of p) Q w.
Proof. intros Hp HQ. unfold parent_of. wp_step. by eapply wp_load_node. Qed.
Lemma wp_color_at p nn Q w : heap w !! p = Some (CNode nn) → Q (node_color nn) w → wp (color_of p) Q w.
Proof. intros Hp HQ. unfold color_of. wp_step. by eapply wp_load_node. Qed.

(** The nodes of the tree fit the heap. *)
Lemma zrep_fits F k t w : zrep B F k t w → (length k + card t ≤ base.size (heap w))%nat.
Proof.
  intros (h & -> & Hz). destruct (id Hz) as [Hc Ht Hnd _ _]. simpl.
  pose proof (length_ctx k) as Hlk. rewrite card_entries.
  assert (length (caddrs k ++ addrs t) ≤ base.size h)%nat as Hle.
  { rewrite <- size_dom, <- (size_list_to_set (C := gset Z)) by done. apply subseteq_size.
    intros q Hq%elem_of_list_to_set. apply elem_of_dom.
    apply elem_of_app in Hq as [Hq|Hq]; [by eapply ctx_at_dom|by eapply tree_at_dom]. }
  unfold caddrs, addrs in Hle. rewrite length_app, !length_fmap, length_app in Hle. lia.
Qed.

(** Reads at the focus. *)
Lemma wp_child_of F k d c a e b Q w :
  zrep B F k (mk d c a e b) w → Q (ptr a) w → wp (child_of d (addr e)) Q w.
Proof. intros Hz HQ. eapply wp_child_at; [by eapply zrep_node|]. by rewrite child_nd. Qed.
Lemma wp_child_flip F k d c a e b Q w :
  zrep B F k (mk d c a e b) w → Q (ptr b) w → wp (child_of (flip d) (addr e)) Q w.
Proof. intros Hz HQ. eapply wp_child_at; [by eapply zrep_node|]. by rewrite child_flip_nd. Qed.
Lemma wp_parent_of F k d c a e b Q w :
  zrep B F k (mk d c a e b) w → Q (cpar k) w → wp (parent_of (addr e)) Q w.
Proof. intros Hz HQ. eapply wp_parent_at; [by eapply zrep_node|]. by rewrite parent_nd. Qed.
Lemma wp_color_of F k d c a e b Q w :
  zrep B F k (mk d c a e b) w → Q c w → wp (color_of (addr e)) Q w.
Proof. intros Hz HQ. eapply wp_color_at; [by eapply zrep_node|]. by rewrite color_nd. Qed.

Lemma wp_parent_ptr F k t Q w :
  t ≠ E → zrep B F k t w → Q (cpar k) w → wp (parent_of (ptr t)) Q w.
Proof. destruct t as [|c l e r]; [done|]. intros _ Hz. by apply (wp_parent_of F k L c l e r). Qed.

(** The focus is not its sibling. *)
Lemma zrep_sibling F d c e s k t w : zrep B F (Fr d c e s :: k) t w → t ≠ E → ptr t ≠ ptr s.
Proof.
  intros (h & -> & Hz) Ht. destruct Hz as [_ _ Hnd Ho _].
  rewrite caddrs_cons in Hnd. setoid_rewrite (caddrs_cons (Fr d c e s) k) in Ho. cbn [fe sib] in *.
  pose proof (ptr_in_ne t Ht) as Hin.
  destruct (ptr_in s) as [->|Hs].
  - apply (Ho (ptr t)). apply elem_of_app. by right.
  - intros E. apply NoDup_app in Hnd as (_ & Hd & _). apply (Hd (ptr t)); [|done]. rewrite E.
    apply elem_of_cons. right. apply elem_of_app. by left.
Qed.

(** Reads of the root of the focus, through a possibly null pointer. *)
Lemma wp_is_red F k t Q w :
  zrep B F k t w → Q (bool_decide (tcolor t = RB_RED)) w → wp (is_red (ptr t)) Q w.
Proof.
  intros Hz HQ. unfold is_red. destruct t as [|c l e r]; [done|].
  pose proof (zrep_nonnull F k L c l e r w Hz) as Hn. simpl.
  rewrite (proj2 (Z.eqb_neq _ _) Hn). wp_step. by eapply (wp_color_of F k L).
Qed.
Lemma wp_is_black F k t Q w :
  zrep B F k t w → Q (bool_decide (tcolor t = RB_BLACK)) w → wp (is_black (ptr t)) Q w.
Proof.
  intros Hz HQ. unfold is_black. destruct t as [|c l e r]; [done|].
  pose proof (zrep_nonnull F k L c l e r w Hz) as Hn. simpl.
  rewrite (proj2 (Z.eqb_neq _ _) Hn). wp_step. by eapply (wp_color_of F k L).
Qed.

(** Updates of one node that keep its links. *)
Lemma wp_update_focus F k d c c' a e e' b f Q w :
  zrep B F k (mk d c a e b) w → addr e' = addr e →
  (∀ p q par, f (nd d e p q par c) = nd d e' p q par c') →
  (∀ w', zrep B F k (mk d c' a e' b) w' → Q tt w') → wp (update (addr e) f) Q w.
Proof.
  intros Hz Ea Hf HQ. eapply wp_update; [by eapply zrep_node|]. apply HQ.
  rewrite Hf. destruct Hz as (h & -> & Hz).
  exists (<[addr e:=CNode (nd d e' (ptr a) (ptr b) (cpar k) c')]> h). rewrite !ptr_mk, Ea. split; [done|].
  destruct (id Hz) as [Hc Ht Hnd Ho _]. rewrite addrs_mk in Hnd.
  apply NoDup_app in Hnd as (_ & Hdis & [Hn1 _]%NoDup_cons).
  apply tree_at_mk in Ht as (He & Ha & Hb).
  eapply zheap_swap_same; [exact Hz|by rewrite !addrs_mk, Ea| | | |].
  - intros q. rewrite addrs_mk. intros Hq _. apply lookup_insert_ne. set_solver.
  - rewrite ptr_mk, Ea. rewrite ptr_mk in Hc. destruct k as [|g k]; [done|]. destruct Hc as (Htop & _). simpl.
    rewrite lookup_insert_ne; [done|]. intros E. apply (Hdis (addr (fe g))); [|rewrite E; set_solver].
    rewrite caddrs_cons. set_solver.
  - apply tree_at_mk. rewrite Ea, lookup_insert_eq. split_and!; [done| |];
      (eapply tree_at_ext; [|done]); intros q Hq; apply lookup_insert_ne; set_solver.
  - apply lookup_insert_ne. eapply zh_own; [done|]. apply elem_of_app. right. rewrite addrs_mk. set_solver.
Qed.

Lemma wp_set_color F k d c c' a e b Q w :
  zrep B F k (mk d c a e b) w →
  (∀ w', zrep B F k (mk d c' a e b) w' → Q tt w') → wp (set_color (addr e) c') Q w.
Proof.
  intros Hz HQ. eapply (wp_update_focus F k d c c' a e e); [done..| |done].
  intros. apply with_color_nd.
Qed.

Definition with_val (e : entry) (v : Z) : entry := Entry (addr e) (kptr e) (kstr e) v (owned e).

Lemma wp_set_value F k d c a e b v Q w :
  zrep B F k (mk d c a e b) w →
  (∀ w', zrep B F k (mk d c a (with_val e v) b) w' → Q tt w') → wp (set_value (addr e) v) Q w.
Proof.
  intros Hz HQ. eapply (wp_update_focus F k d c c a e (with_val e v)); [done..| |done].
  intros. by destruct d.
Qed.

(** ** Links from above *)

(** The pointer [x] is in the hole of [k] and not on its other side. *)
Definition hole_is (k : ctx) (x : Z) : Prop :=
  match k with [] => True | f :: _ => addr (fe f) ≠ NULL ∧ x ≠ ptr (sib f) end.

Lemma wp_replace_child d k x y h Q :
  top_at h k x → hole_is k x → Q tt (mkw B (croot k y) (fill k y h)) →
  wp (replace_child d (cpar k) x y) Q (mkw B (croot k x) h).
Proof.
  intros Htop Hh HQ. unfold replace_child. destruct k as [|[s c e t] k]; [done|].
  destruct Hh as [Hn Hx]. cbn [cpar fe hole fc sib top_at] in *.
  rewrite (proj2 (Z.eqb_neq _ _) Hn). wp_step. eapply wp_child_at; [done|].
  destruct d, s; cbn [child nd flip left right].
  - rewrite Z.eqb_refl. by eapply wp_update.
  - rewrite (proj2 (Z.eqb_neq _ _) Hx). by eapply wp_update.
  - rewrite (proj2 (Z.eqb_neq _ _) Hx). by eapply wp_update.
  - rewrite Z.eqb_refl. by eapply wp_update.
Qed.

Lemma wp_reparent t par par' h Q w :
  heap w = h → tree_at h par t → (∀ q, q ∈ addrs t → q ≠ NULL) →
  Q tt (with_heap w (reparent t par' h)) →
  wp (if ptr t =? NULL then mret tt else set_parent (ptr t) par') Q w.
Proof.
  intros <- Ht Hn HQ. destruct t as [|c l e r].
  - simpl. apply wp_ret. by destruct w.
  - assert (addr e ≠ NULL) as He by (apply Hn; unfold addrs; simpl; set_solver).
    cbn [ptr]. rewrite (proj2 (Z.eqb_neq _ _) He). destruct Ht as (Ht & _). by eapply wp_update.
Qed.

(** ** Rotation *)


(** The distinct addresses a rotation touches. *)
Lemma rotate_addrs k d cx a x cy b y c F h :
  zheap F h k (mk d cx a x (mk d cy b y c)) →
  let P q := q ∉ addrs a ∧ q ∉ addrs b ∧ q ∉ addrs c in
  (addr x ≠ NULL ∧ addr y ≠ NULL ∧ addr x ≠ addr y ∧ P (addr x) ∧ P (addr y)) ∧
  (∀ q, q ∈ caddrs k → q ≠ addr x ∧ q ≠ addr y ∧ P q) ∧ NoDup (addrs b) ∧
  (∀ q, q ∈ addrs b → q ≠ NULL ∧ q ∉ addrs a ∧ q ∉ addrs c).
Proof.
  intros [_ _ Hnd Ho _].
  assert (addrs (mk d cx a x (mk d cy b y c)) ≡ₚ
    addr x :: addrs a ++ addr y :: addrs b ++ addrs c) as Hp by (by rewrite !addrs_mk).
  rewrite Hp in Hnd. setoid_rewrite Hp in Ho.
  apply NoDup_app in Hnd as (_ & Hk & [Hx Hnd]%NoDup_cons).
  apply NoDup_app in Hnd as (_ & Ha & [Hy Hbc]%NoDup_cons).
  apply NoDup_app in Hbc as (Hb & Hbc & _).
  assert (∀ q, q ∈ addr x :: addrs a ++ addr y :: addrs b ++ addrs c → q ≠ NULL) as Hn.
  { intros q Hq. apply Ho, elem_of_app. by right. }
  split_and!; try done.
  - apply Hn. set_solver.
  - apply Hn. set_solver.
  - set_solver.
  - set_solver.
  - set_solver.
  - set_solver.
  - intros Hq. by apply Ha in Hq; set_solver.
  - set_solver.
  - set_solver.
  - intros q Hq%Hk. set_solver.
  - intros q Hq. split_and!; [apply Hn; set_solver| |by apply Hbc].
    intros Hqa%Ha. set_solver.
Qed.

End zrep.
End TreeHeap.

(** ** Rotations and replacements of a red-black tree in the heap *)
Module TreeRotate.
Import TreeMap RBTree TreeHeap.

(** Membership in lists built by [::] and [++]. *)
Ltac in_list := repeat (rewrite ?elem_of_cons, ?elem_of_app in * ); tauto.

Section rotate.
Context {B : base}.
Implicit Types (t a b : tree) (k : ctx) (e : entry) (d : side) (h F : gmap Z cell) (w : tworld).

(** The hole of the context holds a node that is nowhere else in it. *)
Lemma hole_is_node k x :
  NULL ∉ caddrs k → x ∉ caddrs k → x ≠ NULL → hole_is k x.
Proof.
  destruct k as [|f k]; [done|]. intros Hn Hx Hx0. rewrite caddrs_cons in Hn, Hx. split; [set_solver|].
  destruct (ptr_in (sib f)) as [->|Hin]; [done|]. intros ->. set_solver.
Qed.

Lemma wp_rotate_heap k d cx a x cy b y c F h Q :
  zheap F h k (mk d cx a x (mk d cy b y c)) →
  (∀ h', h' !! addr x = Some (CNode (nd d x (ptr a) (ptr b) (addr y) cx)) →
     h' !! addr y = Some (CNode (nd d y (addr x) (ptr c) (cpar k) cy)) →
     (∀ q, q ≠ addr x → q ≠ addr y → h' !! q = fill k (addr y) (reparent b (addr x) h) !! q) →
     Q tt (mkw B (croot k (addr y)) h')) →
  wp (rb_rotate d (addr x)) Q (mkw B (croot k (addr x)) h).
Proof.
  intros Hz HQ.
  destruct (rotate_addrs _ _ _ _ _ _ _ _ _ _ _ Hz) as ((Hx & Hy & Hxy & Hxn & Hyn) & Hk & Hnb & Hbn).
  destruct (id Hz) as [Hc Ht _ Ho _]. rewrite ptr_mk in Hc.
  apply tree_at_mk in Ht as (Hax & Ha & (Hay & Hb & Hcc)%tree_at_mk). rewrite ptr_mk in Hax.
  assert (top_at h k (addr x)) as Htop by (destruct k; [done|apply Hc]).
  assert (cpar k ≠ addr x ∧ cpar k ≠ addr y ∧ cpar k ∉ addrs b) as (Hpx & Hpy & Hpb).
  { destruct (cpar_in k) as [->|Hin]; [|naive_solver]. split_and!; [done..|]. intros Hin. naive_solver. }
  unfold rb_rotate. wp_step. eapply wp_child_at; [exact Hax|]. rewrite child_flip_nd.
  wp_step. eapply wp_child_at; [exact Hay|]. rewrite child_nd.
  wp_step. eapply wp_update; [exact Hax|]. rewrite with_child_flip_nd.
  wp_step. eapply (wp_reparent b (addr y) (addr x)); [reflexivity| |naive_solver|].
  { eapply tree_at_ext; [|exact Hb]. intros q Hq. simpl. apply lookup_insert_ne. naive_solver. }
  wp_step. eapply wp_parent_at; [simpl; rewrite reparent_ne by naive_solver; apply lookup_insert_eq|].
  rewrite parent_nd.
  wp_step. eapply wp_update; [simpl; rewrite reparent_ne, lookup_insert_ne by naive_solver; exact Hay|].
  rewrite with_parent_nd. wp_step. apply (wp_replace_child d k).
  { eapply top_at_ext; [|exact Htop]. simpl.
    by rewrite lookup_insert_ne, reparent_ne, lookup_insert_ne by done. }
  { apply hole_is_node; [|naive_solver|done]. intros Hin. eapply (Ho NULL); [|done]. set_solver. }
  wp_step. eapply wp_update; [simpl; rewrite fill_ne by done; apply lookup_insert_eq|].
  rewrite with_child_nd. eapply wp_update.
  { simpl. rewrite lookup_insert_ne, fill_ne, lookup_insert_ne, reparent_ne by naive_solver.
    apply lookup_insert_eq. }
  rewrite with_parent_nd. apply HQ.
  - apply lookup_insert_eq.
  - simpl. rewrite lookup_insert_ne by done. apply lookup_insert_eq.
  - intros q Hqx Hqy. simpl. rewrite !lookup_insert_ne by done. apply fill_ext.
    rewrite lookup_insert_ne by done. apply reparent_ext. by rewrite lookup_insert_ne by done.
Qed.

Lemma fill_null k p h : NULL ∉ caddrs k → fill k p h !! NULL = h !! NULL.
Proof.
  destruct k as [|f k]; [done|]. rewrite caddrs_cons. intros Hn. apply fill_ne. simpl. set_solver.
Qed.

Lemma zheap_null F h k t : zheap F h k t → NULL ∉ caddrs k ∧ NULL ∉ addrs t.
Proof. intros Hz. split; intros Hin; eapply (zh_own _ _ _ _ Hz NULL); set_solver. Qed.

Lemma addrs_rotate d cx a x cy b y c :
  addrs (mk d cy (mk d cx a x b) y c) ≡ₚ addrs (mk d cx a x (mk d cy b y c)).
Proof. rewrite !addrs_mk. solve_Permutation. Qed.

Lemma wp_rotate F k d cx a x cy b y c Q w :
  zrep B F k (mk d cx a x (mk d cy b y c)) w →
  (∀ w', zrep B F k (mk d cy (mk d cx a x b) y c) w' → Q tt w') →
  wp (rb_rotate d (addr x)) Q w.
Proof.
  intros (h & -> & Hz) HQ. rewrite ptr_mk. eapply wp_rotate_heap; [exact Hz|].
  intros h' Hx' Hy' Hq'. apply HQ. exists h'. rewrite ptr_mk. split; [done|].
  destruct (rotate_addrs _ _ _ _ _ _ _ _ _ _ _ Hz) as ((Hx & Hy & Hxy & Hxn & Hyn) & Hk & Hnb & Hbn).
  destruct (zheap_null _ _ _ _ Hz) as [Hnk Hnt].
  destruct (id Hz) as [_ Ht Hnd _ _].
  apply tree_at_mk in Ht as (_ & Ha & (_ & Hb & Hcc)%tree_at_mk).
  assert (cpar k ≠ addr x ∧ cpar k ≠ addr y) as (Hpx & Hpy).
  { destruct (cpar_in k) as [->|Hin]; [done|naive_solver]. }
  assert (∀ q, q ∈ addrs a ++ addrs b ++ addrs c → q ≠ cpar k) as Hpk.
  { intros q Hq ->. destruct (cpar_in k) as [E|Hin]; [|apply Hk in Hin; in_list].
    apply Hnt. rewrite <- E, !addrs_mk. in_list. }
  eapply zheap_swap_same; [exact Hz|apply addrs_rotate| | | |].
  - intros q. rewrite !addrs_mk. intros Hq Hqk.
    rewrite Hq', fill_ne, reparent_ne; [done| |done|..]; in_list.
  - rewrite ptr_mk. eapply top_at_ext; [by apply Hq'|]. apply fill_top.
  - rewrite !tree_at_mk, ptr_mk. split_and!; try done.
    + eapply tree_at_ext; [|exact Ha]. intros q Hq.
      rewrite Hq', fill_ne, reparent_ne; [done|intros ?; naive_solver|apply Hpk; in_list|intros ->; naive_solver..].
    + eapply tree_at_ext; [|by eapply tree_at_reparent]. intros q Hq.
      rewrite Hq', fill_ne; [done|apply Hpk; in_list|intros ->; naive_solver..].
    + eapply tree_at_ext; [|exact Hcc]. intros q Hq.
      rewrite Hq', fill_ne, reparent_ne; [done|intros ?; naive_solver|apply Hpk; in_list|intros ->; naive_solver..].
  - rewrite Hq', fill_null, reparent_ne; [done| |done..].
    intros Hin. apply Hnt. rewrite !addrs_mk. set_solver.
Qed.

(** ** Cells of the frame *)

Lemma zheap_frame F F' h h' k t :
  zheap F h k t → (∀ q, q ∈ caddrs k ++ addrs t → h' !! q = h !! q ∧ F' !! q = None) →
  (∀ q, q ∉ caddrs k ++ addrs t → h' !! q = F' !! q) → zheap F' h' k t.
Proof.
  intros [Hc Ht Hnd Ho Hf] Hin Hout. split; [| |done| |done].
  - eapply ctx_at_ext; [|exact Hc]. intros q Hq. apply Hin. set_solver.
  - eapply tree_at_ext; [|exact Ht]. intros q Hq. apply Hin. set_solver.
  - intros q Hq. split; [by apply Ho|by apply Hin].
Qed.

Lemma zheap_insert_frame F h k t z c c0 :
  zheap F h k t → F !! z = Some c0 → zheap (<[z := c]> F) (<[z := c]> h) k t.
Proof.
  intros Hz Hc. eapply zheap_frame; [exact Hz| |].
  - intros q Hq. apply (zh_own _ _ _ _ Hz) in Hq as [_ Hn].
    assert (z ≠ q) by congruence. by rewrite !lookup_insert_ne.
  - intros q Hq. rewrite !lookup_insert. case_decide; [done|]. by apply (zh_frame _ _ _ _ Hz).
Qed.

Lemma zheap_delete_frame F h k t z c0 :
  zheap F h k t → F !! z = Some c0 → zheap (delete z F) (delete z h) k t.
Proof.
  intros Hz Hc. eapply zheap_frame; [exact Hz| |].
  - intros q Hq. apply (zh_own _ _ _ _ Hz) in Hq as [_ Hn].
    assert (z ≠ q) by congruence. by rewrite !lookup_delete_ne.
  - intros q Hq. rewrite !lookup_delete. case_decide; [done|]. by apply (zh_frame _ _ _ _ Hz).
Qed.

Lemma zrep_frame F k t w p x : zrep B F k t w → F !! p = Some x → heap w !! p = Some x.
Proof.
  intros (h & -> & Hz) Hp. simpl. rewrite (zh_frame _ _ _ _ Hz); [done|].
  intros Hin. apply (zh_own _ _ _ _ Hz) in Hin as [_ Hn]. congruence.
Qed.

Lemma wp_update_frame F k t z nn f Q w :
  zrep B F k t w → F !! z = Some (CNode nn) →
  (∀ w', zrep B (<[z := CNode (f nn)]> F) k t w' → Q tt w') → wp (update z f) Q w.
Proof.
  intros Hz Hn HQ. eapply wp_update; [by eapply zrep_frame|]. apply HQ.
  destruct Hz as (h & -> & Hz). eexists. split; [done|]. by eapply zheap_insert_frame.
Qed.

Lemma wp_free_frame F k t z c Q w :
  zrep B F k t w → F !! z = Some c → z ≠ NULL →
  (∀ w', zrep B (delete z F) k t w' → Q tt w') → wp (free_node z) Q w.
Proof.
  intros Hz Hc Hn HQ. eapply wp_free_node; [done|by eapply zrep_frame|]. apply HQ.
  destruct Hz as (h & -> & Hz). eexists. split; [done|]. by eapply zheap_delete_frame.
Qed.

(** ** Putting another tree at the focus

    [t'] is in the heap already, with the right parent; the hole of the context
    is redirected to it. *)
Lemma zheap_attach F F' h h' k t t' :
  zheap F h k t → (∀ q, q ∈ caddrs k → h' !! q = h !! q ∧ F' !! q = None) →
  tree_at h' (cpar k) t' → NoDup (addrs t') →
  (∀ q, q ∈ addrs t' → q ≠ NULL ∧ q ∉ caddrs k ∧ F' !! q = None) →
  (∀ q, q ∉ caddrs k → q ∉ addrs t' → h' !! q = F' !! q) →
  zheap F' (fill k (ptr t') h') k t'.
Proof.
  intros Hz Hk Ht' Hnd' Ho' Hf'. destruct (zheap_null _ _ _ _ Hz) as [Hnk _].
  eapply zheap_swap; [exact Hz| | | |done|done|].
  - intros q Hq. split; [by apply Hk|]. intros Hne. rewrite fill_ne by done. by apply Hk.
  - apply fill_top.
  - eapply tree_at_ext; [|exact Ht']. intros q Hq. apply fill_ne. intros ->.
    destruct (cpar_in k) as [E|Hin]; [|naive_solver]. rewrite E in Hq. naive_solver.
  - intros q Hqk Hqt. rewrite <- Hf' by done.
    destruct (decide (q = cpar k)) as [->|Hne]; [|by apply fill_ne].
    destruct (cpar_in k) as [E|Hin]; [|done]. rewrite E. by apply fill_null.
Qed.

Lemma fill_reparent k p t par h :
  cpar k ∉ addrs t → fill k p (reparent t par h) = reparent t par (fill k p h).
Proof.
  destruct k as [|f k]; [done|]. destruct t as [|c l e r]; [done|]. intros Hn. simpl.
  apply insert_insert_ne. intros E. apply Hn. simpl. rewrite E. unfold addrs. simpl. set_solver.
Qed.
End rotate.
End TreeRotate.
