(* ===== verification/TreeInsert.v ===== *)
(** * Insertion into a red-black tree in the heap *)
From S2P Require Import Prelude World TreeMap RBTree TreeHeap.

Module TreeInsert.
Import TreeMap RBTree TreeHeap TreeRotate.

(** The colour of the root of [plug k t], for a [t] of colour [c]. *)
Fixpoint ctx_root (k : ctx) (c : color) : color :=
  match k with [] => c | f :: k => ctx_root k (fc f) end.

Lemma tcolor_root k t : tcolor (plug k t) = ctx_root k (tcolor t).
Proof.
  revert t. induction k as [|f k IH]; intros t; [done|]. simpl. rewrite IH.
  unfold close. by rewrite tcolor_mk.
Qed.

(** Around the fixup loop: the subtree [t] is red, and a red parent is the only
    thing that can be wrong.  [bal] says whether the tree was balanced. *)
Record fixing (bal : Prop) (es : list entry) (k : ctx) (t : tree) : Prop := {
  fx_red : tcolor t = RB_RED;
  fx_nrr : nrr t;
  fx_ctx : nrr_ctx k RB_BLACK;
  fx_root : ctx_root k RB_BLACK = RB_BLACK;
  fx_entries : entries (plug k t) = es;
  fx_bal : bal → ∃ n m, bh n t ∧ bh_ctx k n m
}.

(** ** The three steps of the fixup, on trees *)

Lemma fixing_grandparent bal es d1 p s f2 k t :
  fixing bal es (Fr d1 RB_RED p s :: f2 :: k) t →
  fc f2 = RB_BLACK ∧ nrr (sib f2) ∧ nrr s ∧ tcolor s = RB_BLACK ∧
  nrr_ctx k RB_BLACK ∧ ctx_root k RB_BLACK = RB_BLACK.
Proof.
  intros [Hr Hn (Hf & Hs & Hf2 & Hs2 & Hk) Hroot _ _]. unfold fok in *. cbn [fc sib] in *.
  assert (fc f2 = RB_BLACK) as E.
  { destruct (fc f2) eqn:E; [|done]. by destruct (Hf2 eq_refl). }
  rewrite E in Hk. simpl in Hroot. rewrite E in Hroot. naive_solver.
Qed.

Lemma fixing_recolor bal es d1 p s d2 g u k t :
  fixing bal es (Fr d1 RB_RED p s :: Fr d2 RB_BLACK g u :: k) t → tcolor u = RB_RED →
  fixing bal es k (mk d2 RB_RED (mk d1 RB_BLACK t p s) g (paint RB_BLACK u)).
Proof.
  intros Hfx Hu. destruct (fixing_grandparent _ _ _ _ _ _ _ _ Hfx) as (_ & Hnu & Hns & Hcs & Hk & Hroot).
  cbn [sib] in *. destruct Hfx as [Hr Hn _ _ He Hb]. split; try done.
  - by rewrite tcolor_mk.
  - rewrite !nrr_mk, tcolor_mk. split_and!; try done; [by destruct u|by apply nrr_paint; [|left]].
  - rewrite <- He. rewrite !entries_plug. cbn [before after hole fe sib]. unfold mk.
    destruct u as [|cu lu eu ru]; [done|].
    destruct d1, d2; simpl; by rewrite <- ?app_assoc; simpl; rewrite <- ?app_assoc.
  - intros (n & m & Hbt & Hbs & Hbu & Hbk)%Hb. cbn [sib fc blacks] in *.
    destruct u as [|cu lu eu ru]; [done|]. simpl in Hu. subst cu. exists (S n), m. split; [|done].
    apply (bh_mk d2 RB_RED). split; [by apply (bh_mk d1 RB_BLACK)|]. done.
Qed.

Lemma fixing_outer bal es d p s g u k t :
  fixing bal es (Fr d RB_RED p s :: Fr d RB_BLACK g u :: k) t → tcolor u = RB_BLACK →
  fixing bal es (Fr d RB_BLACK p (mk d RB_RED s g u) :: k) t.
Proof.
  intros Hfx Hu. destruct (fixing_grandparent _ _ _ _ _ _ _ _ Hfx) as (_ & Hnu & Hns & Hcs & Hk & Hroot).
  cbn [sib] in *. destruct Hfx as [Hr Hn _ _ He Hb]. split; try done.
  - cbn [nrr_ctx]. unfold fok. cbn [fc sib]. split_and!; [done| |done].
    apply nrr_mk. by split_and!.
  - rewrite <- He. rewrite !entries_plug. cbn [before after hole fe sib]. unfold mk.
    destruct d; simpl; by rewrite <- ?app_assoc; simpl; rewrite <- ?app_assoc.
  - intros (n & m & Hbt & Hbs & Hbu & Hbk)%Hb. cbn [sib fc blacks] in *.
    exists n, m. split; [done|]. split; [|done]. cbn [sib]. by apply (bh_mk d RB_RED).
Qed.

Lemma fixing_inner bal es d p s g u k a z b :
  fixing bal es (Fr (flip d) RB_RED p s :: Fr d RB_BLACK g u :: k) (mk d RB_RED a z b) →
  fixing bal es (Fr d RB_RED z b :: Fr d RB_BLACK g u :: k) (mk d RB_RED s p a).
Proof.
  intros Hfx. destruct (fixing_grandparent _ _ _ _ _ _ _ _ Hfx) as (_ & Hnu & Hns & Hcs & Hk & Hroot).
  cbn [sib] in *. destruct Hfx as [Hr Hn Hc Hroot' He Hb].
  apply nrr_mk in Hn as (Hab & Hna & Hnb). destruct (Hab eq_refl) as [Hca Hcb]. split; try done.
  - by rewrite tcolor_mk.
  - apply nrr_mk. by split_and!.
  - rewrite <- He. rewrite !entries_plug. cbn [before after hole fe sib]. unfold mk.
    destruct d; simpl; by rewrite <- ?app_assoc; simpl; rewrite <- ?app_assoc; simpl; rewrite <- ?app_assoc.
  - intros (n & m & Hbt & Hbs & Hbu & Hbk)%Hb. cbn [sib fc blacks] in *.
    apply (bh_mk d RB_RED) in Hbt as [Ha' Hb'].
    exists n, m. split; [by apply (bh_mk d RB_RED)|]. by split.
Qed.

(** At the end the root is painted black. *)
Lemma fixing_done bal es k t :
  fixing bal es k t → match k with [] => True | f :: _ => fc f = RB_BLACK end →
  let t' := paint RB_BLACK (plug k t) in
  nrr t' ∧ tcolor t' = RB_BLACK ∧ entries t' = es ∧ (bal → ∃ n, bh n t').
Proof.
  intros [Hr Hn Hc Hroot He Hb] Hk t'.
  assert (nrr (plug k t)) as Hp.
  { apply nrr_plug; [done|]. rewrite Hr. destruct k as [|f k]; [done|].
    destruct Hc as (_ & ? & ?). split; [|done]. unfold fok. by rewrite Hk. }
  split_and!.
  - apply nrr_paint; [done|by left].
  - unfold t'. by destruct (plug k t).
  - rewrite <- He. unfold t'. by destruct (plug k t).
  - intros (n & m & Hbt & Hbk)%Hb. pose proof (bh_plug _ _ _ _ Hbt Hbk) as Hbp. unfold t'.
    destruct (plug k t) as [|[] l e r]; simpl in *; [by eexists|by exists (S m)|by eexists].
Qed.

(** ** The fixup in the heap *)

Section insert.
Context {B : base}.
Implicit Types (t a b : tree) (k : ctx) (e : entry) (d : side) (F : gmap Z cell) (w : tworld).

(** The outer case: recolour and rotate at the grandparent. *)
Lemma wp_fixup_outer F d p s g u k t Q w :
  t ≠ E → zrep B F (Fr d RB_RED p s :: Fr d RB_BLACK g u :: k) t w →
  (∀ w', zrep B F (Fr d RB_BLACK p (mk d RB_RED s g u) :: k) t w' → Q (ptr t) w') →
  wp (p <- parent_of (ptr t) ;; set_color p RB_BLACK ;;; g <- parent_of p ;;
      set_color g RB_RED ;;; rb_rotate (flip d) g ;;; mret (ptr t)) Q w.
Proof.
  intros Ht Hz HQ. wp_step. eapply wp_parent_ptr; [done..|]. apply zrep_close in Hz.
  wp_step. eapply (wp_set_color F _ d); [exact Hz|]. clear w Hz. intros w Hz.
  wp_step. eapply wp_parent_of; [exact Hz|]. apply zrep_close in Hz.
  wp_step. eapply (wp_set_color F _ d); [exact Hz|]. clear w Hz. intros w Hz.
  wp_step. rewrite <- (mk_flip d RB_BLACK), <- (mk_flip d RB_RED) in Hz.
  eapply wp_rotate; [exact Hz|]. clear w Hz. intros w Hz. wp_step. apply HQ.
  apply zrep_open. by rewrite !mk_flip in Hz.
Qed.

Lemma wp_fixup_side F bal es d1 p s d2 g u k t Q w :
  fixing bal es (Fr d1 RB_RED p s :: Fr d2 RB_BLACK g u :: k) t →
  zrep B F (Fr d1 RB_RED p s :: Fr d2 RB_BLACK g u :: k) t w →
  (∀ k' t' w', fixing bal es k' t' → zrep B F k' t' w' →
     (length k' < S (S (length k)))%nat → Q (ptr t') w') →
  wp (insert_fixup_side d2 (ptr t) (addr p) (addr g)) Q w.
Proof.
  intros Hfx Hz HQ. assert (t ≠ E) as Ht by (intros ->; by destruct Hfx).
  unfold insert_fixup_side. pose proof (zrep_sibling _ _ _ _ _ _ _ _ Hz Ht) as Hts.
  pose proof Hz as Hzp. apply zrep_close in Hzp. pose proof Hzp as Hzg. apply zrep_close in Hzg.
  pose proof Hzg as Hzu. rewrite <- mk_flip in Hzu. apply zrep_open in Hzu.
  wp_step. eapply wp_child_flip; [exact Hzg|]. wp_step. eapply wp_is_red; [exact Hzu|].
  case_bool_decide as Hu.
  - wp_step. eapply (wp_set_color F _ d1); [exact Hzp|]. clear dependent w. intros w Hz.
    apply zrep_close in Hz. rewrite <- mk_flip in Hz. apply zrep_open in Hz.
    destruct u as [|cu lu eu ru]; [done|].
    wp_step. eapply (wp_set_color F _ L); [exact Hz|]. clear dependent w. intros w Hz.
    apply zrep_close in Hz. rewrite mk_flip in Hz.
    wp_step. eapply (wp_set_color F _ d2); [exact Hz|]. clear dependent w. intros w Hz. wp_step.
    pose proof (fixing_recolor _ _ _ _ _ _ _ _ _ _ Hfx Hu) as Hfx'.
    replace (addr g) with (ptr (mk d2 RB_RED (mk d1 RB_BLACK t p s) g (paint RB_BLACK (T cu lu eu ru))))
      by apply ptr_mk.
    apply (HQ k); [done|exact Hz|lia].
  - assert (tcolor u = RB_BLACK) as Hub by (by destruct (tcolor u)). wp_step.
    assert (d1 = d2 ∨ d1 = flip d2) as [->| ->] by (destruct d1, d2; auto).
    + eapply wp_child_flip; [exact Hzp|]. rewrite (proj2 (Z.eqb_neq _ _) Hts). do 2 wp_step.
      eapply wp_fixup_outer; [done|exact Hz|]. intros w' Hz'. eapply HQ; [|exact Hz'|simpl; lia].
      by eapply fixing_outer.
    + eapply wp_child_of; [exact Hzp|]. rewrite Z.eqb_refl. wp_step. wp_step.
      assert (∃ a z b, t = mk d2 RB_RED a z b) as (a & z & b & ->).
      { destruct t as [|c l e r]; [done|]. pose proof (fx_red _ _ _ _ Hfx) as Hc. simpl in Hc. subst c.
        destruct d2; [by exists l, e, r|by exists r, e, l]. }
      rewrite mk_flip in Hzp. eapply wp_rotate; [exact Hzp|]. clear dependent w. intros w Hz.
      wp_step. apply zrep_open in Hz.
      replace (addr p) with (ptr (mk d2 RB_RED s p a)) by apply ptr_mk.
      eapply wp_fixup_outer; [by destruct d2|exact Hz|]. intros w' Hz'.
      eapply HQ; [|exact Hz'|simpl; lia]. eapply fixing_outer; [|done]. by apply fixing_inner.
Qed.

Lemma zrep_plug F k t w : zrep B F k t w ↔ zrep B F [] (plug k t) w.
Proof.
  revert t. induction k as [|[d c e s] k IH]; intros t; [done|]. rewrite zrep_up. apply IH.
Qed.

Lemma wp_tree_fuel Q w : Q (2 * base.size (heap w) + 2)%nat w → wp tree_fuel Q w.
Proof. intros HQ. unfold tree_fuel. by wp_steps. Qed.

Lemma fixing_red_parent bal es d p s k t :
  fixing bal es (Fr d RB_RED p s :: k) t → ∃ d2 g u k', k = Fr d2 RB_BLACK g u :: k'.
Proof.
  intros Hfx. destruct k as [|[d2 c2 g u] k']; [by destruct Hfx|].
  destruct (fixing_grandparent _ _ _ _ _ _ _ _ Hfx) as (E & _). simpl in E. subst c2. eauto.
Qed.

Lemma wp_paint_root F t Q w :
  t ≠ E → zrep B F [] t w → (∀ w', zrep B F [] (paint RB_BLACK t) w' → Q tt w') →
  wp (t <- deref ;; set_color (root t) RB_BLACK) Q w.
Proof.
  intros Ht Hz HQ. wp_step. eapply wp_deref; [by eapply zrep_deref|].
  destruct t as [|c l e r]; [done|]. eapply (wp_set_color F [] L); [exact Hz|exact HQ].
Qed.

Lemma wp_fixup_finish F bal es k t Q w :
  fixing bal es k t → match k with [] => True | f :: _ => fc f = RB_BLACK end →
  zrep B F k t w →
  (∀ t' w', nrr t' → tcolor t' = RB_BLACK → entries t' = es → (bal → ∃ n, bh n t') →
     zrep B F [] t' w' → Q tt w') →
  wp (t <- deref ;; set_color (root t) RB_BLACK) Q w.
Proof.
  intros Hfx Hk Hz HQ. destruct (fixing_done _ _ _ _ Hfx Hk) as (? & ? & ? & ?).
  apply zrep_plug in Hz. eapply wp_paint_root; [|exact Hz|eauto].
  intros E. apply (f_equal entries) in E. rewrite entries_plug in E.
  destruct t; [by destruct Hfx|]. simpl in E. by destruct (before k), (entries t1).
Qed.

Lemma wp_rb_insert_fixup F bal es k t Q w :
  fixing bal es k t → zrep B F k t w →
  (∀ t' w', nrr t' → tcolor t' = RB_BLACK → entries t' = es → (bal → ∃ n, bh n t') →
     zrep B F [] t' w' → Q tt w') →
  wp (rb_insert_fixup (ptr t)) Q w.
Proof.
  intros Hfx Hz HQ. unfold rb_insert_fixup. wp_step. apply wp_tree_fuel. wp_step.
  pose proof (zrep_fits _ _ _ _ Hz) as Hfit.
  apply (wp_loop_ghost (λ '(k, t) z w, z = ptr t ∧ fixing bal es k t ∧ zrep B F k t w)
     (λ '(k, _), length k) _ _ _ (k, t)); [done|lia|].
  clear dependent k t w. intros [k t] z w (-> & Hfx & Hz).
  assert (t ≠ E) as Ht by (intros ->; by destruct Hfx).
  wp_step. eapply wp_parent_ptr; [done|exact Hz|].
  destruct k as [|[d1 c1 p s] k].
  { change (is_red (cpar [])) with (mret false : M tworld bool). do 3 wp_step.
    eapply (wp_fixup_finish _ _ _ []); [exact Hfx|done|exact Hz|exact HQ]. }
  cbn [cpar fe]. pose proof (zrep_close _ _ _ _ _ _ _ _ Hz) as Hzp.
  rewrite <- (ptr_mk d1 c1 t p s).
  wp_step. eapply wp_is_red; [exact Hzp|]. rewrite tcolor_mk, ptr_mk. case_bool_decide as Hc.
  2: { wp_step. eapply wp_fixup_finish; [exact Hfx|by destruct c1|exact Hz|exact HQ]. }
  subst c1. destruct (fixing_red_parent _ _ _ _ _ _ _ Hfx) as (d2 & g & u & k' & ->).
  pose proof (zrep_close _ _ _ _ _ _ _ _ Hzp) as Hzg.
  wp_step. eapply wp_parent_of; [exact Hzp|]. cbn [cpar fe].
  wp_step. eapply (wp_child_at L); [by eapply zrep_node|].
  assert ((if addr p =? child L (nd d2 g (ptr (mk d1 RB_RED t p s)) (ptr u) (cpar k') RB_BLACK)
           then L else R) = d2) as ->.
  { destruct d2; simpl; [by rewrite ptr_mk, Z.eqb_refl|].
    pose proof (zrep_sibling _ _ _ _ _ _ _ _ Hzp) as Hne. rewrite ptr_mk in Hne.
    rewrite (proj2 (Z.eqb_neq _ _)); [done|]. apply Hne. by destruct d1. }
  wp_step. eapply wp_fixup_side; [exact Hfx|exact Hz|]. intros k2 t2 w2 Hfx2 Hz2 Hlt. wp_step.
  exists (k2, t2). split_and!; [done..|]. simpl. lia.
Qed.
End insert.
End TreeInsert.
