(* ===== verification/TreeFind.v ===== *)
(** * Keys in order: dictionaries, and the search of a red-black tree *)
From S2P Require Import Prelude World HashMap HashMapProofs TreeMap RBTree TreeHeap TreeInsert.

Module TreeFind.
Import TreeMap RBTree TreeHeap TreeRotate TreeInsert.
Import HashMapProofs(cstring).

(** What [rb_compare] computes on two strings. *)
Definition keycmp (cf : option cobalt_compare_func) (a b : list Z) : Z :=
  match cf with Some f => f a b | None => HashMap.strcmp a b end.

(** A comparator orders the C strings. *)
Class KeyOrder (cmp : list Z → list Z → Z) : Prop := {
  ko_sym a b : cstring a → cstring b → 0 < cmp a b ↔ cmp b a < 0;
  ko_trans a b c : cstring a → cstring b → cstring c → cmp a b ≤ 0 → cmp b c ≤ 0 → cmp a c ≤ 0
}.

(** ** Dictionaries: association lists in strict key order *)

Section dict.
Variable cmp : list Z → list Z → Z.
Abbreviation dict := (list (list Z * Z)).

Fixpoint dict_get (k : list Z) (d : dict) : option Z :=
  match d with
  | [] => None
  | (k', v') :: d => if cmp k k' =? 0 then Some v' else dict_get k d
  end.

Fixpoint dict_put (k : list Z) (v : Z) (d : dict) : dict :=
  match d with
  | [] => [(k, v)]
  | (k', v') :: d' =>
      if cmp k k' <? 0 then (k, v) :: d
      else if 0 <? cmp k k' then (k', v') :: dict_put k v d'
      else (k', v) :: d'
  end.

Definition dict_remove (k : list Z) (d : dict) : dict := filter (λ kv, cmp k kv.1 ≠ 0) d.

(** The keys before the place of [k], and the ones after it. *)
Abbreviation below k := (Forall (λ kv : list Z * Z, 0 < cmp k kv.1)).
Abbreviation above k := (Forall (λ kv : list Z * Z, cmp k kv.1 < 0)).

Lemma dict_get_miss k d1 d2 : below k d1 → above k d2 → dict_get k (d1 ++ d2) = None.
Proof.
  intros H1 H2. induction H1 as [|[k' v'] d1 H _ IH]; simpl in *.
  - induction H2 as [|[k' v'] d2 H _ IH]; simpl in *; [done|].
    by rewrite (proj2 (Z.eqb_neq _ _)) by lia.
  - by rewrite (proj2 (Z.eqb_neq _ _)) by lia.
Qed.

Lemma dict_get_hit k d1 k' v d2 :
  below k d1 → cmp k k' = 0 → dict_get k (d1 ++ (k', v) :: d2) = Some v.
Proof.
  intros H1 E. induction H1 as [|[k1 v1] d1 H _ IH]; simpl in *.
  - by rewrite E.
  - by rewrite (proj2 (Z.eqb_neq _ _)) by lia.
Qed.

Lemma dict_put_miss k v d1 d2 :
  below k d1 → above k d2 → dict_put k v (d1 ++ d2) = d1 ++ (k, v) :: d2.
Proof.
  intros H1 H2. induction H1 as [|[k1 v1] d1 H _ IH]; simpl in *.
  - destruct H2 as [|[k2 v2] d2 H _]; simpl in *; [done|].
    by rewrite (proj2 (Z.ltb_lt _ _)) by lia.
  - rewrite (proj2 (Z.ltb_ge _ _)), (proj2 (Z.ltb_lt _ _)) by lia. by rewrite IH.
Qed.

Lemma dict_put_hit k v d1 k' v' d2 :
  below k d1 → cmp k k' = 0 → dict_put k v (d1 ++ (k', v') :: d2) = d1 ++ (k', v) :: d2.
Proof.
  intros H1 E. induction H1 as [|[k1 v1] d1 H _ IH]; simpl in *.
  - by rewrite E.
  - rewrite (proj2 (Z.ltb_ge _ _)), (proj2 (Z.ltb_lt _ _)) by lia. by rewrite IH.
Qed.

Lemma dict_remove_hit k d1 k' v d2 :
  below k d1 → cmp k k' = 0 → above k d2 → dict_remove k (d1 ++ (k', v) :: d2) = d1 ++ d2.
Proof.
  intros H1 E H2. unfold dict_remove. rewrite filter_app, filter_cons_False by (simpl; tauto).
  rewrite !filter_id; [done| |].
  - eapply Forall_impl; [exact H2|]. simpl. lia.
  - eapply Forall_impl; [exact H1|]. simpl. lia.
Qed.

Lemma dict_remove_miss k d1 d2 : below k d1 → above k d2 → dict_remove k (d1 ++ d2) = d1 ++ d2.
Proof.
  intros H1 H2. apply filter_id, Forall_app. split.
  - eapply Forall_impl; [exact H1|]. simpl. lia.
  - eapply Forall_impl; [exact H2|]. simpl. lia.
Qed.
End dict.

(** ** The search path *)

Section order.
Context (cmp : list Z → list Z → Z) `{!KeyOrder cmp}.
Implicit Types (es : list entry) (k : ctx).

Definition keys_ok es : Prop := Forall (λ e, cstring (kstr e)) es.
Definition lt_entry (a b : entry) : Prop := cmp (kstr a) (kstr b) < 0.
Abbreviation ordered := (StronglySorted lt_entry).

Lemma cmp_lt_trans a b c :
  cstring a → cstring b → cstring c → cmp a b ≤ 0 → cmp b c < 0 → cmp a c < 0.
Proof.
  intros Ha Hb Hc H1 H2. destruct (Z.lt_ge_cases (cmp a c) 0) as [|Hge]; [done|].
  assert (cmp c a ≤ 0) as Hca.
  { destruct (Z.le_gt_cases (cmp c a) 0) as [|Hgt]; [done|]. apply ko_sym in Hgt; [lia|done..]. }
  assert (cmp c b ≤ 0) as Hcb by (by apply (ko_trans c a b)). apply ko_sym in H2; [lia|done..].
Qed.

Lemma cmp_gt_trans a b c :
  cstring a → cstring b → cstring c → 0 ≤ cmp a b → cmp c b < 0 → 0 < cmp a c.
Proof.
  intros Ha Hb Hc H1 H2. apply ko_sym; [done..|].
  assert (cmp b a ≤ 0) as Hba.
  { destruct (Z.le_gt_cases (cmp b a) 0) as [|Hgt]; [done|]. apply ko_sym in Hgt; [lia|done..]. }
  destruct (Z.lt_ge_cases (cmp c a) 0) as [|Hge]; [done|].
  assert (cmp a c ≤ 0) as Hac.
  { destruct (Z.le_gt_cases (cmp a c) 0) as [|Hgt]; [done|]. apply ko_sym in Hgt; [lia|done..]. }
  assert (cmp b c ≤ 0) as Hbc by (by apply (ko_trans b a c)). apply ko_sym in H2; [lia|done..].
Qed.

(** The keys before a hole are below [s], the ones after it above. *)
Definition path_ok (s : list Z) (k : ctx) : Prop :=
  Forall (λ e, 0 < cmp s (kstr e)) (before k) ∧ Forall (λ e, cmp s (kstr e) < 0) (after k).

Lemma ordered_around es1 e es2 s :
  ordered (es1 ++ e :: es2) → keys_ok (es1 ++ e :: es2) → cstring s →
  (0 ≤ cmp s (kstr e) → Forall (λ e, 0 < cmp s (kstr e)) es1) ∧
  (cmp s (kstr e) ≤ 0 → Forall (λ e, cmp s (kstr e) < 0) es2).
Proof.
  intros Hord Hok Hs. apply StronglySorted_app in Hord as (H1 & _ & H3).
  apply Forall_app in Hok as (K1 & [Ke K2]%Forall_cons). split; intros Hc.
  - apply Forall_forall. intros e' He'. apply cmp_gt_trans with (kstr e); try done.
    + by apply (proj1 (Forall_forall _ _) K1).
    + apply H1; [done|set_solver].
  - apply StronglySorted_inv in H3 as [_ H3]. apply Forall_forall. intros e' He'.
    apply cmp_lt_trans with (kstr e); try done.
    + by apply (proj1 (Forall_forall _ _) K2).
    + by apply (proj1 (Forall_forall _ _) H3).
Qed.

(** One step down the search path. *)
Lemma path_down s k c l e r :
  ordered (entries (plug k (T c l e r))) → keys_ok (entries (plug k (T c l e r))) → cstring s →
  path_ok s k →
  (cmp s (kstr e) < 0 → path_ok s (Fr L c e r :: k)) ∧
  (0 < cmp s (kstr e) → path_ok s (Fr R c e l :: k)).
Proof.
  intros Hord Hok Hs [Hb Ha]. rewrite entries_plug in Hord, Hok. simpl in Hord, Hok.
  rewrite <- app_assoc, app_assoc in Hord, Hok. simpl in Hord, Hok.
  destruct (ordered_around _ _ _ s Hord Hok Hs) as [H1 H2]. unfold path_ok. simpl. split; intros Hc.
  - rewrite app_nil_r. split; [done|]. constructor; [done|]. by apply H2; lia.
  - split; [|done]. rewrite Forall_app in H1. apply Forall_app. split; [done|].
    apply Forall_app. split; [by apply H1; lia|]. by constructor.
Qed.

(** A key that compares equal is alone. *)
Lemma path_hit s k c l e r :
  ordered (entries (plug k (T c l e r))) → keys_ok (entries (plug k (T c l e r))) → cstring s →
  cmp s (kstr e) = 0 →
  Forall (λ e, 0 < cmp s (kstr e)) (before k ++ entries l) ∧
  Forall (λ e, cmp s (kstr e) < 0) (entries r ++ after k).
Proof.
  intros Hord Hok Hs Hc. rewrite entries_plug in Hord, Hok. simpl in Hord, Hok.
  rewrite <- app_assoc, app_assoc in Hord, Hok. simpl in Hord, Hok.
  destruct (ordered_around _ _ _ s Hord Hok Hs) as [H1 H2]. split; [apply H1|apply H2]; lia.
Qed.
End order.

(** ** The search in the heap *)

Section find.
Context {B : base}.
Abbreviation cmp := (keycmp (b_cmp B)).
Context `{!KeyOrder cmp}.
Implicit Types (t : tree) (k : ctx) (e : entry) (F : gmap Z cell) (w : tworld).

(** The frame holds the key strings. *)
Definition keys_in F (es : list entry) : Prop :=
  Forall (λ e, F !! kptr e = Some (CStr (kstr e))) es.

Lemma wp_load_str p s Q w : heap w !! p = Some (CStr s) → Q s w → wp (load_str p) Q w.
Proof. intros Hp HQ. unfold load_str. wp_step. eapply wp_load; [done|]. by wp_steps. Qed.

Lemma wp_rb_compare F k t a x b y Q w :
  zrep B F k t w → F !! a = Some (CStr x) → F !! b = Some (CStr y) → Q (cmp x y) w →
  wp (rb_compare a b) Q w.
Proof.
  intros Hz Ha Hb HQ. unfold rb_compare. wp_step. eapply wp_deref; [by eapply zrep_deref|].
  wp_step. eapply wp_load_str; [by eapply zrep_frame|].
  wp_step. eapply wp_load_str; [by eapply zrep_frame|]. wp_steps. exact HQ.
Qed.

Lemma wp_key_of F k d c a e b Q w :
  zrep B F k (mk d c a e b) w → Q (kptr e) w → wp (key_of (addr e)) Q w.
Proof.
  intros Hz HQ. unfold key_of. wp_step. eapply wp_load_node; [by eapply zrep_node|].
  wp_step. by rewrite key_nd.
Qed.

(** One comparison with the node at the focus. *)
Lemma wp_compare_focus F k c l e r p s Q w :
  zrep B F k (T c l e r) w → F !! p = Some (CStr s) → F !! kptr e = Some (CStr (kstr e)) →
  Q (cmp s (kstr e)) w → wp (kn <- key_of (addr e) ;; rb_compare p kn) Q w.
Proof.
  intros Hz Hp He HQ. wp_step. eapply (wp_key_of F k L); [exact Hz|]. by eapply wp_rb_compare.
Qed.

Lemma wp_rb_find F t p s Q w :
  zrep B F [] t w → StronglySorted (lt_entry cmp) (entries t) → keys_ok (entries t) → keys_in F (entries t) →
  F !! p = Some (CStr s) → cstring s →
  (∀ k c l e r, plug k (T c l e r) = t → cmp s (kstr e) = 0 → Q (addr e) w) →
  (∀ k, plug k E = t → path_ok cmp s k → Q NULL w) →
  wp (rb_find (ptr t) p) Q w.
Proof.
  intros Hz Hord Hok Hin Hp Hs Hhit Hmiss. unfold rb_find. wp_step. apply wp_tree_fuel.
  pose proof (zrep_fits _ _ _ _ Hz) as Hfit. simpl in Hfit.
  apply (wp_loop_ghost (λ '(k, t') z w', w' = w ∧ z = ptr t' ∧ plug k t' = t ∧ path_ok cmp s k)
     (λ '(_, t'), card t') _ _ _ ([], t)); [done| |]; [simpl; lia|].
  intros [k t'] z w' (-> & -> & Hpl & Hpath). destruct t' as [|c l e r].
  { change (ptr E =? NULL) with true. wp_step. by eapply Hmiss. }
  pose proof Hz as Hz'. rewrite <- Hpl in Hz'. apply zrep_plug in Hz'. cbn [ptr].
  pose proof (zrep_nonnull F k L c l e r w Hz') as Hn. rewrite (proj2 (Z.eqb_neq _ _) Hn).
  assert (e ∈ entries t) as Hel by (rewrite <- Hpl, entries_plug; simpl; set_solver).
  pose proof (proj1 (Forall_forall _ _) Hin e Hel) as Hke.
  rewrite <- Hpl in Hord, Hok. destruct (path_down cmp s k c l e r) as [Hl Hr]; try done.
  wp_step. eapply (wp_key_of F k L); [exact Hz'|]. wp_step. eapply wp_rb_compare; [exact Hz'|exact Hp|exact Hke|].
  destruct (Z.ltb_spec (cmp s (kstr e)) 0) as [Hlt|Hge].
  { wp_step. eapply (wp_child_of F k L); [exact Hz'|]. wp_step.
    exists (Fr L c e r :: k, l). split_and!; [done..|by apply Hl|simpl; lia]. }
  destruct (Z.ltb_spec 0 (cmp s (kstr e))) as [Hgt|Hle].
  { wp_step. eapply (wp_child_of F k R); [exact Hz'|]. wp_step.
    exists (Fr R c e l :: k, r). split_and!; [done..|by apply Hr|simpl; lia]. }
  wp_step. eapply Hhit; [exact Hpl|lia].
Qed.
End find.
End TreeFind.
