(* ===== verification/TreePut.v ===== *)
(** * Insertion of a key into the tree map *)
From S2P Require Import Prelude World HashMap HashMapProofs TreeMap RBTree TreeHeap.
From S2P Require Import TreeInsert TreeFind.

Module TreePut.
Import TreeMap RBTree TreeHeap TreeRotate TreeInsert TreeFind.
Import HashMapProofs(cstring).

Section put.
Context {B : base}.
Abbreviation cmp := (keycmp (b_cmp B)).
Context `{!KeyOrder cmp}.
Implicit Types (t : tree) (k : ctx) (e : entry) (F : gmap Z cell) (w : tworld).

Definition fresh_node (kp v : Z) : treemap_node := TNode kp v NULL NULL NULL RB_RED true.

Lemma attach_leaf F h k z kp ks v :
  zheap (<[z := CNode (with_parent (fresh_node kp v) (cpar k))]> F) h k E →
  F !! z = None → z ≠ NULL →
  zheap F (fill k z h) k (T RB_RED E (Entry z kp ks v true) E).
Proof.
  intros Hz HFz Hn.
  assert (z ∉ caddrs k) as Hzk.
  { intros Hq. destruct (zh_own _ _ _ _ Hz z) as [_ Hq']; [set_solver|]. by rewrite lookup_insert_eq in Hq'. }
  assert (∀ q, q ≠ z → q ∉ caddrs k → h !! q = F !! q) as Hout.
  { intros q Hqz Hqk. rewrite (zh_frame _ _ _ _ Hz), lookup_insert_ne; [done|done|].
    unfold addrs. simpl. by rewrite app_nil_r. }
  eapply (zheap_attach _ _ _ _ _ _ (T RB_RED E (Entry z kp ks v true) E)); [exact Hz| | | | |].
  - intros q Hq. split; [done|]. destruct (zh_own _ _ _ _ Hz q) as [_ Hq']; [set_solver|].
    by rewrite lookup_insert_ne in Hq' by congruence.
  - simpl. split; [|done]. rewrite (zh_frame _ _ _ _ Hz); [by rewrite lookup_insert_eq|].
    unfold addrs. simpl. by rewrite app_nil_r.
  - apply NoDup_singleton.
  - by intros q ->%list_elem_of_singleton.
  - intros q Hqk Hq. apply Hout; [|done]. intros ->. apply Hq. by apply list_elem_of_singleton.
Qed.

Lemma wp_link_leaf F k z kp ks v Q w :
  zrep B (<[z := CNode (fresh_node kp v)]> F) k E w → F !! z = None → z ≠ NULL →
  F !! kp = Some (CStr ks) → keys_in F (before k ++ after k) → path_ok cmp ks k →
  (∀ w', zrep B F k (T RB_RED E (Entry z kp ks v true) E) w' → Q tt w') →
  wp (link_leaf z (cpar k)) Q w.
Proof.
  intros Hz HFz Hn Hkp Hin [Hb Ha] HQ. unfold link_leaf. wp_step.
  eapply wp_update_frame; [exact Hz|apply lookup_insert_eq|]. rewrite insert_insert_eq.
  clear w Hz. intros w Hz. destruct (id Hz) as (h & Ew & Hh).
  pose proof (attach_leaf F h k z kp ks v Hh HFz Hn) as Hnew.
  destruct k as [|[d c e s] k].
  - change (cpar [] =? NULL) with true. unfold set_root. rewrite Ew. wp_steps. apply HQ. by exists h.
  - cbn [cpar fe] in *. assert (z ≠ kp) as Hzk by congruence.
    pose proof (zrep_close _ _ _ _ _ _ _ _ Hz) as Hz'.
    pose proof (zrep_nonnull _ _ _ _ _ _ _ _ Hz') as Hne. rewrite (proj2 (Z.eqb_neq _ _) Hne).
    assert (F !! kptr e = Some (CStr (kstr e))) as Hke.
    { apply (proj1 (Forall_forall _ _) Hin). simpl. destruct d; set_solver. }
    wp_step. unfold key_of at 1. wp_step.
    eapply wp_load_node; [eapply zrep_frame; [exact Hz|apply lookup_insert_eq]|]. wp_step.
    wp_step. eapply wp_key_of; [exact Hz'|].
    wp_step. eapply wp_rb_compare; [exact Hz| | |].
    { by rewrite lookup_insert_ne. } { rewrite lookup_insert_ne; [exact Hke|congruence]. }
    assert ((keycmp (b_cmp B) ks (kstr e) <? 0) = match d with L => true | R => false end) as ->.
    { destruct d; simpl in Ha, Hb.
      - apply Forall_cons in Ha as [Ha _]. by apply Z.ltb_lt.
      - rewrite !Forall_app, Forall_cons in Hb. apply Z.ltb_ge. lia. }
    pose proof (zrep_node _ _ _ _ _ _ _ _ Hz') as Hcell. rewrite Ew in Hcell |- *. simpl in Hcell.
    replace (if match d with L => true | R => false end then set_child L (addr e) z else set_child R (addr e) z)
      with (set_child d (addr e) z) by (by destruct d).
    eapply wp_update; [exact Hcell|]. rewrite with_child_nd. apply HQ. eexists. split; [|exact Hnew].
    done.
Qed.

(** The search of [rb_insert] ends at the place of the new key. *)
Lemma wp_insert_path F t z kp ks v fuel Q w :
  (card t < fuel)%nat →
  zrep B (<[z := CNode (fresh_node kp v)]> F) [] t w → F !! z = None →
  StronglySorted (lt_entry cmp) (entries t) → keys_ok (entries t) → keys_in F (entries t) →
  F !! kp = Some (CStr ks) → cstring ks → Forall (λ e, cmp ks (kstr e) ≠ 0) (entries t) →
  (∀ k, plug k E = t → path_ok cmp ks k → Q (Some (cpar k)) w) →
  wp (loop fuel (λ '(x, y),
        if x =? NULL then mret (inr (Some y))
        else
          kz <- key_of z ;; kx <- key_of x ;;
          cmp <- rb_compare kz kx ;;
          if cmp <? 0 then l <- child_of L x ;; mret (inl (l, x))
          else if 0 <? cmp then r <- child_of R x ;; mret (inl (r, x))
          else
            n <- load_node z ;; set_value x (value n) ;;; rb_node_free z ;;; mret (inr None))
        (ptr t, NULL)) Q w.
Proof.
  intros Hfuel Hz HFz Hord Hok Hin Hkp Hks Hne HQ.
  apply (wp_loop_ghost (λ '(k, t') '(x, y) w',
       w' = w ∧ x = ptr t' ∧ y = cpar k ∧ plug k t' = t ∧ path_ok cmp ks k)
     (λ '(_, t'), card t') _ _ _ ([], t)); [done|done|].
  intros [k t'] [x y] w' (-> & -> & -> & Hpl & Hpath). destruct t' as [|c l e r].
  { change (ptr E =? NULL) with true. wp_step. by apply HQ. }
  pose proof Hz as Hz'. rewrite <- Hpl in Hz'. apply zrep_plug in Hz'. cbn [ptr].
  pose proof (zrep_nonnull _ k L c l e r w Hz') as Hn. rewrite (proj2 (Z.eqb_neq _ _) Hn).
  assert (e ∈ entries t) as Hel by (rewrite <- Hpl, entries_plug; simpl; set_solver).
  pose proof (proj1 (Forall_forall _ _) Hin e Hel) as Hke. simpl in Hke.
  pose proof (proj1 (Forall_forall _ _) Hne e Hel) as Hnee. simpl in Hnee.
  rewrite <- Hpl in Hord, Hok. destruct (path_down cmp ks k c l e r) as [Hl Hr]; [done..|].
  wp_step. unfold key_of at 1. wp_step.
  eapply wp_load_node; [eapply zrep_frame; [exact Hz'|apply lookup_insert_eq]|]. wp_step.
  wp_step. eapply (wp_key_of _ k L); [exact Hz'|].
  wp_step. eapply wp_rb_compare; [exact Hz'| | |].
  { simpl. rewrite lookup_insert_ne; [exact Hkp|congruence]. }
  { rewrite lookup_insert_ne; [exact Hke|congruence]. }
  destruct (Z.ltb_spec (cmp ks (kstr e)) 0) as [Hlt|Hge].
  { wp_step. eapply (wp_child_of _ k L); [exact Hz'|]. wp_step.
    exists (Fr L c e r :: k, l). split_and!; [done..|by apply Hl|simpl; lia]. }
  rewrite (proj2 (Z.ltb_lt _ _)) by lia.
  wp_step. eapply (wp_child_of _ k R); [exact Hz'|]. wp_step.
  exists (Fr R c e l :: k, r). split_and!; [done..|apply Hr; lia|simpl; lia].
Qed.

Definition bsize (n : Z) : base :=
  Base n (b_cmp B) (b_brk B) (b_oracle B) (b_allocs B) (b_error B).

Lemma wp_tree_set_size F k t n Q w :
  zrep B F k t w → (∀ w', zrep (bsize n) F k t w' → Q tt w') → wp (set_size n) Q w.
Proof.
  intros (h & -> & Hz) HQ. unfold set_size. wp_steps. apply HQ. by exists h.
Qed.

Lemma fixing_leaf (bal : Prop) k e :
  nrr (plug k E) → tcolor (plug k E) = RB_BLACK → (bal → ∃ n, bh n (plug k E)) →
  fixing bal (before k ++ e :: after k) k (T RB_RED E e E).
Proof.
  intros Hn Hc Hb. apply nrr_unplug in Hn as [_ Hk]. rewrite tcolor_root in Hc. split; try done.
  - by rewrite entries_plug.
  - intros (n & (m & Hm & Hk')%bh_unplug)%Hb. simpl in Hm. subst m. by exists 0%nat, n.
Qed.

Lemma wp_rb_insert F (bal : Prop) t z kp ks v Q w :
  zrep B (<[z := CNode (fresh_node kp v)]> F) [] t w → F !! z = None → z ≠ NULL →
  StronglySorted (lt_entry cmp) (entries t) → keys_ok (entries t) → keys_in F (entries t) →
  F !! kp = Some (CStr ks) → cstring ks → Forall (λ e, cmp ks (kstr e) ≠ 0) (entries t) →
  nrr t → tcolor t = RB_BLACK → (bal → ∃ n, bh n t) →
  (∀ t' w' es1 es2, entries t = es1 ++ es2 → entries t' = es1 ++ Entry z kp ks v true :: es2 →
     Forall (λ e, 0 < cmp ks (kstr e)) es1 → Forall (λ e, cmp ks (kstr e) < 0) es2 →
     nrr t' → tcolor t' = RB_BLACK → (bal → ∃ n, bh n t') →
     zrep (bsize (wrap64 (b_size B + 1))) F [] t' w' → Q tt w') →
  wp (rb_insert z) Q w.
Proof.
  intros Hz HFz Hnz Hord Hok Hin Hkp Hks Hne Hnrr Hbl Hbal HQ. unfold rb_insert.
  wp_step. eapply wp_deref; [by eapply zrep_deref|]. simpl.
  wp_step. apply wp_tree_fuel. pose proof (zrep_fits _ _ _ _ Hz) as Hfit. simpl in Hfit. wp_step.
  eapply wp_insert_path; [lia|exact Hz|done..|]. intros k <- Hpath. wp_step.
  apply zrep_plug in Hz. rewrite entries_plug in *. simpl in *.
  eapply wp_link_leaf; [exact Hz|done..|]. clear w Hz Hfit. intros w Hz.
  wp_step. eapply (wp_rb_insert_fixup F bal _ k (T RB_RED E (Entry z kp ks v true) E));
    [by apply fixing_leaf|exact Hz|].
  clear w Hz. intros t' w Hn' Hb' He' Hbal' Hz.
  wp_step. eapply wp_deref; [by eapply zrep_deref|]. eapply wp_tree_set_size; [exact Hz|].
  intros w' Hz'. destruct Hpath. by eapply HQ.
Qed.
End put.
End TreePut.
