(* ===== verification/TreeDelete.v ===== *)
(** * Unlinking a node of a red-black tree *)
From S2P Require Import Prelude World TreeMap RBTree TreeHeap TreeInsert.

Module TreeDelete.
Import TreeMap RBTree TreeHeap TreeRotate TreeInsert.

Section delete.
Context {B : base}.
Implicit Types (t l r : tree) (k : ctx) (e z y : entry) (d : side) (h F : gmap Z cell) (w : tworld).

Lemma zheap_top F h k t : zheap F h k t → top_at h k (ptr t).
Proof. intros [Hc _ _ _ _]. destruct k; [done|apply Hc]. Qed.

(** The facts about addresses that a replacement at the focus needs. *)
Lemma focus_addrs F h k d c a e b :
  zheap F h k (mk d c a e b) →
  addr e ≠ NULL ∧ addr e ∉ caddrs k ∧ addr e ≠ cpar k ∧ hole_is k (addr e) ∧
  NoDup (addr e :: addrs a ++ addrs b) ∧
  (∀ q, q ∈ addr e :: addrs a ++ addrs b → q ≠ NULL ∧ q ∉ caddrs k ∧ q ≠ cpar k ∧ F !! q = None).
Proof.
  intros Hz. destruct (id Hz) as [_ _ Hnd Ho _]. destruct (zheap_null _ _ _ _ Hz) as [Hnk Hnt].
  rewrite addrs_mk in Hnd. setoid_rewrite addrs_mk in Ho. rewrite addrs_mk in Hnt.
  apply NoDup_app in Hnd as (_ & Hd & Hnd).
  assert (∀ q, q ∈ addr e :: addrs a ++ addrs b → q ≠ NULL ∧ q ∉ caddrs k ∧ q ≠ cpar k ∧ F !! q = None) as Hall.
  { intros q Hq. destruct (Ho q) as [Hq0 HF]; [apply elem_of_app; by right|].
    assert (q ∉ caddrs k) as Hqk by (intros Hin; by apply (Hd q)). split_and!; [done..| |done].
    intros ->. destruct (cpar_in k) as [E|?]; [|done]. by rewrite E in Hq0. }
  destruct (Hall (addr e)) as (? & ? & ? & ?); [by apply list_elem_of_here|].
  split_and!; try done. by apply hole_is_node.
Qed.

(** [rb_replace] of a node with at most one child by that child. *)
Lemma wp_rb_replace F k d c t z Q w :
  zrep B F k (mk d c t z E) w →
  (∀ w', zrep B (<[addr z := CNode (nd d z (ptr t) NULL (cpar k) c)]> F) k t w' → Q tt w') →
  wp (rb_replace (addr z) (ptr t)) Q w.
Proof.
  intros (h & -> & Hz) HQ. destruct (focus_addrs _ _ _ _ _ _ _ _ Hz) as (Hn & Hzk & Hzp & Hh & Hnd & Hall).
  destruct (id Hz) as [_ Ht _ Ho Hf]. apply tree_at_mk in Ht as (Hcell & Ht & _).
  pose proof (zheap_top _ _ _ _ Hz) as Htop. rewrite ptr_mk in Htop |- *.
  unfold addrs in Hnd, Hall at 2. simpl in Hnd, Hall. rewrite app_nil_r in Hnd, Hall.
  apply NoDup_cons in Hnd as [Hzt Hnt]. change (list_fmap _ _ addr (entries t)) with (addrs t) in *.
  unfold rb_replace. wp_step. eapply wp_parent_at; [exact Hcell|]. rewrite parent_nd.
  wp_step. apply wp_replace_child; [done..|].
  assert (cpar k ∉ addrs t) as Hpt by (intros Hin; destruct (Hall (cpar k)) as (_ & _ & ? & _); [by right|done]).
  cut (wp (if ptr t =? NULL then mret tt else set_parent (ptr t) (cpar k)) Q
         (mkw B (croot k (ptr t)) (fill k (ptr t) h))).
  { destruct (ptr t =? NULL); [done|]. intros Hw. wp_step.
    eapply wp_parent_at; [simpl; rewrite fill_ne by done; exact Hcell|]. by rewrite parent_nd. }
  eapply (wp_reparent t (addr z) (cpar k)); [reflexivity| |intros q Hq; apply Hall; by right|].
  { eapply tree_at_ext; [|exact Ht]. intros q Hq. apply fill_ne. by intros ->. }
  apply HQ. exists (reparent t (cpar k) (fill k (ptr t) h)). split; [reflexivity|]. rewrite <- fill_reparent by done.
  eapply zheap_attach; [exact Hz| | |done| |].
  - intros q Hq. assert (q ≠ addr z) by (by intros ->).
    rewrite lookup_insert_ne by done. split; [|apply Ho; in_list].
    apply reparent_ne. intros Hin. destruct (Hall q) as (_ & ? & _); [by right|done].
  - by eapply tree_at_reparent.
  - intros q Hq. destruct (Hall q) as (? & ? & ? & ?); [by right|].
    split_and!; [done..|]. rewrite lookup_insert_ne; [done|]. by intros <-.
  - intros q Hqk Hqt. rewrite reparent_ne by done. rewrite lookup_insert. case_decide; [by subst|].
    apply Hf. rewrite addrs_mk. simpl. change (addrs E) with (@nil Z). rewrite app_nil_r. by intros [?|[->|?]%elem_of_cons]%elem_of_app.
Qed.

(** ** The successor takes the place of a node *)

Lemma wp_take_place k c l z rp y a rp' p cy h Q :
  h !! addr z = Some (CNode (nd L z (ptr l) rp (cpar k) c)) →
  h !! addr y = Some (CNode (nd L y a rp' p cy)) →
  top_at h k (addr z) → hole_is k (addr z) → tree_at h (addr z) l →
  addr z ≠ addr y → addr y ≠ NULL → cpar k ≠ addr z → cpar k ≠ addr y →
  (∀ q, q ∈ addrs l → q ≠ NULL ∧ q ≠ addr z ∧ q ≠ addr y ∧ q ≠ cpar k) →
  (∀ h', h' !! addr y = Some (CNode (nd L y (ptr l) rp' (cpar k) c)) →
     (∀ q, q ≠ addr y → h' !! q = fill k (addr y) (reparent l (addr y) h) !! q) →
     Q tt (mkw B (croot k (addr y)) h')) →
  wp (take_place (addr z) (addr y)) Q (mkw B (croot k (addr z)) h).
Proof.
  intros Hz Hy Htop Hh Hl Hzy Hyn Hpz Hpy Hln HQ. unfold take_place, rb_replace.
  wp_step. wp_step. eapply wp_parent_at; [exact Hz|]. rewrite parent_nd.
  wp_step. apply wp_replace_child; [done..|]. rewrite (proj2 (Z.eqb_neq _ _) Hyn).
  wp_step. eapply wp_parent_at; [simpl; rewrite fill_ne by done; exact Hz|]. rewrite parent_nd.
  eapply wp_update; [simpl; rewrite fill_ne by done; exact Hy|]. rewrite with_parent_nd.
  wp_step. eapply (wp_child_at L); [simpl; rewrite lookup_insert_ne, fill_ne by done; exact Hz|].
  rewrite (child_nd L). wp_step. eapply wp_update; [apply lookup_insert_eq|].
  rewrite (with_child_nd L). simpl. rewrite insert_insert_eq. wp_step.
  eapply (wp_reparent l (addr z) (addr y)); [reflexivity| |by intros q Hq; apply Hln|].
  { eapply tree_at_ext; [|exact Hl]. intros q Hq. apply Hln in Hq as (? & ? & ? & ?). simpl.
    by rewrite lookup_insert_ne, fill_ne by done. }
  simpl. assert (addr z ∉ addrs l ∧ addr y ∉ addrs l ∧ cpar k ∉ addrs l) as (Hzl & Hyl & Hpl).
  { split_and!; intros Hin; apply Hln in Hin; naive_solver. }
  wp_step. eapply wp_color_at.
  { simpl. rewrite reparent_ne, lookup_insert_ne, fill_ne by done. exact Hz. }
  rewrite color_nd. eapply wp_update.
  { simpl. rewrite reparent_ne by done. apply lookup_insert_eq. }
  apply HQ; [apply lookup_insert_eq|]. intros q Hq. simpl.
  rewrite lookup_insert_ne by done. rewrite fill_reparent by done. apply reparent_ext.
  by rewrite lookup_insert_ne by done.
Qed.

Lemma addrs_T c l e r : addrs (T c l e r) ≡ₚ addr e :: addrs l ++ addrs r.
Proof. apply (addrs_mk L). Qed.

(** The same, on trees: [h0] is a heap with the tree before, [h] the heap when
    the successor [y] is ready to take the place of [z]. *)
Lemma wp_take_place_tree F0 F' h0 h k c l z r0 rp y a r' p cy Q :
  zheap F0 h0 k (T c l z r0) → (∀ q, q ∈ caddrs k → h !! q = h0 !! q ∧ F' !! q = None) →
  h !! addr z = Some (CNode (nd L z (ptr l) rp (cpar k) c)) → tree_at h (addr z) l →
  h !! addr y = Some (CNode (nd L y a (ptr r') p cy)) → tree_at h (addr y) r' →
  NoDup (addr y :: addrs l ++ addrs r') →
  (∀ q, q ∈ addr y :: addrs l ++ addrs r' → q ≠ NULL ∧ q ∉ caddrs k ∧ q ≠ addr z ∧ F' !! q = None) →
  (∀ q, q ∉ caddrs k → q ∉ addr y :: addrs l ++ addrs r' → h !! q = F' !! q) →
  (∀ w', zrep B F' k (T c l y r') w' → Q tt w') →
  wp (take_place (addr z) (addr y)) Q (mkw B (croot k (addr z)) h).
Proof.
  intros H0 Hk Hz Hl Hy Hr' Hnd Hall Hf HQ.
  destruct (focus_addrs _ _ k L _ _ _ _ H0) as (Hzn & Hzk & Hzp & Hh & _ & _).
  assert (∀ q, q ∈ addr y :: addrs l ++ addrs r' → q ≠ cpar k) as Hpk.
  { intros q Hq ->. apply Hall in Hq as (Hq & Hqk & _). by destruct (cpar_in k). }
  assert (h !! cpar k = h0 !! cpar k ∨ k = []) as Hpar.
  { destruct k as [|f k]; [by right|]. left. apply Hk. rewrite caddrs_cons. simpl. set_solver. }
  destruct (Hall (addr y)) as (Hyn & Hyk & Hyz & HFy); [by apply list_elem_of_here|].
  apply NoDup_cons in Hnd as [Hyl Hnd]. rewrite not_elem_of_app in Hyl. destruct Hyl as [Hyl Hyr].
  eapply (wp_take_place k c l z rp y a (ptr r') p cy h); try done.
  - destruct Hpar as [Hpar| ->]; [|done]. eapply top_at_ext; [exact Hpar|]. by apply (zheap_top _ _ _ _ H0).
  - apply not_eq_sym, Hpk. by apply list_elem_of_here.
  - intros q Hq. assert (q ∈ addr y :: addrs l ++ addrs r') as Hin by in_list.
    pose proof (Hpk q Hin). apply Hall in Hin as (? & ? & ? & ?). split_and!; try done. by intros ->.
  - intros h' Hy' Hq'. apply HQ. exists h'. split; [done|].
    apply NoDup_app in Hnd as (Hndl & Hlr & Hndr).
    assert (∀ q, q ≠ addr y → q ≠ cpar k → h' !! q = reparent l (addr y) h !! q) as Hne.
    { intros q Hq Hqp. by rewrite Hq', fill_ne by done. }
    eapply zheap_swap; [exact H0| | | | | |].
    + intros q Hq. split; [by apply Hk|]. intros Hqp.
      rewrite Hne; [|by intros ->|done]. rewrite reparent_ne; [by apply Hk|].
      intros Hin. destruct (Hall q) as (_ & ? & _); [in_list|done].
    + eapply top_at_ext; [|apply (fill_top k (addr y) (reparent l (addr y) h))].
      apply Hq'. apply not_eq_sym, Hpk. by apply list_elem_of_here.
    + split_and!; [done| |].
      * eapply tree_at_ext; [|by eapply tree_at_reparent]. intros q Hq.
        apply Hne; [by intros ->|apply Hpk; in_list].
      * eapply tree_at_ext; [|exact Hr']. intros q Hq. rewrite Hne; [|by intros ->|apply Hpk; in_list].
        apply reparent_ne. intros Hq2. by apply (Hlr q).
    + rewrite addrs_T. apply NoDup_cons. split; [by apply not_elem_of_app|]. by apply NoDup_app.
    + intros q. rewrite addrs_T. intros Hq. apply Hall in Hq as (? & ? & _ & ?). done.
    + intros q Hqk. rewrite addrs_T. intros Hqt. rewrite <- Hf by done.
      destruct (decide (q = cpar k)) as [->|Hqp].
      * destruct (cpar_in k) as [E|?]; [|done]. destruct k as [|f k]; [|by destruct Hh].
        rewrite Hq' by in_list. simpl. apply reparent_ne. in_list.
      * rewrite Hne; [|by intros ->; apply Hqt, list_elem_of_here|done]. apply reparent_ne. in_list.
Qed.

(** ** The successor *)

Lemma leftmost_ctx t : t ≠ E → ∃ ky cy y yr,
  t = plug ky (T cy E y yr) ∧ Forall (λ f, hole f = L) ky ∧ (length ky < card t)%nat.
Proof.
  induction t as [|c l IHl e r _]; [done|]. intros _. destruct l as [|c' l' e' r'].
  - exists [], c, e, r. simpl. split_and!; [done..|lia].
  - destruct IHl as (ky & cy & y & yr & E & HL & Hlen); [done|].
    exists (ky ++ [Fr L c e r]), cy, y, yr. split_and!.
    + rewrite plug_app, <- E. done.
    + apply Forall_app. split; [done|]. by repeat constructor.
    + rewrite length_app. cbn [card length] in *. lia.
Qed.

(** The walk to the leftmost node, by the zipper of where it ends. *)
Lemma wp_leftmost F k ky cy y yr Q w :
  zrep B F (ky ++ k) (T cy E y yr) w → Forall (λ f, hole f = L) ky → Q (addr y) w →
  wp (leftmost (ptr (plug ky (T cy E y yr)))) Q w.
Proof.
  intros Hz HL HQ. unfold leftmost. wp_step. apply wp_tree_fuel.
  assert (length ky ≤ base.size (heap w))%nat as Hlen.
  { apply zrep_fits in Hz. rewrite length_app in Hz. lia. }
  apply (wp_loop_ghost (λ '(k1, k2) p w', w' = w ∧ ky = k2 ++ k1 ∧ p = ptr (plug k2 (T cy E y yr)))
     (λ '(k1, k2), length k2) _ _ _ ([], ky)); [by rewrite app_nil_r|lia|].
  intros [k1 k2] p w' (-> & -> & ->). destruct k2 as [|f k2 _] using rev_ind.
  - simpl in Hz. wp_step. eapply (wp_child_of F (k1 ++ k) L); [exact Hz|].
    change (ptr E =? NULL) with true. by wp_step.
  - assert (hole f = L) as Hf. { rewrite !Forall_app, Forall_singleton in HL. tauto. }
    destruct f as [d c e s]. simpl in Hf. subst d. rewrite <- !app_assoc in Hz. simpl in Hz.
    rewrite plug_app. cbn [plug foldl close hole fc fe sib mk ptr].
    assert (zrep B F (Fr L c e s :: k1 ++ k) (plug k2 (T cy E y yr)) w) as Hz2.
    { apply (proj2 (zrep_plug _ _ _ _)). rewrite <- plug_app. exact (proj1 (zrep_plug _ _ _ _) Hz). }
    pose proof (zrep_close _ _ _ _ _ _ _ _ Hz2) as Hz3.
    wp_step. eapply (wp_child_of F _ L); [exact Hz3|].
    assert (ptr (plug k2 (T cy E y yr)) ≠ NULL) as Hn.
    { destruct (plug k2 (T cy E y yr)) as [|c4 l4 e4 r4] eqn:E4.
      - apply (f_equal entries) in E4. rewrite entries_plug in E4. simpl in E4. by destruct (before k2).
      - by apply (zrep_nonnull F _ L c4 l4 e4 r4 w Hz2). }
    rewrite (proj2 (Z.eqb_neq _ _) Hn). wp_step. exists (Fr L c e s :: k1, k2).
    split_and!; [done|by rewrite <- app_assoc|done|]. rewrite length_app. simpl. lia.
Qed.

Definition unlinked F k c l z rp : gmap Z cell :=
  <[addr z := CNode (nd L z (ptr l) rp (cpar k) c)]> F.

(** The successor is the right child of [z]. *)
Lemma wp_splice_child F k c l z cy y yr Q w :
  zrep B F k (T c l z (T cy E y yr)) w →
  (∀ w', zrep B (unlinked F k c l z (addr y)) k (T c l y yr) w' → Q tt w') →
  wp (take_place (addr z) (addr y)) Q w.
Proof.
  intros (h & -> & Hz) HQ. destruct (focus_addrs _ _ k L _ _ _ _ Hz) as (Hn & Hzk & Hzp & Hh & Hnd & Hall).
  assert (addr z :: addrs l ++ addrs (T cy E y yr) ≡ₚ addr z :: addr y :: addrs l ++ addrs yr) as Hp.
  { rewrite addrs_T. change (addrs E) with (@nil Z). simpl. solve_Permutation. }
  rewrite Hp in Hnd. setoid_rewrite Hp in Hall. clear Hp.
  destruct (id Hz) as [_ Ht _ Ho Hf]. destruct Ht as (Hcell & Hl & Hcy & _ & Hr).
  apply NoDup_cons in Hnd as [Hznot Hnd].
  eapply (wp_take_place_tree F _ h h); [exact Hz| |exact Hcell|exact Hl|exact Hcy|exact Hr|exact Hnd| | |exact HQ].
  - intros q Hq. split; [done|]. unfold unlinked. rewrite lookup_insert_ne by (by intros <-).
    apply Ho. in_list.
  - intros q Hq. destruct (Hall q) as (? & ? & ? & ?); [by right|].
    assert (q ≠ addr z) as Hqz by (by intros ->). split_and!; try done.
    unfold unlinked. by rewrite lookup_insert_ne.
  - intros q Hqk Hqt. unfold unlinked. rewrite lookup_insert. case_decide; [by subst|].
    apply Hf. rewrite !addrs_T. change (addrs E) with (@nil Z). simpl.
    intros [?|[->|[?|[->|?]%elem_of_cons]%elem_of_app]%elem_of_cons]%elem_of_app; in_list.
Qed.

(** The successor is further down: it was replaced by its right child, so that
    [r'] is the right subtree of [z], and [y] is in the frame. *)
Lemma wp_splice_far F k c l z r' y par cy Q w :
  zrep B (<[addr y := CNode (nd L y NULL (ptr r') par cy)]> F) k (T c l z r') w →
  F !! addr y = None → addr y ≠ NULL → r' ≠ E →
  (∀ w', zrep B (unlinked F k c l z (ptr r')) k (T c l y r') w' → Q tt w') →
  wp (set_parent (ptr r') (addr y) ;;; take_place (addr z) (addr y)) Q w.
Proof.
  intros (h & -> & Hz) HFy Hyn Hr'n HQ.
  destruct (focus_addrs _ _ k L _ _ _ _ Hz) as (Hn & Hzk & Hzp & Hh & Hnd & Hall).
  destruct (id Hz) as [_ Ht _ Ho Hf]. destruct Ht as (Hcell & Hl & Hr).
  apply NoDup_cons in Hnd as [Hznot Hnd].
  assert (addr y ∉ caddrs k ++ addrs (T c l z r')) as Hyall.
  { intros [_ Hy]%Ho. by rewrite lookup_insert_eq in Hy. }
  rewrite addrs_T in Hyall. rewrite not_elem_of_app, not_elem_of_cons, not_elem_of_app in Hyall.
  destruct Hyall as (Hyk & Hyz & Hyl & Hyr). destruct (proj1 (NoDup_app _ _) Hnd) as (Hndl & Hlr & Hndr).
  rewrite not_elem_of_app in Hznot. destruct Hznot as [Hzl Hzr].
  cut (wp ((if ptr r' =? NULL then mret tt else set_parent (ptr r') (addr y)) ;;;
            take_place (addr z) (addr y)) Q (mkw B (croot k (addr z)) h)).
  { destruct (ptr_in r') as [E|Hin].
    - destruct r'; [done|]. destruct (Hall (addr e)) as [? _]; [|done]. rewrite addrs_T. in_list.
    - destruct (Hall (ptr r')) as [Hne _]; [in_list|]. by rewrite (proj2 (Z.eqb_neq _ _) Hne). }
  wp_step. eapply (wp_reparent r' (addr z) (addr y)); [reflexivity|exact Hr|intros q Hq; apply Hall; in_list|].
  eapply (wp_take_place_tree _ _ h); [exact Hz| | | | | | | | |exact HQ].
  - intros q Hq. assert (q ≠ addr z) by (by intros ->). assert (q ≠ addr y) by (by intros ->).
    split.
    + apply reparent_ne. intros Hin. destruct (Hall q) as (_ & ? & _); [in_list|done].
    + unfold unlinked. rewrite lookup_insert_ne by done.
      destruct (Ho q) as [_ Hq']; [in_list|]. by rewrite lookup_insert_ne in Hq' by done.
  - rewrite reparent_ne by done. exact Hcell.
  - eapply tree_at_ext; [|exact Hl]. intros q Hq. apply reparent_ne. by apply Hlr.
  - rewrite reparent_ne by done. rewrite Hf; [apply lookup_insert_eq|]. rewrite addrs_T.
    rewrite not_elem_of_app, not_elem_of_cons, not_elem_of_app. done.
  - by eapply tree_at_reparent.
  - apply NoDup_cons. split; [by rewrite not_elem_of_app|done].
  - intros q [->|Hq]%elem_of_cons.
    + split_and!; try done. unfold unlinked. by rewrite lookup_insert_ne by done.
    + destruct (Hall q) as (? & ? & _ & HF); [by right|].
      assert (q ≠ addr y) by (intros ->; in_list). assert (q ≠ addr z) by (intros ->; in_list).
      split_and!; try done. unfold unlinked. rewrite lookup_insert_ne by done.
      by rewrite lookup_insert_ne in HF by done.
  - intros q Hqk Hqt. rewrite not_elem_of_cons, not_elem_of_app in Hqt. destruct Hqt as (? & ? & ?).
    rewrite reparent_ne by done. unfold unlinked. rewrite lookup_insert. case_decide; [by subst|].
    rewrite Hf; [by rewrite lookup_insert_ne|]. rewrite addrs_T.
    rewrite not_elem_of_app, not_elem_of_cons, not_elem_of_app. done.
Qed.

Lemma caddrs_app k1 k2 : caddrs (k1 ++ k2) ≡ₚ caddrs k1 ++ caddrs k2.
Proof.
  induction k1 as [|f k1 IH]; [done|]. change ((f :: k1) ++ k2) with (f :: (k1 ++ k2)).
  rewrite !caddrs_cons, IH. solve_Permutation.
Qed.

Lemma zrep_plugged F k ky c l z t w :
  zrep B F k (T c l z (plug ky t)) w ↔ zrep B F (ky ++ Fr R c z l :: k) t w.
Proof.
  rewrite zrep_plug, (zrep_plug F (ky ++ _)), plug_app. done.
Qed.

Lemma plug_ne k t : t ≠ E → plug k t ≠ E.
Proof.
  revert t. induction k as [|f k IH]; intros t Ht; [done|]. apply IH. unfold close. by destruct (hole f).
Qed.

Lemma wp_splice_successor F k c l z ky cy y yr Q w :
  zrep B F k (T c l z (plug ky (T cy E y yr))) w → Forall (λ f, hole f = L) ky →
  (∀ rp w', zrep B (unlinked F k c l z rp) (ky ++ Fr R c y l :: k) yr w' → Q (cy, ptr yr) w') →
  wp (splice_successor (addr z)) Q w.
Proof.
  intros Hz HL HQ. unfold splice_successor.
  wp_step. eapply (wp_child_of F k R); [exact Hz|].
  pose proof (proj1 (zrep_plugged _ _ _ _ _ _ _ _) Hz) as Hy.
  wp_step. eapply (wp_leftmost F _ ky); [exact Hy|exact HL|].
  wp_step. eapply (wp_color_of F _ L); [exact Hy|].
  wp_step. eapply (wp_child_of F _ R); [exact Hy|].
  wp_step. eapply (wp_parent_of F _ L); [exact Hy|].
  destruct ky as [|[d1 c1 e1 s1] ky].
  - simpl. rewrite Z.eqb_refl. wp_step. wp_step.
    wp_step. eapply wp_splice_child; [exact Hz|]. intros w' Hz'. wp_step. eapply HQ.
    apply (zrep_plugged _ _ []). exact Hz'.
  - apply Forall_cons in HL as [HL1 HL]. simpl in HL1. subst d1. cbn [cpar app fe].
    assert (addr e1 ≠ addr z) as Hne.
    { intros E. destruct Hy as (h & _ & [_ _ Hnd _ _]). apply NoDup_app in Hnd as (Hnd & _ & _).
      rewrite caddrs_app, !caddrs_cons in Hnd. apply NoDup_cons in Hnd as [Hnd _]. apply Hnd.
      cbn [fe]. rewrite E. clear. set_solver. }
    rewrite (proj2 (Z.eqb_neq _ _) Hne). wp_simpl.
    set (ks := Fr L c1 e1 s1 :: ky) in *. set (r' := plug ks yr) in *.
    destruct (id Hy) as (hy & _ & Hzh). destruct (focus_addrs _ _ _ R _ _ _ _ Hzh) as (Hyn & _ & _ & _ & _ & Hally).
    wp_step. wp_step. eapply (wp_rb_replace F _ R); [exact Hy|]. clear w Hz Hy. intros w Hz.
    change (nd R y (ptr yr) NULL) with (nd L y NULL (ptr yr)) in Hz.
    pose proof (proj2 (zrep_plugged _ _ _ _ _ _ _ _) Hz) as Hz2. fold r' in Hz2.
    assert (r' ≠ E) as Hr' by (unfold r', ks; simpl; apply plug_ne; done).
    assert (ptr r' ≠ NULL) as Hrn.
    { destruct r' as [|c4 l4 e4 r4]; [done|]. apply (zrep_open _ R c z l) in Hz2.
      by apply (zrep_nonnull _ _ L c4 l4 e4 r4 w Hz2). }
    wp_step. eapply (wp_child_of _ k R); [exact Hz2|].
    wp_step. eapply wp_update_frame; [exact Hz2|apply lookup_insert_eq|].
    rewrite insert_insert_eq. clear w Hz Hz2. intros w Hz.
    rewrite (proj2 (Z.eqb_neq _ _) Hrn).
    eapply wp_mono; [apply (wp_bind_inv _ (λ _, take_place (addr z) (addr y)) (λ _, Q (cy, ptr yr)))|].
    { eapply wp_splice_far; [exact Hz| |done|done|].
      - eapply Hally. by apply list_elem_of_here.
      - intros w' Hz'. eapply HQ. apply (zrep_plugged _ _ ks). exact Hz'. }
    intros [] w' Hw. apply wp_bind. eapply wp_mono; [exact Hw|]. by intros [] w2 HQ2.
Qed.
End delete.
End TreeDelete.
