(* ===== verification/TreeFixup.v ===== *)
(** * The fixup after a deletion

    The loop of [rb_delete_fixup] on trees without adjacent red nodes, balanced
    or not.  It ends, keeps the keys and introduces no adjacent red nodes; the
    only thing that can go wrong is a missing sibling, which it dereferences. *)
From S2P Require Import Prelude World TreeMap RBTree TreeHeap TreeInsert.

Module TreeFixup.
Import TreeMap RBTree TreeHeap TreeRotate TreeInsert.

(** The subtree [t] is short of a black node; painted black it fits. *)
Record dfix (es : list entry) (k : ctx) (t : tree) : Prop := {
  df_nrr : nrr (paint RB_BLACK t);
  df_ctx : nrr_ctx k RB_BLACK;
  df_root : ctx_root k RB_BLACK = RB_BLACK;
  df_entries : entries (plug k t) = es
}.

Definition steps_left (kt : ctx * tree) : nat :=
  2 * length kt.1 + match tcolor kt.2 with RB_BLACK => 1 | RB_RED => 0 end.

(** A red sibling rises over the parent. *)
Lemma dfix_red es d c p sn s sf k t :
  dfix es (Fr d c p (mk d RB_RED sn s sf) :: k) t → tcolor t = RB_BLACK →
  c = RB_BLACK ∧ tcolor sn = RB_BLACK ∧ dfix es (Fr d RB_RED p sn :: Fr d RB_BLACK s sf :: k) t.
Proof.
  intros [Hn (Hf & Hs & Hk) Hroot He] Ht. unfold fok in Hf. cbn [fc sib] in *.
  rewrite tcolor_mk in Hf. apply nrr_mk in Hs as (Hs & Hsn & Hsf). destruct (Hs eq_refl) as [Hcn Hcf].
  assert (c = RB_BLACK) as ->. { destruct c; [|done]. by destruct (Hf eq_refl). }
  split_and!; [done..|]. split; [done| |done|].
  - cbn [nrr_ctx fc sib]. unfold fok. cbn [fc sib]. naive_solver.
  - rewrite <- He. rewrite !entries_plug. cbn [before after hole fe sib]. unfold mk.
    destruct d; simpl; by rewrite <- ?app_assoc; simpl; rewrite <- ?app_assoc.
Qed.

(** A black sibling with black children turns red and the parent is next. *)
Lemma dfix_up es d c p cs sn s sf k t :
  dfix es (Fr d c p (mk d cs sn s sf) :: k) t → tcolor t = RB_BLACK →
  tcolor sn = RB_BLACK → tcolor sf = RB_BLACK →
  dfix es k (mk d c t p (mk d RB_RED sn s sf)).
Proof.
  intros [Hn (Hf & Hs & Hk) Hroot He] Ht Hcn Hcf. cbn [fc sib] in *.
  apply nrr_mk in Hs as (_ & Hsn & Hsf).
  assert (nrr t) as Hnt by (destruct t as [|[] ? ? ?]; done).
  split.
  - replace (paint RB_BLACK _) with (mk d RB_BLACK t p (mk d RB_RED sn s sf)) by (by destruct d).
    rewrite !nrr_mk. by split_and!.
  - by eapply nrr_ctx_black.
  - destruct k as [|f k]; [done|]. exact Hroot.
  - rewrite <- He, !entries_plug. cbn [before after hole fe sib]. unfold mk.
    destruct d; simpl; by rewrite <- ?app_assoc; simpl; rewrite <- ?app_assoc.
Qed.

(** A red inner child rises over the sibling. *)
Lemma dfix_inner es d c p na n nb s sf k t :
  dfix es (Fr d c p (mk d RB_BLACK (mk d RB_RED na n nb) s sf) :: k) t →
  dfix es (Fr d c p (mk d RB_BLACK na n (mk d RB_RED nb s sf)) :: k) t ∨ tcolor sf = RB_RED.
Proof.
  intros [Hn (Hf & Hs & Hk) Hroot He]. cbn [fc sib] in *.
  destruct (tcolor sf) eqn:Hcf; [by right|left].
  apply nrr_mk in Hs as (_ & (Hab & Hna & Hnb)%nrr_mk & Hsf). destruct (Hab eq_refl) as [Hca Hcb].
  split; [done| |done|].
  - cbn [nrr_ctx fc sib]. unfold fok in *. cbn [fc sib] in *. rewrite !tcolor_mk in *.
    split_and!; [naive_solver| |done]. rewrite !nrr_mk. naive_solver.
  - rewrite <- He, !entries_plug. cbn [before after hole fe sib]. unfold mk.
    destruct d; simpl; by rewrite <- ?app_assoc; simpl; rewrite <- ?app_assoc.
Qed.

(** A red outer child: the sibling rises over the parent and the loop ends at
    the root. *)
Lemma dfix_outer es d c p sn s sf k t :
  dfix es (Fr d c p (mk d RB_BLACK sn s sf) :: k) t → tcolor t = RB_BLACK →
  dfix es [] (plug k (mk d c (mk d RB_BLACK t p sn) s (paint RB_BLACK sf))).
Proof.
  intros [Hn (Hf & Hs & Hk) Hroot He] Ht. cbn [fc sib] in *.
  apply nrr_mk in Hs as (_ & Hsn & Hsf).
  assert (nrr t) as Hnt by (destruct t as [|[] ? ? ?]; done).
  assert (nrr (plug k (mk d c (mk d RB_BLACK t p sn) s (paint RB_BLACK sf)))) as Hnew.
  { apply nrr_plug; [|by rewrite tcolor_mk]. rewrite !nrr_mk, tcolor_mk.
    split_and!; try done; [by destruct sf|]. apply nrr_paint; [done|by left]. }
  split; [|done..|].
  - apply nrr_paint; [done|by left].
  - cbn [plug foldl]. rewrite <- He, !entries_plug. cbn [before after hole fe sib]. unfold mk.
    destruct sf as [|cf lf ef rf]; destruct d; simpl; by rewrite <- ?app_assoc; simpl; rewrite <- ?app_assoc.
Qed.

(** ** The fixup in the heap *)

Section fixup.
Context {B : base}.
Implicit Types (t : tree) (k : ctx) (e : entry) (d : side) (F : gmap Z cell) (w : tworld).

Lemma zrep_null F k t w : zrep B F k t w → F !! NULL = None → heap w !! NULL = None.
Proof.
  intros (h & -> & Hz) HF. simpl. rewrite (zh_frame _ _ _ _ Hz); [done|].
  intros Hin. by apply (zh_own _ _ _ _ Hz) in Hin as [? _].
Qed.

Lemma null_child_of d Q w : heap w !! NULL = None → wp_null (child_of d NULL) Q w.
Proof. intros Hn. unfold wp_null, child_of, load_node, mbind, load. by rewrite Hn. Qed.

Lemma null_color_of Q w : heap w !! NULL = None → wp_null (color_of NULL) Q w.
Proof. intros Hn. unfold wp_null, color_of, load_node, mbind, load. by rewrite Hn. Qed.

Lemma croot_plug k t : croot k (ptr t) = ptr (plug k t).
Proof.
  revert t. induction k as [|f k IH]; intros t; [done|]. simpl. rewrite <- IH. unfold close. by rewrite ptr_mk.
Qed.

(** The sibling at the focus, and back. *)
Lemma zrep_sib F d c p s k t w :
  zrep B F (Fr d c p s :: k) t w → zrep B F (Fr (flip d) c p t :: k) s w.
Proof. rewrite !zrep_up. by rewrite mk_flip. Qed.
Lemma zrep_unsib F d c p s k t w :
  zrep B F (Fr (flip d) c p t :: k) s w → zrep B F (Fr d c p s :: k) t w.
Proof. rewrite !zrep_up. by rewrite mk_flip. Qed.

Lemma tree_cases d t : t = E ∨ ∃ c a e b, t = mk d c a e b.
Proof.
  destruct t as [|c l e r]; [by left|right]. destruct d; [by exists c, l, e, r|by exists c, r, e, l].
Qed.

Lemma wp_fixup_red_sibling F es d c p s k t Q w :
  zrep B F (Fr d c p s :: k) t w → dfix es (Fr d c p s :: k) t → t ≠ E → tcolor t = RB_BLACK →
  F !! NULL = None →
  (∀ c' s' k' w', zrep B F (Fr d c' p s' :: k') t w' → dfix es (Fr d c' p s' :: k') t →
     tcolor s' = RB_BLACK → k' = k ∧ c' = c ∨ c' = RB_RED ∧ length k' = S (length k) →
     Q (ptr s') w') →
  wp_null (fixup_red_sibling d (ptr t)) Q w.
Proof.
  intros Hz Hd Ht Hc HF HQ. pose proof (zrep_close _ _ _ _ _ _ _ _ Hz) as Hzp. unfold fixup_red_sibling.
  apply wp_null_seq. eapply wp_parent_ptr; [done|exact Hz|].
  apply wp_null_seq. eapply wp_child_flip; [exact Hzp|].
  destruct (tree_cases d s) as [->|(cs & sn & se & sf & ->)].
  { apply wp_null_bind, null_color_of. by eapply zrep_null. }
  rewrite ptr_mk.
  pose proof (zrep_sib _ _ _ _ _ _ _ _ Hz) as Hzs.
  apply wp_null_seq. eapply wp_color_of; [exact Hzs|]. case_bool_decide as Hcs.
  2: { apply wp_null_of, wp_ret. rewrite <- (ptr_mk d cs sn se sf). eapply HQ; [exact Hz|done| |by left].
       rewrite tcolor_mk. by destruct cs. }
  subst cs. destruct (dfix_red _ _ _ _ _ _ _ _ _ Hd Hc) as (-> & Hcn & Hd').
  apply wp_null_of. wp_step. eapply (wp_set_color F _ d); [exact Hzs|]. clear w Hz Hzp Hzs. intros w Hz.
  apply zrep_unsib in Hz. apply zrep_close in Hz.
  wp_step. eapply (wp_set_color F _ d); [exact Hz|]. clear w Hz. intros w Hz.
  wp_step. eapply wp_rotate; [exact Hz|]. clear w Hz. intros w Hz.
  apply zrep_open in Hz. pose proof (zrep_open _ _ _ _ _ _ _ _ Hz) as Hzt.
  wp_step. eapply wp_parent_ptr; [done|exact Hzt|]. eapply wp_child_flip; [exact Hz|].
  eapply HQ; [exact Hzt|done|done|]. right. done.
Qed.

(** The sibling with a red outer child. *)
Lemma wp_fixup_outer_child F d c p sn se sf k t Q w :
  zrep B F (Fr d c p (mk d RB_BLACK sn se sf) :: k) t w → t ≠ E →
  (∀ w', zrep B F [] (plug k (mk d c (mk d RB_BLACK t p sn) se (paint RB_BLACK sf))) w' →
     Q (ptr (plug k (mk d c (mk d RB_BLACK t p sn) se (paint RB_BLACK sf)))) w') →
  wp (fixup_outer_child d (ptr t) (addr se)) Q w.
Proof.
  intros Hz Ht HQ. unfold fixup_outer_child. wp_step. eapply wp_parent_ptr; [done|exact Hz|].
  pose proof (zrep_close _ _ _ _ _ _ _ _ Hz) as Hzp.
  wp_step. eapply wp_color_of; [exact Hzp|]. apply zrep_sib in Hz.
  wp_step. eapply (wp_set_color F _ d); [exact Hz|]. clear w Hz Hzp. intros w Hz.
  apply zrep_unsib in Hz. apply zrep_close in Hz.
  wp_step. eapply (wp_set_color F _ d); [exact Hz|]. clear w Hz. intros w Hz.
  apply zrep_open in Hz. apply zrep_sib in Hz.
  wp_step. eapply wp_child_flip; [exact Hz|].
  apply zrep_open, zrep_sib in Hz. wp_step.
  assert (∀ w', zrep B F (Fr (flip d) c se sn :: Fr (flip d) RB_BLACK p t :: k) (paint RB_BLACK sf) w' →
    wp (rb_rotate d (addr p) ;;; t <- deref ;; mret (root t)) Q w') as Hend.
  { clear w Hz. intros w Hz. apply zrep_unsib, zrep_close, zrep_unsib, zrep_close in Hz.
    wp_step. eapply wp_rotate; [exact Hz|]. clear w Hz. intros w Hz.
    wp_step. eapply wp_deref; [by eapply zrep_deref|]. wp_step.
    apply zrep_plug in Hz. cbn [root]. rewrite croot_plug. by apply HQ. }
  destruct sf as [|cf lf ef rf]; [apply wp_ret; exact (Hend w Hz)|].
  pose proof (zrep_nonnull _ _ L _ _ _ _ _ Hz) as Hn. cbn [ptr]. rewrite (proj2 (Z.eqb_neq _ _) Hn).
  eapply (wp_set_color F _ L); [exact Hz|]. exact Hend.
Qed.

(** The sibling whose red child is the inner one. *)
Lemma wp_fixup_inner_child F d c p na n nb se sf k t Q w :
  zrep B F (Fr d c p (mk d RB_BLACK (mk d RB_RED na n nb) se sf) :: k) t w → t ≠ E →
  (∀ w', zrep B F (Fr d c p (mk d RB_BLACK na n (mk d RB_RED nb se sf)) :: k) t w' → Q (addr n) w') →
  wp (fixup_inner_child d (ptr t) (addr se) (addr n)) Q w.
Proof.
  intros Hz Ht HQ. unfold fixup_inner_child. apply zrep_sib in Hz. apply zrep_open in Hz.
  pose proof (zrep_nonnull _ _ _ _ _ _ _ _ Hz) as Hn. rewrite (proj2 (Z.eqb_neq _ _) Hn).
  wp_step. eapply (wp_set_color F _ d); [exact Hz|]. clear w Hz. intros w Hz. apply zrep_close in Hz.
  wp_step. eapply (wp_set_color F _ d); [exact Hz|]. clear w Hz. intros w Hz.
  rewrite <- (mk_flip d RB_RED _ se), <- (mk_flip d RB_BLACK nb n na) in Hz.
  wp_step. eapply wp_rotate; [exact Hz|]. clear w Hz. intros w Hz. rewrite !mk_flip in Hz.
  apply zrep_unsib in Hz. pose proof (zrep_close _ _ _ _ _ _ _ _ Hz) as Hzp.
  wp_step. eapply wp_parent_ptr; [done|exact Hz|]. eapply wp_child_flip; [exact Hzp|].
  rewrite ptr_mk. by apply HQ.
Qed.

Lemma wp_fixup_black_sibling F es d c p s k t Q w :
  zrep B F (Fr d c p s :: k) t w → dfix es (Fr d c p s :: k) t → t ≠ E → tcolor t = RB_BLACK →
  tcolor s = RB_BLACK → F !! NULL = None →
  (∀ k' t' w', zrep B F k' t' w' → dfix es k' t' → k' = k ∧ tcolor t' = c ∨ k' = [] → Q (ptr t') w') →
  wp_null (fixup_black_sibling d (ptr t) (ptr s)) Q w.
Proof.
  intros Hz Hd Ht Hc Hcs HF HQ. unfold fixup_black_sibling.
  destruct (tree_cases d s) as [->|(cs & sn & se & sf & ->)].
  { apply wp_null_bind, null_child_of. by eapply zrep_null. }
  rewrite tcolor_mk in Hcs. subst cs. rewrite ptr_mk. pose proof (zrep_sib _ _ _ _ _ _ _ _ Hz) as Hzs.
  apply wp_null_of. wp_step. eapply wp_child_of; [exact Hzs|].
  wp_step. eapply wp_child_flip; [exact Hzs|].
  wp_step. eapply wp_is_black; [eapply zrep_open; exact Hzs|].
  wp_step. eapply wp_is_black; [eapply zrep_sib, zrep_open; exact Hzs|].
  destruct (bool_decide_reflect (tcolor sf = RB_BLACK)) as [Hcf|Hcf];
    [destruct (bool_decide_reflect (tcolor sn = RB_BLACK)) as [Hcn|Hcn]|rewrite andb_false_r]; cbn [andb]; wp_simpl.
  - wp_step. eapply (wp_set_color F _ d); [exact Hzs|]. clear w Hz Hzs. intros w Hz. apply zrep_unsib in Hz.
    eapply wp_parent_ptr; [done|exact Hz|]. cbn [cpar fe].
    rewrite <- (ptr_mk d c t p (mk d RB_RED sn se sf)). eapply HQ; [by apply zrep_close| |].
    + by eapply dfix_up.
    + left. by rewrite tcolor_mk.
  - destruct (tree_cases d sn) as [->|(cn & na & n & nb & ->)]; [done|]. rewrite tcolor_mk in Hcn.
    destruct cn; [|done]. rewrite ptr_mk. wp_step. eapply wp_fixup_inner_child; [exact Hz|done|].
    clear w Hz Hzs. intros w Hz. destruct (dfix_inner _ _ _ _ _ _ _ _ _ _ _ Hd) as [Hd'|?]; [|congruence].
    eapply wp_fixup_outer_child; [exact Hz|done|]. intros w' Hz'. eapply HQ; [exact Hz'| |by right].
    by apply dfix_outer.
  - wp_step. wp_step. eapply wp_fixup_outer_child; [exact Hz|done|]. intros w' Hz'.
    eapply HQ; [exact Hz'| |by right]. by apply dfix_outer.
Qed.

Lemma wp_delete_fixup_side F es d c p s k t Q w :
  zrep B F (Fr d c p s :: k) t w → dfix es (Fr d c p s :: k) t → t ≠ E → tcolor t = RB_BLACK →
  F !! NULL = None →
  (∀ k' t' w', zrep B F k' t' w' → dfix es k' t' →
     (steps_left (k', t') < steps_left (Fr d c p s :: k, t))%nat → Q (ptr t') w') →
  wp_null (delete_fixup_side d (ptr t)) Q w.
Proof.
  intros Hz Hd Ht Hc HF HQ. unfold delete_fixup_side. apply wp_null_bind.
  eapply wp_fixup_red_sibling; [exact Hz|exact Hd|done..|]. clear w Hz Hd.
  intros c' s' k' w Hz Hd Hs' Hk'. eapply wp_fixup_black_sibling; [exact Hz|exact Hd|done..|].
  intros k2 t2 w2 Hz2 Hd2 Hk2. eapply HQ; [done..|]. unfold steps_left. cbn [fst snd length].
  rewrite Hc. destruct Hk2 as [[-> Hc2]| ->]; [|simpl; destruct (tcolor t2); lia].
  destruct Hk' as [[-> ->]|[-> Hlen]]; [destruct (tcolor t2); lia|]. rewrite Hc2, Hlen. lia.
Qed.

(** Where the loop ends. *)
Lemma dfix_done es k t :
  dfix es k t → let t' := plug k (paint RB_BLACK t) in
  nrr t' ∧ tcolor t' = RB_BLACK ∧ entries t' = es.
Proof.
  intros [Hn Hk Hroot He] t'. assert (tcolor (paint RB_BLACK t) = RB_BLACK) as Hp by (by destruct t).
  unfold t'. split_and!.
  - apply nrr_plug; [done|]. by rewrite Hp.
  - by rewrite tcolor_root, Hp.
  - rewrite <- He, !entries_plug. by destruct t.
Qed.

Lemma wp_paint_black F k t Q w :
  zrep B F k t w → (∀ w', zrep B F k (paint RB_BLACK t) w' → Q tt w') →
  wp (if ptr t =? NULL then mret tt else set_color (ptr t) RB_BLACK) Q w.
Proof.
  intros Hz HQ. destruct t as [|c l e r]; [by apply wp_ret, HQ|].
  pose proof (zrep_nonnull _ _ L _ _ _ _ _ Hz) as Hn. cbn [ptr]. rewrite (proj2 (Z.eqb_neq _ _) Hn).
  eapply (wp_set_color F _ L); [exact Hz|exact HQ].
Qed.

(** The root is where the context is empty. *)
Lemma zrep_at_root F k t w : zrep B F k t w → t ≠ E → ptr t = croot k (ptr t) ↔ k = [].
Proof.
  intros (h & -> & Hz) Ht. split; [|by intros ->]. intros E.
  destruct k as [|f k]; [done|]. exfalso. destruct Hz as [_ _ Hnd _ _].
  apply NoDup_app in Hnd as (_ & Hd & _). apply (Hd (ptr t)); [|by apply ptr_in_ne].
  rewrite E. clear. change (croot (f :: k) (ptr t)) with (croot k (addr (fe f))).
  revert f. induction k as [|g k IH]; intros f; rewrite caddrs_cons; simpl; [set_solver|].
  apply elem_of_cons. right. apply elem_of_app. right. apply IH.
Qed.

Lemma wp_rb_delete_fixup F es k t Q w :
  zrep B F k t w → dfix es k t → F !! NULL = None →
  (∀ t' w', zrep B F [] t' w' → nrr t' → tcolor t' = RB_BLACK → entries t' = es → Q tt w') →
  wp_null (rb_delete_fixup (ptr t)) Q w.
Proof.
  intros Hz Hd HF HQ. unfold rb_delete_fixup. apply wp_null_seq, wp_tree_fuel.
  pose proof (zrep_fits _ _ _ _ Hz) as Hfit. apply wp_null_bind.
  apply (wp_null_loop (λ '(k, t) x w, x = ptr t ∧ zrep B F k t w ∧ dfix es k t)
    steps_left _ _ _ (k, t)); [done|unfold steps_left; simpl; destruct (tcolor t); lia|].
  clear dependent k t w. intros [k t] x w (-> & Hz & Hd).
  assert (∀ k t w, zrep B F k t w → dfix es k t →
    wp_null (if ptr t =? NULL then mret tt else set_color (ptr t) RB_BLACK) Q w) as Hend.
  { clear k t w Hz Hd. intros k t w Hz Hd. apply wp_null_of. eapply wp_paint_black; [exact Hz|].
    intros w' Hz'. apply zrep_plug in Hz'. destruct (dfix_done _ _ _ Hd) as (? & ? & ?). by eapply HQ. }
  apply wp_null_seq. eapply wp_deref; [by eapply zrep_deref|]. cbn [root].
  destruct (tree_cases L t) as [->|(c & l & e & r & Et)].
  { change (ptr E =? NULL) with true. by apply Hend with k. }
  assert (t ≠ E) as Ht by (by subst t). assert (ptr t ≠ NULL) as Hn.
  { subst t. by eapply zrep_nonnull. }
  rewrite (proj2 (Z.eqb_neq _ _) Hn). cbn [orb]. pose proof (zrep_at_root _ _ _ _ Hz Ht) as Hroot.
  destruct (Z.eqb_spec (ptr t) (croot k (ptr t))) as [Ek|Hk].
  { by eapply Hend. }
  destruct k as [|[d cp p s] k]; [naive_solver|].
  apply wp_null_seq. rewrite Et at 1. simpl. eapply (wp_color_of F _ L c l e r); [by subst t|].
  case_bool_decide as Hc. { by eapply Hend. }
  assert (tcolor t = RB_BLACK) as Htc by (subst t; by destruct c).
  apply wp_null_seq. eapply wp_parent_ptr; [done|exact Hz|]. cbn [cpar fe].
  pose proof (zrep_close _ _ _ _ _ _ _ _ Hz) as Hzp.
  apply wp_null_seq. eapply (wp_child_at L); [by eapply zrep_node|].
  assert ((if ptr t =? child L (nd d p (ptr t) (ptr s) (cpar k) cp) then L else R) = d) as ->.
  { destruct d; simpl; [by rewrite Z.eqb_refl|].
    by rewrite (proj2 (Z.eqb_neq _ _) (zrep_sibling _ _ _ _ _ _ _ _ Hz Ht)). }
  apply wp_null_bind. eapply wp_delete_fixup_side; [exact Hz|exact Hd|done..|].
  intros k2 t2 w2 Hz2 Hd2 Hlt. apply wp_null_of, wp_ret. by exists (k2, t2).
Qed.

(** Without a black subtree to make up for, the loop does not start. *)
Lemma wp_rb_delete_fixup_red F es k t Q w :
  zrep B F k t w → dfix es k t → t = E ∨ tcolor t = RB_RED →
  (∀ t' w', zrep B F [] t' w' → nrr t' → tcolor t' = RB_BLACK → entries t' = es → Q tt w') →
  wp (rb_delete_fixup (ptr t)) Q w.
Proof.
  intros Hz Hd Ht HQ. unfold rb_delete_fixup. wp_step. apply wp_tree_fuel. wp_step.
  replace (2 * base.size (heap w) + 2)%nat with (S (2 * base.size (heap w) + 1)) by lia.
  cbn [loop]. wp_step. wp_step. eapply wp_deref; [by eapply zrep_deref|]. cbn [root].
  assert (wp (if ptr t =? NULL then mret tt else set_color (ptr t) RB_BLACK) Q w) as Hend.
  { eapply wp_paint_black; [exact Hz|]. intros w' Hz'. apply zrep_plug in Hz'.
    destruct (dfix_done _ _ _ Hd) as (? & ? & ?). by eapply HQ. }
  destruct Ht as [->|Ht]; [apply wp_ret, wp_ret, Hend|].
  destruct (orb _ _); [apply wp_ret, wp_ret, Hend|].
  destruct t as [|c l e r]; [done|]. simpl in Ht. subst c.
  wp_step. eapply (wp_color_of F _ L); [exact Hz|]. apply wp_ret, wp_ret, Hend.
Qed.
End fixup.
End TreeFixup.
