(* ===== verification/TreeRemove.v ===== *)
(** * Removal of a node from the tree map *)
From S2P Require Import Prelude World TreeMap RBTree TreeHeap TreeInsert TreePut.
From S2P Require Import TreeDelete TreeFixup.

Module TreeRemove.
Import TreeMap RBTree TreeHeap TreeRotate TreeInsert TreePut TreeDelete TreeFixup.

(** ** Unlinking, on trees

    A node of colour [c] has left the tree, and [t] moved up in its place. *)
Record cut (bal : Prop) (es : list entry) (k : ctx) (t : tree) (c : color) : Prop := {
  cu_nrr : nrr t;
  cu_ctx : nrr_ctx k RB_BLACK;
  cu_red : c = RB_RED → tcolor t = RB_BLACK;
  cu_root : ctx_root k RB_BLACK = RB_BLACK;
  cu_entries : entries (plug k t) = es;
  cu_bal : bal → c = RB_BLACK → t = E ∨ tcolor t = RB_RED
}.

Lemma ctx_root_any k c c' : k ≠ [] → ctx_root k c = ctx_root k c'.
Proof. by destruct k. Qed.

Lemma nrr_ctx_app k1 k2 c : nrr_ctx (k1 ++ k2) c ↔ nrr_ctx k1 c ∧ nrr_ctx k2 (ctx_root k1 c).
Proof.
  revert c. induction k1 as [|f k1 IH]; intros c; simpl; [tauto|]. rewrite IH. tauto.
Qed.

Lemma ctx_root_app k1 k2 c : ctx_root (k1 ++ k2) c = ctx_root k2 (ctx_root k1 c).
Proof. revert c. induction k1 as [|f k1 IH]; intros c; simpl; [done|]. apply IH. Qed.

Lemma bh0 t : bh 0 t → t = E ∨ tcolor t = RB_RED.
Proof. destruct t as [|[] l e r]; simpl; [by left|by right|done]. Qed.

(** A node with at most one child. *)
Lemma cut_one (bal : Prop) d k c t z :
  nrr (plug k (mk d c t z E)) → tcolor (plug k (mk d c t z E)) = RB_BLACK →
  (bal → ∃ n, bh n (plug k (mk d c t z E))) →
  cut bal (before k ++ entries t ++ after k) k t c.
Proof.
  intros Hn Hroot Hb. apply nrr_unplug in Hn as [(Hc & Ht & _)%nrr_mk Hk]. rewrite tcolor_mk in Hk.
  rewrite tcolor_root, tcolor_mk in Hroot. split; try done.
  - by eapply nrr_ctx_black.
  - naive_solver.
  - destruct k as [|f k]; [done|]. done.
  - by rewrite entries_plug.
  - intros (n & (m & Hm & _)%bh_unplug)%Hb ->. apply bh0.
    destruct m as [|m]; [by destruct d|]. apply (bh_mk d RB_BLACK) in Hm as [Ht' HE]. simpl in HE. by subst m.
Qed.

(** A node whose successor takes its place. *)
Lemma cut_two (bal : Prop) k c l z ky cy y yr :
  let r := plug ky (T cy E y yr) in
  Forall (λ f, hole f = L) ky →
  nrr (plug k (T c l z r)) → tcolor (plug k (T c l z r)) = RB_BLACK →
  (bal → ∃ n, bh n (plug k (T c l z r))) →
  cut bal (before k ++ (entries l ++ entries r) ++ after k) (ky ++ Fr R c y l :: k) yr cy.
Proof.
  intros r HL Hn Hroot Hb.
  assert (plug k (T c l z r) = plug (ky ++ Fr R c z l :: k) (T cy E y yr)) as Epl by (by rewrite plug_app).
  rewrite Epl in *. apply nrr_unplug in Hn as [(Hcy & _ & Hyr) Hk].
  rewrite tcolor_root in Hroot. simpl in Hk, Hroot, Hcy. split.
  - done.
  - apply nrr_ctx_black in Hk. rewrite nrr_ctx_app in *. exact Hk.
  - naive_solver.
  - rewrite ctx_root_app in *. exact Hroot.
  - rewrite plug_app, entries_plug. simpl. rewrite !entries_plug. unfold r.
    rewrite entries_plug. simpl. assert (before ky = []) as ->.
    { clear -HL. induction HL as [|f ky Hf _ IH]; simpl; [done|]. by rewrite IH, Hf. }
    rewrite !app_nil_l. by rewrite <- !app_assoc; simpl; rewrite <- ?app_assoc.
  - intros (n & (m & Hm & _)%bh_unplug)%Hb ->. apply bh0. simpl in Hm.
    destruct m as [|m]; [done|]. destruct Hm as [-> Hm]. done.
Qed.

(** [rb_delete] is its first part, which does not fault, and the fixup. *)
Definition unlink_and_free (z : Z) : M tworld (color * Z) :=
  cx <- rb_unlink z ;;
  rb_node_free z ;;;
  t <- deref ;; set_size (wrap64 (size t - 1)) ;;; mret cx.

Lemma rb_delete_split z w :
  rb_delete z w = (cx <- unlink_and_free z ;;
    if bool_decide (cx.1 = RB_BLACK) then rb_delete_fixup cx.2 else mret tt) w.
Proof.
  unfold rb_delete, unlink_and_free, mbind.
  destruct (rb_unlink z w) as [cx w1|]; [|done]. destruct (rb_node_free z w1) as [[] w2|]; [|done].
  destruct (deref w2) as [t w3|]; [|done]. by destruct (set_size _ w3).
Qed.

(** What is left after the first part. *)
Lemma cut_fixup_done bal es k t c :
  cut bal es k t c → c = RB_RED → let t' := plug k t in
  nrr t' ∧ tcolor t' = RB_BLACK ∧ entries t' = es.
Proof.
  intros [Hn Hk Hr Hroot He _] Hc t'. pose proof (Hr Hc) as Ht. unfold t'. split_and!; [|by rewrite tcolor_root, Ht|done].
  apply nrr_plug; [done|]. by rewrite Ht.
Qed.

Lemma cut_fixup bal es k t : cut bal es k t RB_BLACK → dfix es k t.
Proof. intros [Hn Hk _ Hroot He _]. split; [|done..]. apply nrr_paint; [done|by left]. Qed.

Section remove.
Context {B : base}.
Implicit Types (t l r : tree) (k : ctx) (e z y : entry) (d : side) (F : gmap Z cell) (w : tworld).

Lemma wp_rb_unlink F (bal : Prop) k c l z r Q w :
  zrep B F k (T c l z r) w → nrr (plug k (T c l z r)) → tcolor (plug k (T c l z r)) = RB_BLACK →
  (bal → ∃ n, bh n (plug k (T c l z r))) →
  (∀ k' t' c' nn w', cut bal (before k ++ (entries l ++ entries r) ++ after k) k' t' c' →
     key nn = kptr z → key_owned nn = owned z →
     zrep B (<[addr z := CNode nn]> F) k' t' w' → Q (c', ptr t') w') →
  wp (rb_unlink (addr z)) Q w.
Proof.
  intros Hz Hn Hroot Hb HQ. unfold rb_unlink.
  wp_step. eapply (wp_color_of F k L); [exact Hz|].
  wp_step. eapply (wp_child_of F k L); [exact Hz|].
  wp_step. eapply (wp_child_of F k R); [exact Hz|].
  destruct (tree_cases L l) as [->|(cl & ll & el & lr & El)].
  { change (ptr E =? NULL) with true. wp_step. eapply (wp_rb_replace F k R); [exact Hz|]. intros w' Hz'.
    wp_step. eapply HQ; [by apply (cut_one bal R k c r z)| | |exact Hz']; done. }
  assert (ptr l ≠ NULL) as Hln.
  { apply (zrep_open F L) in Hz. subst l. by eapply (zrep_nonnull F). }
  rewrite (proj2 (Z.eqb_neq _ _) Hln). destruct (tree_cases L r) as [->|(cr & rl & er & rr & Er)].
  { change (ptr E =? NULL) with true. wp_step. eapply (wp_rb_replace F k L); [exact Hz|]. intros w' Hz'.
    wp_step. simpl in HQ. rewrite app_nil_r in HQ.
    eapply HQ; [by apply (cut_one bal L k c l z)| | |exact Hz']; done. }
  assert (ptr r ≠ NULL) as Hrn.
  { apply (zrep_open F R) in Hz. subst r. by eapply (zrep_nonnull F). }
  rewrite (proj2 (Z.eqb_neq _ _) Hrn).
  destruct (leftmost_ctx r) as (ky & cy & y & yr & Ey & HL & _); [by subst r|]. clear Er. subst r.
  eapply wp_splice_successor; [exact Hz|exact HL|]. intros rp w' Hz'.
  eapply HQ; [by apply (cut_two bal k c l z)| | |exact Hz']; done.
Qed.

Definition removed F z : gmap Z cell := delete (kptr z) F.

Lemma wp_rb_node_free F k t z nn s Q w :
  zrep B (<[addr z := CNode nn]> F) k t w → F !! addr z = None → addr z ≠ NULL →
  key nn = kptr z → key_owned nn = true → F !! kptr z = Some (CStr s) → kptr z ≠ NULL →
  (∀ w', zrep B (removed F z) k t w' → Q tt w') → wp (rb_node_free (addr z)) Q w.
Proof.
  intros Hz HFz Hzn Hk Ho HFk Hkn HQ. unfold rb_node_free. rewrite (proj2 (Z.eqb_neq _ _) Hzn).
  assert (addr z ≠ kptr z) as Hne by congruence.
  wp_step. eapply wp_load_node; [eapply zrep_frame; [exact Hz|apply lookup_insert_eq]|].
  rewrite Hk, Ho, (proj2 (Z.eqb_neq _ _) Hkn). cbn [negb andb]. wp_step.
  eapply wp_free_frame; [exact Hz|rewrite lookup_insert_ne by done; exact HFk|done|].
  clear w Hz. intros w Hz.
  eapply wp_free_frame; [exact Hz|rewrite lookup_delete_ne by done; apply lookup_insert_eq|done|].
  clear w Hz. intros w Hz. apply HQ. unfold removed.
  rewrite (delete_insert_ne F) in Hz by done. rewrite delete_insert_id in Hz; [done|].
  by rewrite lookup_delete_ne.
Qed.

(** [rb_delete] on a tree without adjacent red nodes: it removes the node or
    dereferences NULL, and on a balanced tree it does the former. *)
Lemma wp_rb_delete F (bal : Prop) k c l z r s (Q : unit → tworld → Prop) w :
  zrep B F k (T c l z r) w → nrr (plug k (T c l z r)) → tcolor (plug k (T c l z r)) = RB_BLACK →
  (bal → ∃ n, bh n (plug k (T c l z r))) →
  owned z = true → F !! kptr z = Some (CStr s) → kptr z ≠ NULL → F !! NULL = None →
  (∀ t' w', nrr t' → tcolor t' = RB_BLACK →
     entries t' = before k ++ (entries l ++ entries r) ++ after k →
     zrep (@bsize B (wrap64 (b_size B - 1))) (removed F z) [] t' w' → Q tt w') →
  wp_null (rb_delete (addr z)) Q w ∧ (bal → wp (rb_delete (addr z)) Q w).
Proof.
  intros Hz Hn Hroot Hb Ho Hk Hkn HF HQ.
  pose proof (zrep_nonnull _ _ L _ _ _ _ _ Hz) as Hzn.
  assert (F !! addr z = None) as HFz.
  { destruct Hz as (h & _ & Hz). apply (zh_own _ _ _ _ Hz). rewrite addrs_T. set_solver. }
  set (es := before k ++ (entries l ++ entries r) ++ after k) in *.
  assert (∀ Q', (∀ k' t' c' w', cut bal es k' t' c' →
     zrep (@bsize B (wrap64 (b_size B - 1))) (removed F z) k' t' w' → Q' (c', ptr t') w') →
   wp (unlink_and_free (addr z)) Q' w) as Hfirst.
  { intros Q' HQ'. unfold unlink_and_free. wp_step. eapply wp_rb_unlink; [done..|].
    clear w Hz. intros k' t' c' nn w Hcut Hnk Hno Hz.
    wp_step. eapply wp_rb_node_free; [exact Hz|done..|congruence|exact Hk|done|]. clear w Hz. intros w Hz.
    wp_step. eapply wp_deref; [by eapply zrep_deref|]. wp_step.
    eapply wp_tree_set_size; [exact Hz|]. intros w' Hz'. wp_step. by eapply HQ'. }
  assert (removed F z !! NULL = None) as HFn.
  { unfold removed. rewrite lookup_delete_ne by done. exact HF. }
  split.
  - unfold wp_null. rewrite rb_delete_split. apply wp_null_seq, Hfirst. intros k' t' c' w' Hcut Hz'.
    destruct c'; simpl.
    + apply zrep_plug in Hz'. destruct (cut_fixup_done _ _ _ _ _ Hcut eq_refl) as (? & ? & ?).
      apply wp_null_of, wp_ret. by eapply HQ.
    + eapply wp_rb_delete_fixup; [exact Hz'|by eapply cut_fixup|done|]. intros t2 w2 Hz2 ? ? ?. by eapply HQ.
  - intros Hbal. unfold wp. rewrite rb_delete_split. apply wp_bind, Hfirst. intros k' t' c' w' Hcut Hz'.
    destruct c'; simpl.
    + apply zrep_plug in Hz'. destruct (cut_fixup_done _ _ _ _ _ Hcut eq_refl) as (? & ? & ?).
      apply wp_ret. by eapply HQ.
    + eapply wp_rb_delete_fixup_red; [exact Hz'|by eapply cut_fixup|by eapply cu_bal|].
      intros t2 w2 Hz2 ? ? ?. by eapply HQ.
Qed.
End remove.
End TreeRemove.
