(* ===== verification/TreeMapRefine.v ===== *)
(** * The tree map as an ordered dictionary

    Every call of src/src/container/treemap.c on a represented dictionary, for
    every comparator that orders the strings.  [U] is the memory of the caller:
    the strings it passes as keys. *)
From S2P Require Import Prelude World HashMap HashMapProofs TreeMap RBTree TreeHeap.
From S2P Require Import TreeInsert TreeFind TreePut TreeDelete TreeFixup TreeRemove.

Module TreeMapRefine.
Import TreeMap RBTree TreeHeap TreeRotate TreeInsert TreeFind TreePut TreeDelete TreeFixup TreeRemove.
Import HashMapProofs(cstring).

Definition kv (e : entry) : list Z * Z := (kstr e, val e).
Abbreviation dict := (list (list Z * Z)).
Definition kptrs (es : list entry) : list Z := kptr <$> es.

Section rep.
Context (U : gmap Z (list Z)) (cf : option cobalt_compare_func).
Abbreviation cmp := (keycmp cf).

(** What is known of each entry: the tree owns its key, a string of its own. *)
Definition entry_ok (bk : Z) (F : gmap Z cell) (e : entry) : Prop :=
  owned e = true ∧ cstring (kstr e) ∧ F !! kptr e = Some (CStr (kstr e)) ∧
  U !! kptr e = None ∧ 1 ≤ addr e < bk ∧ 1 ≤ kptr e < bk.

(** The tree [t] in the world [w]; [bal] says whether it is balanced. *)
Record tree_ok (bal : Prop) (B : base) (F : gmap Z cell) (t : tree) (w : tworld) : Prop := {
  to_zrep : zrep B F [] t w;
  to_size : b_size B = Z.of_nat (card t);
  to_cmp : b_cmp B = cf;
  to_ord : StronglySorted (lt_entry cmp) (entries t);
  to_entries : Forall (entry_ok (b_brk B) F) (entries t);
  to_kdup : NoDup (kptrs (entries t));
  to_frame q : q ∉ kptrs (entries t) → F !! q = CStr <$> U !! q;
  to_brk : 1 ≤ b_brk B ≤ 2 ^ 64;
  to_caller q s : U !! q = Some s → 1 ≤ q < b_brk B;
  to_nrr : nrr t;
  to_black : tcolor t = RB_BLACK;
  to_bal : bal → ∃ n, bh n t
}.

Definition trep (bal : Prop) (w : tworld) (d : dict) : Prop :=
  ∃ B F t, tree_ok bal B F t w ∧ d = kv <$> entries t.

Section facts.
Context {bal : Prop} {B : base} {F : gmap Z cell} {t : tree} {w : tworld}.
Hypothesis Hok : tree_ok bal B F t w.

Lemma ok_keys : keys_ok (entries t).
Proof. eapply Forall_impl; [apply Hok|]. by intros e (_ & ? & _). Qed.

Lemma ok_kin : keys_in F (entries t).
Proof. eapply Forall_impl; [apply Hok|]. by intros e (_ & _ & ? & _). Qed.

(** Everything allocated lies below the next fresh address. *)
Lemma ok_bound q : q ∈ addrs t ∨ is_Some (F !! q) → 1 ≤ q < b_brk B.
Proof.
  pose proof (proj1 (Forall_forall _ _) (to_entries _ _ _ _ _ Hok)) as He.
  intros [(e & -> & Hin)%list_elem_of_fmap|[c Hc]].
  - by destruct (He e Hin) as (_ & _ & _ & _ & ? & _).
  - destruct (decide (q ∈ kptrs (entries t))) as [(e & -> & Hin)%list_elem_of_fmap|Hq].
    + by destruct (He e Hin) as (_ & _ & _ & _ & _ & ?).
    + rewrite (to_frame _ _ _ _ _ Hok q Hq) in Hc. destruct (U !! q) eqn:E; [|done].
      by eapply (to_caller _ _ _ _ _ Hok).
Qed.

Lemma ok_out q : ¬ (1 ≤ q < b_brk B) → F !! q = None ∧ q ∉ addrs t.
Proof.
  intros Hq. split.
  - destruct (F !! q) eqn:E; [|done]. exfalso. apply Hq, ok_bound. right. eauto.
  - intros Hin. by apply Hq, ok_bound; left.
Qed.

Lemma ok_null : F !! NULL = None.
Proof. apply ok_out. unfold NULL. lia. Qed.

(** A key of the caller is none of the tree's. *)
Lemma ok_caller q s : U !! q = Some s → F !! q = Some (CStr s).
Proof.
  intros Hq. rewrite (to_frame _ _ _ _ _ Hok); [by rewrite Hq|].
  intros (e & -> & Hin)%list_elem_of_fmap.
  destruct (proj1 (Forall_forall _ _) (to_entries _ _ _ _ _ Hok) e Hin) as (_ & _ & _ & Hn & _). congruence.
Qed.

Lemma ok_card : Z.of_nat (card t) < b_brk B.
Proof.
  destruct (to_zrep _ _ _ _ _ Hok) as (h & _ & [_ _ Hnd _ _]). simpl in Hnd.
  assert (addrs t ⊆+ seqZ 1 (b_brk B - 1)) as Hsub.
  { apply NoDup_submseteq; [done|]. intros p Hp. apply elem_of_seqZ.
    pose proof (ok_bound p (or_introl Hp)). lia. }
  apply submseteq_length in Hsub. pose proof (to_brk _ _ _ _ _ Hok).
  rewrite length_seqZ in Hsub. unfold addrs in Hsub. rewrite length_fmap, <- card_entries in Hsub. lia.
Qed.
End facts.

(** ** Search *)

Context `{!KeyOrder cmp}.

(** A key of the caller: [p] is the address of the string [s]. *)
Definition key_at (p : Z) (s : list Z) : Prop := p ≠ NULL ∧ U !! p = Some s ∧ cstring s.

Lemma wp_tree_find bal B F t w p s (Q : Z → tworld → Prop) :
  tree_ok bal B F t w → key_at p s →
  (∀ k c l e r, plug k (T c l e r) = t → cmp s (kstr e) = 0 →
     Forall (λ e, 0 < cmp s (kstr e)) (before k ++ entries l) →
     Forall (λ e, cmp s (kstr e) < 0) (entries r ++ after k) → Q (addr e) w) →
  (∀ k, plug k E = t → path_ok cmp s k → Q NULL w) →
  wp (rb_find (ptr t) p) Q w.
Proof.
  intros Hok (Hp & HU & Hs) Hhit Hmiss. pose proof (to_cmp _ _ _ _ _ Hok) as Ec.
  assert (KeyOrder (keycmp (b_cmp B))) as HK by (by rewrite Ec).
  pose proof (to_ord _ _ _ _ _ Hok) as Hord. pose proof (ok_keys Hok) as Hkeys.
  eapply (wp_rb_find F); [apply Hok|by rewrite Ec|done|by eapply ok_kin|by eapply ok_caller|done| |].
  - intros k c l e r <- Hc. rewrite Ec in Hc. destruct (path_hit cmp s k c l e r) as [H1 H2]; [done..|].
    by eapply Hhit.
  - intros k <- Hpath. rewrite Ec in Hpath. by eapply Hmiss.
Qed.

Lemma kv_below s es : Forall (λ e, 0 < cmp s (kstr e)) es → Forall (λ x : list Z * Z, 0 < cmp s x.1) (kv <$> es).
Proof. intros H. apply Forall_fmap. done. Qed.
Lemma kv_above s es : Forall (λ e, cmp s (kstr e) < 0) es → Forall (λ x : list Z * Z, cmp s x.1 < 0) (kv <$> es).
Proof. intros H. apply Forall_fmap. done. Qed.

Lemma entries_split k c l e r :
  kv <$> entries (plug k (T c l e r)) =
  (kv <$> (before k ++ entries l)) ++ kv e :: (kv <$> (entries r ++ after k)).
Proof.
  rewrite entries_plug. simpl. rewrite !fmap_app. simpl. by rewrite <- !app_assoc.
Qed.

Lemma wp_treemap_get bal w d p s :
  trep bal w d → key_at p s →
  wp (cobalt_treemap_get p) (λ r w', w' = w ∧ r = default NULL (dict_get cmp s d)) w.
Proof.
  intros (B & F & t & Hok & ->) Hk. unfold cobalt_treemap_get. wp_steps.
  rewrite (zrep_deref _ _ _ _ (to_zrep _ _ _ _ _ Hok)). destruct (id Hk) as [Hp _].
  rewrite (proj2 (Z.eqb_neq _ _) Hp). wp_step. eapply wp_tree_find; [exact Hok|exact Hk| |].
  - intros k c l e r <- Hc H1 H2.
    pose proof (to_zrep _ _ _ _ _ Hok) as Hz. apply zrep_plug in Hz.
    pose proof (zrep_nonnull _ _ L _ _ _ _ _ Hz) as Hn. rewrite (proj2 (Z.eqb_neq _ _) Hn).
    wp_step. eapply wp_load_node; [by eapply (zrep_node _ _ L)|]. wp_step. split; [done|].
    rewrite entries_split. change (kv e) with (kstr e, val e).
    rewrite dict_get_hit; [done|by apply kv_below|done].
  - intros k <- [H1 H2]. apply wp_ret. split; [done|]. rewrite entries_plug, fmap_app. simpl.
    by rewrite dict_get_miss by (by apply kv_below || by apply kv_above).
Qed.

Lemma wp_treemap_contains bal w d p n s :
  trep bal w d → key_at p s →
  wp (treemap_map_contains p n) (λ r w', w' = w ∧ r = bool_decide (is_Some (dict_get cmp s d))) w.
Proof.
  intros (B & F & t & Hok & ->) Hk. unfold treemap_map_contains.
  wp_step. eapply wp_deref; [eapply zrep_deref, Hok|]. wp_step. eapply wp_tree_find; [exact Hok|exact Hk| |].
  - intros k c l e r <- Hc H1 H2.
    pose proof (to_zrep _ _ _ _ _ Hok) as Hz. apply zrep_plug in Hz.
    pose proof (zrep_nonnull _ _ L _ _ _ _ _ Hz) as Hn. rewrite (proj2 (Z.eqb_neq _ _) Hn).
    wp_step. split; [done|]. rewrite entries_split. change (kv e) with (kstr e, val e).
    rewrite dict_get_hit; [done|by apply kv_below|done].
  - intros k <- [H1 H2]. apply wp_ret. split; [done|]. rewrite entries_plug, fmap_app. simpl.
    by rewrite dict_get_miss by (by apply kv_below || by apply kv_above).
Qed.

(** ** Changing the entries *)

(** The order only looks at the keys. *)
Lemma ordered_kv es es' :
  kstr <$> es' = kstr <$> es → StronglySorted (lt_entry cmp) es → StronglySorted (lt_entry cmp) es'.
Proof.
  intros E Hs. revert es' E. induction Hs as [|e es Hs IH He]; intros [|e' es'] E; simplify_eq/=; constructor.
  - by apply IH.
  - apply Forall_forall. intros x Hx. unfold lt_entry. rewrite H.
    apply (list_elem_of_fmap_2 kstr) in Hx. rewrite H0 in Hx.
    apply list_elem_of_fmap in Hx as (y & -> & Hy). by apply (proj1 (Forall_forall _ _) He).
Qed.

(** ** Put *)

(** A call keeps the allocator and takes two addresses at most. *)
Definition later (w w' : tworld) : Prop :=
  oracle w' = oracle w ∧ brk w ≤ brk w' ≤ brk w + 2.

Lemma later_zrep B B' F F' k k' t t' w w' :
  zrep B F k t w → zrep B' F' k' t' w' → b_oracle B' = b_oracle B →
  b_brk B ≤ b_brk B' ≤ b_brk B + 2 → later w w'.
Proof. intros (h & -> & _) (h' & -> & _) Ho Hb. by split. Qed.

(** The key exists: its value is replaced. *)
Lemma wp_put_hit bal B F k c l e r w v (Q : unit → tworld → Prop) s :
  tree_ok bal B F (plug k (T c l e r)) w →
  cmp s (kstr e) = 0 → Forall (λ e, 0 < cmp s (kstr e)) (before k ++ entries l) →
  (∀ w', later w w' → trep bal w' (dict_put cmp s v (kv <$> entries (plug k (T c l e r)))) → Q tt w') →
  wp (set_value (addr e) v) Q w.
Proof.
  intros Hok Hc H1 HQ. destruct (id Hok) as [Hz Hsz Hcf Hord Hent Hkd Hfr Hbk Hca Hn Hb Hbal].
  apply zrep_plug in Hz. eapply (wp_set_value F k L); [exact Hz|]. intros w' Hz'. apply HQ.
  { eapply later_zrep; [exact Hz|exact Hz'|done|lia]. }
  set (e' := with_val e v) in *.
  assert (∀ {X} (f : entry → X), f e' = f e →
    f <$> entries (plug k (T c l e' r)) = f <$> entries (plug k (T c l e r))) as Hmap.
  { intros X f Hf. rewrite !entries_plug. simpl. by rewrite !fmap_app, !fmap_cons, Hf. }
  exists B, F, (plug k (T c l e' r)). split.
  - split; try done.
    + exact (proj1 (zrep_plug _ _ _ _) Hz').
    + rewrite Hsz, !card_entries. pose proof (Hmap _ addr eq_refl) as Hl.
      apply (f_equal length) in Hl. rewrite !length_fmap in Hl. by rewrite Hl.
    + eapply ordered_kv; [|exact Hord]. by apply Hmap.
    + rewrite entries_plug in Hent |- *. simpl in *. rewrite !Forall_app, Forall_cons in *. exact Hent.
    + unfold kptrs. by rewrite Hmap.
    + intros q. unfold kptrs. rewrite Hmap by done. apply Hfr.
    + apply nrr_unplug in Hn as [Hn1 Hn2]. by apply nrr_plug.
    + by rewrite tcolor_root in *.
    + intros (n & (m & Hm & Hk)%bh_unplug)%Hbal. exists n. by eapply bh_plug.
  - rewrite !entries_split. change (kv e) with (kstr e, val e). change (kv e') with (kstr e, v).
    rewrite (dict_put_hit cmp s v); [done| |done]. by apply kv_below.
Qed.

(** The allocator's side of the world changes. *)
Lemma tree_ok_base bal B B' F t w w' :
  tree_ok bal B F t w → zrep B' F [] t w' → b_size B' = b_size B → b_cmp B' = b_cmp B →
  b_brk B ≤ b_brk B' ≤ 2 ^ 64 → tree_ok bal B' F t w'.
Proof.
  intros [Hz Hsz Hcf Hord Hent Hkd Hfr Hbk Hca Hn Hb Hbal] Hz' Es Ec Eb. split; try done.
  - congruence.
  - congruence.
  - eapply Forall_impl; [exact Hent|]. unfold entry_ok. intros e (? & ? & ? & ? & ? & ?).
    split_and!; try done; lia.
  - lia.
  - intros q s' Hq. apply Hca in Hq. lia.
Qed.

Definition b_request (B : base) : base :=
  Base (b_size B) (b_cmp B) (b_brk B) (b_oracle B) (S (b_allocs B)) (b_error B).
Definition b_node (B : base) : base :=
  Base (b_size B) (b_cmp B) (b_brk B + 1) (b_oracle B) (S (b_allocs B)) (b_error B).
Definition b_fail (B : base) (e : cobalt_error) : base :=
  Base (b_size B) (b_cmp B) (b_brk B) (b_oracle B) (b_allocs B) e.

Lemma zrep_request B F k t w : zrep B F k t w → zrep (b_request B) F k t (with_request w).
Proof. intros (h & -> & Hz). by exists h. Qed.

Lemma zrep_fail B F k t w e : zrep B F k t w → zrep (b_fail B e) F k t (with_error w e).
Proof. intros (h & -> & Hz). by exists h. Qed.

Lemma zrep_alloc B F t w c :
  zrep B F [] t w → F !! b_brk B = None → b_brk B ∉ addrs t →
  zrep (b_node B) (<[b_brk B := c]> F) [] t (with_node w c).
Proof.
  intros (h & -> & Hz) HF Hn. exists (<[b_brk B := c]> h). split; [done|].
  eapply zheap_frame; [exact Hz| |]; simpl.
  - intros q Hq. assert (b_brk B ≠ q) by (by intros <-). rewrite !lookup_insert_ne by done.
    split; [done|]. apply (zh_own _ _ _ _ Hz). done.
  - intros q Hq. rewrite !lookup_insert. case_decide; [done|]. by apply (zh_frame _ _ _ _ Hz).
Qed.

(** A put needs a node and a copy of the key: memory is short for that. *)
Definition put_short (w : tworld) (s : list Z) : Prop :=
  starved w (Z.max sizeof_node (Z.of_nat (length s) + 1)) ∨ 2 ^ 64 ≤ brk w + 1.

Lemma zrep_world B F k t w : zrep B F k t w → brk w = b_brk B ∧ oracle w = b_oracle B ∧ allocs w = b_allocs B.
Proof. by intros (h & -> & _). Qed.

Lemma wp_node_create bal B F t w p s v (Q : Z → tworld → Prop) :
  tree_ok bal B F t w → key_at p s →
  (∀ w', b_brk B + 2 ≤ 2 ^ 64 →
     zrep (b_node (b_node B)) (<[b_brk B := CNode (fresh_node (b_brk B + 1) v)]>
        (<[b_brk B + 1 := CStr s]> F)) [] t w' → Q (b_brk B) w') →
  (∀ w', put_short w s → later w w' → trep bal w' (kv <$> entries t) → Q NULL w') →
  wp (rb_node_create p v) Q w.
Proof.
  intros Hok (Hp & HU & Hs) Hyes Hno. unfold rb_node_create, rb_node_create_ext.
  pose proof (to_zrep _ _ _ _ _ Hok) as Hz. destruct (zrep_world _ _ _ _ _ Hz) as (Ebrk & _ & _).
  pose proof (to_brk _ _ _ _ _ Hok) as Hbk. destruct (ok_out Hok (b_brk B)) as [HF1 Hn1]; [lia|].
  destruct (ok_out Hok (b_brk B + 1)) as [HF2 Hn2]; [lia|].
  wp_step. apply wp_alloc_node; intros Hor.
  2: { rewrite Z.eqb_refl. wp_steps. apply Hno.
       - left. eapply starved_mono; [by apply refuses_starved|]. lia.
       - split; [done|]. simpl. lia.
       - exists (b_fail (b_request B) COBALT_ERROR_OUT_OF_MEMORY), F, t. split; [|done].
         eapply tree_ok_base; [exact Hok|by apply zrep_fail, zrep_request|done..|simpl; lia]. }
  intros Hlt. rewrite Ebrk in *. rewrite (proj2 (Z.eqb_neq _ _)) by (unfold NULL; lia). wp_step.
  pose proof (zrep_alloc B F t w (CNode (TNode NULL v NULL NULL NULL RB_RED true)) Hz HF1 Hn1) as Hz1.
  unfold cobalt_strdup_with_alloc. wp_step. eapply wp_load_str.
  { eapply zrep_frame; [exact Hz1|]. rewrite lookup_insert_ne; [by eapply ok_caller|].
    intros <-. by rewrite (ok_caller Hok _ s) in HF1. }
  destruct (zrep_world _ _ _ _ _ Hz1) as (Ebrk1 & _ & _). simpl in Ebrk1.
  apply wp_alloc_node; intros Hor2.
  - intros Hlt2. change (brk (with_node w ?c)) with (brk w + 1) in *. rewrite !Ebrk in *.
    rewrite (proj2 (Z.eqb_neq _ _)) by (unfold NULL; lia).
    pose proof (zrep_alloc (b_node B) _ t _ (CStr s) Hz1) as Hz2. cbn [b_brk b_node] in Hz2.
    rewrite lookup_insert_ne in Hz2 by lia. specialize (Hz2 HF2 Hn2).
    wp_step. eapply wp_store.
    { eapply zrep_frame; [exact Hz2|]. rewrite lookup_insert_ne by lia. apply lookup_insert_eq. }
    wp_step. apply Hyes; [lia|]. destruct Hz2 as (h2 & E2 & Hz2). rewrite E2.
    eexists. split; [reflexivity|].
    rewrite insert_insert_ne in Hz2 by lia.
    eapply (zheap_insert_frame _ _ _ _ _ (CNode (fresh_node (b_brk B + 1) v))) in Hz2;
      [|apply lookup_insert_eq].
    by rewrite insert_insert_eq in Hz2.
  - rewrite Z.eqb_refl. wp_steps.
    eapply wp_free_frame; [by apply zrep_fail, zrep_request|apply lookup_insert_eq|unfold NULL; lia|].
    intros w' Hz'. wp_step. rewrite delete_insert_id in Hz' by done. apply Hno.
    + destruct Hor2 as [Hor2|Hor2].
      * left. right. exists (S (allocs w)), (Z.of_nat (length s) + 1). split; [lia|exact Hor2].
      * right. exact Hor2.
    + eapply later_zrep; [exact Hz|exact Hz'|done|simpl; lia].
    + exists (b_fail (b_request (b_node B)) COBALT_ERROR_OUT_OF_MEMORY), F, t. split; [|done].
      eapply tree_ok_base; [exact Hok|exact Hz'|done..|simpl; lia].
Qed.

Lemma ordered_insert es1 e es2 :
  StronglySorted (lt_entry cmp) (es1 ++ es2) → keys_ok (es1 ++ es2) → cstring (kstr e) →
  Forall (λ x, 0 < cmp (kstr e) (kstr x)) es1 → Forall (λ x, cmp (kstr e) (kstr x) < 0) es2 →
  StronglySorted (lt_entry cmp) (es1 ++ e :: es2).
Proof.
  intros (H12 & H1 & H2)%StronglySorted_app [K1 K2]%Forall_app Ke B1 B2.
  apply StronglySorted_app. split_and!; [|done|by constructor].
  intros x1 x2 Hx1 [->|Hx2]%elem_of_cons; [|by apply H12].
  apply ko_sym; [done|by apply (proj1 (Forall_forall _ _) K1)|].
  by apply (proj1 (Forall_forall _ _) B1).
Qed.

(** The new entry in the dictionary. *)
Lemma tree_ok_insert bal B B' F t t' w w' z kp s v es1 es2 :
  tree_ok bal B F t w → entries t = es1 ++ es2 → entries t' = es1 ++ Entry z kp s v true :: es2 →
  Forall (λ e, 0 < cmp s (kstr e)) es1 → Forall (λ e, cmp s (kstr e) < 0) es2 → cstring s →
  z = b_brk B → kp = b_brk B + 1 → b_brk B' = b_brk B + 2 → b_brk B' ≤ 2 ^ 64 →
  b_cmp B' = b_cmp B → b_size B' = wrap64 (b_size B + 1) →
  nrr t' → tcolor t' = RB_BLACK → (bal → ∃ n, bh n t') →
  zrep B' (<[kp := CStr s]> F) [] t' w' →
  trep bal w' (dict_put cmp s v (kv <$> entries t)).
Proof.
  intros Hok Ht Ht' H1 H2 Hs -> -> Eb Hb2 Ec Es Hn Hb Hbal Hz'.
  destruct (id Hok) as [_ Hsz Hcf Hord Hent Hkd Hfr Hbk Hca _ _ _].
  pose proof (ok_card Hok) as Hcard. destruct (ok_out Hok (b_brk B + 1)) as [HF2 _]; [lia|].
  assert (entries t' ≡ₚ Entry (b_brk B) (b_brk B + 1) s v true :: entries t) as Hp.
  { rewrite Ht, Ht'. solve_Permutation. }
  assert (∀ e, e ∈ entries t → kptr e ≠ b_brk B + 1) as Hkne.
  { intros e He. destruct (proj1 (Forall_forall _ _) Hent e He) as (_ & _ & _ & _ & _ & ?). lia. }
  exists B', (<[b_brk B + 1 := CStr s]> F), t'. split.
  - split; try done.
    + rewrite Es, Hsz, !card_entries, Hp. simpl. rewrite wrap64_small; [lia|].
      rewrite card_entries in Hcard. lia.
    + congruence.
    + rewrite Ht'. apply ordered_insert; try done; rewrite <- Ht; [done|by eapply ok_keys].
    + rewrite Hp. constructor.
      * unfold entry_ok. simpl. rewrite lookup_insert_eq. split_and!; try done; try lia.
        destruct (U !! (b_brk B + 1)) eqn:E; [|done]. apply Hca in E. lia.
      * apply Forall_forall. intros e He.
        destruct (proj1 (Forall_forall _ _) Hent e He) as (? & ? & ? & ? & ? & ?).
        pose proof (Hkne e He). unfold entry_ok. rewrite lookup_insert_ne by lia. split_and!; try done; lia.
    + unfold kptrs. rewrite Hp. simpl. apply NoDup_cons. split; [|done].
      intros (e & E & He)%list_elem_of_fmap. by apply (Hkne e).
    + intros q. unfold kptrs. rewrite Hp. simpl. rewrite not_elem_of_cons. intros [Hq1 Hq2].
      rewrite lookup_insert_ne by done. by apply Hfr.
    + lia.
    + intros q s' Hq. apply Hca in Hq. lia.
  - rewrite Ht, Ht', !fmap_app. simpl. rewrite dict_put_miss; [done|by apply kv_below|by apply kv_above].
Qed.

Lemma wp_treemap_put bal w d p s v :
  trep bal w d → key_at p s →
  wp (cobalt_treemap_put p v) (λ r w', later w w' ∧
    (r = 0 ∧ trep bal w' (dict_put cmp s v d) ∨ r = -1 ∧ put_short w s ∧ trep bal w' d)) w.
Proof.
  intros (B & F & t & Hok & ->) Hk. unfold cobalt_treemap_put. wp_steps.
  rewrite (zrep_deref _ _ _ _ (to_zrep _ _ _ _ _ Hok)). destruct (id Hk) as (Hp & HU & Hs).
  rewrite (proj2 (Z.eqb_neq _ _) Hp). wp_step. eapply wp_tree_find; [exact Hok|exact Hk| |].
  - intros k c l e r <- Hc H1 H2. pose proof (to_zrep _ _ _ _ _ Hok) as Hz. apply zrep_plug in Hz.
    pose proof (zrep_nonnull _ _ L _ _ _ _ _ Hz) as Hn. rewrite (proj2 (Z.eqb_neq _ _) Hn). wp_step.
    eapply wp_put_hit; [exact Hok|exact Hc|exact H1|]. intros w' Hl Hw'. wp_step. split; [done|]. by left.
  - intros k Hpl [H1 H2]. change (negb (NULL =? NULL)) with false. wp_step.
    pose proof (to_brk _ _ _ _ _ Hok) as Hbk. pose proof (to_cmp _ _ _ _ _ Hok) as Ec.
    assert (entries t = before k ++ after k) as Ht by (by rewrite <- Hpl, entries_plug).
    eapply wp_node_create; [exact Hok|exact Hk| |].
    + intros w' Hb2 Hz'. rewrite (proj2 (Z.eqb_neq _ _)) by (unfold NULL; lia). wp_step.
      assert (KeyOrder (keycmp (b_cmp (b_node (b_node B))))) by (simpl; by rewrite Ec).
      destruct (ok_out Hok (b_brk B)) as [HF1 _]; [lia|]. destruct (ok_out Hok (b_brk B + 1)) as [HF2 _]; [lia|].
      eapply (wp_rb_insert _ bal); [exact Hz'| | |simpl; rewrite Ec; apply Hok|by eapply ok_keys| |
        apply lookup_insert_eq|done| |apply Hok|apply Hok|apply Hok|].
      * by rewrite lookup_insert_ne by lia.
      * unfold NULL; lia.
      * eapply Forall_impl; [by eapply ok_kin|]. intros e He. simpl in *.
        rewrite lookup_insert_ne; [done|]. intros E. by rewrite E, He in HF2.
      * simpl. rewrite Ec, Ht. apply Forall_app. split; [eapply Forall_impl; [exact H1|]|eapply Forall_impl; [exact H2|]]; simpl; lia.
      * simpl. rewrite Ec. intros t' w2 es1 es2 E1 E2 B1 B2 Hn Hb Hbal Hz2. wp_step. split.
        { eapply later_zrep; [exact (to_zrep _ _ _ _ _ Hok)|exact Hz2|done|simpl; lia]. }
        left. split; [done|].
        eapply tree_ok_insert; [exact Hok|exact E1|exact E2|done..| | | | |exact Hn|done|done|exact Hz2];
          simpl; [lia|lia|done|done].
    + intros w' Hsh Hl Hw'. apply wp_ret. split; [done|]. by right.
Qed.
End rep.
End TreeMapRefine.
