(* ===== verification/TreeMapOps.v ===== *)
(** * The tree map as an ordered dictionary: removal, ends, clearing *)
From S2P Require Import Prelude World HashMap HashMapProofs TreeMap RBTree TreeHeap.
From S2P Require Import TreeInsert TreeFind TreePut TreeDelete TreeFixup TreeRemove TreeMapRefine.

Module TreeMapOps.
Import TreeMap RBTree TreeHeap TreeRotate TreeInsert TreeFind TreePut TreeDelete TreeFixup TreeRemove.
Import TreeMapRefine.
Import HashMapProofs(cstring).

Section ops.
Context (U : gmap Z (list Z)) (cf : option cobalt_compare_func).
Abbreviation cmp := (keycmp cf).
Context `{!KeyOrder cmp}.
Abbreviation trep := (trep U cf).
Abbreviation tree_ok := (tree_ok U cf).

Lemma ordered_delete es1 e es2 :
  StronglySorted (lt_entry cmp) (es1 ++ e :: es2) → StronglySorted (lt_entry cmp) (es1 ++ es2).
Proof.
  intros (H12 & H1 & H2)%StronglySorted_app. apply StronglySorted_inv in H2 as [H2 _].
  apply StronglySorted_app. split_and!; [|done..]. intros x1 x2 Hx1 Hx2. apply H12; [done|by right].
Qed.

(** The entry [e] leaves the dictionary. *)
Lemma tree_ok_remove bal B B' F t t' w w' es1 e es2 s :
  tree_ok bal B F t w → entries t = es1 ++ e :: es2 → entries t' = es1 ++ es2 →
  Forall (λ e, 0 < cmp s (kstr e)) es1 → Forall (λ e, cmp s (kstr e) < 0) es2 → cmp s (kstr e) = 0 →
  b_brk B' = b_brk B → b_cmp B' = b_cmp B → b_size B' = wrap64 (b_size B - 1) →
  nrr t' → tcolor t' = RB_BLACK → zrep B' (removed F e) [] t' w' →
  trep False w' (dict_remove cmp s (kv <$> entries t)).
Proof.
  intros Hok Ht Ht' H1 H2 Hc Eb Ec Es Hn Hb Hz'.
  destruct (id Hok) as [_ Hsz Hcf Hord Hent Hkd Hfr Hbk Hca _ _ _]. pose proof (ok_card _ _ Hok) as Hcard.
  assert (entries t ≡ₚ e :: entries t') as Hp by (rewrite Ht, Ht'; solve_Permutation).
  rewrite card_entries, Hp in Hsz, Hcard. simpl in Hsz, Hcard.
  unfold kptrs in Hkd. rewrite Hp in Hent, Hkd. apply Forall_cons in Hent as [He Hent].
  simpl in Hkd. apply NoDup_cons in Hkd as [Hke Hkd].
  exists B', (removed F e), t'. split.
  - split; try done.
    + rewrite Es, Hsz, card_entries. rewrite wrap64_small; lia.
    + congruence.
    + rewrite Ht'. eapply ordered_delete. by rewrite <- Ht.
    + apply Forall_forall. intros x Hx.
      destruct (proj1 (Forall_forall _ _) Hent x Hx) as (? & ? & ? & ? & ? & ?).
      unfold entry_ok, removed. rewrite lookup_delete_ne; [split_and!; try done; lia|].
      intros E. apply Hke. rewrite E. by apply list_elem_of_fmap_2.
    + intros q Hq. unfold removed. rewrite lookup_delete. case_decide as E.
      * subst q. destruct He as (_ & _ & _ & -> & _). done.
      * apply Hfr. unfold kptrs. rewrite Hp. simpl. rewrite not_elem_of_cons. by split.
    + by rewrite Eb.
    + intros q s' Hq. rewrite Eb. by eapply Hca.
  - rewrite Ht, Ht', !fmap_app, fmap_cons. change (kv e) with (kstr e, val e).
    rewrite dict_remove_hit; [done|by apply kv_below|done|by apply kv_above].
Qed.

(** A removal returns as the dictionary does, or dereferences NULL; from a
    balanced tree it returns. *)
Lemma wp_treemap_remove (bal : Prop) w d p s :
  trep bal w d → key_at U p s →
  let Q r w' := r = 0 ∧ is_Some (dict_get cmp s d) ∧ later w w' ∧ trep False w' (dict_remove cmp s d) ∨
                r = -1 ∧ dict_get cmp s d = None ∧ w' = w in
  wp_null (cobalt_treemap_remove p) Q w ∧ (bal → wp (cobalt_treemap_remove p) Q w).
Proof.
  intros (B & F & t & Hok & ->) Hk Q. destruct (id Hk) as (Hp & HU & Hs).
  assert (∀ (P : Z → tworld → Prop),
    (∀ k c l e r, plug k (T c l e r) = t → cmp s (kstr e) = 0 →
       Forall (λ e, 0 < cmp s (kstr e)) (before k ++ entries l) →
       Forall (λ e, cmp s (kstr e) < 0) (entries r ++ after k) → P (addr e) w) →
    (dict_get cmp s (kv <$> entries t) = None → P NULL w) → wp (rb_find (ptr t) p) P w) as Hfind.
  { intros P Hhit Hmiss. eapply wp_tree_find; [done|exact Hok|exact Hk|exact Hhit|].
    intros k <- [H1 H2]. apply Hmiss. rewrite entries_plug, fmap_app. simpl.
    apply dict_get_miss; [by apply kv_below|by apply kv_above]. }
  assert (∀ k c l e r, plug k (T c l e r) = t → cmp s (kstr e) = 0 →
       Forall (λ e, 0 < cmp s (kstr e)) (before k ++ entries l) →
       Forall (λ e, cmp s (kstr e) < 0) (entries r ++ after k) → addr e ≠ NULL ∧
       wp_null (rb_delete (addr e)) (λ _ w', Q 0 w') w ∧ (bal → wp (rb_delete (addr e)) (λ _ w', Q 0 w') w)) as Hdel.
  { intros k c l e r <- Hc H1 H2. pose proof (to_zrep _ _ _ _ _ _ _ Hok) as Hz. apply zrep_plug in Hz.
    split; [by eapply (zrep_nonnull _ _ L)|].
    assert (e ∈ entries (plug k (T c l e r))) as Hin by (rewrite entries_plug; simpl; set_solver).
    destruct (proj1 (Forall_forall _ _) (to_entries _ _ _ _ _ _ _ Hok) e Hin) as (Ho & _ & HFk & _ & _ & Hkb).
    eapply (wp_rb_delete F bal); [exact Hz|apply Hok|apply Hok|apply Hok|done|exact HFk|unfold NULL; lia|by eapply ok_null|].
    intros t' w' Hn Hb He Hz'. left. split; [done|]. split.
    - rewrite entries_split. change (kv e) with (kstr e, val e).
      rewrite dict_get_hit; [done|by apply kv_below|done].
    - split; [eapply later_zrep; [exact Hz|exact Hz'|done|simpl; lia]|].
      eapply tree_ok_remove; [exact Hok| | |exact H1|exact H2|exact Hc| | | |exact Hn|done|exact Hz']; try done.
      + rewrite entries_plug. simpl. by rewrite <- !app_assoc.
      + rewrite He. by rewrite <- !app_assoc. }
  unfold cobalt_treemap_remove. split; [|intros Hbal].
  - apply wp_null_seq, wp_get_obj. rewrite (zrep_deref _ _ _ _ (to_zrep _ _ _ _ _ _ _ Hok)).
    rewrite (proj2 (Z.eqb_neq _ _) Hp). apply wp_null_seq. apply Hfind.
    + intros k c l e r Hpl Hc H1 H2. destruct (Hdel k c l e r Hpl Hc H1 H2) as (Hn & Hd & _).
      rewrite (proj2 (Z.eqb_neq _ _) Hn). apply wp_null_bind. eapply wp_null_mono; [exact Hd|].
      intros [] w' HQ. by apply wp_null_of, wp_ret.
    + intros Hm. apply wp_null_of, wp_ret. by right.
  - wp_steps. rewrite (zrep_deref _ _ _ _ (to_zrep _ _ _ _ _ _ _ Hok)).
    rewrite (proj2 (Z.eqb_neq _ _) Hp). wp_step. apply Hfind.
    + intros k c l e r Hpl Hc H1 H2. destruct (Hdel k c l e r Hpl Hc H1 H2) as (Hn & _ & Hd).
      rewrite (proj2 (Z.eqb_neq _ _) Hn). wp_step. eapply wp_mono; [by apply Hd|].
      intros [] w' HQ. by wp_step.
    + intros Hm. apply wp_ret. by right.
Qed.

(** ** The ends *)

Definition at_end {A} (d : side) (l : list A) : option A :=
  match d with L => head l | R => last l end.

Lemma at_end_fmap {A X} (f : A → X) d l : at_end d (f <$> l) = f <$> at_end d l.
Proof. destruct d; simpl; [by destruct l|by rewrite fmap_last]. Qed.

(** All holes on side [d]: the focus is at that end. *)
Lemma at_end_plug d k c e s :
  Forall (λ f, hole f = d) k → at_end d (entries (plug k (mk d c E e s))) = Some e.
Proof.
  intros Hk. rewrite entries_plug. destruct d; simpl.
  - assert (before k = []) as ->; [|done].
    induction Hk as [|f k Hf _ IH]; simpl; [done|]. by rewrite IH, Hf.
  - assert (after k = []) as ->; [|by rewrite app_nil_r, last_app, last_snoc].
    induction Hk as [|f k Hf _ IH]; simpl; [done|]. by rewrite IH, Hf.
Qed.

Lemma wp_find_end (B : base) d F t (Q : Z → tworld → Prop) w :
  zrep B F [] t w → t ≠ E →
  (∀ k c e s, plug k (mk d c E e s) = t → Forall (λ f, hole f = d) k → Q (addr e) w) →
  wp (rb_find_end d (ptr t)) Q w.
Proof.
  intros Hz Ht HQ. unfold rb_find_end. wp_step. apply wp_tree_fuel.
  pose proof (zrep_fits _ _ _ _ Hz) as Hfit. simpl in Hfit.
  apply (wp_loop_ghost (λ '(k, t') z w', w' = w ∧ z = ptr t' ∧ plug k t' = t ∧ t' ≠ E ∧
       Forall (λ f, hole f = d) k) (λ '(_, t'), card t') _ _ _ ([], t)); [done|simpl; lia|].
  intros [k t'] z w' (-> & -> & Hpl & Hne & Hk).
  assert (∃ c a e b, t' = mk d c a e b) as (c & a & e & b & ->).
  { destruct t' as [|c l e r]; [done|]. by destruct d; [exists c, l, e, r|exists c, r, e, l]. }
  pose proof Hz as Hz'. rewrite <- Hpl in Hz'. apply zrep_plug in Hz'. rewrite ptr_mk.
  pose proof (zrep_nonnull _ _ _ _ _ _ _ _ Hz') as Hn. rewrite (proj2 (Z.eqb_neq _ _) Hn).
  wp_step. eapply (wp_child_of F k d); [exact Hz'|]. destruct a as [|c2 l2 e2 r2].
  - apply wp_ret. by eapply HQ.
  - apply zrep_open in Hz'. pose proof (zrep_nonnull _ _ L _ _ _ _ _ Hz') as Hn2. cbn [ptr].
    rewrite (proj2 (Z.eqb_neq _ _) Hn2). wp_step. exists (Fr d c e b :: k, T c2 l2 e2 r2).
    split_and!; try done; [by constructor|destruct d; simpl; lia].
Qed.

(** The least or the greatest key, as a pointer to the tree's own copy. *)
Lemma wp_treemap_end bal w d dir :
  trep bal w d →
  wp (end_key dir) (λ p w', w' = w ∧
    match at_end dir d with
    | None => p = NULL
    | Some (s, _) => p ≠ NULL ∧ heap w !! p = Some (CStr s)
    end) w.
Proof.
  intros (B & F & t & Hok & ->). pose proof (to_zrep _ _ _ _ _ _ _ Hok) as Hz. unfold end_key. wp_steps.
  rewrite (zrep_deref _ _ _ _ Hz). cbn [root croot]. assert (t = E ∨ t ≠ E) as [->|Ht] by (destruct t; auto).
  { apply wp_ret. split; [done|]. by destruct dir. }
  destruct (ptr t =? NULL) eqn:En.
  { destruct t as [|c l e r]; [done|]. apply Z.eqb_eq in En. by apply (zrep_nonnull _ _ L) in Hz. }
  wp_step. eapply wp_find_end; [exact Hz|done|]. intros k c e s Hpl Hk.
  pose proof Hz as Hz'. rewrite <- Hpl in Hz'. apply zrep_plug in Hz'.
  pose proof (zrep_nonnull _ _ _ _ _ _ _ _ Hz') as Hn. rewrite (proj2 (Z.eqb_neq _ _) Hn).
  eapply (wp_key_of F k dir); [exact Hz'|]. split; [done|]. rewrite at_end_fmap, <- Hpl, at_end_plug by done.
  simpl. assert (e ∈ entries t) as Hin by (rewrite <- Hpl, entries_plug; destruct dir; simpl; set_solver).
  destruct (proj1 (Forall_forall _ _) (to_entries _ _ _ _ _ _ _ Hok) e Hin) as (_ & _ & HF & _ & _ & Hb).
  split; [unfold NULL; lia|]. by eapply zrep_frame.
Qed.

Lemma wp_treemap_size bal w d :
  trep bal w d → wp cobalt_treemap_size (λ r w', w' = w ∧ r = Z.of_nat (length d)) w.
Proof.
  intros (B & F & t & Hok & ->). unfold cobalt_treemap_size. wp_steps.
  rewrite (zrep_deref _ _ _ _ (to_zrep _ _ _ _ _ _ _ Hok)). split; [done|]. simpl.
  by rewrite (to_size _ _ _ _ _ _ _ Hok), card_entries, length_fmap.
Qed.

Lemma wp_treemap_is_empty bal w d :
  trep bal w d → wp treemap_map_is_empty (λ r w', w' = w ∧ r = bool_decide (d = [])) w.
Proof.
  intros H. unfold treemap_map_is_empty. wp_step. eapply wp_mono; [by eapply wp_treemap_size|].
  intros r w' [-> ->]. wp_step. split; [done|]. by destruct d.
Qed.

(** ** Destruction *)

Definition freed (ps : list Z) (h h' : gmap Z cell) : Prop :=
  ∀ q, h' !! q = if decide (q ∈ ps) then None else h !! q.

Lemma freed_nil h : freed [] h h.
Proof. intros q. by rewrite decide_False by apply not_elem_of_nil. Qed.

Lemma freed_delete p h : freed [p] h (delete p h).
Proof. intros q. rewrite lookup_delete. repeat case_decide; set_solver. Qed.

Lemma freed_app ps qs h h' h'' : freed ps h h' → freed qs h' h'' → freed (ps ++ qs) h h''.
Proof.
  intros H1 H2 q. rewrite H2, H1. repeat case_decide; rewrite ?elem_of_app in *; tauto.
Qed.

Lemma freed_perm ps qs h h' : ps ≡ₚ qs → freed ps h h' → freed qs h h'.
Proof. intros Hp H q. rewrite H. repeat case_decide; rewrite ?Hp in *; tauto. Qed.

Lemma freed_out ps h h' q c : freed ps h h' → q ∉ ps → h !! q = Some c → h' !! q = Some c.
Proof. intros H Hq <-. by rewrite H, decide_False. Qed.

(** The blocks of a tree: its nodes and the keys it owns. *)
Definition blocks (t : tree) : list Z := addrs t ++ kptrs (entries t).

Lemma blocks_T c l e r : blocks (T c l e r) ≡ₚ blocks l ++ blocks r ++ [kptr e; addr e].
Proof. unfold blocks, addrs, kptrs. simpl. rewrite !fmap_app, !fmap_cons. solve_Permutation. Qed.

Definition keys_at (h : gmap Z cell) (t : tree) : Prop :=
  Forall (λ e, owned e = true ∧ is_Some (h !! kptr e)) (entries t).

Lemma keys_at_freed ps h h' t :
  freed ps h h' → (∀ q, q ∈ blocks t → q ∉ ps) → keys_at h t → keys_at h' t.
Proof.
  intros Hf Hd Hk. apply Forall_forall. intros e He.
  destruct (proj1 (Forall_forall _ _) Hk e He) as (? & c & ?). split; [done|]. exists c.
  eapply freed_out; [exact Hf| |done]. apply Hd, elem_of_app. right. by apply list_elem_of_fmap_2.
Qed.

Lemma tree_at_freed ps h h' par t :
  freed ps h h' → (∀ q, q ∈ blocks t → q ∉ ps) → tree_at h par t → tree_at h' par t.
Proof.
  intros Hf Hd. apply tree_at_ext. intros q Hq. rewrite Hf, decide_False; [done|].
  apply Hd, elem_of_app. by left.
Qed.

Lemma wp_free_at e nn c (Q : unit → tworld → Prop) w :
  heap w !! addr e = Some (CNode nn) → key nn = kptr e → key_owned nn = true →
  heap w !! kptr e = Some c → addr e ≠ NULL → kptr e ≠ NULL → addr e ≠ kptr e →
  (∀ h, freed [kptr e; addr e] (heap w) h → Q tt (with_heap w h)) →
  wp (rb_node_free (addr e)) Q w.
Proof.
  intros Hn Hk Ho Hs Ha Hkn Hne HQ. unfold rb_node_free. rewrite (proj2 (Z.eqb_neq _ _) Ha).
  wp_step. eapply wp_load_node; [exact Hn|]. rewrite Hk, Ho, (proj2 (Z.eqb_neq _ _) Hkn). cbn [negb andb].
  wp_step. eapply wp_free_node; [done|exact Hs|]. eapply wp_free_node; [done| |].
  { simpl. rewrite lookup_delete_ne by done. exact Hn. }
  apply HQ. apply (freed_app [kptr e] [addr e] _ (delete (kptr e) (heap w))); apply freed_delete.
Qed.

Lemma wp_destroy fuel t par (Q : unit → tworld → Prop) w :
  (height t < fuel)%nat → tree_at (heap w) par t → keys_at (heap w) t → NoDup (blocks t) →
  (∀ q, q ∈ blocks t → q ≠ NULL) →
  (∀ h, freed (blocks t) (heap w) h → Q tt (with_heap w h)) →
  wp (destroy_tree fuel (ptr t)) Q w.
Proof.
  revert t par Q w. induction fuel as [|fuel IH]; intros t par Q w; [lia|].
  destruct t as [|c l e r]; intros Hf Ht Hk Hnd Hnn HQ.
  { apply wp_ret. rewrite <- (with_heap_id w) at 1. apply HQ, freed_nil. }
  pose proof (blocks_T c l e r) as Hp. rewrite Hp in Hnd. setoid_rewrite Hp in Hnn.
  apply NoDup_app in Hnd as (Hndl & Hdl & (Hndr & Hdr & Hnde)%NoDup_app).
  apply NoDup_cons in Hnde as [Hne _]. destruct Ht as (He & Hl & Hr).
  unfold keys_at in Hk. simpl in Hk. apply Forall_app in Hk as (Hkl & [[Ho [cs Hs]] Hkr]%Forall_cons).
  assert (addr e ≠ NULL) as Hen by (apply Hnn; rewrite !elem_of_app; set_solver).
  assert (kptr e ≠ NULL) as Hkn by (apply Hnn; rewrite !elem_of_app; set_solver).
  simpl in Hf |- *. rewrite (proj2 (Z.eqb_neq _ _) Hen).
  wp_step. eapply wp_child_at; [exact He|]. cbn [child nd left].
  wp_step. eapply (IH l); [lia|exact Hl|exact Hkl|done| |].
  { intros q Hq. apply Hnn. set_solver. }
  intros h1 F1. assert (∀ q, q ∈ blocks r → q ∉ blocks l) as Hd1 by (intros q Hq Hq'; apply (Hdl q); set_solver).
  assert (∀ q, q ∈ [kptr e; addr e] → q ∉ blocks l ∧ q ∉ blocks r) as Hd2.
  { intros q Hq. split; intros Hq'; [apply (Hdl q); set_solver|by apply (Hdr q)]. }
  assert (h1 !! addr e = Some (CNode (nd L e (ptr l) (ptr r) par c))) as He1.
  { eapply freed_out; [exact F1|apply Hd2; set_solver|done]. }
  wp_step. eapply wp_child_at; [exact He1|]. cbn [child nd right].
  wp_step. eapply (IH r); [lia|by eapply tree_at_freed|by eapply keys_at_freed|done| |].
  { intros q Hq. apply Hnn. rewrite !elem_of_app. tauto. }
  simpl. intros h2 F2. eapply wp_free_at; simpl.
  - eapply freed_out; [exact F2|apply Hd2; set_solver|exact He1].
  - done.
  - exact Ho.
  - eapply freed_out; [exact F2|apply Hd2; set_solver|].
    eapply freed_out; [exact F1|apply Hd2; set_solver|exact Hs].
  - done.
  - done.
  - intros E. apply Hne. rewrite E. by left.
  - intros h3 F3. apply HQ. eapply freed_perm; [by symmetry|].
    eapply freed_app; [exact F1|]. by eapply freed_app.
Qed.

(** All the map's blocks go; the caller's keys stay. *)
Lemma wp_destroy_all bal B F t (Q : unit → tworld → Prop) w :
  tree_ok bal B F t w →
  (∀ h, (∀ q, h !! q = CStr <$> U !! q) → Q tt (with_heap w h)) →
  wp (rb_destroy_tree (ptr t)) Q w.
Proof.
  intros Hok HQ. destruct (id Hok) as [Hz _ _ _ Hent Hkd Hfr _ _ _ _ _].
  unfold rb_destroy_tree. wp_step. apply wp_tree_fuel.
  pose proof (zrep_fits _ _ _ _ Hz) as Hfit. simpl in Hfit. pose proof (height_card t).
  destruct (id Hz) as (h & -> & [_ Ht Hnd Hown Hframe]). simpl in Ht, Hnd, Hown, Hframe.
  assert (∀ q, q ∈ kptrs (entries t) → q ∉ addrs t ∧ q ≠ NULL ∧ is_Some (h !! q)) as Hkp.
  { intros q (e & -> & He)%list_elem_of_fmap.
    destruct (proj1 (Forall_forall _ _) Hent e He) as (_ & _ & HF & _ & _ & Hb).
    assert (kptr e ∉ addrs t) as Hn by (intros Hin; apply Hown in Hin as [_ Hin]; congruence).
    split_and!; [done|unfold NULL; lia|]. rewrite Hframe by done. by rewrite HF. }
  eapply (wp_destroy _ _ NULL); [lia|exact Ht| | | |].
  - apply Forall_forall. intros e He. split; [by apply (proj1 (Forall_forall _ _) Hent e He)|].
    apply Hkp. by apply list_elem_of_fmap_2.
  - apply NoDup_app. split_and!; [done| |done]. intros q Hq Hq'. by apply Hkp in Hq' as [? _].
  - intros q [Hq|Hq]%elem_of_app; [by apply Hown|by apply Hkp].
  - intros h' Hf. apply HQ. intros q. rewrite Hf. case_decide as Hq.
    + apply elem_of_app in Hq as [Hq|Hq].
      * destruct (Hown q Hq) as [_ HF]. destruct (U !! q) eqn:EU; [|done]. exfalso.
        by rewrite (ok_caller _ _ Hok q _ EU) in HF.
      * apply list_elem_of_fmap in Hq as (e & -> & He).
        destruct (proj1 (Forall_forall _ _) Hent e He) as (_ & _ & _ & -> & _). done.
    + unfold blocks in Hq. rewrite not_elem_of_app in Hq. destruct Hq. simpl. rewrite Hframe by done. by apply Hfr.
Qed.

(** Only the caller's strings are allocated. *)
Definition caller_only (w : tworld) : Prop :=
  (∀ q, heap w !! q = CStr <$> U !! q) ∧ 1 ≤ brk w ≤ 2 ^ 64 ∧
  ∀ q s, U !! q = Some s → 1 ≤ q < brk w.

Lemma trep_empty w :
  caller_only w → obj w = Some (TImpl NULL 0 cf) → trep True w [].
Proof.
  intros (Hh & Hb & HU) Ho. destruct w as [o h bk orc n er]. simpl in *. subst o.
  exists (Base 0 cf bk orc n er), (CStr <$> U), E. split; [|done]. split; simpl; try reflexivity; try constructor.
  - exists h. split; [done|]. split; simpl; try constructor.
    + by apply elem_of_nil in H.
    + by apply elem_of_nil in H.
    + intros q _. by rewrite Hh, lookup_fmap.
  - intros q _. by rewrite lookup_fmap.
  - lia.
  - lia.
  - by eapply HU.
  - by eapply HU.
  - by exists 0%nat.
Qed.

(** What [U] says of the world does not change. *)
Lemma caller_only_freed bal B F t w h :
  tree_ok bal B F t w → (∀ q, h !! q = CStr <$> U !! q) → ∀ o,
  caller_only (with_obj (with_heap w h) o).
Proof.
  intros Hok Hh o. destruct (zrep_world _ _ _ _ _ (to_zrep _ _ _ _ _ _ _ Hok)) as (Eb & _).
  pose proof (to_brk _ _ _ _ _ _ _ Hok). split_and!; simpl; [done|lia|lia|].
  intros q s Hq. rewrite Eb. by eapply (to_caller _ _ _ _ _ _ _ Hok).
Qed.

Lemma wp_rb_destroy bal w d t (Q : unit → tworld → Prop) :
  trep bal w d → obj w = Some t →
  (∀ h, (∀ o, caller_only (with_obj (with_heap w h) o)) → Q tt (with_heap w h)) →
  wp (rb_destroy_tree (root t)) Q w.
Proof.
  intros (B & F & t' & Hok & ->) Ho HQ.
  rewrite (zrep_deref _ _ _ _ (to_zrep _ _ _ _ _ _ _ Hok)) in Ho. injection Ho as <-. cbn [root croot].
  eapply wp_destroy_all; [exact Hok|]. intros h Hh. apply HQ. by eapply caller_only_freed.
Qed.

(** An empty map has no root. *)
Lemma trep_null bal w d t :
  trep bal w d → obj w = Some t → compare_func t = cf ∧ (root t = NULL → ∀ o, caller_only (with_obj w o)).
Proof.
  intros (B & F & t' & Hok & ->) Ho. pose proof (to_zrep _ _ _ _ _ _ _ Hok) as Hz.
  rewrite (zrep_deref _ _ _ _ Hz) in Ho. injection Ho as <-. cbn [root croot compare_func].
  split; [by eapply to_cmp|]. destruct t' as [|c l e r].
  - intros _ o. rewrite <- (with_heap_id w) at 1. eapply caller_only_freed; [exact Hok|].
    intros q. destruct (id Hz) as (h & -> & [_ _ _ _ Hf]). simpl in *.
    rewrite Hf by apply not_elem_of_nil. apply (to_frame _ _ _ _ _ _ _ Hok), not_elem_of_nil.
  - intros En. by apply (zrep_nonnull _ _ L) in Hz.
Qed.

Lemma trep_obj bal w d : trep bal w d → ∃ t, obj w = Some t.
Proof. intros (B & F & t & Hok & ->). rewrite (zrep_deref _ _ _ _ (to_zrep _ _ _ _ _ _ _ Hok)). eauto. Qed.

Lemma wp_treemap_clear bal w d :
  trep bal w d → wp treemap_map_clear (λ _ w', later w w' ∧ trep True w' []) w.
Proof.
  intros H. destruct (trep_obj _ _ _ H) as [t Ho]. destruct (trep_null _ _ _ _ H Ho) as [Hc Hnull].
  unfold treemap_map_clear, set_root, set_size. wp_step. eapply wp_deref; [exact Ho|]. wp_step.
  destruct (root t =? NULL) eqn:En.
  - apply Z.eqb_eq in En. wp_step. wp_step. eapply wp_deref; [exact Ho|]. apply wp_set_obj.
    split; [split; simpl; [done|lia]|]. apply trep_empty; [by apply Hnull|]. simpl. by rewrite En, Hc.
  - wp_step. eapply wp_rb_destroy; [exact H|exact Ho|]. intros h Hh.
    wp_step. eapply wp_deref; [exact Ho|]. apply wp_set_obj.
    wp_step. eapply wp_deref; [done|]. apply wp_set_obj.
    split; [split; simpl; [done|lia]|]. apply trep_empty; [apply Hh|]. simpl. by rewrite Hc.
Qed.

(** Nothing of the map is left allocated. *)
Lemma wp_treemap_destroy bal w d :
  trep bal w d → wp cobalt_treemap_destroy (λ _ w', obj w' = None ∧ caller_only w') w.
Proof.
  intros H. destruct (trep_obj _ _ _ H) as [t Ho]. destruct (trep_null _ _ _ _ H Ho) as [Hc Hnull].
  unfold cobalt_treemap_destroy. wp_step. apply wp_get_obj. rewrite Ho. wp_step.
  destruct (root t =? NULL) eqn:En.
  - apply Z.eqb_eq in En. apply wp_ret, wp_set_obj. split; [done|]. by apply Hnull.
  - eapply wp_rb_destroy; [exact H|exact Ho|]. intros h Hh. apply wp_set_obj. by split.
Qed.

Lemma wp_treemap_create w :
  caller_only w →
  wp (cobalt_treemap_create_ext cf) (λ _ w',
    trep True w' [] ∧ oracle w' = oracle w ∧ brk w' = brk w ∨ obj w' = None ∧ caller_only w' ∧ oracle w (allocs w) sizeof_treemap = false) w.
Proof.
  intros Hw. unfold cobalt_treemap_create_ext, cobalt_treemap_create, cobalt_treemap_create_with_allocator.
  wp_step. cbn [negb]. wp_step. apply wp_request; intros Hor; cbn [negb].
  - apply wp_set_obj. wp_step. apply wp_get_obj. simpl. apply wp_set_obj. left. split; [|done]. by apply trep_empty.
  - wp_step. apply wp_error_set, wp_set_obj. wp_step. apply wp_get_obj. simpl. apply wp_ret. by right.
Qed.
End ops.
End TreeMapOps.
