(* ===== verification/TreeIter.v ===== *)
(** * The in-order iterator of a tree map

    The stack of src/src/container/treemap.c holds the nodes whose left
    subtrees are done: with the right subtrees of those nodes it is what is
    left of the traversal. *)
From S2P Require Import Prelude World HashMap HashMapProofs TreeMap RBTree TreeHeap.
From S2P Require Import TreeInsert TreeFind TreePut TreeDelete TreeFixup TreeRemove TreeMapRefine TreeMapOps.

Module TreeIter.
Import TreeMap RBTree TreeHeap TreeRotate TreeInsert TreeMapRefine TreeMapOps.

(** ** What is left *)

(** A node on the stack, with its right subtree; the top comes first. *)
Abbreviation item := (entry * tree)%type.

Definition rest (I : list item) : list entry := I ≫= λ '(e, r), e :: entries r.

(** What pushing a subtree and its left children adds. *)
Fixpoint spine (t : tree) : list item :=
  match t with E => [] | T _ l e r => spine l ++ [(e, r)] end.

Lemma rest_app I J : rest (I ++ J) = rest I ++ rest J.
Proof. apply bind_app. Qed.

Lemma rest_spine t : rest (spine t) = entries t.
Proof.
  induction t as [|c l IHl e r _]; [done|]. cbn [spine entries]. rewrite rest_app, IHl.
  unfold rest. simpl. by rewrite app_nil_r.
Qed.

Lemma rest_length I : (length I ≤ length (rest I))%nat.
Proof.
  induction I as [|[e r] I IH]; [done|].
  change (rest ((e, r) :: I)) with ((e :: entries r) ++ rest I). rewrite length_app. simpl. lia.
Qed.

Lemma spine_ne t : t ≠ E → spine t ≠ [].
Proof. destruct t as [|c l e r]; [done|]. intros _. simpl. by destruct (spine l). Qed.

Definition nonnull (t : tree) : Prop := Forall (λ p, p ≠ NULL) (addrs t).

Lemma nonnull_T c l e r : nonnull (T c l e r) ↔ nonnull l ∧ addr e ≠ NULL ∧ nonnull r.
Proof. unfold nonnull, addrs. simpl. by rewrite fmap_app, fmap_cons, Forall_app, Forall_cons. Qed.

Definition item_at (h : gmap Z cell) (i : item) : Prop :=
  ∃ l par c, h !! addr i.1 = Some (CNode (nd L i.1 l (ptr i.2) par c)) ∧
    addr i.1 ≠ NULL ∧ tree_at h (addr i.1) i.2 ∧ nonnull i.2.

Lemma spine_at h par t : tree_at h par t → nonnull t → Forall (item_at h) (spine t).
Proof.
  revert par. induction t as [|c l IHl e r _]; intros par; [constructor|].
  intros (He & Hl & Hr) (Nl & Ne & Nr)%nonnull_T. cbn [spine]. apply Forall_app. split; [by eapply IHl|].
  constructor; [|constructor]. by exists (ptr l), par, c.
Qed.

(** ** The stack in memory *)

(** The iterator allocates; nothing else changes. *)
Definition same (w w' : tworld) : Prop :=
  obj w' = obj w ∧ heap w' = heap w ∧ brk w' = brk w ∧ oracle w' = oracle w.

Lemma same_refl w : same w w.
Proof. done. Qed.
Lemma same_trans w w' w'' : same w w' → same w' w'' → same w w''.
Proof. intros (? & ? & ? & ?) (? & ? & ? & ?). unfold same. split_and!; congruence. Qed.

Section iter.
Variable N : Z.
Hypothesis HN : 0 ≤ N < 2 ^ 59.

(** The allocator grants a stack for [N] nodes. *)
Definition grants (w : tworld) : Prop := ∀ k b, b ≤ 128 + 16 * N → oracle w k b = true.

Lemma grants_same w w' : same w w' → grants w → grants w'.
Proof. intros (_ & _ & _ & E) H k b Hb. rewrite E. by apply H. Qed.

Definition cap_ok (it : treemap_map_iter) : Prop :=
  Z.of_nat (length (stack it)) ≤ stack_cap it ≤ 16 + 2 * N.

Lemma wp_stack_push it p (Q : treemap_map_iter → tworld → Prop) w :
  grants w → cap_ok it → Z.of_nat (length (stack it)) < N →
  (∀ it' w', same w w' → cap_ok it' → stack it' = stack it ++ [p] → finished it' = finished it → Q it' w') →
  wp (stack_push it p) Q w.
Proof.
  intros Hg Hc Hl HQ. unfold cap_ok in *. unfold stack_push.
  destruct (Z.eqb_spec (Z.of_nat (length (stack it))) (stack_cap it)) as [Heq|Hne].
  - set (new := if stack_cap it =? 0 then _ else _).
    assert (stack_cap it < new ≤ 16 + 2 * N) as Hnew.
    { unfold new, max_stack, SIZE_MAX, sizeof_ptr in *. destruct (Z.eqb_spec (stack_cap it) 0); [lia|].
      destruct (Z.ltb_spec ((2 ^ 64 - 1) `div` 8 / 2) (stack_cap it)) as [Hlt|]; [|lia].
      change ((2 ^ 64 - 1) `div` 8 / 2) with (2 ^ 60 - 1) in Hlt. lia. }
    assert (wrap64 (new * sizeof_ptr) = new * 8) as Hw by (unfold sizeof_ptr; apply wrap64_small; lia).
    wp_step. rewrite Hw. apply wp_request; intros Hor; [|rewrite Hg in Hor by lia; done].
    cbn [negb]. destruct (Z.leb_spec new (Z.of_nat (length (stack it)))); [lia|].
    apply wp_ret, HQ; [done| |done..]. simpl. rewrite length_app. simpl. lia.
  - apply wp_ret, HQ; [done| |done..]. simpl. rewrite length_app. simpl. lia.
Qed.

Definition slots (I : list item) : list Z := reverse ((λ i, addr i.1) <$> I).

Lemma length_slots I : length (slots I) = length I.
Proof. unfold slots. by rewrite length_reverse, length_fmap. Qed.

Lemma slots_match {A} I (a b : A) :
  match slots I with [] => a | _ :: _ => b end = match I with [] => a | _ :: _ => b end.
Proof.
  pose proof (length_slots I). destruct (slots I), I; done.
Qed.

Lemma slots_app I J : slots (I ++ J) = slots J ++ slots I.
Proof. unfold slots. by rewrite fmap_app, reverse_app. Qed.

Lemma slots_cons e r J : slots ((e, r) :: J) = slots J ++ [addr e].
Proof. unfold slots. by rewrite fmap_cons, reverse_cons. Qed.

Lemma wp_push_left it I t par (Q : treemap_map_iter → tworld → Prop) w :
  grants w → cap_ok it → stack it = slots I → tree_at (heap w) par t → nonnull t →
  (card t ≤ base.size (heap w))%nat → Z.of_nat (length I) + Z.of_nat (card t) ≤ N →
  (∀ it' w', same w w' → cap_ok it' → stack it' = slots (spine t ++ I) → finished it' = finished it → Q it' w') →
  wp (push_left it (ptr t)) Q w.
Proof.
  intros Hg Hc Hs Ht Hn Hfit Hl HQ. unfold push_left. wp_step. apply wp_tree_fuel.
  apply (wp_loop_ghost (λ '(J, t', par') '(it', p) w', same w w' ∧ cap_ok it' ∧ stack it' = slots (J ++ I) ∧
      finished it' = finished it ∧ p = ptr t' ∧ tree_at (heap w) par' t' ∧ nonnull t' ∧
      spine t' ++ J = spine t ∧ (length J + card t' ≤ card t)%nat)
    (λ '(_, t', _), card t') _ _ _ ([], t, par)).
  { split_and!; try done. by rewrite app_nil_r. }
  { simpl. lia. }
  intros [[J t'] par'] [it' p] w' (Hw & Hc' & Hs' & Hf' & -> & Ht' & Hn' & Hsp & Hlen).
  destruct t' as [|c l e r].
  { change (ptr E =? NULL) with true. apply wp_ret. apply HQ; try done. rewrite <- Hsp. done. }
  destruct Ht' as (He & Hl' & Hr'). apply nonnull_T in Hn' as (Nl & Ne & Nr). cbn [ptr].
  rewrite (proj2 (Z.eqb_neq _ _) Ne). cbn [card] in Hlen.
  wp_step. apply wp_stack_push; [by eapply grants_same|done| |].
  { rewrite Hs', length_slots, length_app. lia. }
  intros it2 w2 Hw2 Hc2 Hs2 Hf2. pose proof (same_trans _ _ _ Hw Hw2) as Hw3.
  wp_step. eapply wp_child_at; [by rewrite (proj1 (proj2 Hw3)); exact He|]. wp_step.
  exists ((e, r) :: J, l, addr e). split_and!; try done.
  - rewrite Hs2, Hs'. cbn [app]. by rewrite slots_cons.
  - congruence.
  - rewrite <- Hsp. cbn [spine]. by rewrite <- app_assoc.
  - cbn [length]. lia.
  - simpl. lia.
Qed.

Lemma wp_push_null it (Q : treemap_map_iter → tworld → Prop) w : Q it w → wp (push_left it NULL) Q w.
Proof.
  intros HQ. unfold push_left. wp_step. apply wp_tree_fuel.
  rewrite Nat.add_comm. simpl. by wp_steps.
Qed.

(** ** The traversal *)

Section walk.
Variables (h : gmap Z cell) (r0 : Z) (t : tree).
Hypothesis Ht : tree_at h NULL t.
Hypothesis Hnn : nonnull t.
Hypothesis Hr0 : r0 = ptr t.

Definition fits (es : list entry) : Prop :=
  (length es ≤ base.size h)%nat ∧ Z.of_nat (length es) ≤ N.

(** The entries the iterator still has to yield. *)
Definition pending (it : treemap_map_iter) (es : list entry) : Prop :=
  cap_ok it ∧ fits es ∧
  (finished it = true ∧ es = [] ∨
   finished it = false ∧ ∃ I, stack it = slots I ∧
     (I = [] ∧ es = entries t ∧ t ≠ E ∨ I ≠ [] ∧ Forall (item_at h) I ∧ es = rest I)).

Definition at_map (w : tworld) : Prop :=
  heap w = h ∧ grants w ∧ ∃ s c, obj w = Some (TImpl r0 s c).

Lemma at_map_same w w' : same w w' → at_map w → at_map w'.
Proof.
  intros Hs (Hh & Hg & s & c & Ho). split_and!; [|by eapply grants_same|].
  - by rewrite (proj1 (proj2 Hs)).
  - exists s, c. by rewrite (proj1 Hs).
Qed.

(** The step from a stack whose top is [e]. *)
Lemma wp_pop it e r I w :
  at_map w → cap_ok it → finished it = false → stack it = slots ((e, r) :: I) →
  Forall (item_at h) ((e, r) :: I) → fits (rest ((e, r) :: I)) →
  wp (let rest := take (length (stack it) - 1) (stack it) in
      let iter := TIter rest (stack_cap it) (finished it) in
      n <- load_node (addr e) ;;
      iter <- (if negb (right n =? NULL) then push_left iter (right n)
               else match rest with [] => mret (TIter rest (stack_cap iter) true) | _ => mret iter end) ;;
      mret ((key n, value n), iter))
    (λ '(pr, it') w', pr = (kptr e, val e) ∧ same w w' ∧ pending it' (entries r ++ rest I)) w.
Proof.
  intros (Hh & Hg & Ho) Hc Hf Hs [Hi HI]%Forall_cons Hlen. destruct Hi as (lp & par & c & He & Hen & Hr & Nr).
  simpl in He, Hen, Hr, Nr.
  assert (take (length (stack it) - 1) (stack it) = slots I) as Etake.
  { rewrite Hs, slots_cons, length_app. simpl. rewrite Nat.add_sub. apply take_app_length. }
  change (rest ((e, r) :: I)) with (e :: entries r ++ rest I) in Hlen. unfold fits in Hlen.
  cbn [length] in Hlen.
  cbv zeta. rewrite Etake. wp_step. eapply wp_load_node; [rewrite Hh; exact He|]. cbn [nd right key value].
  assert (cap_ok (TIter (slots I) (stack_cap it) (finished it))) as Hc'.
  { unfold cap_ok in *. simpl. rewrite Hs, slots_cons, length_app in Hc. simpl in Hc. lia. }
  destruct r as [|c2 l2 e2 r2].
  - change (negb (ptr E =? NULL)) with false. cbn [entries app] in Hlen |- *. rewrite slots_match.
    destruct I as [|i I]; wp_step; wp_step; (split; [done|]); (split; [done|]).
    + split_and!; [exact Hc'|unfold fits; simpl; lia|by left].
    + split_and!; [exact Hc'|unfold fits; lia|]. right. split; [done|]. exists (i :: I). split; [done|]. by right.
  - pose proof (proj1 (nonnull_T _ _ _ _) Nr) as (_ & Ne2 & _). cbn [ptr].
    rewrite (proj2 (Z.eqb_neq _ _) Ne2). cbn [negb]. wp_step.
    change (addr e2) with (ptr (T c2 l2 e2 r2)). rewrite length_app, <- card_entries in Hlen.
    pose proof (rest_length I).
    eapply (wp_push_left _ I (T c2 l2 e2 r2) (addr e)); [done|exact Hc'|done|by rewrite Hh|done|rewrite Hh; lia|lia|].
    intros it' w' Hw Hcap Hst Hfin. wp_step. split; [done|]. split; [done|]. split_and!; [done| |].
    + unfold fits. rewrite length_app, <- card_entries. lia.
    + right. split; [by rewrite Hfin|]. exists (spine (T c2 l2 e2 r2) ++ I). split; [done|]. right.
      split_and!; [|apply Forall_app; split; [by eapply spine_at|done]|by rewrite rest_app, rest_spine].
      intros [Enil _]%app_nil. by apply spine_ne in Enil.
Qed.

Lemma wp_iter_next it e es w :
  at_map w → pending it (e :: es) →
  wp (treemap_map_iter_next it)
    (λ '(pr, it') w', pr = (kptr e, val e) ∧ same w w' ∧ pending it' es) w.
Proof.
  intros Hw (Hc & Hlen & [[_ ?]|[Hf (I & Hs & HI)]]); [done|].
  unfold treemap_map_iter_next. rewrite Hf. wp_step.
  destruct (id Hw) as (Hh & Hg & s & c & Ho). eapply wp_deref; [exact Ho|]. cbn [root]. rewrite Hr0.
  assert (∀ it' w' i I', at_map w' → cap_ok it' → finished it' = false → stack it' = slots (i :: I') →
    Forall (item_at h) (i :: I') → e :: es = rest (i :: I') → same w w' →
    wp (match last (stack it') with
        | None => mret ((NULL, NULL), TIter [] (stack_cap it') true)
        | Some node =>
            let rest := take (length (stack it') - 1) (stack it') in
            let iter := TIter rest (stack_cap it') (finished it') in
            n <- load_node node ;;
            iter <- (if negb (right n =? NULL) then push_left iter (right n)
                     else match rest with [] => mret (TIter rest (stack_cap iter) true) | _ => mret iter end) ;;
            mret ((key n, value n), iter)
        end) (λ '(pr, it') w', pr = (kptr e, val e) ∧ same w w' ∧ pending it' es) w') as Hpop.
  { intros it' w' [e' r'] I' Hw' Hc' Hf' Hs' HI' He Hsame.
    change (rest ((e', r') :: I')) with (e' :: entries r' ++ rest I') in He. injection He as <- Hes.
    assert (last (stack it') = Some (addr e)) as -> by (by rewrite Hs', slots_cons, last_snoc).
    eapply wp_mono; [eapply wp_pop; try done|].
    - change (rest ((e, r') :: I')) with (e :: entries r' ++ rest I'). by rewrite <- Hes.
    - intros [pr it2] w2 (-> & Hsame2 & Hp). rewrite <- Hes in Hp. split; [done|]. split; [|done]. by eapply same_trans. }
  destruct HI as [(-> & He & Hne)|(Hne & HI & He)].
  - change (slots []) with (@nil Z) in Hs. rewrite Hs. wp_step.
    pose proof (f_equal length He) as Hl. rewrite <- card_entries in Hl. unfold fits in Hlen. cbn [length] in Hl, Hlen.
    eapply (wp_push_left _ [] t NULL); [done|done|by rewrite Hs|by rewrite Hh|done|rewrite Hh; lia|simpl; lia|].
    intros it' w' Hsame Hcap Hst Hfin. rewrite app_nil_r in Hst.
    destruct (spine t) as [|i I'] eqn:Esp; [by apply spine_ne in Esp|].
    apply (Hpop it' w' i I'); try done.
    + by eapply at_map_same.
    + by rewrite Hfin.
    + rewrite <- Esp. by eapply spine_at.
    + by rewrite <- Esp, rest_spine.
  - destruct I as [|i I]; [done|]. wp_step.
    rewrite Hs, slots_match. wp_step. by apply (Hpop it w i I).
Qed.
End walk.
End iter.

(** ** The whole traversal *)

(** The caller's loop over an iterator: [while (has_next) next]. *)
Definition collect (it : treemap_map_iter) : M tworld (list (Z * Z)) :=
  fuel <- tree_fuel ;;
  loop fuel (λ '(it, acc),
    if treemap_map_iter_has_next it then
      x <- treemap_map_iter_next it ;; mret (inl (x.2, acc ++ [x.1]))
    else mret (inr acc)) (it, []).

Definition collect_map : M tworld (option (list (Z * Z))) :=
  it <- cobalt_treemap_iterator_create ;;
  match it with
  | None => mret None
  | Some it => l <- collect it ;; mret (Some l)
  end.

Lemma wp_collect_from N h r0 t it es w (Q : list (Z * Z) → tworld → Prop) :
  0 ≤ N < 2 ^ 59 → tree_at h NULL t → nonnull t → r0 = ptr t →
  at_map N h r0 w → pending N h t it es →
  (∀ w', same w w' → Q ((λ e, (kptr e, val e)) <$> es) w') →
  wp (collect it) Q w.
Proof.
  intros HN Ht Hnn Hr0 Hw Hp HQ. unfold collect. wp_step. apply wp_tree_fuel.
  destruct (id Hp) as (_ & [Hlen _] & _). rewrite (proj1 Hw).
  apply (wp_loop_ghost (λ es' '(it', acc) w', same w w' ∧ at_map N h r0 w' ∧ pending N h t it' es' ∧
      acc ++ ((λ e, (kptr e, val e)) <$> es') = (λ e, (kptr e, val e)) <$> es) length _ _ _ es).
  { done. }
  { lia. }
  intros es' [it' acc] w' (Hs & Hw' & Hp' & Ea). unfold treemap_map_iter_has_next.
  destruct es' as [|e es'].
  - destruct (id Hp') as (_ & _ & [[Hf _]|[_ (I & _ & HI)]]).
    + rewrite Hf. apply wp_ret. rewrite app_nil_r in Ea. rewrite Ea. by apply HQ.
    + exfalso. destruct HI as [(_ & E & Hne)|(Hne & _ & E)].
      * destruct t as [|c l e r]; [done|]. simpl in E. by destruct (entries l).
      * destruct I as [|[e r] I]; done.
  - assert (finished it' = false) as Hf by (by destruct (id Hp') as (_ & _ & [[_ ?]|[? _]])).
    rewrite Hf. cbn [negb]. wp_step. eapply wp_mono; [by eapply (wp_iter_next N)|].
    intros [pr it2] w2 (-> & Hs2 & Hp2). wp_step. exists es'. split_and!.
    + by eapply same_trans.
    + by eapply at_map_same.
    + done.
    + rewrite <- Ea, <- app_assoc. done.
    + simpl. lia.
Qed.

Section collect.
Context (U : gmap Z (list Z)) (cf : option cobalt_compare_func).

(** Given memory, a traversal yields the entries in key order, each key as a
    pointer to the map's copy. *)
Lemma wp_collect_map bal w d :
  trep U cf bal w d → d ≠ [] → Z.of_nat (length d) < 2 ^ 59 →
  grants (Z.of_nat (length d)) w →
  wp collect_map (λ r w', same w w' ∧ ∃ l, r = Some l ∧
    Forall2 (λ x y, heap w !! x.1 = Some (CStr y.1) ∧ x.2 = y.2) l d) w.
Proof.
  intros (B & F & t & Hok & ->) Hne Hlt Hg. rewrite length_fmap in *.
  pose proof (to_zrep _ _ _ _ _ _ _ Hok) as Hz. pose proof (zrep_fits _ _ _ _ Hz) as Hfit.
  unfold collect_map, cobalt_treemap_iterator_create, treemap_map_iterator.
  wp_step. wp_step. apply wp_get_obj. rewrite (zrep_deref _ _ _ _ Hz).
  wp_step. apply wp_request; intros Hor; [|by rewrite Hg in Hor by (unfold sizeof_map_iter; lia)]. cbn [negb].
  wp_step. apply wp_request; intros Hor2; [|simpl in Hor2; by rewrite Hg in Hor2 by (unfold sizeof_map_iterator; lia)]. cbn [negb].
  wp_step. wp_step. destruct (id Hz) as (h & -> & [_ Ht Hnd Hown _]).
  eapply (wp_collect_from (Z.of_nat (length (entries t))) h (ptr t) t _ (entries t)); [lia|exact Ht| |done| | |].
  - apply Forall_forall. intros q Hq. by apply Hown.
  - split_and!; [done|done|]. by eexists _, _.
  - split_and!; [unfold cap_ok; simpl; lia|split; [rewrite <- card_entries; simpl in Hfit; lia|lia]|].
    right. split; [done|]. exists []. split; [done|]. left. split_and!; [done..|]. by intros ->.
  - intros w' Hs. wp_step. split; [done|]. eexists. split; [done|]. rewrite Forall2_fmap.
    apply Forall_Forall2_diag, Forall_forall. intros e He. simpl. split; [|done].
    destruct (proj1 (Forall_forall _ _) (to_entries _ _ _ _ _ _ _ Hok) e He) as (_ & _ & HF & _).
    change h with (heap (mkw B (croot [] (ptr t)) h)). by eapply zrep_frame.
Qed.

(** On an empty map the traversal yields one empty pair. *)
Lemma wp_collect_empty bal w :
  trep U cf bal w [] → grants 0 w →
  wp collect_map (λ r w', same w w' ∧ r = Some [(NULL, NULL)]) w.
Proof.
  intros (B & F & t & Hok & E) Hg. assert (t = RBTree.E) as ->.
  { destruct t as [|c l e r]; [done|]. simpl in E. rewrite fmap_app in E. by destruct (kv <$> entries l). }
  pose proof (to_zrep _ _ _ _ _ _ _ Hok) as Hz. clear Hok E. destruct Hz as (h & -> & _).
  assert (∀ k b, b ≤ 128 → b_oracle B k b = true) as Hgr by (intros k b Hb; apply Hg; lia).
  unfold collect_map, cobalt_treemap_iterator_create, treemap_map_iterator.
  wp_step. wp_step. apply wp_get_obj. simpl.
  wp_step. apply wp_request; intros Hor; [|simpl in Hor; by rewrite Hgr in Hor by (unfold sizeof_map_iter; lia)]. cbn [negb].
  wp_step. apply wp_request; intros Hor2; [|simpl in Hor2; by rewrite Hgr in Hor2 by (unfold sizeof_map_iterator; lia)].
  cbn [negb]. wp_step. wp_step. unfold collect. wp_step. apply wp_tree_fuel. cbn [heap with_request mkw].
  set (w := with_request _).
  apply (wp_loop_ghost (λ (b : bool) x w', w' = w ∧
      x = if b then (TIter [] 0 false, []) else (TIter [] 0 true, [(NULL, NULL)])) Nat.b2n _ _ _ true);
    [done|simpl; lia|].
  intros [|] x w' (-> & ->); unfold treemap_map_iter_has_next; simpl.
  - wp_step. unfold treemap_map_iter_next. simpl. wp_step. eapply wp_deref; [done|]. simpl.
    wp_step. apply wp_push_null. simpl. wp_steps. exists false. split_and!; [done..|]. simpl. lia.
  - by wp_steps.
Qed.
End collect.
End TreeIter.
