(* ===== verification/TreeMapSpec.v ===== *)
(** * What the tree map promises

    Sessions of calls on one map against the ordered dictionary: the answers
    agree, whatever the comparator orders; the tree stays balanced as long as
    nothing is removed; a removal may leave it unbalanced, and a later one may
    then dereference NULL. *)
From S2P Require Import Prelude World HashMap HashMapProofs TreeMap RBTree TreeHeap.
From S2P Require Import TreeInsert TreeFind TreePut TreeDelete TreeFixup TreeRemove TreeMapRefine TreeMapOps TreeIter.

Module TreeMapSpec.
Import TreeMap RBTree TreeHeap TreeFind TreeMapRefine TreeMapOps TreeIter.
Import HashMapProofs(cstring).

(** ** [strcmp] orders the strings *)

Lemma strcmp_opp a b : HashMap.strcmp a b = - HashMap.strcmp b a.
Proof.
  revert b. induction a as [|x a IH]; intros [|y b]; simpl; try lia.
  destruct (Z.eqb_spec x y) as [->|]; [by rewrite Z.eqb_refl|].
  rewrite (proj2 (Z.eqb_neq y x)) by done. lia.
Qed.

Lemma strcmp_trans a b c :
  cstring a → cstring b → cstring c →
  HashMap.strcmp a b ≤ 0 → HashMap.strcmp b c ≤ 0 → HashMap.strcmp a c ≤ 0.
Proof.
  revert b c. induction a as [|x a IH]; intros [|y b] [|z c] Ha Hb Hc; simpl;
    repeat match goal with H : cstring (_ :: _) |- _ => apply Forall_cons in H as [? ?] end; try lia.
  destruct (Z.eqb_spec x y), (Z.eqb_spec y z), (Z.eqb_spec x z); subst; try lia. by apply IH.
Qed.

#[export] Instance strcmp_order : KeyOrder (keycmp None).
Proof.
  split; simpl.
  - intros a b _ _. rewrite strcmp_opp. lia.
  - apply strcmp_trans.
Qed.

(** ** Sessions *)

Inductive tm_op : Type :=
  | TPut (k n v : Z) | TGet (k n : Z) | TRemove (k n : Z) | TContains (k n : Z)
  | TSize | TIsEmpty | TEnd (d : side) | TClear.

Inductive tm_res : Type :=
  | RInt (z : Z) | RBool (b : bool) | RKey (s : option (list Z)) | RUnit.

(** A returned key, read through its pointer. *)
Definition read_key (p : Z) : M tworld tm_res :=
  if p =? NULL then mret (RKey None) else s <- load_str p ;; mret (RKey (Some s)).

Definition run_op (o : tm_op) : M tworld tm_res :=
  match o with
  | TPut k n v => r <- treemap_map_put k n v ;; mret (RInt r)
  | TGet k n => r <- treemap_map_get k n ;; mret (RInt r)
  | TRemove k n => r <- treemap_map_remove k n ;; mret (RInt r)
  | TContains k n => b <- treemap_map_contains k n ;; mret (RBool b)
  | TSize => r <- treemap_map_size ;; mret (RInt r)
  | TIsEmpty => b <- treemap_map_is_empty ;; mret (RBool b)
  | TEnd d => p <- end_key d ;; read_key p
  | TClear => treemap_map_clear ;;; mret RUnit
  end.

Fixpoint run_ops (os : list tm_op) : M tworld (list tm_res) :=
  match os with
  | [] => mret []
  | o :: os => r <- run_op o ;; rs <- run_ops os ;; mret (r :: rs)
  end.

(** Create a map, call it, and destroy it. *)
Definition session (cf : option cobalt_compare_func) (os : list tm_op)
    : M tworld (option (list tm_res)) :=
  cobalt_treemap_create_ext cf ;;;
  o <- get_obj ;;
  match o with
  | None => mret None
  | Some _ => rs <- run_ops os ;; cobalt_treemap_destroy ;;; mret (Some rs)
  end.

Section spec.
Context (U : gmap Z (list Z)) (cf : option cobalt_compare_func).
Abbreviation cmp := (keycmp cf).

(** The key a pointer argument stands for. *)
Definition arg (p : Z) : option (list Z) := if p =? NULL then None else U !! p.

(** The ordered dictionary's answer. *)
Definition spec_op (d : dict) (o : tm_op) : tm_res * dict :=
  match o with
  | TPut k _ v =>
      match arg k with None => (RInt (-1), d) | Some s => (RInt 0, dict_put cmp s v d) end
  | TGet k _ => (RInt (default NULL (s ← arg k; dict_get cmp s d)), d)
  | TRemove k _ =>
      match arg k with
      | None => (RInt (-1), d)
      | Some s => match dict_get cmp s d with
                  | None => (RInt (-1), d)
                  | Some _ => (RInt 0, dict_remove cmp s d)
                  end
      end
  | TContains k _ => (RBool (bool_decide (is_Some (s ← arg k; dict_get cmp s d))), d)
  | TSize => (RInt (Z.of_nat (length d)), d)
  | TIsEmpty => (RBool (bool_decide (d = [])), d)
  | TEnd e => (RKey (fst <$> at_end e d), d)
  | TClear => (RUnit, [])
  end.

Definition is_put (o : tm_op) : bool := match o with TPut _ _ _ => true | _ => false end.
Definition is_remove (o : tm_op) : bool := match o with TRemove _ _ => true | _ => false end.

(** Every call answers as the dictionary; when memory is short a put may
    report failure instead, and then it changes nothing. *)
Inductive behaves (short : Prop) : dict → list tm_op → list tm_res → dict → Prop :=
  | behaves_nil d : behaves short d [] [] d
  | behaves_op d o os r rs d' d'' :
      spec_op d o = (r, d') → behaves short d' os rs d'' → behaves short d (o :: os) (r :: rs) d''
  | behaves_oom d o os rs d'' :
      short → is_put o = true → behaves short d os rs d'' →
      behaves short d (o :: os) (RInt (-1) :: rs) d''.

(** Keys are strings of the caller; all calls but [contains] accept NULL. *)
Definition op_ok (o : tm_op) : Prop :=
  match o with
  | TPut k _ _ | TGet k _ | TRemove k _ => k = NULL ∨ ∃ s, key_at U k s
  | TContains k _ => ∃ s, key_at U k s
  | _ => True
  end.

(** An allocation may be refused, or addresses may run out. *)
Definition short_for (w : tworld) (n : nat) : Prop :=
  (∃ k b, oracle w k b = false) ∨ 2 ^ 64 < brk w + 2 * Z.of_nat n.

Lemma arg_key k s : key_at U k s → arg k = Some s.
Proof. intros (Hn & HU & _). unfold arg. by rewrite (proj2 (Z.eqb_neq _ _) Hn). Qed.

Lemma put_short_for w s n : put_short w s → short_for w (S n).
Proof.
  intros [[H|(k & b & _ & H)]|H]; [right; lia|left; by exists k, b|right; lia].
Qed.

Lemma short_later w w' n : later w w' → short_for w' n → short_for w (S n).
Proof. intros (E & Hb1 & Hb2) [(k & b & H)|H]; [left; exists k, b; by rewrite <- E|right; lia]. Qed.

Lemma behaves_short (P Q : Prop) d os rs d' : (P → Q) → behaves P d os rs d' → behaves Q d os rs d'.
Proof.
  intros H. induction 1; [constructor|by eapply behaves_op|by apply behaves_oom; [apply H|..]].
Qed.

(** ** One call *)

Context `{!KeyOrder cmp}.
Abbreviation trep := (trep U cf).

Lemma trep_weaken (P Q : Prop) w d : (Q → P) → trep P w d → trep Q w d.
Proof.
  intros HPQ (B & F & t & [? ? ? ? ? ? ? ? ? ? ? Hb] & ->). exists B, F, t. split; [|done].
  split; try assumption. intros H. by apply Hb, HPQ.
Qed.

Lemma later_refl w : later w w.
Proof. split; [done|lia]. Qed.

(** What a call leaves: the dictionary's answer, or a put that failed. *)
Definition op_post (bal : Prop) (w : tworld) (d : dict) (o : tm_op) (r : tm_res) (w' : tworld) : Prop :=
  later w w' ∧ ∃ d', trep (bal ∧ is_remove o = false) w' d' ∧
    (spec_op d o = (r, d') ∨ short_for w 1 ∧ is_put o = true ∧ r = RInt (-1) ∧ d' = d).

Lemma op_post_same bal w d o r d' :
  trep bal w d' → spec_op d o = (r, d') → op_post bal w d o r w.
Proof.
  intros H E. split; [apply later_refl|]. exists d'. split; [|by left].
  eapply trep_weaken; [|exact H]. tauto.
Qed.

Lemma wp_op_put bal w d k n v :
  trep bal w d → op_ok (TPut k n v) → wp (run_op (TPut k n v)) (op_post bal w d (TPut k n v)) w.
Proof.
  intros Hw Hok. simpl. unfold treemap_map_put. wp_step. destruct Hok as [->|(s & Hs)].
  - destruct (trep_obj _ _ _ _ _ Hw) as [t Ho]. unfold cobalt_treemap_put. wp_steps. rewrite Ho.
    rewrite Z.eqb_refl. wp_steps. by apply op_post_same with d.
  - eapply wp_mono; [by apply wp_treemap_put|]. intros r w' (Hl & Hr). wp_step. split; [done|].
    assert (∀ d', trep bal w' d' → trep (bal ∧ is_remove (TPut k n v) = false) w' d') as Hwk.
    { intros d'. apply trep_weaken. tauto. }
    destruct Hr as [[-> Ht]|(-> & Hsh & Ht)].
    + eexists. split; [by apply Hwk|]. left. simpl. by rewrite (arg_key _ _ Hs).
    + exists d. split; [by apply Hwk|]. right. split; [by eapply put_short_for|done].
Qed.

Lemma wp_op_get bal w d k n :
  trep bal w d → op_ok (TGet k n) → wp (run_op (TGet k n)) (op_post bal w d (TGet k n)) w.
Proof.
  intros Hw Hok. simpl. unfold treemap_map_get. wp_step. destruct Hok as [->|(s & Hs)].
  - destruct (trep_obj _ _ _ _ _ Hw) as [t Ho]. unfold cobalt_treemap_get. wp_steps. rewrite Ho.
    rewrite Z.eqb_refl. wp_steps. by apply op_post_same with d.
  - eapply wp_mono; [by eapply wp_treemap_get|]. intros r w' (-> & ->). wp_step.
    apply op_post_same with d; [done|]. simpl. by rewrite (arg_key _ _ Hs).
Qed.

Lemma wp_op_end bal w d e :
  trep bal w d → wp (run_op (TEnd e)) (op_post bal w d (TEnd e)) w.
Proof.
  intros Hw. simpl. wp_step. eapply wp_mono; [by eapply wp_treemap_end|]. intros p w' [-> Hp].
  unfold read_key. destruct (at_end e d) as [[s v]|] eqn:Ee.
  - destruct Hp as [Hn Hs]. rewrite (proj2 (Z.eqb_neq _ _) Hn). wp_step.
    eapply wp_load_str; [exact Hs|]. wp_step. apply op_post_same with d; [done|]. simpl. by rewrite Ee.
  - subst p. apply wp_ret. apply op_post_same with d; [done|]. simpl. by rewrite Ee.
Qed.

(** Every call but a removal returns. *)
Lemma wp_op_safe bal w d o :
  trep bal w d → op_ok o → is_remove o = false → wp (run_op o) (op_post bal w d o) w.
Proof.
  intros Hw Hok Ho. destruct o as [k n v|k n|k n|k n| | |e|]; try done.
  - by apply wp_op_put.
  - by apply wp_op_get.
  - destruct Hok as (s & Hs). simpl. wp_step. eapply wp_mono; [by eapply wp_treemap_contains|].
    intros r w' [-> ->]. wp_step. apply op_post_same with d; [done|]. simpl. by rewrite (arg_key _ _ Hs).
  - simpl. unfold treemap_map_size. wp_step. eapply wp_mono; [by eapply wp_treemap_size|].
    intros r w' [-> ->]. wp_step. by apply op_post_same with d.
  - simpl. wp_step. eapply wp_mono; [by eapply wp_treemap_is_empty|].
    intros r w' [-> ->]. wp_step. by apply op_post_same with d.
  - by apply wp_op_end.
  - simpl. wp_step. eapply wp_mono; [by eapply wp_treemap_clear|]. intros [] w' [Hl Ht]. wp_step.
    split; [done|]. exists []. split; [|by left]. by eapply trep_weaken; [|exact Ht].
Qed.

(** A removal returns or dereferences NULL; from a balanced tree it returns. *)
Lemma wp_op_remove (bal : Prop) w d k n :
  trep bal w d → op_ok (TRemove k n) →
  let Q := op_post bal w d (TRemove k n) in
  wp_null (run_op (TRemove k n)) Q w ∧ (bal → wp (run_op (TRemove k n)) Q w).
Proof.
  intros Hw Hok Q. unfold run_op, treemap_map_remove. destruct Hok as [->|(s & Hs)].
  - assert (wp (r <- cobalt_treemap_remove NULL ;; mret (RInt r)) Q w) as H.
    { destruct (trep_obj _ _ _ _ _ Hw) as [t Ho]. unfold cobalt_treemap_remove. wp_steps. rewrite Ho.
      rewrite Z.eqb_refl. wp_steps. by apply op_post_same with d. }
    split; [by apply wp_null_of|done].
  - destruct (wp_treemap_remove U cf bal w d k s Hw Hs) as [H1 H2].
    assert (∀ r w', (r = 0 ∧ is_Some (dict_get cmp s d) ∧ later w w' ∧ trep False w' (dict_remove cmp s d) ∨
      r = -1 ∧ dict_get cmp s d = None ∧ w' = w) → Q (RInt r) w') as HQ.
    { intros r w' [(-> & [v Hv] & Hl & Ht)|(-> & Hm & ->)].
      - split; [done|]. eexists. split; [eapply trep_weaken; [|exact Ht]; by intros [_ ?]|].
        left. simpl. by rewrite (arg_key _ _ Hs), Hv.
      - apply op_post_same with d; [done|]. simpl. by rewrite (arg_key _ _ Hs), Hm. }
    split.
    + apply wp_null_bind. eapply wp_null_mono; [exact H1|]. intros r w' Hr. by apply wp_null_of, wp_ret, HQ.
    + intros Hb. wp_step. eapply wp_mono; [by apply H2|]. intros r w' Hr. by apply wp_ret, HQ.
Qed.

(** ** All calls *)

Definition ops_post (bal : Prop) (w : tworld) (d : dict) (os : list tm_op) (rs : list tm_res) (w' : tworld) : Prop :=
  oracle w' = oracle w ∧ ∃ d', behaves (short_for w (length os)) d os rs d' ∧
    trep (bal ∧ Forall (λ o, is_remove o = false) os) w' d'.

Lemma short_for_mono w n m : (n ≤ m)%nat → short_for w n → short_for w m.
Proof. intros Hn [H|H]; [by left|right; lia]. Qed.

Lemma ops_post_cons (bal : Prop) w d o os r rs w1 w2 :
  later w w1 → ∀ d1,
  (spec_op d o = (r, d1) ∨ short_for w 1 ∧ is_put o = true ∧ r = RInt (-1) ∧ d1 = d) →
  ops_post (bal ∧ is_remove o = false) w1 d1 os rs w2 →
  ops_post bal w d (o :: os) (r :: rs) w2.
Proof.
  intros Hl d1 Ho (Eo & d2 & Hb & Ht).
  apply (behaves_short _ (short_for w (S (length os)))) in Hb; [|by apply short_later].
  split; [rewrite Eo; apply Hl|]. exists d2. split.
  - destruct Ho as [Ho|(Hs & Hp & -> & ->)]; [by eapply behaves_op|].
    apply behaves_oom; [|done..]. eapply short_for_mono; [|exact Hs]. simpl. lia.
  - eapply trep_weaken; [|exact Ht]. rewrite Forall_cons. tauto.
Qed.

(** The one fault of a run: a removal, after another one, dereferences NULL. *)
Definition removal_faults (pre : M tworld unit) (bal : Prop) (os : list tm_op) (w : tworld) : Prop :=
  ∃ os1 k n os2 rs w1, os = os1 ++ TRemove k n :: os2 ∧ (bal → Exists (λ o, is_remove o = true) os1) ∧
    (pre ;;; run_ops os1) w = Ret rs w1 ∧ run_op (TRemove k n) w1 = Fault NullDeref.

(** A run answers as the dictionary or stops in such a removal. *)
Definition run_post {A} (pre : M tworld unit) (bal : Prop) (os : list tm_op) (w : tworld) (Q : A → tworld → Prop)
    (r : outcome tworld A) : Prop :=
  match r with Ret a w' => Q a w' | Fault f => f = NullDeref ∧ removal_faults pre bal os w end.

Lemma run_ops_post (bal : Prop) os w d : trep bal w d → Forall op_ok os →
  run_post (mret tt) bal os w (ops_post bal w d os) (run_ops os w).
Proof.
  revert bal w d. induction os as [|o os IH]; intros bal w d Hw Hos.
  { split; [done|]. exists d. split; [constructor|]. eapply trep_weaken; [|exact Hw]. tauto. }
  apply Forall_cons in Hos as [Ho Hos].
  assert (wp_null (run_op o) (op_post bal w d o) w ∧ (bal ∨ is_remove o = false → wp (run_op o) (op_post bal w d o) w)) as [Hn Ht].
  { destruct (is_remove o) eqn:Er; [|split; [by apply wp_null_of, wp_op_safe|intros _; by apply wp_op_safe]].
    destruct o as [| |k n| | | | |]; try done. destruct (wp_op_remove bal w d k n Hw Ho) as [H1 H2]. split; [done|]. by intros [?|?]; [apply H2|]. }
  unfold wp_null in Hn. unfold wp in Ht. cbn [run_ops]. unfold mbind at 1. destruct (run_op o w) as [r w1|f] eqn:Er.
  - destruct Hn as (Hl & d1 & Hw1 & Hr). specialize (IH _ _ _ Hw1 Hos). unfold mbind at 1. destruct (run_ops os w1) as [rs w2|f].
    + by eapply ops_post_cons.
    + destruct IH as (-> & os1 & k & n & os2 & rs & w2 & -> & Hex & E1 & E2). split; [done|].
      exists (o :: os1), k, n, os2, (r :: rs), w2. split_and!; [done| | |done].
      * intros Hb. destruct (is_remove o) eqn:Eo; [by left|right]. by apply Hex.
      * change (run_ops os1 w1 = Ret rs w2) in E1. unfold mbind, mret. simpl. unfold mbind, mret. by rewrite Er, E1.
  - assert (¬ bal ∧ is_remove o = true) as [Hb Hrm].
    { split; [intros ?; by apply Ht; left|]. destruct (is_remove o); [done|]. exfalso. by apply Ht; right. }
    subst f. split; [done|]. destruct o as [| |k n| | | | |]; try done. exists [], k, n, os, [], w. by split_and!.
Qed.

(** Removals only at the end. *)
Fixpoint removes_last (os : list tm_op) : Prop :=
  match os with
  | [] => True
  | o :: os => (is_remove o = false ∨ os = []) ∧ removes_last os
  end.

Lemma run_ops_total (bal : Prop) os w d :
  trep bal w d → Forall op_ok os → bal → removes_last os → wp (run_ops os) (ops_post bal w d os) w.
Proof.
  revert bal w d. induction os as [|o os IH]; intros bal w d Hw Hos Hbal Hlast.
  { apply wp_ret. split; [done|]. exists d. split; [constructor|]. eapply trep_weaken; [|exact Hw]. tauto. }
  apply Forall_cons in Hos as [Ho Hos]. destruct Hlast as [Hr Hlast]. simpl. wp_step.
  assert (wp (run_op o) (op_post bal w d o) w) as Hop.
  { destruct (is_remove o) eqn:Er; [|by apply wp_op_safe].
    destruct o; try done. by apply wp_op_remove. }
  eapply wp_mono; [exact Hop|]. intros r w1 (Hl & d1 & Hw1 & Hd1). wp_step.
  destruct Hr as [Hr| ->].
  - eapply wp_mono; [by apply (IH _ _ _ Hw1)|]. intros rs w2 Hrs. wp_step. by eapply ops_post_cons.
  - apply wp_ret, wp_ret. eapply ops_post_cons; [done|exact Hd1|]. split; [done|]. exists d1. split; [constructor|].
    eapply trep_weaken; [|exact Hw1]. tauto.
Qed.

(** ** Sessions *)

(** What a session leaves: answers of the dictionary and no block. *)
Definition session_post (w : tworld) (os : list tm_op) (r : option (list tm_res)) (w' : tworld) : Prop :=
  obj w' = None ∧ caller_only U w' ∧
  match r with
  | None => oracle w (allocs w) sizeof_treemap = false
  | Some rs => ∃ d, behaves (short_for w (length os)) [] os rs d
  end.

Lemma session_end bal w w' os rs :
  oracle w' = oracle w → brk w' = brk w → ∀ w'',
  ops_post bal w' [] os rs w'' →
  wp (cobalt_treemap_destroy ;;; mret (Some rs)) (session_post w os) w''.
Proof.
  intros Eo Eb w'' (_ & d & Hb & Ht). wp_step. eapply wp_mono; [by eapply wp_treemap_destroy|].
  intros [] w3 [Hn Hc]. wp_step. split; [done|]. split; [done|]. exists d.
  eapply behaves_short; [|exact Hb]. unfold short_for. by rewrite Eo, Eb.
Qed.

(** After creation. *)
Lemma created_faults {A} (k : list tm_res → M tworld A) (Q : A → tworld → Prop) os w w0 bal Q' :
  cobalt_treemap_create_ext cf w = Ret tt w0 → run_post (mret tt) bal os w0 Q' (run_ops os w0) →
  (∀ rs w', Q' rs w' → wp (k rs) Q w') →
  run_post (cobalt_treemap_create_ext cf) bal os w Q ((rs <- run_ops os ;; k rs) w0).
Proof.
  intros Ec Hr Hk. unfold mbind. destruct (run_ops os w0) as [rs w'|f]; simpl in Hr.
  - specialize (Hk _ _ Hr). unfold wp in Hk. unfold run_post. by destruct (k rs w').
  - destruct Hr as (-> & os1 & p & n & os2 & rs & w1 & -> & Hex & E1 & E2). split; [done|].
    exists os1, p, n, os2, rs, w1. split_and!; [done|done| |done]. unfold mbind. by rewrite Ec.
Qed.

Lemma session_cases os w : caller_only U w → Forall op_ok os →
  run_post (cobalt_treemap_create_ext cf) True os w (session_post w os) (session cf os w).
Proof.
  intros Hw Hos. pose proof (wp_treemap_create U cf w Hw) as Hc. unfold wp in Hc. unfold session. unfold mbind at 1.
  destruct (cobalt_treemap_create_ext cf w) as [[] w'|] eqn:Ec; [|done].
  destruct Hc as [(Ht & Hor & Hbk)|(Ho & Hc & Hor)]; unfold mbind at 1, get_obj.
  - destruct (trep_obj _ _ _ _ _ Ht) as [t Ho]. cbn. rewrite Ho.
    eapply created_faults; [done|by apply (run_ops_post _ _ _ _ Ht)|]. intros rs w2 H2. by eapply session_end.
  - cbn. rewrite Ho. by split_and!.
Qed.

Lemma session_total os w :
  caller_only U w → Forall op_ok os → removes_last os → wp (session cf os) (session_post w os) w.
Proof.
  intros Hw Hos Hl. unfold session. wp_step. eapply wp_mono; [by apply wp_treemap_create|].
  intros [] w' [(Ht & Hor & Hbk)|(Ho & Hc & Hor)]; wp_step; apply wp_get_obj.
  - destruct (trep_obj _ _ _ _ _ Ht) as [t Ho]. rewrite Ho. wp_step.
    eapply wp_mono; [by apply (run_ops_total _ _ _ _ Ht)|]. intros rs w2 H2. by eapply session_end.
  - rewrite Ho. by apply wp_ret.
Qed.

(** ** The shape of the tree *)

(** A red-black tree of [n] nodes hangs off the map, and its height is
    logarithmic in [n]. *)
Definition balanced (w : tworld) (n : nat) : Prop :=
  ∃ t, obj w = Some (TImpl (ptr t) (Z.of_nat n) cf) ∧ tree_at (heap w) NULL t ∧
    card t = n ∧ rb t ∧ (2 ^ (height t `div` 2) ≤ S n)%nat.

Lemma trep_balanced (bal : Prop) w d : trep bal w d → bal → balanced w (length d).
Proof.
  intros (B & F & t & Hok & ->) Hbal. exists t. rewrite length_fmap, <- card_entries.
  assert (rb t) as Hrb by (split_and!; by apply Hok). split_and!; try done.
  - rewrite (zrep_deref _ _ _ _ (to_zrep _ _ _ _ _ _ _ Hok)).
    by rewrite (to_size _ _ _ _ _ _ _ Hok), (to_cmp _ _ _ _ _ _ _ Hok).
  - destruct (to_zrep _ _ _ _ _ _ _ Hok) as (h & -> & Hz). apply (zh_tree _ _ _ _ Hz).
  - by apply rb_height.
Qed.

(** ** Traversal *)

Lemma length_dict_put s v (d : dict) : (length (dict_put cmp s v d) ≤ S (length d))%nat.
Proof. induction d as [|[k' v'] d IH]; simpl; [lia|]. repeat case_match; simpl; lia. Qed.

Lemma length_dict_remove s (d : dict) : (length (dict_remove cmp s d) ≤ length d)%nat.
Proof. apply length_filter. Qed.

Lemma behaves_length short d os rs d' :
  behaves short d os rs d' → (length d' ≤ length d + length os)%nat.
Proof.
  induction 1 as [|d o os r rs d' d'' Ho Hb IH|d o os rs d'' ? ? ? IH]; simpl; [lia| |lia].
  enough (length d' ≤ S (length d))%nat by lia. clear -Ho. destruct o; simpl in Ho.
  1: destruct (arg k) as [s|]; simplify_eq; [apply length_dict_put|lia].
  2: destruct (arg k) as [s|]; [destruct (dict_get cmp s d)|]; simplify_eq; [|lia..];
     pose proof (length_dict_remove s d); lia.
  all: simplify_eq; simpl; lia.
Qed.
End spec.

(** Create a map, call it, and list it with an iterator. *)
Definition listing (cf : option cobalt_compare_func) (os : list tm_op)
    : M tworld (list tm_res * option (list (Z * Z))) :=
  cobalt_treemap_create_ext cf ;;;
  rs <- run_ops os ;; l <- collect_map ;; mret (rs, l).

(** What the listing of the dictionary [d] is, the keys read in memory [h]. *)
Definition lists (h : gmap Z cell) (d : dict) (l : option (list (Z * Z))) : Prop :=
  match d with
  | [] => l = Some [(NULL, NULL)]
  | _ => ∃ l', l = Some l' ∧ Forall2 (λ x y, h !! x.1 = Some (CStr y.1) ∧ x.2 = y.2) l' d
  end.

Section listing.
Context (U : gmap Z (list Z)) (cf : option cobalt_compare_func).
Context `{!KeyOrder (keycmp cf)}.

Lemma trep_sorted bal w d :
  trep U cf bal w d → StronglySorted (λ x y, keycmp cf x.1 y.1 < 0) d.
Proof.
  intros (B & F & t & Hok & ->). pose proof (to_ord _ _ _ _ _ _ _ Hok) as Hs.
  induction Hs as [|e es _ IH He]; simpl; constructor; [done|]. by apply Forall_fmap.
Qed.

Lemma wp_lists bal w d :
  trep U cf bal w d → Z.of_nat (length d) < 2 ^ 59 → (∀ k b, oracle w k b = true) →
  wp collect_map (λ l w', heap w' = heap w ∧ lists (heap w) d l) w.
Proof.
  intros Ht Hlen Hor. destruct d as [|x d].
  - eapply wp_mono; [eapply wp_collect_empty; [exact Ht|by intros ? ? ?]|].
    intros l w' [(_ & ? & _) ->]. done.
  - eapply wp_mono; [eapply wp_collect_map; [exact Ht|done|done|by intros ? ? ?]|].
    intros l w' [(_ & ? & _) Hl]. done.
Qed.

Lemma created w :
  caller_only U w → oracle w (allocs w) sizeof_treemap = true →
  wp (cobalt_treemap_create_ext cf) (λ _ w', trep U cf True w' [] ∧ oracle w' = oracle w ∧ brk w' = brk w) w.
Proof.
  intros Hw Hor. eapply wp_mono; [by apply wp_treemap_create|].
  intros [] w' [?|(_ & _ & Hf)]; [done|congruence].
Qed.
End listing.

(** ** The properties *)

(** C2: Any sequence of map calls on a fresh tree map answers as an ordered
    dictionary, under the default order or any comparator that orders the
    strings: a put, a lookup, a removal, the least and the greatest key, the
    size, the emptiness test and clearing.  NULL keys are refused; a put may
    fail when memory is short, and then changes nothing.  When the map is
    destroyed none of its blocks is left.  The one way not to get there is a
    removal that dereferences NULL, all calls before it having returned and
    another removal among them; no other call faults. *)
Theorem treemap_session_is_dictionary U cf w os :
  KeyOrder (keycmp cf) → caller_only U w → Forall (op_ok U) os →
  match session cf os w with
  | Ret r w' => session_post U cf w os r w'
  | Fault f => f = NullDeref ∧ removal_faults (cobalt_treemap_create_ext cf) True os w
  end.
Proof. intros HK Hw Hos. by apply session_cases. Qed.

(** C32: A session whose removals come last, the first removal included, always
    returns: the same answers, and no fault. *)
Theorem treemap_session_returns U cf w os :
  KeyOrder (keycmp cf) → caller_only U w → Forall (op_ok U) os → removes_last os →
  wp (session cf os) (session_post U cf w os) w.
Proof. intros HK Hw Hos Hl. by apply session_total. Qed.

(** C3: As long as nothing is removed the map is a red-black tree: no red node
    has a red child, every path has as many black nodes, and its height is at
    most twice the logarithm of its size. *)
Theorem treemap_stays_balanced U cf w os :
  KeyOrder (keycmp cf) → caller_only U w → Forall (op_ok U) os →
  Forall (λ o, is_remove o = false) os → oracle w (allocs w) sizeof_treemap = true →
  wp (cobalt_treemap_create_ext cf ;;; run_ops os) (λ rs w',
    ∃ d, behaves U cf (short_for w (length os)) [] os rs d ∧ balanced cf w' (length d)) w.
Proof.
  intros HK Hw Hos Hr Hor. wp_step. eapply wp_mono; [by apply (created U)|].
  intros [] w1 (Ht & Eo & Eb). eapply wp_mono; [apply (run_ops_total U cf True _ _ _ Ht); try done|].
  - clear -Hr. induction Hr; simpl; [done|]. split; [by left|done].
  - intros rs w2 (_ & d & Hb & Ht2). exists d. split.
    + eapply behaves_short; [|exact Hb]. unfold short_for. by rewrite Eo, Eb.
    + by eapply trep_balanced.
Qed.

(** C33: When memory is granted an iterator yields every entry of the map once
    and in key order, each key as a pointer to the map's own copy; on an empty
    map it yields one pair of null pointers.  The calls before may include
    removals, whatever tree they leave: the only fault is one of those removals,
    never the iteration. *)
Theorem treemap_iterates_in_order U cf w os :
  KeyOrder (keycmp cf) → caller_only U w → Forall (op_ok U) os →
  Z.of_nat (length os) < 2 ^ 59 → (∀ k b, oracle w k b = true) →
  match listing cf os w with
  | Ret x w' => ∃ d, behaves U cf (short_for w (length os)) [] os x.1 d ∧
      StronglySorted (λ x y, keycmp cf x.1 y.1 < 0) d ∧ lists (heap w') d x.2
  | Fault f => f = NullDeref ∧ removal_faults (cobalt_treemap_create_ext cf) True os w
  end.
Proof.
  intros HK Hw Hos Hlen Hor. pose proof (created U cf w Hw (Hor _ _)) as Hc. unfold wp in Hc. unfold listing. unfold mbind at 1.
  destruct (cobalt_treemap_create_ext cf w) as [[] w1|] eqn:Ec; [|done]. destruct Hc as (Ht & Eo & Eb).
  apply (created_faults cf (λ rs, l <- collect_map ;; mret (rs, l)) (λ x w', ∃ d, behaves U cf (short_for w (length os)) [] os x.1 d ∧
      StronglySorted (λ x y, keycmp cf x.1 y.1 < 0) d ∧ lists (heap w') d x.2) os w w1 True _ Ec (run_ops_post U cf _ _ _ _ Ht Hos)).
  intros rs w2 (Eo2 & d & Hb & Ht2). pose proof (behaves_length _ _ _ _ _ _ _ Hb) as Hl. simpl in Hl.
  wp_step. eapply wp_mono; [eapply wp_lists; [exact Ht2|lia|]|].
  { intros k b. by rewrite Eo2, Eo. }
  intros l w3 [Eh Hls]. apply wp_ret. exists d. split_and!.
  - eapply behaves_short; [|exact Hb]. unfold short_for. by rewrite Eo, Eb.
  - by eapply trep_sorted.
  - by rewrite Eh.
Qed.

(** ** A removal that crashes *)

(** Five one-letter keys of the caller, ["a"] to ["e"]. *)
Definition letters : gmap Z (list Z) :=
  list_to_map ((λ k, (k + 1, [k + 97])) <$> [0; 1; 2; 3; 4]).
Definition letters_world : tworld :=
  World None (CStr <$> letters) 6 (λ _ _, true) 0 COBALT_SUCCESS.

Definition put_letter (k : Z) : tm_op := TPut (k + 1) 0 (k + 10).
Definition remove_letter (k : Z) : tm_op := TRemove (k + 1) 0.

Definition crash_ops : list tm_op :=
  (put_letter <$> [0; 1; 2; 3]) ++ (remove_letter <$> [2; 3]) ++
  (put_letter <$> [2; 3; 4]) ++ (remove_letter <$> [1; 3; 2]).

Lemma letter_key k : 0 ≤ k ≤ 4 → key_at letters (k + 1) [k + 97].
Proof.
  intros Hk. split_and!; [unfold NULL; lia| |repeat constructor; lia].
  assert (k = 0 ∨ k = 1 ∨ k = 2 ∨ k = 3 ∨ k = 4) as [->|[->|[->|[->| ->]]]] by lia; by vm_compute.
Qed.

Lemma put_letter_ok k : 0 ≤ k ≤ 4 → op_ok letters (put_letter k).
Proof. intros Hk. right. eexists. by apply letter_key. Qed.
Lemma remove_letter_ok k : 0 ≤ k ≤ 4 → op_ok letters (remove_letter k).
Proof. intros Hk. right. eexists. by apply letter_key. Qed.
Lemma get_letter_ok k : 0 ≤ k ≤ 4 → op_ok letters (TGet (k + 1) 0).
Proof. intros Hk. right. eexists. by apply letter_key. Qed.

Lemma letters_caller : caller_only letters letters_world.
Proof.
  split_and!; [intros q; apply lookup_fmap|simpl; lia|simpl; lia|].
  intros q s Hq. apply elem_of_list_to_map_2 in Hq. simpl in *.
  repeat (apply elem_of_cons in Hq as [Hq|Hq]; [simplify_eq; lia|]). by apply elem_of_nil in Hq.
Qed.

Lemma crash_ops_ok : Forall (op_ok letters) crash_ops.
Proof.
  unfold crash_ops. simpl.
  repeat (apply Forall_cons; split; [first [apply put_letter_ok|apply remove_letter_ok]; lia|]). constructor.
Qed.

(** Removals can crash: twelve calls on five keys, all of them valid, end in
    the dereference of a null sibling; the first eleven return.  When a black
    node without children leaves the tree, [rb_delete] calls its fixup with a
    null node, the fixup does nothing, and the tree is left unbalanced. *)
Theorem treemap_remove_crashes :
  Forall (op_ok letters) crash_ops ∧ caller_only letters letters_world ∧
  wp (session None (take 11 crash_ops)) (λ _ _, True) letters_world ∧
  session None crash_ops letters_world = Fault NullDeref.
Proof.
  split_and!; [apply crash_ops_ok|apply letters_caller|by vm_compute|by vm_compute].
Qed.

(** ** The hypotheses hold *)

Definition sample_ops : list tm_op :=
  (put_letter <$> [3; 1; 4; 0; 2]) ++ [TGet 3 0; TSize; TEnd L; remove_letter 1].

Lemma sample_ops_ok : Forall (op_ok letters) sample_ops.
Proof.
  unfold sample_ops. simpl.
  repeat (apply Forall_cons; split;
    [first [apply put_letter_ok; lia|apply remove_letter_ok; lia|apply (get_letter_ok 2); lia|done]|]). constructor.
Qed.

Lemma treemap_session_is_dictionary_witness :
  match session None sample_ops letters_world with
  | Ret r w' => session_post letters None letters_world sample_ops r w'
  | Fault f => f = NullDeref ∧ removal_faults (cobalt_treemap_create_ext None) True sample_ops letters_world
  end.
Proof.
  apply (treemap_session_is_dictionary letters None letters_world sample_ops); [apply _|apply letters_caller|apply sample_ops_ok].
Defined.

Lemma treemap_session_returns_witness :
  wp (session None sample_ops) (session_post letters None letters_world sample_ops) letters_world.
Proof.
  apply treemap_session_returns; [apply _|apply letters_caller|apply sample_ops_ok|].
  simpl. tauto.
Defined.

Lemma treemap_stays_balanced_witness :
  wp (cobalt_treemap_create_ext None ;;; run_ops (take 8 sample_ops)) (λ rs w',
    ∃ d, behaves letters None (short_for letters_world 8) [] (take 8 sample_ops) rs d ∧
      balanced None w' (length d)) letters_world.
Proof.
  apply treemap_stays_balanced.
  - apply _.
  - apply letters_caller.
  - apply Forall_take, sample_ops_ok.
  - by repeat constructor.
  - reflexivity.
Defined.

Lemma treemap_iterates_in_order_witness :
  match listing None sample_ops letters_world with
  | Ret x w' => ∃ d, behaves letters None (short_for letters_world (length sample_ops)) [] sample_ops x.1 d ∧
      StronglySorted (λ x y, keycmp None x.1 y.1 < 0) d ∧ lists (heap w') d x.2
  | Fault f => f = NullDeref ∧ removal_faults (cobalt_treemap_create_ext None) True sample_ops letters_world
  end.
Proof.
  apply (treemap_iterates_in_order letters None letters_world sample_ops); [apply _|apply letters_caller|apply sample_ops_ok|simpl; lia|done].
Defined.
End TreeMapSpec.
