(* ===== verification/SortSpec.v ===== *)
(** * What a sort promises

    Comparator callbacks ([compare_func_t]), sortedness, stability, and the
    fact that a stable sort has exactly one possible answer, so that every
    stable sort of the program can be compared with one reference sort. *)
From S2P Require Import Prelude.

(** A comparator is a total preorder: the sign of [cmp a b] is the opposite of
    the sign of [cmp b a], and "not greater" is transitive. *)
Class Comparator {A : Type} (cmp : A → A → Z) : Prop := {
  cmp_sym a b : 0 < cmp a b ↔ cmp b a < 0;
  cmp_trans a b c : cmp a b ≤ 0 → cmp b c ≤ 0 → cmp a c ≤ 0
}.

Section sorting.
Context {A : Type} (cmp : A → A → Z).
Implicit Types (x y : A) (xs ys : list A).

Definition le x y : Prop := cmp x y ≤ 0.
Abbreviation sorted := (StronglySorted le).

(** The elements that compare equal to [x], in their order. *)
Definition class_of x xs : list A := filter (λ y, cmp x y = 0) xs.

(** [ys] keeps the relative order of equal elements of [xs]. *)
Definition same_order xs ys : Prop := ∀ x, class_of x xs = class_of x ys.

(** The reference: insertion from the right, in front of equal elements. *)
Fixpoint ref_insert x xs : list A :=
  match xs with
  | [] => [x]
  | y :: ys => if cmp x y <=? 0 then x :: y :: ys else y :: ref_insert x ys
  end.
Definition ref_sort xs : list A := foldr ref_insert [] xs.

(** Merging two runs, the left one first among equals. *)
Fixpoint merge xs : list A → list A :=
  match xs with
  | [] => λ ys, ys
  | x :: xs' =>
      fix merge_x ys :=
        match ys with
        | [] => x :: xs'
        | y :: ys' => if cmp x y <=? 0 then x :: merge xs' ys else y :: merge_x ys'
        end
  end.

Lemma merge_nil_l ys : merge [] ys = ys.
Proof. done. Qed.
Lemma merge_nil_r xs : merge xs [] = xs.
Proof. by destruct xs. Qed.
Lemma merge_cons x xs y ys :
  merge (x :: xs) (y :: ys) =
  if cmp x y <=? 0 then x :: merge xs (y :: ys) else y :: merge (x :: xs) ys.
Proof. done. Qed.

Lemma class_of_cons x y xs :
  class_of x (y :: xs) = if decide (cmp x y = 0) then y :: class_of x xs else class_of x xs.
Proof. unfold class_of. by rewrite filter_cons. Qed.

Lemma class_of_app x xs ys : class_of x (xs ++ ys) = class_of x xs ++ class_of x ys.
Proof. apply filter_app. Qed.

Lemma class_of_none x xs : (∀ y, y ∈ xs → cmp x y ≠ 0) → class_of x xs = [].
Proof.
  induction xs as [|y xs IH]; intros Hn; [done|].
  rewrite class_of_cons, decide_False by (apply Hn; set_solver). apply IH. set_solver.
Qed.

(** Order-free facts about merging. *)
Lemma merge_perm xs : ∀ ys, merge xs ys ≡ₚ xs ++ ys.
Proof.
  induction xs as [|x xs IHx]; intros ys; [done|].
  induction ys as [|y ys IHy]; [by rewrite merge_nil_r, app_nil_r|].
  rewrite merge_cons. case_match.
  - simpl. by rewrite IHx.
  - rewrite IHy. by rewrite (Permutation_middle (x :: xs) ys y).
Qed.

Lemma ref_insert_perm x xs : ref_insert x xs ≡ₚ x :: xs.
Proof.
  induction xs as [|y ys IH]; simpl; [done|]. case_match; [done|].
  rewrite IH. apply Permutation_swap.
Qed.

Lemma ref_sort_perm xs : ref_sort xs ≡ₚ xs.
Proof. induction xs as [|x xs IH]; simpl; [done|]. by rewrite ref_insert_perm, IH. Qed.

Section order.
Context `{!Comparator cmp}.

Lemma cmp_refl x : cmp x x = 0.
Proof. pose proof (cmp_sym x x). lia. Qed.

Lemma cmp_total x y : ¬ cmp x y ≤ 0 → cmp y x ≤ 0.
Proof. pose proof (cmp_sym x y). lia. Qed.

Lemma cmp_eq_sym x y : cmp x y = 0 → cmp y x = 0.
Proof. pose proof (cmp_sym x y). pose proof (cmp_sym y x). lia. Qed.

Lemma cmp_lt_le_trans x y z : cmp x y < 0 → cmp y z ≤ 0 → cmp x z < 0.
Proof.
  intros Hxy Hyz. pose proof (cmp_sym y x). pose proof (cmp_sym x z). pose proof (cmp_sym z x).
  destruct (Z.lt_ge_cases (cmp x z) 0) as [|Hge]; [done|exfalso].
  assert (cmp z x ≤ 0) as Hzx by lia. pose proof (cmp_trans y z x Hyz Hzx). lia.
Qed.

Lemma cmp_le_lt_trans x y z : cmp x y ≤ 0 → cmp y z < 0 → cmp x z < 0.
Proof.
  intros Hxy Hyz. pose proof (cmp_sym z y). pose proof (cmp_sym x z). pose proof (cmp_sym z x).
  destruct (Z.lt_ge_cases (cmp x z) 0) as [|Hge]; [done|exfalso].
  assert (cmp z x ≤ 0) as Hzx by lia. pose proof (cmp_trans z x y Hzx Hxy). lia.
Qed.

#[export] Instance le_trans : Transitive le.
Proof. intros x y z. apply cmp_trans. Qed.

Lemma sorted_cons x xs : sorted (x :: xs) ↔ Forall (le x) xs ∧ sorted xs.
Proof. split; [by inversion 1|]. intros []. by constructor. Qed.

Lemma sorted_app xs ys :
  sorted (xs ++ ys) ↔ sorted xs ∧ sorted ys ∧ ∀ x y, x ∈ xs → y ∈ ys → le x y.
Proof.
  induction xs as [|x xs IH]; simpl.
  - split; [|tauto]. intros H. split; [constructor|]. split; [done|]. set_solver.
  - rewrite !sorted_cons, IH, Forall_app, !Forall_forall. split.
    + intros [[H1 H2] (H3 & H4 & H5)]. split_and!; [done..|].
      intros a b [->|Ha]%elem_of_cons; eauto.
    + intros [[H1 H2] [H3 H4]]. split_and!; try done; set_solver.
Qed.

Lemma merge_sorted xs : ∀ ys, sorted xs → sorted ys → sorted (merge xs ys).
Proof.
  induction xs as [|x xs IHx]; intros ys Hx Hy; [done|].
  induction ys as [|y ys IHy]; [by rewrite merge_nil_r|].
  apply sorted_cons in Hx as Hx'. apply sorted_cons in Hy as Hy'.
  destruct Hx' as [Hx1 Hx2], Hy' as [Hy1 Hy2].
  rewrite merge_cons. destruct (Z.leb_spec (cmp x y) 0).
  - apply sorted_cons. split; [|by apply IHx].
    rewrite merge_perm. apply Forall_app. split; [done|]. constructor; [done|].
    eapply Forall_impl; [done|]. intros z Hz. by eapply cmp_trans.
  - apply sorted_cons. split; [|by apply IHy].
    rewrite merge_perm. apply Forall_app. split; [|done].
    assert (le y x) by (apply cmp_total; lia). constructor; [done|].
    eapply Forall_impl; [done|]. intros z Hz. by eapply cmp_trans.
Qed.

Lemma class_of_lt x y xs : sorted (y :: xs) → cmp x y < 0 → class_of x (y :: xs) = [].
Proof.
  intros [HF _]%sorted_cons Hlt. rewrite class_of_cons, decide_False by lia.
  induction xs as [|z xs IH]; [done|]. apply Forall_cons in HF as [Hz HF].
  rewrite class_of_cons, decide_False; [by apply IH|].
  pose proof (cmp_lt_le_trans x y z Hlt Hz). lia.
Qed.

Lemma merge_stable xs : ∀ ys, sorted xs → sorted ys → same_order (xs ++ ys) (merge xs ys).
Proof.
  induction xs as [|x xs IHx]; intros ys Hx Hy; [done|].
  induction ys as [|y ys IHy]; [by rewrite merge_nil_r, app_nil_r|].
  apply sorted_cons in Hx as Hx'. apply sorted_cons in Hy as Hy'.
  destruct Hx' as [Hx1 Hx2], Hy' as [Hy1 Hy2].
  rewrite merge_cons. intros z. destruct (Z.leb_spec (cmp x y) 0).
  - simpl. rewrite !class_of_cons. by rewrite (IHx (y :: ys) Hx2 Hy z).
  - rewrite (class_of_cons z y (merge _ _)), <- (IHy Hy2 z).
    rewrite !class_of_app, (class_of_cons z y).
    case_decide as Hz; [|done]. cut (class_of z (x :: xs) = []); [by intros ->|].
    apply class_of_lt; [done|]. eapply cmp_le_lt_trans; [by rewrite Hz|].
    pose proof (cmp_sym x y). lia.
Qed.

(** Inserting is merging with a one-element run on the left. *)
Lemma ref_insert_merge x xs : ref_insert x xs = merge [x] xs.
Proof.
  induction xs as [|y ys IH]; [done|]. rewrite merge_cons. simpl. by rewrite IH.
Qed.

Lemma ref_sort_sorted xs : sorted (ref_sort xs).
Proof.
  induction xs as [|x xs IH]; simpl; [constructor|]. rewrite ref_insert_merge.
  apply merge_sorted; [|done]. constructor; constructor.
Qed.

Lemma ref_sort_stable xs : same_order xs (ref_sort xs).
Proof.
  induction xs as [|x xs IH]; [done|]. intros z. simpl. rewrite ref_insert_merge.
  rewrite <- (merge_stable [x] (ref_sort xs));
    [|constructor; constructor|apply ref_sort_sorted].
  change (class_of z ([x] ++ xs) = class_of z ([x] ++ ref_sort xs)).
  rewrite !class_of_app. by rewrite (IH z).
Qed.

(** Two sorted lists with the same classes are equal: a stable sort has only
    one answer. *)
Lemma sorted_unique xs : ∀ ys, sorted xs → sorted ys → same_order xs ys → xs = ys.
Proof.
  induction xs as [|x xs IH]; intros [|y ys] Hx Hy Hso; [done| | |].
  - specialize (Hso y). rewrite class_of_cons, decide_True in Hso by apply cmp_refl. done.
  - specialize (Hso x). rewrite class_of_cons, decide_True in Hso by apply cmp_refl. done.
  - assert (cmp x y = 0) as Exy.
    { destruct (Z.lt_trichotomy (cmp x y) 0) as [Hlt|[He|Hgt]]; [|done|]; exfalso.
      - pose proof (Hso x) as Hc. rewrite (class_of_lt x y ys Hy Hlt) in Hc.
        rewrite class_of_cons, decide_True in Hc by apply cmp_refl. done.
      - pose proof (Hso y) as Hc. rewrite (class_of_lt y x xs Hx) in Hc
          by (pose proof (cmp_sym x y); lia).
        rewrite class_of_cons, decide_True in Hc by apply cmp_refl. done. }
    assert (x = y) as <-.
    { specialize (Hso x). rewrite !class_of_cons, !decide_True in Hso by (done || apply cmp_refl).
      by inversion Hso. }
    f_equal. apply sorted_cons in Hx as [_ Hx], Hy as [_ Hy]. apply IH; [done..|].
    intros z. specialize (Hso z). rewrite !class_of_cons in Hso.
    case_decide; [by inversion Hso|done].
Qed.

Lemma stable_sort_unique xs ys : sorted ys → same_order xs ys → ys = ref_sort xs.
Proof.
  intros Hs Hso. apply sorted_unique; [done|apply ref_sort_sorted|].
  intros z. by rewrite <- (Hso z), (ref_sort_stable xs z).
Qed.
End order.
End sorting.

(** *** Instance: integers in ascending order *)

Definition zcmp (a b : Z) : Z := a - b.

#[export] Instance zcmp_comparator : Comparator zcmp.
Proof. split; unfold zcmp; lia. Qed.
