(* ===== verification/ListSort.v ===== *)
(** * Merge sort of a linked list: the end of src/src/container/list.c

    The sort works on the [next] links only.  A chain is a list of pairs
    (address of the node, its data), so that the theorems follow the nodes. *)
From S2P Require Import Prelude World Sequence DLL List SortSpec.
Import DLL LinkedList.

Module ListSort.

(** ** Operations *)

Section merge_sort.
Variable compar : Z → Z → Z.

(** The new heads of the two halves. *)
Definition list_split (head_ref : Z) : M lworld (Z * Z) :=
  if head_ref =? NULL then mret (NULL, NULL)
  else
    c <- load head_ref ;;
    fuel <- walk_fuel ;;
    slow <- loop fuel (λ st : Z * Z,
      let '(slow, fast) := st in
      if fast =? NULL then mret (inr slow)
      else
        cf <- load fast ;;
        if next cf =? NULL then mret (inl (slow, next cf))
        else
          cs <- load slow ;;
          cf' <- load (next cf) ;;
          mret (inl (next cs, next cf'))) (head_ref, next c) ;;
    cs <- load slow ;;
    set_next slow NULL ;;;
    mret (head_ref, next cs).

(** [tail->next = v] where [tail] is either [&dummy] ([None]) or a node; the
    result is the new value of [dummy.next]. *)
Definition set_tail_next (tl : option Z) (dummy v : Z) : M lworld Z :=
  match tl with None => mret v | Some t => set_next t v ;;; mret dummy end.

Definition list_merge (a b : Z) : M lworld Z :=
  fuel <- walk_fuel ;;
  st <- loop fuel (λ st : Z * Z * option Z * Z,
    let '(a, b, tl, dummy) := st in
    if negb (a =? NULL) && negb (b =? NULL) then
      ca <- load a ;;
      cb <- load b ;;
      if compar (data ca) (data cb) <=? 0 then
        dummy' <- set_tail_next tl dummy a ;;
        ca' <- load a ;;
        mret (inl (next ca', b, Some a, dummy'))
      else
        dummy' <- set_tail_next tl dummy b ;;
        cb' <- load b ;;
        mret (inl (a, next cb', Some b, dummy'))
    else mret (inr st)) (a, b, None, NULL) ;;
  let '(a, b, tl, dummy) := st in
  set_tail_next tl dummy (if negb (a =? NULL) then a else b).

(** [fuel] bounds the depth of the recursion. *)
Fixpoint list_mergesort (fuel : nat) (hd : Z) : M lworld Z :=
  match fuel with
  | O => mfail OutOfFuel
  | S n =>
      if hd =? NULL then mret hd
      else
        c <- load hd ;;
        if next c =? NULL then mret hd
        else
          ab <- list_split hd ;;
          a <- list_mergesort n ab.1 ;;
          b <- list_mergesort n ab.2 ;;
          list_merge a b
  end.

Definition cobalt_list_merge_sort (head_ref : Z) : M lworld Z :=
  fuel <- walk_fuel ;; list_mergesort fuel head_ref.
End merge_sort.

(** [cobalt_list_sort] of src/src/algorithm/sort.c hands over to
    [cobalt_list_merge_sort]. *)
Definition cobalt_list_sort (compar : Z → Z → Z) (head : Z) : M lworld Z :=
  cobalt_list_merge_sort compar head.

(** ** Singly-linked chains *)

Definition hdp (nxt : Z) (zs : list (Z * Z)) : Z := hd nxt zs.*1.

Fixpoint slseg (h : gmap Z node) (zs : list (Z * Z)) (nxt : Z) : Prop :=
  match zs with
  | [] => True
  | z :: zs => (∃ pv, h !! z.1 = Some (Node z.2 (hdp nxt zs) pv)) ∧ slseg h zs nxt
  end.

(** Addresses of a chain: allocated, distinct, not NULL. *)
Definition addrs_ok (zs : list (Z * Z)) : Prop := NoDup zs.*1 ∧ NULL ∉ zs.*1.

(** What a step of the sort may change: the [next] fields of the chain. *)
Definition frame (zs : list (Z * Z)) (w w' : lworld) : Prop :=
  obj w' = obj w ∧ dom (heap w') = dom (heap w) ∧
  ∀ p, p ∉ zs.*1 → heap w' !! p = heap w !! p.

Lemma frame_refl zs w : frame zs w w.
Proof. done. Qed.

Lemma frame_trans zs w1 w2 w3 : frame zs w1 w2 → frame zs w2 w3 → frame zs w1 w3.
Proof.
  intros (E1 & E2 & E3) (F1 & F2 & F3). split; [congruence|]. split; [congruence|].
  intros p Hp. rewrite F3, E3; done.
Qed.

Lemma frame_weaken zs zs' w w' : (∀ p, p ∈ zs.*1 → p ∈ zs'.*1) → frame zs w w' → frame zs' w w'.
Proof. intros Hs (E1 & E2 & E3). split; [done|]. split; [done|]. auto. Qed.

Lemma hdp_app nxt zs1 zs2 : hdp nxt (zs1 ++ zs2) = hdp (hdp nxt zs2) zs1.
Proof. unfold hdp. by destruct zs1. Qed.

Lemma slseg_app h zs1 zs2 nxt :
  slseg h (zs1 ++ zs2) nxt ↔ slseg h zs1 (hdp nxt zs2) ∧ slseg h zs2 nxt.
Proof.
  induction zs1 as [|z zs1 IH]; simpl; [tauto|]. rewrite IH, hdp_app. tauto.
Qed.

Lemma slseg_frame h h' zs nxt :
  slseg h zs nxt → (∀ p, p ∈ zs.*1 → h' !! p = h !! p) → slseg h' zs nxt.
Proof.
  induction zs as [|z zs IH]; simpl; [done|]. intros [[pv Hz] Hs] Hf. split.
  - exists pv. rewrite Hf; [done|]. set_solver.
  - apply IH; [done|]. set_solver.
Qed.

Lemma slseg_last h zs z nxt v :
  NoDup (zs ++ [z]).*1 → z.1 ≠ NULL → slseg h (zs ++ [z]) nxt →
  slseg (link_next z.1 v h) (zs ++ [z]) v.
Proof.
  rewrite fmap_app, NoDup_app. intros (_ & Hd & _) Hn [Hs [[pv Hz] _]]%slseg_app.
  apply slseg_app. split.
  - eapply slseg_frame; [exact Hs|]. intros p Hp. rewrite lookup_link_next_ne; [done|].
    intros ->. by eapply Hd; [done|left].
  - simpl. split; [|done]. exists pv. unfold link_next. rewrite (proj2 (Z.eqb_neq _ _) Hn).
    by rewrite lookup_alter_eq, Hz.
Qed.

Lemma addrs_perm zs zs' : zs' ≡ₚ zs → addrs_ok zs → addrs_ok zs'.
Proof. unfold addrs_ok. by intros ->. Qed.

Lemma addrs_app zs1 zs2 : addrs_ok (zs1 ++ zs2) → addrs_ok zs1 ∧ addrs_ok zs2.
Proof.
  unfold addrs_ok. rewrite fmap_app, NoDup_app. set_solver.
Qed.

Lemma hdp_null zs : NULL ∉ zs.*1 → hdp NULL zs = NULL → zs = [].
Proof. destruct zs as [|z zs]; [done|]. unfold hdp; simpl. intros Hn E. set_solver. Qed.

Lemma slseg_in h zs nxt p : slseg h zs nxt → p ∈ zs.*1 → is_Some (h !! p).
Proof.
  induction zs as [|z zs IH]; simpl; [set_solver|].
  intros [[pv Hz] Hs] [->|Hp]%elem_of_cons; eauto.
Qed.

(** The heap is large enough to be the fuel of a walk over chains in it. *)
Lemma slseg_pair_size h za zb :
  NoDup (za ++ zb).*1 → slseg h za NULL → slseg h zb NULL →
  (length (za ++ zb) <= base.size h)%nat.
Proof.
  intros Hnd Ha Hb. rewrite <- size_dom, <- (length_fmap fst (za ++ zb)).
  rewrite <- (size_list_to_set (C := gset Z) (za ++ zb).*1) by done. apply subseteq_size.
  intros p Hp%elem_of_list_to_set. apply elem_of_dom. rewrite fmap_app in Hp.
  apply elem_of_app in Hp as [Hp|Hp]; eauto using slseg_in.
Qed.

(** ** Splitting *)

Lemma wp_split_loop h0 zs Q (w : lworld) fuel : ∀ zsA sl zsB zsC,
  heap w = h0 → slseg h0 zs NULL → addrs_ok zs → zs = zsA ++ sl :: zsB ++ zsC →
  zsB ≠ [] ∨ zsC ≠ [] → (length zsC < fuel)%nat →
  (∀ zs1 sl zs2, zs = (zs1 ++ [sl]) ++ zs2 → zs2 ≠ [] → Q sl.1 w) →
  wp (loop fuel (λ st : Z * Z,
      let '(slow, fast) := st in
      if fast =? NULL then mret (inr slow)
      else
        cf <- load fast ;;
        if next cf =? NULL then mret (inl (slow, next cf))
        else
          cs <- load slow ;;
          cf' <- load (next cf) ;;
          mret (inl (next cs, next cf'))) (sl.1, hdp NULL zsC)) Q w.
Proof.
  induction fuel as [|n IH]; intros zsA sl zsB zsC Hh Hs Hok Hzs Hne Hf HQ; [lia|].
  destruct Hok as [Hnd Hnull]. subst h0.
  pose proof Hs as Hs'. rewrite Hzs in Hs'.
  apply slseg_app in Hs' as [_ [[pvs Hsl] Hs']]. apply slseg_app in Hs' as [_ HsC].
  destruct zsC as [|c1 zsC]; simpl in HsC.
  { simpl. wp_steps. apply (HQ zsA sl zsB); [|naive_solver].
    by rewrite Hzs, app_nil_r, <- app_assoc. }
  destruct HsC as [[pv1 H1] HsC].
  assert (c1.1 ≠ NULL) as Hc1 by (intros E; apply Hnull; rewrite Hzs, <- E; set_solver).
  simpl. unfold hdp at 1; simpl. rewrite (proj2 (Z.eqb_neq _ _) Hc1). wp_steps.
  eapply wp_load; [done|]. simpl. destruct zsC as [|c2 zsC]; simpl in HsC.
  { wp_steps. eapply (IH zsA sl (zsB ++ [c1]) []); try done.
    - by rewrite Hzs, <- app_assoc, app_nil_r.
    - left. by destruct zsB.
    - simpl in *; lia. }
  destruct HsC as [[pv2 H2] HsC].
  assert (c2.1 ≠ NULL) as Hc2 by (intros E; apply Hnull; rewrite Hzs, <- E; set_solver).
  unfold hdp at 1; simpl. rewrite (proj2 (Z.eqb_neq _ _) Hc2). wp_steps.
  eapply wp_load; [done|]. wp_steps. eapply wp_load; [done|]. wp_steps. simpl.
  destruct (zsB ++ [c1; c2]) as [|sl' zsB'] eqn:EB; [by destruct zsB|].
  assert (zsB ++ c1 :: c2 :: zsC = sl' :: zsB' ++ zsC) as EB'.
  { change (c1 :: c2 :: zsC) with ([c1; c2] ++ zsC). by rewrite app_assoc, EB. }
  rewrite EB'. unfold hdp at 1; simpl. eapply (IH (zsA ++ [sl]) sl' zsB' zsC); try done.
  - by rewrite Hzs, EB', <- app_assoc.
  - left. intros ->. apply (f_equal length) in EB. rewrite length_app in EB; simpl in EB. lia.
  - simpl in Hf. lia.
Qed.

Lemma wp_list_split w zs Q :
  slseg (heap w) zs NULL → addrs_ok zs → (2 <= length zs)%nat →
  (∀ zs1 zs2 w', zs = zs1 ++ zs2 → zs1 ≠ [] → zs2 ≠ [] →
     slseg (heap w') zs1 NULL → slseg (heap w') zs2 NULL → frame zs w w' →
     Q (hdp NULL zs1, hdp NULL zs2) w') →
  wp (list_split (hdp NULL zs)) Q w.
Proof.
  intros Hs Hok Hlen HQ. destruct zs as [|z zs]; [simpl in Hlen; lia|].
  destruct (id Hok) as [Hnd Hnull]. pose proof Hs as [[pv Hz] Hs2].
  unfold list_split, walk_fuel. unfold hdp at 1; simpl.
  rewrite (proj2 (Z.eqb_neq _ _)) by (intros E; apply Hnull; rewrite <- E; set_solver).
  wp_steps. eapply wp_load; [done|]. wp_steps. cbn [next].
  change (hdp NULL (z :: zs)) with z.1.
  eapply (wp_split_loop (heap w) (z :: zs) _ w _ [] z [] zs); try done.
  { right. by destruct zs; simpl in *; [lia|]. }
  { pose proof (slseg_pair_size (heap w) [] (z :: zs) Hnd I Hs). simpl in *. lia. }
  intros zs1 sl zs2 Hzs Hne. rewrite Hzs in Hs. apply slseg_app in Hs as [HsA HsB].
  pose proof HsA as HsA'. apply slseg_app in HsA' as [_ [[pvl Hsl] _]].
  assert (sl.1 ≠ NULL) as Hsn by (intros E; apply Hnull; rewrite Hzs, <- E; set_solver).
  rewrite Hzs in Hnd. rewrite fmap_app in Hnd. apply NoDup_app in Hnd as (Hnd1 & Hd & _).
  wp_steps. eapply wp_load; [done|]. wp_steps. eapply wp_set_next; [by eexists|done|].
  wp_steps. unfold hdp in *; simpl.
  replace z.1 with (hdp NULL (zs1 ++ [sl])) by (unfold hdp; destruct zs1; by simplify_eq/=).
  apply HQ; simpl; [done|by destruct zs1|done|by eapply slseg_last| |].
  - eapply slseg_frame; [done|]. intros p Hp. apply lookup_link_next_ne. intros ->.
    eapply Hd; [|done]. rewrite fmap_app. set_solver.
  - split; [done|]. split; [apply dom_link_next|]. intros p Hp.
    apply lookup_link_next_ne. intros ->. apply Hp. rewrite Hzs. set_solver.
Qed.

(** ** Merging *)

Section merging.
Context (compar : Z → Z → Z).

(** Nodes are compared by their data. *)
Definition ncmp (a b : Z * Z) : Z := compar a.2 b.2.

(** The last node of what is already merged: [None] while that is empty. *)
Definition tailp (zs : list (Z * Z)) : option Z := fst <$> last zs.

Lemma wp_set_tail_next w zsD nxt v dummy Q :
  slseg (heap w) zsD nxt → addrs_ok zsD → dummy = hdp NULL zsD →
  (∀ w', slseg (heap w') zsD v → frame zsD w w' →
     (∀ p, p ∈ zsD.*1 → Some p ≠ tailp zsD → heap w' !! p = heap w !! p) →
     Q (hdp v zsD) w') →
  wp (set_tail_next (tailp zsD) dummy v) Q w.
Proof.
  intros Hs [Hnd Hn] -> HQ. unfold set_tail_next, tailp.
  destruct zsD as [|z zsD _] using rev_ind; simpl; [by apply wp_ret, (HQ w)|].
  assert (z.1 ≠ NULL) as Hz by (intros E; apply Hn; rewrite <- E; set_solver).
  rewrite last_snoc; simpl. pose proof Hs as Hs'. apply slseg_app in Hs' as [_ [[pv Hl] _]].
  wp_steps. eapply wp_set_next; [by eexists|done|]. wp_steps.
  replace (hdp NULL (zsD ++ [z])) with (hdp v (zsD ++ [z])) by (by destruct zsD).
  apply HQ; simpl; [by eapply slseg_last| |].
  - split; [done|]. split; [apply dom_link_next|]. intros p Hp.
    apply lookup_link_next_ne. intros ->. set_solver.
  - intros p Hp Ht. apply lookup_link_next_ne. intros ->. apply Ht. unfold tailp.
    by rewrite last_snoc.
Qed.

(** One more node behind what is merged. *)
Lemma advance zsD z nxt h :
  slseg h zsD z.1 → (∃ pv, h !! z.1 = Some (Node z.2 nxt pv)) →
  slseg h (zsD ++ [z]) nxt ∧ Some z.1 = tailp (zsD ++ [z]) ∧
  hdp z.1 zsD = hdp NULL (zsD ++ [z]).
Proof.
  intros Hs Hz. split; [by apply slseg_app|]. unfold tailp. rewrite last_snoc.
  split; [done|]. by rewrite hdp_app.
Qed.

Lemma frame_disjoint zsD zr w w1 :
  addrs_ok (zsD ++ zr) → frame zsD w w1 → ∀ p, p ∈ zr.*1 → heap w1 !! p = heap w !! p.
Proof.
  intros [Hnd _] (_ & _ & Hf) p Hp. apply Hf. rewrite fmap_app in Hnd.
  apply NoDup_app in Hnd as (_ & Hd & _). intros ?. by eapply Hd.
Qed.

Lemma frame_disjoint2 zsD za zb w w1 :
  addrs_ok (zsD ++ za ++ zb) → frame zsD w w1 →
  (∀ p, p ∈ za.*1 → heap w1 !! p = heap w !! p) ∧
  (∀ p, p ∈ zb.*1 → heap w1 !! p = heap w !! p).
Proof.
  intros Hok Hfr. split; intros p Hp; (eapply frame_disjoint; [exact Hok|done|]);
    rewrite fmap_app; apply elem_of_app; auto.
Qed.

Lemma wp_merge_loop Q fuel : ∀ zsD za zb nxt (w : lworld),
  slseg (heap w) zsD nxt → slseg (heap w) za NULL → slseg (heap w) zb NULL →
  addrs_ok (zsD ++ za ++ zb) → (length za + length zb < fuel)%nat →
  (∀ zsD' za' zb' nxt' w', zsD' ++ merge ncmp za' zb' = zsD ++ merge ncmp za zb →
     za' = [] ∨ zb' = [] → zsD' ++ za' ++ zb' ≡ₚ zsD ++ za ++ zb →
     slseg (heap w') zsD' nxt' → slseg (heap w') za' NULL → slseg (heap w') zb' NULL →
     frame (zsD ++ za ++ zb) w w' →
     Q (hdp NULL za', hdp NULL zb', tailp zsD', hdp NULL zsD') w') →
  wp (loop fuel (λ st : Z * Z * option Z * Z,
    let '(a, b, tl, dummy) := st in
    if negb (a =? NULL) && negb (b =? NULL) then
      ca <- load a ;;
      cb <- load b ;;
      if compar (data ca) (data cb) <=? 0 then
        dummy' <- set_tail_next tl dummy a ;;
        ca' <- load a ;;
        mret (inl (next ca', b, Some a, dummy'))
      else
        dummy' <- set_tail_next tl dummy b ;;
        cb' <- load b ;;
        mret (inl (a, next cb', Some b, dummy'))
    else mret (inr st)) (hdp NULL za, hdp NULL zb, tailp zsD, hdp NULL zsD)) Q w.
Proof.
  induction fuel as [|n IH]; intros zsD za zb nxt w HsD Hsa Hsb Hok Hf HQ; [lia|].
  pose proof Hok as [Hnd Hnull].
  destruct za as [|a za].
  { simpl. wp_steps. by eapply HQ; auto. }
  destruct zb as [|b zb].
  { simpl. rewrite andb_false_r. wp_steps. by eapply HQ; auto. }
  assert (a.1 ≠ NULL) as Ha by (intros E; apply Hnull; rewrite <- E; set_solver).
  assert (b.1 ≠ NULL) as Hb by (intros E; apply Hnull; rewrite <- E; set_solver).
  assert (addrs_ok zsD) as HokD by (by apply addrs_app in Hok as []).
  cbn [loop]. unfold hdp at 1 2 3 4 5 6; simpl hd.
  rewrite (proj2 (Z.eqb_neq _ _) Ha), (proj2 (Z.eqb_neq _ _) Hb). cbn [negb andb].
  pose proof Hsa as [[pva Hla] Hsa']. pose proof Hsb as [[pvb Hlb] Hsb'].
  wp_steps. eapply wp_load; [done|]. wp_steps. eapply wp_load; [done|].
  cbn [data next]. destruct (Z.leb_spec (compar a.2 b.2) 0) as [Hle|Hgt]; wp_steps.
  - eapply wp_set_tail_next; [done..|]. intros w1 HsD1 Hfr _. wp_steps.
    destruct (frame_disjoint2 zsD (a :: za) (b :: zb) w w1 Hok Hfr) as [Hfa Hfb].
    eapply wp_load; [rewrite Hfa by (by left); done|]. wp_steps. cbn [next].
    change (hdp NULL (a :: za)) with a.1.
    destruct (advance zsD a (hdp NULL za) _ HsD1) as (HsD1' & -> & ->);
      [eexists; rewrite Hfa by (by left); done|].
    eapply (IH (zsD ++ [a]) za (b :: zb)).
    + done.
    + eapply slseg_frame; [done|]. intros p Hp. apply Hfa. by right.
    + by eapply slseg_frame.
    + by rewrite <- app_assoc.
    + simpl in *; lia.
    + rewrite <- !app_assoc; simpl. intros zsD' za' zb' nxt' w' Hm Hnil Hp S1 S2 S3 Hfr'.
      eapply HQ; [|done|done|done|done|done|].
      * rewrite Hm, merge_cons. by rewrite (proj2 (Z.leb_le (ncmp a b) 0) Hle).
      * eapply frame_trans; [|done]. eapply frame_weaken; [|done].
        intros p Hp'. rewrite fmap_app. by apply elem_of_app; left.
  - eapply wp_set_tail_next; [done..|]. intros w1 HsD1 Hfr _. wp_steps.
    destruct (frame_disjoint2 zsD (a :: za) (b :: zb) w w1 Hok Hfr) as [Hfa Hfb].
    eapply wp_load; [rewrite Hfb by (by left); done|]. wp_steps. cbn [next].
    change (hdp NULL (b :: zb)) with b.1.
    destruct (advance zsD b (hdp NULL zb) _ HsD1) as (HsD1' & -> & ->);
      [eexists; rewrite Hfb by (by left); done|].
    assert (zsD ++ b :: a :: za ++ zb ≡ₚ zsD ++ a :: za ++ b :: zb) as Hperm.
    { f_equiv. rewrite (Permutation_middle (a :: za) zb b). done. }
    eapply (IH (zsD ++ [b]) (a :: za) zb).
    + done.
    + by eapply slseg_frame.
    + eapply slseg_frame; [done|]. intros p Hp. apply Hfb. by right.
    + rewrite <- app_assoc; simpl. by eapply addrs_perm.
    + simpl in *; lia.
    + rewrite <- !app_assoc; simpl. intros zsD' za' zb' nxt' w' Hm Hnil Hp S1 S2 S3 Hfr'.
      eapply HQ; [|done| |done|done|done|].
      * rewrite Hm, merge_cons. by rewrite (proj2 (Z.leb_gt (ncmp a b) 0) Hgt).
      * by rewrite Hp.
      * eapply frame_trans; (eapply frame_weaken; [|done]); intros p Hp'.
        -- rewrite fmap_app. by apply elem_of_app; left.
        -- by rewrite Hperm in Hp'.
Qed.

Lemma wp_list_merge w za zb Q :
  slseg (heap w) za NULL → slseg (heap w) zb NULL → addrs_ok (za ++ zb) →
  (∀ w', slseg (heap w') (merge ncmp za zb) NULL → frame (za ++ zb) w w' →
     Q (hdp NULL (merge ncmp za zb)) w') →
  wp (list_merge compar (hdp NULL za) (hdp NULL zb)) Q w.
Proof.
  intros Ha Hb Hok HQ. unfold list_merge, walk_fuel. wp_steps.
  eapply (wp_merge_loop _ _ [] za zb NULL); [done..| |].
  { rewrite <- length_app. destruct Hok as [Hnd _].
    apply Nat.lt_succ_r. by apply slseg_pair_size. }
  intros zsD za' zb' nxt w1 Hm Hnil Hp S1 S2 S3 Hfr. simpl in Hm, Hp, Hfr. wp_simpl.
  assert (addrs_ok (zsD ++ za' ++ zb')) as Hok1 by (by eapply addrs_perm).
  assert (addrs_ok zsD) as HokD by (by apply addrs_app in Hok1 as []).
  set (rest := if negb (hdp NULL za' =? NULL) then za' else zb').
  assert (merge ncmp za' zb' = rest ∧ slseg (heap w1) rest NULL ∧
          (if negb (hdp NULL za' =? NULL) then hdp NULL za' else hdp NULL zb') = hdp NULL rest ∧
          (∀ p, p ∈ rest.*1 → p ∈ (za' ++ zb').*1)) as (Hr & Hsr & -> & Hin).
  { unfold rest. destruct Hnil as [->| ->]; simpl.
    - split_and!; try done. 
    - rewrite merge_nil_r. destruct (Z.eqb_spec (hdp NULL za') NULL) as [E|E]; simpl.
      + apply hdp_null in E as ->; [done|]. destruct Hok1. set_solver.
      + split_and!; try done. by rewrite app_nil_r. }
  eapply wp_set_tail_next; [done..|]. intros w2 HsD Hfr2 _.
  rewrite Hr in Hm. rewrite <- hdp_app, Hm. apply HQ.
  - rewrite <- Hm. apply slseg_app. split; [done|]. eapply slseg_frame; [done|].
    intros p Hpin. eapply frame_disjoint; [exact Hok1|done|by apply Hin].
  - eapply frame_trans; [done|]. eapply frame_weaken; [|done].
    intros p Hpin. rewrite <- Hp. set_solver.
Qed.

(** ** The sort *)

Section order.
Context `{!Comparator compar}.

#[local] Instance ncmp_comparator : Comparator ncmp.
Proof. split; unfold ncmp; intros; [apply cmp_sym|by eapply cmp_trans]. Qed.

(** [zs'] is [zs] stably sorted by data. *)
Definition sorted_from (zs zs' : list (Z * Z)) : Prop :=
  zs' ≡ₚ zs ∧ StronglySorted (le ncmp) zs' ∧ same_order ncmp zs zs'.

Lemma sorted_from_short zs : (length zs <= 1)%nat → sorted_from zs zs.
Proof.
  intros Hl. split; [done|]. split; [|done]. destruct zs as [|z [|]]; simpl in Hl;
    [constructor|repeat constructor|lia].
Qed.

Lemma sorted_from_merge zs1 zs2 za zb :
  sorted_from zs1 za → sorted_from zs2 zb → sorted_from (zs1 ++ zs2) (merge ncmp za zb).
Proof.
  intros (P1 & S1 & O1) (P2 & S2 & O2). split; [by rewrite merge_perm, P1, P2|].
  split; [by apply (merge_sorted ncmp)|]. intros z. rewrite <- (merge_stable ncmp za zb S1 S2 z).
  by rewrite !class_of_app, (O1 z), (O2 z).
Qed.

Lemma wp_list_mergesort fuel : ∀ zs (w : lworld) Q,
  slseg (heap w) zs NULL → addrs_ok zs → (length zs < fuel)%nat →
  (∀ zs' w', sorted_from zs zs' → slseg (heap w') zs' NULL → frame zs w w' →
     Q (hdp NULL zs') w') →
  wp (list_mergesort compar fuel (hdp NULL zs)) Q w.
Proof.
  induction fuel as [|n IH]; intros zs w Q Hs Hok Hf HQ; [lia|]. cbn [list_mergesort].
  destruct zs as [|z zs]; [simpl; apply wp_ret, (HQ []); [apply sorted_from_short; simpl; lia|done..]|].
  destruct (id Hok) as [_ Hn]. pose proof Hs as [[pv Hz] Hs'].
  change (hdp NULL (z :: zs)) with z.1 at 1 3.
  rewrite (proj2 (Z.eqb_neq _ _)) by (intros E; apply Hn; rewrite <- E; by left).
  wp_steps. eapply wp_load; [done|]. cbn [next]. destruct zs as [|z2 zs].
  { simpl. apply wp_ret, (HQ [z]); [apply sorted_from_short; simpl; lia|done..]. }
  change (hdp NULL (z2 :: zs)) with z2.1.
  rewrite (proj2 (Z.eqb_neq _ _)) by (intros E; apply Hn; rewrite <- E; right; by left).
  wp_steps. eapply wp_list_split; [done..|simpl; lia|].
  intros zs1 zs2 w1 Hzs Hne1 Hne2 Hs1 Hs2 Hfr1. rewrite Hzs in *.
  destruct (addrs_app _ _ Hok) as [Hok1 Hok2]. rewrite length_app in Hf.
  wp_steps. simpl. eapply IH; [done..| |].
  { destruct zs2; simpl in *; [done|lia]. }
  intros za w2 Hza Hsa Hfr2. wp_steps. eapply IH; [|done| |].
  { eapply slseg_frame; [done|]. intros p Hp. by eapply (frame_disjoint zs1 zs2). }
  { destruct zs1; simpl in *; [done|lia]. }
  intros zb w3 Hzb Hsb Hfr3. pose proof (proj1 Hza) as Pa. pose proof (proj1 Hzb) as Pb.
  eapply wp_list_merge; [|done|eapply addrs_perm; [|exact Hok]; by rewrite Pa, Pb|].
  { eapply slseg_frame; [done|]. intros p Hp. rewrite Pa in Hp.
    eapply (frame_disjoint zs2 zs1); [|done..]. eapply addrs_perm; [|exact Hok].
    apply Permutation_app_comm. }
  intros w4 Hm Hfr4. apply HQ; [by apply sorted_from_merge|done|].
  eapply frame_trans; [done|]. eapply frame_trans; [|eapply frame_trans].
  - eapply frame_weaken; [|done]. set_solver.
  - eapply frame_weaken; [|done]. set_solver.
  - eapply frame_weaken; [|done]. intros p. by rewrite Pa, Pb.
Qed.

Lemma wp_list_merge_sort w zs Q :
  slseg (heap w) zs NULL → addrs_ok zs →
  (∀ zs' w', sorted_from zs zs' → slseg (heap w') zs' NULL → frame zs w w' →
     Q (hdp NULL zs') w') →
  wp (cobalt_list_merge_sort compar (hdp NULL zs)) Q w.
Proof.
  intros Hs Hok HQ. unfold cobalt_list_merge_sort, walk_fuel. wp_steps.
  eapply wp_list_mergesort; [done..| |done].
  pose proof (slseg_pair_size _ [] zs (proj1 Hok) I Hs). simpl in *. lia.
Qed.

(** On the data alone, this is the reference sort. *)
Lemma class_of_data x (zs : list (Z * Z)) p :
  class_of compar x zs.*2 = (class_of ncmp (p, x) zs).*2.
Proof.
  unfold class_of, ncmp. induction zs as [|z zs IH]; [done|].
  rewrite fmap_cons, !filter_cons. simpl. case_decide; simpl; [f_equal|]; exact IH.
Qed.

Lemma sorted_from_data zs zs' : sorted_from zs zs' → zs'.*2 = ref_sort compar zs.*2.
Proof.
  intros (_ & Hs & Ho). apply (stable_sort_unique compar).
  - clear Ho. induction Hs as [|z zs' Hs IH Hz]; simpl; constructor; [done|].
    rewrite Forall_fmap. exact Hz.
  - intros x. by rewrite !(class_of_data x _ 0), (Ho (0, x)).
Qed.
End order.
End merging.

(** ** Sorting a whole list *)

Lemma dlseg_slseg h ps : ∀ prv xs, dlseg h prv ps xs NULL → slseg h (zip ps xs) NULL.
Proof.
  induction ps as [|p ps IH]; intros prv [|x xs]; simpl; try done. intros [Hp Hs].
  split; [|by eapply IH]. exists prv. rewrite Hp. f_equal. f_equal. apply dlseg_length in Hs.
  unfold hdp. rewrite fst_zip by lia. done.
Qed.

(** The data met on the way from [p] along the [next] links. *)
Fixpoint follow (h : gmap Z node) (fuel : nat) (p : Z) : option (list Z) :=
  match fuel with
  | O => None
  | S n => if p =? NULL then Some []
           else c ← h !! p; xs ← follow h n (next c); Some (data c :: xs)
  end.

Lemma follow_slseg h zs : ∀ fuel, slseg h zs NULL → addrs_ok zs → (length zs < fuel)%nat →
  follow h fuel (hdp NULL zs) = Some zs.*2.
Proof.
  induction zs as [|z zs IH]; intros [|n] Hs [Hnd Hn] Hf; simpl in *; try lia; [done|].
  destruct Hs as [[pv Hz] Hs]. apply NoDup_cons in Hnd as [_ Hnd].
  change (hdp NULL (z :: zs)) with z.1. rewrite (proj2 (Z.eqb_neq _ _)) by set_solver.
  rewrite Hz. simpl. rewrite IH; [done|done|split; [done|set_solver]|lia].
Qed.

(** C34: Sorting the nodes of a list.  For every comparator that is a total
    preorder, [cobalt_list_sort] terminates and returns a head from which the
    [next] links visit exactly the elements of the list, stably sorted, and
    end; the nodes are the nodes of the list, and nothing else is touched. *)
Theorem list_sort_sorts (compar : Z → Z → Z) `{!Comparator compar} w xs :
  rep w xs →
  wp (hd <- cobalt_list_get_head ;; cobalt_list_sort compar hd) (λ hd w',
    follow (heap w') (S (length xs)) hd = Some (ref_sort compar xs) ∧
    obj w' = obj w ∧ dom (heap w') = dom (heap w)) w.
Proof.
  intros (l & ps & Ho & Hc). unfold cobalt_list_get_head, cobalt_list_sort. wp_steps. rewrite Ho.
  pose proof (dlseg_length _ _ _ _ _ (ok_seg _ _ _ _ Hc)) as Hl.
  assert (addrs_ok (zip ps xs)) as Hok.
  { unfold addrs_ok. rewrite fst_zip by lia. split; [apply Hc|by eapply chain_null]. }
  assert (head l = hdp NULL (zip ps xs)) as ->.
  { unfold hdp. rewrite fst_zip by lia. apply Hc. }
  eapply (wp_list_merge_sort compar); [eapply dlseg_slseg, Hc|done|].
  intros zs' w' Hsf Hs (Ho' & Hd & _). pose proof (proj1 Hsf) as Hp.
  split_and!; [|congruence|done]. rewrite follow_slseg; [|done|by eapply addrs_perm; [symmetry|]|].
  - rewrite (sorted_from_data compar _ _ Hsf), snd_zip by lia. done.
  - rewrite (Permutation_length Hp), length_zip_with. lia.
Qed.

(** The list 30, 10, 20 in a memory with room. *)
Definition sample : lworld :=
  match (cobalt_list_create ;;; cobalt_list_push_back 30 ;;; cobalt_list_push_back 10 ;;;
         cobalt_list_push_back 20) (world0 (λ _ _, true)) with
  | Ret _ w => w
  | Fault _ => world0 (λ _ _, true)
  end.

Lemma sample_rep : rep sample [30; 10; 20].
Proof.
  destruct (proj1 (wp_run _ _ _) (wp_lcreate (λ _ _, true))) as (ok & w0 & E0 & Hw0).
  destruct ok; [|discriminate Hw0].
  destruct (refines_all _ _ _ _ list_refines [OPushBack 30; OPushBack 10; OPushBack 20] rep
              w0 [] Hw0) as (r1 & w1 & x1 & E1 & S1 & r2 & w2 & x2 & E2 & S2 & r3 & w3 & x3 & E3 & S3 & Hr);
    [repeat constructor|done|].
  vm_compute in E0. injection E0 as <-. vm_compute in E1. injection E1 as <- <-.
  vm_compute in E2. injection E2 as <- <-. vm_compute in E3. injection E3 as <- <-.
  destruct S1 as [[_ ->]|[[=] _]], S2 as [[_ ->]|[[=] _]], S3 as [[_ ->]|[[=] _]]. exact Hr.
Qed.

Lemma list_sort_sorts_witness :
  wp (hd <- cobalt_list_get_head ;; cobalt_list_sort zcmp hd) (λ hd w',
    follow (heap w') 4 hd = Some [10; 20; 30] ∧
    obj w' = obj sample ∧ dom (heap w') = dom (heap sample)) sample.
Proof. exact (list_sort_sorts zcmp sample [30; 10; 20] sample_rep). Defined.

(** The sort rewires [next] only.  After the documented protocol (sort from
    [cobalt_list_get_head], then [cobalt_list_set_head] with the new head and
    the new last node), the [prev] links are those of the old order: popping
    the last of 10, 20, 30 returns 30 but drops the other two nodes, and the
    next indexed read, within the recorded size, dereferences NULL. *)
Theorem list_sort_stale_prev :
  (hd <- cobalt_list_get_head ;;
   hd' <- cobalt_list_sort zcmp hd ;;
   cobalt_list_set_head hd' 1 ;;;
   cobalt_list_pop_back) sample = Ret 30 (World (Some (DList NULL NULL 2))
     {[2 := Node 10 3 1; 3 := Node 20 1 2]} 4 (λ _ _, true) 4 COBALT_SUCCESS) ∧
  (hd <- cobalt_list_get_head ;;
   hd' <- cobalt_list_sort zcmp hd ;;
   cobalt_list_set_head hd' 1 ;;;
   cobalt_list_pop_back ;;;
   cobalt_list_get 0) sample = Fault NullDeref.
Proof. split; vm_compute; reflexivity. Qed.
End ListSort.
