(* ===== verification/SortArray.v ===== *)
(** * Arrays under sort: src/src/algorithm/sort.c, the primitives

    An array of [nmemb] elements of type [A]; element moves ([memcpy] of one
    element, [cobalt_swap_bytes]) are writes of whole elements.  Indices are
    naturals: they stay below [2 * nmemb], and an array of [nmemb] elements
    fits the address space, so [size_t] does not wrap. *)
From S2P Require Import Prelude World.

Section array.
Context {A : Type}.
Implicit Types (s t : list A) (i j n : nat).

Definition get i : M (list A) A :=
  λ s, match s !! i with Some x => Ret x s | None => Fault BadAccess end.

Definition put i (x : A) : M (list A) unit :=
  λ s, match s !! i with Some _ => Ret tt (<[i := x]> s) | None => Fault BadAccess end.

Definition cobalt_swap_bytes i j : M (list A) unit :=
  if (i =? j)%nat then mret tt
  else a <- get i ;; b <- get j ;; put i b ;;; put j a.

(** A callee that is handed [arr + off] and [n]: it sees these elements only. *)
Definition sub {B} (off n : nat) (c : M (list A) B) : M (list A) B :=
  λ s, match c (take n (drop off s)) with
       | Ret b t => Ret b (take off s ++ t ++ drop (off + n) s)
       | Fault f => Fault f
       end.

(** ** Rules *)

Lemma wp_getn i x Q s : s !! i = Some x → Q x s → wp (get i) Q s.
Proof. unfold wp, get. by intros ->. Qed.

Lemma wp_putn i x y Q s : s !! i = Some x → Q tt (<[i := y]> s) → wp (put i y) Q s.
Proof. unfold wp, put. by intros ->. Qed.

Lemma wp_get_mid s1 x s2 i Q :
  i = length s1 → Q x (s1 ++ x :: s2) → wp (get i) Q (s1 ++ x :: s2).
Proof. intros ->. apply wp_getn. by apply list_lookup_middle. Qed.

Lemma insert_mid s1 (x y : A) s2 i :
  i = length s1 → <[i := y]> (s1 ++ x :: s2) = s1 ++ y :: s2.
Proof. intros ->. by rewrite insert_app_r_alt, Nat.sub_diag by lia. Qed.

Lemma wp_put_mid s1 x y s2 i Q :
  i = length s1 → Q tt (s1 ++ y :: s2) → wp (put i y) Q (s1 ++ x :: s2).
Proof.
  intros Hi HQ. eapply wp_putn; [by apply list_lookup_middle|]. by rewrite insert_mid.
Qed.

Lemma wp_swap_same i Q s : Q tt s → wp (cobalt_swap_bytes i i) Q s.
Proof. intros. unfold cobalt_swap_bytes. by rewrite Nat.eqb_refl. Qed.

(** Swapping two elements that are apart. *)
Lemma wp_swap_mid s1 x s2 y s3 i j Q :
  i = length s1 → j = (length s1 + S (length s2))%nat →
  Q tt (s1 ++ y :: s2 ++ x :: s3) →
  wp (cobalt_swap_bytes i j) Q (s1 ++ x :: s2 ++ y :: s3).
Proof.
  intros -> -> HQ. unfold cobalt_swap_bytes.
  rewrite (proj2 (Nat.eqb_neq _ _)) by lia.
  apply wp_bind, wp_get_mid; [done|]. apply wp_bind.
  assert (∀ z, (s1 ++ z :: s2 ++ y :: s3) = (s1 ++ z :: s2) ++ y :: s3) as Ha
    by (intros; by rewrite <- app_assoc).
  rewrite Ha. apply wp_get_mid; [rewrite length_app; simpl; lia|]. apply wp_bind.
  rewrite <- Ha. apply (wp_put_mid s1 x y); [done|]. rewrite Ha.
  apply wp_put_mid; [rewrite length_app; simpl; lia|]. by rewrite <- app_assoc.
Qed.

(** The same, backwards. *)
Lemma wp_swap_mid' s1 x s2 y s3 i j Q :
  i = length s1 → j = (length s1 + S (length s2))%nat →
  Q tt (s1 ++ y :: s2 ++ x :: s3) →
  wp (cobalt_swap_bytes j i) Q (s1 ++ x :: s2 ++ y :: s3).
Proof.
  intros -> -> HQ. unfold cobalt_swap_bytes.
  rewrite (proj2 (Nat.eqb_neq _ _)) by lia.
  assert (∀ z y, (s1 ++ z :: s2 ++ y :: s3) = (s1 ++ z :: s2) ++ y :: s3) as Ha
    by (intros; by rewrite <- app_assoc).
  apply wp_bind. rewrite Ha. apply wp_get_mid; [rewrite length_app; simpl; lia|]. rewrite <- Ha.
  apply wp_bind, wp_get_mid; [done|]. apply wp_bind. rewrite Ha.
  apply wp_put_mid; [rewrite length_app; simpl; lia|]. rewrite <- Ha.
  by apply wp_put_mid.
Qed.

Lemma wp_sub {B} s1 s2 s3 off n (c : M (list A) B) Q :
  off = length s1 → n = length s2 →
  wp c (λ b t, Q b (s1 ++ t ++ s3)) s2 → wp (sub off n c) Q (s1 ++ s2 ++ s3).
Proof.
  intros -> -> Hc. unfold wp, sub in *. rewrite drop_app_length, take_app_length.
  destruct (c s2); [|done]. rewrite take_app_length, drop_app_add, drop_app_length. done.
Qed.

Lemma wp_sub_all {B} s n (c : M (list A) B) Q :
  n = length s → wp c Q s → wp (sub 0 n c) Q s.
Proof.
  intros -> Hc. unfold wp, sub in *. rewrite drop_0, take_ge by lia. simpl.
  rewrite drop_all. destruct (c s); [|done]. by rewrite app_nil_r.
Qed.

(** Any in-range swap is a permutation; no decomposition needed. *)
Lemma wp_swap_perm i j Q s :
  (i < length s)%nat → (j < length s)%nat →
  (∀ a b, s !! i = Some a → s !! j = Some b →
     <[j := a]> (<[i := b]> s) ≡ₚ s → Q tt (<[j := a]> (<[i := b]> s))) →
  wp (cobalt_swap_bytes i j) Q s.
Proof.
  intros Hi Hj HQ.
  destruct (lookup_lt_is_Some_2 s i Hi) as [a Ha], (lookup_lt_is_Some_2 s j Hj) as [b Hb].
  unfold cobalt_swap_bytes. destruct (Nat.eqb_spec i j) as [->|Hne].
  - apply wp_ret. rewrite Ha in Hb. injection Hb as <-. specialize (HQ _ _ Ha Ha).
    rewrite list_insert_insert_eq, list_insert_id in HQ by done. by apply HQ.
  - apply wp_bind. eapply wp_getn; [done|]. apply wp_bind. eapply wp_getn; [done|].
    apply wp_bind. eapply wp_putn; [done|]. eapply wp_putn; [by rewrite list_lookup_insert_ne|].
    apply HQ; [done..|]. by apply Permutation_insert_swap.
Qed.
End array.
