(* ===== verification/InsertionSort.v ===== *)
(** * Insertion sort, partition and unique of src/src/algorithm/sort.c *)
From S2P Require Import Prelude World SortSpec SortArray.

(** ** The array with its allocator: [obj] is the array, [None] a NULL base *)

Abbreviation aworld A := (world (list A) unit).

Definition on_arr {A B} (c : M (list A) B) : M (aworld A) B :=
  λ w, match obj w with
       | None => Fault NullDeref
       | Some s => match c s with
                   | Ret b s' => Ret b (with_obj w (Some s'))
                   | Fault f => Fault f
                   end
       end.

Definition on_sub {A B} (off n : nat) (c : M (aworld A) B) : M (aworld A) B :=
  λ w, match obj w with
       | None => Fault NullDeref
       | Some s =>
           match c (with_obj w (Some (take n (drop off s)))) with
           | Ret b w' =>
               match obj w' with
               | Some t => Ret b (with_obj w' (Some (take off s ++ t ++ drop (off + n) s)))
               | None => Fault NullDeref
               end
           | Fault f => Fault f
           end
       end.

Lemma wp_on_arr {A B} (c : M (list A) B) s Q (w : aworld A) :
  obj w = Some s → wp c (λ b s', Q b (with_obj w (Some s'))) s → wp (on_arr c) Q w.
Proof. unfold wp, on_arr. intros ->. by destruct (c s). Qed.

Lemma wp_on_sub {A B} s1 s2 s3 off n (c : M (aworld A) B) Q (w : aworld A) :
  obj w = Some (s1 ++ s2 ++ s3) → off = length s1 → n = length s2 →
  wp c (λ b w', ∃ t, obj w' = Some t ∧ Q b (with_obj w' (Some (s1 ++ t ++ s3))))
    (with_obj w (Some s2)) →
  wp (on_sub off n c) Q w.
Proof.
  intros Ho -> -> Hc. unfold wp, on_sub in *. rewrite Ho, drop_app_length, take_app_length.
  destruct (c _); [|done]. destruct Hc as (t & -> & Hc).
  by rewrite take_app_length, drop_app_add, drop_app_length.
Qed.

(** What a sort leaves behind. *)
Definition sorted_from {A} (compar : A → A → Z) (w : aworld A) (s : list A) (w' : aworld A)
    : Prop :=
  ∃ s', obj w' = Some s' ∧ s' ≡ₚ s ∧ StronglySorted (le compar) s' ∧ oracle w' = oracle w.

Module InsertionSort.

Section insertion.
Context {A : Type} (compar : A → A → Z).
Implicit Types (s P R : list A).

(** [for (i = start; count times; i++)] *)
Fixpoint for_up (start count : nat) (body : nat → M (list A) unit) : M (list A) unit :=
  match count with
  | O => mret tt
  | S c => body start ;;; for_up (S start) c body
  end.

Definition insert_key (i : nat) : M (list A) unit :=
  key <- get i ;;
  j <- loop (S i) (λ j,
    if (j =? 0)%nat then mret (inr j)
    else
      x <- get (j - 1) ;;
      if 0 <? compar x key then put j x ;;; mret (inl (j - 1)%nat) else mret (inr j)) i ;;
  if negb (j =? i)%nat then put j key else mret tt.

Definition insertion_loop (nmemb : nat) : M (list A) unit := for_up 1 (nmemb - 1) insert_key.

(** [alloc] says whether the caller passed an allocator; without one the key
    buffer is on the stack up to 128 bytes and from [malloc] beyond. *)
Definition insertion_sort_impl (alloc : bool) (nmemb : nat) (size : Z) : M (aworld A) unit :=
  o <- get_obj ;;
  match o with
  | None => mret tt
  | Some _ =>
      if (nmemb <=? 1)%nat || (size =? 0) then mret tt
      else
        key <- (if alloc then request size
                else if size <=? 128 then mret true else request size) ;;
        if negb key then mret tt else on_arr (insertion_loop nmemb)
  end.

Definition cobalt_insertion_sort (nmemb : nat) (size : Z) : M (aworld A) unit :=
  insertion_sort_impl false nmemb size.

(** A NULL allocator falls back to the system one. *)
Definition cobalt_insertion_sort_with_alloc (alloc : bool) (nmemb : nat) (size : Z)
    : M (aworld A) unit :=
  insertion_sort_impl true nmemb size.

Definition partition_loop (nmemb : nat) (pivot : A) : M (list A) nat :=
  loop (S nmemb) (λ '(lft, rgt),
    if (lft <? rgt)%nat then
      x <- get lft ;;
      if compar x pivot <? 0 then mret (inl (S lft, rgt))
      else
        let rgt := (rgt - 1)%nat in
        (if negb (lft =? rgt)%nat then cobalt_swap_bytes lft rgt else mret tt) ;;;
        mret (inl (lft, rgt))
    else mret (inr lft)) (0%nat, nmemb).

Definition partition_impl (alloc : bool) (nmemb : nat) (size : Z) (pivot : option A)
    : M (aworld A) nat :=
  o <- get_obj ;;
  match o, pivot with
  | Some _, Some pivot =>
      if (nmemb =? 0)%nat || (size =? 0) then mret 0%nat
      else
        track_buf <- (if alloc then request size else mret true) ;;
        if negb track_buf then mret 0%nat else on_arr (partition_loop nmemb pivot)
  | _, _ => mret 0%nat
  end.

Definition cobalt_partition (nmemb : nat) (size : Z) (pivot : option A) : M (aworld A) nat :=
  partition_impl false nmemb size pivot.
Definition cobalt_partition_with_alloc (alloc : bool) (nmemb : nat) (size : Z)
    (pivot : option A) : M (aworld A) nat :=
  partition_impl alloc nmemb size pivot.

(** The result is the new count; [write] runs through the loop. *)
Definition unique_loop (count : nat) : M (list A) nat :=
  loop (S count) (λ '(i, write),
    if (i <? count)%nat then
      x <- get i ;; y <- get (i - 1) ;;
      if negb (compar x y =? 0) then
        (if negb (write =? i)%nat then v <- get i ;; put write v else mret tt) ;;;
        mret (inl (S i, S write))
      else mret (inl (S i, write))
    else mret (inr write)) (1%nat, 1%nat).

Definition cobalt_unique (nmemb : nat) : M (aworld A) nat :=
  o <- get_obj ;;
  match o with
  | None => mret nmemb
  | Some _ => if (nmemb <=? 1)%nat then mret nmemb else on_arr (unique_loop nmemb)
  end.

Context `{!Comparator compar}.

(** ** Insertion sort *)

(** Placing [key] behind the last element that is not greater is merging with
    the one-element run [key]. *)
Lemma merge_key P1 P2 key :
  StronglySorted (le compar) (P1 ++ P2) → Forall (λ x, 0 < compar x key) P2 →
  (∀ y, last P1 = Some y → compar y key ≤ 0) →
  merge compar (P1 ++ P2) [key] = P1 ++ key :: P2.
Proof.
  induction P1 as [|x P1 IH]; intros Hs H2 H1; simpl.
  - destruct P2 as [|y P2]; [done|]. apply Forall_cons in H2 as [Hy _].
    rewrite merge_cons. destruct (Z.leb_spec (compar y key) 0); [lia|]. by rewrite merge_nil_r.
  - apply sorted_cons in Hs as [Hx Hs]. destruct (Z.leb_spec (compar x key) 0) as [|Hgt].
    + f_equal. apply IH; [done..|]. intros y Hy. apply H1. destruct P1; [done|]. by rewrite last_cons_cons.
    + exfalso. destruct (last P1) as [y|] eqn:E.
      * assert (compar y key ≤ 0) by (apply H1; destruct P1; [done|]; by rewrite last_cons_cons).
        assert (compar x y ≤ 0) as Hxy.
        { rewrite Forall_forall in Hx. apply Hx. apply elem_of_app. left.
          by apply last_Some_elem_of. }
        pose proof (cmp_trans x y key Hxy ltac:(done)). lia.
      * apply last_None in E as ->. specialize (H1 x eq_refl). lia.
Qed.

Lemma wp_insert_key P x R :
  StronglySorted (le compar) P →
  wp (insert_key (length P)) (λ _ s', s' = merge compar P [x] ++ R) (P ++ x :: R).
Proof.
  intros Hs. unfold insert_key. apply wp_bind, wp_get_mid; [done|]. apply wp_bind.
  apply (wp_loop (λ j s, ∃ P1 d P2, P = P1 ++ P2 ∧ j = length P1 ∧
            s = P1 ++ d :: P2 ++ R ∧ Forall (λ y, 0 < compar y x) P2 ∧ (P2 = [] → d = x))
           (λ j _, j)); [by exists P, x, []; rewrite app_nil_r|lia|].
  intros j s (P1 & d & P2 & HP & -> & -> & Hgt & Hd).
  assert (∀ y, last P1 = Some y → compar y x ≤ 0 →
    wp (if negb (length P1 =? length P)%nat then put (length P1) x else mret tt)
      (λ _ s', s' = merge compar P [x] ++ R) (P1 ++ d :: P2 ++ R)) as Hdone1.
  { intros y Hy Hle. rewrite HP, merge_key, <- app_assoc; [|by rewrite <- HP|done|by intros; simplify_eq].
    rewrite length_app. destruct (Nat.eqb_spec (length P1) (length P1 + length P2)) as [E|E]; simpl.
    - destruct P2; [|simpl in E; lia]. apply wp_ret. by rewrite Hd.
    - by apply wp_put_mid. }
  destruct P1 as [|y P1 _] using rev_ind.
  - simpl. apply wp_ret. rewrite HP. simpl.
    pose proof (merge_key [] P2 x) as Hm. simpl in Hm.
    rewrite Hm; [|simpl in HP; by rewrite <- HP|done|done].
    destruct P2 as [|z P2]; simpl; [apply wp_ret; by rewrite Hd|].
    by apply (wp_put_mid [] d x).
  - rewrite length_app. simpl. rewrite (proj2 (Nat.eqb_neq (length P1 + 1) 0)) by lia.
    apply wp_bind. rewrite <- app_assoc. simpl. apply wp_get_mid; [lia|].
    destruct (Z.ltb_spec 0 (compar y x)).
    + apply wp_bind.
      replace (P1 ++ y :: d :: P2 ++ R) with ((P1 ++ [y]) ++ d :: P2 ++ R)
        by (by rewrite <- app_assoc).
      apply wp_put_mid; [rewrite length_app; simpl; lia|]. apply wp_ret.
      split; [|lia]. exists P1, y, (y :: P2). split_and!.
      * by rewrite HP, <- app_assoc.
      * lia.
      * by rewrite <- app_assoc.
      * by apply Forall_cons.
      * done.
    + apply wp_ret. specialize (Hdone1 y). rewrite last_snoc, length_app, <- app_assoc in Hdone1.
      simpl in Hdone1. apply Hdone1; [done|lia].
Qed.

Definition insert_runs P R : list A := foldl (λ P x, merge compar P [x]) P R.

Lemma insert_runs_spec R : ∀ P, StronglySorted (le compar) P →
  StronglySorted (le compar) (insert_runs P R) ∧ same_order compar (P ++ R) (insert_runs P R).
Proof.
  induction R as [|x R IH]; intros P Hs; simpl.
  - split; [done|]. by rewrite app_nil_r.
  - assert (StronglySorted (le compar) [x]) as Hx by (repeat constructor).
    destruct (IH (merge compar P [x])) as [H1 H2]; [by apply merge_sorted|]. split; [done|].
    intros z. rewrite <- (H2 z), (class_of_app _ z (merge compar P [x])), <- (merge_stable _ P [x] Hs Hx z).
    by rewrite <- class_of_app, <- app_assoc.
Qed.

Lemma wp_insertion_range R : ∀ P, StronglySorted (le compar) P →
  wp (for_up (length P) (length R) insert_key) (λ _ s', s' = insert_runs P R) (P ++ R).
Proof.
  induction R as [|x R IH]; intros P Hs; simpl; [apply wp_ret; by rewrite app_nil_r|].
  apply wp_bind. eapply wp_mono; [by apply wp_insert_key|]. intros _ s' ->.
  assert (S (length P) = length (merge compar P [x])) as ->.
  { rewrite (Permutation_length (merge_perm _ P [x])), length_app. simpl. lia. }
  apply IH. apply merge_sorted; [done|done|repeat constructor].
Qed.

(** Insertion sort computes the reference sort. *)
Lemma wp_insertion_loop s :
  wp (insertion_loop (length s)) (λ _ s', s' = ref_sort compar s) s.
Proof.
  unfold insertion_loop. destruct s as [|x R]; [by apply wp_ret|].
  simpl. rewrite Nat.sub_0_r. assert (StronglySorted (le compar) [x]) as Hx by (repeat constructor).
  eapply wp_mono; [apply (wp_insertion_range R [x] Hx)|]. intros _ s' ->.
  destruct (insert_runs_spec R [x] Hx) as [H1 H2].
  by apply (stable_sort_unique compar (x :: R)).
Qed.

(** The key buffer can be had. *)
Definition key_room (alloc : bool) (size : Z) (orc : nat → Z → bool) : Prop :=
  (alloc = false ∧ size ≤ 128) ∨ ∀ k, orc k size = true.

Lemma ref_sort_short s : (length s ≤ 1)%nat → ref_sort compar s = s.
Proof. destruct s as [|x [|]]; simpl; try done. lia. Qed.

Lemma wp_insertion_sort_impl alloc size s (w : aworld A) :
  obj w = Some s → size ≠ 0 → key_room alloc size (oracle w) →
  wp (insertion_sort_impl alloc (length s) size) (λ _ w',
    obj w' = Some (ref_sort compar s) ∧ oracle w' = oracle w) w.
Proof.
  intros Ho Hsz Hroom. unfold insertion_sort_impl. wp_step. wp_step. rewrite Ho.
  destruct (Nat.leb_spec (length s) 1); simpl.
  { wp_steps. by rewrite ref_sort_short. }
  rewrite (proj2 (Z.eqb_neq _ _) Hsz). wp_step.
  assert (∀ w', obj w' = Some s → oracle w' = oracle w →
    wp (on_arr (insertion_loop (length s))) (λ _ w',
    obj w' = Some (ref_sort compar s) ∧ oracle w' = oracle w) w') as Hrun.
  { intros w' Ho' Hor'. eapply wp_on_arr; [done|]. eapply wp_mono; [apply wp_insertion_loop|].
    intros _ s' ->. done. }
  destruct Hroom as [[-> Hle]|Hg].
  - rewrite (proj2 (Z.leb_le _ _) Hle). wp_steps. by apply Hrun.
  - assert (wp (request size) (λ b w', b = true ∧ obj w' = Some s ∧ oracle w' = oracle w) w) as Hreq.
    { apply wp_request; intros E; rewrite Hg in E; done. }
    destruct alloc; [|destruct (size <=? 128); [wp_steps; by apply Hrun|]].
    all: eapply wp_mono; [exact Hreq|]; intros b w' (-> & ? & ?); wp_simpl; by apply Hrun.
Qed.

Lemma wp_insertion_sort_granted s size (w : aworld A) :
  obj w = Some s → size ≠ 0 → oracle w (allocs w) size = true →
  wp (insertion_sort_impl true (length s) size) (λ _ w', obj w' = Some (ref_sort compar s)) w.
Proof.
  intros Ho Hsz Hg. unfold insertion_sort_impl. wp_step. wp_step. rewrite Ho.
  rewrite (proj2 (Z.eqb_neq _ _) Hsz), orb_false_r.
  destruct (Nat.leb_spec (length s) 1); [wp_steps; by rewrite ref_sort_short|]. wp_step.
  apply wp_request; intros E; [|congruence]. wp_simpl. eapply wp_on_arr; [done|].
  eapply wp_mono; [apply wp_insertion_loop|]. by intros _ s' ->.
Qed.

(** When the buffer is refused the array is left as it was. *)
Lemma wp_insertion_sort_refused s size (w : aworld A) :
  obj w = Some s → oracle w (allocs w) size = false →
  wp (insertion_sort_impl true (length s) size) (λ _ w', obj w' = Some s) w.
Proof.
  intros Ho Href. unfold insertion_sort_impl. wp_step. wp_step. rewrite Ho.
  destruct ((length s <=? 1)%nat || (size =? 0)); wp_steps; [done|].
  apply wp_request; intros E; [congruence|]. by wp_steps.
Qed.

(** ** Partition *)

Lemma wp_partition_loop s pivot :
  wp (partition_loop (length s) pivot) (λ k s', ∃ L G,
    s' = L ++ G ∧ k = length L ∧ s' ≡ₚ s ∧
    Forall (λ x, compar x pivot < 0) L ∧ Forall (λ x, 0 ≤ compar x pivot) G) s.
Proof.
  unfold partition_loop.
  apply (wp_loop (λ '(l, r) t, ∃ L U G, t = L ++ U ++ G ∧ l = length L ∧
      r = (length L + length U)%nat ∧ t ≡ₚ s ∧
      Forall (λ x, compar x pivot < 0) L ∧ Forall (λ x, 0 ≤ compar x pivot) G)
    (λ '(l, r) _, (r - l)%nat)).
  - exists [], s, []. rewrite app_nil_r. by repeat constructor.
  - lia.
  - intros [l r] t (L & U & G & -> & -> & -> & Hp & HL & HG).
    destruct U as [|u U]; simpl.
    { rewrite Nat.add_0_r, Nat.ltb_irrefl. apply wp_ret. by exists L, G. }
    rewrite (proj2 (Nat.ltb_lt _ _)) by lia. apply wp_bind, wp_get_mid; [done|].
    destruct (Z.ltb_spec (compar u pivot) 0).
    + apply wp_ret. split; [|lia]. exists (L ++ [u]), U, G. rewrite length_app, <- app_assoc.
      split_and!; simpl; try done; try lia. apply Forall_app. by repeat constructor.
    + destruct U as [|v U _] using rev_ind; simpl.
      * replace (length L + 1 - 1)%nat with (length L) by lia. rewrite Nat.eqb_refl. simpl.
        apply wp_bind, wp_ret, wp_ret. split; [|lia]. exists L, [], (u :: G). simpl.
        split_and!; try done; try lia. by apply Forall_cons.
      * rewrite length_app. simpl.
        rewrite (proj2 (Nat.eqb_neq (length L) _)) by lia. simpl. apply wp_bind.
        rewrite <- app_assoc in *. simpl in *. apply wp_swap_mid; [done|lia|]. apply wp_ret.
        split; [|lia]. exists L, (v :: U), (u :: G). simpl. split_and!; try done; try lia.
        -- rewrite <- Hp. solve_Permutation.
        -- by apply Forall_cons.
Qed.

(** ** Unique *)

(** The specification: drop every element that equals its left neighbour. *)
Fixpoint dedup (x : A) (xs : list A) : list A :=
  match xs with
  | [] => []
  | y :: ys => if compar y x =? 0 then dedup y ys else y :: dedup y ys
  end.

Lemma wp_unique_loop x s :
  wp (unique_loop (length (x :: s))) (λ k s', ∃ junk,
    s' = (x :: dedup x s) ++ junk ∧ k = length (x :: dedup x s) ∧
    length s' = length (x :: s)) (x :: s).
Proof.
  unfold unique_loop. set (n := length (x :: s)). set (D := x :: dedup x s).
  (* [y] is the element read last; it is either the last one kept, or behind
     the kept ones and the ones that were skipped *)
  apply (wp_loop (λ '(i, wr) t, ∃ kept junk y rest,
      t = kept ++ junk ++ y :: rest ∧ i = S (length kept + length junk) ∧ length t = n ∧
      ((junk = [] ∧ wr = S (length kept) ∧ kept ++ y :: dedup y rest = D) ∨
       (wr = length kept ∧ kept ++ dedup y rest = D)))
    (λ '(i, _) _, (n - i)%nat)).
  - exists [], [], x, s. split_and!; try done. by left.
  - lia.
  - intros [i wr] t (kept & junk & y & rest & -> & -> & Hl & Hd).
    rewrite !length_app in Hl. simpl in Hl. destruct rest as [|z rest].
    + destruct (Nat.ltb_spec (S (length kept + length junk)) n); [simpl in *; lia|].
      apply wp_ret. simpl in Hd. destruct Hd as [(-> & -> & <-)|[-> <-]].
      * exists []. rewrite !app_nil_r, length_app. simpl. split_and!; [done|lia|].
        rewrite ?length_app. simpl in *. lia.
      * exists (junk ++ [y]). rewrite app_nil_r, !length_app. simpl. split_and!; [done|done|].
        rewrite ?length_app. simpl in *. lia.
    + rewrite (proj2 (Nat.ltb_lt _ _)) by (simpl in *; lia).
      assert (kept ++ junk ++ y :: z :: rest = (kept ++ junk ++ [y]) ++ z :: rest) as Hz
        by (by rewrite <- !app_assoc).
      assert (kept ++ junk ++ y :: z :: rest = (kept ++ junk) ++ y :: z :: rest) as Hy
        by (by rewrite <- !app_assoc).
      apply wp_bind. rewrite Hz. apply wp_get_mid; [rewrite !length_app; simpl; lia|].
      apply wp_bind. rewrite <- Hz, Hy. apply wp_get_mid; [rewrite !length_app; simpl; lia|].
      rewrite <- Hy. simpl in Hd. destruct (Z.eqb_spec (compar z y) 0) as [Heq|Hne]; cbn [negb].
      * apply wp_ret. split; [|simpl in *; lia]. destruct Hd as [(-> & -> & HD)|[-> HD]].
        -- exists (kept ++ [y]), [], z, rest. rewrite !length_app, <- !app_assoc. simpl in *.
           split_and!; try done; try lia. right. split; [lia|done].
        -- exists kept, (junk ++ [y]), z, rest. rewrite !length_app, <- !app_assoc. simpl in *.
           split_and!; try done; try lia. by right.
      * apply wp_bind. destruct Hd as [(-> & -> & HD)|[-> HD]].
        -- rewrite (proj2 (Nat.eqb_eq _ _)) by (simpl; lia). apply wp_ret, wp_ret.
           split; [|simpl in *; lia]. exists (kept ++ [y]), [], z, rest.
           rewrite !length_app, <- !app_assoc. simpl in *.
           split_and!; try done; try lia. left. split_and!; [done|lia|done].
        -- rewrite (proj2 (Nat.eqb_neq _ _)) by lia. cbn [negb]. apply wp_bind.
           rewrite Hz. apply wp_get_mid; [rewrite !length_app; simpl; lia|]. rewrite <- Hz.
           assert (∃ d J, junk ++ [y] = d :: J) as (d & J & HJ)
             by (destruct junk; simpl; eauto).
           assert (length junk = length J) as HlJ.
           { apply (f_equal length) in HJ. rewrite length_app in HJ. simpl in HJ. lia. }
           replace (kept ++ junk ++ y :: z :: rest) with (kept ++ d :: J ++ z :: rest)
             by (rewrite (app_comm_cons J), <- HJ, <- app_assoc; done).
           apply wp_put_mid; [done|]. apply wp_ret. split; [|simpl in *; lia].
           exists (kept ++ [z]), J, z, rest. rewrite !length_app, <- !app_assoc. simpl in *.
           rewrite !length_app. simpl. split_and!; try done; try lia. right. split; [lia|done].
Qed.
End insertion.

End InsertionSort.
