(* ===== verification/Heapsort.v ===== *)
(** * Heapsort of src/src/algorithm/sort.c *)
From S2P Require Import Prelude World SortSpec SortArray.

Module Heapsort.

Section heapsort.
Context {A : Type} (compar : A → A → Z).
Implicit Types (s t : list A) (i c p r : nat).

Definition heapsort_sift_down (root count : nat) : M (list A) unit :=
  loop (S count) (λ root,
    if (root <? count / 2)%nat then
      let child := (root * 2 + 1)%nat in
      child <- (if (child + 1 <? count)%nat then
                  a <- get (child + 1) ;; b <- get child ;;
                  mret (if 0 <? compar a b then (child + 1)%nat else child)
                else mret child) ;;
      a <- get child ;; b <- get root ;;
      if 0 <? compar a b then cobalt_swap_bytes root child ;;; mret (inl child)
      else mret (inr tt)
    else mret (inr tt)) root.

(** [for (i = n; i > 0; i--)] *)
Fixpoint for_down (n : nat) (body : nat → M (list A) unit) : M (list A) unit :=
  match n with
  | O => mret tt
  | S n' => body n ;;; for_down n' body
  end.

Definition cobalt_heapsort_impl (nmemb : nat) : M (list A) unit :=
  if (nmemb <=? 1)%nat then mret tt
  else
    for_down (nmemb / 2) (λ i, sub 0 nmemb (heapsort_sift_down (i - 1) nmemb)) ;;;
    for_down (nmemb - 1) (λ i,
      cobalt_swap_bytes 0 i ;;; sub 0 i (heapsort_sift_down 0 i)).

(** The public entry: [base] and [compar] are not NULL here, [size] is the
    element size. *)
Definition cobalt_heapsort (nmemb : nat) (size : Z) : M (list A) unit :=
  if (nmemb <=? 1)%nat || (size =? 0) then mret tt else cobalt_heapsort_impl nmemb.

(** ** The heap property from node [r] on *)

Definition child_of p c : Prop := c = (p * 2 + 1)%nat ∨ c = (p * 2 + 2)%nat.

Definition heap_from s r : Prop := ∀ i c x y,
  (r ≤ i)%nat → child_of i c → s !! i = Some x → s !! c = Some y → le compar y x.

(** The same with a violation allowed at [p]. *)
Definition heap_except s r p : Prop :=
  (∀ i c x y, (r ≤ i)%nat → i ≠ p → child_of i c →
     s !! i = Some x → s !! c = Some y → le compar y x) ∧
  (∀ i c x y, (r ≤ i)%nat → child_of i p → child_of p c →
     s !! i = Some x → s !! c = Some y → le compar y x).

Lemma lookup_swap s i j a b k :
  (i < length s)%nat → (j < length s)%nat → i ≠ j →
  <[j := a]> (<[i := b]> s) !! k =
  if decide (k = j) then Some a else if decide (k = i) then Some b else s !! k.
Proof.
  intros Hi Hj Hne. case_decide as Hkj; [subst|].
  { rewrite list_lookup_insert_eq; [done|by rewrite length_insert]. }
  rewrite list_lookup_insert_ne by done. case_decide as Hki; [subst|].
  - by rewrite list_lookup_insert_eq.
  - by rewrite list_lookup_insert_ne.
Qed.

Context `{!Comparator compar}.

(** Moving the violation down to the larger child. *)
Lemma heap_except_step s r p m a b :
  heap_except s r p → (r ≤ p)%nat → child_of p m →
  s !! p = Some b → s !! m = Some a → 0 < compar a b →
  (∀ c y, child_of p c → s !! c = Some y → le compar y a) →
  heap_except (<[m := b]> (<[p := a]> s)) r m.
Proof.
  intros [H1 H2] Hr Hm Hp Ha Hgt Hbig.
  assert (p ≠ m) as Hne by (destruct Hm; lia).
  pose proof (lookup_lt_Some _ _ _ Hp). pose proof (lookup_lt_Some _ _ _ Ha).
  assert (le compar b a) as Hba by (apply (cmp_total compar a b); lia).
  split; intros i c x y Hi Hic; rewrite !lookup_swap by done.
  - intros Hc Hx Hy. rewrite (decide_False (P := i = m)) in Hx by done.
    destruct (decide (c = m)) as [->|Hcm].
    { simplify_eq. assert (i = p) as -> by (unfold child_of in *; lia).
      rewrite decide_True in Hx by done. by simplify_eq. }
    destruct (decide (i = p)) as [->|Hip].
    + simplify_eq. rewrite decide_False in Hy by (unfold child_of in *; lia). eauto.
    + destruct (decide (c = p)) as [->|]; [|by eauto]. simplify_eq. by eapply H2.
  - intros Hc Hx Hy. assert (i = p) as -> by (unfold child_of in *; lia).
    rewrite (decide_False (P := p = m)), (decide_True (P := p = p)) in Hx by done.
    rewrite !decide_False in Hy by (unfold child_of in *; lia). simplify_eq.
    eapply (H1 m c); eauto. unfold child_of in *; lia.
Qed.

Lemma heap_except_done s r p x :
  heap_except s r p → s !! p = Some x →
  (∀ c y, child_of p c → s !! c = Some y → le compar y x) → heap_from s r.
Proof.
  intros [H1 _] Hp Hc i c x' y Hi Hic Hx Hy. destruct (decide (i = p)) as [->|]; [|by eauto].
  simplify_eq. eauto.
Qed.

(** The choice of the larger child. *)
Lemma wp_larger_child s p Q :
  (p * 2 + 1 < length s)%nat →
  (∀ m a, child_of p m → s !! m = Some a →
     (∀ c y, child_of p c → s !! c = Some y → le compar y a) → Q m s) →
  wp (if (p * 2 + 1 + 1 <? length s)%nat then
        a <- get (p * 2 + 1 + 1) ;; b <- get (p * 2 + 1) ;;
        mret (if 0 <? compar a b then (p * 2 + 1 + 1)%nat else (p * 2 + 1)%nat)
      else mret (p * 2 + 1)%nat) Q s.
Proof.
  intros Hl HQ. destruct (lookup_lt_is_Some_2 s _ Hl) as [b Hb].
  assert (∀ x : A, le compar x x) as Hrefl by (intros; unfold le; by rewrite cmp_refl).
  destruct (Nat.ltb_spec (p * 2 + 1 + 1) (length s)) as [Hlt|Hge].
  - destruct (lookup_lt_is_Some_2 s _ Hlt) as [a Ha].
    apply wp_bind. eapply wp_getn; [done|]. apply wp_bind. eapply wp_getn; [done|]. apply wp_ret.
    destruct (Z.ltb_spec 0 (compar a b)).
    + eapply (HQ _ a); [right; lia|done|]. intros c y [->| ->] Hy.
      * simplify_eq. apply (cmp_total compar a _). lia.
      * replace (p * 2 + 2)%nat with (p * 2 + 1 + 1)%nat in Hy by lia. by simplify_eq.
    + eapply (HQ _ b); [by left|done|]. intros c y [->| ->] Hy; [by simplify_eq|].
      replace (p * 2 + 2)%nat with (p * 2 + 1 + 1)%nat in Hy by lia. by simplify_eq.
  - apply wp_ret. eapply (HQ _ b); [by left|done|]. intros c y [->| ->] Hy; [by simplify_eq|].
    apply lookup_lt_Some in Hy. lia.
Qed.

Lemma wp_sift_down s r :
  (r < length s)%nat → heap_from s (S r) →
  wp (heapsort_sift_down r (length s)) (λ _ s', s' ≡ₚ s ∧ heap_from s' r) s.
Proof.
  intros Hr Hh. unfold heapsort_sift_down.
  apply (wp_loop (λ p t, (r ≤ p < length s)%nat ∧ t ≡ₚ s ∧ heap_except t r p)
           (λ p _, (length s - p)%nat)).
  - split_and!; [lia|lia|done|]. split.
    + intros i c x y Hi Hne. apply Hh. lia.
    + intros i c x y Hi Hc. unfold child_of in Hc. lia.
  - lia.
  - intros p t (Hp & Hperm & He). pose proof (Permutation_length Hperm) as Hl.
    destruct (lookup_lt_is_Some_2 t p) as [b Hb]; [lia|].
    destruct (Nat.ltb_spec p (length s / 2)) as [Hlt|Hge].
    + assert (p * 2 + 1 < length t)%nat as Hc.
      { pose proof (Nat.div_mod_eq (length s) 2). lia. }
      apply wp_bind. rewrite <- Hl. apply wp_larger_child; [done|].
      intros m a Hm Ha Hbig. apply wp_bind. eapply wp_getn; [done|].
      apply wp_bind. eapply wp_getn; [done|].
      pose proof (lookup_lt_Some _ _ _ Ha).
      destruct (Z.ltb_spec 0 (compar a b)).
      * apply wp_bind, wp_swap_perm; [lia|done|]. intros b' a' Hb' Ha' Hp'. simplify_eq.
        apply wp_ret. split; [|unfold child_of in Hm; lia].
        split_and!; [unfold child_of in Hm; lia|lia|by rewrite Hp'|]. eapply heap_except_step; eauto; lia.
      * apply wp_ret. split; [done|]. eapply heap_except_done; [done..|].
        intros c y Hcc Hy. eapply (cmp_trans y a b); [by eapply Hbig|lia].
    + apply wp_ret. split; [done|]. eapply heap_except_done; [done..|].
      intros c y Hcc Hy. apply lookup_lt_Some in Hy.
      pose proof (Nat.div_mod_eq (length s) 2). pose proof (Nat.mod_upper_bound (length s) 2).
      unfold child_of in Hcc. lia.
Qed.

(** The root of a heap is a maximum. *)
Lemma heap_root s x : heap_from s 0 → s !! 0%nat = Some x → Forall (λ y, le compar y x) s.
Proof.
  intros Hh Hx. apply Forall_lookup. intros i. induction i as [i IH] using lt_wf_ind.
  intros y Hy. destruct i as [|i].
  { simplify_eq. unfold le. by rewrite cmp_refl. }
  set (p := (i / 2)%nat). assert (child_of p (S i) ∧ (p < S i)%nat) as [Hc Hlt].
  { unfold child_of, p. pose proof (Nat.div_mod_eq i 2).
    pose proof (Nat.mod_upper_bound i 2). lia. }
  destruct (lookup_lt_is_Some_2 s p) as [z Hz]; [apply lookup_lt_Some in Hy; lia|].
  eapply cmp_trans; [eapply (Hh p (S i)); eauto; lia|]. by eapply IH.
Qed.

Lemma wp_heapify n : ∀ s, (n ≤ length s / 2)%nat → heap_from s n →
  wp (for_down n (λ i, sub 0 (length s) (heapsort_sift_down (i - 1) (length s))))
    (λ _ s', s' ≡ₚ s ∧ heap_from s' 0) s.
Proof.
  induction n as [|n IH]; intros s Hn Hh; simpl; [by apply wp_ret|].
  assert (0 < length s / 2)%nat by lia.
  assert (length s / 2 < length s)%nat by (apply Nat.div_lt; [destruct s; simpl in *; lia|lia]).
  apply wp_bind, wp_sub_all; [done|]. rewrite Nat.sub_0_r.
  eapply wp_mono; [apply wp_sift_down; [lia|done]|]. intros _ s' [Hp Hh'].
  rewrite <- (Permutation_length Hp).
  eapply wp_mono; [apply IH; [rewrite (Permutation_length Hp); lia|done]|].
  intros _ s'' [Hp' ?]. split; [by rewrite Hp'|done].
Qed.

Lemma wp_extract n : ∀ P S, length P = (n + 1)%nat → heap_from P 0 →
  StronglySorted (le compar) S → (∀ x y, x ∈ P → y ∈ S → le compar x y) →
  wp (for_down n (λ i, cobalt_swap_bytes 0 i ;;; sub 0 i (heapsort_sift_down 0 i)))
    (λ _ s', s' ≡ₚ P ++ S ∧ StronglySorted (le compar) s') (P ++ S).
Proof.
  induction n as [|n IH]; intros P S Hl Hh Hs Hle; simpl.
  { apply wp_ret. split; [done|]. destruct P as [|x [|]]; simpl in Hl; try lia.
    simpl. apply sorted_cons. split; [|done]. apply Forall_forall. set_solver. }
  destruct P as [|x P]; [simpl in Hl; lia|].
  destruct P as [|y P _] using rev_ind; [simpl in Hl; lia|].
  rewrite length_cons, length_app in Hl. simpl in Hl.
  pose proof (heap_root _ x Hh eq_refl) as Hmax. apply Forall_cons in Hmax as [_ Hmax].
  assert ((x :: P ++ [y]) ++ S = [] ++ x :: P ++ y :: S) as Heq
    by (simpl; by rewrite <- app_assoc).
  rewrite Heq. apply wp_bind, wp_bind, wp_swap_mid; [done|simpl; lia|].
  apply (wp_sub [] (y :: P) (x :: S)); [done|simpl; lia|].
  assert (Datatypes.S n = length (y :: P)) as -> by (simpl; lia).
  eapply wp_mono; [apply wp_sift_down; [simpl; lia|]|].
  - intros i c u v Hi Hc Hu Hv. destruct i as [|i]; [lia|].
    assert (∃ c', c = Datatypes.S c') as [c' ->] by (destruct Hc; exists (c - 1)%nat; lia).
    assert (∀ j z, P !! j = Some z → (x :: P ++ [y]) !! Datatypes.S j = Some z) as Hlk.
    { intros j z Hj. simpl. by apply lookup_app_l_Some. }
    apply (Hh (Datatypes.S i) (Datatypes.S c') u v); [lia|done|by apply Hlk|by apply Hlk].
  - intros _ P' [Hp Hh']. simpl. eapply wp_mono; [apply (IH P' (x :: S))|].
    + rewrite (Permutation_length Hp). simpl. lia.
    + done.
    + apply sorted_cons. split; [|done]. apply Forall_forall. intros z Hz. apply Hle; [set_solver|done].
    + intros a b Ha Hb. rewrite Hp in Ha. apply elem_of_cons in Hb as [->|Hb].
      * rewrite Forall_forall in Hmax. apply Hmax. set_solver.
      * apply Hle; [set_solver|done].
    + intros _ s' [Hs' ?]. split; [|done]. rewrite Hs', Hp. simpl. solve_Permutation.
Qed.

(** Heapsort returns the array sorted. *)
Lemma wp_heapsort_impl s :
  wp (cobalt_heapsort_impl (length s))
    (λ _ s', s' ≡ₚ s ∧ StronglySorted (le compar) s') s.
Proof.
  unfold cobalt_heapsort_impl. destruct (Nat.leb_spec (length s) 1).
  { apply wp_ret. split; [done|]. destruct s as [|x [|]]; simpl in *; try lia; repeat constructor. }
  apply wp_bind. eapply wp_mono; [apply wp_heapify; [done|]|].
  - intros i c x y Hi Hc Hx Hy. apply lookup_lt_Some in Hy.
    pose proof (Nat.div_mod_eq (length s) 2). pose proof (Nat.mod_upper_bound (length s) 2).
    unfold child_of in Hc. lia.
  - intros _ s1 [Hp Hh]. rewrite <- (app_nil_r s1).
    eapply wp_mono; [apply (wp_extract (length s - 1) s1 []); [|done|constructor|set_solver]|].
    + rewrite (Permutation_length Hp). lia.
    + intros _ s2 [Hp2 Hs]. split; [|done]. by rewrite Hp2, app_nil_r.
Qed.
End heapsort.

End Heapsort.
