(* ===== verification/Pdqsort.v ===== *)
(** * Pattern-defeating quicksort: [cobalt_qsort] of src/src/algorithm/sort.c *)
From S2P Require Import Prelude World SortSpec SortArray InsertionSort Heapsort.

Module Pdqsort.
Import InsertionSort Heapsort.

Section pdqsort.
Context {A : Type} (compar : A → A → Z).
Implicit Types (s L E U G : list A).

(** [while (n >>= 1) log++] *)
Definition pdq_log2 (n : nat) : Z :=
  (fix go (fuel n : nat) (log : Z) : Z :=
     match fuel with
     | O => log
     | S fuel => let n := (n / 2)%nat in if (n =? 0)%nat then log else go fuel n (log + 1)
     end) n n 0.

Definition pdq_median3 (a b c : nat) : M (list A) nat :=
  pa <- get a ;; pb <- get b ;; pc <- get c ;;
  mret (if compar pa pb <? 0 then
          if compar pb pc <? 0 then b
          else if compar pa pc <? 0 then c else a
        else if compar pa pc <? 0 then a
        else if compar pb pc <? 0 then c else b).

Definition pdq_ninther (nmemb : nat) : M (list A) nat :=
  let s := (nmemb / 8)%nat in
  let mid := (nmemb / 2)%nat in
  m1 <- pdq_median3 0 s (2 * s) ;;
  m2 <- pdq_median3 (mid - s) mid (mid + s) ;;
  m3 <- pdq_median3 (nmemb - 1 - 2 * s) (nmemb - 1 - s) (nmemb - 1) ;;
  pdq_median3 m1 m2 m3.

(** The three-way partition around [arr[0]]: returns [lt] and [gt]. *)
Definition pdq_partition (nmemb : nat) : M (list A) (nat * nat) :=
  loop (S nmemb) (λ '(lt, i, gt),
    if (i <=? gt)%nat then
      x <- get i ;; p <- get lt ;;
      let cmp := compar x p in
      if cmp <? 0 then cobalt_swap_bytes lt i ;;; mret (inl (S lt, S i, gt))
      else if 0 <? cmp then cobalt_swap_bytes i gt ;;; mret (inl (lt, i, (gt - 1)%nat))
      else mret (inl (lt, S i, gt))
    else mret (inr (lt, gt))) (0%nat, 1%nat, (nmemb - 1)%nat).

Definition choose_pivot (nmemb : nat) : M (list A) nat :=
  if (128 <? nmemb)%nat then pdq_ninther nmemb
  else pdq_median3 0 (nmemb / 2) (nmemb - 1).

(** The smaller part first, then the larger one; [self] sorts a part. *)
Definition sort_parts (self : nat → M (aworld A) unit) (left_size off right_size : nat)
    : M (aworld A) unit :=
  if (left_size <? right_size)%nat then
    (if (1 <? left_size)%nat then on_sub 0 left_size (self left_size) else mret tt) ;;;
    on_sub off right_size (self right_size)
  else
    (if (1 <? right_size)%nat then on_sub off right_size (self right_size) else mret tt) ;;;
    on_sub 0 left_size (self left_size).

(** One call on an array of [nmemb] elements.  The [while] loop continues on
    the larger part, which is a call on that part. *)
Fixpoint pdqsort_loop (fuel : nat) (nmemb : nat) (size : Z) (bad_allowed : Z)
    : M (aworld A) unit :=
  match fuel with
  | O => mfail OutOfFuel
  | S fuel =>
      if (24 <? nmemb)%nat then
        if bad_allowed <=? 0 then on_arr (cobalt_heapsort_impl compar nmemb)
        else
          pivot_idx <- on_arr (choose_pivot nmemb) ;;
          (if negb (pivot_idx =? 0)%nat then on_arr (cobalt_swap_bytes 0 pivot_idx)
           else mret tt) ;;;
          r <- on_arr (pdq_partition nmemb) ;;
          let '(lt, gt) := r in
          let left_size := lt in
          let right_size := (nmemb - (gt + 1))%nat in
          let bad_allowed :=
            if (left_size <? nmemb / 8)%nat || (right_size <? nmemb / 8)%nat
            then bad_allowed - 1 else bad_allowed in
          sort_parts (λ n, pdqsort_loop fuel n size bad_allowed) left_size (gt + 1) right_size
      else insertion_sort_impl compar false nmemb size
  end.

Definition cobalt_qsort (nmemb : nat) (size : Z) : M (aworld A) unit :=
  o <- get_obj ;;
  match o with
  | None => mret tt
  | Some _ =>
      if (nmemb <=? 1)%nat || (size =? 0) then mret tt
      else pdqsort_loop (S nmemb) nmemb size (2 * pdq_log2 nmemb)
  end.

(** ** Pivot choice stays inside the array *)

Lemma wp_median3 s a b c Q :
  (a < length s)%nat → (b < length s)%nat → (c < length s)%nat →
  (∀ m, m = a ∨ m = b ∨ m = c → Q m s) → wp (pdq_median3 a b c) Q s.
Proof.
  intros Ha Hb Hc HQ. unfold pdq_median3.
  destruct (lookup_lt_is_Some_2 s a Ha) as [x Hx], (lookup_lt_is_Some_2 s b Hb) as [y Hy],
    (lookup_lt_is_Some_2 s c Hc) as [z Hz].
  apply wp_bind; eapply wp_getn; [done|]. apply wp_bind; eapply wp_getn; [done|].
  apply wp_bind; eapply wp_getn; [done|]. apply wp_ret, HQ.
  repeat case_match; auto.
Qed.

Lemma wp_choose_pivot s Q :
  (24 < length s)%nat → (∀ m, (m < length s)%nat → Q m s) → wp (choose_pivot (length s)) Q s.
Proof.
  intros Hl HQ. unfold choose_pivot, pdq_ninther.
  pose proof (Nat.div_mod_eq (length s) 2). pose proof (Nat.mod_upper_bound (length s) 2).
  pose proof (Nat.div_mod_eq (length s) 8). pose proof (Nat.mod_upper_bound (length s) 8).
  destruct (Nat.ltb_spec 128 (length s)).
  - apply wp_bind, wp_median3; [lia..|]. intros m1 Hm1.
    apply wp_bind, wp_median3; [lia..|]. intros m2 Hm2.
    apply wp_bind, wp_median3; [lia..|]. intros m3 Hm3.
    apply wp_median3; [lia..|]. intros m Hm. apply HQ. lia.
  - apply wp_median3; [lia..|]. intros m Hm. apply HQ. lia.
Qed.

Context `{!Comparator compar}.

(** ** The three-way partition *)

Lemma wp_pdq_partition p s :
  wp (pdq_partition (length (p :: s))) (λ r s', ∃ L E G,
    s' = L ++ E ++ G ∧ s' ≡ₚ p :: s ∧ r.1 = length L ∧
    (r.2 + 1 = length L + length E)%nat ∧ E ≠ [] ∧
    Forall (λ x, compar x p < 0) L ∧ Forall (λ x, compar x p = 0) E ∧
    Forall (λ x, 0 < compar x p) G) (p :: s).
Proof.
  unfold pdq_partition.
  apply (wp_loop (λ '(lt, i, gt) t, ∃ L e E U G, t = L ++ e :: E ++ U ++ G ∧ t ≡ₚ p :: s ∧
      lt = length L ∧ i = (length L + S (length E))%nat ∧
      (gt + 1 = length L + S (length E) + length U)%nat ∧
      Forall (λ x, compar x p < 0) L ∧ Forall (λ x, compar x p = 0) (e :: E) ∧
      Forall (λ x, 0 < compar x p) G)
    (λ '(lt, i, gt) _, (S gt - i)%nat)).
  - exists [], p, [], s, []. rewrite app_nil_r. split_and!; try done; simpl; try lia;
      repeat constructor; by apply cmp_refl.
  - simpl. lia.
  - intros [[lt i] gt] t (L & e & E & U & G & -> & Hp & -> & -> & Hgt & HL & HE & HG).
    destruct U as [|u U]; simpl in Hgt.
    + rewrite (proj2 (Nat.leb_gt _ _)) by lia. apply wp_ret. exists L, (e :: E), G.
      split_and!; try done. simpl. lia.
    + rewrite (proj2 (Nat.leb_le _ _)) by lia.
      assert (L ++ e :: E ++ (u :: U) ++ G = (L ++ e :: E) ++ u :: U ++ G) as Hu
        by (by rewrite <- app_assoc).
      apply wp_bind. rewrite Hu. apply wp_get_mid; [rewrite length_app; simpl; lia|].
      rewrite <- Hu. apply wp_bind, wp_get_mid; [done|].
      assert (compar e p = 0) as He by (by apply Forall_cons in HE as [? _]).
      assert (compar p e = 0) as He' by (by apply cmp_eq_sym).
      destruct (Z.ltb_spec (compar u e) 0) as [Hlt|Hge].
      * apply wp_bind, wp_swap_mid; [done|lia|]. apply wp_ret. split; [|lia].
        assert (∃ e' E', E ++ [e] = e' :: E') as (e' & E' & Hee) by (destruct E; simpl; eauto).
        assert (length E = length E') as HlE.
        { apply (f_equal length) in Hee. rewrite length_app in Hee. simpl in Hee. lia. }
        exists (L ++ [u]), e', E', U, G. rewrite length_app. simpl. split_and!.
        -- rewrite <- app_assoc. simpl. rewrite (app_comm_cons E'), <- Hee, <- app_assoc. done.
        -- rewrite <- Hp. solve_Permutation.
        -- lia.
        -- lia.
        -- lia.
        -- apply Forall_app. split; [done|]. repeat constructor.
           apply (cmp_lt_le_trans compar u e p); lia.
        -- rewrite <- Hee. apply Forall_app. apply Forall_cons in HE as [_ HE]. by repeat constructor.
        -- done.
      * destruct (Z.ltb_spec 0 (compar u e)) as [Hgt'|Heq].
        -- assert (0 < compar u p) as Hup.
           { apply cmp_sym. apply (cmp_le_lt_trans compar p e u); [lia|]. by apply cmp_sym. }
           destruct U as [|v U _] using rev_ind; simpl in Hgt.
           ++ replace (length L + S (length E))%nat with gt by lia. apply wp_bind, wp_swap_same.
              apply wp_ret. split; [|lia]. exists L, e, E, [], (u :: G). simpl.
              split_and!; try done; try lia. by apply Forall_cons.
           ++ rewrite length_app in Hgt. simpl in Hgt. apply wp_bind.
              replace (L ++ e :: E ++ (u :: U ++ [v]) ++ G)
                with ((L ++ e :: E) ++ u :: U ++ v :: G) by (by simplify_list_eq).
              apply wp_swap_mid; [rewrite length_app; simpl; lia|rewrite length_app; simpl; lia|].
              apply wp_ret. split; [|lia]. exists L, e, E, (v :: U), (u :: G). split_and!.
              ** by simplify_list_eq.
              ** rewrite <- Hp. simplify_list_eq. solve_Permutation.
              ** done.
              ** done.
              ** simpl. lia.
              ** done.
              ** done.
              ** by apply Forall_cons.
        -- apply wp_ret. split; [|lia]. exists L, e, (E ++ [u]), U, G. rewrite length_app. simpl.
           split_and!; try done; try lia.
           ++ by simplify_list_eq.
           ++ rewrite app_comm_cons. apply Forall_app. split; [done|]. repeat constructor.
              assert (compar u e = 0) as Hue by lia.
              pose proof (cmp_trans (cmp := compar) u e p ltac:(lia) ltac:(lia)).
              pose proof (cmp_eq_sym compar u e Hue).
              pose proof (cmp_trans (cmp := compar) p e u ltac:(lia) ltac:(lia)).
              pose proof (cmp_sym (cmp := compar) p u). lia.
Qed.

(** Sorting the two outer parts sorts the whole. *)
Lemma sorted_parts L E G L' G' (p : A) :
  Forall (λ x, compar x p < 0) L → Forall (λ x, compar x p = 0) E →
  Forall (λ x, 0 < compar x p) G → L' ≡ₚ L → G' ≡ₚ G →
  StronglySorted (le compar) L' → StronglySorted (le compar) G' →
  StronglySorted (le compar) (L' ++ E ++ G').
Proof.
  intros HL HE HG HpL HpG HsL HsG. rewrite <- HpL in HL. rewrite <- HpG in HG.
  rewrite Forall_forall in HL, HE, HG.
  assert (∀ x, compar x p = 0 → compar p x = 0) as Hsym by (intros; by apply cmp_eq_sym).
  assert (∀ y, 0 < compar y p → compar p y < 0) as Hsym2 by (intros y ?; by apply cmp_sym).
  apply sorted_app; [done|]. split_and!; [done| |].
  - apply sorted_app; [done|]. split_and!; [|done|].
    + clear -HE Hsym Comparator0. induction E as [|x E IH]; [constructor|]. apply sorted_cons.
      split; [|apply IH; set_solver]. apply Forall_forall. intros y Hy.
      apply (cmp_trans x p y); [rewrite HE; set_solver|rewrite Hsym; [lia|apply HE; set_solver]].
    + intros x y Hx Hy. apply (cmp_trans x p y); [rewrite HE; done|].
      specialize (Hsym2 y (HG y Hy)). lia.
  - intros x y Hx [Hy|Hy]%elem_of_app; apply (cmp_trans x p y).
    + specialize (HL x Hx). simpl in HL. lia.
    + rewrite Hsym; [done|]. by apply HE.
    + specialize (HL x Hx). simpl in HL. lia.
    + specialize (Hsym2 y (HG y Hy)). lia.
Qed.

(** ** The sort *)

(** One sorted part, in place. *)
Lemma wp_sort_part s1 s2 s3 off n (c : M (aworld A) unit) (run : bool) Q (w : aworld A) :
  obj w = Some (s1 ++ s2 ++ s3) → off = length s1 → n = length s2 →
  (run = false → (length s2 ≤ 1)%nat) →
  (run = true → ∀ w0, obj w0 = Some s2 → oracle w0 = oracle w →
     wp c (λ _ w', sorted_from compar w0 s2 w') w0) →
  (∀ w' s2', obj w' = Some (s1 ++ s2' ++ s3) → s2' ≡ₚ s2 →
     StronglySorted (le compar) s2' → oracle w' = oracle w → Q tt w') →
  wp (if run then on_sub off n c else mret tt) Q w.
Proof.
  intros Ho Hoff Hn Hshort Hc HQ. destruct run.
  - eapply wp_on_sub; [done..|]. eapply wp_mono; [apply (Hc eq_refl); done|].
    intros [] w' (s' & Ho' & Hp & Hs & Hor). exists s'. split; [done|]. by eapply HQ.
  - apply wp_ret. apply (HQ w s2); try done. specialize (Hshort eq_refl).
    destruct s2 as [|x [|]]; simpl in *; try lia; repeat constructor.
Qed.

Lemma wp_sort_parts self L E G p s (w w0 : aworld A) :
  obj w = Some (L ++ E ++ G) → L ++ E ++ G ≡ₚ s → oracle w = oracle w0 →
  Forall (λ x, compar x p < 0) L → Forall (λ x, compar x p = 0) E →
  Forall (λ x, 0 < compar x p) G →
  (∀ part w1, (length part ≤ length L)%nat ∨ (length part ≤ length G)%nat →
     obj w1 = Some part → oracle w1 = oracle w →
     wp (self (length part)) (λ _ w', sorted_from compar w1 part w') w1) →
  wp (sort_parts self (length L) (length L + length E) (length G))
    (λ _ w', sorted_from compar w0 s w') w.
Proof.
  intros Ho Hs Hor HL HE HG Hself. unfold sort_parts.
  assert (∀ w' L' G', obj w' = Some (L' ++ E ++ G') → L' ≡ₚ L → G' ≡ₚ G →
    StronglySorted (le compar) L' → StronglySorted (le compar) G' →
    oracle w' = oracle w → sorted_from compar w0 s w') as Hfin.
  { intros w' L' G' Ho' HpL HpG HsL HsG Hor'. exists (L' ++ E ++ G').
    rewrite Hor', Hor. split_and!; try done; [by rewrite HpL, HpG|by eapply sorted_parts]. }
  destruct (Nat.ltb_spec (length L) (length G)); apply wp_bind.
  - apply (wp_sort_part [] L (E ++ G)); [done..|by intros ?%Nat.ltb_ge|by eauto|].
    intros w2 L' Ho2 HpL HsL Hor2.
    apply (wp_sort_part (L' ++ E) G [] _ _ _ true); try done.
    + rewrite Ho2. by simplify_list_eq.
    + rewrite length_app. by rewrite (Permutation_length HpL).
    + intros _ w1 ? Hor1. apply Hself; [by right|done|]. by rewrite Hor1.
    + intros w3 G' Ho3 HpG HsG Hor3. eapply (Hfin w3 L' G'); try done.
      * rewrite Ho3. by simplify_list_eq.
      * by rewrite Hor3.
  - apply (wp_sort_part (L ++ E) G []); [rewrite Ho; by simplify_list_eq|by rewrite length_app|done
      |by intros ?%Nat.ltb_ge|by eauto|].
    intros w2 G' Ho2 HpG HsG Hor2.
    apply (wp_sort_part [] L (E ++ G') _ _ _ true); try done.
    + rewrite Ho2. by simplify_list_eq.
    + intros _ w1 ? Hor1. apply Hself; [by left|done|]. by rewrite Hor1.
    + intros w3 L' Ho3 HpL HsL Hor3. eapply (Hfin w3 L' G'); try done. by rewrite Hor3.
Qed.

Lemma wp_pdqsort fuel : ∀ bad size s (w : aworld A),
  (length s < fuel)%nat → obj w = Some s → size ≠ 0 → key_room false size (oracle w) →
  wp (pdqsort_loop fuel (length s) size bad) (λ _ w', sorted_from compar w s w') w.
Proof.
  induction fuel as [|fuel IH]; intros bad size s w Hf Ho Hsz Hroom; [lia|]. simpl.
  destruct (Nat.ltb_spec 24 (length s)) as [Hlen|Hlen].
  2:{ eapply wp_mono; [by eapply wp_insertion_sort_impl|]. intros _ w' [Ho' Hor].
      exists (ref_sort compar s). split_and!; [done|apply ref_sort_perm|by apply ref_sort_sorted|done]. }
  destruct (Z.leb_spec bad 0).
  { eapply wp_on_arr; [done|]. eapply wp_mono; [by apply wp_heapsort_impl|].
    intros _ s' [Hp Hs]. by exists s'. }
  apply wp_bind. eapply wp_on_arr; [done|]. apply wp_choose_pivot; [done|]. intros m Hm.
  apply wp_bind.
  assert (wp (if negb (m =? 0)%nat then on_arr (cobalt_swap_bytes 0 m) else mret tt)
    (λ _ w1, ∃ s1, obj w1 = Some s1 ∧ s1 ≡ₚ s ∧ oracle w1 = oracle w)
    (with_obj w (Some s))) as Hswap.
  { destruct (Nat.eqb_spec m 0); [apply wp_ret; by exists s|].
    eapply wp_on_arr; [done|]. apply wp_swap_perm; [lia|done|]. intros a b _ _ Hp.
    eexists. split_and!; [done|exact Hp|done]. }
  eapply wp_mono; [exact Hswap|]. intros _ w1 (s1 & Ho1 & Hp1 & Hor1).
  rewrite <- (Permutation_length Hp1). rewrite <- (Permutation_length Hp1) in Hlen, Hf.
  destruct s1 as [|p s1]; [simpl in *; lia|].
  apply wp_bind. eapply wp_on_arr; [done|]. eapply wp_mono; [apply wp_pdq_partition|].
  intros [lt gt] s2 (L & E & G & -> & Hp2 & Hlt & Hgt & HE & HL & HEq & HG).
  simpl in Hlt, Hgt. subst lt. pose proof (Permutation_length Hp2) as Hl2.
  rewrite !length_app in Hl2. assert (0 < length E)%nat by (destruct E; [done|simpl; lia]).
  assert (length (p :: s1) - (gt + 1) = length G)%nat as -> by lia. rewrite Hgt.
  eapply wp_sort_parts; [done|by rewrite Hp2|done..|].
  intros part w2 Hpart Ho2 Hor2. apply IH; [lia|done|done|]. by rewrite Hor2; simpl; rewrite Hor1.
Qed.

Lemma wp_qsort size s (w : aworld A) :
  obj w = Some s → size ≠ 0 → key_room false size (oracle w) →
  wp (cobalt_qsort (length s) size) (λ _ w', sorted_from compar w s w') w.
Proof.
  intros Ho Hsz Hroom. unfold cobalt_qsort. wp_step. wp_step. rewrite Ho.
  destruct (Nat.leb_spec (length s) 1); cbn [orb].
  - wp_steps. exists s. split_and!; try done.
    destruct s as [|x [|]]; simpl in *; try lia; repeat constructor.
  - rewrite (proj2 (Z.eqb_neq _ _) Hsz). apply wp_pdqsort; [lia|done..].
Qed.
End pdqsort.

End Pdqsort.
