(* ===== verification/AdaptiveSort.v ===== *)
(** * The adaptive merge sort: [cobalt_stable_sort] of src/src/algorithm/sort.c *)
From S2P Require Import Prelude World SortSpec SortArray InsertionSort.

Module AdaptiveSort.
Import InsertionSort.

Section adaptive.
Context {A : Type} (compar : A → A → Z).
Implicit Types (s X Y D : list A) (runs : list (list A)).

Definition reverse_run (len : nat) : M (list A) unit :=
  if (len <=? 1)%nat then mret tt
  else
    loop (S len) (λ '(l, r),
      if (l <? r)%nat then cobalt_swap_bytes l r ;;; mret (inl (S l, (r - 1)%nat))
      else mret (inr tt)) (0%nat, (len - 1)%nat).

(** ** Merging two adjacent runs through a scratch buffer *)

(** [memcpy] between the array and the scratch buffer of [cap] elements. *)
Definition to_scratch (cap off len : nat) : M (list A) (list A) :=
  λ s, if (len <=? cap)%nat && (off + len <=? length s)%nat
       then Ret (take len (drop off s)) s else Fault BadAccess.
Definition from_scratch (off : nat) (xs : list A) : M (list A) unit :=
  λ s, if (off + length xs <=? length s)%nat
       then Ret tt (take off s ++ xs ++ drop (off + length xs) s) else Fault BadAccess.
Definition scratch_at (scratch : list A) (i : nat) : M (list A) A :=
  match scratch !! i with Some x => mret x | None => mfail BadAccess end.

Definition merge_forward (cap a_len b_len : nat) : M (list A) unit :=
  scratch <- to_scratch cap 0 a_len ;;
  r <- loop (S (a_len + b_len)) (λ '(i, j, dest),
    if (i <? a_len)%nat && (j <? b_len)%nat then
      x <- scratch_at scratch i ;; y <- get (a_len + j) ;;
      if compar x y <=? 0 then put dest x ;;; mret (inl (S i, j, S dest))
      else put dest y ;;; mret (inl (i, S j, S dest))
    else mret (inr (i, dest))) (0%nat, 0%nat, 0%nat) ;;
  let '(i, dest) := r in
  if (i <? a_len)%nat then from_scratch dest (drop i scratch) else mret tt.

Definition merge_backward (cap a_len b_len : nat) : M (list A) unit :=
  scratch <- to_scratch cap a_len b_len ;;
  j <- loop (S (a_len + b_len)) (λ '(i, j, dest),
    if (0 <? i)%nat && (0 <? j)%nat then
      let dest := (dest - 1)%nat in
      x <- get (i - 1) ;; y <- scratch_at scratch (j - 1) ;;
      if 0 <? compar x y then
        v <- get (i - 1) ;; put dest v ;;; mret (inl ((i - 1)%nat, j, dest))
      else put dest y ;;; mret (inl (i, (j - 1)%nat, dest))
    else mret (inr j)) (a_len, b_len, (a_len + b_len)%nat) ;;
  if (0 <? j)%nat then from_scratch 0 (take j scratch) else mret tt.

Definition merge_runs (cap a_start a_len b_len : nat) : M (list A) unit :=
  sub a_start (a_len + b_len)
    (if (a_len <=? b_len)%nat then merge_forward cap a_len b_len
     else merge_backward cap a_len b_len).

(** ** Natural runs *)

(** Extend a run of length [len] while [ok] holds between neighbours. *)
Definition extend_run (ok : A → A → bool) (nmemb curr : nat) : M (list A) nat :=
  loop nmemb (λ len,
    if (curr + len <? nmemb)%nat then
      a <- get (curr + len - 1) ;; b <- get (curr + len) ;;
      if ok a b then mret (inl (S len)) else mret (inr len)
    else mret (inr len)) 2%nat.

Definition natural_run (nmemb curr : nat) : M (list A) nat :=
  if (curr + 1 <? nmemb)%nat then
    a <- get curr ;; b <- get (curr + 1) ;;
    if 0 <? compar a b then
      run_len <- extend_run (λ a b, 0 <? compar a b) nmemb curr ;;
      sub curr run_len (reverse_run run_len) ;;;
      mret run_len
    else extend_run (λ a b, compar a b <=? 0) nmemb curr
  else mret 1%nat.

(** Short runs are extended to 16 elements by insertion sort. *)
Definition min_run (alloc : bool) (size : Z) (nmemb curr run_len : nat) : M (aworld A) nat :=
  if (run_len <? 16)%nat && (curr + run_len <? nmemb)%nat then
    let force_len := if (16 <? nmemb - curr)%nat then 16%nat else (nmemb - curr)%nat in
    on_sub curr force_len (insertion_sort_impl compar alloc force_len size) ;;;
    mret force_len
  else mret run_len.

(** ** The run stack, top first: [run_t stack[64]] and [stack_size] *)

Abbreviation run_stack := (list (nat * nat)).

Definition merge_top (cap : nat) (stack : run_stack) : M (list A) run_stack :=
  match stack with
  | (_, l1) :: (s0, l0) :: rest =>
      merge_runs cap s0 l0 l1 ;;; mret ((s0, (l0 + l1)%nat) :: rest)
  | _ => mfail BadAccess
  end.

Definition merge_below (cap : nat) (stack : run_stack) : M (list A) run_stack :=
  match stack with
  | top :: (_, l1) :: (s0, l0) :: rest =>
      merge_runs cap s0 l0 l1 ;;; mret (top :: (s0, (l0 + l1)%nat) :: rest)
  | _ => mfail BadAccess
  end.

Definition make_room (cap : nat) (stack : run_stack) : M (list A) run_stack :=
  loop (S (length stack)) (λ stack,
    if (64 <=? length stack)%nat then s <- merge_top cap stack ;; mret (inl s)
    else mret (inr stack)) stack.

Definition push_run (curr run_len : nat) (stack : run_stack) : run_stack :=
  if (length stack <? 64)%nat then (curr, run_len) :: stack else stack.

Definition balance (cap : nat) (stack : run_stack) : M (list A) run_stack :=
  loop (S (length stack)) (λ stack,
    match stack with
    | (_, ln) :: (_, ln1) :: (_, ln2) :: _ =>
        if (ln2 <=? ln1 + ln)%nat then
          s <- (if (ln2 <? ln)%nat then merge_below cap stack else merge_top cap stack) ;;
          mret (inl s)
        else if (ln1 <=? ln)%nat then s <- merge_top cap stack ;; mret (inl s)
        else mret (inr stack)
    | (_, ln) :: (_, ln1) :: _ =>
        if (ln1 <=? ln)%nat then s <- merge_top cap stack ;; mret (inl s)
        else mret (inr stack)
    | _ => mret (inr stack)
    end) stack.

Definition unwind (cap : nat) (stack : run_stack) : M (list A) run_stack :=
  loop (S (length stack)) (λ stack,
    match stack with
    | (_, ln) :: _ :: (_, ln2) :: _ =>
        s <- (if (ln2 <? ln)%nat then merge_below cap stack else merge_top cap stack) ;;
        mret (inl s)
    | _ :: _ :: _ => s <- merge_top cap stack ;; mret (inl s)
    | _ => mret (inr stack)
    end) stack.

(** ** The sort *)

Definition collect_runs (alloc : bool) (size : Z) (cap nmemb : nat) : M (aworld A) run_stack :=
  loop (S nmemb) (λ '(curr, stack),
    if (curr <? nmemb)%nat then
      run_len <- on_arr (natural_run nmemb curr) ;;
      run_len <- min_run alloc size nmemb curr run_len ;;
      stack <- on_arr (make_room cap stack) ;;
      stack <- on_arr (balance cap (push_run curr run_len stack)) ;;
      mret (inl ((curr + run_len)%nat, stack))
    else mret (inr stack)) (0%nat, []).

Definition adaptive_merge_sort (alloc : bool) (nmemb : nat) (size : Z) : M (aworld A) unit :=
  if (nmemb <=? 24)%nat then insertion_sort_impl compar alloc nmemb size
  else
    let max_run_len := (nmemb / 2 + nmemb mod 2)%nat in
    scratch <- request (Z.of_nat max_run_len * size) ;;
    if negb scratch then insertion_sort_impl compar alloc nmemb size
    else
      stack <- collect_runs alloc size max_run_len nmemb ;;
      on_arr (unwind max_run_len stack) ;;;
      mret tt.

(** [alloc] is [false] for [cobalt_stable_sort], which passes no allocator on. *)
Definition stable_sort_guarded (alloc : bool) (nmemb : nat) (size : Z) : M (aworld A) unit :=
  o <- get_obj ;;
  match o with
  | None => mret tt
  | Some _ =>
      if (nmemb <=? 1)%nat || (size =? 0) then mret tt
      else adaptive_merge_sort alloc nmemb size
  end.

Definition cobalt_stable_sort (nmemb : nat) (size : Z) : M (aworld A) unit :=
  stable_sort_guarded false nmemb size.
Definition cobalt_stable_sort_with_alloc (nmemb : nat) (size : Z) : M (aworld A) unit :=
  stable_sort_guarded true nmemb size.

(** ** Reversal *)

Lemma wp_reverse_run s : wp (reverse_run (length s)) (λ _ s', s' = reverse s) s.
Proof.
  unfold reverse_run. destruct (Nat.leb_spec (length s) 1) as [Hl|Hl].
  { apply wp_ret. by destruct s as [|x [|]]; simpl in Hl; try lia. }
  apply (wp_loop (λ '(l, r) t, ∃ a m b, s = a ++ m ++ b ∧ t = reverse b ++ m ++ reverse a ∧
      length a = length b ∧ l = length a ∧ (r + 1 = length a + length m)%nat)
    (λ '(l, r) _, (r - l)%nat)).
  - exists [], s, []. rewrite !reverse_nil, !app_nil_r. simpl. split_and!; try done. lia.
  - lia.
  - intros [l r] t (a & m & b & Hs & -> & Hab & -> & Hr).
    destruct (Nat.ltb_spec (length a) r) as [Hlt|Hge].
    + destruct m as [|x m]; [simpl in Hr; lia|].
      destruct m as [|y m _] using rev_ind; simpl in Hr; [lia|].
      rewrite length_app in Hr. simpl in Hr. apply wp_bind.
      replace (reverse b ++ (x :: m ++ [y]) ++ reverse a)
        with (reverse b ++ x :: m ++ y :: reverse a) by (by simplify_list_eq).
      apply wp_swap_mid; [rewrite length_reverse; lia|rewrite length_reverse; lia|].
      apply wp_ret. split; [|lia]. exists (a ++ [x]), m, (y :: b).
      rewrite reverse_app, reverse_cons, length_app. simpl.
      split_and!; try lia; [rewrite Hs; by simplify_list_eq|by simplify_list_eq].
    + apply wp_ret. rewrite Hs, !reverse_app, <- app_assoc. do 2 f_equal.
      destruct m as [|x [|]]; simpl in Hr; try lia; done.
Qed.

Context `{!Comparator compar}.

(** ** Merging *)

Abbreviation sorted := (StronglySorted (le compar)).
Abbreviation merge := (merge compar).

Lemma wp_to_scratch cap s1 s2 s3 off len Q :
  off = length s1 → len = length s2 → (len ≤ cap)%nat → Q s2 (s1 ++ s2 ++ s3) →
  wp (to_scratch cap off len) Q (s1 ++ s2 ++ s3).
Proof.
  intros -> -> Hc HQ. unfold wp, to_scratch. rewrite (proj2 (Nat.leb_le _ _) Hc).
  rewrite (proj2 (Nat.leb_le _ _)) by (rewrite !length_app; lia). cbn [andb].
  by rewrite drop_app_length, take_app_length.
Qed.

Lemma wp_from_scratch s1 s2 s3 off xs Q :
  off = length s1 → length xs = length s2 → Q tt (s1 ++ xs ++ s3) →
  wp (from_scratch off xs) Q (s1 ++ s2 ++ s3).
Proof.
  intros -> Hl HQ. unfold wp, from_scratch.
  rewrite (proj2 (Nat.leb_le _ _)) by (rewrite !length_app; lia).
  by rewrite take_app_length, Hl, drop_app_add, drop_app_length.
Qed.

Lemma wp_scratch_at xs i x Q s : xs !! i = Some x → Q x s → wp (scratch_at xs i) Q s.
Proof. unfold scratch_at. by intros ->. Qed.

(** The array holds what is merged, a gap as long as what is left of the left
    run, and what is left of the right run. *)
Lemma wp_merge_forward cap X Y :
  (length X ≤ cap)%nat →
  wp (merge_forward cap (length X) (length Y)) (λ _ s', s' = merge X Y) (X ++ Y).
Proof.
  intros Hc. unfold merge_forward. apply wp_bind. apply (wp_to_scratch cap [] X Y); [done..|].
  apply wp_bind.
  apply (wp_loop (λ '(i, j, dest) t, ∃ D gap X' Y', t = D ++ gap ++ Y' ∧
      X' = drop i X ∧ Y' = drop j Y ∧ (i ≤ length X)%nat ∧ (j ≤ length Y)%nat ∧
      dest = length D ∧ (i + j = dest)%nat ∧ length gap = length X' ∧
      merge X Y = D ++ merge X' Y')
    (λ '(i, j, _) _, (length X + length Y - i - j)%nat)).
  - exists [], X, X, Y. rewrite !drop_0. split_and!; try done; lia.
  - lia.
  - intros [[i j] dest] t (D & gap & X' & Y' & -> & HX & HY & Hi & Hj & -> & Hij & Hgap & Hm).
    destruct (Nat.ltb_spec i (length X)) as [Hlt|Hge]; cbn [andb].
    2:{ apply wp_ret. cbn beta iota. rewrite (proj2 (Nat.ltb_ge i (length X))) by done.
        apply wp_ret. rewrite Hm. subst X'. rewrite (drop_ge X i) in * by done.
        by destruct gap. }
    destruct (Nat.ltb_spec j (length Y)) as [Hlt2|Hge2].
    2:{ apply wp_ret. cbn beta iota. rewrite (proj2 (Nat.ltb_lt i (length X))) by done.
        rewrite Hm. subst X' Y'. rewrite (drop_ge Y j), merge_nil_r by done.
        apply wp_from_scratch; [done|done|]. by rewrite app_nil_r. }
    destruct (lookup_lt_is_Some_2 X i Hlt) as [x Hx], (lookup_lt_is_Some_2 Y j Hlt2) as [y Hy].
    rewrite (drop_S X x i Hx) in HX. rewrite (drop_S Y y j Hy) in HY. subst X' Y'.
    destruct gap as [|g gap]; [done|]. simpl in Hgap.
    pose proof (f_equal length Hm) as Hlen. apply wp_bind. eapply wp_scratch_at; [done|].
    apply wp_bind.
    replace (D ++ (g :: gap) ++ y :: drop (S j) Y) with ((D ++ g :: gap) ++ y :: drop (S j) Y)
      by (by simplify_list_eq).
    apply wp_get_mid.
    { rewrite length_app. simpl. rewrite length_drop in Hgap. lia. }
    rewrite merge_cons in Hm. rewrite <- app_assoc. simpl.
    destruct (Z.leb_spec (compar x y) 0); apply wp_bind, wp_put_mid; try done; apply wp_ret.
    + split; [|lia]. exists (D ++ [x]), gap, (drop (S i) X), (y :: drop (S j) Y).
      rewrite length_app. simpl. split_and!; try done; try lia.
      * by simplify_list_eq.
      * by rewrite (drop_S Y y j Hy).
      * rewrite Hm. by simplify_list_eq.
    + split; [|lia]. exists (D ++ [y]), (gap ++ [y]), (x :: drop (S i) X), (drop (S j) Y).
      rewrite !length_app. simpl. split_and!; try done; try lia.
      * by simplify_list_eq.
      * by rewrite (drop_S X x i Hx).
      * rewrite Hm. by simplify_list_eq.
Qed.

(** The last element of a merge. *)
Lemma merge_snoc X Y x y :
  sorted (X ++ [x]) → sorted (Y ++ [y]) →
  merge (X ++ [x]) (Y ++ [y]) =
  if 0 <? compar x y then merge X (Y ++ [y]) ++ [x] else merge (X ++ [x]) Y ++ [y].
Proof.
  intros HX HY. pose proof (proj1 (sorted_app compar X [x]) HX) as (HsX & _ & HlX).
  pose proof (proj1 (sorted_app compar Y [y]) HY) as (HsY & _ & HlY).
  assert (∀ a, a ∈ X → le compar a x) as Hax by (intros; apply HlX; set_solver).
  assert (∀ a, a ∈ Y → le compar a y) as Hay by (intros; apply HlY; set_solver).
  destruct (Z.ltb_spec 0 (compar x y)) as [Hgt|Hle].
  - assert (compar y x < 0) as Hyx by (by apply cmp_sym).
    apply (sorted_unique compar); [by apply merge_sorted| |].
    + apply sorted_app; [done|]. split_and!; [by apply merge_sorted|repeat constructor|].
      intros a b Ha Hb. apply list_elem_of_singleton in Hb as ->. rewrite merge_perm in Ha.
      apply elem_of_app in Ha as [Ha|[Ha|Ha]%elem_of_app]; [by apply Hax| |].
      * apply (cmp_trans a y x); [by apply Hay|unfold le; lia].
      * apply list_elem_of_singleton in Ha as ->. unfold le. lia.
    + intros z. rewrite <- (merge_stable compar (X ++ [x]) (Y ++ [y]) HX HY z).
      rewrite (class_of_app compar z (merge X _)), <- (merge_stable compar X (Y ++ [y]) HsX HY z).
      rewrite !class_of_app, <- !app_assoc. f_equal. rewrite (class_of_cons _ z x).
      destruct (decide (compar z x = 0)) as [Hz|]; [|by rewrite !app_nil_r].
      assert (∀ a, le compar a y → compar z a ≠ 0) as Hno.
      { intros a Ha Hza. pose proof (cmp_eq_sym compar z x Hz).
        pose proof (cmp_trans (cmp := compar) x z a ltac:(lia) ltac:(lia)) as H1.
        pose proof (cmp_trans (cmp := compar) x a y H1 Ha). lia. }
      rewrite (class_of_none compar z Y), (class_of_none compar z [y]); [done|..].
      * intros a Ha. apply list_elem_of_singleton in Ha as ->. apply Hno.
        unfold le. by rewrite cmp_refl.
      * intros a Ha. by apply Hno, Hay.
  - apply (sorted_unique compar); [by apply merge_sorted| |].
    + apply sorted_app; [done|]. split_and!; [by apply merge_sorted|repeat constructor|].
      intros a b Ha Hb. apply list_elem_of_singleton in Hb as ->. rewrite merge_perm in Ha.
      apply elem_of_app in Ha as [[Ha|Ha]%elem_of_app|Ha]; [| |by apply Hay].
      * apply (cmp_trans a x y); [by apply Hax|unfold le; lia].
      * apply list_elem_of_singleton in Ha as ->. done.
    + intros z. rewrite <- (merge_stable compar (X ++ [x]) (Y ++ [y]) HX HY z).
      rewrite (class_of_app compar z (merge _ Y)), <- (merge_stable compar (X ++ [x]) Y HX HsY z).
      by rewrite !class_of_app, <- !app_assoc.
Qed.

Lemma wp_merge_backward cap X Y :
  sorted X → sorted Y → (length Y ≤ cap)%nat →
  wp (merge_backward cap (length X) (length Y)) (λ _ s', s' = merge X Y) (X ++ Y).
Proof.
  intros HX HY Hc. unfold merge_backward. apply wp_bind.
  pose proof (wp_to_scratch cap X Y [] (length X) (length Y)) as Hts. rewrite app_nil_r in Hts.
  apply Hts; [done..|]. apply wp_bind.
  apply (wp_loop (λ '(i, j, dest) t, ∃ X' gap Y' D, t = X' ++ gap ++ D ∧
      Y' = take j Y ∧ (j ≤ length Y)%nat ∧ i = length X' ∧ j = length Y' ∧
      dest = (i + j)%nat ∧ length gap = j ∧ sorted X' ∧ sorted Y' ∧
      merge X Y = merge X' Y' ++ D)
    (λ '(i, j, _) _, (i + j)%nat)).
  - exists X, Y, Y, []. rewrite !app_nil_r, firstn_all. by split_and!.
  - lia.
  - intros [[i j] dest] t (X' & gap & Y' & D & -> & HY' & Hj & -> & -> & -> & Hgap & HsX & HsY & Hm).
    destruct X' as [|x X' _] using rev_ind.
    { change (0 <? length (@nil A))%nat with false. cbn [andb]. apply wp_ret. rewrite Hm, merge_nil_l, <- HY'.
      destruct (Nat.ltb_spec 0 (length Y')).
      - by apply (wp_from_scratch [] gap D).
      - apply wp_ret. destruct Y'; [|simpl in *; lia]. by destruct gap. }
    destruct Y' as [|y Y' _] using rev_ind.
    { rewrite andb_false_r. apply wp_ret. rewrite Hm, merge_nil_r. cbn. by destruct gap. }
    rewrite (merge_snoc X' Y' x y HsX HsY) in Hm.
    rewrite !length_app in *. simpl in *.
    rewrite !(proj2 (Nat.ltb_lt 0 _)) by lia. cbn [andb].
    destruct gap as [|g gap _] using rev_ind; [simpl in Hgap; lia|].
    rewrite length_app in Hgap. simpl in Hgap.
    assert ((X' ++ [x]) ++ (gap ++ [g]) ++ D = X' ++ x :: gap ++ g :: D) as -> by (by simplify_list_eq).
    assert (Y !! (length Y' + 1 - 1)%nat = Some y) as Hy.
    { rewrite <- (lookup_take_lt Y (length Y' + 1)) by lia. rewrite <- HY'.
      replace (length Y' + 1 - 1)%nat with (length Y') by lia. by apply list_lookup_middle. }
    apply wp_bind, wp_get_mid; [lia|]. apply wp_bind. eapply wp_scratch_at; [exact Hy|].
    apply (sorted_app compar) in HsX as HsX2. apply (sorted_app compar) in HsY as HsY2.
    assert (∀ v, wp (put (length X' + 1 + (length Y' + 1) - 1) v)
      (λ _ t', t' = X' ++ x :: gap ++ v :: D) (X' ++ x :: gap ++ g :: D)) as Hput.
    { intros v. replace (X' ++ x :: gap ++ g :: D) with ((X' ++ x :: gap) ++ g :: D)
        by (by simplify_list_eq).
      apply wp_put_mid; [rewrite length_app; simpl; lia|]. by simplify_list_eq. }
    destruct (Z.ltb_spec 0 (compar x y)).
    + apply wp_bind, wp_get_mid; [lia|]. apply wp_bind. eapply wp_mono; [apply Hput|].
      intros _ t' ->. apply wp_ret. split; [|lia].
      exists X', (x :: gap), (Y' ++ [y]), (x :: D). rewrite length_app. simpl.
      split_and!; try done; try lia; try tauto. rewrite Hm. by simplify_list_eq.
    + apply wp_bind. eapply wp_mono; [apply Hput|]. intros _ t' ->. apply wp_ret. split; [|lia].
      exists (X' ++ [x]), gap, Y', (y :: D). rewrite length_app. simpl.
      split_and!; try done; try lia; try tauto.
      * by simplify_list_eq.
      * replace (length Y' + 1 - 1)%nat with (length Y') by lia.
        rewrite <- (take_app_length Y' [y]) at 1. rewrite HY', take_take. f_equal. lia.
      * rewrite Hm. by simplify_list_eq.
Qed.

Lemma wp_merge_runs cap P X Y R :
  sorted X → sorted Y → (length X ≤ cap)%nat ∨ (length Y < length X)%nat →
  (length Y ≤ cap)%nat ∨ (length X ≤ length Y)%nat →
  wp (merge_runs cap (length P) (length X) (length Y))
    (λ _ s', s' = P ++ merge X Y ++ R) (P ++ X ++ Y ++ R).
Proof.
  intros HX HY H1 H2. unfold merge_runs. rewrite (app_assoc X).
  apply wp_sub; [done|by rewrite length_app|].
  destruct (Nat.leb_spec (length X) (length Y)).
  - eapply wp_mono; [apply wp_merge_forward; lia|]. by intros _ s' ->.
  - eapply wp_mono; [apply wp_merge_backward; [done..|lia]|]. by intros _ s' ->.
Qed.

(** ** Orders kept *)

Abbreviation so := (same_order compar).

Lemma so_app X X' Y Y' : so X X' → so Y Y' → so (X ++ Y) (X' ++ Y').
Proof. intros H1 H2 z. by rewrite !class_of_app, (H1 z), (H2 z). Qed.

Lemma so_trans X Y Z : so X Y → so Y Z → so X Z.
Proof. intros H1 H2 z. by rewrite (H1 z), (H2 z). Qed.

Lemma so_refl X : so X X.
Proof. done. Qed.

(** ** Natural runs *)

Definition gt (x y : A) : Prop := 0 < compar x y.

Lemma gt_trans : Transitive gt.
Proof.
  intros x y z Hxy Hyz. unfold gt in *. apply cmp_sym. apply cmp_sym in Hxy, Hyz.
  apply (cmp_lt_le_trans compar z y x); lia.
Qed.

Lemma strongly_snoc (R : relation A) `{!Transitive R} D a b :
  StronglySorted R (D ++ [a]) → R a b → StronglySorted R ((D ++ [a]) ++ [b]).
Proof.
  induction D as [|x D IH]; simpl; intros Hs Hab.
  - repeat constructor. done.
  - inversion Hs as [|? ? Hs' HF]; subst. constructor; [by apply IH|].
    apply Forall_app. split; [done|]. repeat constructor.
    apply Forall_app in HF as [_ HF]. apply Forall_cons in HF as [Hxa _]. by etrans.
Qed.

Lemma reverse_desc D : StronglySorted gt D → sorted (reverse D) ∧ so D (reverse D).
Proof.
  induction D as [|x D IH]; intros Hs; [split; [constructor|done]|].
  inversion Hs as [|? ? Hs' HF]; subst. destruct (IH Hs') as [H1 H2].
  rewrite Forall_forall in HF. rewrite reverse_cons. split.
  - apply sorted_app; [done|]. split_and!; [done|repeat constructor|].
    intros a b Ha Hb. apply list_elem_of_singleton in Hb as ->.
    rewrite elem_of_reverse in Ha. apply (cmp_total compar x a). specialize (HF a Ha).
    unfold gt in HF. lia.
  - intros z. rewrite class_of_app, <- (H2 z), !(class_of_cons _ z x).
    destruct (decide (compar z x = 0)) as [Hz|]; [|by rewrite app_nil_r].
    rewrite (class_of_none compar z D); [done|]. intros a Ha Hza. specialize (HF a Ha).
    unfold gt in HF. pose proof (cmp_eq_sym compar z x Hz).
    pose proof (cmp_trans (cmp := compar) x z a ltac:(lia) ltac:(lia)). lia.
Qed.

Lemma wp_extend_run (ok : A → A → bool) (R : relation A) `{!Transitive R} P x y W :
  (∀ a b, ok a b = true ↔ R a b) → R x y →
  wp (extend_run ok (length (P ++ x :: y :: W)) (length P)) (λ len s', ∃ D T,
    s' = P ++ D ++ T ∧ D ++ T = x :: y :: W ∧ len = length D ∧ (2 ≤ len)%nat ∧
    StronglySorted R D) (P ++ x :: y :: W).
Proof.
  intros Hok Hxy. unfold extend_run. rewrite length_app. simpl.
  apply (wp_loop (λ len t, ∃ D a T, t = P ++ (D ++ [a]) ++ T ∧ (D ++ [a]) ++ T = x :: y :: W ∧
      len = length (D ++ [a]) ∧ (2 ≤ len)%nat ∧ StronglySorted R (D ++ [a]))
    (λ len _, (length P + S (S (length W)) - len)%nat)).
  - exists [x], y, W. split_and!; try done. repeat constructor. done.
  - lia.
  - intros len t (D & a & T & -> & Heq & -> & Hle & Hs).
    assert (length (x :: y :: W) = length (D ++ [a]) + length T)%nat as Hlen
      by (rewrite <- Heq, length_app; done).
    simpl in Hlen. destruct T as [|b T]; simpl in Hlen.
    + rewrite (proj2 (Nat.ltb_ge _ _)) by lia. apply wp_ret. by exists (D ++ [a]), [].
    + rewrite (proj2 (Nat.ltb_lt _ _)) by lia. rewrite length_app in *. simpl in *.
      assert (P ++ (D ++ [a]) ++ b :: T = (P ++ D) ++ a :: b :: T) as Ha by (by simplify_list_eq).
      assert (P ++ (D ++ [a]) ++ b :: T = (P ++ D ++ [a]) ++ b :: T) as Hb by (by simplify_list_eq).
      apply wp_bind. rewrite Ha. apply wp_get_mid; [rewrite length_app; lia|]. rewrite <- Ha.
      apply wp_bind. rewrite Hb. apply wp_get_mid; [rewrite !length_app; simpl; lia|].
      rewrite <- Hb. destruct (ok a b) eqn:E; apply wp_ret.
      * apply Hok in E. split; [|lia]. exists (D ++ [a]), b, T. rewrite !length_app. simpl.
        split_and!; try lia; [by simplify_list_eq|by simplify_list_eq|by apply strongly_snoc].
      * exists (D ++ [a]), (b :: T). rewrite length_app. by split_and!.
Qed.

Lemma wp_natural_run P x S :
  wp (natural_run (length (P ++ x :: S)) (length P)) (λ len s', ∃ D T,
    s' = P ++ D ++ T ∧ len = length D ∧ (1 ≤ len)%nat ∧ sorted D ∧
    so (x :: S) (D ++ T) ∧ length (D ++ T) = length (x :: S)) (P ++ x :: S).
Proof.
  unfold natural_run. rewrite length_app. destruct S as [|y S]; simpl.
  { rewrite (proj2 (Nat.ltb_ge _ _)) by lia. apply wp_ret. exists [x], [].
    split_and!; try done. repeat constructor. }
  rewrite (proj2 (Nat.ltb_lt _ _)) by lia.
  assert (P ++ x :: y :: S = (P ++ [x]) ++ y :: S) as Hy by (by simplify_list_eq).
  apply wp_bind, wp_get_mid; [done|]. apply wp_bind. rewrite Hy.
  apply wp_get_mid; [rewrite length_app; done|]. rewrite <- Hy.
  assert (length P + Datatypes.S (Datatypes.S (length S)) = length (P ++ x :: y :: S))%nat as ->
    by (by rewrite length_app).
  destruct (Z.ltb_spec 0 (compar x y)).
  - apply wp_bind. eapply wp_mono.
    { apply (wp_extend_run _ gt (Transitive0 := gt_trans)); [intros a b; apply Z.ltb_lt|done]. }
    intros len s' (D & T & -> & Heq & -> & Hlen & HD). apply wp_bind.
    apply wp_sub; [done..|]. eapply wp_mono; [apply wp_reverse_run|]. intros _ s' ->.
    apply wp_ret. exists (reverse D), T. destruct (reverse_desc D HD) as [H1 H2].
    rewrite length_reverse. split_and!; try done; [lia| |].
    + rewrite <- Heq. by apply so_app.
    + apply (f_equal length) in Heq. rewrite length_app in *. rewrite length_reverse.
      simpl in Heq. lia.
  - eapply wp_mono.
    { apply (wp_extend_run _ (le compar) (Transitive0 := le_trans compar));
        [intros a b; apply Z.leb_le|unfold le; lia]. }
    intros len s' (D & T & -> & Heq & -> & Hlen & HD). exists D, T. rewrite Heq.
    split_and!; try done. lia.
Qed.

Lemma wp_min_run alloc size P D T s0 (w : aworld A) :
  obj w = Some (P ++ D ++ T) → (1 ≤ length D)%nat → sorted D → so s0 (D ++ T) →
  size ≠ 0 → key_room alloc size (oracle w) →
  wp (min_run alloc size (length (P ++ D ++ T)) (length P) (length D)) (λ len w', ∃ D' T',
    obj w' = Some (P ++ D' ++ T') ∧ len = length D' ∧ (1 ≤ len)%nat ∧ sorted D' ∧
    so s0 (D' ++ T') ∧ length (D' ++ T') = length (D ++ T) ∧ oracle w' = oracle w) w.
Proof.
  intros Ho H1 HD Hso Hsz Hroom. unfold min_run. rewrite !length_app.
  destruct ((length D <? 16)%nat && _) eqn:E; [|apply wp_ret; exists D, T; by rewrite length_app].
  apply andb_true_iff in E as [E1%Nat.ltb_lt E2%Nat.ltb_lt].
  set (f := if (16 <? _)%nat then _ else _).
  assert (length D ≤ f ≤ length D + length T)%nat as Hf.
  { unfold f. destruct (Nat.ltb_spec 16 (length P + (length D + length T) - length P)); lia. }
  clearbody f. apply wp_bind.
  set (F := take f (D ++ T)). set (G := drop f (D ++ T)).
  assert (D ++ T = F ++ G) as HFG by (symmetry; apply take_drop).
  assert (length F = f) as HlF by (unfold F; rewrite length_take, length_app; lia).
  eapply (wp_on_sub P F G); [by rewrite Ho, HFG|done|done|]. rewrite <- HlF.
  eapply wp_mono; [eapply wp_insertion_sort_impl; [done|done|done|exact Hroom]|].
  intros _ w' [Ho' Hor']. eexists. split; [done|]. apply wp_ret.
  assert (ref_sort compar F ≡ₚ F) as Hp by apply ref_sort_perm.
  exists (ref_sort compar F), G. rewrite length_app, (Permutation_length Hp).
  split_and!; try done.
  - lia.
  - by apply ref_sort_sorted.
  - eapply so_trans; [exact Hso|]. rewrite HFG. apply so_app; [by apply ref_sort_stable|done].
  - rewrite <- length_app, <- HFG, length_app. done.
Qed.

(** ** The run stack *)

Definition flat runs : list A := concat (reverse runs).

Lemma flat_cons X runs : flat (X :: runs) = flat runs ++ X.
Proof. unfold flat. rewrite reverse_cons, concat_app. simpl. by rewrite app_nil_r. Qed.

(** The stack that describes the runs: where each starts and how long it is. *)
Fixpoint stack_of runs : run_stack :=
  match runs with
  | [] => []
  | X :: runs => (length (flat runs), length X) :: stack_of runs
  end.

Lemma stack_of_length runs : length (stack_of runs) = length runs.
Proof. induction runs; simpl; congruence. Qed.

(** The runs fill the front of the array, each is sorted, and the array keeps
    the order of equal elements of the original [s0]. *)
Record runs_ok s0 runs (rest t : list A) : Prop := {
  ro_array : t = flat runs ++ rest;
  ro_sorted : Forall (λ X, sorted X) runs;
  ro_order : so s0 t;
  ro_length : length t = length s0
}.

Section stack.
Variables (s0 rest : list A) (cap : nat).
Hypothesis Hcap : (length s0 / 2 ≤ cap)%nat.

(** What a round of merging leaves. *)
Definition merged runs (st : run_stack) (t : list A) : Prop :=
  ∃ runs', st = stack_of runs' ∧ S (length runs') = length runs ∧
    length (flat runs') = length (flat runs) ∧ runs_ok s0 runs' rest t.

Lemma wp_merge_at P X Y R t :
  t = P ++ X ++ Y ++ R → length t = length s0 → sorted X → sorted Y →
  wp (merge_runs cap (length P) (length X) (length Y)) (λ _ t', t' = P ++ merge X Y ++ R) t.
Proof.
  intros -> Hl HX HY. rewrite !length_app in Hl.
  pose proof (Nat.div_mod_eq (length s0) 2). pose proof (Nat.mod_upper_bound (length s0) 2).
  apply wp_merge_runs; [done|done|lia|lia].
Qed.

Lemma merge_length X Y : length (merge X Y) = (length X + length Y)%nat.
Proof. by rewrite (Permutation_length (merge_perm _ X Y)), length_app. Qed.

Lemma wp_merge_top Y X runs t :
  runs_ok s0 (Y :: X :: runs) rest t →
  wp (merge_top cap (stack_of (Y :: X :: runs))) (merged (Y :: X :: runs)) t.
Proof.
  intros [Ha Hs Ho Hl]. apply Forall_cons in Hs as [HY [HX Hs]%Forall_cons].
  rewrite !flat_cons, <- !app_assoc in Ha. simpl. apply wp_bind.
  eapply wp_mono; [by eapply wp_merge_at|]. intros _ t' ->. apply wp_ret.
  exists (merge X Y :: runs). simpl. rewrite merge_length, !flat_cons.
  split_and!; [done|done|rewrite !length_app, merge_length; lia|]. split.
  - by rewrite flat_cons, <- app_assoc.
  - apply Forall_cons. split; [by apply merge_sorted|done].
  - eapply so_trans; [exact Ho|]. rewrite Ha. apply so_app; [done|].
    rewrite app_assoc. apply so_app; [by apply merge_stable|done].
  - rewrite <- Hl, Ha, !length_app, merge_length. lia.
Qed.

Lemma wp_merge_below Z Y X runs t :
  runs_ok s0 (Z :: Y :: X :: runs) rest t →
  wp (merge_below cap (stack_of (Z :: Y :: X :: runs))) (merged (Z :: Y :: X :: runs)) t.
Proof.
  intros [Ha Hs Ho Hl]. apply Forall_cons in Hs as [HZ [HY [HX Hs]%Forall_cons]%Forall_cons].
  rewrite !flat_cons, <- !app_assoc in Ha. simpl. apply wp_bind.
  eapply wp_mono; [by eapply (wp_merge_at (flat runs) X Y (Z ++ rest))|].
  intros _ t' ->. apply wp_ret.
  exists (Z :: merge X Y :: runs). simpl. rewrite merge_length, !flat_cons, !length_app, merge_length.
  split_and!; [by rewrite Nat.add_assoc|done|lia|]. split.
  - by rewrite !flat_cons, <- !app_assoc.
  - apply Forall_cons. split; [done|]. apply Forall_cons. split; [by apply merge_sorted|done].
  - eapply so_trans; [exact Ho|]. rewrite Ha. apply so_app; [done|].
    rewrite app_assoc. apply so_app; [by apply merge_stable|done].
  - rewrite <- Hl, Ha, !length_app, merge_length. lia.
Qed.

(** A loop whose rounds merge or stop. *)
Lemma wp_merging (body : run_stack → M (list A) (run_stack + run_stack)) (stop : list (list A) → Prop) :
  (∀ runs t, runs_ok s0 runs rest t →
     wp (body (stack_of runs)) (λ r t', match r with
       | inl st => merged runs st t'
       | inr st => st = stack_of runs ∧ t' = t ∧ stop runs
       end) t) →
  ∀ runs t, runs_ok s0 runs rest t →
  wp (loop (S (length (stack_of runs))) body (stack_of runs)) (λ st t', ∃ runs',
    st = stack_of runs' ∧ length (flat runs') = length (flat runs) ∧
    runs_ok s0 runs' rest t' ∧ stop runs') t.
Proof.
  intros Hbody runs t Hr. rewrite stack_of_length.
  apply (wp_loop (λ st t, ∃ runs', st = stack_of runs' ∧
      length (flat runs') = length (flat runs) ∧ runs_ok s0 runs' rest t)
    (λ st _, length st)); [by eauto|rewrite stack_of_length; lia|].
  intros st t1 (runs1 & -> & Hf & Hr1). eapply wp_mono; [by apply Hbody|].
  intros [st'|st'] t2.
  - intros (runs2 & -> & Hlen & Hf2 & Hr2). rewrite !stack_of_length. split; [|lia].
    exists runs2. split_and!; [done|by rewrite Hf2|done].
  - intros (-> & -> & Hstop). by exists runs1.
Qed.

Lemma wp_make_room runs t : runs_ok s0 runs rest t →
  wp (make_room cap (stack_of runs)) (λ st t', ∃ runs',
    st = stack_of runs' ∧ length (flat runs') = length (flat runs) ∧
    runs_ok s0 runs' rest t' ∧ (length runs' < 64)%nat) t.
Proof.
  intros Hr. unfold make_room. apply (wp_merging _ (λ r, (length r < 64)%nat)); [|done].
  clear runs t Hr. intros runs t Hr. rewrite stack_of_length.
  destruct (Nat.leb_spec 64 (length runs)); [|by apply wp_ret].
  destruct runs as [|Y [|X runs]]; simpl in *; try lia.
  apply wp_bind. eapply wp_mono; [by apply wp_merge_top|]. intros st t' Hm. by apply wp_ret.
Qed.

Lemma wp_balance runs t : runs_ok s0 runs rest t →
  wp (balance cap (stack_of runs)) (λ st t', ∃ runs',
    st = stack_of runs' ∧ length (flat runs') = length (flat runs) ∧
    runs_ok s0 runs' rest t' ∧ True) t.
Proof.
  intros Hr. unfold balance. apply (wp_merging _ (λ _, True)); [|done].
  clear runs t Hr. intros runs t Hr.
  destruct runs as [|Z [|Y [|X runs]]]; simpl; try by apply wp_ret.
  - case_match; [|by apply wp_ret].
    apply wp_bind. eapply wp_mono; [by apply (wp_merge_top Z Y [])|]. intros. by apply wp_ret.
  - repeat case_match; try by apply wp_ret.
    all: apply wp_bind; eapply wp_mono;
      [first [by apply (wp_merge_below Z Y X runs) | by apply (wp_merge_top Z Y (X :: runs))]|];
      intros; by apply wp_ret.
Qed.

Lemma wp_unwind runs t : runs_ok s0 runs rest t →
  wp (unwind cap (stack_of runs)) (λ st t', ∃ runs',
    st = stack_of runs' ∧ length (flat runs') = length (flat runs) ∧
    runs_ok s0 runs' rest t' ∧ (length runs' ≤ 1)%nat) t.
Proof.
  intros Hr. unfold unwind. apply (wp_merging _ (λ r, (length r ≤ 1)%nat)); [|done].
  clear runs t Hr. intros runs t Hr.
  destruct runs as [|Z [|Y [|X runs]]]; simpl; try (apply wp_ret; simpl; by auto with lia).
  - apply wp_bind. eapply wp_mono; [by apply (wp_merge_top Z Y [])|]. intros. by apply wp_ret.
  - apply wp_bind. case_match; eapply wp_mono;
      [by apply (wp_merge_below Z Y X runs)| |by apply (wp_merge_top Z Y (X :: runs))|];
      intros; by apply wp_ret.
Qed.
End stack.

(** ** The sort *)

Lemma wp_collect_runs alloc size cap s0 (w : aworld A) :
  obj w = Some s0 → (length s0 / 2 ≤ cap)%nat → size ≠ 0 → key_room alloc size (oracle w) →
  wp (collect_runs alloc size cap (length s0)) (λ st w', ∃ runs t,
    st = stack_of runs ∧ obj w' = Some t ∧ runs_ok s0 runs [] t ∧ oracle w' = oracle w) w.
Proof.
  intros Ho Hcap Hsz Hroom. unfold collect_runs.
  apply (wp_loop (λ '(curr, st) w', ∃ runs rest t, st = stack_of runs ∧ obj w' = Some t ∧
      curr = length (flat runs) ∧ runs_ok s0 runs rest t ∧ oracle w' = oracle w)
    (λ '(curr, _) _, (length s0 - curr)%nat)).
  - exists [], s0, s0. split_and!; try done.
  - lia.
  - intros [curr st] w1 (runs & rest & t & -> & Ho1 & -> & Hr & Hor).
    pose proof (ro_array _ _ _ _ Hr) as Ht. pose proof (ro_length _ _ _ _ Hr) as Hl.
    rewrite Ht, length_app in Hl.
    destruct (Nat.ltb_spec (length (flat runs)) (length s0)) as [Hlt|Hge].
    2:{ apply wp_ret. destruct rest; [|simpl in Hl; lia]. by exists runs, t. }
    destruct rest as [|x rest]; [simpl in Hl; lia|].
    apply wp_bind. eapply wp_on_arr; [done|]. rewrite Ht.
    assert (length s0 = length (flat runs ++ x :: rest)) as Hn by (by rewrite length_app).
    rewrite Hn. eapply wp_mono; [apply wp_natural_run|].
    intros len s1 (D & T & -> & -> & H1 & HD & Hso & HlD). apply wp_bind.
    assert (length (flat runs ++ x :: rest) = length (flat runs ++ D ++ T)) as ->.
    { by rewrite (length_app _ (x :: rest)), (length_app _ (D ++ T)), HlD. }
    eapply wp_mono; [eapply wp_min_run; [done..|simpl; by rewrite Hor]|].
    intros len w2 (D' & T' & Ho2 & -> & H1' & HD' & Hso' & HlD' & Hor2).
    assert (runs_ok s0 runs (D' ++ T') (flat runs ++ D' ++ T')) as Hr2.
    { split; [done|apply Hr| |].
      - eapply so_trans; [apply Hr|]. rewrite Ht. by apply so_app.
      - by rewrite Hn, (length_app _ (x :: rest)), (length_app _ (D' ++ T')), HlD', HlD. }
    apply wp_bind. eapply wp_on_arr; [done|].
    eapply wp_mono; [by apply (wp_make_room s0 (D' ++ T') cap)|].
    intros st t3 (runs3 & -> & Hf3 & Hr3 & H64). apply wp_bind. eapply wp_on_arr; [done|].
    unfold push_run. rewrite stack_of_length, (proj2 (Nat.ltb_lt _ _) H64), <- Hf3.
    change ((length (flat runs3), length D') :: stack_of runs3) with (stack_of (D' :: runs3)).
    eapply wp_mono; [apply (wp_balance s0 T' cap Hcap (D' :: runs3))|].
    { destruct Hr3 as [Ha Hs Hso3 Hl3]. split; [|by apply Forall_cons|done|done].
      by rewrite flat_cons, <- app_assoc. }
    intros st t4 (runs4 & -> & Hf4 & Hr4 & _). rewrite flat_cons, length_app in Hf4.
    apply wp_ret. split; [|rewrite ?length_app in *; simpl in *; lia]. exists runs4, T', t4.
    split_and!; try done. simpl. by rewrite Hor2.
Qed.

(** The result is the reference sort, whatever the allocator grants for the
    scratch buffer. *)
Lemma wp_adaptive_merge_sort alloc size s (w : aworld A) :
  obj w = Some s → size ≠ 0 → key_room alloc size (oracle w) →
  wp (adaptive_merge_sort alloc (length s) size) (λ _ w',
    obj w' = Some (ref_sort compar s) ∧ oracle w' = oracle w) w.
Proof.
  intros Ho Hsz Hroom. unfold adaptive_merge_sort.
  destruct (Nat.leb_spec (length s) 24); [by apply wp_insertion_sort_impl|].
  set (cap := (length s / 2 + length s mod 2)%nat). wp_step.
  apply wp_request; intros _; wp_simpl;
    [|by apply (wp_insertion_sort_impl compar alloc size s (with_request w))].
  wp_step. eapply wp_mono; [apply (wp_collect_runs alloc size cap s); try done; lia|].
  intros st w1 (runs & t & -> & Ho1 & Hr & Hor1). wp_step. eapply wp_on_arr; [done|].
  eapply wp_mono; [apply (wp_unwind s [] cap); [lia|done]|].
  intros st t2 (runs2 & -> & _ & [Ha Hs Hso Hl] & Hlen). wp_steps.
  split; [|done]. simpl. f_equal. apply stable_sort_unique; [done| |done].
  rewrite Ha, app_nil_r. destruct runs2 as [|X [|]]; simpl in Hlen; try lia; [constructor|].
  apply Forall_cons in Hs as [HX _]. by rewrite flat_cons.
Qed.

Lemma wp_stable_sort alloc size s (w : aworld A) :
  obj w = Some s → size ≠ 0 → key_room alloc size (oracle w) →
  wp (stable_sort_guarded alloc (length s) size) (λ _ w',
    obj w' = Some (ref_sort compar s)) w.
Proof.
  intros Ho Hsz Hroom. unfold stable_sort_guarded. wp_step. wp_step. rewrite Ho.
  destruct (Nat.leb_spec (length s) 1); cbn [orb].
  - wp_steps. by rewrite ref_sort_short.
  - rewrite (proj2 (Z.eqb_neq _ _) Hsz).
    eapply wp_mono; [by apply wp_adaptive_merge_sort|]. naive_solver.
Qed.
End adaptive.

End AdaptiveSort.
