(* ===== verification/Sorting.v ===== *)
(** * The public sorting functions of src/src/algorithm/sort.c

    What the callers of the array algorithms rely on, for every element type
    and every comparator that is a total preorder. *)
From S2P Require Import Prelude World SortSpec SortArray InsertionSort Heapsort Pdqsort AdaptiveSort.

Module Sorting.
Import InsertionSort Heapsort Pdqsort AdaptiveSort.

(** An array of integers and an allocator. *)
Definition array (orc : nat → Z → bool) (s : list Z) : aworld Z :=
  World (Some s) ∅ 1 orc 0 COBALT_SUCCESS.

Definition some_ints : list Z := [5; 3; 9; 3; 1].

Section sorting.
Context {A : Type} (compar : A → A → Z) `{!Comparator compar}.

(** C26: [cobalt_stable_sort] terminates and leaves exactly the stable sort of
    the array (the result of inserting the elements one by one), for every
    length and content, whether or not the scratch buffer of the run merging
    is granted; only the buffer for one element of more than 128 bytes must
    be. *)
Theorem stable_sort_sorts size s (w : aworld A) :
  obj w = Some s → size ≠ 0 → key_room false size (oracle w) →
  wp (cobalt_stable_sort compar (length s) size) (λ _ w', obj w' = Some (ref_sort compar s)) w.
Proof. intros. by apply wp_stable_sort. Qed.

(** C27: [cobalt_qsort] (pattern-defeating quicksort with its three-way
    partition, its heapsort fallback and its insertion sort of small ranges)
    terminates and leaves a sorted permutation of the array. *)
Theorem qsort_sorts size s (w : aworld A) :
  obj w = Some s → size ≠ 0 → key_room false size (oracle w) →
  wp (cobalt_qsort compar (length s) size) (λ _ w', ∃ s', obj w' = Some s' ∧ s' ≡ₚ s ∧
    StronglySorted (le compar) s') w.
Proof.
  intros Ho Hs Hr. eapply wp_mono; [by apply wp_qsort|]. intros _ w' (s' & ? & ? & ? & _). eauto.
Qed.

(** [cobalt_heapsort] terminates, needs no memory and leaves a sorted
    permutation of the array. *)
Theorem heapsort_sorts size s :
  size ≠ 0 →
  wp (cobalt_heapsort compar (length s) size)
    (λ _ s', s' ≡ₚ s ∧ StronglySorted (le compar) s') s.
Proof.
  intros Hs. unfold cobalt_heapsort. rewrite (proj2 (Z.eqb_neq _ _) Hs), orb_false_r.
  destruct (Nat.leb_spec (length s) 1) as [Hl|]; [|by apply wp_heapsort_impl].
  apply wp_ret. split; [done|]. destruct s as [|x [|]]; simpl in *; try lia; repeat constructor.
Qed.

(** [cobalt_insertion_sort_with_alloc] leaves the stable sort of the array
    when the buffer for one element is granted, and the array as it was when
    that buffer is refused. *)
Theorem insertion_sort_all_or_nothing alloc size s (w : aworld A) :
  obj w = Some s → size ≠ 0 →
  wp (cobalt_insertion_sort_with_alloc compar alloc (length s) size) (λ _ w',
    obj w' = Some (if oracle w (allocs w) size then ref_sort compar s else s)) w.
Proof.
  intros Ho Hs. unfold cobalt_insertion_sort_with_alloc.
  destruct (oracle w (allocs w) size) eqn:E; [|by apply wp_insertion_sort_refused].
  by apply wp_insertion_sort_granted.
Qed.

(** [cobalt_partition] terminates and splits a permutation of the array:
    the elements before the returned index are below the pivot, the others are
    not. *)
Theorem partition_splits size s pivot (w : aworld A) :
  obj w = Some s → size ≠ 0 →
  wp (cobalt_partition compar (length s) size (Some pivot)) (λ k w', ∃ L G,
    obj w' = Some (L ++ G) ∧ k = length L ∧ L ++ G ≡ₚ s ∧
    Forall (λ x, compar x pivot < 0) L ∧ Forall (λ x, 0 ≤ compar x pivot) G) w.
Proof.
  intros Ho Hs. unfold cobalt_partition, partition_impl. wp_step. wp_step. rewrite Ho.
  rewrite (proj2 (Z.eqb_neq _ _) Hs), orb_false_r.
  destruct s as [|x s]; [wp_steps; exists [], []; by repeat constructor|]. cbn [length Nat.eqb].
  wp_step. wp_step. eapply wp_on_arr; [done|].
  eapply wp_mono; [apply (wp_partition_loop compar (x :: s))|].
  intros k s' (L & G & -> & -> & Hp & HL & HG). eauto 10.
Qed.

(** [cobalt_unique] returns the number of elements that differ from their
    predecessor and leaves exactly those at the front, in order, without
    changing the length of the array. *)
Theorem unique_dedups x s (w : aworld A) :
  obj w = Some (x :: s) →
  wp (cobalt_unique compar (length (x :: s))) (λ k w', ∃ junk,
    obj w' = Some ((x :: dedup compar x s) ++ junk) ∧ k = length (x :: dedup compar x s) ∧
    length ((x :: dedup compar x s) ++ junk) = length (x :: s)) w.
Proof.
  intros Ho. unfold cobalt_unique. wp_step. wp_step. rewrite Ho.
  destruct s as [|y s]; [wp_steps; by exists []|]. cbn [length Nat.leb].
  eapply wp_on_arr; [done|]. eapply wp_mono; [apply (wp_unique_loop compar x (y :: s))|].
  intros k s' (junk & -> & -> & Hl). by exists junk.
Qed.
End sorting.

(** ** The theorems on a small array *)

Lemma stable_sort_sorts_witness :
  wp (cobalt_stable_sort zcmp 5 8) (λ _ w', obj w' = Some [1; 3; 3; 5; 9])
    (array (λ _ _, false) some_ints).
Proof. apply (stable_sort_sorts zcmp 8 some_ints); [done|done|by left]. Defined.

Lemma qsort_sorts_witness :
  wp (cobalt_qsort zcmp 5 8) (λ _ w', ∃ s', obj w' = Some s' ∧ s' ≡ₚ some_ints ∧
    StronglySorted (le zcmp) s') (array (λ _ _, false) some_ints).
Proof. apply (qsort_sorts zcmp 8 some_ints); [done|done|by left]. Defined.

Lemma heapsort_sorts_witness :
  wp (cobalt_heapsort zcmp 5 8) (λ _ s', s' ≡ₚ some_ints ∧ StronglySorted (le zcmp) s') some_ints.
Proof. apply (heapsort_sorts zcmp 8 some_ints). done. Defined.

Lemma insertion_sort_all_or_nothing_witness :
  wp (cobalt_insertion_sort_with_alloc zcmp true 5 8) (λ _ w', obj w' = Some some_ints)
    (array (λ _ _, false) some_ints).
Proof. apply (insertion_sort_all_or_nothing zcmp true 8 some_ints); done. Defined.

Lemma partition_splits_witness :
  wp (cobalt_partition zcmp 5 8 (Some 4)) (λ k w', ∃ L G,
    obj w' = Some (L ++ G) ∧ k = length L ∧ L ++ G ≡ₚ some_ints ∧
    Forall (λ x, zcmp x 4 < 0) L ∧ Forall (λ x, 0 ≤ zcmp x 4) G)
    (array (λ _ _, false) some_ints).
Proof. apply (partition_splits zcmp 8 some_ints 4); done. Defined.

Lemma unique_dedups_witness :
  wp (cobalt_unique zcmp 4) (λ k w', ∃ junk,
    obj w' = Some ([1; 3; 5] ++ junk) ∧ k = 3%nat ∧ length ([1; 3; 5] ++ junk) = 4%nat)
    (array (λ _ _, false) [1; 3; 3; 5]).
Proof. apply (unique_dedups zcmp 1 [3; 3; 5]). done. Defined.

(** ** An allocation failure that is not reported *)

(** Twenty-six elements in runs of two. *)
Definition zigzag : list Z := concat (replicate 13 [2; 1]).

(** [cobalt_stable_sort_with_alloc] does not report a failed allocation and
    does not sort either: when the scratch buffer is granted and the buffers of
    the insertion sorts that extend short runs are refused, it merges unsorted
    runs and returns normally with the array out of order. *)
Theorem stable_sort_silent_failure :
  ∃ s', (cobalt_stable_sort_with_alloc zcmp 26 8) (array (λ k _, Nat.eqb k 0) zigzag) =
    Ret tt (World (Some s') ∅ 1 (λ k _, Nat.eqb k 0) 3 COBALT_SUCCESS) ∧
  s' !! 2%nat = Some 2 ∧ s' !! 3%nat = Some 1.
Proof. eexists. split; [vm_compute; reflexivity|]. split; reflexivity. Qed.

End Sorting.
