(* ===== verification/FreeList.v ===== *)
(** * Embedded free lists

    src/src/memory/pool.c and src/src/memory/slab.c cut one allocation into
    blocks and chain the free ones through their first word.  The heap maps a
    block's address to that word; the rest of a block belongs to its user. *)
From S2P Require Import Prelude World.

Module FreeList.

(** The addresses of [n] blocks of [bs] bytes from [base] on. *)
Definition blocks (base bs : Z) (n : nat) : list Z :=
  (λ i, base + Z.of_nat i * bs) <$> seq 0 n.

Section region.
Context {T : Type}.
Abbreviation rworld := (world T Z).

(** [alloc->alloc(alloc, bytes)] for a region cut into blocks of [bs] bytes:
    only the blocks that fit the region exist.  The content is indeterminate;
    [0] stands for it, it is written before it is read. *)
Definition alloc_region (bytes bs : Z) : M rworld Z :=
  λ w, if oracle w (allocs w) bytes && (brk w + bytes <? 2 ^ 64)
       then Ret (brk w)
              (World (obj w)
                 (list_to_map ((λ p, (p, 0)) <$> blocks (brk w) bs (Z.to_nat (bytes / bs)))
                    ∪ heap w)
                 (brk w + bytes + 1) (oracle w) (S (allocs w)) (last_error w))
       else Ret NULL (with_request w).

(** [for (i = 0; i < count - 1; i++)] link block [i] to block [i + 1]; the
    last block gets NULL. *)
Fixpoint link_blocks (base bs : Z) (i n : nat) : M rworld unit :=
  match n with
  | O => store (base + Z.of_nat i * bs) NULL
  | S n => store (base + Z.of_nat i * bs) (base + Z.of_nat (S i) * bs) ;;;
           link_blocks base bs (S i) n
  end.

(** [alloc->free(alloc, memory)]: the region's blocks stop existing. *)
Definition free_region (base bs : Z) (n : nat) : M rworld unit :=
  λ w, match heap w !! base with
       | Some _ => Ret tt (with_heap w
           (filter (λ pc, pc.1 ∉ blocks base bs n) (heap w)))
       | None => Fault BadAccess
       end.
End region.

(** ** Chains of free blocks *)

Fixpoint fchain (h : gmap Z Z) (ps : list Z) : Prop :=
  match ps with
  | [] => True
  | p :: ps => h !! p = Some (hd NULL ps) ∧ fchain h ps
  end.

Lemma fchain_frame h h' ps :
  fchain h ps → (∀ p, p ∈ ps → h' !! p = h !! p) → fchain h' ps.
Proof.
  induction ps as [|p ps IH]; simpl; [done|]. intros [H1 H2] Hf.
  split; [rewrite Hf; [done|set_solver]|]. apply IH; [done|set_solver].
Qed.

Lemma fchain_push h ps p : fchain h ps → p ∉ ps → fchain (<[p := hd NULL ps]> h) (p :: ps).
Proof.
  intros Hc Hp. simpl. rewrite lookup_insert_eq. split; [done|].
  eapply fchain_frame; [done|]. intros q Hq. rewrite lookup_insert_ne; [done|set_solver].
Qed.

Lemma elem_of_blocks base bs n p :
  p ∈ blocks base bs n ↔ ∃ i, (i < n)%nat ∧ p = base + Z.of_nat i * bs.
Proof.
  unfold blocks. rewrite list_elem_of_fmap. setoid_rewrite elem_of_seq. split.
  - intros (i & -> & ?). exists i. split; [lia|done].
  - intros (i & ? & ->). exists i. split; [done|lia].
Qed.

Lemma blocks_NoDup base bs n : 0 < bs → NoDup (blocks base bs n).
Proof.
  intros Hbs. apply NoDup_fmap_2_strong; [|apply NoDup_seq].
  intros i j _ _ Heq. nia.
Qed.

Lemma blocks_range base bs n p :
  0 < bs → p ∈ blocks base bs n → base ≤ p ∧ p + bs ≤ base + Z.of_nat n * bs.
Proof. intros Hbs (i & Hi & ->)%elem_of_blocks. nia. Qed.

(** The validity test of the free functions accepts exactly the blocks. *)
Lemma block_test base bs n p :
  0 < bs → 0 ≤ base → base + Z.of_nat n * bs < 2 ^ 64 → 0 ≤ p < 2 ^ 64 →
  (wrap64 (p - base) < Z.of_nat n * bs ∧ wrap64 (p - base) mod bs = 0) ↔
  p ∈ blocks base bs n.
Proof.
  intros Hbs Hb Hn Hp. rewrite elem_of_blocks. unfold wrap64. split.
  - intros [H1 H2]. destruct (decide (base ≤ p)) as [Hle|Hlt].
    + assert ((p - base) mod 2 ^ 64 = p - base) as E by (apply Z.mod_small; lia).
      rewrite E in H1, H2. apply Z.mod_divide in H2 as [i Hi]; [|lia].
      assert (0 ≤ i) by nia. assert (i < Z.of_nat n) by nia.
      exists (Z.to_nat i). rewrite Z2Nat.id by done. lia.
    + rewrite <- (Z_mod_plus_full _ 1) in H1. rewrite Z.mod_small in H1 by lia. lia.
  - intros (i & Hi & ->).
    replace (base + Z.of_nat i * bs - base) with (Z.of_nat i * bs) by lia.
    rewrite Z.mod_small by nia. split; [nia|]. apply Z.mod_mul. lia.
Qed.

(** ** Building the free list of a fresh region *)

Lemma wp_link_blocks {T} base bs n : 0 < bs → ∀ i (w : world T Z) Q,
  (∀ j, (i ≤ j ≤ i + n)%nat → is_Some (heap w !! (base + Z.of_nat j * bs))) →
  (∀ w', obj w' = obj w → brk w' = brk w → oracle w' = oracle w → allocs w' = allocs w →
     dom (heap w') = dom (heap w) →
     (∀ p, (∀ j, (i ≤ j ≤ i + n)%nat → p ≠ base + Z.of_nat j * bs) →
        heap w' !! p = heap w !! p) →
     fchain (heap w') ((λ j, base + Z.of_nat j * bs) <$> seq i (S n)) → Q tt w') →
  wp (link_blocks base bs i n) Q w.
Proof.
  intros Hbs. induction n as [|n IH]; intros i w Q Hh HQ; simpl.
  - destruct (Hh i) as [c Hc]; [lia|]. eapply wp_store; [done|]. apply HQ; try done; simpl.
    + rewrite dom_insert_lookup_L; eauto.
    + intros p Hp. rewrite lookup_insert_ne; [done|]. apply not_eq_sym, Hp. lia.
    + by rewrite lookup_insert_eq.
  - destruct (Hh i) as [c Hc]; [lia|]. wp_step. eapply wp_store; [done|].
    apply IH.
    { intros j Hj. simpl. destruct (Hh j) as [c' Hc']; [lia|].
      rewrite lookup_insert_ne; [eauto|]. nia. }
    intros w' Ho Hb Hor Hal Hd Hfr Hfc. simpl in *. apply HQ; try done.
    + rewrite Hd, dom_insert_lookup_L; eauto.
    + intros p Hp. rewrite Hfr by (intros; apply Hp; lia).
      rewrite lookup_insert_ne; [done|]. apply not_eq_sym, Hp. lia.
    + change (fchain (heap w') ((base + Z.of_nat i * bs) ::
        ((λ j, base + Z.of_nat j * bs) <$> seq (S i) (S n)))). split; [|exact Hfc].
      rewrite Hfr; [apply lookup_insert_eq|]. intros j Hj. nia.
Qed.

(** What the two steps leave: fresh blocks, all of them on the list. *)
Record region_ok {T} (w w' : world T Z) (base bs : Z) (cnt : nat) : Prop := {
  rg_base : base = brk w;
  rg_fit : base + Z.of_nat cnt * bs < 2 ^ 64;
  rg_oracle : oracle w' = oracle w;
  rg_heap : heap_ok w';
  rg_brk : brk w' = base + Z.of_nat cnt * bs + 1;
  rg_dom : dom (heap w') = list_to_set (blocks base bs cnt) ∪ dom (heap w);
  rg_frame : ∀ p, p ∉ blocks base bs cnt → heap w' !! p = heap w !! p;
  rg_chain : fchain (heap w') (blocks base bs cnt)
}.

(** The request for a region fails. *)
Definition region_refused {T} (w : world T Z) (bytes : Z) : Prop :=
  oracle w (allocs w) bytes = false ∨ 2 ^ 64 ≤ brk w + bytes.

(** The handle may be updated before the blocks are linked. *)
Lemma wp_region {T} bs cnt (w : world T Z) :
  0 < bs → (0 < cnt)%nat → heap_ok w →
  wp (alloc_region (Z.of_nat cnt * bs) bs) (λ base w1,
    (base = NULL ∧ w1 = with_request w ∧ region_refused w (Z.of_nat cnt * bs)) ∨
    (base ≠ NULL ∧ obj w1 = obj w ∧ ∀ o, wp (link_blocks base bs 0 (cnt - 1))
       (λ _ w', obj w' = o ∧ region_ok w w' base bs cnt) (with_obj w1 o))) w.
Proof.
  intros Hbs Hcnt Hok. unfold alloc_region, wp at 1.
  destruct (oracle w (allocs w) (Z.of_nat cnt * bs) && _) eqn:E.
  2: { left. split_and!; [done..|]. apply andb_false_iff in E as [E|E%Z.ltb_ge]; [by left|by right]. }
  apply andb_true_iff in E as [_ Hb%Z.ltb_lt]. destruct Hok as [Hbrk Hp].
  right. split_and!; [unfold NULL; lia|done|]. intros o.
  rewrite Z.div_mul, Nat2Z.id by lia.
  set (cells := list_to_map ((λ p, (p, 0)) <$> blocks (brk w) bs cnt) : gmap Z Z).
  assert (dom cells = list_to_set (blocks (brk w) bs cnt)) as Hdc.
  { unfold cells. rewrite dom_list_to_map_L, <- list_fmap_compose. simpl.
    by rewrite list_fmap_id. }
  assert (∀ p, p ∈ blocks (brk w) bs cnt → is_Some (cells !! p)) as Hin.
  { intros p Hpin. apply elem_of_dom. rewrite Hdc. by apply elem_of_list_to_set. }
  apply wp_link_blocks; [done|..]; simpl.
  - intros j Hj. apply lookup_union_is_Some. left. apply Hin, elem_of_blocks. exists j. lia.
  - intros w' Ho Hb' Hor _ Hd Hfr Hfc. simpl in Ho, Hb', Hor, Hd, Hfr.
    assert (fchain (heap w') (blocks (brk w) bs (S (cnt - 1)))) as Hch by exact Hfc.
    replace (S (cnt - 1)) with cnt in Hch by lia. clear Hfc.
    assert (dom (heap w') = list_to_set (blocks (brk w) bs cnt) ∪ dom (heap w)) as Hd'.
    { by rewrite Hd, dom_union_L, Hdc. }
    split; [done|]. split; try done; try lia.
    + split; [rewrite Hb'; lia|]. intros p c Hpc. rewrite Hb'.
      apply elem_of_dom_2 in Hpc. rewrite Hd' in Hpc.
      apply elem_of_union in Hpc as [Hpc|[c' Hc']%elem_of_dom].
      * apply elem_of_list_to_set in Hpc. apply blocks_range in Hpc; [lia|done].
      * apply Hp in Hc'. nia.
    + intros p Hpn. rewrite Hfr.
      * apply lookup_union_r. apply not_elem_of_dom. by rewrite Hdc, elem_of_list_to_set.
      * intros j Hj ->. apply Hpn, elem_of_blocks. exists j. lia.
Qed.

(** ** A class of blocks: the fields of [struct cobalt_pool] and of
    [cobalt_slab_class_t] *)

Record cls := Cls {
  block_size : Z;
  block_count : Z;
  free_count : Z;
  memory : Z;
  free_list : Z
}.

Definition cls_blocks (c : cls) : list Z :=
  blocks (memory c) (block_size c) (Z.to_nat (block_count c)).

(** [live] are the blocks handed out and not yet returned.  Free and live
    blocks together are all the blocks, each once. *)
Record cls_ok (h : gmap Z Z) (c : cls) (free live : list Z) : Prop := {
  co_count : 0 < block_count c;
  co_bs : 8 ≤ block_size c;
  co_base : 0 < memory c;
  co_fit : memory c + block_count c * block_size c < 2 ^ 64;
  co_list : free_list c = hd NULL free;
  co_free : free_count c = Z.of_nat (length free);
  co_chain : fchain h free;
  co_split : live ++ free ≡ₚ cls_blocks c;
  co_dom : ∀ p, p ∈ cls_blocks c → is_Some (h !! p)
}.

Section cls.
Context {h : gmap Z Z} {c : cls} {free live : list Z} (Hok : cls_ok h c free live).

Lemma cls_nodup : NoDup (live ++ free).
Proof.
  rewrite (co_split _ _ _ _ Hok). apply blocks_NoDup. pose proof (co_bs _ _ _ _ Hok). lia.
Qed.

Lemma cls_block p : p ∈ cls_blocks c → memory c ≤ p < 2 ^ 64 ∧ p ≠ NULL.
Proof.
  intros Hp. pose proof (co_bs _ _ _ _ Hok). pose proof (co_fit _ _ _ _ Hok).
  pose proof (co_count _ _ _ _ Hok). pose proof (co_base _ _ _ _ Hok).
  apply blocks_range in Hp; [|lia]. rewrite Z2Nat.id in Hp by lia. unfold NULL. lia.
Qed.

Lemma cls_length : (length live + length free = Z.to_nat (block_count c))%nat.
Proof.
  rewrite <- length_app, (Permutation_length (co_split _ _ _ _ Hok)).
  unfold cls_blocks, blocks. by rewrite length_fmap, length_seq.
Qed.

Lemma cls_bound : 0 < block_count c < 2 ^ 64 ∧ 0 < block_size c * block_count c < 2 ^ 64.
Proof.
  pose proof (co_bs _ _ _ _ Hok). pose proof (co_fit _ _ _ _ Hok).
  pose proof (co_count _ _ _ _ Hok). pose proof (co_base _ _ _ _ Hok). nia.
Qed.

Lemma cls_test p : 0 ≤ p < 2 ^ 64 →
  (wrap64 (p - memory c) < block_size c * block_count c ∧
   wrap64 (p - memory c) mod block_size c = 0) ↔ p ∈ cls_blocks c.
Proof.
  intros Hp. pose proof (co_bs _ _ _ _ Hok). pose proof (co_fit _ _ _ _ Hok).
  pose proof (co_count _ _ _ _ Hok). pose proof (co_base _ _ _ _ Hok).
  unfold cls_blocks. rewrite <- block_test; [|lia|lia|rewrite Z2Nat.id by lia; lia|done].
  rewrite Z2Nat.id by lia. by rewrite Z.mul_comm.
Qed.

(** The state of the class survives any change outside its blocks, and the
    writes of users into live blocks. *)
Lemma cls_frame h' :
  (∀ p, p ∈ free → h' !! p = h !! p) → (∀ p, p ∈ cls_blocks c → is_Some (h' !! p)) →
  cls_ok h' c free live.
Proof.
  intros Hf Hd. split; try apply Hok; [|done]. eapply fchain_frame; [apply Hok|done].
Qed.

Lemma cls_outside p v : p ∉ cls_blocks c → cls_ok (<[p := v]> h) c free live.
Proof.
  intros Hp. assert (∀ q, q ∈ cls_blocks c → <[p := v]> h !! q = h !! q) as Hq.
  { intros q Hq. rewrite lookup_insert_ne; [done|]. by intros <-. }
  apply cls_frame.
  - intros q Hin. apply Hq. rewrite <- (co_split _ _ _ _ Hok). set_solver.
  - intros q Hin. rewrite Hq by done. by apply Hok.
Qed.

Lemma cls_write p v : p ∈ live → is_Some (h !! p) ∧ cls_ok (<[p := v]> h) c free live.
Proof.
  intros Hp. pose proof cls_nodup as (_ & Hd & _)%NoDup_app.
  assert (p ∈ cls_blocks c) by (rewrite <- (co_split _ _ _ _ Hok); set_solver).
  split; [by apply Hok|]. apply cls_frame.
  - intros q Hq. rewrite lookup_insert_ne; [done|]. intros <-. by eapply Hd.
  - intros q Hq. rewrite lookup_insert. case_decide; [done|]. by apply Hok.
Qed.
End cls.

(** Popping the head of the free list and pushing a block back. *)
Definition pop_cls (c : cls) (nxt : Z) : cls :=
  Cls (block_size c) (block_count c) (wrap64 (free_count c - 1)) (memory c) nxt.
Definition push_cls (c : cls) (p : Z) : cls :=
  Cls (block_size c) (block_count c) (wrap64 (free_count c + 1)) (memory c) p.

Lemma cls_pop h c p free live v :
  cls_ok h c (p :: free) live →
  h !! p = Some (hd NULL free) ∧ p ≠ NULL ∧ p ∈ cls_blocks c ∧ p ∉ live ∧
  cls_ok (<[p := v]> h) (pop_cls c (hd NULL free)) free (p :: live).
Proof.
  intros Hok. pose proof (co_chain _ _ _ _ Hok) as [Hp Hc]. pose proof (cls_nodup Hok) as Hnd.
  pose proof (cls_length Hok) as Hl. pose proof (cls_bound Hok) as [Hb _].
  pose proof (co_free _ _ _ _ Hok) as Hf. simpl in Hl, Hf.
  rewrite Permutation_app_comm in Hnd. apply NoDup_cons in Hnd as [Hpn Hnd].
  assert (p ∈ cls_blocks c) as Hin by (rewrite <- (co_split _ _ _ _ Hok); set_solver).
  split_and!; [done|by apply (cls_block Hok)|done|set_solver|].
  split; simpl; try apply Hok; try done.
  - rewrite wrap64_small by lia. lia.
  - eapply fchain_frame; [done|]. intros q Hq. rewrite lookup_insert_ne; [done|set_solver].
  - change (cls_blocks (pop_cls c (hd NULL free))) with (cls_blocks c).
    rewrite <- (co_split _ _ _ _ Hok). solve_Permutation.
  - intros q Hq. rewrite lookup_insert. case_decide; [done|]. by apply Hok.
Qed.

Lemma cls_push h c free live1 p live2 :
  cls_ok h c free (live1 ++ p :: live2) →
  is_Some (h !! p) ∧ p ∈ cls_blocks c ∧
  cls_ok (<[p := free_list c]> h) (push_cls c p) (p :: free) (live1 ++ live2).
Proof.
  intros Hok. pose proof (cls_nodup Hok) as Hnd. pose proof (cls_length Hok) as Hl.
  pose proof (cls_bound Hok) as [Hb _]. rewrite length_app in Hl. simpl in Hl.
  assert (p ∈ cls_blocks c) as Hin by (rewrite <- (co_split _ _ _ _ Hok); set_solver).
  split_and!; [by apply Hok|done|]. split; simpl; try apply Hok; try done.
  - rewrite (co_free _ _ _ _ Hok), wrap64_small by lia. lia.
  - rewrite (co_list _ _ _ _ Hok). apply (fchain_push h free p); [apply Hok|].
    rewrite <- app_assoc in Hnd. apply NoDup_app in Hnd as (_ & _ & Hnd). simpl in Hnd.
    apply NoDup_cons in Hnd as [Hnd _]. set_solver.
  - change (cls_blocks (push_cls c p)) with (cls_blocks c).
    rewrite <- (co_split _ _ _ _ Hok). solve_Permutation.
  - intros q Hq. rewrite lookup_insert. case_decide; [done|]. by apply Hok.
Qed.

(** Releasing the region of a class. *)
Lemma wp_free_cls {T} (w : world T Z) c free live :
  cls_ok (heap w) c free live →
  wp (free_region (memory c) (block_size c) (Z.to_nat (block_count c))) (λ _ w',
    w' = with_heap w (heap w') ∧ ∀ p, heap w' !! p =
      if decide (p ∈ cls_blocks c) then None else heap w !! p) w.
Proof.
  intros Hok. pose proof (co_count _ _ _ _ Hok).
  destruct (co_dom _ _ _ _ Hok (memory c)) as [v Hv].
  { apply elem_of_blocks. exists 0%nat. lia. }
  unfold wp, free_region. rewrite Hv. split; [done|]. intros p. simpl.
  unfold cls_blocks. case_decide as Hp.
  - apply map_lookup_filter_None. right. naive_solver.
  - destruct (heap w !! p) as [x|] eqn:E.
    + by apply map_lookup_filter_Some.
    + apply map_lookup_filter_None. by left.
Qed.

Lemma region_cls {T} (w w' : world T Z) base bs cnt :
  region_ok w w' base bs (Z.to_nat cnt) → 8 ≤ bs → 0 < cnt → 1 ≤ brk w →
  cls_ok (heap w') (Cls bs cnt cnt base base) (blocks base bs (Z.to_nat cnt)) [].
Proof.
  intros Hg Hbs Hcnt Hb. pose proof (rg_fit _ _ _ _ _ Hg) as Hfit.
  rewrite Z2Nat.id in Hfit by lia. pose proof (rg_base _ _ _ _ _ Hg).
  split; simpl; try done; try lia.
  - unfold blocks. destruct (Z.to_nat cnt) as [|n] eqn:E; [lia|]. simpl. lia.
  - unfold blocks. rewrite length_fmap, length_seq. lia.
  - apply Hg.
  - intros p Hp. apply elem_of_dom. rewrite (rg_dom _ _ _ _ _ Hg).
    apply elem_of_union. left. by apply elem_of_list_to_set.
Qed.

End FreeList.
