(* ===== verification/Pool.v ===== *)
(** * The fixed-size block pool of src/src/memory/pool.c *)
From S2P Require Import Prelude World FreeList.

Module Pool.
Import FreeList.

Abbreviation cobalt_pool := cls.
Abbreviation pworld := (world cobalt_pool Z).
Definition sizeof_pool : Z := 48.

(** ** Operations *)

Definition cobalt_pool_create_with_allocator (block_size block_count : Z) (alloc : bool)
    : M pworld unit :=
  if (block_size =? 0) || (block_count =? 0) || negb alloc then set_obj None
  else
    let block_size := if block_size <? sizeof_ptr then sizeof_ptr else block_size in
    ok <- request sizeof_pool ;;
    if negb ok then set_obj None
    else
      memory <- alloc_region (wrap64 (block_size * block_count)) block_size ;;
      if memory =? NULL then set_obj None
      else
        link_blocks memory block_size 0 (Z.to_nat (block_count - 1)) ;;;
        set_obj (Some (Cls block_size block_count block_count memory memory)).

Definition cobalt_pool_create (block_size block_count : Z) : M pworld unit :=
  cobalt_pool_create_with_allocator block_size block_count true.

Definition cobalt_pool_destroy : M pworld unit :=
  o <- get_obj ;;
  match o with
  | None => mret tt
  | Some pool =>
      free_region (memory pool) (block_size pool) (Z.to_nat (block_count pool)) ;;;
      set_obj None
  end.

Definition cobalt_pool_alloc : M pworld Z :=
  o <- get_obj ;;
  match o with
  | None => mret NULL
  | Some pool =>
      if free_count pool =? 0 then mret NULL
      else
        let block := free_list pool in
        next <- load block ;;
        set_obj (Some (pop_cls pool next)) ;;;
        store block 0 ;;;
        mret block
  end.

Definition cobalt_pool_free (ptr : Z) : M pworld unit :=
  o <- get_obj ;;
  match o with
  | None => mret tt
  | Some pool =>
      if ptr =? NULL then mret tt
      else
        let offset := wrap64 (ptr - memory pool) in
        if wrap64 (block_size pool * block_count pool) <=? offset then mret tt
        else if negb (offset mod block_size pool =? 0) then mret tt
        else
          store ptr (free_list pool) ;;;
          set_obj (Some (push_cls pool ptr))
  end.

Definition cobalt_pool_is_full : M pworld bool :=
  o <- get_obj ;; mret (match o with Some pool => free_count pool =? 0 | None => true end).

Definition cobalt_pool_free_count : M pworld Z :=
  o <- get_obj ;; mret (match o with Some pool => free_count pool | None => 0 end).

(** ** The pool and its clients *)

Definition rep (w : pworld) (free live : list Z) : Prop :=
  ∃ pool, obj w = Some pool ∧ cls_ok (heap w) pool free live.

Lemma wp_pool_alloc w free live :
  rep w free live →
  wp cobalt_pool_alloc (λ r w',
    match free with
    | [] => r = NULL ∧ w' = w
    | p :: free' => r = p ∧ p ≠ NULL ∧ p ∉ live ∧ rep w' free' (p :: live) ∧
        heap w' = <[p := 0]> (heap w)
    end) w.
Proof.
  intros (pool & Ho & Hok). unfold cobalt_pool_alloc. wp_step. wp_step.
  rewrite Ho, (co_free _ _ _ _ Hok). destruct free as [|p free]; [by wp_steps|].
  destruct (cls_pop _ _ _ _ _ 0 Hok) as (Hp & Hn & _ & Hl & Hok').
  rewrite (co_list _ _ _ _ Hok). cbn [length hd].
  rewrite (proj2 (Z.eqb_neq (Z.of_nat _) 0)) by lia.
  wp_step. eapply wp_load; [done|]. wp_steps. eapply wp_store; [done|]. wp_steps.
  split_and!; try done. eexists. split; [done|exact Hok'].
Qed.

(** Returning a live block. *)
Lemma wp_pool_free w free live1 p live2 :
  rep w free (live1 ++ p :: live2) →
  wp (cobalt_pool_free p) (λ _ w', rep w' (p :: free) (live1 ++ live2)) w.
Proof.
  intros (pool & Ho & Hok). unfold cobalt_pool_free. wp_step. wp_step. rewrite Ho.
  destruct (cls_push _ _ _ _ _ _ Hok) as ([c Hc] & Hin & Hok').
  destruct (cls_block Hok p Hin) as [Hr Hn]. pose proof (co_base _ _ _ _ Hok).
  destruct (proj2 (cls_test Hok p ltac:(lia)) Hin) as [Hlt Hmod].
  pose proof (cls_bound Hok) as [_ Hb].
  rewrite (proj2 (Z.eqb_neq _ _) Hn), Hmod, (wrap64_small (_ * _)) by lia. cbn [negb Z.eqb].
  rewrite (proj2 (Z.leb_gt _ _)) by lia. wp_step. eapply wp_store; [done|]. wp_steps.
  eexists. split; [done|exact Hok'].
Qed.

(** A pointer that is not a block of the pool is ignored. *)
Lemma wp_pool_free_foreign w free live p :
  rep w free live → 0 ≤ p < 2 ^ 64 → p ∉ live ++ free →
  wp (cobalt_pool_free p) (λ _ w', w' = w) w.
Proof.
  intros (pool & Ho & Hok) Hp Hn. unfold cobalt_pool_free. wp_step. wp_step. rewrite Ho.
  rewrite (co_split _ _ _ _ Hok), <- (cls_test Hok p Hp) in Hn.
  pose proof (cls_bound Hok) as [_ Hb]. rewrite (wrap64_small (_ * _)) by lia.
  destruct (p =? NULL); [by wp_steps|].
  destruct (Z.leb_spec (block_size pool * block_count pool) (wrap64 (p - memory pool)));
    [by wp_steps|].
  destruct (Z.eqb_spec (wrap64 (p - memory pool) mod block_size pool) 0); [|by wp_steps]. tauto.
Qed.

(** The user of a live block may write into it. *)
Lemma wp_pool_write w free live p v :
  rep w free live → p ∈ live → wp (store p v) (λ _ w', rep w' free live) w.
Proof.
  intros (pool & Ho & Hok) Hp. destruct (cls_write Hok p v Hp) as [[c Hc] Hok'].
  eapply wp_store; [done|]. by exists pool.
Qed.

Lemma wp_pool_create orc bs cnt :
  0 < bs → 0 < cnt → Z.max 8 bs * cnt < 2 ^ 64 →
  wp (cobalt_pool_create bs cnt) (λ _ w,
    obj w = None ∨ ∃ pool, obj w = Some pool ∧ block_size pool = Z.max 8 bs ∧
      block_count pool = cnt ∧ rep w (cls_blocks pool) [])
    (world0 orc).
Proof.
  intros Hbs Hcnt Hb. unfold cobalt_pool_create, cobalt_pool_create_with_allocator.
  rewrite (proj2 (Z.eqb_neq bs 0)), (proj2 (Z.eqb_neq cnt 0)) by lia. cbn [orb negb].
  assert ((if bs <? sizeof_ptr then sizeof_ptr else bs) = Z.max 8 bs) as ->.
  { unfold sizeof_ptr. destruct (Z.ltb_spec bs 8); lia. }
  wp_step. apply wp_request; intros _; wp_simpl; [|wp_steps; by left].
  rewrite wrap64_small by lia. set (w1 := with_request (world0 orc)). wp_step.
  pose proof (wp_region (Z.max 8 bs) (Z.to_nat cnt) w1 ltac:(lia) ltac:(lia)
                ltac:(by apply heap_ok_world0)) as Hr.
  rewrite Z2Nat.id, (Z.mul_comm cnt) in Hr by lia.
  eapply wp_mono; [exact Hr|]. intros base w2 [(-> & -> & _)|(Hn & _ & Hl)].
  { rewrite Z.eqb_refl. wp_steps. by left. }
  rewrite (proj2 (Z.eqb_neq _ _) Hn). wp_step.
  assert (Z.to_nat (cnt - 1) = (Z.to_nat cnt - 1)%nat) as -> by lia.
  rewrite <- (with_obj_id w2). eapply wp_mono; [apply Hl|]. intros [] w3 [_ Hg]. wp_steps. right.
  eexists. split_and!; [done..|]. eexists. split; [done|]. eapply (region_cls w1 w3); [exact Hg|lia|done|simpl; lia].
Qed.

Lemma wp_pool_destroy w free live :
  rep w free live →
  wp cobalt_pool_destroy (λ _ w', obj w' = None ∧ ∀ p, p ∈ live ++ free → heap w' !! p = None) w.
Proof.
  intros (pool & Ho & Hok). unfold cobalt_pool_destroy. wp_step. wp_step. rewrite Ho. wp_step.
  eapply wp_mono; [by eapply wp_free_cls|]. intros [] w' [_ Hw]. wp_steps. split; [done|].
  intros p. rewrite (co_split _ _ _ _ Hok). intros Hp. simpl. by rewrite Hw, decide_True.
Qed.

(** ** Runs of a pool: calls of the clients in any order, [live] is what they
    hold.  Returning a block twice is a client error and not a step. *)

Inductive pool_step : pworld * list Z → pworld * list Z → Prop :=
  | ps_alloc w live r w' :
      cobalt_pool_alloc w = Ret r w' →
      pool_step (w, live) (w', if r =? NULL then live else r :: live)
  | ps_free w live1 p live2 w' :
      cobalt_pool_free p w = Ret tt w' →
      pool_step (w, live1 ++ p :: live2) (w', live1 ++ live2)
  | ps_foreign w live p w' :
      0 ≤ p < 2 ^ 64 → (∀ pool, obj w = Some pool → p ∉ cls_blocks pool) →
      cobalt_pool_free p w = Ret tt w' → pool_step (w, live) (w', live)
  | ps_write w live p v w' :
      p ∈ live → store p v w = Ret tt w' → pool_step (w, live) (w', live).

Lemma pool_step_rep st st' :
  pool_step st st' → (∃ free, rep st.1 free st.2) → ∃ free, rep st'.1 free st'.2.
Proof.
  intros Hst [free Hrep]. destruct Hst as [w live r w' E|w l1 p l2 w' E|w live p w' Hp Hf E|w live p v w' Hp E];
    simpl in *.
  - pose proof (wp_elim _ _ _ _ _ (wp_pool_alloc _ _ _ Hrep) E) as Hr.
    destruct free as [|q free]; simpl in Hr.
    + destruct Hr as [-> ->]. by exists [].
    + destruct Hr as (-> & Hn & _ & Hrep' & _). rewrite (proj2 (Z.eqb_neq _ _) Hn). eauto.
  - pose proof (wp_elim _ _ _ _ _ (wp_pool_free _ _ _ _ _ Hrep) E) as Hr.
    by exists (p :: free).
  - assert (p ∉ live ++ free) as Hn.
    { destruct (id Hrep) as (pool & Ho & Hok). rewrite (co_split _ _ _ _ Hok). by apply Hf. }
    pose proof (wp_elim _ _ _ _ _ (wp_pool_free_foreign _ _ _ _ Hrep Hp Hn) E) as ->. eauto.
  - pose proof (wp_elim _ _ _ _ _ (wp_pool_write _ _ _ _ v Hrep Hp) E) as Hr.
    by exists free.
Qed.

Lemma pool_reachable w free w' live' :
  rep w free [] → rtc pool_step (w, []) (w', live') → ∃ free', rep w' free' live'.
Proof.
  intros Hrep Hrtc. assert (∃ free, rep (w, @nil Z).1 free (w, @nil Z).2) as Hst by (by exists free).
  clear Hrep. change w' with (w', live').1. change live' with (w', live').2 at 2.
  remember (w, @nil Z) as st. remember (w', live') as st'. clear Heqst Heqst'.
  induction Hrtc; [done|]. by eapply IHHrtc, pool_step_rep.
Qed.

(** The blocks of a pool never change. *)
Lemma pool_step_blocks st st' :
  pool_step st st' → (∃ free, rep st.1 free st.2) → ∀ pool, obj st.1 = Some pool →
  ∃ pool', obj st'.1 = Some pool' ∧ block_count pool' = block_count pool ∧
           block_size pool' = block_size pool.
Proof.
  intros Hst [free (pool0 & Ho & _)] pool Hp. rewrite Ho in Hp. injection Hp as ->.
  destruct Hst as [w live r w' E|w l1 p l2 w' E|w live p w' _ _ E|w live p v w' _ E]; simpl in *.
  all: unfold cobalt_pool_alloc, cobalt_pool_free, mbind, get_obj, mret, load, store, set_obj in E.
  all: rewrite ?Ho in E; simpl in E; repeat case_match; simplify_eq/=; eauto.
Qed.

Lemma pool_same_blocks st st' :
  rtc pool_step st st' → (∃ free, rep st.1 free st.2) → ∀ pool, obj st.1 = Some pool →
  ∃ pool', obj st'.1 = Some pool' ∧ block_count pool' = block_count pool ∧
           block_size pool' = block_size pool.
Proof.
  induction 1 as [st|st1 st2 st3 Hst _ IH]; intros Hrep pool Ho; [eauto|].
  destruct (pool_step_blocks _ _ Hst Hrep pool Ho) as (pool2 & Ho2 & <- & <-).
  apply IH; [by eapply pool_step_rep|done].
Qed.

(** C25: A pool under any sequence of calls.  From a pool of [cnt] blocks of
    [bs] bytes as [cobalt_pool_create] returns it, after any sequence of
    allocations, returns of live blocks, frees of foreign pointers and writes
    into live blocks: the live blocks are distinct and do not overlap, there are
    at most [cnt] of them, the next allocation returns NULL exactly when all
    [cnt] are live and a block that is not live otherwise, and any live block
    can be returned. *)
Theorem pool_blocks_safe orc bs cnt w w' live :
  0 < bs → 0 < cnt → Z.max 8 bs * cnt < 2 ^ 64 →
  cobalt_pool_create bs cnt (world0 orc) = Ret tt w → obj w ≠ None →
  rtc pool_step (w, []) (w', live) →
  NoDup live ∧ Z.of_nat (length live) ≤ cnt ∧
  (∀ p q, p ∈ live → q ∈ live → p ≠ q → bs ≤ Z.abs (p - q)) ∧
  wp cobalt_pool_alloc (λ r _,
    if Z.of_nat (length live) =? cnt then r = NULL else r ≠ NULL ∧ r ∉ live) w' ∧
  ∀ p, p ∈ live → wp (cobalt_pool_free p) (λ _ _, True) w'.
Proof.
  intros Hbs Hcnt Hfit E Hne Hrtc.
  destruct (wp_elim _ _ _ _ _ (wp_pool_create orc bs cnt Hbs Hcnt Hfit) E)
    as [?|(pool0 & Ho0 & Hb0 & Hc0 & Hrep)]; [done|].
  destruct (pool_reachable _ _ _ _ Hrep Hrtc) as [free Hrep'].
  destruct (pool_same_blocks _ _ Hrtc ltac:(eauto) pool0 Ho0) as (pool & Ho & Hc & Hb).
  simpl in Ho. rewrite Hc0 in Hc. rewrite Hb0 in Hb.
  pose proof Hrep' as (pool' & Ho' & Hok). rewrite Ho in Ho'. injection Ho' as <-.
  pose proof (cls_nodup Hok) as Hnd. pose proof (cls_length Hok) as Hl.
  rewrite Hc in Hl. assert (∀ p, p ∈ live → p ∈ cls_blocks pool) as Hin.
  { intros p Hp. rewrite <- (co_split _ _ _ _ Hok). set_solver. }
  split_and!; [by apply NoDup_app in Hnd as (? & _ & _)|lia| | |].
  - intros p q Hp%Hin Hq%Hin Hpq. unfold cls_blocks in Hp, Hq. rewrite Hb in Hp, Hq.
    apply elem_of_blocks in Hp as (i & _ & ->), Hq as (j & _ & ->).
    assert (bs ≤ Z.max 8 bs) by lia. set (B := Z.max 8 bs) in *.
    assert (Z.of_nat i < Z.of_nat j ∨ Z.of_nat j < Z.of_nat i) as [?|?]; [|nia..].
    destruct (decide (i = j)) as [->|]; [done|lia].
  - eapply wp_mono; [by eapply wp_pool_alloc|]. intros r w2. destruct free as [|q free]; simpl in Hl.
    + intros [-> _]. by rewrite (proj2 (Z.eqb_eq _ _)) by lia.
    + intros (-> & Hn & Hnl & _). by rewrite (proj2 (Z.eqb_neq _ _)) by lia.
  - intros p (l1 & l2 & ->)%list_elem_of_split. eapply wp_mono; [by eapply wp_pool_free|]. done.
Qed.

(** The size of the region is computed in [size_t] without a check: two
    blocks of [2^63] bytes ask for 0 bytes, and linking the blocks writes
    outside what the allocator returned. *)
Theorem pool_create_wraps :
  cobalt_pool_create (2 ^ 63) 2 (world0 (λ _ _, true)) = Fault BadAccess.
Proof. vm_compute. reflexivity. Qed.

(** A pool of two blocks, and the same with the first one handed out. *)
Definition small_pool : pworld :=
  match cobalt_pool_create 8 2 (world0 (λ _ _, true)) with
  | Ret _ w => w
  | Fault _ => world0 (λ _ _, true)
  end.
Definition used_pool : pworld :=
  match cobalt_pool_alloc small_pool with Ret _ w => w | Fault _ => small_pool end.

Lemma pool_blocks_safe_witness :
  NoDup [1] ∧ Z.of_nat (length [1]) ≤ 2 ∧
  (∀ p q, p ∈ [1] → q ∈ [1] → p ≠ q → 8 ≤ Z.abs (p - q)) ∧
  wp cobalt_pool_alloc (λ r _,
    if Z.of_nat (length [1]) =? 2 then r = NULL else r ≠ NULL ∧ r ∉ [1]) used_pool ∧
  ∀ p, p ∈ [1] → wp (cobalt_pool_free p) (λ _ _, True) used_pool.
Proof.
  apply (pool_blocks_safe (λ _ _, true) 8 2 small_pool); [lia|lia|lia|reflexivity|done|].
  apply rtc_once. apply (ps_alloc small_pool [] 1 used_pool). reflexivity.
Defined.

End Pool.
