(* ===== verification/Slab.v ===== *)
(** * The slab allocator of src/src/memory/slab.c

    A slab owns up to sixteen classes of blocks.  An allocation is served by
    the first class whose blocks are large enough, a returned block goes back
    to the class whose region contains it. *)
From S2P Require Import Prelude World FreeList.

Module Slab.
Import FreeList.

Definition COBALT_SLAB_MAX_CLASSES : Z := 16.
Definition sizeof_slab : Z := 656.

Record cobalt_slab := MkSlab {
  classes : list cls;
  class_count : Z;
  alloc : bool
}.

Abbreviation sworld := (world cobalt_slab Z).

Definition zero_class : cls := Cls 0 0 0 NULL NULL.
Definition set_class (s : cobalt_slab) (i : nat) (c : cls) : cobalt_slab :=
  MkSlab (<[i := c]> (classes s)) (class_count s) (alloc s).

(** ** Operations *)

(** The index of the first class that fits, [-1] when there is none. *)
Fixpoint find_class_from (i : Z) (cs : list cls) (size : Z) : Z :=
  match cs with
  | [] => -1
  | c :: cs => if size <=? block_size c then i else find_class_from (i + 1) cs size
  end.

Definition slab_find_class (s : cobalt_slab) (size : Z) : Z :=
  find_class_from 0 (take (Z.to_nat (class_count s)) (classes s)) size.

Definition free_class (c : cls) : M sworld unit :=
  free_region (memory c) (block_size c) (Z.to_nat (block_count c)).

Fixpoint free_classes (cs : list cls) : M sworld unit :=
  match cs with
  | [] => mret tt
  | c :: cs => free_class c ;;; free_classes cs
  end.

(** [slab->alloc->free] dereferences the allocator of the slab. *)
Definition cobalt_slab_destroy : M sworld unit :=
  o <- get_obj ;;
  match o with
  | None => mret tt
  | Some s =>
      if negb (alloc s) then mfail NullDeref
      else free_classes (take (Z.to_nat (class_count s)) (classes s)) ;;; set_obj None
  end.

(** One round of the class loop; [false] when the region was refused. *)
Definition init_class (bs cnt : Z) (i : nat) : M sworld bool :=
  let bs := if bs <? sizeof_ptr then sizeof_ptr else bs in
  let cnt := if cnt =? 0 then 16 else cnt in
  mem <- alloc_region (wrap64 (bs * cnt)) bs ;;
  s <- deref ;;
  set_obj (Some (set_class s i (Cls bs cnt cnt mem mem))) ;;;
  if mem =? NULL then mret false
  else link_blocks mem bs 0 (Z.to_nat (cnt - 1)) ;;; mret true.

Fixpoint init_classes (sizes counts : list Z) (i n : nat) : M sworld bool :=
  match n with
  | O => mret true
  | S n =>
      match sizes !! i, counts !! i with
      | Some bs, Some cnt =>
          ok <- init_class bs cnt i ;;
          if ok then init_classes sizes counts (S i) n else mret false
      | _, _ => mfail BadAccess
      end
  end.

Definition cobalt_slab_create_with_allocator (sizes counts : option (list Z)) (count : Z)
    (has_alloc : bool) : M sworld unit :=
  match sizes, counts with
  | Some sizes, Some counts =>
      if (count =? 0) || (COBALT_SLAB_MAX_CLASSES <? count) || negb has_alloc then set_obj None
      else
        ok <- request sizeof_slab ;;
        if negb ok then set_obj None
        else
          set_obj (Some (MkSlab (replicate (Z.to_nat COBALT_SLAB_MAX_CLASSES) zero_class)
                           0 false)) ;;;
          ok <- init_classes sizes counts 0 (Z.to_nat count) ;;
          if negb ok then cobalt_slab_destroy ;;; set_obj None
          else s <- deref ;; set_obj (Some (MkSlab (classes s) count has_alloc))
  | _, _ => set_obj None
  end.

Definition cobalt_slab_create (sizes counts : option (list Z)) (count : Z) : M sworld unit :=
  cobalt_slab_create_with_allocator sizes counts count true.

Definition cobalt_slab_alloc (size : Z) : M sworld Z :=
  o <- get_obj ;;
  match o with
  | None => mret NULL
  | Some s =>
      if size =? 0 then mret NULL
      else
        let idx := slab_find_class s size in
        if idx <? 0 then mret NULL
        else
          match classes s !! Z.to_nat idx with
          | None => mfail BadAccess
          | Some c =>
              if free_count c =? 0 then mret NULL
              else
                let block := free_list c in
                next <- load block ;;
                set_obj (Some (set_class s (Z.to_nat idx) (pop_cls c next))) ;;;
                store block 0 ;;;
                mret block
          end
  end.

(** [for (i = 0; i < class_count; i++)] with the class it stops at. *)
Fixpoint owner_from (i : nat) (cs : list cls) (ptr : Z) : option nat :=
  match cs with
  | [] => None
  | c :: cs =>
      let offset := wrap64 (ptr - memory c) in
      if wrap64 (block_size c * block_count c) <=? offset then owner_from (S i) cs ptr
      else if negb (offset mod block_size c =? 0) then owner_from (S i) cs ptr
      else Some i
  end.

Definition cobalt_slab_free (ptr : Z) : M sworld unit :=
  o <- get_obj ;;
  match o with
  | None => mret tt
  | Some s =>
      if ptr =? NULL then mret tt
      else
        match owner_from 0 (take (Z.to_nat (class_count s)) (classes s)) ptr with
        | None => mret tt
        | Some i =>
            match classes s !! i with
            | None => mfail BadAccess
            | Some c =>
                store ptr (free_list c) ;;;
                set_obj (Some (set_class s i (push_cls c ptr)))
            end
        end
  end.

(** ** The invariant: every class is well formed and no two share a block *)

Record classes_ok (h : gmap Z Z) (cs : list cls) (sts : list (list Z * list Z)) : Prop := {
  cs_ok : Forall2 (λ c st, cls_ok h c st.1 st.2) cs sts;
  cs_disj : ∀ i j ci cj p, cs !! i = Some ci → cs !! j = Some cj →
    p ∈ cls_blocks ci → p ∈ cls_blocks cj → i = j
}.

(** The classes in use are the first [class_count] of the array; [sts] gives
    the free and the live blocks of each. *)
Definition rep (w : sworld) (cs : list cls) (sts : list (list Z * list Z)) : Prop :=
  ∃ rest, obj w = Some (MkSlab (cs ++ rest) (Z.of_nat (length cs)) true) ∧
    classes_ok (heap w) cs sts.

Lemma classes_update h cs sts i c st p v c' st' :
  classes_ok h cs sts → cs !! i = Some c → sts !! i = Some st → p ∈ cls_blocks c →
  cls_blocks c' = cls_blocks c → cls_ok (<[p := v]> h) c' st'.1 st'.2 →
  classes_ok (<[p := v]> h) (<[i := c']> cs) (<[i := st']> sts).
Proof.
  intros [Hok Hd] Hc Hst Hp Hb Hok'. split.
  - apply Forall2_same_length_lookup. rewrite !length_insert.
    split; [by eapply Forall2_length|]. intros j cj stj.
    rewrite !list_lookup_insert_Some. intros [(-> & -> & _)|[Hij Hj]] [(? & -> & _)|[? Hj']];
      try done.
    pose proof (Forall2_lookup_lr _ _ _ _ _ _ Hok Hj Hj') as Hcj. simpl in Hcj.
    apply (cls_outside Hcj). intros Hpj. by apply Hij, (Hd i j c cj p).
  - assert (∀ j cj, <[i:=c']> cs !! j = Some cj →
      ∃ cj', cs !! j = Some cj' ∧ cls_blocks cj = cls_blocks cj') as Hl.
    { intros j cj. rewrite list_lookup_insert_Some. intros [(-> & -> & _)|[_ ?]]; eauto. }
    intros j k cj ck q (cj' & ? & ->)%Hl (ck' & ? & ->)%Hl ??. by eapply Hd.
Qed.

Lemma find_class_spec cs size i :
  match find_class_from i cs size with
  | r => (r = -1 ∧ Forall (λ c, block_size c < size) cs) ∨
         ∃ k c, r = i + Z.of_nat k ∧ cs !! k = Some c ∧ size ≤ block_size c ∧
           Forall (λ c, block_size c < size) (take k cs)
  end.
Proof.
  revert i. induction cs as [|c cs IH]; intros i; simpl; [by left|].
  destruct (Z.leb_spec size (block_size c)).
  - right. exists 0%nat, c. split_and!; [lia|done|done|constructor].
  - destruct (IH (i + 1)) as [[-> Hf]|(k & c' & -> & Hk & Hs & Hf)].
    + left. split; [done|]. by constructor.
    + right. exists (S k), c'. split_and!; [lia|done|done|]. by constructor.
Qed.

Lemma owner_spec h cs sts p i :
  classes_ok h cs sts → 0 ≤ p < 2 ^ 64 →
  match owner_from i cs p with
  | None => ∀ c, c ∈ cs → p ∉ cls_blocks c
  | Some k => ∃ j c, k = (i + j)%nat ∧ cs !! j = Some c ∧ p ∈ cls_blocks c
  end.
Proof.
  intros [Hok _] Hp. revert i. induction Hok as [|c st cs sts Hc _ IH]; intros i; simpl.
  { by intros c ?%not_elem_of_nil. }
  pose proof (cls_test Hc p Hp) as Ht. pose proof (cls_bound Hc) as [_ Hb].
  rewrite (wrap64_small (_ * _)) by lia.
  destruct (Z.leb_spec (block_size c * block_count c) (wrap64 (p - memory c)));
    [|destruct (Z.eqb_spec (wrap64 (p - memory c) mod block_size c) 0); simpl].
  2: { exists 0%nat, c. split_and!; [lia|done|]. by apply Ht. }
  all: specialize (IH (S i)); destruct (owner_from (S i) cs p) as [k|].
  1, 3: destruct IH as (j & c' & -> & ? & ?); exists (S j), c'; split_and!; [lia|done|done].
  all: intros c' [->|?]%elem_of_cons; [rewrite <- Ht; lia|by apply IH].
Qed.

(** ** Behaviour *)

Lemma wp_slab_alloc w cs sts size :
  rep w cs sts → 0 < size →
  wp (cobalt_slab_alloc size) (λ r w',
    (r = NULL ∧ w' = w ∧
       (Forall (λ c, block_size c < size) cs ∨ ∃ i c live, cs !! i = Some c ∧
          sts !! i = Some ([], live) ∧ size ≤ block_size c)) ∨
    (∃ i c c' free live, cs !! i = Some c ∧ sts !! i = Some (r :: free, live) ∧
       size ≤ block_size c ∧ Forall (λ c, block_size c < size) (take i cs) ∧ r ≠ NULL ∧
       heap w' = <[r := 0]> (heap w) ∧ rep w' (<[i := c']> cs) (<[i := (free, r :: live)]> sts)))
    w.
Proof.
  intros (rest & Ho & Hok) Hs. unfold cobalt_slab_alloc. wp_step. wp_step. rewrite Ho.
  rewrite (proj2 (Z.eqb_neq size 0)) by lia. cbn [class_count classes].
  unfold slab_find_class. cbn [class_count classes]. rewrite Nat2Z.id, take_app_length.
  destruct (find_class_spec cs size 0) as [[-> Hf]|(k & c & -> & Hk & Hs' & Hf)].
  { wp_steps. left. eauto. }
  rewrite (proj2 (Z.ltb_ge _ 0)) by lia.
  change (0 + Z.of_nat k) with (Z.of_nat k). rewrite Nat2Z.id. rewrite (lookup_app_l_Some _ _ _ _ Hk).
  destruct (Forall2_lookup_l _ _ _ _ _ (cs_ok _ _ _ Hok) Hk) as ([free live] & Hst & Hc).
  simpl in Hc. rewrite (co_free _ _ _ _ Hc). destruct free as [|p free].
  { wp_steps. left. split_and!; [done|done|]. right. by exists k, c, live. }
  destruct (cls_pop _ _ _ _ _ 0 Hc) as (Hp & Hn & Hin & Hl & Hc').
  rewrite (co_list _ _ _ _ Hc). cbn [length hd].
  rewrite (proj2 (Z.eqb_neq (Z.of_nat _) 0)) by lia.
  wp_step. eapply wp_load; [done|]. wp_steps. eapply wp_store; [done|]. wp_steps. right.
  exists k, c, (pop_cls c (hd NULL free)), free, live. split_and!; try done.
  exists rest. rewrite length_insert. split.
  - simpl. unfold set_class. simpl. rewrite insert_app_l; [done|]. by eapply lookup_lt_Some.
  - by eapply classes_update.
Qed.

Lemma wp_slab_free w cs sts i c free live1 p live2 :
  rep w cs sts → cs !! i = Some c → sts !! i = Some (free, live1 ++ p :: live2) →
  wp (cobalt_slab_free p) (λ _ w',
    ∃ c', rep w' (<[i := c']> cs) (<[i := (p :: free, live1 ++ live2)]> sts)) w.
Proof.
  intros (rest & Ho & Hok) Hi Hst. unfold cobalt_slab_free. wp_step. wp_step. rewrite Ho.
  pose proof (Forall2_lookup_lr _ _ _ _ _ _ (cs_ok _ _ _ Hok) Hi Hst) as Hc. simpl in Hc.
  destruct (cls_push _ _ _ _ _ _ Hc) as ([v Hv] & Hin & Hc').
  destruct (cls_block Hc p Hin) as [Hr Hn]. pose proof (co_base _ _ _ _ Hc).
  rewrite (proj2 (Z.eqb_neq _ _) Hn). cbn [class_count classes].
  rewrite Nat2Z.id, take_app_length.
  pose proof (owner_spec _ _ _ p 0 Hok ltac:(lia)) as Hown.
  destruct (owner_from 0 cs p) as [k|].
  2: { exfalso. eapply Hown; [|done]. by eapply list_elem_of_lookup_2. }
  destruct Hown as (j & c' & -> & Hj & Hp). pose proof (cs_disj _ _ _ Hok _ _ _ _ _ Hj Hi Hp Hin) as ->.
  simplify_eq. simpl. rewrite (lookup_app_l_Some _ _ _ _ Hi).
  wp_step. eapply wp_store; [done|]. wp_steps. exists (push_cls c p), rest.
  rewrite length_insert. split.
  - simpl. unfold set_class. simpl. rewrite insert_app_l; [done|]. by eapply lookup_lt_Some.
  - by eapply classes_update.
Qed.

Lemma wp_slab_free_foreign w cs sts p :
  rep w cs sts → 0 ≤ p < 2 ^ 64 → (∀ c, c ∈ cs → p ∉ cls_blocks c) →
  wp (cobalt_slab_free p) (λ _ w', w' = w) w.
Proof.
  intros (rest & Ho & Hok) Hp Hn. unfold cobalt_slab_free. wp_step. wp_step. rewrite Ho.
  destruct (p =? NULL); [by wp_steps|]. cbn [class_count classes].
  rewrite Nat2Z.id, take_app_length.
  pose proof (owner_spec _ _ _ p 0 Hok Hp) as Hown.
  destruct (owner_from 0 cs p) as [k|]; [|by wp_steps].
  destruct Hown as (j & c & -> & Hj & Hpc). exfalso. eapply Hn; [|done].
  by eapply list_elem_of_lookup_2.
Qed.

(** ** Creation *)

Definition eff_size (bs : Z) : Z := Z.max 8 bs.
Definition eff_count (cnt : Z) : Z := if cnt =? 0 then 16 else cnt.

(** What the regions of the classes take of the address space. *)
Definition space (sizes counts : list Z) : Z :=
  foldr Z.add 0 (zip_with (λ bs cnt, eff_size bs * eff_count cnt + 1) sizes counts).

Lemma space_nonneg sizes counts : Forall (λ z, 0 ≤ z) counts → 0 ≤ space sizes counts.
Proof.
  intros Hc. revert sizes. induction Hc as [|b counts Hb _ IH]; intros [|a sizes]; try done.
  specialize (IH sizes). unfold space in *. simpl. unfold eff_size at 1, eff_count at 1.
  destruct (Z.eqb_spec b 0); nia.
Qed.

(** A class as it comes out of the constructor. *)
Definition fresh_class (c : cls) : list Z * list Z := (cls_blocks c, []).

Record init_ok (w : sworld) (cs : list cls) : Prop := {
  io_heap : heap_ok w;
  io_obj : obj w = Some (MkSlab (cs ++ replicate (16 - length cs) zero_class) 0 false);
  io_classes : classes_ok (heap w) cs (fresh_class <$> cs)
}.

Lemma classes_region (w w' : sworld) cs base bs cnt :
  classes_ok (heap w) cs (fresh_class <$> cs) → heap_ok w →
  region_ok w w' base bs (Z.to_nat cnt) → 8 ≤ bs → 0 < cnt →
  classes_ok (heap w') (cs ++ [Cls bs cnt cnt base base])
    (fresh_class <$> cs ++ [Cls bs cnt cnt base base]).
Proof.
  intros [Hok Hd] [Hb Hh] Hg Hbs Hcnt. set (c := Cls bs cnt cnt base base).
  assert (∀ c' p, c' ∈ cs → p ∈ cls_blocks c' → p ∉ cls_blocks c) as Hnew.
  { intros c' p [i Hi]%list_elem_of_lookup Hp Hpc.
    destruct (Forall2_lookup_l _ _ _ _ _ Hok Hi) as (st & _ & Hc').
    destruct (co_dom _ _ _ _ Hc' p Hp) as [v Hv]. apply Hh in Hv.
    apply blocks_range in Hpc; simpl in *; [|lia]. pose proof (rg_base _ _ _ _ _ Hg). lia. }
  split.
  - rewrite fmap_app. apply Forall2_app.
    + apply Forall2_same_length_lookup. split; [by rewrite length_fmap|].
      intros i ci st Hi Hst.
      pose proof (Forall2_lookup_lr _ _ _ _ _ _ Hok Hi Hst) as Hci. simpl in Hci.
      rewrite list_lookup_fmap, Hi in Hst. simplify_eq/=.
      assert (∀ p, p ∈ cls_blocks ci → heap w' !! p = heap w !! p) as Hf.
      { intros p Hp. apply (rg_frame _ _ _ _ _ Hg). apply (Hnew ci); [|done].
        by eapply list_elem_of_lookup_2. }
      apply (cls_frame Hci); [done|]. intros p Hp. rewrite Hf by done. by apply Hci.
    + constructor; [|constructor]. simpl. eapply region_cls; [done|done|done|lia].
  - assert (∀ i ci, (cs ++ [c]) !! i = Some ci →
      (cs !! i = Some ci) ∨ (i = length cs ∧ ci = c)) as Hl.
    { intros i ci [?|[? Hi]]%lookup_app_Some; [by left|]. right.
      destruct (i - length cs)%nat eqn:E; simplify_eq/=. split; [lia|done]. }
    intros i j ci cj p [Hi|[-> ->]]%Hl [Hj|[-> ->]]%Hl Hp Hq; [by eapply Hd| | |done].
    + exfalso. eapply Hnew; [by eapply list_elem_of_lookup_2|done|done].
    + exfalso. eapply Hnew; [by eapply list_elem_of_lookup_2|exact Hq|done].
Qed.

Lemma wp_init_class w cs bs cnt :
  init_ok w cs → (length cs < 16)%nat → 0 ≤ bs → 0 ≤ cnt →
  (∀ k n, oracle w k n = true) →
  brk w + (eff_size bs * eff_count cnt + 1) ≤ 2 ^ 64 →
  wp (init_class bs cnt (length cs)) (λ ok w', ok = true ∧
    (∃ base, init_ok w' (cs ++ [Cls (eff_size bs) (eff_count cnt) (eff_count cnt) base base])) ∧
    (∀ k n, oracle w' k n = true) ∧
    brk w' = brk w + (eff_size bs * eff_count cnt + 1)) w.
Proof.
  intros [Hh Ho Hc] Hl Hbs Hcnt Hor Hb. unfold init_class.
  assert ((if bs <? sizeof_ptr then sizeof_ptr else bs) = eff_size bs) as ->.
  { unfold sizeof_ptr, eff_size. destruct (Z.ltb_spec bs 8); lia. }
  fold (eff_count cnt). assert (0 < eff_count cnt) as Hpos.
  { unfold eff_count. destruct (Z.eqb_spec cnt 0); lia. }
  assert (8 ≤ eff_size bs) by (unfold eff_size; lia). set (b := eff_size bs) in *.
  set (c := eff_count cnt) in *. pose proof (proj1 Hh). rewrite wrap64_small by lia.
  pose proof (wp_region b (Z.to_nat c) w ltac:(lia) ltac:(lia) Hh) as Hr.
  rewrite Z2Nat.id, (Z.mul_comm c) in Hr by lia. wp_step.
  eapply wp_mono; [apply Hr|].
  intros base w1 [(_ & _ & [Hf|Hf])|(Hn & Ho1 & Hlink)]; [by rewrite Hor in Hf|lia|].
  rewrite Ho in Ho1. wp_steps. rewrite (proj2 (Z.eqb_neq _ _) Hn). wp_step.
  assert (Z.to_nat (c - 1) = (Z.to_nat c - 1)%nat) as -> by lia.
  eapply wp_mono; [apply Hlink|]. intros [] w2 [Ho2 Hg]. wp_steps. split; [done|].
  pose proof (rg_brk _ _ _ _ _ Hg) as Hbk. pose proof (rg_base _ _ _ _ _ Hg) as Hba.
  rewrite Z2Nat.id in Hbk by lia. split_and!; [|by rewrite (rg_oracle _ _ _ _ _ Hg)|lia].
  exists base. split; [apply Hg|..].
  - rewrite Ho2. simpl. unfold set_class. simpl. f_equal. f_equal.
    replace (16 - length cs)%nat with (S (16 - length (cs ++ [Cls b c c base base])))
      by (rewrite length_app; simpl; lia). simpl.
    rewrite insert_app_r_alt by done. by rewrite Nat.sub_diag, <- app_assoc.
  - by eapply classes_region.
Qed.

Lemma wp_init_classes n : ∀ sizes counts w cs,
  init_ok w cs → (length cs + n ≤ 16)%nat →
  length sizes = (length cs + n)%nat → length counts = (length cs + n)%nat →
  Forall (λ z, 0 ≤ z) sizes → Forall (λ z, 0 ≤ z) counts →
  (∀ k m, oracle w k m = true) →
  brk w + space (drop (length cs) sizes) (drop (length cs) counts) ≤ 2 ^ 64 →
  wp (init_classes sizes counts (length cs) n) (λ ok w', ok = true ∧ ∃ cs',
    init_ok w' (cs ++ cs') ∧ length cs' = n ∧
    block_size <$> cs' = eff_size <$> drop (length cs) sizes ∧
    block_count <$> cs' = eff_count <$> drop (length cs) counts) w.
Proof.
  induction n as [|n IH]; intros sizes counts w cs Hi Hn Hs Hc Hps Hpc Hor Hb; simpl.
  { wp_steps. split; [done|]. exists []. rewrite app_nil_r.
    rewrite !drop_ge by lia. done. }
  destruct (lookup_lt_is_Some_2 sizes (length cs)) as [bs Hbs]; [lia|].
  destruct (lookup_lt_is_Some_2 counts (length cs)) as [cnt Hcnt]; [lia|].
  rewrite Hbs, Hcnt. rewrite (drop_S _ _ _ Hbs), (drop_S _ _ _ Hcnt) in Hb |- *.
  unfold space in Hb. simpl in Hb. change (foldr Z.add 0 _) with
    (space (drop (S (length cs)) sizes) (drop (S (length cs)) counts)) in Hb.
  pose proof (Forall_lookup_1 _ _ _ _ Hps Hbs) as Hbs0. simpl in Hbs0.
  pose proof (Forall_lookup_1 _ _ _ _ Hpc Hcnt) as Hcnt0. simpl in Hcnt0.
  pose proof (space_nonneg (drop (S (length cs)) sizes) _ (Forall_drop _ (S (length cs)) _ Hpc)).
  wp_step. eapply wp_mono; [apply wp_init_class; [done|lia|done|done|done|lia]|].
  intros ok w1 (-> & [base Hi1] & Hor1 & Hb1). simpl.
  set (c := Cls _ _ _ _ _) in Hi1.
  assert (length (cs ++ [c]) = S (length cs)) as Hlen by (rewrite length_app; simpl; lia).
  rewrite <- Hlen. eapply wp_mono; [apply IH; rewrite ?Hlen; try done; lia|].
  intros ok w2 (-> & cs' & Hi2 & Hl2 & Hs2 & Hc2). split; [done|]. exists (c :: cs').
  rewrite <- app_assoc in Hi2. split_and!; [done|simpl; lia|..]; simpl; by f_equal.
Qed.

Lemma wp_slab_create orc sizes counts :
  (∀ k n, orc k n = true) → (0 < length sizes ≤ 16)%nat → length counts = length sizes →
  Forall (λ z, 0 ≤ z) sizes → Forall (λ z, 0 ≤ z) counts →
  1 + space sizes counts ≤ 2 ^ 64 →
  wp (cobalt_slab_create (Some sizes) (Some counts) (Z.of_nat (length sizes))) (λ _ w, ∃ cs,
    rep w cs (fresh_class <$> cs) ∧ block_size <$> cs = eff_size <$> sizes ∧
    block_count <$> cs = eff_count <$> counts) (world0 orc).
Proof.
  intros Hor Hl Hlc Hps Hpc Hb. unfold cobalt_slab_create, cobalt_slab_create_with_allocator.
  rewrite (proj2 (Z.eqb_neq _ 0)) by lia. unfold COBALT_SLAB_MAX_CLASSES.
  rewrite (proj2 (Z.ltb_ge 16 _)) by lia. cbn [orb negb]. wp_step.
  apply wp_request; simpl; intros Hor0; [|by rewrite Hor in Hor0]. wp_simpl. wp_steps.
  rewrite Nat2Z.id. eapply wp_mono; [eapply (wp_init_classes (length sizes) sizes counts _ [])|].
  - split; [by apply heap_ok_world0|done|]. split; [constructor|]. intros i j ci cj p Hi. by rewrite lookup_nil in Hi.
  - simpl; lia.
  - done.
  - done.
  - done.
  - done.
  - done.
  - done.
  - intros ok w (-> & cs & [Hh Ho Hc] & Hlen & Hs & Hct). wp_steps.
    exists cs. split_and!; [|done|done]. exists (replicate (16 - length cs) zero_class).
    split; [|done]. simpl in *. by rewrite Hlen.
Qed.

(** The failure path: the slab is destroyed before it has an allocator. *)
Lemma slab_create_refused orc sizes counts n :
  0 < n ≤ 16 → sizes ≠ [] → counts ≠ [] → orc 0%nat sizeof_slab = true → (∀ m, orc 1%nat m = false) →
  cobalt_slab_create (Some sizes) (Some counts) n (world0 orc) = Fault NullDeref.
Proof.
  intros Hn Hs Hc Hor0 Hor1. unfold cobalt_slab_create, cobalt_slab_create_with_allocator.
  rewrite (proj2 (Z.eqb_neq _ 0)) by lia. unfold COBALT_SLAB_MAX_CLASSES.
  rewrite (proj2 (Z.ltb_ge 16 _)) by lia. cbn [orb negb].
  unfold mbind at 1, request. simpl. rewrite Hor0. simpl.
  destruct (Z.to_nat n) as [|k] eqn:E; [lia|]. destruct sizes as [|bs sizes]; [done|].
  destruct counts as [|cnt counts]; [done|]. unfold mbind. simpl. unfold init_class, mbind, alloc_region.
  simpl. rewrite Hor1. done.
Qed.

(** ** Destruction *)

Lemma wp_free_classes cs : ∀ w sts,
  classes_ok (heap w) cs sts →
  wp (free_classes cs) (λ _ w', obj w' = obj w ∧
    ∀ p, heap w' !! p = if existsb (λ c, bool_decide (p ∈ cls_blocks c)) cs
                        then None else heap w !! p) w.
Proof.
  induction cs as [|c cs IH]; intros w sts [Hok Hd]; simpl; [by wp_steps|].
  inversion Hok as [|? st ? sts' Hc Hcs]; subst.
  wp_step. eapply wp_mono; [by eapply wp_free_cls|]. intros [] w1 [Hw1 Hh1].
  assert (classes_ok (heap w1) cs sts') as Hok1.
  { split; [|intros i j ci cj p Hi Hj Hp Hq; cut (S i = S j); [by intros [=]|];
      by apply (Hd (S i) (S j) ci cj p)].
    apply Forall2_same_length_lookup. split; [by eapply Forall2_length|].
    intros i ci sti Hi Hsti. pose proof (Forall2_lookup_lr _ _ _ _ _ _ Hcs Hi Hsti) as Hci.
    simpl in Hci. assert (∀ p, p ∈ cls_blocks ci → heap w1 !! p = heap w !! p) as Hf.
    { intros p Hp. rewrite Hh1, decide_False; [done|]. intros Hpc.
      by apply (Hd 0%nat (S i) c ci p) in Hp. }
    apply (cls_frame Hci); [|intros p Hp; rewrite Hf by done; by apply Hci].
    intros p Hp. apply Hf. rewrite <- (co_split _ _ _ _ Hci). set_solver. }
  eapply wp_mono; [by eapply IH|]. intros [] w2 [Ho2 Hh2]. split; [by rewrite Ho2, Hw1|].
  intros p. rewrite Hh2, Hh1. case_bool_decide; simpl.
  - rewrite decide_True by done. by destruct (existsb _ cs).
  - by rewrite decide_False.
Qed.

Lemma wp_slab_destroy w cs sts :
  rep w cs sts →
  wp cobalt_slab_destroy (λ _ w', obj w' = None ∧
    ∀ p, (∃ c, c ∈ cs ∧ p ∈ cls_blocks c) → heap w' !! p = None) w.
Proof.
  intros (rest & Ho & Hok). unfold cobalt_slab_destroy. wp_step. wp_step. rewrite Ho.
  cbn [alloc negb class_count classes]. rewrite Nat2Z.id, take_app_length. wp_step.
  eapply wp_mono; [by eapply wp_free_classes|]. intros [] w' [_ Hh]. wp_steps. split; [done|].
  intros p (c & Hc & Hp). simpl. rewrite Hh.
  rewrite (proj2 (existsb_true _ _)); [done|]. apply Exists_exists. exists c.
  by rewrite bool_decide_eq_true_2.
Qed.

(** ** What the users of a slab rely on *)

(** An allocation from a slab.  It is served by the first class whose blocks
    are large enough, with a block of that class that is not in use; the other
    classes are untouched.  It returns NULL, and changes nothing, exactly when
    no class is large enough or that first class is exhausted (even if a later,
    larger class has free blocks). *)
Theorem slab_alloc_first_fit w cs sts size :
  rep w cs sts → 0 < size →
  wp (cobalt_slab_alloc size) (λ r w',
    (r = NULL ∧ w' = w ∧
       (Forall (λ c, block_size c < size) cs ∨ ∃ i c live, cs !! i = Some c ∧
          sts !! i = Some ([], live) ∧ size ≤ block_size c)) ∨
    (∃ i c c' free live, cs !! i = Some c ∧ sts !! i = Some (r :: free, live) ∧
       size ≤ block_size c ∧ Forall (λ c, block_size c < size) (take i cs) ∧ r ≠ NULL ∧
       heap w' = <[r := 0]> (heap w) ∧
       rep w' (<[i := c']> cs) (<[i := (free, r :: live)]> sts))) w.
Proof. apply wp_slab_alloc. Qed.

(** Returning a block undoes its allocation: after [cobalt_slab_alloc] and
    [cobalt_slab_free] of the result, every class has the free and the live
    blocks it had, in the same order. *)
Theorem slab_alloc_free w cs sts size :
  rep w cs sts → 0 < size →
  wp (r <- cobalt_slab_alloc size ;; cobalt_slab_free r) (λ _ w', ∃ cs', rep w' cs' sts) w.
Proof.
  intros Hrep Hs. wp_step. eapply wp_mono; [by apply wp_slab_alloc|].
  intros r w1 [(-> & -> & _)|(i & c & c' & free & live & Hi & Hst & _ & _ & _ & _ & Hrep1)].
  - destruct (id Hrep) as (rest & Ho & _). unfold cobalt_slab_free. wp_steps.
    rewrite Ho, Z.eqb_refl. wp_steps. eauto.
  - eapply wp_mono; [eapply (wp_slab_free _ _ _ i c' free []); [exact Hrep1| |]|].
    + apply list_lookup_insert_eq. by eapply lookup_lt_Some.
    + apply list_lookup_insert_eq. by eapply lookup_lt_Some.
    + intros [] w2 [c2 Hrep2]. simpl in Hrep2. rewrite !list_insert_insert_eq in Hrep2.
      rewrite (list_insert_id sts) in Hrep2 by done. eauto.
Qed.

(** Creating a slab.  When the requests are granted and the regions fit the
    address space, [cobalt_slab_create] returns a slab with the given classes
    (sizes rounded up to a pointer, a count of 0 read as 16), all blocks free
    and no two classes sharing a block; and [cobalt_slab_destroy] releases every
    block of it. *)
Theorem slab_create_destroy orc sizes counts :
  (∀ k n, orc k n = true) → (0 < length sizes ≤ 16)%nat → length counts = length sizes →
  Forall (λ z, 0 ≤ z) sizes → Forall (λ z, 0 ≤ z) counts →
  1 + space sizes counts ≤ 2 ^ 64 →
  wp (cobalt_slab_create (Some sizes) (Some counts) (Z.of_nat (length sizes))) (λ _ w, ∃ cs,
    rep w cs (fresh_class <$> cs) ∧ block_size <$> cs = eff_size <$> sizes ∧
    block_count <$> cs = eff_count <$> counts ∧
    wp cobalt_slab_destroy (λ _ w', obj w' = None ∧
      ∀ p, (∃ c, c ∈ cs ∧ p ∈ cls_blocks c) → heap w' !! p = None) w) (world0 orc).
Proof.
  intros. eapply wp_mono; [by apply wp_slab_create|]. intros [] w (cs & Hrep & ? & ?).
  exists cs. split_and!; [done..|]. by eapply wp_slab_destroy.
Qed.

Definition small_slab : sworld :=
  match cobalt_slab_create (Some [8; 32]) (Some [2; 1]) 2 (world0 (λ _ _, true)) with
  | Ret _ w => w
  | Fault _ => world0 (λ _ _, true)
  end.

Lemma small_slab_rep : ∃ cs, rep small_slab cs (fresh_class <$> cs).
Proof.
  destruct (proj1 (wp_run _ _ _) (wp_slab_create (λ _ _, true) [8; 32] [2; 1] ltac:(done)
    ltac:(simpl; lia) ltac:(done) ltac:(repeat constructor; lia) ltac:(repeat constructor; lia)
    ltac:(vm_compute; done))) as (u & w & E & cs & Hrep & _).
  vm_compute in E. injection E as <- <-. by exists cs.
Qed.

Lemma slab_create_destroy_witness :
  wp (cobalt_slab_create (Some [8; 32]) (Some [2; 1]) 2) (λ _ w, ∃ cs,
    rep w cs (fresh_class <$> cs) ∧ block_size <$> cs = [8; 32] ∧ block_count <$> cs = [2; 1] ∧
    wp cobalt_slab_destroy (λ _ w', obj w' = None ∧
      ∀ p, (∃ c, c ∈ cs ∧ p ∈ cls_blocks c) → heap w' !! p = None) w) (world0 (λ _ _, true)).
Proof.
  refine (slab_create_destroy (λ _ _, true) [8; 32] [2; 1] _ _ _ _ _ _);
    [done|simpl; lia|done|repeat constructor; lia|repeat constructor; lia|vm_compute; done].
Defined.

Lemma slab_alloc_first_fit_witness : ∃ cs,
  wp (cobalt_slab_alloc 20) (λ r w',
    (r = NULL ∧ w' = small_slab ∧
       (Forall (λ c, block_size c < 20) cs ∨ ∃ i c live, cs !! i = Some c ∧
          (fresh_class <$> cs) !! i = Some ([], live) ∧ 20 ≤ block_size c)) ∨
    (∃ i c c' free live, cs !! i = Some c ∧ (fresh_class <$> cs) !! i = Some (r :: free, live) ∧
       20 ≤ block_size c ∧ Forall (λ c, block_size c < 20) (take i cs) ∧ r ≠ NULL ∧
       heap w' = <[r := 0]> (heap small_slab) ∧
       rep w' (<[i := c']> cs) (<[i := (free, r :: live)]> (fresh_class <$> cs)))) small_slab.
Proof.
  destruct small_slab_rep as [cs Hrep]. exists cs. apply slab_alloc_first_fit; [done|lia].
Defined.

Lemma slab_alloc_free_witness : ∃ cs,
  wp (r <- cobalt_slab_alloc 20 ;; cobalt_slab_free r)
    (λ _ w', ∃ cs', rep w' cs' (fresh_class <$> cs)) small_slab.
Proof.
  destruct small_slab_rep as [cs Hrep]. exists cs. apply (slab_alloc_free _ cs); [done|lia].
Defined.

(** The failure path of [cobalt_slab_create] destroys the slab before its
    allocator is recorded: when the slab itself is granted and a class region
    is refused, the constructor dereferences a null allocator. *)
Theorem slab_create_null_allocator orc sizes counts n :
  0 < n ≤ 16 → sizes ≠ [] → counts ≠ [] → orc 0%nat sizeof_slab = true →
  (∀ m, orc 1%nat m = false) →
  cobalt_slab_create (Some sizes) (Some counts) n (world0 orc) = Fault NullDeref.
Proof. apply slab_create_refused. Qed.

Lemma slab_create_null_allocator_witness :
  cobalt_slab_create (Some [8]) (Some [4]) 1 (world0 (λ k _, Nat.eqb k 0)) = Fault NullDeref.
Proof. apply slab_create_null_allocator; [lia|done|done|done|done]. Defined.

End Slab.
