(* ===== verification/Arena.v ===== *)
(** * The arena allocator of src/src/memory/arena.c

    A list of chunks, each a header and a payload that is handed out from the
    front by advancing [used].  Addresses are byte addresses: the allocator
    returns blocks aligned to 16 bytes ([alignof(max_align_t)]) that do not
    overlap earlier ones. *)
From S2P Require Import Prelude World.

Module Arena.

Definition COBALT_ARENA_MIN_CHUNK_SIZE : Z := 4096.
Definition max_align : Z := 16.
Definition sizeof_chunk : Z := 32.
Definition sizeof_arena : Z := 40.

Record arena_chunk := Chunk { next : Z; capacity : Z; used : Z }.

Record cobalt_arena := MkArena {
  current : Z;
  chunks : Z;
  default_chunk_size : Z;
  total_allocated : Z
}.

Abbreviation aworld := (world cobalt_arena arena_chunk).

(** [(n + alignof(max_align_t) - 1) & ~(alignof(max_align_t) - 1)] *)
Definition align_up (n : Z) : Z :=
  Z.land (wrap64 (n + max_align - 1)) (wrap64 (Z.lnot (max_align - 1))).

(** [alloc->alloc] for a chunk and the writes of its header.  When
    [sizeof(arena_chunk_t) + cap] wraps around, the header does not fit. *)
Definition alloc_chunk (c : arena_chunk) : M aworld Z :=
  λ w, let bytes := wrap64 (sizeof_chunk + capacity c) in
       let p := 16 * ((brk w + 15) / 16) in
       if oracle w (allocs w) bytes && (p + bytes <? 2 ^ 64)
       then if bytes <? sizeof_chunk then Fault BadAccess
            else Ret p (World (obj w) (<[p := c]> (heap w)) (p + bytes) (oracle w)
                          (S (allocs w)) (last_error w))
       else Ret NULL (with_request w).

(** ** Operations *)

Definition cobalt_arena_create_with_allocator (initial_size : Z) (alloc : bool)
    : M aworld unit :=
  if negb alloc then set_obj None
  else
    ok <- request sizeof_arena ;;
    if negb ok then set_obj None
    else
      let chunk_cap :=
        align_up (if 0 <? initial_size then initial_size else COBALT_ARENA_MIN_CHUNK_SIZE) in
      chunk <- alloc_chunk (Chunk NULL chunk_cap 0) ;;
      if chunk =? NULL then set_obj None
      else set_obj (Some (MkArena chunk chunk chunk_cap chunk_cap)).

Definition cobalt_arena_create (initial_size : Z) : M aworld unit :=
  cobalt_arena_create_with_allocator initial_size true.

Definition destroy_body (curr : Z) : M aworld (Z + unit) :=
  if curr =? NULL then mret (inr tt)
  else c <- load curr ;; free_node curr ;;; mret (inl (next c)).

Definition cobalt_arena_destroy (fuel : nat) : M aworld unit :=
  o <- get_obj ;;
  match o with
  | None => mret tt
  | Some a => loop fuel destroy_body (chunks a) ;;; set_obj None
  end.

(** [ptr = chunk->data + chunk->used; chunk->used += size; return ptr;] *)
Definition bump (p : Z) (c : arena_chunk) (size : Z) : M aworld Z :=
  store p (Chunk (next c) (capacity c) (wrap64 (used c + size))) ;;;
  mret (p + sizeof_chunk + used c).

(** The slow path: a new chunk behind the current one. *)
Definition grow (a : cobalt_arena) (aligned_size : Z) : M aworld Z :=
  let new_cap := align_up (if default_chunk_size a <? aligned_size then aligned_size
                           else default_chunk_size a) in
  let total := wrap64 (total_allocated a + new_cap) in
  if current a =? NULL then
    p <- alloc_chunk (Chunk (chunks a) new_cap aligned_size) ;;
    if p =? NULL then mret NULL
    else set_obj (Some (MkArena p p (default_chunk_size a) total)) ;;;
         mret (p + sizeof_chunk)
  else
    c <- load (current a) ;;
    p <- alloc_chunk (Chunk (next c) new_cap aligned_size) ;;
    if p =? NULL then mret NULL
    else store (current a) (Chunk p (capacity c) (used c)) ;;;
         set_obj (Some (MkArena p (chunks a) (default_chunk_size a) total)) ;;;
         mret (p + sizeof_chunk).

(** The reuse path, when the current chunk has a successor that is large
    enough. *)
Definition advance (a : cobalt_arena) (c : arena_chunk) (aligned_size : Z) : M aworld Z :=
  if next c =? NULL then grow a aligned_size
  else
    n <- load (next c) ;;
    if aligned_size <=? capacity n
    then set_obj (Some (MkArena (next c) (chunks a) (default_chunk_size a)
                          (total_allocated a))) ;;;
         bump (next c) n aligned_size
    else grow a aligned_size.

Definition cobalt_arena_alloc (size : Z) : M aworld Z :=
  o <- get_obj ;;
  match o with
  | None => mret NULL
  | Some a =>
      if size =? 0 then mret NULL
      else
        let aligned_size := align_up size in
        if current a =? NULL then grow a aligned_size
        else
          c <- load (current a) ;;
          if aligned_size <=? wrap64 (capacity c - used c)
          then bump (current a) c aligned_size
          else advance a c aligned_size
  end.

Definition reset_body (curr : Z) : M aworld (Z + unit) :=
  if curr =? NULL then mret (inr tt)
  else c <- load curr ;; store curr (Chunk (next c) (capacity c) 0) ;;; mret (inl (next c)).

Definition cobalt_arena_reset (fuel : nat) : M aworld unit :=
  o <- get_obj ;;
  match o with
  | None => mret tt
  | Some a =>
      loop fuel reset_body (chunks a) ;;;
      set_obj (Some (MkArena (chunks a) (chunks a) (default_chunk_size a) (total_allocated a)))
  end.

(** ** Chains of chunks *)

Record chunk_at := At { c_addr : Z; c_cap : Z; c_used : Z }.

Definition hd_addr (nxt : Z) (cs : list chunk_at) : Z :=
  match cs with [] => nxt | c :: _ => c_addr c end.

Fixpoint lseg (h : gmap Z arena_chunk) (cs : list chunk_at) (nxt : Z) : Prop :=
  match cs with
  | [] => True
  | c :: cs => h !! c_addr c = Some (Chunk (hd_addr nxt cs) (c_cap c) (c_used c)) ∧
               lseg h cs nxt
  end.

Lemma aseg_app h l1 l2 nxt :
  lseg h (l1 ++ l2) nxt ↔ lseg h l1 (hd_addr nxt l2) ∧ lseg h l2 nxt.
Proof.
  induction l1 as [|c l1 IH]; simpl; [tauto|]. rewrite IH. destruct l1; simpl; tauto.
Qed.

Lemma aseg_frame h h' cs nxt :
  lseg h cs nxt → (∀ c, c ∈ cs → h' !! c_addr c = h !! c_addr c) → lseg h' cs nxt.
Proof.
  induction cs as [|c cs IH]; simpl; [done|]. intros [H1 H2] Hf.
  split; [rewrite Hf; [done|set_solver]|]. apply IH; [done|set_solver].
Qed.

Lemma aseg_update h l1 c l2 nxt u :
  lseg h (l1 ++ c :: l2) nxt → NoDup (c_addr <$> l1 ++ c :: l2) →
  lseg (<[c_addr c := Chunk (hd_addr nxt l2) (c_cap c) u]> h)
    (l1 ++ At (c_addr c) (c_cap c) u :: l2) nxt.
Proof.
  rewrite fmap_app, fmap_cons. intros [H1 [H2 H3]]%aseg_app (N1 & N2 & [N3 _]%NoDup_cons)%NoDup_app.
  apply aseg_app. split; [|split; [simpl; by rewrite lookup_insert_eq|]].
  - eapply aseg_frame; [exact H1|]. intros d Hd. apply lookup_insert_ne.
    intros Heq. apply (N2 (c_addr d)); [by apply list_elem_of_fmap_2|]. rewrite <- Heq. left.
  - eapply aseg_frame; [exact H3|]. intros d Hd. apply lookup_insert_ne.
    intros Heq. apply N3. rewrite Heq. by apply list_elem_of_fmap_2.
Qed.

Lemma aseg_insert h l1 c l2 d :
  lseg h (l1 ++ c :: l2) NULL → NoDup (c_addr <$> l1 ++ c :: l2) →
  c_addr d ∉ c_addr <$> l1 ++ c :: l2 →
  lseg (<[c_addr c := Chunk (c_addr d) (c_cap c) (c_used c)]>
         (<[c_addr d := Chunk (hd_addr NULL l2) (c_cap d) (c_used d)]> h))
    ((l1 ++ [c]) ++ d :: l2) NULL.
Proof.
  intros Hs Hnd Hd. rewrite <- app_assoc. simpl.
  assert (lseg (<[c_addr d := Chunk (hd_addr NULL l2) (c_cap d) (c_used d)]> h)
            (l1 ++ c :: l2) NULL) as Hs'.
  { eapply aseg_frame; [done|]. intros e He. apply lookup_insert_ne. intros Heq.
    apply Hd. rewrite Heq. by apply list_elem_of_fmap_2. }
  rewrite fmap_app, fmap_cons in Hnd. apply NoDup_app in Hnd as (N1 & N2 & [N3 _]%NoDup_cons).
  rewrite fmap_app, fmap_cons in Hd.
  apply aseg_app in Hs' as [H1 [_ H3]]. apply aseg_app. split; [|simpl; split_and!].
  - eapply aseg_frame; [exact H1|]. intros e He. apply lookup_insert_ne.
    intros Heq. apply (N2 (c_addr e)); [by apply list_elem_of_fmap_2|]. rewrite <- Heq. left.
  - by rewrite lookup_insert_eq.
  - rewrite lookup_insert_ne by set_solver. by rewrite lookup_insert_eq.
  - eapply aseg_frame; [exact H3|]. intros e He. apply lookup_insert_ne.
    intros Heq. apply N3. rewrite Heq. by apply list_elem_of_fmap_2.
Qed.

(** ** Layouts: disjoint chunks and disjoint live allocations in them *)

(** The bytes of two address ranges do not overlap. *)
Definition apart (a b : Z * Z) : Prop := a.1 + a.2 ≤ b.1 ∨ b.1 + b.2 ≤ a.1.
Definition apart_all : list (Z * Z) → Prop := ForallOrdPairs apart.

Definition c_data (c : chunk_at) : Z := c_addr c + sizeof_chunk.
Definition extent (c : chunk_at) : Z * Z := (c_addr c, sizeof_chunk + c_cap c).

Record chunk_ok (b : Z) (c : chunk_at) : Prop := {
  ck_used : 0 ≤ c_used c ≤ c_cap c;
  ck_align : c_addr c mod 16 = 0 ∧ c_used c mod 16 = 0;
  ck_range : 1 ≤ c_addr c ∧ c_data c + c_cap c ≤ b
}.

Definition inside (c : chunk_at) (r : Z * Z) : Prop :=
  0 < r.2 ∧ r.1 mod 16 = 0 ∧ c_data c ≤ r.1 ∧ r.1 + r.2 ≤ c_data c + c_used c.

Record layout (b : Z) (cs : list chunk_at) (live : list (Z * Z)) : Prop := {
  ly_ok : Forall (chunk_ok b) cs;
  ly_apart : apart_all (extent <$> cs);
  ly_live : Forall (λ r, Exists (λ c, inside c r) cs) live;
  ly_disj : apart_all live
}.

Lemma apart_all_cons a l : apart_all (a :: l) ↔ Forall (apart a) l ∧ apart_all l.
Proof. split; [by inversion 1|]. intros [??]. by constructor. Qed.

Lemma apart_all_perm l l' : l ≡ₚ l' → apart_all l → apart_all l'.
Proof.
  induction 1 as [|x l l' Hp IH|x y l|]; [done| | |by auto].
  - rewrite !apart_all_cons. rewrite Hp at 1. naive_solver.
  - rewrite !apart_all_cons, !Forall_cons. intros ([Ha Hy] & Hx & Hl).
    by split_and!; [destruct Ha; [right|left]|..].
Qed.

Lemma layout_perm b cs cs' live : cs ≡ₚ cs' → layout b cs live → layout b cs' live.
Proof.
  intros Hp [H1 H2 H3 H4]. split; [by rewrite <- Hp| | |done].
  2: { eapply Forall_impl; [exact H3|]. intros r. simpl. by rewrite Hp. }
  apply (apart_all_perm (extent <$> cs)); [by rewrite Hp|done].
Qed.

Lemma layout_NoDup b cs live : layout b cs live → NoDup (c_addr <$> cs).
Proof.
  intros [H1 H2 _ _]. induction cs as [|c cs IH]; [by constructor|].
  simpl in H2. apply apart_all_cons in H2 as [Ha Hr]. apply Forall_cons in H1 as [Hc Hcs].
  simpl. constructor; [|by apply IH]. intros (d & Heq & Hd)%list_elem_of_fmap.
  rewrite Forall_fmap in Ha. rewrite Forall_forall in Ha, Hcs.
  specialize (Ha _ Hd). specialize (Hcs _ Hd). unfold apart, extent, sizeof_chunk in Ha. simpl in Ha.
  destruct (ck_used _ _ Hc), (ck_used _ _ Hcs). lia.
Qed.

(** A new chunk at the end of memory. *)
Lemma layout_new b b' cs live p cap :
  layout b cs live → p mod 16 = 0 → 1 ≤ b ≤ p → 0 ≤ cap → b' = p + sizeof_chunk + cap →
  layout b' (At p cap 0 :: cs) live.
Proof.
  intros [H1 H2 H3 H4] Hp Hb Hcap ->. split; [|simpl; apply apart_all_cons; split| |done].
  - constructor; [split; unfold c_data; simpl; by auto with lia|].
    eapply Forall_impl; [exact H1|]. intros c [? ? ?]. split; [done..|]. unfold sizeof_chunk. lia.
  - rewrite Forall_fmap. eapply Forall_impl; [exact H1|]. intros c [? ? [? Hr]].
    right. unfold extent, c_data in *. simpl in *. lia.
  - done.
  - eapply Forall_impl; [exact H3|]. intros r Hr. by constructor.
Qed.

(** Handing out the next [n] bytes of a chunk, [s] after rounding. *)
Lemma layout_bump b c cs live n s :
  layout b (c :: cs) live → 0 < n ≤ s → s mod 16 = 0 → c_used c + s ≤ c_cap c →
  layout b (At (c_addr c) (c_cap c) (c_used c + s) :: cs) ((c_data c + c_used c, n) :: live).
Proof.
  intros [H1 H2 H3 H4] Hn Hs Hfit. apply Forall_cons in H1 as [Hc Hcs].
  destruct Hc as [Hu [Ha1 Ha2] Hr].
  assert (Forall (λ r, apart (c_data c + c_used c, n) r) live) as Hfresh.
  { eapply Forall_impl; [exact H3|]. intros [r m] Hex. unfold apart. simpl.
    apply Exists_cons in Hex as [(_ & _ & _ & Hi)|(d & Hd & _ & _ & Hlo & Hi)%Exists_exists];
      simpl in *; [lia|].
    apply apart_all_cons in H2 as [Hap _]. rewrite Forall_fmap, Forall_forall in Hap.
    specialize (Hap d Hd). rewrite Forall_forall in Hcs. destruct (Hcs d Hd) as [Hud _ _].
    unfold apart, extent, c_data, sizeof_chunk in *. simpl in *. lia. }
  split; [| |constructor|by apply apart_all_cons].
  - constructor; [|done]. split; simpl; [lia| |done]. split; [done|].
    by rewrite Z.add_mod, Ha2, Hs.
  - done.
  - left. unfold inside, c_data; simpl. split_and!; [lia| |lia|lia].
    rewrite Z.add_mod, (Z.add_mod (c_addr c)), Ha1, Ha2 by done. done.
  - eapply Forall_impl; [exact H3|]. intros r [Hi|Hi]%Exists_cons; [left|by right].
    destruct Hi as (? & ? & ? & ?). unfold inside, c_data in *. simpl. split_and!; [done..|lia].
Qed.

Definition reset_chunk (c : chunk_at) : chunk_at := At (c_addr c) (c_cap c) 0.

Lemma layout_reset b cs live : layout b cs live → layout b (reset_chunk <$> cs) [].
Proof.
  intros [H1 H2 _ _]. split; [|by rewrite <- list_fmap_compose|constructor|constructor].
  rewrite Forall_fmap. eapply Forall_impl; [exact H1|]. intros c [? [? ?] ?].
  split; simpl; [lia|done|done].
Qed.

(** [live] are the address and size of what was handed out since the last
    reset.  The chunks before the current one and the current one may be in
    use, the ones behind it are empty. *)
Record arep (w : aworld) (live : list (Z * Z)) (a : cobalt_arena)
    (pre : list chunk_at) (cur : chunk_at) (post : list chunk_at) : Prop := {
  ar_obj : obj w = Some a;
  ar_current : current a = c_addr cur;
  ar_chunks : chunks a = hd_addr NULL (pre ++ cur :: post);
  ar_default : 0 ≤ default_chunk_size a < 2 ^ 64 - 32 ∧ default_chunk_size a mod 16 = 0;
  ar_brk : 1 ≤ brk w < 2 ^ 64;
  ar_seg : lseg (heap w) (pre ++ cur :: post) NULL;
  ar_dom : dom (heap w) = list_to_set (c_addr <$> pre ++ cur :: post);
  ar_layout : layout (brk w) (pre ++ cur :: post) live;
  ar_post : Forall (λ c, c_used c = 0) post
}.

Definition rep (w : aworld) (live : list (Z * Z)) : Prop :=
  ∃ a pre cur post, arep w live a pre cur post.

(** ** Rounding *)

Lemma land_shifted_ones x : 0 ≤ x < 2 ^ 64 →
  Z.land x (Z.shiftl (Z.ones 60) 4) = 16 * (x / 16).
Proof.
  intros Hx. rewrite (Z.mul_comm 16). change 16 with (2 ^ 4).
  rewrite <- Z.shiftr_div_pow2, <- Z.shiftl_mul_pow2 by lia.
  apply Z.bits_inj'. intros m Hm. rewrite Z.land_spec, !Z.shiftl_spec by lia.
  destruct (decide (m < 4)).
  { by rewrite !(Z.testbit_neg_r _ (m - 4)), andb_false_r by lia. }
  rewrite Z.shiftr_spec by lia. replace (m - 4 + 4) with m by lia.
  destruct (decide (m < 64)).
  - rewrite Z.ones_spec_low by lia. by rewrite andb_true_r.
  - rewrite (Z.bits_above_log2 x m); [done|lia|].
    destruct (decide (x = 0)) as [->|]; [simpl; lia|].
    apply Z.log2_lt_pow2; [lia|]. apply Z.lt_le_trans with (2 ^ 64); [lia|].
    apply Z.pow_le_mono_r; lia.
Qed.

Lemma align_up_spec n : 0 ≤ n → n + 15 < 2 ^ 64 →
  align_up n = 16 * ((n + 15) / 16) ∧ n ≤ align_up n < n + 16 ∧ align_up n mod 16 = 0.
Proof.
  intros Hn Hb. assert (align_up n = 16 * ((n + 15) / 16)) as ->.
  { unfold align_up, max_align. change (wrap64 (Z.lnot (16 - 1))) with (Z.shiftl (Z.ones 60) 4).
    replace (n + 16 - 1) with (n + 15) by lia. rewrite wrap64_small by lia.
    apply land_shifted_ones. lia. }
  pose proof (Z_div_mod_eq_full (n + 15) 16). pose proof (Z.mod_pos_bound (n + 15) 16).
  split_and!; [done|lia|lia|]. rewrite Z.mul_comm. by apply Z.mod_mul.
Qed.

Lemma align_up_id n : 0 ≤ n → n + 15 < 2 ^ 64 → n mod 16 = 0 → align_up n = n.
Proof.
  intros Hn Hb Hm. destruct (align_up_spec n Hn Hb) as (-> & ? & _).
  apply Z.mod_divide in Hm as [k ->]; [|done].
  rewrite (Z.mul_comm k), Z.add_comm, Z.mul_comm, (Z.mul_comm 16), Z.div_add by done. done.
Qed.

(** ** Behaviour *)

(** Memory is short for a block of [n] bytes. *)
Definition short (w : aworld) (n : Z) : Prop :=
  2 ^ 64 ≤ brk w + 15 + n ∨ ∃ k m, m ≤ n ∧ oracle w k m = false.

Lemma short_mono w n m : short w n → n ≤ m → short w m.
Proof. intros [?|(k & j & ? & ?)] ?; [left; lia|right]. exists k, j. split; [lia|done]. Qed.

Lemma wp_alloc_chunk c (w : aworld) Q :
  0 ≤ capacity c < 2 ^ 64 - 32 → 1 ≤ brk w →
  (∀ p w', p mod 16 = 0 → brk w ≤ p → brk w' = p + sizeof_chunk + capacity c →
     brk w' < 2 ^ 64 → obj w' = obj w → heap w' = <[p := c]> (heap w) → Q p w') →
  (short w (sizeof_chunk + capacity c) → Q NULL (with_request w)) →
  wp (alloc_chunk c) Q w.
Proof.
  intros Hc Hb H1 H2. unfold wp, alloc_chunk. unfold sizeof_chunk in *.
  rewrite wrap64_small by lia. set (p := 16 * ((brk w + 15) / 16)).
  assert (p mod 16 = 0 ∧ brk w ≤ p) as [Hp1 Hp2].
  { pose proof (Z_div_mod_eq_full (brk w + 15) 16). pose proof (Z.mod_pos_bound (brk w + 15) 16).
    unfold p. split; [|lia]. rewrite Z.mul_comm. by apply Z.mod_mul. }
  destruct (oracle _ _ _) eqn:Eo; simpl; [|apply H2; right; by eexists _, _].
  assert (p ≤ brk w + 15) as Hp3.
  { pose proof (Z_div_mod_eq_full (brk w + 15) 16). pose proof (Z.mod_pos_bound (brk w + 15) 16).
    unfold p. lia. }
  destruct (Z.ltb_spec (p + (32 + capacity c)) (2 ^ 64)); [|apply H2; left; lia].
  destruct (Z.ltb_spec (32 + capacity c) 32); [lia|]. apply H1; simpl; try done; lia.
Qed.

Section arep.
Context {w : aworld} {live : list (Z * Z)} {a : cobalt_arena}.
Context {pre : list chunk_at} {cur : chunk_at} {post : list chunk_at}.
Context (Hrep : arep w live a pre cur post).

Lemma arep_cur : chunk_ok (brk w) cur ∧
  heap w !! c_addr cur = Some (Chunk (hd_addr NULL post) (c_cap cur) (c_used cur)) ∧
  current a ≠ NULL.
Proof.
  pose proof (ar_seg _ _ _ _ _ _ Hrep) as [_ [Hc _]]%aseg_app.
  pose proof (ly_ok _ _ _ (ar_layout _ _ _ _ _ _ Hrep)) as [_ [Hk _]%Forall_cons]%Forall_app.
  split_and!; [done|done|]. rewrite (ar_current _ _ _ _ _ _ Hrep). destruct Hk. unfold NULL. lia.
Qed.

Lemma arep_fresh p : brk w ≤ p → heap w !! p = None ∧ p ∉ c_addr <$> pre ++ cur :: post.
Proof.
  intros Hp. assert (p ∉ c_addr <$> pre ++ cur :: post) as Hn.
  { intros (c & -> & Hc)%list_elem_of_fmap.
    pose proof (ly_ok _ _ _ (ar_layout _ _ _ _ _ _ Hrep)) as Hok.
    rewrite Forall_forall in Hok. destruct (Hok c Hc) as [? _ ?].
    unfold c_data, sizeof_chunk in *. lia. }
  split; [|done]. apply not_elem_of_dom. rewrite (ar_dom _ _ _ _ _ _ Hrep). by rewrite elem_of_list_to_set.
Qed.

(** Serving [n] bytes, rounded to [s], from the current chunk. *)
Lemma arep_bump n s :
  0 < n ≤ s → s mod 16 = 0 → c_used cur + s ≤ c_cap cur →
  arep (with_heap w (<[c_addr cur := Chunk (hd_addr NULL post) (c_cap cur) (c_used cur + s)]>
                       (heap w)))
    ((c_data cur + c_used cur, n) :: live) a pre
    (At (c_addr cur) (c_cap cur) (c_used cur + s)) post.
Proof.
  intros Hn Hs Hfit. pose proof (ar_layout _ _ _ _ _ _ Hrep) as Hl.
  pose proof (layout_NoDup _ _ _ Hl) as Hnd. destruct arep_cur as (_ & Hc & _).
  split; try apply Hrep; simpl.
  - rewrite (ar_chunks _ _ _ _ _ _ Hrep). by destruct pre.
  - apply aseg_update; [apply Hrep|done].
  - rewrite dom_insert_lookup_L by eauto. rewrite (ar_dom _ _ _ _ _ _ Hrep).
    by rewrite !fmap_app.
  - eapply layout_perm; [apply Permutation_middle|]. apply layout_bump; [|done..].
    eapply layout_perm; [|exact Hl]. symmetry. apply Permutation_middle.
Qed.
End arep.

(** The chunk an allocation of [n] bytes may ask for. *)
Definition alloc_bytes (w : aworld) (n : Z) : Z :=
  sizeof_chunk + 16 + n + match obj w with Some a => default_chunk_size a | None => 0 end.

(** What an allocation may do: fail and leave the live allocations alone, or
    hand out [n] bytes. *)
Definition served (w : aworld) (live : list (Z * Z)) (n : Z) (r : Z) (w' : aworld) : Prop :=
  (r = NULL ∧ rep w' live ∧ short w (alloc_bytes w n)) ∨ (r ≠ NULL ∧ rep w' ((r, n) :: live)).

Lemma wp_bump w live a pre cur post n s :
  arep w live a pre cur post → 0 < n ≤ s → s mod 16 = 0 → c_used cur + s ≤ c_cap cur →
  wp (bump (c_addr cur) (Chunk (hd_addr NULL post) (c_cap cur) (c_used cur)) s)
    (served w live n) w.
Proof.
  intros Hrep Hn Hs Hfit. destruct (arep_cur Hrep) as (Hk & Hc & _).
  destruct Hk as [? _ [? ?]]. pose proof (ar_brk _ _ _ _ _ _ Hrep).
  unfold bump, c_data, sizeof_chunk in *. cbn [used next capacity].
  rewrite wrap64_small by lia. wp_step. eapply wp_store; [done|]. wp_steps. right.
  split; [unfold NULL; lia|]. eexists _, _, _, _. by eapply arep_bump.
Qed.

Lemma wp_grow_chunk w live a pre cur post n s :
  arep w live a pre cur post → 0 < n ≤ s → s < n + 16 → s mod 16 = 0 → s + 64 ≤ 2 ^ 64 →
  wp (grow a s) (served w live n) w.
Proof.
  intros Hrep Hn Hn16 Hs Hb. destruct (arep_cur Hrep) as (Hk & Hc & Hcur).
  destruct (ar_default _ _ _ _ _ _ Hrep) as [Hd Hd16]. pose proof (ar_brk _ _ _ _ _ _ Hrep).
  unfold grow. set (m := if default_chunk_size a <? s then s else default_chunk_size a).
  assert (s ≤ m < 2 ^ 64 - 32 ∧ m mod 16 = 0) as [Hm Hm16].
  { unfold m. destruct (Z.ltb_spec (default_chunk_size a) s); lia. }
  rewrite (align_up_id m) by lia. rewrite (proj2 (Z.eqb_neq _ _) Hcur).
  rewrite (ar_current _ _ _ _ _ _ Hrep). wp_step. eapply wp_load; [done|]. wp_step.
  apply wp_alloc_chunk; simpl; [lia|lia| |].
  2: { intros Hsh. wp_steps. left. split_and!; [done| |].
       - eexists _, _, _, _. destruct Hrep. by split.
       - eapply short_mono; [exact Hsh|]. unfold alloc_bytes.
         rewrite (ar_obj _ _ _ _ _ _ Hrep). unfold m.
         destruct (Z.ltb_spec (default_chunk_size a) s); lia. }
  intros p w1 Hp16 Hpb Hb1 Hb1' Ho1 Hh1. unfold sizeof_chunk in *.
  rewrite (proj2 (Z.eqb_neq p NULL)) by (unfold NULL; lia).
  destruct (arep_fresh Hrep p Hpb) as [Hf Hnin].
  assert (p ≠ c_addr cur) as Hpc by (intros ->; congruence).
  wp_step. eapply wp_store; [by rewrite Hh1, lookup_insert_ne|].
  wp_steps. right. split; [unfold NULL; lia|].
  eexists _, (pre ++ [cur]), (At p m s), post. split; simpl; try done.
  - rewrite (ar_chunks _ _ _ _ _ _ Hrep). by destruct pre.
  - lia.
  - rewrite Hh1. apply (aseg_insert _ _ _ _ (At p m s)); [apply Hrep| |done].
    eapply layout_NoDup, Hrep.
  - rewrite Hh1, dom_insert_lookup_L.
    2: { exists (Chunk (hd_addr NULL post) (c_cap cur) (c_used cur)).
         by rewrite lookup_insert_ne. }
    rewrite dom_insert_L, (ar_dom _ _ _ _ _ _ Hrep), !fmap_app. simpl. set_solver.
  - eapply layout_perm; [apply (Permutation_middle (pre ++ [cur]))|]. rewrite <- app_assoc.
    assert (s = 0 + s) as -> by lia. replace (p + 32) with (c_data (At p m 0) + c_used (At p m 0))
      by (unfold c_data, sizeof_chunk; simpl; lia).
    apply (layout_bump _ (At p m 0)); simpl; [|lia..].
    eapply layout_new; [apply Hrep|done|lia|lia|done].
  - apply Hrep.
Qed.

(** Moving on to the next chunk, which is empty. *)
Lemma arep_advance w live a pre cur d post :
  arep w live a pre cur (d :: post) →
  arep (with_obj w (Some (MkArena (c_addr d) (chunks a) (default_chunk_size a)
                            (total_allocated a))))
    live (MkArena (c_addr d) (chunks a) (default_chunk_size a) (total_allocated a))
    (pre ++ [cur]) d post.
Proof.
  intros []. split; simpl; rewrite <- ?app_assoc; simpl; try done. by apply Forall_cons in ar_post0 as [_ ?].
Qed.

Lemma wp_advance_chunk w live a pre cur post n s :
  arep w live a pre cur post → 0 < n ≤ s → s < n + 16 → s mod 16 = 0 → s + 64 ≤ 2 ^ 64 →
  wp (advance a (Chunk (hd_addr NULL post) (c_cap cur) (c_used cur)) s) (served w live n) w.
Proof.
  intros Hrep Hn Hn16 Hs Hb. unfold advance. cbn [next].
  destruct post as [|d post]; simpl; [by eapply wp_grow_chunk|].
  pose proof (arep_advance _ _ _ _ _ _ _ Hrep) as Hadv.
  destruct (arep_cur Hadv) as (Hk & Hd & Hnz). simpl in Hnz, Hd.
  rewrite (proj2 (Z.eqb_neq _ _) Hnz). wp_step. eapply wp_load; [done|]. cbn [capacity].
  destruct (Z.leb_spec s (c_cap d)); [|by eapply wp_grow_chunk]. wp_steps.
  eapply wp_mono; [eapply wp_bump; [exact Hadv|done..|]|].
  2: { intros r w' [(-> & ? & Hsh)|?]; [left|by right]. split_and!; [done..|].
       unfold short, alloc_bytes in *. simpl in *. by rewrite (ar_obj _ _ _ _ _ _ Hrep). }
  pose proof (ar_post _ _ _ _ _ _ Hrep) as [-> _]%Forall_cons. lia.
Qed.

Lemma wp_arena_alloc w live size :
  rep w live → 0 < size ≤ 2 ^ 64 - 128 → wp (cobalt_arena_alloc size) (served w live size) w.
Proof.
  intros (a & pre & cur & post & Hrep) Hsize. unfold cobalt_arena_alloc. wp_steps.
  rewrite (ar_obj _ _ _ _ _ _ Hrep), (proj2 (Z.eqb_neq size 0)) by lia.
  destruct (arep_cur Hrep) as ([? _ [? ?]] & Hc & Hn). pose proof (ar_brk _ _ _ _ _ _ Hrep).
  destruct (align_up_spec size ltac:(lia) ltac:(lia)) as (_ & Hal & Hmod).
  rewrite (proj2 (Z.eqb_neq _ _) Hn), (ar_current _ _ _ _ _ _ Hrep).
  wp_step. eapply wp_load; [done|]. cbn [capacity used].
  unfold c_data, sizeof_chunk in *. rewrite wrap64_small by lia.
  destruct (Z.leb_spec (align_up size) (c_cap cur - c_used cur)).
  - eapply wp_bump; [done|lia|done|lia].
  - eapply wp_advance_chunk; [done|lia|lia|done|lia].
Qed.

(** What [rep] says of the live allocations. *)
Lemma rep_live w r n live :
  rep w ((r, n) :: live) → r mod 16 = 0 ∧ Forall (apart (r, n)) live.
Proof.
  intros (a & pre & cur & post & [? ? ? ? ? ? ? [_ _ Hl Hd] _]).
  apply apart_all_cons in Hd as [Ha _]. split; [|done].
  by apply Forall_cons in Hl as [(c & _ & _ & ? & _)%Exists_exists _].
Qed.

Lemma wp_arena_create orc n :
  0 ≤ n ≤ 2 ^ 64 - 128 →
  wp (cobalt_arena_create n) (λ _ w, obj w = None ∨ rep w []) (world0 orc).
Proof.
  intros Hn. unfold cobalt_arena_create, cobalt_arena_create_with_allocator. simpl. wp_step.
  apply wp_request; intros _; wp_simpl; [|wp_steps; by left].
  set (m := if 0 <? n then n else COBALT_ARENA_MIN_CHUNK_SIZE).
  assert (0 ≤ m ≤ 2 ^ 64 - 128) as Hm.
  { unfold m, COBALT_ARENA_MIN_CHUNK_SIZE. destruct (Z.ltb_spec 0 n); lia. }
  destruct (align_up_spec m ltac:(lia) ltac:(lia)) as (_ & Hal & Hmod).
  wp_step. apply wp_alloc_chunk; simpl; [lia|lia| |intros _; wp_steps; by left].
  intros p w1 Hp Hb1 Hb2 Hb3 Ho1 Hh1. unfold sizeof_chunk in *.
  rewrite (proj2 (Z.eqb_neq p NULL)) by (unfold NULL; lia). wp_steps. right.
  eexists _, [], (At p (align_up m) 0), []. split; simpl; try done; try lia.
  - simpl. split; [lia|done].
  - rewrite Hh1. by rewrite lookup_insert_eq.
  - rewrite Hh1, dom_insert_L, dom_empty_L. set_solver.
  - eapply (layout_new 1); [|done|lia|lia|done].
    split; [constructor|constructor|constructor|constructor].
Qed.

(** ** Reset and destruction: the loops over the chunks *)

Lemma wp_reset_loop cs : ∀ fuel (w : aworld) Q,
  (length cs < fuel)%nat → lseg (heap w) cs NULL → NoDup (c_addr <$> cs) →
  (∀ c, c ∈ cs → c_addr c ≠ NULL) →
  (∀ h, lseg h (reset_chunk <$> cs) NULL → dom h = dom (heap w) →
     (∀ p, p ∉ c_addr <$> cs → h !! p = heap w !! p) → Q tt (with_heap w h)) →
  wp (loop fuel reset_body (hd_addr NULL cs)) Q w.
Proof.
  induction cs as [|c cs IH]; intros [|fuel] w Q Hf Hs Hnd Hn HQ; simpl in Hf; try lia; simpl.
  { apply wp_bind. unfold reset_body. simpl. wp_steps.
    pose proof (HQ (heap w)) as H. destruct w. by apply H. }
  destruct Hs as [Hc Hs]. simpl in Hnd. apply NoDup_cons in Hnd as [Hc' Hnd].
  apply wp_bind. unfold reset_body at 1. rewrite (proj2 (Z.eqb_neq _ _)) by (apply Hn; left).
  wp_step. eapply wp_load; [done|]. wp_step. eapply wp_store; [done|]. wp_steps. cbn [next capacity].
  apply IH; [lia| |done|set_solver|].
  - eapply aseg_frame; [done|]. intros d Hd. simpl. apply lookup_insert_ne. intros Heq.
    apply Hc'. rewrite Heq. by apply list_elem_of_fmap_2.
  - intros h Hh Hd Hfr. simpl in *. apply HQ.
    + simpl. split; [|done]. rewrite Hfr by done. rewrite lookup_insert_eq. simpl.
      destruct cs; done.
    + rewrite Hd, dom_insert_lookup_L; eauto.
    + intros p Hp. rewrite Hfr by set_solver. apply lookup_insert_ne. set_solver.
Qed.

Lemma wp_arena_reset w live fuel :
  rep w live → (size (heap w) < fuel)%nat → wp (cobalt_arena_reset fuel) (λ _ w', rep w' []) w.
Proof.
  intros (a & pre & cur & post & Hrep) Hfuel. unfold cobalt_arena_reset. wp_steps.
  rewrite (ar_obj _ _ _ _ _ _ Hrep), (ar_chunks _ _ _ _ _ _ Hrep).
  pose proof (ar_layout _ _ _ _ _ _ Hrep) as Hl. pose proof (layout_NoDup _ _ _ Hl) as Hnd.
  wp_step. apply wp_reset_loop; [|apply Hrep|done| |].
  - rewrite <- size_dom, (ar_dom _ _ _ _ _ _ Hrep), size_list_to_set in Hfuel by done.
    by rewrite length_fmap in Hfuel.
  - intros c Hc. pose proof (ly_ok _ _ _ Hl) as Hok. rewrite Forall_forall in Hok.
    destruct (Hok c Hc) as [_ _ [? _]]. unfold NULL. lia.
  - intros h Hs Hd _. wp_steps. pose proof (ar_dom _ _ _ _ _ _ Hrep) as Hdom.
    destruct (pre ++ cur :: post) as [|c0 cs] eqn:E; [by destruct pre|].
    eexists _, [], (reset_chunk c0), (reset_chunk <$> cs). split; simpl; try done.
    + apply Hrep.
    + apply Hrep.
    + rewrite Hd, Hdom. simpl. by rewrite <- list_fmap_compose.
    + apply (layout_reset _ (c0 :: cs) live). exact Hl.
    + rewrite Forall_fmap. apply Forall_forall. by intros.
Qed.

Lemma wp_destroy_chunks cs : ∀ fuel (w : aworld) Q,
  (length cs < fuel)%nat → lseg (heap w) cs NULL → NoDup (c_addr <$> cs) →
  (∀ c, c ∈ cs → c_addr c ≠ NULL) →
  (∀ h, dom h = dom (heap w) ∖ list_to_set (c_addr <$> cs) → Q tt (with_heap w h)) →
  wp (loop fuel destroy_body (hd_addr NULL cs)) Q w.
Proof.
  induction cs as [|c cs IH]; intros [|fuel] w Q Hf Hs Hnd Hn HQ; simpl in Hf; try lia; simpl.
  { apply wp_bind. unfold destroy_body. simpl. wp_steps.
    pose proof (HQ (heap w)) as H. destruct w. apply H. simpl. set_solver. }
  destruct Hs as [Hc Hs]. simpl in Hnd. apply NoDup_cons in Hnd as [Hc' Hnd].
  apply wp_bind. unfold destroy_body at 1. rewrite (proj2 (Z.eqb_neq _ _)) by (apply Hn; left).
  wp_step. eapply wp_load; [done|]. wp_step. eapply wp_free_node; [apply Hn; left|done|].
  wp_steps. cbn [next]. apply IH; [lia| |done|set_solver|].
  - eapply aseg_frame; [done|]. intros d Hd. simpl. apply lookup_delete_ne. intros Heq.
    apply Hc'. rewrite Heq. by apply list_elem_of_fmap_2.
  - intros h Hd. simpl in *. apply HQ. rewrite Hd, dom_delete_L. set_solver.
Qed.

Lemma wp_arena_destroy w live fuel :
  rep w live → (size (heap w) < fuel)%nat →
  wp (cobalt_arena_destroy fuel) (λ _ w', obj w' = None ∧ heap w' = ∅) w.
Proof.
  intros (a & pre & cur & post & Hrep) Hfuel. unfold cobalt_arena_destroy. wp_steps.
  rewrite (ar_obj _ _ _ _ _ _ Hrep), (ar_chunks _ _ _ _ _ _ Hrep).
  pose proof (ar_layout _ _ _ _ _ _ Hrep) as Hl. pose proof (layout_NoDup _ _ _ Hl) as Hnd.
  wp_step. apply wp_destroy_chunks; [|apply Hrep|done| |].
  - rewrite <- size_dom, (ar_dom _ _ _ _ _ _ Hrep), size_list_to_set in Hfuel by done.
    by rewrite length_fmap in Hfuel.
  - intros c Hc. pose proof (ly_ok _ _ _ Hl) as Hok. rewrite Forall_forall in Hok.
    destruct (Hok c Hc) as [_ _ [? _]]. unfold NULL. lia.
  - intros h Hd. wp_steps. split; [done|]. simpl. apply dom_empty_inv_L.
    rewrite Hd, (ar_dom _ _ _ _ _ _ Hrep). set_solver.
Qed.

(** ** The call interface *)

Inductive aop : Set := AAlloc (n : Z) | AReset.

(** The loop over the chunks needs as much fuel as there are chunks. *)
Definition run (o : aop) : M aworld Z :=
  match o with
  | AAlloc n => cobalt_arena_alloc n
  | AReset => λ w, (cobalt_arena_reset (S (size (heap w))) ;;; mret 0) w
  end.

Definition op_ok (o : aop) : Prop :=
  match o with AAlloc n => 0 < n ≤ 2 ^ 64 - 128 | AReset => True end.

(** The abstract state is what the user may use: address and size of the
    allocations since the last reset. *)
Definition spec (o : aop) (w : aworld) (live : list (Z * Z)) (r : Z) (live' : list (Z * Z)) : Prop :=
  match o with
  | AAlloc n => (r = NULL ∧ live' = live ∧ short w (alloc_bytes w n)) ∨
      (r ≠ NULL ∧ r mod 16 = 0 ∧ Forall (apart (r, n)) live ∧ live' = (r, n) :: live)
  | AReset => live' = []
  end.

Lemma arena_refines : refines run spec rep op_ok.
Proof.
  intros o w live Hrep Hok. destruct o as [n|]; simpl in *.
  - eapply wp_mono; [by apply wp_arena_alloc|]. intros r w' [(-> & Hr & Hs)|[Hn Hr]].
    + exists live. by eauto.
    + destruct (rep_live _ _ _ _ Hr). exists ((r, n) :: live). by eauto 10.
  - unfold wp. change (wp (cobalt_arena_reset (S (size (heap w))) ;;; mret 0)
      (λ _ w', ∃ x', x' = [] ∧ rep w' x') w). wp_step.
    eapply wp_mono; [eapply wp_arena_reset; [done|lia]|]. intros [] w' Hr. wp_steps. eauto.
Qed.

(** C28: An arena from creation to destruction.  If the creation succeeds, every
    allocation of any sequence of allocations and resets returns NULL, only
    when memory is short, or an address aligned to 16 bytes whose bytes overlap
    no allocation made since the last reset; allocations are never moved; and
    destroying the arena frees every chunk. *)
Theorem arena_session orc n os :
  0 ≤ n ≤ 2 ^ 64 - 128 → Forall op_ok os →
  wp (cobalt_arena_create n) (λ _ w, obj w = None ∨
    behaves run spec os w [] (λ w' _,
      wp (cobalt_arena_destroy (S (size (heap w')))) (λ _ w'', obj w'' = None ∧ heap w'' = ∅) w'))
    (world0 orc).
Proof.
  intros Hn Hos. eapply wp_mono; [by apply wp_arena_create|]. intros [] w [?|Hrep]; [by left|right].
  eapply (refines_all _ _ _ _ arena_refines); [done|done|]. intros w' live Hr.
  eapply wp_arena_destroy; [done|lia].
Qed.

Lemma arena_session_witness :
  wp (cobalt_arena_create 64) (λ _ w, obj w = None ∨
    behaves run spec [AAlloc 10; AAlloc 100; AReset; AAlloc 1] w [] (λ w' _,
      wp (cobalt_arena_destroy (S (size (heap w')))) (λ _ w'', obj w'' = None ∧ heap w'' = ∅) w'))
    (world0 (λ _ _, true)).
Proof. apply arena_session; [lia|]. repeat constructor; simpl; lia. Defined.

(** C38: Rounding the size up wraps around: for every size within 15 bytes of
    [SIZE_MAX] the arena reserves nothing and returns a non-null pointer, the
    same one each time. *)
Theorem arena_alloc_huge w live size :
  rep w live → 2 ^ 64 - 16 < size < 2 ^ 64 →
  wp (p <- cobalt_arena_alloc size ;; q <- cobalt_arena_alloc size ;; mret (p, q))
    (λ r _, r.1 ≠ NULL ∧ r.2 = r.1) w.
Proof.
  intros (a & pre & cur & post & Hrep) Hs.
  destruct (arep_cur Hrep) as ([Hu _ [Hr1 Hr2]] & Hc & Hn). pose proof (ar_brk _ _ _ _ _ _ Hrep).
  assert (align_up size = 0) as Hal.
  { unfold align_up, max_align, wrap64.
    replace (size + 16 - 1) with (size + 15 - 2 ^ 64 + 1 * 2 ^ 64) by lia.
    rewrite Z_mod_plus_full, Z.mod_small by lia.
    assert (size + 15 - 2 ^ 64 ∈ seqZ 0 15) as Hin by (apply elem_of_seqZ; lia).
    revert Hin. generalize (size + 15 - 2 ^ 64). intros z Hz.
    repeat (apply elem_of_cons in Hz as [->|Hz]; [reflexivity|]). by apply not_elem_of_nil in Hz. }
  unfold c_data, sizeof_chunk in *.
  assert (∀ w', obj w' = Some a → heap w' = heap w →
    wp (cobalt_arena_alloc size) (λ r w'', r = c_addr cur + 32 + c_used cur ∧
      obj w'' = Some a ∧ heap w'' = heap w) w') as Halloc.
  { intros w' Ho Hh. unfold cobalt_arena_alloc. wp_steps. rewrite Ho, Hal.
    rewrite (proj2 (Z.eqb_neq size 0)), (proj2 (Z.eqb_neq _ _) Hn), (ar_current _ _ _ _ _ _ Hrep) by lia.
    wp_step. eapply wp_load; [by rewrite Hh|]. cbn [capacity used].
    rewrite (wrap64_small (_ - _)), (proj2 (Z.leb_le _ _)) by lia. unfold bump. cbn [next capacity used].
    rewrite Z.add_0_r, wrap64_small by lia. wp_step. eapply wp_store; [by rewrite Hh|]. wp_steps.
    split_and!; [done|done|]. simpl. rewrite Hh. by apply insert_id. }
  wp_step. eapply wp_mono; [apply Halloc; [apply Hrep|done]|]. intros p w1 (-> & Ho1 & Hh1). wp_step.
  eapply wp_mono; [by apply Halloc|]. intros q w2 (-> & _ & _). wp_steps. simpl.
  split; [unfold NULL; lia|done].
Qed.

Definition small_arena : aworld :=
  match cobalt_arena_create 64 (world0 (λ _ _, true)) with
  | Ret _ w => w
  | Fault _ => world0 (λ _ _, true)
  end.

Lemma small_arena_rep : rep small_arena [].
Proof.
  destruct (proj1 (wp_run _ _ _) (wp_arena_create (λ _ _, true) 64 ltac:(lia))) as (u & w & E & Hw).
  vm_compute in E. injection E as <- <-. by destruct Hw as [[=]|Hw].
Qed.

Lemma arena_alloc_huge_witness :
  wp (p <- cobalt_arena_alloc (2 ^ 64 - 1) ;; q <- cobalt_arena_alloc (2 ^ 64 - 1) ;; mret (p, q))
    (λ r _, r.1 ≠ NULL ∧ r.2 = r.1) small_arena.
Proof. apply (arena_alloc_huge _ []); [apply small_arena_rep|lia]. Defined.

End Arena.
