(* ===== verification/Buffer.v ===== *)
(** * The stream buffer of src/src/container/buffer.c

    One array with three zones: prependable, readable and writable bytes,
    delimited by [read_pos] and [write_pos].  A byte of a fresh block is
    [None] until it is written. *)
From S2P Require Import Prelude World.

Module Buffer.

Definition COBALT_BUFFER_DEFAULT_INITIAL_CAPACITY : Z := 1024.
Definition COBALT_BUFFER_DEFAULT_PREPEND_SIZE : Z := 8.
Definition sizeof_buffer : Z := 48.

Abbreviation byte := (option Z).

Record cobalt_buffer := MkBuffer {
  data : list byte;
  capacity : Z;
  read_pos : Z;
  write_pos : Z;
  prepend_size : Z;
  has_realloc : bool
}.

Abbreviation bworld := (world cobalt_buffer unit).

(** ** Memory of the buffer *)

Definition slice (off len : Z) (d : list byte) : list byte :=
  take (Z.to_nat len) (drop (Z.to_nat off) d).
Definition splice (off : Z) (bs d : list byte) : list byte :=
  take (Z.to_nat off) d ++ bs ++ drop (Z.to_nat off + length bs) d.

Definition in_bounds (off len : Z) (d : list byte) : bool :=
  (0 <=? off) && (0 <=? len) && (off + len <=? Z.of_nat (length d)).

(** [memcpy] out of and into the array: past its end is undefined. *)
Definition copy_out (b : cobalt_buffer) (off len : Z) : M bworld (list byte) :=
  if in_bounds off len (data b) then mret (slice off len (data b)) else mfail BadAccess.
Definition copy_in (b : cobalt_buffer) (off : Z) (bs : list byte) : M bworld (list byte) :=
  if in_bounds off (Z.of_nat (length bs)) (data b) then mret (splice off bs (data b))
  else mfail BadAccess.

Definition with_data (b : cobalt_buffer) (d : list byte) (rp wp : Z) : cobalt_buffer :=
  MkBuffer d (capacity b) rp wp (prepend_size b) (has_realloc b).

(** ** Operations *)

Definition cobalt_buffer_create_with_alloc (initial_capacity prepend : Z) (realloc : bool)
    : M bworld unit :=
  let initial_capacity := if initial_capacity =? 0
                          then COBALT_BUFFER_DEFAULT_INITIAL_CAPACITY else initial_capacity in
  let prepend := if prepend =? 0 then COBALT_BUFFER_DEFAULT_PREPEND_SIZE else prepend in
  ok <- request sizeof_buffer ;;
  if negb ok then set_obj None
  else
    let total_cap := wrap64 (initial_capacity + prepend) in
    ok <- request total_cap ;;
    if negb ok then set_obj None
    else set_obj (Some (MkBuffer (replicate (Z.to_nat total_cap) None) total_cap prepend prepend
                          prepend realloc)).

(** The system allocator has [realloc]. *)
Definition cobalt_buffer_create (initial_capacity : Z) : M bworld unit :=
  cobalt_buffer_create_with_alloc initial_capacity COBALT_BUFFER_DEFAULT_PREPEND_SIZE true.

Definition cobalt_buffer_destroy : M bworld unit :=
  o <- get_obj ;; match o with None => mret tt | Some _ => set_obj None end.

Definition readable (b : cobalt_buffer) : Z := wrap64 (write_pos b - read_pos b).
Definition writable (b : cobalt_buffer) : Z := wrap64 (capacity b - write_pos b).

Definition cobalt_buffer_readable_bytes : M bworld Z :=
  o <- get_obj ;; mret (match o with Some b => readable b | None => 0 end).
Definition cobalt_buffer_writable_bytes : M bworld Z :=
  o <- get_obj ;; mret (match o with Some b => writable b | None => 0 end).
Definition cobalt_buffer_prependable_bytes : M bworld Z :=
  o <- get_obj ;; mret (match o with Some b => read_pos b | None => 0 end).

(** The bytes visible behind the returned pointer; [None] for NULL. *)
Definition cobalt_buffer_peek : M bworld (option (list byte)) :=
  o <- get_obj ;;
  match o with
  | None => mret None
  | Some b => if read_pos b <? write_pos b
              then mret (Some (slice (read_pos b) (readable b) (data b))) else mret None
  end.

Definition cobalt_buffer_retrieve_all : M bworld unit :=
  o <- get_obj ;;
  match o with
  | None => mret tt
  | Some b => set_obj (Some (with_data b (data b) (prepend_size b) (prepend_size b)))
  end.

Definition cobalt_buffer_retrieve (len : Z) : M bworld Z :=
  o <- get_obj ;;
  match o with
  | None => mret (-1)
  | Some b =>
      if readable b <? len then mret (-1)
      else if len <? readable b
      then set_obj (Some (with_data b (data b) (wrap64 (read_pos b + len)) (write_pos b))) ;;;
           mret 0
      else cobalt_buffer_retrieve_all ;;; mret 0
  end.

(** [dst] says whether the destination pointer is not NULL. *)
Definition cobalt_buffer_read (dst : bool) (len : Z) : M bworld (Z * list byte) :=
  o <- get_obj ;;
  match o with
  | None => mret (-1, [])
  | Some b =>
      if negb dst || (readable b <? len) then mret (-1, [])
      else
        bs <- copy_out b (read_pos b) len ;;
        cobalt_buffer_retrieve len ;;;
        mret (0, bs)
  end.

Definition grown_capacity (b : cobalt_buffer) (len : Z) : Z :=
  let new_cap := if SIZE_MAX / 2 <? capacity b then SIZE_MAX else wrap64 (capacity b * 2) in
  let needed := wrap64 (write_pos b + len) in
  if new_cap <? needed
  then if wrap64 (SIZE_MAX - capacity b) <? needed then SIZE_MAX else wrap64 (needed + capacity b)
  else new_cap.

(** [realloc], or a new block, [memcpy] of [capacity] bytes and [free]. *)
Definition regrow (b : cobalt_buffer) (new_cap : Z) : M bworld (option (list byte)) :=
  ok <- request new_cap ;;
  if negb ok then mret None
  else
    let fresh := replicate (Z.to_nat new_cap) None in
    if has_realloc b
    then mret (Some (take (Z.to_nat new_cap) (data b) ++ drop (length (data b)) fresh))
    else if in_bounds 0 (capacity b) (data b) && in_bounds 0 (capacity b) fresh
    then mret (Some (splice 0 (slice 0 (capacity b) (data b)) fresh))
    else mfail BadAccess.

Definition cobalt_buffer_ensure_writable (len : Z) : M bworld Z :=
  o <- get_obj ;;
  match o with
  | None => mret (-1)
  | Some b =>
      if len <=? writable b then mret 0
      else
        let rd := readable b in
        let discardable := if prepend_size b <? read_pos b
                           then wrap64 (read_pos b - prepend_size b) else 0 in
        if len <=? wrap64 (discardable + writable b) then
          bs <- copy_out b (read_pos b) rd ;;
          d <- copy_in b (prepend_size b) bs ;;
          set_obj (Some (with_data b d (prepend_size b) (wrap64 (prepend_size b + rd)))) ;;;
          mret 0
        else
          let new_cap := grown_capacity b len in
          d <- regrow b new_cap ;;
          match d with
          | None => mret (-1)
          | Some d => set_obj (Some (MkBuffer d new_cap (read_pos b) (write_pos b)
                                       (prepend_size b) (has_realloc b))) ;;;
                      mret 0
          end
  end.

(** The source object: [None] for a NULL pointer with [len > 0]. *)
Definition cobalt_buffer_append (src : option (list byte)) : M bworld Z :=
  o <- get_obj ;;
  match o, src with
  | None, _ | _, None => mret (-1)
  | Some _, Some bs =>
      let len := Z.of_nat (length bs) in
      if len =? 0 then mret 0
      else
        r <- cobalt_buffer_ensure_writable len ;;
        if negb (r =? 0) then mret (-1)
        else
          b <- deref ;;
          d <- copy_in b (write_pos b) bs ;;
          set_obj (Some (with_data b d (read_pos b) (wrap64 (write_pos b + len)))) ;;;
          mret 0
  end.

Definition cobalt_buffer_prepend (src : option (list byte)) : M bworld Z :=
  o <- get_obj ;;
  match o, src with
  | None, _ | _, None => mret (-1)
  | Some b, Some bs =>
      let len := Z.of_nat (length bs) in
      if len =? 0 then mret 0
      else if read_pos b <? len then mret (-1)
      else
        d <- copy_in b (wrap64 (read_pos b - len)) bs ;;
        set_obj (Some (with_data b d (wrap64 (read_pos b - len)) (write_pos b))) ;;;
        mret 0
  end.

(** ** File descriptors: the system calls are parameters *)

Definition EINVAL : Z := 22.
Definition ENOMEM : Z := 12.
Definition sizeof_stack_buf : Z := 65536.

(** [readv] on segments of [n] bytes in all: the bytes it stored, or
    [errno]; [write] of the given bytes: how many it took, or [errno]. *)
Section fd.
Context (readv : Z → list Z + Z) (write : list byte → Z + Z).

(** The result is the return value and [*out_err]. *)
Definition cobalt_buffer_read_fd (fd : Z) : M bworld (Z * option Z) :=
  o <- get_obj ;;
  match o with
  | None => mret (-1, Some EINVAL)
  | Some b =>
      if fd <? 0 then mret (-1, Some EINVAL)
      else
        let wr := writable b in
        let total := if wr <? sizeof_stack_buf then wr + sizeof_stack_buf else wr in
        match readv total with
        | inr errno => mret (-1, Some errno)
        | inl bytes =>
            let n := Z.of_nat (length bytes) in
            let bs := Some <$> bytes in
            d <- copy_in b (write_pos b) (take (Z.to_nat wr) bs) ;;
            if n <=? wr then
              set_obj (Some (with_data b d (read_pos b) (wrap64 (write_pos b + n)))) ;;;
              mret (n, None)
            else
              set_obj (Some (with_data b d (read_pos b) (capacity b))) ;;;
              r <- cobalt_buffer_append (Some (drop (Z.to_nat wr) bs)) ;;
              if negb (r =? 0) then mret (-1, Some ENOMEM) else mret (n, None)
        end
  end.

Definition cobalt_buffer_write_fd (fd : Z) : M bworld (Z * option Z) :=
  o <- get_obj ;;
  match o with
  | None => mret (-1, Some EINVAL)
  | Some b =>
      if fd <? 0 then mret (-1, Some EINVAL)
      else if readable b =? 0 then mret (0, None)
      else
        bs <- copy_out b (read_pos b) (readable b) ;;
        match write bs with
        | inr errno => mret (-1, Some errno)
        | inl n => cobalt_buffer_retrieve n ;;; mret (n, None)
        end
  end.
End fd.

(** ** The abstract buffer: the readable bytes *)

Record buf_ok (b : cobalt_buffer) (xs : list Z) : Prop := {
  bo_len : Z.of_nat (length (data b)) = capacity b;
  bo_cap : capacity b < 2 ^ 63;
  bo_pre : 0 ≤ prepend_size b ≤ capacity b;
  bo_write : write_pos b = read_pos b + Z.of_nat (length xs);
  bo_bytes : ∃ pre post, data b = pre ++ (Some <$> xs) ++ post ∧
               Z.of_nat (length pre) = read_pos b
}.

Definition rep (w : bworld) (xs : list Z) : Prop :=
  (∃ b, obj w = Some b ∧ buf_ok b xs) ∧ sane (oracle w).

Lemma slice_middle pre mid post off len :
  Z.of_nat (length pre) = off → Z.of_nat (length mid) = len →
  slice off len (pre ++ mid ++ post) = mid.
Proof.
  intros <- <-. unfold slice. by rewrite !Nat2Z.id, drop_app_length, take_app_length.
Qed.

Lemma splice_middle pre mid post bs off :
  Z.of_nat (length pre) = off → length mid = length bs →
  splice off bs (pre ++ mid ++ post) = pre ++ bs ++ post.
Proof.
  intros <- Hl. unfold splice. rewrite Nat2Z.id, take_app_length, <- Hl.
  rewrite <- drop_drop, drop_app_length. by rewrite drop_app_length.
Qed.

(** A range of the array, as a decomposition of it. *)
Lemma split_range (d : list byte) off len :
  in_bounds off len d = true →
  ∃ pre mid post, d = pre ++ mid ++ post ∧ Z.of_nat (length pre) = off ∧
    Z.of_nat (length mid) = len.
Proof.
  unfold in_bounds. rewrite !andb_true_iff, !Z.leb_le. intros [[H1 H2] H3].
  exists (take (Z.to_nat off) d), (slice off len d), (drop (Z.to_nat off + Z.to_nat len) d).
  unfold slice. split_and!; [by rewrite <- drop_drop, !take_drop|rewrite length_take; lia|].
  rewrite length_take, length_drop. lia.
Qed.

Lemma in_bounds_true off len (d : list byte) :
  0 ≤ off → 0 ≤ len → off + len ≤ Z.of_nat (length d) → in_bounds off len d = true.
Proof. intros. unfold in_bounds. rewrite !(proj2 (Z.leb_le _ _)) by lia. done. Qed.

Lemma wp_copy_out b pre mid post off Q w :
  data b = pre ++ mid ++ post → Z.of_nat (length pre) = off →
  Q mid w → wp (copy_out b off (Z.of_nat (length mid))) Q w.
Proof.
  intros Hd Ho HQ. unfold copy_out. rewrite in_bounds_true.
  - rewrite Hd, slice_middle by done. by apply wp_ret.
  - lia.
  - lia.
  - rewrite Hd, !length_app. lia.
Qed.

Lemma wp_copy_in b pre mid post bs off Q w :
  data b = pre ++ mid ++ post → Z.of_nat (length pre) = off → length mid = length bs →
  Q (pre ++ bs ++ post) w → wp (copy_in b off bs) Q w.
Proof.
  intros Hd Ho Hl HQ. unfold copy_in. rewrite in_bounds_true.
  - rewrite Hd, splice_middle by done. by apply wp_ret.
  - lia.
  - lia.
  - rewrite Hd, !length_app. lia.
Qed.

(** Positions and sizes never wrap. *)
Lemma buf_bounds b xs : buf_ok b xs →
  0 ≤ read_pos b ≤ write_pos b ∧ write_pos b ≤ capacity b < 2 ^ 63 ∧
  readable b = Z.of_nat (length xs) ∧ writable b = capacity b - write_pos b.
Proof.
  intros [Hl Hc Hp Hw (pre & post & Hd & Hr)]. rewrite Hd, !length_app, length_fmap in Hl.
  unfold readable, writable. split_and!; try lia; rewrite wrap64_small by lia; lia.
Qed.

Lemma buf_ok_data b d rp wp xs :
  buf_ok b xs → ∀ xs' pre post, d = pre ++ (Some <$> xs') ++ post →
  length d = length (data b) → Z.of_nat (length pre) = rp →
  wp = rp + Z.of_nat (length xs') → buf_ok (with_data b d rp wp) xs'.
Proof.
  intros [Hl Hc Hp Hw _] xs' pre post Hd Hlen Hr Hwp. split; simpl; try done; [lia|eauto].
Qed.

(** ** Behaviour *)

Section behaviour.
Context (w : bworld) (xs : list Z) (Hrep : rep w xs).

Lemma wp_retrieve_all : wp cobalt_buffer_retrieve_all (λ _ w', rep w' []) w.
Proof.
  destruct Hrep as [(b & Ho & Hok) Hs]. unfold cobalt_buffer_retrieve_all. wp_steps. rewrite Ho.
  wp_steps. split; [|done]. eexists. split; [done|].
  pose proof (bo_pre _ _ Hok). pose proof (bo_len _ _ Hok).
  eapply (buf_ok_data _ _ _ _ _ Hok [] (take (Z.to_nat (prepend_size b)) (data b))
            (drop (Z.to_nat (prepend_size b)) (data b))); simpl.
  - by rewrite take_drop.
  - done.
  - rewrite length_take. lia.
  - lia.
Qed.

Lemma wp_retrieve n : 0 ≤ n →
  wp (cobalt_buffer_retrieve n) (λ r w',
    if n <=? Z.of_nat (length xs) then r = 0 ∧ rep w' (drop (Z.to_nat n) xs)
    else r = -1 ∧ w' = w) w.
Proof.
  intros Hn. pose proof wp_retrieve_all as Hall. destruct Hrep as [(b & Ho & Hok) Hs].
  destruct (buf_bounds _ _ Hok) as (Hr & Hw & Hrd & Hwr).
  unfold cobalt_buffer_retrieve. wp_steps. rewrite Ho, Hrd.
  destruct (Z.ltb_spec (Z.of_nat (length xs)) n).
  { wp_steps. by rewrite (proj2 (Z.leb_gt _ _)). }
  rewrite (proj2 (Z.leb_le _ _)) by done.
  destruct (Z.ltb_spec n (Z.of_nat (length xs))).
  - wp_steps. split; [done|]. split; [|done]. eexists. split; [done|].
    pose proof (bo_write _ _ Hok). rewrite wrap64_small by lia.
    destruct (bo_bytes _ _ Hok) as (pre & post & Hd & Hp).
    eapply (buf_ok_data _ _ _ _ _ Hok _ (pre ++ (Some <$> take (Z.to_nat n) xs)) post).
    + by rewrite Hd, <- app_assoc, (app_assoc (Some <$> take _ _)), <- fmap_app, take_drop.
    + done.
    + rewrite length_app, length_fmap, length_take. lia.
    + rewrite length_drop. lia.
  - wp_step. eapply wp_mono; [exact Hall|]. intros [] w' Hw'. wp_steps. split; [done|].
    by rewrite drop_ge by lia.
Qed.

Lemma wp_read n : 0 ≤ n →
  wp (cobalt_buffer_read true n) (λ r w',
    if n <=? Z.of_nat (length xs)
    then r = (0, Some <$> take (Z.to_nat n) xs) ∧ rep w' (drop (Z.to_nat n) xs)
    else r = (-1, []) ∧ w' = w) w.
Proof.
  intros Hn. pose proof (wp_retrieve n Hn) as Hret. destruct Hrep as [(b & Ho & Hok) Hs].
  destruct (buf_bounds _ _ Hok) as (_ & _ & Hrd & _).
  unfold cobalt_buffer_read. wp_steps. rewrite Ho, Hrd. simpl.
  destruct (Z.leb_spec n (Z.of_nat (length xs))).
  2: { rewrite (proj2 (Z.ltb_lt _ _)) by done. by wp_steps. }
  rewrite (proj2 (Z.ltb_ge _ _)) by done. wp_step.
  destruct (bo_bytes _ _ Hok) as (pre & post & Hd & Hp).
  replace n with (Z.of_nat (length ((Some <$> take (Z.to_nat n) xs) : list byte))) at 1
    by (rewrite length_fmap, length_take; lia).
  eapply (wp_copy_out b pre (Some <$> take (Z.to_nat n) xs) ((Some <$> drop (Z.to_nat n) xs) ++ post)).
  { by rewrite Hd, (app_assoc (Some <$> take _ _)), <- fmap_app, take_drop. }
  { done. }
  wp_step. eapply wp_mono; [exact Hret|]. intros r w' [-> Hr]. by wp_steps.
Qed.

(** The capacity asked for makes room for [len] more bytes. *)
Lemma grown_capacity_room b len : buf_ok b xs → 0 ≤ len < 2 ^ 63 →
  capacity b ≤ grown_capacity b len ∧ write_pos b + len ≤ grown_capacity b len.
Proof.
  intros Hok Hlen. destruct (buf_bounds _ _ Hok) as (Hr & Hw & _). unfold grown_capacity, SIZE_MAX.
  rewrite (proj2 (Z.ltb_ge ((2 ^ 64 - 1) / 2) _)) by (change ((2 ^ 64 - 1) / 2) with (2 ^ 63 - 1); lia).
  rewrite !(wrap64_small (capacity b * 2)), !(wrap64_small (write_pos b + len)),
    !(wrap64_small (2 ^ 64 - 1 - capacity b)) by lia.
  destruct (Z.ltb_spec (capacity b * 2) (write_pos b + len)); [|lia].
  destruct (Z.ltb_spec (2 ^ 64 - 1 - capacity b) (write_pos b + len)); [lia|].
  rewrite wrap64_small; lia.
Qed.

(** The block the buffer asks for. *)
Definition grown_bytes (w : bworld) (len : Z) : Z :=
  match obj w with Some b => grown_capacity b len | None => 0 end.

Lemma wp_regrow b n : buf_ok b xs → capacity b ≤ n →
  wp (regrow b n) (λ d w', w' = with_request w ∧
    match d with
    | None => starved w n
    | Some d' => n < 2 ^ 63 ∧ ∃ more, d' = data b ++ more ∧ Z.of_nat (length d') = n
    end) w.
Proof.
  intros Hok Hn. destruct (buf_bounds _ _ Hok) as (Hr & Hw & _). pose proof (bo_len _ _ Hok) as Hl.
  unfold regrow. wp_step. apply wp_request; intros Hor; wp_simpl.
  2: { wp_steps. split; [done|]. right. exists (allocs w), n. split; [lia|done]. }
  apply (proj2 Hrep) in Hor. set (fresh := replicate (Z.to_nat n) None).
  assert (length fresh = Z.to_nat n) as Hf by apply length_replicate.
  destruct (has_realloc b); [|rewrite !in_bounds_true by lia; cbn [andb]]; wp_steps;
    (split; [done|]; split; [done|]).
  - exists (drop (length (data b)) fresh). rewrite take_ge by lia. split; [done|].
    rewrite length_app, length_drop. lia.
  - unfold splice, slice. simpl. rewrite drop_0, !take_ge by lia.
    exists (drop (length (data b)) fresh). split; [done|]. rewrite length_app, length_drop. lia.
Qed.

Lemma wp_ensure_writable len : 0 ≤ len < 2 ^ 63 →
  wp (cobalt_buffer_ensure_writable len) (λ r w', rep w' xs ∧
    ((r = 0 ∧ ∃ b, obj w' = Some b ∧ len ≤ writable b) ∨
     (r = -1 ∧ starved w (grown_bytes w len)))) w.
Proof.
  intros Hlen. pose proof Hrep as [(b & Ho & Hok) Hs].
  destruct (buf_bounds _ _ Hok) as (Hr & Hw & Hrd & Hwr). pose proof (bo_pre _ _ Hok) as Hpre.
  unfold cobalt_buffer_ensure_writable. wp_steps. rewrite Ho.
  destruct (Z.leb_spec len (writable b)); [wp_steps; split; [done|]; left; eauto|].
  destruct (bo_bytes _ _ Hok) as (pre & post & Hd & Hp). pose proof (bo_len _ _ Hok) as Hl.
  destruct (Z.leb_spec len (wrap64 ((if prepend_size b <? read_pos b
    then wrap64 (read_pos b - prepend_size b) else 0) + writable b))) as [Hfit|_].
  - destruct (Z.ltb_spec (prepend_size b) (read_pos b)); [|rewrite wrap64_small in Hfit; lia].
    rewrite (wrap64_small (read_pos b - _)), wrap64_small in Hfit by lia.
    wp_step. rewrite Hrd, <- (length_fmap Some xs). eapply wp_copy_out; [exact Hd|done|]. wp_step.
    pose proof (bo_write _ _ Hok) as Hwp.
    assert (in_bounds (prepend_size b) (Z.of_nat (length xs)) (data b) = true) as Hb
      by (apply in_bounds_true; lia).
    apply split_range in Hb as (p1 & m1 & q1 & Hd1 & Hp1 & Hm1).
    eapply wp_copy_in; [exact Hd1|done|rewrite length_fmap; lia|]. rewrite length_fmap.
    wp_steps. set (b' := with_data _ _ _ _).
    assert (buf_ok b' xs) as Hok'.
    { eapply buf_ok_data; [exact Hok|done| |done|rewrite wrap64_small; lia].
      rewrite Hd1, !length_app, length_fmap. lia. }
    split; [split; [by eexists|done]|]. left. split; [done|]. exists b'. split; [done|].
    destruct (buf_bounds _ _ Hok') as (_ & _ & _ & ->). unfold b'. simpl.
    rewrite wrap64_small by lia. lia.
  - wp_step. destruct (grown_capacity_room b len Hok Hlen) as [Hg1 Hg2].
    eapply wp_mono; [by apply wp_regrow|]. intros [d|] w' [-> Hd']; wp_steps.
    2: { split; [split; [by exists b|done]|]. right. split; [done|]. unfold grown_bytes. by rewrite Ho. }
    destruct Hd' as (Hlt & more & -> & Hlm).
    set (b' := MkBuffer _ _ _ _ _ _). assert (buf_ok b' xs) as Hok'.
    { split; simpl; try done; [lia|apply Hok|]. exists pre, (post ++ more).
      by rewrite Hd, !app_assoc. }
    split; [split; [by eexists|done]|]. left. split; [done|]. exists b'. split; [done|].
    destruct (buf_bounds _ _ Hok') as (_ & _ & _ & ->). unfold b'. simpl. lia.
Qed.

Lemma wp_buffer_append bs : Z.of_nat (length bs) < 2 ^ 63 →
  wp (cobalt_buffer_append (Some (Some <$> bs))) (λ r w',
    (r = 0 ∧ rep w' (xs ++ bs)) ∨
    (r = -1 ∧ rep w' xs ∧ starved w (grown_bytes w (Z.of_nat (length bs))))) w.
Proof.
  intros Hbs. pose proof (wp_ensure_writable (Z.of_nat (length bs)) ltac:(lia)) as Hens.
  unfold cobalt_buffer_append. pose proof Hrep as [(b0 & Ho & _) _]. wp_steps. rewrite Ho.
  rewrite length_fmap. destruct (Z.eqb_spec (Z.of_nat (length bs)) 0) as [Hz|_].
  { wp_steps. left. destruct bs; [|simpl in Hz; lia]. by rewrite app_nil_r. }
  wp_step. eapply wp_mono; [exact Hens|].
  intros r w' [Hrep' [[-> (b & Hb & Hroom)]|[-> Hst]]]; [|wp_steps; by right]. wp_simpl.
  destruct Hrep' as [(b' & Ho' & Hok) Hs]. rewrite Ho' in Hb. simplify_eq.
  destruct (buf_bounds _ _ Hok) as (Hr & Hw & _ & Hwr). rewrite Hwr in Hroom.
  pose proof (bo_len _ _ Hok) as Hl. pose proof (bo_write _ _ Hok) as Hwp.
  destruct (bo_bytes _ _ Hok) as (pre & post & Hd & Hp).
  assert (Z.of_nat (length bs) ≤ Z.of_nat (length post)) as Hpost.
  { rewrite Hd, !length_app, length_fmap in Hl. lia. }
  change (negb (0 =? 0)) with false. wp_step. wp_step. wp_step.
  eapply (wp_copy_in b (pre ++ (Some <$> xs)) (take (length bs) post) (drop (length bs) post)).
  { by rewrite take_drop, <- app_assoc. }
  { rewrite length_app, length_fmap. lia. }
  { rewrite length_take, length_fmap. lia. }
  wp_steps. left. split; [done|]. split; [|done]. eexists. split; [done|].
  eapply (buf_ok_data _ _ _ _ _ Hok _ pre (drop (length bs) post)).
  - by rewrite fmap_app, !app_assoc.
  - rewrite Hd, !length_app, !length_fmap, length_drop. lia.
  - done.
  - rewrite wrap64_small by lia. rewrite length_app. lia.
Qed.

Lemma wp_prepend bs : Z.of_nat (length bs) < 2 ^ 63 →
  wp (cobalt_buffer_prepend (Some (Some <$> bs))) (λ r w',
    (r = 0 ∧ rep w' (bs ++ xs)) ∨
    (r = -1 ∧ w' = w ∧ ∃ b, obj w = Some b ∧ read_pos b < Z.of_nat (length bs))) w.
Proof.
  intros Hbs. pose proof Hrep as [(b & Ho & Hok) Hs]. unfold cobalt_buffer_prepend.
  wp_steps. rewrite Ho, length_fmap. destruct (Z.eqb_spec (Z.of_nat (length bs)) 0) as [Hz|_].
  { wp_steps. left. destruct bs; [done|simpl in Hz; lia]. }
  destruct (Z.ltb_spec (read_pos b) (Z.of_nat (length bs))); [wp_steps; right; eauto|].
  destruct (buf_bounds _ _ Hok) as (Hr & Hw & _). pose proof (bo_len _ _ Hok) as Hl.
  destruct (bo_bytes _ _ Hok) as (pre & post & Hd & Hp). rewrite wrap64_small by lia.
  set (k := (length pre - length bs)%nat). wp_step.
  eapply (wp_copy_in b (take k pre) (drop k pre) ((Some <$> xs) ++ post)).
  { by rewrite (app_assoc (take _ _)), take_drop. }
  { rewrite length_take. lia. }
  { rewrite length_drop, length_fmap. lia. }
  wp_steps. left. split; [done|]. split; [|done]. eexists. split; [done|].
  eapply (buf_ok_data _ _ _ _ _ Hok _ (take k pre) post).
  - by rewrite fmap_app, !app_assoc.
  - rewrite Hd, !length_app, !length_fmap, length_take. lia.
  - rewrite length_take. lia.
  - rewrite length_app, (bo_write _ _ Hok). lia.
Qed.

Lemma wp_peek :
  wp cobalt_buffer_peek (λ r w', w' = w ∧
    r = match xs with [] => None | _ => Some (Some <$> xs) end) w.
Proof.
  destruct Hrep as [(b & Ho & Hok) Hs]. destruct (buf_bounds _ _ Hok) as (Hr & Hw & Hrd & _).
  pose proof (bo_write _ _ Hok). destruct (bo_bytes _ _ Hok) as (pre & post & Hd & Hp).
  unfold cobalt_buffer_peek. wp_steps. rewrite Ho.
  destruct (Z.ltb_spec (read_pos b) (write_pos b)); wp_steps; (split; [done|]).
  - rewrite Hrd, Hd, slice_middle; [|done|by rewrite length_fmap].
    destruct xs; [simpl in *; lia|done].
  - destruct xs; [done|simpl in *; lia].
Qed.

Lemma wp_readable :
  wp cobalt_buffer_readable_bytes (λ r w', w' = w ∧ r = Z.of_nat (length xs)) w.
Proof.
  destruct Hrep as [(b & Ho & Hok) Hs]. destruct (buf_bounds _ _ Hok) as (_ & _ & Hrd & _).
  unfold cobalt_buffer_readable_bytes. wp_steps. by rewrite Ho.
Qed.
End behaviour.

(** ** Creation *)

Lemma wp_buffer_create orc n :
  sane orc → 0 ≤ n < 2 ^ 63 →
  wp (cobalt_buffer_create n) (λ _ w, obj w = None ∨ rep w []) (world0 orc).
Proof.
  intros Hs Hn. unfold cobalt_buffer_create, cobalt_buffer_create_with_alloc,
    COBALT_BUFFER_DEFAULT_PREPEND_SIZE, COBALT_BUFFER_DEFAULT_INITIAL_CAPACITY. cbn [Z.eqb].
  set (m := if n =? 0 then 1024 else n).
  assert (0 < m < 2 ^ 63) by (unfold m; destruct (Z.eqb_spec n 0); lia).
  wp_step. apply wp_request; intros _; wp_simpl; [|wp_steps; by left]. wp_step.
  rewrite wrap64_small by lia. apply wp_request; intros Hor; wp_simpl; [|wp_steps; by left].
  apply Hs in Hor. wp_steps. right. split; [|done]. eexists. split; [done|].
  split; simpl; rewrite ?length_replicate; try lia.
  exists (replicate 8 None), (replicate (Z.to_nat m) None). simpl. split; [|done].
  replace (Z.to_nat (m + 8)) with (8 + Z.to_nat m)%nat by lia. done.
Qed.

(** ** File descriptors *)

Section fd_behaviour.
Context (readv : Z → list Z + Z) (write : list byte → Z + Z).
Context (readv_bound : ∀ n bs, readv n = inl bs → Z.of_nat (length bs) ≤ n).
Context (write_bound : ∀ bs n, write bs = inl n → 0 ≤ n ≤ Z.of_nat (length bs)).
Context (w : bworld) (xs : list Z) (Hrep : rep w xs).

Lemma wp_read_fd fd b : 0 ≤ fd → obj w = Some b →
  wp (cobalt_buffer_read_fd readv fd) (λ r w',
    match readv (if writable b <? sizeof_stack_buf then writable b + sizeof_stack_buf
                 else writable b) with
    | inr e => r = (-1, Some e) ∧ w' = w
    | inl bs =>
        (r = (Z.of_nat (length bs), None) ∧ rep w' (xs ++ bs)) ∨
        (r = (-1, Some ENOMEM) ∧ writable b < Z.of_nat (length bs) ∧
         rep w' (xs ++ take (Z.to_nat (writable b)) bs))
    end) w.
Proof.
  intros Hfd Ho. unfold cobalt_buffer_read_fd. wp_steps. rewrite Ho.
  rewrite (proj2 (Z.ltb_ge _ _) Hfd). destruct Hrep as [(b' & Ho' & Hok) Hs]. simplify_eq.
  destruct (buf_bounds _ _ Hok) as (Hr & Hw & _ & Hwr).
  set (total := if _ <? _ then _ else _). destruct (readv total) as [bs|e] eqn:E; [|by wp_steps].
  apply readv_bound in E. assert (Z.of_nat (length bs) ≤ writable b + 65536) as Hbs.
  { unfold total, sizeof_stack_buf in E. destruct (writable b <? 65536); lia. }
  pose proof (bo_len _ _ Hok) as Hl. pose proof (bo_write _ _ Hok) as Hwp.
  destruct (bo_bytes _ _ Hok) as (pre & post & Hd & Hp).
  assert (Z.of_nat (length post) = writable b) as Hpost.
  { rewrite Hd, !length_app, length_fmap in Hl. lia. }
  set (k := Z.to_nat (writable b)) in *. set (bs1 := take k bs).
  assert (length bs1 = Nat.min k (length bs)) as Hl1 by apply length_take.
  rewrite <- fmap_take, <- fmap_drop. fold bs1. wp_step.
  eapply (wp_copy_in b (pre ++ (Some <$> xs)) (take (length bs1) post) (drop (length bs1) post)).
  { by rewrite take_drop, <- app_assoc. }
  { rewrite length_app, length_fmap. lia. }
  { rewrite length_take, length_fmap. lia. }
  set (d := _ ++ _ ++ _).
  assert (buf_ok (with_data b d (read_pos b) (write_pos b + Z.of_nat (length bs1)))
            (xs ++ bs1)) as Hok1.
  { eapply (buf_ok_data _ _ _ _ _ Hok _ pre (drop (length bs1) post)).
    - unfold d. by rewrite fmap_app, !app_assoc.
    - unfold d. rewrite Hd, !length_app, !length_fmap, length_drop. lia.
    - done.
    - rewrite length_app. lia. }
  destruct (Z.leb_spec (Z.of_nat (length bs)) (writable b)) as [Hle|Hgt].
  - wp_steps. left. split; [done|]. split; [|done]. eexists. split; [done|].
    assert (bs1 = bs) as E1 by (apply take_ge; lia). rewrite E1 in Hok1.
    by rewrite wrap64_small by lia.
  - wp_steps.
    assert (write_pos b + Z.of_nat (length bs1) = capacity b) as Ecap by lia.
    rewrite Ecap in Hok1. eapply wp_mono; [apply (wp_buffer_append _ (xs ++ bs1))|].
    + split; [|done]. by eexists.
    + rewrite length_drop. lia.
    + intros r w' [[-> Hr1]|(-> & Hr1 & _)]; wp_steps; [left|by right].
      split; [done|]. unfold bs1 in Hr1. by rewrite <- app_assoc, take_drop in Hr1.
Qed.

Lemma wp_write_fd fd : 0 ≤ fd →
  wp (cobalt_buffer_write_fd write fd) (λ r w',
    match xs with
    | [] => r = (0, None) ∧ w' = w
    | _ => match write (Some <$> xs) with
           | inr e => r = (-1, Some e) ∧ w' = w
           | inl n => r = (n, None) ∧ rep w' (drop (Z.to_nat n) xs)
           end
    end) w.
Proof.
  intros Hfd. unfold cobalt_buffer_write_fd. pose proof Hrep as [(b & Ho & Hok) Hs].
  wp_steps. rewrite Ho, (proj2 (Z.ltb_ge _ _) Hfd).
  destruct (buf_bounds _ _ Hok) as (_ & _ & Hrd & _). rewrite Hrd.
  destruct (bo_bytes _ _ Hok) as (pre & post & Hd & Hp).
  destruct xs as [|x xs'] eqn:Exs; [by wp_steps|]. rewrite <- Exs in *.
  rewrite (proj2 (Z.eqb_neq _ 0)) by (rewrite Exs; simpl; lia).
  wp_step. rewrite <- (length_fmap Some xs). eapply wp_copy_out; [done|done|].
  destruct (write (Some <$> xs)) as [n|e] eqn:E; [|by wp_steps].
  apply write_bound in E as [Hn Hle]. rewrite length_fmap in Hle. wp_step.
  eapply wp_mono; [apply (wp_retrieve _ xs); done|].
  intros r w'. rewrite (proj2 (Z.leb_le _ _) Hle). intros [-> Hr]. by wp_steps.
Qed.
End fd_behaviour.

(** ** The call interface *)

Inductive bop :=
  | BAppend (bs : list Z)
  | BPrepend (bs : list Z)
  | BRead (n : Z)
  | BRetrieve (n : Z)
  | BRetrieveAll
  | BEnsure (n : Z)
  | BReadable
  | BPeek.

Definition run (o : bop) : M bworld (Z * option (list byte)) :=
  match o with
  | BAppend bs => r <- cobalt_buffer_append (Some (Some <$> bs)) ;; mret (r, None)
  | BPrepend bs => r <- cobalt_buffer_prepend (Some (Some <$> bs)) ;; mret (r, None)
  | BRead n => r <- cobalt_buffer_read true n ;; mret (r.1, Some r.2)
  | BRetrieve n => r <- cobalt_buffer_retrieve n ;; mret (r, None)
  | BRetrieveAll => cobalt_buffer_retrieve_all ;;; mret (0, None)
  | BEnsure n => r <- cobalt_buffer_ensure_writable n ;; mret (r, None)
  | BReadable => r <- cobalt_buffer_readable_bytes ;; mret (r, None)
  | BPeek => r <- cobalt_buffer_peek ;; mret (0, r)
  end.

(** A byte queue with two ends.  Appending may fail for want of memory,
    prepending for want of room in front; a failed call changes nothing. *)
Definition spec (o : bop) (w : bworld) (xs : list Z) (r : Z * option (list byte)) (xs' : list Z) : Prop :=
  match o with
  | BAppend bs => (r = (0, None) ∧ xs' = xs ++ bs) ∨
      (r = (-1, None) ∧ xs' = xs ∧ starved w (grown_bytes w (Z.of_nat (length bs))))
  | BPrepend bs => (r = (0, None) ∧ xs' = bs ++ xs) ∨
      (r = (-1, None) ∧ xs' = xs ∧
       ∃ b, obj w = Some b ∧ read_pos b < Z.of_nat (length bs))
  | BRead n => if n <=? Z.of_nat (length xs)
               then r = (0, Some (Some <$> take (Z.to_nat n) xs)) ∧ xs' = drop (Z.to_nat n) xs
               else r = (-1, Some []) ∧ xs' = xs
  | BRetrieve n => if n <=? Z.of_nat (length xs)
                   then r = (0, None) ∧ xs' = drop (Z.to_nat n) xs
                   else r = (-1, None) ∧ xs' = xs
  | BRetrieveAll => r = (0, None) ∧ xs' = []
  | BEnsure n => (r = (0, None) ∨ (r = (-1, None) ∧ starved w (grown_bytes w n))) ∧ xs' = xs
  | BReadable => r = (Z.of_nat (length xs), None) ∧ xs' = xs
  | BPeek => r = (0, match xs with [] => None | _ => Some (Some <$> xs) end) ∧ xs' = xs
  end.

(** Sizes of C objects. *)
Definition op_ok (o : bop) : Prop :=
  match o with
  | BAppend bs | BPrepend bs => Z.of_nat (length bs) < 2 ^ 63
  | BRead n | BRetrieve n => 0 ≤ n
  | BEnsure n => 0 ≤ n < 2 ^ 63
  | _ => True
  end.

Lemma buffer_refines : refines run spec rep op_ok.
Proof.
  intros o w xs Hrep Hok. destruct o as [bs|bs|n|n| |n| |]; simpl in *; wp_step.
  - eapply wp_mono; [by apply (wp_buffer_append w xs)|]. intros r w' [[-> ?]|(-> & ? & ?)]; wp_steps; eauto 10.
  - eapply wp_mono; [by apply (wp_prepend w xs)|].
    intros r w' [[-> ?]|(-> & -> & ?)]; wp_steps; eauto 10.
  - eapply wp_mono; [by apply (wp_read w xs)|]. intros r w'.
    destruct (n <=? _); intros [-> Hr]; wp_steps; [by eauto|]. subst. eauto.
  - eapply wp_mono; [by apply (wp_retrieve w xs)|]. intros r w'.
    destruct (n <=? _); intros [-> Hr]; wp_steps; [by eauto|]. subst. eauto.
  - eapply wp_mono; [by eapply (wp_retrieve_all w xs)|]. intros r w' ?; wp_steps; eauto.
  - eapply wp_mono; [by apply (wp_ensure_writable w xs)|].
    intros r w' [? [[-> _]|[-> ?]]]; wp_steps; eauto 10.
  - eapply wp_mono; [by apply (wp_readable w xs)|]. intros r w' [-> ->]; wp_steps; eauto.
  - eapply wp_mono; [by apply (wp_peek w xs)|]. intros r w' [-> ->]; wp_steps; eauto.
Qed.

(** C30: A stream buffer as a byte queue.  If the creation succeeds, every call of
    any sequence of appends, prepends, reads, discards, capacity requests and
    peeks returns what the same call on the list of readable bytes returns,
    whichever of its paths it takes (room at the end, moving the content to the
    front, a larger block); an append fails only when memory is short, a prepend
    only when there is no room in front, and a failed call changes nothing. *)
Theorem buffer_session orc n os :
  sane orc → 0 ≤ n < 2 ^ 63 → Forall op_ok os →
  wp (cobalt_buffer_create n) (λ _ w, obj w = None ∨
    behaves run spec os w [] (λ w' xs, rep w' xs ∧ wp cobalt_buffer_destroy (λ _ w'', obj w'' = None) w'))
    (world0 orc).
Proof.
  intros Hs Hn Hos. eapply wp_mono; [by apply wp_buffer_create|].
  intros [] w [?|Hrep]; [by left|right].
  eapply (refines_all _ _ _ _ buffer_refines); [done|done|]. intros w' xs Hr. split; [done|].
  destruct Hr as [(b & Ho & _) _]. unfold cobalt_buffer_destroy. wp_steps. by rewrite Ho.
Qed.

(** An allocator that grants everything up to [PTRDIFF_MAX]. *)
Definition generous : nat → Z → bool := λ _ n,
  match n with Zpos p => Nat.leb (Pos.size_nat p) 63 | _ => true end.

Lemma generous_sane : sane generous.
Proof.
  intros k [|p|p] Hn; [done| |done]. apply Nat.leb_le in Hn.
  eapply Z.lt_le_trans; [apply size_nat_bound|]. apply Z.pow_le_mono_r; lia.
Qed.

Lemma buffer_session_witness :
  wp (cobalt_buffer_create 4) (λ _ w, obj w = None ∨
    behaves run spec [BAppend [1; 2; 3]; BPrepend [9]; BRead 2; BAppend [4; 5; 6]; BPeek] w []
      (λ w' xs, rep w' xs ∧ wp cobalt_buffer_destroy (λ _ w'', obj w'' = None) w'))
    (world0 generous).
Proof.
  apply buffer_session; [apply generous_sane|lia|]. repeat constructor; simpl; lia.
Defined.

(** Reading from a file descriptor.  With a [readv] that returns at most the
    bytes it was offered room for: an error leaves the buffer alone and is
    reported; otherwise all bytes are appended in order, through the spill area
    on the stack when they exceed the room, and their number is returned.  If
    the spilled part cannot be stored for want of memory the call reports
    [ENOMEM], having kept only the bytes that fitted. *)
Theorem buffer_read_fd_appends readv w xs fd b :
  (∀ n bs, readv n = inl bs → Z.of_nat (length bs) ≤ n) →
  rep w xs → 0 ≤ fd → obj w = Some b →
  wp (cobalt_buffer_read_fd readv fd) (λ r w',
    match readv (if writable b <? sizeof_stack_buf then writable b + sizeof_stack_buf
                 else writable b) with
    | inr e => r = (-1, Some e) ∧ w' = w
    | inl bs =>
        (r = (Z.of_nat (length bs), None) ∧ rep w' (xs ++ bs)) ∨
        (r = (-1, Some ENOMEM) ∧ writable b < Z.of_nat (length bs) ∧
         rep w' (xs ++ take (Z.to_nat (writable b)) bs))
    end) w.
Proof. intros. by apply wp_read_fd. Qed.

(** Writing to a file descriptor.  With a [write] that takes at most what it
    is offered: nothing is written from an empty buffer, an error leaves the
    buffer alone and is reported, and otherwise exactly the bytes taken are
    removed from the front. *)
Theorem buffer_write_fd_drains write w xs fd :
  (∀ bs n, write bs = inl n → 0 ≤ n ≤ Z.of_nat (length bs)) →
  rep w xs → 0 ≤ fd →
  wp (cobalt_buffer_write_fd write fd) (λ r w',
    match xs with
    | [] => r = (0, None) ∧ w' = w
    | _ => match write (Some <$> xs) with
           | inr e => r = (-1, Some e) ∧ w' = w
           | inl n => r = (n, None) ∧ rep w' (drop (Z.to_nat n) xs)
           end
    end) w.
Proof. intros. by apply wp_write_fd. Qed.

(** A buffer of four writable bytes that holds one. *)
Definition small_buf : cobalt_buffer := MkBuffer (replicate 12 (Some 7)) 12 8 9 8 true.
Definition small_buffer : bworld := World (Some small_buf) ∅ 1 generous 2 COBALT_SUCCESS.

Lemma small_buffer_rep : rep small_buffer [7].
Proof.
  split; [|apply generous_sane]. exists small_buf. split; [done|].
  split; simpl; try done; try lia. by exists (replicate 8 (Some 7)), (replicate 3 (Some 7)).
Qed.

Lemma buffer_read_fd_appends_witness :
  wp (cobalt_buffer_read_fd (λ _, inl [1; 2; 3; 4; 5]) 3) (λ r w',
    (r = (5, None) ∧ rep w' [7; 1; 2; 3; 4; 5]) ∨
    (r = (-1, Some ENOMEM) ∧ 3 < 5 ∧ rep w' [7; 1; 2; 3])) small_buffer.
Proof.
  refine (buffer_read_fd_appends
    (λ n, if 5 <=? n then inl [1; 2; 3; 4; 5] else inr EINVAL) small_buffer [7] 3 small_buf _ _ _ _);
    [|apply small_buffer_rep|lia|done].
  intros n bs. destruct (Z.leb_spec 5 n); intros [= <-]. simpl. lia.
Defined.

Lemma buffer_write_fd_drains_witness :
  wp (cobalt_buffer_write_fd (λ bs, inl (Z.of_nat (length bs))) 3)
    (λ r w', r = (1, None) ∧ rep w' []) small_buffer.
Proof.
  refine (buffer_write_fd_drains (λ bs, inl (Z.of_nat (length bs))) small_buffer [7] 3 _ _ _);
    [|apply small_buffer_rep|lia].
  intros bs n [= <-]. lia.
Defined.

(** The size needed for more room is computed in [size_t] without a check:
    asked to make room for [2^64 - 8] bytes, [cobalt_buffer_ensure_writable]
    doubles the block and reports success with less room than asked for. *)
Theorem ensure_writable_wraps :
  result ((cobalt_buffer_create 4 ;;;
           r <- cobalt_buffer_ensure_writable (2 ^ 64 - 8) ;;
           n <- cobalt_buffer_writable_bytes ;;
           mret (r, n)) (world0 generous)) = inl (0, 16).
Proof. vm_compute. reflexivity. Qed.

End Buffer.
