(* ===== verification/ErrorStack.v ===== *)
(** * Errors: src/src/runtime/error.c and src/src/runtime/error_stack.c

    The thread's last error lives in the world; a stack of saved errors is a
    fixed array and a depth. *)
From stdpp Require Import strings.
From S2P Require Import Prelude World.
#[local] Open Scope Z_scope.

Module ErrorStack.

(** ** Messages *)

(** The values of the enumeration, in the order of its declaration. *)
Definition error_codes : list cobalt_error :=
  [COBALT_SUCCESS; COBALT_ERROR_GENERAL; COBALT_ERROR_INVALID_ARGUMENT;
   COBALT_ERROR_OUT_OF_MEMORY; COBALT_ERROR_NOT_FOUND; COBALT_ERROR_ALREADY_EXISTS;
   COBALT_ERROR_PERMISSION_DENIED; COBALT_ERROR_IO; COBALT_ERROR_TIMEOUT;
   COBALT_ERROR_OUT_OF_BOUNDS; COBALT_ERROR_EMPTY_CONTAINER; COBALT_ERROR_QUEUE_FULL].

(** The argument is any [int]; a value outside the enumeration is [None]. *)
Definition cobalt_error_get_message (code : option cobalt_error) : string :=
  match code with
  | Some COBALT_SUCCESS => "Success"
  | Some COBALT_ERROR_GENERAL => "General error"
  | Some COBALT_ERROR_INVALID_ARGUMENT => "Invalid argument"
  | Some COBALT_ERROR_OUT_OF_MEMORY => "Out of memory"
  | Some COBALT_ERROR_NOT_FOUND => "Not found"
  | Some COBALT_ERROR_ALREADY_EXISTS => "Already exists"
  | Some COBALT_ERROR_PERMISSION_DENIED => "Permission denied"
  | Some COBALT_ERROR_IO => "IO error"
  | Some COBALT_ERROR_TIMEOUT => "Timeout"
  | Some COBALT_ERROR_OUT_OF_BOUNDS => "Index out of bounds"
  | Some COBALT_ERROR_EMPTY_CONTAINER => "Container is empty"
  | Some COBALT_ERROR_QUEUE_FULL => "Queue is full"
  | None => "Unknown error"
  end.

(** ** The stack of saved errors *)

Definition COBALT_ERROR_STACK_MAX_DEPTH : Z := 32.

(** An entry is [None] until it is written: the caller declares the stack as
    a local variable. *)
Record cobalt_error_stack := MkStack {
  entries : list (option cobalt_error);
  depth : Z
}.

Abbreviation eworld := (world cobalt_error_stack unit).

Definition cobalt_error_stack_push : M eworld cobalt_error :=
  o <- get_obj ;;
  match o with
  | None => mret COBALT_ERROR_INVALID_ARGUMENT
  | Some s =>
      if COBALT_ERROR_STACK_MAX_DEPTH <=? depth s then mret COBALT_ERROR_OUT_OF_MEMORY
      else
        e <- cobalt_error_get_current ;;
        if Z.of_nat (length (entries s)) <=? depth s then mfail BadAccess
        else set_obj (Some (MkStack (<[Z.to_nat (depth s) := Some e]> (entries s))
                              (wrap64 (depth s + 1)))) ;;;
             mret COBALT_SUCCESS
  end.

Definition cobalt_error_stack_pop : M eworld unit :=
  o <- get_obj ;;
  match o with
  | None => mret tt
  | Some s =>
      if depth s =? 0 then mret tt
      else
        let d := wrap64 (depth s - 1) in
        match entries s !! Z.to_nat d with
        | None => mfail BadAccess
        | Some None => mfail Uninit
        | Some (Some e) =>
            set_obj (Some (MkStack (entries s) d)) ;;; cobalt_error_set None e ;;; mret tt
        end
  end.

Definition cobalt_error_stack_clear : M eworld unit :=
  o <- get_obj ;;
  match o with
  | None => mret tt
  | Some s => set_obj (Some (MkStack (entries s) 0)) ;;;
              cobalt_error_set None COBALT_SUCCESS ;;; mret tt
  end.

Definition cobalt_error_stack_depth : M eworld Z :=
  o <- get_obj ;; mret (match o with Some s => depth s | None => 0 end).

Definition cobalt_error_stack_is_full : M eworld bool :=
  o <- get_obj ;;
  mret (match o with Some s => COBALT_ERROR_STACK_MAX_DEPTH <=? depth s | None => true end).

(** ** The abstract stack: the current error and the saved ones, latest first *)

Definition rep (w : eworld) (st : cobalt_error * list cobalt_error) : Prop :=
  ∃ s, obj w = Some s ∧ length (entries s) = 32%nat ∧ last_error w = st.1 ∧
    depth s = Z.of_nat (length st.2) ∧ (length st.2 ≤ 32)%nat ∧
    take (length st.2) (entries s) = Some <$> reverse st.2.

Inductive eop := EPush | EPop | EClear | EDepth | EFull | ESet (e : cobalt_error) | EGet.
Inductive eres := RCode (e : cobalt_error) | RNum (n : Z) | RBool (b : bool) | RUnit.

Definition run (o : eop) : M eworld eres :=
  match o with
  | EPush => r <- cobalt_error_stack_push ;; mret (RCode r)
  | EPop => cobalt_error_stack_pop ;;; mret RUnit
  | EClear => cobalt_error_stack_clear ;;; mret RUnit
  | EDepth => r <- cobalt_error_stack_depth ;; mret (RNum r)
  | EFull => r <- cobalt_error_stack_is_full ;; mret (RBool r)
  | ESet e => cobalt_error_set None e ;;; mret RUnit
  | EGet => r <- cobalt_error_get_current ;; mret (RCode r)
  end.

Definition spec (o : eop) (w : eworld) (st : cobalt_error * list cobalt_error) (r : eres)
    (st' : cobalt_error * list cobalt_error) : Prop :=
  let '(cur, es) := st in
  match o with
  | EPush => if decide (length es < 32)%nat
             then r = RCode COBALT_SUCCESS ∧ st' = (cur, cur :: es)
             else r = RCode COBALT_ERROR_OUT_OF_MEMORY ∧ st' = st
  | EPop => r = RUnit ∧ st' = match es with [] => st | e :: es' => (e, es') end
  | EClear => r = RUnit ∧ st' = (COBALT_SUCCESS, [])
  | EDepth => r = RNum (Z.of_nat (length es)) ∧ st' = st
  | EFull => r = RBool (bool_decide (length es = 32%nat)) ∧ st' = st
  | ESet e => r = RUnit ∧ st' = (e, es)
  | EGet => r = RCode cur ∧ st' = st
  end.

Lemma rep_push s e es :
  length (entries s) = 32%nat → (length es < 32)%nat →
  take (length es) (entries s) = Some <$> reverse es →
  take (S (length es)) (<[length es := Some e]> (entries s)) = Some <$> reverse (e :: es).
Proof.
  intros Hl Hlt Ht. rewrite reverse_cons, fmap_app, <- Ht.
  rewrite (take_S_r _ _ (Some e)) by (apply list_lookup_insert_eq; lia).
  by rewrite take_insert_ge by done.
Qed.

Lemma rep_top s e es :
  take (length (e :: es)) (entries s) = Some <$> reverse (e :: es) →
  entries s !! length es = Some (Some e) ∧
  take (length es) (entries s) = Some <$> reverse es.
Proof.
  intros Ht. rewrite reverse_cons, fmap_app in Ht. simpl in Ht.
  assert (length (Some <$> reverse es) = length es) as Hl by by rewrite length_fmap, length_reverse.
  split.
  - rewrite <- (lookup_take_lt _ (S (length es))) by lia. rewrite Ht, lookup_app_r by lia.
    by rewrite Hl, Nat.sub_diag.
  - apply (f_equal (take (length es))) in Ht. rewrite take_take in Ht.
    rewrite Nat.min_l in Ht by lia. rewrite Ht, <- Hl at 1. by rewrite take_app_length.
Qed.

Lemma error_stack_refines : refines run spec rep (λ _, True).
Proof.
  intros o w [cur es] Hrep _. pose proof Hrep as (s & Ho & Hl & He & Hd & Hle & Ht). simpl in *.
  destruct o; simpl; wp_step.
  - unfold cobalt_error_stack_push, COBALT_ERROR_STACK_MAX_DEPTH. wp_steps. rewrite Ho, Hd.
    case_decide.
    + rewrite (proj2 (Z.leb_gt _ _)) by lia. wp_steps. rewrite Hl, (proj2 (Z.leb_gt _ _)) by lia.
      wp_steps. eexists. split; [done|]. eexists. split; [done|]. simpl.
      rewrite wrap64_small, length_insert, Nat2Z.id by lia. split_and!; try done; try lia.
      rewrite He. by eapply rep_push.
    + rewrite (proj2 (Z.leb_le _ _)) by lia. wp_steps. by eexists (_, _).
  - unfold cobalt_error_stack_pop. wp_steps. rewrite Ho, Hd. destruct es as [|e es].
    { wp_steps. by eexists (_, _). }
    rewrite (proj2 (Z.eqb_neq _ 0)) by (simpl; lia). cbn [length] in *.
    replace (Z.of_nat (S (length es)) - 1) with (Z.of_nat (length es)) by lia.
    rewrite wrap64_small, Nat2Z.id by lia. destruct (rep_top _ _ _ Ht) as [-> Ht'].
    wp_steps. eexists. split; [done|]. eexists. split; [done|]. simpl. split_and!; try done; lia.
  - unfold cobalt_error_stack_clear. wp_steps. rewrite Ho. wp_steps. eexists. split; [done|].
    eexists. split; [done|]. simpl. split_and!; try done. lia.
  - unfold cobalt_error_stack_depth. wp_steps. rewrite Ho, Hd. by eexists (_, _).
  - unfold cobalt_error_stack_is_full. wp_steps. rewrite Ho, Hd. exists (cur, es). split; [|done].
    split; [|done]. f_equal. unfold COBALT_ERROR_STACK_MAX_DEPTH.
    case_bool_decide; [rewrite (proj2 (Z.leb_le _ _)) by lia; done|].
    by rewrite (proj2 (Z.leb_gt _ _)) by lia.
  - wp_steps. exists (e, es). split; [done|]. by exists s.
  - wp_steps. exists (cur, es). by rewrite He.
Qed.

Lemma wp_clear (w : eworld) s :
  obj w = Some s → length (entries s) = 32%nat →
  wp cobalt_error_stack_clear (λ _ w', rep w' (COBALT_SUCCESS, [])) w.
Proof.
  intros Ho Hl. unfold cobalt_error_stack_clear. wp_steps. rewrite Ho. wp_steps.
  eexists. split; [done|]. simpl. split_and!; try done. lia.
Qed.

(** Saving and restoring errors.  A stack variable with any content, cleared
    first, behaves under any sequence of calls as a bounded stack of 32 saved
    errors next to the thread's current error: a push saves the current error
    (or reports that the stack is full), a pop restores the error saved last,
    setting the current error in between does not disturb the saved ones, and no
    entry is read that was not written. *)
Theorem error_stack_session (w : eworld) s os :
  obj w = Some s → length (entries s) = 32%nat →
  wp cobalt_error_stack_clear (λ _ w',
    behaves run spec os w' (COBALT_SUCCESS, []) (λ _ _, True)) w.
Proof.
  intros Ho Hl. eapply wp_mono; [by eapply wp_clear|]. intros [] w' Hrep.
  eapply (refines_all _ _ _ _ error_stack_refines); [done|by apply Forall_true|done].
Qed.

Lemma error_stack_session_witness :
  wp cobalt_error_stack_clear (λ _ w',
    behaves run spec [ESet COBALT_ERROR_IO; EPush; ESet COBALT_ERROR_TIMEOUT; EPop; EGet] w'
      (COBALT_SUCCESS, []) (λ _ _, True))
    (World (Some (MkStack (replicate 32 None) 77)) ∅ 1 (λ _ _, true) 0 COBALT_SUCCESS).
Proof. eapply error_stack_session; reflexivity. Defined.

End ErrorStack.
