(* ===== verification/TicketRing.v ===== *)
(** * A bounded multi-producer multi-consumer ring with sequence numbers

    The ring behind src/src/container/lfqueue.c and the multi-producer mode of
    src/src/container/shm_ring.c.  A thread takes a ticket by advancing [tail]
    (or [head]) with a compare-and-swap, and owns the cell of that ticket until
    it stores the cell's next sequence number.

    Threads are state machines whose steps touch shared memory once.  A load of
    [tail], [head] or a sequence number may return an older value of that
    counter, as relaxed loads may; a weak compare-and-swap may fail for no
    reason.  The data of a cell is ordinary memory. *)
From S2P Require Import Prelude World.

Module TicketRing.

(** [(intptr_t)x] for a [size_t] *)
Definition to_signed (x : Z) : Z := if x <? 2 ^ 63 then x else x - 2 ^ 64.

Section ring.
Context {V : Type}.

Record cell := Cell { sequence : Z; data : V }.

Record ring := Ring {
  tail : Z;
  head : Z;
  capacity : Z;
  mask : Z;
  buffer : list cell
}.

(** Where a thread is: before the load of the cursor, before the load of the
    cell's sequence number, before the compare-and-swap, and, with the ticket
    [pos] taken, before the access to the data and before the release of the
    cell. *)
Inductive pc : Type :=
  | Idle
  | ELoad (v : V) | ETest (v : V) (pos : Z) | ECas (v : V) (pos : Z)
  | EWrite (v : V) (pos : Z) | EPublish (v : V) (pos : Z)
  | DLoad | DTest (pos : Z) | DCas (pos : Z)
  | DRead (pos : Z) | DRelease (v : V) (pos : Z).

Inductive event : Type :=
  | Enqueued (v : V) (pos : Z) | Full
  | Dequeued (v : V) (pos : Z) | Empty.

(** What the memory and the processor decide in a step. *)
Record choice := Choice { seen : option Z; spurious : bool }.

(** An atomic load of a counter whose value is [x]. *)
Definition aload (ch : choice) (x : Z) : Z :=
  match seen ch with Some y => if (0 <=? y) && (y <=? x) then y else x | None => x end.

Definition slot (q : ring) (pos : Z) : nat := Z.to_nat (Z.land pos (mask q)).
Definition set_tail (q : ring) (x : Z) : ring := Ring x (head q) (capacity q) (mask q) (buffer q).
Definition set_head (q : ring) (x : Z) : ring := Ring (tail q) x (capacity q) (mask q) (buffer q).
Definition set_cell (q : ring) (pos : Z) (c : cell) : ring :=
  Ring (tail q) (head q) (capacity q) (mask q) (<[slot q pos := c]> (buffer q)).

(** One step of a running call; [None] is an access outside the buffer. *)
Definition enqueue_step (ch : choice) (q : ring) (p : pc) : option (ring * pc * option event) :=
  match p with
  | ELoad v => Some (q, ETest v (aload ch (tail q)), None)
  | ETest v pos =>
      c ← buffer q !! slot q pos;
      let diff := to_signed (aload ch (sequence c)) - to_signed pos in
      if diff =? 0 then Some (q, ECas v pos, None)
      else if diff <? 0 then Some (q, Idle, Some Full)
      else Some (q, ELoad v, None)
  | ECas v pos =>
      if negb (spurious ch) && (tail q =? pos) then
        Some (set_tail q (wrap64 (pos + 1)), EWrite v pos, None)
      else Some (q, ETest v (aload ch (tail q)), None)
  | EWrite v pos =>
      c ← buffer q !! slot q pos;
      Some (set_cell q pos (Cell (sequence c) v), EPublish v pos, None)
  | EPublish v pos =>
      c ← buffer q !! slot q pos;
      Some (set_cell q pos (Cell (wrap64 (pos + 1)) (data c)), Idle, Some (Enqueued v pos))
  | _ => None
  end.

Definition dequeue_step (ch : choice) (q : ring) (p : pc) : option (ring * pc * option event) :=
  match p with
  | DLoad => Some (q, DTest (aload ch (head q)), None)
  | DTest pos =>
      c ← buffer q !! slot q pos;
      let diff := to_signed (aload ch (sequence c)) - to_signed (wrap64 (pos + 1)) in
      if diff =? 0 then Some (q, DCas pos, None)
      else if diff <? 0 then Some (q, Idle, Some Empty)
      else Some (q, DLoad, None)
  | DCas pos =>
      if negb (spurious ch) && (head q =? pos) then
        Some (set_head q (wrap64 (pos + 1)), DRead pos, None)
      else Some (q, DTest (aload ch (head q)), None)
  | DRead pos =>
      c ← buffer q !! slot q pos; Some (q, DRelease (data c) pos, None)
  | DRelease v pos =>
      c ← buffer q !! slot q pos;
      Some (set_cell q pos (Cell (wrap64 (wrap64 (pos + mask q) + 1)) (data c)),
            Idle, Some (Dequeued v pos))
  | _ => None
  end.

Definition thread_step (ch : choice) (q : ring) (p : pc) : option (ring * pc * option event) :=
  match p with
  | ELoad _ | ETest _ _ | ECas _ _ | EWrite _ _ | EPublish _ _ => enqueue_step ch q p
  | _ => dequeue_step ch q p
  end.

(** ** The system *)

Record config := Config { shared : ring; threads : list pc }.

(** An idle thread may start a call; a thread in a call may take a step. *)
Inductive step : config → option event → config → Prop :=
  | step_enqueue q ths t v :
      ths !! t = Some Idle → step (Config q ths) None (Config q (<[t := ELoad v]> ths))
  | step_dequeue q ths t :
      ths !! t = Some Idle → step (Config q ths) None (Config q (<[t := DLoad]> ths))
  | step_thread q ths t ch p q' p' ev :
      ths !! t = Some p → thread_step ch q p = Some (q', p', ev) →
      step (Config q ths) ev (Config q' (<[t := p']> ths)).

(** [reach c n tr c']: [n] steps lead from [c] to [c'] and show the events [tr]. *)
Inductive reach (c : config) : nat → list event → config → Prop :=
  | reach_refl : reach c 0 [] c
  | reach_step n tr c1 ev c2 :
      reach c n tr c1 → step c1 ev c2 → reach c (S n) (tr ++ option_list ev) c2.

(** A call that runs alone, on the values in memory: its result. *)
Fixpoint solo (fuel : nat) (q : ring) (p : pc) : option (ring * event) :=
  match fuel with
  | O => None
  | S fuel =>
      match thread_step (Choice None false) q p with
      | Some (q', _, Some e) => Some (q', e)
      | Some (q', p', None) => solo fuel q' p'
      | None => None
      end
  end.

(** What [create] leaves: [cap] cells, the cell [i] with sequence number [i]. *)
Definition initial (cap : Z) (v0 : V) : ring :=
  Ring 0 0 cap (cap - 1) ((λ i, Cell i v0) <$> seqZ 0 cap).
End ring.

Arguments cell : clear implicits.
Arguments ring : clear implicits.
Arguments pc : clear implicits.
Arguments event : clear implicits.
Arguments config : clear implicits.
End TicketRing.
