(* ===== verification/TicketRingInv.v ===== *)
(** * The invariant of the ring of tickets

    Each cell is free, being written, full or being read, for one ticket; a
    thread between taking its ticket and releasing the cell owns that cell.
    [log] is the list of the values enqueued, by ticket. *)
From S2P Require Import Prelude World TicketRing.

Module TicketRingInv.
Import TicketRing.

Section inv.
Context {V : Type}.
Variable k : Z.
Hypothesis Hk : 1 ≤ k ≤ 60.
Abbreviation C := (2 ^ k).

(** Tickets stay below this bound in the executions considered. *)
Abbreviation limit := (2 ^ 62).

Lemma C_bounds : 2 ≤ C ≤ 2 ^ 60.
Proof. split; [change 2 with (2 ^ 1) at 1|]; apply Z.pow_le_mono_r; lia. Qed.

Inductive phase : Type :=
  | PFree (p : Z) | PWriting (p : Z) (t : nat) | PFull (p : Z) | PReading (p : Z) (t : nat).

Definition ticket (ph : phase) : Z :=
  match ph with PFree p | PWriting p _ | PFull p | PReading p _ => p end.

(** The owner of a cell in that phase, with what it still has to do. *)
Definition owner (ph : phase) : option nat :=
  match ph with PWriting _ t | PReading _ t => Some t | _ => None end.

Definition cell_ok (T H : Z) (log : list V) (i : nat) (ph : phase) (c : cell V) : Prop :=
  0 ≤ ticket ph ∧ ticket ph `mod` C = Z.of_nat i ∧
  match ph with
  | PFree p => sequence c = p ∧ T ≤ p ∧ p - C < H
  | PWriting p _ => sequence c = p ∧ H ≤ p < T ∧ T ≤ p + C
  | PFull p => sequence c = p + 1 ∧ H ≤ p < T ∧ T ≤ p + C ∧ log !! Z.to_nat p = Some (data c)
  | PReading p _ => sequence c = p + 1 ∧ p < H ∧ T ≤ p + C ∧ log !! Z.to_nat p = Some (data c)
  end.

Definition idx (p : Z) : nat := Z.to_nat (p `mod` C).

(** What is known of the thread [t] at [p]. *)
Definition pc_ok (q : ring V) (phs : list phase) (log : list V) (t : nat) (p : pc V) : Prop :=
  match p with
  | Idle | ELoad _ | DLoad => True
  | ETest _ pos => 0 ≤ pos ≤ tail q
  | ECas _ pos => 0 ≤ pos ≤ tail q ∧ (pos = tail q → phs !! idx pos = Some (PFree pos))
  | EWrite v pos => 0 ≤ pos ∧ phs !! idx pos = Some (PWriting pos t) ∧ log !! Z.to_nat pos = Some v
  | EPublish v pos =>
      0 ≤ pos ∧ phs !! idx pos = Some (PWriting pos t) ∧ log !! Z.to_nat pos = Some v ∧
      ∃ s, buffer q !! idx pos = Some (Cell s v)
  | DTest pos => 0 ≤ pos ≤ head q
  | DCas pos => 0 ≤ pos ≤ head q ∧ (pos = head q → phs !! idx pos = Some (PFull pos))
  | DRead pos => 0 ≤ pos ∧ phs !! idx pos = Some (PReading pos t)
  | DRelease v pos =>
      0 ≤ pos ∧ phs !! idx pos = Some (PReading pos t) ∧ log !! Z.to_nat pos = Some v
  end.

(** The thread a phase names is at work on that ticket. *)
Definition works (ph : phase) (p : pc V) : Prop :=
  match ph, p with
  | PWriting pos _, (EWrite _ pos' | EPublish _ pos') => pos' = pos
  | PReading pos _, (DRead pos' | DRelease _ pos') => pos' = pos
  | _, _ => False
  end.

Definition enq_tickets (tr : list (event V)) : list Z :=
  omap (λ e, match e with Enqueued _ p => Some p | _ => None end) tr.
Definition deq_tickets (tr : list (event V)) : list Z :=
  omap (λ e, match e with Dequeued _ p => Some p | _ => None end) tr.

Record inv (phs : list phase) (log : list V) (c : config V) : Prop := {
  i_shape : capacity (shared c) = C ∧ mask (shared c) = C - 1 ∧
            length (buffer (shared c)) = Z.to_nat C ∧ length phs = Z.to_nat C;
  i_cursors : 0 ≤ head (shared c) ≤ tail (shared c) ∧ tail (shared c) ≤ head (shared c) + C ∧
              tail (shared c) = Z.of_nat (length log) ∧ tail (shared c) < limit;
  i_cells i ph cl : phs !! i = Some ph → buffer (shared c) !! i = Some cl →
    cell_ok (tail (shared c)) (head (shared c)) log i ph cl;
  i_pcs t p : threads c !! t = Some p → pc_ok (shared c) phs log t p;
  i_owners i ph t : phs !! i = Some ph → owner ph = Some t →
    ∃ p, threads c !! t = Some p ∧ works ph p
}.

Definition writing (phs : list phase) (p : Z) : Prop := ∃ t, phs !! idx p = Some (PWriting p t).
Definition reading (phs : list phase) (p : Z) : Prop := ∃ t, phs !! idx p = Some (PReading p t).

(** The events so far: every ticket taken is at work or done, once. *)
Record trace_ok (phs : list phase) (log : list V) (H : Z) (tr : list (event V)) : Prop := {
  t_enq v p : Enqueued v p ∈ tr → 0 ≤ p ∧ log !! Z.to_nat p = Some v;
  t_deq v p : Dequeued v p ∈ tr → p < H ∧ Enqueued v p ∈ tr;
  t_enq_dup : NoDup (enq_tickets tr);
  t_deq_dup : NoDup (deq_tickets tr);
  t_enq_all p : 0 ≤ p < Z.of_nat (length log) →
    (p ∈ enq_tickets tr ↔ ¬ writing phs p);
  t_deq_all p : 0 ≤ p < H →
    (p ∈ deq_tickets tr ↔ ¬ reading phs p)
}.

(** ** Cells and tickets *)

Lemma slot_idx (q : ring V) p : mask q = C - 1 → slot q p = idx p.
Proof.
  intros E. unfold slot, idx. rewrite E. replace (C - 1) with (Z.ones k) by (rewrite Z.ones_equiv; lia).
  by rewrite Z.land_ones by lia.
Qed.

Lemma idx_lt p : (idx p < Z.to_nat C)%nat.
Proof. unfold idx. pose proof C_bounds. pose proof (Z.mod_pos_bound p C). lia. Qed.

Lemma idx_mod i p : p `mod` C = Z.of_nat i → idx p = i.
Proof. unfold idx. intros ->. by rewrite Nat2Z.id. Qed.

(** Two tickets of one cell less than a lap apart are the same. *)
Lemma same_ticket p p' : idx p = idx p' → - C < p - p' < C → p = p'.
Proof.
  unfold idx. intros E Hlt. pose proof C_bounds.
  pose proof (Z.mod_pos_bound p C). pose proof (Z.mod_pos_bound p' C).
  assert (p `mod` C = p' `mod` C) as E' by lia.
  pose proof (Z.div_mod p C ltac:(lia)). pose proof (Z.div_mod p' C ltac:(lia)).
  assert (p `div` C = p' `div` C) by nia. nia.
Qed.

Lemma idx_next_lap p : idx (p + C) = idx p.
Proof.
  unfold idx. pose proof C_bounds. replace (p + C) with (p + 1 * C) by lia. by rewrite Z.mod_add by lia.
Qed.

Section facts.
Context {phs : list phase} {log : list V} {c : config V}.
Hypothesis Hinv : inv phs log c.

Lemma cell_at p : ∃ ph cl, phs !! idx p = Some ph ∧ buffer (shared c) !! idx p = Some cl ∧
  cell_ok (tail (shared c)) (head (shared c)) log (idx p) ph cl.
Proof.
  destruct (i_shape _ _ _ Hinv) as (_ & _ & Hb & Hp). pose proof (idx_lt p).
  destruct (lookup_lt_is_Some_2 phs (idx p)) as [ph Hph]; [lia|].
  destruct (lookup_lt_is_Some_2 (buffer (shared c)) (idx p)) as [cl Hcl]; [lia|].
  exists ph, cl. split_and!; [done..|]. by eapply (i_cells _ _ _ Hinv).
Qed.

Lemma slot_at p : slot (shared c) p = idx p.
Proof. apply slot_idx. by destruct (i_shape _ _ _ Hinv) as (_ & ? & _). Qed.

(** A sequence number never exceeds the tail by more than a lap. *)
Lemma seq_bounds i ph cl : phs !! i = Some ph → buffer (shared c) !! i = Some cl →
  0 ≤ sequence cl ≤ tail (shared c) + C.
Proof.
  intros Hph Hcl. pose proof (i_cells _ _ _ Hinv _ _ _ Hph Hcl) as (Hp & _ & H).
  destruct (i_cursors _ _ _ Hinv) as (? & ? & _). destruct ph; simpl in *; lia.
Qed.

(** The cell at the tail is free for it exactly when its sequence number says so. *)
Lemma free_at_tail cl s : buffer (shared c) !! idx (tail (shared c)) = Some cl →
  s ≤ sequence cl → s = tail (shared c) → phs !! idx (tail (shared c)) = Some (PFree (tail (shared c))).
Proof.
  intros Hcl Hs ->. destruct (cell_at (tail (shared c))) as (ph & cl' & Hph & Hcl' & Hp & Hi & H).
  simplify_eq. pose proof C_bounds. apply idx_mod in Hi.
  destruct (i_cursors _ _ _ Hinv) as (? & ? & _). destruct ph as [p|p t|p|p t]; simpl in *.
  - rewrite Hph. do 2 f_equal. symmetry. apply same_ticket; [done|lia].
  - lia.
  - assert (tail (shared c) = p) by (apply same_ticket; [done|lia]). lia.
  - assert (tail (shared c) = p) by (apply same_ticket; [done|lia]). lia.
Qed.

Lemma full_at_head cl s : buffer (shared c) !! idx (head (shared c)) = Some cl →
  s ≤ sequence cl → s = head (shared c) + 1 → phs !! idx (head (shared c)) = Some (PFull (head (shared c))).
Proof.
  intros Hcl Hs ->. destruct (cell_at (head (shared c))) as (ph & cl' & Hph & Hcl' & Hp & Hi & H).
  simplify_eq. pose proof C_bounds. apply idx_mod in Hi.
  destruct (i_cursors _ _ _ Hinv) as (? & ? & _). destruct ph as [p|p t|p|p t]; simpl in *.
  - assert (head (shared c) = p) by (apply same_ticket; [done|lia]). lia.
  - assert (head (shared c) = p) by (apply same_ticket; [done|lia]). lia.
  - rewrite Hph. do 2 f_equal. symmetry. apply same_ticket; [done|lia].
  - lia.
Qed.
End facts.

(** ** Steps *)

Lemma log_prefix (log log' : list V) p x :
  log `prefix_of` log' → log !! p = Some x → log' !! p = Some x.
Proof. intros H1 H2. by eapply prefix_lookup_Some. Qed.

(** A step of [t] that keeps the shared memory. *)
Lemma inv_local phs log q ths t p p' :
  inv phs log (Config q ths) → ths !! t = Some p → (∀ ph, works ph p → works ph p') →
  pc_ok q phs log t p' → inv phs log (Config q (<[t := p']> ths)).
Proof.
  intros [Hs Hc Hcl Hp Ho] Ht Hw Hp'. split; try done; simpl in *.
  - intros t2 p2 [(<- & <- & _)|[Hne Ht2]]%list_lookup_insert_Some; [done|by apply Hp].
  - intros i ph t2 Hph Hown. destruct (Ho i ph t2 Hph Hown) as (p2 & Ht2 & Hw2).
    destruct (decide (t2 = t)) as [->|Hne].
    + simplify_eq. exists p'. split; [|by apply Hw]. apply list_lookup_insert_eq. by eapply lookup_lt_Some.
    + exists p2. by rewrite list_lookup_insert_ne.
Qed.

(** The cell [i0] goes from phase [ph0] to [ph1]. *)
Record moves (phs : list phase) (log log' : list V) (q q' : ring V) (t i0 : nat) (ph0 ph1 : phase) : Prop := {
  m_phase : phs !! i0 = Some ph0;
  m_owner : owner ph0 = None ∨ owner ph0 = Some t;
  m_owner' : owner ph1 = None ∨ owner ph1 = Some t;
  m_log : log `prefix_of` log';
  m_shape : capacity q' = capacity q ∧ mask q' = mask q;
  m_buffer : ∃ cl, buffer q' = <[i0 := cl]> (buffer q) ∧ cell_ok (tail q') (head q') log' i0 ph1 cl;
  m_mono : tail q ≤ tail q' ∧ head q ≤ head q';
  m_cursors : head q' ≤ tail q' ∧ tail q' ≤ head q' + C ∧
              tail q' = Z.of_nat (length log') ∧ tail q' < limit;
  m_free pos : ph0 = PFree pos → tail q < tail q';
  m_full pos : ph0 = PFull pos → head q < head q';
  m_others i ph cl : i ≠ i0 → phs !! i = Some ph → cell_ok (tail q) (head q) log i ph cl →
    cell_ok (tail q') (head q') log' i ph cl
}.

Lemma moves_pc phs log log' q q' t i0 ph0 ph1 t2 p :
  moves phs log log' q q' t i0 ph0 ph1 → t2 ≠ t →
  pc_ok q phs log t2 p → pc_ok q' (<[i0 := ph1]> phs) log' t2 p.
Proof.
  intros [Hph Ho _ Hl _ (cl & Hb & _) Hm _ Hfr Hfu _] Hne.
  assert (∀ i ph, phs !! i = Some ph → owner ph = Some t2 → i ≠ i0) as Hi.
  { intros i ph H1 H2 ->. simplify_eq. naive_solver. }
  destruct p as [|v|v pos|v pos|v pos|v pos| |pos|pos|pos|v pos]; simpl; try done; try lia.
  - intros [Hpos Hp]. split; [lia|]. intros E. assert (pos = tail q) as E2 by lia.
    specialize (Hp E2). rewrite list_lookup_insert_ne; [done|]. intros ->. simplify_eq.
    pose proof (Hfr _ eq_refl). lia.
  - intros (Hpos & Hp & Hv). pose proof (Hi _ _ Hp eq_refl). rewrite list_lookup_insert_ne by done.
    split_and!; [done..|by eapply log_prefix].
  - intros (Hpos & Hp & Hv & s & Hs). pose proof (Hi _ _ Hp eq_refl). rewrite list_lookup_insert_ne by done.
    split_and!; [done..|by eapply log_prefix|]. exists s. rewrite Hb. by rewrite list_lookup_insert_ne.
  - intros [Hpos Hp]. split; [lia|]. intros E. assert (pos = head q) as E2 by lia.
    specialize (Hp E2). rewrite list_lookup_insert_ne; [done|]. intros ->. simplify_eq.
    pose proof (Hfu _ eq_refl). lia.
  - intros (Hpos & Hp). pose proof (Hi _ _ Hp eq_refl). by rewrite list_lookup_insert_ne.
  - intros (Hpos & Hp & Hv). pose proof (Hi _ _ Hp eq_refl). rewrite list_lookup_insert_ne by done.
    split_and!; [done..|by eapply log_prefix].
Qed.

Lemma inv_move phs log log' q q' ths t p p' i0 ph0 ph1 :
  inv phs log (Config q ths) → ths !! t = Some p → moves phs log log' q q' t i0 ph0 ph1 →
  (∀ ph, works ph p → idx (ticket ph) = i0) → (owner ph1 = Some t → works ph1 p') →
  pc_ok q' (<[i0 := ph1]> phs) log' t p' →
  inv (<[i0 := ph1]> phs) log' (Config q' (<[t := p']> ths)).
Proof.
  intros [Hs Hc Hcl Hp Ho] Ht Hm Hwi Hw' Hp'. simpl in *.
  destruct (id Hm) as [Hph Hown Hown' Hl (Ec & Em) (cl & Hb & Hclo) Hmono Hcur Hfr Hfu Hoth].
  assert (i0 < length phs)%nat as Hlt by (by eapply lookup_lt_Some). split; simpl.
  - rewrite Hb, Ec, Em, !length_insert. done.
  - lia.
  - intros i ph c2. rewrite Hb. intros [(<- & <- & _)|[Hne Hphi]]%list_lookup_insert_Some.
    + rewrite list_lookup_insert_eq by lia. by intros [= <-].
    + rewrite list_lookup_insert_ne by done. intros Hc2. apply Hoth; [done..|]. by apply Hcl.
  - intros t2 p2 [(<- & <- & _)|[Hne Ht2]]%list_lookup_insert_Some; [done|].
    eapply moves_pc; [exact Hm|done|by apply Hp].
  - intros i ph t2 [(<- & <- & _)|[Hne Hphi]]%list_lookup_insert_Some Howni.
    + assert (t2 = t) as -> by naive_solver. exists p'. split; [|by apply Hw'].
      apply list_lookup_insert_eq. by eapply lookup_lt_Some.
    + destruct (Ho i ph t2 Hphi Howni) as (p2 & Ht2 & Hw2). exists p2. split; [|done].
      rewrite list_lookup_insert_ne; [done|]. intros ->. simplify_eq. apply Hne.
      rewrite <- (Hwi _ Hw2). destruct Hs as (_ & _ & Hlb & Hlp).
      destruct (lookup_lt_is_Some_2 (buffer q) i) as [c2 Hc2].
      { apply lookup_lt_Some in Hphi. lia. }
      destruct (Hcl i ph c2 Hphi Hc2) as (_ & Hi & _). by apply idx_mod.
Qed.

Section thread.
Context {phs : list phase} {log : list V} {q : ring V} {ths : list (pc V)} {t : nat}.
Hypothesis Hinv : inv phs log (Config q ths).

Lemma claim_enqueue v pos :
  ths !! t = Some (ECas v pos) → tail q = pos → pos + 1 < limit →
  phs !! idx pos = Some (PFree pos) ∧
  inv (<[idx pos := PWriting pos t]> phs) (log ++ [v])
    (Config (set_tail q (pos + 1)) (<[t := EWrite v pos]> ths)).
Proof.
  intros Ht <- Hlim. destruct (i_pcs _ _ _ Hinv _ _ Ht) as [Hpos Hfree]. simpl in Hpos, Hfree.
  specialize (Hfree eq_refl). split; [done|]. pose proof C_bounds.
  destruct (i_cursors _ _ _ Hinv) as (Hh & Hc & Hlen & _). simpl in *.
  destruct (cell_at Hinv (tail q)) as (ph & cl & Hph & Hcl & Hok). simplify_eq. simpl in *.
  destruct Hok as (_ & Hi & Hs & _ & Hroom). simpl in *.
  assert ((log ++ [v]) !! Z.to_nat (tail q) = Some v) as Hv.
  { replace (Z.to_nat (tail q)) with (length log) by lia. by rewrite list_lookup_middle. }
  assert (idx (tail q) < length phs)%nat as Hlt by (by eapply lookup_lt_Some).
  eapply inv_move with (p := ECas v (tail q)) (ph0 := PFree (tail q)); [done|done| | |done|].
  - split; try done; simpl.
    + by left.
    + by right.
    + by apply prefix_app_r.
    + exists cl. split; [by rewrite list_insert_id|]. split_and!; simpl; try done; lia.
    + lia.
    + rewrite length_app. simpl. lia.
    + intros ? _. lia.
    + intros i ph c2 Hne Hphi (Hp & Hm & Hok). split_and!; [done..|].
      assert (ticket ph ≠ tail q) as Hnt by (intros E; apply Hne; rewrite <- E; symmetry; by apply idx_mod).
      assert (ticket ph + C ≠ tail q) as Hlap.
      { intros E. apply Hne. rewrite <- E, idx_next_lap. symmetry. by apply idx_mod. }
      destruct ph as [p|p t2|p|p t2]; simpl in *; [lia|lia|..];
        destruct Hok as (? & ? & ? & Hl); (split_and!; [lia..|]); by apply lookup_app_l_Some.
  - intros [] ?; done.
  - simpl. rewrite list_lookup_insert_eq by done. split_and!; [lia|done|done].
Qed.

(** A step on a cell the thread owns. *)
Lemma moves_owned pos cl ph0 ph1 :
  phs !! idx pos = Some ph0 → owner ph0 = Some t → owner ph1 = None ∨ owner ph1 = Some t →
  cell_ok (tail q) (head q) log (idx pos) ph1 cl →
  moves phs log log q (set_cell q pos cl) t (idx pos) ph0 ph1.
Proof.
  intros Hph Ho Ho' Hcl. destruct (i_cursors _ _ _ Hinv) as (Hh & Hc & Hlen & Hlim). simpl in *.
  split; try done; simpl; try lia.
  - by right.
  - exists cl. split; [|done]. pose proof (slot_at Hinv pos) as Hsl. simpl in Hsl. by rewrite Hsl.
  - intros pos' ->. done.
  - intros pos' ->. done.
Qed.

Lemma write_cell v pos :
  ths !! t = Some (EWrite v pos) → ∃ cl, buffer q !! slot q pos = Some cl ∧
  inv phs log (Config (set_cell q pos (Cell (sequence cl) v)) (<[t := EPublish v pos]> ths)).
Proof.
  intros Ht. destruct (i_pcs _ _ _ Hinv _ _ Ht) as (Hpos & Hph & Hv). simpl in *.
  destruct (cell_at Hinv pos) as (ph & cl & Hph' & Hcl & Hok). simplify_eq. simpl in *.
  pose proof (slot_at Hinv pos) as Hsl. simpl in Hsl. rewrite Hsl. exists cl. split; [done|].
  rewrite <- (list_insert_id phs (idx pos) (PWriting pos t)) by done.
  eapply inv_move with (p := EWrite v pos) (ph0 := PWriting pos t); [done|done| | |done|].
  - apply moves_owned; [done|done|by right|]. exact Hok.
  - intros [] ?; simplify_eq/=; done.
  - simpl. rewrite Hsl. rewrite list_insert_id by done. split_and!; try done.
    eexists. rewrite list_lookup_insert_eq by (by eapply lookup_lt_Some). done.
Qed.

Lemma publish_cell v pos :
  ths !! t = Some (EPublish v pos) → ∃ cl, buffer q !! slot q pos = Some cl ∧
  phs !! idx pos = Some (PWriting pos t) ∧ 0 ≤ pos < tail q ∧ log !! Z.to_nat pos = Some v ∧
  inv (<[idx pos := PFull pos]> phs) log
    (Config (set_cell q pos (Cell (pos + 1) (data cl))) (<[t := Idle]> ths)).
Proof.
  intros Ht. destruct (i_pcs _ _ _ Hinv _ _ Ht) as (Hpos & Hph & Hv & s & Hs). simpl in *.
  destruct (cell_at Hinv pos) as (ph & cl & Hph' & Hcl & Hok). simplify_eq. simpl in *.
  pose proof (slot_at Hinv pos) as Hsl. simpl in Hsl. rewrite Hsl. exists cl.
  destruct Hok as (? & ? & ? & ? & ?). simpl in *. split_and!; [done|done|lia|lia|done|].
  eapply inv_move with (p := EPublish v pos) (ph0 := PWriting pos t); [done|done| | |done|done].
  - apply moves_owned; [done|done|by left|]. split_and!; simpl; try done; try lia. by simplify_eq.
  - intros [] ?; simplify_eq/=; done.
Qed.

Lemma claim_dequeue pos :
  ths !! t = Some (DCas pos) → head q = pos →
  phs !! idx pos = Some (PFull pos) ∧ pos < tail q ∧
  inv (<[idx pos := PReading pos t]> phs) log
    (Config (set_head q (pos + 1)) (<[t := DRead pos]> ths)).
Proof.
  intros Ht <-. destruct (i_pcs _ _ _ Hinv _ _ Ht) as [Hpos Hfull]. simpl in Hpos, Hfull.
  specialize (Hfull eq_refl). split; [done|]. pose proof C_bounds.
  destruct (i_cursors _ _ _ Hinv) as (Hh & Hc & Hlen & Hlim). simpl in *.
  destruct (cell_at Hinv (head q)) as (ph & cl & Hph & Hcl & Hok). simplify_eq. simpl in *.
  destruct Hok as (_ & Hi & Hs & Hb & Hroom & Hd). simpl in *. split; [lia|].
  assert (idx (head q) < length phs)%nat as Hlt by (by eapply lookup_lt_Some).
  eapply inv_move with (p := DCas (head q)) (ph0 := PFull (head q)); [done|done| | |done|].
  - split; try done; simpl; try lia.
    + by left.
    + by right.
    + exists cl. split; [by rewrite list_insert_id|]. split_and!; simpl; try done; lia.
    + intros i ph c2 Hne Hphi (Hp & Hm & Hok). split_and!; [done..|].
      assert (ticket ph ≠ head q) as Hnt by (intros E; apply Hne; rewrite <- E; symmetry; by apply idx_mod).
      destruct ph as [p|p t2|p|p t2]; simpl in *; [lia|lia|..];
        destruct Hok as (? & ? & ? & Hl); by split_and!; try lia.
  - intros [] ?; done.
  - simpl. rewrite list_lookup_insert_eq by done. split; [lia|done].
Qed.

Lemma read_cell pos :
  ths !! t = Some (DRead pos) → ∃ cl, buffer q !! slot q pos = Some cl ∧
  inv phs log (Config q (<[t := DRelease (data cl) pos]> ths)).
Proof.
  intros Ht. destruct (i_pcs _ _ _ Hinv _ _ Ht) as (Hpos & Hph). simpl in *.
  destruct (cell_at Hinv pos) as (ph & cl & Hph' & Hcl & Hok). simplify_eq. simpl in *.
  pose proof (slot_at Hinv pos) as Hsl. simpl in Hsl. rewrite Hsl. exists cl. split; [done|].
  eapply inv_local; [done|exact Ht|by intros []|].
  destruct Hok as (? & ? & ? & ? & ? & ?). by split_and!.
Qed.

Lemma release_cell v pos :
  ths !! t = Some (DRelease v pos) → ∃ cl, buffer q !! slot q pos = Some cl ∧
  phs !! idx pos = Some (PReading pos t) ∧ 0 ≤ pos < head q ∧ log !! Z.to_nat pos = Some v ∧
  inv (<[idx pos := PFree (pos + C)]> phs) log
    (Config (set_cell q pos (Cell (pos + C) (data cl))) (<[t := Idle]> ths)).
Proof.
  intros Ht. destruct (i_pcs _ _ _ Hinv _ _ Ht) as (Hpos & Hph & Hv). simpl in *. pose proof C_bounds.
  destruct (cell_at Hinv pos) as (ph & cl & Hph' & Hcl & Hok). simplify_eq. simpl in *.
  pose proof (slot_at Hinv pos) as Hsl. simpl in Hsl. rewrite Hsl. exists cl.
  destruct Hok as (? & Hm & ? & ? & ? & ?). simpl in *. split_and!; [done|done|lia|lia|done|].
  eapply inv_move with (p := DRelease v pos) (ph0 := PReading pos t); [done|done| | |done|done].
  - apply moves_owned; [done|done|by left|]. split_and!; simpl; try done; try lia.
    rewrite <- Hm. replace (pos + C) with (pos + 1 * C) by lia. by rewrite Z.mod_add by lia.
  - intros [] ?; simplify_eq/=; done.
Qed.
End thread.

(** ** The events *)

Lemma enq_tickets_app (tr : list (event V)) e : enq_tickets (tr ++ e) = enq_tickets tr ++ enq_tickets e.
Proof. apply omap_app. Qed.
Lemma deq_tickets_app (tr : list (event V)) e : deq_tickets (tr ++ e) = deq_tickets tr ++ deq_tickets e.
Proof. apply omap_app. Qed.

Lemma elem_of_enq (tr : list (event V)) p : p ∈ enq_tickets tr ↔ ∃ v, Enqueued v p ∈ tr.
Proof.
  unfold enq_tickets. rewrite list_elem_of_omap. split.
  - intros ([] & He & [= ->]). by eexists.
  - intros [v Hv]. by exists (Enqueued v p).
Qed.
Lemma elem_of_deq (tr : list (event V)) p : p ∈ deq_tickets tr ↔ ∃ v, Dequeued v p ∈ tr.
Proof.
  unfold deq_tickets. rewrite list_elem_of_omap. split.
  - intros ([] & He & [= ->]). by eexists.
  - intros [v Hv]. by exists (Dequeued v p).
Qed.

Lemma writing_insert phs pos ph0 ph1 p :
  phs !! idx pos = Some ph0 →
  writing (<[idx pos := ph1]> phs) p ↔
    if decide (idx p = idx pos) then ∃ t, ph1 = PWriting p t else writing phs p.
Proof.
  intros H. unfold writing. case_decide as E.
  - rewrite E, list_lookup_insert_eq by (by eapply lookup_lt_Some). naive_solver.
  - by rewrite list_lookup_insert_ne.
Qed.
Lemma reading_insert phs pos ph0 ph1 p :
  phs !! idx pos = Some ph0 →
  reading (<[idx pos := ph1]> phs) p ↔
    if decide (idx p = idx pos) then ∃ t, ph1 = PReading p t else reading phs p.
Proof.
  intros H. unfold reading. case_decide as E.
  - rewrite E, list_lookup_insert_eq by (by eapply lookup_lt_Some). naive_solver.
  - by rewrite list_lookup_insert_ne.
Qed.

Lemma writing_at phs pos ph p : phs !! idx pos = Some ph → idx p = idx pos →
  writing phs p ↔ ∃ t, ph = PWriting p t.
Proof. unfold writing. intros H ->. rewrite H. naive_solver. Qed.
Lemma reading_at phs pos ph p : phs !! idx pos = Some ph → idx p = idx pos →
  reading phs p ↔ ∃ t, ph = PReading p t.
Proof. unfold reading. intros H ->. rewrite H. naive_solver. Qed.

Lemma trace_quiet phs log H tr ev :
  trace_ok phs log H tr → (∀ v p, ev ≠ Some (Enqueued v p) ∧ ev ≠ Some (Dequeued v p)) →
  trace_ok phs log H (tr ++ option_list ev).
Proof.
  intros [He Hd Hed Hdd Hea Hda] Hev.
  assert (enq_tickets (option_list ev) = [] ∧ deq_tickets (option_list ev) = []) as [E1 E2].
  { destruct ev as [[]|]; try done; by destruct (Hev v pos). }
  assert (∀ v p, Enqueued v p ∈ tr ++ option_list ev → Enqueued v p ∈ tr) as M1.
  { intros v p [?|Hin]%elem_of_app; [done|]. destruct ev; [|by apply elem_of_nil in Hin].
    apply list_elem_of_singleton in Hin as <-. by destruct (Hev v p). }
  split.
  - intros v p H1%M1. by apply He.
  - intros v p [H1|Hin]%elem_of_app.
    + apply Hd in H1 as [? ?]. split; [done|]. apply elem_of_app. by left.
    + destruct ev; [|by apply elem_of_nil in Hin].
      apply list_elem_of_singleton in Hin as <-. by destruct (Hev v p).
  - by rewrite enq_tickets_app, E1, app_nil_r.
  - by rewrite deq_tickets_app, E2, app_nil_r.
  - intros p Hp. rewrite enq_tickets_app, E1, app_nil_r. by apply Hea.
  - intros p Hp. rewrite deq_tickets_app, E2, app_nil_r. by apply Hda.
Qed.

(** The cell of [pos] changes its phase without an event. *)
Lemma trace_phase phs log log' H H' tr pos ph0 ph1 :
  trace_ok phs log H tr → phs !! idx pos = Some ph0 → log `prefix_of` log' → 0 ≤ H ≤ H' →
  (∀ p, 0 ≤ p < Z.of_nat (length log) → idx p = idx pos →
     (∃ t, ph0 = PWriting p t) ↔ ∃ t, ph1 = PWriting p t) →
  (∀ p, 0 ≤ p < H → idx p = idx pos → (∃ t, ph0 = PReading p t) ↔ ∃ t, ph1 = PReading p t) →
  (∀ p, Z.of_nat (length log) ≤ p < Z.of_nat (length log') → idx p = idx pos ∧ ∃ t, ph1 = PWriting p t) →
  (∀ p, H ≤ p < H' → idx p = idx pos ∧ ∃ t, ph1 = PReading p t) →
  trace_ok (<[idx pos := ph1]> phs) log' H' tr.
Proof.
  intros [He Hd Hed Hdd Hea Hda] Hph Hlog HH Hw Hr Hnw Hnr. split; try done.
  - intros v p [? ?]%He. split; [done|]. by eapply log_prefix.
  - intros v p [? ?]%Hd. split; [lia|done].
  - intros p Hp. rewrite (writing_insert _ _ ph0) by done.
    destruct (decide (p < Z.of_nat (length log))) as [Hlt|Hge].
    + rewrite Hea by lia. case_decide as E; [|done]. rewrite <- (Hw p) by (done || lia).
      by rewrite (writing_at _ _ _ _ Hph E).
    + destruct (Hnw p) as [E Ht]; [lia|]. rewrite decide_True by done. split; [|tauto].
      intros [v [_ Hv]%He]%elem_of_enq. apply lookup_lt_Some in Hv. lia.
  - intros p Hp. rewrite (reading_insert _ _ ph0) by done.
    destruct (decide (p < H)) as [Hlt|Hge].
    + rewrite Hda by lia. case_decide as E; [|done]. rewrite <- (Hr p) by (done || lia).
      by rewrite (reading_at _ _ _ _ Hph E).
    + destruct (Hnr p) as [E Ht]; [lia|]. rewrite decide_True by done. split; [|tauto].
      intros [v [? _]%Hd]%elem_of_deq. lia.
Qed.

(** The work on the ticket [pos] is done. *)
Lemma trace_enqueued phs log H tr v pos t :
  trace_ok phs log H tr → phs !! idx pos = Some (PWriting pos t) → 0 ≤ pos →
  log !! Z.to_nat pos = Some v →
  trace_ok (<[idx pos := PFull pos]> phs) log H (tr ++ [Enqueued v pos]).
Proof.
  intros [He Hd Hed Hdd Hea Hda] Hph Hpos Hv. pose proof (lookup_lt_Some _ _ _ Hv) as Hlt.
  assert (¬ pos ∈ enq_tickets tr) as Hnew.
  { rewrite Hea by lia. intros Hn. apply Hn. by exists t. }
  split.
  - intros v' p [Hin|Hin]%elem_of_app; [by apply He|]. apply list_elem_of_singleton in Hin. by simplify_eq.
  - intros v' p [Hin|Hin]%elem_of_app; [|by apply list_elem_of_singleton in Hin].
    apply Hd in Hin as [? ?]. split; [done|]. apply elem_of_app. by left.
  - rewrite enq_tickets_app. apply NoDup_app. split_and!; [done| |apply NoDup_singleton].
    intros p Hp Hp2. apply list_elem_of_singleton in Hp2. by subst.
  - by rewrite deq_tickets_app, app_nil_r.
  - intros p Hp. rewrite enq_tickets_app, elem_of_app. simpl. rewrite list_elem_of_singleton.
    rewrite Hea by lia. rewrite (writing_insert _ _ (PWriting pos t)) by done. case_decide as E.
    + rewrite (writing_at _ _ _ _ Hph E). split; [naive_solver|]. intros _.
      destruct (decide (p = pos)) as [|Hne]; [by right|left]. intros [t' ?]. naive_solver.
    + split; [naive_solver|]. by left.
  - intros p Hp. rewrite deq_tickets_app, app_nil_r. rewrite Hda by done.
    rewrite (reading_insert _ _ (PWriting pos t)) by done. case_decide as E; [|done].
    rewrite (reading_at _ _ _ _ Hph E). naive_solver.
Qed.

Lemma trace_dequeued phs log H tr v pos t :
  trace_ok phs log H tr → phs !! idx pos = Some (PReading pos t) → 0 ≤ pos < H →
  H ≤ Z.of_nat (length log) → log !! Z.to_nat pos = Some v →
  trace_ok (<[idx pos := PFree (pos + C)]> phs) log H (tr ++ [Dequeued v pos]).
Proof.
  intros [He Hd Hed Hdd Hea Hda] Hph Hpos HH Hv.
  assert (¬ pos ∈ deq_tickets tr) as Hnew.
  { rewrite Hda by lia. intros Hn. apply Hn. by exists t. }
  assert (Enqueued v pos ∈ tr) as Henq.
  { assert (pos ∈ enq_tickets tr) as Hin.
    { rewrite Hea by lia. rewrite (writing_at _ _ _ _ Hph) by done. naive_solver. }
    apply elem_of_enq in Hin as [v' Hin]. destruct (He _ _ Hin) as [_ Hv']. by simplify_eq. }
  split.
  - intros v' p [Hin|Hin]%elem_of_app; [by apply He|]. by apply list_elem_of_singleton in Hin.
  - intros v' p [Hin|Hin]%elem_of_app.
    + apply Hd in Hin as [? ?]. split; [done|]. apply elem_of_app. by left.
    + apply list_elem_of_singleton in Hin. simplify_eq. split; [lia|]. apply elem_of_app. by left.
  - by rewrite enq_tickets_app, app_nil_r.
  - rewrite deq_tickets_app. apply NoDup_app. split_and!; [done| |apply NoDup_singleton].
    intros p Hp Hp2. apply list_elem_of_singleton in Hp2. by subst.
  - intros p Hp. rewrite enq_tickets_app, app_nil_r. rewrite Hea by done.
    rewrite (writing_insert _ _ (PReading pos t)) by done. case_decide as E; [|done].
    rewrite (writing_at _ _ _ _ Hph E). naive_solver.
  - intros p Hp. rewrite deq_tickets_app, elem_of_app. simpl. rewrite list_elem_of_singleton.
    rewrite Hda by lia. rewrite (reading_insert _ _ (PReading pos t)) by done. case_decide as E.
    + rewrite (reading_at _ _ _ _ Hph E). split; [naive_solver|]. intros _.
      destruct (decide (p = pos)) as [|Hne]; [by right|left]. intros [t' ?]. naive_solver.
    + split; [naive_solver|]. by left.
Qed.

(** ** All steps *)

Definition ok (tr : list (event V)) (c : config V) : Prop :=
  ∃ phs log, inv phs log c ∧ trace_ok phs log (head (shared c)) tr.

Lemma aload_le ch x : 0 ≤ x → 0 ≤ aload ch x ≤ x.
Proof.
  unfold aload. destruct (seen ch) as [y|]; [|lia].
  destruct (Z.leb_spec 0 y), (Z.leb_spec y x); simpl; lia.
Qed.

Lemma to_signed_small x : x < 2 ^ 63 → to_signed x = x.
Proof. intros Hx. unfold to_signed. by rewrite (proj2 (Z.ltb_lt _ _)). Qed.

(** A step that keeps the shared memory and shows nothing new. *)
Lemma ok_local tr q ths t p p' ev :
  ok tr (Config q ths) → ths !! t = Some p → (∀ ph, ¬ works ph p) →
  (∀ v x, ev ≠ Some (Enqueued v x) ∧ ev ≠ Some (Dequeued v x)) →
  (∀ phs log, inv phs log (Config q ths) → pc_ok q phs log t p') →
  ok (tr ++ option_list ev) (Config q (<[t := p']> ths)).
Proof.
  intros (phs & log & Hi & Htr) Ht Hw Hev Hp. exists phs, log. split; [|by apply trace_quiet].
  eapply inv_local; [done|exact Ht| |by apply Hp]. intros ph Hph. by apply Hw in Hph.
Qed.

(** The test of a cell's sequence number. *)
Lemma test_tail phs log q ths pos cl s v t :
  inv phs log (Config q ths) → 0 ≤ pos ≤ tail q → buffer q !! idx pos = Some cl → s ≤ sequence cl →
  s = pos → pc_ok q phs log t (ECas v pos).
Proof.
  intros Hi Hpos Hcl Hs E. split; [lia|]. intros ->. by eapply (free_at_tail Hi).
Qed.

Lemma test_head phs log q ths pos cl s t :
  inv phs log (Config q ths) → 0 ≤ pos ≤ head q → buffer q !! idx pos = Some cl → s ≤ sequence cl →
  s = pos + 1 → pc_ok q phs log t (DCas pos).
Proof.
  intros Hi Hpos Hcl Hs E. split; [lia|]. intros ->. by eapply (full_at_head Hi).
Qed.

Lemma ok_enqueue tr q ths t ch p q' p' ev :
  ok tr (Config q ths) → ths !! t = Some p → enqueue_step ch q p = Some (q', p', ev) →
  tail q + 1 < limit → ok (tr ++ option_list ev) (Config q' (<[t := p']> ths)) ∧ tail q' ≤ tail q + 1.
Proof.
  intros (phs & log & Hi & Htr) Ht Hstep Hlim. pose proof (i_pcs _ _ _ Hi _ _ Ht) as Hp.
  pose proof (i_cursors _ _ _ Hi) as (Hh & Hc & Hlen & _). simpl in Hh, Hc, Hlen, Htr. pose proof C_bounds.
  assert (ok tr (Config q ths)) as Hok by (by exists phs, log).
  destruct p as [|v|v pos|v pos|v pos|v pos| | | | |]; simpl in Hstep; try done; simpl in Hp.
  - simplify_eq. split; [|lia]. eapply ok_local; [done|exact Ht|intros [] []|done|]. intros ? ? _. apply aload_le. lia.
  - destruct (cell_at Hi pos) as (ph & cl & Hph & Hcl & _). simpl in Hcl.
    pose proof (slot_at Hi pos) as Hsl. simpl in Hsl. rewrite Hsl, Hcl in Hstep. simpl in Hstep.
    pose proof (seq_bounds Hi _ _ _ Hph Hcl) as Hsb. simpl in Hsb.
    pose proof (aload_le ch (sequence cl) ltac:(lia)) as Hal.
    rewrite !to_signed_small in Hstep by lia.
    destruct (Z.eqb_spec (aload ch (sequence cl) - pos) 0) as [E|]; simplify_eq.
    + split; [|lia]. eapply ok_local; [done|exact Ht|intros [] []|done|]. intros phs' log' Hi'.
      eapply (test_tail _ _ _ _ _ _ (aload ch (sequence cl))); [exact Hi'|done|exact Hcl|lia|lia].
    + destruct (aload ch (sequence cl) - pos <? 0); simplify_eq; (split; [|lia]);
        (eapply ok_local; [done|exact Ht|intros [] []|done|done]).
  - destruct (negb (spurious ch) && (tail q =? pos)) eqn:E; simplify_eq.
    + apply andb_true_iff in E as [_ E%Z.eqb_eq]. subst pos. rewrite wrap64_small by lia. split; [|simpl; lia].
      destruct (claim_enqueue Hi v (tail q) Ht eq_refl Hlim) as [Hfree Hi'].
      exists (<[idx (tail q) := PWriting (tail q) t]> phs), (log ++ [v]). split; [done|]. simpl.
      rewrite app_nil_r. eapply trace_phase; [exact Htr|exact Hfree|by apply prefix_app_r|lia|..].
      * intros p Hpl _. split; intros [t' E']; simplify_eq. lia.
      * naive_solver.
      * intros p. rewrite length_app. simpl. intros Hpl. assert (p = tail q) as -> by lia. eauto.
      * lia.
    + split; [|lia]. eapply ok_local; [done|exact Ht|intros [] []|done|]. intros ? ? _. apply aload_le. lia.
  - destruct (write_cell Hi v pos Ht) as (cl & Hcl & Hi'). rewrite Hcl in Hstep. simpl in Hstep. simplify_eq.
    split; [|simpl; lia]. exists phs, log. split; [done|]. by apply trace_quiet.
  - destruct (publish_cell Hi v pos Ht) as (cl & Hcl & Hph & Hpos & Hv & Hi'). rewrite Hcl in Hstep.
    simpl in Hstep. rewrite wrap64_small in Hstep by lia. simplify_eq. split; [|simpl; lia].
    eexists _, _. split; [exact Hi'|]. simpl. eapply trace_enqueued; [done|done|lia|done].
Qed.

Lemma ok_dequeue tr q ths t ch p q' p' ev :
  ok tr (Config q ths) → ths !! t = Some p → dequeue_step ch q p = Some (q', p', ev) →
  ok (tr ++ option_list ev) (Config q' (<[t := p']> ths)) ∧ tail q' = tail q.
Proof.
  intros (phs & log & Hi & Htr) Ht Hstep. pose proof (i_pcs _ _ _ Hi _ _ Ht) as Hp.
  pose proof (i_cursors _ _ _ Hi) as (Hh & Hc & Hlen & Hlim). simpl in Hh, Hc, Hlen, Hlim, Htr. pose proof C_bounds.
  assert (ok tr (Config q ths)) as Hok by (by exists phs, log).
  destruct p as [| | | | | | |pos|pos|pos|v pos]; simpl in Hstep; try done; simpl in Hp.
  - simplify_eq. split; [|done]. eapply ok_local; [done|exact Ht|intros [] []|done|]. intros ? ? _. apply aload_le. lia.
  - destruct (cell_at Hi pos) as (ph & cl & Hph & Hcl & _). simpl in Hcl.
    pose proof (slot_at Hi pos) as Hsl. simpl in Hsl. rewrite Hsl, Hcl in Hstep. simpl in Hstep.
    pose proof (seq_bounds Hi _ _ _ Hph Hcl) as Hsb. simpl in Hsb.
    pose proof (aload_le ch (sequence cl) ltac:(lia)) as Hal.
    rewrite (wrap64_small (pos + 1)) in Hstep by lia. rewrite !to_signed_small in Hstep by lia.
    destruct (Z.eqb_spec (aload ch (sequence cl) - (pos + 1)) 0) as [E|]; simplify_eq.
    + split; [|done]. eapply ok_local; [done|exact Ht|intros [] []|done|]. intros phs' log' Hi'.
      eapply (test_head _ _ _ _ _ _ (aload ch (sequence cl))); [exact Hi'|done|exact Hcl|lia|lia].
    + destruct (aload ch (sequence cl) - (pos + 1) <? 0); simplify_eq; (split; [|done]);
        (eapply ok_local; [done|exact Ht|intros [] []|done|done]).
  - destruct (negb (spurious ch) && (head q =? pos)) eqn:E; simplify_eq.
    + apply andb_true_iff in E as [_ E%Z.eqb_eq]. subst pos. rewrite wrap64_small by lia. split; [|done].
      destruct (claim_dequeue Hi (head q) Ht eq_refl) as (Hfull & Hlt & Hi').
      exists (<[idx (head q) := PReading (head q) t]> phs), log. split; [done|]. simpl.
      rewrite app_nil_r. eapply trace_phase; [exact Htr|exact Hfull|done|lia|..].
      * naive_solver.
      * intros p Hpl _. split; intros [t' E']; simplify_eq. lia.
      * lia.
      * intros p Hpl. assert (p = head q) as -> by lia. eauto.
    + split; [|done]. eapply ok_local; [done|exact Ht|intros [] []|done|]. intros ? ? _. apply aload_le. lia.
  - destruct (read_cell Hi pos Ht) as (cl & Hcl & Hi'). rewrite Hcl in Hstep. simpl in Hstep. simplify_eq.
    split; [|done]. exists phs, log. split; [done|]. by apply trace_quiet.
  - destruct (release_cell Hi v pos Ht) as (cl & Hcl & Hph & Hpos & Hv & Hi'). rewrite Hcl in Hstep.
    simpl in Hstep. destruct (i_shape _ _ _ Hi) as (_ & Hm & _). simpl in Hm.
    rewrite Hm, (wrap64_small (pos + _)), wrap64_small in Hstep by lia.
    replace (pos + (C - 1) + 1) with (pos + C) in Hstep by lia. simplify_eq. split; [|done].
    eexists _, _. split; [exact Hi'|]. simpl. eapply trace_dequeued; [done|done|lia|lia|done].
Qed.

Lemma ok_step tr c ev c' :
  ok tr c → step c ev c' → tail (shared c) + 1 < limit →
  ok (tr ++ option_list ev) c' ∧ tail (shared c') ≤ tail (shared c) + 1.
Proof.
  intros Hok Hs Hlim. destruct Hs as [q ths t v Ht|q ths t Ht|q ths t ch p q' p' ev Ht Hs].
  - split; [|simpl; lia]. eapply ok_local; [done|exact Ht|intros [] []|done|done].
  - split; [|simpl; lia]. eapply ok_local; [done|exact Ht|intros [] []|done|done].
  - assert (enqueue_step ch q p = Some (q', p', ev) ∨ dequeue_step ch q p = Some (q', p', ev)) as [He|Hd]
      by (destruct p; auto).
    + by eapply ok_enqueue.
    + destruct (ok_dequeue tr q ths t ch p q' p' ev Hok Ht Hd) as [? E]. split; [done|]. simpl. lia.
Qed.

Lemma ok_initial n (v0 : V) : ok [] (Config (initial C v0) (replicate n Idle)).
Proof.
  pose proof C_bounds. exists (PFree <$> seqZ 0 C), []. split; [split|split]; simpl.
  - rewrite !length_fmap, length_seqZ. done.
  - lia.
  - intros i ph cl (z & -> & Hz)%list_lookup_fmap_Some (z' & -> & Hz')%list_lookup_fmap_Some. simplify_eq.
    apply lookup_seqZ in Hz as [-> Hz]. split_and!; simpl; try lia. apply Z.mod_small. lia.
  - intros t p [-> _]%lookup_replicate. done.
  - intros i ph t (z & -> & Hz)%list_lookup_fmap_Some. done.
  - intros v p Hin. by apply elem_of_nil in Hin.
  - intros v p Hin. by apply elem_of_nil in Hin.
  - constructor.
  - constructor.
  - lia.
  - lia.
Qed.

Lemma ok_reach c n tr c' :
  ok [] c → tail (shared c) = 0 → reach c n tr c' → Z.of_nat n < 2 ^ 61 →
  ok tr c' ∧ tail (shared c') ≤ Z.of_nat n.
Proof.
  intros Hok H0 Hr. induction Hr as [|n tr c1 ev c2 Hr IH Hs]; intros Hn; [split; [done|lia]|].
  destruct IH as [Hok1 Ht1]; [lia|].
  destruct (ok_step _ _ _ _ Hok1 Hs) as [Hok2 Ht2]; [lia|]. split; [done|]. lia.
Qed.

(** Values come out in the order of the tickets, in every interleaving. *)
Lemma ring_fifo n (v0 : V) m tr c : Z.of_nat m < 2 ^ 61 → reach (Config (initial C v0) (replicate n Idle)) m tr c →
  let q := shared c in
  ∃ log : list V,
    Z.of_nat (length log) = tail q ∧ 0 ≤ head q ≤ tail q ∧ tail q ≤ head q + C ∧
    (∀ v p, Enqueued v p ∈ tr → 0 ≤ p ∧ log !! Z.to_nat p = Some v) ∧
    (∀ v p, Dequeued v p ∈ tr → p < head q ∧ Enqueued v p ∈ tr) ∧
    NoDup (enq_tickets tr) ∧ NoDup (deq_tickets tr) ∧
    (Forall (λ p, p = Idle) (threads c) →
       (∀ p, 0 ≤ p < tail q → p ∈ enq_tickets tr) ∧ (∀ p, 0 ≤ p < head q → p ∈ deq_tickets tr)).
Proof.
  intros Hm Hr q. destruct (ok_reach _ _ _ _ (ok_initial n v0) eq_refl Hr Hm) as [(phs & log & Hi & Htr) _]. fold q in Htr.
  destruct (i_cursors _ _ _ Hi) as (Hh & Hc & Hlen & _). fold q in Hh, Hc, Hlen.
  exists log. split_and!; try done; try lia; [apply Htr..|].
  intros Hidle. assert (∀ i ph, phs !! i = Some ph → owner ph = None) as Hno.
  { intros i ph Hph. destruct (owner ph) as [t|] eqn:Eo; [|done].
    destruct (i_owners _ _ _ Hi i ph t Hph Eo) as (p & Hp & Hw).
    apply (proj1 (Forall_lookup _ _) Hidle) in Hp as ->. by destruct ph. }
  split; intros p Hp.
  - rewrite (t_enq_all _ _ _ _ Htr) by lia. intros [t Ht]. by apply Hno in Ht.
  - rewrite (t_deq_all _ _ _ _ Htr) by lia. intros [t Ht]. by apply Hno in Ht.
Qed.
End inv.
End TicketRingInv.
