(* ===== verification/LFQueue.v ===== *)
(** * The lock-free queue of src/src/container/lfqueue.c

    Creation, the calls as one thread makes them, and what holds for any number
    of threads: tickets are served in order, each value is delivered once, no
    two threads touch the same cell, and a thread that runs alone returns. *)
From S2P Require Import Prelude World HashMap HashMapProofs TicketRing TicketRingInv.

Module LFQueue.
Import TicketRing TicketRingInv.

Abbreviation qworld := (world (ring Z) unit).
Definition sizeof_lfqueue : Z := 192.
Definition sizeof_cell : Z := 16.

(** [v |= v >> s] is [smear v s]. *)
Definition lfqueue_next_pow2 (v : Z) : Z :=
  let v := wrap64 (v - 1) in
  let v := HashMap.smear v 1 in
  let v := HashMap.smear v 2 in
  let v := HashMap.smear v 4 in
  let v := HashMap.smear v 8 in
  let v := HashMap.smear v 16 in
  let v := HashMap.smear v 32 in
  let v := wrap64 (v + 1) in
  if v <? 2 then 2 else v.

Definition cobalt_lfqueue_create_with_allocator (capacity : Z) (alloc : bool) : M qworld unit :=
  if negb alloc then
    cobalt_error_set None COBALT_ERROR_INVALID_ARGUMENT ;;; set_obj None
  else
    let cap := lfqueue_next_pow2 (if capacity <? 2 then 2 else capacity) in
    ok <- request sizeof_lfqueue ;;
    if negb ok then cobalt_error_set None COBALT_ERROR_OUT_OF_MEMORY ;;; set_obj None
    else
      ok <- request (wrap64 (sizeof_cell * cap)) ;;
      if negb ok then cobalt_error_set None COBALT_ERROR_OUT_OF_MEMORY ;;; set_obj None
      else if wrap64 (sizeof_cell * cap) <? sizeof_cell * cap then mfail BadAccess
      else set_obj (Some (initial cap NULL)).

Definition cobalt_lfqueue_create (capacity : Z) : M qworld unit :=
  cobalt_lfqueue_create_with_allocator capacity true.

Definition cobalt_lfqueue_destroy : M qworld unit :=
  o <- get_obj ;; match o with None => mret tt | Some _ => set_obj None end.

(** Steps enough for a call that runs alone. *)
Definition solo_fuel : nat := 8.

Definition cobalt_lfqueue_enqueue (v : Z) : M qworld Z :=
  o <- get_obj ;;
  match o with
  | None => cobalt_error_set None COBALT_ERROR_INVALID_ARGUMENT ;;; mret (-1)
  | Some q =>
      match solo solo_fuel q (ELoad v) with
      | Some (q', Enqueued _ _) => set_obj (Some q') ;;; mret 0
      | Some (_, _) => mret (-1)
      | None => mfail BadAccess
      end
  end.

(** [out_data] tells whether a place for the result was given; the result and
    what is stored there. *)
Definition cobalt_lfqueue_dequeue (out_data : bool) : M qworld (Z * option Z) :=
  o <- get_obj ;;
  match o, out_data with
  | None, _ | _, false =>
      cobalt_error_set None COBALT_ERROR_INVALID_ARGUMENT ;;; mret (-1, None)
  | Some q, true =>
      match solo solo_fuel q DLoad with
      | Some (q', Dequeued v _) => set_obj (Some q') ;;; mret (0, Some v)
      | Some (_, _) => mret (-1, None)
      | None => mfail BadAccess
      end
  end.

Definition cobalt_lfqueue_size : M qworld Z :=
  o <- get_obj ;;
  mret (match o with
        | None => 0
        | Some q => if head q <=? tail q then wrap64 (tail q - head q) else 0
        end).

Definition cobalt_lfqueue_is_empty : M qworld bool :=
  o <- get_obj ;; mret (match o with None => true | Some q => tail q <=? head q end).

Definition cobalt_lfqueue_is_full : M qworld bool :=
  o <- get_obj ;;
  mret (match o with None => false | Some q => capacity q <=? wrap64 (tail q - head q) end).

Definition cobalt_lfqueue_capacity : M qworld Z :=
  o <- get_obj ;; mret (match o with None => 0 | Some q => capacity q end).

(** ** A call that runs alone *)

Abbreviation exact := (Choice None false).

Section solo.
Context {V : Type}.
Variable k : Z.
Hypothesis Hk : 1 ≤ k ≤ 60.
Abbreviation C := (2 ^ k).
Abbreviation limit := (2 ^ 62).

Lemma solo_next n (q : ring V) p q' p' r :
  thread_step exact q p = Some (q', p', None) → solo n q' p' = r → solo (S n) q p = r.
Proof. simpl. by intros ->. Qed.
Lemma solo_last n (q : ring V) p q' p' e :
  thread_step exact q p = Some (q', p', Some e) → solo (S n) q p = Some (q', e).
Proof. simpl. by intros ->. Qed.

Lemma solo_more n m (q : ring V) p r : solo n q p = Some r → (n ≤ m)%nat → solo m q p = Some r.
Proof.
  revert m q p. induction n as [|n IH]; intros [|m] q p; simpl; try done; [lia|].
  destruct (thread_step exact q p) as [[[q' p'] [e|]]|]; try done. intros Hs Hle. apply IH; [done|lia].
Qed.

Section facts.
Context {phs : list phase} {log : list V} {q : ring V} {ths : list (pc V)}.
Hypothesis Hinv : inv k phs log (Config q ths).
Hypothesis Hlim : tail q + 1 < limit.

(** The cell at the tail: free, or with a sequence number behind. *)
Lemma tail_cell : ∃ cl, buffer q !! slot q (tail q) = Some cl ∧
  0 ≤ sequence cl ≤ tail q ∧
  (sequence cl = tail q → phs !! idx k (tail q) = Some (PFree (tail q))).
Proof.
  destruct (cell_at k Hk Hinv (tail q)) as (ph & cl & Hph & Hcl & Hok). simpl in *.
  pose proof (slot_at k Hk Hinv (tail q)) as Hsl. simpl in Hsl. rewrite Hsl. exists cl. split; [done|].
  pose proof (seq_bounds k Hk Hinv _ _ _ Hph Hcl) as Hsb. simpl in Hsb. pose proof (C_bounds k Hk).
  destruct (i_cursors _ _ _ _ Hinv) as (Hh & Hc & _). simpl in Hh, Hc.
  split; [split; [lia|]|intros E; by eapply (free_at_tail k Hk Hinv)].
  destruct Hok as (Hp & Hi & Hok). apply (idx_mod k) in Hi.
  destruct ph as [p|p t|p|p t]; simpl in *; [|lia..].
  assert (tail q = p) by (apply (same_ticket k Hk); [done|lia]). lia.
Qed.

Lemma head_cell : ∃ cl, buffer q !! slot q (head q) = Some cl ∧
  0 ≤ sequence cl ≤ head q + C ∧
  (sequence cl = head q + 1 → phs !! idx k (head q) = Some (PFull (head q))) ∧
  sequence cl ≤ head q + 1.
Proof.
  destruct (cell_at k Hk Hinv (head q)) as (ph & cl & Hph & Hcl & Hok). simpl in *.
  pose proof (slot_at k Hk Hinv (head q)) as Hsl. simpl in Hsl. rewrite Hsl. exists cl. split; [done|].
  pose proof (seq_bounds k Hk Hinv _ _ _ Hph Hcl) as Hsb. simpl in Hsb. pose proof (C_bounds k Hk).
  destruct (i_cursors _ _ _ _ Hinv) as (Hh & Hc & _). simpl in Hh, Hc.
  destruct Hok as (Hp & Hi & Hok). pose proof Hi as Hi'. apply (idx_mod k) in Hi'.
  assert (sequence cl ≤ head q + 1) as Hle.
  { destruct ph as [p|p t|p|p t]; simpl in *; [| | |lia];
      assert (head q = p) by (apply (same_ticket k Hk); [done|lia]); lia. }
  split_and!; [lia|lia| |done]. intros E. by eapply (full_at_head k Hk Hinv).
Qed.
End facts.

Section thread.
Context {phs : list phase} {log : list V} {q : ring V} {ths : list (pc V)} {t : nat}.
Hypothesis Hinv : inv k phs log (Config q ths).

(** The thread [t] finished, the cursors and the log are as given. *)
Definition finishes (T H : Z) (log' : list V) (q' : ring V) : Prop :=
  (∃ phs', inv k phs' log' (Config q' (<[t := Idle]> ths))) ∧ tail q' = T ∧ head q' = H.

Lemma solo_publish n v pos :
  ths !! t = Some (EPublish v pos) → ∃ q', solo (S n) q (EPublish v pos) = Some (q', Enqueued v pos) ∧
  finishes (tail q) (head q) log q'.
Proof.
  intros Ht. destruct (publish_cell k Hk Hinv v pos Ht) as (cl & Hcl & _ & Hpos & _ & Hi').
  destruct (i_cursors _ _ _ _ Hinv) as (_ & _ & _ & Hlim). simpl in Hlim.
  simpl. rewrite Hcl. simpl. rewrite wrap64_small by lia. eexists. split; [done|]. split; [by eexists|done].
Qed.

Lemma solo_release n v pos :
  ths !! t = Some (DRelease v pos) → ∃ q', solo (S n) q (DRelease v pos) = Some (q', Dequeued v pos) ∧
  finishes (tail q) (head q) log q'.
Proof.
  intros Ht. destruct (release_cell k Hk Hinv v pos Ht) as (cl & Hcl & _ & Hpos & _ & Hi').
  pose proof (C_bounds k Hk). destruct (i_shape _ _ _ _ Hinv) as (_ & Hm & _).
  destruct (i_cursors _ _ _ _ Hinv) as (Hh & _ & _ & Hlim). simpl in Hm, Hh, Hlim.
  simpl. rewrite Hcl. simpl. rewrite Hm, (wrap64_small (pos + _)), wrap64_small by lia.
  replace (pos + (C - 1) + 1) with (pos + C) by lia. eexists. split; [done|]. split; [by eexists|done].
Qed.
End thread.
Arguments finishes : clear implicits.

Section thread2.
Context {phs : list phase} {log : list V} {q : ring V} {ths : list (pc V)} {t : nat}.
Hypothesis Hinv : inv k phs log (Config q ths).

Lemma finishes_insert ths' p T H log' q' :
  finishes (<[t := p]> ths') t T H log' q' → finishes ths' t T H log' q'.
Proof. intros ((phs' & Hi) & ?). split; [|done]. exists phs'. by rewrite list_insert_insert_eq in Hi. Qed.

Lemma solo_write n v pos :
  ths !! t = Some (EWrite v pos) → ∃ q', solo (2 + n) q (EWrite v pos) = Some (q', Enqueued v pos) ∧
  finishes ths t (tail q) (head q) log q'.
Proof.
  intros Ht. destruct (write_cell k Hk Hinv v pos Ht) as (cl & Hcl & Hi').
  assert (t < length ths)%nat as Hlt by (by eapply lookup_lt_Some).
  destruct (solo_publish (t := t) Hi' n v pos) as (q' & Hs & Hf); [by apply list_lookup_insert_eq|].
  exists q'. split; [|by eapply finishes_insert]. eapply solo_next; [|exact Hs]. simpl. by rewrite Hcl.
Qed.

Lemma solo_read n pos :
  ths !! t = Some (DRead pos) → ∃ q' v, solo (2 + n) q (DRead pos) = Some (q', Dequeued v pos) ∧
  finishes ths t (tail q) (head q) log q' ∧ log !! Z.to_nat pos = Some v.
Proof.
  intros Ht. destruct (read_cell k Hk Hinv pos Ht) as (cl & Hcl & Hi').
  assert (t < length ths)%nat as Hlt by (by eapply lookup_lt_Some).
  assert (<[t := DRelease (data cl) pos]> ths !! t = Some (DRelease (data cl) pos)) as Ht'
    by (by apply list_lookup_insert_eq).
  destruct (solo_release (t := t) Hi' n _ pos Ht') as (q' & Hs & Hf).
  pose proof (i_pcs _ _ _ _ Hi' _ _ Ht') as (_ & _ & Hv).
  exists q', (data cl). split_and!; [|by eapply finishes_insert|done].
  eapply solo_next; [|exact Hs]. simpl. by rewrite Hcl.
Qed.
End thread2.

Section thread3.
Context {phs : list phase} {log : list V} {q : ring V} {ths : list (pc V)} {t : nat}.
Hypothesis Hinv : inv k phs log (Config q ths).
Hypothesis Hlim : tail q + 1 < limit.
Hypothesis Ht : (t < length ths)%nat.

Lemma inv_at p p' :
  ths !! t = Some p → (∀ ph, ¬ works ph p) → pc_ok k q phs log t p' → inv k phs log (Config q (<[t := p']> ths)).
Proof. intros H1 H2 H3. eapply inv_local; [done|exact H1| |done]. intros ph Hph. by apply H2 in Hph. Qed.

(** With the ticket at the tail the call succeeds or finds the queue full. *)
Lemma solo_cas_tail n v p :
  ths !! t = Some p → (∀ ph, ¬ works ph p) → phs !! idx k (tail q) = Some (PFree (tail q)) →
  ∃ q', solo (3 + n) q (ECas v (tail q)) = Some (q', Enqueued v (tail q)) ∧
  finishes ths t (tail q + 1) (head q) (log ++ [v]) q'.
Proof.
  intros Hp Hw Hfree. destruct (i_cursors _ _ _ _ Hinv) as (Hh & _). simpl in Hh.
  assert (inv k phs log (Config q (<[t := ECas v (tail q)]> ths))) as Hi.
  { eapply inv_at; [done..|]. split; [lia|done]. }
  destruct (claim_enqueue k Hk Hi v (tail q) (list_lookup_insert_eq _ _ _ Ht) eq_refl Hlim) as [_ Hi'].
  rewrite list_insert_insert_eq in Hi'.
  destruct (solo_write (t := t) Hi' n v (tail q)) as (q' & Hs & Hf); [by apply list_lookup_insert_eq|].
  exists q'. split; [|by apply finishes_insert in Hf].
  eapply solo_next; [|exact Hs]. simpl. rewrite Z.eqb_refl. simpl. by rewrite wrap64_small by lia.
Qed.

Lemma solo_cas_head n p :
  ths !! t = Some p → (∀ ph, ¬ works ph p) → phs !! idx k (head q) = Some (PFull (head q)) →
  ∃ q' v, solo (3 + n) q (DCas (head q)) = Some (q', Dequeued v (head q)) ∧
  finishes ths t (tail q) (head q + 1) log q' ∧ log !! Z.to_nat (head q) = Some v.
Proof.
  intros Hp Hw Hfull. clear Hlim.
  destruct (i_cursors _ _ _ _ Hinv) as (Hh & _ & _ & Hlim). simpl in Hh, Hlim.
  assert (inv k phs log (Config q (<[t := DCas (head q)]> ths))) as Hi.
  { eapply inv_at; [done..|]. split; [lia|done]. }
  destruct (claim_dequeue k Hk Hi (head q) (list_lookup_insert_eq _ _ _ Ht) eq_refl) as (_ & Hlt & Hi').
  rewrite list_insert_insert_eq in Hi'.
  destruct (solo_read (t := t) Hi' n (head q)) as (q' & v & Hs & Hf & Hv); [by apply list_lookup_insert_eq|].
  exists q', v. split; [|by apply finishes_insert in Hf].
  eapply solo_next; [|exact Hs]. simpl. rewrite Z.eqb_refl. simpl. by rewrite wrap64_small by lia.
Qed.

Lemma solo_test_tail n v p :
  ths !! t = Some p → (∀ ph, ¬ works ph p) →
  (phs !! idx k (tail q) = Some (PFree (tail q)) ∧
   ∃ q', solo (4 + n) q (ETest v (tail q)) = Some (q', Enqueued v (tail q)) ∧
     finishes ths t (tail q + 1) (head q) (log ++ [v]) q') ∨
  (phs !! idx k (tail q) ≠ Some (PFree (tail q)) ∧ solo (1 + n) q (ETest v (tail q)) = Some (q, Full)).
Proof.
  intros Hp Hw. destruct (tail_cell Hinv) as (cl & Hcl & Hsb & Hfree).
  destruct (i_cursors _ _ _ _ Hinv) as (Hh & _). simpl in Hh.
  destruct (decide (sequence cl = tail q)) as [E|Hne].
  - left. split; [by apply Hfree|]. destruct (solo_cas_tail n v p Hp Hw (Hfree E)) as (q' & Hs & Hf).
    exists q'. split; [|done]. eapply solo_next; [|exact Hs]. simpl. rewrite Hcl. simpl.
    change (aload exact ?x) with x. by rewrite E, Z.sub_diag.
  - right. split.
    { intros Hph. destruct (cell_at k Hk Hinv (tail q)) as (ph & cl' & Hph' & Hcl' & Hok).
      pose proof (slot_at k Hk Hinv (tail q)) as Hsl. simpl in *. rewrite Hsl in Hcl. simplify_eq.
      destruct Hok as (_ & _ & ? & _). done. }
    eapply solo_last. simpl. rewrite Hcl. simpl.
    change (aload exact ?x) with x. rewrite !to_signed_small by lia.
    by rewrite (proj2 (Z.eqb_neq _ _)), (proj2 (Z.ltb_lt _ _)) by lia.
Qed.

Lemma solo_test_head n p :
  ths !! t = Some p → (∀ ph, ¬ works ph p) →
  (phs !! idx k (head q) = Some (PFull (head q)) ∧
   ∃ q' v, solo (4 + n) q (DTest (head q)) = Some (q', Dequeued v (head q)) ∧
     finishes ths t (tail q) (head q + 1) log q' ∧ log !! Z.to_nat (head q) = Some v) ∨
  (phs !! idx k (head q) ≠ Some (PFull (head q)) ∧ solo (1 + n) q (DTest (head q)) = Some (q, Empty)).
Proof.
  intros Hp Hw. destruct (head_cell Hinv) as (cl & Hcl & Hsb & Hfull & Hle).
  clear Hlim.
  destruct (i_cursors _ _ _ _ Hinv) as (Hh & Hc & _ & Hlim). simpl in Hh, Hc, Hlim. pose proof (C_bounds k Hk).
  destruct (decide (sequence cl = head q + 1)) as [E|Hne].
  - left. split; [by apply Hfull|]. destruct (solo_cas_head n p Hp Hw (Hfull E)) as (q' & v & Hs & Hf).
    exists q', v. split; [|done]. eapply solo_next; [|exact Hs]. simpl. rewrite Hcl. simpl.
    change (aload exact ?x) with x.
    by rewrite (wrap64_small (head q + 1)), E, Z.sub_diag by lia.
  - right. split.
    { intros Hph. destruct (cell_at k Hk Hinv (head q)) as (ph & cl' & Hph' & Hcl' & Hok).
      pose proof (slot_at k Hk Hinv (head q)) as Hsl. simpl in *. rewrite Hsl in Hcl. simplify_eq.
      destruct Hok as (_ & _ & ? & _). done. }
    eapply solo_last. simpl. rewrite Hcl. simpl.
    change (aload exact ?x) with x.
    rewrite (wrap64_small (head q + 1)) by lia. rewrite !to_signed_small by lia.
    by rewrite (proj2 (Z.eqb_neq _ _)), (proj2 (Z.ltb_lt _ _)) by lia.
Qed.
End thread3.

(** ** Every call returns when its thread runs alone *)

Section alone.
Context {phs : list phase} {log : list V} {q : ring V} {ths : list (pc V)} {t : nat}.
Hypothesis Hinv : inv k phs log (Config q ths).
Hypothesis Hlim : tail q + 1 < limit.

Lemma solo_at_tail p v n : ths !! t = Some p → (∀ ph, ¬ works ph p) → ∃ r, solo (4 + n) q (ETest v (tail q)) = Some r.
Proof.
  intros Hp Hw. assert (t < length ths)%nat as Hlt by (by eapply lookup_lt_Some).
  destruct (solo_test_tail Hinv Hlim Hlt n v p Hp Hw) as [(_ & q' & Hs & _)|[Hn _]]; [by eexists|].
  destruct (solo_test_tail Hinv Hlim Hlt (3 + n) v p Hp Hw) as [[Hf _]|[_ Hs]]; [done|by eexists].
Qed.

Lemma solo_at_head p n : ths !! t = Some p → (∀ ph, ¬ works ph p) → ∃ r, solo (4 + n) q (DTest (head q)) = Some r.
Proof.
  intros Hp Hw. assert (t < length ths)%nat as Hlt by (by eapply lookup_lt_Some).
  destruct (solo_test_head Hinv Hlt n p Hp Hw) as [(_ & q' & v & Hs & _)|[Hn _]]; [by eexists|].
  destruct (solo_test_head Hinv Hlt (3 + n) p Hp Hw) as [[Hf _]|[_ Hs]]; [done|by eexists].
Qed.

Definition enqueuing (p : pc V) : bool :=
  match p with ELoad _ | ETest _ _ | ECas _ _ | EWrite _ _ | EPublish _ _ => true | _ => false end.

Lemma solo_enqueue_returns p :
  ths !! t = Some p → enqueuing p = true → ∃ r, solo solo_fuel q p = Some r.
Proof.
  intros Hp He. pose proof (i_pcs _ _ _ _ Hinv _ _ Hp) as Hpc. simpl in Hpc.
  assert (t < length ths)%nat as Hlt by (by eapply lookup_lt_Some). unfold solo_fuel.
  destruct (i_cursors _ _ _ _ Hinv) as (Hh & Hc & _). simpl in Hh, Hc. pose proof (C_bounds k Hk).
  destruct p as [|v|v pos|v pos|v pos|v pos| |pos|pos|pos|v pos]; try done.
  - destruct (solo_at_tail _ v 3 Hp) as [r Hr]; [intros [] []|]. exists r. by eapply solo_next.
  - destruct (decide (pos = tail q)) as [->|Hne]; [apply (solo_at_tail _ v 4 Hp); intros [] []|].
    destruct (cell_at k Hk Hinv pos) as (ph & cl & Hph & Hcl & _). simpl in Hcl.
    pose proof (slot_at k Hk Hinv pos) as Hsl. simpl in Hsl.
    assert (∀ r, solo 6 q (ETest v (tail q)) = Some r → ∃ r, solo 8 q (ETest v pos) = Some r) as Hnext.
    { intros r Hr. destruct (Z.eqb_spec (to_signed (sequence cl) - to_signed pos) 0) as [E|Hn0].
      - exists r. eapply (solo_next _ _ _ q (ECas v pos)).
        + simpl. rewrite Hsl, Hcl. simpl. change (aload exact ?x) with x. by rewrite E.
        + eapply solo_next; [|exact Hr]. simpl. by rewrite (proj2 (Z.eqb_neq (tail q) pos)) by lia.
      - destruct (to_signed (sequence cl) - to_signed pos <? 0) eqn:Elt.
        + eexists. eapply solo_last. simpl. rewrite Hsl, Hcl. simpl. change (aload exact ?x) with x.
          by rewrite (proj2 (Z.eqb_neq _ _) Hn0), Elt.
        + exists r. eapply (solo_next _ _ _ q (ELoad v)).
          * simpl. rewrite Hsl, Hcl. simpl. change (aload exact ?x) with x.
            by rewrite (proj2 (Z.eqb_neq _ _) Hn0), Elt.
          * by eapply solo_next. }
    destruct (solo_at_tail _ v 2 Hp) as [r Hr]; [intros [] []|]. by eapply Hnext.
  - destruct Hpc as [Hpos Hfree]. destruct (decide (pos = tail q)) as [->|Hne].
    + destruct (solo_cas_tail Hinv Hlim Hlt 5 v _ Hp) as (q' & Hs & _); [intros [] []|by apply Hfree|]. by eexists.
    + destruct (solo_at_tail _ v 3 Hp) as [r Hr]; [intros [] []|]. exists r. eapply solo_next; [|exact Hr].
      simpl. by rewrite (proj2 (Z.eqb_neq (tail q) pos)) by lia.
  - destruct (solo_write Hinv 6 v pos Hp) as (q' & Hs & _). by eexists.
  - destruct (solo_publish Hinv 7 v pos Hp) as (q' & Hs & _). by eexists.
Qed.

Lemma solo_dequeue_returns p :
  ths !! t = Some p → enqueuing p = false → p ≠ Idle → ∃ r, solo solo_fuel q p = Some r.
Proof.
  intros Hp He Hn. pose proof (i_pcs _ _ _ _ Hinv _ _ Hp) as Hpc. simpl in Hpc.
  assert (t < length ths)%nat as Hlt by (by eapply lookup_lt_Some). unfold solo_fuel.
  destruct (i_cursors _ _ _ _ Hinv) as (Hh & Hc & _). simpl in Hh, Hc. pose proof (C_bounds k Hk).
  destruct p as [|v|v pos|v pos|v pos|v pos| |pos|pos|pos|v pos]; try done.
  - destruct (solo_at_head _ 3 Hp) as [r Hr]; [intros [] []|]. exists r. by eapply solo_next.
  - destruct (decide (pos = head q)) as [->|Hne]; [apply (solo_at_head _ 4 Hp); intros [] []|].
    destruct (cell_at k Hk Hinv pos) as (ph & cl & Hph & Hcl & _). simpl in Hcl.
    pose proof (slot_at k Hk Hinv pos) as Hsl. simpl in Hsl.
    assert (∀ r, solo 6 q (DTest (head q)) = Some r → ∃ r, solo 8 q (DTest pos) = Some r) as Hnext.
    { intros r Hr. destruct (Z.eqb_spec (to_signed (sequence cl) - to_signed (wrap64 (pos + 1))) 0) as [E|Hn0].
      - exists r. eapply (solo_next _ _ _ q (DCas pos)).
        + simpl. rewrite Hsl, Hcl. simpl. change (aload exact ?x) with x. by rewrite E.
        + eapply solo_next; [|exact Hr]. simpl. by rewrite (proj2 (Z.eqb_neq (head q) pos)) by lia.
      - destruct (to_signed (sequence cl) - to_signed (wrap64 (pos + 1)) <? 0) eqn:Elt.
        + eexists. eapply solo_last. simpl. rewrite Hsl, Hcl. simpl. change (aload exact ?x) with x.
          by rewrite (proj2 (Z.eqb_neq _ _) Hn0), Elt.
        + exists r. eapply (solo_next _ _ _ q DLoad).
          * simpl. rewrite Hsl, Hcl. simpl. change (aload exact ?x) with x.
            by rewrite (proj2 (Z.eqb_neq _ _) Hn0), Elt.
          * by eapply solo_next. }
    destruct (solo_at_head _ 2 Hp) as [r Hr]; [intros [] []|]. by eapply Hnext.
  - destruct Hpc as [Hpos Hfull]. destruct (decide (pos = head q)) as [->|Hne].
    + destruct (solo_cas_head Hinv Hlt 5 _ Hp) as (q' & v & Hs & _); [intros [] []|by apply Hfull|]. by eexists.
    + destruct (solo_at_head _ 3 Hp) as [r Hr]; [intros [] []|]. exists r. eapply solo_next; [|exact Hr].
      simpl. by rewrite (proj2 (Z.eqb_neq (head q) pos)) by lia.
  - destruct (solo_read Hinv 6 pos Hp) as (q' & v & Hs & _). by eexists.
  - destruct (solo_release Hinv 7 v pos Hp) as (q' & Hs & _). by eexists.
Qed.

Lemma solo_returns p : ths !! t = Some p → p ≠ Idle → ∃ r, solo solo_fuel q p = Some r.
Proof.
  intros Hp Hn. destruct p; try done; first [by apply solo_enqueue_returns|by apply solo_dequeue_returns].
Qed.
End alone.
End solo.

(** ** One thread *)

Section sequential.
Variable k : Z.
Hypothesis Hk : 1 ≤ k ≤ 60.
Abbreviation C := (2 ^ k).
Abbreviation limit := (2 ^ 62).

(** The queue holds [xs], the oldest first. *)
Definition holds (q : ring Z) (xs : list Z) : Prop :=
  ∃ phs log, inv k phs log (Config q [Idle]) ∧ xs = drop (Z.to_nat (head q)) log.

Lemma idle_phase phs log (q : ring Z) i ph :
  inv k phs log (Config q [Idle]) → phs !! i = Some ph → owner ph = None.
Proof.
  intros Hi Hph. destruct (owner ph) as [t|] eqn:Eo; [|done].
  destruct (i_owners _ _ _ _ Hi i ph t Hph Eo) as (p & Hp & Hw). simpl in Hp.
  apply list_lookup_singleton_Some in Hp as [_ <-]. by destruct ph.
Qed.

Lemma holds_length q xs : holds q xs →
  Z.of_nat (length xs) = tail q - head q ∧ 0 ≤ head q ≤ tail q ∧ tail q - head q ≤ C ∧
  capacity q = C ∧ tail q < limit.
Proof.
  intros (phs & log & Hi & ->). destruct (i_cursors _ _ _ _ Hi) as (Hh & Hc & Hlen & Hlim).
  destruct (i_shape _ _ _ _ Hi) as (Hcap & _). simpl in *. rewrite length_drop.
  split_and!; try done; lia.
Qed.

Lemma holds_enqueue q xs v : holds q xs → tail q + 1 < limit →
  (Z.of_nat (length xs) < C ∧ ∃ q', solo solo_fuel q (ELoad v) = Some (q', Enqueued v (tail q)) ∧
     holds q' (xs ++ [v]) ∧ tail q' = tail q + 1) ∨
  (Z.of_nat (length xs) = C ∧ solo solo_fuel q (ELoad v) = Some (q, Full)).
Proof.
  intros Hq Hlim. pose proof (holds_length _ _ Hq) as (Hlen & Hh & Hc & _).
  destruct Hq as (phs & log & Hi & ->). pose proof (C_bounds k Hk).
  destruct (cell_at k Hk Hi (tail q)) as (ph & cl & Hph & Hcl & Hp & Hm & Hok).
  simpl in Hcl, Hok, Hp, Hm.
  apply (idx_mod k) in Hm. pose proof (idle_phase _ _ _ _ _ Hi Hph) as Hown.
  destruct (i_cursors _ _ _ _ Hi) as (_ & _ & Hll & _). simpl in Hll.
  destruct (solo_test_tail k Hk Hi Hlim (t := 0%nat) ltac:(simpl; lia) 3 v Idle eq_refl) as
    [(Hf & q' & Hs & (phs' & Hi') & ET & EH)|[Hn Hs]]; [intros [] []|left|right].
  - rewrite Hph in Hf. simplify_eq. simpl in Hok. split; [lia|]. exists q'. split_and!; [by eapply solo_next| |done].
    exists phs', (log ++ [v]). split; [done|]. rewrite EH. rewrite drop_app_le by lia. done.
  - split; [|eapply solo_next; [done|]; eapply solo_more; [exact Hs|lia]]. destruct ph as [p|p t|p|p t]; simpl in *; try done.
    + assert (tail q = p) as E by (apply (same_ticket k Hk); [done|lia]). by rewrite Hph, E in Hn.
    + assert (tail q - C = p) as E; [|lia]. apply (same_ticket k Hk); [|lia].
      rewrite <- (idx_next_lap k Hk (tail q - C)). rewrite Hm. f_equal. lia.
Qed.

Lemma holds_dequeue q xs : holds q xs →
  match xs with
  | [] => solo solo_fuel q DLoad = Some (q, Empty)
  | x :: xs' => ∃ q', solo solo_fuel q DLoad = Some (q', Dequeued x (head q)) ∧ holds q' xs' ∧ tail q' = tail q
  end.
Proof.
  intros Hq. pose proof (holds_length _ _ Hq) as (Hlen & Hh & Hc & _ & Hlim).
  destruct Hq as (phs & log & Hi & ->). pose proof (C_bounds k Hk).
  destruct (cell_at k Hk Hi (head q)) as (ph & cl & Hph & Hcl & Hp & Hm & Hok).
  simpl in Hcl, Hok, Hp, Hm.
  apply (idx_mod k) in Hm. pose proof (idle_phase _ _ _ _ _ Hi Hph) as Hown.
  destruct (i_cursors _ _ _ _ Hi) as (_ & _ & Hll & _). simpl in Hll.
  destruct (decide (head q = tail q)) as [E|Hne].
  - assert (drop (Z.to_nat (head q)) log = []) as -> by (apply drop_ge; lia).
    destruct (head_cell k Hk Hi) as (cl' & Hcl' & Hsb & Hfull & Hle).
    pose proof (slot_at k Hk Hi (head q)) as Hsl. simpl in Hsl.
    assert (phs !! idx k (head q) ≠ Some (PFull (head q))) as Hnf.
    { rewrite Hph. intros [= ->]. simpl in Hok. lia. }
    assert (sequence cl' < head q + 1) as Hlt.
    { destruct (decide (sequence cl' = head q + 1)) as [E'|]; [by apply Hfull in E'|lia]. }
    eapply solo_next; [done|]. eapply solo_last. simpl. change (aload exact ?x) with x. rewrite Hcl'. simpl.
    change (aload exact ?x) with x. rewrite (wrap64_small (head q + 1)), !to_signed_small by lia.
    by rewrite (proj2 (Z.eqb_neq _ _)), (proj2 (Z.ltb_lt _ _)) by lia.
  - assert (phs !! idx k (head q) = Some (PFull (head q))) as Hf.
    { rewrite Hph. destruct ph as [p|p t|p|p t]; simpl in *; try done.
      - assert (head q = p) by (apply (same_ticket k Hk); [done|lia]). lia.
      - assert (head q = p) as -> by (apply (same_ticket k Hk); [done|lia]). done. }
    destruct (solo_test_head k Hk Hi (t := 0%nat) ltac:(simpl; lia) 3 Idle eq_refl) as
      [(_ & q' & v & Hs & ((phs' & Hi') & ET & EH) & Hv)|[Hn _]]; [intros [] []| |done].
    rewrite (drop_S log v) by done. exists q'. split_and!; [by eapply solo_next| |done].
    exists phs', log. split; [done|]. f_equal. rewrite EH. lia.
Qed.
End sequential.
End LFQueue.
