(* ===== verification/LFQueueSpec.v ===== *)
(** * What the lock-free queue promises *)
From S2P Require Import Prelude World HashMap HashMapProofs TicketRing TicketRingInv LFQueue.

Module LFQueueSpec.
Import TicketRing TicketRingInv LFQueue.

(** ** One thread: a bounded queue *)

Inductive qop : Type := QEnqueue (v : Z) | QDequeue | QSize | QIsEmpty | QIsFull | QCapacity.
Inductive qres : Type := QInt (z : Z) | QOut (r : Z) (v : option Z) | QBool (b : bool).

Definition run_qop (o : qop) : M qworld qres :=
  match o with
  | QEnqueue v => r <- cobalt_lfqueue_enqueue v ;; mret (QInt r)
  | QDequeue => r <- cobalt_lfqueue_dequeue true ;; mret (QOut r.1 r.2)
  | QSize => n <- cobalt_lfqueue_size ;; mret (QInt n)
  | QIsEmpty => b <- cobalt_lfqueue_is_empty ;; mret (QBool b)
  | QIsFull => b <- cobalt_lfqueue_is_full ;; mret (QBool b)
  | QCapacity => n <- cobalt_lfqueue_capacity ;; mret (QInt n)
  end.

Fixpoint run_qops (os : list qop) : M qworld (list qres) :=
  match os with
  | [] => mret []
  | o :: os => r <- run_qop o ;; rs <- run_qops os ;; mret (r :: rs)
  end.

Definition qsession (c : Z) (os : list qop) : M qworld (option (list qres)) :=
  cobalt_lfqueue_create c ;;;
  o <- get_obj ;;
  match o with
  | None => mret None
  | Some _ => rs <- run_qops os ;; cobalt_lfqueue_destroy ;;; mret (Some rs)
  end.

(** The bounded queue of capacity [C]. *)
Definition queue_op (C : Z) (xs : list Z) (o : qop) : qres * list Z :=
  match o with
  | QEnqueue v => if Z.of_nat (length xs) <? C then (QInt 0, xs ++ [v]) else (QInt (-1), xs)
  | QDequeue => match xs with [] => (QOut (-1) None, []) | x :: xs => (QOut 0 (Some x), xs) end
  | QSize => (QInt (Z.of_nat (length xs)), xs)
  | QIsEmpty => (QBool (bool_decide (xs = [])), xs)
  | QIsFull => (QBool (C <=? Z.of_nat (length xs)), xs)
  | QCapacity => (QInt C, xs)
  end.

Fixpoint queue_ops (C : Z) (xs : list Z) (os : list qop) : list qres :=
  match os with
  | [] => []
  | o :: os => let (r, xs') := queue_op C xs o in r :: queue_ops C xs' os
  end.

Lemma next_pow2_same v : lfqueue_next_pow2 v = HashMap.hashmap_next_pow2 v.
Proof. cbv beta zeta delta [lfqueue_next_pow2 HashMap.hashmap_next_pow2]. reflexivity. Qed.

Lemma next_pow2_bound v j : 2 ≤ v ≤ 2 ^ j → 1 ≤ j ≤ 63 →
  ∃ k, 1 ≤ k ≤ j ∧ lfqueue_next_pow2 v = 2 ^ k ∧ v ≤ 2 ^ k ∧ (k = 1 ∨ 2 ^ (k - 1) < v).
Proof.
  intros Hv Hj. assert (2 ^ j ≤ 2 ^ 63) by (apply Z.pow_le_mono_r; lia).
  destruct (HashMapProofs.next_pow2_spec v) as (k & Hk & E & Hle & Hor); [lia|]. rewrite next_pow2_same.
  exists k. split_and!; try done; [lia|]. destruct Hor as [->|Hlt]; [lia|].
  assert (2 ^ (k - 1) < 2 ^ j) by lia. apply Z.pow_lt_mono_r_iff in H0; lia.
Qed.

Section session.
Variable k : Z.
Hypothesis Hk : 1 ≤ k ≤ 60.

Definition qrep (w : qworld) (xs : list Z) : Prop := ∃ q, obj w = Some q ∧ holds k q xs.
Definition qtail (w : qworld) : Z := match obj w with Some q => tail q | None => 0 end.

Lemma wp_qop w xs o :
  qrep w xs → qtail w + 1 < 2 ^ 62 →
  wp (run_qop o) (λ r w', ∃ xs', queue_op (2 ^ k) xs o = (r, xs') ∧ qrep w' xs' ∧ qtail w' ≤ qtail w + 1) w.
Proof.
  intros (q & Ho & Hq) Hlim. unfold qtail in *. rewrite Ho in Hlim |- *.
  pose proof (holds_length k Hk q xs Hq) as (Hlen & Hh & Hc & Hcap & Hl). pose proof (C_bounds k Hk).
  assert (∀ q' xs', holds k q' xs' → qrep (with_obj w (Some q')) xs') as Hrep.
  { intros q' xs' H'. by exists q'. }
  destruct o as [v| | | | |]; simpl.
  - unfold cobalt_lfqueue_enqueue. wp_steps. rewrite Ho.
    destruct (holds_enqueue k Hk q xs v Hq Hlim) as [(Hroom & q' & Hs & Hq' & Ht')|(Hfull & Hs)]; rewrite Hs.
    + wp_steps. rewrite (proj2 (Z.ltb_lt _ _)) by done. eexists. split_and!; [done|by apply Hrep|simpl; lia].
    + wp_steps. rewrite (proj2 (Z.ltb_ge _ _)) by lia. exists xs. split_and!; [done|by exists q|]. rewrite Ho. lia.
  - unfold cobalt_lfqueue_dequeue. wp_steps. rewrite Ho. pose proof (holds_dequeue k Hk q xs Hq) as Hd.
    destruct xs as [|x xs].
    + rewrite Hd. wp_steps. exists []. split_and!; [done|by exists q|]. rewrite Ho. lia.
    + destruct Hd as (q' & Hs & Hq' & Ht'). rewrite Hs. wp_steps. exists xs.
      split_and!; [done|by apply Hrep|simpl; lia].
  - unfold cobalt_lfqueue_size. wp_steps. rewrite Ho. rewrite (proj2 (Z.leb_le _ _)) by lia.
    rewrite wrap64_small by lia. exists xs. split_and!; [by rewrite Hlen|by exists q|]. rewrite ?Ho; simpl; lia.
  - unfold cobalt_lfqueue_is_empty. wp_steps. rewrite Ho. exists xs. split_and!; [|by exists q|rewrite ?Ho; simpl; lia].
    do 2 f_equal. destruct xs as [|x xs]; simpl in Hlen |- *.
    + symmetry. apply Z.leb_le. lia.
    + symmetry. apply Z.leb_gt. lia.
  - unfold cobalt_lfqueue_is_full. wp_steps. rewrite Ho. rewrite wrap64_small by lia.
    exists xs. split_and!; [by rewrite Hlen, Hcap|by exists q|]. rewrite ?Ho; simpl; lia.
  - unfold cobalt_lfqueue_capacity. wp_steps. rewrite Ho. exists xs. split_and!; [by rewrite Hcap|by exists q|].
    rewrite ?Ho; simpl; lia.
Qed.

Lemma wp_qops os w xs :
  qrep w xs → qtail w + Z.of_nat (length os) < 2 ^ 62 →
  wp (run_qops os) (λ rs w', rs = queue_ops (2 ^ k) xs os ∧ ∃ xs', qrep w' xs') w.
Proof.
  revert w xs. induction os as [|o os IH]; intros w xs Hw Hlim; simpl in *; wp_step; [by eauto|].
  eapply wp_mono; [apply wp_qop; [exact Hw|lia]|]. intros r w1 (xs1 & E & Hw1 & Ht). rewrite E.
  wp_step. eapply wp_mono; [apply (IH _ _ Hw1); lia|]. intros rs w2 [-> H2]. by wp_steps.
Qed.
End session.

(** ** The properties *)

(** C35: From creation to destruction a queue used by one thread is a bounded
    FIFO queue whose capacity is the least power of two that is at least 2 and
    the capacity asked for; creation fails only when one of its two allocations
    is refused, with the error code set. *)
Theorem lfqueue_session c os w :
  0 ≤ c ≤ 2 ^ 59 → Z.of_nat (length os) < 2 ^ 61 →
  ∃ k, 1 ≤ k ≤ 59 ∧ c ≤ 2 ^ k ∧ (k = 1 ∨ 2 ^ (k - 1) < c) ∧
  wp (qsession c os) (λ r w', obj w' = None ∧
    (r = Some (queue_ops (2 ^ k) [] os) ∨
     r = None ∧ last_error w' = COBALT_ERROR_OUT_OF_MEMORY ∧
     (oracle w (allocs w) sizeof_lfqueue = false ∨
      oracle w (S (allocs w)) (sizeof_cell * 2 ^ k) = false))) w.
Proof.
  intros Hc Hos. set (v := if c <? 2 then 2 else c).
  assert (2 ≤ v ≤ 2 ^ 59 ∧ c ≤ v ∧ (v = c ∨ v = 2)) as (Hv & Hcv & Hv2).
  { unfold v. destruct (Z.ltb_spec c 2); lia. }
  destruct (next_pow2_bound v 59) as (k & Hk & E & Hle & Hor); [done|lia|].
  exists k. split_and!; [lia|lia|lia| |].
  { destruct Hv2 as [E2|E2]; [by rewrite E2 in Hor|]. left. destruct Hor as [|Hor]; [done|].
    assert (1 < k → 2 ^ 1 ≤ 2 ^ (k - 1)) by (intros; apply Z.pow_le_mono_r; lia). lia. }
  assert (2 ^ k ≤ 2 ^ 59) as Hk59 by (apply Z.pow_le_mono_r; lia).
  assert (0 < 2 ^ k) by (apply Z.pow_pos_nonneg; lia).
  unfold qsession, cobalt_lfqueue_create, cobalt_lfqueue_create_with_allocator. wp_step. cbn [negb].
  fold v. rewrite E. wp_step. apply wp_request; intros Hor1; cbn [negb].
  2: { wp_step. apply wp_error_set, wp_set_obj. wp_steps. split; [done|]. right. by auto 10. }
  assert (wrap64 (sizeof_cell * 2 ^ k) = sizeof_cell * 2 ^ k) as Ew.
  { apply wrap64_small. unfold sizeof_cell. lia. }
  wp_step. rewrite Ew. apply wp_request; intros Hor2; cbn [negb].
  2: { wp_step. apply wp_error_set, wp_set_obj. wp_steps. split; [done|]. right. by auto 10. }
  rewrite Z.ltb_irrefl. apply wp_set_obj. wp_step. apply wp_get_obj. simpl. wp_step.
  assert (qrep k (with_obj (with_request (with_request w)) (Some (initial (2 ^ k) NULL))) []) as Hrep.
  { eexists. split; [done|]. destruct (ok_initial (V := Z) k ltac:(lia) 1 NULL) as (phs & log & Hi & _).
    exists phs, log. split; [done|]. destruct (i_cursors _ _ _ _ Hi) as (_ & _ & Hl & _). simpl in *.
    by destruct log. }
  eapply wp_mono; [apply (wp_qops k ltac:(lia) _ _ _ Hrep); unfold qtail; simpl; lia|].
  intros rs w2 (-> & xs' & q & Ho & _). unfold cobalt_lfqueue_destroy. wp_steps. rewrite Ho.
  apply wp_set_obj. wp_steps. split; [done|]. by left.
Qed.

Lemma lfqueue_session_witness :
  ∃ k, 1 ≤ k ≤ 59 ∧ 3 ≤ 2 ^ k ∧ (k = 1 ∨ 2 ^ (k - 1) < 3) ∧
  wp (qsession 3 [QEnqueue 7; QDequeue]) (λ r w', obj w' = None ∧
    (r = Some (queue_ops (2 ^ k) [] [QEnqueue 7; QDequeue]) ∨
     r = None ∧ last_error w' = COBALT_ERROR_OUT_OF_MEMORY ∧
     (oracle (@world0 (ring Z) unit (λ _ _, true)) 0%nat sizeof_lfqueue = false ∨
      oracle (@world0 (ring Z) unit (λ _ _, true)) 1%nat (sizeof_cell * 2 ^ k) = false)))
    (world0 (λ _ _, true)).
Proof. apply (lfqueue_session 3 [QEnqueue 7; QDequeue] (world0 (λ _ _, true))); simpl; lia. Defined.

(** ** Any number of threads *)

Definition start (k : Z) (n : nat) : config Z := Config (initial (2 ^ k) NULL) (replicate n Idle).

(** C6: With any number of threads and any interleaving of their steps, loads
    that return old values and compare-and-swaps that fail at will included,
    values come out in the order of the tickets: there is a list of the values
    enqueued such that every enqueue and every dequeue with ticket [p] that has
    returned has carried its [p]-th value; no two dequeues share a ticket, nor
    two enqueues; a value is dequeued after its enqueue returned; and the number
    of values in flight never exceeds the capacity.  When no call is under way,
    the tickets below [tail] were all enqueued and those below [head] all
    dequeued: no value is lost or duplicated. *)
Theorem lfqueue_fifo k n m tr c :
  1 ≤ k ≤ 60 → Z.of_nat m < 2 ^ 61 → reach (start k n) m tr c →
  let q := shared c in
  ∃ log : list Z,
    Z.of_nat (length log) = tail q ∧ 0 ≤ head q ≤ tail q ∧ tail q ≤ head q + 2 ^ k ∧
    (∀ v p, Enqueued v p ∈ tr → 0 ≤ p ∧ log !! Z.to_nat p = Some v) ∧
    (∀ v p, Dequeued v p ∈ tr → p < head q ∧ Enqueued v p ∈ tr) ∧
    NoDup (enq_tickets tr) ∧ NoDup (deq_tickets tr) ∧
    (Forall (λ p, p = Idle) (threads c) →
       (∀ p, 0 ≤ p < tail q → p ∈ enq_tickets tr) ∧ (∀ p, 0 ≤ p < head q → p ∈ deq_tickets tr)).
Proof.
  intros Hk Hm Hr. by apply (ring_fifo k Hk n NULL m).
Qed.

(** The ticket whose cell a thread reads or writes. *)
Definition holding (p : pc Z) : option Z :=
  match p with
  | EWrite _ pos | EPublish _ pos | DRead pos | DRelease _ pos => Some pos
  | _ => None
  end.

(** No data race: two threads that are between taking a ticket and releasing
    its cell never hold the same cell. *)
Theorem lfqueue_exclusive k n m tr c t1 t2 p1 p2 x1 x2 :
  1 ≤ k ≤ 60 → Z.of_nat m < 2 ^ 61 → reach (start k n) m tr c →
  threads c !! t1 = Some p1 → threads c !! t2 = Some p2 → t1 ≠ t2 →
  holding p1 = Some x1 → holding p2 = Some x2 → slot (shared c) x1 ≠ slot (shared c) x2.
Proof.
  intros Hk Hm Hr H1 H2 Hne Hx1 Hx2 E.
  destruct (ok_reach k Hk _ _ _ _ (ok_initial k Hk n NULL) eq_refl Hr Hm) as [(phs & log & Hi & _) _].
  rewrite !(slot_at k Hk Hi) in E.
  assert (∀ t p x, threads c !! t = Some p → holding p = Some x →
    ∃ ph, phs !! idx k x = Some ph ∧ owner ph = Some t) as Hown.
  { intros t p x Hp Hx. pose proof (i_pcs _ _ _ _ Hi _ _ Hp) as Hpc.
    destruct p; simplify_eq/=; destruct Hpc as (_ & Hph & _) || destruct Hpc as (_ & Hph); eauto. }
  destruct (Hown _ _ _ H1 Hx1) as (ph1 & Hp1 & Ho1). destruct (Hown _ _ _ H2 Hx2) as (ph2 & Hp2 & Ho2).
  rewrite E in Hp1. congruence.
Qed.

(** C7: From every reachable state, whatever the other threads were doing when
    they stopped, a call that runs alone returns within eight steps: the queue
    cannot get stuck, full or empty or with calls half done. *)
Theorem lfqueue_solo_returns k n m tr c t p :
  1 ≤ k ≤ 60 → Z.of_nat m < 2 ^ 61 → reach (start k n) m tr c →
  threads c !! t = Some p → p ≠ Idle → ∃ q' e, solo 8 (shared c) p = Some (q', e).
Proof.
  intros Hk Hm Hr Ht Hp.
  destruct (ok_reach k Hk _ _ _ _ (ok_initial k Hk n NULL) eq_refl Hr Hm) as [(phs & log & Hi & _) Hl].
  destruct c as [q ths]. simpl in *.
  destruct (solo_returns k Hk Hi ltac:(lia) p Ht Hp) as [[q' e] Hs]. by exists q', e.
Qed.

(** ** A run of two threads *)

(** Thread 0 starts an enqueue and takes a ticket; thread 1 starts another one
    and takes the next ticket: both are about to write. *)
Definition two_writers : config Z :=
  Config (set_tail (initial (2 ^ 1) NULL) 2) [EWrite 7 0; EWrite 8 1].

Lemma two_writers_reach : reach (start 1 2) 8 [] two_writers.
Proof.
  assert (∀ q ths n p q' p' t, ths !! t = Some p → thread_step exact q p = Some (q', p', None) →
    reach (start 1 2) n [] (Config q ths) → reach (start 1 2) (S n) [] (Config q' (<[t := p']> ths))) as Hgo.
  { intros q ths n p q' p' t Ht Hs Hr. apply (reach_step _ _ [] _ None _ Hr). by eapply step_thread. }
  assert (reach (start 1 2) 1 [] (Config (initial (2 ^ 1) NULL) [ELoad 7; Idle])) as H1.
  { apply (reach_step _ 0 [] _ None _ (reach_refl _)). by apply (step_enqueue (initial (2 ^ 1) NULL) [Idle; Idle] 0 7). }
  assert (reach (start 1 2) 2 [] (Config (initial (2 ^ 1) NULL) [ELoad 7; ELoad 8])) as H2.
  { apply (reach_step _ 1 [] _ None _ H1). by apply (step_enqueue (initial (2 ^ 1) NULL) [ELoad 7; Idle] 1 8). }
  eapply (Hgo _ _ _ _ _ (ETest 7 0) 0%nat) in H2; [|done|done].
  eapply (Hgo _ _ _ _ _ (ECas 7 0) 0%nat) in H2; [|done|done].
  eapply (Hgo _ _ _ _ _ (EWrite 7 0) 0%nat) in H2; [|done|done].
  eapply (Hgo _ _ _ _ _ (ETest 8 1) 1%nat) in H2; [|done|done].
  eapply (Hgo _ _ _ _ _ (ECas 8 1) 1%nat) in H2; [|done|done].
  eapply (Hgo _ _ _ _ _ (EWrite 8 1) 1%nat) in H2; [|done|done].
  exact H2.
Qed.

Definition no_events : list (event Z) := [].

Lemma lfqueue_fifo_witness :
  let q := shared two_writers in
  ∃ log : list Z,
    Z.of_nat (length log) = tail q ∧ 0 ≤ head q ≤ tail q ∧ tail q ≤ head q + 2 ^ 1 ∧
    (∀ v p, Enqueued v p ∈ no_events → 0 ≤ p ∧ log !! Z.to_nat p = Some v) ∧
    (∀ v p, Dequeued v p ∈ no_events → p < head q ∧ Enqueued v p ∈ no_events) ∧
    NoDup (enq_tickets no_events) ∧ NoDup (deq_tickets no_events) ∧
    (Forall (λ p, p = Idle) (threads two_writers) →
       (∀ p, 0 ≤ p < tail q → p ∈ enq_tickets no_events) ∧
       (∀ p, 0 ≤ p < head q → p ∈ deq_tickets no_events)).
Proof. apply (lfqueue_fifo 1 2 8 no_events two_writers); [lia|lia|apply two_writers_reach]. Defined.

Lemma lfqueue_exclusive_witness : slot (shared two_writers) 0 ≠ slot (shared two_writers) 1.
Proof.
  apply (lfqueue_exclusive 1 2 8 [] two_writers 0 1 (EWrite 7 0) (EWrite 8 1));
    [lia|lia|apply two_writers_reach|reflexivity|reflexivity|lia|reflexivity|reflexivity].
Defined.

Lemma lfqueue_solo_returns_witness : ∃ q' e, solo 8 (shared two_writers) (EWrite 8 1) = Some (q', e).
Proof.
  apply (lfqueue_solo_returns 1 2 8 [] two_writers 1); [lia|lia|apply two_writers_reach|reflexivity|discriminate].
Defined.

(** ** The size of the buffer wraps *)

(** The size of the cell array is computed without an overflow check: a
    queue of [2^60] cells asks for 0 bytes, and when the allocator grants that
    the initialisation writes outside the block; and a capacity above [2^63]
    is rounded to 2. *)
Theorem lfqueue_create_wraps w :
  oracle w (allocs w) sizeof_lfqueue = true → oracle w (S (allocs w)) 0 = true →
  cobalt_lfqueue_create (2 ^ 60) w = Fault BadAccess ∧ lfqueue_next_pow2 (2 ^ 63 + 1) = 2.
Proof.
  intros H0 H1. split; [|by vm_compute]. unfold cobalt_lfqueue_create, cobalt_lfqueue_create_with_allocator.
  cbn [negb]. change (2 ^ 60 <? 2) with false. cbv iota. change (lfqueue_next_pow2 (2 ^ 60)) with (2 ^ 60).
  unfold mbind, request. simpl. rewrite H0. cbn [negb]. change (wrap64 (sizeof_cell * 2 ^ 60)) with 0.
  simpl. by rewrite H1.
Qed.

Lemma lfqueue_create_wraps_witness :
  cobalt_lfqueue_create (2 ^ 60) (world0 (λ _ _, true)) = Fault BadAccess ∧ lfqueue_next_pow2 (2 ^ 63 + 1) = 2.
Proof. apply lfqueue_create_wraps; reflexivity. Defined.
End LFQueueSpec.
