(* ===== verification/Double.v ===== *)
(** * Double precision numbers as the C library reads and prints them

    [strtod] and [snprintf("%.17g")] in the "C" locale, which the JSON modules
    call (src/src/module/json_parse.c, json_serialize.c, json_sax.c): reading
    rounds the decimal number to the nearest double, ties to even; printing
    gives 17 significant digits.  Seventeen digits are enough: what is printed
    is read back as the same number. *)
From S2P Require Import Prelude.
From Stdlib Require Import QArith Qpower Lqa.
Local Open Scope Z_scope.

Module Double.

(** [(-1)^s * m * 2^e] *)
Inductive double : Set :=
  | Finite (s : bool) (m e : Z)
  | Infinity (s : bool)
  | NaN.

Definition emin : Z := -1074.
Definition emax : Z := 971.

Definition zero : double := Finite false 0 emin.

(** The one way to write each finite double: 53 bits unless the exponent is
    the least. *)
Definition canonical (x : double) : bool :=
  match x with
  | Finite _ m e => (0 <=? m) && (m <? 2 ^ 53) && (emin <=? e) && (e <=? emax) &&
                    ((2 ^ 52 <=? m) || (e =? emin))
  | _ => true
  end.

Definition finite (x : double) : bool := match x with Finite _ _ _ => true | _ => false end.

(** A ratio [n / d * b ^ k] for any sign of [k], as a numerator and a
    denominator. *)
Definition scale (b n d k : Z) : Z * Z :=
  if 0 <=? k then (n * b ^ k, d) else (n, d * b ^ (- k)).

(** [n / d] to the nearest integer, ties to even. *)
Definition round_div (n d : Z) : Z :=
  let q := n / d in
  let r := n mod d in
  if (d <? 2 * r) || ((2 * r =? d) && Z.odd q) then q + 1 else q.

(** The exponent for [n / d]: the quotient by [2 ^ e] has 53 bits, or fewer
    when the exponent is the least. *)
Definition exponent (n d : Z) : Z :=
  let e := Z.max emin (Z.log2 n - Z.log2 d - 53) in
  let (n', d') := scale 2 n d (- e) in
  if 2 ^ 53 * d' <=? n' then e + 1 else e.

(** The double nearest to [n / d]. *)
Definition of_ratio (s : bool) (n d : Z) : double :=
  if n =? 0 then Finite s 0 emin
  else
    let e := exponent n d in
    let (n', d') := scale 2 n d (- e) in
    let m := round_div n' d' in
    let (m, e) := if m =? 2 ^ 53 then (2 ^ 52, e + 1) else (m, e) in
    if emax <? e then Infinity s else Finite s m e.

(** ** Reading *)

Definition isdigit (c : Z) : bool := (48 <=? c) && (c <=? 57).

(** The digits at the front, and what follows them. *)
Fixpoint span_digits (s : list Z) : list Z * list Z :=
  match s with
  | c :: s' => if isdigit c then let (ds, r) := span_digits s' in (c :: ds, r) else ([], s)
  | [] => ([], [])
  end.

Definition digits_value (ds : list Z) : Z := fold_left (λ a c, 10 * a + (c - 48)) ds 0.

(** A minus sign (45) at the front. *)
Definition read_sign (s : list Z) : bool * list Z :=
  match s with c :: s' => if c =? 45 then (true, s') else (false, s) | [] => (false, []) end.

(** The exponent part: [e] or [E] (101, 69), a sign, and at least one digit;
    anything else is not part of the number. *)
Definition read_exponent (s : list Z) : Z :=
  match s with
  | c :: s' =>
      if (c =? 101) || (c =? 69) then
        let (neg, r) := match s' with
                        | c' :: r => if c' =? 43 then (false, r) else read_sign s'
                        | [] => (false, [])
                        end in
        let v := digits_value (span_digits r).1 in
        if neg then - v else v
      else 0
  | [] => 0
  end.

(** [strtod] on a text of digits, signs, points (46) and exponent letters,
    which is what the parsers pass to it. *)
Definition strtod (s : list Z) : double :=
  let (neg, s) := read_sign s in
  let (int, s) := span_digits s in
  let (frac, s) := match s with
                   | c :: s' => if c =? 46 then span_digits s' else ([], s)
                   | [] => ([], [])
                   end in
  if bool_decide (int ++ frac = []) then zero
  else
    let k := read_exponent s - Z.of_nat (length frac) in
    let (n, d) := scale 10 (digits_value (int ++ frac)) 1 k in
    of_ratio neg n d.

(** ** Printing *)

(** The decimal digits of [n], [len] of them. *)
Fixpoint digits (len : nat) (n : Z) : list Z :=
  match len with O => [] | S len => digits len (n / 10) ++ [48 + n mod 10] end.

(** The greatest [x], from [x] downwards, with [10 ^ x <= n / d]. *)
Fixpoint exponent10 (fuel : nat) (x n d : Z) : Z :=
  match fuel with
  | O => x
  | S fuel => let (n', d') := scale 10 n d (- x) in
              if d' <=? n' then x else exponent10 fuel (x - 1) n d
  end.

Definition x_max : Z := 308.
Definition x_fuel : nat := 632.

(** Seventeen significant digits [D] and the exponent [x] of the first one:
    the number is about [D * 10 ^ (x - 16)]. *)
Definition decimal (m e : Z) : Z * Z :=
  let (n, d) := scale 2 m 1 e in
  let x := exponent10 x_fuel x_max n d in
  let (n', d') := scale 10 n d (16 - x) in
  let D := round_div n' d' in
  if D =? 10 ^ 17 then (10 ^ 16, x + 1) else (D, x).

Fixpoint strip_zeros (ds : list Z) : list Z :=
  match ds with
  | [] => []
  | c :: ds => match strip_zeros ds with
               | [] => if c =? 48 then [] else [c]
               | ds' => c :: ds'
               end
  end.

(** [int] and, if anything is left of it, a point and [frac]. *)
Definition with_fraction (int frac : list Z) : list Z :=
  match strip_zeros frac with [] => int | f => int ++ 46 :: f end.

(** At least two digits. *)
Definition print_exponent (x : Z) : list Z :=
  (if x <? 0 then 45 else 43) ::
  (if Z.abs x <? 100 then digits 2 (Z.abs x) else digits 3 (Z.abs x)).

Definition print_decimal (D x : Z) : list Z :=
  let ds := digits 17 D in
  if (-4 <=? x) && (x <? 17) then
    if 0 <=? x then with_fraction (take (Z.to_nat (x + 1)) ds) (drop (Z.to_nat (x + 1)) ds)
    else with_fraction [48] (replicate (Z.to_nat (- x - 1)) 48 ++ ds)
  else with_fraction (take 1 ds) (drop 1 ds) ++ 101 :: print_exponent x.

Definition print_sign (s : bool) : list Z := if s then [45] else [].

(** [snprintf(tmp, sizeof(tmp), "%.17g", x)]; [inf] and [nan] are spelt out. *)
Definition fmt_g17 (x : double) : list Z :=
  match x with
  | Finite s m e =>
      print_sign s ++
      (if m =? 0 then [48] else let (D, x) := decimal m e in print_decimal D x)
  | Infinity s => print_sign s ++ [105; 110; 102]
  | NaN => [110; 97; 110]
  end.

(** ** Ratios *)

Definition ratio (n d : Z) : Q := (inject_Z n / inject_Z d)%Q.

Lemma inject_pos d : 0 < d → (0 < inject_Z d)%Q.
Proof. intros. rewrite (Zlt_Qlt 0) in H. exact H. Qed.

Lemma ratio_compare n d c : 0 < d → ((inject_Z c <= ratio n d)%Q ↔ c * d ≤ n).
Proof.
  intros Hd. apply inject_pos in Hd as Hq. unfold ratio. rewrite (Zle_Qle (c * d)), inject_Z_mult. split; intros H.
  - apply (Qmult_le_r _ _ (inject_Z d)) in H; [|done]. rewrite Qmult_comm with (x := (_ / _)%Q) in H.
    rewrite Qmult_div_r in H by lra. exact H.
  - apply Qle_shift_div_l; done.
Qed.

Lemma pow_pos b k : 0 < b → (0 < inject_Z b ^ k)%Q.
Proof. intros H. apply Qpower_0_lt. by apply inject_pos. Qed.

Lemma inject_pow b k : 0 ≤ k → (inject_Z (b ^ k) == inject_Z b ^ k)%Q.
Proof. apply Zpower_Qpower. Qed.

Lemma scale_spec b n d k n' d' :
  0 < b → 0 < d → scale b n d k = (n', d') →
  0 < d' ∧ (ratio n' d' == ratio n d * inject_Z b ^ k)%Q.
Proof.
  intros Hb Hd. unfold scale, ratio. apply inject_pos in Hd as Hq. pose proof (pow_pos b k Hb).
  destruct (Z.leb_spec 0 k); intros [= <- <-].
  - split; [done|]. rewrite inject_Z_mult, inject_pow by done. field. lra.
  - assert (0 < b ^ - k) by (apply Z.pow_pos_nonneg; lia). split; [nia|].
    rewrite inject_Z_mult, inject_pow by lia. rewrite Qpower_opp. field. split; lra.
Qed.

(** Rounding moves a ratio by at most one half. *)
Lemma round_div_near n d :
  0 < d → (- (1 # 2) <= ratio n d - inject_Z (round_div n d) <= 1 # 2)%Q.
Proof.
  intros Hd. apply inject_pos in Hd as Hq. unfold ratio, round_div.
  pose proof (Z_div_mod_eq_full n d) as E. pose proof (Z.mod_pos_bound n d Hd) as Hr.
  set (q := n / d) in *. set (r := n mod d) in *.
  assert (inject_Z n / inject_Z d == inject_Z q + inject_Z r / inject_Z d)%Q as ->.
  { rewrite E, inject_Z_plus, inject_Z_mult. field. lra. }
  assert (0 <= inject_Z r / inject_Z d)%Q.
  { apply Qle_shift_div_l; [done|]. rewrite Qmult_0_l. rewrite (Zle_Qle 0) in Hr. apply Hr. }
  destruct (Z.ltb_spec d (2 * r)) as [H2|H2]; simpl.
  - rewrite inject_Z_plus. assert (1 # 2 <= inject_Z r / inject_Z d)%Q.
    { apply Qle_shift_div_l; [done|]. apply Z.lt_le_incl in H2. rewrite Zle_Qle, inject_Z_mult in H2.
      change (inject_Z 2) with (2 # 1)%Q in H2. lra. }
    assert (inject_Z r / inject_Z d <= 1)%Q.
    { apply Qle_shift_div_r; [done|]. assert (r ≤ d) as Hrd by lia. rewrite Zle_Qle in Hrd. lra. }
    change (inject_Z 1) with 1%Q. lra.
  - assert (inject_Z r / inject_Z d <= 1 # 2)%Q.
    { apply Qle_shift_div_r; [done|]. rewrite Zle_Qle, inject_Z_mult in H2.
      change (inject_Z 2) with (2 # 1)%Q in H2. lra. }
    destruct (Z.eqb_spec (2 * r) d) as [H3|]; simpl; [|lra]. destruct (Z.odd q); simpl; [|lra].
    rewrite inject_Z_plus. change (inject_Z 1) with 1%Q.
    assert (inject_Z r / inject_Z d == 1 # 2)%Q as Hh; [|lra].
    rewrite <- H3, inject_Z_mult. change (inject_Z 2) with (2 # 1)%Q. field.
    intros Hr0. rewrite <- H3, inject_Z_mult, Hr0 in Hq. lra.
Qed.

Lemma inject_lt a b : (inject_Z a < inject_Z b)%Q ↔ a < b.
Proof. by rewrite <- Zlt_Qlt. Qed.

Lemma inject_lt_1 a b : (inject_Z a < inject_Z b)%Q → a < b.
Proof. apply inject_lt. Qed.

(** The integer within less than one half is the result. *)
Lemma round_div_unique n d m :
  0 < d → (- (1 # 2) < ratio n d - inject_Z m < 1 # 2)%Q → round_div n d = m.
Proof.
  intros Hd Hm. pose proof (round_div_near n d Hd) as Hn.
  assert (inject_Z (round_div n d) < inject_Z m + 1)%Q as H1 by lra.
  assert (inject_Z m < inject_Z (round_div n d) + 1)%Q as H2 by lra.
  change 1%Q with (inject_Z 1) in *. rewrite <- inject_Z_plus, inject_lt in H1.
  rewrite <- inject_Z_plus, inject_lt in H2. lia.
Qed.

(** ** Reading: the nearest double *)

Lemma pow2_plus a b : (inject_Z 2 ^ (a + b) == inject_Z 2 ^ a * inject_Z 2 ^ b)%Q.
Proof. apply Qpower_plus. discriminate. Qed.

Lemma pow2_Z a : 0 ≤ a → (inject_Z 2 ^ a == inject_Z (2 ^ a))%Q.
Proof. intros. by rewrite inject_pow. Qed.

Lemma pow2_le a b : a ≤ b → (inject_Z 2 ^ a <= inject_Z 2 ^ b)%Q.
Proof.
  intros H. replace b with (a + (b - a)) by lia. rewrite pow2_plus. pose proof (pow_pos 2 a ltac:(lia)).
  assert (1 <= inject_Z 2 ^ (b - a))%Q as H1; [|nra].
  rewrite pow2_Z by lia. change 1%Q with (inject_Z 1). rewrite <- Zle_Qle.
  assert (0 < 2 ^ (b - a)) by (apply Z.pow_pos_nonneg; lia). lia.
Qed.

(** A ratio lies between the powers of two its logarithms give. *)
Lemma ratio_log2 n d :
  0 < n → 0 < d →
  (inject_Z 2 ^ (Z.log2 n - Z.log2 d - 1) < ratio n d < inject_Z 2 ^ (Z.log2 n - Z.log2 d + 1))%Q.
Proof.
  intros Hn Hd. apply inject_pos in Hd as Hq.
  destruct (Z.log2_spec n Hn) as [N1 N2], (Z.log2_spec d Hd) as [D1 D2].
  pose proof (Z.log2_nonneg n). pose proof (Z.log2_nonneg d).
  set (a := Z.log2 n) in *. set (b := Z.log2 d) in *.
  rewrite Zle_Qle, <- pow2_Z in N1, D1 by lia. rewrite Zlt_Qlt, <- pow2_Z in N2, D2 by lia.
  unfold Z.succ in *. rewrite pow2_plus in N2, D2. change (inject_Z 2 ^ 1)%Q with (2 # 1)%Q in *.
  pose proof (pow_pos 2 a ltac:(lia)). pose proof (pow_pos 2 b ltac:(lia)).
  assert (∀ c, inject_Z 2 ^ (a - b + c) * inject_Z 2 ^ b == inject_Z 2 ^ a * inject_Z 2 ^ c)%Q as Hs.
  { intros c. rewrite <- !pow2_plus. by replace (a - b + c + b) with (a + c) by lia. }
  unfold ratio. split.
  - apply Qlt_shift_div_l; [done|]. pose proof (Hs (-1)) as E. change (inject_Z 2 ^ (-1))%Q with (1 # 2)%Q in E.
    pose proof (pow_pos 2 (a - b - 1) ltac:(lia)). replace (a - b + -1) with (a - b - 1) in E by lia. nra.
  - apply Qlt_shift_div_r; [done|]. pose proof (Hs 1) as E. change (inject_Z 2 ^ 1)%Q with (2 # 1)%Q in E.
    pose proof (pow_pos 2 (a - b + 1) ltac:(lia)). nra.
Qed.

Lemma pow2_cancel e : (inject_Z 2 ^ (- e) * inject_Z 2 ^ e == 1)%Q.
Proof. rewrite <- pow2_plus. by replace (- e + e) with 0 by lia. Qed.

Lemma shift_le c v e : (c <= v * inject_Z 2 ^ (- e) ↔ c * inject_Z 2 ^ e <= v)%Q.
Proof.
  pose proof (pow2_cancel e). pose proof (pow_pos 2 e ltac:(lia)). pose proof (pow_pos 2 (- e) ltac:(lia)).
  assert (v == v * inject_Z 2 ^ (- e) * inject_Z 2 ^ e)%Q as Hv by (rewrite <- Qmult_assoc, pow2_cancel; lra).
  split; intros Hc; [rewrite Hv|rewrite Hv in Hc]; nra.
Qed.

Lemma shift_lt c v e : (v * inject_Z 2 ^ (- e) < c ↔ v < c * inject_Z 2 ^ e)%Q.
Proof.
  split; intros H; apply Qnot_le_lt; intros Hc; (apply Qlt_not_le in H; apply H).
  - by apply shift_le.
  - by apply shift_le.
Qed.

Lemma exponent_spec n d :
  0 < n → 0 < d →
  emin ≤ exponent n d ∧ (ratio n d < inject_Z (2 ^ 53) * inject_Z 2 ^ exponent n d)%Q ∧
  (exponent n d = emin ∨ (inject_Z (2 ^ 52) * inject_Z 2 ^ exponent n d <= ratio n d)%Q).
Proof.
  intros Hn Hd. destruct (ratio_log2 n d Hn Hd) as [L1 L2]. unfold exponent.
  set (l := Z.log2 n - Z.log2 d) in *. set (e := Z.max emin (l - 53)).
  destruct (scale 2 n d (- e)) as [n' d'] eqn:Es.
  destruct (scale_spec 2 n d (- e) n' d' ltac:(lia) Hd Es) as [Hd' Hr].
  assert (∀ a, inject_Z 2 ^ (e + a) == inject_Z 2 ^ e * inject_Z 2 ^ a)%Q as Ha by (intros; apply pow2_plus).
  pose proof (pow_pos 2 e ltac:(lia)) as Hp.
  assert (ratio n d < inject_Z (2 ^ 54) * inject_Z 2 ^ e)%Q as Hup.
  { eapply Qlt_le_trans; [exact L2|]. eapply Qle_trans; [apply (pow2_le _ (e + 54)); lia|].
    rewrite Ha, (pow2_Z 54) by lia. lra. }
  destruct (Z.leb_spec (2 ^ 53 * d') n') as [Hc|Hc].
  - rewrite <- ratio_compare, Hr, shift_le in Hc by done.
    split_and!; [lia| |right]; rewrite (Ha 1); change (inject_Z 2 ^ 1)%Q with (2 # 1)%Q;
      [change (inject_Z (2 ^ 54)) with (inject_Z (2 ^ 53) * (2 # 1))%Q in Hup
      |change (inject_Z (2 ^ 53)) with (inject_Z (2 ^ 52) * (2 # 1))%Q in Hc]; lra.
  - split_and!; [lia| |].
    + apply shift_lt. rewrite <- Hr. apply Qnot_le_lt. rewrite ratio_compare by done. lia.
    + destruct (Z.max_spec emin (l - 53)) as [[? Hm]|[? Hm]]; fold e in Hm; [|by left]. right.
      apply Qlt_le_weak. eapply Qle_lt_trans; [|exact L1]. rewrite Hm.
      replace (l - 1) with (l - 53 + 52) by lia. rewrite pow2_plus, (pow2_Z 52) by lia. lra.
Qed.

Lemma pow2_53 e : (inject_Z (2 ^ 53) * inject_Z 2 ^ e == (2 # 1) * (inject_Z (2 ^ 52) * inject_Z 2 ^ e))%Q.
Proof. change (inject_Z (2 ^ 53)) with (inject_Z (2 ^ 52) * (2 # 1))%Q. lra. Qed.

(** A number closer to [m * 2 ^ e] than to its neighbours is read as it. *)
Lemma of_ratio_unique s n d m e :
  canonical (Finite s m e) = true → 0 < m → 0 < n → 0 < d →
  (- (1 # 2) < ratio n d * inject_Z 2 ^ (- e) - inject_Z m < 1 # 2)%Q →
  (m = 2 ^ 52 → e ≠ emin → (- (1 # 4) < ratio n d * inject_Z 2 ^ (- e) - inject_Z m)%Q) →
  of_ratio s n d = Finite s m e.
Proof.
  intros Hc Hm Hn Hd Hnear Hlow. unfold canonical in Hc.
  apply andb_true_iff in Hc as [Hc H5]. repeat (apply andb_true_iff in Hc as [Hc ?]).
  apply Z.leb_le in H0, Hc, H. apply Z.ltb_lt in H1. apply orb_true_iff in H5.
  rewrite Z.leb_le, Z.eqb_eq in H5.
  destruct (exponent_spec n d Hn Hd) as (E1 & E2 & E3). unfold of_ratio.
  rewrite (proj2 (Z.eqb_neq n 0)) by lia. set (E := exponent n d) in *.
  set (u := (ratio n d * inject_Z 2 ^ (- e))%Q) in *.
  assert (ratio n d == u * inject_Z 2 ^ e)%Q as Hu.
  { unfold u. rewrite <- Qmult_assoc, pow2_cancel. lra. }
  assert (∀ a b : Z, a ≤ b → (inject_Z a <= inject_Z b)%Q) as Hle by (intros; by rewrite <- Zle_Qle).
  assert (∀ k, ratio n d * inject_Z 2 ^ (- (e + k)) == u * inject_Z 2 ^ (- k))%Q as Hsh.
  { intros k. unfold u. rewrite <- Qmult_assoc, <- pow2_plus. by replace (- e + - k) with (- (e + k)) by lia. }
  pose proof (pow_pos 2 e ltac:(lia)) as He.
  assert (E ≤ e) as HEe.
  { destruct (decide (E ≤ e)); [done|]. exfalso. destruct E3 as [?|E3]; [lia|].
    assert (inject_Z m <= inject_Z (2 ^ 53 - 1))%Q by (apply Hle; lia).
    pose proof (pow2_le (e + 1) E ltac:(lia)) as Hp. rewrite pow2_plus in Hp. change (inject_Z 2 ^ 1)%Q with (2 # 1)%Q in Hp.
    rewrite Hu in E3. change (inject_Z (2 ^ 53 - 1)) with (9007199254740991 # 1)%Q in *.
    change (inject_Z (2 ^ 52)) with (4503599627370496 # 1)%Q in *.
    assert (u < 9007199254740992 # 1)%Q as Hu2 by lra.
    apply (Qmult_lt_r _ _ _ He) in Hu2. lra. }
  destruct (scale 2 n d (- E)) as [n' d'] eqn:Es.
  destruct (scale_spec 2 n d (- E) n' d' ltac:(lia) Hd Es) as [Hd' Hr].
  destruct (decide (E = e)) as [HE|HE].
  - rewrite HE in *. rewrite (round_div_unique n' d' m) by (done || by rewrite Hr).
    rewrite (proj2 (Z.eqb_neq m _)) by lia. by rewrite (proj2 (Z.ltb_ge _ _)) by lia.
  - destruct H5 as [H5|]; [|lia].
    assert (m = 2 ^ 52 ∧ E = e - 1) as [-> HE1]; [|rewrite HE1 in *].
    { pose proof (pow2_le E (e - 1) ltac:(lia)) as Hp. rewrite Hu, pow2_53 in E2.
      assert (inject_Z 2 ^ e == inject_Z 2 ^ (e - 1) * (2 # 1))%Q as He1.
      { change (2 # 1)%Q with (inject_Z 2 ^ 1)%Q. rewrite <- pow2_plus. by replace (e - 1 + 1) with e by lia. }
      assert (u < inject_Z (2 ^ 52))%Q as Hu52.
      { apply (Qmult_lt_r _ _ _ He). change (inject_Z (2 ^ 52)) with (4503599627370496 # 1)%Q in *. lra. }
      assert (m = 2 ^ 52) as Hm52.
      { assert (inject_Z m < inject_Z (2 ^ 52 + 1))%Q as Hlt by (rewrite inject_Z_plus; change (inject_Z 1) with 1%Q; lra).
        rewrite inject_lt in Hlt. lia. }
      split; [done|]. destruct (decide (E ≤ e - 2)); [|lia]. exfalso.
      pose proof (pow2_le E (e - 2) ltac:(lia)) as Hp2.
      assert (inject_Z 2 ^ e == inject_Z 2 ^ (e - 2) * (4 # 1))%Q as He2.
      { change (4 # 1)%Q with (inject_Z 2 ^ 2)%Q. rewrite <- pow2_plus. by replace (e - 2 + 2) with e by lia. }
      rewrite Hm52 in Hnear. change (inject_Z (2 ^ 52)) with (4503599627370496 # 1)%Q in *.
      assert (4503599627370495 # 1 < u)%Q as Hu51 by lra. apply (Qmult_lt_r _ _ _ He) in Hu51. lra. }
    rewrite (round_div_unique n' d' (2 ^ 53)); [|done|].
    + rewrite (proj2 (Z.eqb_eq _ _)) by done. replace (e - 1 + 1) with e by lia.
      by rewrite (proj2 (Z.ltb_ge _ _)) by lia.
    + rewrite Hr. pose proof (Hsh (-1)) as Hs1. replace (e + -1) with (e - 1) in Hs1 by lia. rewrite Hs1.
      change (inject_Z 2 ^ (- -1))%Q with (2 # 1)%Q. specialize (Hlow eq_refl ltac:(lia)).
      pose proof E2 as E2'. rewrite Hu, pow2_53 in E2'.
      change (inject_Z (2 ^ 53)) with (inject_Z (2 ^ 52) * (2 # 1))%Q.
      assert (inject_Z 2 ^ e == inject_Z 2 ^ (e - 1) * (2 # 1))%Q as He1.
      { change (2 # 1)%Q with (inject_Z 2 ^ 1)%Q. rewrite <- pow2_plus. by replace (e - 1 + 1) with e by lia. }
      assert (u < inject_Z (2 ^ 52))%Q; [|lra].
      apply (Qmult_lt_r _ _ _ He). change (inject_Z (2 ^ 52)) with (4503599627370496 # 1)%Q in *. lra.
Qed.

(** ** Printing: seventeen digits are enough *)

Lemma pow_add b j k : 0 < b → (inject_Z b ^ (j + k) == inject_Z b ^ j * inject_Z b ^ k)%Q.
Proof. intros H. apply Qpower_plus. apply inject_pos in H. lra. Qed.

Lemma scaled_le b n d k n' d' j :
  0 < b → 0 < d → scale b n d (- k) = (n', d') → 0 ≤ j →
  (b ^ j * d' ≤ n' ↔ (inject_Z b ^ (k + j) <= ratio n d)%Q).
Proof.
  intros Hb Hd E Hj. destruct (scale_spec b n d (- k) n' d' Hb Hd E) as [Hd' Hr].
  rewrite <- ratio_compare, Hr, (inject_pow b j Hj) by done. rewrite pow_add by done.
  pose proof (pow_pos b k Hb). pose proof (pow_pos b (- k) Hb).
  assert (inject_Z b ^ (- k) * inject_Z b ^ k == 1)%Q as Hc.
  { rewrite <- pow_add by done. by replace (- k + k) with 0 by lia. }
  split; intros H1.
  - apply (Qmult_le_r _ _ (inject_Z b ^ k)) in H1; [|done]. rewrite <- Qmult_assoc, Hc in H1. lra.
  - apply (Qmult_le_r _ _ (inject_Z b ^ (- k))) in H1; [|done].
    rewrite (Qmult_comm (inject_Z b ^ k)), <- Qmult_assoc, (Qmult_comm (inject_Z b ^ k)), Hc in H1. lra.
Qed.

Lemma exponent10_spec fuel x n d :
  0 < d → (ratio n d < inject_Z 10 ^ (x + 1))%Q → (inject_Z 10 ^ (x - Z.of_nat fuel) <= ratio n d)%Q →
  let y := exponent10 fuel x n d in
  x - Z.of_nat fuel ≤ y ≤ x ∧ (inject_Z 10 ^ y <= ratio n d < inject_Z 10 ^ (y + 1))%Q.
Proof.
  intros Hd. revert x. induction fuel as [|fuel IH]; intros x H1 H2; simpl.
  { replace (x - Z.of_nat 0) with x in H2 by lia. split; [lia|done]. }
  destruct (scale 10 n d (- x)) as [n' d'] eqn:E.
  pose proof (scaled_le 10 n d x n' d' 0 ltac:(lia) Hd E ltac:(lia)) as Hs.
  change (10 ^ 0 * d') with (1 * d') in Hs. rewrite Z.mul_1_l, Z.add_0_r in Hs.
  destruct (Z.leb_spec d' n') as [Hc|Hc].
  - split; [lia|]. split; [by apply Hs|done].
  - destruct (IH (x - 1)) as [? ?].
    + replace (x - 1 + 1) with x by lia. apply Qnot_le_lt. rewrite <- Hs. lia.
    + by replace (x - 1 - Z.of_nat fuel) with (x - Z.of_nat (S fuel)) by lia.
    + split; [lia|done].
Qed.

Lemma canonical_range s m e :
  canonical (Finite s m e) = true → 0 < m →
  (inject_Z 10 ^ (x_max - Z.of_nat x_fuel) <= inject_Z m * inject_Z 2 ^ e < inject_Z 10 ^ (x_max + 1))%Q.
Proof.
  intros Hc Hm. unfold canonical in Hc. repeat (apply andb_true_iff in Hc as [Hc ?]).
  apply Z.leb_le in H0, H1. apply Z.ltb_lt in H2.
  assert (inject_Z 1 <= inject_Z m)%Q as Hm1 by (rewrite <- Zle_Qle; lia).
  assert (inject_Z m < inject_Z (2 ^ 53))%Q as Hm2 by (rewrite <- Zlt_Qlt; lia).
  pose proof (pow_pos 2 e ltac:(lia)). change (inject_Z 1) with 1%Q in Hm1. split.
  - apply Qle_trans with (inject_Z 2 ^ emin)%Q; [by vm_compute|].
    pose proof (pow2_le emin e ltac:(lia)). nra.
  - apply Qlt_le_trans with (inject_Z (2 ^ 53) * inject_Z 2 ^ emax)%Q; [|by vm_compute].
    pose proof (pow2_le e emax ltac:(lia)). apply (Qmult_lt_r _ _ (inject_Z 2 ^ e)) in Hm2; [|done].
    eapply Qlt_le_trans; [exact Hm2|]. rewrite !(Qmult_comm (inject_Z (2 ^ 53))).
    apply Qmult_le_compat_r; [done|]. by vm_compute.
Qed.

Lemma pow10_cancel k : (inject_Z 10 ^ (16 - k) * inject_Z 10 ^ (k - 16) == 1)%Q.
Proof. rewrite <- pow_add by lia. by replace (16 - k + (k - 16)) with 0 by lia. Qed.

(** The decimal is within half a unit of its seventeenth digit. *)
Lemma decimal_spec s m e D x :
  canonical (Finite s m e) = true → 0 < m → decimal m e = (D, x) →
  10 ^ 16 ≤ D < 10 ^ 17 ∧ -324 ≤ x ≤ 309 ∧
  let v := (inject_Z m * inject_Z 2 ^ e)%Q in
  let r := (inject_Z D * inject_Z 10 ^ (x - 16))%Q in
  let h := (v * (1 # 20000000000000000))%Q in (- h <= r - v <= h)%Q.
Proof.
  intros Hc Hm. destruct (canonical_range s m e Hc Hm) as [R1 R2]. unfold decimal.
  destruct (scale 2 m 1 e) as [n d] eqn:E1. destruct (scale_spec 2 m 1 e n d ltac:(lia) ltac:(lia) E1) as [Hd Hr].
  assert (ratio m 1 == inject_Z m)%Q as Hm1 by (unfold ratio; change (inject_Z 1) with 1%Q; field). rewrite Hm1 in Hr.
  rewrite <- Hr in R1, R2. destruct (exponent10_spec x_fuel x_max n d Hd R2 R1) as [X1 [X2 X3]].
  set (y := exponent10 x_fuel x_max n d) in *. change (x_max - Z.of_nat x_fuel) with (-324) in X1.
  unfold x_max in X1. destruct (scale 10 n d (16 - y)) as [n' d'] eqn:E2.
  destruct (scale_spec 10 n d (16 - y) n' d' ltac:(lia) Hd E2) as [Hd' Hr'].
  pose proof (round_div_near n' d' Hd') as Hn. set (D0 := round_div n' d') in *. rewrite Hr' in Hn.
  set (v := ratio n d) in *. pose proof (pow_pos 10 (16 - y) ltac:(lia)) as Hp.
  pose proof (pow_pos 10 (y - 16) ltac:(lia)) as Hp'. pose proof (pow10_cancel y) as Hcan.
  assert (∀ k, inject_Z 10 ^ (y + k) * inject_Z 10 ^ (16 - y) == inject_Z 10 ^ (16 + k))%Q as Hk.
  { intros k. rewrite <- pow_add by lia. by replace (y + k + (16 - y)) with (16 + k) by lia. }
  assert (10 ^ 16 ≤ D0 ≤ 10 ^ 17) as HD.
  { pose proof (Hk 0) as K0. pose proof (Hk 1) as K1. rewrite Z.add_0_r in K0.
    change (inject_Z 10 ^ (16 + 0))%Q with (inject_Z (10 ^ 16)) in K0.
    change (inject_Z 10 ^ (16 + 1))%Q with (inject_Z (10 ^ 17)) in K1.
    apply (Qmult_le_r _ _ _ Hp) in X2. apply (Qmult_lt_r _ _ _ Hp) in X3.
    assert (inject_Z (10 ^ 16) < inject_Z D0 + 1)%Q as A1 by lra.
    assert (inject_Z D0 < inject_Z (10 ^ 17) + 1)%Q as A2 by lra.
    change 1%Q with (inject_Z 1) in A1, A2. rewrite <- inject_Z_plus, inject_lt in A1.
    rewrite <- inject_Z_plus, inject_lt in A2. lia. }
  assert (let h := (v * (1 # 20000000000000000))%Q in
          (- h <= inject_Z D0 * inject_Z 10 ^ (y - 16) - v <= h)%Q) as Hclose.
  { assert (inject_Z 10 ^ y == inject_Z 10 ^ (y - 16) * (10000000000000000 # 1))%Q as Hy.
    { change (10000000000000000 # 1)%Q with (inject_Z 10 ^ 16)%Q. rewrite <- pow_add by lia.
      by replace (y - 16 + 16) with y by lia. }
    destruct Hn as [N1 N2]. apply (Qmult_le_r _ _ _ Hp') in N1. apply (Qmult_le_r _ _ _ Hp') in N2.
    assert ((v * inject_Z 10 ^ (16 - y) - inject_Z D0) * inject_Z 10 ^ (y - 16) ==
            v - inject_Z D0 * inject_Z 10 ^ (y - 16))%Q as Hm'.
    { transitivity (v * (inject_Z 10 ^ (16 - y) * inject_Z 10 ^ (y - 16)) - inject_Z D0 * inject_Z 10 ^ (y - 16))%Q;
        [ring|rewrite Hcan; ring]. }
    rewrite Hm' in N1, N2. simpl. lra. }
  clearbody D0 y v. simpl in Hclose.
  destruct (Z.eqb_spec D0 (10 ^ 17)) as [->|]; intros [= <- <-]; (split; [lia|]; split; [lia|]);
    cbv zeta; rewrite <- Hr; [|exact Hclose].
  assert (inject_Z (10 ^ 16) * inject_Z 10 ^ (y + 1 - 16) == inject_Z (10 ^ 17) * inject_Z 10 ^ (y - 16))%Q as ->;
    [|exact Hclose].
  replace (y + 1 - 16) with (1 + (y - 16)) by lia. rewrite pow_add by lia.
  change (inject_Z (10 ^ 17)) with (inject_Z (10 ^ 16) * inject_Z 10 ^ 1)%Q. ring.
Qed.

(** ** Digits *)

Abbreviation all_digits ds := (Forall (λ c, isdigit c = true) ds).

Lemma digits_length len n : length (digits len n) = len.
Proof. revert n. induction len as [|len IH]; intros n; simpl; [done|]. rewrite length_app, IH. simpl. lia. Qed.

Lemma digits_isdigit len n : all_digits (digits len n).
Proof.
  revert n. induction len as [|len IH]; intros n; simpl; [constructor|]. apply Forall_app. split; [apply IH|].
  constructor; [|constructor]. unfold isdigit. pose proof (Z.mod_pos_bound n 10).
  rewrite andb_true_iff, !Z.leb_le. lia.
Qed.

Lemma digits_value_fold ds a :
  fold_left (λ a c, 10 * a + (c - 48)) ds a = a * 10 ^ Z.of_nat (length ds) + digits_value ds.
Proof.
  unfold digits_value. revert a. induction ds as [|c ds IH]; intros a; [simpl; lia|].
  cbn [fold_left length]. rewrite IH, (IH (10 * 0 + _)). rewrite Nat2Z.inj_succ, Z.pow_succ_r by lia. ring.
Qed.

Lemma digits_value_app a b :
  digits_value (a ++ b) = digits_value a * 10 ^ Z.of_nat (length b) + digits_value b.
Proof. unfold digits_value at 1. rewrite fold_left_app. apply digits_value_fold. Qed.

Lemma digits_value_digits len n : 0 ≤ n → digits_value (digits len n) = n mod 10 ^ Z.of_nat len.
Proof.
  revert n. induction len as [|len IH]; intros n Hn; [by rewrite Z.mod_1_r|].
  cbn [digits]. rewrite digits_value_app, IH by (apply Z.div_pos; lia). cbn [length].
  change (digits_value [48 + n mod 10]) with (10 * 0 + (48 + n mod 10 - 48)).
  change (10 ^ Z.of_nat 1) with 10. rewrite Nat2Z.inj_succ, Z.pow_succ_r by lia.
  rewrite (Z.rem_mul_r n 10) by (try apply Z.pow_nonzero; lia). lia.
Qed.

Lemma digits_value_zeros z : digits_value (replicate z 48) = 0.
Proof.
  induction z as [|z IH]; [done|]. change (replicate (S z) 48) with ([48] ++ replicate z 48).
  rewrite digits_value_app, IH. done.
Qed.

Lemma strip_zeros_spec ds : ∃ z, ds = strip_zeros ds ++ replicate z 48.
Proof.
  induction ds as [|c ds [z IH]]; [by exists 0%nat|]. simpl. destruct (strip_zeros ds) as [|c' ds'] eqn:E.
  - destruct (Z.eqb_spec c 48) as [->|].
    + exists (S z). simpl in *. by rewrite IH at 1.
    + exists z. simpl in *. by rewrite IH at 1.
  - exists z. simpl in *. by rewrite IH at 1.
Qed.

Definition no_digit (r : list Z) : Prop := match r with c :: _ => isdigit c = false | [] => True end.

Lemma span_digits_app ds r : all_digits ds → no_digit r → span_digits (ds ++ r) = (ds, r).
Proof.
  intros Hds Hr. induction ds as [|c ds IH]; simpl.
  - destruct r as [|c r]; [done|]. simpl. by rewrite Hr.
  - apply Forall_cons in Hds as [-> Hds]. by rewrite IH.
Qed.

Lemma read_sign_print s int r : int ≠ [] → all_digits int → read_sign (print_sign s ++ int ++ r) = (s, int ++ r).
Proof.
  intros Hne Hd. destruct s; [done|]. destruct int as [|c int]; [done|]. simpl.
  apply Forall_cons in Hd as [Hc _]. destruct (Z.eqb_spec c 45) as [->|]; [by vm_compute in Hc|done].
Qed.

(** The text after the digits: nothing, or an exponent. *)
Definition tail_ok (t : list Z) : Prop := match t with c :: _ => c = 101 ∨ c = 69 | [] => True end.

Lemma strtod_text s int frac t :
  int ≠ [] → all_digits int → all_digits frac → tail_ok t →
  ∃ n d, 0 < d ∧ strtod (print_sign s ++ with_fraction int frac ++ t) = of_ratio s n d ∧
    (ratio n d == inject_Z (digits_value (int ++ frac)) *
                  inject_Z 10 ^ (read_exponent t - Z.of_nat (length frac)))%Q.
Proof.
  intros Hne Hi Hf Ht. destruct (strip_zeros_spec frac) as [z Hz].
  assert (no_digit t) as Hnt by (destruct t as [|c t]; [done|]; destruct Ht as [-> | ->]; done).
  assert (strtod (print_sign s ++ with_fraction int frac ++ t) =
    let f := strip_zeros frac in
    let (n, d) := scale 10 (digits_value (int ++ f)) 1 (read_exponent t - Z.of_nat (length f)) in
    of_ratio s n d) as ->.
  { unfold with_fraction, strtod. assert (all_digits (strip_zeros frac)) as Hff.
    { rewrite Hz in Hf. by apply Forall_app in Hf as [? _]. }
    destruct (strip_zeros frac) as [|c f].
    - rewrite read_sign_print, span_digits_app by done.
      assert ((match t with c :: s' => if c =? 46 then span_digits s' else ([], t) | [] => ([], []) end) = ([], t)) as ->.
      { destruct t as [|c t]; [done|]. destruct Ht as [-> | ->]; done. }
      by rewrite bool_decide_eq_false_2 by (destruct int; done).
    - rewrite <- app_assoc, read_sign_print, span_digits_app by done.
      change (46 =? 46) with true. cbv iota beta. rewrite <- app_comm_cons. cbv iota. change (46 =? 46) with true. cbv iota.
      rewrite span_digits_app by done. by rewrite bool_decide_eq_false_2 by (destruct int; done). }
  cbv zeta. set (f := strip_zeros frac) in *.
  destruct (scale 10 _ 1 _) as [n d] eqn:E. destruct (scale_spec 10 _ 1 _ n d ltac:(lia) ltac:(lia) E) as [Hd Hr].
  exists n, d. split_and!; [done|done|]. rewrite Hr, Hz.
  rewrite length_app, app_assoc, (digits_value_app (int ++ f)), digits_value_zeros, Z.add_0_r, length_replicate.
  unfold ratio. rewrite inject_Z_mult, inject_pow by lia. change (inject_Z 1) with 1%Q.
  replace (read_exponent t - Z.of_nat (length f))
    with (Z.of_nat z + (read_exponent t - Z.of_nat (length f + z))) by lia.
  rewrite pow_add by lia. field.
Qed.

Lemma read_print_exponent x : Z.abs x < 1000 → read_exponent (101 :: print_exponent x) = x.
Proof.
  intros Hx. unfold read_exponent, print_exponent. change ((101 =? 101) || (101 =? 69)) with true. cbv iota.
  assert (∀ ds, all_digits ds → (span_digits ds).1 = ds) as Hs.
  { intros ds H. rewrite <- (app_nil_r ds) at 1. by rewrite span_digits_app. }
  destruct (Z.ltb_spec x 0); [change (45 =? 43) with false|change (43 =? 43) with true]; cbv iota;
    unfold read_sign; try change (45 =? 45) with true; cbv iota.
  all: destruct (Z.ltb_spec (Z.abs x) 100);
    rewrite Hs by apply digits_isdigit; rewrite digits_value_digits, Z.mod_small by lia; lia.
Qed.

Definition exponent_text (t : list Z) : Prop :=
  t = [] ∨ ∃ c sg ds, t = c :: sg ++ ds ∧ (c = 101 ∨ c = 69) ∧
    (sg = [] ∨ sg = [43] ∨ sg = [45]) ∧ ds ≠ [] ∧ all_digits ds.
Definition fraction_text (t : list Z) : Prop :=
  t = [] ∨ ∃ ds, t = 46 :: ds ∧ ds ≠ [] ∧ all_digits ds.

(** A number as JSON writes it: an optional minus sign, digits, an optional
    fraction and an optional exponent. *)
Definition number_text (t : list Z) : Prop :=
  ∃ s int f e, t = print_sign s ++ int ++ f ++ e ∧ int ≠ [] ∧ all_digits int ∧
    fraction_text f ∧ exponent_text e.

Lemma exponent_text_print x : Z.abs x < 1000 → exponent_text (101 :: print_exponent x).
Proof.
  intros Hx. right. exists 101, [if x <? 0 then 45 else 43],
    (if Z.abs x <? 100 then digits 2 (Z.abs x) else digits 3 (Z.abs x)).
  split_and!; [done|by left|destruct (x <? 0); auto| |].
  - destruct (Z.abs x <? 100); intros E%(f_equal length); rewrite digits_length in E; done.
  - destruct (Z.abs x <? 100); apply digits_isdigit.
Qed.

Lemma exponent_text_tail t : exponent_text t → tail_ok t.
Proof. intros [->|(c & sg & ds & -> & Hc & _)]; done. Qed.

Lemma print_decimal_text D x :
  10 ^ 16 ≤ D < 10 ^ 17 → Z.abs x < 1000 →
  ∃ int frac t, print_decimal D x = with_fraction int frac ++ t ∧
    int ≠ [] ∧ all_digits int ∧ all_digits frac ∧ exponent_text t ∧
    digits_value (int ++ frac) = D ∧ read_exponent t - Z.of_nat (length frac) = x - 16.
Proof.
  intros HD Hx. unfold print_decimal. pose proof (digits_isdigit 17 D) as Hd. pose proof (digits_length 17 D) as Hl.
  assert (digits_value (digits 17 D) = D) as Hv.
  { rewrite digits_value_digits by lia. rewrite Z.mod_small; [done|]. change (10 ^ Z.of_nat 17) with (10 ^ 17). lia. }
  set (ds := digits 17 D) in *. clearbody ds.
  assert (∀ k, (0 < k)%nat → take k ds ≠ []) as Hne.
  { intros k Hk E%(f_equal length). rewrite length_take in E. simpl in E. lia. }
  destruct (Z.leb_spec (-4) x); simpl; [destruct (Z.ltb_spec x 17); [destruct (Z.leb_spec 0 x)|]|].
  - exists (take (Z.to_nat (x + 1)) ds), (drop (Z.to_nat (x + 1)) ds), []. rewrite app_nil_r, take_drop, length_drop.
    split_and!; [done|apply Hne; lia|by apply Forall_take|by apply Forall_drop|by left|done|simpl; lia].
  - exists [48], (replicate (Z.to_nat (- x - 1)) 48 ++ ds), []. rewrite app_nil_r, length_app, length_replicate.
    split_and!; [done|done|by repeat constructor| |by left| |simpl; lia].
    + apply Forall_app. split; [|done]. apply Forall_replicate. done.
    + rewrite app_assoc, digits_value_app. change ([48] ++ replicate (Z.to_nat (- x - 1)) 48) with (replicate (S (Z.to_nat (- x - 1))) 48).
      rewrite digits_value_zeros. lia.
  - exists (take 1 ds), (drop 1 ds), (101 :: print_exponent x). rewrite take_drop, length_drop, read_print_exponent by done.
    split_and!; [done|apply Hne; lia|by apply Forall_take|by apply Forall_drop|by apply exponent_text_print|done|lia].
  - exists (take 1 ds), (drop 1 ds), (101 :: print_exponent x). rewrite take_drop, length_drop, read_print_exponent by done.
    split_and!; [done|apply Hne; lia|by apply Forall_take|by apply Forall_drop|by apply exponent_text_print|done|lia].
Qed.

Lemma with_fraction_text s int frac t :
  int ≠ [] → all_digits int → all_digits frac → exponent_text t →
  number_text (print_sign s ++ with_fraction int frac ++ t).
Proof.
  intros Hne Hi Hf Ht. destruct (strip_zeros_spec frac) as [z Hz]. unfold with_fraction.
  assert (all_digits (strip_zeros frac)) as Hff by (rewrite Hz in Hf; by apply Forall_app in Hf as [? _]).
  destruct (strip_zeros frac) as [|c f]; [exists s, int, [], t|exists s, int, (46 :: c :: f), t].
  - split_and!; [done|done|done|by left|done].
  - rewrite <- app_assoc. split_and!; [done|done|done|right; by exists (c :: f)|done].
Qed.

(** What is printed is a number that is read back. *)
Lemma fmt_g17_spec x :
  canonical x = true → finite x = true → number_text (fmt_g17 x) ∧ strtod (fmt_g17 x) = x.
Proof.
  intros Hc Hf. destruct x as [s m e| |]; try done. unfold fmt_g17. destruct (Z.eqb_spec m 0) as [->|Hm].
  { assert (e = emin) as ->.
    { unfold canonical in Hc. apply andb_true_iff in Hc as [_ Hc]. apply orb_true_iff in Hc as [Hc|Hc]; [done|].
      by apply Z.eqb_eq in Hc. }
    split; [exists s, [48], [], []; split_and!; [done|done|by repeat constructor|by left|by left]|by destruct s]. }
  assert (0 < m) as Hm0.
  { unfold canonical in Hc. repeat (apply andb_true_iff in Hc as [Hc ?]). apply Z.leb_le in Hc. lia. }
  destruct (decimal m e) as [D x] eqn:E. destruct (decimal_spec s m e D x Hc Hm0 E) as (HD & Hx & Hclose).
  destruct (print_decimal_text D x HD ltac:(lia)) as (int & frac & t & -> & Hne & Hi & Hfr & Ht & Hv & Hk).
  split; [by apply with_fraction_text|].
  destruct (strtod_text s int frac t Hne Hi Hfr (exponent_text_tail _ Ht)) as (n & d & Hd & -> & Hr).
  rewrite Hv, Hk in Hr. cbv zeta in Hclose. rewrite <- Hr in Hclose.
  pose proof (pow_pos 2 (- e) ltac:(lia)) as Hp. pose proof (pow2_cancel e) as Hcan.
  assert ((ratio n d - inject_Z m * inject_Z 2 ^ e) * inject_Z 2 ^ (- e) ==
          ratio n d * inject_Z 2 ^ (- e) - inject_Z m)%Q as Hm'.
  { transitivity (ratio n d * inject_Z 2 ^ (- e) - inject_Z m * (inject_Z 2 ^ (- e) * inject_Z 2 ^ e))%Q;
      [ring|rewrite Hcan; ring]. }
  assert (inject_Z m * inject_Z 2 ^ e * (1 # 20000000000000000) * inject_Z 2 ^ (- e) ==
          inject_Z m * (1 # 20000000000000000))%Q as Hh.
  { transitivity (inject_Z m * (1 # 20000000000000000) * (inject_Z 2 ^ (- e) * inject_Z 2 ^ e))%Q;
      [ring|rewrite Hcan; ring]. }
  destruct Hclose as [C1 C2]. apply (Qmult_le_r _ _ _ Hp) in C1, C2.
  rewrite Hm' in C1, C2. rewrite Hh in C2.
  assert (- (inject_Z m * inject_Z 2 ^ e * (1 # 20000000000000000)) * inject_Z 2 ^ (- e) ==
          - (inject_Z m * (1 # 20000000000000000)))%Q as Hh' by (rewrite <- Hh; ring).
  rewrite Hh' in C1. assert (m < 2 ^ 53) as Hm53.
  { unfold canonical in Hc. repeat (apply andb_true_iff in Hc as [Hc ?]). by apply Z.ltb_lt in H2. }
  assert (inject_Z m < 9007199254740992 # 1)%Q by (change (9007199254740992 # 1)%Q with (inject_Z (2 ^ 53)); by rewrite <- Zlt_Qlt).
  apply of_ratio_unique; [done|done| |done|split; lra|].
  - assert (0 < ratio n d)%Q as Hr0.
    { rewrite Hr. pose proof (pow_pos 10 (x - 16) ltac:(lia)). pose proof (inject_pos D ltac:(lia)). nra. }
    apply inject_lt. apply inject_pos in Hd. unfold ratio in Hr0. apply (Qmult_lt_r _ _ _ Hd) in Hr0.
    rewrite Qmult_comm with (x := (_ / _)%Q), Qmult_div_r in Hr0 by lra. rewrite Qmult_0_l in Hr0. exact Hr0.
  - intros -> _. change (inject_Z (2 ^ 52)) with (4503599627370496 # 1)%Q in *. lra.
Qed.

Lemma of_ratio_canonical s n d : 0 ≤ n → 0 < d → canonical (of_ratio s n d) = true.
Proof.
  intros Hn Hd. unfold of_ratio. destruct (Z.eqb_spec n 0); [done|].
  destruct (exponent_spec n d ltac:(lia) Hd) as (E1 & E2 & E3). set (e := exponent n d) in *.
  destruct (scale 2 n d (- e)) as [n' d'] eqn:Es.
  destruct (scale_spec 2 n d (- e) n' d' ltac:(lia) Hd Es) as [Hd' Hr].
  apply shift_lt in E2. rewrite <- Hr in E2. rewrite <- shift_le, <- Hr in E3.
  pose proof (round_div_near n' d' Hd') as Hnear. set (m := round_div n' d') in *.
  assert (m ≤ 2 ^ 53) as Hm1.
  { assert (inject_Z m < inject_Z (2 ^ 53 + 1))%Q as H%inject_lt_1; [|lia].
    rewrite inject_Z_plus. change (inject_Z 1) with 1%Q. lra. }
  assert (0 ≤ m) as Hm0.
  { assert (inject_Z (-1) < inject_Z m)%Q as H%inject_lt_1; [|lia]. change (inject_Z (-1)) with (-1 # 1)%Q.
    assert (0 <= ratio n' d')%Q; [|lra]. rewrite Hr. apply Qmult_le_0_compat; [|apply Qlt_le_weak, pow_pos; lia].
    change 0%Q with (inject_Z 0). rewrite ratio_compare by done. lia. }
  assert (e = emin ∨ 2 ^ 52 ≤ m) as Hm2.
  { destruct E3 as [?|E3]; [by left|right]. assert (inject_Z (2 ^ 52 - 1) < inject_Z m)%Q as H%inject_lt_1; [|lia].
    change (inject_Z (2 ^ 52)) with (4503599627370496 # 1)%Q in E3.
    change (inject_Z (2 ^ 52 - 1)) with (4503599627370495 # 1)%Q. lra. }
  unfold emin, emax in *.
  destruct (Z.eqb_spec m (2 ^ 53)); [destruct (Z.ltb_spec 971 (e + 1)) | destruct (Z.ltb_spec 971 e)];
    try done; unfold canonical, emin, emax;
    rewrite !andb_true_iff, orb_true_iff, !Z.leb_le, Z.ltb_lt, Z.eqb_eq; split_and!; lia.
Qed.

Lemma digits_value_nonneg ds : all_digits ds → 0 ≤ digits_value ds.
Proof.
  induction ds as [|c ds IH] using rev_ind; [done|]. intros [Hd Hc]%Forall_app. rewrite digits_value_app.
  apply Forall_cons in Hc as [Hc _]. unfold isdigit in Hc. rewrite andb_true_iff, !Z.leb_le in Hc.
  change (digits_value [c]) with (10 * 0 + (c - 48)). specialize (IH Hd).
  change (10 ^ Z.of_nat (length [c])) with 10. lia.
Qed.

Lemma span_digits_digits s : all_digits (span_digits s).1.
Proof.
  induction s as [|c s IH]; simpl; [constructor|]. destruct (isdigit c) eqn:E; [|constructor].
  destruct (span_digits s). by constructor.
Qed.

(** Every result of [strtod] is a double. *)
Lemma strtod_canonical s : canonical (strtod s) = true.
Proof.
  unfold strtod. destruct (read_sign s) as [neg s1]. pose proof (span_digits_digits s1) as Hi.
  destruct (span_digits s1) as [int s2].
  assert (all_digits (match s2 with
                      | c :: s' => if c =? 46 then span_digits s' else ([], s2)
                      | [] => ([], []) end).1) as Hf.
  { destruct s2 as [|c s2]; [constructor|]. destruct (c =? 46); [apply span_digits_digits|constructor]. }
  destruct (match s2 with [] => _ | _ => _ end) as [frac s3]. case_bool_decide; [done|].
  destruct (scale 10 _ 1 _) as [n d] eqn:E. unfold scale in E.
  assert (0 ≤ digits_value (int ++ frac)) by (apply digits_value_nonneg, Forall_app; done).
  apply of_ratio_canonical; destruct (Z.leb_spec 0 (read_exponent s3 - Z.of_nat (length frac)));
    injection E as <- <-; try lia.
Qed.
End Double.
