(* ===== verification/Json.v ===== *)
(** * The JSON document model of src/src/module/json_parse.c, json_serialize.c
    and json.c

    Nodes and strings live in an arena (src/src/memory/arena.c, file [Arena]):
    every address is one that [cobalt_arena_alloc] returned.  Nodes refer to
    each other by address, so that a node shared by two links is shared here.
    Bytes are integers from 0 to 255, texts are the bytes before the
    terminating NUL.

    All parsers of the module allocate from an arena ([ctx->arena] is never
    NULL), so the branches of [jalloc], [jrealloc] and [jfree] without one are
    not reached and not modelled. *)
From S2P Require Import Prelude World Arena Double.

Module Json.
Import Double.

Inductive json_type : Set :=
  | JSON_NULL | JSON_TRUE | JSON_FALSE | JSON_NUMBER | JSON_STRING | JSON_ARRAY | JSON_OBJECT.

(** The union of a number and a string; [Zeroed] is what [memset] leaves. *)
Inductive json_value : Set := Zeroed | Number (x : double) | String (p : Z).

Record json_node := Node {
  type : json_type;
  value : json_value;
  next : Z;
  child : Z;
  key : Z;
  arena : bool;
  owns_arena : bool
}.

Definition sizeof_node : Z := 56.
Definition COBALT_JSON_DOM_MAX_DEPTH : Z := 128.

(** The parse context and the memory: the arena with its chunks, the nodes and
    the strings in it. *)
Record jworld := JWorld {
  jarena : Arena.aworld;
  nodes : gmap Z json_node;
  strs : gmap Z (list Z);
  pos : Z;
  depth : Z;
  depth_exceeded : bool
}.

Definition with_arena (w : jworld) (a : Arena.aworld) : jworld :=
  JWorld a (nodes w) (strs w) (pos w) (depth w) (depth_exceeded w).
Definition with_nodes (w : jworld) (h : gmap Z json_node) : jworld :=
  JWorld (jarena w) h (strs w) (pos w) (depth w) (depth_exceeded w).
Definition with_strs (w : jworld) (h : gmap Z (list Z)) : jworld :=
  JWorld (jarena w) (nodes w) h (pos w) (depth w) (depth_exceeded w).
Definition with_pos (w : jworld) (i : Z) : jworld :=
  JWorld (jarena w) (nodes w) (strs w) i (depth w) (depth_exceeded w).
Definition with_depth (w : jworld) (d : Z) : jworld :=
  JWorld (jarena w) (nodes w) (strs w) (pos w) d (depth_exceeded w).
Definition with_exceeded (w : jworld) (b : bool) : jworld :=
  JWorld (jarena w) (nodes w) (strs w) (pos w) (depth w) b.

Definition get_pos : M jworld Z := λ w, Ret (pos w) w.
Definition set_pos (i : Z) : M jworld unit := λ w, Ret tt (with_pos w i).
Definition get_depth : M jworld Z := λ w, Ret (depth w) w.
Definition set_depth (d : Z) : M jworld unit := λ w, Ret tt (with_depth w d).
Definition set_exceeded (b : bool) : M jworld unit := λ w, Ret tt (with_exceeded w b).

(** A call of the arena. *)
Definition on_arena {A} (c : M Arena.aworld A) : M jworld A :=
  λ w, match c (jarena w) with
       | Ret a s => Ret a (with_arena w s)
       | Fault f => Fault f
       end.

Definition load_node (p : Z) : M jworld json_node :=
  λ w, match nodes w !! p with
       | Some n => Ret n w
       | None => Fault (if p =? NULL then NullDeref else BadAccess)
       end.
Definition store_node (p : Z) (n : json_node) : M jworld unit :=
  λ w, Ret tt (with_nodes w (<[p := n]> (nodes w))).
Definition store_str (p : Z) (s : list Z) : M jworld unit :=
  λ w, Ret tt (with_strs w (<[p := s]> (strs w))).

Definition set_next (n : json_node) (q : Z) : json_node :=
  Node (type n) (value n) q (child n) (key n) (arena n) (owns_arena n).
Definition set_child (n : json_node) (q : Z) : json_node :=
  Node (type n) (value n) (next n) q (key n) (arena n) (owns_arena n).
Definition set_value (n : json_node) (v : json_value) : json_node :=
  Node (type n) v (next n) (child n) (key n) (arena n) (owns_arena n).
Definition set_arena (n : json_node) (owns : bool) : json_node :=
  Node (type n) (value n) (next n) (child n) (key n) true owns.
Definition update_node (p : Z) (f : json_node → json_node) : M jworld unit :=
  n <- load_node p ;; store_node p (f n).

(** ** Memory of the parser *)

Definition jalloc (size : Z) : M jworld Z := on_arena (Arena.cobalt_arena_alloc size).

(** The bytes [p, p + n) lie in one chunk of the arena. *)
Definition in_chunk (h : gmap Z Arena.arena_chunk) (p n : Z) : bool :=
  existsb (λ e, (e.1 <=? p) && (p + n <=? e.1 + Arena.sizeof_chunk + Arena.capacity e.2))
    (map_to_list h).

(** [memmove(new_ptr, ptr, new_size / 2)]: a read outside the chunk of [ptr]
    is an error. *)
Definition jrealloc (ptr new_size : Z) : M jworld Z :=
  new_ptr <- jalloc new_size ;;
  if new_ptr =? NULL then mret NULL
  else λ w, if in_chunk (heap (jarena w)) ptr (new_size / 2) then Ret new_ptr w
            else Fault BadAccess.

Definition json_node_create (t : json_type) : M jworld Z :=
  p <- jalloc sizeof_node ;;
  if p =? NULL then mret NULL
  else store_node p (Node t Zeroed NULL NULL NULL false false) ;;; mret p.

(** ** Characters *)

Definition is_space (c : Z) : bool := (c =? 32) || (c =? 9) || (c =? 10) || (c =? 13).

(** The value of a hexadecimal digit. *)
Definition hex_value (c : Z) : option Z :=
  if isdigit c then Some (c - 48)
  else if (97 <=? c) && (c <=? 102) then Some (c - 87)
  else if (65 <=? c) && (c <=? 70) then Some (c - 55)
  else None.

Fixpoint hex_digits (acc : Z) (s : list Z) : Z :=
  match s with
  | c :: s => match hex_value c with Some v => hex_digits (16 * acc + v) s | None => acc end
  | [] => acc
  end.

Fixpoint skip_isspace (s : list Z) : list Z :=
  match s with
  | c :: s' => if (c =? 32) || ((9 <=? c) && (c <=? 13)) then skip_isspace s' else s
  | [] => []
  end.

(** A prefix [0x] counts only in front of a hexadecimal digit. *)
Definition skip_0x (s : list Z) : list Z :=
  match s with
  | z :: x :: (c :: _) as r =>
      if (z =? 48) && ((x =? 120) || (x =? 88)) && bool_decide (is_Some (hex_value c))
      then drop 2 s else s
  | _ => s
  end.

(** [(unsigned int)strtol(s, NULL, 16)]: blanks, a sign, a prefix, digits; what
    is no digit ends the number, and no digits at all are 0. *)
Definition strtol16 (s : list Z) : Z :=
  let s := skip_isspace s in
  let (neg, s) := match s with
                  | c :: s' => if c =? 45 then (true, s') else if c =? 43 then (false, s') else (false, s)
                  | [] => (false, [])
                  end in
  let v := hex_digits 0 (skip_0x s) in
  wrap32 (if neg then - v else v).

(** A byte, as [(char)x] cuts it. *)
Definition to_byte (x : Z) : Z := x mod 256.

Definition utf8_encode (unicode : Z) : list Z :=
  if unicode <? 0x80 then [to_byte unicode]
  else if unicode <? 0x800 then
    [to_byte (Z.lor 0xC0 (Z.shiftr unicode 6)); to_byte (Z.lor 0x80 (Z.land unicode 0x3F))]
  else if unicode <? 0x10000 then
    [to_byte (Z.lor 0xE0 (Z.shiftr unicode 12));
     to_byte (Z.lor 0x80 (Z.land (Z.shiftr unicode 6) 0x3F));
     to_byte (Z.lor 0x80 (Z.land unicode 0x3F))]
  else
    [to_byte (Z.lor 0xF0 (Z.shiftr unicode 18));
     to_byte (Z.lor 0x80 (Z.land (Z.shiftr unicode 12) 0x3F));
     to_byte (Z.lor 0x80 (Z.land (Z.shiftr unicode 6) 0x3F));
     to_byte (Z.lor 0x80 (Z.land unicode 0x3F))].

(** ** The parser *)

Section parser.
Variable str : list Z.
Abbreviation len := (Z.of_nat (length str)).

(** [str[i]], for an index below [len]. *)
Definition char_at (i : Z) : option Z := if 0 <=? i then str !! Z.to_nat i else None.
(** [ctx->pos < ctx->len && str[pos] == c] *)
Definition at_char (c : Z) : M jworld bool :=
  i <- get_pos ;; mret (bool_decide (char_at i = Some c)).

Definition skip_body (_ : unit) : M jworld (unit + unit) :=
  i <- get_pos ;;
  match char_at i with
  | Some c => if is_space c then set_pos (i + 1) ;;; mret (inl tt) else mret (inr tt)
  | None => mret (inr tt)
  end.

(** A loop that advances [pos] runs at most once per byte of the text. *)
Definition text_fuel : nat := S (length str).
Definition json_skip_whitespace : M jworld unit := loop text_fuel skip_body tt.

(** [strncpy] of the four bytes from [i], all of them in the text. *)
Definition hex4 (i : Z) : list Z := take 4 (drop (Z.to_nat i) str).

(** The four digits behind [\u], and a second group when the first is a high
    surrogate.  [pos] is left on the last digit. *)
Definition parse_unicode : M jworld (option (list Z)) :=
  i <- get_pos ;;
  if len <=? i + 4 then mret None
  else
    let cp := strtol16 (hex4 (i + 1)) in
    if (0xD800 <=? cp) && (cp <=? 0xDBFF) then
      if (i + 10 <? len) && bool_decide (char_at (i + 5) = Some 92) &&
         bool_decide (char_at (i + 6) = Some 117) then
        let low_cp := strtol16 (hex4 (i + 7)) in
        if (0xDC00 <=? low_cp) && (low_cp <=? 0xDFFF) then
          set_pos (i + 10) ;;;
          mret (Some (utf8_encode
                  (0x10000 + Z.lor (Z.shiftl (cp - 0xD800) 10) (low_cp - 0xDC00))))
        else mret None
      else mret None
    else if (0xDC00 <=? cp) && (cp <=? 0xDFFF) then mret None
    else set_pos (i + 4) ;;; mret (Some (utf8_encode cp)).

(** The bytes that the escape at [pos], behind the backslash, stands for. *)
Definition parse_escape (c : Z) : M jworld (option (list Z)) :=
  if c =? 98 then mret (Some [8])
  else if c =? 102 then mret (Some [12])
  else if c =? 110 then mret (Some [10])
  else if c =? 114 then mret (Some [13])
  else if c =? 116 then mret (Some [9])
  else if c =? 117 then parse_unicode
  else mret (Some [c]).

(** A buffer of [capacity] bytes at [b_ptr], of which [b_bytes] are written. *)
Record str_buf := StrBuf { b_ptr : Z; b_cap : Z; b_bytes : list Z }.
Definition b_len (b : str_buf) : Z := Z.of_nat (length (b_bytes b)).

Definition write_bytes (b : str_buf) (bs : list Z) : M jworld str_buf :=
  if b_cap b <? b_len b + Z.of_nat (length bs) then mfail BadAccess
  else mret (StrBuf (b_ptr b) (b_cap b) (b_bytes b ++ bs)).

(** Growth to [capacity]; what the old block held of the string is copied. *)
Definition grow_buf (b : str_buf) (capacity : Z) : M jworld (option str_buf) :=
  tmp <- jrealloc (b_ptr b) capacity ;;
  if tmp =? NULL then mret None
  else if capacity / 2 <? b_len b then mfail Uninit
  else mret (Some (StrBuf tmp capacity (b_bytes b))).

(** [escaped[elen]], with room for a terminating NUL. *)
Definition append_escaped (b : str_buf) (bs : list Z) : M jworld (option str_buf) :=
  let elen := Z.of_nat (length bs) in
  ob <- (if b_cap b <? wrap64 (b_len b + elen + 1) then
           let need := if SIZE_MAX - elen - 1 <? b_len b then SIZE_MAX else b_len b + elen + 1 in
           grow_buf b (if SIZE_MAX / 2 <? need then SIZE_MAX else need * 2)
         else mret (Some b)) ;;
  match ob with
  | None => mret None
  | Some b => b' <- write_bytes b bs ;; mret (Some b')
  end.

Definition append_plain (b : str_buf) (c : Z) : M jworld (option str_buf) :=
  ob <- (if b_cap b <? wrap64 (b_len b + 2) then
           grow_buf b (if SIZE_MAX / 2 <? b_cap b then SIZE_MAX else b_cap b * 2)
         else mret (Some b)) ;;
  match ob with
  | None => mret None
  | Some b => b' <- write_bytes b [c] ;; mret (Some b')
  end.

(** One round of the loop over the characters: the buffer to go on with, or
    the end: [Some] at the closing quote or the end of the text, [None] after
    an error. *)
Definition string_body (b : str_buf) : M jworld (str_buf + option str_buf) :=
  i <- get_pos ;;
  match char_at i with
  | None => mret (inr (Some b))
  | Some c =>
      if c =? 34 then mret (inr (Some b))
      else if c =? 92 then
        set_pos (i + 1) ;;;
        match char_at (i + 1) with
        | None => mret (inr None)
        | Some e =>
            obs <- parse_escape e ;;
            match obs with
            | None => mret (inr None)
            | Some bs =>
                ob <- append_escaped b bs ;;
                match ob with
                | None => mret (inr None)
                | Some b' => j <- get_pos ;; set_pos (j + 1) ;;; mret (inl b')
                end
            end
        end
      else
        ob <- append_plain b c ;;
        match ob with
        | None => mret (inr None)
        | Some b' => set_pos (i + 1) ;;; mret (inl b')
        end
  end.

Definition json_parse_string : M jworld Z :=
  q <- at_char 34 ;;
  if negb q then mret NULL
  else
    i <- get_pos ;; set_pos (i + 1) ;;;
    result <- jalloc 64 ;;
    if result =? NULL then mret NULL
    else
      ob <- loop text_fuel string_body (StrBuf result 64 []) ;;
      match ob with
      | None => mret NULL
      | Some b =>
          j <- get_pos ;;
          if len <=? j then mret NULL
          else
            set_pos (j + 1) ;;;
            b' <- write_bytes b [0] ;;
            store_str (b_ptr b') (b_bytes b) ;;; mret (b_ptr b')
      end.

(** Appends a child behind [tail]; the first one is linked from [child] and
    from [next] of the parent. *)
Definition link_child (root tail p : Z) : M jworld unit :=
  if tail =? NULL then
    update_node root (λ n, set_child n p) ;;; update_node root (λ n, set_next n p)
  else update_node tail (λ n, set_next n p).

Section containers.
Variable json_parse_value : M jworld Z.

(** The member loop: [inl tail] goes on, [inr] leaves the loop. *)
Definition object_body (root tail : Z) : M jworld (Z + unit) :=
  json_skip_whitespace ;;;
  q <- at_char 34 ;;
  if negb q then mret (inr tt)
  else
    k <- json_parse_string ;;
    if k =? NULL then mret (inr tt)
    else
      json_skip_whitespace ;;;
      colon <- at_char 58 ;;
      if negb colon then mret (inr tt)
      else
        i <- get_pos ;; set_pos (i + 1) ;;;
        v <- json_parse_value ;;
        if v =? NULL then mret (inr tt)
        else
          kv <- json_node_create JSON_OBJECT ;;
          if kv =? NULL then mret (inr tt)
          else
            store_node kv (Node JSON_OBJECT Zeroed NULL v k false false) ;;;
            link_child root tail kv ;;;
            json_skip_whitespace ;;;
            comma <- at_char 44 ;;
            if comma then i <- get_pos ;; set_pos (i + 1) ;;; mret (inl kv)
            else
              close <- at_char 125 ;;
              (if close : bool then i <- get_pos ;; set_pos (i + 1) else mret tt) ;;;
              mret (inr tt).

(** [json_skip_whitespace], then a closing [c] is consumed if there is one,
    and the nesting level is left. *)
Definition finish (c : Z) : M jworld unit :=
  json_skip_whitespace ;;;
  close <- at_char c ;;
  (if close : bool then i <- get_pos ;; set_pos (i + 1) else mret tt) ;;;
  d <- get_depth ;; set_depth (d - 1).

(** The part the two containers share: the depth check, the opening [o], the
    node, and an immediate closing [c]. *)
Definition open_container (o c : Z) (t : json_type) (body : Z → M jworld unit) : M jworld Z :=
  d <- get_depth ;;
  if COBALT_JSON_DOM_MAX_DEPTH <=? d then set_exceeded true ;;; mret NULL
  else
    set_depth (d + 1) ;;;
    json_skip_whitespace ;;;
    opening <- at_char o ;;
    if negb opening then mret NULL
    else
      i <- get_pos ;; set_pos (i + 1) ;;;
      root <- json_node_create t ;;
      if root =? NULL then set_depth d ;;; mret NULL
      else
        json_skip_whitespace ;;;
        closing <- at_char c ;;
        if closing : bool then
          i <- get_pos ;; set_pos (i + 1) ;;; set_depth d ;;; mret root
        else body root ;;; finish c ;;; mret root.

Definition json_parse_object : M jworld Z :=
  open_container 123 125 JSON_OBJECT (λ root, loop text_fuel (object_body root) NULL).

Definition array_body (root tail : Z) : M jworld (Z + unit) :=
  elem <- json_parse_value ;;
  if elem =? NULL then mret (inr tt)
  else
    update_node elem (λ n, set_next n NULL) ;;;
    link_child root tail elem ;;;
    json_skip_whitespace ;;;
    comma <- at_char 44 ;;
    if comma : bool then i <- get_pos ;; set_pos (i + 1) ;;; mret (inl elem)
    else mret (inr tt).

Definition json_parse_array : M jworld Z :=
  open_container 91 93 JSON_ARRAY (λ root, loop text_fuel (array_body root) NULL).
End containers.

(** [while (pos < len && isdigit(str[pos])) pos++] *)
Definition digits_body (_ : unit) : M jworld (unit + unit) :=
  i <- get_pos ;;
  match char_at i with
  | Some c => if isdigit c then set_pos (i + 1) ;;; mret (inl tt) else mret (inr tt)
  | None => mret (inr tt)
  end.
Definition skip_digits : M jworld unit := loop text_fuel digits_body tt.

(** Consumes one of the characters [cs], if it comes next. *)
Definition accept (cs : list Z) : M jworld bool :=
  i <- get_pos ;;
  match char_at i with
  | Some c => if bool_decide (c ∈ cs) then set_pos (i + 1) ;;; mret true else mret false
  | None => mret false
  end.

(** Sign, digits, fraction and exponent. *)
Definition scan_number : M jworld unit :=
  accept [45] ;;;
  skip_digits ;;;
  point <- accept [46] ;;
  (if point : bool then skip_digits else mret tt) ;;;
  e <- accept [101; 69] ;;
  (if e : bool then accept [43; 45] ;;; skip_digits else mret tt).

Definition parse_number : M jworld Z :=
  start <- get_pos ;;
  scan_number ;;;
  stop <- get_pos ;;
  num_str <- jalloc (stop - start + 1) ;;
  if num_str =? NULL then mret NULL
  else
    node <- json_node_create JSON_NUMBER ;;
    if node =? NULL then mret NULL
    else
      let val := strtod (take (Z.to_nat (stop - start)) (drop (Z.to_nat start) str)) in
      update_node node (λ n, set_value n (Number val)) ;;; mret node.

(** [pos + |word| <= len && strncmp(str + pos, word, |word|) == 0] *)
Definition at_word (word : list Z) : M jworld bool :=
  i <- get_pos ;; mret (bool_decide (take (length word) (drop (Z.to_nat i) str) = word)).

Definition word_node (word : list Z) (t : json_type) : M jworld Z :=
  i <- get_pos ;; set_pos (i + Z.of_nat (length word)) ;;; json_node_create t.

Definition true_word : list Z := [116; 114; 117; 101].
Definition false_word : list Z := [102; 97; 108; 115; 101].
Definition null_word : list Z := [110; 117; 108; 108].

Fixpoint json_parse_value (fuel : nat) : M jworld Z :=
  match fuel with
  | O => mfail OutOfFuel
  | S fuel =>
      json_skip_whitespace ;;;
      i <- get_pos ;;
      match char_at i with
      | None => mret NULL
      | Some c =>
          if c =? 123 then json_parse_object (json_parse_value fuel)
          else if c =? 91 then json_parse_array (json_parse_value fuel)
          else if c =? 34 then
            s <- json_parse_string ;;
            if s =? NULL then mret NULL
            else
              node <- json_node_create JSON_STRING ;;
              if node =? NULL then mret NULL
              else update_node node (λ n, set_value n (String s)) ;;; mret node
          else if (c =? 45) || isdigit c then parse_number
          else
            b <- at_word true_word ;;
            if b : bool then word_node true_word JSON_TRUE
            else
              b <- at_word false_word ;;
              if b : bool then word_node false_word JSON_FALSE
              else
                b <- at_word null_word ;;
                if b : bool then word_node null_word JSON_NULL else mret NULL
      end
  end.
End parser.

(** Nesting is limited, so that many nested calls of [json_parse_value] are
    enough. *)
Definition depth_fuel : nat := 130.

(** ** Public parsing functions *)

Definition init_ctx : M jworld unit := set_pos 0 ;;; set_depth 0 ;;; set_exceeded false.
Definition exceeded : M jworld bool := λ w, Ret (depth_exceeded w) w.

(** The chunks are released, and with them the nodes and strings. *)
Definition destroy_arena : M jworld unit :=
  λ w, match Arena.cobalt_arena_destroy (S (size (heap (jarena w)))) (jarena w) with
       | Ret _ a => Ret tt (JWorld a ∅ ∅ (pos w) (depth w) (depth_exceeded w))
       | Fault f => Fault f
       end.

(** [text]: the bytes of the text, if there is one; the arena is the one of the
    state. *)
Definition json_parse_with_arena (text : option (list Z)) : M jworld Z :=
  a <- on_arena get_obj ;;
  match text, a with
  | None, _ | _, None | Some [], _ => mret NULL
  | Some str, Some _ =>
      init_ctx ;;;
      json_skip_whitespace str ;;;
      i <- get_pos ;;
      if Z.of_nat (length str) <=? i then mret NULL
      else
        root <- json_parse_value str depth_fuel ;;
        ex <- exceeded ;;
        if ex : bool then mret NULL
        else if root =? NULL then mret NULL
        else update_node root (λ n, set_arena n false) ;;; mret root
  end.

Definition cobalt_json_parse_with_arena := json_parse_with_arena.

Definition json_parse_with_alloc (text : option (list Z)) : M jworld Z :=
  match text with
  | None | Some [] => mret NULL
  | Some str =>
      on_arena (Arena.cobalt_arena_create_with_allocator 4096 true) ;;;
      a <- on_arena get_obj ;;
      match a with
      | None => mret NULL
      | Some _ =>
          init_ctx ;;;
          json_skip_whitespace str ;;;
          i <- get_pos ;;
          if Z.of_nat (length str) <=? i then destroy_arena ;;; mret NULL
          else
            root <- json_parse_value str depth_fuel ;;
            ex <- exceeded ;;
            if (root =? NULL) || ex then destroy_arena ;;; mret NULL
            else update_node root (λ n, set_arena n true) ;;; mret root
      end
  end.

Definition json_parse (text : option (list Z)) : M jworld Z := json_parse_with_alloc text.

(** ** Accessors *)

(** The string at [p], up to its first NUL byte. *)
Fixpoint cstr (s : list Z) : list Z :=
  match s with c :: s => if c =? 0 then [] else c :: cstr s | [] => [] end.

Definition load_cstr (p : Z) : M jworld (list Z) :=
  λ w, match strs w !! p with
       | Some s => Ret (cstr s) w
       | None => Fault (if p =? NULL then NullDeref else BadAccess)
       end.

(** The pointer in the union of a string node. *)
Definition string_ptr (v : json_value) : Z := match v with String p => p | _ => NULL end.

Definition json_get_number (p : Z) : M jworld double :=
  if p =? NULL then mret zero
  else
    n <- load_node p ;;
    mret (match type n, value n with JSON_NUMBER, Number x => x | _, _ => zero end).

Definition json_get_string (p : Z) : M jworld (list Z) :=
  if p =? NULL then mret []
  else
    n <- load_node p ;;
    match type n with
    | JSON_STRING => if string_ptr (value n) =? NULL then mret [] else load_cstr (string_ptr (value n))
    | _ => mret []
    end.

Definition has_type (t : json_type) (p : Z) : M jworld bool :=
  if p =? NULL then mret false
  else
    n <- load_node p ;;
    mret (match type n, t with
          | JSON_NULL, JSON_NULL | JSON_OBJECT, JSON_OBJECT | JSON_ARRAY, JSON_ARRAY => true
          | _, _ => false
          end).
Definition json_is_null : Z → M jworld bool := has_type JSON_NULL.
Definition json_is_object : Z → M jworld bool := has_type JSON_OBJECT.
Definition json_is_array : Z → M jworld bool := has_type JSON_ARRAY.

(** [kv->key && strcmp(kv->key, key) == 0] *)
Definition key_matches (n : json_node) (k : list Z) : M jworld bool :=
  if key n =? NULL then mret false
  else s <- load_cstr (key n) ;; mret (bool_decide (s = k)).

Definition get_child_body (k : list Z) (kv : Z) : M jworld (Z + Z) :=
  if kv =? NULL then mret (inr NULL)
  else
    n <- load_node kv ;;
    b <- key_matches n k ;;
    if b : bool then mret (inr (if child n =? NULL then next n else child n))
    else mret (inl (next n)).

(** The layout with keys and values in turn. *)
Definition get_child_legacy (k : list Z) (kv : Z) : M jworld (Z + Z) :=
  if kv =? NULL then mret (inr NULL)
  else
    n <- load_node kv ;;
    b <- key_matches n k ;;
    if b : bool then mret (inr (next n))
    else if next n =? NULL then mret (inl NULL)
    else v <- load_node (next n) ;; mret (inl (next v)).

(** [fuel] bounds the members that are looked at. *)
Definition json_tree_get_child (fuel : nat) (parent : Z) (k : option (list Z)) : M jworld Z :=
  match k with
  | None => mret NULL
  | Some k =>
      if parent =? NULL then mret NULL
      else
        n <- load_node parent ;;
        match type n with
        | JSON_OBJECT =>
            if child n =? NULL then loop fuel (get_child_legacy k) (next n)
            else loop fuel (get_child_body k) (child n)
        | _ => mret NULL
        end
  end.

(** ** Destruction *)

(** [cobalt_allocator_free] of a node or a string: these lie inside a chunk of
    an arena and are no blocks of the allocator. *)
Definition allocator_free (p : Z) : M jworld unit :=
  if p =? NULL then mret tt else mfail BadAccess.

(** The loop over the members of the layout with keys and values in turn. *)
Definition destroy_legacy_body (c : Z) : M jworld (Z + unit) :=
  if c =? NULL then mret (inr tt)
  else
    n <- load_node c ;;
    next_kv <- (if next n =? NULL then mret NULL
                else
                  v <- load_node (next n) ;;
                  (match type v with
                   | JSON_STRING => allocator_free (string_ptr (value v))
                   | _ => mret tt
                   end) ;;;
                  allocator_free (next n) ;;;
                  mret (next v)) ;;
    (match type n with JSON_STRING => allocator_free (string_ptr (value n)) | _ => mret tt end) ;;;
    allocator_free (key n) ;;;
    allocator_free c ;;;
    mret (inl next_kv).

Fixpoint json_destroy_with_alloc (fuel : nat) (p : Z) : M jworld unit :=
  match fuel with
  | O => mfail OutOfFuel
  | S fuel =>
      if p =? NULL then mret tt
      else
        n <- load_node p ;;
        if arena n then if owns_arena n then destroy_arena else mret tt
        else
          (if negb (child n =? NULL) then
             loop fuel (λ c, if c =? NULL then mret (inr tt)
                             else m <- load_node c ;;
                                  json_destroy_with_alloc fuel c ;;; mret (inl (next m)))
               (child n) ;;;
             update_node p (λ m, set_child m NULL)
           else match type n with
                | JSON_OBJECT | JSON_ARRAY =>
                    loop fuel destroy_legacy_body (next n) ;;;
                    update_node p (λ m, set_next m NULL)
                | _ => mret tt
                end) ;;;
          (match type n with JSON_STRING => allocator_free (string_ptr (value n)) | _ => mret tt end) ;;;
          allocator_free (key n) ;;;
          allocator_free p
  end.

(** As many steps as there are nodes. *)
Definition node_fuel {A} (c : nat → M jworld A) : M jworld A := λ w, c (S (size (nodes w))) w.

Definition json_destroy (p : Z) : M jworld unit := node_fuel (λ f, json_destroy_with_alloc f p).
End Json.
