(* ===== verification/JsonSer.v ===== *)
(** * The JSON serializer of src/src/module/json_serialize.c

    The output buffer grows through the allocator; after a refused request the
    flag [oom] stops all further output. *)
From S2P Require Import Prelude World Arena Double Json.

Module JsonSer.
Import Double Json.

Record json_buf := Buf { data : list Z; cap : Z; oom : bool }.
Definition buf_len (b : json_buf) : Z := Z.of_nat (length (data b)).

(** [cobalt_allocator_realloc]: whether the allocator grants the request. *)
Definition allocator_realloc (bytes : Z) : M jworld bool := on_arena (request bytes).

Definition buf_ensure (b : json_buf) (needed : Z) : M jworld (bool * json_buf) :=
  if oom b then mret (false, b)
  else if cap b <? wrap64 (buf_len b + needed + 1) then
    let new_cap := wrap64 ((cap b + needed + 1) * 2) in
    let new_cap := if new_cap <? 512 then 512 else new_cap in
    ok <- allocator_realloc new_cap ;;
    if negb ok then mret (false, Buf (data b) (cap b) true)
    else mret (true, Buf (data b) new_cap (oom b))
  else mret (true, b).

(** [memcpy(b->data + b->len, s, |s|); b->len += |s|] *)
Definition buf_write (b : json_buf) (s : list Z) : M jworld json_buf :=
  if cap b <? buf_len b + Z.of_nat (length s) then mfail BadAccess
  else mret (Buf (data b ++ s) (cap b) (oom b)).

Definition buf_append_char (b : json_buf) (c : Z) : M jworld json_buf :=
  r <- buf_ensure b 1 ;; if (r.1 : bool) then buf_write r.2 [c] else mret r.2.

Definition buf_append_str (b : json_buf) (s : list Z) : M jworld json_buf :=
  match s with
  | [] => mret b
  | _ => r <- buf_ensure b (Z.of_nat (length s)) ;;
         if (r.1 : bool) then buf_write r.2 s else mret r.2
  end.

Definition buf_append_number (b : json_buf) (x : double) : M jworld json_buf :=
  buf_append_str b (fmt_g17 x).

Definition needs_escape (c : Z) : bool := (c =? 34) || (c =? 92) || (c <? 0x20).

(** [%02x] *)
Definition hex_digit (v : Z) : Z := if v <? 10 then 48 + v else 87 + v.

(** What is appended for the byte [c] of a string. *)
Definition escape (c : Z) : list Z :=
  if c =? 34 then [92; 34]
  else if c =? 92 then [92; 92]
  else if c =? 10 then [92; 110]
  else if c =? 13 then [92; 114]
  else if c =? 9 then [92; 116]
  else if c =? 8 then [92; 98]
  else if c =? 12 then [92; 102]
  else if c <? 0x20 then [92; 117; 48; 48; hex_digit (c / 16); hex_digit (c mod 16)]
  else [c].

(** The loop over the bytes that escapes them one by one; [false] when it
    returned early. *)
Fixpoint append_escapes (b : json_buf) (s : list Z) : M jworld (json_buf * bool) :=
  match s with
  | [] => mret (b, true)
  | c :: s =>
      b <- buf_append_str b (escape c) ;;
      if oom b then mret (b, false) else append_escapes b s
  end.

Definition buf_append_escaped_string (b : json_buf) (s : list Z) : M jworld json_buf :=
  b <- buf_append_char b 34 ;;
  if negb (existsb needs_escape s) then
    b <- buf_append_str b s ;; buf_append_char b 34
  else
    r <- append_escapes b s ;;
    if r.2 : bool then buf_append_char r.1 34 else mret r.1.

Section node.
Variable serialize_node : Z → json_buf → M jworld json_buf.

(** The loops over elements and members: position, whether it is the first
    one, buffer. *)
Definition elem_body (s : Z * bool * json_buf) : M jworld ((Z * bool * json_buf) + json_buf) :=
  let '(elem, first, b) := s in
  if (elem =? NULL) || oom b then mret (inr b)
  else
    b <- (if first : bool then mret b else buf_append_char b 44) ;;
    b <- serialize_node elem b ;;
    n <- load_node elem ;;
    mret (inl (next n, false, b)).

(** The next member: behind the key node, or behind its value in the layout
    with keys and values in turn. *)
Definition next_member (n : json_node) : M jworld Z :=
  if negb (child n =? NULL) then mret (next n)
  else if next n =? NULL then mret NULL
  else v <- load_node (next n) ;; mret (next v).

Definition member_body (s : Z * bool * json_buf) : M jworld ((Z * bool * json_buf) + json_buf) :=
  let '(kv, first, b) := s in
  if (kv =? NULL) || oom b then mret (inr b)
  else
    b <- (if first : bool then mret b else buf_append_char b 44) ;;
    n <- load_node kv ;;
    k <- (if key n =? NULL then mret [] else load_cstr (key n)) ;;
    b <- buf_append_escaped_string b k ;;
    b <- buf_append_char b 58 ;;
    b <- serialize_node (if child n =? NULL then next n else child n) b ;;
    m <- next_member n ;;
    mret (inl (m, false, b)).

Definition serialize_string (n : json_node) (b : json_buf) : M jworld json_buf :=
  if string_ptr (value n) =? NULL then buf_append_str b [34; 34]
  else s <- load_cstr (string_ptr (value n)) ;; buf_append_escaped_string b s.

Definition first_child (n : json_node) : Z := if child n =? NULL then next n else child n.

Definition serialize_array (fuel : nat) (n : json_node) (b : json_buf) : M jworld json_buf :=
  b <- buf_append_char b 91 ;;
  b <- loop fuel elem_body (first_child n, true, b) ;;
  buf_append_char b 93.

Definition serialize_object (fuel : nat) (n : json_node) (b : json_buf) : M jworld json_buf :=
  b <- buf_append_char b 123 ;;
  b <- loop fuel member_body (first_child n, true, b) ;;
  buf_append_char b 125.
End node.

(** [%.17g] of a number node, whose union holds a number. *)
Definition number_of (v : json_value) : double := match v with Number x => x | _ => zero end.

Fixpoint serialize_node (fuel : nat) (p : Z) (b : json_buf) : M jworld json_buf :=
  match fuel with
  | O => mfail OutOfFuel
  | S fuel =>
      if oom b then mret b
      else if p =? NULL then buf_append_str b null_word
      else
        n <- load_node p ;;
        match type n with
        | JSON_NULL => buf_append_str b null_word
        | JSON_TRUE => buf_append_str b true_word
        | JSON_FALSE => buf_append_str b false_word
        | JSON_NUMBER => buf_append_number b (number_of (value n))
        | JSON_STRING => serialize_string n b
        | JSON_ARRAY => serialize_array (serialize_node fuel) (S fuel) n b
        | JSON_OBJECT => serialize_object (serialize_node fuel) (S fuel) n b
        end
  end.

Definition jstrdup (s : list Z) : M jworld (option (list Z)) :=
  ok <- on_arena (request (Z.of_nat (length s) + 1)) ;; mret (if ok : bool then Some s else None).

(** [fuel] bounds the nested calls and the rounds of a loop. *)
Definition json_serialize_with_alloc (fuel : nat) (p : Z) : M jworld (option (list Z)) :=
  if p =? NULL then jstrdup null_word
  else
    r <- buf_ensure (Buf [] 0 false) 256 ;;
    if negb r.1 then jstrdup [123; 125]
    else
      b <- serialize_node fuel p r.2 ;;
      if oom b then jstrdup [123; 125]
      else if cap b <=? buf_len b then mfail BadAccess
      else mret (Some (data b)).

Definition json_serialize (fuel : nat) (p : Z) : M jworld (option (list Z)) :=
  json_serialize_with_alloc fuel p.
End JsonSer.
