(* ===== verification/JsonRef.v ===== *)
(** * What the JSON parser computes, without memory

    Documents as values, and the parser of src/src/module/json_parse.c as a
    function from the rest of the text to a document and the rest behind it.
    It accepts what the code accepts: containers that are not closed, trailing
    commas, and a second closing brace behind an object that has members. *)
From S2P Require Import Prelude World Double Json.

Module JsonRef.
Import Double Json.

#[local] Set Warnings "-register-all".

Inductive json : Type :=
  | JNull | JTrue | JFalse
  | JNumber (x : double)
  | JString (s : list Z)
  | JArray (ts : list json)
  | JObject (ms : list (list Z * json)).

(** Induction with the hypothesis for every element and member. *)
Section ind.
Variable P : json → Prop.
Hypothesis Hnull : P JNull.
Hypothesis Htrue : P JTrue.
Hypothesis Hfalse : P JFalse.
Hypothesis Hnumber : ∀ x, P (JNumber x).
Hypothesis Hstring : ∀ s, P (JString s).
Hypothesis Harray : ∀ ts, Forall P ts → P (JArray ts).
Hypothesis Hobject : ∀ ms, Forall (λ m, P m.2) ms → P (JObject ms).

Fixpoint json_ind' (t : json) : P t :=
  match t with
  | JNull => Hnull
  | JTrue => Htrue
  | JFalse => Hfalse
  | JNumber x => Hnumber x
  | JString s => Hstring s
  | JArray ts =>
      Harray ts ((fix go ts := match ts return Forall P ts with
                               | [] => Forall_nil_2 _
                               | t :: ts => Forall_cons_2 _ _ _ (json_ind' t) (go ts)
                               end) ts)
  | JObject ms =>
      Hobject ms ((fix go ms := match ms return Forall (λ m, P m.2) ms with
                                | [] => Forall_nil_2 _
                                | m :: ms => Forall_cons_2 _ _ _ (json_ind' m.2) (go ms)
                                end) ms)
  end.
End ind.

Definition is_empty (t : json) : bool :=
  match t with JArray [] | JObject [] => true | _ => false end.

(** How deep the containers are nested. *)
Fixpoint nesting (t : json) : Z :=
  match t with
  | JArray ts => 1 + fold_right (λ t d, Z.max (nesting t) d) 0 ts
  | JObject ms => 1 + fold_right (λ m d, Z.max (nesting m.2) d) 0 ms
  | _ => 0
  end.

(** ** Characters and strings *)

Fixpoint skip_ws (s : list Z) : list Z :=
  match s with c :: s' => if is_space c then skip_ws s' else s | [] => [] end.

(** UTF-8 (RFC 3629): the bits of a code point in groups of six behind a lead
    byte that tells their number.  Beyond Unicode, where only a minus sign among
    the four digits of an escape leads, the lead byte is 255. *)
Definition utf8 (c : Z) : list Z :=
  if c <? 128 then [c]
  else if c <? 2048 then [192 + c / 64; 128 + c mod 64]
  else if c <? 65536 then [224 + c / 4096; 128 + c / 64 mod 64; 128 + c mod 64]
  else [(if c <? 1114112 then 240 + c / 262144 else 255);
        128 + c / 4096 mod 64; 128 + c / 64 mod 64; 128 + c mod 64].

(** The code point of a pair of surrogates. *)
Definition surrogates (high low : Z) : Z := 65536 + 1024 * (high - 0xD800) + (low - 0xDC00).

(** The bytes of the escape with the letter [c], and the rest behind it. *)
Definition ref_unicode (s : list Z) : option (list Z * list Z) :=
  if (length s <? 4)%nat then None
  else
    let cp := strtol16 (take 4 s) in
    if (0xD800 <=? cp) && (cp <=? 0xDBFF) then
      if (10 <=? length s)%nat && bool_decide (s !! 4%nat = Some 92) && bool_decide (s !! 5%nat = Some 117) then
        let low_cp := strtol16 (take 4 (drop 6 s)) in
        if (0xDC00 <=? low_cp) && (low_cp <=? 0xDFFF) then
          Some (utf8 (surrogates cp low_cp), drop 10 s)
        else None
      else None
    else if (0xDC00 <=? cp) && (cp <=? 0xDFFF) then None
    else Some (utf8 cp, drop 4 s).

Definition ref_escape (c : Z) (s : list Z) : option (list Z * list Z) :=
  if c =? 98 then Some ([8], s)
  else if c =? 102 then Some ([12], s)
  else if c =? 110 then Some ([10], s)
  else if c =? 114 then Some ([13], s)
  else if c =? 116 then Some ([9], s)
  else if c =? 117 then ref_unicode s
  else Some ([c], s).

(** The block of the arena that serves a request of [n] bytes. *)
Definition block_size (n : Z) : Z := 16 * ((n + 15) / 16).

(** The characters behind the opening quote.  [cap] is the capacity of the
    buffer; the last result tells that an escape made the buffer grow by
    copying more bytes than its block has. *)
Fixpoint ref_chars (fuel : nat) (cap : Z) (acc s : list Z) : option (list Z) * list Z * bool :=
  match fuel with
  | O => (None, s, false)
  | S fuel =>
      match s with
      | [] => (None, [], false)
      | c :: s' =>
          if c =? 34 then (Some acc, s', false)
          else if c =? 92 then
            match s' with
            | [] => (None, [], false)
            | e :: s'' =>
                match ref_escape e s'' with
                | None => (None, s', false)
                | Some (bs, r) =>
                    let need := Z.of_nat (length acc + length bs) + 1 in
                    let '(x, r', over) :=
                      ref_chars fuel (if cap <? need then need * 2 else cap) (acc ++ bs) r in
                    (x, r', (block_size cap <? need) || over)
                end
            end
          else ref_chars fuel (if cap <? Z.of_nat (length acc) + 2 then cap * 2 else cap) (acc ++ [c]) s'
      end
  end.

Definition string_overreads (s : list Z) : bool := (ref_chars (S (length s)) 64 [] s).2.

(** Some string of the text, wherever a quote may start one, makes the parser
    read behind a block. *)
Fixpoint json_overreads (s : list Z) : bool :=
  match s with
  | [] => false
  | c :: s => ((c =? 34) && string_overreads s) || json_overreads s
  end.

Definition ref_string (s : list Z) : option (list Z) * list Z :=
  (ref_chars (S (length s)) 64 [] s).1.

(** ** Values *)

(** A document or an error, the rest of the text, and whether the nesting
    limit was hit. *)
Definition parsed (A : Type) : Type := A * list Z * bool.

Definition drop_char (c : Z) (s : list Z) : list Z :=
  match s with c' :: s' => if c' =? c then s' else s | [] => [] end.

Section loops.
Variable value : list Z → parsed (option json).

Fixpoint ref_members (fuel : nat) (s : list Z) : parsed (list (list Z * json)) :=
  match fuel with
  | O => ([], s, false)
  | S fuel =>
      match skip_ws s with
      | c :: s1 =>
          if c =? 34 then
            match ref_string s1 with
            | (None, r) => ([], r, false)
            | (Some k, r) =>
                match skip_ws r with
                | c2 :: r2 =>
                    if c2 =? 58 then
                      match value r2 with
                      | (None, r3, ex) => ([], r3, ex)
                      | (Some v, r3, ex) =>
                          let r4 := skip_ws r3 in
                          match r4 with
                          | c4 :: r5 =>
                              if c4 =? 44 then
                                let '(ms, r6, ex') := ref_members fuel r5 in
                                ((cstr k, v) :: ms, r6, ex || ex')
                              else ([(cstr k, v)], drop_char 125 r4, ex)
                          | [] => ([(cstr k, v)], [], ex)
                          end
                      end
                    else ([], c2 :: r2, false)
                | [] => ([], [], false)
                end
            end
          else ([], c :: s1, false)
      | [] => ([], [], false)
      end
  end.

Fixpoint ref_elems (fuel : nat) (s : list Z) : parsed (list json) :=
  match fuel with
  | O => ([], s, false)
  | S fuel =>
      match value s with
      | (None, r, ex) => ([], r, ex)
      | (Some v, r, ex) =>
          let r1 := skip_ws r in
          match r1 with
          | c :: r2 =>
              if c =? 44 then
                let '(vs, r3, ex') := ref_elems fuel r2 in (v :: vs, r3, ex || ex')
              else ([v], r1, ex)
          | [] => ([v], [], ex)
          end
      end
  end.
End loops.

(** A container behind its opening bracket; [items] reads what is in it. *)
Definition ref_container {A} (close : Z) (mk : list A → json) (items : list Z → parsed (list A))
    (s : list Z) : parsed (option json) :=
  let s1 := skip_ws s in
  match s1 with
  | c :: s2 =>
      if c =? close then (Some (mk []), s2, false)
      else let '(xs, r, ex) := items s1 in (Some (mk xs), drop_char close (skip_ws r), ex)
  | [] => let '(xs, r, ex) := items [] in (Some (mk xs), drop_char close (skip_ws r), ex)
  end.

(** The end of the number at the front. *)
Definition number_rest (s : list Z) : list Z :=
  let s := drop_char 45 s in
  let s := (span_digits s).2 in
  let s := match s with c :: s' => if c =? 46 then (span_digits s').2 else s | [] => [] end in
  match s with
  | c :: s' =>
      if (c =? 101) || (c =? 69) then
        (span_digits (match s' with
                      | c' :: r => if (c' =? 43) || (c' =? 45) then r else s'
                      | [] => []
                      end)).2
      else s
  | [] => []
  end.

Definition ref_number (s : list Z) : parsed (option json) :=
  let r := number_rest s in
  (Some (JNumber (strtod (take (length s - length r) s))), r, false).

Definition ref_word (s : list Z) : parsed (option json) :=
  if bool_decide (take 4 s = true_word) then (Some JTrue, drop 4 s, false)
  else if bool_decide (take 5 s = false_word) then (Some JFalse, drop 5 s, false)
  else if bool_decide (take 4 s = null_word) then (Some JNull, drop 4 s, false)
  else (None, s, false).

(** [n] bounds the rounds of a loop, [fuel] the nested calls, [d] is the depth
    reached. *)
Fixpoint ref_value (n fuel : nat) (d : Z) (s : list Z) : parsed (option json) :=
  match fuel with
  | O => (None, s, false)
  | S fuel =>
      match skip_ws s with
      | [] => (None, [], false)
      | c :: s' =>
          if c =? 123 then
            if COBALT_JSON_DOM_MAX_DEPTH <=? d then (None, c :: s', true)
            else ref_container 125 JObject (ref_members (ref_value n fuel (d + 1)) n) s'
          else if c =? 91 then
            if COBALT_JSON_DOM_MAX_DEPTH <=? d then (None, c :: s', true)
            else ref_container 93 JArray (ref_elems (ref_value n fuel (d + 1)) n) s'
          else if c =? 34 then
            match ref_string s' with
            | (None, r) => (None, r, false)
            | (Some x, r) => (Some (JString (cstr x)), r, false)
            end
          else if (c =? 45) || isdigit c then ref_number (c :: s')
          else ref_word (c :: s')
      end
  end.

(** The document of a text, if it is accepted. *)
Definition ref_parse (s : list Z) : option json :=
  let '(t, _, ex) := ref_value (S (length s)) depth_fuel 0 s in
  if ex then None else t.

(** ** The bounds of the loops do not matter *)

Lemma ref_escape_length e s bs r : ref_escape e s = Some (bs, r) → (length r ≤ length s)%nat.
Proof.
  unfold ref_escape, ref_unicode. repeat case_match; intros; simplify_eq; try done; rewrite length_drop; lia.
Qed.

Lemma ref_chars_fuel f g cap acc s :
  (length s < f)%nat → (length s < g)%nat → ref_chars f cap acc s = ref_chars g cap acc s.
Proof.
  revert g cap acc s. induction f as [|f IH]; intros [|g] cap acc s Hf Hg; try lia. simpl.
  destruct s as [|c s]; [done|]. simpl in *. destruct (c =? 34); [done|]. destruct (c =? 92).
  - destruct s as [|e s]; [done|]. destruct (ref_escape e s) as [[bs r]|] eqn:E; [|done].
    apply ref_escape_length in E. simpl in *. rewrite (IH g) by lia. done.
  - apply IH; lia.
Qed.

Lemma json_overreads_drop k s : json_overreads (drop k s) = true → json_overreads s = true.
Proof.
  revert s. induction k as [|k IH]; intros [|c s]; simpl; try done. intros H. by rewrite (IH s H), orb_true_r.
Qed.

Lemma skip_ws_length s : (length (skip_ws s) ≤ length s)%nat.
Proof. induction s as [|c s IH]; simpl; [lia|]. destruct (is_space c); simpl; lia. Qed.

Lemma drop_char_length c s : (length (drop_char c s) ≤ length s)%nat.
Proof. destruct s as [|c' s]; simpl; [lia|]. destruct (c' =? c); simpl; lia. Qed.
End JsonRef.
