(* ===== verification/JsonHeap.v ===== *)
(** * Documents in memory

    When nodes in the arena represent a document, and the rules for the memory
    operations of the JSON modules: what the arena promises (fresh blocks that
    do not overlap) is what keeps finished parts of a document intact while the
    rest is built. *)
From S2P Require Import Prelude World Arena Double Json JsonRef.

Module JsonHeap.
Import Double Json JsonRef.

(** ** What the parser needs of the arena *)

Definition chunk_default (w : Arena.aworld) : Z :=
  match obj w with Some a => Arena.default_chunk_size a | None => 0 end.

(** Allocations do not change the allocator behind the arena, and memory is
    only used up. *)
Record keeps (w w' : Arena.aworld) : Prop := {
  kp_oracle : oracle w' = oracle w;
  kp_brk : brk w ≤ brk w';
  kp_default : chunk_default w' = chunk_default w
}.

Lemma keeps_refl w : keeps w w.
Proof. by split. Qed.
Lemma keeps_trans w1 w2 w3 : keeps w1 w2 → keeps w2 w3 → keeps w1 w3.
Proof. intros [] []. split; [congruence|lia|congruence]. Qed.

(** A computation whose results are all related to where it started. *)
Definition always {S A} (R : S → S → Prop) (c : M S A) : Prop :=
  ∀ s a s', c s = Ret a s' → R s s'.

Lemma always_bind {S A B} (R : S → S → Prop) (c : M S A) (k : A → M S B) :
  (∀ a b d, R a b → R b d → R a d) → always R c → (∀ a, always R (k a)) → always R (mbind c k).
Proof.
  intros Ht Hc Hk s b s'. unfold mbind. destruct (c s) as [a s1|] eqn:E; [|done].
  intros Hb. eapply Ht; [by eapply Hc|by eapply Hk].
Qed.
Lemma always_ret {S A} (R : S → S → Prop) (a : A) : (∀ s, R s s) → always R (mret a).
Proof. intros Hr s b s' [= <- <-]. apply Hr. Qed.

Lemma alloc_chunk_keeps c : always keeps (Arena.alloc_chunk c).
Proof.
  intros w r w'. unfold Arena.alloc_chunk. set (p := 16 * _). set (n := wrap64 _).
  assert (brk w ≤ p).
  { pose proof (Z_div_mod_eq_full (brk w + 15) 16). pose proof (Z.mod_pos_bound (brk w + 15) 16). unfold p. lia. }
  assert (0 ≤ n) by (apply Z.mod_pos_bound; lia).
  destruct (_ && _); [destruct (_ <? _); [done|]|]; intros [= <- <-]; split; simpl; done || lia.
Qed.

Lemma store_keeps p c : always keeps (store (T := Arena.cobalt_arena) p c).
Proof. intros w r w'. unfold store. destruct (heap w !! p); [|done]. by intros [= <- <-]. Qed.
Lemma load_keeps p : always keeps (load (T := Arena.cobalt_arena) (C := Arena.arena_chunk) p).
Proof. intros w r w'. unfold load. destruct (heap w !! p); [|done]. by intros [= <- <-]. Qed.

Lemma bump_keeps p c n : always keeps (Arena.bump p c n).
Proof.
  apply always_bind; [apply keeps_trans|apply store_keeps|]. intros []. apply always_ret, keeps_refl.
Qed.

(** Setting the handle keeps the default chunk size, when it is the one of the
    arena at hand. *)
Definition keeps_from (d : Z) (w w' : Arena.aworld) : Prop := chunk_default w = d → keeps w w' ∧ chunk_default w' = d.

Lemma keeps_from_trans d w1 w2 w3 : keeps_from d w1 w2 → keeps_from d w2 w3 → keeps_from d w1 w3.
Proof. intros H1 H2 H. destruct (H1 H) as [? H']. destruct (H2 H') as [? ?]. split; [by eapply keeps_trans|done]. Qed.

Lemma keeps_from_of {A} d (c : M Arena.aworld A) : always keeps c → always (keeps_from d) c.
Proof. intros Hc w a w' E Hd. specialize (Hc _ _ _ E). split; [done|]. by rewrite (kp_default _ _ Hc). Qed.

Lemma set_obj_keeps a : always (keeps_from (Arena.default_chunk_size a)) (set_obj (C := Arena.arena_chunk) (Some a)).
Proof. intros w r w' [= <- <-] Hd. split; [split|]; simpl; try done. Qed.

Lemma grow_keeps a n : always (keeps_from (Arena.default_chunk_size a)) (Arena.grow a n).
Proof.
  pose proof (keeps_from_trans (Arena.default_chunk_size a)) as Ht.
  unfold Arena.grow. destruct (_ =? _).
  - apply always_bind; [done|apply keeps_from_of, alloc_chunk_keeps|]. intros p.
    destruct (_ =? _); [by apply always_ret; intros ? ?|].
    apply always_bind; [done|apply (set_obj_keeps (Arena.MkArena p p (Arena.default_chunk_size a) _))|].
    intros []. by apply always_ret; intros ? ?.
  - apply always_bind; [done|apply keeps_from_of, load_keeps|]. intros c.
    apply always_bind; [done|apply keeps_from_of, alloc_chunk_keeps|]. intros p.
    destruct (_ =? _); [by apply always_ret; intros ? ?|].
    apply always_bind; [done|apply keeps_from_of, store_keeps|]. intros [].
    apply always_bind; [done|apply (set_obj_keeps (Arena.MkArena p (Arena.chunks a) (Arena.default_chunk_size a) _))|].
    intros []. by apply always_ret; intros ? ?.
Qed.

Lemma arena_alloc_keeps n : always keeps (Arena.cobalt_arena_alloc n).
Proof.
  intros w r w'. unfold Arena.cobalt_arena_alloc, mbind, get_obj.
  destruct (obj w) as [a|] eqn:Ho; [|by intros [= <- <-]].
  destruct (_ =? 0); [by intros [= <- <-]|].
  assert (chunk_default w = Arena.default_chunk_size a) as Hd by (unfold chunk_default; by rewrite Ho).
  destruct (_ =? NULL); [intros E; by apply (grow_keeps a _ _ _ _ E)|].
  unfold load. destruct (heap w !! _) as [c|]; [|done].
  destruct (_ <=? _); [by apply bump_keeps|]. unfold Arena.advance.
  destruct (_ =? NULL); [intros E; by apply (grow_keeps a _ _ _ _ E)|].
  unfold mbind, load. destruct (heap w !! _) as [m|]; [|done].
  destruct (_ <=? _); [|intros E; by apply (grow_keeps a _ _ _ _ E)]. simpl. intros E%bump_keeps.
  eapply keeps_trans; [|exact E]. split; [done|done|]. by rewrite Hd.
Qed.

Lemma rep_block w live p n :
  Arena.rep w live → (p, n) ∈ live → 1 ≤ p ∧ 0 < n ∧ in_chunk (heap w) p (block_size n) = true.
Proof.
  intros (a & pre & cur & post & Hrep) Hin.
  pose proof (Arena.ar_layout _ _ _ _ _ _ Hrep) as [Hok _ Hl _]. rewrite Forall_forall in Hl.
  apply Hl in Hin as (c & Hc & (Hn & Hp & Hp1 & Hp2))%Exists_exists. rewrite Forall_forall in Hok.
  destruct (Hok c Hc) as [Hu [Ha1 Ha2] [Hr1 Hr2]]. simpl in *. unfold Arena.c_data, Arena.sizeof_chunk in *.
  split_and!; [lia|lia|]. unfold in_chunk. apply existsb_exists.
  apply list_elem_of_split in Hc as (l1 & l2 & El).
  pose proof (Arena.ar_seg _ _ _ _ _ _ Hrep) as Hs. rewrite El in Hs. apply Arena.aseg_app in Hs as [_ [Hs _]].
  exists (Arena.c_addr c, Arena.Chunk (Arena.hd_addr NULL l2) (Arena.c_cap c) (Arena.c_used c)). split.
  - apply list_elem_of_In. by apply elem_of_map_to_list.
  - simpl. unfold Arena.sizeof_chunk, block_size. rewrite andb_true_iff, !Z.leb_le. split; [lia|].
    assert (p + n ≤ Arena.c_addr c + 32 + Arena.c_used c) by lia.
    pose proof (Z_div_mod_eq_full p 16). pose proof (Z_div_mod_eq_full (Arena.c_addr c) 16).
    pose proof (Z_div_mod_eq_full (Arena.c_used c) 16). pose proof (Z_div_mod_eq_full (n + 15) 16).
    pose proof (Z.mod_pos_bound (n + 15) 16). lia.
Qed.

Lemma rep_fresh w live p n q m : Arena.rep w ((p, n) :: live) → (q, m) ∈ live → p ≠ q.
Proof.
  intros Hr Hin <-. destruct (rep_block _ _ p n Hr) as (_ & Hn & _); [by left|].
  destruct (rep_block _ _ p m Hr) as (_ & Hm & _); [by right|].
  destruct (Arena.rep_live _ _ _ _ Hr) as [_ Ha]. rewrite Forall_forall in Ha.
  specialize (Ha _ Hin). unfold Arena.apart in Ha. simpl in Ha. lia.
Qed.

(** ** Nodes and strings in live blocks *)

(** Every node and every string is in a block that the arena has handed out. *)
Record jok (w : jworld) (live : list (Z * Z)) : Prop := {
  jo_rep : Arena.rep (jarena w) live;
  jo_nodes : ∀ p, p ∈ dom (nodes w) → ∃ n, (p, n) ∈ live;
  jo_strs : ∀ p, p ∈ dom (strs w) → ∃ n, (p, n) ∈ live
}.

(** Nodes and strings are added, none is changed. *)
Record grows (w w' : jworld) : Prop := {
  gr_arena : keeps (jarena w) (jarena w');
  gr_nodes : nodes w ⊆ nodes w';
  gr_strs : strs w ⊆ strs w'
}.

Lemma grows_refl w : grows w w.
Proof. split; [apply keeps_refl|done|done]. Qed.
Lemma grows_trans w1 w2 w3 : grows w1 w2 → grows w2 w3 → grows w1 w3.
Proof. intros [] []. split; [by eapply keeps_trans|by etrans|by etrans]. Qed.

(** Memory is short for a request of at most [N] bytes. *)
Definition lacking (N : Z) (w : jworld) : Prop :=
  Arena.short (jarena w) (Arena.alloc_bytes (jarena w) N).

Lemma lacking_keeps N w w' : keeps (jarena w) (jarena w') → lacking N w → lacking N w'.
Proof.
  unfold lacking, Arena.short, Arena.alloc_bytes. intros [Ho Hb Hd]. unfold chunk_default in Hd. rewrite Ho, Hd.
  intros [?|?]; [left; lia|by right].
Qed.

(** The address of a node or string that was not there. *)
Record new_block (w : jworld) (live : list (Z * Z)) (n p : Z) (w' : jworld) : Prop := {
  nb_state : w' = with_arena w (jarena w');
  nb_ok : jok w' ((p, n) :: live);
  nb_keeps : keeps (jarena w) (jarena w');
  nb_null : p ≠ NULL;
  nb_node : p ∉ dom (nodes w);
  nb_str : p ∉ dom (strs w)
}.

Lemma wp_jalloc N w live n (Q : Z → jworld → Prop) :
  jok w live → 0 < n ≤ N → N ≤ 2 ^ 64 - 128 →
  (∀ w', w' = with_arena w (jarena w') → jok w' live → keeps (jarena w) (jarena w') →
     lacking N w' → Q NULL w') →
  (∀ p w', new_block w live n p w' → Q p w') →
  wp (jalloc n) Q w.
Proof.
  intros [Hr Hn Hs] Hsz HN Hnull Hnew. unfold jalloc, on_arena, wp.
  pose proof (Arena.wp_arena_alloc (jarena w) live n Hr ltac:(lia)) as Ha.
  apply wp_run in Ha as (r & a & E & Ha). rewrite E. pose proof (arena_alloc_keeps _ _ _ _ E) as Hk.
  destruct Ha as [(-> & Hr' & Hsh)|[Hnz Hr']].
  - apply Hnull; [done|by split|done|]. eapply (lacking_keeps N w); [done|].
    unfold lacking. eapply Arena.short_mono; [exact Hsh|]. unfold Arena.alloc_bytes. lia.
  - apply Hnew. split; simpl; [done| |done|done| |].
    + split; simpl; [done|..]; intros p Hp; [destruct (Hn p Hp) as [m ?]|destruct (Hs p Hp) as [m ?]]; exists m; by right.
    + intros [m Hm]%Hn. by eapply rep_fresh.
    + intros [m Hm]%Hs. by eapply rep_fresh.
Qed.

Definition fresh_node (t : json_type) : json_node := Node t Zeroed NULL NULL NULL false false.

(** A node more. *)
Record new_node (w : jworld) (t : json_type) (p : Z) (w' : jworld) : Prop := {
  nn_state : w' = with_nodes (with_arena w (jarena w')) (<[p := fresh_node t]> (nodes w));
  nn_ok : ∃ live, jok w' live;
  nn_keeps : keeps (jarena w) (jarena w');
  nn_null : p ≠ NULL;
  nn_fresh : p ∉ dom (nodes w)
}.

Lemma wp_create_jnode N w live t (Q : Z → jworld → Prop) :
  jok w live → sizeof_node ≤ N → N ≤ 2 ^ 64 - 128 →
  (∀ w', w' = with_arena w (jarena w') → jok w' live → keeps (jarena w) (jarena w') →
     lacking N w' → Q NULL w') →
  (∀ p w', new_node w t p w' → Q p w') →
  wp (json_node_create t) Q w.
Proof.
  intros Hw HN1 HN2 Hnull Hnew. unfold json_node_create, sizeof_node in *. wp_step.
  eapply (wp_jalloc N); [done|lia|done| |].
  { intros w' E Hok Hk Hl. wp_steps. by apply Hnull. }
  intros p w' [E Hok Hk Hp Hn Hs]. rewrite (proj2 (Z.eqb_neq _ _) Hp). wp_step.
  unfold wp, store_node. wp_simpl. apply Hnew.
  split; simpl; [by rewrite E| |done|done|done].
  exists ((p, 56) :: live). destruct Hok as [H1 H2 H3]. split; simpl; [done| |done].
  intros q. rewrite dom_insert. rewrite elem_of_union, elem_of_singleton.
  intros [->|Hq]; [exists 56; by left|by apply H2].
Qed.

Lemma wp_load_jnode w p n (Q : json_node → jworld → Prop) :
  nodes w !! p = Some n → Q n w → wp (load_node p) Q w.
Proof. unfold wp, load_node. by intros ->. Qed.

Lemma wp_update_node w p n f (Q : unit → jworld → Prop) :
  nodes w !! p = Some n → Q tt (with_nodes w (<[p := f n]> (nodes w))) → wp (update_node p f) Q w.
Proof. intros Hn HQ. unfold update_node. wp_step. eapply wp_load_jnode; [done|]. done. Qed.

Lemma jok_insert w live p n : jok w live → p ∈ dom (nodes w) → jok (with_nodes w (<[p := n]> (nodes w))) live.
Proof.
  intros [H1 H2 H3] Hp. split; simpl; [done| |done]. intros q. rewrite dom_insert, elem_of_union, elem_of_singleton.
  intros [->|Hq]; by apply H2.
Qed.

(** ** Documents

    [jval h st X t p]: the node at [p] represents [t]; all nodes below it are
    at addresses in [X].  Elements are chained by [next], the first one hangs
    from [child]; a member is a node with the key whose [child] is the
    value. *)

Section doc.
Variable h : gmap Z json_node.
Variable st : gmap Z (list Z).
Variable X : gset Z.

Definition string_at (p : Z) (s : list Z) : Prop :=
  p ≠ NULL ∧ ∃ b, st !! p = Some b ∧ cstr b = s.

Fixpoint jval (t : json) (p : Z) {struct t} : Prop :=
  p ≠ NULL ∧ ∃ n, h !! p = Some n ∧
  match t with
  | JNull => type n = JSON_NULL
  | JTrue => type n = JSON_TRUE
  | JFalse => type n = JSON_FALSE
  | JNumber x => type n = JSON_NUMBER ∧ value n = Number x
  | JString s => type n = JSON_STRING ∧ ∃ q, value n = String q ∧ string_at q s
  | JArray ts =>
      type n = JSON_ARRAY ∧
      (fix elems ts q := match ts with
                         | [] => q = NULL
                         | t :: ts => q ∈ X ∧ jval t q ∧ ∃ m, h !! q = Some m ∧ elems ts (next m)
                         end) ts (child n)
  | JObject ms =>
      type n = JSON_OBJECT ∧
      (fix members ms q := match ms with
                           | [] => q = NULL
                           | (k, v) :: ms =>
                               q ∈ X ∧ q ≠ NULL ∧ ∃ m, h !! q = Some m ∧ string_at (key m) k ∧
                               child m ∈ X ∧ jval v (child m) ∧
                               (is_empty v = true → ∃ vn, h !! child m = Some vn ∧ next vn = NULL) ∧
                               members ms (next m)
                           end) ms (child n)
  end.

Fixpoint elems (ts : list json) (q : Z) : Prop :=
  match ts with
  | [] => q = NULL
  | t :: ts => q ∈ X ∧ jval t q ∧ ∃ m, h !! q = Some m ∧ elems ts (next m)
  end.

Definition unlinked (v : json) (p : Z) : Prop :=
  is_empty v = true → ∃ vn, h !! p = Some vn ∧ next vn = NULL.

Fixpoint members (ms : list (list Z * json)) (q : Z) : Prop :=
  match ms with
  | [] => q = NULL
  | (k, v) :: ms =>
      q ∈ X ∧ q ≠ NULL ∧ ∃ m, h !! q = Some m ∧ string_at (key m) k ∧
      child m ∈ X ∧ jval v (child m) ∧ unlinked v (child m) ∧ members ms (next m)
  end.

Lemma jval_array ts p :
  jval (JArray ts) p ↔ p ≠ NULL ∧ ∃ n, h !! p = Some n ∧ type n = JSON_ARRAY ∧ elems ts (child n).
Proof. done. Qed.
Lemma jval_object ms p :
  jval (JObject ms) p ↔ p ≠ NULL ∧ ∃ n, h !! p = Some n ∧ type n = JSON_OBJECT ∧ members ms (child n).
Proof. done. Qed.
End doc.

(** What a node says of the value it holds; [next] is not part of it. *)
Definition same_value (n n' : json_node) : Prop :=
  type n' = type n ∧ value n' = value n ∧ child n' = child n.

(** The nodes below are as before, the node itself holds the same value. *)
Lemma jval_frame h h' st st' X X' t p n n' :
  jval h st X t p → h !! p = Some n → h' !! p = Some n' → same_value n n' →
  (∀ q, q ∈ X → h' !! q = h !! q) → st ⊆ st' → X ⊆ X' → jval h' st' X' t p.
Proof.
  intros H Hn Hn' Hsv Hfr Hst HX.
  assert (∀ q s, string_at st q s → string_at st' q s) as Hstr.
  { intros q s (? & b & ? & ?). split; [done|]. exists b. split; [by eapply lookup_weaken|done]. }
  revert p n n' H Hn Hn' Hsv.
  induction t as [| | |x|s|ts IH|ms IH] using json_ind'; intros p n n' (Hp & n0 & Hn0 & H) Hn Hn' (E1 & E2 & E3);
    assert (n0 = n) as -> by congruence.
  1-3: split; [done|]; exists n'; split; [done|]; congruence.
  - split; [done|]. exists n'. split; [done|]. destruct H. split; congruence.
  - split; [done|]. exists n'. split; [done|]. destruct H as (? & q & ? & ?).
    split; [congruence|]. exists q. split; [congruence|by apply Hstr].
  - apply jval_array. split; [done|]. exists n'. split; [done|]. destruct H as [Ht H]. split; [congruence|].
    rewrite E3. change (elems h st X ts (child n)) in H. revert H. generalize (child n). clear -IH Hfr HX.
    induction IH as [|t ts Ht _ IHts]; intros q; simpl; [done|]. intros (Hq & Hv & m & Hm & Hr).
    split; [by apply HX|]. split; [eapply Ht; [done|done|by rewrite Hfr|done]|]. exists m.
    split; [by rewrite Hfr|by apply IHts].
  - apply jval_object. split; [done|]. exists n'. split; [done|]. destruct H as [Ht H]. split; [congruence|].
    rewrite E3. change (members h st X ms (child n)) in H. revert H. generalize (child n). clear -IH Hfr HX Hstr.
    induction IH as [|[k v] ms Ht _ IHms]; intros q; simpl; [done|].
    intros (Hq & Hq0 & m & Hm & Hk & Hc & Hv & Hu & Hr). split; [by apply HX|]. split; [done|]. exists m.
    split; [by rewrite Hfr|]. split; [by apply Hstr|]. split; [by apply HX|].
    assert (∃ vn, h !! child m = Some vn) as [vn Hvn] by (destruct v; destruct Hv as (_ & vn & ? & _); by exists vn).
    split; [eapply Ht; [done|done|by rewrite Hfr|done]|]. split; [|by apply IHms].
    intros He. destruct (Hu He) as (vn' & ? & ?). exists vn'. by rewrite Hfr.
Qed.
End JsonHeap.
