(* ===== verification/JsonParse.v ===== *)
(** * The JSON parser computes the reference parser

    Symbolic execution of src/src/module/json_parse.c: on every text the parser
    returns, faults only where [jrealloc] copies more than a block, leaves a
    well-formed document in the arena, and unless memory is short the document
    and the rest of the text are those of [JsonRef]. *)
From S2P Require Import Prelude World Arena Double Json JsonRef JsonHeap.

Module JsonParse.
Import Double Json JsonRef JsonHeap.

Section text.
Variable str : list Z.
Abbreviation len := (Z.of_nat (length str)).

(** The cursor is in front of [s]. *)
Definition at_rest (w : jworld) (s : list Z) : Prop :=
  0 ≤ pos w ∧ pos w + Z.of_nat (length s) = len ∧ drop (Z.to_nat (pos w)) str = s.

Lemma at_rest_char w s : at_rest w s → char_at str (pos w) = head s.
Proof.
  intros (Hp & Hl & Hd). unfold char_at. rewrite (proj2 (Z.leb_le _ _)) by lia.
  rewrite <- (Nat.add_0_r (Z.to_nat (pos w))), <- lookup_drop, Hd. by destruct s.
Qed.

Lemma at_rest_drop w s k : at_rest w s → (k ≤ length s)%nat →
  at_rest (with_pos w (pos w + Z.of_nat k)) (drop k s).
Proof.
  intros (Hp & Hl & Hd) Hk. split_and!; simpl; [lia|rewrite length_drop; lia|].
  rewrite <- Hd, drop_drop. f_equal. lia.
Qed.

Lemma at_rest_next w c s : at_rest w (c :: s) → at_rest (with_pos w (pos w + 1)) s.
Proof. intros H. apply (at_rest_drop _ _ 1) in H; [done|simpl; lia]. Qed.

Lemma at_rest_length w s : at_rest w s → (length s ≤ length str)%nat.
Proof. intros (? & ? & _). lia. Qed.

Lemma at_rest_lookup w s k : at_rest w s → char_at str (pos w + Z.of_nat k) = s !! k.
Proof.
  intros (Hp & Hl & Hd). unfold char_at. rewrite (proj2 (Z.leb_le _ _)) by lia.
  rewrite <- Hd, lookup_drop. f_equal. lia.
Qed.

Lemma at_rest_hex4 w s k : at_rest w s → hex4 str (pos w + Z.of_nat k) = take 4 (drop k s).
Proof.
  intros (Hp & Hl & Hd). unfold hex4. rewrite <- Hd, drop_drop. do 2 f_equal. lia.
Qed.

Lemma with_pos_pos w : with_pos w (pos w) = w.
Proof. by destruct w. Qed.

(** The loops that only move the cursor. *)
Section skip.
Variable test : Z → bool.
Variable body : unit → M jworld (unit + unit).
Hypothesis Hbody : ∀ w, body tt w =
  match char_at str (pos w) with
  | Some c => if test c then Ret (inl tt) (with_pos w (pos w + 1)) else Ret (inr tt) w
  | None => Ret (inr tt) w
  end.

Fixpoint drop_while (s : list Z) : list Z :=
  match s with c :: s' => if test c then drop_while s' else s | [] => [] end.

Lemma wp_skip_loop fuel s : ∀ w (Q : unit → jworld → Prop),
  at_rest w s → (length s < fuel)%nat →
  (∀ i, pos w ≤ i → at_rest (with_pos w i) (drop_while s) → Q tt (with_pos w i)) →
  wp (loop fuel body tt) Q w.
Proof.
  revert fuel. induction s as [|c s IH]; intros [|fuel] w Q Hw Hf HQ; simpl in Hf; try lia.
  - simpl. apply wp_bind. unfold wp. rewrite Hbody, (at_rest_char _ _ Hw). simpl.
    specialize (HQ (pos w) ltac:(lia)). rewrite with_pos_pos in HQ. by apply HQ.
  - simpl. apply wp_bind. unfold wp. rewrite Hbody, (at_rest_char _ _ Hw). simpl. simpl in HQ.
    destruct (test c); simpl.
    + apply (IH fuel); [by eapply at_rest_next|lia|]. simpl. intros i Hi Hr. apply HQ; [lia|done].
    + specialize (HQ (pos w) ltac:(lia)). rewrite with_pos_pos in HQ. by apply HQ.
Qed.
End skip.

Lemma drop_while_ws s : drop_while is_space s = skip_ws s.
Proof. induction s as [|c s IH]; simpl; [done|]. by destruct (is_space c). Qed.
Lemma drop_while_digits s : drop_while isdigit s = (span_digits s).2.
Proof.
  induction s as [|c s IH]; simpl; [done|]. destruct (isdigit c); [|done]. rewrite IH. by destruct (span_digits s).
Qed.

Lemma wp_skip_ws w s (Q : unit → jworld → Prop) :
  at_rest w s →
  (∀ i, pos w ≤ i → at_rest (with_pos w i) (skip_ws s) → Q tt (with_pos w i)) →
  wp (json_skip_whitespace str) Q w.
Proof.
  intros Hw HQ. unfold json_skip_whitespace.
  eapply (wp_skip_loop is_space); [|done| |].
  - intros w'. unfold skip_body, mbind, get_pos. destruct (char_at str (pos w')) as [c|]; [|done].
    by destruct (is_space c).
  - apply at_rest_length in Hw. unfold text_fuel. lia.
  - by rewrite drop_while_ws.
Qed.

Lemma wp_skip_digits w s (Q : unit → jworld → Prop) :
  at_rest w s →
  (∀ i, pos w ≤ i → at_rest (with_pos w i) (span_digits s).2 → Q tt (with_pos w i)) →
  wp (skip_digits str) Q w.
Proof.
  intros Hw HQ. unfold skip_digits.
  eapply (wp_skip_loop isdigit); [|done| |].
  - intros w'. unfold digits_body, mbind, get_pos. destruct (char_at str (pos w')) as [c|]; [|done].
    by destruct (isdigit c).
  - apply at_rest_length in Hw. unfold text_fuel. lia.
  - by rewrite drop_while_digits.
Qed.

Lemma wp_get_pos w (Q : Z → jworld → Prop) : Q (pos w) w → wp get_pos Q w.
Proof. done. Qed.
Lemma wp_set_pos w i (Q : unit → jworld → Prop) : Q tt (with_pos w i) → wp (set_pos i) Q w.
Proof. done. Qed.
Lemma wp_get_depth w (Q : Z → jworld → Prop) : Q (depth w) w → wp get_depth Q w.
Proof. done. Qed.
Lemma wp_set_depth w i (Q : unit → jworld → Prop) : Q tt (with_depth w i) → wp (set_depth i) Q w.
Proof. done. Qed.

Lemma wp_at_char w s c (Q : bool → jworld → Prop) :
  at_rest w s → Q (bool_decide (head s = Some c)) w → wp (at_char str c) Q w.
Proof. intros Hw HQ. unfold at_char, wp, mbind, get_pos, mret. by rewrite (at_rest_char _ _ Hw). Qed.

(** One of the characters [cs] is consumed, if it comes next. *)
Definition drop_one (cs : list Z) (s : list Z) : list Z :=
  match s with c :: s' => if bool_decide (c ∈ cs) then s' else s | [] => [] end.

Lemma wp_accept w s cs (Q : bool → jworld → Prop) :
  at_rest w s →
  (∀ i, pos w ≤ i → at_rest (with_pos w i) (drop_one cs s) →
     Q (match s with c :: _ => bool_decide (c ∈ cs) | [] => false end) (with_pos w i)) →
  wp (accept str cs) Q w.
Proof.
  intros Hw HQ. unfold accept, wp, mbind, get_pos, mret, set_pos. rewrite (at_rest_char _ _ Hw).
  pose proof (HQ (pos w) ltac:(lia)) as H0. rewrite with_pos_pos in H0.
  destruct s as [|c s]; simpl in *; [by apply H0|]. case_bool_decide; [|by apply H0].
  apply HQ; [lia|]. by eapply at_rest_next.
Qed.

(** ** Strings *)

Hypothesis Hlen : len < 2 ^ 62.

(** The largest request the parser makes. *)
Definition max_request : Z := 2 * len + 64.

(** The cursor moved and memory was used; nodes and strings are as before. *)
Record moved (w w' : jworld) : Prop := {
  mv_state : w' = with_pos (with_arena w (jarena w')) (pos w');
  mv_keeps : keeps (jarena w) (jarena w')
}.

Lemma moved_pos w i : moved w (with_pos w i).
Proof. split; [by destruct w|apply keeps_refl]. Qed.
Lemma moved_at w w' : w' = with_pos w (pos w') → moved w w'.
Proof. intros ->. apply moved_pos. Qed.
Lemma moved_refl w : moved w w.
Proof. rewrite <- (with_pos_pos w) at 2. apply moved_pos. Qed.
Lemma moved_trans w1 w2 w3 : moved w1 w2 → moved w2 w3 → moved w1 w3.
Proof. intros [E1 K1] [E2 K2]. split; [rewrite E2, E1; done|by eapply keeps_trans]. Qed.

Lemma jok_moved w w' live : w' = with_pos w (pos w') → jok w live → jok w' live.
Proof. intros -> []. by split. Qed.

Lemma moved_strs w w' : moved w w' → strs w' = strs w.
Proof. by intros [-> _]. Qed.

(** ** The bytes of a code point *)

Lemma utf8_length u : (0 < length (utf8 u) ≤ 4)%nat.
Proof. unfold utf8. repeat destruct (_ <? _); simpl; lia. Qed.

(** Bits below the lowest one of [a] are added by [Z.lor]. *)
Lemma lor_low a b k : 0 ≤ k → 0 ≤ b < 2 ^ k → Z.lor (Z.shiftl a k) b = a * 2 ^ k + b.
Proof.
  intros Hk Hb. rewrite <- Z.shiftl_mul_pow2 by done. symmetry. apply Z.add_nocarry_lor.
  apply Z.bits_inj'. intros i Hi. rewrite Z.land_spec, Z.bits_0. destruct (decide (i < k)).
  - by rewrite Z.shiftl_spec_low.
  - rewrite <- (Z.mod_small b (2 ^ k)) by done. rewrite Z.mod_pow2_bits_high by lia. apply andb_false_r.
Qed.

Lemma tail_byte c : to_byte (Z.lor 0x80 (Z.land c 0x3F)) = 128 + c mod 64.
Proof.
  change 0x3F with (Z.ones 6). rewrite Z.land_ones by done. change (2 ^ 6) with 64.
  pose proof (Z.mod_pos_bound c 64 ltac:(done)). change (Z.lor 0x80) with (Z.lor (Z.shiftl 2 6)).
  rewrite lor_low by lia. change (2 * 2 ^ 6) with 128. apply Z.mod_small. lia.
Qed.

Lemma lead_byte a k b : 0 ≤ k → 0 ≤ b < 2 ^ k → 0 ≤ a * 2 ^ k + b < 256 → to_byte (Z.lor (Z.shiftl a k) b) = a * 2 ^ k + b.
Proof. intros. rewrite lor_low by done. by apply Z.mod_small. Qed.

(** What four bytes can stand for: a number of four digits, or the negation
    of one of three in 32 bits. *)
Definition code_range (c : Z) : Prop := 0 ≤ c < 1114112 ∨ 2 ^ 32 - 4096 ≤ c < 2 ^ 32.

Lemma utf8_encode_spec c : code_range c → utf8_encode c = utf8 c.
Proof.
  intros Hc. assert (0 ≤ c) by (destruct Hc; lia). unfold utf8_encode, utf8.
  rewrite !tail_byte, !Z.shiftr_div_pow2 by done.
  change (2 ^ 6) with 64. change (2 ^ 12) with 4096. change (2 ^ 18) with 262144.
  destruct (Z.ltb_spec c 128); [unfold to_byte; by rewrite Z.mod_small by lia|].
  assert (∀ d m, 0 < d → c < d * m → 0 ≤ c / d < m) as Hdiv.
  { intros d m Hd Hm. split; [apply Z.div_pos; lia|apply Z.div_lt_upper_bound; lia]. }
  destruct (Z.ltb_spec c 2048); [by rewrite (lead_byte 6 5) by (specialize (Hdiv 64 32); lia)|].
  destruct (Z.ltb_spec c 65536); [by rewrite (lead_byte 14 4) by (specialize (Hdiv 4096 16); lia)|].
  destruct (Z.ltb_spec c 1114112); [by rewrite (lead_byte 30 3) by (specialize (Hdiv 262144 8); lia)|].
  assert (c / 262144 = 16383) as -> by (symmetry; apply (Z.div_unique_pos _ _ _ (c - 262144 * 16383)); destruct Hc; lia).
  done.
Qed.

Lemma surrogates_spec high low :
  0xD800 ≤ high ≤ 0xDBFF → 0xDC00 ≤ low ≤ 0xDFFF →
  0x10000 + Z.lor (Z.shiftl (high - 0xD800) 10) (low - 0xDC00) = surrogates high low ∧ code_range (surrogates high low).
Proof. intros Hh Hl. rewrite lor_low by lia. unfold surrogates, code_range. lia. Qed.

Lemma hex_digits_range s : ∀ acc, 0 ≤ acc → 0 ≤ hex_digits acc s < (acc + 1) * 16 ^ Z.of_nat (length s).
Proof.
  induction s as [|c s IH]; intros acc Ha; cbn [hex_digits length]; [lia|].
  rewrite Nat2Z.inj_succ, Z.pow_succ_r by lia. pose proof (Z.pow_pos_nonneg 16 (Z.of_nat (length s)) ltac:(done) ltac:(lia)).
  destruct (hex_value c) as [v|] eqn:E; [|nia].
  assert (0 ≤ v < 16) by (unfold hex_value, isdigit in E; repeat case_match; simplify_eq; rewrite ?andb_true_iff, ?Z.leb_le in *; lia).
  specialize (IH (16 * acc + v) ltac:(lia)). nia.
Qed.

Lemma hex_number_range s n : (length s ≤ n)%nat → 0 ≤ hex_digits 0 (skip_0x s) < 16 ^ Z.of_nat n.
Proof.
  intros Hl. assert (length (skip_0x s) ≤ n)%nat.
  { unfold skip_0x. repeat case_match; rewrite ?length_drop; simplify_list_eq; lia. }
  pose proof (hex_digits_range (skip_0x s) 0 ltac:(done)). split; [lia|].
  eapply Z.lt_le_trans; [apply H0|]. rewrite Z.mul_1_l. apply Z.pow_le_mono_r; lia.
Qed.

Lemma skip_isspace_length s : (length (skip_isspace s) ≤ length s)%nat.
Proof. induction s as [|c s IH]; cbn [skip_isspace length]; [lia|]. destruct (_ || _); simpl; lia. Qed.

Lemma strtol16_range s : (length s ≤ 4)%nat → code_range (strtol16 s).
Proof.
  intros Hl. unfold strtol16, code_range, wrap32. pose proof (skip_isspace_length s) as Hs.
  destruct (skip_isspace s) as [|c s']; [left; vm_compute; split; congruence|]. simpl in Hs.
  pose proof (hex_number_range s' 3 ltac:(lia)). pose proof (hex_number_range (c :: s') 4 ltac:(simpl; lia)).
  destruct (c =? 45).
  - destruct (decide (hex_digits 0 (skip_0x s') = 0)) as [->|]; [by left|right].
    rewrite <- (Z.mod_unique_pos (- hex_digits 0 (skip_0x s')) (2 ^ 32) (-1) (2 ^ 32 - hex_digits 0 (skip_0x s'))); lia.
  - left. destruct (c =? 43); rewrite Z.mod_small; lia.
Qed.

(** An escape: its bytes and the cursor on its last character. *)
Definition escape_done (e : Z) (s : list Z) (w : jworld) (r : option (list Z)) (w' : jworld) : Prop :=
  w' = with_pos w (pos w') ∧
  match ref_escape e s with
  | None => r = None ∧ at_rest w' (e :: s)
  | Some (bs, rr) => r = Some bs ∧ at_rest (with_pos w' (pos w' + 1)) rr ∧
      (0 < length bs)%nat ∧ (length bs + length rr ≤ length s + 1)%nat
  end.

Lemma wp_unicode w s : at_rest w (117 :: s) → wp (parse_unicode str) (escape_done 117 s w) w.
Proof.
  intros Hw. unfold parse_unicode, escape_done. change (ref_escape 117 s) with (ref_unicode s).
  assert (∀ r, ref_unicode s = None → r = None →
    w = with_pos w (pos w) ∧ match ref_unicode s with
      | Some (bs, rr) => r = Some bs ∧ at_rest (with_pos w (pos w + 1)) rr ∧
          (0 < length bs)%nat ∧ (length bs + length rr ≤ length s + 1)%nat
      | None => r = None ∧ at_rest w (117 :: s) end) as Hnone.
  { intros r -> ->. split; [by rewrite with_pos_pos|done]. }
  pose proof (at_rest_lookup _ _ 5 Hw) as L5. pose proof (at_rest_lookup _ _ 6 Hw) as L6.
  pose proof (at_rest_hex4 _ _ 1 Hw) as H1. pose proof (at_rest_hex4 _ _ 7 Hw) as H7.
  change (Z.of_nat 5) with 5 in L5. change (Z.of_nat 6) with 6 in L6.
  change (Z.of_nat 1) with 1 in H1. change (Z.of_nat 7) with 7 in H7. simpl in L5, L6, H1, H7. rewrite drop_0 in H1.
  assert (∀ k, (k ≤ length s)%nat →
    at_rest (with_pos (with_pos w (pos w + Z.of_nat k)) (pos w + Z.of_nat k + 1)) (drop k s)) as Hmv.
  { intros k Hk. pose proof (at_rest_drop _ _ (S k) Hw ltac:(simpl; lia)) as H. simpl in H.
    replace (pos w + Z.of_nat k + 1) with (pos w + Z.of_nat (S k)) by lia. done. }
  destruct Hw as (Hp & Hl & Hd). simpl in Hl.
  wp_step. apply wp_get_pos. unfold ref_unicode in *.
  destruct (Z.leb_spec len (pos w + 4)); destruct (Nat.ltb_spec (length s) 4); try lia; [wp_steps; by apply Hnone|].
  rewrite H1. set (cp := strtol16 (take 4 s)) in *.
  destruct ((55296 <=? cp) && (cp <=? 56319)) eqn:Ecp.
  - rewrite L5, L6, H7.
    assert ((pos w + 10 <? len) = (10 <=? length s)%nat) as ->.
    { destruct (Z.ltb_spec (pos w + 10) len), (Nat.leb_spec 10 (length s)); done || lia. }
    destruct ((10 <=? length s)%nat && bool_decide (s !! 4%nat = Some 92) && bool_decide (s !! 5%nat = Some 117)) eqn:E;
      [|wp_steps; by apply Hnone].
    apply andb_true_iff in E as [[E%Nat.leb_le _]%andb_true_iff _].
    set (low := strtol16 (take 4 (drop 6 s))) in *.
    destruct ((56320 <=? low) && (low <=? 57343)) eqn:El; [|wp_steps; by apply Hnone].
    rewrite andb_true_iff, !Z.leb_le in Ecp, El. destruct (surrogates_spec cp low Ecp El) as [-> Hrange].
    rewrite utf8_encode_spec by done.
    wp_step. apply wp_set_pos. wp_steps. simpl. pose proof (utf8_length (surrogates cp low)).
    split_and!; [done|done|by apply (Hmv 10%nat)|lia|rewrite length_drop; lia].
  - destruct ((56320 <=? cp) && (cp <=? 57343)); [wp_steps; by apply Hnone|].
    rewrite utf8_encode_spec by (apply strtol16_range; rewrite length_take; lia).
    wp_step. apply wp_set_pos. wp_steps. simpl. pose proof (utf8_length cp).
    split_and!; [done|done|by apply (Hmv 4%nat)|lia|rewrite length_drop; lia].
Qed.

Lemma wp_escape w e s : at_rest w (e :: s) → wp (parse_escape str e) (escape_done e s w) w.
Proof.
  intros Hw. pose proof (at_rest_next _ _ _ Hw) as Hn. unfold parse_escape.
  assert (∀ c, ref_escape e s = Some ([c], s) → escape_done e s w (Some [c]) w) as Hone.
  { intros c E. split; [by rewrite with_pos_pos|]. rewrite E. split_and!; [done|done|simpl; lia|simpl; lia]. }
  unfold ref_escape in Hone.
  destruct (Z.eqb_spec e 98) as [->|]; [wp_steps; by apply Hone|].
  destruct (Z.eqb_spec e 102) as [->|]; [wp_steps; by apply Hone|].
  destruct (Z.eqb_spec e 110) as [->|]; [wp_steps; by apply Hone|].
  destruct (Z.eqb_spec e 114) as [->|]; [wp_steps; by apply Hone|].
  destruct (Z.eqb_spec e 116) as [->|]; [wp_steps; by apply Hone|].
  destruct (Z.eqb_spec e 117) as [->|]; [by apply wp_unicode|]. wp_steps. by apply Hone.
Qed.

Lemma block_size_ge n : n ≤ block_size n.
Proof.
  unfold block_size. pose proof (Z_div_mod_eq_full (n + 15) 16). pose proof (Z.mod_pos_bound (n + 15) 16). lia.
Qed.

Lemma in_chunk_le h q n m : in_chunk h q n = true → m ≤ n → in_chunk h q m = true.
Proof.
  unfold in_chunk. rewrite !existsb_exists. intros (e & He & [? ?]%andb_true_iff) Hm. exists e. split; [done|].
  apply andb_true_iff. rewrite !Z.leb_le in *. lia.
Qed.

(** The buffer is a live block that holds no finished string, with room for a
    terminating NUL. *)
Record buf_ok (w : jworld) (live : list (Z * Z)) (b : str_buf) : Prop := {
  bo_live : (b_ptr b, b_cap b) ∈ live;
  bo_fresh : b_ptr b ∉ dom (strs w);
  bo_room : b_len b + 1 ≤ b_cap b
}.

Lemma buf_ok_moved w w' live b : strs w' = strs w → buf_ok w live b → buf_ok w' live b.
Proof. intros E []. split; [done|by rewrite E|done]. Qed.

(** A larger block for the buffer, or none when memory is short. *)
Definition grown (w : jworld) (bs : list Z) (cap : Z) (ob : option str_buf) (w' : jworld) : Prop :=
  moved w w' ∧ pos w' = pos w ∧ ∃ live', jok w' live' ∧
  match ob with
  | None => lacking max_request w'
  | Some b => b_bytes b = bs ∧ b_cap b = cap ∧ buf_ok w' live' b
  end.

(** Growing a buffer copies half of the new size; that faults only behind the
    end of the old block. *)
Lemma wp_grow_buf (F : fault → Prop) w live b cap :
  jok w live → buf_ok w live b → 0 < cap ≤ max_request → b_len b ≤ cap / 2 → b_len b + 1 ≤ cap →
  (block_size (b_cap b) < cap / 2 → F BadAccess) →
  wp_or F (grow_buf b cap) (grown w (b_bytes b) cap) w.
Proof.
  intros Hw [Hb _ Hr] Hcap Hhalf Hroom HF. unfold grow_buf, jrealloc. do 2 apply wp_or_bind. apply wp_or_of.
  eapply (wp_jalloc max_request); [done|lia|unfold max_request; lia| |].
  - intros w' E Hok Hk Hl. rewrite Z.eqb_refl. apply wp_or_ret. rewrite Z.eqb_refl. apply wp_or_ret.
    split; [split; [by rewrite E|done]|]. split; [by rewrite E|]. by exists live.
  - intros q w' [E Hok Hk Hq _ Hqs]. rewrite (proj2 (Z.eqb_neq _ _) Hq).
    destruct (in_chunk (heap (jarena w')) (b_ptr b) (cap / 2)) eqn:Ec; unfold wp_or at 1; rewrite Ec.
    + rewrite (proj2 (Z.eqb_neq _ _) Hq), (proj2 (Z.ltb_ge _ _)) by done. apply wp_or_ret.
      split; [split; [by rewrite E|done]|]. split; [by rewrite E|]. exists ((q, cap) :: live). split; [done|].
      simpl. split_and!; [done|done|]. split; simpl; [by left|by rewrite E|done].
    + apply HF. destruct (decide (block_size (b_cap b) < cap / 2)) as [|Hge]; [done|]. exfalso.
      destruct (rep_block _ _ (b_ptr b) (b_cap b) (jo_rep _ _ Hok)) as (_ & _ & Hin); [by right|].
      rewrite (in_chunk_le _ _ _ (cap / 2) Hin) in Ec; [done|lia].
Qed.

Lemma wp_write_bytes (F : fault → Prop) (w : jworld) b bs (Q : str_buf → jworld → Prop) :
  b_len b + Z.of_nat (length bs) ≤ b_cap b →
  Q (StrBuf (b_ptr b) (b_cap b) (b_bytes b ++ bs)) w → wp_or F (write_bytes b bs) Q w.
Proof. intros Hle HQ. unfold write_bytes. by rewrite (proj2 (Z.ltb_ge _ _)) by lia. Qed.

Lemma wp_append_escaped (F : fault → Prop) w live b bs :
  jok w live → buf_ok w live b → b_cap b ≤ max_request →
  (length (b_bytes b) + length bs ≤ length str)%nat →
  let need := Z.of_nat (length (b_bytes b) + length bs) + 1 in
  (block_size (b_cap b) < need → F BadAccess) →
  wp_or F (append_escaped b bs)
    (grown w (b_bytes b ++ bs) (if b_cap b <? need then need * 2 else b_cap b)) w.
Proof.
  intros Hw Hb Hcap Hl need HF. unfold append_escaped, b_len.
  assert (wrap64 (Z.of_nat (length (b_bytes b)) + Z.of_nat (length bs) + 1) = need) as ->
    by (unfold need; rewrite wrap64_small; lia).
  unfold SIZE_MAX. rewrite (proj2 (Z.ltb_ge (2 ^ 64 - 1 - _ - 1) _)) by lia.
  replace (Z.of_nat (length (b_bytes b)) + Z.of_nat (length bs) + 1) with need by (unfold need; lia).
  rewrite (proj2 (Z.ltb_ge ((2 ^ 64 - 1) / 2) need)) by (unfold need; change ((2 ^ 64 - 1) / 2) with (2 ^ 63 - 1); lia).
  apply wp_or_bind. destruct (Z.ltb_spec (b_cap b) need) as [Hlt|Hge].
  - eapply wp_or_mono; [eapply wp_grow_buf; [done|done|..]|].
    + unfold need, max_request. lia.
    + rewrite Z.div_mul by lia. unfold b_len, need. lia.
    + unfold b_len, need. lia.
    + rewrite Z.div_mul by lia. done.
    + intros [b'|] w' (Hm & Hp & live' & Hok & H).
      * destruct H as (E1 & E2 & Hb'). apply wp_or_bind. apply wp_write_bytes.
        { unfold b_len. rewrite E1, E2. unfold need. lia. }
        apply wp_or_ret. split; [done|]. split; [done|]. exists live'. split; [done|]. simpl. rewrite E1.
        split_and!; [done|done|]. destruct Hb'. split; simpl; [done|done|]. unfold b_len. simpl.
        rewrite ?E1, ?E2, length_app. unfold need. lia.
      * apply wp_or_ret. split; [done|]. split; [done|]. by exists live'.
  - apply wp_or_ret. apply wp_or_bind. apply wp_write_bytes; [unfold b_len, need in *; lia|].
    apply wp_or_ret. split; [apply moved_refl|]. split; [done|]. exists live. split; [done|]. simpl.
    split_and!; [done|done|]. destruct Hb. split; simpl; [done|done|]. unfold b_len. simpl. rewrite length_app.
    unfold need in *. lia.
Qed.

Lemma wp_append_plain (F : fault → Prop) w live b c :
  jok w live → buf_ok w live b → b_cap b ≤ max_request →
  (length (b_bytes b) + 1 ≤ length str)%nat →
  wp_or F (append_plain b c)
    (grown w (b_bytes b ++ [c])
       (if b_cap b <? Z.of_nat (length (b_bytes b)) + 2 then b_cap b * 2 else b_cap b)) w.
Proof.
  intros Hw Hb Hcap Hl. unfold append_plain. destruct Hb as [Hb1 Hbf Hb2]. unfold b_len in *.
  rewrite wrap64_small by lia. apply wp_or_bind.
  destruct (Z.ltb_spec (b_cap b) (Z.of_nat (length (b_bytes b)) + 2)) as [Hlt|Hge].
  - unfold SIZE_MAX. rewrite (proj2 (Z.ltb_ge _ _)) by (change ((2 ^ 64 - 1) / 2) with (2 ^ 63 - 1); lia).
    eapply wp_or_mono; [eapply wp_grow_buf; [done|done|..]|].
    + unfold max_request. lia.
    + rewrite Z.div_mul by lia. unfold b_len. lia.
    + unfold b_len. lia.
    + rewrite Z.div_mul by lia. pose proof (block_size_ge (b_cap b)). lia.
    + intros [b'|] w' (Hm & Hp & live' & Hok & H).
      * destruct H as (E1 & E2 & Hb'). apply wp_or_bind. apply wp_write_bytes.
        { unfold b_len. rewrite E1, E2. simpl. lia. }
        apply wp_or_ret. split; [done|]. split; [done|]. exists live'. split; [done|]. simpl. rewrite E1.
        split_and!; [done|done|]. destruct Hb'. split; simpl; [done|done|]. unfold b_len. simpl.
        rewrite ?E1, ?E2, length_app. simpl. lia.
      * apply wp_or_ret. split; [done|]. split; [done|]. by exists live'.
  - apply wp_or_ret. apply wp_or_bind. apply wp_write_bytes; [unfold b_len; simpl; lia|].
    apply wp_or_ret. split; [apply moved_refl|]. split; [done|]. exists live. split; [done|]. simpl.
    split_and!; [done|done|]. split; simpl; [done|done|]. unfold b_len. simpl. rewrite length_app. simpl. lia.
Qed.

(** The end of the loop over the characters, from the buffer [cap], [acc]:
    the cursor on the closing quote or at the end, or behind an error. *)
Definition chars_done (fuel : nat) (cap : Z) (acc s : list Z) (w : jworld)
    (ob : option str_buf) (w' : jworld) : Prop :=
  moved w w' ∧ ∃ live' s', jok w' live' ∧ at_rest w' s' ∧ (length s' ≤ length s)%nat ∧
  match ob with
  | None => lacking max_request w' ∨ (ref_chars fuel cap acc s).1 = (None, s')
  | Some b => buf_ok w' live' b ∧
      match s' with
      | [] => (ref_chars fuel cap acc s).1 = (None, [])
      | c :: s'' => c = 34 ∧ (ref_chars fuel cap acc s).1 = (Some (b_bytes b), s'')
      end
  end.

Lemma chars_done_step fuel cap acc s cap1 acc1 s1 w w1 ob w' :
  moved w w1 → (length s1 ≤ length s)%nat →
  (ref_chars (S fuel) cap acc s).1 = (ref_chars fuel cap1 acc1 s1).1 →
  chars_done fuel cap1 acc1 s1 w1 ob w' → chars_done (S fuel) cap acc s w ob w'.
Proof.
  intros Hm Hl E (Hm' & live' & s' & Hok & Hs & Hl' & H). split; [by eapply moved_trans|].
  exists live', s'. split_and!; [done|done|lia|]. by rewrite E.
Qed.

Lemma wp_chars (F : fault → Prop) fuel : ∀ s w live b,
  at_rest w s → jok w live → buf_ok w live b → b_cap b ≤ max_request →
  (length (b_bytes b) + length s ≤ length str)%nat → (length s < fuel)%nat →
  ((ref_chars fuel (b_cap b) (b_bytes b) s).2 = true → F BadAccess) →
  wp_or F (loop fuel (string_body str) b) (chars_done fuel (b_cap b) (b_bytes b) s w) w.
Proof.
  induction fuel as [|fuel IH]; intros s w live b Hw Hok Hb Hcap Hl Hf HF; [lia|].
  cbn [loop]. apply wp_or_bind. unfold string_body at 1. apply wp_or_bind, wp_or_of, wp_get_pos.
  rewrite (at_rest_char _ _ Hw). destruct s as [|c s]; cbn [head].
  { do 2 apply wp_or_ret. split; [apply moved_refl|]. exists live, []. by split_and!. }
  cbn [ref_chars] in HF. destruct (Z.eqb_spec c 34) as [->|Hc34].
  { do 2 apply wp_or_ret. split; [apply moved_refl|]. exists live, (34 :: s). by split_and!. }
  pose proof (at_rest_next _ _ _ Hw) as Hw1. simpl in Hl, Hf.
  destruct (Z.eqb_spec c 92) as [->|Hc92].
  - apply wp_or_bind, wp_or_of, wp_set_pos.
    pose proof (at_rest_char _ _ Hw1) as Hch. simpl in Hch. rewrite Hch.
    destruct s as [|e s]; cbn [head].
    { do 2 apply wp_or_ret. split; [apply moved_pos|]. exists live, [].
      split_and!; [by eapply jok_moved|done|simpl; lia|by right]. }
    apply wp_or_bind, wp_or_of. eapply wp_mono; [by apply wp_escape|].
    intros obs w2 [E2 Hesc]. change (w2 = with_pos w (pos w2)) in E2. destruct (ref_escape e s) as [[bs rr]|] eqn:Er.
    2: { destruct Hesc as [-> Hw2]. do 2 apply wp_or_ret. split; [by apply moved_at|].
         exists live, (e :: s). split_and!; [by eapply jok_moved|done|simpl; lia|].
         right. cbn [ref_chars]. by rewrite (proj2 (Z.eqb_neq _ _) Hc34), Er. }
    destruct Hesc as (-> & Hw2 & Hbs & Hbl). simpl in Hl, Hf.
    assert (jok w2 live) as Hok2 by (by eapply jok_moved).
    set (need := Z.of_nat (length (b_bytes b) + length bs) + 1) in *.
    apply wp_or_bind. eapply wp_or_mono; [eapply (wp_append_escaped F); [done| |done|lia|]|].
    { eapply buf_ok_moved; [|done]. by rewrite E2. }
    { intros Hov. apply HF. fold need in Hov. destruct (ref_chars fuel _ _ rr) as [[? ?] ?]. simpl.
      by rewrite (proj2 (Z.ltb_lt _ _) Hov). }
    fold need. intros ob w3 (Hm3 & Hp3 & live3 & Hok3 & H3).
    assert (moved w w3) as Hm by (eapply moved_trans; [by apply moved_at|done]).
    destruct ob as [b3|].
    + destruct H3 as (Eb & Ec & Hb3). apply wp_or_bind, wp_or_of, wp_get_pos. apply wp_or_bind, wp_or_of, wp_set_pos.
      apply wp_or_ret.
      assert (at_rest (with_pos w3 (pos w3 + 1)) rr) as Hw3 by (by rewrite Hp3).
      eapply wp_or_mono; [apply (IH rr _ live3)|]; [done|by eapply jok_moved|by apply (buf_ok_moved w3)|..].
      * rewrite Ec. unfold max_request in *. destruct (b_cap b <? need); unfold need; lia.
      * rewrite Eb, length_app. lia.
      * lia.
      * rewrite Ec, Eb. intros Hov. apply HF. destruct (ref_chars fuel _ _ rr) as [[? ?] ?]. simpl in *.
        by rewrite Hov, orb_true_r.
      * intros ob w' H.
        eapply (chars_done_step fuel _ _ _ (b_cap b3) (b_bytes b ++ bs) rr); [by eapply moved_trans, moved_pos| | |].
        -- simpl. lia.
        -- cbn [ref_chars]. rewrite (proj2 (Z.eqb_neq _ _) Hc34), Er. fold need.
           change (92 =? 92) with true. cbv iota. rewrite <- Ec. destruct (ref_chars fuel (b_cap b3) (b_bytes b ++ bs) rr) as [[? ?] ?]. done.
        -- rewrite Eb in H. exact H.
    + do 2 apply wp_or_ret. split; [done|]. exists live3, (drop (length (e :: s) - S (length rr)) (e :: s)).
      split_and!; [done| |rewrite length_drop; simpl; lia|by left].
      assert (at_rest w3 (drop (length (e :: s) - S (length rr)) (e :: s))) as H0; [|exact H0].
      destruct Hw2 as (P1 & P2 & P3). destruct Hw1 as (Q1 & Q2 & Q3). simpl in P1, P2, P3, Q1, Q2, Q3.
      split_and!; [rewrite Hp3; rewrite E2; simpl|rewrite length_drop, Hp3; simpl in *; lia|].
      * lia.
      * rewrite <- Q3, drop_drop, Hp3. f_equal. rewrite Q3. simpl. lia.
  - apply wp_or_bind. eapply wp_or_mono; [eapply (wp_append_plain F); [done|done|done|lia]|].
    intros ob w3 (Hm3 & Hp3 & live3 & Hok3 & H3). destruct ob as [b3|].
    + destruct H3 as (Eb & Ec & Hb3). apply wp_or_bind, wp_or_of, wp_set_pos. apply wp_or_ret.
      assert (at_rest (with_pos w3 (pos w + 1)) s) as Hw3 by done.
      eapply wp_or_mono; [apply (IH s _ live3)|]; [done|by eapply jok_moved|by apply (buf_ok_moved w3)|..].
      * rewrite Ec. unfold max_request in *. destruct (Z.ltb_spec (b_cap b) (Z.of_nat (length (b_bytes b)) + 2)); lia.
      * rewrite Eb, length_app. simpl. lia.
      * lia.
      * rewrite Ec, Eb. done.
      * intros ob w' H.
        eapply (chars_done_step fuel _ _ _ (b_cap b3) (b_bytes b ++ [c]) s); [by eapply moved_trans, moved_pos| | |].
        -- simpl. lia.
        -- cbn [ref_chars]. by rewrite (proj2 (Z.eqb_neq _ _) Hc34), (proj2 (Z.eqb_neq _ _) Hc92), <- Ec.
        -- rewrite Eb in H. exact H.
    + do 2 apply wp_or_ret. split; [done|]. exists live3, (c :: s).
      split_and!; [done|unfold at_rest; by rewrite Hp3|done|by left].
Qed.

(** ** Results *)

(** The only fault: [jrealloc] copies bytes behind the block of a string. *)
Definition F (f : fault) : Prop := f = BadAccess ∧ json_overreads str = true.

(** What every function of the parser keeps. *)
Record advanced (w w' : jworld) : Prop := {
  ad_grows : grows w w';
  ad_depth : depth w' = depth w;
  ad_ok : ∃ live, jok w' live
}.

Lemma advanced_trans w1 w2 w3 : advanced w1 w2 → advanced w2 w3 → advanced w1 w3.
Proof. intros [] []. split; [by eapply grows_trans|congruence|done]. Qed.

Lemma moved_grows w w' : moved w w' → grows w w' ∧ nodes w' = nodes w ∧ strs w' = strs w ∧
  depth w' = depth w ∧ depth_exceeded w' = depth_exceeded w.
Proof. intros [E K]. rewrite E in *. split; [split; simpl; done|done]. Qed.

(** The string [o] that was read from the text behind a quote. *)
Record string_done (s : list Z) (w : jworld) (r : Z) (w' : jworld) : Prop := {
  sd_adv : advanced w w';
  sd_nodes : nodes w' = nodes w;
  sd_exc : depth_exceeded w' = depth_exceeded w;
  sd_res : ∃ o s', at_rest w' s' ∧ (length s' ≤ length s)%nat ∧
    match o with
    | None => r = NULL
    | Some x => r ≠ NULL ∧ strs w' !! r = Some x
    end ∧ (lacking max_request w' ∨ ref_string s = (o, s'))
}.

Lemma overread_here w s : at_rest w (34 :: s) → string_overreads s = true → F BadAccess.
Proof.
  intros (_ & _ & Hd) Ho. split; [done|]. apply (json_overreads_drop (Z.to_nat (pos w))). rewrite Hd.
  simpl. by rewrite Ho.
Qed.

Lemma wp_parse_string w live s :
  at_rest w (34 :: s) → jok w live → wp_or F (json_parse_string str) (string_done s w) w.
Proof.
  intros Hw Hok. unfold json_parse_string. apply wp_or_bind, wp_or_of. eapply wp_at_char; [done|]. simpl.
  apply wp_or_bind, wp_or_of, wp_get_pos. apply wp_or_bind, wp_or_of, wp_set_pos.
  pose proof (at_rest_next _ _ _ Hw) as Hw1. assert (jok (with_pos w (pos w + 1)) live) as Hok1 by (by eapply jok_moved).
  apply wp_or_bind, wp_or_of. eapply (wp_jalloc max_request); [done|unfold max_request; lia|unfold max_request; lia| |].
  { intros w' E Hok' Hk Hl. rewrite Z.eqb_refl. apply wp_or_ret.
    split; [split; [split; rewrite E; done|by rewrite E|by exists live]|by rewrite E|by rewrite E|].
    exists None, s. split_and!; [rewrite E; exact Hw1|lia|done|by left]. }
  intros q w' [E Hok' Hk Hq Hqn Hqs]. rewrite (proj2 (Z.eqb_neq _ _) Hq). apply wp_or_bind.
  assert (at_rest w' s) as Hw' by (rewrite E; exact Hw1).
  pose proof (at_rest_length _ _ Hw) as Hls. simpl in Hls.
  assert (∀ cap acc, ref_chars (text_fuel str) cap acc s = ref_chars (S (length s)) cap acc s) as Hrf.
  { intros. apply ref_chars_fuel; unfold text_fuel; lia. }
  eapply wp_or_mono; [eapply (wp_chars F (text_fuel str) s); [done|done| |..]|]; cbn [b_cap b_bytes b_ptr].
  - split; simpl; [by left|by rewrite E|]. unfold b_len. simpl. lia.
  - unfold max_request. lia.
  - simpl. lia.
  - unfold text_fuel. lia.
  - rewrite Hrf. by eapply overread_here.
  - assert (moved w w') as Hm by (split; [rewrite E; done|done]).
    intros ob w2 (Hm2 & live2 & s2 & Hok2 & Hw2 & Hl2 & H). rewrite Hrf in H. fold (ref_string s) in H.
    pose proof (moved_trans _ _ _ Hm Hm2) as Hmt.
    pose proof (moved_grows _ _ Hmt) as (Hg & Hn & Hs & Hd & Hx).
    destruct ob as [b|].
    2: { apply wp_or_ret. split; [split; [done|done|by exists live2]|done|done|]. by exists None, s2. }
    destruct H as [Hb H]. apply wp_or_bind, wp_or_of, wp_get_pos. destruct s2 as [|c s2].
    { rewrite (proj2 (Z.leb_le _ _)) by (destruct Hw2 as (? & ? & _); simpl in *; lia). apply wp_or_ret.
      split; [split; [done|done|by exists live2]|done|done|]. exists None, []. split_and!; [done|done|done|by right]. }
    destruct H as [-> H]. rewrite (proj2 (Z.leb_gt _ _)) by (destruct Hw2 as (? & ? & _); simpl in *; lia).
    apply wp_or_bind, wp_or_of, wp_set_pos. apply wp_or_bind, wp_write_bytes.
    { destruct Hb. simpl. done. }
    cbn [b_ptr b_bytes]. destruct (rep_block _ _ _ _ (jo_rep _ _ Hok2) (bo_live _ _ _ Hb)) as (Hpos & _ & _).
    apply wp_or_bind, wp_or_of. unfold wp, store_str. apply wp_or_ret. simpl in Hl2.
    destruct Hb as [Hb1 Hb2 _]. rewrite Hs in Hb2. split; simpl; [|done|done|].
    + destruct Hg as [G1 G2 G3]. split; simpl; [|done|].
      * split; simpl; [done|done|]. rewrite Hs. apply insert_subseteq. by apply not_elem_of_dom.
      * exists live2. destruct Hok2 as [R1 R2 R3]. split; simpl; [done|done|].
        intros x. rewrite dom_insert, elem_of_union, elem_of_singleton. intros [->|Hx']; [by eexists|by apply R3].
    + exists (Some (b_bytes b)), s2. split_and!; [by eapply at_rest_next|lia|unfold NULL; lia| |by right].
      by rewrite lookup_insert_eq.
Qed.
End text.
End JsonParse.
