(* ===== verification/JsonBuild.v ===== *)
(** * Containers under construction

    The elements of an array and the members of an object are appended in the
    same way.  [ItemLaws] says what an item must survive: its own [next] link
    is set, and nodes that are not its own change. *)
From S2P Require Import Prelude World Arena Double Json JsonRef JsonHeap.

Module JsonBuild.
Import Double Json JsonRef JsonHeap.

Abbreviation nheap := (gmap Z json_node).
Abbreviation sheap := (gmap Z (list Z)).

Class ItemLaws {A} (item : nheap → sheap → gset Z → Z → A → Prop) := {
  item_node : ∀ h st Y p x, item h st Y p x → p ≠ NULL ∧ ∃ n, h !! p = Some n;
  item_frame : ∀ h h' st st' Y Y' p x n q,
    item h st Y p x → h !! p = Some n → h' !! p = Some (set_next n q) →
    (∀ a, a ∈ Y → h' !! a = h !! a) → st ⊆ st' → Y ⊆ Y' → item h' st' Y' p x
}.

Definition elem_item (h : nheap) (st : sheap) (Y : gset Z) (p : Z) (t : json) : Prop := jval h st Y t p.

Definition member_item (h : nheap) (st : sheap) (Y : gset Z) (p : Z) (m : list Z * json) : Prop :=
  p ≠ NULL ∧ ∃ n, h !! p = Some n ∧ string_at st (key n) m.1 ∧
    child n ∈ Y ∧ jval h st Y m.2 (child n) ∧ unlinked h m.2 (child n).

Lemma jval_node h st X t p : jval h st X t p → p ≠ NULL ∧ ∃ n, h !! p = Some n.
Proof. destruct t; intros (? & n & ? & _); eauto. Qed.

#[export] Instance elem_item_laws : ItemLaws elem_item.
Proof.
  split; [intros h st Y p x; apply jval_node|].
  intros h h' st st' Y Y' p x n q Hv Hn Hn' Hfr Hst HY. eapply jval_frame; [exact Hv|done|done|done|done|done|done].
Qed.

#[export] Instance member_item_laws : ItemLaws member_item.
Proof.
  split; [intros h st Y p x (? & n & ? & _); eauto|].
  intros h h' st st' Y Y' p x n q (Hp & n0 & Hn0 & (Hk & b & Hb & Eb) & Hc & Hv & Hu) Hn Hn' Hfr Hst HY.
  assert (n0 = n) as -> by congruence. split; [done|]. exists (set_next n q). split; [done|]. simpl.
  destruct (jval_node _ _ _ _ _ Hv) as [_ [vn Hvn]].
  split; [split; [done|]; exists b; split; [by eapply lookup_weaken|done]|]. split; [by apply HY|]. split.
  - eapply jval_frame; [exact Hv|done|by rewrite Hfr|done|done|done|done].
  - intros He. destruct (Hu He) as (vn' & ? & ?). exists vn'. by rewrite Hfr.
Qed.

Lemma set_next_id n : set_next n (next n) = n.
Proof. by destruct n. Qed.

(** ** Chains of nodes *)

Definition first (ps : list Z) : Z := match ps with p :: _ => p | [] => NULL end.

Fixpoint chain (h : nheap) (ps : list Z) : Prop :=
  match ps with
  | [] => True
  | p :: ps => (∃ n, h !! p = Some n ∧ next n = first ps) ∧ chain h ps
  end.

Lemma chain_frame h h' ps : chain h ps → (∀ p, p ∈ ps → h' !! p = h !! p) → chain h' ps.
Proof.
  induction ps as [|p ps IH]; simpl; [done|]. intros [(n & Hn & E) Hc] Hfr.
  split; [exists n; rewrite Hfr; [done|by left]|]. apply IH; [done|]. intros q Hq. apply Hfr. by right.
Qed.

Lemma jchain_snoc h ps tail tn p n :
  chain h (ps ++ [tail]) → NoDup (ps ++ [tail]) → p ∉ ps ++ [tail] →
  h !! tail = Some tn → h !! p = Some n → next n = NULL →
  chain (<[tail := set_next tn p]> h) ((ps ++ [tail]) ++ [p]).
Proof.
  intros Hc Hnd Hp Ht Hn En. induction ps as [|q ps IH].
  - simpl in *. split; [exists (set_next tn p); by rewrite lookup_insert_eq|]. split; [|done].
    exists n. rewrite lookup_insert_ne by set_solver. done.
  - simpl in *. destruct Hc as [(m & Hm & E) Hc]. apply NoDup_cons in Hnd as [Hq Hnd].
    split; [|apply IH; [done|done|set_solver]]. exists m. rewrite lookup_insert_ne by set_solver.
    split; [done|]. rewrite E. by destruct ps.
Qed.

(** ** A container with the items so far *)

Section linked.
Context {A : Type} {item : nheap → sheap → gset Z → Z → A → Prop} `{!ItemLaws item}.

Record linked (h : nheap) (st : sheap) (Y : gset Z) (root : Z) (ty : json_type)
    (ps : list Z) (xs : list A) : Prop := {
  lk_items : Forall2 (item h st Y) ps xs;
  lk_chain : chain h ps;
  lk_nodup : NoDup (root :: ps);
  lk_apart : ∀ a, a ∈ root :: ps → a ∉ Y;
  lk_root : ∃ rn, h !! root = Some rn ∧ type rn = ty ∧ child rn = first ps ∧ next rn = first ps;
  lk_dom : ∀ a, a ∈ Y → a ∈ dom h
}.

Lemma lk_ps h st Y root ty ps xs a : linked h st Y root ty ps xs → a ∈ root :: ps → a ∈ dom h.
Proof.
  intros [Hi _ _ _ (rn & Hr & _) _] [->|Ha]%elem_of_cons; [apply elem_of_dom; eauto|].
  apply list_elem_of_lookup in Ha as [i Ha]. destruct (Forall2_lookup_l _ _ _ _ _ Hi Ha) as (x & _ & Hx).
  apply item_node in Hx as [_ [n Hn]]. apply elem_of_dom. eauto.
Qed.

Lemma items_frame h h' st st' Y Y' ps (xs : list A) :
  Forall2 (item h st Y) ps xs →
  (∀ p n, p ∈ ps → h !! p = Some n → ∃ q, h' !! p = Some (set_next n q)) →
  (∀ a, a ∈ Y → h' !! a = h !! a) → st ⊆ st' → Y ⊆ Y' → Forall2 (item h' st' Y') ps xs.
Proof.
  intros Hi Hps HY Hst HYY. induction Hi as [|p x ps xs Hx Hi IH]; constructor.
  - destruct (item_node _ _ _ _ _ Hx) as [_ [n Hn]]. destruct (Hps p n) as [q Hq]; [by left|done|].
    by eapply item_frame.
  - apply IH. intros p' n Hp'. apply Hps. by right.
Qed.

Lemma linked_grow h h' st st' Y root ty ps xs :
  linked h st Y root ty ps xs → h ⊆ h' → st ⊆ st' → linked h' st' Y root ty ps xs.
Proof.
  intros Hl Hh Hst. assert (∀ a, a ∈ dom h → h' !! a = h !! a) as Heq.
  { intros a [n Hn]%elem_of_dom. rewrite Hn. by eapply lookup_weaken. }
  pose proof Hl as [Hi Hc Hn Ha (rn & Hr & Ht & Hch) Hd]. split.
  - eapply items_frame; [done| |by auto|done|done]. intros p n Hp Hpn. exists (next n).
    rewrite set_next_id. by eapply lookup_weaken.
  - eapply chain_frame; [done|]. intros p Hp. eapply Heq, lk_ps; [exact Hl|by right].
  - done.
  - done.
  - exists rn. split; [by eapply lookup_weaken|done].
  - intros a HY. apply elem_of_dom. destruct (proj1 (elem_of_dom _ _) (Hd a HY)) as [n Hn'].
    exists n. by eapply lookup_weaken.
Qed.

(** The heap after [link_child root tail p]. *)
Definition link_heap (h : nheap) (root : Z) (ps : list Z) (p : Z) : nheap :=
  match last ps with
  | None => alter (λ n, set_next (set_child n p) p) root h
  | Some tail => alter (λ n, set_next n p) tail h
  end.

Lemma linked_snoc h st Y Y1 root ty ps xs p x n :
  linked h st Y root ty ps xs →
  h !! p = Some n → next n = NULL → item h st Y1 p x →
  p ∉ root :: ps → p ∉ Y → p ∉ Y1 → (∀ a, a ∈ root :: ps → a ∉ Y1) → (∀ a, a ∈ Y1 → a ∈ dom h) →
  linked (link_heap h root ps p) st (Y ∪ Y1) root ty (ps ++ [p]) (xs ++ [x]).
Proof.
  intros Hl Hp En Hx Hpn HpY HpY1 HY1 HY1d. pose proof Hl as [Hi Hc Hnd Ha (rn & Hr & Ht & Hch & Hnx) Hd].
  assert (p ≠ root ∧ p ∉ ps) as [Hpr Hpps] by set_solver.
  unfold link_heap. destruct (last ps) as [tail|] eqn:El.
  - apply last_Some in El as [ps0 ->]. assert (tail ∈ dom h) as [tn Htn]%elem_of_dom.
    { eapply lk_ps; [exact Hl|]. set_solver. }
    erewrite (alter_insert_Some _ h tail) by exact Htn.
    assert (∀ a, a ≠ tail → <[tail := set_next tn p]> h !! a = h !! a) as Hne by (intros; by rewrite lookup_insert_ne).
    assert (tail ≠ root) as Htr by (apply NoDup_cons in Hnd as [? _]; set_solver).
    assert (tail ∉ Y ∧ tail ∉ Y1) as [HtY HtY1] by (split; [apply Ha|apply HY1]; set_solver).
    split.
    + apply Forall2_app; [|constructor; [|constructor]].
      * eapply items_frame; [done| |intros; apply Hne; set_solver|done|set_solver].
        intros q m Hq Hm. destruct (decide (q = tail)) as [->|Hqt].
        -- exists p. rewrite lookup_insert_eq. by simplify_eq.
        -- exists (next m). by rewrite Hne, set_next_id.
      * eapply item_frame; [exact Hx|done| |intros; apply Hne; set_solver|done|set_solver].
        rewrite Hne by set_solver. rewrite Hp. instantiate (1 := next n). by rewrite set_next_id.
    + eapply jchain_snoc; [done|by apply NoDup_cons in Hnd as [_ ?]|done|done|done|done].
    + rewrite app_comm_cons. apply NoDup_app. split; [done|]. split; [set_solver|apply NoDup_singleton].
    + intros a. rewrite app_comm_cons, elem_of_app, list_elem_of_singleton. intros [Ha'| ->].
      * specialize (Ha a Ha'). specialize (HY1 a Ha'). set_solver.
      * set_solver.
    + exists rn. rewrite Hne by done. split_and!; [done|done|rewrite Hch|rewrite Hnx]; by destruct ps0.
    + intros a Ha'. rewrite dom_insert. set_solver.
  - apply last_None in El as ->. apply Forall2_nil_inv_l in Hi as ->.
    erewrite (alter_insert_Some _ h root) by exact Hr. simpl.
    assert (∀ a, a ≠ root → <[root := set_next (set_child rn p) p]> h !! a = h !! a) as Hne by (intros; by rewrite lookup_insert_ne).
    assert (root ∉ Y1) by (apply HY1; set_solver).
    split; simpl.
    + constructor; [|constructor]. eapply item_frame; [exact Hx|done| |intros; apply Hne; set_solver|done|set_solver].
      rewrite Hne by set_solver. rewrite Hp. instantiate (1 := next n). by rewrite set_next_id.
    + split; [|done]. exists n. by rewrite Hne by set_solver.
    + apply NoDup_cons. split; [set_solver|apply NoDup_singleton].
    + intros a Ha'. assert (root ∉ Y) by (apply Ha; set_solver). set_solver.
    + exists (set_next (set_child rn p) p). by rewrite lookup_insert_eq.
    + intros a Ha'. rewrite dom_insert. set_solver.
Qed.

Lemma wp_link_child w root ps xs p st Y ty (Q : unit → jworld → Prop) :
  linked (nodes w) st Y root ty ps xs →
  Q tt (with_nodes w (link_heap (nodes w) root ps p)) →
  wp (link_child root (default NULL (last ps)) p) Q w.
Proof.
  intros Hl HQ. unfold link_child, link_heap in *. destruct (last ps) as [tail|] eqn:El; simpl.
  - assert (tail ∈ ps) as Hin by (apply last_Some in El as [? ->]; set_solver).
    apply list_elem_of_lookup in Hin as [i Hin].
    destruct (Forall2_lookup_l _ _ _ _ _ (lk_items _ _ _ _ _ _ _ Hl) Hin) as (x & _ & Hx).
    destruct (item_node _ _ _ _ _ Hx) as [Hnz [tn Htn]]. rewrite (proj2 (Z.eqb_neq _ _) Hnz).
    eapply wp_update_node; [done|]. by erewrite (alter_insert_Some _ _ tail) in HQ by exact Htn.
  - destruct (lk_root _ _ _ _ _ _ _ Hl) as (rn & Hr & _). wp_step. eapply wp_update_node; [done|].
    eapply wp_update_node; [simpl; apply lookup_insert_eq|]. simpl. rewrite insert_insert_eq.
    by erewrite (alter_insert_Some _ _ root) in HQ by exact Hr.
Qed.
End linked.

Lemma linked_elems h st Y ps ts X :
  Forall2 (elem_item h st Y) ps ts → chain h ps → Y ⊆ X → (∀ p, p ∈ ps → p ∈ X) →
  elems h st X ts (first ps).
Proof.
  intros Hi Hc HX Hps. revert Hc Hps. induction Hi as [|p t ps ts Hx Hi IH]; intros Hc Hps; [done|].
  destruct Hc as [(n & Hn & E) Hc]. simpl. split; [apply Hps; by left|]. split.
  - eapply jval_frame; [exact Hx|done|done|done|done|done|done].
  - exists n. split; [done|]. rewrite E. apply IH; [done|]. intros q Hq. apply Hps. by right.
Qed.

Lemma linked_members h st Y ps ms X :
  Forall2 (member_item h st Y) ps ms → chain h ps → Y ⊆ X → (∀ p, p ∈ ps → p ∈ X) →
  members h st X ms (first ps).
Proof.
  intros Hi. induction Hi as [|p [k v] ps ms Hx Hi IH]; intros Hc HX Hps; [done|].
  destruct Hc as [(n & Hn & E) Hc]. destruct Hx as (Hp & n0 & Hn0 & Hk & Hcy & Hv & Hu).
  assert (n0 = n) as -> by congruence. simpl. split; [apply Hps; by left|]. split; [done|]. exists n.
  destruct (jval_node _ _ _ _ _ Hv) as [_ [vn Hvn]].
  split_and!; [done|exact Hk|by apply HX| |exact Hu|].
  - eapply jval_frame; [exact Hv|done|done|done|done|done|done].
  - rewrite E. apply IH; [done|done|]. intros q Hq. apply Hps. by right.
Qed.
End JsonBuild.
