(* ===== verification/JsonValue.v ===== *)
(** * Values, arrays and objects

    The recursive part of the JSON parser against the reference parser. *)
From S2P Require Import Prelude World Arena Double Json JsonRef JsonHeap JsonParse JsonBuild.

Module JsonValue.
Import Double Json JsonRef JsonHeap JsonParse JsonBuild.

Section text.
Variable str : list Z.
Abbreviation len := (Z.of_nat (length str)).
Hypothesis Hlen : len < 2 ^ 62.
Abbreviation F := (JsonParse.F str).
Abbreviation at_rest := (JsonParse.at_rest str).
Abbreviation max_request := (JsonParse.max_request str).

(** The addresses that [w'] has and [w] has not. *)
Definition added (w w' : jworld) : gset Z := dom (nodes w') ∖ dom (nodes w).

(** A document at a new address, all of it new. *)
Record built (w w' : jworld) (p : Z) (t : json) : Prop := {
  bt_new : p ∉ dom (nodes w);
  bt_doc : jval (nodes w') (strs w') (added w w' ∖ {[p]}) t p;
  bt_unlinked : unlinked (nodes w') t p;
  bt_nesting : nesting t + depth w ≤ COBALT_JSON_DOM_MAX_DEPTH
}.

(** The outcome of reading a value from [s]; [ref] is what the reference
    parser makes of [s]. *)
Record value_done (ref : parsed (option json)) (s : list Z) (w : jworld) (r : Z) (w' : jworld) : Prop := {
  vd_adv : advanced w w';
  vd_res : ∃ o s' ex, at_rest w' s' ∧ (length s' ≤ length s)%nat ∧
    depth_exceeded w' = depth_exceeded w || ex ∧
    match o with None => r = NULL | Some t => built w w' r t end ∧
    (lacking max_request w' ∨ ref = (o, s', ex))
}.

(** ** A container under construction *)

Section building.
Context {A : Type} {item : nheap → sheap → gset Z → Z → A → Prop} `{!ItemLaws item}.
Variable weight : A → Z.

(** [root] was made in a state that had grown from [w0]; since then [xs] were
    appended. *)
Record building (w0 : jworld) (root : Z) (ty : json_type) (w : jworld)
    (Y : gset Z) (ps : list Z) (xs : list A) : Prop := {
  bd_linked : linked (item := item) (nodes w) (strs w) Y root ty ps xs;
  bd_grows : grows w0 w;
  bd_ok : ∃ live, jok w live;
  bd_depth : depth w = depth w0 + 1;
  bd_fresh : ∀ a, a ∈ root :: ps ∨ a ∈ Y → a ∉ dom (nodes w0);
  bd_weight : Forall (λ x, weight x + depth w0 + 1 ≤ COBALT_JSON_DOM_MAX_DEPTH) xs
}.

Lemma building_dom w0 root ty w Y ps xs a :
  building w0 root ty w Y ps xs → a ∈ root :: ps ∨ a ∈ Y → a ∈ dom (nodes w).
Proof.
  intros Hb [Ha|Ha]; [by eapply lk_ps; [apply Hb|]|]. by eapply lk_dom; [apply (bd_linked _ _ _ _ _ _ _ Hb)|].
Qed.

Lemma building_advance w0 root ty w w' Y ps xs :
  building w0 root ty w Y ps xs → advanced w w' → building w0 root ty w' Y ps xs.
Proof.
  intros [Hl Hg _ Hd Hf Hw] [[G1 G2 G3] Hd' Hok]. split; [by eapply linked_grow| |done|congruence|done|done].
  eapply grows_trans; [done|]. by split.
Qed.

Lemma building_append w0 root ty w w1 Y ps xs p x n :
  building w0 root ty w Y ps xs → advanced w w1 →
  nodes w1 !! p = Some n → next n = NULL →
  item (nodes w1) (strs w1) (added w w1 ∖ {[p]}) p x → p ∉ dom (nodes w) →
  weight x + depth w0 + 1 ≤ COBALT_JSON_DOM_MAX_DEPTH →
  building w0 root ty (with_nodes w1 (link_heap (nodes w1) root ps p)) (Y ∪ added w w1 ∖ {[p]})
    (ps ++ [p]) (xs ++ [x]).
Proof.
  intros Hb Ha Hp En Hx Hpn Hwt. pose proof (building_advance _ _ _ _ _ _ _ _ Hb Ha) as [Hl Hg [live Hok] Hd Hf Hw].
  assert (∀ a, a ∈ root :: ps ∨ a ∈ Y → a ∈ dom (nodes w)) as Hdom by (intros a; by eapply building_dom).
  unfold added in *.
  assert (∀ a, a ∈ root :: ps → a ∈ dom (nodes w1)) as Hdom1 by (intros a; by eapply lk_ps).
  assert (dom (link_heap (nodes w1) root ps p) = dom (nodes w1)) as Hdl.
  { unfold link_heap. destruct (last ps); by rewrite dom_alter_L. }
  destruct Hg as [G1 G2 G3].
  assert (p ∉ dom (nodes w0)) as Hp0.
  { intros H. apply Hpn. destruct (bd_grows _ _ _ _ _ _ _ Hb) as [_ H2 _]. apply subseteq_dom in H2. set_solver. }
  split; simpl; [| |exists live|done| |].
  - eapply linked_snoc; [exact Hl|done|done|exact Hx| | |set_solver| |set_solver].
    + intros H. apply Hpn, Hdom. by left.
    + intros H. apply Hpn, Hdom. by right.
    + intros a H. specialize (Hdom a (or_introl H)). set_solver.
  - split; simpl; [done| |done]. apply map_subseteq_spec. intros a m Hm. unfold link_heap.
    assert (a ∈ dom (nodes w0)) as Ha0 by (apply elem_of_dom; eauto).
    assert (∀ b, b ∈ root :: ps → b ≠ a) as Hne by (intros b Hb'; specialize (Hf b (or_introl Hb')); congruence).
    destruct (last ps) as [tail|] eqn:El; rewrite lookup_alter_ne.
    + by eapply lookup_weaken.
    + apply Hne. apply last_Some in El as [? ->]. set_solver.
    + by eapply lookup_weaken.
    + apply Hne. by left.
  - destruct Hok as [R1 R2 R3]. split; simpl; [done| |done]. intros a. rewrite Hdl. apply R2.
  - intros a. rewrite app_comm_cons, elem_of_app, list_elem_of_singleton, elem_of_union, elem_of_difference.
    intros [[Ha'| ->]|[Ha'|[Ha' _]]]; [apply Hf; by left|done|apply Hf; by right|].
    apply elem_of_difference in Ha' as [_ Ha']. destruct (bd_grows _ _ _ _ _ _ _ Hb) as [_ H2 _]. apply subseteq_dom in H2. set_solver.
  - apply Forall_app. split; [done|]. by constructor.
Qed.

(** The outcome of reading items: those of [s], behind the ones there were. *)
Record items_done (ref : parsed (list A)) (w0 : jworld) (root : Z) (ty : json_type) (xs : list A)
    (s : list Z) (w w' : jworld) : Prop := {
  id_keeps : keeps (jarena w) (jarena w');
  id_res : ∃ Y ps vs s' ex, building w0 root ty w' Y ps (xs ++ vs) ∧ at_rest w' s' ∧
    (length s' ≤ length s)%nat ∧ depth_exceeded w' = depth_exceeded w || ex ∧
    (lacking max_request w' ∨ ref = (vs, s', ex))
}.

Lemma items_done_stop ref w0 root ty xs s w w1 s1 Y ps ex :
  building w0 root ty w1 Y ps xs → at_rest w1 s1 → (length s1 ≤ length s)%nat →
  depth_exceeded w1 = depth_exceeded w || ex → keeps (jarena w) (jarena w1) →
  (lacking max_request w1 ∨ ref = ([], s1, ex)) → items_done ref w0 root ty xs s w w1.
Proof.
  intros Hb Hs Hl Hx Hk Href. split; [done|]. exists Y, ps, [], s1, ex. rewrite app_nil_r. by split_and!.
Qed.

Lemma items_done_last ref w0 root ty xs x s w w1 s1 Y ps ex :
  building w0 root ty w1 Y ps (xs ++ [x]) → at_rest w1 s1 → (length s1 ≤ length s)%nat →
  depth_exceeded w1 = depth_exceeded w || ex → keeps (jarena w) (jarena w1) →
  (lacking max_request w1 ∨ ref = ([x], s1, ex)) → items_done ref w0 root ty xs s w w1.
Proof. intros Hb Hs Hl Hx Hk Href. split; [done|]. exists Y, ps, [x], s1, ex. by split_and!. Qed.

Lemma items_done_cons w0 root ty xs x s s1 w w1 w' ref ref1 ex1 :
  (length s1 ≤ length s)%nat → depth_exceeded w1 = depth_exceeded w || ex1 →
  keeps (jarena w) (jarena w1) →
  (lacking max_request w1 ∨ ∀ vs r ex, ref1 = (vs, r, ex) → ref = (x :: vs, r, ex1 || ex)) →
  items_done ref1 w0 root ty (xs ++ [x]) s1 w1 w' → items_done ref w0 root ty xs s w w'.
Proof.
  intros Hl Hx Hk Href [Hk' (Y & ps & vs & s' & ex & Hb & Hs & Hl' & Hx' & H)]. split; [by eapply keeps_trans|].
  exists Y, ps, (x :: vs), s', (ex1 || ex). rewrite <- app_assoc in Hb. split_and!; [done|done|lia| |].
  - by rewrite Hx', Hx, orb_assoc.
  - destruct H as [?|H]; [by left|]. destruct Href as [Href|Href]; [left; by eapply lacking_keeps|right; by apply Href].
Qed.
End building.

Lemma advanced_pos w i live : jok w live → advanced w (with_pos w i).
Proof.
  intros Hok. split; [apply (moved_grows _ _ (moved_pos w i))|done|]. exists live. by eapply jok_moved.
Qed.

Lemma last_snoc_default (ps : list Z) p : default NULL (last (ps ++ [p])) = p.
Proof. by rewrite last_snoc. Qed.

(** ** The loops *)

Section containers.
Variable value : M jworld Z.
Variable rv : list Z → parsed (option json).
Variable d : Z.
Hypothesis Hvalue : ∀ w live s,
  at_rest w s → jok w live → depth w = d + 1 → wp_or F value (value_done (rv s) s w) w.

Abbreviation elems_building := (building (item := elem_item) nesting).
Abbreviation elems_done := (items_done (item := elem_item) nesting).

Lemma wp_elems fuel : ∀ s w w0 root Y ps xs,
  depth w0 = d → elems_building w0 root JSON_ARRAY w Y ps xs → at_rest w s → (length s < fuel)%nat →
  wp_or F (loop fuel (array_body str value root) (default NULL (last ps)))
    (λ _, elems_done (ref_elems rv fuel s) w0 root JSON_ARRAY xs s w) w.
Proof.
  induction fuel as [|fuel IH]; intros s w w0 root Y ps xs Hd Hb Hw Hf; [lia|].
  cbn [loop]. apply wp_or_bind. unfold array_body at 1. apply wp_or_bind.
  destruct (bd_ok _ _ _ _ _ _ _ _ Hb) as [live Hok].
  eapply wp_or_mono; [eapply Hvalue; [done|done|by rewrite (bd_depth _ _ _ _ _ _ _ _ Hb), Hd]|].
  intros r w1 [Ha (o & s1 & ex & Hw1 & Hl1 & Hx1 & Hr & Href)].
  destruct o as [t|].
  2: { subst r. rewrite Z.eqb_refl. do 2 apply wp_or_ret.
       eapply items_done_stop; [eapply building_advance; [exact Hb|exact Ha]|done|done|done|apply Ha|].
       destruct Href as [?|Href]; [by left|right]. cbn [ref_elems]. by rewrite Href. }
  destruct Hr as [Hnew Hdoc Hun Hnest]. destruct (jval_node _ _ _ _ _ Hdoc) as [Hnz [n Hn]].
  rewrite (proj2 (Z.eqb_neq _ _) Hnz). apply wp_or_bind, wp_or_of. eapply wp_update_node; [done|].
  set (w2 := with_nodes w1 (<[r := set_next n NULL]> (nodes w1))).
  assert (dom (nodes w2) = dom (nodes w1)) as Hdom2.
  { unfold w2. simpl. apply dom_insert_lookup_L. eauto. }
  assert (advanced w w2) as Ha2.
  { destruct Ha as [[K G2 G3] Hd' [live1 Hok1]]. split; [|done|exists live1].
    - split; [done| |done]. unfold w2. simpl. apply insert_subseteq_r; [by apply not_elem_of_dom|done].
    - apply jok_insert; [done|]. apply elem_of_dom. eauto. }
  assert (at_rest w2 s1) as Hw2 by done.
  destruct (bd_depth _ _ _ _ _ _ _ _ Hb).
  assert (elems_building w0 root JSON_ARRAY
    (with_nodes w2 (link_heap (nodes w2) root ps r)) (Y ∪ added w w2 ∖ {[r]}) (ps ++ [r]) (xs ++ [t])) as Hb3.
  { eapply building_append; [exact Hb|exact Ha2|apply lookup_insert_eq|done| |done|].
    - unfold added. rewrite Hdom2. eapply jval_frame; [exact Hdoc|done|apply lookup_insert_eq|done| |done|done].
      intros q Hq. simpl. rewrite lookup_insert_ne by set_solver. done.
    - pose proof (bd_depth _ _ _ _ _ _ _ _ Hb). lia. }
  apply wp_or_bind, wp_or_of.
  eapply (wp_link_child (item := elem_item)); [apply (bd_linked _ _ _ _ _ _ _ _ (building_advance _ _ _ _ _ _ _ _ _ Hb Ha2))|].
  set (w3 := with_nodes w2 _) in *. assert (at_rest w3 s1) as Hw3 by done.
  apply wp_or_bind, wp_or_of. eapply wp_skip_ws; [done|]. intros i Hi Hw4. set (w4 := with_pos w3 i) in *.
  assert (keeps (jarena w) (jarena w4)) as Hk4 by apply Ha.
  pose proof (skip_ws_length s1) as Hsk.
  assert (∀ j, elems_building w0 root JSON_ARRAY (with_pos w3 j) (Y ∪ added w w2 ∖ {[r]}) (ps ++ [r]) (xs ++ [t])) as Hb4.
  { intros j. destruct (bd_ok _ _ _ _ _ _ _ _ Hb3). eapply building_advance; [exact Hb3|by eapply advanced_pos]. }
  apply wp_or_bind, wp_or_of. eapply wp_at_char; [exact Hw4|].
  destruct (skip_ws s1) as [|c s2] eqn:Es1.
  { rewrite bool_decide_eq_false_2 by done. do 2 apply wp_or_ret.
    eapply items_done_last; [apply Hb4|exact Hw4|simpl; lia|exact Hx1|done|].
    destruct Href as [Hlk|Href]; [left; exact Hlk|right]. cbn [ref_elems]. by rewrite Href, Es1. }
  simpl in Hsk. destruct (decide (c = 44)) as [->|Hc].
  - rewrite bool_decide_eq_true_2 by done. apply wp_or_bind, wp_or_of, wp_get_pos.
    apply wp_or_bind, wp_or_of, wp_set_pos. apply wp_or_ret.
    pose proof (at_rest_next _ _ _ _ Hw4) as Hw5.
    pose proof (IH s2 (with_pos w3 (i + 1)) w0 root _ _ _ Hd (Hb4 (i + 1)) Hw5 ltac:(lia)) as IH'.
    rewrite last_snoc_default in IH'. eapply wp_or_mono; [exact IH'|].
    intros [] w' Hdone. eapply (items_done_cons _ _ _ _ _ _ _ s2 _ (with_pos w3 (i + 1))); [lia|exact Hx1|exact Hk4| |exact Hdone].
    destruct Href as [Hlk|Href]; [left; exact Hlk|right]. intros vs r0 ex0 E.
    cbn [ref_elems]. rewrite Href, Es1. simpl. by rewrite E.
  - rewrite bool_decide_eq_false_2 by (simpl; congruence). do 2 apply wp_or_ret.
    eapply items_done_last; [apply Hb4|exact Hw4|simpl; lia|exact Hx1|done|].
    destruct Href as [Hlk|Href]; [left; exact Hlk|right]. cbn [ref_elems]. rewrite Href, Es1.
    by rewrite (proj2 (Z.eqb_neq _ _) Hc).
Qed.

Definition mweight (m : list Z * json) : Z := nesting m.2.
Abbreviation members_building := (building (item := member_item) mweight).
Abbreviation members_done := (items_done (item := member_item) mweight).

(** The node of a member, with its key and value, from a value that is built. *)
Lemma member_ready w w3 w4 w5 k b v t kv :
  nodes w3 = nodes w → advanced w w3 → advanced w3 w4 → built w3 w4 v t →
  k ≠ NULL → strs w3 !! k = Some b → new_node w4 JSON_OBJECT kv w5 →
  let w6 := with_nodes w5 (<[kv := Node JSON_OBJECT Zeroed NULL v k false false]> (nodes w5)) in
  advanced w w6 ∧ kv ∉ dom (nodes w) ∧
  member_item (nodes w6) (strs w6) (added w w6 ∖ {[kv]}) kv (cstr b, t).
Proof.
  intros En Ha3 Ha4 [Hnew Hdoc Hun Hnest] Hk Hb [E5 [live5 Hok5] Hk5 Hkv Hkvn] w6.
  destruct Ha3 as [[K3 G3 S3] D3 _], Ha4 as [[K4 G4 S4] D4 [live4 Hok4]].
  assert (nodes w6 = <[kv := Node JSON_OBJECT Zeroed NULL v k false false]> (nodes w4)) as E6.
  { unfold w6. rewrite E5. simpl. apply insert_insert_eq. }
  assert (strs w6 = strs w4) as Es6 by (unfold w6; rewrite E5; done).
  assert (dom (nodes w) ⊆ dom (nodes w4)) as Hd by (rewrite <- En; by apply subseteq_dom).
  destruct (jval_node _ _ _ _ _ Hdoc) as [Hvz [vn Hvn]].
  assert (v ∈ dom (nodes w4)) as Hvd by (apply elem_of_dom; eauto).
  assert (∀ q, q ∈ dom (nodes w4) → nodes w6 !! q = nodes w4 !! q) as Hq6.
  { intros q Hq. rewrite E6. apply lookup_insert_ne. set_solver. }
  unfold added in *. rewrite En in *.
  split; [|split; [set_solver|]].
  - split.
    + split.
      * eapply keeps_trans; [exact K3|]. eapply keeps_trans; [exact K4|]. unfold w6. rewrite E5. exact Hk5.
      * rewrite E6. apply insert_subseteq_r; [apply not_elem_of_dom; set_solver|exact G4].
      * rewrite Es6. by etrans.
    + unfold w6. rewrite E5. simpl. congruence.
    + exists live5. apply jok_insert; [done|]. rewrite E5. simpl. set_solver.
  - split; [done|]. exists (Node JSON_OBJECT Zeroed NULL v k false false). rewrite E6, Es6, lookup_insert_eq, dom_insert_L. simpl.
    split_and!; [done| |set_solver| |].
    + split; [done|]. exists b. split; [by eapply lookup_weaken|done].
    + eapply jval_frame; [exact Hdoc|done| |done| |done|set_solver].
      * rewrite <- E6. rewrite Hq6 by done. exact Hvn.
      * intros q Hq. rewrite <- E6. apply Hq6. set_solver.
    + intros He. destruct (Hun He) as (vn' & ? & ?). exists vn'. rewrite <- E6, Hq6 by done. done.
Qed.

Lemma wp_members fuel : ∀ s w w0 root Y ps xs,
  depth w0 = d → members_building w0 root JSON_OBJECT w Y ps xs → at_rest w s → (length s < fuel)%nat →
  wp_or F (loop fuel (object_body str value root) (default NULL (last ps)))
    (λ _, members_done (ref_members rv fuel s) w0 root JSON_OBJECT xs s w) w.
Proof.
  induction fuel as [|fuel IH]; intros s w w0 root Y ps xs Hd Hb Hw Hf; [lia|].
  cbn [loop]. apply wp_or_bind. unfold object_body at 1. destruct (bd_ok _ _ _ _ _ _ _ _ Hb) as [live Hok].
  apply wp_or_bind, wp_or_of. eapply wp_skip_ws; [done|]. intros i1 Hi1 Hw1. set (w1 := with_pos w i1) in *.
  assert (jok w1 live) as Hok1 by (by eapply jok_moved).
  assert (∀ j, advanced w (with_pos w j)) as Hadv by (intros; by eapply advanced_pos).
  pose proof (skip_ws_length s) as Hsk. apply wp_or_bind, wp_or_of. eapply wp_at_char; [exact Hw1|].
  assert (∀ s' w', advanced w w' → at_rest w' s' → depth_exceeded w' = depth_exceeded w → (length s' ≤ length s)%nat →
    lacking max_request w' ∨ ref_members rv (S fuel) s = ([], s', false) →
    members_done (ref_members rv (S fuel) s) w0 root JSON_OBJECT xs s w w') as Hstop.
  { intros s' w' Ha Hs' Hx Hl Hr. eapply (items_done_stop _ _ _ _ _ _ _ _ _ s'); [eapply building_advance; [exact Hb|exact Ha]|done|lia| |apply Ha|exact Hr].
    by rewrite Hx, orb_false_r. }
  destruct (skip_ws s) as [|c s1] eqn:Es.
  { rewrite bool_decide_eq_false_2 by done. do 2 apply wp_or_ret. apply (Hstop []); [apply Hadv|done|done|simpl; lia|].
    right. cbn [ref_members]. by rewrite Es. }
  destruct (decide (c = 34)) as [->|Hc].
  2: { rewrite bool_decide_eq_false_2 by (simpl; congruence). do 2 apply wp_or_ret.
       apply (Hstop (c :: s1)); [apply Hadv|done|done|done|]. right. cbn [ref_members]. rewrite Es. by rewrite (proj2 (Z.eqb_neq _ _) Hc). }
  rewrite bool_decide_eq_true_2 by done. simpl in Hsk. apply wp_or_bind.
  eapply wp_or_mono; [by eapply wp_parse_string|].
  intros k w2 [Ha2 En2 Hx2 (o & s2 & Hw2 & Hl2 & Hk & Href2)].
  pose proof (advanced_trans _ _ _ (Hadv i1) Ha2) as Ha02. destruct o as [b|].
  2: { subst k. rewrite Z.eqb_refl. do 2 apply wp_or_ret. apply (Hstop s2); [done|done|done|lia|].
       destruct Href2 as [?|Href2]; [by left|right]. cbn [ref_members]. rewrite Es. simpl. by rewrite Href2. }
  destruct Hk as [Hkz Hkb]. rewrite (proj2 (Z.eqb_neq _ _) Hkz).
  apply wp_or_bind, wp_or_of. eapply wp_skip_ws; [exact Hw2|]. intros i3 Hi3 Hw3. set (w3 := with_pos w2 i3) in *.
  pose proof (skip_ws_length s2) as Hsk2. destruct (ad_ok _ _ Ha2) as [live2 Hok2].
  assert (∀ j, advanced w (with_pos w2 j)) as Hadv2.
  { intros j. eapply advanced_trans; [exact Ha02|by eapply advanced_pos]. }
  apply wp_or_bind, wp_or_of. eapply wp_at_char; [exact Hw3|]. destruct (skip_ws s2) as [|c2 s3] eqn:Es2.
  { rewrite bool_decide_eq_false_2 by done. do 2 apply wp_or_ret. apply (Hstop []); [apply Hadv2|done|done|simpl; lia|].
    destruct Href2 as [Hlk|Href2]; [left; exact Hlk|right]. cbn [ref_members]. rewrite Es. simpl. by rewrite Href2, Es2. }
  destruct (decide (c2 = 58)) as [->|Hc2].
  2: { rewrite bool_decide_eq_false_2 by (simpl; congruence). do 2 apply wp_or_ret.
       apply (Hstop (c2 :: s3)); [apply Hadv2|done|done|simpl in *; lia|].
       destruct Href2 as [Hlk|Href2]; [left; exact Hlk|right]. cbn [ref_members]. rewrite Es. simpl.
       rewrite Href2, Es2. by rewrite (proj2 (Z.eqb_neq _ _) Hc2). }
  rewrite bool_decide_eq_true_2 by done. simpl in Hsk2.
  apply wp_or_bind, wp_or_of, wp_get_pos. apply wp_or_bind, wp_or_of, wp_set_pos.
  pose proof (at_rest_next _ _ _ _ Hw3) as Hw3'. set (w3' := with_pos w3 (pos w3 + 1)) in *.
  assert (depth w3' = d + 1) as Hd3.
  { transitivity (depth w2); [done|]. rewrite (ad_depth _ _ Ha02), (bd_depth _ _ _ _ _ _ _ _ Hb). by rewrite Hd. }
  apply wp_or_bind. eapply wp_or_mono; [apply (Hvalue w3' live2 s3 Hw3'); [by apply (jok_moved w2)|exact Hd3]|].
  intros v w4 [Ha4 (ov & s4 & ex & Hw4 & Hl4 & Hx4 & Hv & Href4)].
  pose proof (advanced_trans _ _ _ (Hadv2 _) Ha4) as Ha04.
  assert (depth_exceeded w4 = depth_exceeded w || ex) as Hx04 by (rewrite Hx4; simpl; by rewrite Hx2).
  assert (keeps (jarena w2) (jarena w4)) as Hk24 by apply Ha4.
  assert (lacking max_request w4 ∨ (ref_string s1 = (Some b, s2) ∧ rv s3 = (ov, s4, ex))) as Href24.
  { destruct Href2 as [Hlk|Href2]; [left; by eapply lacking_keeps|].
    destruct Href4 as [Hlk|Href4]; [by left|by right]. }
  destruct ov as [t|].
  2: { subst v. rewrite Z.eqb_refl. do 2 apply wp_or_ret.
       eapply (items_done_stop _ _ _ _ _ _ _ _ _ s4); [eapply building_advance; [exact Hb|exact Ha04]|done|lia|exact Hx04|apply Ha04|].
       destruct Href24 as [?|[R1 R2]]; [by left|right]. cbn [ref_members]. rewrite Es. simpl. by rewrite R1, Es2, R2. }
  destruct (jval_node _ _ _ _ _ (bt_doc _ _ _ _ Hv)) as [Hvz _]. rewrite (proj2 (Z.eqb_neq _ _) Hvz).
  destruct (ad_ok _ _ Ha4) as [live4 Hok4].
  apply wp_or_bind, wp_or_of. eapply (wp_create_jnode max_request); [exact Hok4|unfold sizeof_node, JsonParse.max_request; lia|unfold JsonParse.max_request; lia| |].
  { intros w5 E5 Hok5 Hk5 Hlk5. rewrite Z.eqb_refl. do 2 apply wp_or_ret.
    assert (advanced w4 w5) as Ha5 by (split; [split; rewrite E5; done|by rewrite E5|by exists live4]).
    eapply (items_done_stop _ _ _ _ _ _ _ _ _ s4); [eapply building_advance; [exact Hb|eapply advanced_trans; [exact Ha04|exact Ha5]]| |lia| | |by left].
    - rewrite E5. exact Hw4.
    - rewrite E5. exact Hx04.
    - eapply keeps_trans; [apply Ha04|exact Hk5]. }
  intros kv w5 Hnn. pose proof (nn_null _ _ _ _ Hnn) as Hkv. rewrite (proj2 (Z.eqb_neq _ _) Hkv).
  destruct (member_ready w w3' w4 w5 k b v t kv En2 (Hadv2 _) Ha4 Hv Hkz Hkb Hnn) as (Ha6 & Hkvn & Hitem).
  apply wp_or_bind, wp_or_of. unfold wp at 1, store_node. set (w6 := with_nodes w5 _) in *.
  assert (w5 = with_nodes (with_arena w4 (jarena w5)) (<[kv := fresh_node JSON_OBJECT]> (nodes w4))) as E5 by apply Hnn.
  assert (at_rest w6 s4) as Hw6 by (unfold w6; rewrite E5; exact Hw4).
  assert (depth_exceeded w6 = depth_exceeded w || ex) as Hx6 by (unfold w6; rewrite E5; exact Hx04).
  assert (lacking max_request w4 → lacking max_request w6) as Hlk46.
  { apply lacking_keeps. apply Hnn. }
  assert (members_building w0 root JSON_OBJECT
    (with_nodes w6 (link_heap (nodes w6) root ps kv)) (Y ∪ added w w6 ∖ {[kv]}) (ps ++ [kv]) (xs ++ [(cstr b, t)])) as Hb7.
  { eapply building_append; [exact Hb|exact Ha6|apply lookup_insert_eq|done|exact Hitem|exact Hkvn|].
    pose proof (bt_nesting _ _ _ _ Hv). unfold mweight. simpl. lia. }
  apply wp_or_bind, wp_or_of.
  eapply (wp_link_child (item := member_item)); [apply (bd_linked _ _ _ _ _ _ _ _ (building_advance _ _ _ _ _ _ _ _ _ Hb Ha6))|].
  set (w7 := with_nodes w6 (link_heap _ _ _ _)) in *. assert (at_rest w7 s4) as Hw7 by done.
  assert (∀ j, members_building w0 root JSON_OBJECT (with_pos w7 j) (Y ∪ added w w6 ∖ {[kv]}) (ps ++ [kv]) (xs ++ [(cstr b, t)])) as Hb8.
  { intros j. destruct (bd_ok _ _ _ _ _ _ _ _ Hb7). eapply building_advance; [exact Hb7|by eapply advanced_pos]. }
  assert (keeps (jarena w) (jarena w7)) as Hk7 by apply Ha6.
  apply wp_or_bind, wp_or_of. eapply wp_skip_ws; [exact Hw7|]. intros i8 Hi8 Hw8. set (w8 := with_pos w7 i8) in *.
  pose proof (skip_ws_length s4) as Hsk4. apply wp_or_bind, wp_or_of. eapply wp_at_char; [exact Hw8|].
  assert (∀ j s', at_rest (with_pos w7 j) s' → (length s' ≤ length s)%nat →
    ((ref_string s1 = (Some b, s2) ∧ rv s3 = (Some t, s4, ex)) →
       ref_members rv (S fuel) s = ([(cstr b, t)], s', ex)) →
    members_done (ref_members rv (S fuel) s) w0 root JSON_OBJECT xs s w (with_pos w7 j)) as Hlast.
  { intros j s' Hs' Hl' Hr. eapply items_done_last; [apply Hb8|exact Hs'|done|exact Hx6|exact Hk7|].
    destruct Href24 as [Hlk|?]; [left; by apply Hlk46|right; by apply Hr]. }
  destruct (skip_ws s4) as [|c4 s5] eqn:Es4.
  { rewrite bool_decide_eq_false_2 by done. apply wp_or_bind, wp_or_of. eapply wp_at_char; [exact Hw8|].
    rewrite bool_decide_eq_false_2 by done. apply wp_or_bind, wp_or_ret. do 2 apply wp_or_ret. apply (Hlast i8 []); [done|simpl; lia|].
    intros [R1 R2]. cbn [ref_members]. rewrite Es. simpl. by rewrite R1, Es2, R2, Es4. }
  simpl in Hsk4. destruct (decide (c4 = 44)) as [->|Hc4].
  - rewrite bool_decide_eq_true_2 by done. apply wp_or_bind, wp_or_of, wp_get_pos.
    apply wp_or_bind, wp_or_of, wp_set_pos. apply wp_or_ret. pose proof (at_rest_next _ _ _ _ Hw8) as Hw9.
    pose proof (IH s5 (with_pos w7 (i8 + 1)) w0 root _ _ _ Hd (Hb8 (i8 + 1)) Hw9 ltac:(lia)) as IH'.
    rewrite last_snoc_default in IH'. eapply wp_or_mono; [exact IH'|]. intros [] w' Hdone.
    eapply (items_done_cons _ _ _ _ _ _ _ s5 _ (with_pos w7 (i8 + 1))); [lia|exact Hx6|exact Hk7| |exact Hdone].
    destruct Href24 as [Hlk|[R1 R2]]; [left; by apply Hlk46|right]. intros vs r0 ex0 E.
    cbn [ref_members]. rewrite Es. simpl. rewrite R1, Es2, R2, Es4. simpl. by rewrite E.
  - rewrite bool_decide_eq_false_2 by (simpl; congruence). apply wp_or_bind, wp_or_of. eapply wp_at_char; [exact Hw8|].
    assert ((ref_string s1 = (Some b, s2) ∧ rv s3 = (Some t, s4, ex)) →
       ref_members rv (S fuel) s = ([(cstr b, t)], drop_char 125 (c4 :: s5), ex)) as Hrm.
    { intros [R1 R2]. cbn [ref_members]. rewrite Es. simpl. rewrite R1, Es2, R2, Es4.
      by rewrite (proj2 (Z.eqb_neq _ _) Hc4). }
    destruct (decide (c4 = 125)) as [->|Hc5].
    + rewrite bool_decide_eq_true_2 by done. apply wp_or_bind, wp_or_bind, wp_or_of, wp_get_pos. apply wp_or_of, wp_set_pos.
      do 2 apply wp_or_ret. apply (Hlast (i8 + 1) s5); [exact (at_rest_next _ _ _ _ Hw8)|lia|exact Hrm].
    + rewrite bool_decide_eq_false_2 by (simpl; congruence). apply wp_or_bind, wp_or_ret. do 2 apply wp_or_ret.
      apply (Hlast i8 (c4 :: s5)); [done|simpl; lia|]. simpl in Hrm. by rewrite (proj2 (Z.eqb_neq _ _) Hc5) in Hrm.
Qed.
End containers.

(** ** Containers *)

Lemma wp_finish w s c (Q : unit → jworld → Prop) :
  at_rest w s →
  (∀ i, at_rest (with_pos w i) (drop_char c (skip_ws s)) → Q tt (with_depth (with_pos w i) (depth w - 1))) →
  wp (finish str c) Q w.
Proof.
  intros Hw HQ. unfold finish. wp_step. eapply wp_skip_ws; [done|]. intros i Hi Hw1. wp_step.
  eapply wp_at_char; [exact Hw1|]. wp_step. destruct (skip_ws s) as [|c1 s1]; simpl in Hw1, HQ; cbn [head].
  { rewrite bool_decide_eq_false_2 by done. wp_steps. apply wp_get_depth, wp_set_depth. by apply HQ. }
  destruct (Z.eqb_spec c1 c) as [->|Hc].
  - rewrite bool_decide_eq_true_2 by done. wp_step. apply wp_get_pos, wp_set_pos. wp_step. apply wp_get_depth, wp_set_depth.
    apply HQ. exact (at_rest_next _ _ _ _ Hw1).
  - rewrite bool_decide_eq_false_2 by congruence. wp_steps. apply wp_get_depth, wp_set_depth. by apply HQ.
Qed.

Section open.
Context {A : Type} {item : nheap → sheap → gset Z → Z → A → Prop} `{!ItemLaws item}.
Variable weight : A → Z.
Variable o c : Z.
Variable ty : json_type.
Variable mk : list A → json.
Variable body : Z → M jworld unit.
Variable items : list Z → parsed (list A).
Variable d : Z.

Hypothesis o_space : is_space o = false.
Hypothesis Hbody : ∀ w0 root w s, depth w0 = d → d < COBALT_JSON_DOM_MAX_DEPTH →
  building (item := item) weight w0 root ty w ∅ [] [] → at_rest w s →
  wp_or F (body root) (λ _, items_done (item := item) weight (items s) w0 root ty [] s w) w.
Hypothesis Hmk : ∀ w0 root w Y ps xs, building (item := item) weight w0 root ty w Y ps xs →
  jval (nodes w) (strs w) (added w0 w ∖ {[root]}) (mk xs) root.
Hypothesis Hempty : ∀ xs, is_empty (mk xs) = true → xs = [].
Hypothesis Hnest : ∀ xs k, Forall (λ x, weight x + k + 1 ≤ COBALT_JSON_DOM_MAX_DEPTH) xs →
  k < COBALT_JSON_DOM_MAX_DEPTH → nesting (mk xs) + k ≤ COBALT_JSON_DOM_MAX_DEPTH.

Lemma building_built w0 root w w' Y ps xs :
  building (item := item) weight w0 root ty w Y ps xs → depth w0 < COBALT_JSON_DOM_MAX_DEPTH →
  nodes w' = nodes w → strs w' = strs w → built w0 w' root (mk xs).
Proof.
  intros Hb Hd En Es. pose proof (Hmk _ _ _ _ _ _ Hb) as Hj. destruct Hb as [Hl Hg _ Hdp Hf Hw].
  split; [apply Hf; left; by left|by unfold added; rewrite En, Es| |by apply Hnest].
  intros He%Hempty. subst xs. destruct (lk_root _ _ _ _ _ _ _ Hl) as (rn & Hr & _ & _ & Hnx). exists rn.
  rewrite En. split; [done|]. rewrite Hnx. pose proof (lk_items _ _ _ _ _ _ _ Hl) as Hi.
  by apply Forall2_nil_inv_r in Hi as ->.
Qed.

Lemma building_start w w1 root :
  depth w1 = depth w + 1 → (∃ live, jok w1 live) → keeps (jarena w) (jarena w1) →
  strs w1 = strs w → nodes w1 = <[root := fresh_node ty]> (nodes w) → root ∉ dom (nodes w) →
  building (item := item) weight w root ty w1 ∅ [] [].
Proof.
  intros Hd Hok Hk Es En Hr. split; [|split; [done| |]|done|done| |constructor].
  - split; simpl; [constructor|done|apply NoDup_singleton|set_solver| |set_solver].
    exists (fresh_node ty). rewrite En, lookup_insert_eq. done.
  - rewrite En. apply insert_subseteq. by apply not_elem_of_dom.
  - by rewrite Es.
  - intros a [Ha|Ha]; [|set_solver]. by apply list_elem_of_singleton in Ha as ->.
Qed.

Lemma wp_container w live s :
  at_rest w (o :: s) → jok w live → depth w = d →
  wp_or F (open_container str o c ty body)
    (value_done (if COBALT_JSON_DOM_MAX_DEPTH <=? d then (None, o :: s, true)
                 else ref_container c mk items s) (o :: s) w) w.
Proof.
  intros Hw Hok Hd. unfold open_container. apply wp_or_bind, wp_or_of, wp_get_depth. rewrite Hd.
  destruct (Z.leb_spec COBALT_JSON_DOM_MAX_DEPTH d) as [Hdeep|Hdeep].
  { apply wp_or_bind, wp_or_of. unfold wp, set_exceeded. apply wp_or_ret. split.
    - split; [split; [apply keeps_refl|done|done]|done|]. exists live. destruct Hok. by split.
    - exists None, (o :: s), true. split_and!; [done|done|simpl; by rewrite orb_true_r|done|by right]. }
  apply wp_or_bind, wp_or_of, wp_set_depth. set (w1 := with_depth w (d + 1)).
  assert (at_rest w1 (o :: s)) as Hw1 by done. assert (jok w1 live) as Hok1 by (destruct Hok; by split).
  apply wp_or_bind, wp_or_of. eapply wp_skip_ws; [exact Hw1|]. intros i2 Hi2 Hw2. simpl in Hw2. rewrite o_space in Hw2.
  apply wp_or_bind, wp_or_of. eapply wp_at_char; [exact Hw2|]. rewrite bool_decide_eq_true_2 by done.
  apply wp_or_bind, wp_or_of, wp_get_pos. apply wp_or_bind, wp_or_of, wp_set_pos.
  pose proof (at_rest_next _ _ _ _ Hw2) as Hw3. set (w3 := with_pos (with_pos w1 i2) _) in *.
  assert (jok w3 live) as Hok3 by (by apply (jok_moved w1)).
  apply wp_or_bind, wp_or_of. eapply (wp_create_jnode max_request);
    [exact Hok3|unfold sizeof_node, JsonParse.max_request; lia|unfold JsonParse.max_request; lia| |].
  { intros w4 E4 Hok4 Hk4 Hlk4. rewrite Z.eqb_refl. apply wp_or_bind, wp_or_of, wp_set_depth. apply wp_or_ret.
    split; [split; [split; simpl; rewrite E4; done|by rewrite <- Hd|exists live; destruct Hok4; by split]|].
    exists None, s, false. split_and!; [rewrite E4; exact Hw3|simpl; lia|simpl; rewrite E4; simpl; by rewrite orb_false_r|done|].
    left. exact Hlk4. }
  intros root w4 [E4 [live4 Hok4] Hk4 Hr4 Hrn4]. rewrite (proj2 (Z.eqb_neq _ _) Hr4).
  assert (at_rest w4 s) as Hw4 by (rewrite E4; exact Hw3).
  assert (building (item := item) weight w root ty w4 ∅ [] []) as Hb4.
  { apply building_start; [rewrite E4; simpl; lia|by exists live4|exact Hk4|by rewrite E4|by rewrite E4|exact Hrn4]. }
  apply wp_or_bind, wp_or_of. eapply wp_skip_ws; [exact Hw4|]. intros i5 Hi5 Hw5. set (w5 := with_pos w4 i5) in *.
  assert (∀ j, building (item := item) weight w root ty (with_pos w4 j) ∅ [] []) as Hb5.
  { intros j. eapply building_advance; [exact Hb4|by eapply advanced_pos]. }
  assert (depth_exceeded w4 = depth_exceeded w) as Hx4 by (by rewrite E4).
  apply wp_or_bind, wp_or_of. eapply wp_at_char; [exact Hw5|].
  pose proof (skip_ws_length s) as Hsk. unfold ref_container.
  assert (bool_decide (head (skip_ws s) = Some c) = true ∨
    bool_decide (head (skip_ws s) = Some c) = false ∧
    ref_container c mk items s = (let '(xs, r, ex) := items (skip_ws s) in (Some (mk xs), drop_char c (skip_ws r), ex))) as Hcase.
  { case_bool_decide as Hh; [by left|right]. split; [done|]. unfold ref_container.
    destruct (skip_ws s) as [|c1 s1]; [done|]. rewrite (proj2 (Z.eqb_neq _ _)); [done|]. simpl in Hh. congruence. }
  unfold ref_container in Hcase. destruct Hcase as [Hcl|[Hcl Href]]; rewrite Hcl.
  - apply wp_or_bind, wp_or_of, wp_get_pos. apply wp_or_bind, wp_or_of, wp_set_pos.
    apply wp_or_bind, wp_or_of, wp_set_depth. apply wp_or_ret. apply bool_decide_eq_true_1 in Hcl.
    destruct (skip_ws s) as [|c1 s1]; [done|]. simpl in Hcl. injection Hcl as ->. simpl in Hsk. split.
    + split; [|simpl; lia|exists live4; destruct Hok4; by split]. destruct (bd_grows _ _ _ _ _ _ _ _ Hb4). by split.
    + exists (Some (mk [])), s1, false. split_and!; [exact (at_rest_next _ _ _ _ Hw5)|simpl; lia| | |].
      * simpl. by rewrite Hx4, orb_false_r.
      * eapply building_built; [exact Hb4|by rewrite Hd|done|done].
      * right. by rewrite Z.eqb_refl.
  - rewrite Href. apply wp_or_bind. eapply wp_or_mono; [eapply (Hbody w root w5); [done|done|apply Hb5|exact Hw5]|].
    intros [] w6 [Hk6 (Y & ps & vs & s' & ex & Hb6 & Hw6 & Hl6 & Hx6 & Href6)].
    apply wp_or_bind, wp_or_of. eapply wp_finish; [exact Hw6|]. intros i7 Hw7. apply wp_or_ret.
    pose proof (skip_ws_length s'). pose proof (drop_char_length c (skip_ws s')).
    destruct (bd_ok _ _ _ _ _ _ _ _ Hb6) as [live6 Hok6]. pose proof (bd_depth _ _ _ _ _ _ _ _ Hb6) as Hd6. split.
    + split; [|simpl; lia|exists live6; destruct Hok6; by split]. destruct (bd_grows _ _ _ _ _ _ _ _ Hb6). by split.
    + exists (Some (mk vs)), (drop_char c (skip_ws s')), ex. split_and!; [exact Hw7|simpl; lia| | |].
      * simpl. rewrite Hx6. simpl. by rewrite Hx4.
      * eapply building_built; [exact Hb6|by rewrite Hd|done|done].
      * destruct Href6 as [Hlk| ->]; [left; exact Hlk|by right].
Qed.
End open.

(** ** Scalars *)

(** A scalar that needs one more node. *)
Lemma wp_scalar w w1 live ty f t s s1 (k : Z → M jworld Z) ref :
  moved w w1 ∨ (advanced w w1 ∧ nodes w1 = nodes w ∧ depth_exceeded w1 = depth_exceeded w) →
  jok w1 live → at_rest w1 s1 → (length s1 ≤ length s)%nat →
  0 ≤ depth w ≤ COBALT_JSON_DOM_MAX_DEPTH → nesting t = 0 → is_empty t = false →
  (∀ h p, p ≠ NULL → h !! p = Some (f (fresh_node ty)) → jval h (strs w1) ∅ t p) →
  (∀ p w2, p ≠ NULL → nodes w2 !! p = Some (fresh_node ty) →
     k p w2 = Ret p (with_nodes w2 (<[p := f (fresh_node ty)]> (nodes w2)))) → k NULL = mret NULL →
  (lacking max_request w1 ∨ ref = (Some t, s1, false)) →
  wp_or F (p <- json_node_create ty ;; k p) (value_done ref s w) w1.
Proof.
  intros Hmv Hok Hs Hl Hd Hnest Hem Hj Hk Hk0 Href.
  assert (grows w w1 ∧ depth w1 = depth w ∧ nodes w1 = nodes w ∧ depth_exceeded w1 = depth_exceeded w) as (Hg & Hdp & En & Hx).
  { destruct Hmv as [Hmv|(Ha & ? & ?)]; [apply moved_grows in Hmv; naive_solver|]. split; [apply Ha|]. split; [apply Ha|done]. }
  apply wp_or_bind, wp_or_of. eapply (wp_create_jnode max_request);
    [exact Hok|unfold sizeof_node, JsonParse.max_request; lia|unfold JsonParse.max_request; lia| |].
  { intros w2 E2 Hok2 Hk2 Hlk2. rewrite Hk0. apply wp_or_ret. split.
    - split; [|rewrite E2; exact Hdp|by exists live]. destruct Hg as [K G S]. split; rewrite E2; [by eapply keeps_trans|done|done].
    - exists None, s1, false. split_and!; [rewrite E2; exact Hs|done|rewrite E2; simpl; by rewrite Hx, orb_false_r|done|by left]. }
  intros p w2 [E2 [live2 Hok2] Hk2 Hp Hpn].
  assert (nodes w2 !! p = Some (fresh_node ty)) as Hn2 by (rewrite E2; simpl; apply lookup_insert_eq).
  unfold wp_or. rewrite Hk by done. destruct Hg as [K G S].
  assert (strs w2 = strs w1) as Es2 by (by rewrite E2). rewrite En in Hpn. split.
  - split; [|simpl; rewrite E2; exact Hdp|].
    + split; simpl; [by eapply keeps_trans| |by rewrite Es2]. rewrite E2. simpl. rewrite insert_insert_eq, En.
      apply insert_subseteq. by apply not_elem_of_dom.
    + exists live2. apply jok_insert; [done|]. apply elem_of_dom. eauto.
  - exists (Some t), s1, false.
    split; [rewrite E2; exact Hs|]. split; [done|]. split; [simpl; rewrite E2; simpl; by rewrite Hx, orb_false_r|].
    split; [|destruct Href as [Hlk|Href]; [left; by eapply (lacking_keeps _ w1)|by right]].
    split; [done| |intros He; by rewrite Hem in He|rewrite Hnest; lia].
    simpl. rewrite Es2. eapply jval_frame; [apply (Hj (<[p := f (fresh_node ty)]> (nodes w2)) p Hp); apply lookup_insert_eq
      |apply lookup_insert_eq|apply lookup_insert_eq|done|set_solver|done|set_solver].
Qed.

Lemma drop_one_minus s : drop_one [45] s = drop_char 45 s.
Proof.
  destruct s as [|c s]; [done|]. simpl. destruct (Z.eqb_spec c 45) as [->|Hc]; [by rewrite bool_decide_eq_true_2 by set_solver|].
  rewrite bool_decide_eq_false_2; [done|set_solver].
Qed.

Lemma in_two a b c : bool_decide (c ∈ [a; b]) = (c =? a) || (c =? b).
Proof.
  case_bool_decide as H; destruct (Z.eqb_spec c a), (Z.eqb_spec c b); simpl; try done; set_solver.
Qed.

Lemma in_one a c : bool_decide (c ∈ [a]) = (c =? a).
Proof. case_bool_decide as H; destruct (Z.eqb_spec c a); try done; set_solver. Qed.

Lemma wp_scan_number w s (Q : unit → jworld → Prop) :
  at_rest w s → (∀ i, pos w ≤ i → at_rest (with_pos w i) (number_rest s) → Q tt (with_pos w i)) →
  wp (scan_number str) Q w.
Proof.
  intros Hw HQ. unfold scan_number, number_rest in *. wp_step. eapply wp_accept; [exact Hw|].
  intros i1 Hi1 Hw1. rewrite drop_one_minus in Hw1. wp_step. eapply wp_skip_digits; [exact Hw1|]. intros i2 Hi2 Hw2. simpl in Hi2.
  set (s2 := (span_digits (drop_char 45 s)).2) in *. wp_step. eapply wp_accept; [exact Hw2|]. intros i3 Hi3 Hw3. simpl in Hi3.
  set (s3 := match s2 with c :: s' => if c =? 46 then (span_digits s').2 else s2 | [] => [] end) in *.
  assert (∀ Q : unit → jworld → Prop, (∀ i, i3 ≤ i → at_rest (with_pos w i) s3 → Q tt (with_pos w i)) →
    wp (if match s2 with c :: _ => bool_decide (c ∈ [46]) | [] => false end then skip_digits str else mret tt) Q (with_pos w i3)) as Hfrac.
  { intros Q' HQ'. subst s3. unfold drop_one in Hw3. destruct s2 as [|c s2']; [apply wp_ret, HQ'; [lia|exact Hw3]|].
    rewrite in_one in *. destruct (c =? 46).
    - eapply wp_skip_digits; [exact Hw3|]. intros i Hi Hi'. apply HQ'; [exact Hi|exact Hi'].
    - apply wp_ret, HQ'; [lia|exact Hw3]. }
  wp_step. apply Hfrac. intros i4 Hi4 Hw4. wp_step. eapply wp_accept; [exact Hw4|]. intros i5 Hi5 Hw5. simpl in Hi5.
  clearbody s3. unfold drop_one in Hw5. destruct s3 as [|c s3']; [apply wp_ret, HQ; [lia|exact Hw5]|].
  rewrite in_two in *. destruct ((c =? 101) || (c =? 69)); [|apply wp_ret, HQ; [lia|exact Hw5]].
  wp_step. eapply wp_accept; [exact Hw5|]. intros i6 Hi6 Hw6. simpl in Hi6. eapply wp_skip_digits; [exact Hw6|].
  intros i7 Hi7 Hw7. simpl in Hi7. apply HQ; [lia|]. unfold drop_one in Hw7. destruct s3' as [|c' r]; [exact Hw7|].
  rewrite in_two in Hw7. exact Hw7.
Qed.

Lemma jok_arena w w' live : jok w live → w' = with_arena w (jarena w') → Arena.rep (jarena w') live → jok w' live.
Proof. intros [R1 R2 R3] E Hr. rewrite E. split; [done|done|done]. Qed.

Lemma wp_parse_number w live s :
  at_rest w s → jok w live → 0 ≤ depth w ≤ COBALT_JSON_DOM_MAX_DEPTH →
  wp_or F (parse_number str) (value_done (ref_number s) s w) w.
Proof.
  intros Hw Hok Hd. unfold parse_number. apply wp_or_bind, wp_or_of, wp_get_pos.
  apply wp_or_bind, wp_or_of. eapply wp_scan_number; [exact Hw|]. intros i Hi Hw1.
  apply wp_or_bind, wp_or_of, wp_get_pos. cbn [pos with_pos].
  set (r := number_rest s) in *. assert (jok (with_pos w i) live) as Hok1 by (by eapply jok_moved).
  destruct Hw as (P1 & P2 & P3), Hw1 as (Q1 & Q2 & Q3). simpl in Q1, Q2, Q3.
  apply wp_or_bind, wp_or_of. eapply (wp_jalloc max_request);
    [exact Hok1|unfold JsonParse.max_request; lia|unfold JsonParse.max_request; lia| |].
  { intros w2 E2 Hok2 Hk2 Hlk2. rewrite Z.eqb_refl. apply wp_or_ret. split.
    - split; [split; rewrite E2; done|by rewrite E2|by exists live].
    - exists None, r, false. split_and!; [rewrite E2; done|lia|rewrite E2; simpl; by rewrite orb_false_r|done|by left]. }
  intros q w2 [E2 Hok2 Hk2 Hq _ _]. rewrite (proj2 (Z.eqb_neq _ _) Hq).
  eapply wp_scalar with (s1 := r) (t := JNumber (strtod (take (length s - length r) s)))
    (f := λ n, set_value n (Number (strtod (take (length s - length r) s))));
    [left|exact Hok2| |lia|done|done|done| | |done|by right].
  - split; [rewrite E2; done|exact Hk2].
  - rewrite E2. done.
  - intros h p Hp Hh. split; [done|]. eexists. split; [exact Hh|done].
  - intros p w3 Hp Hn. rewrite (proj2 (Z.eqb_neq _ _) Hp). rewrite P3.
    replace (Z.to_nat (i - pos w)) with (length s - length r)%nat by lia.
    unfold mbind, update_node, load_node. unfold mbind. by rewrite Hn.
Qed.

Lemma wp_word w live s word t ty ref :
  at_rest w s → jok w live → 0 ≤ depth w ≤ COBALT_JSON_DOM_MAX_DEPTH →
  take (length word) s = word → ref = (Some t, drop (length word) s, false) →
  nesting t = 0 → is_empty t = false →
  (∀ h st p, p ≠ NULL → h !! p = Some (fresh_node ty) → jval h st ∅ t p) →
  wp_or F (word_node word ty) (value_done ref s w) w.
Proof.
  intros Hw Hok Hd Hword Href Hn He Hj. unfold word_node. apply wp_or_bind, wp_or_of, wp_get_pos.
  apply wp_or_bind, wp_or_of, wp_set_pos.
  assert (length word ≤ length s)%nat as Hl by (rewrite <- Hword, length_take; lia).
  pose proof (at_rest_drop _ _ _ _ Hw Hl) as Hw1.
  assert (∀ Q w', wp_or F (p <- json_node_create ty ;; mret p) Q w' → wp_or F (json_node_create ty) Q w') as Hext.
  { intros Q w'. unfold wp_or, mbind, mret. by destruct (json_node_create ty w'). }
  apply Hext. eapply wp_scalar with (s1 := drop (length word) s) (t := t) (f := λ n, n);
    [left; apply moved_pos|by eapply jok_moved|exact Hw1|rewrite length_drop; lia|done|done|done| | |done|by right].
  - intros h p Hp Hh. by apply Hj.
  - intros p w2 Hp Hn2. unfold mret. rewrite insert_id by done. by destruct w2.
Qed.

Lemma wp_at_word w s word (Q : bool → jworld → Prop) :
  at_rest w s → Q (bool_decide (take (length word) s = word)) w → wp (at_word str word) Q w.
Proof. intros (_ & _ & Hd) HQ. unfold at_word, wp, mbind, get_pos, mret. by rewrite Hd. Qed.

Lemma wp_words w live s :
  at_rest w s → jok w live → 0 ≤ depth w ≤ COBALT_JSON_DOM_MAX_DEPTH →
  wp_or F (b <- at_word str true_word ;;
           if b : bool then word_node true_word JSON_TRUE
           else
             b <- at_word str false_word ;;
             if b : bool then word_node false_word JSON_FALSE
             else
               b <- at_word str null_word ;;
               if b : bool then word_node null_word JSON_NULL else mret NULL)
    (value_done (ref_word s) s w) w.
Proof.
  intros Hw Hok Hd. unfold ref_word.
  apply wp_or_bind, wp_or_of. eapply wp_at_word; [exact Hw|]. change (length true_word) with 4%nat. case_bool_decide as H1.
  { eapply (wp_word _ _ _ _ JTrue); [done|done|done|exact H1|done|done|done|]. intros h st p Hp Hh. split; [done|]. eauto. }
  apply wp_or_bind, wp_or_of. eapply wp_at_word; [exact Hw|]. change (length false_word) with 5%nat. case_bool_decide as H2.
  { eapply (wp_word _ _ _ _ JFalse); [done|done|done|exact H2|done|done|done|]. intros h st p Hp Hh. split; [done|]. eauto. }
  apply wp_or_bind, wp_or_of. eapply wp_at_word; [exact Hw|]. change (length null_word) with 4%nat. case_bool_decide as H3.
  { eapply (wp_word _ _ _ _ JNull); [done|done|done|exact H3|done|done|done|]. intros h st p Hp Hh. split; [done|]. eauto. }
  apply wp_or_ret. split.
  - split; [apply grows_refl|done|by exists live].
  - exists None, s, false. split_and!; [done|lia|by rewrite orb_false_r|done|by right].
Qed.

(** ** Values *)

Lemma value_done_skip ref s s1 w i r w' live :
  jok w live → (length s1 ≤ length s)%nat → value_done ref s1 (with_pos w i) r w' → value_done ref s w r w'.
Proof.
  intros Hok Hl [Ha (o & s' & ex & Hs & Hl' & Hx & Hr & Href)].
  split; [eapply advanced_trans; [by eapply advanced_pos|exact Ha]|].
  exists o, s', ex. split_and!; [done|lia|done| |done]. destruct o as [t|]; [|done]. by destruct Hr.
Qed.

Lemma nesting_elems ts k :
  Forall (λ t, nesting t + k + 1 ≤ COBALT_JSON_DOM_MAX_DEPTH) ts → k < COBALT_JSON_DOM_MAX_DEPTH →
  nesting (JArray ts) + k ≤ COBALT_JSON_DOM_MAX_DEPTH.
Proof. intros H Hk. cbn [nesting]. induction H as [|t ts Ht _ IH]; simpl; lia. Qed.

Lemma nesting_members ms k :
  Forall (λ m, mweight m + k + 1 ≤ COBALT_JSON_DOM_MAX_DEPTH) ms → k < COBALT_JSON_DOM_MAX_DEPTH →
  nesting (JObject ms) + k ≤ COBALT_JSON_DOM_MAX_DEPTH.
Proof. intros H Hk. cbn [nesting]. unfold mweight in H. induction H as [|t ts Ht _ IH]; simpl; lia. Qed.

(** The items and the inner nodes of a container are new and not its root. *)
Lemma building_region {A} {item : nheap → sheap → gset Z → Z → A → Prop} `{!ItemLaws item} weight w0 root ty w Y ps (xs : list A) :
  building (item := item) weight w0 root ty w Y ps xs →
  Y ⊆ added w0 w ∖ {[root]} ∧ ∀ p, p ∈ ps → p ∈ added w0 w ∖ {[root]}.
Proof.
  intros Hb. assert (∀ a, a ∈ root :: ps ∨ a ∈ Y → a ∈ added w0 w) as Hin.
  { intros a Ha. unfold added. apply elem_of_difference. split; [by eapply building_dom|by apply (bd_fresh _ _ _ _ _ _ _ _ Hb)]. }
  destruct (bd_linked _ _ _ _ _ _ _ _ Hb) as [_ _ [Hn _]%NoDup_cons Ha _ _]. split.
  - intros a HY. specialize (Hin a (or_intror HY)). assert (root ∉ Y) by (apply Ha; by left). set_solver.
  - intros p Hp. assert (p ∈ root :: ps) as Hp' by (by right). specialize (Hin p (or_introl Hp')). set_solver.
Qed.

Lemma building_array w0 root w Y ps ts :
  building (item := elem_item) nesting w0 root JSON_ARRAY w Y ps ts →
  jval (nodes w) (strs w) (added w0 w ∖ {[root]}) (JArray ts) root.
Proof.
  intros Hb. destruct (building_region _ _ _ _ _ _ _ _ Hb) as [HY Hps]. pose proof Hb as [[Hi Hc _ _ (rn & Hr & Ht & Hch & _) _] _ [live Hok] _ _ _].
  apply jval_array. destruct (jo_nodes _ _ Hok root) as [n Hn]; [apply elem_of_dom; eauto|].
  destruct (rep_block _ _ _ _ (jo_rep _ _ Hok) Hn) as (? & _). split; [unfold NULL; lia|].
  exists rn. split_and!; [done|done|]. rewrite Hch. by eapply linked_elems.
Qed.

Lemma building_object w0 root w Y ps ms :
  building (item := member_item) mweight w0 root JSON_OBJECT w Y ps ms →
  jval (nodes w) (strs w) (added w0 w ∖ {[root]}) (JObject ms) root.
Proof.
  intros Hb. destruct (building_region _ _ _ _ _ _ _ _ Hb) as [HY Hps]. pose proof Hb as [[Hi Hc _ _ (rn & Hr & Ht & Hch & _) _] _ [live Hok] _ _ _].
  apply jval_object. destruct (jo_nodes _ _ Hok root) as [n Hn]; [apply elem_of_dom; eauto|].
  destruct (rep_block _ _ _ _ (jo_rep _ _ Hok) Hn) as (? & _). split; [unfold NULL; lia|].
  exists rn. split_and!; [done|done|]. rewrite Hch. by eapply linked_members.
Qed.

(** The parser computes the reference parser, from any state and any depth. *)
Lemma wp_parse_value fuel : ∀ w live s,
  at_rest w s → jok w live → 0 ≤ depth w ≤ COBALT_JSON_DOM_MAX_DEPTH →
  COBALT_JSON_DOM_MAX_DEPTH < Z.of_nat fuel + depth w →
  wp_or F (json_parse_value str fuel) (value_done (ref_value (text_fuel str) fuel (depth w) s) s w) w.
Proof.
  induction fuel as [|fuel IH]; intros w live s Hw Hok Hd Hf; [lia|]. cbn [json_parse_value ref_value].
  apply wp_or_bind, wp_or_of. eapply wp_skip_ws; [exact Hw|]. intros i Hi Hw1. pose proof (skip_ws_length s) as Hsk.
  set (w1 := with_pos w i) in *. assert (jok w1 live) as Hok1 by (by apply (jok_moved w)).
  apply wp_or_bind, wp_or_of, wp_get_pos. rewrite (at_rest_char _ _ _ Hw1).
  destruct (skip_ws s) as [|c s1]; cbn [head].
  { apply wp_or_ret. split; [by eapply advanced_pos|]. exists None, [], false.
    split_and!; [done|simpl; lia|simpl; by rewrite orb_false_r|done|by right]. }
  assert (∀ s', at_rest w1 s' → (length s' ≤ length str)%nat) as Hls by (intros; by eapply at_rest_length).
  assert (∀ c' ref, wp_or F c' (value_done ref (c :: s1) w1) w1 → wp_or F c' (value_done ref s w) w1) as Hgo.
  { intros c' ref H. eapply wp_or_mono; [exact H|]. intros r w' Hv. eapply value_done_skip; [exact Hok| |exact Hv]. simpl in *. lia. }
  assert (∀ w' live' s', at_rest w' s' → jok w' live' → depth w' = depth w + 1 → depth w < COBALT_JSON_DOM_MAX_DEPTH →
    wp_or F (json_parse_value str fuel) (value_done (ref_value (text_fuel str) fuel (depth w + 1) s') s' w') w') as Hrec.
  { intros w' live' s' H1 H2 H3 H4. rewrite <- H3. apply (IH w' live' s'); [done|done|lia|lia]. }
  destruct (Z.eqb_spec c 123) as [->|H123]; [|destruct (Z.eqb_spec c 91) as [->|H91]; [|destruct (Z.eqb_spec c 34) as [->|H34]]].
  - apply Hgo. eapply (wp_container (item := member_item) mweight 123 125 JSON_OBJECT JObject _ _ (depth w));
      [done| |apply building_object|by intros [|? ?]|apply nesting_members|exact Hw1|exact Hok1|done].
    intros w0 root w' s' Hd0 Hlt Hb Hw'. apply (wp_members _ _ (depth w)) with (Y := ∅) (ps := []); [|done|done|done|].
    + intros w2 live2 s2 H1 H2 H3. by apply (Hrec w2 live2).
    + apply at_rest_length in Hw'. unfold text_fuel. lia.
  - apply Hgo. eapply (wp_container (item := elem_item) nesting 91 93 JSON_ARRAY JArray _ _ (depth w));
      [done| |apply building_array|by intros [|? ?]|apply nesting_elems|exact Hw1|exact Hok1|done].
    intros w0 root w' s' Hd0 Hlt Hb Hw'. apply (wp_elems _ _ (depth w)) with (Y := ∅) (ps := []); [|done|done|done|].
    + intros w2 live2 s2 H1 H2 H3. by apply (Hrec w2 live2).
    + apply at_rest_length in Hw'. unfold text_fuel. lia.
  - apply Hgo. apply wp_or_bind. eapply wp_or_mono; [by eapply wp_parse_string|].
    intros q w2 [Ha2 En2 Hx2 (o & s2 & Hw2 & Hl2 & Hq & Href2)]. destruct o as [b|].
    + destruct Hq as [Hqz Hqb]. rewrite (proj2 (Z.eqb_neq _ _) Hqz). destruct (ad_ok _ _ Ha2) as [live2 Hok2].
      eapply wp_scalar with (s1 := s2) (t := JString (cstr b)) (f := λ n, set_value n (String q));
        [right; by split|exact Hok2|exact Hw2|simpl; lia|done|done|done| | |done|].
      * intros h p Hp Hh. split; [done|]. eexists. split; [exact Hh|]. split; [done|]. exists q. split; [done|]. split; [done|]. by exists b.
      * intros p w3 Hp Hn. rewrite (proj2 (Z.eqb_neq _ _) Hp). unfold mbind, update_node, load_node. unfold mbind. by rewrite Hn.
      * destruct Href2 as [?|Href2]; [by left|right]. by rewrite Href2.
    + subst q. rewrite Z.eqb_refl. apply wp_or_ret. split; [done|]. exists None, s2, false.
      split_and!; [done|simpl; lia|by rewrite Hx2, orb_false_r|done|]. destruct Href2 as [?|Href2]; [by left|right]. by rewrite Href2.
  - destruct ((c =? 45) || isdigit c); apply Hgo; [by eapply wp_parse_number|by eapply wp_words].
Qed.
End text.
End JsonValue.
