(* ===== verification/JsonPrint.v ===== *)
(** * What the JSON serializer prints

    The text of a document, and that the serializer produces it, piece by
    piece, as long as the buffer can grow. *)
From S2P Require Import Prelude World Arena Double Json JsonRef JsonHeap JsonBuild JsonSer.

Module JsonPrint.
Import Double Json JsonRef JsonHeap JsonBuild JsonSer.

(** ** The text of a document *)

Definition quoted (s : list Z) : list Z := 34 :: concat (escape <$> s) ++ [34].

(** [xs] with commas between them. *)
Fixpoint commas (xs : list (list Z)) : list Z :=
  match xs with [] => [] | [x] => x | x :: xs => x ++ 44 :: commas xs end.

Fixpoint print (t : json) : list Z :=
  match t with
  | JNull => null_word
  | JTrue => true_word
  | JFalse => false_word
  | JNumber x => fmt_g17 x
  | JString s => quoted s
  | JArray ts => 91 :: commas (print <$> ts) ++ [93]
  | JObject ms => 123 :: commas ((λ m, quoted m.1 ++ 58 :: print m.2) <$> ms) ++ [125]
  end.

(** No empty container is followed by another element of its array. *)
Fixpoint clean (t : json) : bool :=
  match t with
  | JArray ts => forallb clean ts && forallb (λ t, negb (is_empty t)) (removelast ts)
  | JObject ms => forallb (λ m, clean m.2) ms
  | _ => true
  end.

(** The nodes of a document. *)
Fixpoint tsize (t : json) : nat :=
  match t with
  | JArray ts => S (sum_list_with tsize ts)
  | JObject ms => S (sum_list_with (λ m, tsize m.2) ms)
  | _ => 1
  end.

Lemma tsize_pos t : (1 ≤ tsize t)%nat.
Proof. destruct t; simpl; lia. Qed.

(** Copying a string that needs no escape is escaping it. *)
Lemma escape_plain s : existsb needs_escape s = false → concat (escape <$> s) = s.
Proof.
  induction s as [|c s IH]; [done|]. cbn [existsb]. intros [Hc Hs]%orb_false_iff.
  rewrite fmap_cons. cbn [concat]. rewrite IH by done.
  unfold needs_escape in Hc. apply orb_false_iff in Hc as [[H1 H2]%orb_false_iff H3].
  apply Z.eqb_neq in H1, H2. apply Z.ltb_ge in H3. unfold escape.
  repeat (rewrite (proj2 (Z.eqb_neq c _)) by lia). by rewrite (proj2 (Z.ltb_ge _ _)) by lia.
Qed.

(** ** The buffer *)

Section output.
(** [L] bounds the length of the output. *)
Variable L : Z.
Hypothesis HL : L < 2 ^ 60.

(** Only the number of requests changes. *)
Definition same_doc (w w' : jworld) : Prop :=
  nodes w' = nodes w ∧ strs w' = strs w ∧ oracle (jarena w') = oracle (jarena w) ∧
  obj (jarena w') = obj (jarena w) ∧ heap (jarena w') = heap (jarena w) ∧ brk (jarena w') = brk (jarena w).

(** Some request of at most [n] bytes is refused. *)
Definition refused (n : Z) (w : jworld) : Prop := ∃ k m, m ≤ n ∧ oracle (jarena w) k m = false.
Abbreviation bound := (4 * (L + 256)).

Lemma same_doc_refl w : same_doc w w.
Proof. done. Qed.
Lemma same_doc_trans w1 w2 w3 : same_doc w1 w2 → same_doc w2 w3 → same_doc w1 w3.
Proof. intros (A1 & A2 & A3 & A4 & A5 & A6) (B1 & B2 & B3 & B4 & B5 & B6). split_and!; congruence. Qed.
Lemma same_doc_refused n w w' : same_doc w w' → refused n w' → refused n w.
Proof. intros (_ & _ & E & _) (k & m & Hm & H). exists k, m. split; congruence. Qed.

Record bok (b : json_buf) : Prop := {
  bk_oom : oom b = false;
  bk_len : buf_len b + 1 ≤ cap b;
  bk_cap : cap b ≤ 4 * (L + 256)
}.

(** [acc] is written, or a request was refused and output has stopped. *)
Definition out (w0 : jworld) (acc : list Z) (b : json_buf) (w : jworld) : Prop :=
  same_doc w0 w ∧ ((oom b = true ∧ refused bound w0) ∨ (bok b ∧ data b = acc)).

Lemma wp_buf_ensure w b n (Q : bool * json_buf → jworld → Prop) :
  bok b → 0 ≤ n → buf_len b + n ≤ L →
  (∀ w', same_doc w w' → refused bound w → ∀ b', oom b' = true → Q (false, b') w') →
  (∀ w' b', same_doc w w' → bok b' → data b' = data b → buf_len b + n + 1 ≤ cap b' → Q (true, b') w') →
  wp (buf_ensure b n) Q w.
Proof.
  intros [B1 B2 B3] Hn Hl Hno Hyes. unfold buf_ensure. rewrite B1. rewrite wrap64_small by (unfold buf_len in *; lia).
  destruct (Z.ltb_spec (cap b) (buf_len b + n + 1)) as [Hlt|Hge].
  2: { apply wp_ret. apply Hyes; [apply same_doc_refl|by split|done|lia]. }
  rewrite wrap64_small by (unfold buf_len in *; lia). set (nc := if _ <? 512 then 512 else _).
  assert (buf_len b + n + 1 ≤ nc ≤ 4 * (L + 256)) as Hnc.
  { unfold nc. destruct (Z.ltb_spec ((cap b + n + 1) * 2) 512); unfold buf_len in *; lia. }
  wp_step. unfold wp, allocator_realloc, on_arena, request. simpl.
  destruct (oracle (jarena w) (allocs (jarena w)) nc) eqn:Eo; simpl.
  - apply Hyes; simpl; [done|split; simpl; [done|unfold buf_len in *; simpl; lia|lia]|done|lia].
  - apply Hno; [done|eexists _, nc; split; [lia|exact Eo]|done].
Qed.

Lemma wp_buf_write w b s (Q : json_buf → jworld → Prop) :
  buf_len b + Z.of_nat (length s) ≤ cap b → Q (Buf (data b ++ s) (cap b) (oom b)) w → wp (buf_write b s) Q w.
Proof. intros Hle HQ. unfold buf_write. by rewrite (proj2 (Z.ltb_ge _ _)) by lia. Qed.

Lemma wp_append_str w0 acc w b s :
  out w0 acc b w → Z.of_nat (length (acc ++ s)) ≤ L → wp (buf_append_str b s) (out w0 (acc ++ s)) w.
Proof.
  intros [Hsd Hb] Hl. unfold buf_append_str. rewrite length_app in Hl. destruct s as [|c s].
  { apply wp_ret. rewrite app_nil_r. by split. }
  set (cs := c :: s) in *. destruct Hb as [[Ho Hr]|[Hb Ed]].
  { wp_step. unfold buf_ensure. rewrite Ho. do 2 apply wp_ret. split; [done|]. by left. }
  wp_step. apply wp_buf_ensure; [done|lia|unfold buf_len; rewrite Ed; lia| |].
  - intros w' Hs Hr b' Ho. simpl. apply wp_ret. split; [by eapply same_doc_trans|]. left. split; [done|]. by eapply same_doc_refused.
  - intros w' b' Hs Hb' Ed' Hc. simpl. apply wp_buf_write; [unfold buf_len; rewrite Ed'; fold (buf_len b); lia|].
    split; [by eapply same_doc_trans|]. right. destruct Hb'. split; [|simpl; by rewrite Ed', Ed].
    split; simpl; [done| |done]. unfold buf_len in *. simpl. rewrite Ed', length_app. lia.
Qed.

Lemma wp_append_char w0 acc w b c :
  out w0 acc b w → Z.of_nat (length (acc ++ [c])) ≤ L → wp (buf_append_char b c) (out w0 (acc ++ [c])) w.
Proof. apply (wp_append_str w0 acc w b [c]). Qed.

Lemma wp_append_escapes s : ∀ w0 acc w b,
  out w0 acc b w → Z.of_nat (length (acc ++ concat (escape <$> s))) ≤ L →
  wp (append_escapes b s) (λ r w', out w0 (acc ++ concat (escape <$> s)) r.1 w' ∧ (r.2 = false → oom r.1 = true)) w.
Proof.
  induction s as [|c s IH]; intros w0 acc w b Hb Hl; cbn [append_escapes].
  { apply wp_ret. simpl. by rewrite app_nil_r. }
  rewrite fmap_cons in *. cbn [concat] in *. rewrite app_assoc in *. wp_step. eapply wp_mono.
  { apply wp_append_str; [exact Hb|]. rewrite length_app in Hl. lia. }
  intros b1 w1 Hb1. destruct (oom b1) eqn:Eo; [|by apply IH]. apply wp_ret. simpl. split; [|done].
  destruct Hb1 as [Hs [[_ Hr]|[[B1 _ _] _]]]; [|congruence]. split; [done|]. by left.
Qed.

Lemma wp_append_quoted w0 acc w b s :
  out w0 acc b w → Z.of_nat (length (acc ++ quoted s)) ≤ L →
  wp (buf_append_escaped_string b s) (out w0 (acc ++ quoted s)) w.
Proof.
  intros Hb Hl. unfold buf_append_escaped_string, quoted in *. rewrite !length_app in Hl. simpl in Hl. rewrite length_app in Hl. simpl in Hl.
  replace (acc ++ 34 :: concat (escape <$> s) ++ [34]) with (((acc ++ [34]) ++ concat (escape <$> s)) ++ [34])
    by (rewrite <- !app_assoc; done).
  wp_step. eapply wp_mono; [apply wp_append_char; [exact Hb|rewrite length_app; simpl; lia]|]. intros b1 w1 Hb1.
  destruct (existsb needs_escape s) eqn:Ee; cbn [negb].
  - wp_step. eapply wp_mono; [apply wp_append_escapes; [exact Hb1|rewrite !length_app; simpl; lia]|].
    intros [b2 ok] w2 [Hb2 Hok]. simpl in *. destruct ok.
    + apply wp_append_char; [exact Hb2|rewrite !length_app; simpl; lia].
    + apply wp_ret. destruct Hb2 as [Hs [[Ho Hr]|[[B1 _ _] _]]]; [|by rewrite Hok in B1]. split; [done|by left].
  - rewrite (escape_plain s Ee) in *. wp_step.
    eapply wp_mono; [apply wp_append_str; [exact Hb1|rewrite !length_app; simpl; lia]|]. intros b2 w2 Hb2.
    apply wp_append_char; [exact Hb2|rewrite !length_app; simpl; lia].
Qed.

(** ** Nodes *)

(** What is still to print of the items [xs]. *)
Definition remaining (first : bool) (xs : list (list Z)) : list Z :=
  match xs with [] => [] | _ => (if first then [] else [44]) ++ commas xs end.

Lemma commas_cons x xs : commas (x :: xs) = x ++ remaining false xs.
Proof. destruct xs; simpl; [by rewrite app_nil_r|done]. Qed.

Lemma remaining_cons first x xs :
  remaining first (x :: xs) = (if first then [] else [44]) ++ x ++ remaining false xs.
Proof. unfold remaining at 1. by rewrite commas_cons. Qed.

Lemma wp_comma w0 acc w b (first : bool) :
  out w0 acc b w → Z.of_nat (length (acc ++ if first then [] else [44])) ≤ L →
  wp (if first then mret b else buf_append_char b 44) (out w0 (acc ++ if first then [] else [44])) w.
Proof. intros Hb Hl. destruct first; [apply wp_ret; by rewrite app_nil_r|by apply wp_append_char]. Qed.

Lemma out_oom w0 acc acc' b w : oom b = true → out w0 acc b w → out w0 acc' b w.
Proof. intros Ho [Hs [[_ Hr]|[[B _ _] _]]]; [split; [done|by left]|congruence]. Qed.

Lemma wp_load_same w0 acc b w p n (Q : json_node → jworld → Prop) :
  out w0 acc b w → nodes w0 !! p = Some n → Q n w → wp (load_node p) Q w.
Proof. intros [(E & _) _] Hn HQ. eapply wp_load_jnode; [by rewrite E|done]. Qed.

(** The serializer prints [t], from any buffer. *)
Definition prints (w0 : jworld) (f : nat) (X : gset Z) (t : json) : Prop := ∀ p acc w b,
  jval (nodes w0) (strs w0) X t p → clean t = true → unlinked (nodes w0) t p → (tsize t ≤ f)%nat →
  out w0 acc b w → Z.of_nat (length (acc ++ print t)) ≤ L →
  wp (serialize_node f p b) (out w0 (acc ++ print t)) w.

Lemma wp_elem_loop w0 f X ts : Forall (prints w0 f X) ts → ∀ fuel q first acc w b,
  elems (nodes w0) (strs w0) X ts q → forallb clean ts = true →
  forallb (λ t, negb (is_empty t)) (removelast ts) = true →
  Forall (λ t, tsize t ≤ f)%nat ts → (length ts < fuel)%nat →
  out w0 acc b w → Z.of_nat (length (acc ++ remaining first (print <$> ts))) ≤ L →
  wp (loop fuel (elem_body (serialize_node f)) (q, first, b)) (out w0 (acc ++ remaining first (print <$> ts))) w.
Proof.
  induction 1 as [|t ts Ht _ IH]; intros [|fuel] q first acc w b Hq Hcl Hne Hsz Hf Hb Hl; simpl in Hf; try lia.
  { simpl in Hq. subst q. cbn [loop elem_body]. apply wp_bind. simpl. do 2 apply wp_ret. by rewrite app_nil_r. }
  destruct Hq as (HqX & Hv & m & Hm & Hq). destruct (jval_node _ _ _ _ _ Hv) as [Hq0 _].
  cbn [forallb] in Hcl. apply andb_true_iff in Hcl as [Hc Hcl]. apply Forall_cons in Hsz as [Hsz1 Hsz].
  rewrite fmap_cons, remaining_cons in *. rewrite !app_assoc in *.
  cbn [loop elem_body]. rewrite (proj2 (Z.eqb_neq _ _) Hq0). simpl. destruct (oom b) eqn:Eo.
  { apply wp_bind. do 2 apply wp_ret. by eapply out_oom. }
  rewrite !length_app in Hl. apply wp_bind. wp_step. eapply wp_mono; [apply wp_comma; [exact Hb|rewrite length_app; lia]|].
  intros b1 w1 Hb1. wp_step. eapply wp_mono; [apply Ht; [exact Hv|done| |done|exact Hb1|rewrite !length_app; lia]|].
  - intros He. exists m. split; [done|]. destruct ts as [|t' ts]; [exact Hq|].
    cbn [removelast forallb] in Hne. by rewrite He in Hne.
  - intros b2 w2 Hb2. wp_step. eapply wp_load_same; [exact Hb2|exact Hm|]. apply wp_ret.
    apply IH; [done|done| |done|lia|exact Hb2|rewrite !length_app; lia].
    destruct ts as [|t' ts]; [done|]. cbn [removelast forallb] in Hne. by apply andb_true_iff in Hne as [_ ?].
Qed.

Definition print_member (m : list Z * json) : list Z := quoted m.1 ++ 58 :: print m.2.

Lemma wp_load_cstr w0 acc b w p s (Q : list Z → jworld → Prop) :
  out w0 acc b w → string_at (strs w0) p s → Q s w → wp (load_cstr p) Q w.
Proof. intros [(_ & E & _) _] (_ & x & Hx & <-) HQ. unfold wp, load_cstr. by rewrite E, Hx. Qed.

Lemma wp_member_loop w0 f X ms : Forall (λ m, prints w0 f X m.2) ms → ∀ fuel q first acc w b,
  members (nodes w0) (strs w0) X ms q → forallb (λ m, clean m.2) ms = true →
  Forall (λ m, tsize m.2 ≤ f)%nat ms → (length ms < fuel)%nat →
  out w0 acc b w → Z.of_nat (length (acc ++ remaining first (print_member <$> ms))) ≤ L →
  wp (loop fuel (member_body (serialize_node f)) (q, first, b)) (out w0 (acc ++ remaining first (print_member <$> ms))) w.
Proof.
  induction 1 as [|[k v] ms Ht _ IH]; intros [|fuel] q first acc w b Hq Hcl Hsz Hf Hb Hl; simpl in Hf; try lia.
  { simpl in Hq. subst q. cbn [loop member_body]. apply wp_bind. simpl. do 2 apply wp_ret. by rewrite app_nil_r. }
  destruct Hq as (HqX & Hq0 & m & Hm & Hk & Hcx & Hv & Hu & Hq). destruct (jval_node _ _ _ _ _ Hv) as [Hv0 _].
  cbn [forallb] in Hcl. apply andb_true_iff in Hcl as [Hc Hcl]. apply Forall_cons in Hsz as [Hsz1 Hsz].
  rewrite fmap_cons, remaining_cons in *. unfold print_member at 1 in Hl. unfold print_member at 1.
  cbn [fst snd] in *. rewrite !app_assoc in *.
  cbn [loop member_body]. rewrite (proj2 (Z.eqb_neq _ _) Hq0). simpl. destruct (oom b) eqn:Eo.
  { apply wp_bind. do 2 apply wp_ret. by eapply out_oom. }
  rewrite !length_app in Hl. cbn [length] in Hl. apply wp_bind. wp_step. eapply wp_mono; [apply wp_comma; [exact Hb|rewrite length_app; lia]|].
  intros b1 w1 Hb1. wp_step. eapply wp_load_same; [exact Hb1|exact Hm|]. wp_step. pose proof Hk as [Hk0 _].
  rewrite (proj2 (Z.eqb_neq _ _) Hk0). eapply wp_load_cstr; [exact Hb1|exact Hk|]. wp_step.
  eapply wp_mono; [apply wp_append_quoted; [exact Hb1|rewrite !length_app; lia]|]. intros b2 w2 Hb2. wp_step.
  eapply wp_mono; [apply wp_append_char; [exact Hb2|rewrite !length_app; cbn [length]; lia]|]. intros b3 w3 Hb3. wp_step.
  rewrite (proj2 (Z.eqb_neq _ _) Hv0).
  eapply wp_mono; [apply Ht; [exact Hv|done|exact Hu|done|exact Hb3|rewrite !length_app; cbn [length]; lia]|].
  intros b4 w4 Hb4. wp_step. unfold next_member. rewrite (proj2 (Z.eqb_neq _ _) Hv0). cbn [negb]. do 2 apply wp_ret.
  replace ((((acc ++ (if first then [] else [44])) ++ quoted k) ++ 58 :: print v) ++ remaining false (print_member <$> ms))
    with (((((acc ++ (if first then [] else [44])) ++ quoted k) ++ [58]) ++ print v) ++ remaining false (print_member <$> ms))
    by (rewrite <- !app_assoc; done).
  apply IH; [done|done|done|lia|exact Hb4|rewrite !length_app; cbn [length]; lia].
Qed.

Lemma tsize_elems ts f : (sum_list_with tsize ts ≤ f)%nat → Forall (λ t, tsize t ≤ f)%nat ts ∧ (length ts ≤ f)%nat.
Proof.
  revert f. induction ts as [|t ts IH]; intros f; simpl; [split; [constructor|lia]|]. intros H.
  pose proof (tsize_pos t). destruct (IH (f - tsize t)%nat ltac:(lia)) as [H1 H2]. split; [|lia].
  constructor; [lia|]. eapply Forall_impl; [exact H1|]. simpl. lia.
Qed.

Lemma tsize_members (ms : list (list Z * json)) f : (sum_list_with (λ m, tsize m.2) ms ≤ f)%nat →
  Forall (λ m, tsize m.2 ≤ f)%nat ms ∧ (length ms ≤ f)%nat.
Proof.
  revert f. induction ms as [|m ms IH]; intros f; simpl; [split; [constructor|lia]|]. intros H.
  pose proof (tsize_pos m.2). destruct (IH (f - tsize m.2)%nat ltac:(lia)) as [H1 H2]. split; [|lia].
  constructor; [lia|]. eapply Forall_impl; [exact H1|]. simpl. lia.
Qed.

(** The first child of a container; an empty one has none, because its node is
    not linked to a sibling. *)
Lemma first_child_array h st X ts p n :
  elems h st X ts (child n) → unlinked h (JArray ts) p → h !! p = Some n → first_child n = child n.
Proof.
  intros He Hu Hn. unfold first_child. destruct ts as [|t ts]; simpl in He.
  - rewrite He. simpl. destruct (Hu eq_refl) as (vn & Hvn & Hnx). assert (vn = n) as -> by congruence. done.
  - destruct He as (_ & Hv & _). destruct (jval_node _ _ _ _ _ Hv) as [H0 _]. by rewrite (proj2 (Z.eqb_neq _ _) H0).
Qed.

Lemma first_child_object h st X ms p n :
  members h st X ms (child n) → unlinked h (JObject ms) p → h !! p = Some n → first_child n = child n.
Proof.
  intros He Hu Hn. unfold first_child. destruct ms as [|[k v] ms]; simpl in He.
  - rewrite He. simpl. destruct (Hu eq_refl) as (vn & Hvn & Hnx). assert (vn = n) as -> by congruence. done.
  - destruct He as (_ & H0 & _). by rewrite (proj2 (Z.eqb_neq _ _) H0).
Qed.

Lemma remaining_true xs : remaining true xs = commas xs.
Proof. by destruct xs. Qed.

Lemma prints_all w0 X t : ∀ f, prints w0 f X t.
Proof.
  induction t as [| | |x|s|ts IH|ms IH] using json_ind'; intros f p acc w b Hv Hcl Hu Hf Hb Hl;
    (destruct f as [|f]; [simpl in Hf; lia|]); cbn [serialize_node];
    (destruct (oom b) eqn:Eo; [apply wp_ret; by eapply out_oom|]);
    destruct Hv as (Hp & n & Hn & Hv); rewrite (proj2 (Z.eqb_neq _ _) Hp); wp_step;
    (eapply wp_load_same; [exact Hb|exact Hn|]).
  1-3: rewrite Hv; by apply wp_append_str.
  - destruct Hv as [-> ->]. by apply wp_append_str.
  - destruct Hv as (-> & q & Eq & Hs). unfold serialize_string. rewrite Eq. simpl. pose proof Hs as [Hq0 _].
    rewrite (proj2 (Z.eqb_neq _ _) Hq0). wp_step. eapply wp_load_cstr; [exact Hb|exact Hs|]. by apply wp_append_quoted.
  - destruct Hv as [Ht Hv]. change (elems (nodes w0) (strs w0) X ts (child n)) in Hv. rewrite Ht. unfold serialize_array.
    rewrite (first_child_array _ _ _ _ _ _ Hv Hu Hn). cbn [clean] in Hcl. apply andb_true_iff in Hcl as [Hc1 Hc2].
    cbn [tsize] in Hf. destruct (tsize_elems ts f ltac:(lia)) as [Hsz Hlen].
    cbn [print] in *. rewrite <- remaining_true in *. rewrite !length_app in Hl. cbn [length] in Hl. rewrite length_app in Hl. cbn [length] in Hl.
    replace (acc ++ 91 :: remaining true (print <$> ts) ++ [93]) with (((acc ++ [91]) ++ remaining true (print <$> ts)) ++ [93])
      by (rewrite <- !app_assoc; done).
    wp_step. eapply wp_mono; [apply wp_append_char; [exact Hb|rewrite !length_app; cbn [length]; lia]|]. intros b1 w1 Hb1. wp_step.
    eapply wp_mono; [eapply (wp_elem_loop w0 f X ts); [|exact Hv|exact Hc1|exact Hc2|exact Hsz|lia|exact Hb1|rewrite !length_app; cbn [length]; lia]|].
    + eapply Forall_impl; [exact IH|]. by intros t Ht'.
    + intros b2 w2 Hb2. apply wp_append_char; [exact Hb2|rewrite !length_app; cbn [length]; lia].
  - destruct Hv as [Ht Hv]. change (members (nodes w0) (strs w0) X ms (child n)) in Hv. rewrite Ht. unfold serialize_object.
    rewrite (first_child_object _ _ _ _ _ _ Hv Hu Hn). cbn [clean] in Hcl.
    cbn [tsize] in Hf. destruct (tsize_members ms f ltac:(lia)) as [Hsz Hlen].
    cbn [print] in *. fold print_member in *. rewrite <- remaining_true in *. rewrite !length_app in Hl. cbn [length] in Hl. rewrite length_app in Hl. cbn [length] in Hl.
    replace (acc ++ 123 :: remaining true (print_member <$> ms) ++ [125]) with (((acc ++ [123]) ++ remaining true (print_member <$> ms)) ++ [125])
      by (rewrite <- !app_assoc; done).
    wp_step. eapply wp_mono; [apply wp_append_char; [exact Hb|rewrite !length_app; cbn [length]; lia]|]. intros b1 w1 Hb1. wp_step.
    eapply wp_mono; [eapply (wp_member_loop w0 f X ms); [|exact Hv|exact Hcl|exact Hsz|lia|exact Hb1|rewrite !length_app; cbn [length]; lia]|].
    + eapply Forall_impl; [exact IH|]. by intros t Ht'.
    + intros b2 w2 Hb2. apply wp_append_char; [exact Hb2|rewrite !length_app; cbn [length]; lia].
Qed.
End output.

(** ** Documents of a state *)

Definition doc (w : jworld) (p : Z) (t : json) : Prop :=
  jval (nodes w) (strs w) (dom (nodes w)) t p ∧ unlinked (nodes w) t p.

Lemma wp_realloc w n (Q : bool → jworld → Prop) :
  (∀ w', same_doc w w' → Q true w') → (∀ w', same_doc w w' → refused n w → Q false w') →
  wp (allocator_realloc n) Q w.
Proof.
  intros H1 H2. unfold wp, allocator_realloc, on_arena, request. destruct (oracle _ _ _) eqn:Eo; [by apply H1|].
  apply H2; [done|]. eexists _, n. split; [lia|exact Eo].
Qed.

(** The largest request of the serializer. *)
Definition serialize_bytes (t : json) : Z := 4 * (Z.of_nat (length (print t)) + 512).

(** The whole serialization: the text, or NULL or an empty object when a
    request was refused. *)
Lemma wp_serialize w p t fuel :
  doc w p t → clean t = true → Z.of_nat (length (print t)) < 2 ^ 59 → (tsize t ≤ fuel)%nat →
  wp (json_serialize fuel p) (λ r w', same_doc w w' ∧
    (r = Some (print t) ∨ (refused (serialize_bytes t) w ∧ (r = None ∨ r = Some [123; 125])))) w.
Proof.
  intros [Hv Hu] Hcl Hl Hf. unfold json_serialize, json_serialize_with_alloc.
  destruct (jval_node _ _ _ _ _ Hv) as [Hp _]. rewrite (proj2 (Z.eqb_neq _ _) Hp).
  assert (∀ w', same_doc w w' → refused (serialize_bytes t) w → wp (jstrdup [123; 125]) (λ r w', same_doc w w' ∧
    (r = Some (print t) ∨ (refused (serialize_bytes t) w ∧ (r = None ∨ r = Some [123; 125])))) w') as Hdup.
  { intros w' Hs Hr. unfold jstrdup. wp_step. unfold wp, on_arena, request. simpl. split; [done|]. right. split; [done|].
    destruct (oracle _ _ _); [by right|by left]. }
  set (L := Z.of_nat (length (print t)) + 256).
  wp_step. unfold buf_ensure at 1. cbn [oom cap data]. change (0 <? wrap64 _) with true. cbv iota zeta.
  change (if _ <? 512 then 512 else _) with 514. wp_step. apply wp_realloc; [|intros w' Hs (k & m & Hm & Hr); apply wp_ret, Hdup; [done|]; exists k, m; split; [unfold serialize_bytes; lia|done]].
  intros w1 Hs1. apply wp_ret. cbn [fst snd negb]. wp_step.
  eapply wp_mono; [apply (prints_all L ltac:(unfold L; lia) w (dom (nodes w)) t fuel p []); [done|done|done|done| |simpl; unfold L; lia]|].
  - split; [done|]. right. split; [|done]. split; simpl; [done|unfold buf_len; simpl; lia|unfold L; lia].
  - intros b w' [Hs [[Ho Hr]|[[B1 B2 B3] Ed]]].
    + rewrite Ho. apply Hdup; [done|]. unfold serialize_bytes. by replace (4 * _) with (4 * (L + 256)) by (unfold L; lia).
    + rewrite B1. rewrite (proj2 (Z.leb_gt _ _)) by lia. apply wp_ret. split; [done|]. left. by rewrite Ed.
Qed.
End JsonPrint.
