(* ===== verification/JsonGrammar.v ===== *)
(** * The JSON parser against the grammar of JSON

    Which texts stand for a document: blanks between the tokens, all escapes
    including surrogate pairs (as UTF-8 by [utf8], the definition of RFC 3629),
    numbers in any notation.  The reference parser
    reads every such text, provided the containers are not nested too deep and
    no object that ends in two closing braces is followed by a comma: behind
    the members of an object the parser consumes up to two braces. *)
From S2P Require Import Prelude World Double Json JsonRef JsonSer JsonPrint.

Module JsonGrammar.
Import Double Json JsonRef JsonSer JsonPrint.

(** ** Texts *)

Definition blank (s : list Z) : Prop := Forall (λ c, c ∈ [32; 9; 10; 13]) s.

Definition hex_of (c v : Z) : Prop :=
  (48 ≤ c ≤ 57 ∧ v = c - 48) ∨ (65 ≤ c ≤ 70 ∧ v = c - 55) ∨ (97 ≤ c ≤ 102 ∧ v = c - 87).

(** Four hexadecimal digits. *)
Definition hex4_text (cs : list Z) (v : Z) : Prop :=
  ∃ c1 c2 c3 c4 v1 v2 v3 v4, cs = [c1; c2; c3; c4] ∧
    hex_of c1 v1 ∧ hex_of c2 v2 ∧ hex_of c3 v3 ∧ hex_of c4 v4 ∧
    v = 16 * (16 * (16 * v1 + v2) + v3) + v4.

(** The bytes that one character of a string stands for. *)
Inductive char_text : list Z → list Z → Prop :=
  | ct_plain c : 0x20 ≤ c → c ≠ 34 → c ≠ 92 → char_text [c] [c]
  | ct_quote : char_text [34] [92; 34]
  | ct_backslash : char_text [92] [92; 92]
  | ct_slash : char_text [47] [92; 47]
  | ct_b : char_text [8] [92; 98]
  | ct_f : char_text [12] [92; 102]
  | ct_n : char_text [10] [92; 110]
  | ct_r : char_text [13] [92; 114]
  | ct_t : char_text [9] [92; 116]
  | ct_unicode cs v : hex4_text cs v → ¬ (0xD800 ≤ v ≤ 0xDFFF) →
      char_text (utf8 v) (92 :: 117 :: cs)
  | ct_pair cs ds v u : hex4_text cs v → hex4_text ds u → 0xD800 ≤ v ≤ 0xDBFF → 0xDC00 ≤ u ≤ 0xDFFF →
      char_text (utf8 (surrogates v u)) (92 :: 117 :: cs ++ 92 :: 117 :: ds).

Inductive chars_text : list Z → list Z → Prop :=
  | cs_nil : chars_text [] []
  | cs_cons b cs bs s : char_text b cs → chars_text bs s → chars_text (b ++ bs) (cs ++ s).

(** A string without NUL bytes. *)
Definition string_text (bs cs : list Z) : Prop := chars_text bs cs ∧ Forall (λ c, c ≠ 0) bs.

Section separated.
Context {A : Type} (item : A → list Z → Prop).

(** Items with commas between them and blanks around them. *)
Fixpoint separated (xs : list A) (body : list Z) : Prop :=
  match xs with
  | [] => blank body
  | x :: xs =>
      ∃ a v b, blank a ∧ item x v ∧ blank b ∧
        match xs with
        | [] => body = a ++ v ++ b
        | _ => ∃ r, body = a ++ v ++ b ++ 44 :: r ∧ separated xs r
        end
  end.
End separated.

Definition member_text (value_text : json → list Z → Prop) (m : list Z * json) (s : list Z) : Prop :=
  ∃ k a b u, s = 34 :: k ++ 34 :: a ++ 58 :: b ++ u ∧
    string_text m.1 k ∧ blank a ∧ blank b ∧ value_text m.2 u.

Fixpoint value_text (t : json) (s : list Z) : Prop :=
  match t with
  | JNull => s = null_word
  | JTrue => s = true_word
  | JFalse => s = false_word
  | JNumber x => number_text s ∧ strtod s = x
  | JString bs => ∃ cs, s = 34 :: cs ++ [34] ∧ string_text bs cs
  | JArray ts => ∃ body, s = 91 :: body ++ [93] ∧ separated value_text ts body
  | JObject ms =>
      ∃ body, s = 123 :: body ++ [125] ∧
        separated (λ m s, ∃ k a b u, s = 34 :: k ++ 34 :: a ++ 58 :: b ++ u ∧
          string_text m.1 k ∧ blank a ∧ blank b ∧ value_text m.2 u) ms body
  end.

(** A whole text. *)
Definition json_text (t : json) (s : list Z) : Prop :=
  ∃ a v b, s = a ++ v ++ b ∧ blank a ∧ value_text t v ∧ blank b.

(** How many objects with members end together at the end of [t]. *)
Fixpoint closers (t : json) : nat :=
  match t with
  | JObject ms =>
      (fix go ms := match ms with
                    | [] => 0%nat
                    | [m] => S (closers m.2)
                    | _ :: ms => go ms
                    end) ms
  | _ => 0
  end.

(** No two objects that end together are followed by a comma. *)
Fixpoint calm (t : json) : bool :=
  match t with
  | JArray ts => forallb calm ts && forallb (λ t, (closers t <=? 1)%nat) (removelast ts)
  | JObject ms => forallb (λ m, calm m.2) ms && forallb (λ m, (closers m.2 <=? 1)%nat) (removelast ms)
  | _ => true
  end.

(** ** Strings *)

Lemma blank_space c : c ∈ [32; 9; 10; 13] ↔ is_space c = true.
Proof.
  unfold is_space. rewrite !orb_true_iff, !Z.eqb_eq, !elem_of_cons. pose proof (not_elem_of_nil c). tauto.
Qed.

Lemma hex_of_value c v : hex_of c v → hex_value c = Some v.
Proof.
  intros [[? ->]|[[? ->]|[? ->]]]; unfold hex_value, isdigit;
    repeat (case_match; rewrite ?andb_true_iff, ?andb_false_iff, ?Z.leb_le, ?Z.leb_gt in *); (done || (exfalso; lia)).
Qed.

Lemma hex_value_range c v : hex_value c = Some v → 0 ≤ v < 16 ∧ 48 ≤ c.
Proof.
  unfold hex_value, isdigit. repeat case_match; intros; simplify_eq; rewrite ?andb_true_iff, ?Z.leb_le in *; lia.
Qed.

Lemma hex_not_space c v : hex_value c = Some v →
  ((c =? 32) || ((9 <=? c) && (c <=? 13))) = false ∧ (c =? 45) = false ∧ (c =? 43) = false ∧ (c =? 120) = false ∧ (c =? 88) = false.
Proof.
  intros H. pose proof (hex_value_range c v H). split_and!; try (apply Z.eqb_neq; intros ->; done).
  rewrite orb_false_iff, andb_false_iff, Z.eqb_neq, !Z.leb_gt. lia.
Qed.

Lemma strtol16_hex cs v : hex4_text cs v → strtol16 cs = v ∧ 0 ≤ v < 65536.
Proof.
  intros (c1 & c2 & c3 & c4 & v1 & v2 & v3 & v4 & -> & H1%hex_of_value & H2%hex_of_value & H3%hex_of_value & H4%hex_of_value & ->).
  destruct (hex_not_space _ _ H1) as (S1 & M1 & P1 & _). destruct (hex_not_space _ _ H2) as (_ & _ & _ & X2 & Y2).
  pose proof (hex_value_range _ _ H1). pose proof (hex_value_range _ _ H2).
  pose proof (hex_value_range _ _ H3). pose proof (hex_value_range _ _ H4).
  unfold strtol16. cbn [skip_isspace]. rewrite S1, M1, P1. unfold skip_0x. rewrite X2, Y2, andb_false_r. cbn [andb].
  cbn [hex_digits]. rewrite H1, H2, H3, H4. unfold wrap32. split; [|lia]. rewrite Z.mod_small; lia.
Qed.

Lemma hex4_length cs v : hex4_text cs v → length cs = 4%nat.
Proof. by intros (? & ? & ? & ? & ? & ? & ? & ? & -> & _). Qed.

Lemma ref_unicode_one cs v r : hex4_text cs v → ¬ (0xD800 ≤ v ≤ 0xDFFF) →
  ref_unicode (cs ++ r) = Some (utf8 v, r).
Proof.
  intros H Hv. pose proof (hex4_length _ _ H) as Hl. destruct (strtol16_hex _ _ H) as [E _]. unfold ref_unicode.
  rewrite (proj2 (Nat.ltb_ge _ _)) by (rewrite length_app; lia).
  rewrite take_app_le, take_ge, E by lia. rewrite (drop_app_ge _ _ 4), Hl by lia. rewrite Nat.sub_diag, drop_0.
  destruct (Z.leb_spec 0xD800 v), (Z.leb_spec v 0xDBFF), (Z.leb_spec 0xDC00 v), (Z.leb_spec v 0xDFFF); simpl; try done; lia.
Qed.

Lemma ref_unicode_pair cs ds v u r :
  hex4_text cs v → hex4_text ds u → 0xD800 ≤ v ≤ 0xDBFF → 0xDC00 ≤ u ≤ 0xDFFF →
  ref_unicode (cs ++ 92 :: 117 :: ds ++ r) =
    Some (utf8 (surrogates v u), r).
Proof.
  intros Hc Hd Hv Hu. pose proof (hex4_length _ _ Hc) as Lc. pose proof (hex4_length _ _ Hd) as Ld.
  destruct (strtol16_hex _ _ Hc) as [Ec _], (strtol16_hex _ _ Hd) as [Ed _]. unfold ref_unicode.
  rewrite (proj2 (Nat.ltb_ge _ _)) by (rewrite length_app; simpl; rewrite length_app; lia).
  rewrite take_app_le, take_ge, Ec by lia.
  rewrite (proj2 (Z.leb_le 0xD800 v)), (proj2 (Z.leb_le v 0xDBFF)) by lia. cbn [andb].
  rewrite (proj2 (Nat.leb_le _ _)) by (rewrite length_app; simpl; rewrite length_app; lia).
  rewrite !lookup_app_r, Lc by lia. simpl. rewrite (drop_app_ge _ _ 6), (drop_app_ge _ _ 10), Lc by lia. simpl.
  rewrite !drop_0, take_app_le, take_ge, Ed by lia. rewrite !(proj2 (Z.leb_le _ _)) by lia. simpl.
  rewrite (drop_app_ge _ _ 4), Ld by lia. by rewrite Nat.sub_diag, drop_0.
Qed.

Lemma ref_chars_char fuel cap acc b cs r :
  char_text b cs → ∃ cap', (ref_chars (S fuel) cap acc (cs ++ r)).1 = (ref_chars fuel cap' (acc ++ b) r).1.
Proof.
  intros H. assert (∀ e s bs r', ref_escape e s = Some (bs, r') →
    ∃ cap', (ref_chars (S fuel) cap acc (92 :: e :: s)).1 = (ref_chars fuel cap' (acc ++ bs) r').1) as Hesc.
  { intros e s bs r' E. cbn [ref_chars]. change (92 =? 34) with false. change (92 =? 92) with true. cbv iota. rewrite E.
    eexists. destruct (ref_chars fuel _ (acc ++ bs) r') as [[? ?] ?] eqn:Ex. by rewrite Ex. }
  destruct H; try (by apply Hesc).
  - cbn [ref_chars app]. rewrite (proj2 (Z.eqb_neq _ _) H0), (proj2 (Z.eqb_neq _ _) H1). by eexists.
  - apply (Hesc 117). by apply ref_unicode_one.
  - rewrite <- app_comm_cons, <- app_comm_cons, <- app_assoc. apply (Hesc 117). by apply ref_unicode_pair.
Qed.

Lemma char_text_length b cs : char_text b cs → (1 ≤ length cs)%nat.
Proof. destruct 1; simpl; lia. Qed.

Lemma ref_chars_text bs cs : chars_text bs cs → ∀ fuel cap acc r,
  (length cs < fuel)%nat → (ref_chars fuel cap acc (cs ++ 34 :: r)).1 = (Some (acc ++ bs), r).
Proof.
  induction 1 as [|b c bs cs Hc Hcs IH]; intros [|fuel] cap acc r Hf; try (simpl in Hf; lia).
  - simpl. by rewrite app_nil_r.
  - pose proof (char_text_length _ _ Hc). rewrite length_app in Hf. rewrite <- app_assoc.
    destruct (ref_chars_char fuel cap acc b c (cs ++ 34 :: r) Hc) as [cap' ->].
    rewrite IH by lia. by rewrite app_assoc.
Qed.

Lemma ref_string_text bs cs r : chars_text bs cs → ref_string (cs ++ 34 :: r) = (Some bs, r).
Proof. intros H. unfold ref_string. rewrite (ref_chars_text _ _ H); [done|]. rewrite length_app. lia. Qed.

Lemma cstr_id s : Forall (λ c, c ≠ 0) s → cstr s = s.
Proof. induction 1 as [|c s Hc _ IH]; simpl; [done|]. by rewrite (proj2 (Z.eqb_neq _ _) Hc), IH. Qed.

(** ** Blanks and closing braces *)

Lemma skip_ws_blank a s : blank a → skip_ws (a ++ s) = skip_ws s.
Proof. induction 1 as [|c a Hc _ IH]; simpl; [done|]. by rewrite (proj1 (blank_space c) Hc). Qed.

Lemma skip_ws_idem s : skip_ws (skip_ws s) = skip_ws s.
Proof. induction s as [|c s IH]; simpl; [done|]. destruct (is_space c) eqn:E; [done|]. simpl. by rewrite E. Qed.

(** Up to [n] closing braces are consumed, with the blanks in front of them. *)
Fixpoint swallow (n : nat) (s : list Z) : list Z :=
  match n with
  | O => s
  | S n => match skip_ws s with c :: r => if c =? 125 then swallow n r else c :: r | [] => [] end
  end.

Lemma swallow_stop n s c r : skip_ws s = c :: r → c ≠ 125 → skip_ws (swallow n s) = c :: r.
Proof.
  intros E Hc. destruct n as [|n]; simpl; [done|]. rewrite E, (proj2 (Z.eqb_neq _ _) Hc), <- E. apply skip_ws_idem.
Qed.

Lemma swallow_1 s : swallow 1 s = drop_char 125 (skip_ws s).
Proof. simpl. unfold drop_char. destruct (skip_ws s) as [|c r]; [done|]. by destruct (c =? 125). Qed.

Lemma swallow_nil n : swallow n [] = [].
Proof. by destruct n. Qed.

Lemma swallow_S n s : swallow (S n) s = swallow 1 (swallow n s).
Proof.
  revert s. induction n as [|n IH]; intros s; [done|].
  change (swallow (S (S n)) s) with (match skip_ws s with c :: r => if c =? 125 then swallow (S n) r else c :: r | [] => [] end).
  change (swallow (S n) s) with (match skip_ws s with c :: r => if c =? 125 then swallow n r else c :: r | [] => [] end).
  destruct (skip_ws s) as [|c r] eqn:E; [done|]. destruct (Z.eqb_spec c 125) as [->|Hc]; [apply IH|].
  simpl. assert (is_space c = false) as Hs.
  { pose proof (skip_ws_idem s) as Hi. rewrite E in Hi. simpl in Hi. destruct (is_space c) eqn:Es; [|done].
    exfalso. pose proof (skip_ws_length r) as Hl. rewrite Hi in Hl. simpl in Hl. lia. }
  by rewrite Hs, (proj2 (Z.eqb_neq _ _) Hc).
Qed.

(** No comma comes behind up to [n] closing braces. *)
Definition no_comma (n : nat) (s : list Z) : Prop := head (skip_ws (swallow n s)) ≠ Some 44.

Lemma no_comma_S n s : no_comma (S n) s → no_comma n s.
Proof.
  unfold no_comma. intros H E. apply H. destruct (skip_ws (swallow n s)) as [|c r] eqn:Es; [done|]. simpl in E.
  injection E as ->. rewrite swallow_S. pose proof (swallow_stop 1 _ 44 r Es ltac:(done)) as E. by rewrite E.
Qed.

Lemma no_comma_le n m s : (m ≤ n)%nat → no_comma n s → no_comma m s.
Proof. induction 1; [done|]. intros H'. by apply IHle, no_comma_S. Qed.

(** What may follow a value. *)
Definition ends (s : list Z) : Prop :=
  match s with [] => True | c :: _ => is_space c = true ∨ c = 44 ∨ c = 93 ∨ c = 125 end.

Lemma ends_blank b c r : blank b → c = 44 ∨ c = 93 ∨ c = 125 → ends (b ++ c :: r).
Proof. intros Hb Hc. destruct Hb; simpl; [by right|left; by apply blank_space]. Qed.

(** ** Numbers *)

Lemma ends_no_digit s : ends s → no_digit s.
Proof.
  destruct s as [|c s]; [done|]. simpl. intros [H|[->|[->| ->]]]; try done.
  unfold is_space in H. rewrite !orb_true_iff, !Z.eqb_eq in H. by destruct H as [[[->| ->]| ->]| ->].
Qed.

Lemma ends_char s c : ends s → c = 46 ∨ c = 101 ∨ c = 69 → head s ≠ Some c.
Proof.
  destruct s as [|c' s]; [done|]. simpl. intros H Hc [= ->]. destruct H as [H|H]; [|lia].
  unfold is_space in H. rewrite !orb_true_iff, !Z.eqb_eq in H. lia.
Qed.

Lemma digits_head ds r : all_digits ds → ds ≠ [] → ∃ c r', ds ++ r = c :: r' ∧ isdigit c = true ∧ c ≠ 45 ∧ c ≠ 43.
Proof.
  destruct ds as [|c ds]; [done|]. intros [Hc _]%Forall_cons _. exists c, (ds ++ r). split_and!; [done|done|..];
    unfold isdigit in Hc; rewrite andb_true_iff, !Z.leb_le in Hc; lia.
Qed.

Lemma drop_sign s int r : int ≠ [] → all_digits int → drop_char 45 (print_sign s ++ int ++ r) = int ++ r.
Proof.
  intros Hne Hd. destruct s; [done|]. destruct (digits_head int r Hd Hne) as (c & r' & E & _ & Hc & _).
  simpl. rewrite E. simpl. by rewrite (proj2 (Z.eqb_neq _ _) Hc).
Qed.

Lemma number_rest_text s r : number_text s → ends r → number_rest (s ++ r) = r.
Proof.
  intros (sg & int & f & e & -> & Hne & Hi & Hf & He) Hr. unfold number_rest. rewrite <- !app_assoc.
  rewrite drop_sign by done.
  assert (no_digit (e ++ r)) as Hne1.
  { destruct He as [->|(c & ? & ? & -> & [->| ->] & _)]; [by apply ends_no_digit|done|done]. }
  assert (no_digit (f ++ e ++ r)) as Hnf.
  { destruct Hf as [->|(? & -> & _)]; done. }
  rewrite span_digits_app by done. cbn [snd].
  assert (match f ++ e ++ r with c :: s' => if c =? 46 then (span_digits s').2 else f ++ e ++ r | [] => [] end = e ++ r) as ->.
  { destruct Hf as [->|(ds & -> & _ & Hds)].
    - destruct He as [->|(c & sg' & ds & -> & Hc & _)]; simpl.
      + pose proof (ends_char r 46 Hr (or_introl eq_refl)) as Hh. destruct r as [|c r]; [done|]. simpl in Hh.
        rewrite (proj2 (Z.eqb_neq _ _)); [done|congruence].
      + destruct Hc as [-> | ->]; done.
    - simpl. rewrite span_digits_app; [done|done|done]. }
  destruct He as [->|(c & sg' & ds & -> & Hc & Hsg & Hdne & Hds)]; simpl.
  - destruct r as [|c r]; [done|]. rewrite (proj2 (Z.eqb_neq c 101)), (proj2 (Z.eqb_neq c 69)); [done|..].
    + intros ->. by apply (ends_char (69 :: r) 69 Hr); [auto|].
    + intros ->. by apply (ends_char (101 :: r) 101 Hr); [auto|].
  - assert ((c =? 101) || (c =? 69) = true) as -> by (destruct Hc as [-> | ->]; done).
    assert (match (sg' ++ ds) ++ r with c' :: r0 => if (c' =? 43) || (c' =? 45) then r0 else (sg' ++ ds) ++ r | [] => [] end = ds ++ r) as ->.
    { destruct Hsg as [->|[->| ->]]; simpl; [|done|done].
      destruct (digits_head ds r Hds Hdne) as (c' & r' & E & _ & H1 & H2). rewrite E.
      by rewrite (proj2 (Z.eqb_neq _ _) H1), (proj2 (Z.eqb_neq _ _) H2). }
    rewrite span_digits_app; [done|done|by apply ends_no_digit].
Qed.

(** ** Values *)

Lemma value_text_head t s :
  value_text t s → ∃ c s', s = c :: s' ∧ is_space c = false ∧ c ≠ 93 ∧ c ≠ 125.
Proof.
  destruct t; simpl; [intros ->|intros ->|intros ->|intros [(sg & int & f & e & -> & Hne & Hi & _) _]|
    intros (? & -> & _)|intros (? & -> & _)|intros (? & -> & _)].
  1-3, 5-7: eexists _, _; split; [reflexivity|split_and!; done].
  destruct sg; simpl; [eexists _, _; split; [reflexivity|split_and!; done]|].
  destruct (digits_head int (f ++ e) Hi Hne) as (c & r & -> & Hc & _). exists c, r. split; [done|].
  unfold isdigit, is_space in *. rewrite andb_true_iff, !Z.leb_le in Hc.
  rewrite !orb_false_iff, !Z.eqb_neq. lia.
Qed.

Section reads.
Variable n : nat.

Ltac lengths := repeat first [rewrite length_app in * | progress cbn [length] in *]; lia.

(** The reference parser reads every text of [t]. *)
Definition reads (t : json) : Prop := ∀ fuel d a s rest,
  value_text t s → blank a → calm t = true →
  0 ≤ d → nesting t + d ≤ COBALT_JSON_DOM_MAX_DEPTH → COBALT_JSON_DOM_MAX_DEPTH < Z.of_nat fuel + d →
  (length (a ++ s ++ rest) < n)%nat → ends rest →
  ((2 ≤ closers t)%nat → no_comma (closers t - 2) rest) →
  ref_value n fuel d (a ++ s ++ rest) = (Some t, swallow (closers t) rest, false).

Section container.
Variable f : nat.
Variable d : Z.
Hypothesis Hd : 0 ≤ d.
Hypothesis Hf : COBALT_JSON_DOM_MAX_DEPTH < Z.of_nat f + d.

(** An item that is followed by a comma or by the end of its container. *)
Lemma swallow_item k b c r : blank b → c ≠ 125 → is_space c = false →
  skip_ws (swallow k (b ++ c :: r)) = c :: r.
Proof. intros Hb Hc Hs. apply swallow_stop; [|done]. rewrite skip_ws_blank by done. simpl. by rewrite Hs. Qed.

Lemma no_comma_item k b c r : blank b → c ≠ 125 → c ≠ 44 → is_space c = false → no_comma k (b ++ c :: r).
Proof. intros. unfold no_comma. rewrite swallow_item by done. simpl. congruence. Qed.

Lemma reads_elems ts : Forall reads ts → ts ≠ [] → ∀ fuel body rest,
  separated value_text ts body → forallb calm ts = true →
  forallb (λ t, (closers t <=? 1)%nat) (removelast ts) = true →
  Forall (λ t, nesting t + d ≤ COBALT_JSON_DOM_MAX_DEPTH) ts →
  (length (body ++ 93%Z :: rest) < fuel)%nat → (length (body ++ 93%Z :: rest) < n)%nat →
  ref_elems (ref_value n f d) fuel (body ++ 93 :: rest) = (ts, 93 :: rest, false).
Proof.
  induction 1 as [|t ts Ht _ IH]; [done|]. intros _ [|fuel] body rest Hb Hc Hcl Hn Hl1 Hl2; [lia|].
  destruct Hb as (a & v & b & Ha & Hv & Hb & Hbody). cbn [forallb] in Hc. apply andb_true_iff in Hc as [Hc1 Hc2].
  apply Forall_cons in Hn as [Hn1 Hn2]. cbn [ref_elems]. destruct ts as [|t' ts].
  - subst body. rewrite <- !app_assoc in *. rewrite (Ht f d a v (b ++ 93 :: rest)); try done.
    + rewrite swallow_item by done. done.
    + by apply ends_blank; [|auto].
    + intros _. by apply no_comma_item.
  - destruct Hbody as (r & -> & Hr). cbn [removelast forallb] in Hcl. apply andb_true_iff in Hcl as [Hcl1 Hcl2].
    apply Nat.leb_le in Hcl1. rewrite <- !app_assoc, <- app_comm_cons in *.
    rewrite (Ht f d a v (b ++ 44 :: r ++ 93 :: rest)); try done.
    + rewrite swallow_item by done. simpl. rewrite IH; try done; lengths.
    + by apply ends_blank; [|auto].
    + lia.
Qed.

Lemma closers_object m ms : closers (JObject (m :: ms)) = match ms with [] => S (closers m.2) | _ => closers (JObject ms) end.
Proof. by destruct ms. Qed.

Lemma reads_members ms : Forall (λ m, reads m.2) ms → ms ≠ [] → ∀ fuel body rest,
  separated (member_text value_text) ms body → forallb (λ m, calm m.2) ms = true →
  forallb (λ m, (closers m.2 <=? 1)%nat) (removelast ms) = true →
  Forall (λ m, nesting m.2 + d ≤ COBALT_JSON_DOM_MAX_DEPTH) ms →
  (length (body ++ 125%Z :: rest) < fuel)%nat → (length (body ++ 125%Z :: rest) < n)%nat → 
  ((2 ≤ closers (JObject ms))%nat → no_comma (closers (JObject ms) - 2) rest) →
  ∃ r, ref_members (ref_value n f d) fuel (body ++ 125 :: rest) = (ms, r, false) ∧
    drop_char 125 (skip_ws r) = swallow (closers (JObject ms)) rest.
Proof.
  induction 1 as [|[k v] ms Ht _ IH]; [done|]. intros _ [|fuel] body rest Hb Hc Hcl Hn Hl1 Hl2 Hnc; [lia|].
  destruct Hb as (a & u & b & Ha & (ks & a1 & b1 & u1 & -> & [Hks Hk0] & Ha1 & Hb1 & Hu) & Hb & Hbody).
  cbn [fst snd] in *. cbn [forallb] in Hc. apply andb_true_iff in Hc as [Hc1 Hc2]. apply Forall_cons in Hn as [Hn1 Hn2].
  cbn [ref_members]. rewrite closers_object in *. cbn [snd] in *. destruct ms as [|m' ms].
  - subst body. rewrite <- !app_assoc, <- !app_comm_cons, <- !app_assoc, <- !app_comm_cons, <- !app_assoc, <- !app_comm_cons, <- !app_assoc in *.
    rewrite skip_ws_blank by done. simpl. rewrite (ref_string_text k ks) by done.
    rewrite skip_ws_blank by done. simpl. rewrite (Ht f d b1 u1 (b ++ 125 :: rest)); try done.
    + rewrite (cstr_id k) by done. destruct (closers v) as [|c] eqn:Ec.
      * simpl. rewrite skip_ws_blank by done. simpl. eexists. split; [done|]. symmetry. apply swallow_1.
      * simpl. rewrite skip_ws_blank by done. simpl. specialize (Hnc ltac:(lia)). simpl in Hnc. rewrite Nat.sub_0_r in Hnc.
        unfold no_comma in Hnc. exists (drop_char 125 (skip_ws (swallow c rest))). split.
        -- destruct (skip_ws (swallow c rest)) as [|c4 r5] eqn:E4; [done|]. simpl in Hnc.
           by rewrite (proj2 (Z.eqb_neq c4 44)) by congruence.
        -- transitivity (swallow (S (S c)) rest); [|done]. by rewrite swallow_S, (swallow_S c), !swallow_1.
    + lengths.
    + by apply ends_blank; [|auto].
    + intros Hcv. destruct (closers v) as [|[|c]] eqn:Ec; [lia|lia|]. simpl. rewrite Nat.sub_0_r. destruct c as [|c].
      * unfold no_comma. simpl. rewrite skip_ws_blank by done. done.
      * assert (no_comma c rest) as Hcr by (apply (no_comma_le (S (S c))); [lia|]; apply Hnc; lia).
        unfold no_comma in *. simpl. rewrite skip_ws_blank by done. done.
  - destruct Hbody as (r & -> & Hr). cbn [removelast forallb] in Hcl. apply andb_true_iff in Hcl as [Hcl1 Hcl2].
    apply Nat.leb_le in Hcl1. cbn [snd] in Hcl1.
    rewrite <- !app_assoc, <- !app_comm_cons, <- !app_assoc, <- !app_comm_cons, <- !app_assoc, <- !app_comm_cons, <- !app_assoc in *.
    rewrite skip_ws_blank by done. simpl. rewrite (ref_string_text k ks) by done.
    rewrite skip_ws_blank by done. simpl. rewrite (Ht f d b1 u1 (b ++ 44 :: r ++ 125 :: rest)); try done.
    + rewrite swallow_item by done. simpl. rewrite (cstr_id k) by done.
      destruct (IH ltac:(done) fuel r rest) as (r' & E & Er); try done; [lengths..|].
      rewrite E. exists r'. split; [done|exact Er].
    + lengths.
    + by apply ends_blank; [|auto].
    + lia.
Qed.
End container.

Lemma nesting_each ts d m : nesting (JArray ts) + d ≤ m → Forall (λ t, nesting t + (d + 1) ≤ m) ts ∧ d + 1 ≤ m.
Proof.
  cbn [nesting]. induction ts as [|t ts IH]; simpl; intros H; [split; [constructor|lia]|].
  destruct IH as [H1 H2]; [lia|]. split; [|lia]. constructor; [lia|done].
Qed.

Lemma nesting_each_member (ms : list (list Z * json)) d m :
  nesting (JObject ms) + d ≤ m → Forall (λ x, nesting x.2 + (d + 1) ≤ m) ms ∧ d + 1 ≤ m.
Proof.
  cbn [nesting]. induction ms as [|t ts IH]; simpl; intros H; [split; [constructor|lia]|].
  destruct IH as [H1 H2]; [lia|]. split; [|lia]. constructor; [lia|done].
Qed.

(** The blanks in front of the first item do not matter. *)
Lemma separated_head {A} (item : A → list Z → Prop) x xs body c r :
  (∀ y s, item y s → ∃ c' s', s = c' :: s' ∧ is_space c' = false ∧ c' ≠ c) →
  separated item (x :: xs) body →
  ∃ body' c' r', skip_ws (body ++ r) = body' ++ r ∧ body' = c' :: r' ∧ c' ≠ c ∧
    separated item (x :: xs) body' ∧ (length body' ≤ length body)%nat.
Proof.
  intros Hit (a & v & b & Ha & Hv & Hb & Hbody). destruct (Hit _ _ Hv) as (c' & s' & -> & Hs & Hc).
  destruct xs as [|x' xs]; [subst body|destruct Hbody as (r0 & -> & Hr0)].
  - exists ((c' :: s') ++ b), c', (s' ++ b). rewrite <- !app_assoc, skip_ws_blank by done. simpl. rewrite Hs.
    split_and!; [done|done|done| |lengths]. exists [], (c' :: s'), b. split_and!; try done. constructor.
  - exists ((c' :: s') ++ b ++ 44 :: r0), c', (s' ++ b ++ 44 :: r0). rewrite <- !app_assoc, skip_ws_blank by done. simpl. rewrite Hs.
    split_and!; [by rewrite <- ?app_assoc|done|done| |lengths].
    exists [], (c' :: s'), b. split_and!; try done; [constructor|]. exists r0. done.
Qed.

Lemma nesting_nonneg t : 0 ≤ nesting t.
Proof.
  destruct t as [| | |x|bs|ts|ms]; try done; simpl.
  - induction ts; simpl; lia.
  - induction ms; simpl; lia.
Qed.

Lemma take_drop_app (u r : list Z) : take (length (u ++ r) - length r) (u ++ r) = u.
Proof. rewrite length_app, Nat.add_sub. apply take_app_length. Qed.

Lemma reads_all t : reads t.
Proof.
  induction t as [| | |x|bs|ts IH|ms IH] using json_ind';
    intros [|fuel] d a s rest Hs Ha Hcm Hd Hn Hf Hl He Hnc;
    try (match goal with H : nesting ?u + _ ≤ _ |- _ => pose proof (nesting_nonneg u) end;
         unfold COBALT_JSON_DOM_MAX_DEPTH in *; lia);
    cbn [ref_value]; rewrite skip_ws_blank by done.
  1-3: simpl in Hs; subst s; unfold ref_word; simpl; rewrite ?drop_0; reflexivity.
  - destruct Hs as [Hnum Hx]. destruct (value_text_head (JNumber x) s (conj Hnum Hx)) as (c & s' & -> & Hsp & _).
    assert ((c =? 45) || isdigit c = true ∧ c ≠ 123 ∧ c ≠ 91 ∧ c ≠ 34) as (Hc & H1 & H2 & H3).
    { destruct Hnum as (sg & int & f & e & E & Hne & Hi & _). destruct sg; simpl in E; [by injection E as -> _|].
      destruct (digits_head int (f ++ e) Hi Hne) as (c' & r & E' & Hd' & _). rewrite E' in E. injection E as -> _.
      rewrite Hd', orb_true_r. unfold isdigit in Hd'. rewrite andb_true_iff, !Z.leb_le in Hd'. split; [done|lia]. }
    rewrite <- app_comm_cons. cbn [skip_ws]. rewrite Hsp. rewrite (proj2 (Z.eqb_neq _ _) H1), (proj2 (Z.eqb_neq _ _) H2), (proj2 (Z.eqb_neq _ _) H3), Hc.
    unfold ref_number. rewrite app_comm_cons, number_rest_text by done. rewrite take_drop_app. by rewrite Hx.
  - destruct Hs as (cs & -> & [Hcs H0]). rewrite <- app_comm_cons. cbn [skip_ws]. change (is_space 34) with false. cbv iota.
    simpl. rewrite <- app_assoc. simpl. rewrite (ref_string_text bs) by done. by rewrite cstr_id.
  - destruct Hs as (body & -> & Hb). rewrite <- app_comm_cons. cbn [skip_ws]. change (is_space 91) with false. cbv iota. simpl (91 =? _).
    cbv iota. destruct (nesting_each _ _ _ Hn) as [Hn1 Hn2]. rewrite (proj2 (Z.leb_gt _ d)) by lia.
    unfold ref_container. rewrite <- app_assoc. cbn [app].
    cbn [calm] in Hcm. apply andb_true_iff in Hcm as [Hc1 Hc2]. destruct ts as [|t ts].
    + cbn [separated] in Hb. rewrite skip_ws_blank by done. done.
    + destruct (separated_head value_text t ts body 93 (93 :: rest)) as (body' & c' & r' & E & Eb & Hc' & Hb' & Hlb); [|exact Hb|].
      { intros y u (c & u' & -> & ? & ? & _)%value_text_head. eauto. }
      rewrite E, Eb, <- app_comm_cons, (proj2 (Z.eqb_neq _ _) Hc'), app_comm_cons, <- Eb.
      rewrite (reads_elems fuel (d + 1)) with (ts := t :: ts) (rest := rest); try done; try lia; lengths.
  - destruct Hs as (body & -> & Hb). rewrite <- app_comm_cons. cbn [skip_ws]. change (is_space 123) with false. cbv iota. simpl (123 =? _).
    cbv iota. destruct (nesting_each_member _ _ _ Hn) as [Hn1 Hn2]. rewrite (proj2 (Z.leb_gt _ d)) by lia.
    unfold ref_container. rewrite <- app_assoc. cbn [app].
    cbn [calm] in Hcm. apply andb_true_iff in Hcm as [Hc1 Hc2]. destruct ms as [|m ms].
    + cbn [separated] in Hb. rewrite skip_ws_blank by done. done.
    + destruct (separated_head (member_text value_text) m ms body 125 (125 :: rest)) as (body' & c' & r' & E & Eb & Hc' & Hb' & Hlb); [|exact Hb|].
      { intros y u (k & ? & ? & ? & -> & _). eexists _, _. split; [reflexivity|]. done. }
      rewrite E, Eb, <- app_comm_cons, (proj2 (Z.eqb_neq _ _) Hc'), app_comm_cons, <- Eb.
      destruct (reads_members fuel (d + 1) ltac:(lia) ltac:(lia) (m :: ms)) with (fuel := n) (body := body') (rest := rest)
        as (r & -> & ->); try done; lengths.
Qed.
End reads.

(** Every JSON text of a calm document that is not nested too deep is read. *)
Lemma ref_parse_text t s :
  json_text t s → calm t = true → nesting t ≤ COBALT_JSON_DOM_MAX_DEPTH → ref_parse s = Some t.
Proof.
  intros (a & v & b & -> & Ha & Hv & Hb) Hc Hn. unfold ref_parse.
  rewrite (reads_all (S (length (a ++ v ++ b))) t depth_fuel 0 a v b); try done; [lia|lia| |].
  - destruct Hb; simpl; [done|left; by apply blank_space].
  - intros _. unfold no_comma. assert (∀ k, skip_ws (swallow k b) = []) as E; [|by rewrite E].
    assert (skip_ws b = []) as Eb by (rewrite <- (app_nil_r b), skip_ws_blank by done; done).
    intros [|k]; simpl; [done|]. by rewrite Eb.
Qed.

(** ** What is printed is in the grammar *)

Fixpoint printable (t : json) : bool :=
  match t with
  | JNumber x => canonical x && finite x
  | JString s => forallb (λ c, (0 <? c) && (c <? 256)) s
  | JArray ts => forallb printable ts
  | JObject ms => forallb (λ m, forallb (λ c, (0 <? c) && (c <? 256)) m.1 && printable m.2) ms
  | _ => true
  end.

Lemma hex_digit_value v : 0 ≤ v < 16 → hex_of (hex_digit v) v.
Proof.
  intros H. unfold hex_of. assert (v ∈ seqZ 0 16) as Hin by (apply elem_of_seqZ; lia).
  repeat (apply elem_of_cons in Hin as [->|Hin]; [vm_compute; intuition congruence|]). by apply not_elem_of_nil in Hin.
Qed.

Lemma escape_text c : 0 < c → char_text [c] (escape c).
Proof.
  intros Hc. unfold escape.
  destruct (Z.eqb_spec c 34) as [->|]; [constructor|]. destruct (Z.eqb_spec c 92) as [->|]; [constructor|].
  destruct (Z.eqb_spec c 10) as [->|]; [constructor|]. destruct (Z.eqb_spec c 13) as [->|]; [constructor|].
  destruct (Z.eqb_spec c 9) as [->|]; [constructor|]. destruct (Z.eqb_spec c 8) as [->|]; [constructor|].
  destruct (Z.eqb_spec c 12) as [->|]; [constructor|]. destruct (Z.ltb_spec c 0x20); [|by constructor].
  pose proof (Z_div_mod_eq_full c 16). pose proof (Z.mod_pos_bound c 16 ltac:(lia)).
  assert (utf8 c = [c]) as <- by (unfold utf8; by rewrite (proj2 (Z.ltb_lt _ _)) by lia).
  apply ct_unicode; [|lia]. eexists _, _, _, _, 0, 0, (c / 16), (c mod 16).
  split_and!; [reflexivity|by apply (hex_digit_value 0)|by apply (hex_digit_value 0)|apply hex_digit_value; lia|apply hex_digit_value; lia|lia].
Qed.

Lemma quoted_text s : forallb (λ c, (0 <? c) && (c <? 256)) s = true → string_text s (concat (escape <$> s)).
Proof.
  induction s as [|c s IH]; [intros _; split; [constructor|constructor]|]. cbn [forallb].
  intros [[Hc _]%andb_true_iff Hs]%andb_true_iff. apply Z.ltb_lt in Hc. destruct (IH Hs) as [H1 H2].
  split; [|constructor; [lia|done]]. rewrite fmap_cons. cbn [concat]. by apply (cs_cons [c]); [apply escape_text|].
Qed.

Lemma separated_commas {A} (item : A → list Z → Prop) (g : A → list Z) xs :
  Forall (λ x, item x (g x)) xs → separated item xs (commas (g <$> xs)).
Proof.
  induction 1 as [|x xs Hx _ IH]; [constructor|]. simpl. exists [], (g x), [].
  split_and!; [constructor|done|constructor|]. destruct xs as [|y xs]; [by rewrite app_nil_r|]. eexists. split; [reflexivity|]. exact IH.
Qed.

Lemma print_text t : printable t = true → value_text t (print t).
Proof.
  induction t as [| | |x|s|ts IH|ms IH] using json_ind'; try done.
  - cbn [printable]. intros [Hc Hf]%andb_true_iff. simpl. by apply fmt_g17_spec.
  - cbn [printable]. intros Hs. exists (concat (escape <$> s)). split; [done|]. by apply quoted_text.
  - cbn [printable]. intros Hp. exists (commas (print <$> ts)). split; [done|]. apply separated_commas.
    induction IH as [|t ts Ht _ IHts]; [constructor|]. cbn [forallb] in Hp. apply andb_true_iff in Hp as [? ?].
    constructor; [by apply Ht|by apply IHts].
  - cbn [printable]. intros Hp. eexists. split; [reflexivity|]. apply separated_commas.
    induction IH as [|[k v] ms Ht _ IHms]; [constructor|]. cbn [forallb fst snd] in Hp.
    apply andb_true_iff in Hp as [[Hk Hv]%andb_true_iff Hp]. constructor; [|by apply IHms].
    exists (concat (escape <$> k)), [], [], (print v). split; [unfold quoted; by rewrite <- app_comm_cons, <- app_assoc|].
    split_and!; [by apply quoted_text|constructor|constructor|by apply Ht].
Qed.

Lemma print_json_text t : printable t = true → json_text t (print t).
Proof. intros H. exists [], (print t), []. rewrite app_nil_r. split_and!; [done|constructor|by apply print_text|constructor]. Qed.
End JsonGrammar.
