(* ===== verification/JsonSpec.v ===== *)
(** * What the JSON document module promises

    Parsing, serializing, looking up and destroying documents: the public
    functions of src/src/module/json_parse.c, json_serialize.c and json.c. *)
From Stdlib Require Import Ascii String.
From S2P Require Import Prelude World Arena Double Json JsonRef JsonHeap JsonParse JsonBuild JsonValue JsonSer JsonPrint JsonGrammar.

Module JsonSpec.
Import Double Json JsonRef JsonHeap JsonParse JsonBuild JsonValue JsonSer JsonPrint JsonGrammar.

Definition jworld0 (orc : nat → Z → bool) : jworld := JWorld (world0 orc) ∅ ∅ 0 0 false.

(** The largest chunk a text of [n] bytes can ask for. *)
Definition chunk_bytes (n : Z) : Z := 4096 + 48 + (2 * n + 64).

(** A request of at most that size is refused, or the address space is used up
    but for one chunk. *)
Definition memory_short (n : Z) (w : jworld) : Prop :=
  refused (chunk_bytes n) w ∨ 2 ^ 64 ≤ brk (jarena w) + 15 + chunk_bytes n.

Lemma lacking_short str w :
  chunk_default (jarena w) = 4096 → lacking (max_request str) w → memory_short (Z.of_nat (length str)) w.
Proof.
  unfold lacking, Arena.short, Arena.alloc_bytes, memory_short, chunk_bytes, max_request, Arena.sizeof_chunk, chunk_default.
  intros -> [H|(k & n & Hn & H)]; [right; lia|left; exists k, n; split; [lia|done]].
Qed.

(** ** Releasing the arena *)

Definition frees (w w' : Arena.aworld) : Prop := oracle w' = oracle w ∧ brk w' = brk w.

Lemma frees_trans w1 w2 w3 : frees w1 w2 → frees w2 w3 → frees w1 w3.
Proof. intros [] []. split; congruence. Qed.

Lemma always_loop {S A B} (R : S → S → Prop) (body : A → M S (A + B)) :
  (∀ s, R s s) → (∀ a b d, R a b → R b d → R a d) → (∀ a, always R (body a)) →
  ∀ fuel a, always R (loop fuel body a).
Proof.
  intros Hr Ht Hb fuel. induction fuel as [|fuel IH]; intros a; [by intros ? ? ?|].
  cbn [loop]. apply always_bind; [done|apply Hb|]. intros [a'|b]; [apply IH|by apply always_ret].
Qed.

Lemma arena_destroy_frees fuel : always frees (Arena.cobalt_arena_destroy fuel).
Proof.
  unfold Arena.cobalt_arena_destroy. apply always_bind; [apply frees_trans|by intros w o w' [= <- <-]|].
  intros [a|]; [|by apply always_ret]. apply always_bind; [apply frees_trans| |by intros [] w [] w' [= <-]].
  apply always_loop; [done|apply frees_trans|]. intros c. unfold Arena.destroy_body.
  destruct (c =? NULL); [by apply always_ret|]. apply always_bind; [apply frees_trans| |].
  - intros w r w'. unfold load. destruct (heap w !! c); [|done]. by intros [= <- <-].
  - intros n. apply always_bind; [apply frees_trans| |intros []; by apply always_ret].
    intros w r w'. unfold free_node. destruct (c =? NULL); [by intros [= <- <-]|]. destruct (heap w !! c); [|done]. by intros [= <- <-].
Qed.

(** The arena is gone, and with it every node and string. *)
Record released (w : jworld) : Prop := {
  rl_arena : obj (jarena w) = None;
  rl_chunks : heap (jarena w) = ∅;
  rl_nodes : nodes w = ∅;
  rl_strs : strs w = ∅
}.

Lemma wp_destroy_arena w live (Q : unit → jworld → Prop) :
  jok w live →
  (∀ w', released w' → frees (jarena w) (jarena w') → Q tt w') → wp destroy_arena Q w.
Proof.
  intros [Hr _ _] HQ. unfold wp, destroy_arena.
  pose proof (Arena.wp_arena_destroy (jarena w) live (S (size (heap (jarena w)))) Hr ltac:(lia)) as H.
  apply wp_run in H as ([] & a & E & Ho & Hh). rewrite E. apply HQ; [by split|]. by eapply arena_destroy_frees.
Qed.

Lemma memory_short_frees n w w' : frees (jarena w) (jarena w') → memory_short n w → memory_short n w'.
Proof. unfold memory_short, refused. by intros [-> ->]. Qed.

(** ** Parsing *)

(** A whole document: the nodes, and the flags of the root. *)
Definition document (w : jworld) (p : Z) (t : json) (owns : bool) : Prop :=
  doc w p t ∧ nesting t ≤ COBALT_JSON_DOM_MAX_DEPTH ∧
  ∃ n, nodes w !! p = Some n ∧ arena n = true ∧ owns_arena n = owns.

Lemma built_document w w' p t owns n :
  built w w' p t → depth w = 0 → nodes w' !! p = Some n →
  document (with_nodes w' (<[p := set_arena n owns]> (nodes w'))) p t owns.
Proof.
  intros [_ Hdoc Hun Hn] Hd Hp. split; [split|split; [lia|]].
  - eapply jval_frame; [exact Hdoc|exact Hp|apply lookup_insert_eq|done| |done|].
    + intros q Hq. simpl. rewrite lookup_insert_ne; [done|]. set_solver.
    + unfold added. simpl. rewrite dom_insert. set_solver.
  - intros He. destruct (Hun He) as (vn & Hvn & Hnx). assert (vn = n) as -> by congruence.
    exists (set_arena n owns). simpl. by rewrite lookup_insert_eq.
  - exists (set_arena n owns). simpl. by rewrite lookup_insert_eq.
Qed.

Lemma ref_value_skip m fuel d s : ref_value m (S fuel) d (skip_ws s) = ref_value m (S fuel) d s.
Proof. cbn [ref_value]. by rewrite skip_ws_idem. Qed.

Lemma ref_value_blank m fuel d s : skip_ws s = [] → ref_value m (S fuel) d s = (None, [], false).
Proof. cbn [ref_value]. by intros ->. Qed.

Section parse.
Variable str : list Z.
Hypothesis Hlen : Z.of_nat (length str) < 2 ^ 62.
Abbreviation F := (JsonParse.F str).
Abbreviation n := (Z.of_nat (length str)).

(** Skipping blanks and reading a value, from the start of the text. *)
Lemma wp_top (k0 : M jworld Z) (k1 : Z → M jworld Z) w live Q :
  jok w live →
  (∀ w', jok w' live → keeps (jarena w) (jarena w') → ref_parse str = None → wp_or F k0 Q w') →
  (∀ r w' o ex s', advanced w w' → depth_exceeded w' = ex →
     match o with None => r = NULL | Some t => built w w' r t end →
     (lacking (max_request str) w' ∨ ref_value (text_fuel str) depth_fuel 0 str = (o, s', ex)) →
     wp_or F (k1 r) Q w') →
  depth w = 0 →
  wp_or F (init_ctx ;;; json_skip_whitespace str ;;; i <- get_pos ;;
           if Z.of_nat (length str) <=? i then k0
           else root <- json_parse_value str depth_fuel ;; k1 root) Q w.
Proof.
  intros Hok H0 H1 Hd. apply wp_or_bind. unfold init_ctx. apply wp_or_of. wp_step. apply wp_set_pos. wp_step.
  apply wp_set_depth. unfold wp, set_exceeded. set (w1 := with_exceeded _ false).
  assert (at_rest str w1 str) as Hw1 by (split_and!; simpl; [lia|lia|by rewrite drop_0]).
  assert (jok w1 live) as Hok1 by (destruct Hok; by split).
  assert (advanced w w1) as Ha1.
  { split; [split; [apply keeps_refl|done|done]|by rewrite Hd|by exists live]. }
  apply wp_or_bind, wp_or_of. eapply wp_skip_ws; [exact Hw1|]. intros i Hi Hw2. set (w2 := with_pos w1 i) in *.
  assert (jok w2 live) as Hok2 by (by apply (jok_moved w1)).
  assert (advanced w w2) as Ha2 by (eapply advanced_trans; [exact Ha1|by eapply advanced_pos]).
  apply wp_or_bind, wp_or_of, wp_get_pos. pose proof Hw2 as (P1 & P2 & P3).
  destruct (Z.leb_spec n (pos w2)) as [Hge|Hlt].
  - apply H0; [exact Hok2|apply keeps_refl|]. assert (skip_ws str = []) as E by (destruct (skip_ws str); [done|cbn [length] in P2; lia]).
    unfold ref_parse, depth_fuel. by rewrite (ref_value_blank _ 129).
  - apply wp_or_bind. eapply wp_or_mono; [eapply (wp_parse_value str Hlen depth_fuel w2); [exact Hw2|exact Hok2|done|done]|].
    intros r w3 [Ha3 (o & s' & ex & Hw3 & _ & Hx & Hr & Href)]. simpl in Hx.
    eapply (H1 r w3 o ex s'); [by eapply advanced_trans|done| |].
    + destruct o as [t|]; [|done]. destruct Hr as [B1 B2 B3 B4]. split; [done|done|done|]. change (depth w2) with 0 in B4. by rewrite Hd.
    + destruct Href as [?|Href]; [by left|right]. rewrite <- Href. symmetry. apply (ref_value_skip _ 129).
Qed.
End parse.

Lemma wp_create orc :
  wp (Arena.cobalt_arena_create_with_allocator 4096 true) (λ _ w, oracle w = orc ∧
    ((obj w = None ∧ heap w = ∅ ∧ ∃ k n, n ≤ 4128 ∧ orc k n = false) ∨ (Arena.rep w [] ∧ chunk_default w = 4096)))
    (world0 orc).
Proof.
  pose proof (Arena.wp_arena_create orc 4096 ltac:(lia)) as H.
  change (Arena.cobalt_arena_create 4096) with (Arena.cobalt_arena_create_with_allocator 4096 true) in H.
  apply wp_run in H as ([] & w & E & Hw). apply wp_run. exists tt, w. split; [exact E|].
  unfold Arena.cobalt_arena_create_with_allocator, mbind, request, Arena.alloc_chunk, set_obj in E. simpl in E.
  change (wrap64 (Arena.sizeof_chunk + Arena.align_up 4096)) with 4128 in E.
  destruct (orc 0%nat Arena.sizeof_arena) eqn:E0; simpl in E.
  - destruct (orc 1%nat 4128) eqn:E1; simpl in E; injection E as <-; split_and!; try done.
    + right. destruct Hw as [[=]|Hw]. by split.
    + left. split_and!; [done|done|eexists _, _; split; [|eassumption]; done].
  - injection E as <-. split_and!; try done. left. split_and!; [done|done|eexists _, _; split; [|eassumption]; done].
Qed.

(** The outcome of parsing [str] into a new arena. *)
Definition parse_done (str : list Z) (p : Z) (w : jworld) : Prop :=
  (∃ t live, document w p t true ∧ jok w live ∧ depth w = 0 ∧
     (memory_short (Z.of_nat (length str)) w ∨ ref_parse str = Some t)) ∨
  (p = NULL ∧ released w ∧ (memory_short (Z.of_nat (length str)) w ∨ ref_parse str = None)).

Lemma wp_json_parse str orc :
  Z.of_nat (length str) < 2 ^ 62 → wp_or (F str) (json_parse (Some str)) (parse_done str) (jworld0 orc).
Proof.
  intros Hlen. unfold json_parse, json_parse_with_alloc. destruct str as [|c0 s0].
  { apply wp_or_ret. right. split; [done|]. split; [by split|by right]. }
  set (str := c0 :: s0) in *. apply wp_or_bind. pose proof (wp_create orc) as H.
  apply wp_run in H as ([] & a & E & Ho & Ha). unfold wp_or, on_arena. cbn [jarena jworld0]. rewrite E.
  apply (wp_or_bind (F str)), wp_or_of. unfold wp, get_obj. cbn [jarena with_arena].
  destruct Ha as [(Ha & Hh & k & m & Hm & Hk)|[Hrep Hdef]].
  { rewrite Ha. apply wp_or_ret. right. split; [done|]. split; [by split|]. left. left. exists k, m. simpl. rewrite Ho. split; [unfold chunk_bytes; lia|done]. }
  pose proof Hrep as (a' & pre & cur & post & Hr'). rewrite (Arena.ar_obj _ _ _ _ _ _ Hr').
  set (w1 := with_arena (jworld0 orc) a). change (with_arena w1 a) with w1.
  assert (jok w1 []) as Hok1 by (split; [exact Hrep|set_solver|set_solver]).
  apply (wp_top str Hlen) with (live := []); [exact Hok1| | |done].
  - intros w2 Hok2 Hk2 Href. apply wp_or_bind, wp_or_of. eapply wp_destroy_arena; [exact Hok2|]. intros w3 Hrel Hfr.
    apply wp_or_ret. right. split; [done|]. split; [done|by right].
  - intros r w2 o ex s' Ha2 Hx Hr Href.
    assert (memory_short (Z.of_nat (length str)) w2 ∨ ref_value (text_fuel str) depth_fuel 0 str = (o, s', ex)) as Href'.
    { destruct Href as [Hl|Href]; [left|by right]. apply lacking_short; [|exact Hl].
      rewrite (kp_default _ _ (gr_arena _ _ (ad_grows _ _ Ha2))). exact Hdef. }
    destruct (ad_ok _ _ Ha2) as [live2 Hok2]. apply wp_or_bind. unfold exceeded, wp_or at 1. rewrite Hx.
    destruct ((r =? NULL) || ex) eqn:Ec.
    + apply wp_or_bind, wp_or_of. eapply wp_destroy_arena; [exact Hok2|]. intros w3 Hrel Hfr. apply wp_or_ret.
      right. split; [done|]. split; [done|]. destruct Href' as [Hm|Href']; [left; by eapply memory_short_frees|right].
      unfold ref_parse. fold (text_fuel str). rewrite Href'. destruct ex; [done|]. rewrite orb_false_r in Ec.
      destruct o as [t|]; [|done]. apply Z.eqb_eq in Ec. destruct (jval_node _ _ _ _ _ (bt_doc _ _ _ _ Hr)). done.
    + apply orb_false_iff in Ec as [Ec ->]. apply Z.eqb_neq in Ec. destruct o as [t|]; [|done].
      destruct (jval_node _ _ _ _ _ (bt_doc _ _ _ _ Hr)) as [_ [n Hn]].
      apply wp_or_bind, wp_or_of. eapply wp_update_node; [exact Hn|]. apply wp_or_ret. left.
      exists t, live2. split; [eapply built_document; [exact Hr|done|done]|].
      split; [apply jok_insert; [done|]; apply elem_of_dom; eauto|]. split; [simpl; rewrite (ad_depth _ _ Ha2); done|].
      destruct Href' as [Hm|Href']; [left; exact Hm|right]. unfold ref_parse. fold (text_fuel str). by rewrite Href'.
Qed.

(** What the reference parser reads: the nodes of its document, in an arena
    that the root owns; or NULL with everything released. *)
Definition parsed (str : list Z) (p : Z) (w : jworld) : Prop :=
  match ref_parse str with
  | Some t => ∃ live, document w p t true ∧ jok w live
  | None => p = NULL ∧ released w
  end.

(** Safe under every allocator: NULL with everything released, or the nodes
    of some document, with the parser back at nesting 0. *)
Definition parse_safe (p : Z) (w : jworld) : Prop :=
  (p = NULL ∧ released w) ∨ ∃ t live, document w p t true ∧ jok w live ∧ depth w = 0.



Lemma wp_json_parse_text str t orc :
  json_text t str → calm t = true → nesting t ≤ COBALT_JSON_DOM_MAX_DEPTH →
  Z.of_nat (length str) < 2 ^ 62 → json_overreads str = false →
  wp (json_parse (Some str)) (λ p w,
    memory_short (Z.of_nat (length str)) w ∨ ∃ live, document w p t true ∧ jok w live) (jworld0 orc).
Proof.
  intros Ht Hc Hn Hl Ho. pose proof (ref_parse_text t str Ht Hc Hn) as Href.
  apply (wp_or_wp (F str)); [by intros f [_ E]; congruence|].
  eapply wp_or_mono; [by apply wp_json_parse|]. intros p w [(t' & live & Hd & Hok & _ & Hr)|(_ & _ & Hr)].
  - destruct Hr as [?|Hr]; [by left|right]. assert (t' = t) as -> by congruence. eauto.
  - destruct Hr as [?|Hr]; [by left|]. congruence.
Qed.

(** C15: Every JSON text of a document ([json_text]: the grammar of RFC 8259
    with blanks, escapes, surrogate pairs as UTF-8 and numbers, which may also
    have leading zeros; no string has a NUL character) is parsed into that
    document, unless memory ran short: for a document that nests at most
    128 deep and in which no two objects end together before a comma ([calm]),
    and a text in which no string with escapes grows past the block of its
    buffer ([json_overreads]). *)
Theorem json_parse_text str t orc :
  json_text t str → calm t = true → nesting t ≤ COBALT_JSON_DOM_MAX_DEPTH →
  Z.of_nat (length str) < 2 ^ 62 → json_overreads str = false →
  wp (json_parse (Some str)) (λ p w,
    memory_short (Z.of_nat (length str)) w ∨ ∃ live, document w p t true ∧ jok w live) (jworld0 orc).
Proof. apply wp_json_parse_text. Qed.

Lemma json_parse_text_witness :
  let str := [32; 91; 10; 116; 114; 117; 101; 44; 32; 34; 92; 110; 34; 93; 32] in
  wp (json_parse (Some str)) (λ p w,
    memory_short (Z.of_nat (length str)) w ∨ ∃ live, document w p (JArray [JTrue; JString [10]]) true ∧ jok w live) (jworld0 (λ _ _, true)).
Proof.
  intros str. apply (json_parse_text str (JArray [JTrue; JString [10]]) (λ _ _, true)); [|done|vm_compute; done|simpl; lia|vm_compute; done].
  exists [32], [91; 10; 116; 114; 117; 101; 44; 32; 34; 92; 110; 34; 93], [32]. split_and!; [done|by repeat constructor| |by repeat constructor].
  exists [10; 116; 114; 117; 101; 44; 32; 34; 92; 110; 34]. split; [done|].
  exists [10], [116; 114; 117; 101], []. split_and!; [by repeat constructor|done|by constructor|].
  exists [32; 34; 92; 110; 34]. split; [done|]. exists [32], [34; 92; 110; 34], [].
  split_and!; [by repeat constructor| |by constructor|done].
  exists [92; 110]. split; [done|]. split; [apply (cs_cons [10] [92; 110] [] []); [apply ct_n|apply cs_nil]|by repeat constructor].
Defined.

(** ** Destroying *)

Lemma wp_json_destroy w p t live :
  document w p t true → jok w live → wp (json_destroy p) (λ _ w', released w' ∧ frees (jarena w) (jarena w')) w.
Proof.
  intros (Hd & _ & n & Hn & Ha & Ho) Hok. destruct (jval_node _ _ _ _ _ (proj1 Hd)) as [Hp _].
  change (wp (json_destroy_with_alloc (S (size (nodes w))) p) (λ _ w', released w' ∧ frees (jarena w) (jarena w')) w).
  cbn [json_destroy_with_alloc]. rewrite (proj2 (Z.eqb_neq _ _) Hp).
  wp_step. eapply wp_load_jnode; [exact Hn|]. rewrite Ha, Ho. by eapply wp_destroy_arena.
Qed.

(** ** The round trip *)

Lemma same_doc_jok w w' live : same_doc w w' → jok w live → jok w' live.
Proof.
  intros (Hn & Hst & _ & Eo & Eh & Eb) [(a & pre & cur & post & [A1 A2 A3 A4 A5 A6 A7 A8 A9]) Hns Hss].
  split; [|by rewrite Hn|by rewrite Hst]. exists a, pre, cur, post. split; rewrite ?Eo, ?Eh, ?Eb; done.
Qed.

Lemma same_doc_document w w' p t owns : same_doc w w' → document w p t owns → document w' p t owns.
Proof. unfold document, doc. by intros (-> & -> & _). Qed.

(** C14: Printing a document, parsing the text and serializing the result
    gives the same text, and destroying the document releases the arena with
    all its chunks, nodes and strings.  The document has finite numbers and
    strings without NUL ([printable]), nests at most 128 deep, has no two
    objects that end together before a comma ([calm]) and no empty container
    before another element ([clean]); no string of its text grows past the
    block of its buffer ([json_overreads]); and memory does not run short while
    parsing, nor is a request of the serializer refused. *)
Theorem json_roundtrip t orc fuel :
  printable t = true → calm t = true → clean t = true → nesting t ≤ COBALT_JSON_DOM_MAX_DEPTH →
  Z.of_nat (length (print t)) < 2 ^ 59 → json_overreads (print t) = false → (tsize t ≤ fuel)%nat →
  wp (json_parse (Some (print t)))
    (λ p w, memory_short (Z.of_nat (length (print t))) w ∨
       wp (s <- json_serialize fuel p ;; json_destroy p ;;; mret s)
         (λ s w', released w' ∧ (s = Some (print t) ∨ refused (serialize_bytes t) w')) w) (jworld0 orc).
Proof.
  intros Hp Hc Hcl Hn Hl Ho Hf. eapply wp_mono; [eapply wp_json_parse_text; [by apply print_json_text|done|done|lia|done]|].
  intros p w [Hm|(live & Hd & Hok)]; [by left|].
  right. wp_step. eapply wp_mono; [apply (wp_serialize w p t fuel); [apply Hd|done|done|done]|].
  intros s w1 [Hs Hr]. wp_step. eapply wp_mono; [eapply (wp_json_destroy w1 p t live)|].
  - by eapply same_doc_document.
  - by eapply same_doc_jok.
  - intros [] w2 [Hrel Hfr]. apply wp_ret. split; [done|]. destruct Hr as [->|[Hr _]]; [by left|right].
    destruct Hr as (k & m & Hm & Hr). exists k, m. split; [done|]. destruct Hfr as [-> _]. by destruct Hs as (_ & _ & -> & _).
Qed.

Definition sample : json := JObject [([97], JArray [JTrue; JString [34; 10]]); ([98], JArray [])].

Lemma json_roundtrip_witness :
  wp (json_parse (Some (print sample)))
    (λ p w, memory_short (Z.of_nat (length (print sample))) w ∨
       wp (s <- json_serialize 10 p ;; json_destroy p ;;; mret s)
         (λ s w', released w' ∧ (s = Some (print sample) ∨ refused (serialize_bytes sample) w')) w) (jworld0 (λ _ _, true)).
Proof. apply (json_roundtrip sample (λ _ _, true) 10); vm_compute; (done || congruence || lia). Defined.

(** ** Lookup *)

(** The value of the first member with the key [k]. *)
Fixpoint member_of (k : list Z) (ms : list (list Z * json)) : option json :=
  match ms with
  | [] => None
  | (k', v) :: ms => if bool_decide (k' = k) then Some v else member_of k ms
  end.

Lemma wp_load_string w p s (Q : list Z → jworld → Prop) : string_at (strs w) p s → Q s w → wp (load_cstr p) Q w.
Proof. intros (_ & b & Hb & <-) HQ. unfold wp, load_cstr. by rewrite Hb. Qed.

Lemma wp_get_child_loop w X k ms : ∀ fuel q, members (nodes w) (strs w) X ms q → (length ms < fuel)%nat →
  wp (loop fuel (get_child_body k) q) (λ r w', w' = w ∧
    match member_of k ms with
    | Some v => jval (nodes w) (strs w) X v r ∧ unlinked (nodes w) v r
    | None => r = NULL
    end) w.
Proof.
  induction ms as [|[k' v] ms IH]; intros [|fuel] q; simpl; try lia.
  - intros -> _. done.
  - intros (_ & Hq & m & Hm & Hk & _ & Hv & Hu & Hms) Hf. wp_step. unfold get_child_body at 1.
    rewrite (proj2 (Z.eqb_neq _ _) Hq). wp_step. eapply wp_load_jnode; [exact Hm|]. wp_step. unfold key_matches.
    rewrite (proj2 (Z.eqb_neq _ _) (proj1 Hk)). wp_step. eapply wp_load_string; [exact Hk|]. apply wp_ret.
    case_bool_decide as Eb; apply wp_ret.
    + apply wp_ret. destruct (jval_node _ _ _ _ _ Hv) as [Hc _]. by rewrite (proj2 (Z.eqb_neq _ _) Hc).
    + apply IH; [done|lia].
Qed.

(** Looking up a key in an object of a document returns the value of the
    first member with that key, and NULL when there is none; the document is
    unchanged.  The object must not be an empty one with a sibling after
    it. *)
Theorem json_get_child_first w X p ms k fuel :
  jval (nodes w) (strs w) X (JObject ms) p → unlinked (nodes w) (JObject ms) p → (length ms < fuel)%nat →
  wp (json_tree_get_child fuel p (Some k)) (λ r w', w' = w ∧
    match member_of k ms with
    | Some v => jval (nodes w) (strs w) X v r ∧ unlinked (nodes w) v r
    | None => r = NULL
    end) w.
Proof.
  intros Hv Hu Hf. apply jval_object in Hv as (Hp & n & Hn & Ht & Hms). unfold json_tree_get_child.
  rewrite (proj2 (Z.eqb_neq _ _) Hp). wp_step. eapply wp_load_jnode; [exact Hn|]. rewrite Ht.
  destruct ms as [|[k' v] ms].
  - simpl in Hms. rewrite Hms. destruct (Hu eq_refl) as (n' & Hn' & Hx). assert (n' = n) as -> by congruence.
    rewrite Hx. destruct fuel; simpl in Hf; [lia|]. done.
  - assert (child n ≠ NULL) as Hc by apply Hms. rewrite (proj2 (Z.eqb_neq _ _) Hc). by apply wp_get_child_loop.
Qed.

(** A document with the one member ["k": true] at address 1. *)
Definition one_member : jworld :=
  JWorld (world0 (λ _ _, true))
    {[ 1 := Node JSON_OBJECT (Number zero) NULL 2 NULL true true;
       2 := Node JSON_NULL (Number zero) NULL 3 9 true false;
       3 := Node JSON_TRUE (Number zero) NULL NULL NULL true false ]}
    {[ 9 := [107; 0] ]} 0 0 false.

Lemma json_get_child_first_witness :
  wp (json_tree_get_child 5 1 (Some [107])) (λ r w', w' = one_member ∧
    (jval (nodes one_member) (strs one_member) {[2; 3]} JTrue r ∧ unlinked (nodes one_member) JTrue r)) one_member.
Proof.
  apply (json_get_child_first one_member {[2; 3]} 1 [([107], JTrue)] [107] 5); [|done|simpl; lia].
  split; [done|]. eexists. split; [reflexivity|]. split; [reflexivity|]. split; [set_solver|]. split; [done|].
  eexists. split; [reflexivity|]. split; [split; [done|]; eexists; split; reflexivity|]. split; [set_solver|].
  split; [split; [done|]; eexists; split; reflexivity|]. split; [done|reflexivity].
Defined.
End JsonSpec.

(** ** Texts on which the JSON module departs from its contract

    Runs of the parser and the serializer of src/src/module/json_parse.c and
    json_serialize.c on concrete texts, with every request granted. *)
Module JsonTexts.
Import Double Json JsonSer JsonRef JsonPrint JsonGrammar JsonSpec.

(** The bytes of a text, with the quotes written as apostrophes. *)
Definition text (s : string) : list Z :=
  (λ a, if Ascii.eqb a "'" then 34 else Z.of_N (N_of_ascii a)) <$> list_ascii_of_string s.

Definition granted : jworld := jworld0 (λ _ _, true).

(** The text of the document that is read from [s]. *)
Definition reprint (s : list Z) : outcome jworld (option (list Z)) :=
  (p <- json_parse (Some s) ;; json_serialize 200 p) granted.

Definition reprints (s s' : string) : bool :=
  match reprint (text s) with Ret (Some r) _ => bool_decide (r = text s') | _ => false end.

(** The end of an object is read twice, by the loop over its members and
    after that loop, so that it also ends the object around it: of the texts
    of these two documents, the first is read with the member ["w"] inside
    ["x"], the second without its last element. *)
Theorem json_object_ends_twice :
  print (JObject [([120], JObject [([121], JObject [([122], JTrue)])]); ([119], JFalse)])
    = text "{'x':{'y':{'z':true}},'w':false}" ∧
  reprints "{'x':{'y':{'z':true}},'w':false}" "{'x':{'y':{'z':true},'w':false}}" = true ∧
  print (JArray [JObject [([97], JObject [([98], JTrue)])]; JNull]) = text "[{'a':{'b':true}},null]" ∧
  reprints "[{'a':{'b':true}},null]" "[{'a':{'b':true}}]" = true.
Proof. vm_compute. done. Qed.

(** An empty array or object that is followed by an element of the array
    around it is printed with the elements after it, as their members: [[[],1]]
    becomes [[[1],1]] and three empty arrays become seven. *)
Theorem json_empty_prints_siblings :
  reprints "[[],1]" "[[1],1]" = true ∧
  reprints "[{},1]" "[{'':null},1]" = true ∧
  reprints "[[],[],[]]" "[[[[]],[]],[[]],[]]" = true ∧
  reprints "[[]]" "[[]]" = true ∧ reprints "{'a':[],'b':{}}" "{'a':[],'b':{}}" = true.
Proof. vm_compute. done. Qed.

(** Thirty-one empty strings and then [s]. *)
Definition after_31 (s : list Z) : list Z :=
  91 :: concat (replicate 31 [34; 34; 44]) ++ 34 :: s ++ [34; 93].

(** Growing the buffer of a string copies half of the new size, which
    reads past the old block: at the end of a chunk it reads memory of no
    one. *)
Theorem json_string_overread :
  json_parse (Some (after_31 (replicate 63 97 ++ [92; 110]))) granted = Fault BadAccess ∧
  json_overreads (after_31 (replicate 63 97 ++ [92; 110])) = true ∧
  json_overreads (after_31 (replicate 300 97)) = false.
Proof. vm_compute. done. Qed.

(** Malformed texts are accepted: a comma at the end, an element that is
    no value, text after the document, arrays that never end, an escape with no hex digits;
    a number too big prints as a word that is no JSON. *)
Theorem json_accepts_malformed :
  reprints "{'a':true,}" "{'a':true}" = true ∧ reprints "[null, x]" "[null]" = true ∧
  reprints "[[[[" "[[[[]]]]" = true ∧ reprints "true false" "true" = true ∧
  reprints "'\u00zz'" "''" = true ∧ reprints "[1e999]" "[inf]" = true.
Proof. vm_compute. done. Qed.

(** One hundred and twenty-eight nested arrays are parsed, one more are
    refused with everything released. *)
Theorem json_depth_limit :
  (match reprint (replicate 128 91 ++ replicate 128 93) with
   | Ret (Some r) _ => r = replicate 128 91 ++ replicate 128 93 | _ => False end) ∧
  (match json_parse (Some (replicate 129 91 ++ replicate 129 93)) granted with
   | Ret p w => p = NULL ∧ nodes w = ∅ ∧ obj (jarena w) = None | _ => False end).
Proof. vm_compute. done. Qed.
End JsonTexts.
