(* ===== verification/TaskTopo.v ===== *)
(** * Graphs of tasks

    A graph is the list of the successor lists of its nodes.  Counting the
    edges into a node of which a part has been crossed is what the compilation
    and the execution of a task graph (src/src/module/taskgraph.c) have in
    common. *)
From S2P Require Import Prelude.
#[local] Open Scope nat_scope.

Module TaskTopo.

Abbreviation graph := (list (list nat)).

Definition edge (G : graph) (u v : nat) : Prop := ∃ l, G !! u = Some l ∧ v ∈ l.

Definition acyclic (G : graph) : Prop := ∀ v, ¬ tc (edge G) v v.

Record graph_ok (G : graph) : Prop := {
  go_nodup : Forall NoDup G;
  go_range : Forall (Forall (λ v, v < length G)) G
}.

Lemma edge_range G u v : graph_ok G → edge G u v → u < length G ∧ v < length G.
Proof.
  intros [_ Hr] (l & Hl & Hv). split; [by eapply lookup_lt_Some|].
  rewrite Forall_lookup in Hr. specialize (Hr _ _ Hl). rewrite Forall_forall in Hr. by apply Hr.
Qed.

(** ** A set in which every node has a predecessor contains a cycle *)

Lemma no_minimal {A} `{EqDecision A} (R : relation A) (xs : list A) :
  Transitive R → (∀ x, ¬ R x x) → (∀ x, x ∈ xs → ∃ y, y ∈ xs ∧ R y x) → xs = [].
Proof.
  intros Ht Hi. induction xs as [|x xs IH]; [done|]. intros Hp. exfalso.
  destruct (Hp x ltac:(left)) as (w & Hw & Hwx). apply elem_of_cons in Hw as [->|Hw]; [by apply (Hi x)|].
  assert (xs = []) as ->; [|by apply elem_of_nil in Hw]. apply IH. intros y Hy.
  destruct (Hp y ltac:(by right)) as (z & Hz & Hzy). apply elem_of_cons in Hz as [->|Hz]; [|by exists z].
  exists w. split; [done|]. by transitivity x.
Qed.

Lemma acyclic_no_closed G xs :
  acyclic G → (∀ v, v ∈ xs → ∃ u, u ∈ xs ∧ edge G u v) → xs = [].
Proof.
  intros Ha Hp. apply (no_minimal (tc (edge G))); [by intros ? ? ? ? ?; etransitivity|done|].
  intros v Hv. destruct (Hp v Hv) as (u & Hu & He). exists u. split; [done|by apply tc_once].
Qed.

(** An order in which every edge goes forward. *)
Lemma ordered_acyclic G (q : list nat) :
  graph_ok G → NoDup q → (∀ v, v < length G → v ∈ q) →
  (∀ j v u, q !! j = Some v → edge G u v → u ∈ take j q) → acyclic G.
Proof.
  intros Hok Hnd Hall Hord.
  assert (∀ u v, tc (edge G) u v → ∀ j, q !! j = Some v → ∃ i, i < j ∧ q !! i = Some u) as H.
  { intros u v Huv. induction Huv as [u v He|u x v He Hxv IH]; intros j Hj.
    - pose proof (Hord j v u Hj He) as Hin. apply list_elem_of_lookup_1 in Hin as [i Hi]. exists i.
      apply lookup_take_Some in Hi. naive_solver.
    - destruct (IH j Hj) as (i & Hij & Hi). pose proof (Hord i x u Hi He) as Hin.
      apply list_elem_of_lookup_1 in Hin as [k Hk]. apply lookup_take_Some in Hk as [Hk ?]. exists k. split; [lia|done]. }
  intros v Hv. assert (v < length G) as Hlt.
  { assert (∀ a b, tc (edge G) a b → a < length G) as Hr; [|by eapply Hr].
    intros a b Hab. destruct Hab as [a b He|a x b He _]; by eapply edge_range in He as [? _]. }
  apply Hall, list_elem_of_lookup_1 in Hlt as [j Hj]. destruct (H v v Hv j Hj) as (i & Hij & Hi).
  assert (i = j) by (by eapply NoDup_lookup). lia.
Qed.

(** ** Counting crossed edges *)

Definition one (P : Prop) `{Decision P} : nat := if decide P then 1 else 0.

Definition in_deg (G : graph) (v : nat) : nat := sum_list ((λ l, one (v ∈ l)) <$> G).

(** The edges into [v] among the first [pr !! u] edges of each node [u]. *)
Definition crossed (G : graph) (pr : list nat) (v : nat) : nat :=
  sum_list (zip_with (λ l k, one (v ∈ take k l)) G pr).

Lemma sum_list_insert (xs : list nat) i x y :
  xs !! i = Some x → sum_list (<[i := y]> xs) + x = sum_list xs + y.
Proof.
  revert i. induction xs as [|z xs IH]; intros [|i]; simpl; [done|done|intros [= ->]; lia|].
  intros H. specialize (IH _ H). lia.
Qed.

Lemma sum_list_app (xs ys : list nat) : sum_list (xs ++ ys) = sum_list xs + sum_list ys.
Proof. induction xs as [|x xs IH]; simpl; [done|]. rewrite IH. lia. Qed.

Section count.
Context (G : graph) (v : nat).

Lemma crossed_le pr : crossed G pr v ≤ in_deg G v.
Proof.
  unfold crossed, in_deg. revert pr. induction G as [|l G' IH]; intros [|k pr]; csimpl; try lia.
  specialize (IH pr). assert (one (v ∈ take k l) ≤ one (v ∈ l)); [|lia]. unfold one.
  destruct (decide (v ∈ take k l)) as [H|]; [|lia]. rewrite decide_True; [done|]. by eapply elem_of_take in H as (? & ?%list_elem_of_lookup_2 & ?).
Qed.

(** An edge that is not crossed yet. *)
Lemma crossed_lt pr : length pr = length G → crossed G pr v < in_deg G v →
  ∃ u l k, G !! u = Some l ∧ pr !! u = Some k ∧ v ∈ l ∧ v ∉ take k l.
Proof.
  unfold crossed, in_deg. revert pr. induction G as [|l G' IH]; intros [|k pr]; csimpl; try lia. intros Hl Hlt.
  destruct (decide (v ∈ l ∧ v ∉ take k l)) as [[]|Hn]; [by exists 0, l, k|].
  destruct (IH pr) as (u & l' & k' & ?); [lia| |by exists (S u), l', k'].
  assert (one (v ∈ l) ≤ one (v ∈ take k l)); [|lia]. unfold one.
  destruct (decide (v ∈ l)); [|lia]. rewrite decide_True; [done|]. destruct (decide (v ∈ take k l)); naive_solver.
Qed.


(** Crossing one more edge. *)
Lemma crossed_step pr u l k x :
  G !! u = Some l → pr !! u = Some k → l !! k = Some x → NoDup l →
  crossed G (<[u := S k]> pr) v = crossed G pr v + one (v = x).
Proof.
  intros Hl Hk Hx Hnd. unfold crossed.
  assert (zip_with (λ l k, one (v ∈ take k l)) G pr !! u = Some (one (v ∈ take k l))) as Hz.
  { by rewrite lookup_zip_with, Hl, Hk. }
  assert (zip_with (λ l k, one (v ∈ take k l)) G (<[u := S k]> pr)
          = <[u := one (v ∈ take (S k) l)]> (zip_with (λ l k, one (v ∈ take k l)) G pr)) as ->.
  { pose proof (insert_zip_with (λ l k, one (v ∈ take k l)) G pr u l (S k)) as E. cbv beta in E. rewrite E. by rewrite (list_insert_id G u l). }
  pose proof (sum_list_insert _ u _ (one (v ∈ take (S k) l)) Hz) as Hs.
  assert (one (v ∈ take (S k) l) = one (v ∈ take k l) + one (v = x)); [|lia].
  rewrite (take_S_r _ _ _ Hx). unfold one.
  assert (x ∉ take k l) as Hn.
  { intros Hin. apply elem_of_take in Hin as (j & Hj & ?). assert (j = k) by (by eapply NoDup_lookup). lia. }
  destruct (decide (v = x)) as [->|Hne].
  - rewrite decide_True by set_solver. by rewrite decide_False.
  - destruct (decide (v ∈ take k l)); [rewrite decide_True by set_solver|rewrite decide_False by set_solver]; lia.
Qed.

Lemma crossed_none n : crossed G (replicate n 0) v = 0.
Proof.
  unfold crossed. revert n. induction G as [|l G' IH]; intros [|n]; simpl; [done..|]. by rewrite IH.
Qed.
End count.

(** All edges into [v] are crossed. *)
Lemma crossed_all G v pr u l k :
  crossed G pr v = in_deg G v → length pr = length G →
  G !! u = Some l → pr !! u = Some k → v ∈ l → v ∈ take k l.
Proof.
  unfold crossed, in_deg. revert pr u. induction G as [|l' G IH]; intros [|k' pr] [|u]; csimpl; try done.
  - intros He Hl [= ->] [= ->] Hv. pose proof (crossed_le G v pr) as Hle. unfold crossed, in_deg in Hle.
    destruct (decide (v ∈ take k l)) as [|Hn]; [done|].
    assert (one (v ∈ take k l) = 0 ∧ one (v ∈ l) = 1) as [E1 E2]; [|lia].
    unfold one. by rewrite decide_False, decide_True.
  - intros He Hl Hu Hk Hv. apply (IH pr u); [|lia|done..]. pose proof (crossed_le G v pr) as Hle. unfold crossed, in_deg in Hle.
    pose proof (crossed_le [l'] v [k']) as H. unfold crossed, in_deg in H. csimpl in H. lia.
Qed.

(** ** Adding nodes and edges *)

Definition add_node (G : graph) : graph := G ++ [[]].

Definition add_edge (G : graph) (u v : nat) : graph :=
  match G !! u with
  | Some l => if decide (v ∈ l) then G else <[u := l ++ [v]]> G
  | None => G
  end.

Lemma add_node_ok G : graph_ok G → graph_ok (add_node G).
Proof.
  intros [Hn Hr]. unfold add_node. split; apply Forall_app; split; [done|by repeat constructor| |by repeat constructor].
  eapply Forall_impl; [exact Hr|]. intros l Hl. eapply Forall_impl; [exact Hl|]. intros v Hv. simpl in *. rewrite length_app. simpl. lia.
Qed.

Lemma add_edge_ok G u v : graph_ok G → v < length G → graph_ok (add_edge G u v).
Proof.
  intros [Hn Hr] Hv. unfold add_edge. destruct (G !! u) as [l|] eqn:Hl; [|done]. case_decide; [done|].
  pose proof (proj1 (Forall_lookup _ _) Hn _ _ Hl) as Hnl. pose proof (proj1 (Forall_lookup _ _) Hr _ _ Hl) as Hrl.
  split; rewrite ?length_insert; apply Forall_insert; try done.
  - apply NoDup_app. split_and!; [done| |by apply NoDup_singleton]. set_solver.
  - apply Forall_app. split; [done|by constructor].
Qed.

Lemma in_deg_add_node G v : in_deg (add_node G) v = in_deg G v.
Proof.
  unfold in_deg, add_node. rewrite fmap_app, sum_list_app. csimpl. lia.
Qed.

Lemma in_deg_fresh G v : graph_ok G → length G ≤ v → in_deg G v = 0.
Proof.
  intros [_ Hr] Hv. assert (∀ n, n ≤ v → Forall (Forall (λ x, x < n)) G → in_deg G v = 0) as H; [|by eapply H].
  clear. intros n Hn Hr. unfold in_deg. induction Hr as [|l G Hl Hr IH]; csimpl; [done|]. rewrite IH.
  unfold one. rewrite decide_False; [done|]. rewrite Forall_forall in Hl. intros H%Hl. lia.
Qed.

Lemma in_deg_add_edge G u v l x : G !! u = Some l → v ∉ l → in_deg (add_edge G u v) x = in_deg G x + one (x = v).
Proof.
  intros Hl Hv. unfold add_edge. rewrite Hl, decide_False by done. unfold in_deg. rewrite list_fmap_insert.
  pose proof (sum_list_insert ((λ l, one (x ∈ l)) <$> G) u (one (x ∈ l)) (one (x ∈ l ++ [v]))
    ltac:(by rewrite list_lookup_fmap, Hl)) as Hs.
  assert (one (x ∈ l ++ [v]) = one (x ∈ l) + one (x = v)); [|lia]. unfold one.
  destruct (decide (x = v)) as [->|]; [rewrite decide_True by set_solver; by rewrite decide_False|].
  destruct (decide (x ∈ l)); [rewrite decide_True by set_solver|rewrite decide_False by set_solver]; lia.
Qed.
End TaskTopo.
