(* ===== verification/TaskGraph.v ===== *)
(** * The task graph: src/src/module/taskgraph.c

    Tasks and the edges between them, the check that the graph has no cycle,
    and the execution by a pool of threads.  The object of the world is the
    graph, its heap holds the task nodes.  The vectors of the graph and of its
    nodes are those of [Vector]: each is reached only from its owner, so the
    pointer to it is the vector itself, [None] when it is NULL. *)
From S2P Require Import Prelude World Vector.

Module TaskGraph.
Import Vector.

Record cobalt_task_node := TaskNode {
  id : Z;
  fn : Z;
  ctx : Z;
  static_in_degree : Z;
  remaining_in_degree : Z;
  successors : option cobalt_vector
}.

(** [wg] is the counter of the wait group, [None] when there is none;
    [bound_pool] an address. *)
Record cobalt_taskgraph := Graph {
  nodes : option cobalt_vector;
  root_nodes : option cobalt_vector;
  compiled : bool;
  wg : option Z;
  bound_pool : Z
}.

Abbreviation gworld := (world cobalt_taskgraph cobalt_task_node).

Definition sizeof_taskgraph : Z := 48.
Definition sizeof_task_node : Z := 56.
Definition sizeof_waitgroup : Z := 32.
Definition COBALT_INVALID_TASK_ID : Z := 2 ^ 64 - 1.

Definition set_static (n : cobalt_task_node) (d : Z) : cobalt_task_node :=
  TaskNode (id n) (fn n) (ctx n) d (remaining_in_degree n) (successors n).
Definition set_remaining (n : cobalt_task_node) (d : Z) : cobalt_task_node :=
  TaskNode (id n) (fn n) (ctx n) (static_in_degree n) d (successors n).
Definition set_successors (n : cobalt_task_node) (v : option cobalt_vector) : cobalt_task_node :=
  TaskNode (id n) (fn n) (ctx n) (static_in_degree n) (remaining_in_degree n) v.
Definition set_nodes (g : cobalt_taskgraph) (v : option cobalt_vector) : cobalt_taskgraph :=
  Graph v (root_nodes g) (compiled g) (wg g) (bound_pool g).
Definition set_roots (g : cobalt_taskgraph) (v : option cobalt_vector) : cobalt_taskgraph :=
  Graph (nodes g) v (compiled g) (wg g) (bound_pool g).
Definition set_compiled (g : cobalt_taskgraph) : cobalt_taskgraph :=
  Graph (nodes g) (root_nodes g) true (wg g) (bound_pool g).
Definition set_pool (g : cobalt_taskgraph) (p : Z) : cobalt_taskgraph :=
  Graph (nodes g) (root_nodes g) (compiled g) (wg g) p.
Definition set_wg (g : cobalt_taskgraph) (c : option Z) : cobalt_taskgraph :=
  Graph (nodes g) (root_nodes g) (compiled g) c (bound_pool g).

(** ** Vectors of the graph *)

(** A call on the vector [v]: its result and the vector after it.  Requests
    and errors are those of the graph's world. *)
Definition vec_world (w : gworld) (v : option cobalt_vector) : vworld :=
  World v ∅ 1 (oracle w) (allocs w) (last_error w).

Definition on_vec {A} (v : option cobalt_vector) (c : M vworld A) : M gworld (A * option cobalt_vector) :=
  λ w, match c (vec_world w v) with
       | Ret a u => Ret (a, obj u) (World (obj w) (heap w) (brk w) (oracle w) (allocs u) (last_error u))
       | Fault f => Fault f
       end.

Definition vec_create (initial_capacity : Z) : M gworld (option cobalt_vector) :=
  r <- on_vec None (cobalt_vector_create initial_capacity) ;; mret r.2.
Definition vec_size (v : option cobalt_vector) : M gworld Z :=
  r <- on_vec v cobalt_vector_size ;; mret r.1.
Definition vec_get (v : option cobalt_vector) (i : Z) : M gworld Z :=
  r <- on_vec v (cobalt_vector_get i) ;; mret r.1.
Definition vec_get_unchecked (v : option cobalt_vector) (i : Z) : M gworld Z :=
  r <- on_vec v (cobalt_vector_get_unchecked i) ;; mret r.1.
Definition vec_destroy (v : option cobalt_vector) : M gworld unit :=
  on_vec v cobalt_vector_destroy ;;; mret tt.

(** [for (i = i; count > 0; i++, count--)] with a value carried along. *)
Fixpoint for_fold {S A} (i : Z) (count : nat) (body : Z → A → M S A) (a : A) : M S A :=
  match count with
  | O => mret a
  | Datatypes.S c => a <- body i a ;; for_fold (i + 1) c body a
  end.

Definition for_each {S} (n : Z) (body : Z → M S unit) : M S unit :=
  for_fold 0 (Z.to_nat n) (λ i _, body i) tt.

(** ** Creation and destruction *)

Definition destroy_node (p : Z) : M gworld unit :=
  if p =? NULL then mret tt
  else
    n <- load p ;;
    (match successors n with Some _ => vec_destroy (successors n) | None => mret tt end) ;;;
    free_node p.

Definition cobalt_taskgraph_destroy : M gworld unit :=
  o <- get_obj ;;
  match o with
  | None => mret tt
  | Some g =>
      (match nodes g with
       | None => mret tt
       | Some _ =>
           n <- vec_size (nodes g) ;;
           for_each n (λ i, p <- vec_get (nodes g) i ;; destroy_node p) ;;;
           vec_destroy (nodes g)
       end) ;;;
      (match root_nodes g with None => mret tt | Some _ => vec_destroy (root_nodes g) end) ;;;
      set_obj None
  end.

Definition out_of_memory {A} (a : A) : M gworld A :=
  cobalt_error_set None COBALT_ERROR_OUT_OF_MEMORY ;;; mret a.
Definition invalid_argument {A} (a : A) : M gworld A :=
  cobalt_error_set None COBALT_ERROR_INVALID_ARGUMENT ;;; mret a.

Definition cobalt_taskgraph_create_with_alloc : M gworld bool :=
  ok <- request sizeof_taskgraph ;;
  if negb ok then out_of_memory false
  else
    ns <- vec_create 16 ;;
    rs <- vec_create 8 ;;
    set_obj (Some (Graph ns rs false None NULL)) ;;;
    match ns, rs with
    | Some _, Some _ => mret true
    | _, _ => cobalt_taskgraph_destroy ;;; out_of_memory false
    end.

Definition cobalt_taskgraph_create : M gworld bool := cobalt_taskgraph_create_with_alloc.

(** ** Building *)

(** Appends the node at [p] to the nodes of the graph. *)
Definition push_node (p : Z) : M gworld Z :=
  g <- deref ;;
  r <- on_vec (nodes g) (cobalt_vector_push p) ;;
  set_obj (Some (set_nodes g r.2)) ;;;
  mret r.1.

Definition cobalt_taskgraph_add_node (f c : Z) : M gworld Z :=
  o <- get_obj ;;
  match o with
  | None => invalid_argument COBALT_INVALID_TASK_ID
  | Some g =>
      if (f =? NULL) || compiled g then invalid_argument COBALT_INVALID_TASK_ID
      else
        p <- alloc_node sizeof_task_node (TaskNode 0 0 0 0 0 None) ;;
        if p =? NULL then out_of_memory COBALT_INVALID_TASK_ID
        else
          count <- vec_size (nodes g) ;;
          store p (TaskNode count f c 0 0 None) ;;;
          v <- vec_create 4 ;;
          store p (TaskNode count f c 0 0 v) ;;;
          r <- (match v with None => mret (-1) | Some _ => push_node p end) ;;
          if negb (r =? 0) then
            (match v with None => mret tt | Some _ => vec_destroy v end) ;;;
            free_node p ;;;
            out_of_memory COBALT_INVALID_TASK_ID
          else mret count
  end.

(** Whether [to_id] is among the first [count] items from [i] on. *)
Fixpoint has_edge (v : option cobalt_vector) (to_id i : Z) (count : nat) : M gworld bool :=
  match count with
  | O => mret false
  | Datatypes.S c =>
      x <- vec_get_unchecked v i ;;
      if x =? to_id then mret true else has_edge v to_id (i + 1) c
  end.

Definition cobalt_taskgraph_add_edge (from_id to_id : Z) : M gworld Z :=
  o <- get_obj ;;
  match o with
  | None => invalid_argument (-1)
  | Some g =>
      if compiled g then invalid_argument (-1)
      else
        count <- vec_size (nodes g) ;;
        if (count <=? from_id) || (count <=? to_id) then invalid_argument (-1)
        else
          from_node <- vec_get_unchecked (nodes g) from_id ;;
          to_node <- vec_get_unchecked (nodes g) to_id ;;
          f <- load from_node ;;
          succ_count <- vec_size (successors f) ;;
          dup <- has_edge (successors f) to_id 0 (Z.to_nat succ_count) ;;
          if dup : bool then mret 0
          else
            r <- on_vec (successors f) (cobalt_vector_push to_id) ;;
            store from_node (set_successors f r.2) ;;;
            if negb (r.1 =? 0) then out_of_memory (-1)
            else
              t <- load to_node ;;
              store to_node (set_static t (wrap64 (static_in_degree t + 1))) ;;;
              mret 0
  end.

(** ** Compilation: Kahn's algorithm *)

(** The filled part of the array of in-degrees, the written part of the queue
    (its length is [q_tail]), and the two counters. *)
Record kahn := Kahn { in_degree : list Z; queue : list Z; q_head : Z; visited : Z }.

Section kahn.
Variable ns : option cobalt_vector.
Variable num_nodes : Z.

(** [queue[q_tail++] = v] *)
Definition enqueue (k : kahn) (v : Z) : M gworld kahn :=
  if Z.of_nat (length (queue k)) <? num_nodes
  then mret (Kahn (in_degree k) (queue k ++ [v]) (q_head k) (visited k))
  else mfail BadAccess.

Definition init_node (i : Z) (k : kahn) : M gworld kahn :=
  p <- vec_get ns i ;;
  n <- load p ;;
  let k := Kahn (in_degree k ++ [static_in_degree n]) (queue k) (q_head k) (visited k) in
  if static_in_degree n =? 0 then enqueue k i else mret k.

(** One successor loses a predecessor. *)
Definition relax (u : cobalt_task_node) (s : Z) (k : kahn) : M gworld kahn :=
  v <- vec_get (successors u) s ;;
  match in_degree k !! Z.to_nat v with
  | None => mfail BadAccess
  | Some d =>
      let d := wrap64 (d - 1) in
      let k := Kahn (<[Z.to_nat v := d]> (in_degree k)) (queue k) (q_head k) (visited k) in
      if d =? 0 then enqueue k v else mret k
  end.

Definition visit_body (k : kahn) : M gworld (kahn + kahn) :=
  if Z.of_nat (length (queue k)) <=? q_head k then mret (inr k)
  else
    match queue k !! Z.to_nat (q_head k) with
    | None => mfail BadAccess
    | Some u =>
        p <- vec_get ns u ;;
        n <- load p ;;
        let k := Kahn (in_degree k) (queue k) (q_head k + 1) (visited k + 1) in
        succ_count <- vec_size (successors n) ;;
        k <- for_fold 0 (Z.to_nat succ_count) (relax n) k ;;
        mret (inl k)
    end.

Definition topological_sort : M gworld kahn :=
  k <- for_fold 0 (Z.to_nat num_nodes) init_node (Kahn [] [] 0 0) ;;
  loop (Datatypes.S (Z.to_nat num_nodes)) visit_body k.
End kahn.

(** The result of the push is not looked at. *)
Definition push_root (i : Z) : M gworld unit :=
  g <- deref ;;
  r <- on_vec (root_nodes g) (cobalt_vector_push i) ;;
  set_obj (Some (set_roots g r.2)).

Definition cache_root (i : Z) : M gworld unit :=
  g <- deref ;;
  p <- vec_get (nodes g) i ;;
  n <- load p ;;
  if static_in_degree n =? 0 then push_root i else mret tt.

Definition cobalt_taskgraph_compile : M gworld Z :=
  o <- get_obj ;;
  match o with
  | None => invalid_argument (-1)
  | Some g =>
      if compiled g then mret 0
      else
        num_nodes <- vec_size (nodes g) ;;
        if num_nodes =? 0 then set_obj (Some (set_compiled g)) ;;; mret 0
        else
          ok1 <- request (wrap64 (num_nodes * sizeof_ptr)) ;;
          ok2 <- request (wrap64 (num_nodes * sizeof_ptr)) ;;
          if negb (ok1 && ok2) then out_of_memory (-1)
          else
            k <- topological_sort (nodes g) num_nodes ;;
            if negb (visited k =? num_nodes) then invalid_argument (-1)
            else
              vec_destroy (root_nodes g) ;;;
              rs <- vec_create 8 ;;
              set_obj (Some (set_roots g rs)) ;;;
              for_each num_nodes cache_root ;;;
              g <- deref ;;
              set_obj (Some (set_compiled g)) ;;;
              mret 0
  end.

(** ** Execution *)

Definition reset_node (p : Z) : M gworld unit :=
  if p =? NULL then mret tt
  else n <- load p ;; store p (set_remaining n (static_in_degree n)).

Definition cobalt_taskgraph_reset : M gworld unit :=
  o <- get_obj ;;
  match o with
  | None => mret tt
  | Some g =>
      n <- vec_size (nodes g) ;;
      for_each n (λ i, p <- vec_get (nodes g) i ;; reset_node p)
  end.

Definition cobalt_taskgraph_node_count : M gworld Z :=
  o <- get_obj ;;
  match o with None => mret 0 | Some g => vec_size (nodes g) end.

(** [cobalt_taskgraph_run] up to the submission of the roots: the value it
    returns early, or the number of roots.  A wait group takes three requests,
    for itself, its mutex and its condition variable. *)
Definition waitgroup_create : M gworld bool :=
  a <- request sizeof_waitgroup ;;
  if negb a then mret false
  else b <- request 40 ;; c <- request 48 ;; mret (b && c).

Definition run_setup (pool : Z) : M gworld (Z + Z) :=
  o <- get_obj ;;
  match o with
  | None => invalid_argument (inl (-1))
  | Some g =>
      if (pool =? NULL) || negb (compiled g) then invalid_argument (inl (-1))
      else
        num_nodes <- vec_size (nodes g) ;;
        if num_nodes =? 0 then mret (inl 0)
        else
          cobalt_taskgraph_reset ;;;
          set_obj (Some (set_pool (set_wg g None) pool)) ;;;
          ok <- waitgroup_create ;;
          if negb ok then out_of_memory (inl (-1))
          else
            set_obj (Some (set_pool (set_wg g (Some num_nodes)) pool)) ;;;
            num_roots <- vec_size (root_nodes g) ;;
            mret (inr num_roots)
  end.
End TaskGraph.
