(* ===== verification/TaskGraphCompile.v ===== *)
(** * Compiling a task graph

    Kahn's algorithm in [cobalt_taskgraph_compile] of
    src/src/module/taskgraph.c: it visits every node exactly when the graph has
    no cycle. *)
From S2P Require Import Prelude World Vector TaskTopo TaskGraph.

(** ** Task graphs in memory

    What the nodes and vectors of a task graph hold, and the effect of
    src/src/module/taskgraph.c's building functions on it. *)
Module TaskGraphRep.
Import Vector TaskTopo TaskGraph.

(** Only requests and errors happened. *)
Definition touch (w : gworld) (a : nat) (e : cobalt_error) : gworld :=
  World (obj w) (heap w) (brk w) (oracle w) a e.

Lemma touch_id w : touch w (allocs w) (last_error w) = w.
Proof. by destruct w. Qed.

Ltac wpo_step :=
  wp_simpl;
  lazymatch goal with
  | |- wp_or _ (mbind _ _) _ _ => apply wp_or_bind
  | |- wp_or _ (mret _) _ _ => apply wp_or_ret
  | |- wp_or _ get_obj _ _ => apply wp_or_of, wp_get_obj
  | |- wp_or _ deref _ _ => apply wp_or_of; eapply wp_deref; [first [eassumption | reflexivity]|]
  | |- wp_or _ (set_obj _) _ _ => apply wp_or_of, wp_set_obj
  | |- wp_or _ (cobalt_error_set _ _) _ _ => apply wp_or_of, wp_error_set
  end; wp_simpl.
Ltac wpo := repeat wpo_step.

Section rep.
(** The allocator, and a bound on the requests that matter. *)
Variable orc : nat → Z → bool.
Variable B : Z.
Hypothesis Hsane : sane orc.

(** Some such request is refused. *)
Definition refusal : Prop := ∃ k m, m ≤ B ∧ orc k m = false.

(** The one fault: writing through the array of a vector that was created
    although the request for the array was refused. *)
Definition unchecked (f : fault) : Prop := f = NullDeref ∧ refusal.

(** ** Vectors *)

Definition no_array (u : cobalt_vector) (xs : list Z) : Prop :=
  refusal ∧ xs = [] ∧ items u = None ∧ size u = 0 ∧ 0 < capacity u.

Definition vec_is (v : option cobalt_vector) (xs : list Z) : Prop :=
  ∃ u, v = Some u ∧ capacity u ≤ 16 + 2 * Z.of_nat (length xs) ∧ (vec_ok u xs ∨ no_array u xs).

Lemma vec_is_size v xs : vec_is v xs → ∃ u, v = Some u ∧ size u = Z.of_nat (length xs).
Proof. intros (u & -> & _ & [Hu|(_ & -> & _ & Hu & _)]); exists u; split; [done|apply Hu|done|done]. Qed.

Lemma vec_is_bytes v xs : vec_is v xs → Z.of_nat (length xs) * 8 < 2 ^ 63.
Proof.
  intros (u & _ & _ & [Hu|(_ & -> & _)]); [|simpl; lia]. pose proof (ok_size _ _ Hu). pose proof (ok_le _ _ Hu).
  pose proof (ok_cap _ _ Hu). unfold sizeof_ptr in *. lia.
Qed.

Lemma wp_vec_size v xs (Q : Z → gworld → Prop) w :
  vec_is v xs → Q (Z.of_nat (length xs)) w → wp (vec_size v) Q w.
Proof.
  intros Hv HQ. destruct (vec_is_size _ _ Hv) as (u & -> & Hs). unfold wp, vec_size, on_vec, mbind, mret. simpl.
  rewrite Hs. by destruct w.
Qed.

Lemma wp_vec_get v xs i x (Q : Z → gworld → Prop) w :
  vec_is v xs → 0 ≤ i → xs !! Z.to_nat i = Some x → Q x w → wp (vec_get v i) Q w.
Proof.
  intros (u & -> & _ & [Hu|(_ & -> & _)]) Hi Hx HQ; [|done]. pose proof (lookup_lt_Some _ _ _ Hx) as Hlt.
  pose proof (ok_lookup _ _ _ _ Hu Hx) as Hl. pose proof (ok_size _ _ Hu).
  unfold wp, vec_get, on_vec, cobalt_vector_get, read_item, mbind, mret, get_obj. simpl.
  rewrite (proj2 (Z.leb_gt _ _)) by lia. destruct (items u); simpl in Hl; [|done]. rewrite Hl. by destruct w.
Qed.

Lemma wp_vec_get_unchecked v xs i x (Q : Z → gworld → Prop) w :
  vec_is v xs → 0 ≤ i → xs !! Z.to_nat i = Some x → Q x w → wp (vec_get_unchecked v i) Q w.
Proof.
  intros (u & -> & _ & [Hu|(_ & -> & _)]) Hi Hx HQ; [|done].
  pose proof (ok_lookup _ _ _ _ Hu Hx) as Hl.
  unfold wp, vec_get_unchecked, on_vec, cobalt_vector_get_unchecked, read_item, mbind, mret, deref. simpl.
  destruct (items u); simpl in Hl; [|done]. rewrite Hl. by destruct w.
Qed.

Lemma wp_vec_create c (Q : option cobalt_vector → gworld → Prop) w :
  oracle w = orc → 0 < c ≤ 16 → 128 ≤ B →
  (∀ v a e, vec_is v [] → Q v (touch w a e)) → (∀ a e, refusal → Q None (touch w a e)) →
  wp (vec_create c) Q w.
Proof.
  intros Ho Hc HB Hyes Hno.
  unfold wp, vec_create, on_vec, cobalt_vector_create, cobalt_vector_create_with_allocator, mbind, mret, request. cbn [negb].
  cbn [oracle allocs vec_world]. destruct (oracle w (allocs w) sizeof_vector) eqn:E1; cbn [negb]; rewrite Ho in E1.
  2: { apply Hno. eexists _, _. split; [|exact E1]. unfold sizeof_vector. lia. }
  unfold max_cap, SIZE_MAX, sizeof_ptr. change ((2 ^ 64 - 1) / 8) with 2305843009213693951. rewrite (proj2 (Z.ltb_ge _ _)) by lia. rewrite (proj2 (Z.ltb_lt _ _)) by lia.
  rewrite wrap64_small by lia. cbn [oracle allocs with_request vec_world].
  destruct (oracle w (S (allocs w)) (c * 8)) eqn:E2; rewrite Ho in E2; simpl; apply Hyes; eexists; (split; [done|]); simpl; (split; [lia|]).
  - left. split; simpl; [|done|done|lia|unfold sizeof_ptr; lia]. unfold malloc_items, sizeof_ptr. rewrite length_replicate.
    by rewrite Z.div_mul.
  - right. split_and!; try done; [|simpl; lia]. eexists _, _. split; [|exact E2]. lia.
Qed.

Lemma wp_vec_destroy v (Q : unit → gworld → Prop) w : Q tt w → wp (vec_destroy v) Q w.
Proof. intros HQ. unfold wp, vec_destroy, on_vec, mbind, mret. by destruct v, w. Qed.

(** The bound is large enough for a vector of [n] items to grow. *)
Definition grow_bytes (n : nat) : Z := 8 * (40 + 4 * Z.of_nat n).

Lemma grown_capacity_le c : 0 ≤ c → grown_capacity c ≤ Z.max 1 (2 * c).
Proof.
  intros. unfold grown_capacity, max_cap, SIZE_MAX, sizeof_ptr.
  change ((2 ^ 64 - 1) / 8 / 2) with 1152921504606846975. change ((2 ^ 64 - 1) / 8) with 2305843009213693951.
  repeat case_match; lia.
Qed.

Lemma wp_vec_push v xs x (Q : Z * option cobalt_vector → gworld → Prop) w :
  oracle w = orc → vec_is v xs → grow_bytes (length xs) ≤ B →
  (∀ v' a e, vec_is v' (xs ++ [x]) → Q (0, v') (touch w a e)) →
  (∀ v' a, vec_is v' xs → refusal → Q (-1, v') (touch w a COBALT_ERROR_OUT_OF_MEMORY)) →
  wp_or unchecked (on_vec v (cobalt_vector_push x)) Q w.
Proof.
  intros Ho (u & -> & Hcap & Hu) HB Hyes Hno. unfold grow_bytes in HB.
  unfold wp_or, on_vec, cobalt_vector_push, vector_push_internal, mbind, mret, get_obj, deref, set_obj, request. simpl.
  destruct Hu as [Hu|(Hr & -> & Hi & Hs & Hc)].
  2: { rewrite (proj2 (Z.leb_gt _ _)) by lia. simpl. unfold write_item, mfail. rewrite Hi. by split. }
  pose proof (ok_size _ _ Hu) as Hs. pose proof (ok_le _ _ Hu) as Hle. pose proof (ok_cap _ _ Hu) as Hb. pose proof (ok_length _ _ Hu) as Hlen.
  destruct (Z.leb_spec (capacity u) (size u)) as [Hfull|Hroom]; simpl.
  - destruct (grown_capacity_ok (capacity u)) as [Hgt Hw]; [lia|done|]. pose proof (grown_capacity_le (capacity u) ltac:(lia)) as Hg.
    destruct (oracle w (allocs w) (wrap64 (grown_capacity (capacity u) * sizeof_ptr))) eqn:Eo; rewrite Ho in Eo; simpl.
    + pose proof (Hsane _ _ Eo) as Hsn. rewrite Hw in Hsn. pose proof (realloc_ok u xs (grown_capacity (capacity u)) Hu ltac:(lia) ltac:(lia)) as Hr.
      unfold write_item, mret. simpl.
      rewrite decide_True by (pose proof (ok_length _ _ Hr) as Hl; simpl in Hl; lia). simpl.
      apply Hyes. eexists. split; [done|]. simpl. rewrite length_app. simpl. split; [lia|]. left. unfold set_size. simpl.
      pose proof (append_ok _ xs x Hr ltac:(simpl; lia)) as Ha. simpl in Ha. unfold sizeof_ptr in *. rewrite (wrap64_small (size u + 1)) by lia.
      rewrite Hs in Ha |- *. rewrite Nat2Z.id. exact Ha.
    + apply Hno; [by exists u; eauto|]. rewrite Hw in Eo. eexists _, _. split; [|exact Eo]. unfold sizeof_ptr. lia.
  - unfold write_item. destruct (items u) as [l|] eqn:Ei; simpl in Hlen; [|lia]. rewrite decide_True by lia. simpl. apply Hyes.
    eexists. split; [done|]. simpl. rewrite length_app. simpl. split; [lia|]. left. unfold set_size. simpl.
    pose proof (append_ok _ xs x Hu ltac:(lia)) as Ha. rewrite Ei in Ha. simpl in Ha. unfold sizeof_ptr in *. rewrite (wrap64_small (size u + 1)) by lia.
    rewrite Hs in Ha |- *. rewrite Nat2Z.id. exact Ha.
Qed.

(** ** The graph *)

Definition node_is (G : graph) (i : nat) (l : list nat) (n : cobalt_task_node) : Prop :=
  id n = Z.of_nat i ∧ fn n ≠ NULL ∧ static_in_degree n = Z.of_nat (in_deg G i) ∧
  vec_is (successors n) (Z.of_nat <$> l).

(** The graph [g] of [w] is [G], its nodes are at the addresses [a]. *)
Record graph_at (w : gworld) (G : graph) (a : list Z) (g : cobalt_taskgraph) : Prop := {
  ga_orc : oracle w = orc;
  ga_heap : heap_ok w;
  ga_obj : obj w = Some g;
  ga_nodes : vec_is (nodes g) a;
  ga_graph : graph_ok G;
  ga_len : length a = length G;
  ga_nodup : NoDup a;
  ga_dom : dom (heap w) = list_to_set a;
  ga_node : ∀ i p l, a !! i = Some p → G !! i = Some l → ∃ n, heap w !! p = Some n ∧ node_is G i l n
}.

Lemma graph_at_touch w G a g k e : graph_at w G a g → graph_at (touch w k e) G a g.
Proof. by intros []. Qed.

Lemma graph_at_error w G a g e : graph_at w G a g → graph_at (with_error w e) G a g.
Proof. by intros []. Qed.

Lemma graph_at_obj w G a g g' : graph_at w G a g → nodes g' = nodes g → graph_at (with_obj w (Some g')) G a g'.
Proof. intros [] E. split; try done. by rewrite E. Qed.

Lemma graph_size w G a g : graph_at w G a g → Z.of_nat (length G) < 2 ^ 64.
Proof.
  clear Hsane. intros Hg. rewrite <- (ga_len _ _ _ _ Hg). pose proof (ga_heap _ _ _ _ Hg) as Hh.
  assert (Z.of_nat (length a) < brk w) as Hlt; [|destruct Hh; lia].
  apply heap_ok_length; [done|apply (ga_nodup _ _ _ _ Hg)|]. intros p Hp. apply elem_of_dom.
  rewrite (ga_dom _ _ _ _ Hg). set_solver.
Qed.

(** The node with the number [i]. *)
Lemma graph_node w G a g i l : graph_at w G a g → G !! i = Some l →
  ∃ p n, a !! i = Some p ∧ p ≠ NULL ∧ heap w !! p = Some n ∧ node_is G i l n.
Proof.
  intros Hg Hl. destruct (lookup_lt_is_Some_2 a i) as [p Hp].
  { rewrite (ga_len _ _ _ _ Hg). by eapply lookup_lt_Some. }
  destruct (ga_node _ _ _ _ Hg i p l Hp Hl) as (n & Hn & Hi). exists p, n. split_and!; try done.
  intros ->. pose proof (heap_null _ (ga_heap _ _ _ _ Hg)). congruence.
Qed.

Lemma in_deg_le G v : (in_deg G v ≤ length G)%nat.
Proof.
  unfold in_deg. induction G as [|l G IH]; csimpl; [lia|]. assert (one (v ∈ l) ≤ 1)%nat; [|lia]. unfold one. case_decide; lia.
Qed.

(** *** Adding a node *)

Definition with_vec (g : cobalt_taskgraph) (g' : cobalt_taskgraph) : Prop := g' = set_nodes g (nodes g').

Lemma graph_at_ext w w' G a g g' :
  graph_at w G a g → obj w' = Some g' → vec_is (nodes g') a → heap w' = heap w → brk w ≤ brk w' ≤ 2 ^ 64 →
  oracle w' = oracle w → graph_at w' G a g'.
Proof.
  intros [G1 [G2 G2'] G3 G4 G5 G6 G7 G8 G9] Ho Hv Hh Hb Hor. split; try done; [congruence| |by rewrite Hh|by rewrite Hh].
  split; [lia|]. intros p n. rewrite Hh. intros Hp%G2'. lia.
Qed.

Lemma graph_at_push w w' G a g g' n :
  graph_at w G a g → obj w' = Some g' → heap w' = <[brk w := n]> (heap w) → brk w < brk w' ≤ 2 ^ 64 → oracle w' = oracle w →
  id n = Z.of_nat (length G) → fn n ≠ NULL → static_in_degree n = 0 → vec_is (successors n) [] → vec_is (nodes g') (a ++ [brk w]) →
  graph_at w' (add_node G) (a ++ [brk w]) g'.
Proof.
  intros [G1 G2 G3 G4 G5 G6 G7 G8 G9] Ho Hh Hb Hor Hi Hf Hs Hv Hn. pose proof (heap_fresh _ G2) as Hp. set (p := brk w) in *.
  assert (p ∉ a) as Hpa. { intros Hin. assert (p ∈ dom (heap w)) as Hd by (rewrite G8; set_solver). by apply elem_of_dom in Hd as [? ?]; congruence. }
  split; rewrite ?Hh; try done; [congruence|..].
  - destruct G2 as [? Hd]. split; [lia|]. intros q m. rewrite Hh, lookup_insert_Some. intros [[<- _]|[_ ?%Hd]]; unfold p in *; lia.
  - by apply add_node_ok.
  - unfold add_node. rewrite !length_app. simpl. lia.
  - apply NoDup_app. split_and!; [done|set_solver|by apply NoDup_singleton].
  - rewrite dom_insert_L, G8, list_to_set_app_L. set_solver.
  - intros i q l Hq Hl. unfold add_node in Hl. apply lookup_app_Some in Hq as [Hq|[Hge Hq]].
    + assert (i < length G)%nat by (apply lookup_lt_Some in Hq; lia). rewrite lookup_app_l in Hl by done.
      destruct (G9 i q l Hq Hl) as (m & Hm & M1 & M2 & M3 & M4). exists m. rewrite lookup_insert_ne by (intros ->; congruence).
      split; [done|]. split_and!; try done. by rewrite in_deg_add_node.
    + apply list_lookup_singleton_Some in Hq as [Hi0 <-]. assert (i = length G) as -> by lia.
      rewrite lookup_app_r, Nat.sub_diag in Hl by done. injection Hl as <-. exists n. rewrite lookup_insert_eq. split; [done|].
      split_and!; try done.
      by rewrite Hs, in_deg_add_node, (in_deg_fresh G) by done.
Qed.

(** The number of the new node, or no change. *)
Definition node_added (w : gworld) (G : graph) (a : list Z) (g : cobalt_taskgraph) (r : Z) (w' : gworld) : Prop :=
  brk w' ≤ brk w + 1 ∧ ∃ g', with_vec g g' ∧
    ((r = Z.of_nat (length G) ∧ ∃ p, graph_at w' (add_node G) (a ++ [p]) g') ∨
     (r = COBALT_INVALID_TASK_ID ∧ graph_at w' G a g' ∧ last_error w' = COBALT_ERROR_OUT_OF_MEMORY ∧
      (refusal ∨ 2 ^ 64 ≤ brk w))).

Lemma wp_undo_node w w' G a g g' n :
  graph_at w G a g → obj w' = Some g' → with_vec g g' → vec_is (nodes g') a →
  heap w' = <[brk w := n]> (heap w) → brk w' = brk w + 1 → brk w' ≤ 2 ^ 64 → oracle w' = oracle w → refusal →
  wp (free_node (brk w) ;;; out_of_memory COBALT_INVALID_TASK_ID) (node_added w G a g) w'.
Proof.
  intros Hg Ho Hg' Hv Hh Hb Hb' Hor Hr. pose proof (ga_heap _ _ _ _ Hg) as Hok. pose proof (heap_fresh _ Hok) as Hfr. destruct Hok as [Hbr _].
  wp_step. eapply wp_free_node; [unfold NULL; lia|rewrite Hh; apply lookup_insert_eq|].
  unfold out_of_memory. wp_steps. split; [simpl; lia|]. exists g'. split; [done|]. right. split; [done|]. split; [|split; [done|by left]].
  eapply graph_at_ext; [exact Hg|done|done| |simpl; lia|simpl; congruence]. simpl. rewrite Hh. by rewrite delete_insert_id.
Qed.

Lemma wp_add_node w G a g f c :
  graph_at w G a g → compiled g = false → f ≠ NULL → grow_bytes (length G) ≤ B →
  wp_or unchecked (cobalt_taskgraph_add_node f c) (node_added w G a g) w.
Proof.
  intros Hg Hc Hf HB. unfold cobalt_taskgraph_add_node. wpo. rewrite (ga_obj _ _ _ _ Hg), Hc, orb_false_r.
  rewrite (proj2 (Z.eqb_neq _ _) Hf). wpo. apply wp_or_of, wp_alloc_node.
  2: { intros Hr. rewrite Z.eqb_refl. unfold out_of_memory. wp_steps. split; [simpl; lia|]. exists g. split; [by destruct g|]. right. split; [done|].
       split; [by destruct Hg|]. split; [done|]. destruct Hr as [Hr|Hr]; [left|by right]. rewrite (ga_orc _ _ _ _ Hg) in Hr.
       eexists _, _. split; [|exact Hr]. unfold sizeof_task_node, grow_bytes in *. lia. }
  intros _ Hb. pose proof (ga_heap _ _ _ _ Hg) as [Hbr _]. pose proof (ga_orc _ _ _ _ Hg) as Hor.
  rewrite (proj2 (Z.eqb_neq (brk w) NULL)) by (unfold NULL; lia).
  wpo. apply wp_or_of. eapply wp_vec_size; [apply (ga_nodes _ _ _ _ Hg)|]. rewrite (ga_len _ _ _ _ Hg). wpo. apply wp_or_of.
  eapply wp_store; [apply lookup_insert_eq|]. wpo. apply wp_or_of.
  apply wp_vec_create; [simpl; congruence|lia|unfold grow_bytes in HB; lia| |].
  - intros v k e Hv. wpo. apply wp_or_of. eapply wp_store; [simpl; apply lookup_insert_eq|]. wpo.
    destruct Hv as (u & -> & Hu). assert (vec_is (Some u) []) as Hv by (by exists u). unfold push_node. wpo.
    apply wp_or_of. eapply wp_deref; [simpl; apply (ga_obj _ _ _ _ Hg)|]. wpo.
    eapply wp_vec_push; [simpl; congruence|apply (ga_nodes _ _ _ _ Hg)|by rewrite (ga_len _ _ _ _ Hg)| |].
    + intros v' k' e' Hv'. wpo. simpl. wpo. split; [simpl; lia|]. exists (set_nodes g v'). split; [done|]. left. split; [done|]. exists (brk w).
      eapply (graph_at_push w _ G a g _ (TaskNode (Z.of_nat (length G)) f c 0 0 (Some u))); simpl; try done; [|lia].
      by rewrite !insert_insert_eq.
    + intros v' k' Hv' Hr. wpo. simpl. wpo_step. apply wp_or_of, wp_vec_destroy, wp_or_of.
      eapply wp_undo_node; [exact Hg|done|done|done| |done|simpl; lia|done|done]. simpl. by rewrite !insert_insert_eq.
  - intros k e Hr. wpo. apply wp_or_of. eapply wp_store; [simpl; apply lookup_insert_eq|]. wpo. simpl. do 2 wpo_step. apply wp_or_of.
    eapply wp_undo_node; [exact Hg|simpl; apply (ga_obj _ _ _ _ Hg)|by destruct g|apply (ga_nodes _ _ _ _ Hg)| |done|simpl; lia|done|done].
    simpl. by rewrite !insert_insert_eq.
Qed.

(** *** Adding an edge *)

Lemma wp_has_edge v xs t (Q : bool → gworld → Prop) w : vec_is v xs → ∀ n i, 0 ≤ i → (Z.to_nat i + n = length xs)%nat →
  Q (bool_decide (t ∈ drop (Z.to_nat i) xs)) w → wp (has_edge v t i n) Q w.
Proof.
  intros Hv. induction n as [|n IH]; intros i Hi Hn HQ; cbn [has_edge].
  { rewrite drop_ge in HQ by lia. by apply wp_ret. }
  destruct (lookup_lt_is_Some_2 xs (Z.to_nat i)) as [x Hx]; [lia|]. wp_step. eapply wp_vec_get_unchecked; [exact Hv|done|exact Hx|].
  rewrite (drop_S _ _ _ Hx) in HQ. destruct (Z.eqb_spec x t) as [->|Hne].
  { apply wp_ret. by rewrite bool_decide_true in HQ by (by left). }
  apply IH; [lia|lia|]. replace (Z.to_nat (i + 1)) with (S (Z.to_nat i)) by lia.
  erewrite bool_decide_ext; [exact HQ|]. rewrite elem_of_cons. naive_solver.
Qed.

Lemma fmap_of_nat_elem (v : nat) (l : list nat) : Z.of_nat v ∈ Z.of_nat <$> l ↔ v ∈ l.
Proof. rewrite list_elem_of_fmap. split; [|eauto]. by intros (x & ->%Nat2Z.inj & ?). Qed.

Definition edge_added (w : gworld) (G : graph) (a : list Z) (g : cobalt_taskgraph) (u v : nat) (r : Z) (w' : gworld) : Prop :=
  brk w' = brk w ∧
  if decide (u < length G ∧ v < length G)%nat then
    (r = 0 ∧ graph_at w' (add_edge G u v) a g) ∨
    (r = -1 ∧ graph_at w' G a g ∧ last_error w' = COBALT_ERROR_OUT_OF_MEMORY ∧ refusal)
  else r = -1 ∧ graph_at w' G a g ∧ last_error w' = COBALT_ERROR_INVALID_ARGUMENT.

(** Storing a node that stands for the same node of the graph. *)
Lemma graph_at_store w G a g i p l n :
  graph_at w G a g → a !! i = Some p → G !! i = Some l → node_is G i l n →
  graph_at (with_heap w (<[p := n]> (heap w))) G a g.
Proof.
  clear Hsane. intros Hg Hp Hl Hn. destruct (graph_node _ _ _ _ _ _ Hg Hl) as (p' & n0 & Hp' & _ & Hn0 & _). assert (p' = p) as -> by congruence.
  destruct Hg as [G1 G2 G3 G4 G5 G6 G7 G8 G9]. split; simpl; try done.
  - apply (heap_ok_dom w); [done|done|]. simpl. rewrite dom_insert. apply elem_of_dom_2 in Hn0. set_solver.
  - rewrite dom_insert_L, <- G8. apply elem_of_dom_2 in Hn0. set_solver.
  - intros j q l' Hq Hl'. destruct (decide (q = p)) as [->|Hne]; [|rewrite lookup_insert_ne by done; by apply G9].
    assert (j = i) as -> by (by eapply NoDup_lookup). assert (l' = l) as -> by congruence. exists n. by rewrite lookup_insert_eq.
Qed.

(** The new edge in the node [u] and in the count of the node [v]. *)
Lemma graph_at_add_edge w w' G a g u v pu pv l nu vec nv :
  graph_at w G a g → a !! u = Some pu → a !! v = Some pv → G !! u = Some l → v ∉ l →
  heap w !! pu = Some nu → vec_is vec (Z.of_nat <$> l ++ [v]) →
  <[pu := set_successors nu vec]> (heap w) !! pv = Some nv →
  w' = with_heap w (<[pv := set_static nv (wrap64 (static_in_degree nv + 1))]> (<[pu := set_successors nu vec]> (heap w))) →
  graph_at w' (add_edge G u v) a g.
Proof.
  intros Hg Hpu Hpv Hl Hv Hnu Hvec Hnv ->. pose proof (graph_size _ _ _ _ Hg) as Hsz. destruct Hg as [G1 G2 G3 G4 G5 G6 G7 G8 G9].
  assert (v < length G)%nat as Hvlt by (apply lookup_lt_Some in Hpv; lia).
  assert (add_edge G u v = <[u := l ++ [v]]> G) as HG by (unfold add_edge; by rewrite Hl, decide_False).
  assert (pu ∈ dom (heap w)) as Dpu by (by eapply elem_of_dom_2).
  assert (pv ∈ dom (heap w)) as Dpv by (rewrite G8; apply list_elem_of_lookup_2 in Hpv; set_solver).
  split; simpl; try done.
  - apply (heap_ok_dom w); [done|done|]. simpl. rewrite !dom_insert. set_solver.
  - by apply add_edge_ok.
  - rewrite HG. by rewrite length_insert.
  - rewrite !dom_insert_L, <- G8. set_solver.
  - intros i p l' Hp Hl'.
    assert (∃ n, <[pu := set_successors nu vec]> (heap w) !! p = Some n ∧ id n = Z.of_nat i ∧ fn n ≠ NULL ∧
      static_in_degree n = Z.of_nat (in_deg G i) ∧ vec_is (successors n) (Z.of_nat <$> l')) as (n & Hn & N1 & N2 & N3 & N4).
    { rewrite HG in Hl'. destruct (decide (i = u)) as [->|Hne].
      - rewrite list_lookup_insert_eq in Hl' by (by eapply lookup_lt_Some). injection Hl' as <-. assert (p = pu) as -> by congruence.
        destruct (G9 u pu l Hpu Hl) as (n & Hn & N1 & N2 & N3 & N4). assert (n = nu) as -> by congruence.
        exists (set_successors nu vec). by rewrite lookup_insert_eq.
      - rewrite list_lookup_insert_ne in Hl' by done. assert (p ≠ pu) as Hpp by (intros ->; apply Hne; by eapply NoDup_lookup).
        destruct (G9 i p l' Hp Hl') as (n & Hn & N1 & N2 & N3 & N4). exists n. by rewrite lookup_insert_ne. }
    pose proof (in_deg_le (add_edge G u v) i) as Hle. rewrite HG, length_insert, <- HG, (in_deg_add_edge G u v l) in Hle by done.
    unfold node_is. rewrite (in_deg_add_edge G u v l) by done. destruct (decide (i = v)) as [->|Hne].
    + assert (p = pv) as -> by congruence. rewrite lookup_insert_eq. eexists. split; [done|]. assert (n = nv) as -> by congruence.
      simpl. split_and!; try done. rewrite N3. unfold one in *. rewrite decide_True in * by done. rewrite wrap64_small by lia. lia.
    + assert (p ≠ pv) as Hpp by (intros ->; apply Hne; by eapply NoDup_lookup). rewrite lookup_insert_ne by done. exists n.
      split; [done|]. split_and!; try done. rewrite N3. unfold one. rewrite decide_False by done. lia.
Qed.

Lemma wp_add_edge w G a g u v :
  graph_at w G a g → compiled g = false → grow_bytes (length G) ≤ B → 0 ≤ u → 0 ≤ v →
  wp_or unchecked (cobalt_taskgraph_add_edge u v) (edge_added w G a g (Z.to_nat u) (Z.to_nat v)) w.
Proof.
  intros Hg Hc HB Hu0 Hv0. unfold cobalt_taskgraph_add_edge. wpo. rewrite (ga_obj _ _ _ _ Hg), Hc. wpo. apply wp_or_of.
  eapply wp_vec_size; [apply (ga_nodes _ _ _ _ Hg)|]. rewrite (ga_len _ _ _ _ Hg). unfold edge_added.
  destruct (decide _) as [[Hu Hv]|Hn].
  2: { destruct (Z.leb_spec (Z.of_nat (length G)) u), (Z.leb_spec (Z.of_nat (length G)) v); simpl; try lia; unfold invalid_argument; wpo; (split; [done|]); (split; [done|]); (split; [by apply graph_at_error|done]). }
  rewrite (proj2 (Z.leb_gt _ u)), (proj2 (Z.leb_gt _ v)) by lia. cbn [orb]. wpo.
  destruct (lookup_lt_is_Some_2 _ _ Hu) as [l Hl]. destruct (lookup_lt_is_Some_2 _ _ Hv) as [l' Hl'].
  destruct (graph_node _ _ _ _ _ _ Hg Hl) as (pu & nu & Hpu & Hpu0 & Hnu & U1 & U2 & U3 & U4).
  destruct (graph_node _ _ _ _ _ _ Hg Hl') as (pv & nv & Hpv & Hpv0 & Hnv & V).
  apply wp_or_of. eapply wp_vec_get_unchecked; [apply (ga_nodes _ _ _ _ Hg)|done|exact Hpu|]. wpo.
  apply wp_or_of. eapply wp_vec_get_unchecked; [apply (ga_nodes _ _ _ _ Hg)|done|exact Hpv|]. wpo.
  apply wp_or_of. eapply wp_load; [exact Hnu|]. wpo. apply wp_or_of. eapply wp_vec_size; [exact U4|]. wpo.
  apply wp_or_of. eapply wp_has_edge; [exact U4|done|rewrite Nat2Z.id; lia|]. rewrite drop_0.
  rewrite (bool_decide_ext _ (Z.to_nat v ∈ l)) by (rewrite <- fmap_of_nat_elem, Z2Nat.id by done; done).
  destruct (decide (Z.to_nat v ∈ l)) as [Hin|Hin].
  { rewrite bool_decide_true by done. wpo. split; [done|]. left. split; [done|]. unfold add_edge. by rewrite Hl, decide_True. }
  rewrite bool_decide_false by done. wpo.
  assert (length l ≤ length G)%nat as Hll.
  { destruct (ga_graph _ _ _ _ Hg) as [Hnd Hr]. rewrite Forall_lookup in Hnd, Hr. specialize (Hnd _ _ Hl). specialize (Hr _ _ Hl).
    etrans; [apply (submseteq_length _ (seq 0 (length G)))|by rewrite length_seq]. apply NoDup_submseteq; [done|]. intros x Hx. rewrite Forall_forall in Hr.
    apply elem_of_seq. specialize (Hr x Hx). simpl in Hr. lia. }
  eapply wp_vec_push; [apply (ga_orc _ _ _ _ Hg)|exact U4|rewrite length_fmap; unfold grow_bytes in *; lia| |].
  - intros vec k e Hvec. wpo. apply wp_or_of. eapply wp_store; [exact Hnu|]. simpl. wpo. apply wp_or_of.
    assert (∃ n, <[pu := set_successors nu vec]> (heap w) !! pv = Some n) as [n Hn].
    { destruct (decide (pv = pu)) as [->|]; [rewrite lookup_insert_eq; eauto|rewrite lookup_insert_ne by done; eauto]. }
    eapply wp_load; [exact Hn|]. wpo. apply wp_or_of. eapply wp_store; [exact Hn|]. wpo. split; [done|]. left. split; [done|].
    eapply (graph_at_add_edge (touch w k e)); [by apply graph_at_touch|exact Hpu|exact Hpv|exact Hl|done|exact Hnu| |exact Hn|done].
    rewrite fmap_app. simpl. by rewrite Z2Nat.id by done.
  - intros vec k Hvec Hr. wpo. apply wp_or_of. eapply wp_store; [exact Hnu|]. simpl. unfold out_of_memory. wpo. split; [done|]. right. split; [done|].
    split; [|done]. apply graph_at_error. eapply (graph_at_store (touch w k COBALT_ERROR_OUT_OF_MEMORY)); [by apply graph_at_touch|exact Hpu|exact Hl|]. by split_and!.
Qed.
End rep.
End TaskGraphRep.

Module TaskGraphCompile.
Import Vector TaskTopo TaskGraph TaskGraphRep.

(** ** The algorithm on graphs *)

Section kahn.
#[local] Open Scope nat_scope.
Variable G : graph.
Hypothesis HG : graph_ok G.

(** [q] is the queue, [h] nodes of it are taken out, [pr] says how many edges
    of each node have been crossed. *)
Record kinv (q : list nat) (h : nat) (pr : list nat) : Prop := {
  ki_len : length pr = length G;
  ki_nodup : NoDup q;
  ki_range : Forall (λ v, v < length G) q;
  ki_zero : ∀ v, v < length G → v ∈ q ↔ crossed G pr v = in_deg G v;
  ki_order : ∀ j v u, q !! j = Some v → edge G u v → u ∈ take j q;
  ki_seen : ∀ u k, pr !! u = Some k → 0 < k → u ∈ take h q;
  ki_head : h ≤ length q
}.

(** All edges of the nodes taken out are crossed, but for [except]. *)
Definition crossed_out (q : list nat) (h : nat) (pr : list nat) (except : nat → Prop) : Prop :=
  ∀ u l k, u ∈ take h q → ¬ except u → G !! u = Some l → pr !! u = Some k → k = length l.

Lemma pred_crossed q h pr x u :
  kinv q h pr → crossed G pr x = in_deg G x → edge G u x → u ∈ take h q.
Proof.
  intros Hk Hx (l & Hl & Hin). destruct (lookup_lt_is_Some_2 pr u) as [k Hu].
  { rewrite (ki_len _ _ _ Hk). by eapply lookup_lt_Some. }
  pose proof (crossed_all G x pr u l k Hx (ki_len _ _ _ Hk) Hl Hu Hin) as Ht. eapply (ki_seen _ _ _ Hk); [done|].
  destruct k; [by apply elem_of_nil in Ht|lia].
Qed.

Lemma kinv_cross q h pr u l k x :
  kinv q h pr → G !! u = Some l → pr !! u = Some k → l !! k = Some x → u ∈ take h q →
  x ∉ q ∧ x < length G ∧
  kinv (if decide (crossed G (<[u := S k]> pr) x = in_deg G x) then q ++ [x] else q) h (<[u := S k]> pr).
Proof.
  intros Hk Hl Hu Hx Hin. set (pr' := <[u := S k]> pr).
  pose proof (proj1 (Forall_lookup _ _) (go_nodup _ HG) _ _ Hl) as Hnd.
  assert (x < length G) as Hxr. { eapply (edge_range G u x HG). exists l. split; [done|]. by eapply list_elem_of_lookup_2. }
  assert (∀ v, crossed G pr' v = crossed G pr v + one (v = x)) as Hc by (intros v; by apply (crossed_step G v pr u l k x)).
  assert (x ∉ q) as Hxq.
  { rewrite (ki_zero _ _ _ Hk) by done. pose proof (crossed_le G x pr') as Hle. rewrite Hc in Hle. unfold one in Hle.
    rewrite decide_True in Hle by done. lia. }
  split; [done|]. split; [done|]. destruct Hk as [K1 K2 K3 K4 K5 K6 K7].
  assert (∀ v, v < length G → v ≠ x → v ∈ q ↔ crossed G pr' v = in_deg G v) as Hother.
  { intros v Hv Hne. rewrite K4, Hc by done. unfold one. rewrite decide_False by done. by rewrite Nat.add_0_r. }
  assert (∀ v j, pr' !! v = Some j → 0 < j → v ∈ take h q) as Hseen.
  { intros v j Hv Hj. destruct (decide (v = u)) as [->|Hne]; [done|]. unfold pr' in Hv. rewrite list_lookup_insert_ne in Hv by done. by eapply K6. }
  destruct (decide (crossed G pr' x = in_deg G x)) as [Hz|Hz].
  - assert (take h (q ++ [x]) = take h q) as Htk by (rewrite take_app_le; [done|lia]).
    split; [by unfold pr'; rewrite length_insert| | | | | |rewrite length_app; lia].
    + apply NoDup_app. split_and!; [done|set_solver|by apply NoDup_singleton].
    + apply Forall_app. split; [done|by constructor].
    + intros v Hv. destruct (decide (v = x)) as [->|Hne]; [set_solver|]. rewrite <- Hother by done. set_solver.
    + intros j v w Hj He. apply lookup_app_Some in Hj as [Hj|[Hge Hj]].
      * rewrite take_app_le by (apply lookup_lt_Some in Hj; lia). by eapply K5.
      * apply list_lookup_singleton_Some in Hj as [? <-]. assert (w ∈ take h q) as Hw.
        { destruct He as (lw & Hlw & Hxw). destruct (lookup_lt_is_Some_2 pr' w) as [kw Hkw].
          { unfold pr'. rewrite length_insert, K1. by eapply lookup_lt_Some. }
          pose proof (crossed_all G x pr' w lw kw Hz ltac:(by unfold pr'; rewrite length_insert) Hlw Hkw Hxw) as Ht.
          eapply Hseen; [done|]. destruct kw; [by apply elem_of_nil in Ht|lia]. }
        apply elem_of_take in Hw as (i & Hi & Hih). apply elem_of_take. exists i. split; [by apply lookup_app_l_Some|lia].
    + intros v j Hv Hj. rewrite Htk. by eapply Hseen.
  - split; try done; [by unfold pr'; rewrite length_insert|].
    intros v Hv. destruct (decide (v = x)) as [->|Hne]; [by split|by apply Hother].
Qed.

(** A queue that is used up holds all nodes exactly when there is no cycle. *)
Lemma kahn_acyclic q pr :
  kinv q (length q) pr → crossed_out q (length q) pr (λ _, False) →
  length q = length G ↔ acyclic G.
Proof.
  intros Hk Hout. pose proof Hk as [K1 K2 K3 K4 K5 K6 K7].
  assert (q ⊆+ seq 0 (length G)) as Hsub.
  { apply NoDup_submseteq; [done|]. intros v Hv. rewrite Forall_forall in K3. apply elem_of_seq. specialize (K3 v Hv). simpl in K3. lia. }
  split.
  - intros Hlen. apply (ordered_acyclic G q); [done|done| |done]. intros v Hv.
    apply submseteq_length_Permutation in Hsub; [|by rewrite length_seq, Hlen]. rewrite Hsub. apply elem_of_seq. lia.
  - intros Ha. assert (filter (λ v, v ∉ q) (seq 0 (length G)) = []) as Hnil.
    { apply (acyclic_no_closed G); [done|]. intros v [Hv Hin]%list_elem_of_filter. apply elem_of_seq in Hin. simpl in Hin.
      assert (crossed G pr v < in_deg G v) as Hlt.
      { pose proof (crossed_le G v pr). rewrite K4 in Hv by lia. lia. }
      destruct (crossed_lt G v pr K1 Hlt) as (u & l & k & Hl & Hu & Hvl & Hvk). exists u. split; [|by exists l].
      apply list_elem_of_filter. split; [|apply elem_of_seq; apply lookup_lt_Some in Hl; lia].
      intros Hq. apply Hvk. rewrite (Hout u l k); [by rewrite take_ge|by rewrite take_ge|by intros []|done|done]. }
    apply Nat.le_antisymm.
    + apply submseteq_length in Hsub. by rewrite length_seq in Hsub.
    + rewrite <- (length_seq (length G) 0) at 1. apply submseteq_length, NoDup_submseteq; [apply NoDup_seq|].
      intros v Hv. destruct (decide (v ∈ q)); [done|]. assert (v ∈ filter (λ v, v ∉ q) (seq 0 (length G))) as Hin by (by apply list_elem_of_filter).
      rewrite Hnil in Hin. by apply elem_of_nil in Hin.
Qed.
End kahn.

Lemma wp_for_fold {S A} (I : Z → A → S → Prop) (body : Z → A → M S A) : ∀ n i a w,
  I i a w → (∀ j a w, i ≤ j < i + Z.of_nat n → I j a w → wp (body j a) (I (j + 1)) w) →
  wp (for_fold i n body a) (I (i + Z.of_nat n)) w.
Proof.
  induction n as [|n IH]; intros i a w HI Hb; cbn [for_fold].
  { apply wp_ret. by rewrite Z.add_0_r. }
  apply wp_bind. eapply wp_mono; [apply Hb; [lia|exact HI]|]. intros a' w' HI'.
  replace (i + Z.of_nat (Datatypes.S n)) with (i + 1 + Z.of_nat n) by lia. apply IH; [done|]. intros j a'' w'' Hj. apply Hb. lia.
Qed.

Section compile.
Variable orc : nat → Z → bool.
Variable B : Z.
Hypothesis Hsane : sane orc.
Abbreviation graph_at := (graph_at orc B).
Abbreviation refusal := (refusal orc B).

Section sort.
Variables (w : gworld) (G : graph) (a : list Z) (g : cobalt_taskgraph).
Hypothesis Hg : graph_at w G a g.
Abbreviation num := (Z.of_nat (length G)).

(** The arrays hold what the algorithm on graphs computes. *)
Record krep (k : kahn) (q : list nat) (h : nat) (pr : list nat) : Prop := {
  kr_queue : queue k = Z.of_nat <$> q;
  kr_head : q_head k = Z.of_nat h;
  kr_visited : visited k = Z.of_nat h;
  kr_degrees : in_degree k = (λ v, Z.of_nat (in_deg G v - crossed G pr v)) <$> seq 0 (length G)
}.

Lemma wp_get_node (v : nat) l (Q : Z → gworld → Prop) :
  G !! v = Some l → (∀ p n, heap w !! p = Some n → node_is orc B G v l n → Q p w) → wp (vec_get (nodes g) (Z.of_nat v)) Q w.
Proof.
  intros Hl HQ. destruct (graph_node _ _ _ _ _ _ _ _ Hg Hl) as (p & n & Hp & _ & Hn & Hi).
  eapply wp_vec_get; [apply (ga_nodes _ _ _ _ _ _ Hg)|lia|by rewrite Nat2Z.id|]. eauto.
Qed.

Lemma enqueue_room q (v : nat) : NoDup q → Forall (λ v, v < length G)%nat q → v ∉ q → (v < length G)%nat → (length q < length G)%nat.
Proof.
  intros Hn Hr Hv Hlt. assert (v :: q ⊆+ seq 0 (length G)) as Hs.
  { apply NoDup_submseteq; [by constructor|]. intros x [->|Hx]%elem_of_cons; apply elem_of_seq; [lia|].
    rewrite Forall_forall in Hr. specialize (Hr x Hx). simpl in Hr. lia. }
  apply submseteq_length in Hs. rewrite length_seq in Hs. simpl in Hs. lia.
Qed.

Lemma wp_init :
  wp (for_fold 0 (length G) (init_node (nodes g) num) (Kahn [] [] 0 0)) (λ k w', w' = w ∧
    krep k (filter (λ v, in_deg G v = 0%nat) (seq 0 (length G))) 0 (replicate (length G) 0%nat)) w.
Proof.
  eapply wp_mono; [apply (wp_for_fold (λ i k w', w' = w ∧ k = Kahn ((λ v, Z.of_nat (in_deg G v)) <$> seq 0 (Z.to_nat i))
    (Z.of_nat <$> filter (λ v, in_deg G v = 0%nat) (seq 0 (Z.to_nat i))) 0 0)); [done|]|].
  - intros j k w' Hj [-> ->]. destruct (lookup_lt_is_Some_2 G (Z.to_nat j)) as [l Hl]; [lia|]. unfold init_node. wp_step.
    rewrite <- (Z2Nat.id j) at 1 by lia. eapply (wp_get_node _ _ _ Hl). intros p n Hn (_ & _ & Hs & _). wp_step. eapply wp_load; [exact Hn|].
    rewrite Hs. replace (Z.to_nat (j + 1)) with (S (Z.to_nat j)) by lia. rewrite seq_S, filter_app, !fmap_app. simpl.
    rewrite filter_cons, filter_nil. destruct (Z.eqb_spec (Z.of_nat (in_deg G (Z.to_nat j))) 0) as [Hz|Hz].
    + rewrite decide_True by lia. unfold enqueue. simpl.
      assert (length (filter (λ v, in_deg G v = 0%nat) (seq 0 (Z.to_nat j))) ≤ Z.to_nat j)%nat as Hle.
      { etrans; [apply length_filter|]. by rewrite length_seq. }
      rewrite length_fmap, (proj2 (Z.ltb_lt _ _)) by lia. apply wp_ret. simpl. by rewrite Z2Nat.id by lia.
    + rewrite decide_False by lia. apply wp_ret. simpl. by rewrite app_nil_r.
  - rewrite Z.add_0_l, Nat2Z.id. intros k w' [-> ->]. split; [done|]. split; simpl; [done..|].
    apply list_fmap_ext. intros i v _. by rewrite crossed_none, Nat.sub_0_r.
Qed.

Lemma kinv_init : kinv G (filter (λ v, in_deg G v = 0%nat) (seq 0 (length G))) 0 (replicate (length G) 0%nat).
Proof.
  split.
  - apply length_replicate.
  - apply NoDup_filter, NoDup_seq.
  - apply Forall_forall. intros v [_ Hv]%list_elem_of_filter. apply elem_of_seq in Hv. lia.
  - intros v Hv. rewrite crossed_none, list_elem_of_filter. rewrite elem_of_seq. lia.
  - intros j v u Hj (l & Hl & Hin). apply list_elem_of_lookup_2, list_elem_of_filter in Hj as [Hz _].
    pose proof (crossed_all G v (replicate (length G) 0%nat) u l 0) as H. exfalso. apply (not_elem_of_nil v).
    apply H; [by rewrite crossed_none|apply length_replicate|done| |done].
    apply lookup_replicate. split; [done|]. by eapply lookup_lt_Some.
  - intros u k Hu. apply lookup_replicate in Hu as [-> _]. lia.
  - lia.
Qed.

(** Crossing one edge. *)
Lemma wp_relax k q h pr u l s x n :
  krep k q h pr → kinv G q h pr → G !! u = Some l → pr !! u = Some s → l !! s = Some x → u ∈ take h q →
  node_is orc B G u l n →
  wp (relax num n (Z.of_nat s) k) (λ k' w', w' = w ∧ ∃ q', krep k' q' h (<[u := S s]> pr) ∧ kinv G q' h (<[u := S s]> pr) ∧ take h q' = take h q) w.
Proof.
  intros [R1 R2 R3 R4] Hk Hl Hu Hx Hin (_ & _ & _ & Hv). pose proof (ga_graph _ _ _ _ _ _ Hg) as HG.
  destruct (kinv_cross G HG q h pr u l s x Hk Hl Hu Hx Hin) as (Hxq & Hxr & Hk').
  assert (crossed G (<[u := S s]> pr) x = S (crossed G pr x)) as Hcx.
  { rewrite (crossed_step G x pr u l s x); [|done..|by eapply (proj1 (Forall_lookup _ _) (go_nodup _ HG))]. unfold one. rewrite decide_True by done. lia. }
  pose proof (crossed_le G x (<[u := S s]> pr)) as Hle. pose proof (in_deg_le G x) as Hdl. pose proof Hg as Hsz%graph_size.
  unfold relax. wp_step. eapply wp_vec_get; [exact Hv|lia|rewrite Nat2Z.id, list_lookup_fmap, Hx; done|]. rewrite Nat2Z.id.
  rewrite R4. rewrite list_lookup_fmap, lookup_seq_lt by lia. simpl.
  rewrite wrap64_small by lia.
  assert (<[x := Z.of_nat (in_deg G x - crossed G pr x) - 1]> ((λ v, Z.of_nat (in_deg G v - crossed G pr v)) <$> seq 0 (length G)) =
    (λ v, Z.of_nat (in_deg G v - crossed G (<[u := S s]> pr) v)) <$> seq 0 (length G)) as Hd.
  { apply list_eq. intros v. destruct (decide (v = x)) as [->|Hne].
    - rewrite list_lookup_insert_eq by (rewrite length_fmap, length_seq; lia). rewrite list_lookup_fmap, lookup_seq_lt by lia. simpl. f_equal. lia.
    - rewrite list_lookup_insert_ne by done. rewrite !list_lookup_fmap. destruct (seq 0 (length G) !! v) as [v'|] eqn:Ev; [|done].
      apply lookup_seq in Ev as [-> _]. simpl. do 3 f_equal. rewrite (crossed_step G v pr u l s x); [|done..|by eapply (proj1 (Forall_lookup _ _) (go_nodup _ HG))].
      unfold one. rewrite decide_False by done. lia. }
  rewrite Hd. destruct (decide (crossed G (<[u := S s]> pr) x = in_deg G x)) as [Hz|Hz].
  - rewrite (proj2 (Z.eqb_eq _ 0)) by lia. unfold enqueue. simpl. rewrite R1, length_fmap.
    pose proof (enqueue_room q x (ki_nodup _ _ _ _ Hk) (ki_range _ _ _ _ Hk) Hxq Hxr). rewrite (proj2 (Z.ltb_lt _ _)) by lia. apply wp_ret.
    split; [done|]. exists (q ++ [x]). split; [split; simpl; [by rewrite fmap_app|done|done|done]|]. split; [done|].
    apply take_app_le, (ki_head _ _ _ _ Hk).
  - rewrite (proj2 (Z.eqb_neq _ 0)) by lia. apply wp_ret. split; [done|]. exists q. by split.
Qed.

(** Visiting one node. *)
Lemma wp_visit k q h pr :
  krep k q h pr → kinv G q h pr → crossed_out G q h pr (λ _, False) → (h < length q)%nat →
  wp (visit_body (nodes g) num k) (λ r w', w' = w ∧ ∃ k' q' pr', r = inl k' ∧
    krep k' q' (S h) pr' ∧ kinv G q' (S h) pr' ∧ crossed_out G q' (S h) pr' (λ _, False)) w.
Proof.
  intros Hr Hk Hout Hh. pose proof Hr as [R1 R2 R3 R4]. unfold visit_body.
  rewrite R1, R2, length_fmap, (proj2 (Z.leb_gt _ _)), Nat2Z.id, list_lookup_fmap by lia.
  destruct (lookup_lt_is_Some_2 q h Hh) as [u Hu]. rewrite Hu. simpl.
  assert (u < length G)%nat as Hur by (by apply (proj1 (Forall_lookup _ _) (ki_range _ _ _ _ Hk) _ _ Hu)).
  destruct (lookup_lt_is_Some_2 G u Hur) as [l Hl]. wp_step. apply (wp_get_node _ _ _ Hl). intros p n Hn Hi. wp_step.
  eapply wp_load; [exact Hn|]. wp_step. eapply wp_vec_size; [apply Hi|]. rewrite length_fmap, Nat2Z.id. wp_step.
  assert (take (S h) q = take h q ++ [u]) as Htk by (by apply take_S_r).
  assert (u ∉ take h q) as Hun.
  { intros (j & Hj & ?)%elem_of_take. assert (j = h) by (eapply NoDup_lookup; [apply (ki_nodup _ _ _ _ Hk)|done..]). lia. }
  assert (kinv G q (S h) pr) as Hk'.
  { destruct Hk as [K1 K2 K3 K4 K5 K6 K7]. split; try done. intros v j Hv Hj. rewrite Htk. apply elem_of_app. left. by eapply K6. }
  destruct (lookup_lt_is_Some_2 pr u) as [s Hs]; [rewrite (ki_len _ _ _ _ Hk); lia|].
  assert (s = 0%nat) as -> by (destruct (decide (0 < s)%nat) as [Hpos|]; [by destruct Hun; eapply (ki_seen _ _ _ _ Hk)|lia]).
  eapply wp_mono; [apply (wp_for_fold (λ s k w', w' = w ∧ ∃ q' pr', krep k q' (S h) pr' ∧ kinv G q' (S h) pr' ∧
    take (S h) q' = take (S h) q ∧ pr' !! u = Some (Z.to_nat s) ∧ ∀ v, v ≠ u → pr' !! v = pr !! v))|].
  - split; [done|]. exists q, pr. split; [|by split_and!]. split; simpl; [done|lia|lia|done].
  - intros j k' w' Hj [-> (q' & pr' & C1 & C2 & C3 & C4 & C5)].
    destruct (lookup_lt_is_Some_2 l (Z.to_nat j)) as [x Hx]; [lia|].
    rewrite <- (Z2Nat.id j) at 1 by lia. eapply wp_mono; [eapply (wp_relax k' q' (S h) pr' u l (Z.to_nat j) x n); try done|].
    { rewrite C3, Htk. set_solver. }
    intros k'' w' [-> (q'' & D1 & D2 & D3)]. split; [done|]. exists q'', (<[u := S (Z.to_nat j)]> pr').
    split_and!; try done; [by rewrite D3| |].
    + rewrite list_lookup_insert_eq by (by eapply lookup_lt_Some). f_equal. lia.
    + intros v Hv. rewrite list_lookup_insert_ne by done. by apply C5.
  - rewrite Z.add_0_l, Nat2Z.id. intros k' w' [-> (q' & pr' & C1 & C2 & C3 & C4 & C5)]. apply wp_ret. split; [done|].
    exists k', q', pr'. split_and!; try done. intros v lv kv Hv _ Hlv Hkv. rewrite C3, Htk in Hv. destruct (decide (v = u)) as [->|Hne].
    + congruence.
    + rewrite C5 in Hkv by done. eapply Hout; [|by intros []|done..]. set_solver.
Qed.

Lemma wp_topological_sort :
  wp (topological_sort (nodes g) num) (λ k w', w' = w ∧ (visited k = num ↔ acyclic G)) w.
Proof.
  unfold topological_sort. wp_step. rewrite Nat2Z.id. eapply wp_mono; [apply wp_init|]. intros k w' [-> Hr].
  set (q0 := filter _ _) in Hr. set (pr0 := replicate _ _) in Hr.
  eapply (wp_loop_ghost (λ '(q, h, pr) k w', w' = w ∧ krep k q h pr ∧ kinv G q h pr ∧ crossed_out G q h pr (λ _, False))
    (λ '(q, h, pr), length G - h)%nat _ _ _ (q0, 0%nat, pr0)).
  - split; [done|]. split; [done|]. split; [apply kinv_init|]. intros u l j Hu. by apply elem_of_nil in Hu.
  - simpl. lia.
  - intros [[q h] pr] k' w' (-> & Hr' & Hk & Hout). destruct (decide (h < length q)%nat) as [Hlt|Hge].
    + eapply wp_mono; [by eapply wp_visit|]. intros r w' [-> (k'' & q' & pr' & -> & D1 & D2 & D3)]. exists (q', S h, pr').
      split; [done|]. assert (length q' ≤ length G)%nat; [|pose proof (ki_head _ _ _ _ D2); lia].
      etrans; [apply (submseteq_length _ (seq 0 (length G)))|by rewrite length_seq]. apply NoDup_submseteq; [apply D2|].
      intros x Hx. apply elem_of_seq. pose proof (proj1 (Forall_forall _ _) (ki_range _ _ _ _ D2) x Hx). simpl in *. lia.
    + unfold visit_body. pose proof Hr' as [R1 R2 R3 R4]. rewrite R1, R2, length_fmap, (proj2 (Z.leb_le _ _)) by lia. apply wp_ret.
      split; [done|]. rewrite R3. assert (h = length q) as -> by (pose proof (ki_head _ _ _ _ Hk); lia).
      rewrite <- (kahn_acyclic G (ga_graph _ _ _ _ _ _ Hg) q pr Hk Hout). lia.
Qed.
End sort.

(** *** Caching the roots *)

Lemma wp_or_for_fold {S A} F (I : Z → A → S → Prop) (body : Z → A → M S A) : ∀ n i a w,
  I i a w → (∀ j a w, i ≤ j < i + Z.of_nat n → I j a w → wp_or F (body j a) (I (j + 1)) w) →
  wp_or F (for_fold i n body a) (I (i + Z.of_nat n)) w.
Proof.
  induction n as [|n IH]; intros i a w HI Hb; cbn [for_fold].
  { apply wp_or_ret. by rewrite Z.add_0_r. }
  apply wp_or_bind. eapply wp_or_mono; [apply Hb; [lia|exact HI]|]. intros a' w' HI'.
  replace (i + Z.of_nat (Datatypes.S n)) with (i + 1 + Z.of_nat n) by lia. apply IH; [done|]. intros j a'' w'' Hj. apply Hb. lia.
Qed.

(** Only the vector of roots differs. *)
Definition with_root_vec (g g' : cobalt_taskgraph) : Prop := g' = set_roots g (root_nodes g').

Definition roots_below (G : graph) (i : nat) : list nat := filter (λ v, in_deg G v = 0%nat) (seq 0 i).
Definition roots (G : graph) : list nat := roots_below G (length G).

(** The roots among the first [i] nodes are in the vector, unless a request
    was refused. *)
Definition rooted (G : graph) (a : list Z) (g : cobalt_taskgraph) (i : Z) (w : gworld) : Prop :=
  ∃ g', with_root_vec g g' ∧ graph_at w G a g' ∧
    ((root_nodes g' = None ∧ refusal) ∨
     ∃ xs, vec_is orc B (root_nodes g') xs ∧ (length xs ≤ Z.to_nat i)%nat ∧
       (refusal ∨ xs = Z.of_nat <$> roots_below G (Z.to_nat i))).

Lemma with_root_vec_trans g1 g2 g3 : with_root_vec g1 g2 → with_root_vec g2 g3 → with_root_vec g1 g3.
Proof. unfold with_root_vec. intros -> ->. done. Qed.

Lemma wp_push_no_vector x (Q : Z * option cobalt_vector → gworld → Prop) w :
  Q (-1, None) (touch w (allocs w) COBALT_ERROR_INVALID_ARGUMENT) → wp (on_vec None (cobalt_vector_push x)) Q w.
Proof. done. Qed.

Lemma wp_push_root G a g i w :
  rooted G a g (Z.of_nat i) w → (i < length G)%nat → in_deg G i = 0%nat → grow_bytes (length G) ≤ B →
  wp_or (unchecked orc B) (push_root (Z.of_nat i)) (λ _, rooted G a g (Z.of_nat i + 1)) w.
Proof.
  intros (g' & Hg' & Hg & Hv) Hi Hz HB. unfold push_root. wpo. apply wp_or_of. eapply wp_deref; [apply (ga_obj _ _ _ _ _ _ Hg)|]. wpo.
  rewrite Nat2Z.id in Hv. assert (Z.to_nat (Z.of_nat i + 1) = S i) as Ei by lia.
  assert (∀ v k e, (v = None ∧ refusal ∨ ∃ xs, vec_is orc B v xs ∧ (length xs ≤ S i)%nat ∧ (refusal ∨ xs = Z.of_nat <$> roots_below G (S i))) →
    rooted G a g (Z.of_nat i + 1) (with_obj (touch w k e) (Some (set_roots g' v)))) as Hdone.
  { intros v k e Hv'. exists (set_roots g' v). split; [by apply (with_root_vec_trans g g')|]. rewrite Ei.
    split; [eapply graph_at_obj; [by apply graph_at_touch|done]|done]. }
  destruct Hv as [[Hv Hr]|(xs & Hv & Hl & Hxs)].
  - rewrite Hv. apply wp_or_of, wp_push_no_vector. wp_steps. apply Hdone. by left.
  - eapply wp_vec_push; [done|apply (ga_orc _ _ _ _ _ _ Hg)|exact Hv|unfold grow_bytes in *; lia| |].
    + intros v' k e Hv'. wpo. apply Hdone. right. exists (xs ++ [Z.of_nat i]). split; [done|]. rewrite length_app. simpl. split; [lia|].
      destruct Hxs as [Hx| ->]; [by left|right]. unfold roots_below. rewrite seq_S, filter_app, fmap_app. simpl. by rewrite filter_cons, filter_nil, decide_True.
    + intros v' k Hv' Hr. wpo. apply Hdone. right. exists xs. split; [done|]. split; [lia|by left].
Qed.

Lemma wp_cache_roots G a g w :
  rooted G a g 0 w → grow_bytes (length G) ≤ B →
  wp_or (unchecked orc B) (for_each (Z.of_nat (length G)) cache_root) (λ _, rooted G a g (Z.of_nat (length G))) w.
Proof.
  intros Hr HB. unfold for_each. rewrite Nat2Z.id. eapply wp_or_mono; [apply (wp_or_for_fold _ (λ i _, rooted G a g i)); [exact Hr|]|by intros []].
  intros j [] w' Hj Hr'. pose proof Hr' as (g' & Hg' & Hg & Hv). unfold cache_root. wpo. apply wp_or_of.
  eapply wp_deref; [apply (ga_obj _ _ _ _ _ _ Hg)|]. wpo. destruct (lookup_lt_is_Some_2 G (Z.to_nat j)) as [l Hl]; [lia|].
  apply wp_or_of. rewrite <- (Z2Nat.id j) at 1 by lia. eapply wp_get_node; [exact Hg|exact Hl|]. intros p n Hn (_ & _ & Hs & _). wpo.
  apply wp_or_of. eapply wp_load; [exact Hn|]. rewrite Hs. destruct (Z.eqb_spec (Z.of_nat (in_deg G (Z.to_nat j))) 0) as [Hz|Hz].
  - rewrite <- (Z2Nat.id j) in Hr' |- * by lia. apply wp_push_root; [done|lia|lia|done].
  - wpo. exists g'. split; [done|]. split; [done|]. destruct Hv as [Hv|(xs & Hv & Hl' & Hxs)]; [by left|right]. exists xs. split; [done|].
    split; [lia|]. destruct Hxs as [Hx| ->]; [by left|right]. replace (Z.to_nat (j + 1)) with (S (Z.to_nat j)) by lia. unfold roots_below.
    rewrite seq_S, filter_app, fmap_app. simpl. rewrite filter_cons, filter_nil, decide_False by lia. by rewrite app_nil_r.
Qed.

(** ** The whole function *)

(** 0 with the roots cached when there is no cycle, and -1 with no change when
    there is one or a request was refused. *)
Definition compiled_to (G : graph) (a : list Z) (g : cobalt_taskgraph) (r : Z) (w' : gworld) : Prop :=
  ∃ g', graph_at w' G a g' ∧
    ((r = 0 ∧ acyclic G ∧ compiled g' = true ∧ (refusal ∨ vec_is orc B (root_nodes g') (Z.of_nat <$> roots G))) ∨
     (r = -1 ∧ g' = g ∧ ((¬ acyclic G ∧ last_error w' = COBALT_ERROR_INVALID_ARGUMENT) ∨
                         (refusal ∧ last_error w' = COBALT_ERROR_OUT_OF_MEMORY)))).

Lemma wp_compile w G a g :
  graph_at w G a g → compiled g = false → vec_is orc B (root_nodes g) [] → grow_bytes (length G) ≤ B →
  wp_or (unchecked orc B) cobalt_taskgraph_compile (compiled_to G a g) w.
Proof.
  intros Hg Hc Hrs HB. unfold cobalt_taskgraph_compile. wpo. rewrite (ga_obj _ _ _ _ _ _ Hg), Hc. wpo. apply wp_or_of.
  eapply wp_vec_size; [apply (ga_nodes _ _ _ _ _ _ Hg)|]. rewrite (ga_len _ _ _ _ _ _ Hg).
  destruct (Z.eqb_spec (Z.of_nat (length G)) 0) as [Hz|Hz].
  { wpo. exists (set_compiled g). split; [by eapply graph_at_obj|]. left. assert (G = []) as -> by (by destruct G).
    split; [done|]. split; [|split; [done|by right]]. apply (ordered_acyclic [] []); [apply (ga_graph _ _ _ _ _ _ Hg)|by constructor|simpl; lia|done]. }
  assert (∀ k n, n ≤ B → oracle w k n = false → refusal) as Href.
  { intros k n Hn. rewrite (ga_orc _ _ _ _ _ _ Hg). by exists k, n. }
  assert (wrap64 (Z.of_nat (length G) * sizeof_ptr) = Z.of_nat (length G) * sizeof_ptr) as ->.
  { pose proof (vec_is_bytes _ _ _ _ (ga_nodes _ _ _ _ _ _ Hg)) as Hb. rewrite (ga_len _ _ _ _ _ _ Hg) in Hb. apply wrap64_small. unfold sizeof_ptr. lia. }
  wpo. apply wp_or_of, wp_request; intros Ha1; wpo; apply wp_or_of, wp_request; intros Ha2; cbn [andb negb].
  2,3,4: unfold out_of_memory; wpo; exists g; (split; [by destruct Hg|]); right; split_and!; try done; right; (split; [|done]);
    first [eapply Href; [|exact Ha1]; unfold grow_bytes, sizeof_ptr in *; lia | eapply Href; [|exact Ha2]; unfold grow_bytes, sizeof_ptr in *; lia].
  set (w1 := with_request (with_request w)). assert (graph_at w1 G a g) as Hg1 by (by destruct Hg).
  wpo. apply wp_or_of. eapply wp_mono; [by eapply wp_topological_sort|]. intros k w2 [-> Hvis].
  destruct (Z.eqb_spec (visited k) (Z.of_nat (length G))) as [Hv|Hv].
  2: { cbn [negb]. unfold invalid_argument. wpo. exists g. split; [by apply graph_at_error|]. right. split_and!; try done. left.
       split; [|done]. by rewrite <- Hvis. }
  wpo. apply wp_or_of, wp_vec_destroy. wpo. apply wp_or_of.
  assert (∀ v k e, (v = None ∧ refusal ∨ vec_is orc B v []) →
    wp_or (unchecked orc B) (set_obj (Some (set_roots g v)) ;;; for_each (Z.of_nat (length G)) cache_root ;;;
      g0 <- deref ;; set_obj (Some (set_compiled g0)) ;;; mret 0) (compiled_to G a g) (touch w1 k e)) as Hrest.
  { intros v j e Hv'. wpo. eapply wp_or_mono; [apply (wp_cache_roots G a g); [|done]|].
    - exists (set_roots g v). split; [done|]. split; [eapply graph_at_obj; [by apply graph_at_touch|done]|].
      destruct Hv' as [?|Hv']; [by left|right]. exists []. split; [done|]. split; [simpl; lia|by right].
    - intros [] w3 (g' & Hg' & Hg3 & Hroots). rewrite Nat2Z.id in Hroots. wpo. apply wp_or_of. eapply wp_deref; [apply (ga_obj _ _ _ _ _ _ Hg3)|]. wpo.
      exists (set_compiled g'). split; [by eapply graph_at_obj|]. left. split; [done|]. split; [by apply Hvis|]. split; [done|].
      destruct Hroots as [[_ Hr]|(xs & Hxs & _ & [Hr| ->])]; [by left..|by right]. }
  apply (wp_vec_create orc B); [apply (ga_orc _ _ _ _ _ _ Hg)|lia|unfold grow_bytes in HB; lia| |].
  - intros v j e Hv'. apply Hrest. by right.
  - intros j e Hr. apply Hrest. by left.
Qed.
End compile.
End TaskGraphCompile.
