(* ===== verification/TaskRun.v ===== *)
(** * Running a task graph on a pool of threads

    [taskgraph_node_worker], [cobalt_taskgraph_run] and
    [cobalt_taskgraph_run_and_wait] of src/src/module/taskgraph.c as threads
    whose steps interleave.  A thread is a stack of calls.  A step touches a
    counter that threads share once; the vectors are not changed while the
    graph runs.  The pool is the environment: it takes a submitted task or
    refuses it, and starts each task it took once, at any time. *)
From S2P Require Import Prelude World Vector TaskGraph.

Module TaskRun.
Import Vector TaskGraph.

(** Calls in progress: a worker of the node [p] that has not called the task,
    is inside the task, or is at its [i]-th successor; the loop over the roots;
    the wait for the group. *)
Inductive frame : Set :=
  | Start (p : Z)
  | Running (p : Z)
  | Succ (p succ_count i : Z)
  | Roots (num_roots i : Z)
  | Wait.

(** The task of a node, by its number. *)
Inductive event : Set := Begin (id : Z) | End (id : Z).

#[export] Instance event_eq_dec : EqDecision event.
Proof. solve_decision. Defined.

(** What a step leaves: the frames in place of the one that made it, the tasks
    given to the pool, the events. *)
Record effect := Effect { calls : list frame; submitted : list Z; events : list event }.

(** [if (cobalt_threadpool_submit(...) != 0) taskgraph_node_worker(node)]:
    [accepted] is the answer of the pool. *)
Definition submit (accepted : bool) (node : Z) (rest : frame) : effect :=
  if accepted then Effect [rest] [node] [] else Effect [Start node; rest] [] [].

(** [cobalt_waitgroup_done] *)
Definition waitgroup_done : M gworld unit :=
  g <- deref ;;
  match wg g with
  | None => mret tt
  | Some c => set_obj (Some (set_wg g (Some (if 0 <? c then c - 1 else c))))
  end.

(** [None] when the thread is blocked. *)
Definition worker_step (accepted : bool) (fr : frame) : M gworld (option effect) :=
  match fr with
  | Start p => n <- load p ;; mret (Some (Effect [Running p] [] [Begin (id n)]))
  | Running p =>
      n <- load p ;;
      succ_count <- vec_size (successors n) ;;
      mret (Some (Effect [Succ p succ_count 0] [] [End (id n)]))
  | Succ p succ_count i =>
      if i <? succ_count then
        n <- load p ;;
        succ_id <- vec_get (successors n) i ;;
        g <- deref ;;
        succ_node <- vec_get (nodes g) succ_id ;;
        m <- load succ_node ;;
        store succ_node (set_remaining m (wrap64 (remaining_in_degree m - 1))) ;;;
        mret (Some (if remaining_in_degree m =? 1 then submit accepted succ_node (Succ p succ_count (i + 1))
                    else Effect [Succ p succ_count (i + 1)] [] []))
      else
        g <- deref ;;
        (match wg g with Some _ => waitgroup_done | None => mret tt end) ;;;
        mret (Some (Effect [] [] []))
  | Roots num_roots i =>
      if i <? num_roots then
        g <- deref ;;
        root_id <- vec_get (root_nodes g) i ;;
        node <- vec_get (nodes g) root_id ;;
        mret (Some (submit accepted node (Roots num_roots (i + 1))))
      else mret (Some (Effect [] [] []))
  | Wait =>
      g <- deref ;;
      mret (match wg g with Some c => if 0 <? c then None else Some (Effect [] [] []) | None => Some (Effect [] [] []) end)
  end.

Record config := Config {
  memory : gworld;
  pending : list Z;
  threads : list (list frame);
  log : list event
}.

Inductive step (c : config) : config → Prop :=
  | step_thread t fr rest accepted e w' :
      threads c !! t = Some (fr :: rest) →
      worker_step accepted fr (memory c) = Ret (Some e) w' →
      step c (Config w' (pending c ++ submitted e) (<[t := calls e ++ rest]> (threads c)) (log c ++ events e))
  | step_pick pre p post :
      pending c = pre ++ p :: post →
      step c (Config (memory c) (pre ++ post) (threads c ++ [[Start p]]) (log c)).

(** [cobalt_taskgraph_run], and [cobalt_taskgraph_run_and_wait] when [wait] is
    set: the value returned at once, or the threads from there on. *)
Definition cobalt_taskgraph_run (wait : bool) (pool : Z) : M gworld (Z + list (list frame)) :=
  r <- run_setup pool ;;
  mret (match r with
        | inl v => inl v
        | inr num_roots => inr [Roots num_roots 0 :: (if wait then [Wait] else [])]
        end).

Definition cobalt_taskgraph_run_and_wait := cobalt_taskgraph_run true.
End TaskRun.
