(* ===== verification/TaskRunInv.v ===== *)
(** * The execution of a task graph: invariant

    A stage per node says how far it is; the frames of the threads and the
    tasks in the pool are the nodes between the first and the last stage
    (src/src/module/taskgraph.c). *)
From S2P Require Import Prelude World Vector TaskTopo TaskGraph TaskGraphCompile TaskRun.

Module TaskRunInv.
Import Vector TaskTopo TaskGraph TaskGraphRep TaskGraphCompile TaskRun.

Inductive stage : Set := Waiting | Queued | Begun | Active (k : nat) | Finished.

#[export] Instance stage_eq_dec : EqDecision stage.
Proof. solve_decision. Defined.

(** The edges of a node that have been crossed. *)
Definition crossings (l : list nat) (s : stage) : nat :=
  match s with Active k => k | Finished => length l | _ => 0 end.

(** The steps a node still takes, those of its submission included. *)
Definition weight (l : list nat) (s : stage) : nat :=
  match s with
  | Waiting => length l + 6
  | Queued => length l + 4
  | Begun => length l + 3
  | Active k => length l - k + 1
  | Finished => 0
  end.

Definition tok (p : Z) (s : stage) : list (Z * stage) :=
  match s with Waiting | Finished => [] | _ => [(p, s)] end.

Definition frame_tok (fr : frame) : list (Z * stage) :=
  match fr with
  | Start p => [(p, Queued)]
  | Running p => [(p, Begun)]
  | Succ p _ i => [(p, Active (Z.to_nat i))]
  | Roots _ _ | Wait => []
  end.

Definition tokens (P : list Z) (F : list frame) : list (Z * stage) :=
  ((λ p, (p, Queued)) <$> P) ++ concat (frame_tok <$> F).

Definition is_loop (fr : frame) : Prop := match fr with Roots _ _ => True | _ => False end.
Definition is_call (fr : frame) : Prop := match fr with Roots _ _ | Wait => True | _ => False end.
#[export] Instance is_loop_dec fr : Decision (is_loop fr).
Proof. destruct fr; simpl; apply _. Defined.
#[export] Instance is_call_dec fr : Decision (is_call fr).
Proof. destruct fr; simpl; apply _. Defined.

Lemma tok_no_call fr x : frame_tok fr = [x] → ¬ is_call fr ∧ ¬ is_loop fr.
Proof. by destruct fr; simpl; [split; intros []..| |]. Qed.

(** ** Lists of lists *)

Lemma concat_insert {A} (ls : list (list A)) i x : ls !! i = Some x →
  ∃ R, concat ls ≡ₚ x ++ R ∧ ∀ y, concat (<[i := y]> ls) ≡ₚ y ++ R.
Proof.
  intros Hx. exists (concat (take i ls) ++ concat (drop (S i) ls)).
  assert (∀ y, concat (<[i := y]> ls) ≡ₚ y ++ concat (take i ls) ++ concat (drop (S i) ls)) as H; [|split; [|done]].
  - intros y. rewrite insert_take_drop by (by eapply lookup_lt_Some). rewrite concat_app. simpl.
    rewrite !app_assoc. f_equiv. apply Permutation_app_comm.
  - rewrite <- (list_insert_id ls i x) at 1 by done. apply H.
Qed.

Definition finished (st : list stage) : nat := length (filter (λ s, s = Finished) st).

Lemma finished_insert st v s s' : st !! v = Some s →
  (finished (<[v := s']> st) + one (s = Finished) = finished st + one (s' = Finished))%nat.
Proof.
  intros Hs. unfold finished. rewrite <- (list_insert_id st v s) at 2 by done. rewrite !insert_take_drop by (by eapply lookup_lt_Some).
  rewrite !filter_app, !length_app, !filter_cons. unfold one. repeat case_decide; simpl; lia.
Qed.
Section stages.
Variables (G : graph) (a : list Z).

Definition active (st : list stage) : list (Z * stage) := concat (zip_with tok a st).
Definition progress (st : list stage) : list nat := zip_with crossings G st.
Definition work (st : list stage) : nat := sum_list (zip_with weight G st).

Lemma active_insert st v p s : a !! v = Some p → st !! v = Some s →
  ∃ R, active st ≡ₚ tok p s ++ R ∧ ∀ s', active (<[v := s']> st) ≡ₚ tok p s' ++ R.
Proof.
  intros Hp Hs. destruct (concat_insert (zip_with tok a st) v (tok p s)) as (R & H1 & H2).
  { by rewrite lookup_zip_with, Hp, Hs. }
  exists R. split; [done|]. intros s'. unfold active. rewrite <- (list_insert_id a v p) by done.
  pose proof (insert_zip_with tok a st v p s') as E. rewrite <- E. apply H2.
Qed.

Lemma active_elem st p s : (p, s) ∈ active st → ∃ v, a !! v = Some p ∧ st !! v = Some s.
Proof.
  intros (x & Hin & Hx)%list_elem_of_In%in_concat. apply list_elem_of_In in Hin, Hx.
  apply elem_of_lookup_zip_with in Hin as (v & p' & s' & -> & Hp & Hs). exists v.
  destruct s'; simpl in Hx; try (by apply elem_of_nil in Hx); apply list_elem_of_singleton in Hx as [= -> ->]; done.
Qed.

Lemma progress_insert st v l s : G !! v = Some l → progress (<[v := s]> st) = <[v := crossings l s]> (progress st).
Proof.
  intros Hl. unfold progress. rewrite <- (list_insert_id G v l) at 1 by done. symmetry.
  pose proof (insert_zip_with crossings G st v l s) as E. by rewrite E.
Qed.

Lemma progress_same st v l s s' :
  G !! v = Some l → st !! v = Some s → crossings l s' = crossings l s → progress (<[v := s']> st) = progress st.
Proof.
  intros Hl Hs He. rewrite (progress_insert st v l s' Hl), He. apply list_insert_id. unfold progress. by rewrite lookup_zip_with, Hl, Hs.
Qed.

Lemma work_insert st v l s s' : G !! v = Some l → st !! v = Some s → (work (<[v := s']> st) + weight l s = work st + weight l s')%nat.
Proof.
  intros Hl Hs. unfold work. pose proof (insert_zip_with weight G st v l s') as E.
  rewrite (list_insert_id G v l Hl) in E. rewrite <- E. apply sum_list_insert. by rewrite lookup_zip_with, Hl, Hs.
Qed.

End stages.

Section inv.
Variable orc : nat → Z → bool.
Variable B : Z.
Variables (G : graph) (a : list Z) (g : cobalt_taskgraph).
Hypothesis Hroots : vec_is orc B (root_nodes g) (Z.of_nat <$> roots G).
Abbreviation num_roots := (length (roots G)).

Definition has_begun (s : stage) : Prop := match s with Begun | Active _ | Finished => True | _ => False end.
Definition has_ended (s : stage) : Prop := match s with Active _ | Finished => True | _ => False end.

(** A task begins after the tasks before it have ended. *)
Definition ordered (lg : list event) : Prop := ∀ pre post u v,
  lg = pre ++ Begin (Z.of_nat v) :: post → edge G u v → End (Z.of_nat u) ∈ pre.

Definition frame_ok (fr : frame) : Prop :=
  match fr with
  | Succ p c j => ∃ v l, a !! v = Some p ∧ G !! v = Some l ∧ c = Z.of_nat (length l) ∧ 0 ≤ j ≤ c
  | _ => True
  end.

(** The loop over the roots is at the root [i], or over. *)
Definition loop_at (F : list frame) (i : nat) : Prop :=
  (filter is_loop F ≡ₚ [Roots (Z.of_nat num_roots) (Z.of_nat i)] ∧ (i ≤ num_roots)%nat) ∨
  (filter is_loop F = [] ∧ i = num_roots).

(** The log says what the stages say. *)
Record logged (lg : list event) (st : list stage) : Prop := {
  lg_begun : ∀ v s, st !! v = Some s → Begin (Z.of_nat v) ∈ lg ↔ has_begun s;
  lg_ended : ∀ v s, st !! v = Some s → End (Z.of_nat v) ∈ lg ↔ has_ended s;
  lg_once : NoDup lg;
  lg_order : ordered lg
}.

Record inv (w : gworld) (P : list Z) (F : list frame) (lg : list event) (st : list stage) (i : nat) : Prop := {
  iv_graph : graph_at orc B w G a (set_wg g (Some (Z.of_nat (length G - finished st))));
  iv_len : length st = length G;
  iv_rem : ∀ v p n, a !! v = Some p → heap w !! p = Some n →
    remaining_in_degree n = Z.of_nat (in_deg G v - crossed G (progress G st) v);
  iv_tokens : tokens P F ≡ₚ active a st;
  iv_frames : Forall frame_ok F;
  iv_waiting : ∀ v s, st !! v = Some s →
    s = Waiting ↔ (crossed G (progress G st) v < in_deg G v)%nat ∨ v ∈ drop i (roots G);
  iv_loop : loop_at F i;
  iv_log : logged lg st
}.

(** The steps left. *)
Definition steps_left (P : list Z) (F : list frame) (st : list stage) (i : nat) : nat :=
  work G st + length P + (num_roots - i) + length (filter is_call F).

Lemma tokens_frame P fr F : tokens P (fr :: F) ≡ₚ frame_tok fr ++ tokens P F.
Proof. unfold tokens. csimpl. rewrite !app_assoc. f_equiv. apply Permutation_app_comm. Qed.

Lemma tokens_submit P p F : tokens (P ++ [p]) F ≡ₚ (p, Queued) :: tokens P F.
Proof. unfold tokens. rewrite fmap_app. simpl. rewrite <- app_assoc. simpl. by rewrite Permutation_middle. Qed.

Lemma tokens_perm P P' F F' : P ≡ₚ P' → F ≡ₚ F' → tokens P F ≡ₚ tokens P' F'.
Proof.
  intros HP HF. unfold tokens. rewrite HP. f_equiv. induction HF; csimpl; [done|by f_equiv| |by etrans].
  rewrite !app_assoc. f_equiv. apply Permutation_app_comm.
Qed.

Lemma inv_perm w P P' F F' lg st i : P ≡ₚ P' → F ≡ₚ F' → inv w P F lg st i → inv w P' F' lg st i.
Proof.
  intros HP HF [I1 I2 I3 I4 I5 I6 I7 I8]. split; try done.
  - by rewrite <- (tokens_perm P P' F F').
  - by rewrite <- HF.
  - destruct I7 as [[I7 ?]|[I7 ?]]; [left|right]; (split; [|done]).
    + rewrite <- I7. symmetry. by f_equiv.
    + apply Permutation_nil_r. rewrite <- I7. by f_equiv.
Qed.

(** The pool starts a task. *)
Lemma inv_pick w P p F lg st i : inv w (p :: P) F lg st i → inv w P (Start p :: F) lg st i.
Proof.
  intros [I1 I2 I3 I4 I5 I6 I7 I8]. split; try done; [|by constructor].
  rewrite <- I4, tokens_frame. done.
Qed.

(** The node of a frame. *)
Lemma frame_node w P fr F lg st i p s :
  inv w P (fr :: F) lg st i → frame_tok fr = [(p, s)] →
  ∃ v l, a !! v = Some p ∧ G !! v = Some l ∧ st !! v = Some s.
Proof.
  intros Hi Hf. assert ((p, s) ∈ active a st) as Hin.
  { rewrite <- (iv_tokens _ _ _ _ _ _ Hi), tokens_frame, Hf. set_solver. }
  apply active_elem in Hin as (v & Hp & Hs). destruct (lookup_lt_is_Some_2 G v) as [l Hl].
  { apply lookup_lt_Some in Hs. by rewrite <- (iv_len _ _ _ _ _ _ Hi). }
  eauto.
Qed.

(** Everything before a task that is not waiting has ended. *)
Lemma preds_ended w P F lg st i v s u :
  inv w P F lg st i → st !! v = Some s → s ≠ Waiting → edge G u v → End (Z.of_nat u) ∈ lg.
Proof.
  intros Hi Hs Hw He. pose proof He as (l & Hl & Hv).
  destruct (lookup_lt_is_Some_2 st u) as [su Hsu]. { rewrite (iv_len _ _ _ _ _ _ Hi). by eapply lookup_lt_Some. }
  apply (lg_ended _ _ (iv_log _ _ _ _ _ _ Hi) u su Hsu).
  assert (crossed G (progress G st) v = in_deg G v) as Hc.
  { pose proof (crossed_le G v (progress G st)). rewrite (iv_waiting _ _ _ _ _ _ Hi v s Hs) in Hw.
    destruct (decide (crossed G (progress G st) v < in_deg G v)%nat); [naive_solver|lia]. }
  pose proof (crossed_all G v (progress G st) u l (crossings l su) Hc) as H.
  assert (v ∈ take (crossings l su) l) as Ht.
  { apply H; [|done| |done]; unfold progress; [rewrite length_zip_with, (iv_len _ _ _ _ _ _ Hi); lia|by rewrite lookup_zip_with, Hl, Hsu]. }
  destruct su; simpl in *; try done; by apply elem_of_nil in Ht.
Qed.

(** *** The log *)

Lemma stage_at (st : list stage) v s s' v' x : st !! v = Some s → <[v := s']> st !! v' = Some x →
  (v' = v ∧ x = s') ∨ (v' ≠ v ∧ st !! v' = Some x).
Proof.
  intros Hs Hx. destruct (decide (v' = v)) as [->|Hne]; [left|right].
  - rewrite list_lookup_insert_eq in Hx by (by eapply lookup_lt_Some). by simplify_eq.
  - by rewrite list_lookup_insert_ne in Hx.
Qed.

Lemma logged_same lg st v s s' :
  logged lg st → st !! v = Some s → (has_begun s' ↔ has_begun s) → (has_ended s' ↔ has_ended s) →
  logged lg (<[v := s']> st).
Proof.
  intros [L1 L2 L3 L4] Hs Hb He. split; try done; intros v' x Hx; destruct (stage_at _ _ _ _ _ _ Hs Hx) as [[-> ->]|[Hne Hx']]; try by eauto.
  - rewrite Hb. by apply L1.
  - rewrite He. by apply L2.
Qed.

Lemma ordered_snoc lg e :
  ordered lg → (∀ u v, e = Begin (Z.of_nat v) → edge G u v → End (Z.of_nat u) ∈ lg) → ordered (lg ++ [e]).
Proof.
  intros Ho He pre post u v Heq Hedge. destruct post as [|x post] using rev_ind.
  - apply app_inj_tail in Heq as [-> ->]. by eapply He.
  - clear IHpost. rewrite app_comm_cons, app_assoc in Heq. apply app_inj_tail in Heq as [-> _]. by eapply Ho.
Qed.

(** One more event of the node [v], which goes on to the stage [s']. *)
Lemma logged_event lg st v s s' e :
  logged lg st → st !! v = Some s → e ∉ lg → ordered (lg ++ [e]) →
  (∀ v', e = Begin (Z.of_nat v') ↔ v' = v ∧ ¬ has_begun s ∧ has_begun s') → (has_begun s → has_begun s') →
  (∀ v', e = End (Z.of_nat v') ↔ v' = v ∧ ¬ has_ended s ∧ has_ended s') → (has_ended s → has_ended s') →
  logged (lg ++ [e]) (<[v := s']> st).
Proof.
  intros [L1 L2 L3 L4] Hs Hn Ho Eb Hb Ee He. split; [| |apply NoDup_app; split_and!; [done|set_solver|by apply NoDup_singleton]|done];
    intros v' x Hx; rewrite elem_of_app, list_elem_of_singleton; destruct (stage_at _ _ _ _ _ _ Hs Hx) as [[-> ->]|[Hv Hx']].
  - rewrite (L1 v s Hs). rewrite (eq_comm (Begin _)), Eb. destruct s, s'; simpl in *; naive_solver.
  - rewrite (L1 _ _ Hx'). rewrite (eq_comm (Begin _)), Eb. naive_solver.
  - rewrite (L2 v s Hs). rewrite (eq_comm (End _)), Ee. destruct s, s'; simpl in *; naive_solver.
  - rewrite (L2 _ _ Hx'). rewrite (eq_comm (End _)), Ee. naive_solver.
Qed.

Lemma logged_begin lg st v :
  logged lg st → st !! v = Some Queued → (∀ u, edge G u v → End (Z.of_nat u) ∈ lg) →
  logged (lg ++ [Begin (Z.of_nat v)]) (<[v := Begun]> st).
Proof.
  intros Hlg Hs Hpre. eapply logged_event; [done|done| | | |done| |done].
  - rewrite (lg_begun _ _ Hlg v _ Hs). by intros [].
  - apply ordered_snoc; [apply Hlg|]. intros u v' [= <-%Nat2Z.inj]. apply Hpre.
  - intros v'. simpl. split; [intros [= ->%Nat2Z.inj]; naive_solver|by intros [-> _]].
  - intros v'. simpl. naive_solver.
Qed.

Lemma logged_end lg st v :
  logged lg st → st !! v = Some Begun → logged (lg ++ [End (Z.of_nat v)]) (<[v := Active 0]> st).
Proof.
  intros Hlg Hs. eapply logged_event; [done|done| | | |done| |done].
  - rewrite (lg_ended _ _ Hlg v _ Hs). by intros [].
  - apply ordered_snoc; [apply Hlg|done].
  - intros v'. simpl. naive_solver.
  - intros v'. simpl. split; [intros [= ->%Nat2Z.inj]; naive_solver|by intros [-> _]].
Qed.

(** *** Steps that cross no edge *)

(** A node goes from one stage in the middle to another. *)
Lemma inv_stage_move w P F lg lg' st i fr fr' v p l s s' :
  inv w P (fr :: F) lg st i → a !! v = Some p → G !! v = Some l → st !! v = Some s →
  frame_tok fr = [(p, s)] → frame_tok fr' = [(p, s')] → tok p s = [(p, s)] → tok p s' = [(p, s')] →
  crossings l s' = crossings l s → frame_ok fr' → logged lg' (<[v := s']> st) →
  inv w P (fr' :: F) lg' (<[v := s']> st) i.
Proof.
  intros [I1 I2 I3 I4 I5 I6 I7 I8] Hp Hl Hs Hf Hf' Ht Ht' Hc Hok Hlg.
  assert (s ≠ Waiting ∧ s' ≠ Waiting ∧ s ≠ Finished ∧ s' ≠ Finished) as (N1 & N2 & N3 & N4) by (split_and!; intros ->; done).
  pose proof (progress_same G st v l s s' Hl Hs Hc) as Hpr.
  assert (finished (<[v := s']> st) = finished st) as Hfin.
  { pose proof (finished_insert st v s s' Hs) as H. unfold one in H. rewrite !decide_False in H by done. lia. }
  split; [by rewrite Hfin|by rewrite length_insert|by rewrite Hpr| | | | |done].
  - destruct (active_insert a st v p s Hp Hs) as (R & H1 & H2). rewrite tokens_frame in I4 |- *. rewrite (H2 s'), Hf', Ht'. f_equiv.
    apply (Permutation_app_inv_l [(p, s)]). rewrite <- Ht at 2. rewrite <- H1, <- I4. by rewrite Hf.
  - apply Forall_cons in I5 as [_ I5]. by constructor.
  - intros v' x Hx. rewrite Hpr. destruct (stage_at _ _ _ _ _ _ Hs Hx) as [[-> ->]|[_ Hx']]; [|by apply I6].
    rewrite <- (I6 v s Hs). naive_solver.
  - unfold loop_at in *. rewrite filter_cons in I7 |- *.
    rewrite decide_False in I7 by (by eapply tok_no_call). by rewrite decide_False by (by eapply tok_no_call).
Qed.

Lemma work_less st v l s s' : G !! v = Some l → st !! v = Some s → (weight l s' < weight l s)%nat → (work G (<[v := s']> st) < work G st)%nat.
Proof. intros Hl Hs Hw. pose proof (work_insert G st v l s s' Hl Hs). lia. Qed.

Lemma call_frame_tok fr F p s : frame_tok fr = [(p, s)] → filter is_call (fr :: F) = filter is_call F.
Proof. intros H. rewrite filter_cons. by rewrite decide_False by (by eapply tok_no_call). Qed.

(** What a step must leave. *)
Definition stepped (P : list Z) (F : list frame) (fr : frame) (lg : list event) (st : list stage) (i : nat)
    (r : option effect) (w' : gworld) : Prop :=
  match r with
  | None => fr = Wait ∧ (finished st < length G)%nat
  | Some e => ∃ st' i', inv w' (P ++ submitted e) (calls e ++ F) (lg ++ events e) st' i' ∧
      (steps_left (P ++ submitted e) (calls e ++ F) st' i' < steps_left P (fr :: F) st i)%nat
  end.

Lemma wp_step_start w P p F lg st i acc :
  inv w P (Start p :: F) lg st i → wp (worker_step acc (Start p)) (stepped P F (Start p) lg st i) w.
Proof.
  intros Hi. destruct (frame_node _ _ _ _ _ _ _ p Queued Hi eq_refl) as (v & l & Hp & Hl & Hs).
  destruct (ga_node _ _ _ _ _ _ (iv_graph _ _ _ _ _ _ Hi) v p l Hp Hl) as (n & Hn & Hid & _).
  unfold worker_step. wp_step. eapply wp_load; [exact Hn|]. rewrite Hid.
  apply wp_ret. exists (<[v := Begun]> st), i. simpl. rewrite app_nil_r. split.
  - eapply inv_stage_move; [exact Hi|done..|]. apply logged_begin; [apply (iv_log _ _ _ _ _ _ Hi)|done|].
    intros u He. by eapply preds_ended.
  - unfold steps_left. rewrite (call_frame_tok (Start p) F p Queued), (call_frame_tok (Running p) F p Begun) by done. pose proof (work_less st v l Queued Begun Hl Hs ltac:(simpl; lia)). lia.
Qed.

Lemma wp_step_running w P p F lg st i acc :
  inv w P (Running p :: F) lg st i → wp (worker_step acc (Running p)) (stepped P F (Running p) lg st i) w.
Proof.
  intros Hi. destruct (frame_node _ _ _ _ _ _ _ p Begun Hi eq_refl) as (v & l & Hp & Hl & Hs).
  pose proof (iv_graph _ _ _ _ _ _ Hi) as Hg.
  destruct (ga_node _ _ _ _ _ _ Hg v p l Hp Hl) as (n & Hn & Hid & _ & _ & Hv).
  unfold worker_step. wp_step. eapply wp_load; [exact Hn|]. wp_step. eapply wp_vec_size; [exact Hv|]. rewrite length_fmap, Hid.
  apply wp_ret. exists (<[v := Active 0]> st), i. simpl. rewrite app_nil_r. split.
  - eapply inv_stage_move; [exact Hi|done..| |].
    + exists v, l. split_and!; [done..|lia|lia].
    + apply logged_end; [apply (iv_log _ _ _ _ _ _ Hi)|done].
  - unfold steps_left. rewrite (call_frame_tok (Running p) F p Begun), (call_frame_tok (Succ p _ 0) F p (Active 0)) by done.
    pose proof (work_less st v l Begun (Active 0) Hl Hs ltac:(simpl; lia)). lia.
Qed.

(** *** Crossing an edge *)

(** The node of a frame at a successor. *)
Lemma succ_node w P p c j F lg st i :
  inv w P (Succ p c j :: F) lg st i →
  ∃ v l, a !! v = Some p ∧ G !! v = Some l ∧ st !! v = Some (Active (Z.to_nat j)) ∧ c = Z.of_nat (length l) ∧ 0 ≤ j ≤ c.
Proof.
  intros Hi. destruct (frame_node _ _ _ _ _ _ _ p _ Hi eq_refl) as (v & l & Hp & Hl & Hs). exists v, l.
  pose proof (iv_frames _ _ _ _ _ _ Hi) as Hf. apply Forall_cons in Hf as [(v' & l' & Hp' & Hl' & Hc & Hj) _].
  pose proof (ga_nodup _ _ _ _ _ _ (iv_graph _ _ _ _ _ _ Hi)) as Hnd. assert (v' = v) as -> by (by eapply (NoDup_lookup a)).
  assert (l' = l) as -> by congruence. done.
Qed.

Lemma loop_at_skip fr F i : ¬ is_loop fr → loop_at (fr :: F) i ↔ loop_at F i.
Proof. intros H. unfold loop_at. by rewrite filter_cons, decide_False. Qed.

Lemma root_in_deg v i : v ∈ drop i (roots G) → in_deg G v = 0%nat.
Proof.
  intros Hv. assert (v ∈ roots G) as Hr.
  { rewrite <- (take_drop i (roots G)). apply elem_of_app. by right. }
  by apply list_elem_of_filter in Hr as [? _].
Qed.

(** What crossing the edge from [v] to [x] does to the stages: [x] is queued
    when it was the last edge into it. *)
Section cross.
Variables (w : gworld) (P : list Z) (p c j : Z) (F : list frame) (lg : list event) (st : list stage) (i : nat).
Variables (v x : nat) (l lx : list nat) (px : Z) (m : cobalt_task_node).
Hypothesis Hi : inv w P (Succ p c j :: F) lg st i.
Hypothesis Hp : a !! v = Some p.
Hypothesis Hl : G !! v = Some l.
Hypothesis Hs : st !! v = Some (Active (Z.to_nat j)).
Hypothesis Hc : c = Z.of_nat (length l).
Hypothesis Hj : 0 ≤ j.
Hypothesis Hx : l !! Z.to_nat j = Some x.
Hypothesis Hpx : a !! x = Some px.
Hypothesis Hlx : G !! x = Some lx.
Hypothesis Hm : heap w !! px = Some m.

Abbreviation st1 := (<[v := Active (S (Z.to_nat j))]> st).
Abbreviation w1 := (with_heap w (<[px := set_remaining m (wrap64 (remaining_in_degree m - 1))]> (heap w))).

Lemma cross_count y : crossed G (progress G st1) y = (crossed G (progress G st) y + one (y = x))%nat.
Proof.
  rewrite (progress_insert G st v l) by done. simpl. apply (crossed_step G y (progress G st) v l); [done| |done|].
  - unfold progress. by rewrite lookup_zip_with, Hl, Hs.
  - by apply (proj1 (Forall_lookup _ _) (go_nodup _ (ga_graph _ _ _ _ _ _ (iv_graph _ _ _ _ _ _ Hi))) _ _ Hl).
Qed.

Lemma cross_room : (crossed G (progress G st) x < in_deg G x)%nat.
Proof. pose proof (crossed_le G x (progress G st1)) as H. rewrite cross_count in H. unfold one in H. rewrite decide_True in H by done. lia. Qed.

Lemma cross_waiting : st !! x = Some Waiting.
Proof.
  destruct (lookup_lt_is_Some_2 st x) as [sx Hsx]. { rewrite (iv_len _ _ _ _ _ _ Hi). by eapply lookup_lt_Some. }
  rewrite Hsx. f_equal. apply (iv_waiting _ _ _ _ _ _ Hi x sx Hsx). left. apply cross_room.
Qed.

Lemma cross_ne : x ≠ v.
Proof. intros E. pose proof cross_waiting as H. rewrite E in H. congruence. Qed.

Lemma cross_rem : remaining_in_degree m = Z.of_nat (in_deg G x - crossed G (progress G st) x).
Proof. by eapply (iv_rem _ _ _ _ _ _ Hi). Qed.

(** [st'] is [st1] but perhaps for the stage of [x]. *)
Lemma inv_cross st' P' F' :
  (st' = st1 ∧ remaining_in_degree m ≠ 1 ∨ st' = <[x := Queued]> st1 ∧ remaining_in_degree m = 1) →
  tokens P' F' ≡ₚ active a st' → Forall frame_ok F' → loop_at F' i → inv w1 P' F' lg st' i.
Proof.
  intros Hst Htok Hfr Hloop. pose proof Hi as [I1 I2 I3 I4 I5 I6 I7 I8]. pose proof cross_room as Hroom. pose proof cross_rem as Hrem.
  pose proof cross_waiting as Hw. pose proof cross_ne as Hne.
  assert (st1 !! x = Some Waiting) as Hw1 by (by rewrite list_lookup_insert_ne).
  assert (progress G st' = progress G st1) as Hpr.
  { destruct Hst as [[-> _]|[-> _]]; [done|]. by eapply (progress_same G st1 x lx Waiting). }
  assert (finished st' = finished st) as Hfin.
  { pose proof (finished_insert st v _ (Active (S (Z.to_nat j))) Hs) as H1. pose proof (finished_insert st1 x _ Queued Hw1) as H2.
    unfold one in H1, H2. rewrite !decide_False in H1 by done. rewrite !decide_False in H2 by done. destruct Hst as [[-> _]|[-> _]]; lia. }
  split; try done.
  - rewrite Hfin. eapply graph_at_store; [exact I1|exact Hpx|exact Hlx|].
    destruct (ga_node _ _ _ _ _ _ I1 x px lx Hpx Hlx) as (m' & Hm' & Hn). assert (m' = m) as -> by congruence. exact Hn.
  - destruct Hst as [[-> _]|[-> _]]; by rewrite !length_insert.
  - intros y q n Hq. simpl. rewrite Hpr, cross_count. destruct (decide (y = x)) as [->|Hyx].
    + assert (q = px) as -> by congruence. rewrite lookup_insert_eq. intros [= <-]. simpl. rewrite Hrem.
      pose proof (in_deg_le G x) as Hd. pose proof (graph_size _ _ _ _ _ _ I1) as Hsz. rewrite wrap64_small by lia.
      unfold one. rewrite decide_True by done. lia.
    + assert (q ≠ px) as Hqx. { intros ->. apply Hyx. by eapply (NoDup_lookup a); [apply (ga_nodup _ _ _ _ _ _ I1)|..]. }
      rewrite lookup_insert_ne by done. intros Hn. rewrite (I3 y q n Hq Hn). unfold one. rewrite decide_False by done. f_equal. lia.
  - intros y s Hy. rewrite Hpr, cross_count. destruct (decide (y = x)) as [->|Hyx].
    + unfold one. rewrite decide_True by done. assert (x ∉ drop i (roots G)) as Hnr by (intros H%root_in_deg; lia).
      destruct Hst as [[-> Hr]|[-> Hr]].
      * rewrite Hw1 in Hy. injection Hy as <-. split; [|done]. intros _. left. lia.
      * rewrite list_lookup_insert_eq in Hy by (by eapply lookup_lt_Some). injection Hy as <-. split; [done|]. intros [?|?]; [lia|done].
    + assert (st1 !! y = Some s) as Hy1. { destruct Hst as [[-> _]|[-> _]]; [done|by rewrite list_lookup_insert_ne in Hy]. }
      unfold one. rewrite (decide_False (P := y = x)), Nat.add_0_r by done. destruct (stage_at _ _ _ _ _ _ Hs Hy1) as [[-> ->]|[_ Hy2]]; [|by apply I6].
      rewrite <- (I6 v _ Hs). done.
  - assert (logged lg st1) as Hlg by (eapply logged_same; [exact I8|exact Hs|done|done]).
    destruct Hst as [[-> _]|[-> _]]; [done|]. eapply logged_same; [exact Hlg|exact Hw1|done|done].
Qed.
End cross.

Lemma wp_step_cross w P p c j F lg st i acc :
  inv w P (Succ p c j :: F) lg st i → j < c → wp (worker_step acc (Succ p c j)) (stepped P F (Succ p c j) lg st i) w.
Proof.
  intros Hi Hlt. destruct (succ_node _ _ _ _ _ _ _ _ _ Hi) as (v & l & Hp & Hl & Hs & Hc & Hj).
  pose proof (iv_graph _ _ _ _ _ _ Hi) as Hg. destruct (lookup_lt_is_Some_2 l (Z.to_nat j)) as [x Hx]; [lia|].
  assert (x < length G)%nat as Hxr.
  { eapply (edge_range G v x (ga_graph _ _ _ _ _ _ Hg)). exists l. split; [done|]. by eapply list_elem_of_lookup_2. }
  destruct (lookup_lt_is_Some_2 G x Hxr) as [lx Hlx].
  destruct (ga_node _ _ _ _ _ _ Hg v p l Hp Hl) as (n & Hn & _ & _ & _ & Hv).
  destruct (graph_node _ _ _ _ _ _ _ _ Hg Hlx) as (px & m & Hpx & _ & Hm & _).
  unfold worker_step. rewrite (proj2 (Z.ltb_lt j c) Hlt). wp_step. eapply wp_load; [exact Hn|]. wp_step.
  eapply wp_vec_get; [exact Hv|lia|rewrite list_lookup_fmap, Hx; done|]. wp_step. eapply wp_deref; [apply (ga_obj _ _ _ _ _ _ Hg)|]. wp_step.
  eapply wp_vec_get; [apply (ga_nodes _ _ _ _ _ _ Hg)|lia|rewrite Nat2Z.id; exact Hpx|]. wp_step. eapply wp_load; [exact Hm|]. wp_step.
  eapply wp_store; [exact Hm|]. apply wp_ret.
  assert (st !! x = Some Waiting) as Hw by (by eapply (cross_waiting w P p c j F lg st i v x l lx)).
  assert (x ≠ v) as Hne by (by eapply (cross_ne w P p c j F lg st i v x l lx)).
  set (st1 := <[v := Active (S (Z.to_nat j))]> st).
  assert (st1 !! x = Some Waiting) as Hw1 by (unfold st1; by rewrite list_lookup_insert_ne).
  destruct (active_insert a st v p _ Hp Hs) as (R & H1 & H2). specialize (H2 (Active (S (Z.to_nat j)))). fold st1 in H2. simpl in H1, H2.
  assert (tokens P F ≡ₚ R) as HR.
  { apply (Permutation_cons_inv (a := (p, Active (Z.to_nat j)))). rewrite <- H1, <- (iv_tokens _ _ _ _ _ _ Hi). by rewrite tokens_frame. }
  pose proof (work_less st v l _ (Active (S (Z.to_nat j))) Hl Hs ltac:(simpl; lia)) as Hwk. fold st1 in Hwk.
  pose proof (iv_frames _ _ _ _ _ _ Hi) as Hfr. apply Forall_cons in Hfr as [_ Hfr].
  pose proof (iv_loop _ _ _ _ _ _ Hi) as Hloop. rewrite loop_at_skip in Hloop by (by intros []).
  assert (frame_ok (Succ p c (j + 1))) as Hok by (exists v, l; split_and!; [done..|lia|lia]).
  assert (∀ P' F' st', tokens P' F' ≡ₚ active a st' → Forall frame_ok F' → loop_at F' i →
    (st' = st1 ∧ remaining_in_degree m ≠ 1 ∨ st' = <[x := Queued]> st1 ∧ remaining_in_degree m = 1) →
    inv (with_heap w (<[px := set_remaining m (wrap64 (remaining_in_degree m - 1))]> (heap w))) P' F' lg st' i) as Hinv.
  { intros P' F' st' T1 T2 T3 T4. by eapply (inv_cross w P p c j F lg st i v x l lx px m). }
  assert (tokens P (Succ p c (j + 1) :: F) ≡ₚ active a st1) as Htok1.
  { rewrite tokens_frame, HR, H2. simpl. by replace (Z.to_nat (j + 1)) with (S (Z.to_nat j)) by lia. }
  destruct (Z.eqb_spec (remaining_in_degree m) 1) as [Hr|Hr]; cbn [calls submitted events].
  - destruct (active_insert a st1 x px Waiting Hpx Hw1) as (R2 & H3 & H4). specialize (H4 Queued). simpl in H3, H4.
    pose proof (work_less st1 x lx Waiting Queued Hlx Hw1 ltac:(simpl; lia)) as Hwk2.
    pose proof (work_insert G st1 x lx Waiting Queued Hlx Hw1) as Hwk3. simpl in Hwk3.
    exists (<[x := Queued]> st1), i. destruct acc; cbn [submit calls submitted events]; rewrite ?app_nil_r; cbn [app].
    + split.
      * apply Hinv; [|by constructor|by rewrite loop_at_skip by (by intros [])|by right]. rewrite tokens_submit, Htok1, H4. by rewrite H3.
      * unfold steps_left. simpl. rewrite length_app, !filter_cons. simpl. lia.
    + split.
      * apply Hinv; [|by repeat constructor|by rewrite !loop_at_skip by (by intros [])|by right].
        simpl. rewrite tokens_frame. cbn [frame_tok app]. rewrite Htok1, H4. by rewrite H3.
      * unfold steps_left. simpl. rewrite !filter_cons. simpl. lia.
  - exists st1, i. cbn [calls submitted events app]. rewrite !app_nil_r. split.
    + apply Hinv; [done|by constructor|by rewrite loop_at_skip by (by intros [])|by left].
    + unfold steps_left. rewrite !filter_cons. simpl. lia.
Qed.

(** *** The end of a worker, the loop over the roots, the wait *)

Lemma finished_le st : (finished st ≤ length st)%nat.
Proof. apply length_filter. Qed.

Lemma wp_step_done w P p c j F lg st i acc :
  inv w P (Succ p c j :: F) lg st i → c ≤ j → wp (worker_step acc (Succ p c j)) (stepped P F (Succ p c j) lg st i) w.
Proof.
  intros Hi Hge. destruct (succ_node _ _ _ _ _ _ _ _ _ Hi) as (v & l & Hp & Hl & Hs & Hc & Hj).
  pose proof Hi as [I1 I2 I3 I4 I5 I6 I7 I8]. set (st' := <[v := Finished]> st).
  assert (finished st' = S (finished st)) as Hfin.
  { pose proof (finished_insert st v _ Finished Hs) as H. unfold one in H. rewrite decide_False in H by done. rewrite decide_True in H by done. unfold st'. lia. }
  assert (S (finished st) ≤ length G)%nat as Hle.
  { rewrite <- Hfin. unfold st'. rewrite <- I2, <- (length_insert st v Finished). apply finished_le. }
  assert (progress G st' = progress G st) as Hpr by (eapply progress_same; [exact Hl|exact Hs|simpl; lia]).
  unfold worker_step. rewrite (proj2 (Z.ltb_ge j c) Hge). wp_step. eapply wp_deref; [apply (ga_obj _ _ _ _ _ _ I1)|]. cbn [wg set_wg].
  wp_step. unfold waitgroup_done. wp_step. eapply wp_deref; [apply (ga_obj _ _ _ _ _ _ I1)|]. cbn [wg set_wg]. wp_steps.
  exists st', i. simpl. rewrite !app_nil_r. split.
  - split; [|by unfold st'; rewrite length_insert|by rewrite Hpr| |by apply Forall_cons in I5 as [_ ?]| |by rewrite loop_at_skip in I7 by (by intros [])|by eapply logged_same].
    + rewrite (proj2 (Z.ltb_lt 0 _)) by lia. rewrite Hfin. replace (Z.of_nat (length G - finished st) - 1) with (Z.of_nat (length G - S (finished st))) by lia.
      by eapply graph_at_obj.
    + destruct (active_insert a st v p _ Hp Hs) as (R & H1 & H2). unfold st'. rewrite (H2 Finished). simpl in *.
      apply (Permutation_cons_inv (a := (p, Active (Z.to_nat j)))). rewrite <- H1, <- I4. by rewrite tokens_frame.
    + intros y s Hy. rewrite Hpr. destruct (stage_at _ _ _ _ _ _ Hs Hy) as [[-> ->]|[_ Hy']]; [|by apply I6]. by rewrite <- (I6 v _ Hs).
  - unfold steps_left. rewrite !filter_cons. simpl. pose proof (work_less st v l _ Finished Hl Hs ltac:(simpl; lia)) as Hw. fold st' in Hw. lia.
Qed.

Lemma loop_at_frame nr k F i : loop_at (Roots nr k :: F) i →
  nr = Z.of_nat num_roots ∧ k = Z.of_nat i ∧ (i ≤ num_roots)%nat ∧ filter is_loop F = [].
Proof.
  unfold loop_at. rewrite filter_cons, decide_True by done. intros [[H Hle]|[H _]]; [|done].
  apply Permutation_singleton_r in H. by simplify_eq.
Qed.

Lemma roots_NoDup : NoDup (roots G).
Proof. apply NoDup_filter, NoDup_seq. Qed.

Lemma wp_step_root w P nr k F lg st i acc :
  inv w P (Roots nr k :: F) lg st i → k < nr → wp (worker_step acc (Roots nr k)) (stepped P F (Roots nr k) lg st i) w.
Proof.
  intros Hi Hlt. pose proof Hi as [I1 I2 I3 I4 I5 I6 I7 I8]. destruct (loop_at_frame _ _ _ _ I7) as (-> & -> & Hle & Hnl).
  destruct (lookup_lt_is_Some_2 (roots G) i) as [v Hv]; [lia|].
  assert (drop i (roots G) = v :: drop (S i) (roots G)) as Hdrop by (by apply drop_S).
  assert (v ∈ drop i (roots G)) as Hvd by (rewrite Hdrop; by left). pose proof (root_in_deg _ _ Hvd) as Hz.
  assert (v < length G)%nat as Hvr.
  { apply list_elem_of_lookup_2, list_elem_of_filter in Hv as [_ Hv]. apply elem_of_seq in Hv. lia. }
  destruct (lookup_lt_is_Some_2 G v Hvr) as [l Hl]. destruct (graph_node _ _ _ _ _ _ _ _ I1 Hl) as (p & n & Hp & _ & Hn & _).
  destruct (lookup_lt_is_Some_2 st v) as [s Hs]; [lia|].
  assert (s = Waiting) as -> by (apply (I6 v s Hs); by right).
  unfold worker_step. rewrite (proj2 (Z.ltb_lt _ _) Hlt). wp_step. eapply wp_deref; [apply (ga_obj _ _ _ _ _ _ I1)|]. wp_step.
  eapply wp_vec_get; [exact Hroots|lia|rewrite Nat2Z.id, list_lookup_fmap, Hv; done|]. wp_step.
  eapply wp_vec_get; [apply (ga_nodes _ _ _ _ _ _ I1)|lia|rewrite Nat2Z.id; exact Hp|]. apply wp_ret.
  set (st' := <[v := Queued]> st). destruct (active_insert a st v p _ Hp Hs) as (R & H1 & H2). specialize (H2 Queued). fold st' in H2. simpl in H1, H2.
  assert (progress G st' = progress G st) as Hpr by (by eapply progress_same).
  assert (finished st' = finished st) as Hfin.
  { pose proof (finished_insert st v _ Queued Hs) as H. unfold one in H. rewrite !decide_False in H by done. unfold st'. lia. }
  pose proof (work_insert G st v l _ Queued Hl Hs) as Hwk. fold st' in Hwk. simpl in Hwk.
  replace (Z.of_nat i + 1) with (Z.of_nat (S i)) by lia.
  assert (∀ P' F', tokens P' F' ≡ₚ (p, Queued) :: tokens P F → Forall frame_ok F' →
    filter is_loop F' = [Roots (Z.of_nat num_roots) (Z.of_nat (S i))] → inv w P' F' lg st' (S i)) as Hinv.
  { intros P' F' T1 T2 T3. split; try done; [by rewrite Hfin|by unfold st'; rewrite length_insert|by rewrite Hpr| | | |by eapply logged_same].
    - rewrite T1, H2. f_equiv. rewrite <- H1, <- I4, tokens_frame. done.
    - intros y s Hy. rewrite Hpr. destruct (stage_at _ _ _ _ _ _ Hs Hy) as [[-> ->]|[Hne Hy']].
      + split; [done|]. intros [H|H]; [lia|]. pose proof roots_NoDup as Hnd. rewrite <- (take_drop i (roots G)), Hdrop in Hnd.
        apply NoDup_app in Hnd as (_ & _ & Hnd). by apply NoDup_cons in Hnd as [? _].
      + rewrite (I6 y s Hy'), Hdrop. rewrite elem_of_cons. naive_solver.
    - left. split; [by rewrite T3|lia]. }
  apply Forall_cons in I5 as [_ I5]. exists st', (S i).
  destruct acc; cbn [submit calls submitted events]; rewrite ?app_nil_r; cbn [app]; (split; [apply Hinv|]).
  - rewrite tokens_submit. f_equiv. by rewrite tokens_frame.
  - by constructor.
  - by rewrite filter_cons, decide_True, Hnl.
  - unfold steps_left. rewrite length_app, !filter_cons. simpl. lia.
  - rewrite !tokens_frame. done.
  - by repeat constructor.
  - by rewrite !filter_cons, decide_False, decide_True, Hnl by (done || by intros []).
  - unfold steps_left. rewrite !filter_cons. simpl. lia.
Qed.

Lemma inv_drop w P fr F lg st i :
  inv w P (fr :: F) lg st i → frame_tok fr = [] → loop_at F i → inv w P F lg st i.
Proof.
  intros [I1 I2 I3 I4 I5 I6 I7 I8] Hf Hloop. split; try done; [|by apply Forall_cons in I5 as [_ ?]].
  by rewrite <- I4, tokens_frame, Hf.
Qed.

Lemma wp_step_roots_done w P nr k F lg st i acc :
  inv w P (Roots nr k :: F) lg st i → nr ≤ k → wp (worker_step acc (Roots nr k)) (stepped P F (Roots nr k) lg st i) w.
Proof.
  intros Hi Hge. destruct (loop_at_frame _ _ _ _ (iv_loop _ _ _ _ _ _ Hi)) as (-> & -> & Hle & Hnl).
  unfold worker_step. rewrite (proj2 (Z.ltb_ge _ _) Hge). apply wp_ret. exists st, i. simpl. rewrite !app_nil_r.
  assert (i = num_roots) as -> by lia. split; [eapply inv_drop; [exact Hi|done|by right]|].
  unfold steps_left. rewrite filter_cons. simpl. lia.
Qed.

Lemma wp_step_wait w P F lg st i acc :
  inv w P (Wait :: F) lg st i → wp (worker_step acc Wait) (stepped P F Wait lg st i) w.
Proof.
  intros Hi. pose proof (iv_graph _ _ _ _ _ _ Hi) as I1. pose proof (finished_le st) as Hf. rewrite (iv_len _ _ _ _ _ _ Hi) in Hf.
  unfold worker_step. wp_step. eapply wp_deref; [apply (ga_obj _ _ _ _ _ _ I1)|]. cbn [wg set_wg]. apply wp_ret.
  destruct (Z.ltb_spec 0 (Z.of_nat (length G - finished st))) as [H|H]; [split; [done|lia]|].
  exists st, i. simpl. rewrite !app_nil_r. split.
  - eapply inv_drop; [exact Hi|done|]. rewrite <- (loop_at_skip Wait) by (by intros []). apply (iv_loop _ _ _ _ _ _ Hi).
  - unfold steps_left. rewrite filter_cons. simpl. lia.
Qed.

(** Every step of every thread. *)
Lemma wp_worker_step w P fr F lg st i acc :
  inv w P (fr :: F) lg st i → wp (worker_step acc fr) (stepped P F fr lg st i) w.
Proof.
  intros Hi. destruct fr as [p|p|p c j|nr k|].
  - by apply wp_step_start.
  - by apply wp_step_running.
  - destruct (Z.lt_ge_cases j c); [by apply wp_step_cross|by apply wp_step_done].
  - destruct (Z.lt_ge_cases k nr); [by apply wp_step_root|by apply wp_step_roots_done].
  - by apply wp_step_wait.
Qed.
End inv.
End TaskRunInv.
