(* ===== verification/TaskGraphSpec.v ===== *)
(** * What the task graph promises

    Building, compiling, running and destroying a graph with the public
    functions of src/src/module/taskgraph.c. *)
From S2P Require Import Prelude World Vector TaskTopo TaskGraph TaskGraphCompile TaskRun TaskRunInv.

Module TaskGraphSpec.
Import Vector TaskTopo TaskGraph TaskGraphRep TaskGraphCompile TaskRun TaskRunInv.

(** ** Sequences of calls *)

Inductive gop := AddNode (f c : Z) | AddEdge (u v : Z).

Definition gop_ok (op : gop) : Prop :=
  match op with AddNode f _ => f ≠ NULL | AddEdge u v => 0 ≤ u ∧ 0 ≤ v end.

Definition run_gop (op : gop) : M gworld Z :=
  match op with
  | AddNode f c => cobalt_taskgraph_add_node f c
  | AddEdge u v => cobalt_taskgraph_add_edge u v
  end.

(** What a call returns and makes of a graph. *)
Definition spec_gop (G : graph) (op : gop) : Z * graph :=
  match op with
  | AddNode _ _ => (Z.of_nat (length G), add_node G)
  | AddEdge u v =>
      if decide (Z.to_nat u < length G ∧ Z.to_nat v < length G)%nat
      then (0, add_edge G (Z.to_nat u) (Z.to_nat v)) else (-1, G)
  end.

Fixpoint run_gops (ops : list gop) : M gworld (list Z) :=
  match ops with
  | [] => mret []
  | op :: ops => r <- run_gop op ;; rs <- run_gops ops ;; mret (r :: rs)
  end.

Fixpoint spec_gops (G : graph) (ops : list gop) : list Z * graph :=
  match ops with
  | [] => ([], G)
  | op :: ops => let '(r, G) := spec_gop G op in let '(rs, G) := spec_gops G ops in (r :: rs, G)
  end.

Definition graph_of (ops : list gop) : graph := (spec_gops [] ops).2.

(** Creating a graph, building it and compiling it; [None] when there is no
    graph. *)
Definition build (ops : list gop) : M gworld (option (list Z * Z)) :=
  ok <- cobalt_taskgraph_create ;;
  if ok : bool then rs <- run_gops ops ;; r <- cobalt_taskgraph_compile ;; mret (Some (rs, r))
  else mret None.

Section spec.
Variable orc : nat → Z → bool.
Variable B : Z.
Hypothesis Hsane : sane orc.
Abbreviation graph_at := (graph_at orc B).
Abbreviation refusal := (refusal orc B).
Abbreviation unchecked := (unchecked orc B).

(** ** Building *)

(** A graph that is not compiled yet. *)
Definition open_graph (w : gworld) (G : graph) : Prop :=
  ∃ a g, graph_at w G a g ∧ compiled g = false ∧ vec_is orc B (root_nodes g) [].

Lemma wp_gop w G op :
  open_graph w G → gop_ok op → grow_bytes (length G) ≤ B → brk w < 2 ^ 64 →
  wp_or unchecked (run_gop op) (λ r w', brk w' ≤ brk w + 1 ∧
    ∃ G', open_graph w' G' ∧ (length G' ≤ S (length G))%nat ∧ (refusal ∨ (r, G') = spec_gop G op)) w.
Proof.
  intros (a & g & Hg & Hc & Hr) Hok HB Hb. destruct op as [f c|u v]; simpl in *.
  - eapply wp_or_mono; [eapply wp_add_node; try done|]. intros r w' (Hbr & g' & Hg' & H). split; [done|].
    assert (compiled g' = false ∧ root_nodes g' = root_nodes g) as [Hc' Hr'] by (rewrite Hg'; by destruct g).
    destruct H as [[-> [p Hw]]|(_ & Hw & _ & Hsh)].
    + exists (add_node G). split; [exists (a ++ [p]), g'; by rewrite Hr'|]. split; [unfold add_node; rewrite length_app; simpl; lia|by right].
    + exists G. split; [exists a, g'; by rewrite Hr'|]. split; [lia|left]. destruct Hsh; [done|lia].
  - destruct Hok as [Hu Hv]. eapply wp_or_mono; [by eapply wp_add_edge|]. intros r w' (Hbr & H). split; [lia|].
    destruct (decide _) as [Hin|Hin].
    + destruct H as [[-> Hw]|(-> & Hw & _ & Hsh)].
      * eexists. split; [by exists a, g|]. split; [|by right]. unfold add_edge. repeat case_match; rewrite ?length_insert; lia.
      * exists G. split; [by exists a, g|]. split; [lia|by left].
    + destruct H as (-> & Hw & _). exists G. split; [by exists a, g|]. split; [lia|by right].
Qed.

Lemma wp_gops ops : ∀ w G, open_graph w G → Forall gop_ok ops → grow_bytes (length G + length ops) ≤ B →
  brk w + Z.of_nat (length ops) < 2 ^ 64 →
  wp_or unchecked (run_gops ops) (λ rs w', ∃ G', open_graph w' G' ∧ grow_bytes (length G') ≤ B ∧ (refusal ∨ (rs, G') = spec_gops G ops)) w.
Proof.
  unfold grow_bytes. induction ops as [|op ops IH]; intros w G Hg Hok HB Hb; cbn [run_gops spec_gops length] in *.
  { apply wp_or_ret. exists G. split; [done|]. split; [lia|by right]. }
  apply Forall_cons in Hok as [Hop Hok]. wpo. eapply wp_or_mono; [apply (wp_gop w G op); try done; unfold grow_bytes; lia|].
  intros r w1 (Hb1 & G1 & Hg1 & Hl1 & H1). wpo. eapply wp_or_mono; [apply (IH w1 G1); [done|done|lia|lia]|].
  intros rs w2 (G2 & Hg2 & HB2 & H2). wpo. exists G2. split; [done|]. split; [done|].
  destruct H1 as [H1|H1]; [by left|]. destruct H2 as [H2|H2]; [by left|right]. by rewrite <- H1, <- H2.
Qed.

Lemma wp_taskgraph_create :
  grow_bytes 0 ≤ B →
  wp cobalt_taskgraph_create (λ ok w', if ok : bool then open_graph w' [] ∧ brk w' = 1 else refusal ∧ obj w' = None ∧ heap w' = ∅) (world0 orc).
Proof.
  unfold grow_bytes. intros HB. unfold cobalt_taskgraph_create, cobalt_taskgraph_create_with_alloc. wp_step. apply wp_request; intros Hr.
  2: { cbn [negb]. unfold out_of_memory. wp_steps. split; [|by split]. exists 0%nat, sizeof_taskgraph. split; [unfold sizeof_taskgraph; lia|done]. }
  cbn [negb]. wp_step. set (w1 := with_request _).
  assert (∀ ns rs k e, (ns = None ∧ refusal ∨ vec_is orc B ns []) → (rs = None ∧ refusal ∨ vec_is orc B rs []) →
    wp (set_obj (Some (Graph ns rs false None NULL)) ;;;
        match ns, rs with Some _, Some _ => mret true | _, _ => cobalt_taskgraph_destroy ;;; out_of_memory false end)
      (λ ok w', if ok : bool then open_graph w' [] ∧ brk w' = 1 else refusal ∧ obj w' = None ∧ heap w' = ∅) (touch w1 k e)) as Hrest.
  { intros ns rs k e Hns Hrs. wp_step. wp_step. destruct Hns as [[-> Href]|Hns].
    - wp_step. unfold cobalt_taskgraph_destroy. wp_steps. simpl. wp_steps. destruct rs; wp_steps; [apply wp_vec_destroy|]; wp_steps; unfold out_of_memory; wp_steps; done.
    - destruct Hrs as [[-> Href]|Hrs].
      + pose proof Hns as (u & -> & _). wp_step. unfold cobalt_taskgraph_destroy. wp_steps. simpl. wp_steps.
        eapply wp_vec_size; [exact Hns|]. simpl. wp_steps. apply wp_vec_destroy. wp_steps. unfold out_of_memory. by wp_steps.
      + pose proof Hns as (u & -> & _). pose proof Hrs as (u' & -> & _). wp_steps. split; [|done].
        exists [], (Graph (Some u) (Some u') false None NULL). split; [|split; [done|exact Hrs]]. split; try done. constructor. }
  apply (wp_vec_create orc B); [done|lia|lia| |].
  - intros ns k e Hns. wp_step. apply (wp_vec_create orc B); [done|lia|lia| |].
    + intros rs k' e' Hrs. apply Hrest; by right.
    + intros k' e' Href. apply Hrest; [by right|by left].
  - intros k e Href. wp_step. apply (wp_vec_create orc B); [done|lia|lia| |].
    + intros rs k' e' Hrs. apply Hrest; [by left|by right].
    + intros k' e' Href'. apply Hrest; by left.
Qed.

(** A graph that can run. *)
Record ready (w : gworld) (G : graph) (a : list Z) (g : cobalt_taskgraph) : Prop := {
  rd_graph : graph_at w G a g;
  rd_compiled : compiled g = true;
  rd_roots : vec_is orc B (root_nodes g) (Z.of_nat <$> roots G);
  rd_acyclic : acyclic G
}.

Lemma wp_build ops :
  Forall gop_ok ops → grow_bytes (length ops) ≤ B → Z.of_nat (length ops) < 2 ^ 63 →
  wp_or unchecked (build ops) (λ o w', (o = None ∧ refusal ∧ obj w' = None ∧ heap w' = ∅) ∨
    ∃ rs r G a g, o = Some (rs, r) ∧ graph_at w' G a g ∧
      (refusal ∨ (rs, G) = spec_gops [] ops ∧
        ((r = 0 ∧ ready w' G a g) ∨
         (r = -1 ∧ ¬ acyclic G ∧ compiled g = false ∧ last_error w' = COBALT_ERROR_INVALID_ARGUMENT)))) (world0 orc).
Proof.
  intros Hok HB Hl. unfold build. wpo. apply wp_or_of. eapply wp_mono; [apply wp_taskgraph_create; unfold grow_bytes in *; lia|].
  intros [] w1; [intros [Hg1 Hb1]|by intros (? & ? & ?); wpo; left]. wpo. eapply wp_or_mono; [apply (wp_gops ops w1 []); [done|done|done|lia]|].
  intros rs w2 (G2 & (a & g & Hg2 & Hc2 & Hr2) & HB2 & H2). wpo. eapply wp_or_mono; [by eapply wp_compile|].
  intros r w3 (g' & Hg3 & H3). wpo. right. exists rs, r, G2, a, g'. split; [done|]. split; [done|]. destruct H2 as [H2|H2]; [by left|].
  destruct H3 as [(-> & Hac & Hcp & [Hrf|Hrt])|(-> & -> & [[Hac He]|[Hrf _]])]; [by left| | |by left]; right; (split; [done|]).
  - left. by split.
  - by right.
Qed.

(** ** Starting a run *)

Definition counters_reset (w : gworld) (G : graph) (a : list Z) (i : nat) : Prop :=
  ∀ v p n, (v < i)%nat → a !! v = Some p → heap w !! p = Some n → remaining_in_degree n = Z.of_nat (in_deg G v).

Lemma wp_reset w G a g :
  graph_at w G a g → wp cobalt_taskgraph_reset (λ _ w', graph_at w' G a g ∧ counters_reset w' G a (length G)) w.
Proof.
  intros Hg. unfold cobalt_taskgraph_reset. wp_steps. rewrite (ga_obj _ _ _ _ _ _ Hg). wp_steps.
  eapply wp_vec_size; [apply (ga_nodes _ _ _ _ _ _ Hg)|]. rewrite (ga_len _ _ _ _ _ _ Hg). unfold for_each. rewrite Nat2Z.id.
  eapply wp_mono; [apply (wp_for_fold (λ i _ w', graph_at w' G a g ∧ counters_reset w' G a (Z.to_nat i))); [split; [done|intros v p n; simpl; lia]|]|].
  2: { intros [] w'. by rewrite Z.add_0_l, Nat2Z.id. }
  intros j [] w' Hj [Hg' Hr]. destruct (lookup_lt_is_Some_2 G (Z.to_nat j)) as [l Hl]; [lia|].
  destruct (graph_node _ _ _ _ _ _ _ _ Hg' Hl) as (p & n & Hp & Hp0 & Hn & N1 & N2 & N3 & N4).
  wp_step. eapply wp_vec_get; [apply (ga_nodes _ _ _ _ _ _ Hg')|lia|exact Hp|]. unfold reset_node. rewrite (proj2 (Z.eqb_neq _ _) Hp0).
  wp_step. eapply wp_load; [exact Hn|]. eapply wp_store; [exact Hn|]. split.
  - eapply graph_at_store; [exact Hg'|exact Hp|exact Hl|]. by split_and!.
  - intros v q m Hv Hq. simpl. destruct (decide (q = p)) as [->|Hne].
    + rewrite lookup_insert_eq. intros [= <-]. simpl. rewrite N3. do 2 f_equal.
      by eapply (NoDup_lookup a); [apply (ga_nodup _ _ _ _ _ _ Hg')|..].
    + rewrite lookup_insert_ne by done. intros Hm. eapply Hr; [|done..].
      destruct (decide (v = Z.to_nat j)) as [->|]; [congruence|lia].
Qed.

Definition waiting_all (G : graph) : list stage := replicate (length G) Waiting.

Lemma progress_waiting G : progress G (waiting_all G) = replicate (length G) 0%nat.
Proof. unfold progress, waiting_all. induction G as [|l G IH]; simpl; [done|by rewrite IH]. Qed.

Lemma active_waiting G a : active a (waiting_all G) = [].
Proof. unfold active, waiting_all. generalize (length G). induction a as [|p a IH]; intros [|n]; simpl; [done..|apply IH]. Qed.

Lemma finished_waiting G : finished (waiting_all G) = 0%nat.
Proof. unfold finished, waiting_all. induction (length G); simpl; [done|]. by rewrite filter_cons, decide_False. Qed.

(** The first state of a run. *)
Lemma inv_start w G a g F :
  graph_at w G a (set_wg g (Some (Z.of_nat (length G)))) → counters_reset w G a (length G) →
  filter is_loop F = [Roots (Z.of_nat (length (roots G))) 0] → concat (frame_tok <$> F) = [] →
  inv orc B G a g w [] F [] (waiting_all G) 0.
Proof.
  intros Hg Hr HF Htok. split.
  - by rewrite finished_waiting, Nat.sub_0_r.
  - apply length_replicate.
  - intros v p n Hp Hn. rewrite progress_waiting, crossed_none, Nat.sub_0_r. eapply Hr; [|done..].
    rewrite <- (ga_len _ _ _ _ _ _ Hg). by eapply lookup_lt_Some.
  - unfold tokens. by rewrite Htok, active_waiting.
  - apply Forall_forall. intros [] Hin; try done. exfalso.
    assert ((p, Active (Z.to_nat i)) ∈ concat (frame_tok <$> F)) as H; [|by rewrite Htok in H; apply elem_of_nil in H].
    apply list_elem_of_In, in_concat. exists [(p, Active (Z.to_nat i))]. split; [|by left]. apply list_elem_of_In, list_elem_of_fmap. by exists (Succ p succ_count i).
  - intros v s [-> Hv]%lookup_replicate. split; [|done]. intros _. rewrite progress_waiting, crossed_none, drop_0.
    destruct (decide (in_deg G v = 0%nat)) as [Hz|]; [right|left; lia]. apply list_elem_of_filter. split; [done|]. apply elem_of_seq. lia.
  - left. split; [by rewrite HF|lia].
  - split; [| |constructor|].
    + intros v s [-> _]%lookup_replicate. split; [by intros ?%elem_of_nil|by intros []].
    + intros v s [-> _]%lookup_replicate. split; [by intros ?%elem_of_nil|by intros []].
    + intros pre post u v Heq. by destruct pre.
Qed.

(** Setting up fails only for lack of memory. *)
Lemma wp_taskgraph_run w G a g wait pool :
  ready w G a g → G ≠ [] → pool ≠ NULL → 48 ≤ B →
  wp (cobalt_taskgraph_run wait pool) (λ r w',
    match r with
    | inl v => v = -1 ∧ refusal
    | inr ths => ths = [Roots (Z.of_nat (length (roots G))) 0 :: (if wait then [Wait] else [])] ∧
        inv orc B G a (set_pool g pool) w' [] (concat ths) [] (waiting_all G) 0
    end) w.
Proof.
  intros [Hg Hc Hr Hac] HG Hp HB. unfold cobalt_taskgraph_run, run_setup. wp_step. wp_step. wp_step.
  rewrite (ga_obj _ _ _ _ _ _ Hg), Hc, (proj2 (Z.eqb_neq _ _) Hp). cbn [negb orb]. wp_step. eapply wp_vec_size; [apply (ga_nodes _ _ _ _ _ _ Hg)|].
  rewrite (ga_len _ _ _ _ _ _ Hg). rewrite (proj2 (Z.eqb_neq _ _)) by (by destruct G). wp_step. eapply wp_mono; [by apply wp_reset|].
  intros _ w1 [Hg1 Hr1]. wp_step. wp_step. wp_step.
  assert (∀ n k, n ≤ 48 → oracle w1 k n = false → refusal) as Href.
  { intros n k Hn H. rewrite (ga_orc _ _ _ _ _ _ Hg1) in H. exists k, n. split; [lia|done]. }
  assert (wp waitgroup_create (λ ok w', (∃ k, w' = touch (with_obj w1 (Some (set_pool (set_wg g None) pool))) k (last_error w1)) ∧ (ok = false → refusal))
    (with_obj w1 (Some (set_pool (set_wg g None) pool)))) as Hwg.
  { unfold waitgroup_create. wp_step. apply wp_request; intros H1; [|wp_steps; split; [by eexists|intros _; eapply Href; [|exact H1]; unfold sizeof_waitgroup; lia]].
    cbn [negb]. wp_step. apply wp_request; intros H2; wp_step; apply wp_request; intros H3; wp_steps; (split; [by eexists|]); try done; intros _.
    all: first [eapply Href; [|exact H2]; lia|eapply Href; [|exact H3]; lia]. }
  eapply wp_mono; [exact Hwg|]. intros ok w2 [[k ->] Hok]. destruct ok; [|cbn [negb]; unfold out_of_memory; wp_steps; split; [done|by apply Hok]].
  cbn [negb]. wp_steps. eapply wp_vec_size; [exact Hr|]. rewrite length_fmap. wp_steps. split; [done|].
  apply inv_start.
  - eapply (graph_at_ext orc B w1); [exact Hg1|done|apply (ga_nodes _ _ _ _ _ _ Hg)|done| |done]. simpl. pose proof (ga_heap _ _ _ _ _ _ Hg1) as [? _]. lia.
  - exact Hr1.
  - by destruct wait.
  - by destruct wait.
Qed.

(** ** Destroying *)

Lemma wp_taskgraph_destroy w G a g :
  graph_at w G a g → wp cobalt_taskgraph_destroy (λ _ w', obj w' = None ∧ heap w' = ∅) w.
Proof.
  intros Hg. unfold cobalt_taskgraph_destroy. wp_steps. rewrite (ga_obj _ _ _ _ _ _ Hg). pose proof (ga_nodes _ _ _ _ _ _ Hg) as Hv.
  destruct (nodes g) as [u|] eqn:Eu; [|by destruct Hv as (? & ? & _)]. wp_steps. eapply wp_vec_size; [exact Hv|]. wp_steps.
  unfold for_each. rewrite Nat2Z.id.
  eapply wp_mono; [apply (wp_for_fold (λ i _ w', dom (heap w') = list_to_set (drop (Z.to_nat i) a))); [by rewrite drop_0, (ga_dom _ _ _ _ _ _ Hg)|]|].
  - intros j [] w' Hj Hd. destruct (lookup_lt_is_Some_2 a (Z.to_nat j)) as [p Hp]; [lia|]. rewrite (drop_S _ _ _ Hp) in Hd.
    assert (p ∈ dom (heap w')) as [n Hn]%elem_of_dom by (rewrite Hd; set_solver).
    assert (p ≠ NULL) as Hp0.
    { destruct (lookup_lt_is_Some_2 G (Z.to_nat j)) as [l Hl]; [rewrite <- (ga_len _ _ _ _ _ _ Hg); lia|].
      destruct (graph_node _ _ _ _ _ _ _ _ Hg Hl) as (p' & _ & Hp' & ? & _). congruence. }
    wp_step. eapply wp_vec_get; [exact Hv|lia|exact Hp|]. unfold destroy_node. rewrite (proj2 (Z.eqb_neq _ _) Hp0). wp_step.
    eapply wp_load; [exact Hn|]. wp_step.
    assert (wp (free_node p) (λ _ w', dom (heap w') = list_to_set (drop (Z.to_nat (j + 1)) a)) w') as Hfree.
    { eapply wp_free_node; [done|exact Hn|]. simpl. rewrite dom_delete_L, Hd. replace (Z.to_nat (j + 1)) with (S (Z.to_nat j)) by lia.
      assert (p ∉ drop (S (Z.to_nat j)) a) as Hnin; [|set_solver].
      pose proof (ga_nodup _ _ _ _ _ _ Hg) as Hnd. rewrite <- (take_drop (Z.to_nat j) a), (drop_S _ _ _ Hp) in Hnd.
      apply NoDup_app in Hnd as (_ & _ & Hnd). by apply NoDup_cons in Hnd as [? _]. }
    destruct (successors n); [apply wp_vec_destroy|apply wp_ret]; exact Hfree.
  - intros [] w' Hd. rewrite Z.add_0_l, Nat2Z.id, drop_all in Hd. apply dom_empty_inv_L in Hd. apply wp_vec_destroy. wp_step.
    destruct (root_nodes g); [apply wp_vec_destroy|apply wp_ret]; wp_steps; done.
Qed.

(** ** Runs *)

Section run.
Variables (G : graph) (a : list Z) (g : cobalt_taskgraph).
Hypothesis Hroots : vec_is orc B (root_nodes g) (Z.of_nat <$> roots G).

(** Nothing comes after a wait. *)
Definition wait_last (s : list frame) : Prop := ∀ i, s !! i = Some Wait → S i = length s.

Definition cinv (c : config) (st : list stage) (i : nat) : Prop :=
  inv orc B G a g (memory c) (pending c) (concat (threads c)) (log c) st i ∧ Forall wait_last (threads c).

Definition cleft (c : config) (st : list stage) (i : nat) : nat := steps_left G (pending c) (concat (threads c)) st i.

Lemma steps_left_perm P P' F F' st i : P ≡ₚ P' → F ≡ₚ F' → steps_left G P F st i = steps_left G P' F' st i.
Proof. intros HP HF. unfold steps_left. by rewrite HP, HF. Qed.

Lemma wait_last_step fr rest frs : wait_last (fr :: rest) → Wait ∉ frs → wait_last (frs ++ rest).
Proof.
  intros Hw Hn i Hi. apply lookup_app_Some in Hi as [Hi|[Hge Hi]]; [by apply list_elem_of_lookup_2 in Hi|].
  specialize (Hw (S (i - length frs)) Hi). simpl in Hw. rewrite length_app. lia.
Qed.

Lemma calls_no_wait acc fr w e w' : worker_step acc fr w = Ret (Some e) w' → Wait ∉ calls e.
Proof.
  unfold worker_step, mbind, mret. destruct fr; repeat (case_match; try done); intros [= <- <-]; unfold submit; repeat case_match; simpl; set_solver.
Qed.

Lemma step_cinv c c' st i : cinv c st i → step c c' → ∃ st' i', cinv c' st' i' ∧ (cleft c' st' i' < cleft c st i)%nat.
Proof.
  intros [Hi Hw] Hs. destruct Hs as [t fr rest acc e w' Ht He|pre p post Hp].
  - destruct (concat_insert (threads c) t _ Ht) as (R & H1 & H2). specialize (H2 (calls e ++ rest)).
    assert (inv orc B G a g (memory c) (pending c) (fr :: rest ++ R) (log c) st i) as Hi' by (by eapply inv_perm).
    pose proof (wp_worker_step orc B G a g Hroots _ _ _ _ _ _ _ acc Hi') as H. unfold wp in H. rewrite He in H.
    destruct H as (st' & i' & Hinv & Hlt). exists st', i'. split.
    + split; simpl; [eapply inv_perm; [done| |exact Hinv]; by rewrite H2, app_assoc|]. apply Forall_insert; [done|].
      eapply wait_last_step; [by eapply (proj1 (Forall_lookup _ _) Hw)|by eapply calls_no_wait].
    + unfold cleft. simpl. rewrite (steps_left_perm _ _ _ _ _ _ (reflexivity _) H1).
      rewrite (steps_left_perm _ _ _ _ _ _ (reflexivity _) H2), <- app_assoc. exact Hlt.
  - exists st, i.
    assert (inv orc B G a g (memory c) (p :: pre ++ post) (concat (threads c)) (log c) st i) as Hi'.
    { eapply inv_perm; [|done|exact Hi]. rewrite Hp. by rewrite Permutation_middle. }
    assert (concat (threads c ++ [[Start p]]) ≡ₚ Start p :: concat (threads c)) as Hperm.
    { rewrite concat_app. simpl. by rewrite Permutation_app_comm. }
    split.
    + split; simpl; [eapply inv_perm; [done|symmetry; exact Hperm|by apply inv_pick]|]. apply Forall_app. split; [done|]. constructor; [|done].
      intros [|[|?]]; done.
    + unfold cleft. simpl. rewrite (steps_left_perm _ _ _ _ _ _ (reflexivity _) Hperm). rewrite Hp. unfold steps_left. rewrite filter_cons. simpl.
      rewrite !length_app. simpl. lia.
Qed.

Lemma steps_cinv k c c' st i : cinv c st i → nsteps step k c c' → ∃ st' i', cinv c' st' i' ∧ (k + cleft c' st' i' ≤ cleft c st i)%nat.
Proof.
  intros Hc Hs. revert st i Hc. induction Hs as [c|k c c1 c' H1 Hs IH]; intros st i Hc; [by exists st, i|].
  destruct (step_cinv _ _ _ _ Hc H1) as (st1 & i1 & Hc1 & Hlt). destruct (IH _ _ Hc1) as (st' & i' & Hc' & Hle). exists st', i'. split; [done|lia].
Qed.

Lemma all_finished st : finished st = length st → ∀ v s, st !! v = Some s → s = Finished.
Proof.
  unfold finished. intros H v s Hs. destruct (decide (s = Finished)); [done|]. exfalso.
  pose proof (finished_insert st v s Finished Hs) as Hf. unfold one in Hf. rewrite decide_False, decide_True in Hf by done.
  pose proof (finished_le (<[v := Finished]> st)) as Hle. unfold finished in *. rewrite length_insert in Hle. lia.
Qed.

Lemma ended_all c st i : cinv c st i → finished st = length G → ∀ v, (v < length G)%nat → End (Z.of_nat v) ∈ log c.
Proof.
  intros [Hi _] Hf v Hv. rewrite <- (iv_len _ _ _ _ _ _ _ _ _ _ _ Hi) in Hf, Hv. destruct (lookup_lt_is_Some_2 st v Hv) as [s Hs].
  apply (lg_ended _ _ _ (iv_log _ _ _ _ _ _ _ _ _ _ _ Hi) v s Hs). by rewrite (all_finished st Hf v s Hs).
Qed.

(** A state with no next step is the end. *)
Lemma stuck_done c st i : acyclic G → cinv c st i → (∀ c', ¬ step c c') →
  finished st = length G ∧ pending c = [] ∧ Forall (λ s, s = []) (threads c).
Proof.
  intros Hac [Hi Hw] Hno.
  assert (pending c = []) as HP by (destruct (pending c) as [|p P] eqn:E; [done|]; by edestruct Hno; apply (step_pick c [] p P)).
  assert (∀ t s, threads c !! t = Some s → s = [] ∨ (s = [Wait] ∧ finished st < length G)%nat) as Hstacks.
  { intros t [|fr rest] Ht; [by left|right]. destruct (concat_insert (threads c) t _ Ht) as (R & H1 & _).
    assert (inv orc B G a g (memory c) (pending c) (fr :: rest ++ R) (log c) st i) as Hi' by (by eapply inv_perm).
    pose proof (wp_worker_step orc B G a g Hroots _ _ _ _ _ _ _ true Hi') as H. apply wp_run in H as ([e|] & w' & He & H).
    - by edestruct Hno; eapply step_thread.
    - destruct H as [-> Hlt]. split; [|done]. specialize (proj1 (Forall_lookup _ _) Hw t _ Ht 0%nat eq_refl). simpl. intros Hl. by destruct rest. }
  assert (∀ fr, fr ∈ concat (threads c) → fr = Wait) as Hfr.
  { intros fr (s & Hs & Hin)%list_elem_of_In%in_concat. apply list_elem_of_In in Hs, Hin. apply list_elem_of_lookup_1 in Hs as [t Ht].
    destruct (Hstacks t s Ht) as [->|[-> _]]; [by apply elem_of_nil in Hin|by apply list_elem_of_singleton in Hin]. }
  assert (active a st = []) as Hact.
  { apply Permutation_nil_r. rewrite <- (iv_tokens _ _ _ _ _ _ _ _ _ _ _ Hi), HP. unfold tokens. simpl. clear -Hfr.
    induction (concat (threads c)) as [|fr F IH]; csimpl; [done|]. rewrite (Hfr fr ltac:(by left)). simpl. apply IH. intros fr' ?. apply Hfr. by right. }
  assert (drop i (roots G) = []) as Hdrop.
  { destruct (iv_loop _ _ _ _ _ _ _ _ _ _ _ Hi) as [[H _]|[_ ->]]; [|by apply drop_all]. exfalso.
    assert (Roots (Z.of_nat (length (roots G))) (Z.of_nat i) ∈ filter is_loop (concat (threads c))) as Hin by (rewrite H; by left).
    apply list_elem_of_filter in Hin as [_ Hin%Hfr]. done. }
  pose proof (iv_len _ _ _ _ _ _ _ _ _ _ _ Hi) as Hlen. pose proof (ga_len _ _ _ _ _ _ (iv_graph _ _ _ _ _ _ _ _ _ _ _ Hi)) as Hla.
  assert (∀ v s, st !! v = Some s → s = Waiting ∨ s = Finished) as Htwo.
  { intros v s Hs. destruct (lookup_lt_is_Some_2 a v) as [p Hp]; [rewrite Hla, <- Hlen; by eapply lookup_lt_Some|].
    destruct (active_insert a st v p s Hp Hs) as (R & H1 & _). rewrite Hact in H1. apply Permutation_nil_l in H1. destruct s; simpl in H1; auto; done. }
  assert (filter (λ v, st !! v = Some Waiting) (seq 0 (length G)) = []) as Hnil.
  { apply (acyclic_no_closed G); [done|]. intros v [Hv Hvr]%list_elem_of_filter.
    destruct (proj1 (iv_waiting _ _ _ _ _ _ _ _ _ _ _ Hi v Waiting Hv) eq_refl) as [Hlt|Hin]; [|rewrite Hdrop in Hin; by apply elem_of_nil in Hin].
    destruct (crossed_lt G v (progress G st)) as (u & l & k & Hl & Hk & Hvl & Hvk); [unfold progress; rewrite length_zip_with; lia|done|].
    exists u. split; [|by exists l]. apply list_elem_of_filter. split; [|apply elem_of_seq; apply lookup_lt_Some in Hl; lia].
    destruct (lookup_lt_is_Some_2 st u) as [s Hs]; [rewrite Hlen; by eapply lookup_lt_Some|]. rewrite Hs.
    unfold progress in Hk. rewrite lookup_zip_with, Hl, Hs in Hk. simpl in Hk. injection Hk as <-.
    destruct (Htwo u s Hs) as [->| ->]; [done|]. simpl in Hvk. by rewrite take_ge in Hvk. }
  assert (finished st = length G) as Hfin.
  { unfold finished. rewrite <- Hlen. f_equal. apply filter_id. apply Forall_forall. intros s [v Hs]%list_elem_of_lookup_1.
    destruct (Htwo v s Hs) as [->|?]; [|done]. assert (v ∈ filter (λ v, st !! v = Some Waiting) (seq 0 (length G))) as Hin.
    { apply list_elem_of_filter. split; [done|]. apply elem_of_seq. rewrite <- Hlen. apply lookup_lt_Some in Hs. lia. }
    rewrite Hnil in Hin. by apply elem_of_nil in Hin. }
  split; [done|]. split; [done|]. apply Forall_lookup. intros t s Ht. destruct (Hstacks t s Ht) as [?|[_ ?]]; [done|lia].
Qed.

Lemma start_cinv w (wait : bool) :
  inv orc B G a g w [] (Roots (Z.of_nat (length (roots G))) 0 :: (if wait then [Wait] else [])) [] (waiting_all G) 0 →
  cinv (Config w [] [Roots (Z.of_nat (length (roots G))) 0 :: (if wait then [Wait] else [])] []) (waiting_all G) 0.
Proof.
  intros Hi. split; simpl; [by rewrite app_nil_r|]. constructor; [|done]. intros [|[|k]] Hk; [done| |]; by destruct wait.
Qed.
End run.
End spec.

(** Building, compiling and running a graph. *)
Definition launch (ops : list gop) (wait : bool) (pool : Z) : M gworld (Z + list (list frame)) :=
  build ops ;;; cobalt_taskgraph_run wait pool.

(** Every request of at most [B] bytes is granted. *)
Definition granted (orc : nat → Z → bool) (B : Z) : Prop := ∀ k m, m ≤ B → orc k m = true.

Lemma granted_no_refusal orc B : granted orc B → ¬ refusal orc B.
Proof. intros Hg (k & m & Hm & H). by rewrite Hg in H. Qed.

Lemma graph_nonempty ops : graph_of ops ≠ [] → ops ≠ [].
Proof. by intros H ->. Qed.

Lemma wp_launch orc B ops wait pool :
  sane orc → granted orc B → Forall gop_ok ops → grow_bytes (length ops) ≤ B → Z.of_nat (length ops) < 2 ^ 63 →
  acyclic (graph_of ops) → graph_of ops ≠ [] → pool ≠ NULL →
  wp (launch ops wait pool) (λ r w', ∃ ths a g, r = inr ths ∧
    vec_is orc B (root_nodes g) (Z.of_nat <$> roots (graph_of ops)) ∧
    cinv orc B (graph_of ops) a g (Config w' [] ths []) (waiting_all (graph_of ops)) 0 ∧ length (concat ths) = (if wait then 2 else 1)%nat) (world0 orc).
Proof.
  intros Hs Hgr Hok HB Hl Hac Hne Hp. pose proof (granted_no_refusal _ _ Hgr) as Hnr.
  apply (wp_or_wp (unchecked orc B)); [by intros f [_ ?]|]. unfold launch. wpo. eapply wp_or_mono; [by apply wp_build|].
  intros o w1 [(_ & ? & _)|(rs & r & G & a & g & -> & Hg & [?|[HG H]])]; [done..|].
  assert (G = graph_of ops) as -> by (unfold graph_of; by rewrite <- HG). destruct H as [[-> Hrd]|(_ & Hna & _)]; [|done].
  apply wp_or_of. eapply wp_mono; [eapply wp_taskgraph_run; try done; unfold grow_bytes in HB; lia|].
  intros [v|ths] w2; [by intros [_ ?]|]. intros [-> Hi]. eexists _, a, (set_pool g pool). split; [done|]. split; [apply Hrd|].
  split; [|by destruct wait]. apply start_cinv. simpl in Hi. by rewrite app_nil_r in Hi.
Qed.

(** C18: Building a graph with any sequence of calls returns the numbers,
    successes and errors of the same calls on a list of successor lists in
    which an edge is entered once; compiling returns 0 exactly when that graph
    has no cycle and -1 otherwise; destroying the graph frees every node.
    Unless a request is refused; then the one fault is the write to a vector
    whose array was refused when it was created. *)
Theorem taskgraph_compiles_iff_acyclic orc B ops :
  sane orc → Forall gop_ok ops → grow_bytes (length ops) ≤ B → Z.of_nat (length ops) < 2 ^ 63 →
  wp_or (λ f, f = NullDeref ∧ refusal orc B) (o <- build ops ;; cobalt_taskgraph_destroy ;;; mret o)
    (λ o w', refusal orc B ∨ ∃ r, o = Some ((spec_gops [] ops).1, r) ∧ (r = 0 ↔ acyclic (graph_of ops)) ∧ (r = 0 ∨ r = -1) ∧
       obj w' = None ∧ heap w' = ∅) (world0 orc).
Proof.
  intros Hs Hok HB Hl. wpo. eapply wp_or_mono; [by apply (wp_build orc B)|].
  intros o w1 [(-> & Hr & Ho & Hh)|(rs & r & G & a & g & -> & Hg & H)].
  { unfold cobalt_taskgraph_destroy. wpo. rewrite Ho. wpo. by left. }
  wpo. apply wp_or_of. eapply wp_mono; [by eapply wp_taskgraph_destroy|]. intros [] w2 [Ho Hh]. wpo.
  destruct H as [?|[HG H]]; [by left|right]. exists r. unfold graph_of. rewrite <- HG. simpl. split; [done|].
  destruct H as [[-> Hrd]|(-> & Hna & _)]; split_and!; try done; auto. split; [|done]. intros _. apply Hrd.
Qed.

(** C16: In every interleaving of the threads that run a graph without cycles,
    on any pool, no step faults, no task begins or ends twice, a task begins
    only after every task with an edge to it has ended, and once the counter
    of the wait group is 0 every task has ended. *)
Theorem taskgraph_run_ordered orc B ops wait pool :
  sane orc → granted orc B → Forall gop_ok ops → grow_bytes (length ops) ≤ B → Z.of_nat (length ops) < 2 ^ 63 →
  acyclic (graph_of ops) → graph_of ops ≠ [] → pool ≠ NULL →
  wp (launch ops wait pool) (λ r w', ∃ ths, r = inr ths ∧ ∀ c, rtc step (Config w' [] ths []) c →
    (∀ t fr rest accepted, threads c !! t = Some (fr :: rest) → ∃ e w'', worker_step accepted fr (memory c) = Ret e w'') ∧
    NoDup (log c) ∧ ordered (graph_of ops) (log c) ∧
    (∀ g, obj (memory c) = Some g → wg g = Some 0 → ∀ v, (v < length (graph_of ops))%nat → End (Z.of_nat v) ∈ log c)) (world0 orc).
Proof.
  intros Hs Hgr Hok HB Hl Hac Hne Hp. eapply wp_mono; [by eapply (wp_launch orc B)|].
  intros r w1 (ths & a & g & -> & Hr & Hc & _). exists ths. split; [done|]. intros c [k Hsteps]%rtc_nsteps.
  destruct (steps_cinv orc B Hs _ a g Hr _ _ _ _ _ Hc Hsteps) as (st & i & Hci & _). pose proof Hci as [Hi _].
  pose proof (iv_log _ _ _ _ _ _ _ _ _ _ _ Hi) as Hlog. split; [|split; [apply Hlog|split; [apply Hlog|]]].
  - intros t fr rest acc Ht. destruct (concat_insert (threads c) t _ Ht) as (R & H1 & _).
    assert (inv orc B (graph_of ops) a g (memory c) (pending c) (fr :: rest ++ R) (log c) st i) as Hi' by (by eapply inv_perm).
    pose proof (wp_worker_step orc B _ a g Hr _ _ _ _ _ _ _ acc Hi') as H. apply wp_run in H as (e & w' & He & _). by exists e, w'.
  - intros g' Hg' Hwg. pose proof (iv_graph _ _ _ _ _ _ _ _ _ _ _ Hi) as Hga. rewrite (ga_obj _ _ _ _ _ _ Hga) in Hg'. injection Hg' as <-.
    simpl in Hwg. injection Hwg as Hwg. eapply ended_all; [exact Hci|].
    pose proof (finished_le st) as Hf. rewrite (iv_len _ _ _ _ _ _ _ _ _ _ _ Hi) in Hf. lia.
Qed.

(** The most steps a run can take: at most six for each task, one for each
    edge, and one for each root. *)
Definition max_steps (G : graph) : nat := sum_list ((λ l, length l + 6)%nat <$> G) + length (roots G) + 2.

Lemma work_waiting G : work G (waiting_all G) = sum_list ((λ l, length l + 6)%nat <$> G).
Proof. unfold work, waiting_all. induction G as [|l G IH]; csimpl; [done|by rewrite IH]. Qed.

(** C17: A run of a graph without cycles always ends: no execution is longer
    than [max_steps], and when no step is left every thread has returned, that
    of [run_and_wait] included, the pool is empty and every task has ended. *)
Theorem taskgraph_run_completes orc B ops wait pool :
  sane orc → granted orc B → Forall gop_ok ops → grow_bytes (length ops) ≤ B → Z.of_nat (length ops) < 2 ^ 63 →
  acyclic (graph_of ops) → graph_of ops ≠ [] → pool ≠ NULL →
  wp (launch ops wait pool) (λ r w', ∃ ths, r = inr ths ∧
    (∀ k c, nsteps step k (Config w' [] ths []) c → (k ≤ max_steps (graph_of ops))%nat) ∧
    (∀ c, rtc step (Config w' [] ths []) c → (∀ c', ¬ step c c') →
       Forall (λ s, s = []) (threads c) ∧ pending c = [] ∧
       ∀ v, (v < length (graph_of ops))%nat → End (Z.of_nat v) ∈ log c)) (world0 orc).
Proof.
  intros Hs Hgr Hok HB Hl Hac Hne Hp. eapply wp_mono; [by eapply (wp_launch orc B)|].
  intros r w1 (ths & a & g & -> & Hr & Hc & Hn). exists ths. split; [done|]. split.
  - intros k c Hsteps. destruct (steps_cinv orc B Hs _ a g Hr _ _ _ _ _ Hc Hsteps) as (st & i & _ & Hle).
    unfold cleft, steps_left in Hle. simpl in Hle. rewrite work_waiting in Hle. unfold max_steps.
    pose proof (length_filter is_call (concat ths)) as Hf. rewrite Hn in Hf. destruct wait; lia.
  - intros c [k Hsteps]%rtc_nsteps Hno. destruct (steps_cinv orc B Hs _ a g Hr _ _ _ _ _ Hc Hsteps) as (st & i & Hci & _).
    destruct (stuck_done orc B _ a g Hr c st i Hac Hci Hno) as (Hfin & HP & Ht). split; [done|]. split; [done|]. by eapply ended_all.
Qed.

(** ** Examples *)

(** Four tasks: the first before the two in the middle, those before the
    last; one edge is entered twice and one has no node. *)
Definition diamond : list gop :=
  [AddNode 1 0; AddNode 1 0; AddNode 1 0; AddNode 1 0;
   AddEdge 0 1; AddEdge 0 2; AddEdge 1 3; AddEdge 2 3; AddEdge 0 1; AddEdge 3 4].

Definition roomy (k : nat) (n : Z) : bool := n <? 2 ^ 63.

Lemma roomy_sane : sane roomy.
Proof. intros k n H. by apply Z.ltb_lt in H. Qed.

Lemma roomy_granted B : B < 2 ^ 63 → granted roomy B.
Proof. intros HB k m Hm. apply Z.ltb_lt. lia. Qed.

Lemma diamond_graph : graph_of diamond = [[1; 2]; [3]; [3]; []]%nat.
Proof. vm_compute. reflexivity. Qed.

Lemma diamond_ok : Forall gop_ok diamond.
Proof. by repeat constructor. Qed.

Lemma diamond_acyclic : acyclic (graph_of diamond).
Proof.
  rewrite diamond_graph. apply (ordered_acyclic _ [0; 1; 2; 3]%nat).
  - split; repeat constructor; simpl; try lia; set_solver.
  - repeat constructor; set_solver.
  - intros v Hv. simpl in Hv. do 4 (destruct v as [|v]; [set_solver|]). lia.
  - intros j v u Hj (l & Hl & Hv). do 4 (destruct u as [|u]; [simpl in Hl; injection Hl as <-; do 4 (destruct j as [|j]; [simpl in Hj; injection Hj as <-; set_solver|]); done|]). done.
Qed.

Lemma taskgraph_compiles_iff_acyclic_witness :
  wp_or (λ f, f = NullDeref ∧ refusal roomy 1000) (o <- build diamond ;; cobalt_taskgraph_destroy ;;; mret o)
    (λ o w', refusal roomy 1000 ∨ ∃ r, o = Some ((spec_gops [] diamond).1, r) ∧ (r = 0 ↔ acyclic (graph_of diamond)) ∧
       (r = 0 ∨ r = -1) ∧ obj w' = None ∧ heap w' = ∅) (world0 roomy) ∧
  (spec_gops [] diamond).1 = [0; 1; 2; 3; 0; 0; 0; 0; 0; -1].
Proof.
  split; [|vm_compute; reflexivity].
  apply (taskgraph_compiles_iff_acyclic roomy 1000 diamond roomy_sane diamond_ok); vm_compute; done.
Defined.

Lemma taskgraph_run_ordered_witness :
  wp (launch diamond true 1) (λ r w', ∃ ths, r = inr ths ∧ ∀ c, rtc step (Config w' [] ths []) c →
    (∀ t fr rest accepted, threads c !! t = Some (fr :: rest) → ∃ e w'', worker_step accepted fr (memory c) = Ret e w'') ∧
    NoDup (log c) ∧ ordered (graph_of diamond) (log c) ∧
    (∀ g, obj (memory c) = Some g → wg g = Some 0 → ∀ v, (v < length (graph_of diamond))%nat → End (Z.of_nat v) ∈ log c)) (world0 roomy).
Proof.
  apply (taskgraph_run_ordered roomy 1000 diamond true 1 roomy_sane (roomy_granted 1000 ltac:(lia)) diamond_ok);
    [vm_compute; done|vm_compute; done|apply diamond_acyclic|by rewrite diamond_graph|done].
Defined.

Lemma taskgraph_run_completes_witness :
  wp (launch diamond true 1) (λ r w', ∃ ths, r = inr ths ∧
    (∀ k c, nsteps step k (Config w' [] ths []) c → (k ≤ max_steps (graph_of diamond))%nat) ∧
    (∀ c, rtc step (Config w' [] ths []) c → (∀ c', ¬ step c c') →
       Forall (λ s, s = []) (threads c) ∧ pending c = [] ∧
       ∀ v, (v < length (graph_of diamond))%nat → End (Z.of_nat v) ∈ log c)) (world0 roomy).
Proof.
  apply (taskgraph_run_completes roomy 1000 diamond true 1 roomy_sane (roomy_granted 1000 ltac:(lia)) diamond_ok);
    [vm_compute; done|vm_compute; done|apply diamond_acyclic|by rewrite diamond_graph|done].
Defined.

(** Only the request for the vector of the roots is refused. *)
Definition no_roots (k : nat) (n : Z) : bool := negb (k =? 10)%nat.

Definition lost : gworld := match launch [AddNode 1 0] true 1 (world0 no_roots) with Ret _ w => w | Fault _ => world0 no_roots end.

(** Compiling does not look at whether the roots were cached: when the
    request for their vector is refused it still returns 0, and the run that
    follows submits no task, so that the caller waits forever. *)
Theorem taskgraph_lost_roots :
  (match build [AddNode 1 0] (world0 no_roots) with Ret (Some (rs, r)) w => r = 0 | _ => False end) ∧
  launch [AddNode 1 0] true 1 (world0 no_roots) = Ret (inr [[Roots 0 0; Wait]]) lost ∧
  ∃ c, rtc step (Config lost [] [[Roots 0 0; Wait]] []) c ∧ (∀ c', ¬ step c c') ∧ threads c = [[Wait]] ∧ log c = [].
Proof.
  split; [vm_compute; done|]. split; [vm_compute; done|]. exists (Config lost [] [[Wait]] []). split; [|split; [|done]].
  - apply rtc_once. by apply (step_thread (Config lost [] [[Roots 0 0; Wait]] []) 0 (Roots 0 0) [Wait] true (Effect [] [] []) lost).
  - intros c' Hs. inversion Hs as [t fr rest acc e w' Ht He|pre p post Hp]; [|by destruct pre].
    destruct t as [|t]; [|done]. simpl in Ht. injection Ht as <- <-. by vm_compute in He.
Qed.
End TaskGraphSpec.
