(* ===== verification/Regex.v ===== *)
(** * The regular expression compiler of src/src/algorithm/regex.c

    The pattern is parsed into nodes of a growing array, the nodes are compiled
    into an array of instructions.  The state of a compilation is the parser, the
    node pool and the code generator, which are locals of
    [cobalt_regex_compile_with_alloc] that every function gets by pointer, and the
    allocator with its live blocks.

    Characters are bytes in [0, 255]; patterns and texts are the bytes in front of
    the terminating NUL.  The character functions of the C library are those of
    the "C" locale. *)
From S2P Require Import Prelude World.

Module Regex.

(** ** Allocator wrappers: the heap maps each live block to its size *)

Definition renv : Type := world unit Z.

Definition re_alloc (size : Z) : M renv Z := alloc_node size size.
Definition re_free (ptr : Z) : M renv unit := free_node ptr.

(** A refused [realloc] leaves the block alone. *)
Definition re_realloc (ptr new_size : Z) : M renv Z :=
  q <- alloc_node new_size new_size ;;
  if q =? NULL then mret NULL else free_node ptr ;;; mret q.

(** ** Instructions *)

Inductive cobalt_opcode : Set :=
  | OP_CHAR | OP_ANY | OP_CLASS | OP_BOL | OP_EOL | OP_WORD_BOUNDARY
  | OP_JUMP | OP_SPLIT | OP_SAVE | OP_BACKREF | OP_MATCH.

#[export] Instance cobalt_opcode_eq_dec : EqDecision cobalt_opcode.
Proof. solve_decision. Defined.

(** The union as its eight 32-bit words: [u.ch] is the first byte, [u.cls.bitmap]
    all words, [u.jump.target] and [u.split.target1] the first word and
    [u.split.target2] the second. *)
Record cobalt_regex_inst := Inst { opcode : cobalt_opcode; sub_op : Z; flags : Z; u : list Z }.

Definition word (i : cobalt_regex_inst) (k : nat) : Z := default 0 (u i !! k).
Definition u_ch (i : cobalt_regex_inst) : Z := Z.land (word i 0) 255.
Definition u_target (i : cobalt_regex_inst) : Z := word i 0.
Definition u_target1 (i : cobalt_regex_inst) : Z := word i 0.
Definition u_target2 (i : cobalt_regex_inst) : Z := word i 1.

Definition set_word (k : nat) (v : Z) (i : cobalt_regex_inst) : cobalt_regex_inst :=
  Inst (opcode i) (sub_op i) (flags i) (<[k := v]> (u i)).
Definition set_ch (c : Z) (i : cobalt_regex_inst) : cobalt_regex_inst :=
  set_word 0 (Z.lor (Z.ldiff (word i 0) 255) c) i.
Definition set_bitmap (b : list Z) (i : cobalt_regex_inst) : cobalt_regex_inst :=
  Inst (opcode i) (sub_op i) (flags i) b.
Definition set_sub_op (v : Z) (i : cobalt_regex_inst) : cobalt_regex_inst :=
  Inst (opcode i) v (flags i) (u i).
Definition set_flag (i : cobalt_regex_inst) : cobalt_regex_inst :=
  Inst (opcode i) (sub_op i) (Z.lor (flags i) 1) (u i).

(** An instruction after [memset]. *)
Definition zero_inst (op : cobalt_opcode) : cobalt_regex_inst := Inst op 0 0 (replicate 8 0).

Record cobalt_regex := Re {
  re_self : Z;
  re_insts : Z;
  code : list cobalt_regex_inst;
  re_capacity : Z;
  capture_count : Z;
  re_flags : Z;
  exact_pc : Z;
  search_pc : Z
}.
Definition inst_count (re : cobalt_regex) : Z := Z.of_nat (length (code re)).

Definition COBALT_REGEX_MAX_CAPTURES : Z := 16.
Definition COBALT_REGEX_CASE_INSENSITIVE : Z := 1.
Definition COBALT_REGEX_DOTALL : Z := 2.
Definition COBALT_REGEX_MULTILINE : Z := 4.
Definition has_flag (flags f : Z) : bool := negb (Z.land flags f =? 0).

Definition sizeof_inst : Z := 36.
Definition sizeof_regex : Z := 56.
Definition sizeof_ast_node : Z := 56.

(** ** Bitmaps of 256 bits *)

Definition zero_bitmap : list Z := replicate 8 0.

Definition bitmap_set (bitmap : list Z) (c : Z) : list Z :=
  alter (λ x, Z.lor x (Z.shiftl 1 (Z.land c 31))) (Z.to_nat (Z.shiftr c 5)) bitmap.

(** One round of the loop of [bitmap_set_range]. *)
Definition set_folded (ci : bool) (bitmap : list Z) (c : Z) : list Z :=
  let bitmap := bitmap_set bitmap c in
  if ci then
    if (97 <=? c) && (c <=? 122) then bitmap_set bitmap (c - 32)
    else if (65 <=? c) && (c <=? 90) then bitmap_set bitmap (c + 32)
    else bitmap
  else bitmap.

Definition bitmap_set_range (bitmap : list Z) (start stop : Z) (ci : bool) : list Z :=
  foldl (set_folded ci) bitmap (seqZ start (stop - start + 1)).

Definition bitmap_set_digit (bitmap : list Z) : list Z := bitmap_set_range bitmap 48 57 false.

Definition bitmap_set_word (bitmap : list Z) : list Z :=
  bitmap_set (bitmap_set_range (bitmap_set_range (bitmap_set_range bitmap
    97 122 false) 65 90 false) 48 57 false) 95.

Definition bitmap_set_space (bitmap : list Z) : list Z :=
  bitmap_set (bitmap_set (bitmap_set (bitmap_set (bitmap_set (bitmap_set bitmap
    32) 9) 13) 10) 11) 12.

(** [bitmap[i] |= ~tmp[i]] for all eight words. *)
Definition bitmap_or_not (bitmap tmp : list Z) : list Z :=
  zip_with (λ x t, Z.lor x (wrap32 (Z.lnot t))) bitmap tmp.

Definition bitmap_set_not_digit (bitmap : list Z) : list Z :=
  bitmap_or_not bitmap (bitmap_set_digit zero_bitmap).
Definition bitmap_set_not_word (bitmap : list Z) : list Z :=
  bitmap_or_not bitmap (bitmap_set_word zero_bitmap).
Definition bitmap_set_not_space (bitmap : list Z) : list Z :=
  bitmap_or_not bitmap (bitmap_set_space zero_bitmap).

(** ** Nodes *)

Definition AST_NULL : Z := UINT32_MAX.

Inductive ast_type : Set :=
  | AST_EMPTY | AST_CHAR | AST_ANY | AST_CLASS | AST_BOL | AST_EOL | AST_WORD_BOUNDARY
  | AST_CONCAT | AST_ALT | AST_QUANT | AST_GROUP | AST_BACKREF.

#[export] Instance ast_type_eq_dec : EqDecision ast_type.
Proof. solve_decision. Defined.

Record ast_node := Ast {
  type : ast_type;
  left : Z;
  right : Z;
  min_reps : Z;
  max_reps : Z;
  greedy : bool;
  negate : bool;
  group_idx : Z;
  ch : Z;
  bitmap : list Z
}.

(** A node after [memset] and with its links set to [AST_NULL]. *)
Definition zero_node (t : ast_type) : ast_node :=
  Ast t AST_NULL AST_NULL 0 0 false false 0 0 zero_bitmap.

(** The first [count] nodes of the array at [nodes]. *)
Record node_pool := Pool { nodes : Z; content : list ast_node; capacity : Z; pool_oom : bool }.
Definition count (p : node_pool) : Z := Z.of_nat (length (content p)).

Record parser := Parser {
  pattern : list Z;
  pos : Z;
  pflags : Z;
  group_count : Z;
  perror : cobalt_error
}.
Definition len (p : parser) : Z := Z.of_nat (length (pattern p)).

(** The first [cg_count] instructions of the array at [insts]. *)
Record codegen := Codegen {
  insts : Z;
  emitted : list cobalt_regex_inst;
  cg_capacity : Z;
  cg_oom : bool
}.
Definition cg_count (g : codegen) : Z := Z.of_nat (length (emitted g)).

Record cstate := CState { prs : parser; pool : node_pool; cg : codegen; env : renv }.

Definition with_prs (s : cstate) (p : parser) : cstate := CState p (pool s) (cg s) (env s).
Definition with_pool (s : cstate) (p : node_pool) : cstate := CState (prs s) p (cg s) (env s).
Definition with_cg (s : cstate) (g : codegen) : cstate := CState (prs s) (pool s) g (env s).
Definition with_env (s : cstate) (e : renv) : cstate := CState (prs s) (pool s) (cg s) e.

Definition get_prs : M cstate parser := λ s, Ret (prs s) s.
Definition put_prs (p : parser) : M cstate unit := λ s, Ret tt (with_prs s p).
Definition get_pool : M cstate node_pool := λ s, Ret (pool s) s.
Definition put_pool (p : node_pool) : M cstate unit := λ s, Ret tt (with_pool s p).
Definition get_cg : M cstate codegen := λ s, Ret (cg s) s.
Definition put_cg (g : codegen) : M cstate unit := λ s, Ret tt (with_cg s g).
Definition on_env {A} (c : M renv A) : M cstate A :=
  λ s, match c (env s) with Ret a e => Ret a (with_env s e) | Fault f => Fault f end.

Definition node_pool_init : M cstate bool :=
  q <- on_env (re_alloc (64 * sizeof_ast_node)) ;;
  if q =? NULL then put_pool (Pool NULL [] 64 true) ;;; mret false
  else put_pool (Pool q [] 64 false) ;;; mret true.

Definition node_pool_destroy : M cstate unit :=
  p <- get_pool ;;
  (if nodes p =? NULL then mret tt else on_env (re_free (nodes p))) ;;;
  put_pool (Pool NULL [] 0 (pool_oom p)).

(** The index is 32 bits wide; a node beyond that range is never read. *)
Definition node_alloc (t : ast_type) : M cstate Z :=
  p <- get_pool ;;
  if pool_oom p then mret AST_NULL
  else
    ok <- (if capacity p <=? count p then
             let max_cap := SIZE_MAX / sizeof_ast_node in
             let new_cap := if max_cap / 2 <? capacity p then max_cap else capacity p * 2 in
             q <- on_env (re_realloc (nodes p) (new_cap * sizeof_ast_node)) ;;
             if q =? NULL then put_pool (Pool (nodes p) (content p) (capacity p) true) ;;; mret false
             else put_pool (Pool q (content p) new_cap (pool_oom p)) ;;; mret true
           else mret true) ;;
    if negb ok then mret AST_NULL
    else
      p <- get_pool ;;
      let idx := wrap32 (count p) in
      if capacity p <=? idx then mfail BadAccess
      else
        put_pool (Pool (nodes p) (<[Z.to_nat idx := zero_node t]> (content p ++ [zero_node t]))
                    (capacity p) (pool_oom p)) ;;;
        mret idx.

(** [pool->nodes[idx]] *)
Definition get_node (idx : Z) : M cstate ast_node :=
  p <- get_pool ;;
  match content p !! Z.to_nat idx with
  | Some n => mret n
  | None => mfail BadAccess
  end.

Definition put_node (idx : Z) (n : ast_node) : M cstate unit :=
  p <- get_pool ;;
  if Z.of_nat (length (content p)) <=? idx then mfail BadAccess
  else put_pool (Pool (nodes p) (<[Z.to_nat idx := n]> (content p)) (capacity p) (pool_oom p)).

(** [idx = node_alloc(...); if (idx != AST_NULL) ...] *)
Definition pool_add (n : ast_node) : M cstate Z :=
  idx <- node_alloc (type n) ;;
  (if idx =? AST_NULL then mret tt else put_node idx n) ;;;
  mret idx.

Definition pool_add_empty : M cstate Z := node_alloc AST_EMPTY.
Definition pool_add_char (c : Z) : M cstate Z :=
  pool_add (Ast AST_CHAR AST_NULL AST_NULL 0 0 false false 0 c zero_bitmap).
Definition pool_add_any : M cstate Z := node_alloc AST_ANY.
Definition pool_add_class (b : list Z) (neg : bool) : M cstate Z :=
  pool_add (Ast AST_CLASS AST_NULL AST_NULL 0 0 false neg 0 0 b).
Definition pool_add_bol : M cstate Z := node_alloc AST_BOL.
Definition pool_add_eol : M cstate Z := node_alloc AST_EOL.
Definition pool_add_boundary (neg : bool) : M cstate Z :=
  pool_add (Ast AST_WORD_BOUNDARY AST_NULL AST_NULL 0 0 false neg 0 0 zero_bitmap).
Definition pool_add_concat (l r : Z) : M cstate Z :=
  pool_add (Ast AST_CONCAT l r 0 0 false false 0 0 zero_bitmap).
Definition pool_add_alt (l r : Z) : M cstate Z :=
  pool_add (Ast AST_ALT l r 0 0 false false 0 0 zero_bitmap).
Definition pool_add_quant (child mn mx : Z) (gr : bool) : M cstate Z :=
  pool_add (Ast AST_QUANT child AST_NULL mn mx gr false 0 0 zero_bitmap).
Definition pool_add_group (child gid : Z) : M cstate Z :=
  pool_add (Ast AST_GROUP child AST_NULL 0 0 false false gid 0 zero_bitmap).
Definition pool_add_backref (gid : Z) : M cstate Z :=
  pool_add (Ast AST_BACKREF AST_NULL AST_NULL 0 0 false false gid 0 zero_bitmap).

(** ** The parser *)

Definition with_pos (p : parser) (n : Z) : parser :=
  Parser (pattern p) n (pflags p) (group_count p) (perror p).
Definition with_group_count (p : parser) (n : Z) : parser :=
  Parser (pattern p) (pos p) (pflags p) n (perror p).
Definition with_perror (p : parser) (e : cobalt_error) : parser :=
  Parser (pattern p) (pos p) (pflags p) (group_count p) e.

Definition byte_at (p : parser) (i : Z) : Z :=
  if i <? len p then default 0 (pattern p !! Z.to_nat i) else 0.

Definition peek : M cstate Z := p <- get_prs ;; mret (byte_at p (pos p)).
Definition peek2 : M cstate Z := p <- get_prs ;; mret (byte_at p (pos p + 1)).
Definition consume : M cstate Z :=
  p <- get_prs ;;
  if pos p <? len p then put_prs (with_pos p (pos p + 1)) ;;; mret (byte_at p (pos p))
  else mret 0.

(** [p->last_error = COBALT_ERROR_INVALID_ARGUMENT] *)
Definition syntax_error : M cstate unit :=
  p <- get_prs ;; put_prs (with_perror p COBALT_ERROR_INVALID_ARGUMENT).

(** ... followed by [return AST_NULL] *)
Definition reject : M cstate Z := syntax_error ;;; mret AST_NULL.

Definition isdigit (c : Z) : bool := (48 <=? c) && (c <=? 57).

(** The bitmap after the escape [\esc] in a class. *)
Definition class_escape (is_ci : bool) (b : list Z) (esc : Z) : list Z :=
  if esc =? 100 then bitmap_set_digit b
  else if esc =? 68 then bitmap_set_not_digit b
  else if esc =? 119 then bitmap_set_word b
  else if esc =? 87 then bitmap_set_not_word b
  else if esc =? 115 then bitmap_set_space b
  else if esc =? 83 then bitmap_set_not_space b
  else if esc =? 110 then bitmap_set_range b 10 10 is_ci
  else if esc =? 114 then bitmap_set_range b 13 13 is_ci
  else if esc =? 116 then bitmap_set_range b 9 9 is_ci
  else if esc =? 118 then bitmap_set_range b 11 11 is_ci
  else if esc =? 102 then bitmap_set_range b 12 12 is_ci
  else if esc =? 48 then bitmap_set_range b 0 0 is_ci
  else bitmap_set_range b esc esc is_ci.

(** The right end of a range; [None] after a trailing backslash. *)
Definition range_end : M cstate (option Z) :=
  c2 <- consume ;;
  if c2 =? 92 then
    k <- peek ;;
    if k =? 0 then mret None else c2 <- consume ;; mret (Some c2)
  else mret (Some c2).

(** One round of the loop over the members of a class; [inr None] is
    [return AST_NULL]. *)
Definition class_body (is_ci : bool) (b : list Z) : M cstate (list Z + option (list Z)) :=
  k <- peek ;;
  if (k =? 93) || (k =? 0) then mret (inr (Some b))
  else
    c <- consume ;;
    if c =? 92 then
      k <- peek ;;
      if k =? 0 then syntax_error ;;; mret (inr None)
      else esc <- consume ;; mret (inl (class_escape is_ci b esc))
    else
      k <- peek ;;
      k2 <- peek2 ;;
      if (k =? 45) && negb (k2 =? 93) && negb (k2 =? 0) then
        consume ;;;
        c2 <- range_end ;;
        match c2 with
        | None => syntax_error ;;; mret (inr None)
        | Some c2 =>
            if c2 <? c then syntax_error ;;; mret (inr None)
            else mret (inl (bitmap_set_range b c c2 is_ci))
        end
      else mret (inl (bitmap_set_range b c c is_ci)).

(** Loops of the parser consume a character in each round. *)
Definition parse_fuel : M cstate nat := p <- get_prs ;; mret (S (length (pattern p))).

Definition parse_class : M cstate Z :=
  k <- peek ;;
  neg <- (if k =? 94 then consume ;;; mret true else mret false) ;;
  p <- get_prs ;;
  let is_ci := has_flag (pflags p) COBALT_REGEX_CASE_INSENSITIVE in
  k <- peek ;;
  b <- (if k =? 93 then c <- consume ;; mret (bitmap_set_range zero_bitmap c c is_ci)
        else mret zero_bitmap) ;;
  fuel <- parse_fuel ;;
  r <- loop fuel (class_body is_ci) b ;;
  match r with
  | None => mret AST_NULL
  | Some b =>
      k <- peek ;;
      if negb (k =? 93) then reject
      else consume ;;; pool_add_class b neg
  end.

(** The digits of a repetition count; [None] above 128. *)
Definition count_body (v : Z) : M cstate (Z + option Z) :=
  k <- peek ;;
  if isdigit k then
    c <- consume ;;
    let v := v * 10 + (c - 48) in
    mret (if 128 <? v then inr None else inl v)
  else mret (inr (Some v)).

Definition read_count : M cstate (option Z) := fuel <- parse_fuel ;; loop fuel count_body 0.

(** What follows the first count: the second count, [-1] when there is none. *)
Definition read_max (min_val : Z) : M cstate (option Z) :=
  k <- peek ;;
  if k =? 44 then
    consume ;;;
    k <- peek ;;
    if k =? 125 then mret (Some (-1))
    else if isdigit k then
      m <- read_count ;;
      mret (match m with Some max_val => if max_val <? min_val then None else Some max_val | None => None end)
    else mret None
  else mret (Some min_val).

(** The bounds that [out_min] and [out_max] are set to, or [None] for [false]. *)
Definition parse_quant_braces : M cstate (option (Z * Z)) :=
  p0 <- get_prs ;;
  consume ;;;
  k <- peek ;;
  if negb (isdigit k) then
    p <- get_prs ;; put_prs (with_pos p (pos p0)) ;;; mret None
  else
    m <- read_count ;;
    match m with
    | None => mret None
    | Some min_val =>
        m <- read_max min_val ;;
        match m with
        | None => mret None
        | Some max_val =>
            k <- peek ;;
            if negb (k =? 125) then mret None
            else consume ;;; mret (Some (min_val, max_val))
        end
    end.

(** The atom for [\esc] once [esc] has been consumed. *)
Definition escape_atom (esc : Z) : M cstate Z :=
  if (49 <=? esc) && (esc <=? 57) then
    p <- get_prs ;;
    let gid := esc - 48 in
    k <- peek ;;
    gid <- (if isdigit k then
              let next_gid := gid * 10 + (k - 48) in
              if next_gid <=? group_count p then consume ;;; mret next_gid else mret gid
            else mret gid) ;;
    if group_count p <? gid then reject else pool_add_backref gid
  else if esc =? 98 then pool_add_boundary false
  else if esc =? 66 then pool_add_boundary true
  else if (esc =? 100) || (esc =? 68) then pool_add_class (bitmap_set_digit zero_bitmap) (esc =? 68)
  else if (esc =? 119) || (esc =? 87) then pool_add_class (bitmap_set_word zero_bitmap) (esc =? 87)
  else if (esc =? 115) || (esc =? 83) then pool_add_class (bitmap_set_space zero_bitmap) (esc =? 83)
  else if esc =? 110 then pool_add_char 10
  else if esc =? 114 then pool_add_char 13
  else if esc =? 116 then pool_add_char 9
  else if esc =? 118 then pool_add_char 11
  else if esc =? 102 then pool_add_char 12
  else if esc =? 48 then pool_add_char 0
  else pool_add_char esc.

Section recursion.
Variable parse_expr : M cstate Z.

(** The body of a group and its closing parenthesis; [None] is an error. *)
Definition group_body : M cstate (option Z) :=
  body <- parse_expr ;;
  p <- get_prs ;;
  k <- peek ;;
  if negb (bool_decide (perror p = COBALT_SUCCESS)) || negb (k =? 41) then
    syntax_error ;;; mret None
  else consume ;;; mret (Some body).

Definition parse_group : M cstate Z :=
  k <- peek ;;
  k2 <- peek2 ;;
  if (k =? 63) && (k2 =? 58) then
    consume ;;; consume ;;;
    body <- group_body ;;
    match body with None => mret AST_NULL | Some body => mret body end
  else
    p <- get_prs ;;
    put_prs (with_group_count p (group_count p + 1)) ;;;
    p <- get_prs ;;
    if COBALT_REGEX_MAX_CAPTURES <=? group_count p then reject
    else
      body <- group_body ;;
      match body with None => mret AST_NULL | Some body => pool_add_group body (group_count p) end.

Definition parse_atom : M cstate Z :=
  c <- peek ;;
  if c =? 0 then mret AST_NULL
  else if (c =? 42) || (c =? 43) || (c =? 63) || (c =? 123) then reject
  else if c =? 94 then consume ;;; pool_add_bol
  else if c =? 36 then consume ;;; pool_add_eol
  else if c =? 46 then consume ;;; pool_add_any
  else if c =? 40 then consume ;;; parse_group
  else if c =? 41 then reject
  else if c =? 91 then consume ;;; parse_class
  else if c =? 92 then
    consume ;;;
    k <- peek ;;
    if k =? 0 then reject
    else esc <- consume ;; escape_atom esc
  else consume ;;; pool_add_char c.

(** The bounds of the quantifier [c]. *)
Definition quant_bounds (c : Z) : M cstate (option (Z * Z)) :=
  if c =? 42 then consume ;;; mret (Some (0, -1))
  else if c =? 43 then consume ;;; mret (Some (1, -1))
  else if c =? 63 then consume ;;; mret (Some (0, 1))
  else parse_quant_braces.

Definition parse_factor : M cstate Z :=
  atom <- parse_atom ;;
  if atom =? AST_NULL then mret AST_NULL
  else
    c <- peek ;;
    if (c =? 42) || (c =? 43) || (c =? 63) || (c =? 123) then
      b <- quant_bounds c ;;
      match b with
      | None => reject
      | Some (mn, mx) =>
          k <- peek ;;
          gr <- (if k =? 63 then consume ;;; mret false else mret true) ;;
          pool_add_quant atom mn mx gr
      end
    else mret atom.

(** One round of the loop of [parse_term]; [inr (inl r)] is [return r]. *)
Definition term_body (root : Z) : M cstate (Z + (Z + Z)) :=
  k <- peek ;;
  if (k =? 0) || (k =? 124) || (k =? 41) then mret (inr (inr root))
  else
    factor <- parse_factor ;;
    if factor =? AST_NULL then
      p <- get_prs ;;
      mret (if negb (bool_decide (perror p = COBALT_SUCCESS)) then inr (inl AST_NULL) else inr (inr root))
    else if root =? AST_NULL then mret (inl factor)
    else r <- pool_add_concat root factor ;; mret (inl r).

Definition parse_term : M cstate Z :=
  fuel <- parse_fuel ;;
  r <- loop fuel term_body AST_NULL ;;
  match r with
  | inl r => mret r
  | inr root => if root =? AST_NULL then pool_add_empty else mret root
  end.

(** [left == AST_NULL && p->last_error != COBALT_SUCCESS] *)
Definition term_failed (idx : Z) : M cstate bool :=
  p <- get_prs ;; mret ((idx =? AST_NULL) && negb (bool_decide (perror p = COBALT_SUCCESS))).

Definition alt_body (l : Z) : M cstate (Z + Z) :=
  k <- peek ;;
  if k =? 124 then
    consume ;;;
    r <- parse_term ;;
    failed <- term_failed r ;;
    if failed : bool then mret (inr AST_NULL)
    else a <- pool_add_alt l r ;; mret (inl a)
  else mret (inr l).

Definition parse_alternatives : M cstate Z :=
  l <- parse_term ;;
  failed <- term_failed l ;;
  if failed : bool then mret AST_NULL
  else fuel <- parse_fuel ;; loop fuel alt_body l.
End recursion.

(** [fuel] bounds the nesting of groups. *)
Fixpoint parse_expr (fuel : nat) : M cstate Z :=
  match fuel with
  | O => mfail OutOfFuel
  | S fuel => parse_alternatives (parse_expr fuel)
  end.

(** ** The code generator *)

Definition emit_inst (op : cobalt_opcode) : M cstate Z :=
  g <- get_cg ;;
  if cg_oom g then mret 0
  else
    ok <- (if cg_capacity g <=? cg_count g then
             let max_cap := SIZE_MAX / sizeof_inst in
             let new_cap := if cg_capacity g =? 0 then 32
                            else if max_cap / 2 <? cg_capacity g then max_cap
                            else cg_capacity g * 2 in
             q <- on_env (re_realloc (insts g) (new_cap * sizeof_inst)) ;;
             if q =? NULL then put_cg (Codegen (insts g) (emitted g) (cg_capacity g) true) ;;; mret false
             else put_cg (Codegen q (emitted g) new_cap (cg_oom g)) ;;; mret true
           else mret true) ;;
    if negb ok then mret 0
    else
      g <- get_cg ;;
      let idx := wrap32 (cg_count g) in
      if cg_capacity g <=? idx then mfail BadAccess
      else
        put_cg (Codegen (insts g) (<[Z.to_nat idx := zero_inst op]> (emitted g ++ [zero_inst op]))
                  (cg_capacity g) (cg_oom g)) ;;;
        mret idx.

(** An assignment to a field of [cg->insts[pc]]. *)
Definition set_inst (pc : Z) (f : cobalt_regex_inst → cobalt_regex_inst) : M cstate unit :=
  g <- get_cg ;;
  if insts g =? NULL then mfail NullDeref
  else
    match emitted g !! Z.to_nat pc with
    | None => mfail BadAccess
    | Some i => put_cg (Codegen (insts g) (<[Z.to_nat pc := f i]> (emitted g)) (cg_capacity g) (cg_oom g))
    end.

(** [(uint32_t)cg->count] *)
Definition here : M cstate Z := g <- get_cg ;; mret (wrap32 (cg_count g)).

Definition flag_if (b : bool) (pc : Z) : M cstate unit :=
  if b then set_inst pc set_flag else mret tt.

(** The two targets of a split around [body], by preference. *)
Definition set_split (gr : bool) (split_pc body_pc end_pc : Z) : M cstate unit :=
  set_inst split_pc (set_word 0 (if gr then body_pc else end_pc)) ;;;
  set_inst split_pc (set_word 1 (if gr then end_pc else body_pc)).

Section compile.
Variable compile_child : Z → M cstate unit.

Definition compile_alt (node : ast_node) : M cstate unit :=
  split_pc <- emit_inst OP_SPLIT ;;
  body_a <- here ;;
  compile_child (left node) ;;;
  jump_pc <- emit_inst OP_JUMP ;;
  body_b <- here ;;
  compile_child (right node) ;;;
  end_pc <- here ;;
  set_inst split_pc (set_word 0 body_a) ;;;
  set_inst split_pc (set_word 1 body_b) ;;;
  set_inst jump_pc (set_word 0 end_pc).

Definition compile_optional (child : Z) (gr : bool) : M cstate unit :=
  split_pc <- emit_inst OP_SPLIT ;;
  body_pc <- here ;;
  compile_child child ;;;
  end_pc <- here ;;
  set_split gr split_pc body_pc end_pc.

Definition compile_star (child : Z) (gr : bool) : M cstate unit :=
  start_pc <- here ;;
  split_pc <- emit_inst OP_SPLIT ;;
  body_pc <- here ;;
  compile_child child ;;;
  jump_pc <- emit_inst OP_JUMP ;;
  set_inst jump_pc (set_word 0 start_pc) ;;;
  end_pc <- here ;;
  set_split gr split_pc body_pc end_pc.

Definition compile_plus (child : Z) (gr : bool) : M cstate unit :=
  start_pc <- here ;;
  compile_child child ;;;
  split_pc <- emit_inst OP_SPLIT ;;
  end_pc <- here ;;
  set_split gr split_pc start_pc end_pc.

(** The first loop of a counted repetition. *)
Fixpoint compile_copies (child : Z) (n : nat) : M cstate unit :=
  match n with
  | O => mret tt
  | S n => compile_child child ;;; compile_copies child n
  end.

(** The optional copies, from the [i]-th on, in the array [split_pcs[128]]. *)
Fixpoint compile_options (child : Z) (gr : bool) (i : Z) (n : nat) : M cstate (list Z) :=
  match n with
  | O => mret []
  | S n =>
      split_pc <- emit_inst OP_SPLIT ;;
      if 128 <=? i then mfail BadAccess
      else
        body_pc <- here ;;
        compile_child child ;;;
        set_inst split_pc (set_word (if gr then 0 else 1) body_pc) ;;;
        rest <- compile_options child gr (i + 1) n ;;
        mret (split_pc :: rest)
  end.

Fixpoint close_options (gr : bool) (split_pcs : list Z) (end_pc : Z) : M cstate unit :=
  match split_pcs with
  | [] => mret tt
  | pc :: pcs => set_inst pc (set_word (if gr then 1 else 0) end_pc) ;;; close_options gr pcs end_pc
  end.

Definition compile_quant (child min_r max_r : Z) (gr : bool) : M cstate unit :=
  if (min_r =? 0) && (max_r =? 1) then compile_optional child gr
  else if (min_r =? 0) && (max_r =? -1) then compile_star child gr
  else if (min_r =? 1) && (max_r =? -1) then compile_plus child gr
  else
    compile_copies child (Z.to_nat min_r) ;;;
    if max_r =? -1 then compile_star child gr
    else if min_r <? max_r then
      split_pcs <- compile_options child gr 0 (Z.to_nat (max_r - min_r)) ;;
      end_pc <- here ;;
      close_options gr split_pcs end_pc
    else mret tt.

(** [flags] are the flags of the pattern. *)
Definition compile_case (flags : Z) (node : ast_node) : M cstate unit :=
  let ci := has_flag flags COBALT_REGEX_CASE_INSENSITIVE in
  match type node with
  | AST_EMPTY => mret tt
  | AST_CHAR => pc <- emit_inst OP_CHAR ;; set_inst pc (set_ch (ch node)) ;;; flag_if ci pc
  | AST_ANY => pc <- emit_inst OP_ANY ;; flag_if (has_flag flags COBALT_REGEX_DOTALL) pc
  | AST_CLASS =>
      pc <- emit_inst OP_CLASS ;;
      set_inst pc (set_sub_op (if negate node then 1 else 0)) ;;;
      set_inst pc (set_bitmap (bitmap node))
  | AST_BOL => emit_inst OP_BOL ;;; mret tt
  | AST_EOL => emit_inst OP_EOL ;;; mret tt
  | AST_WORD_BOUNDARY =>
      pc <- emit_inst OP_WORD_BOUNDARY ;; set_inst pc (set_sub_op (if negate node then 1 else 0))
  | AST_BACKREF =>
      pc <- emit_inst OP_BACKREF ;; set_inst pc (set_sub_op (group_idx node)) ;;; flag_if ci pc
  | AST_GROUP =>
      s1 <- emit_inst OP_SAVE ;;
      set_inst s1 (set_sub_op ((2 * group_idx node) mod 256)) ;;;
      compile_child (left node) ;;;
      s2 <- emit_inst OP_SAVE ;;
      set_inst s2 (set_sub_op ((2 * group_idx node + 1) mod 256))
  | AST_CONCAT => compile_child (left node) ;;; compile_child (right node)
  | AST_ALT => compile_alt node
  | AST_QUANT => compile_quant (left node) (min_reps node) (max_reps node) (greedy node)
  end.
End compile.

(** Children come before their parents in the pool, which bounds the depth. *)
Fixpoint compile_node (fuel : nat) (flags node_idx : Z) : M cstate unit :=
  match fuel with
  | O => mfail OutOfFuel
  | S fuel =>
      g <- get_cg ;;
      if (node_idx =? AST_NULL) || cg_oom g then mret tt
      else node <- get_node node_idx ;; compile_case (compile_node fuel flags) flags node
  end.

Fixpoint ast_is_anchored_start (fuel : nat) (node_idx : Z) : M cstate bool :=
  match fuel with
  | O => mfail OutOfFuel
  | S fuel =>
      if node_idx =? AST_NULL then mret false
      else
        node <- get_node node_idx ;;
        match type node with
        | AST_BOL => mret true
        | AST_CONCAT | AST_GROUP => ast_is_anchored_start fuel (left node)
        | _ => mret false
        end
  end.

(** ** The public functions *)

(** The search prefix; the result is [exact_pc]. *)
Definition emit_prefix : M cstate Z :=
  s_pc <- emit_inst OP_SPLIT ;;
  any_pc <- emit_inst OP_ANY ;;
  set_inst any_pc set_flag ;;;
  j_pc <- emit_inst OP_JUMP ;;
  set_inst j_pc (set_word 0 0) ;;;
  exact_pc <- here ;;
  set_inst s_pc (set_word 0 exact_pc) ;;;
  set_inst s_pc (set_word 1 any_pc) ;;;
  mret exact_pc.

(** [cobalt_error_set(NULL, e); return NULL] *)
Definition compile_error (e : cobalt_error) : M cstate (option cobalt_regex) :=
  on_env (cobalt_error_set None e) ;;; mret None.

(** The code for the tree at [root]. *)
Definition emit_program (flags root : Z) (anchored : bool) : M cstate Z :=
  exact_pc <- (if anchored then mret 0 else emit_prefix) ;;
  save0 <- emit_inst OP_SAVE ;;
  set_inst save0 (set_sub_op 0) ;;;
  pl <- get_pool ;;
  compile_node (S (length (content pl))) flags root ;;;
  save1 <- emit_inst OP_SAVE ;;
  set_inst save1 (set_sub_op 1) ;;;
  emit_inst OP_MATCH ;;;
  mret exact_pc.

(** The regex object takes over the instructions. *)
Definition finish (flags exact_pc : Z) : M cstate (option cobalt_regex) :=
  g <- get_cg ;;
  if cg_oom g then
    (if insts g =? NULL then mret tt else on_env (re_free (insts g))) ;;;
    compile_error COBALT_ERROR_OUT_OF_MEMORY
  else
    re <- on_env (re_alloc sizeof_regex) ;;
    if re =? NULL then
      (if insts g =? NULL then mret tt else on_env (re_free (insts g))) ;;;
      compile_error COBALT_ERROR_OUT_OF_MEMORY
    else
      p <- get_prs ;;
      mret (Some (Re re (insts g) (emitted g) (cg_capacity g) (group_count p) flags exact_pc 0)).

Definition compile_body (flags : Z) : M cstate (option cobalt_regex) :=
  ok <- node_pool_init ;;
  if negb ok then compile_error COBALT_ERROR_OUT_OF_MEMORY
  else
    p <- get_prs ;;
    root <- parse_expr (S (length (pattern p))) ;;
    p <- get_prs ;;
    pl <- get_pool ;;
    if negb (bool_decide (perror p = COBALT_SUCCESS)) || (pos p <? len p) || pool_oom pl then
      node_pool_destroy ;;;
      compile_error (if pool_oom pl then COBALT_ERROR_OUT_OF_MEMORY else COBALT_ERROR_INVALID_ARGUMENT)
    else
      a <- ast_is_anchored_start (S (length (content pl))) root ;;
      exact_pc <- emit_program flags root (a && negb (has_flag flags COBALT_REGEX_MULTILINE)) ;;
      node_pool_destroy ;;;
      finish flags exact_pc.

Definition cobalt_regex_compile_with_alloc (pat : option (list Z)) (flags : Z)
    : M renv (option cobalt_regex) :=
  match pat with
  | None => cobalt_error_set None COBALT_ERROR_INVALID_ARGUMENT ;;; mret None
  | Some pat => λ e,
      match compile_body flags (CState (Parser pat 0 flags 0 COBALT_SUCCESS)
              (Pool NULL [] 0 false) (Codegen NULL [] 0 false) e) with
      | Ret r s => Ret r (env s)
      | Fault f => Fault f
      end
  end.

Definition cobalt_regex_compile := cobalt_regex_compile_with_alloc.

Definition cobalt_regex_destroy (re : option cobalt_regex) : M renv unit :=
  match re with
  | None => mret tt
  | Some re =>
      (if re_insts re =? NULL then mret tt else re_free (re_insts re)) ;;;
      re_free (re_self re)
  end.

Definition cobalt_regex_capture_count (re : option cobalt_regex) : Z :=
  match re with Some re => capture_count re | None => 0 end.
End Regex.
