(* ===== verification/RegexVM.v ===== *)
(** * The Pike machine of src/src/algorithm/regex.c

    Threads are copied by value.  The two thread lists, the generation of every
    instruction, the step counter and the best match so far are the state [vm];
    the program, the text and the kind of match are fixed during a run. *)
From S2P Require Import Prelude World Regex.

Module RegexVM.
Import Regex.

Record pike_thread := Thread {
  pc : Z;
  backref_gid : Z;
  backref_offset : Z;
  backref_remaining : Z;
  slots : list Z
}.

(** [(size_t)-1] *)
Definition UNSET : Z := SIZE_MAX.
Definition num_slots : nat := 32.

Definition set_pc (t : pike_thread) (p : Z) : pike_thread :=
  Thread p (backref_gid t) (backref_offset t) (backref_remaining t) (slots t).
Definition set_slot (t : pike_thread) (k v : Z) : pike_thread :=
  Thread (pc t) (backref_gid t) (backref_offset t) (backref_remaining t) (<[Z.to_nat k := v]> (slots t)).
Definition set_backref (t : pike_thread) (gid offset remaining : Z) : pike_thread :=
  Thread (pc t) gid offset remaining (slots t).

Definition next_pc (t : pike_thread) : pike_thread := set_pc t (wrap32 (pc t + 1)).

Record vm := VM {
  clist : list pike_thread;
  nlist : list pike_thread;
  visited_gen : list Z;
  current_step : Z;
  matched : bool;
  best_match : pike_thread
}.

Definition with_clist (s : vm) (l : list pike_thread) : vm :=
  VM l (nlist s) (visited_gen s) (current_step s) (matched s) (best_match s).
Definition with_nlist (s : vm) (l : list pike_thread) : vm :=
  VM (clist s) l (visited_gen s) (current_step s) (matched s) (best_match s).
Definition with_visited (s : vm) (v : list Z) : vm :=
  VM (clist s) (nlist s) v (current_step s) (matched s) (best_match s).
Definition with_best (s : vm) (t : pike_thread) : vm :=
  VM (clist s) (nlist s) (visited_gen s) (current_step s) true t.

Definition tolower (c : Z) : Z := if (65 <=? c) && (c <=? 90) then c + 32 else c.
Definition isalnum (c : Z) : bool :=
  isdigit c || ((65 <=? c) && (c <=? 90)) || ((97 <=? c) && (c <=? 122)).
Definition is_word (c : Z) : bool := isalnum c || (c =? 95).

Section machine.
Variable re : cobalt_regex.
Variable text : list Z.
Variable require_full_match : bool.

Definition text_len : Z := Z.of_nat (length text).
Definition text_at (i : Z) : M vm Z :=
  match text !! Z.to_nat i with Some c => mret c | None => mfail BadAccess end.
Definition get_slot (t : pike_thread) (k : Z) : M vm Z :=
  match slots t !! Z.to_nat k with Some v => mret v | None => mfail BadAccess end.

(** [if (list->count < list->capacity) list->threads[list->count++] = t]; [next]
    tells which of the two lists. *)
Definition push_thread (next : bool) (t : pike_thread) : M vm unit :=
  s <- mget ;;
  if next : bool then
    if Z.of_nat (length (nlist s)) <? inst_count re then mput (with_nlist s (nlist s ++ [t])) else mret tt
  else
    if Z.of_nat (length (clist s)) <? inst_count re then mput (with_clist s (clist s ++ [t])) else mret tt.

Definition multiline : bool := has_flag (re_flags re) COBALT_REGEX_MULTILINE.

Definition check_bol (pos : Z) : M vm bool :=
  if pos =? 0 then mret true
  else if multiline then c <- text_at (pos - 1) ;; mret (c =? 10)
  else mret false.

Definition check_eol (pos : Z) : M vm bool :=
  if pos =? text_len then mret true
  else if multiline && (pos <? text_len) then c <- text_at pos ;; mret (c =? 10)
  else mret false.

Definition check_boundary (pos : Z) : M vm bool :=
  before_is_word <- (if 0 <? pos then c <- text_at (pos - 1) ;; mret (is_word c) else mret false) ;;
  after_is_word <- (if pos <? text_len then c <- text_at pos ;; mret (is_word c) else mret false) ;;
  mret (xorb before_is_word after_is_word).

(** [OP_MATCH] *)
Definition record_match (t : pike_thread) (pos : Z) : M vm unit :=
  s <- mget ;;
  if require_full_match then
    s0 <- get_slot t 0 ;;
    s1 <- get_slot t 1 ;;
    if (pos =? text_len) && (s0 =? 0) && (s1 =? text_len) then mput (with_best s t) else mret tt
  else
    s0 <- get_slot t 0 ;;
    b0 <- get_slot (best_match s) 0 ;;
    if negb (matched s) || (s0 =? b0) then mput (with_best s t) else mret tt.

(** A call marks an instruction before it recurses, so [fuel] is never used up
    when it exceeds the number of instructions. *)
Fixpoint add_thread (fuel : nat) (next : bool) (t : pike_thread) (pos : Z) : M vm unit :=
  match fuel with
  | O => mfail OutOfFuel
  | S fuel =>
      if inst_count re <=? pc t then mret tt
      else
        s <- mget ;;
        match visited_gen s !! Z.to_nat (pc t), code re !! Z.to_nat (pc t) with
        | Some gen, Some inst =>
            if gen =? current_step s then mret tt
            else
              mput (with_visited s (<[Z.to_nat (pc t) := current_step s]> (visited_gen s))) ;;;
              match opcode inst with
              | OP_JUMP => add_thread fuel next (set_pc t (u_target inst)) pos
              | OP_SPLIT =>
                  add_thread fuel next (set_pc t (u_target1 inst)) pos ;;;
                  add_thread fuel next (set_pc t (u_target2 inst)) pos
              | OP_SAVE =>
                  let t := if sub_op inst <? 2 * COBALT_REGEX_MAX_CAPTURES
                           then set_slot t (sub_op inst) pos else t in
                  add_thread fuel next (next_pc t) pos
              | OP_BOL =>
                  at_bol <- check_bol pos ;;
                  if at_bol : bool then add_thread fuel next (next_pc t) pos else mret tt
              | OP_EOL =>
                  at_eol <- check_eol pos ;;
                  if at_eol : bool then add_thread fuel next (next_pc t) pos else mret tt
              | OP_WORD_BOUNDARY =>
                  is_boundary <- check_boundary pos ;;
                  if xorb is_boundary (negb (sub_op inst =? 0))
                  then add_thread fuel next (next_pc t) pos else mret tt
              | OP_MATCH => record_match t pos
              | OP_CHAR | OP_ANY | OP_CLASS | OP_BACKREF => push_thread next t
              end
        | _, _ => mfail BadAccess
        end
  end.

Definition fuel_for : nat := S (length (code re)).

Definition same_char (inst : cobalt_regex_inst) (c expected : Z) : bool :=
  if negb (Z.land (flags inst) 1 =? 0) then tolower c =? tolower expected else c =? expected.

(** A thread in the middle of a backreference. *)
Definition continue_backref (inst : cobalt_regex_inst) (t : pike_thread) (c pos : Z) : M vm unit :=
  start <- get_slot t (2 * backref_gid t) ;;
  char_matched <- (if negb (start =? UNSET) && (wrap64 (start + backref_offset t) <? text_len)
                   then expected <- text_at (wrap64 (start + backref_offset t)) ;;
                        mret (same_char inst c expected)
                   else mret false) ;;
  if char_matched : bool then
    let t := set_backref t (backref_gid t) (backref_offset t + 1) (backref_remaining t - 1) in
    if backref_remaining t =? 0 then add_thread fuel_for true (next_pc t) (pos + 1)
    else push_thread true t
  else mret tt.

(** [OP_BACKREF] *)
Definition start_backref (inst : cobalt_regex_inst) (t : pike_thread) (c pos : Z) : M vm unit :=
  let gid := sub_op inst in
  start <- get_slot t (2 * gid) ;;
  stop <- get_slot t (2 * gid + 1) ;;
  if negb (start =? UNSET) && negb (stop =? UNSET) && (start <=? stop) then
    let ref_len := stop - start in
    if ref_len =? 0 then add_thread fuel_for false (next_pc t) pos
    else
      expected <- text_at start ;;
      if same_char inst c expected then
        if ref_len =? 1 then add_thread fuel_for true (next_pc t) (pos + 1)
        else push_thread true (set_backref t gid 1 (ref_len - 1))
      else mret tt
  else mret tt.

(** Whether an instruction other than a backreference accepts the character. *)
Definition char_matches (inst : cobalt_regex_inst) (c : Z) : bool :=
  match opcode inst with
  | OP_CHAR => same_char inst c (u_ch inst)
  | OP_ANY => if negb (Z.land (flags inst) 1 =? 0) then true else negb (c =? 10)
  | OP_CLASS =>
      let in_set := negb (Z.land (word inst (Z.to_nat (Z.shiftr c 5))) (Z.shiftl 1 (Z.land c 31)) =? 0) in
      xorb in_set (negb (sub_op inst =? 0))
  | _ => false
  end.

Definition step_thread (t : pike_thread) (c pos : Z) : M vm unit :=
  match code re !! Z.to_nat (pc t) with
  | None => mfail BadAccess
  | Some inst =>
      if 0 <? backref_remaining t then continue_backref inst t c pos
      else
        match opcode inst with
        | OP_BACKREF => start_backref inst t c pos
        | _ => if char_matches inst c then add_thread fuel_for true (next_pc t) (pos + 1) else mret tt
        end
  end.

(** One round of the loop over [clist], which may grow meanwhile. *)
Definition clist_body (c pos : Z) (i : nat) : M vm (nat + unit) :=
  s <- mget ;;
  match clist s !! i with
  | None => mret (inr tt)
  | Some t => step_thread t c pos ;;; mret (inl (S i))
  end.

(** No thread can extend the match. *)
Definition cannot_extend : M vm bool :=
  s <- mget ;;
  if matched s && negb require_full_match then
    mret (negb (existsb (λ t, bool_decide (slots t !! 0%nat = slots (best_match s) !! 0%nat)) (clist s)))
  else mret false.

(** The next generation; the generations are cleared when the counter wraps. *)
Definition next_step (s : vm) : vm :=
  let step := wrap32 (current_step s + 1) in
  if step =? 0 then VM (clist s) [] (replicate (length (code re)) 0) 1 (matched s) (best_match s)
  else VM (clist s) [] (visited_gen s) step (matched s) (best_match s).

(** One round of the loop over the positions. *)
Definition pos_body (pos : Z) : M vm (Z + unit) :=
  if text_len <? pos then mret (inr tt)
  else
    s <- mget ;;
    match clist s with
    | [] => mret (inr tt)
    | _ =>
        stop <- cannot_extend ;;
        if stop || (pos =? text_len) then mret (inr tt)
        else
          c <- text_at pos ;;
          s <- mget ;;
          mput (next_step s) ;;;
          loop fuel_for (clist_body c pos) 0%nat ;;;
          s <- mget ;;
          mput (with_nlist (with_clist s (nlist s)) []) ;;;
          mret (inl (pos + 1))
    end.

Definition initial_thread (start_pc : Z) : pike_thread :=
  Thread start_pc 0 0 0 (replicate num_slots UNSET).

Definition zero_thread : pike_thread := Thread 0 0 0 0 (replicate num_slots 0).

Definition vm_init : vm := VM [] [] (replicate (length (code re)) 0) 1 false zero_thread.

Definition vm_main (start_pc : Z) : M vm unit :=
  add_thread fuel_for false (initial_thread start_pc) 0 ;;;
  loop (length text + 2) pos_body 0.
End machine.

Record cobalt_regex_capture := Capture { cap_start : Z; cap_end : Z; cap_length : Z }.

(** [captures[k]] *)
Definition capture_of (t : pike_thread) (k : Z) : cobalt_regex_capture :=
  match slots t !! Z.to_nat (2 * k), slots t !! Z.to_nat (2 * k + 1) with
  | Some s, Some e =>
      if (k <? COBALT_REGEX_MAX_CAPTURES) && negb (s =? UNSET) && negb (e =? UNSET) && (s <=? e)
      then Capture s e (e - s) else Capture UNSET UNSET 0
  | _, _ => Capture UNSET UNSET 0
  end.

Definition COBALT_REGEX_STACK_THRESHOLD : Z := 64.
Definition sizeof_pike_thread : Z := 280.

(** The returned value and the captures that were written; [captures] tells
    whether the caller passed an array. *)
Definition run_vm (re : option cobalt_regex) (text : option (list Z)) (captures : bool) (max_captures : Z)
    (start_pc : Z) (require_full_match : bool) : M renv (Z * list cobalt_regex_capture) :=
  match re, text with
  | Some re, Some text =>
      if inst_count re =? 0 then mret (0, [])
      else
        let m := inst_count re in
        heap_buf <- (if COBALT_REGEX_STACK_THRESHOLD <? m
                     then re_alloc (wrap64 (2 * m * sizeof_pike_thread + m * 4)) else mret NULL) ;;
        if (COBALT_REGEX_STACK_THRESHOLD <? m) && (heap_buf =? NULL) then
          cobalt_error_set None COBALT_ERROR_OUT_OF_MEMORY ;;; mret (-1, [])
        else
          match vm_main re text require_full_match start_pc (vm_init re) with
          | Fault f => mfail f
          | Ret _ s =>
              (if heap_buf =? NULL then mret tt else re_free heap_buf) ;;;
              mret (if matched s
                    then (1, if captures then capture_of (best_match s) <$> seqZ 0 max_captures else [])
                    else (0, []))
          end
  | _, _ => cobalt_error_set None COBALT_ERROR_INVALID_ARGUMENT ;;; mret (-1, [])
  end.

Definition cobalt_regex_search (re : option cobalt_regex) (text : option (list Z)) (captures : bool)
    (max_captures : Z) : M renv (Z * list cobalt_regex_capture) :=
  run_vm re text captures max_captures (match re with Some re => search_pc re | None => 0 end) false.

Definition cobalt_regex_match_exact (re : option cobalt_regex) (text : option (list Z)) (captures : bool)
    (max_captures : Z) : M renv (Z * list cobalt_regex_capture) :=
  run_vm re text captures max_captures (match re with Some re => exact_pc re | None => 0 end) true.

Definition cobalt_regex_test (pat text : option (list Z)) : M renv Z :=
  match pat, text with
  | Some _, Some _ =>
      re <- cobalt_regex_compile pat 0 ;;
      match re with
      | None => mret (-1)
      | Some _ =>
          res <- cobalt_regex_search re text false 0 ;;
          cobalt_regex_destroy re ;;;
          mret res.1
      end
  | _, _ => cobalt_error_set None COBALT_ERROR_INVALID_ARGUMENT ;;; mret (-1)
  end.
End RegexVM.
