(* ===== verification/RegexSem.v ===== *)
(** * Regular expressions, what they match, and the programs they compile to

    [matches r] relates a position in the text and the capture slots before and
    after a match of [r].  [gen r a] is the code for [r] at address [a]; [nstep]
    is the nondeterministic machine that runs it one instruction at a time.  The
    code for [r] goes from its first address to the one behind it exactly by the
    matches of [r]. *)
From stdpp Require Import relations.
From S2P Require Import Prelude World Regex RegexVM.

Module RegexSem.
Import Regex RegexVM.

(** ** Abstract syntax *)

Inductive regex : Set :=
  | Empty
  | Char (c : Z)
  | Any
  | Class (b : list Z) (neg : bool)
  | Bol
  | Eol
  | Boundary (neg : bool)
  | Concat (r1 r2 : regex)
  | Alt (r1 r2 : regex)
  | Quant (r : regex) (mn mx : Z) (gr : bool)
  | Group (r : regex) (gid : Z)
  | Backref (gid : Z).

(** ** Meaning *)

(** A position and the capture slots. *)
Definition mstate : Type := Z * list Z.

Definition save (k : Z) (σ : mstate) : mstate := (σ.1, <[Z.to_nat k := σ.1]> σ.2).

Definition char_eq (ci : bool) (c d : Z) : bool := if ci then tolower c =? tolower d else c =? d.

Definition in_class (b : list Z) (c : Z) : bool :=
  Z.testbit (default 0 (b !! Z.to_nat (c / 32))) (c mod 32).

Section meaning.
Variables (fl : Z) (text : list Z).

Definition ignore_case : bool := has_flag fl COBALT_REGEX_CASE_INSENSITIVE.
Definition dot_all : bool := has_flag fl COBALT_REGEX_DOTALL.
Definition by_line : bool := has_flag fl COBALT_REGEX_MULTILINE.

Definition tx (i : Z) : option Z := text !! Z.to_nat i.

Definition at_bol (pos : Z) : bool :=
  (pos =? 0) || (by_line && bool_decide (tx (pos - 1) = Some 10)).
Definition at_eol (pos : Z) : bool :=
  (pos =? text_len text) || (by_line && bool_decide (tx pos = Some 10)).
Definition word_at (i : Z) : bool := match tx i with Some c => is_word c | None => false end.
Definition at_boundary (pos : Z) : bool := xorb ((0 <? pos) && word_at (pos - 1)) (word_at pos).

Definition one_char (f : Z → bool) (σ σ' : mstate) : Prop :=
  ∃ c, tx σ.1 = Some c ∧ f c = true ∧ σ' = (σ.1 + 1, σ.2).
Definition test (b : Z → bool) (σ σ' : mstate) : Prop := b σ.1 = true ∧ σ' = σ.

(** The text from [σ.1] on repeats what group [gid] captured. *)
Definition same_text (ci : bool) (s p n : Z) : Prop :=
  ∀ i, 0 ≤ i < n → ∃ c d, tx (p + i) = Some c ∧ tx (s + i) = Some d ∧ char_eq ci c d = true.
Definition repeats (ci : bool) (gid : Z) (σ σ' : mstate) : Prop :=
  ∃ s e, σ.2 !! Z.to_nat (2 * gid) = Some s ∧ σ.2 !! Z.to_nat (2 * gid + 1) = Some e ∧
    s ≠ UNSET ∧ e ≠ UNSET ∧ s ≤ e ∧ same_text ci s σ.1 (e - s) ∧ σ' = (σ.1 + (e - s), σ.2).

Definition any_ok (c : Z) : bool := dot_all || negb (c =? 10).

Fixpoint matches (r : regex) : relation mstate :=
  match r with
  | Empty => λ σ σ', σ' = σ
  | Char c => one_char (λ d, char_eq ignore_case d c)
  | Any => one_char any_ok
  | Class b neg => one_char (λ c, xorb (in_class b c) neg)
  | Bol => test at_bol
  | Eol => test at_eol
  | Boundary neg => test (λ p, xorb (at_boundary p) neg)
  | Concat r1 r2 => λ σ σ', ∃ τ, matches r1 σ τ ∧ matches r2 τ σ'
  | Alt r1 r2 => λ σ σ', matches r1 σ σ' ∨ matches r2 σ σ'
  | Quant r mn mx gr => λ σ σ',
      ∃ n : nat, mn ≤ Z.of_nat n ∧ (mx = -1 ∨ Z.of_nat n ≤ mx) ∧ nsteps (matches r) n σ σ'
  | Group r gid => λ σ σ', ∃ τ, matches r (save (2 * gid) σ) τ ∧ σ' = save (2 * gid + 1) τ
  | Backref gid => repeats ignore_case gid
  end.
End meaning.

(** ** Code *)

Definition with_words (op : cobalt_opcode) (so fl x y : Z) : cobalt_regex_inst :=
  Inst op so fl (<[0%nat := x]> (<[1%nat := y]> (replicate 8 0))).
Definition i_char (ci : bool) (c : Z) : cobalt_regex_inst := with_words OP_CHAR 0 (if ci then 1 else 0) c 0.
Definition i_any (all : bool) : cobalt_regex_inst := with_words OP_ANY 0 (if all then 1 else 0) 0 0.
Definition i_class (b : list Z) (neg : bool) : cobalt_regex_inst := Inst OP_CLASS (if neg then 1 else 0) 0 b.
Definition i_test (op : cobalt_opcode) (so : Z) : cobalt_regex_inst := with_words op so 0 0 0.
Definition i_boundary (neg : bool) : cobalt_regex_inst := i_test OP_WORD_BOUNDARY (if neg then 1 else 0).
Definition i_save (k : Z) : cobalt_regex_inst := i_test OP_SAVE k.
Definition i_match : cobalt_regex_inst := i_test OP_MATCH 0.
Definition i_backref (ci : bool) (gid : Z) : cobalt_regex_inst :=
  with_words OP_BACKREF gid (if ci then 1 else 0) 0 0.
Definition i_jump (x : Z) : cobalt_regex_inst := with_words OP_JUMP 0 0 x 0.
Definition i_split (gr : bool) (x y : Z) : cobalt_regex_inst :=
  with_words OP_SPLIT 0 0 (if gr then x else y) (if gr then y else x).

(** The number of instructions for [r]. *)
Fixpoint size (r : regex) : Z :=
  match r with
  | Empty => 0
  | Char _ | Any | Class _ _ | Bol | Eol | Boundary _ | Backref _ => 1
  | Concat r1 r2 => size r1 + size r2
  | Alt r1 r2 => size r1 + size r2 + 2
  | Group r _ => size r + 2
  | Quant r mn mx _ =>
      if (mn =? 0) && (mx =? 1) then size r + 1
      else if (mn =? 0) && (mx =? -1) then size r + 2
      else if (mn =? 1) && (mx =? -1) then size r + 1
      else Z.of_nat (Z.to_nat mn) * size r
           + (if mx =? -1 then size r + 2
              else if mn <? mx then Z.of_nat (Z.to_nat (mx - mn)) * (size r + 1) else 0)
  end.

Section pieces.
(** The code of a part, which takes [k] instructions. *)
Variables (g : Z → list cobalt_regex_inst) (k : Z).

Definition opt_code (gr : bool) (a : Z) : list cobalt_regex_inst :=
  i_split gr (a + 1) (a + 1 + k) :: g (a + 1).
Definition star_code (gr : bool) (a : Z) : list cobalt_regex_inst :=
  i_split gr (a + 1) (a + k + 2) :: g (a + 1) ++ [i_jump a].
Definition plus_code (gr : bool) (a : Z) : list cobalt_regex_inst :=
  g a ++ [i_split gr a (a + k + 1)].
Fixpoint copies_code (n : nat) (a : Z) : list cobalt_regex_inst :=
  match n with O => [] | S n => g a ++ copies_code n (a + k) end.
(** [n] optional copies that all leave to [e]. *)
Fixpoint options_code (gr : bool) (n : nat) (a e : Z) : list cobalt_regex_inst :=
  match n with
  | O => []
  | S n => (i_split gr (a + 1) e :: g (a + 1)) ++ options_code gr n (a + k + 1) e
  end.
End pieces.

Fixpoint gen (fl : Z) (r : regex) (a : Z) : list cobalt_regex_inst :=
  match r with
  | Empty => []
  | Char c => [i_char (ignore_case fl) c]
  | Any => [i_any (dot_all fl)]
  | Class b neg => [i_class b neg]
  | Bol => [i_test OP_BOL 0]
  | Eol => [i_test OP_EOL 0]
  | Boundary neg => [i_boundary neg]
  | Concat r1 r2 => gen fl r1 a ++ gen fl r2 (a + size r1)
  | Alt r1 r2 =>
      (i_split true (a + 1) (a + size r1 + 2) :: gen fl r1 (a + 1)) ++
      i_jump (a + size r1 + 2 + size r2) :: gen fl r2 (a + size r1 + 2)
  | Quant r mn mx gr =>
      if (mn =? 0) && (mx =? 1) then opt_code (gen fl r) (size r) gr a
      else if (mn =? 0) && (mx =? -1) then star_code (gen fl r) (size r) gr a
      else if (mn =? 1) && (mx =? -1) then plus_code (gen fl r) (size r) gr a
      else
        let b := a + Z.of_nat (Z.to_nat mn) * size r in
        copies_code (gen fl r) (size r) (Z.to_nat mn) a ++
        (if mx =? -1 then star_code (gen fl r) (size r) gr b
         else if mn <? mx then
           let n := Z.to_nat (mx - mn) in
           options_code (gen fl r) (size r) gr n b (b + Z.of_nat n * (size r + 1))
         else [])
  | Group r gid =>
      (i_save ((2 * gid) mod 256) :: gen fl r (a + 1)) ++ [i_save ((2 * gid + 1) mod 256)]
  | Backref gid => [i_backref (ignore_case fl) gid]
  end.

(** Groups have numbers that [slots] has room for, repetition counts are those
    the parser accepts. *)
Fixpoint wf (r : regex) : Prop :=
  match r with
  | Char c => 0 ≤ c < 256
  | Class b _ => length b = 8%nat
  | Concat r1 r2 | Alt r1 r2 => wf r1 ∧ wf r2
  | Quant r mn mx _ => wf r ∧ 0 ≤ mn ≤ 128 ∧ (mx = -1 ∨ mn ≤ mx ≤ 128)
  | Group r gid => wf r ∧ 1 ≤ gid < COBALT_REGEX_MAX_CAPTURES
  | Backref gid => 1 ≤ gid < COBALT_REGEX_MAX_CAPTURES
  | _ => True
  end.

(** ** The nondeterministic machine *)

Section machine.
Variables (fl : Z) (text : list Z) (prog : list cobalt_regex_inst).

Definition moves (i : cobalt_regex_inst) (pc : Z) (σ : mstate) (pc' : Z) (σ' : mstate) : Prop :=
  match opcode i with
  | OP_JUMP => pc' = u_target i ∧ σ' = σ
  | OP_SPLIT => (pc' = u_target1 i ∨ pc' = u_target2 i) ∧ σ' = σ
  | OP_SAVE => pc' = pc + 1 ∧ σ' = save (sub_op i) σ
  | OP_BOL => pc' = pc + 1 ∧ test (at_bol fl text) σ σ'
  | OP_EOL => pc' = pc + 1 ∧ test (at_eol fl text) σ σ'
  | OP_WORD_BOUNDARY =>
      pc' = pc + 1 ∧ test (λ p, xorb (at_boundary text p) (negb (sub_op i =? 0))) σ σ'
  | OP_CHAR | OP_ANY | OP_CLASS => pc' = pc + 1 ∧ one_char text (char_matches i) σ σ'
  | OP_BACKREF => pc' = pc + 1 ∧ repeats text (has_flag (flags i) 1) (sub_op i) σ σ'
  | OP_MATCH => False
  end.

Definition nstep (x y : Z * mstate) : Prop :=
  ∃ i, 0 ≤ x.1 ∧ prog !! Z.to_nat x.1 = Some i ∧ moves i x.1 x.2 y.1 y.2.
End machine.

(** [prog] has the instructions [c] at address [a]. *)
Definition sits (prog : list cobalt_regex_inst) (a : Z) (c : list cobalt_regex_inst) : Prop :=
  ∃ pre post, prog = pre ++ c ++ post ∧ Z.of_nat (length pre) = a.
Lemma sits_head prog a i c : sits prog a (i :: c) → 0 ≤ a ∧ prog !! Z.to_nat a = Some i.
Proof.
  intros (pre & post & -> & <-). split; [lia|]. rewrite Nat2Z.id. by apply list_lookup_middle.
Qed.

Lemma sits_tail prog a i c : sits prog a (i :: c) → sits prog (a + 1) c.
Proof.
  intros (pre & post & -> & <-). exists (pre ++ [i]), post. split; [by rewrite <- app_assoc|].
  rewrite length_app. simpl. lia.
Qed.

Lemma sits_app prog a c1 c2 :
  sits prog a (c1 ++ c2) → sits prog a c1 ∧ sits prog (a + Z.of_nat (length c1)) c2.
Proof.
  intros (pre & post & -> & <-). split.
  - exists pre, (c2 ++ post). by rewrite <- !app_assoc.
  - exists (pre ++ c1), post. rewrite <- !app_assoc, length_app. split; [done|lia].
Qed.

Lemma sits_app_at prog a b c1 c2 :
  sits prog a (c1 ++ c2) → a + Z.of_nat (length c1) = b → sits prog a c1 ∧ sits prog b c2.
Proof. intros H <-. by apply sits_app. Qed.

(** ** Sizes *)

Lemma size_nonneg r : 0 ≤ size r.
Proof. induction r; simpl; repeat case_match; nia. Qed.

Section pieces_length.
Variables (g : Z → list cobalt_regex_inst) (k : Z).
Hypothesis Hg : ∀ a, Z.of_nat (length (g a)) = k.

Lemma length_copies n : ∀ a, Z.of_nat (length (copies_code g k n a)) = Z.of_nat n * k.
Proof.
  induction n as [|n IH]; intros a; simpl; [lia|]. rewrite length_app, Nat2Z.inj_add, Hg, IH. nia.
Qed.

Lemma length_options gr n : ∀ a e, Z.of_nat (length (options_code g k gr n a e)) = Z.of_nat n * (k + 1).
Proof.
  induction n as [|n IH]; intros a e; simpl; [lia|].
  rewrite Nat2Z.inj_succ, length_app, Nat2Z.inj_add, Hg, IH. nia.
Qed.

Lemma length_star gr a : Z.of_nat (length (star_code g k gr a)) = k + 2.
Proof. unfold star_code. simpl. rewrite length_app. simpl. rewrite <- (Hg (a + 1)). lia. Qed.
End pieces_length.

Lemma length_gen fl r : ∀ a, Z.of_nat (length (gen fl r a)) = size r.
Proof.
  induction r as [|c| |b neg| | |neg|r1 IH1 r2 IH2|r1 IH1 r2 IH2|r IH mn mx gr|r IH gid|gid];
    intros a; simpl; try done.
  - by rewrite length_app, Nat2Z.inj_add, IH1, IH2.
  - rewrite Nat2Z.inj_succ, length_app, Nat2Z.inj_add, IH1. simpl. rewrite Nat2Z.inj_succ, IH2. lia.
  - repeat case_match; unfold opt_code, plus_code; simpl;
      rewrite ?Nat2Z.inj_succ, ?length_app, ?Nat2Z.inj_add, ?length_copies, ?length_star, ?length_options, ?IH
        by done; simpl; lia.
  - rewrite Nat2Z.inj_succ, length_app, Nat2Z.inj_add, IH. simpl. lia.
Qed.

(** ** Instructions one by one *)

Lemma char_flag (ci : bool) : has_flag (if ci then 1 else 0) 1 = ci.
Proof. by destruct ci. Qed.

Lemma same_char_eq i c d : same_char i c d = char_eq (has_flag (flags i) 1) c d.
Proof. done. Qed.

Lemma byte_land c : 0 ≤ c < 256 → Z.land c 255 = c.
Proof. intros H. change 255 with (Z.ones 8). rewrite Z.land_ones by lia. apply Z.mod_small. lia. Qed.

Lemma char_matches_char ci c d : 0 ≤ c < 256 → char_matches (i_char ci c) d = char_eq ci d c.
Proof.
  intros Hc. unfold char_matches. simpl. rewrite same_char_eq. simpl. rewrite char_flag.
  unfold u_ch, word. simpl. by rewrite byte_land.
Qed.

Lemma land_bit x i : 0 ≤ i → negb (Z.land x (Z.shiftl 1 i) =? 0) = Z.testbit x i.
Proof.
  intros Hi. rewrite Z.shiftl_1_l.
  assert (∀ j, Z.testbit (Z.land x (2 ^ i)) j = Z.testbit x i && (i =? j)) as H.
  { intros j. rewrite Z.land_spec, Z.pow2_bits_eqb by done.
    destruct (Z.eqb_spec i j) as [->|]; [done|]. by rewrite !andb_false_r. }
  destruct (Z.testbit x i) eqn:E; destruct (Z.eqb_spec (Z.land x (2 ^ i)) 0) as [E0|E0]; try done.
  - specialize (H i). rewrite E0, Z.bits_0, Z.eqb_refl in H. done.
  - destruct E0. apply Z.bits_inj'. intros j _. by rewrite H, Z.bits_0.
Qed.

Lemma char_matches_class b neg c : 0 ≤ c → char_matches (i_class b neg) c = xorb (in_class b c) neg.
Proof.
  intros Hc. unfold char_matches, in_class. cbn [opcode i_class].
  change 31 with (Z.ones 5). rewrite Z.land_ones by lia.
  rewrite land_bit by (apply Z.mod_pos_bound; lia).
  rewrite Z.shiftr_div_pow2 by lia. change (2 ^ 5) with 32. unfold word. simpl. by destruct neg.
Qed.

Lemma char_matches_any all c : char_matches (i_any all) c = all || negb (c =? 10).
Proof. by destruct all. Qed.

(** ** Code against meaning

    [makes P a b]: the machine can go from [a] to [b] by any step of [P].
    [through P a b]: a run that enters at [a] and gets out of [a, b) passes [b]
    after a step of [P]. *)
Section correct.
Variables (fl : Z) (text : list Z) (prog : list cobalt_regex_inst).
Hypothesis Htext : ∀ c, c ∈ text → 0 ≤ c.
Notation nst := (nstep fl text prog).

Definition makes (P : relation mstate) (a b : Z) : Prop :=
  ∀ σ σ', P σ σ' → rtc nst (a, σ) (b, σ').
Definition through (P : relation mstate) (a b : Z) : Prop :=
  ∀ n σ x τ, nsteps nst n (a, σ) (x, τ) → ¬ (a ≤ x < b) →
    ∃ n' σ', (n' ≤ n)%nat ∧ P σ σ' ∧ nsteps nst n' (b, σ') (x, τ).

Definition implements (P : relation mstate) (a b : Z) : Prop := makes P a b ∧ through P a b.

Lemma nstep_at a i c σ y :
  sits prog a (i :: c) → nst (a, σ) y ↔ moves fl text i a σ y.1 y.2.
Proof.
  intros [Ha Hi]%sits_head. unfold nstep. simpl. split; [|by exists i].
  intros (i' & _ & Hi' & Hm). rewrite Hi in Hi'. by injection Hi' as <-.
Qed.

(** A run that has to leave [a] makes a step. *)
Lemma nsteps_leave n a σ x τ :
  nsteps nst n (a, σ) (x, τ) → x ≠ a → ∃ m y, n = S m ∧ nst (a, σ) y ∧ nsteps nst m y (x, τ).
Proof. intros H Hx. inversion H; subst; [done|]. by eexists _, _. Qed.

Lemma implements_ext P Q a b : (∀ σ σ', P σ σ' ↔ Q σ σ') → implements P a b → implements Q a b.
Proof.
  intros HPQ [Hm Ht]. split.
  - intros σ σ' HQ. apply Hm. by apply HPQ.
  - intros n σ x τ Hn Hx. destruct (Ht n σ x τ Hn Hx) as (n' & σ' & ? & HP & ?).
    exists n', σ'. split_and!; [done|by apply HPQ|done].
Qed.

Lemma implements_nil a : implements (λ σ σ', σ' = σ) a a.
Proof. split; [by intros σ σ' ->|]. intros n σ x τ Hn _. by exists n, σ. Qed.

Lemma implements_seq P Q a m b :
  a ≤ m ≤ b → implements P a m → implements Q m b →
  implements (λ σ σ', ∃ τ, P σ τ ∧ Q τ σ') a b.
Proof.
  intros Ham [HmP HtP] [HmQ HtQ]. split.
  - intros σ σ' (τ & HP & HQ). by etrans; [apply HmP|apply HmQ].
  - intros n σ x τ Hn Hx. destruct (HtP n σ x τ Hn) as (n1 & σ1 & ? & HP & Hn1); [lia|].
    destruct (HtQ n1 σ1 x τ Hn1) as (n2 & σ2 & ? & HQ & Hn2); [lia|].
    exists n2, σ2. split_and!; [lia|by exists σ1|done].
Qed.

(** One instruction that does not branch. *)
Lemma implements_inst P a i c :
  sits prog a (i :: c) → (∀ σ pc' σ', moves fl text i a σ pc' σ' ↔ pc' = a + 1 ∧ P σ σ') →
  implements P a (a + 1).
Proof.
  intros Hs HP. split.
  - intros σ σ' H. apply rtc_once. by apply (nstep_at _ _ _ _ _ Hs), HP.
  - intros n σ x τ Hn Hx. apply nsteps_leave in Hn as (m & [pc' σ'] & -> & Hst & Hm); [|lia].
    apply (nstep_at _ _ _ _ _ Hs), HP in Hst as [Hpc HP']. simpl in Hpc, HP'. subst pc'. exists m, σ'. split_and!; [lia|done|done].
Qed.

Lemma moves_split gr x y pc σ pc' σ' :
  moves fl text (i_split gr x y) pc σ pc' σ' ↔ (pc' = x ∨ pc' = y) ∧ σ' = σ.
Proof. destruct gr; unfold moves; simpl; [done|]. by rewrite (or_comm (pc' = y)). Qed.

(** A branch between [m], from where [P] leads to [b], and [b]. *)
Lemma implements_option P gr a b c :
  a + 1 ≤ b → sits prog a (i_split gr (a + 1) b :: c) → implements P (a + 1) b →
  implements (λ σ σ', σ' = σ ∨ P σ σ') a b.
Proof.
  intros Hab Hs [Hm Ht]. split.
  - intros σ σ' [->|HP].
    + apply rtc_once, (nstep_at _ _ _ _ _ Hs), moves_split. auto.
    + eapply rtc_l; [|by apply Hm]. apply (nstep_at _ _ _ _ _ Hs), moves_split. auto.
  - intros n σ x τ Hn Hx. destruct (decide (a = b)) as [->|]; [lia|].
    apply nsteps_leave in Hn as (m & [pc' σ'] & -> & Hst & Hm'); [|lia].
    apply (nstep_at _ _ _ _ _ Hs), moves_split in Hst as [Hpc Heq]. simpl in Hpc, Heq. subst σ'. destruct Hpc as [->| ->].
    + destruct (Ht m σ x τ Hm') as (n' & σ' & ? & ? & ?); [lia|].
      exists n', σ'. split_and!; [lia|by right|done].
    + exists m, σ. split_and!; [lia|by left|done].
Qed.

Lemma moves_jump b a σ pc' σ' : moves fl text (i_jump b) a σ pc' σ' ↔ pc' = b ∧ σ' = σ.
Proof. done. Qed.

Lemma implements_star P gr a j e c1 c2 :
  j + 1 = e → a + 1 ≤ j → sits prog a (i_split gr (a + 1) e :: c1) → implements P (a + 1) j →
  sits prog j (i_jump a :: c2) → implements (rtc P) a e.
Proof.
  intros <- Haj Hs [Hm Ht] Hj.
  assert (∀ σ y, nst (a, σ) y ↔ (y.1 = a + 1 ∨ y.1 = j + 1) ∧ y.2 = σ) as Hsplit.
  { intros σ y. by rewrite (nstep_at _ _ _ _ _ Hs), moves_split. }
  assert (∀ σ y, nst (j, σ) y ↔ y.1 = a ∧ y.2 = σ) as Hjump.
  { intros σ y. by rewrite (nstep_at _ _ _ _ _ Hj), moves_jump. }
  split.
  - intros σ σ'. induction 1 as [σ|σ τ σ' HP _ IH].
    + apply rtc_once, Hsplit. auto.
    + apply (rtc_l _ _ (a + 1, σ)); [apply Hsplit; auto|]. etrans; [by apply Hm|].
      apply (rtc_l _ _ (a, τ)); [by apply Hjump|done].
  - intros n. induction (lt_wf n) as [n _ IH]. intros σ x τ Hn Hx.
    apply nsteps_leave in Hn as (m & [pc' σ'] & -> & Hst & Hm'); [|lia].
    apply Hsplit in Hst as [Hpc Heq]; simpl in Hpc, Heq; subst σ'. destruct Hpc as [->| ->].
    2: { exists m, σ. split_and!; [lia|done|done]. }
    destruct (Ht m σ x τ Hm') as (n1 & σ1 & ? & HP & Hn1); [lia|].
    apply nsteps_leave in Hn1 as (m1 & [pc1 σ1'] & -> & Hst1 & Hm1); [|lia].
    apply Hjump in Hst1 as [Hpc Heq]. simpl in Hpc, Heq. subst pc1 σ1'.
    destruct (IH m1 ltac:(lia) σ1 x τ Hm1 Hx) as (n2 & σ2 & ? & HQ & Hn2).
    exists n2, σ2. split_and!; [lia|by eapply rtc_l|done].
Qed.

Lemma implements_plus P gr a j c :
  a ≤ j → implements P a j → sits prog j (i_split gr a (j + 1) :: c) → implements (tc P) a (j + 1).
Proof.
  intros Haj [Hm Ht] Hs.
  assert (∀ σ y, nst (j, σ) y ↔ (y.1 = a ∨ y.1 = j + 1) ∧ y.2 = σ) as Hsplit.
  { intros σ y. by rewrite (nstep_at _ _ _ _ _ Hs), moves_split. }
  split.
  - intros σ σ'. induction 1 as [σ σ' HP|σ τ σ' HP _ IH].
    + eapply rtc_r; [by apply Hm|]. apply Hsplit. auto.
    + etrans; [by apply Hm|]. eapply rtc_l; [|exact IH]. apply Hsplit. auto.
  - intros n. induction (lt_wf n) as [n _ IH]. intros σ x τ Hn Hx.
    destruct (Ht n σ x τ Hn) as (n1 & σ1 & ? & HP & Hn1); [lia|].
    apply nsteps_leave in Hn1 as (m1 & [pc1 σ1'] & -> & Hst1 & Hm1); [|lia].
    apply Hsplit in Hst1 as [Hpc Heq]. simpl in Hpc, Heq. subst σ1'. destruct Hpc as [->| ->].
    + destruct (IH m1 ltac:(lia) σ1 x τ Hm1 Hx) as (n2 & σ2 & ? & HQ & Hn2).
      exists n2, σ2. split_and!; [lia|by eapply tc_l|done].
    + exists m1, σ1. split_and!; [lia|by apply tc_once|done].
Qed.

Lemma implements_alt P Q a j e c1 c2 :
  a + 1 ≤ j → j + 1 ≤ e → sits prog a (i_split true (a + 1) (j + 1) :: c1) → implements P (a + 1) j →
  sits prog j (i_jump e :: c2) → implements Q (j + 1) e →
  implements (λ σ σ', P σ σ' ∨ Q σ σ') a e.
Proof.
  intros Haj Hje Hs [HmP HtP] Hj [HmQ HtQ].
  assert (∀ σ y, nst (a, σ) y ↔ (y.1 = a + 1 ∨ y.1 = j + 1) ∧ y.2 = σ) as Hsplit.
  { intros σ y. by rewrite (nstep_at _ _ _ _ _ Hs), moves_split. }
  assert (∀ σ y, nst (j, σ) y ↔ y.1 = e ∧ y.2 = σ) as Hjump.
  { intros σ y. by rewrite (nstep_at _ _ _ _ _ Hj), moves_jump. }
  split.
  - intros σ σ' [HP|HQ].
    + apply (rtc_l _ _ (a + 1, σ)); [apply Hsplit; auto|].
      eapply rtc_r; [by apply HmP|]. by apply Hjump.
    + apply (rtc_l _ _ (j + 1, σ)); [apply Hsplit; auto|]. by apply HmQ.
  - intros n σ x τ Hn Hx. apply nsteps_leave in Hn as (m & [pc' σ'] & -> & Hst & Hm'); [|lia].
    apply Hsplit in Hst as [Hpc Heq]. simpl in Hpc, Heq. subst σ'. destruct Hpc as [->| ->].
    + destruct (HtP m σ x τ Hm') as (n1 & σ1 & ? & HP & Hn1); [lia|].
      apply nsteps_leave in Hn1 as (m1 & [pc1 σ1'] & -> & Hst1 & Hm1); [|lia].
      apply Hjump in Hst1 as [Hpc Heq]. simpl in Hpc, Heq. subst pc1 σ1'.
      exists m1, σ1. split_and!; [lia|by left|done].
    + destruct (HtQ m σ x τ Hm') as (n1 & σ1 & ? & HQ & Hn1); [lia|].
      exists n1, σ1. split_and!; [lia|by right|done].
Qed.

Section repeated.
Variables (g : Z → list cobalt_regex_inst) (k : Z) (P : relation mstate).
Hypothesis Hlen : ∀ a, Z.of_nat (length (g a)) = k.
Hypothesis Hg : ∀ a, sits prog a (g a) → implements P a (a + k).

Lemma piece_nonneg : 0 ≤ k.
Proof. specialize (Hlen 0). lia. Qed.

Lemma implements_copies n : ∀ a,
  sits prog a (copies_code g k n a) → implements (nsteps P n) a (a + Z.of_nat n * k).
Proof.
  pose proof piece_nonneg. induction n as [|n IH]; intros a Hs; simpl in Hs.
  - replace (a + Z.of_nat 0 * k) with a by lia. eapply implements_ext; [|apply implements_nil].
    intros σ σ'. split; [intros ->; constructor|by inversion 1].
  - apply (sits_app_at _ _ (a + k)) in Hs as [H1 H2]; [|by rewrite Hlen].
    replace (a + Z.of_nat (S n) * k) with (a + k + Z.of_nat n * k) by lia.
    eapply implements_ext; [|apply (implements_seq P (nsteps P n) a (a + k)); [nia|auto|auto]].
    intros σ σ'. split; [intros (τ & ? & ?); by econstructor|inversion 1; subst; eauto].
Qed.

Lemma implements_options gr n : ∀ a e,
  a + Z.of_nat n * (k + 1) = e → sits prog a (options_code g k gr n a e) →
  implements (λ σ σ', ∃ m, (m ≤ n)%nat ∧ nsteps P m σ σ') a e.
Proof.
  pose proof piece_nonneg. induction n as [|n IH]; intros a e He Hs; simpl in Hs.
  - replace e with a by lia. eapply implements_ext; [|apply implements_nil]. intros σ σ'. split.
    + intros ->. exists 0%nat. split; [lia|constructor].
    + intros (m & Hm & Hn). destruct m; [by inversion Hn|lia].
  - change (sits prog a ((i_split gr (a + 1) e :: g (a + 1)) ++ options_code g k gr n (a + k + 1) e)) in Hs.
    apply (sits_app_at _ _ (a + k + 1)) in Hs as [H1 H2]; [|simpl; rewrite Nat2Z.inj_succ, Hlen; lia].
    assert (implements P (a + 1) (a + k + 1)) as Hbody.
    { replace (a + k + 1) with (a + 1 + k) by lia. by apply Hg, (sits_tail _ _ _ _ H1). }
    assert (a + 1 ≤ a + k + 1 ≤ e) as Hae by nia.
    pose proof (implements_seq _ _ _ _ e Hae Hbody (IH (a + k + 1) e ltac:(lia) H2)) as Hrest.
    eapply implements_ext; [|eapply (implements_option _ gr a e); [nia|done|exact Hrest]].
    intros σ σ'. split.
    + intros [->|(τ & HP & m & Hm & Hn)]; [exists 0%nat; split; [lia|constructor]|].
      exists (S m). split; [lia|by econstructor].
    + intros (m & Hm & Hn). inversion Hn; subst; [by left|]. right.
      eexists. split; [done|]. eexists. split; [|done]. lia.
Qed.

Lemma implements_star_code gr a : sits prog a (star_code g k gr a) → implements (rtc P) a (a + k + 2).
Proof.
  pose proof piece_nonneg. unfold star_code. intros Hs.
  change (sits prog a ((i_split gr (a + 1) (a + k + 2) :: g (a + 1)) ++ [i_jump a])) in Hs.
  apply (sits_app_at _ _ (a + 1 + k)) in Hs as [H1 H2]; [|simpl; rewrite Nat2Z.inj_succ, Hlen; lia].
  eapply (implements_star P gr a (a + 1 + k)); [lia|lia|done| |done].
  by apply Hg, (sits_tail _ _ _ _ H1).
Qed.
End repeated.

Lemma rtc_counted (P : relation mstate) σ σ' : rtc P σ σ' ↔ ∃ n, nsteps P n σ σ'.
Proof. split; [apply rtc_nsteps_1|intros [n H]; by apply rtc_nsteps_2 with n]. Qed.

Lemma nsteps_split (P : relation mstate) m n σ σ' :
  nsteps P (m + n) σ σ' ↔ ∃ τ, nsteps P m σ τ ∧ nsteps P n τ σ'.
Proof.
  split; [|intros (τ & ? & ?); by eapply nsteps_trans].
  revert σ. induction m as [|m IH]; intros σ; simpl; [intros H; exists σ; split; [constructor|done]|].
  inversion 1; subst. destruct (IH y) as (τ & ? & ?); [done|]. exists τ. split; [by econstructor|done].
Qed.

Lemma one_char_ext (f h : Z → bool) (σ σ' : mstate) :
  (∀ c, c ∈ text → f c = h c) → one_char text f σ σ' ↔ one_char text h σ σ'.
Proof.
  intros E. unfold one_char. split; intros (c & Hc & Hf & ->); exists c; split_and!; try done;
    pose proof (list_elem_of_lookup_2 _ _ _ Hc) as Hin; [by rewrite <- E|by rewrite E].
Qed.

Lemma quant_range (P : relation mstate) mn mx σ σ' :
  0 ≤ mn → mn ≤ mx →
  (∃ n, mn ≤ Z.of_nat n ∧ (mx = -1 ∨ Z.of_nat n ≤ mx) ∧ nsteps P n σ σ') ↔
  ∃ τ, nsteps P (Z.to_nat mn) σ τ ∧ ∃ m, (m ≤ Z.to_nat (mx - mn))%nat ∧ nsteps P m τ σ'.
Proof.
  intros H0 H1. split.
  - intros (n & Hn & Hmx & H). replace n with (Z.to_nat mn + (n - Z.to_nat mn))%nat in H by lia.
    apply nsteps_split in H as (τ & ? & ?). exists τ. split; [done|]. eexists. split; [|done]. lia.
  - intros (τ & H & m & Hm & H'). exists (Z.to_nat mn + m)%nat.
    split_and!; [lia|lia|]. apply nsteps_split. by exists τ.
Qed.

Lemma quant_from (P : relation mstate) mn σ σ' :
  0 ≤ mn →
  (∃ n, mn ≤ Z.of_nat n ∧ ((-1) = -1 ∨ Z.of_nat n ≤ -1) ∧ nsteps P n σ σ') ↔
  ∃ τ, nsteps P (Z.to_nat mn) σ τ ∧ rtc P τ σ'.
Proof.
  intros H0. split.
  - intros (n & Hn & _ & H). replace n with (Z.to_nat mn + (n - Z.to_nat mn))%nat in H by lia.
    apply nsteps_split in H as (τ & ? & ?). exists τ. split; [done|]. apply rtc_counted. eauto.
  - intros (τ & H & [m H']%rtc_counted). exists (Z.to_nat mn + m)%nat.
    split_and!; [lia|by left|]. apply nsteps_split. by exists τ.
Qed.

Lemma quant_cases (P : relation mstate) mn mx σ σ' :
  (∃ n, mn ≤ Z.of_nat n ∧ (mx = -1 ∨ Z.of_nat n ≤ mx) ∧ nsteps P n σ σ') ↔
  (if (mn =? 0) && (mx =? 1) then σ' = σ ∨ P σ σ'
   else if (mn =? 0) && (mx =? -1) then rtc P σ σ'
   else if (mn =? 1) && (mx =? -1) then tc P σ σ'
   else ∃ n, mn ≤ Z.of_nat n ∧ (mx = -1 ∨ Z.of_nat n ≤ mx) ∧ nsteps P n σ σ').
Proof.
  destruct (Z.eqb_spec mn 0) as [->|Hmn]; simpl; [destruct (Z.eqb_spec mx 1) as [->|Hmx]|].
  - split.
    + intros (n & _ & Hn & H). destruct n as [|[|n]]; [inversion H; by left| |lia].
      right. by apply nsteps_once_inv.
    + intros [->|HP]; [exists 0%nat|exists 1%nat]; split_and!; try lia; [constructor|by apply nsteps_once].
  - destruct (Z.eqb_spec mx (-1)) as [->|Hi]; [|done]. rewrite rtc_counted. split.
    + intros (n & _ & _ & H). eauto.
    + intros [n H]. exists n. split_and!; [lia|by left|done].
  - destruct (Z.eqb_spec mn 1) as [->|Hm1]; simpl; [|done].
    destruct (Z.eqb_spec mx (-1)) as [->|Hmx]; [|done]. split.
    + intros (n & Hn & _ & H). apply tc_nsteps. exists n. split; [lia|done].
    + intros (n & Hn & H)%tc_nsteps. exists n. split_and!; [lia|by left|done].
Qed.

Lemma implements_quant r mn mx gr a :
  (∀ a, sits prog a (gen fl r a) → implements (matches fl text r) a (a + size r)) →
  0 ≤ mn ≤ 128 → (mx = -1 ∨ mn ≤ mx ≤ 128) →
  sits prog a (gen fl (Quant r mn mx gr) a) →
  implements (matches fl text (Quant r mn mx gr)) a (a + size (Quant r mn mx gr)).
Proof.
  intros Hr Hmn Hmx Hs. pose proof (size_nonneg r) as Hk.
  pose proof (length_gen fl r) as Hlen. simpl in Hs |- *.
  eapply implements_ext; [intros σ σ'; symmetry; apply (quant_cases (matches fl text r) mn mx)|].
  destruct ((mn =? 0) && (mx =? 1)).
  { unfold opt_code in Hs. replace (a + (size r + 1)) with (a + 1 + size r) by lia.
    eapply (implements_option _ gr); [lia|done|]. by apply Hr, (sits_tail _ _ _ _ Hs). }
  destruct ((mn =? 0) && (mx =? -1)).
  { replace (a + (size r + 2)) with (a + size r + 2) by lia. by eapply implements_star_code. }
  destruct ((mn =? 1) && (mx =? -1)).
  { apply (sits_app_at _ _ (a + size r)) in Hs as [H1 H2]; [|by rewrite Hlen].
    replace (a + (size r + 1)) with (a + size r + 1) by lia.
    eapply (implements_plus _ gr); [lia|by apply Hr|done]. }
  apply (sits_app_at _ _ (a + Z.of_nat (Z.to_nat mn) * size r)) in Hs as [H1 H2];
    [|by rewrite (length_copies _ _ Hlen)].
  apply (implements_copies _ _ _ Hlen Hr) in H1. destruct (Z.eqb_spec mx (-1)) as [->|Hinf].
  - eapply implements_ext; [intros σ σ'; symmetry; apply quant_from; lia|].
    apply (implements_star_code _ _ _ Hlen Hr) in H2.
    eapply implements_seq; [|exact H1|]; [nia|].
    by replace (a + (Z.of_nat (Z.to_nat mn) * size r + (size r + 2)))
      with (a + Z.of_nat (Z.to_nat mn) * size r + size r + 2) by lia.
  - eapply implements_ext; [intros σ σ'; symmetry; apply quant_range; lia|].
    destruct (Z.ltb_spec mn mx).
    + apply (implements_options _ _ _ Hlen Hr gr) in H2; [|done].
      eapply implements_seq; [|exact H1|]; [nia|]. by rewrite Z.add_assoc.
    + eapply implements_seq; [|exact H1|]; [nia|]. replace (Z.to_nat (mx - mn)) with 0%nat by lia.
      rewrite Z.add_0_r. eapply implements_ext; [|apply implements_nil].
      intros σ σ'. split; [intros ->; exists 0%nat; split; [lia|constructor]|].
      intros ([|m] & Hm & Hn); [by inversion Hn|lia].
Qed.

Lemma gen_implements r : ∀ a,
  wf r → sits prog a (gen fl r a) → implements (matches fl text r) a (a + size r).
Proof.
  induction r as [|c| |b neg| | |neg|r1 IH1 r2 IH2|r1 IH1 r2 IH2|r IH mn mx gr|r IH gid|gid];
    intros a Hwf Hs; simpl in Hwf.
  - simpl. rewrite Z.add_0_r. apply implements_nil.
  - eapply implements_inst; [done|]. intros σ pc' σ'. unfold moves. simpl.
    by rewrite (one_char_ext _ (λ d, char_eq (ignore_case fl) d c)) by (intros; by apply char_matches_char).
  - eapply implements_inst; [done|]. intros σ pc' σ'. unfold moves. simpl.
    by rewrite (one_char_ext _ (any_ok fl)) by (intros; by apply char_matches_any).
  - eapply implements_inst; [done|]. intros σ pc' σ'. unfold moves. simpl.
    by rewrite (one_char_ext _ (λ c, xorb (in_class b c) neg)) by (intros; by apply char_matches_class, Htext).
  - by eapply implements_inst; [done|].
  - by eapply implements_inst; [done|].
  - eapply implements_inst; [done|]. intros σ pc' σ'. unfold moves. simpl. by destruct neg.
  - simpl in Hs |- *. apply (sits_app_at _ _ (a + size r1)) in Hs as [H1 H2]; [|by rewrite length_gen].
    pose proof (size_nonneg r1). pose proof (size_nonneg r2). destruct Hwf. rewrite Z.add_assoc.
    eapply implements_seq; [|by apply IH1|by apply IH2]. lia.
  - cbn [gen] in Hs. apply (sits_app_at _ _ (a + size r1 + 1)) in Hs as [H1 H2];
      [|simpl; rewrite Nat2Z.inj_succ, length_gen; lia].
    pose proof (size_nonneg r1). pose proof (size_nonneg r2). destruct Hwf. simpl.
    replace (a + (size r1 + size r2 + 2)) with (a + size r1 + 2 + size r2) by lia.
    eapply (implements_alt _ _ a (a + size r1 + 1)); [lia|lia| | |exact H2|].
    + replace (a + size r1 + 1 + 1) with (a + size r1 + 2) by lia. exact H1.
    + replace (a + size r1 + 1) with (a + 1 + size r1) by lia. by apply IH1, (sits_tail _ _ _ _ H1).
    + replace (a + size r1 + 1 + 1) with (a + size r1 + 2) by lia. apply IH2; [done|].
      apply sits_tail in H2. by replace (a + size r1 + 1 + 1) with (a + size r1 + 2) in H2 by lia.
  - destruct Hwf as (? & ? & ?). apply implements_quant; auto.
  - destruct Hwf as [Hwf Hgid]. unfold COBALT_REGEX_MAX_CAPTURES in Hgid. cbn [gen] in Hs.
    rewrite !Z.mod_small in Hs by lia.
    apply (sits_app_at _ _ (a + 1 + size r)) in Hs as [H1 H2];
      [|simpl; rewrite Nat2Z.inj_succ, length_gen; lia].
    pose proof (size_nonneg r). simpl. replace (a + (size r + 2)) with (a + 1 + size r + 1) by lia.
    assert (implements (λ σ σ', σ' = save (2 * gid) σ) a (a + 1)) as Ha by by eapply implements_inst.
    assert (implements (λ σ σ', σ' = save (2 * gid + 1) σ) (a + 1 + size r) (a + 1 + size r + 1)) as Hb
      by by eapply implements_inst.
    apply sits_tail, IH in H1; [|done].
    eapply implements_ext;
      [|eapply (implements_seq _ _ a (a + 1)); [|exact Ha|eapply (implements_seq _ _ (a + 1) (a + 1 + size r)); [|exact H1|exact Hb]]];
      [|lia|lia].
    simpl. naive_solver.
  - eapply implements_inst; [done|]. intros σ pc' σ'. unfold moves. simpl. by rewrite char_flag.
Qed.
End correct.
End RegexSem.
