(* ===== verification/RegexPike.v ===== *)
(** * The Pike machine against the nondeterministic machine

    [add_thread] is a depth-first search that marks instructions: the marks it
    leaves are closed under the moves that consume nothing, and every thread it
    records stands for a run of the nondeterministic machine. *)
From stdpp Require Import relations.
From S2P Require Import Prelude World Regex RegexVM RegexSem.

Module RegexPike.
Import Regex RegexVM RegexSem.

(** What the machine relies on: addresses of 32 bits, slots and groups within
    the slots of a thread. *)
Definition inst_ok (i : cobalt_regex_inst) : Prop :=
  match opcode i with
  | OP_JUMP => 0 ≤ u_target i
  | OP_SPLIT => 0 ≤ u_target1 i ∧ 0 ≤ u_target2 i
  | OP_SAVE => 0 ≤ sub_op i < 2 * COBALT_REGEX_MAX_CAPTURES
  | OP_BACKREF => 0 ≤ sub_op i < COBALT_REGEX_MAX_CAPTURES
  | _ => True
  end.

Section pike.
Variables (re : cobalt_regex) (text : list Z) (full : bool) (start_pc : Z).
Notation prog := (code re).
Notation fl := (re_flags re).
Notation nst := (nstep fl text prog).
Notation tlen := (text_len text).

Hypothesis Hprog : Forall inst_ok prog.
Hypothesis Hsize : inst_count re < 2 ^ 32.
Hypothesis Hstart : 0 ≤ start_pc.
Hypothesis Htlen : tlen < UNSET.

Definition init_state : mstate := (0, replicate num_slots UNSET).

(** Runs from the start. *)
Definition reach (pc pos : Z) (sl : list Z) : Prop := rtc nst (start_pc, init_state) (pc, (pos, sl)).

Definition slot_ok (v : Z) : Prop := v = UNSET ∨ 0 ≤ v ≤ tlen.

Lemma tx_range i c : 0 ≤ i → tx text i = Some c → i < tlen.
Proof. unfold tx, text_len. intros Hi H%lookup_lt_Some. lia. Qed.

Lemma moves_inv i p pos sl p' pos' sl' :
  inst_ok i → 0 ≤ p → 0 ≤ pos ≤ tlen → length sl = num_slots → Forall slot_ok sl →
  moves fl text i p (pos, sl) p' (pos', sl') →
  0 ≤ p' ∧ pos ≤ pos' ≤ tlen ∧ length sl' = num_slots ∧ Forall slot_ok sl'.
Proof.
  intros Hi Hp Hpos Hlen Hsl. unfold inst_ok in Hi. unfold moves.
  destruct (opcode i); unfold test, one_char, save; simpl.
  1,2,3: by intros (-> & c & Hc & _ & [= -> ->]); apply tx_range in Hc; [|lia]; split_and!; try done; lia.
  1,2,3: by intros (-> & _ & [= -> ->]); split_and!; try done; lia.
  - intros [-> [= -> ->]]. split_and!; try done; lia.
  - intros [H [= -> ->]]. split_and!; try done; destruct H as [-> | ->]; lia.
  - intros [-> [= -> ->]]. split_and!; [lia|lia|lia|by rewrite length_insert|].
    apply Forall_insert; [done|]. right. lia.
  - intros (-> & s & e & Hs & He & Hs' & He' & Hse & Ht & [= -> ->]).
    split_and!; try done; [lia|lia|]. destruct (decide (s = e)); [lia|].
    destruct (Ht (e - s - 1)) as (c & d & Hc & _); [lia|]. simpl in Hc. apply tx_range in Hc; lia.
  - done.
Qed.

Lemma reach_inv p pos sl :
  reach p pos sl → 0 ≤ p ∧ 0 ≤ pos ≤ tlen ∧ length sl = num_slots ∧ Forall slot_ok sl.
Proof.
  set (P := λ y : Z * mstate, 0 ≤ y.1 ∧ 0 ≤ y.2.1 ≤ tlen ∧ length y.2.2 = num_slots ∧ Forall slot_ok y.2.2).
  apply (rtc_ind_r P); unfold P; clear P p pos sl.
  - split_and!; [done|done|simpl; unfold text_len; lia|done|]. apply Forall_replicate. by left.
  - intros [p [pos sl]] [p' [pos' sl']] _ (i & _ & Hi & Hm) (? & ? & ? & ?). simpl in *.
    pose proof (proj1 (Forall_lookup _ _) Hprog _ _ Hi) as Hok.
    edestruct moves_inv as (? & ? & ? & ?); [exact Hok| | | | |exact Hm|]; try done.
    split_and!; try done; lia.
Qed.

(** ** Threads *)

Definition thr_ok (pos : Z) (t : pike_thread) : Prop :=
  backref_remaining t = 0 ∧ reach (pc t) pos (slots t).

Lemma thr_step pos t i p' sl' :
  thr_ok pos t → prog !! Z.to_nat (pc t) = Some i → moves fl text i (pc t) (pos, slots t) p' (pos, sl') →
  ∀ t', pc t' = p' → slots t' = sl' → backref_remaining t' = backref_remaining t → thr_ok pos t'.
Proof.
  intros [Hr Ht] Hi Hm t' <- <- Hr'. split; [congruence|].
  eapply rtc_r; [exact Ht|]. exists i. split_and!; [|done|done].
  by apply reach_inv in Ht as [? _].
Qed.

Definition lst (next : bool) (s : vm) : list pike_thread := if next then nlist s else clist s.
Definition marked (s : vm) (x : Z) : Prop :=
  0 ≤ x ∧ visited_gen s !! Z.to_nat x = Some (current_step s).

#[local] Instance marked_dec s x : Decision (marked s x) := _.

(** The best match comes from a run that ends in [OP_MATCH]. *)
Definition best_ok (s : vm) : Prop :=
  length (slots (best_match s)) = num_slots ∧
  (matched s = true → ∃ p pos i, reach p pos (slots (best_match s)) ∧
     prog !! Z.to_nat p = Some i ∧ opcode i = OP_MATCH ∧
     (full = true → pos = tlen ∧ slots (best_match s) !! 0%nat = Some 0)).

(** No generation is ahead of the current one. *)
Definition gens_ok (s : vm) : Prop :=
  1 ≤ current_step s < 2 ^ 32 ∧ Forall (λ g, 0 ≤ g ≤ current_step s) (visited_gen s).

Definition in_room (next : bool) (s : vm) : Prop := Z.of_nat (length (lst next s)) ≤ inst_count re.

(** A search from [s] to [s'] at position [pos] that adds to the list [next]. *)
Record grew (pos : Z) (next : bool) (s s' : vm) : Prop := {
  g_step : current_step s' = current_step s;
  g_len : length (visited_gen s') = length (visited_gen s);
  g_marks : ∀ x, marked s x → marked s' x;
  g_list : ∃ l, lst next s' = lst next s ++ l ∧ NoDup (pc <$> l) ∧
    Forall (λ t, thr_ok pos t ∧ ¬ marked s (pc t) ∧ marked s' (pc t)) l;
  g_other : lst (negb next) s' = lst (negb next) s;
  g_matched : matched s = true → matched s' = true;
  g_best : best_ok s → best_ok s';
  g_gens : gens_ok s → gens_ok s';
  g_room : in_room next s → in_room next s'
}.

Lemma grew_refl pos next s : grew pos next s s.
Proof. split; try done. exists []. split_and!; [by rewrite app_nil_r|constructor|constructor]. Qed.

Lemma grew_trans pos next s1 s2 s3 :
  grew pos next s1 s2 → grew pos next s2 s3 → grew pos next s1 s3.
Proof.
  intros G1 G2. split.
  - by rewrite (g_step _ _ _ _ G2), (g_step _ _ _ _ G1).
  - by rewrite (g_len _ _ _ _ G2), (g_len _ _ _ _ G1).
  - intros x Hx. by apply (g_marks _ _ _ _ G2), (g_marks _ _ _ _ G1).
  - destruct (g_list _ _ _ _ G1) as (l1 & E1 & N1 & F1), (g_list _ _ _ _ G2) as (l2 & E2 & N2 & F2).
    exists (l1 ++ l2). split_and!.
    + by rewrite E2, E1, app_assoc.
    + rewrite fmap_app. apply NoDup_app. split_and!; [done| |done].
      intros x (t & -> & Ht)%list_elem_of_fmap (t' & Et & Ht')%list_elem_of_fmap.
      apply (proj1 (Forall_forall _ _) F1) in Ht as (_ & _ & Hm).
      apply (proj1 (Forall_forall _ _) F2) in Ht' as (_ & Hn & _). by rewrite <- Et in Hn.
    + apply Forall_app. split; eapply Forall_impl; try done; simpl.
      * intros t (? & ? & ?). split_and!; [done|done|by apply (g_marks _ _ _ _ G2)].
      * intros t (? & Hn & ?). split_and!; [done| |done]. intros Hm. by apply Hn, (g_marks _ _ _ _ G1).
  - by rewrite (g_other _ _ _ _ G2), (g_other _ _ _ _ G1).
  - intros H. by apply (g_matched _ _ _ _ G2), (g_matched _ _ _ _ G1).
  - intros H. by apply (g_best _ _ _ _ G2), (g_best _ _ _ _ G1).
  - intros H. by apply (g_gens _ _ _ _ G2), (g_gens _ _ _ _ G1).
  - intros H. by apply (g_room _ _ _ _ G2), (g_room _ _ _ _ G1).
Qed.

(** ** Closed sets of marks *)

(** The moves at position [pos] that consume nothing. *)
Definition estep (pos x y : Z) : Prop :=
  ∃ i, prog !! Z.to_nat x = Some i ∧
    match opcode i with
    | OP_JUMP => y = u_target i
    | OP_SPLIT => y = u_target1 i ∨ y = u_target2 i
    | OP_SAVE => y = x + 1
    | OP_BOL => y = x + 1 ∧ at_bol fl text pos = true
    | OP_EOL => y = x + 1 ∧ at_eol fl text pos = true
    | OP_WORD_BOUNDARY => y = x + 1 ∧ xorb (at_boundary text pos) (negb (sub_op i =? 0)) = true
    | _ => False
    end.

Definition consuming (i : cobalt_regex_inst) : bool :=
  match opcode i with OP_CHAR | OP_ANY | OP_CLASS | OP_BACKREF => true | _ => false end.

(** What a mark on [x] promises. *)
Definition handled (pos : Z) (next : bool) (s : vm) (x : Z) : Prop :=
  (∀ y, estep pos x y → y < inst_count re → marked s y) ∧
  (∀ i, prog !! Z.to_nat x = Some i → consuming i = true → ∃ t, t ∈ lst next s ∧ pc t = x) ∧
  (∀ i, prog !! Z.to_nat x = Some i → opcode i = OP_MATCH → (full = true → pos = tlen) → matched s = true).

Definition closed (pos : Z) (next : bool) (s s' : vm) : Prop :=
  ∀ x, marked s' x → marked s x ∨ handled pos next s' x.

(** The threads of the list stand at different marked instructions. *)
Definition tidy (next : bool) (s : vm) : Prop :=
  NoDup (pc <$> lst next s) ∧ Forall (λ t, marked s (pc t)) (lst next s).

Definition mark (s : vm) (x : Z) : vm :=
  with_visited s (<[Z.to_nat x := current_step s]> (visited_gen s)).

Lemma handled_grew pos next s s' x : grew pos next s s' → handled pos next s x → handled pos next s' x.
Proof.
  intros G (H1 & H2 & H3). split_and!.
  - intros y Hy Hlt. by apply (g_marks _ _ _ _ G), H1.
  - intros i Hi Hc. destruct (H2 i Hi Hc) as (t & Ht & Hpc). exists t. split; [|done].
    destruct (g_list _ _ _ _ G) as (l & -> & _). apply elem_of_app. by left.
  - intros i Hi Hm Hf. by eapply (g_matched _ _ _ _ G), H3.
Qed.

Lemma closed_trans pos next s1 s2 s3 :
  grew pos next s2 s3 → closed pos next s1 s2 → closed pos next s2 s3 → closed pos next s1 s3.
Proof.
  intros G H12 H23 x Hx. destruct (H23 x Hx) as [Hx2|]; [|by right].
  destruct (H12 x Hx2); [by left|]. right. by eapply handled_grew.
Qed.

Lemma grew_tidy pos next s s' : grew pos next s s' → tidy next s → tidy next s'.
Proof.
  intros G [Hn Hf]. destruct (g_list _ _ _ _ G) as (l & E & Nl & Fl). unfold tidy. rewrite E. split.
  - rewrite fmap_app. apply NoDup_app. split_and!; [done| |done].
    intros x (t & -> & Ht)%list_elem_of_fmap (t' & Et & Ht')%list_elem_of_fmap.
    apply (proj1 (Forall_forall _ _) Hf) in Ht. simpl in Ht.
    apply (proj1 (Forall_forall _ _) Fl) in Ht' as (_ & Hnm & _). by rewrite <- Et in Hnm.
  - apply Forall_app. split; eapply Forall_impl; try done; simpl.
    + intros t. apply (g_marks _ _ _ _ G).
    + by intros t (_ & _ & ?).
Qed.

Lemma marked_mark s x y :
  length (visited_gen s) = length prog → 0 ≤ x < inst_count re →
  marked (mark s x) y ↔ y = x ∨ marked s y.
Proof.
  intros Hlen Hx. unfold marked, inst_count in *. simpl. rewrite list_lookup_insert. split.
  - intros [Hy H]. case_decide as E; [left; lia|]. right. done.
  - intros [->|[Hy H]]; [rewrite decide_True; [split; [lia|done]|split; [done|lia]]|].
    split; [done|]. case_decide; done.
Qed.

Lemma grew_mark pos next s x :
  length (visited_gen s) = length prog → 0 ≤ x < inst_count re → grew pos next s (mark s x).
Proof.
  intros Hlen Hx. split; try done.
  - simpl. by rewrite length_insert.
  - intros y Hy. apply marked_mark; auto.
  - exists []. destruct next; simpl; rewrite app_nil_r; split_and!; try done; constructor.
  - intros [Hs Hg]. split; [done|]. simpl. apply Forall_insert; [done|]. lia.
Qed.

Lemma closed_mark pos next s x s' :
  length (visited_gen s) = length prog → 0 ≤ x < inst_count re →
  closed pos next (mark s x) s' → handled pos next s' x → closed pos next s s'.
Proof.
  intros Hlen Hx Hc Hh y Hy. destruct (Hc y Hy) as [Hm|]; [|by right].
  apply marked_mark in Hm as [->|]; auto.
Qed.

(** ** The number of instructions without a mark *)

Definition unmarked (s : vm) : nat := length (filter (λ g, g ≠ current_step s) (visited_gen s)).

Lemma filter_ne_mono (c : Z) (v v' : list Z) :
  length v = length v' → (∀ k, v !! k = Some c → v' !! k = Some c) →
  (length (filter (λ g, g ≠ c) v') ≤ length (filter (λ g, g ≠ c) v))%nat.
Proof.
  revert v'. induction v as [|x v IH]; intros [|x' v'] Hlen Hk; simpl in Hlen; [done..|].
  assert (length (filter (λ g, g ≠ c) v') ≤ length (filter (λ g, g ≠ c) v))%nat.
  { apply IH; [lia|]. intros k. apply (Hk (S k)). }
  rewrite !filter_cons. destruct (decide (x ≠ c)) as [|Hx]; destruct (decide (x' ≠ c)) as [Hx'|]; simpl; try lia.
  destruct Hx'. specialize (Hk 0%nat). simpl in Hk. assert (x = c) as -> by (destruct (decide (x = c)); [done|lia]).
  by injection (Hk eq_refl).
Qed.

Lemma unmarked_grew pos next s s' : grew pos next s s' → (unmarked s' ≤ unmarked s)%nat.
Proof.
  intros G. unfold unmarked. rewrite (g_step _ _ _ _ G). apply filter_ne_mono.
  - by rewrite (g_len _ _ _ _ G).
  - intros k Hk. destruct (g_marks _ _ _ _ G (Z.of_nat k)) as [_ H]; rewrite ?Nat2Z.id in *.
    + split; [lia|by rewrite Nat2Z.id].
    + by rewrite (g_step _ _ _ _ G) in H.
Qed.

Lemma unmarked_mark s x g :
  visited_gen s !! Z.to_nat x = Some g → g ≠ current_step s → (unmarked (mark s x) < unmarked s)%nat.
Proof.
  intros Hx Hg. unfold unmarked. simpl. revert Hx. generalize (Z.to_nat x). generalize (visited_gen s).
  intros v. induction v as [|y v IH]; intros [|k] Hk; simplify_eq/=.
  - rewrite !filter_cons, decide_False, decide_True by (auto; lia). simpl. lia.
  - rewrite !filter_cons. specialize (IH _ Hk). destruct (decide (y ≠ current_step s)); simpl; lia.
Qed.

Lemma unmarked_bound s : (unmarked s ≤ length (visited_gen s))%nat.
Proof. unfold unmarked. apply length_filter. Qed.

(** There is room for a thread at an instruction that had no mark. *)
Lemma tidy_room next s x :
  length (visited_gen s) = length prog → tidy next s → ¬ marked s x → 0 ≤ x < inst_count re →
  Z.of_nat (length (lst next s)) < inst_count re.
Proof.
  intros Hlen [Hnd Hf] Hx Hrange. unfold inst_count in *.
  assert (x :: (pc <$> lst next s) ⊆+ seqZ 0 (Z.of_nat (length prog))) as H.
  { apply NoDup_submseteq.
    - constructor; [|done]. intros (t & -> & Ht)%list_elem_of_fmap.
      by apply (proj1 (Forall_forall _ _) Hf) in Ht.
    - intros y [->|(t & -> & Ht)%list_elem_of_fmap]%elem_of_cons; apply elem_of_seqZ; [lia|].
      apply (proj1 (Forall_forall _ _) Hf) in Ht as [? H%lookup_lt_Some]. lia. }
  apply submseteq_length in H. rewrite length_seqZ in H. simpl in H. rewrite length_fmap in H. lia.
Qed.

(** ** [add_thread] *)

Lemma wp_text_at (Q : Z → vm → Prop) i c s : 0 ≤ i → tx text i = Some c → Q c s → wp (text_at text i) Q s.
Proof. unfold wp, text_at, tx. intros Hi ->. done. Qed.

Lemma tx_some i : 0 ≤ i < tlen → is_Some (tx text i).
Proof. unfold tx, text_len. intros H. apply lookup_lt_is_Some. lia. Qed.

Lemma tx_none i : tlen ≤ i → tx text i = None.
Proof. unfold tx, text_len. intros H. apply lookup_ge_None. lia. Qed.

Lemma wp_check_bol (Q : bool → vm → Prop) pos s :
  0 ≤ pos ≤ tlen → Q (at_bol fl text pos) s → wp (check_bol re text pos) Q s.
Proof.
  intros Hpos HQ. unfold check_bol, at_bol, by_line in *. fold (multiline re) in HQ.
  destruct (Z.eqb_spec pos 0) as [->|]; [done|]. simpl in HQ. destruct (multiline re); [|done].
  destruct (tx_some (pos - 1)) as [c Hc]; [lia|]. apply wp_bind. eapply wp_text_at; [lia|done|].
  apply wp_ret. rewrite Hc in HQ. simpl in HQ.
  destruct (Z.eqb_spec c 10) as [->|]; [by rewrite bool_decide_true in HQ|].
  by rewrite bool_decide_false in HQ by congruence.
Qed.

Lemma wp_check_eol (Q : bool → vm → Prop) pos s :
  0 ≤ pos ≤ tlen → Q (at_eol fl text pos) s → wp (check_eol re text pos) Q s.
Proof.
  intros Hpos HQ. unfold check_eol, at_eol, by_line in *. fold (multiline re) in HQ.
  destruct (Z.eqb_spec pos tlen) as [->|]; [done|]. simpl in HQ. destruct (multiline re); [|done].
  rewrite (proj2 (Z.ltb_lt _ _)) by lia. simpl.
  destruct (tx_some pos) as [c Hc]; [lia|]. apply wp_bind. eapply wp_text_at; [lia|done|].
  apply wp_ret. rewrite Hc in HQ. simpl in HQ.
  destruct (Z.eqb_spec c 10) as [->|]; [by rewrite bool_decide_true in HQ|].
  by rewrite bool_decide_false in HQ by congruence.
Qed.

Lemma wp_check_boundary (Q : bool → vm → Prop) pos s :
  0 ≤ pos ≤ tlen → Q (at_boundary text pos) s → wp (check_boundary text pos) Q s.
Proof.
  intros Hpos HQ. unfold check_boundary. apply wp_bind.
  assert (∀ (K : bool → vm → Prop), K ((0 <? pos) && word_at text (pos - 1)) s →
    wp (if 0 <? pos then c <- text_at text (pos - 1) ;; mret (is_word c) else mret false) K s) as H1.
  { intros K HK. destruct (Z.ltb_spec 0 pos); [|done]. simpl in HK. unfold word_at in HK.
    destruct (tx_some (pos - 1)) as [c Hc]; [lia|]. rewrite Hc in HK. apply wp_bind.
    by eapply wp_text_at; [lia|done|]. }
  apply H1. apply wp_bind.
  assert (∀ (K : bool → vm → Prop), K (word_at text pos) s →
    wp (if pos <? tlen then c <- text_at text pos ;; mret (is_word c) else mret false) K s) as H2.
  { intros K HK. unfold word_at in HK. destruct (Z.ltb_spec pos tlen).
    - destruct (tx_some pos) as [c Hc]; [lia|]. rewrite Hc in HK. apply wp_bind.
      by eapply wp_text_at; [lia|done|].
    - rewrite tx_none in HK by lia. done. }
  apply H2. done.
Qed.

Definition post (pos : Z) (next : bool) (t : pike_thread) (s s' : vm) : Prop :=
  grew pos next s s' ∧ (pc t < inst_count re → marked s' (pc t)) ∧
  (tidy next s → closed pos next s s').

(** The situation after [visited_gen[pc] = current_step]. *)
Record fresh (pos : Z) (t : pike_thread) (i : cobalt_regex_inst) (s : vm) : Prop := {
  f_len : length (visited_gen s) = length prog;
  f_thr : thr_ok pos t;
  f_inst : prog !! Z.to_nat (pc t) = Some i;
  f_unmarked : ¬ marked s (pc t);
  f_best : best_ok s
}.

Lemma fresh_range pos t i s : fresh pos t i s → 0 ≤ pc t < inst_count re.
Proof.
  intros F. destruct (f_thr _ _ _ _ F) as [_ Ht]. apply reach_inv in Ht as [? _].
  pose proof (lookup_lt_Some _ _ _ (f_inst _ _ _ _ F)). unfold inst_count. lia.
Qed.

Lemma fresh_tidy pos t i s next : fresh pos t i s → tidy next s → tidy next (mark s (pc t)).
Proof.
  intros F. apply (grew_tidy pos). apply grew_mark; [apply (f_len _ _ _ _ F)|by eapply fresh_range].
Qed.

(** Nothing more to do at this instruction. *)
Lemma post_stop pos next t i s :
  fresh pos t i s → consuming i = false → opcode i ≠ OP_MATCH → (∀ y, ¬ estep pos (pc t) y) →
  post pos next t s (mark s (pc t)).
Proof.
  intros F Hc Hm He. pose proof (fresh_range _ _ _ _ F) as Hr. pose proof (f_len _ _ _ _ F) as Hl.
  split_and!; [by apply grew_mark|intros _; apply marked_mark; auto|].
  intros _. eapply closed_mark; [done|done|by intros x; left|]. split_and!.
  - intros y Hy. by destruct (He y).
  - intros i' Hi'. rewrite (f_inst _ _ _ _ F) in Hi'. injection Hi' as <-. congruence.
  - intros i' Hi'. rewrite (f_inst _ _ _ _ F) in Hi'. by injection Hi' as <-.
Qed.

(** The recursive calls made for an instruction, one after the other. *)
Lemma post_next pos next t i t' s s' :
  fresh pos t i s → consuming i = false → opcode i ≠ OP_MATCH →
  (∀ y, estep pos (pc t) y → y = pc t') → post pos next t' (mark s (pc t)) s' → post pos next t s s'.
Proof.
  intros F Hc Hm He (G & Hmk & Hcl). pose proof (fresh_range _ _ _ _ F) as Hr.
  pose proof (f_len _ _ _ _ F) as Hl. split_and!.
  - eapply grew_trans; [by apply grew_mark|done].
  - intros _. apply (g_marks _ _ _ _ G), marked_mark; auto.
  - intros Ht. eapply closed_mark; [done|done|by apply Hcl; eapply fresh_tidy|]. split_and!.
    + intros y Hy Hlt. pose proof (He y Hy) as ->. by apply Hmk.
    + intros i' Hi'. rewrite (f_inst _ _ _ _ F) in Hi'. injection Hi' as <-. congruence.
    + intros i' Hi'. rewrite (f_inst _ _ _ _ F) in Hi'. by injection Hi' as <-.
Qed.

Lemma post_next2 pos next t i t1 t2 s s1 s2 :
  fresh pos t i s → consuming i = false → opcode i ≠ OP_MATCH →
  (∀ y, estep pos (pc t) y → y = pc t1 ∨ y = pc t2) →
  post pos next t1 (mark s (pc t)) s1 → post pos next t2 s1 s2 → post pos next t s s2.
Proof.
  intros F Hc Hm He (G1 & Hmk1 & Hcl1) (G2 & Hmk2 & Hcl2). pose proof (fresh_range _ _ _ _ F) as Hr.
  pose proof (f_len _ _ _ _ F) as Hl. split_and!.
  - eapply grew_trans; [by apply grew_mark|]. by eapply grew_trans.
  - intros _. apply (g_marks _ _ _ _ G2), (g_marks _ _ _ _ G1), marked_mark; auto.
  - intros Ht. pose proof (fresh_tidy _ _ _ _ next F Ht) as Ht1.
    eapply closed_mark; [done|done|eapply closed_trans; [done|by apply Hcl1|]|].
    { apply Hcl2. by eapply grew_tidy. }
    split_and!.
    + intros y Hy Hlt. destruct (He y Hy) as [-> | ->]; [by apply (g_marks _ _ _ _ G2), Hmk1|by apply Hmk2].
    + intros i' Hi'. rewrite (f_inst _ _ _ _ F) in Hi'. injection Hi' as <-. congruence.
    + intros i' Hi'. rewrite (f_inst _ _ _ _ F) in Hi'. by injection Hi' as <-.
Qed.

Definition push (next : bool) (s : vm) (t : pike_thread) : vm :=
  if next then with_nlist s (nlist s ++ [t]) else with_clist s (clist s ++ [t]).

Lemma wp_push_thread (Q : unit → vm → Prop) next t s :
  (Z.of_nat (length (lst next s)) < inst_count re → Q tt (push next s t)) →
  (inst_count re ≤ Z.of_nat (length (lst next s)) → Q tt s) →
  wp (push_thread re next t) Q s.
Proof.
  intros H1 H2. unfold push_thread. apply wp_bind, wp_get.
  destruct next; simpl in H1, H2; case_match eqn:E;
    [apply Z.ltb_lt in E; by apply wp_put, H1|apply Z.ltb_ge in E; by apply wp_ret, H2|
     apply Z.ltb_lt in E; by apply wp_put, H1|apply Z.ltb_ge in E; by apply wp_ret, H2].
Qed.

Lemma lst_push next s t : lst next (push next s t) = lst next s ++ [t].
Proof. by destruct next. Qed.

Lemma lst_push_other next s t : lst (negb next) (push next s t) = lst (negb next) s.
Proof. by destruct next. Qed.

Lemma marked_push next s t x : marked (push next s t) x ↔ marked s x.
Proof. by destruct next. Qed.

Lemma lst_mark next s x : lst next (mark s x) = lst next s.
Proof. by destruct next. Qed.

Lemma estep_consuming pos x i y : prog !! Z.to_nat x = Some i → consuming i = true → ¬ estep pos x y.
Proof.
  intros Hi Hc (i' & Hi' & H). rewrite Hi in Hi'. injection Hi' as <-.
  unfold consuming in Hc. by destruct (opcode i).
Qed.

(** A consuming instruction. *)
Lemma wp_add_push pos next t i s :
  fresh pos t i s → consuming i = true →
  wp (push_thread re next t) (λ _ s', post pos next t s s') (mark s (pc t)).
Proof.
  intros F Hc. pose proof (fresh_range _ _ _ _ F) as Hr. pose proof (f_len _ _ _ _ F) as Hl.
  pose proof (marked_mark s (pc t) (pc t) Hl Hr) as Hself.
  apply wp_push_thread; rewrite lst_mark; intros Hroom.
  - split_and!.
    + split; try (by destruct next).
      * destruct next; simpl; by rewrite length_insert.
      * intros y Hy. apply marked_push, marked_mark; auto.
      * exists [t]. rewrite lst_push, lst_mark. split_and!; [done|apply NoDup_singleton|].
        constructor; [|constructor]. split_and!; [apply (f_thr _ _ _ _ F)|apply (f_unmarked _ _ _ _ F)|].
        apply marked_push, Hself. auto.
      * intros Hg. apply (g_gens _ _ _ _ (grew_mark pos next s (pc t) Hl Hr)) in Hg. by destruct next.
      * intros _. unfold in_room. rewrite lst_push, lst_mark, length_app. simpl. lia.
    + intros _. apply marked_push, Hself. auto.
    + intros _ y Hy%marked_push%marked_mark; [|done|done]. destruct Hy as [->|]; [right|by left].
      split_and!.
      * intros y Hy. by destruct (estep_consuming _ _ _ _ (f_inst _ _ _ _ F) Hc Hy).
      * intros _ _ _. exists t. rewrite lst_push. split; [set_solver|done].
      * intros i' Hi'. rewrite (f_inst _ _ _ _ F) in Hi'. injection Hi' as <-. intros Hm.
        unfold consuming in Hc. by rewrite Hm in Hc.
  - split_and!; [by apply grew_mark|intros _; apply Hself; auto|].
    intros Ht. pose proof (tidy_room next s (pc t) Hl Ht (f_unmarked _ _ _ _ F) Hr). lia.
Qed.

Hypothesis Hfull : full = true → ∀ p pos sl i,
  reach p pos sl → prog !! Z.to_nat p = Some i → opcode i = OP_MATCH →
  sl !! 0%nat = Some 0 ∧ sl !! 1%nat = Some pos.

Lemma slot_some t pos k : thr_ok pos t → (k < num_slots)%nat → is_Some (slots t !! k).
Proof. intros [_ (_ & _ & Hl & _)%reach_inv] Hk. apply lookup_lt_is_Some. lia. Qed.

Lemma wp_get_slot (Q : Z → vm → Prop) t k v s :
  slots t !! Z.to_nat k = Some v → Q v s → wp (get_slot t k) Q s.
Proof. unfold wp, get_slot. by intros ->. Qed.

Lemma best_recorded pos t i s :
  fresh pos t i s → opcode i = OP_MATCH → (full = true → pos = tlen) →
  best_ok (with_best (mark s (pc t)) t).
Proof.
  intros F Hm Hf. destruct (f_thr _ _ _ _ F) as [_ Ht]. split; [by apply reach_inv in Ht as (_ & _ & ? & _)|].
  intros _. exists (pc t), pos, i. split_and!; [done|apply (f_inst _ _ _ _ F)|done|].
  intros E. split; [by apply Hf|]. by destruct (Hfull E _ _ _ _ Ht (f_inst _ _ _ _ F) Hm).
Qed.

(** [OP_MATCH], with and without a new best match. *)
Lemma post_recorded pos next t i s :
  fresh pos t i s → opcode i = OP_MATCH → (full = true → pos = tlen) →
  post pos next t s (with_best (mark s (pc t)) t).
Proof.
  intros F Hm Hf. pose proof (fresh_range _ _ _ _ F) as Hr. pose proof (f_len _ _ _ _ F) as Hl.
  pose proof (grew_mark pos next s (pc t) Hl Hr) as G.
  assert (∀ y, marked (with_best (mark s (pc t)) t) y ↔ y = pc t ∨ marked s y) as Hmk.
  { intros y. rewrite <- (marked_mark s (pc t) y Hl Hr). done. }
  split_and!.
  - split; [apply G..| | |done|intros _; by eapply best_recorded|apply G|]; [|by destruct next..].
    exists []. destruct next; simpl; rewrite app_nil_r; split_and!; try done; constructor.
  - intros _. apply Hmk. auto.
  - intros _ y Hy%Hmk. destruct Hy as [->|]; [right|by left]. split_and!; [| |done].
    + intros y (i' & Hi' & H). rewrite (f_inst _ _ _ _ F) in Hi'. injection Hi' as <-. by rewrite Hm in H.
    + intros i' Hi'. rewrite (f_inst _ _ _ _ F) in Hi'. injection Hi' as <-.
      unfold consuming. by rewrite Hm.
Qed.

Lemma post_unrecorded pos next t i s :
  fresh pos t i s → opcode i = OP_MATCH → ((full = true → pos = tlen) → matched s = true) →
  post pos next t s (mark s (pc t)).
Proof.
  intros F Hm Hf. pose proof (fresh_range _ _ _ _ F) as Hr. pose proof (f_len _ _ _ _ F) as Hl.
  split_and!; [by apply grew_mark|intros _; apply marked_mark; auto|].
  intros _. eapply closed_mark; [done|done|by intros x; left|]. split_and!.
  - intros y (i' & Hi' & H). rewrite (f_inst _ _ _ _ F) in Hi'. injection Hi' as <-. by rewrite Hm in H.
  - intros i' Hi'. rewrite (f_inst _ _ _ _ F) in Hi'. injection Hi' as <-. unfold consuming. by rewrite Hm.
  - intros i' _ _. apply Hf.
Qed.

Lemma wp_record_match pos next t i s :
  fresh pos t i s → opcode i = OP_MATCH →
  wp (record_match text full t pos) (λ _ s', post pos next t s s') (mark s (pc t)).
Proof.
  intros F Hm. destruct (f_thr _ _ _ _ F) as [Hrem Ht].
  assert (full = true ∨ full = false) as [Ef|Ef] by (destruct full; auto);
    unfold record_match; apply wp_bind, wp_get; rewrite Ef.
  - destruct (Hfull Ef _ _ _ _ Ht (f_inst _ _ _ _ F) Hm) as [H0 H1].
    apply wp_bind. eapply wp_get_slot; [exact H0|]. apply wp_bind. eapply wp_get_slot; [exact H1|].
    destruct (Z.eqb_spec pos tlen) as [->|]; simpl.
    + apply wp_put. by eapply post_recorded.
    + apply wp_ret. eapply post_unrecorded; [done|done|]. intros H. by destruct (H Ef).
  - destruct (slot_some t pos 0 (f_thr _ _ _ _ F) ltac:(unfold num_slots; lia)) as [v Hv].
    apply wp_bind. eapply wp_get_slot; [exact Hv|].
    destruct (lookup_lt_is_Some_2 (slots (best_match s)) 0) as [b Hb].
    { rewrite (proj1 (f_best _ _ _ _ F)). unfold num_slots. lia. }
    apply wp_bind. eapply wp_get_slot; [exact Hb|].
    destruct (matched s) eqn:Em; cbn [mark with_visited matched]; rewrite ?Em; simpl.
    + case_match; [apply wp_put; eapply post_recorded; [done|done|congruence]|].
      apply wp_ret. by eapply post_unrecorded.
    + apply wp_put. eapply post_recorded; [done|done|congruence].
Qed.

Lemma next_pc_val pos t i s : fresh pos t i s → pc (next_pc t) = pc t + 1.
Proof.
  intros F. apply fresh_range in F. simpl. unfold wrap32. apply Z.mod_small. unfold inst_count in *. lia.
Qed.

(** A thread that moves to the next instruction, perhaps with a new slot. *)
Lemma thr_next pos t i s t' sl' :
  fresh pos t i s → moves fl text i (pc t) (pos, slots t) (pc t + 1) (pos, sl') →
  pc t' = pc t → slots t' = sl' → backref_remaining t' = backref_remaining t → thr_ok pos (next_pc t').
Proof.
  intros F Hm Hpc Hsl Hr. pose proof (next_pc_val _ _ _ _ F) as E.
  eapply (thr_step pos t i); [apply (f_thr _ _ _ _ F)|apply (f_inst _ _ _ _ F)|exact Hm| |done|done].
  simpl in E |- *. by rewrite Hpc.
Qed.

Lemma estep_inst pos t i s y :
  fresh pos t i s → estep pos (pc t) y →
  match opcode i with
  | OP_JUMP => y = u_target i
  | OP_SPLIT => y = u_target1 i ∨ y = u_target2 i
  | OP_SAVE => y = pc t + 1
  | OP_BOL => y = pc t + 1 ∧ at_bol fl text pos = true
  | OP_EOL => y = pc t + 1 ∧ at_eol fl text pos = true
  | OP_WORD_BOUNDARY => y = pc t + 1 ∧ xorb (at_boundary text pos) (negb (sub_op i =? 0)) = true
  | _ => False
  end.
Proof. intros F (i' & Hi' & H). rewrite (f_inst _ _ _ _ F) in Hi'. by injection Hi' as <-. Qed.

Section recursion.
Variable fuel : nat.
Hypothesis IH : ∀ next t pos s,
  thr_ok pos t → length (visited_gen s) = length prog → best_ok s → (unmarked s < fuel)%nat →
  wp (add_thread re text full fuel next t pos) (λ _ s', post pos next t s s') s.

(** The call on the only successor. *)
Lemma wp_add_next pos next t i t' s :
  fresh pos t i s → (unmarked s < S fuel)%nat → consuming i = false → opcode i ≠ OP_MATCH →
  thr_ok pos t' → (∀ y, estep pos (pc t) y → y = pc t') →
  wp (add_thread re text full fuel next t' pos) (λ _ s', post pos next t s s') (mark s (pc t)).
Proof.
  intros F Hu Hc Hm Ht' He. pose proof (fresh_range _ _ _ _ F) as Hr. pose proof (f_len _ _ _ _ F) as Hl.
  destruct (lookup_lt_is_Some_2 (visited_gen s) (Z.to_nat (pc t))) as [g Hg].
  { rewrite Hl. unfold inst_count in Hr. lia. }
  eapply wp_mono; [apply IH|].
  - done.
  - simpl. by rewrite length_insert.
  - apply (f_best _ _ _ _ F).
  - assert (unmarked (mark s (pc t)) < unmarked s)%nat; [|lia]. eapply unmarked_mark; [done|].
    intros ->. apply (f_unmarked _ _ _ _ F). split; [lia|done].
  - intros [] s' Hp. by eapply post_next.
Qed.

(** An instruction that tests the position. *)
Lemma wp_add_test pos next t i s (b : bool) :
  fresh pos t i s → (unmarked s < S fuel)%nat → consuming i = false → opcode i ≠ OP_MATCH →
  (∀ y, estep pos (pc t) y → y = pc t + 1 ∧ b = true) →
  (b = true → moves fl text i (pc t) (pos, slots t) (pc t + 1) (pos, slots t)) →
  wp (if b then add_thread re text full fuel next (next_pc t) pos else mret tt)
     (λ _ s', post pos next t s s') (mark s (pc t)).
Proof.
  intros F Hu Hc Hm He Hmv. destruct b.
  - eapply wp_add_next; try done; [by eapply thr_next; auto|].
    intros y Hy. rewrite (next_pc_val _ _ _ _ F). by apply He.
  - apply wp_ret. eapply post_stop; try done. intros y Hy. by destruct (He y Hy).
Qed.

Lemma wp_add_split pos next t i s :
  fresh pos t i s → (unmarked s < S fuel)%nat → opcode i = OP_SPLIT →
  wp (add_thread re text full fuel next (set_pc t (u_target1 i)) pos ;;;
      add_thread re text full fuel next (set_pc t (u_target2 i)) pos)
     (λ _ s', post pos next t s s') (mark s (pc t)).
Proof.
  intros F Hu Ho. pose proof (f_len _ _ _ _ F) as Hl. pose proof (fresh_range _ _ _ _ F) as Hr.
  assert (∀ p', p' = u_target1 i ∨ p' = u_target2 i → thr_ok pos (set_pc t p')) as Ht.
  { intros p' Hp. eapply (thr_step pos t i p'); [apply (f_thr _ _ _ _ F)|apply (f_inst _ _ _ _ F)| |done..].
    unfold moves. rewrite Ho. auto. }
  destruct (lookup_lt_is_Some_2 (visited_gen s) (Z.to_nat (pc t))) as [g Hg].
  { rewrite Hl. unfold inst_count in Hr. lia. }
  assert (unmarked (mark s (pc t)) < unmarked s)%nat.
  { eapply unmarked_mark; [done|]. intros ->. apply (f_unmarked _ _ _ _ F). split; [lia|done]. }
  apply wp_bind. eapply wp_mono; [apply IH; [by apply Ht; left|simpl; by rewrite length_insert|apply (f_best _ _ _ _ F)|lia]|].
  intros [] s1 Hp1. pose proof (proj1 Hp1) as G1. pose proof (unmarked_grew _ _ _ _ G1).
  eapply wp_mono; [apply IH; [by apply Ht; right| |apply (g_best _ _ _ _ G1), (f_best _ _ _ _ F)|lia]|].
  { rewrite (g_len _ _ _ _ G1). simpl. by rewrite length_insert. }
  intros [] s2 Hp2. eapply post_next2; [done|by unfold consuming; rewrite Ho|by rewrite Ho| |done|done].
  intros y Hy. apply (estep_inst _ _ _ _ _ F) in Hy. by rewrite Ho in Hy.
Qed.

(** The body of [add_thread] once the instruction is marked. *)
Lemma wp_add_inst pos next t i s :
  fresh pos t i s → (unmarked s < S fuel)%nat →
  wp (match opcode i with
      | OP_JUMP => add_thread re text full fuel next (set_pc t (u_target i)) pos
      | OP_SPLIT =>
          add_thread re text full fuel next (set_pc t (u_target1 i)) pos ;;;
          add_thread re text full fuel next (set_pc t (u_target2 i)) pos
      | OP_SAVE =>
          let t := if sub_op i <? 2 * COBALT_REGEX_MAX_CAPTURES then set_slot t (sub_op i) pos else t in
          add_thread re text full fuel next (next_pc t) pos
      | OP_BOL =>
          at_bol <- check_bol re text pos ;;
          if at_bol : bool then add_thread re text full fuel next (next_pc t) pos else mret tt
      | OP_EOL =>
          at_eol <- check_eol re text pos ;;
          if at_eol : bool then add_thread re text full fuel next (next_pc t) pos else mret tt
      | OP_WORD_BOUNDARY =>
          is_boundary <- check_boundary text pos ;;
          if xorb is_boundary (negb (sub_op i =? 0))
          then add_thread re text full fuel next (next_pc t) pos else mret tt
      | OP_MATCH => record_match text full t pos
      | OP_CHAR | OP_ANY | OP_CLASS | OP_BACKREF => push_thread re next t
      end) (λ _ s', post pos next t s s') (mark s (pc t)).
Proof.
  intros F Hu. destruct (f_thr _ _ _ _ F) as [_ Hreach]. destruct (reach_inv _ _ _ Hreach) as (_ & Hpos & _).
  pose proof (estep_inst pos t i s) as He.
  destruct (opcode i) eqn:Ho;
    try (eapply wp_add_push; [done|by unfold consuming; rewrite Ho]).
  - apply wp_bind, wp_check_bol; [done|].
    eapply wp_add_test; try done; [by unfold consuming; rewrite Ho|by rewrite Ho|by intros y Hy; apply He|].
    intros Hb. unfold moves. rewrite Ho. done.
  - apply wp_bind, wp_check_eol; [done|].
    eapply wp_add_test; try done; [by unfold consuming; rewrite Ho|by rewrite Ho|by intros y Hy; apply He|].
    intros Hb. unfold moves. rewrite Ho. done.
  - apply wp_bind, wp_check_boundary; [done|].
    eapply wp_add_test; try done; [by unfold consuming; rewrite Ho|by rewrite Ho|by intros y Hy; apply He|].
    intros Hb. unfold moves. rewrite Ho. done.
  - eapply wp_add_next; try done; [by unfold consuming; rewrite Ho|by rewrite Ho| |by intros y Hy; apply He].
    eapply (thr_step pos t i); [apply (f_thr _ _ _ _ F)|apply (f_inst _ _ _ _ F)| |done..].
    unfold moves. by rewrite Ho.
  - by apply wp_add_split.
  - pose proof (proj1 (Forall_lookup _ _) Hprog _ _ (f_inst _ _ _ _ F)) as Hok.
    unfold inst_ok in Hok. rewrite Ho in Hok. rewrite (proj2 (Z.ltb_lt _ _)) by lia.
    eapply wp_add_next; try done; [by unfold consuming; rewrite Ho|by rewrite Ho| |].
    + eapply thr_next; [done| |done..]. unfold moves. by rewrite Ho.
    + intros y Hy. apply He in Hy; [|done]. rewrite Hy. symmetry. apply (next_pc_val _ _ _ _ F).
  - by eapply wp_record_match.
Qed.
End recursion.

Lemma wp_add_thread fuel : ∀ next t pos s,
  thr_ok pos t → length (visited_gen s) = length prog → best_ok s → (unmarked s < fuel)%nat →
  wp (add_thread re text full fuel next t pos) (λ _ s', post pos next t s s') s.
Proof.
  induction fuel as [|fuel IH]; intros next t pos s Ht Hl Hb Hu; [lia|]. cbn [add_thread].
  destruct (Z.leb_spec (inst_count re) (pc t)) as [Hge|Hlt].
  { apply wp_ret. split_and!; [apply grew_refl|lia|by intros _ x; left]. }
  destruct Ht as [Hrem Hreach]. pose proof (proj1 (reach_inv _ _ _ Hreach)) as Hpc.
  destruct (lookup_lt_is_Some_2 (visited_gen s) (Z.to_nat (pc t))) as [g Hg].
  { rewrite Hl. unfold inst_count in Hlt. lia. }
  destruct (lookup_lt_is_Some_2 prog (Z.to_nat (pc t))) as [i Hi].
  { unfold inst_count in Hlt. lia. }
  apply wp_bind, wp_get. rewrite Hg, Hi. destruct (Z.eqb_spec g (current_step s)) as [->|Hne].
  { apply wp_ret. split_and!; [apply grew_refl|by intros _|by intros _ x; left]. }
  apply wp_bind, wp_put. apply (wp_add_inst fuel IH); [|done].
  split; try done. intros [_ Hm]. rewrite Hg in Hm. congruence.
Qed.
End pike.
End RegexPike.
