(* ===== verification/RegexRun.v ===== *)
(** * A run of the Pike machine over a text

    Every thread of the machine stands for a run of the nondeterministic machine,
    perhaps in the middle of a backreference; without backreferences there is a
    thread for every such run, so a match is found exactly when there is one. *)
From stdpp Require Import relations.
From S2P Require Import Prelude World Regex RegexVM RegexSem RegexPike.

Module RegexRun.
Import Regex RegexVM RegexSem RegexPike.

Section run.
Variables (re : cobalt_regex) (text : list Z) (full : bool) (start_pc : Z).
Notation prog := (code re).
Notation fl := (re_flags re).
Notation nst := (nstep fl text prog).
Notation tlen := (text_len text).
Notation reach := (reach re text start_pc).
Notation thr_ok := (thr_ok re text start_pc).
Notation best_ok := (best_ok re text full start_pc).
Notation grew := (grew re text full start_pc).
Notation post := (post re text full start_pc).
Notation handled := (handled re text full).

Hypothesis Hprog : Forall inst_ok prog.
Hypothesis Hsize : inst_count re < 2 ^ 32.
Hypothesis Hstart : 0 ≤ start_pc.
Hypothesis Htlen : tlen < UNSET.
Hypothesis Hfull : full = true → ∀ p pos sl i,
  reach p pos sl → prog !! Z.to_nat p = Some i → opcode i = OP_MATCH →
  sl !! 0%nat = Some 0 ∧ sl !! 1%nat = Some pos.

(** ** Threads in the middle of a backreference *)

Definition mid (pos : Z) (t : pike_thread) : Prop :=
  ∃ i s e, prog !! Z.to_nat (pc t) = Some i ∧ opcode i = OP_BACKREF ∧ backref_gid t = sub_op i ∧
    0 < backref_remaining t ∧ 0 < backref_offset t ∧ backref_offset t + backref_remaining t = e - s ∧
    slots t !! Z.to_nat (2 * sub_op i) = Some s ∧ slots t !! Z.to_nat (2 * sub_op i + 1) = Some e ∧
    s ≠ UNSET ∧ e ≠ UNSET ∧
    reach (pc t) (pos - backref_offset t) (slots t) ∧
    same_text text (has_flag (flags i) 1) s (pos - backref_offset t) (backref_offset t).

Definition tinv (pos : Z) (t : pike_thread) : Prop :=
  (thr_ok pos t ∨ mid pos t) ∧ is_Some (prog !! Z.to_nat (pc t)).

Record vinv (pos : Z) (s : vm) : Prop := {
  v_len : length (visited_gen s) = length prog;
  v_best : best_ok s;
  v_gens : gens_ok s;
  v_clist : Forall (tinv pos) (clist s);
  v_nlist : Forall (tinv (pos + 1)) (nlist s);
  v_croom : in_room re false s;
  v_nroom : in_room re true s
}.

(** The positions of the two lists. *)
Definition list_pos (pos : Z) (next : bool) : Z := if next then pos + 1 else pos.

Lemma grew_threads pos next s s' :
  length (visited_gen s') = length prog → grew pos next s s' →
  Forall (tinv pos) (lst next s) → Forall (tinv pos) (lst next s').
Proof.
  intros Hl G HF. destruct (g_list _ _ _ _ _ _ _ _ G) as (l & -> & _ & Fl). apply Forall_app. split; [done|].
  eapply Forall_impl; [exact Fl|]. simpl. intros t (Ht & _ & _ & Hm%lookup_lt_Some).
  split; [by left|]. apply lookup_lt_is_Some. lia.
Qed.

Lemma grew_vinv pos next s s' : grew (list_pos pos next) next s s' → vinv pos s → vinv pos s'.
Proof.
  intros G V. assert (length (visited_gen s') = length prog) as Hl'.
  { rewrite (g_len _ _ _ _ _ _ _ _ G). apply (v_len _ _ V). }
  pose proof (grew_threads _ _ _ _ Hl' G) as HF. pose proof (g_other _ _ _ _ _ _ _ _ G) as Ho.
  pose proof (g_room _ _ _ _ _ _ _ _ G) as Hr. unfold in_room in *.
  split; [done|by apply (g_best _ _ _ _ _ _ _ _ G), V|by apply (g_gens _ _ _ _ _ _ _ _ G), V| | | |];
    destruct next; unfold in_room; simpl in *; rewrite ?Ho; try apply V.
  - by apply HF, V.
  - by apply HF, V.
  - by apply Hr, V.
  - by apply Hr, V.
Qed.

(** The state after some work on the threads of [clist]. *)
Definition after (pos : Z) (s s' : vm) : Prop :=
  vinv pos s' ∧ current_step s' = current_step s ∧ (∃ l, clist s' = clist s ++ l) ∧
  (matched s = true → matched s' = true).

Lemma after_grew pos next s s' : vinv pos s → grew (list_pos pos next) next s s' → after pos s s'.
Proof.
  intros V G. split_and!; [by eapply grew_vinv|apply (g_step _ _ _ _ _ _ _ _ G)| |apply (g_matched _ _ _ _ _ _ _ _ G)].
  destruct next.
  - exists []. rewrite app_nil_r. apply (g_other _ _ _ _ _ _ _ _ G).
  - destruct (g_list _ _ _ _ _ _ _ _ G) as (l & E & _). by exists l.
Qed.

Lemma after_refl pos s : vinv pos s → after pos s s.
Proof. intros V. split_and!; try done. exists []. by rewrite app_nil_r. Qed.

Lemma wp_add pos next t s (Q : unit → vm → Prop) :
  vinv pos s → thr_ok (list_pos pos next) t →
  (∀ s', post (list_pos pos next) next t s s' → Q tt s') →
  wp (add_thread re text full (fuel_for re) next t (list_pos pos next)) Q s.
Proof.
  intros V Ht HQ. eapply wp_mono; [eapply wp_add_thread; try done; [apply V|apply V|]|].
  - pose proof (unmarked_bound s). rewrite (v_len _ _ V) in *. unfold fuel_for. lia.
  - intros [] s' Hp. by apply HQ.
Qed.

Lemma wp_push_mid pos t s :
  vinv pos s → tinv (pos + 1) t → wp (push_thread re true t) (λ _ s', after pos s s') s.
Proof.
  intros V Ht. apply wp_push_thread; intros Hr; [|by apply after_refl].
  split_and!; try done; [|by exists []; rewrite app_nil_r].
  split; try apply V; simpl.
  - apply Forall_app. split; [apply V|by constructor].
  - unfold in_room. simpl. rewrite length_app. simpl in Hr |- *. lia.
Qed.

Lemma wp_slot (Q : Z → vm → Prop) t k v s :
  slots t !! Z.to_nat k = Some v → Q v s → wp (get_slot t k) Q s.
Proof. unfold wp, get_slot. by intros ->. Qed.

(** The end of a backreference is a step of the machine. *)
Lemma reach_repeats p pos sl i s e p' :
  reach p pos sl → prog !! Z.to_nat p = Some i → opcode i = OP_BACKREF →
  sl !! Z.to_nat (2 * sub_op i) = Some s → sl !! Z.to_nat (2 * sub_op i + 1) = Some e →
  s ≠ UNSET → e ≠ UNSET → s ≤ e → same_text text (has_flag (flags i) 1) s pos (e - s) →
  p' = p + 1 → reach p' (pos + (e - s)) sl.
Proof.
  intros Hr Hi Ho Hs He Hs' He' Hse Ht ->. eapply rtc_r; [exact Hr|]. exists i.
  destruct (reach_inv re text start_pc Hprog Hstart _ _ _ Hr) as [? _]. split_and!; [done|done|].
  unfold moves. rewrite Ho. split; [done|]. exists s, e. by split_and!.
Qed.

Lemma next_pc_wrap t : is_Some (prog !! Z.to_nat (pc t)) → 0 ≤ pc t → pc (next_pc t) = pc t + 1.
Proof.
  intros Hl%lookup_lt_is_Some Hp. simpl. unfold wrap32. apply Z.mod_small. unfold inst_count in Hsize. lia.
Qed.

Lemma slot_range p pos sl k v : reach p pos sl → sl !! k = Some v → v ≠ UNSET → 0 ≤ v ≤ tlen.
Proof.
  intros (_ & _ & _ & HF)%(reach_inv re text start_pc Hprog Hstart) Hk Hv.
  destruct (proj1 (Forall_lookup _ _) HF _ _ Hk); [done|lia].
Qed.

Lemma same_text_snoc ci s p n c d :
  same_text text ci s p n → tx text (p + n) = Some c → tx text (s + n) = Some d → char_eq ci c d = true →
  same_text text ci s p (n + 1).
Proof.
  intros H Hc Hd He i Hi. destruct (decide (i = n)) as [->|]; [by exists c, d|]. apply H. lia.
Qed.

(** ** One thread *)

Lemma wp_continue_backref pos t i c s :
  vinv pos s → mid pos t → prog !! Z.to_nat (pc t) = Some i → tx text pos = Some c →
  wp (continue_backref re text full i t c pos) (λ _ s', after pos s s') s.
Proof.
  intros V (i' & st & e & Hi & Ho & Hg & Hrem & Hoff & Hsum & Hs & He & Hs' & He' & Hr & Ht) Hi' Hc.
  rewrite Hi' in Hi. injection Hi as <-.
  pose proof (slot_range _ _ _ _ _ Hr Hs Hs') as Hrs. pose proof (slot_range _ _ _ _ _ Hr He He') as Hre.
  unfold continue_backref. rewrite Hg. apply wp_bind. eapply wp_slot; [exact Hs|].
  rewrite (proj2 (Z.eqb_neq _ _) Hs'). unfold wrap64. rewrite Z.mod_small by (unfold UNSET, SIZE_MAX in *; lia).
  rewrite (proj2 (Z.ltb_lt _ _)) by lia. cbn [negb andb].
  destruct (tx_some text (st + backref_offset t)) as [d Hd]; [lia|].
  apply wp_bind, wp_bind. eapply wp_text_at; [lia|exact Hd|]. apply wp_ret.
  rewrite same_char_eq. destruct (char_eq _ c d) eqn:E; [|by apply wp_ret, after_refl].
  pose proof (same_text_snoc _ _ _ _ c d Ht) as Ht'.
  replace (pos - backref_offset t + backref_offset t) with pos in Ht' by lia.
  specialize (Ht' Hc Hd E).
  set (t' := set_backref t (sub_op i) (backref_offset t + 1) (backref_remaining t - 1)).
  destruct (reach_inv re text start_pc Hprog Hstart _ _ _ Hr) as (Hpc & _).
  change (backref_remaining t') with (backref_remaining t - 1).
  destruct (Z.eqb_spec (backref_remaining t - 1) 0) as [E0|E0].
  - apply (wp_add pos true); [done| |intros s' Hp; by eapply after_grew; [|apply Hp]].
    split; [done|]. simpl. replace (pos + 1) with (pos - backref_offset t + (e - st)) by lia.
    eapply reach_repeats; try done; [lia| |apply next_pc_wrap; [by eexists|done]].
    by replace (e - st) with (backref_offset t + 1) by lia.
  - apply wp_push_mid; [done|]. split; [|by eexists]. right. exists i, st, e. simpl.
    replace (pos + 1 - (backref_offset t + 1)) with (pos - backref_offset t) by lia.
    split_and!; try done; lia.
Qed.

Lemma wp_start_backref pos t i c s :
  vinv pos s → thr_ok pos t → prog !! Z.to_nat (pc t) = Some i → opcode i = OP_BACKREF →
  tx text pos = Some c →
  wp (start_backref re text full i t c pos) (λ _ s', after pos s s') s.
Proof.
  intros V [Hrem Hr] Hi Ho Hc. destruct (reach_inv re text start_pc Hprog Hstart _ _ _ Hr) as (Hpc & Hpos & Hlen & _).
  pose proof (proj1 (Forall_lookup _ _) Hprog _ _ Hi) as Hok. unfold inst_ok in Hok. rewrite Ho in Hok.
  unfold COBALT_REGEX_MAX_CAPTURES in Hok. unfold start_backref.
  destruct (lookup_lt_is_Some_2 (slots t) (Z.to_nat (2 * sub_op i))) as [st Hs]; [rewrite Hlen; unfold num_slots; lia|].
  destruct (lookup_lt_is_Some_2 (slots t) (Z.to_nat (2 * sub_op i + 1))) as [e He]; [rewrite Hlen; unfold num_slots; lia|].
  apply wp_bind. eapply wp_slot; [exact Hs|]. apply wp_bind. eapply wp_slot; [exact He|].
  destruct (Z.eqb_spec st UNSET) as [|Hs']; [by apply wp_ret, after_refl|].
  destruct (Z.eqb_spec e UNSET) as [|He']; [by apply wp_ret, after_refl|].
  destruct (Z.leb_spec st e) as [Hse|]; [|by apply wp_ret, after_refl]. cbn [negb andb].
  pose proof (slot_range _ _ _ _ _ Hr Hs Hs') as Hrs. pose proof (slot_range _ _ _ _ _ Hr He He') as Hre.
  assert (pc (next_pc t) = pc t + 1) as Hn by (apply next_pc_wrap; [by eexists|done]).
  destruct (Z.eqb_spec (e - st) 0) as [E0|E0].
  { apply (wp_add pos false); [done| |intros s' Hp; by eapply after_grew; [|apply Hp]].
    split; [done|]. simpl. replace pos with (pos + (e - st)) by lia.
    eapply reach_repeats; try done. intros j Hj. lia. }
  destruct (tx_some text st) as [d Hd]; [lia|].
  apply wp_bind. eapply wp_text_at; [lia|exact Hd|].
  rewrite same_char_eq. destruct (char_eq _ c d) eqn:E; [|by apply wp_ret, after_refl].
  assert (same_text text (has_flag (flags i) 1) st pos 1) as Ht.
  { intros j Hj. assert (j = 0) as -> by lia. rewrite !Z.add_0_r. by exists c, d. }
  destruct (Z.eqb_spec (e - st) 1) as [E1|E1].
  - apply (wp_add pos true); [done| |intros s' Hp; by eapply after_grew; [|apply Hp]].
    split; [done|]. simpl. replace (pos + 1) with (pos + (e - st)) by lia.
    eapply reach_repeats; try done. by rewrite E1.
  - apply wp_push_mid; [done|]. split; [|by eexists]. right. exists i, st, e. simpl.
    replace (pos + 1 - 1) with pos by lia. split_and!; try done; lia.
Qed.

(** What a thread without a backreference adds to the search. *)
Definition extended (pos : Z) (t : pike_thread) (c : Z) (s s' : vm) : Prop :=
  grew (pos + 1) true s s' ∧ (tidy true s → closed re text full (pos + 1) true s s') ∧
  (∀ i, prog !! Z.to_nat (pc t) = Some i → char_matches i c = true →
        pc t + 1 < inst_count re → marked s' (pc t + 1)).

Lemma wp_step_thread pos t c s :
  vinv pos s → tinv pos t → tx text pos = Some c →
  wp (step_thread re text full t c pos) (λ _ s', after pos s s' ∧
    (Forall (λ i, opcode i ≠ OP_BACKREF) prog → extended pos t c s s')) s.
Proof.
  intros V [Ht [i Hi]] Hc. unfold step_thread. rewrite Hi.
  assert (∀ K : M vm unit, opcode i = OP_BACKREF → wp K (λ _ s', after pos s s') s → wp K (λ _ s', after pos s s' ∧
    (Forall (λ i, opcode i ≠ OP_BACKREF) prog → extended pos t c s s')) s) as Hbr.
  { intros K Ho HK. eapply wp_mono; [exact HK|]. simpl. intros _ s' Ha. split; [done|].
    intros HF. by destruct (proj1 (Forall_lookup _ _) HF _ _ Hi). }
  destruct (Z.ltb_spec 0 (backref_remaining t)) as [Hrem|Hrem].
  { destruct Ht as [[? _]|Hm]; [lia|]. pose proof Hm as (i' & _ & _ & Hi' & Ho & _).
    apply Hbr; [congruence|]. by apply wp_continue_backref. }
  destruct Ht as [Ht|(? & ? & ? & _ & _ & _ & ? & _)]; [|lia].
  destruct (decide (opcode i = OP_BACKREF)) as [Ho|Ho].
  { apply Hbr; [done|]. rewrite Ho. by apply wp_start_backref. }
  assert (∀ K1 K2 : M vm unit, match opcode i with OP_BACKREF => K1 | _ => K2 end = K2) as Em.
  { intros. by destruct (opcode i). }
  rewrite Em. destruct Ht as [Hr0 Hr]. destruct (reach_inv re text start_pc Hprog Hstart _ _ _ Hr) as (Hpc & _).
  assert (pc (next_pc t) = pc t + 1) as Hn by (apply next_pc_wrap; [by eexists|done]).
  destruct (char_matches i c) eqn:Ec.
  - apply (wp_add pos true); [done| |].
    + split; [done|]. rewrite Hn. eapply rtc_r; [exact Hr|]. exists i. split_and!; [done|done|].
      unfold moves, one_char. unfold char_matches in Ec. simpl.
      destruct (opcode i) eqn:Ho'; try done; (split; [done|]); exists c; split_and!; try done;
        unfold char_matches; by rewrite Ho'.
    + intros s' Hp. split; [by eapply after_grew; [|apply Hp]|]. intros _. destruct Hp as (G & Hmk & Hcl).
      rewrite Hn in Hmk. split_and!; [done|done|]. intros; by apply Hmk.
  - apply wp_ret. split; [by apply after_refl|]. intros _. split_and!; [apply grew_refl|by intros _ x; left|].
    intros i' Hi'. rewrite Hi in Hi'. injection Hi' as <-. congruence.
Qed.

(** ** All threads at one position *)

Definition no_backref : Prop := Forall (λ i, opcode i ≠ OP_BACKREF) prog.

(** The first [n] threads of [s0] have been extended. *)
Definition extended_to (pos c : Z) (n : nat) (s0 s : vm) : Prop :=
  grew (pos + 1) true s0 s ∧ (tidy true s0 → closed re text full (pos + 1) true s0 s) ∧
  (∀ j t i, (j < n)%nat → clist s0 !! j = Some t → prog !! Z.to_nat (pc t) = Some i →
     char_matches i c = true → pc t + 1 < inst_count re → marked s (pc t + 1)).

Lemma after_trans pos s1 s2 s3 : after pos s1 s2 → after pos s2 s3 → after pos s1 s3.
Proof.
  intros (V2 & E2 & (l2 & C2) & M2) (V3 & E3 & (l3 & C3) & M3). split_and!; [done|congruence| |auto].
  exists (l2 ++ l3). by rewrite C3, C2, app_assoc.
Qed.

Lemma extended_step pos c n s0 s s' t :
  clist s0 !! n = Some t → extended_to pos c n s0 s → extended pos t c s s' →
  extended_to pos c (S n) s0 s'.
Proof.
  intros Ht (G1 & C1 & M1) (G2 & C2 & M2). split_and!.
  - by eapply grew_trans.
  - intros Htidy. eapply closed_trans; [done|by apply C1|]. apply C2. by eapply grew_tidy.
  - intros j t' i Hj Ht' Hi Hc Hlt. destruct (decide (j = n)) as [->|].
    + rewrite Ht in Ht'. injection Ht' as <-. by eapply M2.
    + eapply (g_marks _ _ _ _ _ _ _ _ G2), M1; try done. lia.
Qed.

Lemma wp_clist_loop pos c s0 :
  vinv pos s0 → tx text pos = Some c →
  wp (loop (fuel_for re) (clist_body re text full c pos) 0%nat)
     (λ _ s', after pos s0 s' ∧ (no_backref → extended_to pos c (length (clist s0)) s0 s')) s0.
Proof.
  intros V0 Hc.
  apply (wp_loop (λ n s, after pos s0 s ∧ (n ≤ length (clist s))%nat ∧ (no_backref → extended_to pos c n s0 s))
                 (λ n _, length prog - n)%nat).
  - split_and!; [by apply after_refl|lia|]. intros _. split_and!; [apply grew_refl|by intros _ x; left|lia].
  - unfold fuel_for. lia.
  - intros n s (A & Hn & Hx). pose proof (proj1 A) as V. unfold clist_body. apply wp_bind, wp_get.
    destruct (clist s !! n) as [t|] eqn:Et.
    + apply wp_bind. eapply wp_mono; [eapply wp_step_thread; [exact V| |exact Hc]|].
      { by apply (proj1 (Forall_lookup _ _) (v_clist _ _ V) n). }
      intros [] s' [A' Hx']. apply wp_ret. pose proof (lookup_lt_Some _ _ _ Et) as Hlt.
      pose proof A' as (_ & _ & (l & El) & _).
      split; [split_and!|].
      * by eapply after_trans.
      * rewrite El, length_app. lia.
      * intros Hno. eapply extended_step; [|by apply Hx|by apply Hx'].
        rewrite <- (g_other _ _ _ _ _ _ _ _ (proj1 (Hx Hno)) : clist s = clist s0). done.
      * pose proof (v_croom _ _ V) as Hroom. unfold in_room, inst_count in Hroom. simpl in Hroom. lia.
    + apply wp_ret. split; [done|]. intros Hno. destruct (Hx Hno) as (G & C & Mk).
      apply lookup_ge_None in Et.
      assert (clist s = clist s0) as E by apply (g_other _ _ _ _ _ _ _ _ G).
      split_and!; [done|done|]. intros j t i Hj. apply Mk. rewrite E in Et. lia.
Qed.

(** ** Coverage: every run has its thread *)

(** The runs that have got as far as [pos]. *)
Definition covers (pos : Z) (s : vm) : Prop :=
  (∀ p sl i, reach p pos sl → prog !! Z.to_nat p = Some i → consuming i = true →
     ∃ t, t ∈ clist s ∧ pc t = p) ∧
  (∀ p q sl i, reach p q sl → q ≤ pos → prog !! Z.to_nat p = Some i → opcode i = OP_MATCH →
     (full = true → q = tlen) → matched s = true).

Lemma step_cases p q sl p' q' sl' :
  no_backref → 0 ≤ p → nst (p, (q, sl)) (p', (q', sl')) →
  (q' = q ∧ estep re text q p p') ∨
  (q' = q + 1 ∧ p' = p + 1 ∧ ∃ i c, prog !! Z.to_nat p = Some i ∧ consuming i = true ∧
     tx text q = Some c ∧ char_matches i c = true).
Proof.
  intros Hno Hp (i & _ & Hi & Hm). pose proof (proj1 (Forall_lookup _ _) Hno _ _ Hi) as Hnb.
  unfold moves, test, one_char, save in Hm. simpl in *. unfold estep, consuming.
  destruct (opcode i) eqn:Ho; try done;
    try (destruct Hm as (-> & c & Hc & Hf & [= -> ->]); right; split_and!; try done;
         exists i, c; by rewrite Ho);
    try (destruct Hm as (Hp' & Hm & [= -> ->]); left; split; [done|]; exists i; by rewrite Ho);
    destruct Hm as (Hp' & [= -> ->]); left; (split; [done|]); exists i; by rewrite Ho.
Qed.

(** Marks that are closed at [pos] and contain the entries to [pos] cover all the
    runs that are there. *)
Lemma reach_marked pos s next :
  no_backref → 0 ≤ pos → (∀ x, marked s x → handled pos next s x) →
  (pos = 0 → start_pc < inst_count re → marked s start_pc) →
  (∀ p sl i c, 0 < pos → reach p (pos - 1) sl → prog !! Z.to_nat p = Some i → consuming i = true →
     tx text (pos - 1) = Some c → char_matches i c = true → p + 1 < inst_count re → marked s (p + 1)) →
  ∀ p sl, reach p pos sl → p < inst_count re → marked s p.
Proof.
  intros Hno Hpos Hh H0 Hin.
  assert (∀ y, rtc nst (start_pc, init_state) y → y.2.1 = pos → y.1 < inst_count re → marked s y.1) as H.
  { apply (rtc_ind_r (λ y : Z * mstate, y.2.1 = pos → y.1 < inst_count re → marked s y.1)).
    - simpl. intros <-. by apply H0.
    - intros [p [q sl]] [p' [q' sl']] Hr Hst IH. simpl in *. intros -> Hlt.
      destruct (reach_inv re text start_pc Hprog Hstart _ _ _ Hr) as (Hp & Hq & _).
      destruct (step_cases _ _ _ _ _ _ Hno Hp Hst) as [[<- He]|(Eq & -> & i & c & Hi & Hc & Hx & Hm)].
      + assert (p < inst_count re) as Hlt'.
        { destruct He as (i & Hi%lookup_lt_Some & _). unfold inst_count. lia. }
        by apply (Hh p (IH eq_refl Hlt')).
      + assert (pos - 1 = q) as Ep by lia. apply (Hin p sl i c); rewrite ?Ep; try done. lia. }
  intros p sl Hr. by apply (H (p, (pos, sl))).
Qed.

Lemma handled_covers pos next s s' :
  (∀ x, marked s x → handled pos next s x) → clist s' = lst next s → matched s' = matched s →
  (∀ p sl, reach p pos sl → p < inst_count re → marked s p) →
  (∀ p q sl i, reach p q sl → q < pos → prog !! Z.to_nat p = Some i → opcode i = OP_MATCH →
     (full = true → q = tlen) → matched s = true) →
  covers pos s'.
Proof.
  intros Hh Ec Em Hm Hpast. split.
  - intros p sl i Hr Hi Hc. destruct (Hh p) as (_ & H & _); [|rewrite Ec; by apply (H i)].
    apply (Hm p sl Hr). apply lookup_lt_Some in Hi. unfold inst_count.
    apply (reach_inv re text start_pc Hprog Hstart) in Hr as (? & _). lia.
  - intros p q sl i Hr Hq Hi Ho Hf. rewrite Em. destruct (decide (q = pos)) as [->|]; [|eapply Hpast; eauto; lia].
    destruct (Hh p) as (_ & _ & H); [|by apply (H i)].
    apply (Hm p sl Hr). apply lookup_lt_Some in Hi. unfold inst_count.
    apply (reach_inv re text start_pc Hprog Hstart) in Hr as (? & _). lia.
Qed.

(** ** The run *)

Lemma next_step_fresh pos s :
  vinv pos s → vinv pos (next_step re s) ∧ (∀ x, ¬ marked (next_step re s) x) ∧ nlist (next_step re s) = [] ∧
  clist (next_step re s) = clist s ∧ matched (next_step re s) = matched s.
Proof.
  intros V. destruct (v_gens _ _ V) as [Hc Hg].
  assert (∀ v n, in_room re true (VM (clist s) [] v n (matched s) (best_match s))) as Hroom.
  { intros v n. unfold in_room, inst_count. simpl. lia. }
  unfold next_step. destruct (Z.eqb_spec (wrap32 (current_step s + 1)) 0) as [E|E].
  - split_and!; try done.
    + split; [by simpl; rewrite length_replicate|apply V| |apply V|constructor|apply V|apply Hroom].
      split; [simpl; lia|]. apply Forall_replicate. simpl. lia.
    + intros x [_ Hx]. apply lookup_replicate in Hx as [? _]. simpl in *. lia.
  - assert (wrap32 (current_step s + 1) = current_step s + 1) as Ew.
    { unfold wrap32 in *. destruct (decide (current_step s + 1 = 2 ^ 32)) as [e|];
        [by rewrite e, Z.mod_same in E|apply Z.mod_small; lia]. }
    split_and!; try done.
    + split; [apply V|apply V| |apply V|constructor|apply V|apply Hroom]. split; simpl.
      * rewrite Ew. assert (current_step s + 1 ≠ 2 ^ 32); [|lia]. intros e. unfold wrap32 in E.
        by rewrite e, Z.mod_same in E.
      * eapply Forall_impl; [exact Hg|]. simpl. intros g ?. lia.
    + intros x [_ Hx]. simpl in Hx. apply (proj1 (Forall_lookup _ _) Hg) in Hx. lia.
Qed.

(** What holds when the machine stops. *)
Definition run_done (s : vm) : Prop :=
  best_ok s ∧
  (no_backref → ∀ p q sl i, reach p q sl → prog !! Z.to_nat p = Some i → opcode i = OP_MATCH →
     (full = true → q = tlen) → matched s = true).

Lemma no_beyond pos s :
  no_backref → 0 ≤ pos → covers pos s → clist s = [] → ∀ p q sl, reach p q sl → q ≤ pos.
Proof.
  intros Hno Hpos [Hc _] Ec.
  assert (∀ y, rtc nst (start_pc, init_state) y → y.2.1 ≤ pos) as H.
  { apply (rtc_ind_r (λ y : Z * mstate, y.2.1 ≤ pos)); [done|].
    intros [p [q sl]] [p' [q' sl']] Hr Hst IH. simpl in *.
    destruct (reach_inv re text start_pc Hprog Hstart _ _ _ Hr) as (Hp & _).
    destruct (step_cases _ _ _ _ _ _ Hno Hp Hst) as [[<- _]|(-> & _ & i & c & Hi & Hcs & _)]; [done|].
    destruct (decide (q = pos)) as [->|]; [|lia].
    destruct (Hc _ _ _ Hr Hi Hcs) as (t & Ht & _). rewrite Ec in Ht. by apply elem_of_nil in Ht. }
  intros p q sl Hr. apply (H _ Hr).
Qed.

Definition round (pos : Z) (s : vm) : Prop :=
  0 ≤ pos ≤ tlen ∧ vinv pos s ∧ nlist s = [] ∧ (no_backref → covers pos s).

(** The lists are swapped after the threads have moved on. *)
Lemma round_next pos c s s2 :
  round pos s → tx text pos = Some c → pos < tlen →
  after pos (next_step re s) s2 →
  (no_backref → extended_to pos c (length (clist (next_step re s))) (next_step re s) s2) →
  round (pos + 1) (with_nlist (with_clist s2 (nlist s2)) []).
Proof.
  intros (Hpos & V & _ & Hcov) Hc Hlt (V2 & _ & _ & Hmt) Hx.
  destruct (next_step_fresh _ _ V) as (V1 & Hun & Hn1 & Hc1 & Hm1). split_and!; [lia|lia| |done|].
  - split; try apply V2; simpl; [constructor|]. unfold in_room, inst_count. simpl. lia.
  - intros Hno. destruct (Hx Hno) as (G & Hcl & Hmk). specialize (Hcov Hno).
    assert (∀ x, marked s2 x → handled (pos + 1) true s2 x) as Hh.
    { intros x Hx2. destruct (Hcl ltac:(split; simpl; rewrite Hn1; constructor) x Hx2) as [Hm|]; [|done].
      by destruct (Hun x). }
    eapply (handled_covers _ true s2); try done.
    + apply (reach_marked (pos + 1) s2 true); try done; [lia|lia|].
      intros p sl i c' _ Hr Hi Hcs Hc' Hm Hlt'. replace (pos + 1 - 1) with pos in * by lia.
      rewrite Hc in Hc'. injection Hc' as <-. destruct (proj1 Hcov _ _ _ Hr Hi Hcs) as (t & Ht & <-).
      rewrite <- Hc1 in Ht. apply list_elem_of_lookup in Ht as [j Hj].
      eapply Hmk; try done. by eapply lookup_lt_Some.
    + intros p q sl i Hr Hq Hi Ho Hf. apply Hmt. rewrite Hm1.
      eapply (proj2 Hcov); try done. lia.
Qed.

Lemma wp_pos_loop s :
  round 0 s → wp (loop (length text + 2) (pos_body re text full) 0) (λ _ s', run_done s') s.
Proof.
  intros R0. apply (wp_loop round (λ pos _, Z.to_nat (tlen + 1 - pos))); [done|unfold text_len; lia|].
  clear s R0. intros pos s R. pose proof R as (Hpos & V & Hn & Hcov). unfold pos_body.
  rewrite (proj2 (Z.ltb_ge _ _)) by lia. apply wp_bind, wp_get.
  destruct (clist s) as [|t0 l0] eqn:El.
  { apply wp_ret. split; [apply V|]. intros Hno p q sl i Hr Hi Ho Hf.
    eapply (proj2 (Hcov Hno)); try done. eapply no_beyond; eauto. lia. }
  apply wp_bind. unfold cannot_extend. apply wp_bind, wp_get.
  set (stop := if matched s && negb full then _ else _).
  assert (wp stop (λ b s', s' = s ∧ (b = true → matched s = true)) s) as Hstop.
  { unfold stop. destruct (matched s); [|done]. by destruct full. }
  eapply wp_mono; [exact Hstop|]. intros b s' [-> Hb]. clear Hstop stop.
  destruct b; simpl.
  { apply wp_ret. split; [apply V|]. intros _ p q sl i _ _ _ _. by apply Hb. }
  destruct (Z.eqb_spec pos tlen) as [->|Hne].
  { apply wp_ret. split; [apply V|]. intros Hno p q sl i Hr Hi Ho Hf.
    eapply (proj2 (Hcov Hno)); try done. apply (reach_inv re text start_pc Hprog Hstart) in Hr. lia. }
  destruct (tx_some text pos) as [c Hc]; [lia|]. apply wp_bind. eapply wp_text_at; [lia|exact Hc|].
  apply wp_bind, wp_get. apply wp_bind, wp_put. apply wp_bind.
  destruct (next_step_fresh _ _ V) as (V1 & _).
  eapply wp_mono; [by apply wp_clist_loop|]. intros [] s2 [A Hx].
  apply wp_bind, wp_get. apply wp_bind, wp_put. apply wp_ret. split; [|lia].
  eapply round_next; try done. lia.
Qed.

Lemma vinv_init : vinv 0 (vm_init re).
Proof.
  split; simpl; try constructor; try done; try (unfold in_room, inst_count; simpl; lia).
  - by rewrite length_replicate.
  - apply Forall_replicate. simpl. lia.
Qed.

Lemma wp_vm_main : wp (vm_main re text full start_pc) (λ _ s, run_done s) (vm_init re).
Proof.
  pose proof vinv_init as V0. unfold vm_main. apply wp_bind.
  apply (wp_add 0 false); [done|split; [done|apply rtc_refl]|].
  simpl. intros s' (G & Hmk & Hcl). apply wp_pos_loop.
  assert (∀ x, ¬ marked (vm_init re) x) as Hun.
  { intros x [_ Hx]. apply lookup_replicate in Hx as [? _]. done. }
  assert (nlist s' = []) as Hn by apply (g_other _ _ _ _ _ _ _ _ G).
  split_and!; [lia|unfold text_len; lia|by apply (grew_vinv 0 false (vm_init re))|done|].
  intros Hno.
  assert (∀ x, marked s' x → handled 0 false s' x) as Hh.
  { intros x Hx. destruct (Hcl ltac:(split; constructor) x Hx) as [Hm|]; [by destruct (Hun x)|done]. }
  eapply (handled_covers _ false s'); try done.
  - apply (reach_marked 0 s' false); try done.
  - intros p q sl i Hr Hq. apply (reach_inv re text start_pc Hprog Hstart) in Hr. lia.
Qed.
End run.
End RegexRun.
