(* ===== verification/RegexGen.v ===== *)
(** * The code generator against the reference code

    [compile_node] appends exactly [gen r] at the current address, unless memory
    runs out; then it goes on without a fault and the code is thrown away. *)
From S2P Require Import Prelude World Regex RegexVM RegexSem.

(** ** The memory of a compilation

    The blocks alive during a compilation are those of the caller, the array of
    nodes and the array of instructions. *)
Module RegexMem.
Import Regex.

(** Later environments: the same allocator, addresses further on. *)
Definition env_le (e e' : renv) : Prop := oracle e' = oracle e ∧ brk e ≤ brk e'.

#[export] Instance env_le_refl : Reflexive env_le.
Proof. intros e. split; [done|lia]. Qed.
#[export] Instance env_le_trans : Transitive env_le.
Proof. intros e1 e2 e3 [E1 ?] [E2 ?]. split; [congruence|lia]. Qed.

Lemma starved_le e e' n : env_le e e' → starved e n → starved e' n.
Proof.
  intros [E Hb] [H|(k & m & Hm & Ho)]; [left; lia|]. right. exists k, m. by rewrite E.
Qed.

Definition live (e : renv) (p : Z) : Prop := p = NULL ∨ is_Some (heap e !! p).

(** The caller's blocks are [h0]. *)
Record mem (h0 : gmap Z Z) (s : cstate) : Prop := {
  m_ok : heap_ok (env s);
  m_nodes : live (env s) (nodes (pool s));
  m_insts : live (env s) (insts (cg s));
  m_sep : nodes (pool s) = NULL ∨ nodes (pool s) ≠ insts (cg s);
  m_rest : delete (nodes (pool s)) (delete (insts (cg s)) (heap (env s))) = h0
}.

Lemma wp_on_env {A} (c : M renv A) (Q : A → cstate → Prop) s :
  wp c (λ a e, Q a (with_env s e)) (env s) → wp (on_env c) Q s.
Proof. unfold wp, on_env. by destruct (c (env s)). Qed.

(** The new block, or nothing when the allocator refuses. *)
Lemma wp_re_alloc n (Q : Z → renv → Prop) e :
  heap_ok e →
  (∀ q e', q ≠ NULL → heap e !! q = None → heap e' = <[q := n]> (heap e) → heap_ok e' → env_le e e' → Q q e') →
  (∀ e', heap e' = heap e → heap_ok e' → env_le e e' → starved e' n → Q NULL e') →
  wp (re_alloc n) Q e.
Proof.
  intros Hok H1 H2. unfold re_alloc. apply wp_alloc_node.
  - intros Ho Hb. apply H1; simpl; try done.
    + destruct Hok as [[? _] _]. unfold NULL. lia.
    + by apply heap_fresh.
    + by apply heap_ok_node.
    + split; [done|simpl; lia].
  - intros Hr%refuses_starved. by apply H2.
Qed.

Lemma wp_re_realloc p n (Q : Z → renv → Prop) e :
  heap_ok e → live e p →
  (∀ q e', q ≠ NULL → heap e !! q = None → heap e' = delete p (<[q := n]> (heap e)) → heap_ok e' →
     env_le e e' → Q q e') →
  (∀ e', heap e' = heap e → heap_ok e' → env_le e e' → starved e' n → Q NULL e') →
  wp (re_realloc p n) Q e.
Proof.
  intros Hok Hp H1 H2. unfold re_realloc. apply wp_bind, (wp_re_alloc n); [done| |].
  - intros q e' Hq Hnew Hh Hok' Hle. rewrite (proj2 (Z.eqb_neq _ _) Hq). apply wp_bind.
    assert (p = NULL ∨ p ≠ NULL ∧ is_Some (heap e' !! p)) as [->|[Hp0 [c Hc]]].
    { destruct (decide (p = NULL)); [by left|right]. split; [done|]. destruct Hp as [|[c Hc]]; [done|].
      rewrite Hh, lookup_insert. case_decide; eauto. }
    + apply wp_ret, wp_ret. apply H1; try done. rewrite Hh, delete_id; [done|].
      rewrite lookup_insert_ne by done. by apply heap_null.
    + eapply wp_free_node; [done|exact Hc|]. apply wp_ret. apply H1; try done.
      * simpl. by rewrite Hh.
      * eapply heap_ok_dom; [exact Hok'|done|]. simpl. rewrite dom_delete. set_solver.
  - intros e' Hh Hok' Hle Hs. rewrite Z.eqb_refl. apply wp_ret. auto.
Qed.

Lemma wp_re_free p (Q : unit → renv → Prop) e :
  heap_ok e → p ≠ NULL → is_Some (heap e !! p) →
  (∀ e', heap e' = delete p (heap e) → heap_ok e' → env_le e e' → last_error e' = last_error e → Q tt e') →
  wp (re_free p) Q e.
Proof.
  intros Hok Hp [c Hc] HQ. unfold re_free. eapply wp_free_node; [done|exact Hc|]. apply HQ; try done.
  eapply heap_ok_dom; [exact Hok|done|]. simpl. rewrite dom_delete. set_solver.
Qed.

(** ** Growing one of the two arrays *)


Lemma mem_nodes_grown h0 s q n e' p' :
  mem h0 s → q ≠ NULL → heap (env s) !! q = None →
  heap e' = delete (nodes (pool s)) (<[q := n]> (heap (env s))) → heap_ok e' → nodes p' = q →
  mem h0 (with_pool (with_env s e') p').
Proof.
  intros [Hok Hn Hi Hs Hr] Hq Hnew Hh Hok' <-. split; simpl; try done.
  - right. rewrite Hh, lookup_delete_ne, lookup_insert_eq; [by eexists|].
    intros E. destruct Hn as [Hn|[c Hc]]; [congruence|]. by rewrite E, Hnew in Hc.
  - destruct Hi as [Hi|[c Hc]]; [by left|]. right.
    rewrite Hh, lookup_delete_ne; [rewrite lookup_insert; case_decide; eauto|].
    destruct Hs as [Hs|Hs]; [|done]. rewrite Hs. intros E. rewrite <- E, heap_null in Hc by done. done.
  - right. intros E. destruct Hi as [Hi|[c Hc]]; [congruence|]. rewrite <- E, Hnew in Hc. done.
  - rewrite Hh, <- Hr. apply map_eq. intros k. rewrite !lookup_delete, lookup_insert.
    repeat case_decide; subst; by rewrite ?Hnew.
Qed.

Lemma mem_insts_grown h0 s q n e' g' :
  mem h0 s → q ≠ NULL → heap (env s) !! q = None →
  heap e' = delete (insts (cg s)) (<[q := n]> (heap (env s))) → heap_ok e' → insts g' = q →
  mem h0 (with_cg (with_env s e') g').
Proof.
  intros [Hok Hn Hi Hs Hr] Hq Hnew Hh Hok' <-. split; simpl; try done.
  - destruct Hn as [Hn|[c Hc]]; [by left|]. right.
    rewrite Hh, lookup_delete_ne; [rewrite lookup_insert; case_decide; eauto|].
    destruct Hs as [Hs|Hs]; [|done]. rewrite Hs in Hc. by rewrite heap_null in Hc.
  - right. rewrite Hh, lookup_delete_ne, lookup_insert_eq; [by eexists|].
    intros E. destruct Hi as [Hi|[c Hc]]; [congruence|]. by rewrite E, Hnew in Hc.
  - destruct Hn as [Hn|[c Hc]]; [by left|]. right. intros E. rewrite E, Hnew in Hc. done.
  - rewrite Hh, <- Hr. apply map_eq. intros k. rewrite !lookup_delete, lookup_insert.
    repeat case_decide; subst; by rewrite ?Hnew.
Qed.

Lemma mem_env h0 s e' : mem h0 s → heap e' = heap (env s) → heap_ok e' → mem h0 (with_env s e').
Proof. intros [Hok Hn Hi Hs Hr] Hh Hok'. split; simpl; unfold live in *; rewrite ?Hh; done. Qed.

Lemma mem_ext h0 s s' :
  mem h0 s → env s' = env s → nodes (pool s') = nodes (pool s) → insts (cg s') = insts (cg s) → mem h0 s'.
Proof. intros [Hok Hn Hi Hs Hr] E1 E2 E3. split; rewrite ?E1, ?E2, ?E3; done. Qed.
End RegexMem.

Module RegexGen.
Import Regex RegexSem RegexMem.

Lemma insert_middle {A} (pre post : list A) (x y : A) k :
  k = length pre → <[k := y]> (pre ++ x :: post) = pre ++ y :: post.
Proof. intros ->. by rewrite insert_app_r_alt, Nat.sub_diag by lia. Qed.

(** ** Trees in the pool *)

(** The node for the head of [r], whose children are at [i] and [j]. *)
Definition node_for (r : regex) (i j : Z) : ast_node :=
  match r with
  | Empty => zero_node AST_EMPTY
  | Char c => Ast AST_CHAR AST_NULL AST_NULL 0 0 false false 0 c zero_bitmap
  | Any => zero_node AST_ANY
  | Class b neg => Ast AST_CLASS AST_NULL AST_NULL 0 0 false neg 0 0 b
  | Bol => zero_node AST_BOL
  | Eol => zero_node AST_EOL
  | Boundary neg => Ast AST_WORD_BOUNDARY AST_NULL AST_NULL 0 0 false neg 0 0 zero_bitmap
  | Concat _ _ => Ast AST_CONCAT i j 0 0 false false 0 0 zero_bitmap
  | Alt _ _ => Ast AST_ALT i j 0 0 false false 0 0 zero_bitmap
  | Quant _ mn mx gr => Ast AST_QUANT i AST_NULL mn mx gr false 0 0 zero_bitmap
  | Group _ gid => Ast AST_GROUP i AST_NULL 0 0 false false gid 0 zero_bitmap
  | Backref gid => Ast AST_BACKREF AST_NULL AST_NULL 0 0 false false gid 0 zero_bitmap
  end.

(** The tree [r] is at [idx]; children come before their parents. *)
Fixpoint ast (ns : list ast_node) (idx : Z) (r : regex) : Prop :=
  0 ≤ idx < AST_NULL ∧ ∃ i j, ns !! Z.to_nat idx = Some (node_for r i j) ∧
  match r with
  | Concat r1 r2 | Alt r1 r2 => i < idx ∧ j < idx ∧ ast ns i r1 ∧ ast ns j r2
  | Quant r _ _ _ | Group r _ => i < idx ∧ ast ns i r
  | _ => True
  end.

Lemma ast_range ns idx r : ast ns idx r → 0 ≤ idx < AST_NULL.
Proof. by destruct r; intros [? _]. Qed.

Lemma ast_app ns ns' r : ∀ idx, ast ns idx r → ast (ns ++ ns') idx r.
Proof.
  induction r; intros idx; simpl; intros (Hr & i & j & Hl & H); (split; [done|]); exists i, j;
    (split; [by apply lookup_app_l_Some|]); naive_solver.
Qed.

Section gen.
(** The parser, the pool, the caller's blocks and the environment at the start;
    the most instructions, and the largest request that may be made. *)
Variables (p0 : parser) (pl0 : node_pool) (h0 : gmap Z Z) (e0 : renv) (limit B : Z).
Hypothesis Hlimit : limit < 2 ^ 32.
Hypothesis HB : sizeof_inst * (32 + 2 * limit) ≤ B.

Notation ln c := (Z.of_nat (length c)).

(** What every step keeps, once the first instruction is there. *)
Record inv (s : cstate) : Prop := {
  i_prs : prs s = p0;
  i_pool : pool s = pl0;
  i_mem : mem h0 s;
  i_env : env_le e0 (env s);
  i_insts : insts (cg s) ≠ NULL;
  i_some : (0 < length (emitted (cg s)))%nat
}.

(** The code is [c], or memory has run out. *)
Definition has (s : cstate) (c : list cobalt_regex_inst) : Prop :=
  (cg_oom (cg s) = true ∧ starved (env s) B) ∨
  (cg_oom (cg s) = false ∧ emitted (cg s) = c ∧ ln c ≤ cg_capacity (cg s) ≤ 32 + 2 * ln c).

Definition le (s s' : cstate) : Prop :=
  (length (emitted (cg s)) ≤ length (emitted (cg s')))%nat ∧ (cg_oom (cg s) = true → cg_oom (cg s') = true).

#[local] Instance le_refl : Reflexive le.
Proof. intros s. split; [lia|done]. Qed.
#[local] Instance le_trans : Transitive le.
Proof. intros s1 s2 s3 [? ?] [? ?]. split; [lia|auto]. Qed.

Definition out (s : cstate) (c : list cobalt_regex_inst) (s' : cstate) : Prop :=
  inv s' ∧ le s s' ∧ has s' c.

(** An index that can be written through, and an address that was read. *)
Definition at_pc (s : cstate) (pc k : Z) : Prop :=
  0 ≤ pc < ln (emitted (cg s)) ∧ (cg_oom (cg s) = true ∨ pc = k).
Definition near (s : cstate) (v k : Z) : Prop := cg_oom (cg s) = true ∨ v = k.

Lemma at_pc_le s s' pc k : le s s' → at_pc s pc k → at_pc s' pc k.
Proof. intros [? ?] [? [?| ->]]; (split; [lia|auto]). Qed.

Lemma near_le s s' v k : le s s' → near s v k → near s' v k.
Proof. intros [_ ?] [?| ->]; [left|right]; auto. Qed.

Lemma has_near s v k (F : Z → list cobalt_regex_inst) : near s v k → has s (F v) → has s (F k).
Proof. intros [Ho| ->] H; [|done]. destruct H as [H|[H _]]; [by left|congruence]. Qed.

Lemma out_trans s1 s2 s3 c2 c3 : out s1 c2 s2 → out s2 c3 s3 → out s1 c3 s3.
Proof. intros (_ & L1 & _) (I3 & L2 & H3). split_and!; [done|by etrans|done]. Qed.

(** Growing the array of instructions keeps the rest. *)
Lemma wp_emit_inst op c (Q : Z → cstate → Prop) s :
  prs s = p0 → pool s = pl0 → mem h0 s → env_le e0 (env s) → has s c → ln c < limit →
  (insts (cg s) ≠ NULL ∧ (0 < length (emitted (cg s)))%nat ∨ cg s = Codegen NULL [] 0 false) →
  (∀ pc s', out s (c ++ [zero_inst op]) s' → at_pc s' pc (ln c) → Q pc s') →
  (cg s = Codegen NULL [] 0 false → ∀ s', insts (cg s') = NULL → cg_oom (cg s') = true →
     starved (env s') B → env_le e0 (env s') → Q 0 s') →
  wp (emit_inst op) Q s.
Proof.
  intros Ep El Hm He Hhas Hlt Hstart HQ HF. unfold emit_inst, get_cg. apply wp_bind. hnf.
  destruct Hhas as [[Ho Hst]|(Ho & Hc & Hcap)]; rewrite Ho.
  { apply wp_ret. destruct Hstart as [[Hi Hs]|E]; [|by rewrite E in Ho].
    apply HQ; [split_and!; [by split|done|by left]|]. split; [lia|by left]. }
  unfold cg_count. rewrite Hc.
  (* the instruction that is written *)
  assert (∀ s1, prs s1 = p0 → pool s1 = pl0 → mem h0 s1 → env_le e0 (env s1) → insts (cg s1) ≠ NULL →
    cg_oom (cg s1) = false → emitted (cg s1) = c → ln c < cg_capacity (cg s1) ≤ 32 + 2 * (ln c + 1) →
    wp (g <- get_cg ;;
        let idx := wrap32 (cg_count g) in
        if cg_capacity g <=? idx then mfail BadAccess
        else put_cg (Codegen (insts g) (<[Z.to_nat idx := zero_inst op]> (emitted g ++ [zero_inst op]))
               (cg_capacity g) (cg_oom g)) ;;; mret idx) Q s1) as Hwrite.
  { intros s1 Ep1 El1 Hm1 He1 Hi1 Ho1 Hc1 Hcap1. apply wp_bind. unfold get_cg. hnf. unfold cg_count. rewrite Hc1.
    unfold wrap32. rewrite Z.mod_small by lia. rewrite (proj2 (Z.leb_gt _ _)) by lia.
    apply wp_bind. hnf. rewrite Nat2Z.id, insert_middle by done.
    apply HQ; [split_and!; [split; simpl; try done| |]|].
    - by eapply mem_ext.
    - rewrite length_app. simpl. lia.
    - split; simpl; [rewrite Hc, length_app; lia|congruence].
    - right. simpl. rewrite length_app. simpl. split_and!; [done|done|lia|lia].
    - split; simpl; [rewrite length_app; simpl; lia|by right]. }
  destruct (Z.leb_spec (cg_capacity (cg s)) (ln c)) as [Hfull|Hroom]; simpl.
  - set (new_cap := if cg_capacity (cg s) =? 0 then _ else _).
    assert (ln c < new_cap ≤ 32 + 2 * (ln c + 1)) as Hnew.
    { assert (new_cap = if cg_capacity (cg s) =? 0 then 32 else cg_capacity (cg s) * 2) as ->.
      { unfold new_cap. case_match; [done|]. rewrite (proj2 (Z.ltb_ge _ _)); [done|].
        unfold sizeof_inst. change (SIZE_MAX / 36 / 2) with 256204778801521550. lia. }
      destruct (Z.eqb_spec (cg_capacity (cg s)) 0); lia. }
    apply wp_bind, wp_bind, wp_on_env. apply wp_re_realloc; [apply Hm|apply Hm| |].
    + intros q e' Hq Hfresh Hh Hok Hle. rewrite (proj2 (Z.eqb_neq _ _) Hq). apply wp_bind. hnf. apply Hwrite; simpl; try done.
      * by eapply (mem_insts_grown h0 s q).
      * by etrans.
    + intros e' Hh Hok Hle Hst.
      assert (starved e' B) as HstB.
      { eapply starved_mono; [exact Hst|]. unfold sizeof_inst in *. lia. }
      apply wp_bind. hnf. simpl. destruct Hstart as [[Hi Hs]|E].
      * apply HQ; [split_and!; [split; simpl; try done| |by left]|].
        -- eapply mem_ext; [by eapply (mem_env h0 s e')|done..].
        -- by etrans.
        -- by rewrite Hc in Hs.
        -- split; simpl; [by rewrite Hc|done].
        -- rewrite Hc in Hs. split; simpl; [lia|by left].
      * apply HF; simpl; try done; [by rewrite E|by etrans].
  - apply wp_bind, wp_ret. apply Hwrite; try done; [|lia]. destruct Hstart as [[Hi _]|E]; [done|].
    rewrite E in Hroom. simpl in Hroom. lia.
Qed.

Lemma wp_emit op c s :
  inv s → has s c → ln c < limit →
  wp (emit_inst op) (λ pc s', out s (c ++ [zero_inst op]) s' ∧ at_pc s' pc (ln c)) s.
Proof.
  intros [] Hh Hlt. eapply wp_emit_inst; eauto. intros E. by rewrite E in *.
Qed.

Lemma wp_set_inst f i pre post pc s :
  inv s → has s (pre ++ i :: post) → at_pc s pc (ln pre) →
  wp (set_inst pc f) (λ _ s', out s (pre ++ f i :: post) s') s.
Proof.
  intros Is Hh [Hpc Hk]. unfold set_inst. apply wp_bind. hnf.
  rewrite (proj2 (Z.eqb_neq _ _) (i_insts _ Is)).
  destruct (lookup_lt_is_Some_2 (emitted (cg s)) (Z.to_nat pc)) as [j Hj]; [lia|]. rewrite Hj. hnf.
  assert (inv (with_cg s (Codegen (insts (cg s)) (<[Z.to_nat pc := f j]> (emitted (cg s)))
    (cg_capacity (cg s)) (cg_oom (cg s))))) as Is'.
  { destruct Is. split; simpl; try done; [by eapply mem_ext|by rewrite length_insert]. }
  split_and!; [done|split; simpl; [by rewrite length_insert|done]|].
  destruct Hh as [[Ho Hst]|(Ho & Hc & Hcap)]; [by left|]. right.
  destruct Hk as [?| ->]; [congruence|]. rewrite Nat2Z.id in *. simpl.
  rewrite Hc, list_lookup_middle in Hj by done. injection Hj as <-.
  rewrite Hc, insert_middle by done. split_and!; [done|done| |]; rewrite length_app in *; simpl in *; lia.
Qed.

Lemma wp_here c (Q : Z → cstate → Prop) s :
  has s c → ln c < 2 ^ 32 → (∀ v, near s v (ln c) → Q v s) → wp here Q s.
Proof.
  intros Hh Hlt HQ. unfold here. apply wp_bind. hnf. apply HQ.
  destruct Hh as [[Ho _]|(_ & Hc & _)]; [by left|right]. unfold cg_count, wrap32.
  rewrite Hc. apply Z.mod_small. lia.
Qed.

Lemma wp_set_near (f : Z → cobalt_regex_inst → cobalt_regex_inst) i pre post pc v k s :
  inv s → has s (pre ++ i :: post) → at_pc s pc (ln pre) → near s v k →
  wp (set_inst pc (f v)) (λ _ s', out s (pre ++ f k i :: post) s') s.
Proof.
  intros Is Hh Hpc Hn. eapply wp_mono; [by eapply wp_set_inst|].
  intros [] s' (I' & L & H'). split_and!; [done|done|].
  eapply (has_near _ v k (λ v, pre ++ f v i :: post)); [by eapply near_le|done].
Qed.

Lemma near_eq s v k k' : near s v k → k = k' → near s v k'.
Proof. by intros ? <-. Qed.

Lemma at_pc_eq s pc k k' : at_pc s pc k → k = k' → at_pc s pc k'.
Proof. by intros ? <-. Qed.

Lemma has_eq s c c' : has s c → c = c' → has s c'.
Proof. by intros ? <-. Qed.

(** ** Symbolic execution

    [adv L] carries what is known of a state over the step [L]. *)
Ltac adv L :=
  lazymatch type of L with
  | le ?s ?s' =>
      repeat match goal with
      | H : at_pc s _ _ |- _ => apply (at_pc_le _ _ _ _ L) in H
      | H : near s _ _ |- _ => apply (near_le _ _ _ _ L) in H
      | H : le ?s0 s |- _ => apply (fun X => le_trans _ _ _ X L) in H
      end;
      repeat match goal with
      | H : inv s |- _ => clear H
      | H : has s _ |- _ => clear H
      end; clear L; try clear s
  end.

Ltac lens :=
  repeat first [rewrite length_app | rewrite Nat2Z.inj_add | progress cbn [length] | rewrite Nat2Z.inj_succ];
  rewrite ?length_gen; lia.

(** The next state, with what [out] says about it. *)
Ltac next_out := let s' := fresh "s" in let I' := fresh "I" in let L := fresh "L" in let H' := fresh "H" in
  intros [] s' (I' & L & H'); adv L.

Ltac t_emit pc A :=
  apply wp_bind; eapply wp_mono; [eapply wp_emit; [eassumption|eassumption|lens]|];
  let s' := fresh "s" in let I' := fresh "I" in let L := fresh "L" in let H' := fresh "H" in
  intros pc s' [(I' & L & H') A]; adv L.

Ltac t_here v N := apply wp_bind; eapply wp_here; [eassumption|lens|intros v N].

Ltac t_done := eapply wp_mono; [|intros [] ? (?I & ?L & ?H)].

Section pieces.
Variables (fl : Z) (compile_child : Z → M cstate unit) (child : Z) (r : regex).
Notation k := (size r).

Hypothesis Hchild : ∀ s c, inv s → has s c → ln c + k ≤ limit →
  wp (compile_child child) (λ _ s', out s (c ++ gen fl r (ln c)) s') s.

Ltac t_child := eapply wp_mono; [eapply Hchild; [eassumption|eassumption|lens]|next_out].

(** A write of a known address into instruction [i], behind [pre]. *)
Lemma wp_patch gr pre post split_pc body_pc end_pc x y s :
  inv s → has s (pre ++ zero_inst OP_SPLIT :: post) → at_pc s split_pc (ln pre) →
  near s body_pc x → near s end_pc y →
  wp (set_split gr split_pc body_pc end_pc) (λ _ s', out s (pre ++ i_split gr x y :: post) s') s.
Proof.
  intros Is Hs A Nx Ny. unfold set_split. apply wp_bind.
  assert (near s (if gr then body_pc else end_pc) (if gr then x else y)) as N0 by by destruct gr.
  assert (near s (if gr then end_pc else body_pc) (if gr then y else x)) as N1 by by destruct gr.
  eapply wp_mono; [eapply (wp_set_near (set_word 0)); eassumption|].
  intros [] s1 (I1 & L1 & H1). eapply wp_mono.
  - eapply (wp_set_near (set_word 1)); [exact I1|exact H1|by eapply at_pc_le|by eapply near_le].
  - intros [] s2 (I2 & L2 & H2). split_and!; [done|by etrans|]. eapply has_eq; [exact H2|]. by destruct gr.
Qed.

Lemma wp_compile_optional gr c s :
  inv s → has s c → ln c + k + 1 ≤ limit →
  wp (compile_optional compile_child child gr) (λ _ s', out s (c ++ opt_code (gen fl r) k gr (ln c)) s') s.
Proof.
  intros Is Hs Hl. pose proof (le_refl s) as L0. pose proof (size_nonneg r). unfold compile_optional.
  t_emit split_pc A. t_here body_pc Nb. apply wp_bind. t_child. t_here end_pc Ne.
  eapply wp_mono.
  - eapply (wp_patch gr c _ _ _ _ (ln c + 1) (ln c + 1 + k)); [eassumption| |eassumption| |].
    + eapply has_eq; [eassumption|]. by rewrite <- app_assoc.
    + eapply near_eq; [eassumption|lens].
    + eapply near_eq; [eassumption|lens].
  - next_out. split_and!; [done|done|]. eapply has_eq; [eassumption|]. unfold opt_code. do 2 f_equal.
    f_equal. lens.
Qed.

Lemma wp_compile_star gr c s :
  inv s → has s c → ln c + k + 2 ≤ limit →
  wp (compile_star compile_child child gr) (λ _ s', out s (c ++ star_code (gen fl r) k gr (ln c)) s') s.
Proof.
  intros Is Hs Hl. pose proof (le_refl s) as L0. pose proof (size_nonneg r). unfold compile_star.
  t_here start_pc Ns. t_emit split_pc A. t_here body_pc Nb. apply wp_bind. t_child. t_emit jump_pc Aj.
  apply wp_bind. eapply wp_mono; [eapply (wp_set_near (set_word 0)); eassumption|]. next_out.
  t_here end_pc Ne. eapply wp_mono.
  - eapply (wp_patch gr c _ _ _ _ (ln c + 1) (ln c + k + 2)); [eassumption| |eassumption| |].
    + eapply has_eq; [eassumption|]. by rewrite <- !app_assoc.
    + eapply near_eq; [eassumption|lens].
    + eapply near_eq; [eassumption|lens].
  - next_out. split_and!; [done|done|]. eapply has_eq; [eassumption|]. unfold star_code. do 2 f_equal.
    f_equal. f_equal. lens.
Qed.

Lemma wp_compile_plus gr c s :
  inv s → has s c → ln c + k + 1 ≤ limit →
  wp (compile_plus compile_child child gr) (λ _ s', out s (c ++ plus_code (gen fl r) k gr (ln c)) s') s.
Proof.
  intros Is Hs Hl. pose proof (le_refl s) as L0. pose proof (size_nonneg r). unfold compile_plus.
  t_here start_pc Ns. apply wp_bind. t_child. t_emit split_pc A. t_here end_pc Ne. eapply wp_mono.
  - eapply (wp_patch gr _ [] _ _ _ (ln c) (ln c + k + 1)); [eassumption|eassumption|eassumption|eassumption|].
    eapply near_eq; [eassumption|lens].
  - next_out. split_and!; [done|done|]. eapply has_eq; [eassumption|]. unfold plus_code. by rewrite <- app_assoc.
Qed.

Lemma wp_compile_copies n : ∀ c s,
  inv s → has s c → ln c + Z.of_nat n * k ≤ limit →
  wp (compile_copies compile_child child n) (λ _ s', out s (c ++ copies_code (gen fl r) k n (ln c)) s') s.
Proof.
  pose proof (size_nonneg r). induction n as [|n IH]; intros c s Is Hs Hl; simpl.
  - apply wp_ret. rewrite app_nil_r. by split_and!.
  - apply wp_bind. eapply wp_mono; [eapply Hchild; [eassumption|eassumption|nia]|].
    intros [] s1 O1. pose proof O1 as (I1 & _ & H1). eapply wp_mono.
    { eapply IH; [exact I1|exact H1|]. rewrite length_app, Nat2Z.inj_add, length_gen. lia. }
    intros [] s2 O2. eapply out_trans; [exact O1|]. rewrite <- app_assoc in O2.
    by rewrite length_app, Nat2Z.inj_add, length_gen in O2.
Qed.

(** The splits that still lack their second target, at the addresses [pcs]. *)
Fixpoint open_code (gr : bool) (n : nat) (a : Z) : list cobalt_regex_inst :=
  match n with
  | O => []
  | S n => (set_word (if gr then 0 else 1) (a + 1) (zero_inst OP_SPLIT) :: gen fl r (a + 1))
           ++ open_code gr n (a + k + 1)
  end.

Definition opens (s : cstate) (pcs : list Z) (n : nat) (a : Z) : Prop :=
  length pcs = n ∧ ∀ i pc, pcs !! i = Some pc → at_pc s pc (a + Z.of_nat i * (k + 1)).

Lemma opens_le s s' pcs n a : le s s' → opens s pcs n a → opens s' pcs n a.
Proof. intros L [Hn Ho]. split; [done|]. intros i pc Hi. by eapply at_pc_le, Ho. Qed.

Lemma opens_cons s pc pcs n a :
  at_pc s pc a → opens s pcs n (a + k + 1) → opens s (pc :: pcs) (S n) a.
Proof.
  intros A [Hn Ho]. split; [by simpl; rewrite Hn|]. intros [|i] x; simpl; intros Hx.
  - injection Hx as <-. eapply at_pc_eq; [done|lia].
  - eapply at_pc_eq; [by apply Ho|]. lia.
Qed.

Lemma length_open gr n : ∀ a, ln (open_code gr n a) = Z.of_nat n * (k + 1).
Proof.
  induction n as [|n IH]; intros a; simpl; [lia|].
  rewrite Nat2Z.inj_succ, length_app, Nat2Z.inj_add, length_gen, IH. lia.
Qed.

Lemma wp_compile_options gr n : ∀ i c s,
  inv s → has s c → ln c + Z.of_nat n * (k + 1) ≤ limit → i + Z.of_nat n ≤ 128 →
  wp (compile_options compile_child child gr i n)
     (λ pcs s', out s (c ++ open_code gr n (ln c)) s' ∧ opens s' pcs n (ln c)) s.
Proof.
  pose proof (size_nonneg r). induction n as [|n IH]; intros i c s Is Hs Hl Hi; simpl.
  - apply wp_ret. rewrite app_nil_r. split; [by split_and!|]. split; [done|]. intros j pc Hj. by destruct j.
  - pose proof (le_refl s) as L0. apply wp_bind. eapply wp_mono; [eapply wp_emit; [eassumption|eassumption|nia]|].
    intros split_pc s1 [(I1 & L1 & H1) A]. adv L1. rewrite (proj2 (Z.leb_gt _ _)) by lia.
    assert (ln (c ++ [zero_inst OP_SPLIT]) = ln c + 1) as E1 by lens.
    apply wp_bind. eapply wp_here; [eassumption|nia|]. intros body_pc Nb. rewrite E1 in Nb.
    apply wp_bind. eapply wp_mono; [eapply Hchild; [eassumption|eassumption|nia]|]. rewrite E1. next_out.
    apply wp_bind. eapply wp_mono.
    { eapply (wp_set_near (set_word (if gr then 0%nat else 1%nat)) (zero_inst OP_SPLIT) c);
        [eassumption| |eassumption|eassumption]. eapply has_eq; [eassumption|]. by rewrite <- app_assoc. }
    intros [] s2 (I2 & L2 & H2). adv L2.
    set (c2 := c ++ _) in H2.
    assert (ln c2 = ln c + k + 1) as E2.
    { unfold c2. rewrite length_app, Nat2Z.inj_add. simpl. rewrite Nat2Z.inj_succ, length_gen. lia. }
    apply wp_bind. eapply wp_mono; [eapply (IH (i + 1) c2); [eassumption|eassumption|rewrite E2; lia|lia]|].
    intros pcs s3 [(I3 & L3 & H3) O3]. rewrite E2 in *. adv L3. apply wp_ret. split.
    + split_and!; [done|done|]. eapply has_eq; [eassumption|]. unfold c2. rewrite <- app_assoc. done.
    + by apply opens_cons.
Qed.

(** Filling in the exits, from the first open split on. *)
Lemma wp_close_options gr n : ∀ pcs pre s end_pc e,
  inv s → has s (pre ++ open_code gr n (ln pre)) → opens s pcs n (ln pre) → near s end_pc e →
  wp (close_options gr pcs end_pc) (λ _ s', out s (pre ++ options_code (gen fl r) k gr n (ln pre) e) s') s.
Proof.
  induction n as [|n IH]; intros pcs pre s end_pc e Is Hs [Hn Ho] Ne;
    destruct pcs as [|pc pcs]; try done; simpl in Hs |- *.
  apply wp_bind.
    pose proof (at_pc_eq _ _ _ (ln pre) (Ho 0%nat pc eq_refl) ltac:(lia)) as A.
    eapply wp_mono; [eapply (wp_set_near (set_word (if gr then 1%nat else 0%nat))); eassumption|].
    intros [] s1 (I1 & L1 & H1).
    set (j := set_word _ e _) in H1. set (body := gen fl r (ln pre + 1)) in *.
    assert (ln (pre ++ j :: body) = ln pre + k + 1) as E.
    { rewrite length_app, Nat2Z.inj_add. simpl. unfold body. rewrite Nat2Z.inj_succ, length_gen. lia. }
    eapply wp_mono; [eapply (IH pcs (pre ++ j :: body)); [exact I1| | |by eapply near_le]|].
    + eapply has_eq; [exact H1|]. by rewrite E, <- app_assoc.
    + rewrite E. split; [by injection Hn|]. intros i x Hx. eapply at_pc_le; [exact L1|].
      eapply at_pc_eq; [apply (Ho (S i) x Hx)|]. lia.
    + intros [] s2 (I2 & L2 & H2). split_and!; [done|by etrans|]. eapply has_eq; [exact H2|].
      rewrite E, <- app_assoc. do 2 f_equal. unfold j. by destruct gr.
Qed.

Lemma wp_compile_quant mn mx gr c s :
  0 ≤ mn ≤ 128 → (mx = -1 ∨ mn ≤ mx ≤ 128) →
  inv s → has s c → ln c + size (Quant r mn mx gr) ≤ limit →
  wp (compile_quant compile_child child mn mx gr) (λ _ s', out s (c ++ gen fl (Quant r mn mx gr) (ln c)) s') s.
Proof.
  intros Hmn Hmx Is Hs Hl. pose proof (size_nonneg r). unfold compile_quant. simpl in Hl |- *.
  destruct ((mn =? 0) && (mx =? 1)); [apply wp_compile_optional; try done; lia|].
  destruct ((mn =? 0) && (mx =? -1)); [apply wp_compile_star; try done; lia|].
  destruct ((mn =? 1) && (mx =? -1)); [apply wp_compile_plus; try done; lia|].
  set (m := Z.to_nat mn) in *. set (c1 := c ++ copies_code (gen fl r) k m (ln c)).
  assert (ln c1 = ln c + Z.of_nat m * k) as E1.
  { unfold c1. by rewrite length_app, Nat2Z.inj_add, (length_copies _ _ (length_gen fl r)). }
  rewrite <- E1. apply wp_bind.
  eapply wp_mono; [eapply (wp_compile_copies m c s); [done|done|repeat case_match; nia]|].
  intros [] s1 O1. pose proof O1 as (I1 & _ & H1). fold c1 in H1.
  destruct (Z.eqb_spec mx (-1)) as [->|Hinf]; [|destruct (Z.ltb_spec mn mx)].
  - eapply wp_mono; [eapply (wp_compile_star gr c1 s1); try done; lia|].
    intros [] s2 O2. eapply out_trans; [exact O1|]. unfold c1 in O2 at 1. by rewrite <- app_assoc in O2.
  - set (n := Z.to_nat (mx - mn)) in *. apply wp_bind.
    eapply wp_mono; [eapply (wp_compile_options gr n 0 c1 s1); try done; lia|].
    intros pcs s2 [O2 Op]. pose proof O2 as (I2 & _ & H2). apply wp_bind.
    assert (ln (c1 ++ open_code gr n (ln c1)) = ln c1 + Z.of_nat n * (k + 1)) as E2.
    { by rewrite length_app, Nat2Z.inj_add, length_open. }
    eapply wp_here; [exact H2|lia|]. intros end_pc Ne. rewrite E2 in Ne.
    eapply wp_mono; [eapply (wp_close_options gr n); eassumption|].
    intros [] s3 O3. eapply out_trans; [exact O1|]. eapply out_trans; [exact O2|].
    unfold c1 in O3 at 1. by rewrite <- app_assoc in O3.
  - apply wp_ret. by rewrite app_nil_r.
Qed.
End pieces.

Section node.
Variables (fl : Z) (compile_child : Z → M cstate unit).

(** The recursive calls made for the node of [r]. *)
Definition child_ok (child : Z) (r : regex) : Prop :=
  ∀ s c, inv s → has s c → ln c + size r ≤ limit →
    wp (compile_child child) (λ _ s', out s (c ++ gen fl r (ln c)) s') s.

Lemma wp_compile_alt r1 r2 i j c s :
  child_ok i r1 → child_ok j r2 → inv s → has s c → ln c + size (Alt r1 r2) ≤ limit →
  wp (compile_alt compile_child (node_for (Alt r1 r2) i j))
     (λ _ s', out s (c ++ gen fl (Alt r1 r2) (ln c)) s') s.
Proof.
  intros C1 C2 Is Hs Hl. pose proof (le_refl s) as L0. pose proof (size_nonneg r1).
  pose proof (size_nonneg r2). unfold compile_alt. simpl in Hl |- *.
  t_emit split_pc A. t_here body_a Na.
  assert (ln (c ++ [zero_inst OP_SPLIT]) = ln c + 1) as E1 by lens. rewrite E1 in Na.
  apply wp_bind. eapply wp_mono; [eapply C1; [eassumption|eassumption|lens]|]. rewrite E1. next_out.
  t_emit jump_pc Aj.
  set (c2 := ((c ++ [zero_inst OP_SPLIT]) ++ gen fl r1 (ln c + 1)) ++ [zero_inst OP_JUMP]) in *.
  assert (ln c2 = ln c + size r1 + 2) as E2 by (unfold c2; lens).
  apply wp_bind. eapply wp_here; [eassumption|lia|intros body_b Nb]. rewrite E2 in Nb.
  apply wp_bind. eapply wp_mono; [eapply C2; [eassumption|eassumption|lia]|]. rewrite E2. next_out.
  apply wp_bind. eapply wp_here; [eassumption|lens|intros end_pc Ne].
  apply (near_eq _ _ _ (ln c + size r1 + 2 + size r2)) in Ne; [|lens].
  apply wp_bind. eapply wp_mono.
  { eapply (wp_set_near (set_word 0) (zero_inst OP_SPLIT) c); [eassumption| |eassumption|eassumption].
    eapply has_eq; [eassumption|]. unfold c2. by rewrite <- !app_assoc. }
  next_out. apply wp_bind.
  eapply wp_mono; [eapply (wp_set_near (set_word 1)); eassumption|]. next_out.
  set (sp := set_word 1 _ _) in *. eapply wp_mono.
  { eapply (wp_set_near (set_word 0) (zero_inst OP_JUMP) (c ++ sp :: gen fl r1 (ln c + 1)));
      [eassumption| | |exact Ne].
    - eapply has_eq; [eassumption|]. by rewrite <- !app_assoc.
    - eapply at_pc_eq; [eassumption|]. lens. }
  next_out. split_and!; [done|done|]. eapply has_eq; [eassumption|]. by rewrite <- app_assoc.
Qed.

Lemma wp_flag_if (b : bool) i pre pc s :
  inv s → has s (pre ++ [i]) → at_pc s pc (ln pre) →
  wp (flag_if b pc) (λ _ s', out s (pre ++ [if b then set_flag i else i]) s') s.
Proof.
  intros Is Hs A. unfold flag_if. destruct b; [by apply wp_set_inst|].
  apply wp_ret. split; [done|split; [reflexivity|done]].
Qed.

(** One instruction: [f] is what is written into it. *)
Lemma wp_emit_set op f (b : bool) c s :
  inv s → has s c → ln c < limit →
  wp (pc <- emit_inst op ;; set_inst pc f ;;; flag_if b pc)
     (λ _ s', out s (c ++ [if b then set_flag (f (zero_inst op)) else f (zero_inst op)]) s') s.
Proof.
  intros Is Hs Hl. pose proof (le_refl s) as L0. t_emit pc A. apply wp_bind.
  eapply wp_mono; [eapply wp_set_inst; eassumption|]. next_out.
  eapply wp_mono; [eapply wp_flag_if; eassumption|]. next_out. by split_and!.
Qed.

Lemma wp_emit_only op c s :
  inv s → has s c → ln c < limit →
  wp (emit_inst op ;;; mret tt) (λ _ s', out s (c ++ [zero_inst op]) s') s.
Proof.
  intros Is Hs Hl. apply wp_bind. eapply wp_mono; [by apply wp_emit|]. intros pc s' [O _]. by apply wp_ret.
Qed.

Lemma wp_emit_flag op (b : bool) c s :
  inv s → has s c → ln c < limit →
  wp (pc <- emit_inst op ;; flag_if b pc)
     (λ _ s', out s (c ++ [if b then set_flag (zero_inst op) else zero_inst op]) s') s.
Proof.
  intros Is Hs Hl. pose proof (le_refl s) as L0. t_emit pc A.
  eapply wp_mono; [eapply wp_flag_if; eassumption|]. next_out. by split_and!.
Qed.

Lemma wp_emit_sub op v c s :
  inv s → has s c → ln c < limit →
  wp (pc <- emit_inst op ;; set_inst pc (set_sub_op v)) (λ _ s', out s (c ++ [i_test op v]) s') s.
Proof.
  intros Is Hs Hl. pose proof (le_refl s) as L0. t_emit pc A.
  eapply wp_mono; [eapply wp_set_inst; eassumption|]. next_out. by split_and!.
Qed.

Lemma wp_compile_class b (neg : bool) c s :
  length b = 8%nat → inv s → has s c → ln c < limit →
  wp (pc <- emit_inst OP_CLASS ;;
      set_inst pc (set_sub_op (if neg then 1 else 0)) ;;; set_inst pc (set_bitmap b))
     (λ _ s', out s (c ++ [i_class b neg]) s') s.
Proof.
  intros Hb Is Hs Hl. pose proof (le_refl s) as L0. t_emit pc A. apply wp_bind.
  eapply wp_mono; [eapply wp_set_inst; eassumption|]. next_out.
  eapply wp_mono; [eapply wp_set_inst; eassumption|]. next_out. by split_and!.
Qed.

Lemma wp_compile_group r gid i c s :
  child_ok i r → inv s → has s c → ln c + size (Group r gid) ≤ limit →
  wp (s1 <- emit_inst OP_SAVE ;;
      set_inst s1 (set_sub_op ((2 * gid) mod 256)) ;;;
      compile_child i ;;;
      s2 <- emit_inst OP_SAVE ;;
      set_inst s2 (set_sub_op ((2 * gid + 1) mod 256)))
     (λ _ s', out s (c ++ gen fl (Group r gid) (ln c)) s') s.
Proof.
  intros C Is Hs Hl. pose proof (le_refl s) as L0. pose proof (size_nonneg r). simpl in Hl.
  t_emit pc1 A1. apply wp_bind. eapply wp_mono; [eapply wp_set_inst; eassumption|]. next_out.
  set (c1 := c ++ [_]) in *. assert (ln c1 = ln c + 1) as E1 by (unfold c1; lens).
  apply wp_bind. eapply wp_mono; [eapply C; [eassumption|eassumption|lia]|]. rewrite E1. next_out.
  eapply wp_mono; [eapply wp_emit_sub; [eassumption|eassumption|lens]|]. next_out.
  split_and!; [done|done|]. eapply has_eq; [eassumption|]. unfold c1. by rewrite <- !app_assoc.
Qed.

Lemma wp_compile_case r i j c s :
  match r with
  | Concat r1 r2 | Alt r1 r2 => child_ok i r1 ∧ child_ok j r2
  | Quant r _ _ _ | Group r _ => child_ok i r
  | _ => True
  end →
  wf r → inv s → has s c → ln c + size r ≤ limit →
  wp (compile_case compile_child fl (node_for r i j)) (λ _ s', out s (c ++ gen fl r (ln c)) s') s.
Proof.
  intros Hch Hwf Is Hs Hl. unfold compile_case, node_for.
  destruct r as [|c0| |b neg| | |neg|r1 r2|r1 r2|r mn mx gr|r gid|gid]; cbn [type ch bitmap negate group_idx left right zero_node];
    simpl in Hwf; try (simpl in Hl; assert (ln c < limit) as Hl' by lia).
  - apply wp_ret. cbn [gen]. rewrite app_nil_r. split; [done|split; [reflexivity|done]].
  - eapply wp_mono; [by eapply wp_emit_set|]. intros [] s' (I' & L' & H'). split_and!; try done.
    eapply has_eq; [exact H'|]. cbn [gen]. do 2 f_equal. unfold ignore_case. by destruct (has_flag _ _).
  - eapply wp_mono; [by eapply wp_emit_flag|]. intros [] s' (I' & L' & H'). split_and!; try done.
    eapply has_eq; [exact H'|]. cbn [gen]. do 2 f_equal. unfold dot_all. by destruct (has_flag _ _).
  - by apply wp_compile_class.
  - by apply wp_emit_only.
  - by apply wp_emit_only.
  - by apply wp_emit_sub.
  - destruct Hch as [C1 C2]. pose proof (size_nonneg r1). pose proof (size_nonneg r2). simpl in Hl.
    apply wp_bind. eapply wp_mono; [apply C1; [done|done|lia]|]. intros [] s1 O1. pose proof O1 as (I1 & _ & H1).
    eapply wp_mono; [apply C2; [done|exact H1|lens]|]. intros [] s2 O2. eapply out_trans; [exact O1|].
    rewrite <- app_assoc, length_app, Nat2Z.inj_add, length_gen in O2. exact O2.
  - destruct Hch. by apply wp_compile_alt.
  - destruct Hwf as (_ & ? & ?). by apply wp_compile_quant.
  - by apply wp_compile_group.
  - eapply wp_mono; [by eapply wp_emit_set|]. intros [] s' (I' & L' & H'). split_and!; try done.
    eapply has_eq; [exact H'|]. cbn [gen]. do 2 f_equal. unfold ignore_case. by destruct (has_flag _ _).
Qed.
End node.

Lemma wp_compile_node fl fuel : ∀ idx r s c,
  ast (content pl0) idx r → idx < Z.of_nat fuel → wf r → inv s → has s c → ln c + size r ≤ limit →
  wp (compile_node fuel fl idx) (λ _ s', out s (c ++ gen fl r (ln c)) s') s.
Proof.
  induction fuel as [|fuel IH]; intros idx r s c Hast Hf Hwf Is Hs Hl.
  { apply ast_range in Hast. lia. }
  cbn [compile_node]. apply wp_bind. hnf. pose proof (ast_range _ _ _ Hast) as Hr.
  rewrite (proj2 (Z.eqb_neq _ _)) by lia. cbn [orb]. destruct (cg_oom (cg s)) eqn:Ho.
  { apply wp_ret. split; [done|split; [reflexivity|]]. destruct Hs as [?|[? _]]; [by left|congruence]. }
  unfold get_node. apply wp_bind, wp_bind. hnf. rewrite (i_pool _ Is).
  assert (∃ i j, content pl0 !! Z.to_nat idx = Some (node_for r i j) ∧
    match r with
    | Concat r1 r2 | Alt r1 r2 => child_ok fl (compile_node fuel fl) i r1 ∧ child_ok fl (compile_node fuel fl) j r2
    | Quant r _ _ _ | Group r _ => child_ok fl (compile_node fuel fl) i r
    | _ => True
    end) as (i & j & Hn & Hch).
  { destruct r; destruct Hast as (_ & i & j & Hn & H); exists i, j; (split; [done|]); simpl in Hwf;
      destruct_and?; try (done || split); intros s' c' Is' Hs' Hl'; (apply IH; [done|lia|done|done|done|done]). }
  rewrite Hn. by apply wp_compile_case.
Qed.

(** ** The whole program *)

Definition prefix_code (anchored : bool) : list cobalt_regex_inst :=
  if anchored then [] else [i_split true 3 1; i_any true; i_jump 0].
Definition entry (anchored : bool) : Z := if anchored then 0 else 3.
Definition program (fl : Z) (r : regex) (anchored : bool) : list cobalt_regex_inst :=
  prefix_code anchored ++ i_save 0 :: gen fl r (entry anchored + 1) ++ [i_save 1; i_match].

Lemma length_program fl r anchored : ln (program fl r anchored) = entry anchored + size r + 3.
Proof. unfold program. destruct anchored; simpl; lens. Qed.

(** The fault of writing through the array when not even its first block could
    be allocated. *)
Definition no_block (f : fault) : Prop :=
  f = NullDeref ∧ ∃ e', env_le e0 e' ∧ starved e' B.

Lemma emit_oom op s : cg_oom (cg s) = true → emit_inst op s = Ret 0 s.
Proof. intros H. unfold emit_inst, mbind, get_cg. by rewrite H. Qed.

Lemma set_inst_null pc f s : insts (cg s) = NULL → set_inst pc f s = Fault NullDeref.
Proof. intros H. unfold set_inst, mbind, get_cg. by rewrite H. Qed.

(** The first instruction. *)
Lemma wp_or_first {A} op (k : Z → M cstate A) (Q : A → cstate → Prop) s :
  prs s = p0 → pool s = pl0 → mem h0 s → env_le e0 (env s) → cg s = Codegen NULL [] 0 false → 0 < limit →
  (∀ pc s', out s [zero_inst op] s' → at_pc s' pc 0 → wp (k pc) Q s') →
  (∀ s', insts (cg s') = NULL → cg_oom (cg s') = true → k 0 s' = Fault NullDeref) →
  wp_or no_block (mbind (emit_inst op) k) Q s.
Proof.
  intros Ep El Hm He Hc Hl HQ HF. apply wp_or_bind, wp_or_of.
  eapply (wp_emit_inst op []); try done.
  - right. by rewrite Hc.
  - by right.
  - intros pc s' O Hpc. by apply wp_or_of, HQ.
  - intros _ s' Hi Ho Hst Hle. unfold wp_or. rewrite HF by done. split; [done|]. by exists (env s').
Qed.

Lemma wp_or_emit_prefix s :
  prs s = p0 → pool s = pl0 → mem h0 s → env_le e0 (env s) → cg s = Codegen NULL [] 0 false → 3 ≤ limit →
  wp_or no_block emit_prefix (λ e s', out s (prefix_code false) s' ∧ near s' e 3) s.
Proof.
  intros Ep El Hm He Hc Hl. unfold emit_prefix. apply wp_or_first; try done; [lia| |].
  - intros s_pc s1 (I1 & L0 & H1) A1. t_emit any_pc A2.
    apply wp_bind. eapply wp_mono; [eapply (wp_set_inst set_flag _ _ []); eassumption|]. next_out.
    t_emit j_pc A3. apply wp_bind.
    eapply wp_mono; [eapply (wp_set_inst (set_word 0 0) _ _ []); [eassumption|eassumption|exact A3]|]. next_out.
    t_here x_pc Ne. apply wp_bind.
    eapply wp_mono; [eapply (wp_set_near (set_word 0) (zero_inst OP_SPLIT) []); [eassumption|eapply has_eq; [eassumption|reflexivity]|eassumption..]|]. next_out.
    apply wp_bind.
    lazymatch type of A2 with at_pc ?s' _ _ =>
      assert (near s' any_pc 1) as N2 by (destruct A2 as [_ [?| ->]]; [by left|by right]) end.
    eapply wp_mono; [eapply (wp_set_near (set_word 1) _ []); eassumption|]. next_out.
    apply wp_ret. split; [|done]. split_and!; [done|done|]. by eapply has_eq.
  - intros s' Hi Ho. unfold mbind at 1. rewrite emit_oom by done. unfold mbind at 1. by rewrite set_inst_null.
Qed.

Lemma wp_emit_body fl r root anchored c (exact_pc : Z) s :
  ast (content pl0) root r → wf r → inv s → has s c → root < Z.of_nat (S (length (content pl0))) →
  ln c = entry anchored + 1 → ln c + size r + 2 ≤ limit →
  wp (pl <- get_pool ;;
      compile_node (S (length (content pl))) fl root ;;;
      save1 <- emit_inst OP_SAVE ;;
      set_inst save1 (set_sub_op 1) ;;;
      emit_inst OP_MATCH ;;;
      mret exact_pc)
     (λ e s', out s (c ++ gen fl r (entry anchored + 1) ++ [i_save 1; i_match]) s' ∧ e = exact_pc) s.
Proof.
  intros Ha Hwf Is Hs Hroot E Hl. pose proof (le_refl s) as L0. pose proof (size_nonneg r).
  apply wp_bind. hnf. rewrite (i_pool _ Is). apply wp_bind.
  eapply wp_mono; [eapply wp_compile_node; try eassumption; lia|]. rewrite E. next_out.
  t_emit save1 A1. apply wp_bind. eapply wp_mono; [eapply wp_set_inst; eassumption|]. next_out.
  t_emit pc A2. apply wp_ret. split; [|done]. split_and!; [done|done|]. eapply has_eq; [eassumption|].
  by rewrite <- !app_assoc.
Qed.

Lemma wp_or_emit_program fl r root anchored s :
  prs s = p0 → pool s = pl0 → mem h0 s → env_le e0 (env s) → cg s = Codegen NULL [] 0 false →
  ast (content pl0) root r → wf r → root < Z.of_nat (length (content pl0)) → size r + 6 ≤ limit →
  wp_or no_block (emit_program fl root anchored)
    (λ e s', out s (program fl r anchored) s' ∧ near s' e (entry anchored)) s.
Proof.
  intros Ep El Hm He Hc Ha Hwf Hroot Hl. pose proof (size_nonneg r). unfold emit_program.
  destruct anchored.
  - apply wp_or_bind, wp_or_ret. apply wp_or_first; try done; [lia| |].
    + intros save0 s1 O1 A1. pose proof O1 as (I1 & L0 & H1). apply wp_bind.
      eapply wp_mono; [eapply (wp_set_inst _ _ []); eassumption|]. next_out.
      eapply wp_mono; [eapply (wp_emit_body fl r root true [i_save 0]); try eassumption; simpl; lia|].
      intros e s' [(I' & L' & H') ->]. split; [|by right]. split_and!; [done|by etrans|done].
    + intros s' Hi Ho. unfold mbind at 1. by rewrite set_inst_null.
  - apply wp_or_bind. eapply wp_or_mono; [by apply wp_or_emit_prefix; try done; lia|].
    intros exact_pc s1 [(I1 & L0 & H1) Ne]. apply wp_or_of. apply wp_bind.
    eapply wp_mono; [eapply wp_emit; [eassumption|eassumption|simpl; lia]|].
    intros save0 s2 [(I2 & L2 & H2) A1]. adv L2. apply wp_bind.
    eapply wp_mono; [eapply wp_set_inst; eassumption|]. next_out.
    eapply wp_mono; [eapply (wp_emit_body fl r root false (prefix_code false ++ [i_save 0])); try eassumption; simpl; lia|].
    intros e s' [(I' & L' & H') ->]. adv L'. split; [|done]. split_and!; [done|done|]. done.
Qed.
End gen.
End RegexGen.
