(* ===== verification/RegexRef.v ===== *)
(** * A reference parser for patterns

    The grammar of src/src/algorithm/regex.c as functions on lists of bytes:
    each returns what it read, the bytes that are left and the number of capturing
    groups opened so far, or [None] for a syntax error.  [RegexWf]: what it reads
    is well-formed.  [RegexClass]: a class holds the characters of its members,
    which are given without bitmaps. *)
From S2P Require Import Prelude World Regex RegexVM RegexSem.

Module RegexRef.
Import Regex RegexSem.

Definition parsed : Type := option (regex * list Z * Z).

Section flags.
Variable ci : bool.

(** ** Classes *)

(** The members of a class up to the closing bracket or the end. *)
Fixpoint ref_members (fuel : nat) (b s : list Z) : option (list Z * list Z) :=
  match fuel with
  | O => None
  | S fuel =>
      match s with
      | [] => Some (b, [])
      | c :: s' =>
          if c =? 93 then Some (b, s)
          else if c =? 92 then
            match s' with
            | [] => None
            | esc :: s'' => ref_members fuel (class_escape ci b esc) s''
            end
          else
            match s' with
            | d :: e :: s'' =>
                if (d =? 45) && negb (e =? 93) then
                  match (if e =? 92 then match s'' with [] => None | f :: s3 => Some (f, s3) end else Some (e, s'')) with
                  | None => None
                  | Some (c2, s3) =>
                      if c2 <? c then None else ref_members fuel (bitmap_set_range b c c2 ci) s3
                  end
                else ref_members fuel (bitmap_set_range b c c ci) s'
            | _ => ref_members fuel (bitmap_set_range b c c ci) s'
            end
      end
  end.

Definition ref_negation (s : list Z) : bool * list Z :=
  match s with c :: s' => if c =? 94 then (true, s') else (false, s) | [] => (false, []) end.

Definition ref_bracket (s : list Z) : list Z * list Z :=
  match s with
  | c :: s' => if c =? 93 then (bitmap_set_range zero_bitmap c c ci, s') else (zero_bitmap, s)
  | [] => (zero_bitmap, [])
  end.

(** A class behind its opening bracket. *)
Definition ref_class (s : list Z) : option (regex * list Z) :=
  let '(neg, s) := ref_negation s in
  let '(b, s) := ref_bracket s in
  match ref_members (S (length s)) b s with
  | Some (b, c :: s) => if c =? 93 then Some (Class b neg, s) else None
  | _ => None
  end.

(** ** Quantifiers *)

Fixpoint ref_count (s : list Z) (v : Z) : option (Z * list Z) :=
  match s with
  | c :: s' =>
      if isdigit c then
        let v := v * 10 + (c - 48) in
        if 128 <? v then None else ref_count s' v
      else Some (v, s)
  | [] => Some (v, [])
  end.

Definition ref_max (mn : Z) (s : list Z) : option (Z * list Z) :=
  match s with
  | c :: s' =>
      if c =? 44 then
        match s' with
        | d :: _ =>
            if d =? 125 then Some (-1, s')
            else if isdigit d then
              match ref_count s' 0 with
              | Some (mx, s2) => if mx <? mn then None else Some (mx, s2)
              | None => None
              end
            else None
        | [] => None
        end
      else Some (mn, s)
  | [] => Some (mn, [])
  end.

(** The bounds between braces, behind the opening one. *)
Definition ref_braces (s : list Z) : option (Z * Z * list Z) :=
  match s with
  | c :: _ =>
      if isdigit c then
        match ref_count s 0 with
        | None => None
        | Some (mn, s1) =>
            match ref_max mn s1 with
            | Some (mx, d :: s2) => if d =? 125 then Some (mn, mx, s2) else None
            | _ => None
            end
        end
      else None
  | [] => None
  end.

Definition is_quantifier (c : Z) : bool := (c =? 42) || (c =? 43) || (c =? 63) || (c =? 123).

Definition ref_bounds (c : Z) (s : list Z) : option (Z * Z * list Z) :=
  if c =? 42 then Some (0, -1, s)
  else if c =? 43 then Some (1, -1, s)
  else if c =? 63 then Some (0, 1, s)
  else ref_braces s.

Definition ref_greedy (s : list Z) : bool * list Z :=
  match s with c :: s' => if c =? 63 then (false, s') else (true, s) | [] => (true, []) end.

(** The quantifier that may follow the atom [r]. *)
Definition ref_quant (r : regex) (s : list Z) (g : Z) : parsed :=
  match s with
  | c :: s' =>
      if is_quantifier c then
        match ref_bounds c s' with
        | None => None
        | Some (mn, mx, s1) => let '(gr, s2) := ref_greedy s1 in Some (Quant r mn mx gr, s2, g)
        end
      else Some (r, s, g)
  | [] => Some (r, [], g)
  end.

(** ** Atoms *)

Definition ref_backref (g gid : Z) (s : list Z) : option (regex * list Z) :=
  let '(gid, s) :=
    match s with
    | d :: s' =>
        if isdigit d && (gid * 10 + (d - 48) <=? g) then (gid * 10 + (d - 48), s') else (gid, s)
    | [] => (gid, [])
    end in
  if g <? gid then None else Some (Backref gid, s).

Definition ref_escape (g esc : Z) (s : list Z) : option (regex * list Z) :=
  if (49 <=? esc) && (esc <=? 57) then ref_backref g (esc - 48) s
  else Some
    (if esc =? 98 then Boundary false
     else if esc =? 66 then Boundary true
     else if (esc =? 100) || (esc =? 68) then Class (bitmap_set_digit zero_bitmap) (esc =? 68)
     else if (esc =? 119) || (esc =? 87) then Class (bitmap_set_word zero_bitmap) (esc =? 87)
     else if (esc =? 115) || (esc =? 83) then Class (bitmap_set_space zero_bitmap) (esc =? 83)
     else if esc =? 110 then Char 10
     else if esc =? 114 then Char 13
     else if esc =? 116 then Char 9
     else if esc =? 118 then Char 11
     else if esc =? 102 then Char 12
     else if esc =? 48 then Char 0
     else Char esc, s).

Section recursion.
Variable expr : list Z → Z → parsed.

(** What is between the parentheses, and the closing one. *)
Definition ref_body (s : list Z) (g : Z) : parsed :=
  match expr s g with
  | Some (r, c :: s', g') => if c =? 41 then Some (r, s', g') else None
  | _ => None
  end.

(** A group behind its opening parenthesis. *)
Definition ref_group (s : list Z) (g : Z) : parsed :=
  match s with
  | c :: d :: s' =>
      if (c =? 63) && (d =? 58) then ref_body s' g
      else if COBALT_REGEX_MAX_CAPTURES <=? g + 1 then None
      else match ref_body s (g + 1) with
           | Some (r, s2, g') => Some (Group r (g + 1), s2, g')
           | None => None
           end
  | _ =>
      if COBALT_REGEX_MAX_CAPTURES <=? g + 1 then None
      else match ref_body s (g + 1) with
           | Some (r, s2, g') => Some (Group r (g + 1), s2, g')
           | None => None
           end
  end.

Definition keep (g : Z) (o : option (regex * list Z)) : parsed :=
  match o with Some (r, s) => Some (r, s, g) | None => None end.

Definition ref_atom (c : Z) (s : list Z) (g : Z) : parsed :=
  if is_quantifier c then None
  else if c =? 94 then Some (Bol, s, g)
  else if c =? 36 then Some (Eol, s, g)
  else if c =? 46 then Some (Any, s, g)
  else if c =? 40 then ref_group s g
  else if c =? 41 then None
  else if c =? 91 then keep g (ref_class s)
  else if c =? 92 then
    match s with [] => None | esc :: s' => keep g (ref_escape g esc s') end
  else Some (Char c, s, g).

Definition ref_factor (c : Z) (s : list Z) (g : Z) : parsed :=
  match ref_atom c s g with
  | Some (r, s', g') => ref_quant r s' g'
  | None => None
  end.

(** The factors of a term, behind those read into [acc]. *)
Fixpoint ref_factors (fuel : nat) (acc : option regex) (s : list Z) (g : Z) : parsed :=
  match fuel with
  | O => None
  | S fuel =>
      match s with
      | c :: s' =>
          if (c =? 124) || (c =? 41) then Some (default Empty acc, s, g)
          else match ref_factor c s' g with
               | Some (r, s2, g2) =>
                   ref_factors fuel (Some (match acc with Some a => Concat a r | None => r end)) s2 g2
               | None => None
               end
      | [] => Some (default Empty acc, [], g)
      end
  end.

Definition ref_term (s : list Z) (g : Z) : parsed := ref_factors (S (length s)) None s g.

(** The alternatives behind the first ones, which are [l]. *)
Fixpoint ref_alts (fuel : nat) (l : regex) (s : list Z) (g : Z) : parsed :=
  match fuel with
  | O => None
  | S fuel =>
      match s with
      | c :: s' =>
          if c =? 124 then
            match ref_term s' g with
            | Some (r, s2, g2) => ref_alts fuel (Alt l r) s2 g2
            | None => None
            end
          else Some (l, s, g)
      | [] => Some (l, [], g)
      end
  end.

Definition ref_alternatives (s : list Z) (g : Z) : parsed :=
  match ref_term s g with
  | Some (l, s', g') => ref_alts (S (length s')) l s' g'
  | None => None
  end.
End recursion.

Fixpoint ref_expr (fuel : nat) (s : list Z) (g : Z) : parsed :=
  match fuel with
  | O => None
  | S fuel => ref_alternatives (ref_expr fuel) s g
  end.
End flags.

(** The expression a pattern stands for and the number of its groups. *)
Definition ref_parse (fl : Z) (pat : list Z) : option (regex * Z) :=
  match ref_expr (ignore_case fl) (S (length pat)) pat 0 with
  | Some (r, [], g) => Some (r, g)
  | _ => None
  end.

(** ** Quantifiers only shorten what is left, and keep to their bounds *)

Lemma ref_count_spec s : ∀ v0 v t, 0 ≤ v0 ≤ 128 → ref_count s v0 = Some (v, t) →
  (length t ≤ length s)%nat ∧ 0 ≤ v ≤ 128.
Proof.
  induction s as [|c s IH]; intros v0 v t Hv0; simpl; [intros [= <- <-]; simpl; lia|].
  destruct (isdigit c) eqn:Ec; [|intros [= <- <-]; simpl; lia].
  unfold isdigit in Ec. apply andb_true_iff in Ec as [?%Z.leb_le ?%Z.leb_le].
  destruct (Z.ltb_spec 128 (v0 * 10 + (c - 48))); [done|]. intros E. apply IH in E; lia.
Qed.

Lemma ref_max_spec mn s mx t : 0 ≤ mn ≤ 128 → ref_max mn s = Some (mx, t) →
  (length t ≤ length s)%nat ∧ (mx = -1 ∨ mn ≤ mx ≤ 128).
Proof.
  intros Hmn. destruct s as [|c s]; cbn [ref_max]; [intros [= <- <-]; simpl; lia|].
  destruct (c =? 44); [|intros [= <- <-]; simpl; lia]. destruct s as [|d s]; [done|].
  destruct (d =? 125); [intros [= <- <-]; simpl; lia|]. destruct (isdigit d); [|done].
  destruct (ref_count (d :: s) 0) as [[v t']|] eqn:E; [|done]. apply ref_count_spec in E; [|lia].
  destruct (Z.ltb_spec v mn); [done|]. intros [= <- <-]. simpl in *. lia.
Qed.

Lemma ref_bounds_spec c s mn mx t : ref_bounds c s = Some (mn, mx, t) →
  (length t ≤ length s)%nat ∧ 0 ≤ mn ≤ 128 ∧ (mx = -1 ∨ mn ≤ mx ≤ 128).
Proof.
  unfold ref_bounds, ref_braces.
  destruct (c =? 42); [intros [= <- <- <-]; lia|]. destruct (c =? 43); [intros [= <- <- <-]; lia|].
  destruct (c =? 63); [intros [= <- <- <-]; lia|]. destruct s as [|d s]; [done|]. destruct (isdigit d); [|done].
  destruct (ref_count (d :: s) 0) as [[v s1]|] eqn:E1; [|done]. apply ref_count_spec in E1 as [? ?]; [|lia].
  destruct (ref_max v s1) as [[w [|e s2]]|] eqn:E2; try done. apply ref_max_spec in E2 as [? ?]; [|done].
  destruct (e =? 125); [|done]. intros [= <- <- <-]. simpl in *. lia.
Qed.

Lemma ref_greedy_spec s : (length (ref_greedy s).2 ≤ length s)%nat.
Proof. destruct s as [|c s]; simpl; [lia|]. destruct (c =? 63); simpl; lia. Qed.
End RegexRef.

(** ** What the reference parser accepts

    The expression of a pattern is well-formed: its repetition counts, group
    numbers and back references are in range and its classes are bitmaps of 256
    bits.  A class holds the characters of its ranges. *)
Module RegexWf.
Import Regex RegexVM RegexSem RegexRef.

Notation bytes := (Forall (λ c, 0 < c < 256)).

(** ** Bitmaps *)

Lemma length_bitmap_set b c : length (bitmap_set b c) = length b.
Proof. apply length_alter. Qed.

Lemma length_set_folded ci b c : length (set_folded ci b c) = length b.
Proof. unfold set_folded. repeat case_match; by rewrite ?length_bitmap_set. Qed.

Lemma length_bitmap_range ci lo hi b : length (bitmap_set_range b lo hi ci) = length b.
Proof.
  unfold bitmap_set_range. generalize (seqZ lo (hi - lo + 1)) as l. intros l. revert b.
  induction l as [|c l IH]; intros b; simpl; [done|]. by rewrite IH, length_set_folded.
Qed.

#[local] Hint Rewrite length_bitmap_set length_bitmap_range : bitmap.

Lemma length_class_escape ci b esc : length b = 8%nat → length (class_escape ci b esc) = 8%nat.
Proof.
  intros Hb. unfold class_escape. repeat case_match;
    unfold bitmap_set_not_digit, bitmap_set_not_word, bitmap_set_not_space, bitmap_or_not;
    rewrite ?length_zip_with; unfold bitmap_set_digit, bitmap_set_word, bitmap_set_space;
    autorewrite with bitmap; rewrite Hb; done.
Qed.

(** Adding a character to a class adds nothing else. *)
Lemma in_class_set b c d :
  length b = 8%nat → 0 ≤ c < 256 → 0 ≤ d < 256 → in_class (bitmap_set b c) d = in_class b d || (c =? d).
Proof.
  intros Hb Hc Hd. unfold in_class, bitmap_set.
  change 31 with (Z.ones 5). rewrite Z.land_ones, Z.shiftr_div_pow2 by lia. change (2 ^ 5) with 32.
  pose proof (Z.div_mod c 32 ltac:(lia)). pose proof (Z.div_mod d 32 ltac:(lia)).
  pose proof (Z.mod_pos_bound c 32 ltac:(lia)). pose proof (Z.mod_pos_bound d 32 ltac:(lia)).
  destruct (decide (c / 32 = d / 32)) as [E|E].
  - rewrite E. destruct (lookup_lt_is_Some_2 b (Z.to_nat (d / 32))) as [x Hx].
    { rewrite Hb. pose proof (Z.div_lt_upper_bound d 32 8). lia. }
    rewrite list_lookup_alter_eq, Hx. simpl. rewrite Z.lor_spec, Z.shiftl_1_l, Z.pow2_bits_eqb by lia.
    f_equal. apply eq_true_iff_eq. rewrite !Z.eqb_eq. lia.
  - rewrite list_lookup_alter_ne by (pose proof (Z.div_pos c 32); pose proof (Z.div_pos d 32); lia).
    rewrite (proj2 (Z.eqb_neq c d)) by congruence. by rewrite orb_false_r.
Qed.

(** The other case of a letter. *)
Definition swap_case (c : Z) : Z :=
  if (97 <=? c) && (c <=? 122) then c - 32 else if (65 <=? c) && (c <=? 90) then c + 32 else c.

Lemma swap_case_involutive c : swap_case (swap_case c) = c.
Proof.
  assert (97 ≤ c ≤ 122 ∨ 65 ≤ c ≤ 90 ∨ ¬ 97 ≤ c ≤ 122 ∧ ¬ 65 ≤ c ≤ 90) as H by lia. unfold swap_case.
  destruct (Z.leb_spec 97 c), (Z.leb_spec c 122), (Z.leb_spec 65 c), (Z.leb_spec c 90); simpl;
    repeat match goal with |- context [?x <=? ?y] => destruct (Z.leb_spec x y); simpl end; lia.
Qed.

Lemma in_class_folded ci b c d :
  length b = 8%nat → 0 ≤ c < 256 → 0 ≤ d < 256 →
  in_class (set_folded ci b c) d = in_class b d || (c =? d) || (ci && (swap_case c =? d)).
Proof.
  intros Hb Hc Hd. unfold set_folded, swap_case.
  destruct ci; simpl; [|by rewrite in_class_set, orb_false_r].
  destruct (Z.leb_spec 97 c); destruct (Z.leb_spec c 122); simpl;
    [rewrite !in_class_set by (rewrite ?length_bitmap_set; lia); done| | | ].
  all: destruct (Z.leb_spec 65 c); destruct (Z.leb_spec c 90); simpl;
    [rewrite !in_class_set by (rewrite ?length_bitmap_set; lia); done|..].
  all: rewrite in_class_set by lia; by rewrite <- orb_assoc, orb_diag.
Qed.

(** A range holds its characters, in either case when case is ignored. *)
Lemma in_class_range ci b lo hi d :
  length b = 8%nat → 0 ≤ lo → hi < 256 → 0 ≤ d < 256 →
  in_class (bitmap_set_range b lo hi ci) d =
    in_class b d || ((lo <=? d) && (d <=? hi)) ||
    (ci && ((lo <=? swap_case d) && (swap_case d <=? hi))).
Proof.
  intros Hb Hlo Hhi Hd.
  assert (∀ l b, length b = 8%nat → Forall (λ c, 0 ≤ c < 256) l →
    in_class (foldl (set_folded ci) b l) d =
      in_class b d || existsb (λ c, (c =? d) || (ci && (c =? swap_case d))) l) as Hfold.
  { clear b Hb. induction l as [|c l IH]; intros b Hb Hl; simpl; [by rewrite orb_false_r|].
    apply Forall_cons in Hl as [Hc Hl]. rewrite IH by (rewrite ?length_set_folded; done).
    rewrite in_class_folded by done. replace (swap_case c =? d) with (c =? swap_case d); [by rewrite !orb_assoc|].
    apply eq_true_iff_eq. rewrite !Z.eqb_eq. split; [intros ->|intros <-]; by rewrite swap_case_involutive. }
  unfold bitmap_set_range. rewrite Hfold; [|done|].
  - rewrite <- orb_assoc. f_equal. apply eq_true_iff_eq. rewrite existsb_exists, orb_true_iff, !andb_true_iff, !Z.leb_le.
    setoid_rewrite <- list_elem_of_In. setoid_rewrite elem_of_seqZ.
    setoid_rewrite orb_true_iff. setoid_rewrite andb_true_iff. setoid_rewrite Z.eqb_eq. split.
    + intros (c & ? & [->|[? ->]]); [left; lia|right; split; [done|lia]].
    + intros [?|[? ?]]; [exists d; split; [lia|by left]|exists (swap_case d); split; [lia|by right]].
  - apply Forall_forall. intros c. rewrite elem_of_seqZ. lia.
Qed.

(** ** Classes, quantifiers and escapes *)

Lemma ref_members_wf ci fuel : ∀ b s b' t,
  length b = 8%nat → bytes s → ref_members ci fuel b s = Some (b', t) → length b' = 8%nat ∧ bytes t.
Proof.
  induction fuel as [|fuel IH]; intros b s b' t Hb Hs; [done|]. cbn [ref_members].
  destruct s as [|c s]; [by intros [= <- <-]|]. apply Forall_cons in Hs as [Hc Hs].
  destruct (c =? 93); [intros [= <- <-]; split; [done|by constructor]|]. destruct (c =? 92).
  { destruct s as [|esc s]; [done|]. apply Forall_cons in Hs as [_ Hs]. apply IH; [by apply length_class_escape|done]. }
  destruct s as [|d [|e s]]; [by apply IH; rewrite ?length_bitmap_range..|].
  destruct (_ && _); [|by apply IH; rewrite ?length_bitmap_range].
  destruct (e =? 92).
  - destruct s as [|f s]; [done|]. destruct (_ <? _); [done|]. apply IH; [by rewrite length_bitmap_range|].
    by repeat apply Forall_cons in Hs as [_ Hs].
  - destruct (_ <? _); [done|]. apply IH; [by rewrite length_bitmap_range|]. by repeat apply Forall_cons in Hs as [_ Hs].
Qed.

(** What an atom is and what is left. *)
Definition atom_ok (g : Z) (o : option (regex * list Z)) : Prop :=
  ∀ r t, o = Some (r, t) → wf r ∧ bytes t.

Lemma ref_class_wf ci g s : bytes s → atom_ok g (ref_class ci s).
Proof.
  intros Hs r t. unfold ref_class.
  assert (bytes (ref_negation s).2) as Hs1.
  { destruct s as [|c s]; simpl; [done|]. apply Forall_cons in Hs as [? ?]. case_match; [done|by constructor]. }
  destruct (ref_negation s) as [neg s1]. simpl in Hs1.
  assert (length (ref_bracket ci s1).1 = 8%nat ∧ bytes (ref_bracket ci s1).2) as [Hb Hs2].
  { destruct s1 as [|c s1]; simpl; [done|]. apply Forall_cons in Hs1 as [? ?].
    case_match; simpl; [by rewrite length_bitmap_range|]. split; [done|by constructor]. }
  destruct (ref_bracket ci s1) as [b s2]. simpl in Hb, Hs2.
  destruct (ref_members _ _ b s2) as [[b' [|c t']]|] eqn:E; [done| |done].
  apply ref_members_wf in E as [Hb' Ht]; [|done..]. apply Forall_cons in Ht as [_ Ht].
  destruct (c =? 93); [|done]. by intros [= <- <-].
Qed.

Lemma ref_count_bytes s : ∀ v v' t, bytes s → ref_count s v = Some (v', t) → bytes t.
Proof.
  induction s as [|c s IH]; intros v v' t Hs; simpl; [by intros [= <- <-]|].
  destruct (isdigit c); [|by intros [= <- <-]]. case_match; [done|]. apply IH. by apply Forall_cons in Hs as [_ Hs].
Qed.

Lemma ref_bounds_bytes c s mn mx t : bytes s → ref_bounds c s = Some (mn, mx, t) → bytes t.
Proof.
  intros Hs. unfold ref_bounds, ref_braces.
  do 3 (case_match; [by intros [= <- <- <-]|]). destruct s as [|d s]; [done|]. case_match; [|done].
  destruct (ref_count (d :: s) 0) as [[v s1]|] eqn:E1; [|done].
  pose proof (ref_count_bytes _ _ _ _ Hs E1) as Hs1.
  assert (∀ w s2, ref_max v s1 = Some (w, s2) → bytes s2) as Hmax.
  { intros w s2. unfold ref_max. destruct s1 as [|x s1]; [by intros [= <- <-]|].
    case_match; [|by intros [= <- <-]]. destruct s1 as [|y s1]; [done|]. apply Forall_cons in Hs1 as [_ Hs1].
    case_match; [by intros [= <- <-]|]. case_match; [|done].
    destruct (ref_count (y :: s1) 0) as [[z s3]|] eqn:E3; [|done]. apply ref_count_bytes in E3; [|done].
    case_match; [done|]. by intros [= <- <-]. }
  destruct (ref_max v s1) as [[w [|e s2]]|]; try done. specialize (Hmax _ _ eq_refl).
  case_match; [|done]. intros [= <- <- <-]. by apply Forall_cons in Hmax as [_ ?].
Qed.

Lemma ref_escape_wf g esc s :
  0 ≤ g < COBALT_REGEX_MAX_CAPTURES → 0 < esc < 256 → bytes s → atom_ok g (ref_escape g esc s).
Proof.
  intros Hg He Hs r t. unfold ref_escape. case_match.
  - unfold ref_backref. intros E.
    assert (∃ gid, r = Backref gid ∧ 1 ≤ gid ≤ g ∧ bytes t) as (gid & -> & ? & ?); [|simpl; split; [lia|done]].
    destruct s as [|d s].
    + destruct (Z.ltb_spec g (esc - 48)); [done|]. injection E as <- <-. exists (esc - 48). split_and!; [done|lia..|done].
    + pose proof Hs as Hs'. apply Forall_cons in Hs' as [_ Hs'].
      destruct (isdigit d) eqn:Hd; simpl in E; [destruct (Z.leb_spec ((esc - 48) * 10 + (d - 48)) g)|];
        match type of E with context [?x <? ?y] => destruct (Z.ltb_spec x y) end; try done; injection E as <- <-; eexists; (split; [done|]);
        unfold isdigit in *; split; try done; lia.
  - intros [= <- <-]. split; [|done]. repeat case_match; simpl; try done;
      unfold bitmap_set_digit, bitmap_set_word, bitmap_set_space; autorewrite with bitmap; first [done|lia].
Qed.

(** ** Expressions *)

Definition parsed_ok (g : Z) (o : parsed) : Prop :=
  ∀ r t g', o = Some (r, t, g') → wf r ∧ bytes t ∧ g ≤ g' < COBALT_REGEX_MAX_CAPTURES.

Definition expr_ok (expr : list Z → Z → parsed) : Prop :=
  ∀ s g, 0 ≤ g < COBALT_REGEX_MAX_CAPTURES → bytes s → parsed_ok g (expr s g).

Lemma keep_ok g o : 0 ≤ g < COBALT_REGEX_MAX_CAPTURES → atom_ok g o → parsed_ok g (keep g o).
Proof.
  intros Hg Ho r t g'. destruct o as [[r0 t0]|]; simpl; [|done]. intros [= <- <- <-].
  destruct (Ho _ _ eq_refl). split_and!; try done; lia.
Qed.

Section recursion.
Variables (ci : bool) (expr : list Z → Z → parsed).
Hypothesis Hexpr : expr_ok expr.

Lemma ref_body_wf s g : 0 ≤ g < COBALT_REGEX_MAX_CAPTURES → bytes s → parsed_ok g (ref_body expr s g).
Proof.
  intros Hg Hs r t g'. unfold ref_body. pose proof (Hexpr s g Hg Hs) as He.
  destruct (expr s g) as [[[r0 [|c t0]] g0]|]; try done. case_match; [|done]. intros [= <- <- <-].
  destruct (He _ _ _ eq_refl) as (? & Ht & ?). by apply Forall_cons in Ht as [_ ?].
Qed.

Lemma ref_group_wf s g : 0 ≤ g < COBALT_REGEX_MAX_CAPTURES → bytes s → parsed_ok g (ref_group expr s g).
Proof.
  intros Hg Hs.
  assert (parsed_ok g (if COBALT_REGEX_MAX_CAPTURES <=? g + 1 then None
    else match ref_body expr s (g + 1) with
         | Some (r, s2, g') => Some (Group r (g + 1), s2, g')
         | None => None
         end)) as Hcap.
  { intros r t g'. destruct (Z.leb_spec COBALT_REGEX_MAX_CAPTURES (g + 1)); [done|].
    pose proof (ref_body_wf s (g + 1) ltac:(lia) Hs) as Hb.
    destruct (ref_body expr s (g + 1)) as [[[r0 t0] g0]|]; [|done]. intros [= <- <- <-].
    destruct (Hb _ _ _ eq_refl) as (? & ? & ?). split_and!; [split; [done|lia]|done|lia|lia]. }
  unfold ref_group. destruct s as [|c [|d s]]; [done|done|]. destruct (_ && _); [|done].
  apply ref_body_wf; [done|]. by repeat apply Forall_cons in Hs as [_ Hs].
Qed.

Lemma ref_atom_wf c s g :
  0 ≤ g < COBALT_REGEX_MAX_CAPTURES → 0 < c < 256 → bytes s → parsed_ok g (ref_atom ci expr c s g).
Proof.
  intros Hg Hc Hs. unfold ref_atom.
  assert (∀ r, wf r → parsed_ok g (Some (r, s, g))) as Hleaf.
  { intros r Hr r' t g' [= <- <- <-]. split_and!; try done; lia. }
  do 4 (case_match; [first [done|by apply Hleaf]|]). case_match; [by apply ref_group_wf|].
  case_match; [done|]. case_match; [by apply keep_ok, ref_class_wf|]. case_match; [|apply Hleaf; simpl; lia].
  destruct s as [|esc s]; [done|]. apply Forall_cons in Hs as [He Hs]. by apply keep_ok, ref_escape_wf.
Qed.

Lemma ref_quant_wf r s g :
  0 ≤ g < COBALT_REGEX_MAX_CAPTURES → wf r → bytes s → parsed_ok g (ref_quant r s g).
Proof.
  intros Hg Hr Hs r' t g'. unfold ref_quant.
  destruct s as [|c s]; [intros [= <- <- <-]; split_and!; try done; lia|].
  case_match; [|intros [= <- <- <-]; split_and!; try done; lia]. apply Forall_cons in Hs as [_ Hs].
  destruct (ref_bounds c s) as [[[mn mx] s1]|] eqn:E; [|done].
  pose proof (ref_bounds_bytes _ _ _ _ _ Hs E) as H1. apply ref_bounds_spec in E as (_ & ? & ?).
  destruct (ref_greedy s1) as [gr s2] eqn:E2. intros [= <- <- <-]. split_and!; try done; try lia.
  destruct s1 as [|d s1]; simpl in E2; [by injection E2 as <- <-|].
  destruct (d =? 63); injection E2 as <- <-; [|done]. by apply Forall_cons in H1 as [_ ?].
Qed.

Lemma ref_factor_wf c s g :
  0 ≤ g < COBALT_REGEX_MAX_CAPTURES → 0 < c < 256 → bytes s → parsed_ok g (ref_factor ci expr c s g).
Proof.
  intros Hg Hc Hs r t g'. unfold ref_factor. pose proof (ref_atom_wf c s g Hg Hc Hs) as Ha.
  destruct (ref_atom ci expr c s g) as [[[r0 t0] g0]|]; [|done]. destruct (Ha _ _ _ eq_refl) as (? & ? & ?).
  intros E. apply ref_quant_wf in E as (? & ? & ?); [|lia|done..]. split_and!; try done; lia.
Qed.

Lemma ref_factors_wf fuel : ∀ acc s g,
  0 ≤ g < COBALT_REGEX_MAX_CAPTURES → wf (default Empty acc) → bytes s →
  parsed_ok g (ref_factors ci expr fuel acc s g).
Proof.
  induction fuel as [|fuel IH]; intros acc s g Hg Ha Hs r t g'; [done|]. cbn [ref_factors].
  destruct s as [|c s]; [intros [= <- <- <-]; split_and!; try done; lia|].
  pose proof Hs as Hs'. apply Forall_cons in Hs' as [Hc Hs'].
  case_match; [intros [= <- <- <-]; split_and!; try done; lia|].
  pose proof (ref_factor_wf c s g Hg Hc Hs') as Hf.
  destruct (ref_factor ci expr c s g) as [[[r0 t0] g0]|]; [|done]. destruct (Hf _ _ _ eq_refl) as (? & ? & ?).
  intros E. apply IH in E as (? & ? & ?); [split_and!; try done; lia|lia| |done]. by destruct acc.
Qed.

Lemma ref_alts_wf fuel : ∀ l s g,
  0 ≤ g < COBALT_REGEX_MAX_CAPTURES → wf l → bytes s → parsed_ok g (ref_alts ci expr fuel l s g).
Proof.
  induction fuel as [|fuel IH]; intros l s g Hg Hl Hs r t g'; [done|]. cbn [ref_alts].
  destruct s as [|c s]; [intros [= <- <- <-]; split_and!; try done; lia|].
  case_match; [|intros [= <- <- <-]; split_and!; try done; lia]. apply Forall_cons in Hs as [Hc Hs].
  pose proof (ref_factors_wf (S (length s)) None s g Hg I Hs) as Hf. fold (ref_term ci expr s g) in Hf.
  destruct (ref_term ci expr s g) as [[[r0 t0] g0]|]; [|done]. destruct (Hf _ _ _ eq_refl) as (? & ? & ?).
  intros E. apply IH in E as (? & ? & ?); [split_and!; try done; lia|lia|done|done].
Qed.

Lemma ref_alternatives_wf : expr_ok (ref_alternatives ci expr).
Proof.
  intros s g Hg Hs r t g'. unfold ref_alternatives.
  pose proof (ref_factors_wf (S (length s)) None s g Hg I Hs) as Hf. fold (ref_term ci expr s g) in Hf.
  destruct (ref_term ci expr s g) as [[[r0 t0] g0]|]; [|done]. destruct (Hf _ _ _ eq_refl) as (? & ? & ?).
  intros E. apply ref_alts_wf in E as (? & ? & ?); [split_and!; try done; lia|lia|done|done].
Qed.
End recursion.

Lemma ref_expr_wf ci fuel : expr_ok (ref_expr ci fuel).
Proof.
  induction fuel as [|fuel IH]; [by intros s g _ _ r t g'|]. exact (ref_alternatives_wf ci _ IH).
Qed.

Lemma ref_parse_wf fl pat r g : bytes pat → ref_parse fl pat = Some (r, g) → wf r ∧ 0 ≤ g < COBALT_REGEX_MAX_CAPTURES.
Proof.
  intros Hp. unfold ref_parse. pose proof (ref_expr_wf (ignore_case fl) (S (length pat)) pat 0 ltac:(done) Hp) as He.
  destruct (ref_expr _ _ pat 0) as [[[r0 [|]] g0]|]; try done. intros [= <- <-].
  destruct (He _ _ _ eq_refl) as (? & _ & ?). by split.
Qed.
End RegexWf.

(** ** What a class holds

    The members of a class as the documentation of regular expressions has
    them, without bitmaps: characters, ranges and the sets [\d], [\w], [\s] and
    their complements.  The bitmap that the parser builds holds exactly them. *)
Module RegexClass.
Import Regex RegexVM RegexSem RegexRef RegexWf.

Inductive member : Set := Chars (lo hi : Z) | Escaped (esc : Z).

Definition digit_char (c : Z) : bool := bool_decide (48 ≤ c ≤ 57).
Definition word_char (c : Z) : bool := bool_decide (65 ≤ c ≤ 90 ∨ 97 ≤ c ≤ 122 ∨ 48 ≤ c ≤ 57 ∨ c = 95).
Definition space_char (c : Z) : bool := bool_decide (c = 32 ∨ 9 ≤ c ≤ 13).

(** The characters from [lo] to [hi], in either case when case is ignored. *)
Definition range_has (ci : bool) (lo hi c : Z) : bool :=
  bool_decide (lo ≤ c ≤ hi) || (ci && bool_decide (lo ≤ swap_case c ≤ hi)).

(** The set of an escape: [\d \D \w \W \s \S], the control characters
    [\n \r \t \v \f \0], and any other character itself. *)
Definition escape_has (ci : bool) (esc c : Z) : bool :=
  match esc with
  | 100 => digit_char c | 68 => negb (digit_char c)
  | 119 => word_char c | 87 => negb (word_char c)
  | 115 => space_char c | 83 => negb (space_char c)
  | 110 => c =? 10 | 114 => c =? 13 | 116 => c =? 9 | 118 => c =? 11 | 102 => c =? 12 | 48 => c =? 0
  | _ => range_has ci esc esc c
  end.

Definition member_has (ci : bool) (m : member) (c : Z) : bool :=
  match m with Chars lo hi => range_has ci lo hi c | Escaped esc => escape_has ci esc c end.

(** The members in front of the closing bracket: a hyphen between two
    characters makes a range, in front of the bracket it stands for itself. *)
Inductive members_text : list Z → list member → list Z → Prop :=
  | mt_end s : members_text (93 :: s) [] s
  | mt_escape esc s ms t : members_text s ms t → members_text (92 :: esc :: s) (Escaped esc :: ms) t
  | mt_range lo hi s ms t : lo ≠ 93 → lo ≠ 92 → hi ≠ 93 → hi ≠ 92 → lo ≤ hi →
      members_text s ms t → members_text (lo :: 45 :: hi :: s) (Chars lo hi :: ms) t
  | mt_range_escape lo hi s ms t : lo ≠ 93 → lo ≠ 92 → lo ≤ hi →
      members_text s ms t → members_text (lo :: 45 :: 92 :: hi :: s) (Chars lo hi :: ms) t
  | mt_char c s ms t : c ≠ 93 → c ≠ 92 → (∀ hi s', s = 45 :: hi :: s' → hi = 93) →
      members_text s ms t → members_text (c :: s) (Chars c c :: ms) t.

(** A bracket right behind the opening one is a member. *)
Definition bracket_text (s : list Z) (ms : list member) (t : list Z) : Prop :=
  match s with
  | [] => False
  | c :: s' => if c =? 93 then ∃ ms', ms = Chars 93 93 :: ms' ∧ members_text s' ms' t else members_text s ms t
  end.

(** A class behind its opening bracket; a caret in front negates it. *)
Definition class_text (s : list Z) (neg : bool) (ms : list member) (t : list Z) : Prop :=
  match s with
  | [] => False
  | c :: s' => if c =? 94 then neg = true ∧ bracket_text s' ms t else neg = false ∧ bracket_text s ms t
  end.

(** ** The sets *)

Lemma range_has_spec ci b lo hi c :
  length b = 8%nat → 0 ≤ lo → hi < 256 → 0 ≤ c < 256 →
  in_class (bitmap_set_range b lo hi ci) c = in_class b c || range_has ci lo hi c.
Proof.
  intros. rewrite in_class_range by done. unfold range_has. rewrite <- orb_assoc. do 2 f_equal; [|f_equal];
    apply eq_true_iff_eq; by rewrite andb_true_iff, !Z.leb_le, bool_decide_eq_true.
Qed.

Ltac set_bits :=
  rewrite ?in_class_set, ?range_has_spec by (rewrite ?length_bitmap_set, ?length_bitmap_range; (done || lia));
  unfold range_has; cbn [andb]; rewrite ?orb_false_r.

Lemma digit_bits b c : length b = 8%nat → 0 ≤ c < 256 → in_class (bitmap_set_digit b) c = in_class b c || digit_char c.
Proof. intros. unfold bitmap_set_digit. by set_bits. Qed.

Lemma word_bits b c : length b = 8%nat → 0 ≤ c < 256 → in_class (bitmap_set_word b) c = in_class b c || word_char c.
Proof.
  intros. unfold bitmap_set_word. set_bits. rewrite <- !orb_assoc. f_equal. unfold word_char.
  apply eq_true_iff_eq. rewrite !orb_true_iff, !bool_decide_eq_true, Z.eqb_eq. naive_solver.
Qed.

Lemma space_bits b c : length b = 8%nat → 0 ≤ c < 256 → in_class (bitmap_set_space b) c = in_class b c || space_char c.
Proof.
  intros. unfold bitmap_set_space. set_bits. rewrite <- !orb_assoc. f_equal. unfold space_char.
  apply eq_true_iff_eq. rewrite !orb_true_iff, !bool_decide_eq_true, !Z.eqb_eq. lia.
Qed.

Lemma or_not_bits b t c :
  length b = 8%nat → length t = 8%nat → 0 ≤ c < 256 → in_class (bitmap_or_not b t) c = in_class b c || negb (in_class t c).
Proof.
  intros Hb Ht Hc. unfold in_class, bitmap_or_not. rewrite lookup_zip_with.
  pose proof (Z.mod_pos_bound c 32 ltac:(done)). assert (0 ≤ c / 32 < 8).
  { split; [apply Z.div_pos|apply Z.div_lt_upper_bound]; lia. }
  destruct (lookup_lt_is_Some_2 b (Z.to_nat (c / 32)) ltac:(lia)) as [x ->].
  destruct (lookup_lt_is_Some_2 t (Z.to_nat (c / 32)) ltac:(lia)) as [y ->]. simpl.
  rewrite Z.lor_spec. unfold wrap32. by rewrite Z.mod_pow2_bits_low, Z.lnot_spec by lia.
Qed.

Lemma in_zero c : in_class zero_bitmap c = false.
Proof.
  unfold in_class, zero_bitmap. destruct (replicate 8 0 !! Z.to_nat (c / 32)) as [x|] eqn:E; [|apply Z.bits_0].
  apply lookup_replicate in E as [-> _]. apply Z.bits_0.
Qed.

Lemma escape_bits ci b esc c :
  length b = 8%nat → 0 ≤ esc < 256 → 0 ≤ c < 256 → in_class (class_escape ci b esc) c = in_class b c || escape_has ci esc c.
Proof.
  intros Hb He Hc. unfold class_escape.
  assert (∀ k, 0 ≤ k < 32 → in_class (bitmap_set_range b k k ci) c = in_class b c || (c =? k)) as Hctl.
  { intros k Hk. rewrite range_has_spec by lia. f_equal. unfold range_has, swap_case. apply eq_true_iff_eq.
    rewrite orb_true_iff, andb_true_iff, !bool_decide_eq_true, Z.eqb_eq. repeat case_match; rewrite ?andb_true_iff, ?Z.leb_le in *; lia. }
  unfold bitmap_set_not_digit, bitmap_set_not_word, bitmap_set_not_space.
  destruct (Z.eqb_spec esc 100) as [->|]; [by apply digit_bits|].
  destruct (Z.eqb_spec esc 68) as [->|]; [by rewrite or_not_bits, digit_bits, in_zero|].
  destruct (Z.eqb_spec esc 119) as [->|]; [by apply word_bits|].
  destruct (Z.eqb_spec esc 87) as [->|]; [by rewrite or_not_bits, word_bits, in_zero|].
  destruct (Z.eqb_spec esc 115) as [->|]; [by apply space_bits|].
  destruct (Z.eqb_spec esc 83) as [->|]; [by rewrite or_not_bits, space_bits, in_zero|].
  destruct (Z.eqb_spec esc 110) as [->|]; [by apply Hctl|]. destruct (Z.eqb_spec esc 114) as [->|]; [by apply Hctl|].
  destruct (Z.eqb_spec esc 116) as [->|]; [by apply Hctl|]. destruct (Z.eqb_spec esc 118) as [->|]; [by apply Hctl|].
  destruct (Z.eqb_spec esc 102) as [->|]; [by apply Hctl|]. destruct (Z.eqb_spec esc 48) as [->|]; [by apply Hctl|].
  rewrite range_has_spec by lia. f_equal. unfold escape_has. repeat case_match; simplify_eq; done.
Qed.

(** ** The members *)

Section members.
Variable ci : bool.

Definition add_member (b : list Z) (m : member) : list Z :=
  match m with Chars lo hi => bitmap_set_range b lo hi ci | Escaped esc => class_escape ci b esc end.

Definition member_ok (m : member) : Prop :=
  match m with Chars lo hi => 0 ≤ lo ∧ hi < 256 | Escaped esc => 0 ≤ esc < 256 end.

Lemma add_member_bits b m c :
  length b = 8%nat → member_ok m → 0 ≤ c < 256 →
  length (add_member b m) = 8%nat ∧ in_class (add_member b m) c = in_class b c || member_has ci m c.
Proof.
  intros Hb Hm Hc. destruct m as [lo hi|esc]; simpl in *.
  - split; [by rewrite length_bitmap_range|apply range_has_spec; lia].
  - split; [by apply length_class_escape|by apply escape_bits].
Qed.

Lemma add_members_bits c ms : ∀ b, length b = 8%nat → Forall member_ok ms → 0 ≤ c < 256 →
  in_class (foldl add_member b ms) c = in_class b c || existsb (λ m, member_has ci m c) ms.
Proof.
  induction ms as [|m ms IH]; intros b Hb Hms Hc; cbn [foldl existsb]; [by rewrite orb_false_r|].
  apply Forall_cons in Hms as [Hm Hms]. destruct (add_member_bits b m c Hb Hm Hc) as [Hl E].
  rewrite IH by done. by rewrite E, orb_assoc.
Qed.

Lemma members_ok s ms t : members_text s ms t → bytes s → Forall member_ok ms.
Proof.
  induction 1; intros Hs; repeat apply Forall_cons in Hs as [? Hs]; constructor; simpl; try lia; auto.
Qed.

Lemma members_sound fuel : ∀ b s b' t,
  ref_members ci fuel b s = Some (b', 93 :: t) → ∃ ms, members_text s ms t ∧ b' = foldl add_member b ms.
Proof.
  induction fuel as [|fuel IH]; intros b s b' t; [done|]. cbn [ref_members]. destruct s as [|c s]; [done|].
  destruct (Z.eqb_spec c 93) as [->|Hc]; [intros [= <- <-]; exists []; split; [constructor|done]|].
  destruct (Z.eqb_spec c 92) as [->|Hc'].
  { destruct s as [|esc s]; [done|]. intros (ms & Hms & ->)%IH. exists (Escaped esc :: ms). split; [by constructor|done]. }
  assert (∀ s', (∀ hi s'', s' = 45 :: hi :: s'' → hi = 93) → ref_members ci fuel (bitmap_set_range b c c ci) s' = Some (b', 93 :: t) →
    ∃ ms, members_text (c :: s') ms t ∧ b' = foldl add_member b ms) as Hone.
  { intros s' Hs' (ms & Hms & ->)%IH. exists (Chars c c :: ms). split; [by constructor|done]. }
  destruct s as [|d [|e s]]; [by apply Hone|by apply Hone|].
  destruct (Z.eqb_spec d 45) as [->|]; cbn [andb]; [|apply Hone; congruence].
  destruct (Z.eqb_spec e 93) as [->|]; cbn [negb]; [apply Hone; intros ? ? [= -> ->]; done|].
  destruct (Z.eqb_spec e 92) as [->|].
  - destruct s as [|f s]; [done|]. destruct (Z.ltb_spec f c); [done|]. intros (ms & Hms & ->)%IH.
    exists (Chars c f :: ms). split; [by apply mt_range_escape|done].
  - destruct (Z.ltb_spec e c); [done|]. intros (ms & Hms & ->)%IH. exists (Chars c e :: ms). split; [by apply mt_range|done].
Qed.

(** Reading stops at a closing bracket or at the end. *)
Lemma members_stop fuel : ∀ b s b' k t, ref_members ci fuel b s = Some (b', k :: t) → k = 93.
Proof.
  induction fuel as [|fuel IH]; intros b s b' k t; [done|]. cbn [ref_members]. destruct s as [|c s]; [done|].
  destruct (Z.eqb_spec c 93) as [->|]; [by intros [= _ <- _]|].
  repeat first [done | by apply IH | case_match].
Qed.

Lemma members_complete s ms t : members_text s ms t → ∀ fuel b, (length s < fuel)%nat →
  ref_members ci fuel b s = Some (foldl add_member b ms, 93 :: t).
Proof.
  assert (∀ x y : Z, x ≠ y → (x =? y) = false) as Hne by (intros; by apply Z.eqb_neq).
  induction 1 as [s|esc s ms t _ IH|lo hi s ms t H1 H2 H3 H4 Hle _ IH|lo hi s ms t H1 H2 Hle _ IH|c s ms t H1 H2 Hhy H IH];
    intros [|fuel] b Hf; cbn [length] in Hf; try lia; cbn [ref_members foldl]; [done|..].
  - by rewrite IH by lia.
  - rewrite (Hne lo 93), (Hne lo 92), (Hne hi 93), (Hne hi 92) by done. simpl. rewrite (proj2 (Z.ltb_ge _ _)) by done. by rewrite IH by lia.
  - rewrite (Hne lo 93), (Hne lo 92) by done. simpl. rewrite (proj2 (Z.ltb_ge _ _)) by done. by rewrite IH by lia.
  - rewrite (Hne c 93), (Hne c 92) by done. specialize (IH fuel (bitmap_set_range b c c ci) ltac:(lia)).
    destruct s as [|d [|e s]]; [exact IH|exact IH|]. destruct (Z.eqb_spec d 45) as [->|]; [|exact IH].
    rewrite (Hhy e s eq_refl) in *. exact IH.
Qed.
End members.

(** What the parser reads as a class, and the characters that the instruction
    for it accepts. *)
Definition class_read (ci : bool) (s : list Z) : Prop :=
  match ref_class ci s with
  | Some (r, t) => ∃ b neg ms, r = Class b neg ∧ class_text s neg ms t ∧
      ∀ c, 0 ≤ c < 256 → char_matches (i_class b neg) c = xorb (existsb (λ m, member_has ci m c) ms) neg
  | None => ∀ neg ms t, ¬ class_text s neg ms t
  end.

(** The members up to the closing bracket, read into a bitmap [b]. *)
Lemma members_read ci b s : length b = 8%nat → bytes s →
  match ref_members ci (S (length s)) b s with
  | Some (b', k :: t) => k = 93 ∧ ∃ ms, members_text s ms t ∧
      ∀ c, 0 ≤ c < 256 → in_class b' c = in_class b c || existsb (λ m, member_has ci m c) ms
  | _ => ∀ ms t, ¬ members_text s ms t
  end.
Proof.
  intros Hb Hs. assert (∀ ms t, members_text s ms t →
    ref_members ci (S (length s)) b s = Some (foldl (add_member ci) b ms, 93 :: t)) as Hc
    by (intros ms t H; apply (members_complete ci s ms t H); lia).
  destruct (ref_members _ _ _ _) as [[b' [|k t]]|] eqn:E; [intros ms t H; by specialize (Hc _ _ H)| |intros ms t H; by specialize (Hc _ _ H)].
  assert (k = 93) as -> by (by eapply members_stop).
  destruct (members_sound _ _ _ _ _ _ E) as (ms & Hm & ->). split; [done|]. exists ms. split; [done|].
  intros c Hc'. apply add_members_bits; [done| |done]. by eapply members_ok.
Qed.

(** The same behind the opening bracket, where a closing one is a member. *)
Lemma bracket_read ci s : bytes s →
  match ref_members ci (S (length (ref_bracket ci s).2)) (ref_bracket ci s).1 (ref_bracket ci s).2 with
  | Some (b, k :: t) => k = 93 ∧ ∃ ms, bracket_text s ms t ∧
      ∀ c, 0 ≤ c < 256 → in_class b c = existsb (λ m, member_has ci m c) ms
  | _ => ∀ ms t, ¬ bracket_text s ms t
  end.
Proof.
  intros Hs. destruct s as [|c s]; [by intros ms t H|]. cbn [ref_bracket bracket_text]. pose proof Hs as Hcs.
  apply Forall_cons in Hcs as [_ Hs']. destruct (Z.eqb_spec c 93) as [->|Hne]; cbn [fst snd].
  - pose proof (members_read ci (bitmap_set_range zero_bitmap 93 93 ci) s ltac:(by rewrite length_bitmap_range) Hs') as H.
    destruct (ref_members _ _ _ _) as [[b [|k t]]|]; [intros ms t (ms' & _ & Hm); by apply (H ms' t)| |intros ms t (ms' & _ & Hm); by apply (H ms' t)].
    destruct H as [-> (ms & Hm & Hc)]. split; [done|]. exists (Chars 93 93 :: ms). split; [eauto|].
    intros c Hc'. rewrite Hc by done. rewrite range_has_spec by done. by rewrite in_zero.
  - pose proof (members_read ci zero_bitmap (c :: s) eq_refl Hs) as H.
    destruct (ref_members _ _ _ _) as [[b [|k t]]|]; [done| |done].
    destruct H as [-> (ms & Hm & Hc)]. split; [done|]. exists ms. split; [done|].
    intros d Hd. rewrite Hc by done. by rewrite in_zero.
Qed.

Lemma class_reads ci s : bytes s → class_read ci s.
Proof.
  intros Hs. unfold class_read, ref_class.
  assert (bytes (ref_negation s).2) as Hs1.
  { destruct s as [|c s]; simpl; [done|]. apply Forall_cons in Hs as [? ?]. case_match; [done|by constructor]. }
  assert (∀ neg ms t, class_text s neg ms t ↔ neg = (ref_negation s).1 ∧ bracket_text (ref_negation s).2 ms t) as Hneg.
  { intros neg ms t. destruct s as [|c s]; simpl; [by split; [|intros [_ ?]]|]. destruct (c =? 94); done. }
  destruct (ref_negation s) as [neg s1]. cbn [fst snd] in *.
  pose proof (bracket_read ci s1 Hs1) as H. destruct (ref_bracket ci s1) as [b s2]. cbn [fst snd] in *.
  destruct (ref_members ci (S (length s2)) b s2) as [[b' [|k t]]|]; [by intros neg' ms t [_ Hb]%Hneg; apply (H ms t)| |by intros neg' ms t [_ Hb]%Hneg; apply (H ms t)].
  destruct H as [-> (ms & Hb & Hc)]. exists b', neg, ms. split_and!; [done|by apply Hneg|].
  intros c Hc'. rewrite char_matches_class by lia. by rewrite Hc.
Qed.

(** An escape of a set outside a class. *)
Definition shorthand_read (esc : Z) (s : list Z) : Prop :=
  ∀ g, ∃ b neg, ref_escape g esc s = Some (Class b neg, s) ∧
    ∀ c, 0 ≤ c < 256 → char_matches (i_class b neg) c = escape_has false esc c.

Lemma shorthand_reads esc s : esc ∈ [100; 68; 119; 87; 115; 83] → shorthand_read esc s.
Proof.
  intros He g. repeat (apply elem_of_cons in He as [->|He]); [..|by apply not_elem_of_nil in He];
    eexists _, _; (split; [reflexivity|]); intros c Hc; rewrite char_matches_class by lia;
    rewrite ?digit_bits, ?word_bits, ?space_bits, in_zero by done; cbn; by rewrite ?xorb_true_r, ?xorb_false_r.
Qed.

(** C22: A bracket expression stands for its members.  For every text behind an
    opening bracket the parser reads a class exactly when there is one by the
    grammar [class_text] (characters, ranges, escapes, a caret in front), and
    the instruction built from its bitmap accepts exactly the characters of the
    members: those of a range, in either case when case is ignored, digits for
    [\d], letters, digits and the underscore for [\w], blanks for [\s], the
    complements for the capital letters; and all others when the class is
    negated.  Outside brackets the six escapes stand for the same sets. *)
Theorem class_contents ci s :
  bytes s → class_read ci s ∧ ∀ esc, esc ∈ [100; 68; 119; 87; 115; 83] → shorthand_read esc s.
Proof. intros Hs. split; [by apply class_reads|]. intros esc. apply shorthand_reads. Qed.

(** The class [[a-c\d]], read without regard to case. *)
Lemma class_contents_witness : class_read true [97; 45; 99; 92; 100; 93].
Proof. apply (class_contents true [97; 45; 99; 92; 100; 93]). repeat constructor; lia. Defined.
End RegexClass.
