(* ===== verification/RegexParse.v ===== *)
(** * The parser against the reference parser

    The tree that the parser leaves in the pool is the expression that the
    reference parser reads, and it reports an error exactly when the reference
    parser does.  When memory runs out the parser goes on to the end of what it
    is reading without a fault. *)
From S2P Require Import Prelude World Regex RegexVM RegexSem RegexRef RegexGen.

(** ** Reading the pattern: classes, counts and quantifiers against the reference

    These parts of the parser only move the position. *)
Module RegexLex.
Import Regex RegexSem RegexRef.

(** What is left to read. *)
Definition rest (p : parser) : list Z := drop (Z.to_nat (pos p)) (pattern p).

Record pok (p : parser) : Prop := {
  p_pos : 0 ≤ pos p ≤ len p;
  p_bytes : Forall (λ c, 0 < c < 256) (pattern p)
}.

Lemma length_rest p : pok p → Z.of_nat (length (rest p)) = len p - pos p.
Proof. intros [? _]. unfold rest, len in *. rewrite length_drop. lia. Qed.

Lemma rest_bytes p : pok p → Forall (λ c, 0 < c < 256) (rest p).
Proof. intros [_ H]. by apply Forall_drop. Qed.

Lemma rest_cons_bytes p c t : pok p → rest p = c :: t → 0 < c < 256 ∧ Forall (λ c, 0 < c < 256) t.
Proof. intros Hp E. apply rest_bytes in Hp. rewrite E in Hp. by apply Forall_cons in Hp. Qed.

Lemma byte_at_rest p k : pok p → byte_at p (pos p + Z.of_nat k) = default 0 (rest p !! k).
Proof.
  intros [? _]. unfold byte_at, rest, len in *. rewrite lookup_drop.
  replace (Z.to_nat (pos p + Z.of_nat k)) with (Z.to_nat (pos p) + k)%nat by lia.
  destruct (Z.ltb_spec (pos p + Z.of_nat k) (Z.of_nat (length (pattern p)))); [done|].
  by rewrite lookup_ge_None_2 by lia.
Qed.

(** [s'] is [s] with the parser further on: [r'] is left. *)
Record goes (s s' : cstate) (r' : list Z) : Prop := {
  go_prs : ∃ n, s' = with_prs s (with_pos (prs s) n) ∧ pos (prs s) ≤ n;
  go_pok : pok (prs s');
  go_rest : rest (prs s') = r'
}.

Lemma goes_refl s : pok (prs s) → goes s s (rest (prs s)).
Proof.
  intros Hp. split; [|done|done]. exists (pos (prs s)). split; [|lia].
  by destruct s as [[? ? ? ? ?] ? ? ?].
Qed.

Lemma goes_trans s1 s2 s3 r2 r3 : goes s1 s2 r2 → goes s2 s3 r3 → goes s1 s3 r3.
Proof.
  intros [(n & -> & ?) _ _] [(m & -> & ?) Hp Hr]. split; [|done|done]. exists m. split; [done|]. simpl in *. lia.
Qed.

Lemma goes_pos s s' r' : goes s s' r' → pos (prs s) ≤ pos (prs s').
Proof. by intros [(n & -> & ?) _ _]. Qed.

Lemma goes_same s s' r' :
  goes s s' r' → pattern (prs s') = pattern (prs s) ∧ pflags (prs s') = pflags (prs s) ∧
    group_count (prs s') = group_count (prs s) ∧ perror (prs s') = perror (prs s) ∧
    pool s' = pool s ∧ cg s' = cg s ∧ env s' = env s.
Proof. by intros [(n & -> & ?) _ _]. Qed.

(** How far the parser has got, from what is left. *)
Lemma goes_length s s' r' :
  pok (prs s) → goes s s' r' →
  pos (prs s') - pos (prs s) = Z.of_nat (length (rest (prs s))) - Z.of_nat (length r').
Proof.
  intros Hp G. pose proof (length_rest _ Hp). pose proof (length_rest _ (go_pok _ _ _ G)) as H'.
  rewrite (go_rest _ _ _ G) in H'. destruct (goes_same _ _ _ G) as (E & _). unfold len in *. rewrite E in H'. lia.
Qed.

(** ** Single characters *)

(** The next two characters, NUL at the end. *)
Definition hd0 (l : list Z) : Z := match l with c :: _ => c | [] => 0 end.
Definition hd1 (l : list Z) : Z := match l with _ :: c :: _ => c | _ => 0 end.

Lemma wp_peek_char (Q : Z → cstate → Prop) s : pok (prs s) → Q (hd0 (rest (prs s))) s → wp peek Q s.
Proof.
  intros Hp HQ. unfold peek. apply wp_bind. hnf. pose proof (byte_at_rest (prs s) 0 Hp) as E.
  rewrite Z.add_0_r in E. rewrite E. by destruct (rest (prs s)).
Qed.

Lemma wp_peek2 (Q : Z → cstate → Prop) s : pok (prs s) → Q (hd1 (rest (prs s))) s → wp peek2 Q s.
Proof.
  intros Hp HQ. unfold peek2. apply wp_bind. hnf. pose proof (byte_at_rest (prs s) 1 Hp) as E.
  change (Z.of_nat 1) with 1 in E. rewrite E. by destruct (rest (prs s)) as [|? [|? ?]].
Qed.

Lemma wp_consume c t (Q : Z → cstate → Prop) s :
  pok (prs s) → rest (prs s) = c :: t → (∀ s', goes s s' t → Q c s') → wp consume Q s.
Proof.
  intros Hp Hr HQ. pose proof (length_rest _ Hp) as Hl. rewrite Hr in Hl. simpl in Hl.
  unfold consume. apply wp_bind. hnf. rewrite (proj2 (Z.ltb_lt _ _)) by lia. apply wp_bind. hnf.
  pose proof (byte_at_rest (prs s) 0 Hp) as E. rewrite Hr, Z.add_0_r in E. simpl in E. rewrite E.
  apply HQ. destruct Hp as [Hpos Hb]. split.
  - exists (pos (prs s) + 1). split; [done|lia].
  - split; [unfold len in *; simpl; lia|done].
  - unfold rest in *. simpl. replace (Z.to_nat (pos (prs s) + 1)) with (Z.to_nat (pos (prs s)) + 1)%nat by lia.
    by rewrite <- drop_drop, Hr.
Qed.

(** The parser after a syntax error. *)
Record stuck (s s' : cstate) : Prop := {
  st_prs : ∃ n e, s' = with_prs s (with_perror (with_pos (prs s) n) e) ∧ pos (prs s) ≤ n;
  st_pok : pok (prs s')
}.

Lemma goes_stuck s s' r' : goes s s' r' → stuck s s'.
Proof.
  intros [(n & -> & Hn) Hp _]. split; [|done]. exists n, (perror (prs s)). split; [|done].
  by destruct s as [[? ? ? ? ?] ? ? ?].
Qed.

Lemma stuck_trans s1 s2 s3 : stuck s1 s2 → stuck s2 s3 → stuck s1 s3.
Proof.
  intros [(n & e & -> & ?) _] [(m & e' & -> & ?) Hp]. split; [|done]. exists m, e'.
  split; [done|]. simpl in *. lia.
Qed.

Lemma stuck_same s s' :
  stuck s s' → pos (prs s) ≤ pos (prs s') ∧ pattern (prs s') = pattern (prs s) ∧
    pflags (prs s') = pflags (prs s) ∧ group_count (prs s') = group_count (prs s) ∧
    pool s' = pool s ∧ cg s' = cg s ∧ env s' = env s.
Proof. by intros [(n & e & -> & ?) _]. Qed.

Definition bad (s s' : cstate) : Prop :=
  stuck s s' ∧ perror (prs s') = COBALT_ERROR_INVALID_ARGUMENT.

Lemma wp_syntax_error s0 (Q : unit → cstate → Prop) s :
  stuck s0 s → (∀ s', bad s0 s' → Q tt s') → wp syntax_error Q s.
Proof.
  intros Hst HQ. unfold syntax_error. apply wp_bind. hnf. apply HQ. split; [|done].
  eapply stuck_trans; [exact Hst|]. destruct Hst as [_ [? ?]].
  split; [|by split]. exists (pos (prs s)), COBALT_ERROR_INVALID_ARGUMENT. split; [|lia].
  by destruct s as [[? ? ? ? ?] ? ? ?].
Qed.

(** [e]: what is left of the rest of a state that was reached. *)
Ltac use_goes G :=
  let Hp := fresh "Hp" in let Hr := fresh "Hr" in
  pose proof (go_pok _ _ _ G) as Hp; pose proof (go_rest _ _ _ G) as Hr.

Ltac t_peek := apply wp_bind, wp_peek_char; [assumption|].
Ltac t_consume s' G :=
  apply wp_bind; eapply wp_consume; [assumption|eassumption|];
  intros s' G; use_goes G.

(** ** Classes *)

Lemma wp_range_end s e t :
  pok (prs s) → rest (prs s) = e :: t →
  wp range_end (λ r s',
    match (if e =? 92 then match t with [] => None | f :: t' => Some (f, t') end else Some (e, t)) with
    | Some (c2, t') => r = Some c2 ∧ goes s s' t'
    | None => r = None ∧ stuck s s'
    end) s.
Proof.
  intros Hp Hr. unfold range_end. t_consume s1 G1. destruct (e =? 92).
  - t_peek. rewrite Hr0. destruct t as [|f t']; simpl.
    + apply wp_ret. split; [done|by eapply goes_stuck].
    + pose proof (rest_cons_bytes _ _ _ Hp0 Hr0) as [Hf _]. rewrite (proj2 (Z.eqb_neq _ _)) by lia.
      t_consume s2 G2. apply wp_ret. split; [done|by eapply goes_trans].
  - apply wp_ret. by split.
Qed.

Definition class_step (ci : bool) (n : nat) (b : list Z) (s : cstate)
    (r : list Z + option (list Z)) (s' : cstate) : Prop :=
  match r with
  | inl b' => ∃ r', goes s s' r' ∧ (length r' < length (rest (prs s)))%nat ∧
                ref_members ci (S n) b (rest (prs s)) = ref_members ci n b' r'
  | inr (Some b') => ∃ r', goes s s' r' ∧ ref_members ci (S n) b (rest (prs s)) = Some (b', r')
  | inr None => bad s s' ∧ ref_members ci (S n) b (rest (prs s)) = None
  end.

Lemma wp_class_body ci n b s :
  pok (prs s) → wp (class_body ci b) (λ r s', class_step ci n b s r s') s.
Proof.
  intros Hp. unfold class_body. t_peek. destruct (rest (prs s)) as [|c t] eqn:Hr; cbn [hd0].
  { apply wp_ret. exists []. split; [rewrite <- Hr; by apply goes_refl|by rewrite Hr]. }
  simpl. pose proof (rest_cons_bytes _ _ _ Hp Hr) as [Hc Hbt].
  rewrite (proj2 (Z.eqb_neq c 0)), orb_false_r by lia. destruct (Z.eqb_spec c 93) as [->|H93].
  { apply wp_ret. exists (93 :: t). split; [rewrite <- Hr; by apply goes_refl|by rewrite Hr]. }
  t_consume s1 G1. unfold class_step. rewrite Hr. cbn [ref_members].
  rewrite (proj2 (Z.eqb_neq _ _) H93). destruct (Z.eqb_spec c 92) as [->|H92].
  { t_peek. rewrite Hr0. destruct t as [|esc t']; simpl.
    - apply wp_bind. eapply wp_syntax_error; [by eapply goes_stuck|]. intros s2 Hb. by apply wp_ret.
    - pose proof (rest_cons_bytes _ _ _ Hp0 Hr0) as [He _]. rewrite (proj2 (Z.eqb_neq _ _)) by lia.
      t_consume s2 G2. apply wp_ret. exists t'. split_and!; [by eapply goes_trans|lia|done]. }
  t_peek. apply wp_bind, wp_peek2; [done|]. rewrite Hr0.
  destruct t as [|d [|e t2]]; cbn [hd0 hd1].
  - apply wp_ret. exists []. split_and!; [done|simpl; lia|done].
  - simpl. rewrite andb_false_r. apply wp_ret. exists [d]. split_and!; [done|simpl; lia|done].
  - simpl. inversion Hbt as [|? ? Hd Hbt']; subst. inversion Hbt' as [|? ? He Hbt2]; subst.
    rewrite (proj2 (Z.eqb_neq e 0)), andb_true_r by lia.
    destruct ((d =? 45) && negb (e =? 93)).
    + t_consume s2 G2. apply wp_bind. eapply wp_mono; [by apply wp_range_end|]. simpl. intros o s3 Ho.
      destruct (if e =? 92 then _ else _) as [[c2 t3]|] eqn:E.
      * destruct Ho as [-> G3]. destruct (c2 <? c).
        -- apply wp_bind. eapply wp_syntax_error; [eapply goes_stuck, goes_trans; [exact G1|by eapply goes_trans]|].
           intros s4 Hb. by apply wp_ret.
        -- apply wp_ret. exists t3. split_and!; [eapply goes_trans; [exact G1|by eapply goes_trans]| |done].
           simpl. destruct (e =? 92); [destruct t2; [done|]|]; injection E as _ <-; simpl; lia.
      * destruct Ho as [-> G3]. apply wp_bind.
        eapply wp_syntax_error; [eapply stuck_trans; [eapply goes_stuck, goes_trans; [exact G1|exact G2]|done]|].
        intros s4 Hb. by apply wp_ret.
    + apply wp_ret. exists (d :: e :: t2). split_and!; [done|simpl; lia|done].
Qed.

Lemma wp_class_loop ci b0 s0 :
  pok (prs s0) →
  wp (loop (S (length (pattern (prs s0)))) (class_body ci) b0) (λ r s',
    match ref_members ci (S (length (rest (prs s0)))) b0 (rest (prs s0)) with
    | Some (b, r') => r = Some b ∧ goes s0 s' r'
    | None => r = None ∧ bad s0 s'
    end) s0.
Proof.
  intros Hp0.
  apply (wp_loop (λ b s, goes s0 s (rest (prs s)) ∧ ∃ n, (length (rest (prs s)) < n)%nat ∧
           ref_members ci (S (length (rest (prs s0)))) b0 (rest (prs s0)) = ref_members ci n b (rest (prs s)))
         (λ _ s, length (rest (prs s)))).
  - split; [by apply goes_refl|]. by eexists; split; [|done]; lia.
  - unfold rest. rewrite length_drop. lia.
  - intros b s (G & n & Hn & E). destruct n as [|n]; [lia|].
    eapply wp_mono; [apply (wp_class_body ci n); apply G|].
    intros [b'|[b'|]] s'; unfold class_step; rewrite E.
    + intros (r' & G' & Hlt & ->). rewrite (go_rest _ _ _ G'). split; [|done].
      split; [by eapply goes_trans|]. exists n. split; [lia|done].
    + intros (r' & G' & ->). split; [done|by eapply goes_trans].
    + intros [[Hb Hb'] ->]. split; [done|]. split; [|done]. eapply stuck_trans; [by eapply goes_stuck|done].
Qed.

(** ** Counts and bounds *)

(** A read that gives [o]. *)
Definition reads {A} (o : option (A * list Z)) (s : cstate) (r : option A) (s' : cstate) : Prop :=
  match o with
  | Some (a, t) => r = Some a ∧ goes s s' t
  | None => r = None ∧ stuck s s'
  end.

Lemma wp_count_loop v0 s0 :
  pok (prs s0) →
  wp (loop (S (length (pattern (prs s0)))) count_body v0) (reads (ref_count (rest (prs s0)) v0) s0) s0.
Proof.
  intros Hp0.
  apply (wp_loop (λ v s, goes s0 s (rest (prs s)) ∧ ref_count (rest (prs s0)) v0 = ref_count (rest (prs s)) v)
         (λ _ s, length (rest (prs s)))).
  - split; [by apply goes_refl|done].
  - unfold rest. rewrite length_drop. lia.
  - intros v s [G E]. use_goes G. unfold count_body. t_peek. unfold reads. rewrite E.
    destruct (rest (prs s)) as [|c t] eqn:Hrs; simpl.
    { apply wp_ret. by split. }
    destruct (isdigit c); [|apply wp_ret; by split].
    apply wp_bind. eapply wp_consume; [done|exact Hrs|]. intros s1 G1. use_goes G1. apply wp_ret.
    destruct (128 <? v * 10 + (c - 48)) eqn:El.
    + split; [done|]. eapply goes_stuck, goes_trans; [exact G|exact G1].
    + rewrite Hr0. split; [|lia]. split; [by eapply goes_trans|done].
Qed.

Lemma wp_read_count s : pok (prs s) → wp read_count (reads (ref_count (rest (prs s)) 0) s) s.
Proof.
  intros Hp. unfold read_count, parse_fuel. apply wp_bind, wp_bind. hnf. by apply wp_count_loop.
Qed.

(** A further read after [s] has become [s1]. *)
Lemma reads_after {A} (o : option (A * list Z)) s s1 t r s' :
  goes s s1 t → reads o s1 r s' → reads o s r s'.
Proof.
  intros G. unfold reads. destruct o as [[a t']|]; intros [-> H]; (split; [done|]); [by eapply goes_trans|].
  eapply stuck_trans; [by eapply goes_stuck|done].
Qed.

Lemma wp_read_max mn s : pok (prs s) → wp (read_max mn) (reads (ref_max mn (rest (prs s))) s) s.
Proof.
  intros Hp. unfold read_max. t_peek.
  destruct (rest (prs s)) as [|c t] eqn:Hr; cbn [ref_max hd0].
  { apply wp_ret. split; [done|]. rewrite <- Hr. by apply goes_refl. }
  destruct (c =? 44); [|apply wp_ret; split; [done|rewrite <- Hr; by apply goes_refl]].
  t_consume s1 G1. t_peek. rewrite Hr0. destruct t as [|d t']; cbn [hd0].
  { apply wp_ret. split; [done|by eapply goes_stuck]. }
  destruct (d =? 125); [by apply wp_ret|].
  destruct (isdigit d); [|apply wp_ret; split; [done|by eapply goes_stuck]].
  apply wp_bind. eapply wp_mono; [by apply wp_read_count|]. intros m s2 Hm.
  apply (reads_after _ _ _ _ _ _ G1) in Hm. rewrite Hr0 in Hm. apply wp_ret. unfold reads in *.
  destruct (ref_count (d :: t') 0) as [[mx t2]|]; destruct Hm as [-> H]; [|by split].
  destruct (mx <? mn); [|by split]. split; [done|by eapply goes_stuck].
Qed.

Lemma wp_parse_quant_braces c s t :
  pok (prs s) → rest (prs s) = c :: t →
  wp parse_quant_braces (reads (ref_braces t) s) s.
Proof.
  intros Hp Hr. unfold parse_quant_braces. apply wp_bind. hnf. t_consume s1 G1. t_peek. rewrite Hr0.
  assert (wp (p <- get_prs ;; put_prs (with_pos p (pos (prs s))) ;;; mret None) (reads (A := Z * Z) None s) s1) as Hback.
  { apply wp_bind. hnf. split; [done|]. destruct (go_prs _ _ _ G1) as (n & -> & Hn). split.
    - exists (pos (prs s)), (perror (prs s)). split; [done|lia].
    - simpl. destruct Hp. by split. }
  unfold ref_braces. destruct t as [|d t']; [exact Hback|].
  cbn [hd0]. destruct (isdigit d); [|exact Hback]. cbn [negb].
  apply wp_bind. eapply wp_mono; [by apply wp_read_count|]. intros m s2 Hm. rewrite Hr0 in Hm.
  destruct (ref_count (d :: t') 0) as [[mn t2]|].
  2: { destruct Hm as [-> H]. apply wp_ret. split; [done|]. eapply stuck_trans; [by eapply goes_stuck|done]. }
  destruct Hm as [-> G2]. use_goes G2. apply wp_bind. eapply wp_mono; [by apply wp_read_max|].
  intros m s3 Hm. rewrite Hr1 in Hm. destruct (ref_max mn t2) as [[mx t3]|].
  2: { destruct Hm as [-> H]. apply wp_ret. split; [done|].
       eapply stuck_trans; [eapply goes_stuck, goes_trans; [exact G1|exact G2]|done]. }
  destruct Hm as [-> G3]. use_goes G3. t_peek. rewrite Hr2.
  assert (goes s s3 t3) as G by (eapply goes_trans; [exact G1|by eapply goes_trans]).
  destruct t3 as [|e t4]; simpl.
  { apply wp_ret. split; [done|by eapply goes_stuck]. }
  destruct (e =? 125); simpl; [|apply wp_ret; split; [done|by eapply goes_stuck]].
  t_consume s4 G4. apply wp_ret. split; [done|by eapply goes_trans].
Qed.

Lemma wp_quant_bounds c s t :
  pok (prs s) → rest (prs s) = c :: t → wp (quant_bounds c) (reads (ref_bounds c t) s) s.
Proof.
  intros Hp Hr. unfold quant_bounds, ref_bounds.
  destruct (c =? 42); [t_consume s1 G1; by apply wp_ret|].
  destruct (c =? 43); [t_consume s1 G1; by apply wp_ret|].
  destruct (c =? 63); [t_consume s1 G1; by apply wp_ret|].
  by eapply wp_parse_quant_braces.
Qed.

Lemma wp_greedy s :
  pok (prs s) →
  wp (k <- peek ;; if k =? 63 then consume ;;; mret false else mret true)
     (λ gr s', gr = (ref_greedy (rest (prs s))).1 ∧ goes s s' (ref_greedy (rest (prs s))).2) s.
Proof.
  intros Hp. t_peek. destruct (rest (prs s)) as [|c t] eqn:Hr; simpl.
  { apply wp_ret. split; [done|]. rewrite <- Hr. by apply goes_refl. }
  destruct (c =? 63); simpl; [t_consume s1 G1; by apply wp_ret|].
  apply wp_ret. split; [done|]. rewrite <- Hr. by apply goes_refl.
Qed.
End RegexLex.

Module RegexParse.
Import Regex RegexSem RegexRef RegexLex RegexMem RegexGen.

(** Computations that go on to the end when memory has run out. *)
Create HintDb safe.

Section parse.
(** The pattern and its flags, the caller's blocks, the environment and the code
    generator at the start; the most nodes and the largest request. *)
Variables (pat : list Z) (flg : Z) (h0 : gmap Z Z) (e0 : renv) (cg0 : codegen) (cmax B : Z).
Hypothesis Hcmax : cmax < AST_NULL.
Hypothesis HB : sizeof_ast_node * (2 * cmax) ≤ B.

Notation ln c := (Z.of_nat (length c)).
Notation at_pos s := (pos (prs s)).
Notation ps s := (prs s).
Notation oom s := (pool_oom (pool s)).

Record base (s : cstate) : Prop := {
  b_pok : pok (ps s);
  b_pat : pattern (ps s) = pat;
  b_fl : pflags (ps s) = flg;
  b_cg : cg s = cg0;
  b_mem : mem h0 s;
  b_env : env_le e0 (env s);
  b_starved : oom s = true → starved (env s) B;
  b_pool : oom s = false → 64 ≤ capacity (pool s) ∧ count (pool s) ≤ capacity (pool s);
  b_group : 0 ≤ group_count (ps s)
}.

Lemma base_stuck s s' : base s → stuck s s' → base s'.
Proof.
  intros [] St. destruct (stuck_same _ _ St) as (? & Ep & Ef & Eg & El & Ec & Ee). destruct St as [_ Hp].
  split; rewrite ?Ep, ?Ef, ?Eg, ?El, ?Ec, ?Ee; try done. eapply mem_ext; [done|done| |]; congruence.
Qed.

Lemma base_goes s s' t : base s → goes s s' t → base s'.
Proof. intros Hb G. by eapply base_stuck, goes_stuck. Qed.

(** How many more nodes there may be, when two are set aside for each character
    that is left. *)
Definition slack (s : cstate) : Z := cmax - count (pool s) - 2 * (len (ps s) - at_pos s).

Lemma slack_goes s s' t :
  base s → goes s s' t → slack s' = slack s + 2 * (at_pos s' - at_pos s).
Proof.
  intros Hb G. destruct (goes_same _ _ _ G) as (Ep & _ & _ & _ & El & _). unfold slack, len. rewrite Ep, El. lia.
Qed.

(** ** Nodes *)

(** The node [n] was added at [idx], or memory has run out. *)
Definition added (s : cstate) (n : ast_node) (idx : Z) (s' : cstate) : Prop :=
  base s' ∧ ps s' = ps s ∧
  (oom s' = true ∧ idx = AST_NULL ∨
   oom s = false ∧ oom s' = false ∧ idx = count (pool s) ∧ content (pool s') = content (pool s) ++ [n]).

Lemma wp_node_alloc t s :
  base s → (oom s = false → count (pool s) < cmax) →
  wp (node_alloc t) (λ idx s', added s (zero_node t) idx s') s.
Proof.
  intros Hb Hc. unfold node_alloc. apply wp_bind. hnf. destruct (oom s) eqn:Ho.
  { apply wp_ret. split_and!; [done|done|by left]. }
  specialize (Hc eq_refl). destruct (b_pool _ Hb Ho) as [H64 Hcap].
  assert (∀ s1, base s1 → ps s1 = ps s → oom s1 = false → content (pool s1) = content (pool s) →
    count (pool s) < capacity (pool s1) →
    wp (p <- get_pool ;;
        let idx := wrap32 (count p) in
        if capacity p <=? idx then mfail BadAccess
        else put_pool (Pool (nodes p) (<[Z.to_nat idx := zero_node t]> (content p ++ [zero_node t]))
               (capacity p) (pool_oom p)) ;;; mret idx) (λ idx s', added s (zero_node t) idx s') s1) as Hwrite.
  { intros s1 Hb1 Ep1 Ho1 Ec1 Hroom. apply wp_bind. hnf. unfold count in *. rewrite Ec1.
    unfold AST_NULL, UINT32_MAX in Hcmax. unfold wrap32. rewrite Z.mod_small by lia.
    rewrite (proj2 (Z.leb_gt _ _)) by lia. apply wp_bind. hnf.
    rewrite Nat2Z.id, insert_middle by done. split_and!; [|done|right; by split_and!].
    destruct Hb1. split; simpl; try done; [by eapply mem_ext|].
    intros _. unfold count. simpl. rewrite length_app. simpl.
    destruct (b_pool0 Ho1). lia. }
  destruct (Z.leb_spec (capacity (pool s)) (count (pool s))) as [Hfull|Hroom]; simpl.
  - rewrite (proj2 (Z.ltb_ge _ _)).
    2: { unfold sizeof_ast_node. change (SIZE_MAX / 56 / 2) with 164703072086692425.
         unfold AST_NULL, UINT32_MAX in Hcmax. lia. }
    apply wp_bind, wp_bind, wp_on_env. apply wp_re_realloc; [apply Hb|apply Hb| |].
    + intros q e' Hq Hfresh Hh Hok Hle. rewrite (proj2 (Z.eqb_neq _ _) Hq). apply wp_bind. hnf.
      apply Hwrite; simpl; try done; [|lia]. pose proof (mem_nodes_grown h0 s q _ e'
        (Pool q (content (pool s)) (capacity (pool s) * 2) false) (b_mem _ Hb) Hq Hfresh Hh Hok eq_refl) as Hm.
      destruct Hb. split; simpl; try done; [by etrans|]. intros _. unfold count in *. simpl. lia.
    + intros e' Hh Hok Hle Hst.
      assert (starved e' B) as HstB.
      { eapply starved_mono; [exact Hst|]. unfold sizeof_ast_node in *. lia. }
      apply wp_bind. hnf. split_and!; [|done|by left].
      pose proof (mem_env h0 s e' (b_mem _ Hb) Hh Hok) as Hm.
      destruct Hb. split; simpl; try done; [by eapply mem_ext|by etrans].
  - apply wp_bind, wp_ret. by apply Hwrite.
Qed.

Lemma wp_pool_add n s :
  base s → (oom s = false → count (pool s) < cmax) →
  wp (pool_add n) (λ idx s', added s n idx s') s.
Proof.
  intros Hb Hc. unfold pool_add. apply wp_bind. eapply wp_mono; [by apply wp_node_alloc|].
  intros idx s1 (Hb1 & Ep & [[Ho ->]|(Ho & Ho1 & -> & Ec)]).
  - rewrite Z.eqb_refl. apply wp_bind, wp_ret, wp_ret. split_and!; [done|done|by left].
  - rewrite (proj2 (Z.eqb_neq _ _)) by (specialize (Hc Ho); lia). apply wp_bind. unfold put_node.
    apply wp_bind. hnf. unfold count. rewrite Ec, length_app. simpl.
    rewrite (proj2 (Z.leb_gt _ _)) by lia. hnf. rewrite Nat2Z.id, insert_middle by done.
    split_and!; [|done|right; by split_and!].
    destruct Hb1. split; simpl; try done; [by eapply mem_ext|].
    intros H. destruct (b_pool0 H). unfold count in *. rewrite Ec in *. simpl. rewrite length_app in *. simpl in *. lia.
Qed.

(** ** When memory has run out *)

Definition broken (s : cstate) : Prop := base s ∧ oom s = true.

Definition stays (s s' : cstate) : Prop := broken s' ∧ at_pos s ≤ at_pos s'.

Lemma stays_refl s : broken s → stays s s.
Proof. intros H. split; [done|lia]. Qed.

Lemma stays_trans s1 s2 s3 : stays s1 s2 → stays s2 s3 → stays s1 s3.
Proof. intros [_ ?] [? ?]. split; [done|lia]. Qed.

Lemma stays_stuck s s' : broken s → stuck s s' → stays s s'.
Proof.
  intros [Hb Ho] St. destruct (stuck_same _ _ St) as (? & _ & _ & _ & El & _).
  split; [|done]. split; [by eapply base_stuck|by rewrite El].
Qed.

Lemma stays_goes s s' t : broken s → goes s s' t → stays s s'.
Proof. intros Hb G. by eapply stays_stuck, goes_stuck. Qed.

Lemma stays_added s n idx s' : broken s → added s n idx s' → stays s s' ∧ idx = AST_NULL.
Proof.
  intros [Hb Ho] (Hb' & Ep & [[Ho' ->]|[? _]]); [|congruence]. split; [|done].
  split; [by split|by rewrite Ep].
Qed.

Lemma rest_le s s' :
  base s → base s' → at_pos s ≤ at_pos s' → (length (rest (ps s')) ≤ length (rest (ps s)))%nat.
Proof.
  intros Hb Hb' Hp. pose proof (length_rest _ (b_pok _ Hb)). pose proof (length_rest _ (b_pok _ Hb')).
  unfold len in *. rewrite (b_pat _ Hb), (b_pat _ Hb') in *. lia.
Qed.

Lemma broken_rest s s' : broken s → stays s s' → (length (rest (ps s')) ≤ length (rest (ps s)))%nat.
Proof. intros [Hb _] [[Hb' _] Hp]. by apply rest_le. Qed.

(** [c] goes through without a fault when fewer than [n] characters are left. *)
Definition safe (n : nat) {A} (c : M cstate A) : Prop :=
  ∀ s, broken s → (length (rest (ps s)) < n)%nat → wp c (λ _ s', stays s s') s.

Lemma safe_ret n {A} (a : A) : safe n (mret a).
Proof. intros s Hb _. by apply wp_ret, stays_refl. Qed.

Lemma safe_bind n {A C} (c : M cstate A) (k : A → M cstate C) :
  safe n c → (∀ a, safe n (k a)) → safe n (mbind c k).
Proof.
  intros Hc Hk s Hb Hn. apply wp_bind. eapply wp_mono; [by apply Hc|]. intros a s1 St1. simpl.
  pose proof (broken_rest _ _ Hb St1). eapply wp_mono; [apply Hk; [apply St1|lia]|].
  intros b s2 St2. exact (stays_trans _ _ _ St1 St2).
Qed.

Lemma safe_get_prs n : safe n get_prs.
Proof. intros s Hb _. hnf. by apply stays_refl. Qed.

Lemma safe_peek n : safe n peek.
Proof. apply safe_bind; [apply safe_get_prs|intros; apply safe_ret]. Qed.

Lemma safe_peek2 n : safe n peek2.
Proof. apply safe_bind; [apply safe_get_prs|intros; apply safe_ret]. Qed.

Lemma consume_nil s : pok (ps s) → rest (ps s) = [] → consume s = Ret 0 s.
Proof.
  intros Hp Hr. pose proof (length_rest _ Hp) as Hl. rewrite Hr in Hl. simpl in Hl.
  unfold consume, mbind, get_prs. by rewrite (proj2 (Z.ltb_ge _ _)) by lia.
Qed.

Lemma safe_consume n : safe n consume.
Proof.
  intros s Hb Hn. pose proof (b_pok _ (proj1 Hb)) as Hp. destruct (rest (ps s)) as [|c t] eqn:Hr.
  - unfold wp. rewrite consume_nil by done. by apply stays_refl.
  - eapply wp_consume; [done|done|]. intros s' G. by eapply stays_goes.
Qed.

Lemma safe_syntax_error n : safe n syntax_error.
Proof.
  intros s Hb _. eapply (wp_syntax_error s); [|intros s' [St _]; by apply stays_stuck].
  eapply goes_stuck, goes_refl. apply Hb.
Qed.

Lemma safe_reject n : safe n reject.
Proof. apply safe_bind; [apply safe_syntax_error|intros; apply safe_ret]. Qed.

Lemma safe_pool_add n d : safe n (pool_add d).
Proof.
  intros s Hb _. eapply wp_mono; [apply wp_pool_add; [apply Hb|intros; destruct Hb; congruence]|].
  intros idx s' Ha. by apply (stays_added _ _ _ _ Hb Ha).
Qed.

Lemma safe_node_alloc n t : safe n (node_alloc t).
Proof.
  intros s Hb _. eapply wp_mono; [apply wp_node_alloc; [apply Hb|intros; destruct Hb; congruence]|].
  intros idx s' Ha. by apply (stays_added _ _ _ _ Hb Ha).
Qed.

Lemma safe_class_loop n ci b : safe n (fuel <- parse_fuel ;; loop fuel (class_body ci) b).
Proof.
  intros s Hb _. apply wp_bind. unfold parse_fuel. apply wp_bind. hnf.
  eapply wp_mono; [apply wp_class_loop; apply Hb|]. intros r s'.
  destruct (ref_members _ _ _ _) as [[b' t]|]; intros [_ H]; [by eapply stays_goes|by apply stays_stuck, H].
Qed.

Lemma safe_braces n : safe n parse_quant_braces.
Proof.
  intros s Hb Hn. pose proof (b_pok _ (proj1 Hb)) as Hp. destruct (rest (ps s)) as [|c t] eqn:Hr.
  - unfold parse_quant_braces. apply wp_bind. hnf. apply wp_bind. unfold wp at 1. rewrite consume_nil by done.
    apply wp_bind, wp_peek_char; [done|]. rewrite Hr. simpl. apply wp_bind. hnf. apply stays_stuck; [done|]. split.
    + exists (pos (ps s)), (perror (ps s)). split; [|lia]. by destruct s as [[? ? ? ? ?] ? ? ?].
    + simpl. by destruct Hp.
  - eapply wp_mono; [by eapply wp_parse_quant_braces|]. intros r s'. unfold reads.
    destruct (ref_braces t) as [[b' t']|]; intros [_ H]; [by eapply stays_goes|by apply stays_stuck].
Qed.

Lemma safe_groups n (f : parser → Z) : (∀ p, 0 ≤ group_count p → 0 ≤ f p) →
  safe n (p <- get_prs ;; put_prs (with_group_count p (f p))).
Proof.
  intros Hf s Hb _. apply wp_bind. hnf. split; [|simpl; lia]. destruct Hb as [[] Ho].
  split; [|done]. split; simpl; try done; [by destruct b_pok0|by eapply mem_ext|by apply Hf].
Qed.

#[local] Hint Resolve safe_ret safe_get_prs safe_peek safe_peek2 safe_consume safe_syntax_error safe_reject
  safe_pool_add safe_node_alloc safe_braces : safe.

Ltac open_adds :=
  unfold pool_add_empty, pool_add_char, pool_add_any, pool_add_class, pool_add_bol, pool_add_eol,
    pool_add_boundary, pool_add_concat, pool_add_alt, pool_add_quant, pool_add_group, pool_add_backref.

Ltac safe_go :=
  open_adds;
  repeat first
    [ progress intros
    | solve [auto with safe]
    | apply safe_bind
    | match goal with |- safe _ (match ?x with _ => _ end) => destruct x end ].

Lemma safe_quant_bounds n c : safe n (quant_bounds c).
Proof. unfold quant_bounds. safe_go. Qed.

Lemma safe_escape_atom n esc : safe n (escape_atom esc).
Proof. unfold escape_atom. safe_go. Qed.

Lemma safe_parse_class n : safe n parse_class.
Proof.
  unfold parse_class. do 5 (apply safe_bind; [safe_go|intros]).
  set (tail := λ r, match r with None => _ | Some b => _ end).
  assert (∀ r, safe n (tail r)) as Ht by (intros [b|]; unfold tail; safe_go).
  intros s Hb Hn. pose proof (safe_bind n _ _ (safe_class_loop n (has_flag (pflags a1) COBALT_REGEX_CASE_INSENSITIVE) a3) Ht s Hb Hn) as H.
  unfold wp, mbind in *. destruct (parse_fuel s) as [f s1|]; [|done]. by destruct (loop _ _ _ s1).
Qed.

Section recursion.
Variables (pe : M cstate Z) (n : nat).
Hypothesis Hpe : safe n pe.

Lemma safe_group_body : safe n (group_body pe).
Proof. unfold group_body. safe_go. Qed.

Lemma safe_parse_group : safe n (parse_group pe).
Proof.
  unfold parse_group. do 2 (apply safe_bind; [safe_go|intros]). case_match.
  - pose proof safe_group_body. safe_go.
  - set (tail := mbind get_prs _) at 2. intros s Hb Hn.
    assert (safe n tail) as Ht.
    { pose proof safe_group_body. unfold tail. safe_go. }
    pose proof (safe_bind n _ (λ _, tail) (safe_groups n (λ p, group_count p + 1) ltac:(lia)) (λ _, Ht) s Hb Hn) as HT.
    unfold wp, mbind in HT |- *. by destruct (get_prs s).
Qed.

(** An atom or a factor that is not [AST_NULL] has consumed something. *)
Definition ahead (s : cstate) (idx : Z) (s' : cstate) : Prop :=
  stays s s' ∧ (idx ≠ AST_NULL → at_pos s < at_pos s').

Lemma wp_consume_ahead {A} (K : Z → M cstate A) s :
  broken s → rest (ps s) ≠ [] → (length (rest (ps s)) < S n)%nat → (∀ c, safe n (K c)) →
  wp (mbind consume K) (λ _ s', stays s s' ∧ at_pos s < at_pos s') s.
Proof.
  intros Hb Hr Hn HK. pose proof (b_pok _ (proj1 Hb)) as Hp. destruct (rest (ps s)) as [|c t] eqn:Er; [done|].
  apply wp_bind. eapply wp_consume; [done|done|]. intros s1 G1. pose proof (stays_goes _ _ _ Hb G1) as St1.
  pose proof (goes_length _ _ _ Hp G1) as Hl. rewrite Er in Hl. simpl in Hl, Hn.
  eapply wp_mono; [apply HK; [apply St1|rewrite (go_rest _ _ _ G1); lia]|].
  intros a s2 St2. split; [exact (stays_trans _ _ _ St1 St2)|]. destruct St2. lia.
Qed.

Lemma safe_parse_atom s :
  broken s → (length (rest (ps s)) < S n)%nat → wp (parse_atom pe) (ahead s) s.
Proof.
  intros Hb Hn. unfold parse_atom. pose proof (b_pok _ (proj1 Hb)) as Hp.
  apply wp_bind, wp_peek_char; [done|].
  assert (∀ K : M cstate Z, wp K (λ _ s', stays s s' ∧ at_pos s < at_pos s') s → wp K (ahead s) s) as Hlt.
  { intros K HK. eapply wp_mono; [exact HK|]. intros idx s' [? ?]. by split. }
  assert (wp reject (ahead s) s) as Hrej.
  { apply wp_bind. eapply wp_mono; [by apply (safe_syntax_error (S n))|]. intros [] s' St. by apply wp_ret. }
  destruct (Z.eqb_spec (hd0 (rest (ps s))) 0) as [|Hc]; [by apply wp_ret; split; [apply stays_refl|]|].
  assert (rest (ps s) ≠ []) as Hne by (intros E; by rewrite E in Hc).
  pose proof safe_parse_group. pose proof (safe_parse_class n). pose proof (safe_escape_atom n).
  repeat (case_match; [first [exact Hrej|apply Hlt, wp_consume_ahead; try done; safe_go]|]).
  apply Hlt, wp_consume_ahead; try done. safe_go.
Qed.

Lemma safe_parse_factor s :
  broken s → (length (rest (ps s)) < S n)%nat → wp (parse_factor pe) (ahead s) s.
Proof.
  intros Hb Hn. unfold parse_factor. apply wp_bind. eapply wp_mono; [by apply safe_parse_atom|].
  intros atom s1 [St1 Ha]. destruct (Z.eqb_spec atom AST_NULL) as [|Hne]; [by apply wp_ret|].
  pose proof (broken_rest _ _ Hb St1).
  set (K := mbind peek _). assert (safe (S n) K) as HK.
  { unfold K. pose proof (safe_quant_bounds (S n)). safe_go. }
  eapply wp_mono; [apply HK; [apply St1|lia]|]. intros idx s2 St2. split; [exact (stays_trans _ _ _ St1 St2)|].
  intros _. specialize (Ha Hne). destruct St2. lia.
Qed.

Lemma safe_parse_term : safe (S n) (parse_term pe).
Proof.
  intros s Hb Hn. unfold parse_term, parse_fuel. apply wp_bind, wp_bind. hnf. apply wp_bind.
  apply (wp_loop (λ _ s1, stays s s1) (λ _ s1, length (rest (ps s1)))); [by apply stays_refl| |].
  { unfold rest. rewrite length_drop. lia. }
  intros root s1 St1. unfold term_body. pose proof (broken_rest _ _ Hb St1).
  pose proof (b_pok _ (proj1 (proj1 St1))) as Hp1. apply wp_bind, wp_peek_char; [done|]. case_match.
  { apply wp_ret. case_match; [|by apply wp_ret]. unfold pool_add_empty.
    eapply wp_mono; [apply (safe_node_alloc (S n)); [apply St1|lia]|].
    intros ? s2 St2. exact (stays_trans _ _ _ St1 St2). }
  apply wp_bind. eapply wp_mono; [apply safe_parse_factor; [apply St1|lia]|].
  intros factor s2 [St2 Ha]. pose proof (stays_trans _ _ _ St1 St2) as St12.
  pose proof (broken_rest _ _ Hb St12).
  destruct (Z.eqb_spec factor AST_NULL) as [|Hne].
  { apply wp_bind. hnf. destruct (negb _); [by apply wp_ret|]. simpl. case_match; [|by apply wp_ret].
    eapply wp_mono; [apply (safe_node_alloc (S n)); [apply St2|lia]|].
    intros ? s3 St3. exact (stays_trans _ _ _ St12 St3). }
  assert (length (rest (ps s2)) < length (rest (ps s1)))%nat as Hlt.
  { pose proof (length_rest _ Hp1). pose proof (length_rest _ (b_pok _ (proj1 (proj1 St2)))).
    unfold len in *. rewrite (b_pat _ (proj1 (proj1 St1))), (b_pat _ (proj1 (proj1 St2))) in *.
    specialize (Ha Hne). lia. }
  case_match; [by apply wp_ret|]. apply wp_bind.
  eapply wp_mono; [apply (safe_pool_add (S n)); [apply St2|lia]|]. intros r s3 St3. apply wp_ret.
  split; [exact (stays_trans _ _ _ St12 St3)|]. pose proof (broken_rest _ _ (proj1 St2) St3). lia.
Qed.

Lemma safe_alternatives : safe (S n) (parse_alternatives pe).
Proof.
  unfold parse_alternatives. apply safe_bind; [apply safe_parse_term|intros l].
  apply safe_bind; [unfold term_failed; safe_go|]. intros [|]; [apply safe_ret|].
  intros s Hb Hn. unfold parse_fuel. apply wp_bind, wp_bind. hnf.
  apply (wp_loop (λ _ s1, stays s s1) (λ _ s1, length (rest (ps s1)))); [by apply stays_refl| |].
  { unfold rest. rewrite length_drop. lia. }
  intros l1 s1 St1. unfold alt_body. pose proof (broken_rest _ _ Hb St1).
  pose proof (b_pok _ (proj1 (proj1 St1))) as Hp1. apply wp_bind, wp_peek_char; [done|].
  destruct (rest (ps s1)) as [|c t] eqn:Hr; simpl; [by apply wp_ret|].
  case_match; [|by apply wp_ret]. apply wp_bind. eapply wp_consume; [done|done|]. intros s2 G2.
  pose proof (stays_goes _ _ _ (proj1 St1) G2) as St2. pose proof (go_rest _ _ _ G2) as Hr2.
  pose proof (stays_trans _ _ _ St1 St2) as St12. simpl in *.
  apply wp_bind. eapply wp_mono; [apply safe_parse_term; [apply St2|rewrite Hr2; lia]|].
  intros r s3 St3. pose proof (broken_rest _ _ (proj1 St2) St3) as Hl3. rewrite Hr2 in Hl3.
  pose proof (stays_trans _ _ _ St12 St3) as St13. apply wp_bind. unfold term_failed. apply wp_bind. hnf.
  destruct (_ && _); [done|]. apply wp_bind.
  eapply wp_mono; [apply (safe_pool_add (S n)); [apply St3|simpl in *; lia]|]. intros a s4 St4. apply wp_ret.
  split; [exact (stays_trans _ _ _ St13 St4)|]. pose proof (broken_rest _ _ (proj1 St3) St4). lia.
Qed.
End recursion.

Lemma safe_parse_expr fuel : safe fuel (parse_expr fuel).
Proof.
  induction fuel as [|fuel IH]; [intros s _ Hn; lia|]. by apply safe_alternatives.
Qed.

(** ** What the parser builds *)

Record good (s : cstate) : Prop := {
  g_base : base s;
  g_oom : oom s = false;
  g_err : perror (ps s) = COBALT_SUCCESS;
  g_slack : 1 ≤ slack s
}.

(** The reference parser gives [o]; [k] nodes more than two for each character. *)
Definition fin (s : cstate) (o : parsed) (k idx : Z) (s' : cstate) : Prop :=
  base s' ∧ oom s' = false ∧ at_pos s ≤ at_pos s' ∧
  match o with
  | None => idx = AST_NULL ∧ perror (ps s') = COBALT_ERROR_INVALID_ARGUMENT
  | Some (r, t, g) =>
      rest (ps s') = t ∧ group_count (ps s') = g ∧ perror (ps s') = COBALT_SUCCESS ∧
      ast (content (pool s')) idx r ∧ (∃ l, content (pool s') = content (pool s) ++ l) ∧
      slack s - k ≤ slack s'
  end.

Lemma good_goes s s' t : good s → goes s s' t → good s'.
Proof.
  intros [] G. pose proof (goes_pos _ _ _ G). pose proof (slack_goes _ _ _ g_base0 G).
  destruct (goes_same _ _ _ G) as (_ & _ & _ & Ee & El & _).
  split; [by eapply base_goes|by rewrite El|by rewrite Ee|lia].
Qed.

Lemma fin_bad s s1 s' k : good s → at_pos s ≤ at_pos s1 → good s1 → bad s1 s' → fin s None k AST_NULL s'.
Proof.
  intros Hg Hp Hg1 [St He]. destruct (stuck_same _ _ St) as (? & _ & _ & _ & El & _).
  split_and!; [eapply base_stuck; [apply Hg1|done]|by rewrite El; apply Hg1|lia|done|done].
Qed.

Lemma wp_reject s s1 k (Q : Z → cstate → Prop) :
  good s → at_pos s ≤ at_pos s1 → good s1 → (∀ s', fin s None k AST_NULL s' → Q AST_NULL s') →
  wp reject Q s1.
Proof.
  intros Hg Hp Hg1 HQ. apply wp_bind. eapply (wp_syntax_error s1); [eapply goes_stuck, goes_refl, Hg1|].
  intros s' Hb. apply wp_ret, HQ. by eapply fin_bad.
Qed.

Lemma ast_lt ns i r : ast ns i r → i < ln ns.
Proof. destruct r; intros (? & ? & ? & Hl%lookup_lt_Some & _); lia. Qed.

Lemma good_room s : good s → oom s = false → count (pool s) < cmax.
Proof. intros [Hb _ _ Hs] _. pose proof (p_pos _ (b_pok _ Hb)). unfold slack in Hs. lia. Qed.

(** The children of the new node are in the pool. *)
Definition kids (ns : list ast_node) (r : regex) (i j : Z) : Prop :=
  match r with
  | Concat r1 r2 | Alt r1 r2 => ast ns i r1 ∧ ast ns j r2
  | Quant r _ _ _ | Group r _ => ast ns i r
  | _ => True
  end.

Lemma ast_added ns r i j : kids ns r i j → ln ns < AST_NULL → ast (ns ++ [node_for r i j]) (ln ns) r.
Proof.
  intros Hk Hn. assert ((ns ++ [node_for r i j]) !! Z.to_nat (ln ns) = Some (node_for r i j)) as Hl.
  { rewrite Nat2Z.id. by apply list_lookup_middle. }
  destruct r; simpl in Hk; (split; [lia|]); exists i, j; (split; [done|]); try done;
    destruct_and?; split_and!; try (by eapply ast_lt); by apply ast_app.
Qed.

(** A node on top of what was parsed between [s] and [s1]. *)
Lemma added_fin s s1 r i j k idx s' :
  good s → good s1 → at_pos s ≤ at_pos s1 → (∃ l, content (pool s1) = content (pool s) ++ l) →
  kids (content (pool s1)) r i j → slack s - k + 1 ≤ slack s1 →
  added s1 (node_for r i j) idx s' →
  (stays s s' ∧ idx = AST_NULL) ∨ fin s (Some (r, rest (ps s1), group_count (ps s1))) k idx s'.
Proof.
  intros Hg Hg1 Hp (l & El) Hk Hs (Hb' & Ep & [[Ho ->]|(_ & Ho & -> & Ec)]).
  - left. split; [|done]. split; [by split|by rewrite Ep].
  - right. pose proof (good_room _ Hg1 (g_oom _ Hg1)). split_and!; try done; rewrite ?Ep; try done; try apply Hg1.
    + rewrite Ec. apply ast_added; [done|]. unfold count in *. lia.
    + exists (l ++ [node_for r i j]). by rewrite Ec, El, app_assoc.
    + unfold slack, count in *. rewrite Ep, Ec, length_app. simpl. lia.
Qed.

(** The same without children, behind the characters of an atom. *)
Lemma wp_leaf s s1 t r (c : M cstate Z) :
  good s → goes s s1 t → at_pos s < at_pos s1 →
  match r with Concat _ _ | Alt _ _ | Quant _ _ _ _ | Group _ _ => False | _ => True end →
  (∀ s, base s → (oom s = false → count (pool s) < cmax) →
     wp c (λ idx s', added s (node_for r 0 0) idx s') s) →
  wp c (λ idx s', ahead s idx s' ∨ fin s (Some (r, t, group_count (ps s))) (-1) idx s') s1.
Proof.
  intros Hg G Hlt Hr Hc. pose proof (good_goes _ _ _ Hg G) as Hg1.
  pose proof (slack_goes _ _ _ (g_base _ Hg) G) as Hs. destruct (goes_same _ _ _ G) as (_ & _ & Eg & _ & El & _).
  eapply wp_mono; [apply Hc; [apply Hg1|by apply good_room]|]. intros idx s' Ha.
  eapply (added_fin s s1 r 0 0 (-1)) in Ha; try done.
  - rewrite (go_rest _ _ _ G), Eg in Ha. destruct Ha as [[St ->]|]; [left; by split|by right].
  - lia.
  - exists []. by rewrite El, app_nil_r.
  - by destruct r.
  - lia.
Qed.

Definition apost (s : cstate) (o : parsed) (idx : Z) (s' : cstate) : Prop := ahead s idx s' ∨ fin s o (-1) idx s'.
Definition tpost (s : cstate) (o : parsed) (idx : Z) (s' : cstate) : Prop := stays s s' ∨ fin s o 1 idx s'.
Notation ci := (ignore_case flg).

Lemma wp_negation s :
  pok (ps s) →
  wp (k <- peek ;; if k =? 94 then consume ;;; mret true else mret false)
     (λ b s', b = (ref_negation (rest (ps s))).1 ∧ goes s s' (ref_negation (rest (ps s))).2) s.
Proof.
  intros Hp. t_peek. destruct (rest (ps s)) as [|c t] eqn:Hr; simpl.
  { apply wp_ret. split; [done|]. rewrite <- Hr. by apply goes_refl. }
  destruct (c =? 94); [t_consume s1 G1; by apply wp_ret|].
  apply wp_ret. split; [done|]. rewrite <- Hr. by apply goes_refl.
Qed.

Lemma wp_bracket s :
  pok (ps s) →
  wp (k <- peek ;; if k =? 93 then c <- consume ;; mret (bitmap_set_range zero_bitmap c c ci) else mret zero_bitmap)
     (λ b s', b = (ref_bracket ci (rest (ps s))).1 ∧ goes s s' (ref_bracket ci (rest (ps s))).2) s.
Proof.
  intros Hp. t_peek. destruct (rest (ps s)) as [|c t] eqn:Hr; simpl.
  { apply wp_ret. split; [done|]. rewrite <- Hr. by apply goes_refl. }
  destruct (c =? 93); [t_consume s1 G1; by apply wp_ret|].
  apply wp_ret. split; [done|]. rewrite <- Hr. by apply goes_refl.
Qed.

Lemma wp_peek_seq {A C} (F : Z → M cstate A) (K : A → M cstate C) Q s :
  wp (a <- (k <- peek ;; F k) ;; K a) Q s → wp (k <- peek ;; a <- F k ;; K a) Q s.
Proof. unfold wp, mbind. by destruct (peek s). Qed.

Lemma wp_parse_class s s0 t :
  good s → goes s s0 t → at_pos s < at_pos s0 →
  wp parse_class (apost s (keep (group_count (ps s)) (ref_class ci t))) s0.
Proof.
  intros Hg G0 Hlt. pose proof (go_pok _ _ _ G0) as Hp0. pose proof (go_rest _ _ _ G0) as Hr0.
  unfold parse_class, ref_class. apply wp_peek_seq, wp_bind. eapply wp_mono; [by apply wp_negation|].
  intros neg s1 [-> G1]. rewrite Hr0 in *. destruct (ref_negation t) as [neg t1]. cbn [fst snd] in *.
  pose proof (goes_trans _ _ _ _ _ G0 G1) as G01. use_goes G1. apply wp_bind. hnf.
  rewrite (b_fl _ (g_base _ (good_goes _ _ _ Hg G01))). fold ci.
  apply wp_peek_seq, wp_bind. eapply wp_mono; [by apply wp_bracket|].
  intros b s2 [-> G2]. rewrite Hr in *. destruct (ref_bracket ci t1) as [b t2]. cbn [fst snd] in *.
  pose proof (goes_trans _ _ _ _ _ G01 G2) as G02. use_goes G2.
  apply wp_bind. unfold parse_fuel. apply wp_bind. hnf. apply wp_bind.
  eapply wp_mono; [by apply wp_class_loop|]. intros r s3. rewrite Hr1.
  destruct (ref_members ci (S (length t2)) b t2) as [[b' t3]|]; intros [-> H].
  2: { apply wp_ret. right. eapply (fin_bad s s2); [done| |by eapply good_goes|done].
       by apply goes_pos in G02. }
  pose proof (goes_trans _ _ _ _ _ G02 H) as G03. use_goes H. pose proof (good_goes _ _ _ Hg G03) as Hg3.
  t_peek. rewrite Hr2. destruct t3 as [|c t4]; simpl.
  { eapply (wp_reject s s3); [done|by apply goes_pos in G03|done|]. intros s' F. by right. }
  destruct (c =? 93); simpl.
  - t_consume s4 G4. pose proof (goes_trans _ _ _ _ _ G03 G4) as G04.
    eapply (wp_leaf s s4 t4 (Class b' neg)); [done|done| |done|].
    + apply goes_pos in G1, G2, H, G4. lia.
    + intros s' Hb Hc. by apply wp_pool_add.
  - eapply (wp_reject s s3); [done|by apply goes_pos in G03|done|]. intros s' F. by right.
Qed.

Lemma wp_escape_atom s s0 t esc :
  good s → goes s s0 t → at_pos s < at_pos s0 →
  wp (escape_atom esc) (apost s (keep (group_count (ps s)) (ref_escape (group_count (ps s)) esc t))) s0.
Proof.
  intros Hg G Hlt. pose proof (good_goes _ _ _ Hg G) as Hg0. pose proof (go_pok _ _ _ G) as Hp.
  pose proof (go_rest _ _ _ G) as Hr. destruct (goes_same _ _ _ G) as (_ & _ & Eg & _).
  unfold escape_atom, ref_escape. destruct ((49 <=? esc) && (esc <=? 57)).
  - apply wp_bind. hnf. rewrite Eg. unfold ref_backref.
    set (o := match t with d :: t' => _ | [] => _ end).
    assert (wp (k <- peek ;; if isdigit k then
        let next_gid := (esc - 48) * 10 + (k - 48) in
        if next_gid <=? group_count (ps s) then consume ;;; mret next_gid else mret (esc - 48)
      else mret (esc - 48)) (λ gid s1, gid = o.1 ∧ goes s0 s1 o.2) s0) as Ho.
    { pose proof (goes_refl s0 Hp) as Gr. rewrite Hr in Gr. t_peek. rewrite Hr. unfold o.
      destruct t as [|d t']; simpl; [by apply wp_ret|].
      destruct (isdigit d); simpl; [|by apply wp_ret]. case_match; [|by apply wp_ret].
      t_consume s1 G1. by apply wp_ret. }
    apply wp_peek_seq, wp_bind. eapply wp_mono; [exact Ho|]. intros gid s1 [-> G01].
    destruct o as [gid t1]. simpl in *. pose proof (goes_trans _ _ _ _ _ G G01) as G1. pose proof (good_goes _ _ _ Hg G1) as Hg1.
    destruct (group_count (ps s) <? gid).
    + eapply (wp_reject s s1); [done|by apply goes_pos in G1|done|]. intros s' F. by right.
    + eapply (wp_leaf s s1 t1 (Backref gid)); [done|done| |done|intros s' Hb Hc; by apply wp_pool_add].
      apply goes_pos in G01. lia.
  - repeat case_match;
      (eapply (wp_leaf s s0 t); [done|done|done| |]; [|intros s' Hb Hc; by apply wp_pool_add]; done).
Qed.

(** What was parsed from a later state on. *)
Lemma fin_from s s1 o k k' idx s' :
  at_pos s ≤ at_pos s1 → (∃ l, content (pool s1) = content (pool s) ++ l) → slack s - k ≤ slack s1 - k' →
  fin s1 o k' idx s' → fin s o k idx s'.
Proof.
  intros Hp (l & El) Hs (Hb & Ho & Hp' & H). split_and!; [done|done|lia|].
  destruct o as [[[r t] g]|]; [|done]. destruct H as (? & ? & ? & ? & (l' & El') & ?). split_and!; try done; [|lia].
  exists (l ++ l'). by rewrite El', El, app_assoc.
Qed.

Lemma goes_content s s1 t : goes s s1 t → ∃ l, content (pool s1) = content (pool s) ++ l.
Proof. intros G. destruct (goes_same _ _ _ G) as (_ & _ & _ & _ & -> & _). exists []. by rewrite app_nil_r. Qed.

(** A state in which something has been parsed can be parsed on from. *)
Lemma fin_good s r t g k idx s' : 1 ≤ slack s - k → fin s (Some (r, t, g)) k idx s' → good s'.
Proof. intros Hk (Hb & Ho & _ & _ & _ & He & _ & _ & Hs). split; try done. lia. Qed.

Section recursive.
Variables (pe : M cstate Z) (rf : list Z → Z → parsed) (n : nat).
Hypothesis Hsafe : safe n pe.
Hypothesis Hpe : ∀ s, good s → (length (rest (ps s)) < n)%nat →
  wp pe (tpost s (rf (rest (ps s)) (group_count (ps s)))) s.

Definition bpost (s : cstate) (o : parsed) (b : option Z) (s' : cstate) : Prop :=
  stays s s' ∨
  match o with
  | Some _ => ∃ idx, b = Some idx ∧ fin s o (-1) idx s'
  | None => b = None ∧ fin s None (-1) AST_NULL s'
  end.

Lemma wp_group_body s :
  good s → (length (rest (ps s)) < n)%nat →
  wp (group_body pe) (bpost s (ref_body rf (rest (ps s)) (group_count (ps s)))) s.
Proof.
  intros Hg Hn. unfold group_body, ref_body. apply wp_bind. eapply wp_mono; [by apply Hpe|].
  intros body s1 [St|F].
  { set (K := mbind get_prs _). assert (safe (S (length (rest (ps s1)))) K) as HK by (unfold K; safe_go).
    eapply wp_mono; [apply HK; [apply St|lia]|]. intros o s2 St2. left. exact (stays_trans _ _ _ St St2). }
  pose proof F as (Hb1 & Ho1 & Hp1 & H). apply wp_bind. hnf.
  destruct (rf (rest (ps s)) (group_count (ps s))) as [[[r t] g]|].
  2: { destruct H as [-> He]. apply wp_bind, wp_peek_char; [apply Hb1|]. rewrite bool_decide_false by congruence. simpl.
       apply wp_bind. eapply (wp_syntax_error s1); [eapply goes_stuck, goes_refl, Hb1|]. intros s2 [St He2].
       apply wp_ret. right. split; [done|]. destruct (stuck_same _ _ St) as (? & _ & _ & _ & El & _).
       split_and!; [by eapply base_stuck|by rewrite El|lia|done|done]. }
  destruct H as (Hr & Hgc & He & Ha & Hl & Hs). pose proof (g_slack _ Hg) as Hsl.
  apply wp_bind, wp_peek_char; [apply Hb1|]. rewrite bool_decide_true, Hr by done. simpl.
  destruct t as [|c t']; simpl; [|destruct (c =? 41); simpl].
  3: idtac.
  1, 3: apply wp_bind; eapply (wp_syntax_error s1); [eapply goes_stuck, goes_refl, Hb1|]; intros s2 [St He2];
       apply wp_ret; right; split; [done|]; destruct (stuck_same _ _ St) as (? & _ & _ & _ & El & _);
       split_and!; [by eapply base_stuck|by rewrite El|lia|done|done].
  apply wp_bind. eapply wp_consume; [apply Hb1|exact Hr|]. intros s2 G2. apply wp_ret. right. exists body.
  split; [done|]. destruct (goes_same _ _ _ G2) as (_ & _ & Eg & Ee & El & _).
  pose proof (goes_length _ _ _ (b_pok _ Hb1) G2) as Hlen. rewrite Hr in Hlen. simpl in Hlen.
  pose proof (slack_goes _ _ _ Hb1 G2). split_and!; try (rewrite ?Eg, ?Ee, ?El; done);
    [by eapply base_goes|lia|apply G2|lia].
Qed.

Lemma wp_parse_group s s0 t :
  good s → goes s s0 t → at_pos s < at_pos s0 → (length t < n)%nat →
  wp (parse_group pe) (apost s (ref_group rf t (group_count (ps s)))) s0.
Proof.
  intros Hg G Hlt Hn. pose proof (good_goes _ _ _ Hg G) as Hg0. pose proof (go_pok _ _ _ G) as Hp.
  pose proof (go_rest _ _ _ G) as Hr. destruct (goes_same _ _ _ G) as (_ & _ & Eg & _ & El & _).
  pose proof (slack_goes _ _ _ (g_base _ Hg) G) as Hs0. pose proof (goes_content _ _ _ G) as Hc0.
  unfold parse_group. t_peek. apply wp_bind, wp_peek2; [done|]. rewrite Hr.
  (* capturing *)
  assert (wp (p <- get_prs ;; put_prs (with_group_count p (group_count p + 1)) ;;;
    p <- get_prs ;;
    if COBALT_REGEX_MAX_CAPTURES <=? group_count p then reject
    else body <- group_body pe ;;
         match body with None => mret AST_NULL | Some body => pool_add_group body (group_count p) end)
    (apost s (if COBALT_REGEX_MAX_CAPTURES <=? group_count (ps s) + 1 then None
      else match ref_body rf t (group_count (ps s) + 1) with
           | Some (r, s2, g') => Some (Group r (group_count (ps s) + 1), s2, g')
           | None => None end)) s0) as Hcap.
  { apply wp_bind. hnf. apply wp_bind. hnf. apply wp_bind. hnf. simpl. rewrite Eg.
    set (s1 := with_prs s0 _). assert (good s1) as Hg1.
    { destruct Hg0 as [[] ? ? ?]. split; try done. split; simpl; try done; [by destruct b_pok0|by eapply mem_ext|lia]. }
    assert (slack s1 = slack s0) as Es by done. assert (at_pos s1 = at_pos s0) as Ep by done.
    assert (rest (ps s1) = t) as Er1 by done.
    destruct (COBALT_REGEX_MAX_CAPTURES <=? group_count (ps s) + 1).
    { eapply (wp_reject s s1); [done|lia|done|]. intros s' F. by right. }
    apply wp_bind. eapply wp_mono; [apply wp_group_body; [done|by rewrite Er1]|]. rewrite Er1. simpl.
    intros o s2 [St|F].
    { destruct o as [body|].
      - eapply wp_mono; [apply (safe_pool_add (S (length (rest (ps s2))))); [apply St|lia]|].
        intros idx s3 St3. left. pose proof (stays_trans _ _ _ St St3) as [? ?].
        split; [split; [done|lia]|lia].
      - apply wp_ret. left. split; [|done]. destruct St. split; [done|lia]. }
    destruct (ref_body rf t (group_count (ps s) + 1)) as [[[r t2] g2]|].
    2: { destruct F as [-> F]. apply wp_ret. right. eapply (fin_from s s1 _ (-1) (-1)); [lia|done|lia|done]. }
    destruct F as (idx & -> & F). pose proof (g_slack _ Hg1) as Hsl.
    pose proof (fin_good s1 r t2 g2 (-1) idx s2 ltac:(lia) F) as Hg2.
    pose proof F as (_ & _ & Hp2 & Hr2 & Hgc & _ & Ha & (l & Hl) & Hs2).
    eapply wp_mono; [apply wp_pool_add; [apply Hg2|by apply good_room]|]. intros i' s3 Had.
    eapply (added_fin s s2 (Group r (group_count (ps s) + 1)) idx 0 (-1)) in Had; try done; [|lia| |lia].
    - rewrite Hr2, Hgc in Had. destruct Had as [[St ->]|]; [left; by split|by right].
    - destruct Hc0 as [l0 Hc0]. exists (l0 ++ l). rewrite Hl. simpl. by rewrite Hc0, app_assoc. }
  destruct t as [|c [|d t']]; simpl.
  - exact Hcap.
  - rewrite andb_false_r. exact Hcap.
  - destruct ((c =? 63) && (d =? 58)); [|exact Hcap].
    t_consume s1 G1. t_consume s2 G2. pose proof (goes_trans _ _ _ _ _ G (goes_trans _ _ _ _ _ G1 G2)) as G02.
    pose proof (good_goes _ _ _ Hg G02) as Hg2. destruct (goes_same _ _ _ G02) as (_ & _ & Eg2 & _).
    pose proof (goes_pos _ _ _ G1). pose proof (goes_pos _ _ _ G2).
    apply wp_bind. eapply wp_mono; [apply wp_group_body; [done|rewrite Hr1; simpl in Hn; lia]|].
    rewrite Hr1, Eg2. intros o s3 [St|F].
    + destruct St. destruct o as [body|]; apply wp_ret; left; (split; [split; [done|lia]|lia]).
    + pose proof (slack_goes _ _ _ (g_base _ Hg) G02).
      destruct (ref_body rf t' (group_count (ps s))) as [[[r t2] g2]|].
      * destruct F as (idx & -> & F). apply wp_ret. right.
        eapply (fin_from s s2 _ (-1) (-1)); [lia|by eapply goes_content|lia|done].
      * destruct F as [-> F]. apply wp_ret. right. eapply (fin_from s s2 _ (-1) (-1)); [lia|by eapply goes_content|lia|done].
Qed.

Lemma wp_parse_atom s c t :
  good s → rest (ps s) = c :: t → (length t < n)%nat →
  wp (parse_atom pe) (apost s (ref_atom ci rf c t (group_count (ps s)))) s.
Proof.
  intros Hg Hr Hn. pose proof (b_pok _ (g_base _ Hg)) as Hp. unfold parse_atom, ref_atom. t_peek. rewrite Hr. simpl.
  pose proof (rest_cons_bytes _ _ _ Hp Hr) as [Hc _]. rewrite (proj2 (Z.eqb_neq c 0)) by lia.
  fold (is_quantifier c).
  assert (wp reject (apost s None) s) as Hrej.
  { eapply (wp_reject s s); [done|lia|done|]. intros s' F. by right. }
  assert (∀ K o, (∀ s1, goes s s1 t → at_pos s < at_pos s1 → wp K (apost s o) s1) →
    wp (consume ;;; K) (apost s o) s) as Hcons.
  { intros K o HK. apply wp_bind. eapply wp_consume; [done|done|]. intros s1 G1. apply HK; [done|].
    pose proof (goes_length _ _ _ Hp G1) as Hl. rewrite Hr in Hl. simpl in Hl. lia. }
  destruct (is_quantifier c); [exact Hrej|].
  destruct (c =? 94). { apply Hcons. intros s1 G1 Hlt. by eapply (wp_leaf s s1 t Bol), wp_node_alloc. }
  destruct (c =? 36). { apply Hcons. intros s1 G1 Hlt. by eapply (wp_leaf s s1 t Eol), wp_node_alloc. }
  destruct (c =? 46). { apply Hcons. intros s1 G1 Hlt. by eapply (wp_leaf s s1 t Any), wp_node_alloc. }
  destruct (c =? 40). { apply Hcons. intros s1 G1 Hlt. by apply wp_parse_group. }
  destruct (c =? 41); [exact Hrej|].
  destruct (c =? 91). { apply Hcons. intros s1 G1 Hlt. by apply wp_parse_class. }
  destruct (c =? 92).
  - apply Hcons. intros s1 G1 Hlt. use_goes G1. t_peek. rewrite Hr0. destruct t as [|esc t']; simpl.
    + eapply (wp_reject s s1); [done|lia|by eapply good_goes|]. intros s' F. by right.
    + pose proof (rest_cons_bytes _ _ _ Hp0 Hr0) as [He _]. rewrite (proj2 (Z.eqb_neq esc 0)) by lia.
      t_consume s2 G2. apply wp_escape_atom; [done|by eapply goes_trans|]. apply goes_pos in G2. lia.
  - apply Hcons. intros s1 G1 Hlt. by eapply (wp_leaf s s1 t (Char c)), wp_pool_add.
Qed.

Lemma wp_parse_factor s c t :
  good s → rest (ps s) = c :: t → (length t < n)%nat →
  wp (parse_factor pe) (apost s (ref_factor ci rf c t (group_count (ps s)))) s.
Proof.
  intros Hg Hr Hn. unfold parse_factor, ref_factor. apply wp_bind. eapply wp_mono; [by apply wp_parse_atom|].
  pose proof (g_slack _ Hg) as Hsl. intros atom s1 [[St Ha]|F].
  { destruct (Z.eqb_spec atom AST_NULL) as [->|Hne]; [apply wp_ret; left; by split|]. specialize (Ha Hne).
    set (K := mbind peek _). assert (safe (S (length (rest (ps s1)))) K) as HK.
    { unfold K. pose proof (safe_quant_bounds (S (length (rest (ps s1))))). safe_go. }
    eapply wp_mono; [apply HK; [apply St|lia]|]. intros idx s2 St2. left.
    split; [exact (stays_trans _ _ _ St St2)|]. destruct St2. lia. }
  destruct (ref_atom ci rf c t (group_count (ps s))) as [[[r t1] g1]|].
  2: { pose proof F as (_ & _ & _ & -> & _). rewrite Z.eqb_refl. apply wp_ret. by right. }
  pose proof (fin_good s r t1 g1 (-1) atom s1 ltac:(lia) F) as Hg1.
  pose proof F as (_ & _ & Hp1 & Hr1 & Hgc & _ & Hast & Hl & Hs1).
  pose proof (ast_range _ _ _ Hast). rewrite (proj2 (Z.eqb_neq _ _)) by lia.
  pose proof (b_pok _ (g_base _ Hg1)) as Hpk. t_peek. rewrite Hr1. unfold ref_quant.
  destruct t1 as [|d t2]; simpl; [apply wp_ret; by right|]. fold (is_quantifier d).
  destruct (is_quantifier d); [|apply wp_ret; by right].
  apply wp_bind. eapply wp_mono; [by eapply wp_quant_bounds|]. intros b s2 Hb.
  destruct (ref_bounds d t2) as [[[mn mx] t3]|] eqn:Eb; destruct Hb as [-> G2].
  2: { destruct (stuck_same _ _ G2) as (? & _ & _ & _ & El & _).
       apply wp_bind. eapply (wp_syntax_error s1); [done|]. intros s3 Hbad. apply wp_ret. right.
       by eapply (fin_bad s s1). }
  use_goes G2. apply wp_peek_seq, wp_bind. eapply wp_mono; [by apply wp_greedy|]. rewrite Hr0.
  intros gr s3 [-> G3]. destruct (ref_greedy t3) as [gr t4] eqn:Egr. simpl in G3 |- *.
  pose proof (goes_trans _ _ _ _ _ G2 G3) as G13. pose proof (good_goes _ _ _ Hg1 G13) as Hg3.
  destruct (goes_same _ _ _ G13) as (_ & _ & Eg & _ & El & _). pose proof (goes_pos _ _ _ G13).
  pose proof (slack_goes _ _ _ (g_base _ Hg1) G13) as Hs3.
  assert (at_pos s1 < at_pos s3) as Hq.
  { pose proof (goes_length _ _ _ Hpk G13) as Hlen. rewrite Hr1 in Hlen. simpl in Hlen.
    pose proof (proj1 (ref_bounds_spec _ _ _ _ _ Eb)). pose proof (ref_greedy_spec t3) as Hgl.
    rewrite Egr in Hgl. simpl in Hgl. lia. }
  eapply wp_mono; [apply wp_pool_add; [apply Hg3|by apply good_room]|]. intros idx s4 Had.
  eapply (added_fin s s3 (Quant r mn mx gr) atom 0 (-1)) in Had; try done; [|lia|by rewrite El|by rewrite El|lia].
  rewrite (go_rest _ _ _ G13), Eg, Hgc in Had. destruct Had as [[St ->]|]; [left; by split|by right].
Qed.

(** The factors read so far are at [root], behind the state [s]. *)
Definition tinv (s : cstate) (m0 : nat) (root : Z) (s1 : cstate) : Prop :=
  stays s s1 ∨
  (good s1 ∧ at_pos s ≤ at_pos s1 ∧ (∃ l, content (pool s1) = content (pool s) ++ l) ∧
   ∃ m acc, (length (rest (ps s1)) < m)%nat ∧
     ref_factors ci rf m0 None (rest (ps s)) (group_count (ps s)) =
       ref_factors ci rf m acc (rest (ps s1)) (group_count (ps s1)) ∧
     match acc with
     | None => root = AST_NULL ∧ slack s ≤ slack s1
     | Some r => ast (content (pool s1)) root r ∧ slack s + 1 ≤ slack s1
     end).

(** The end of the loop. *)
Lemma wp_term_end s s1 root acc o :
  good s → good s1 → at_pos s ≤ at_pos s1 → (∃ l, content (pool s1) = content (pool s) ++ l) →
  match acc with
  | None => root = AST_NULL ∧ slack s ≤ slack s1
  | Some r => ast (content (pool s1)) root r ∧ slack s + 1 ≤ slack s1
  end →
  o = Some (default Empty acc, rest (ps s1), group_count (ps s1)) →
  wp (if root =? AST_NULL then pool_add_empty else mret root) (tpost s o) s1.
Proof.
  intros Hg Hg1 Hp Hl Hacc ->. destruct acc as [r|].
  - destruct Hacc as [Ha Hs]. pose proof (ast_range _ _ _ Ha). rewrite (proj2 (Z.eqb_neq _ _)) by lia.
    apply wp_ret. right. destruct Hg1. split_and!; try done. lia.
  - destruct Hacc as [-> Hs]. rewrite Z.eqb_refl.
    eapply wp_mono; [apply wp_node_alloc; [apply Hg1|by apply good_room]|]. intros idx s2 Had.
    eapply (added_fin s s1 Empty 0 0 1) in Had; try done; [|lia]. destruct Had as [[St _]|]; [by left|by right].
Qed.

(** One more factor: the next state of the loop. *)
Lemma wp_term_concat s m0 m acc root s1 s2 r t2 g2 factor :
  good s1 → at_pos s ≤ at_pos s1 → (∃ l, content (pool s1) = content (pool s) ++ l) → good s →
  match acc with
  | None => root = AST_NULL ∧ slack s ≤ slack s1
  | Some r => ast (content (pool s1)) root r ∧ slack s + 1 ≤ slack s1
  end →
  ref_factors ci rf m0 None (rest (ps s)) (group_count (ps s)) =
    ref_factors ci rf m (Some (match acc with Some a => Concat a r | None => r end)) t2 g2 →
  (length t2 < m)%nat → fin s1 (Some (r, t2, g2)) (-1) factor s2 →
  wp (if root =? AST_NULL then mret (inl factor)
      else r <- pool_add_concat root factor ;; mret (inl r) : M cstate (Z + (Z + Z)))
     (λ v s3, ∃ v', v = inl v' ∧ tinv s m0 v' s3 ∧ rest (ps s3) = t2) s2.
Proof.
  intros Hg1 Hp (l & Hl) Hg Hacc E Hm F. pose proof (g_slack _ Hg1).
  pose proof (fin_good s1 r t2 g2 (-1) factor s2 ltac:(lia) F) as Hg2.
  pose proof F as (_ & _ & Hp2 & Hr2 & Hgc & _ & Ha & (l2 & Hl2) & Hs2).
  assert (∃ l, content (pool s2) = content (pool s) ++ l) as Hl'.
  { exists (l ++ l2). by rewrite Hl2, Hl, app_assoc. }
  destruct acc as [a|].
  - destruct Hacc as [Hroot Hs]. pose proof (ast_range _ _ _ Hroot). rewrite (proj2 (Z.eqb_neq _ _)) by lia.
    apply wp_bind. eapply wp_mono; [apply wp_pool_add; [apply Hg2|by apply good_room]|]. intros idx s3 Had.
    apply wp_ret. exists idx. split; [done|]. pose proof (proj1 (proj2 Had)) as Ep.
    split; [|by rewrite Ep].
    eapply (added_fin s s2 (Concat a r) root factor (-1)) in Had; try done; [|lia| |lia].
    + destruct Had as [[St _]|F3]; [by left|]. pose proof (g_slack _ Hg).
      pose proof F3 as (_ & _ & ? & _ & _ & _ & Ha3 & Hl3 & ?).
      right. split; [eapply fin_good; [|exact F3]; lia|]. split_and!; [lia|done|].
      exists m, (Some (Concat a r)). by rewrite Ep, Hr2, Hgc.
    + split; [|done]. rewrite Hl2. by apply ast_app.
  - destruct Hacc as [-> Hs]. rewrite Z.eqb_refl. apply wp_ret. exists factor. split_and!; [done| |done].
    right. split_and!; [done|lia|done|]. exists m, (Some r). rewrite Hr2, Hgc. split_and!; try done. lia.
Qed.

(** The rest of an iteration and of the term when memory ran out in the factor. *)
Lemma wp_term_oom s s1 s2 m0 root factor o L :
  good s → base s1 → ahead s1 factor s2 → at_pos s ≤ at_pos s1 → L = length (rest (ps s1)) →
  wp (if factor =? AST_NULL then
        p <- get_prs ;;
        mret (if negb (bool_decide (perror p = COBALT_SUCCESS)) then inr (inl AST_NULL) else inr (inr root))
      else if root =? AST_NULL then mret (inl factor)
      else r <- pool_add_concat root factor ;; mret (inl r))
    (λ (r : Z + (Z + Z)) s',
       match r with
       | inl a' => tinv s m0 a' s' ∧ (length (rest (ps s')) < L)%nat
       | inr b => wp (match b with
                      | inl r => mret r
                      | inr root => if root =? AST_NULL then pool_add_empty else mret root
                      end) (tpost s o) s'
       end) s2.
Proof.
  intros Hg Hb1 [St2 Ha] Hp1 ->. assert (stays s s2) as St by (destruct St2; split; [done|lia]).
  destruct (Z.eqb_spec factor AST_NULL) as [|Hne].
  { apply wp_bind. hnf. destruct (negb _); [apply wp_ret; by left|].
    destruct (root =? AST_NULL); [|apply wp_ret; by left].
    eapply wp_mono; [apply (safe_node_alloc (S (length (rest (ps s2))))); [apply St2|lia]|].
    intros ? s3 St3. left. exact (stays_trans _ _ _ St St3). }
  assert (length (rest (ps s2)) < length (rest (ps s1)))%nat as Hlt.
  { pose proof (length_rest _ (b_pok _ Hb1)). pose proof (length_rest _ (b_pok _ (proj1 (proj1 St2)))).
    unfold len in *. rewrite (b_pat _ Hb1), (b_pat _ (proj1 (proj1 St2))) in *. specialize (Ha Hne). lia. }
  case_match; [by apply wp_ret; split; [left|]|]. apply wp_bind.
  eapply wp_mono; [apply (safe_pool_add (S (length (rest (ps s2))))); [apply St2|lia]|]. intros r s3 St3.
  apply wp_ret. split; [left; exact (stays_trans _ _ _ St St3)|].
  pose proof (broken_rest _ _ (proj1 St2) St3). lia.
Qed.

Lemma wp_parse_term s :
  good s → (length (rest (ps s)) < S n)%nat →
  wp (parse_term pe) (tpost s (ref_term ci rf (rest (ps s)) (group_count (ps s)))) s.
Proof.
  intros Hg Hn. unfold parse_term, ref_term, parse_fuel. apply wp_bind, wp_bind. hnf. apply wp_bind.
  set (m0 := S (length (rest (ps s)))).
  apply (wp_loop (tinv s m0) (λ _ s1, length (rest (ps s1)))).
  { right. split_and!; [done|lia|by exists []; rewrite app_nil_r|]. exists m0, None. split_and!; [lia|done|done|lia]. }
  { unfold rest. rewrite length_drop. lia. }
  intros root s1 [St|(Hg1 & Hp1 & Hl1 & m & acc & Hm & E & Hacc)].
  - (* memory has run out *)
    pose proof (proj1 St) as Hb1. unfold term_body.
    pose proof (b_pok _ (proj1 Hb1)) as Hpk. apply wp_bind, wp_peek_char; [done|]. case_match.
    { apply wp_ret. case_match; [|apply wp_ret; by left].
      eapply wp_mono; [apply (safe_node_alloc (S (length (rest (ps s1))))); [done|lia]|].
      intros ? s2 St2. left. exact (stays_trans _ _ _ St St2). }
    apply wp_bind. eapply wp_mono; [apply (safe_parse_factor pe n Hsafe); [done|]|].
    { pose proof (length_rest _ Hpk). pose proof (length_rest _ (b_pok _ (g_base _ Hg))). destruct St.
      unfold len in *. rewrite (b_pat _ (proj1 Hb1)), (b_pat _ (g_base _ Hg)) in *. lia. }
    intros factor s2 Ha. eapply (wp_term_oom s s1); [done|apply Hb1|done|apply St|done].
  - destruct m as [|m]; [lia|]. rewrite E. unfold term_body.
    pose proof (b_pok _ (g_base _ Hg1)) as Hpk. apply wp_bind, wp_peek_char; [done|].
    destruct (rest (ps s1)) as [|c t] eqn:Hr; cbn [hd0].
    { apply wp_ret. eapply wp_term_end; try done. by rewrite Hr. }
    pose proof (rest_cons_bytes _ _ _ Hpk Hr) as [Hc _]. rewrite (proj2 (Z.eqb_neq c 0)) by lia.
    cbn [ref_factors orb] in E |- *. destruct ((c =? 124) || (c =? 41)).
    { apply wp_ret. eapply wp_term_end; try done. by rewrite Hr. }
    assert (length t < n)%nat as Ht.
    { pose proof (length_rest _ Hpk) as H1. pose proof (length_rest _ (b_pok _ (g_base _ Hg))). rewrite Hr in H1.
      unfold len in *. rewrite (b_pat _ (g_base _ Hg1)), (b_pat _ (g_base _ Hg)) in *. simpl in H1. lia. }
    apply wp_bind. eapply wp_mono; [by apply (wp_parse_factor s1 c t)|]. intros factor s2 [[St2 Ha]|F].
    { eapply (wp_term_oom s s1); [done|apply Hg1|by split|done|by rewrite Hr]. }
    destruct (ref_factor ci rf c t (group_count (ps s1))) as [[[r t2] g2]|].
    + pose proof F as (_ & _ & _ & Hr2 & _ & _ & Hast & (l2 & Hl2) & Hs2). pose proof (ast_range _ _ _ Hast).
      assert (length t2 < S (length t))%nat as Hlt.
      { pose proof (length_rest _ Hpk) as H1. pose proof (length_rest _ (b_pok _ (proj1 F))) as H2.
        rewrite Hr in H1. rewrite Hr2 in H2. unfold slack, count, len in *.
        rewrite (b_pat _ (g_base _ Hg1)), (b_pat _ (proj1 F)) in *. rewrite Hl2, length_app in Hs2. simpl in H1. lia. }
      rewrite (proj2 (Z.eqb_neq factor _)) by lia.
      eapply wp_mono; [eapply (wp_term_concat s m0 m acc root s1 s2); try done; simpl in Hm; lia|].
      intros v s3 (v' & -> & Hi & Hr3). split; [done|]. rewrite Hr3. simpl. lia.
    + destruct F as (Hb2 & Ho2 & Hp2 & -> & He). rewrite Z.eqb_refl. apply wp_bind. hnf.
      rewrite bool_decide_false by congruence. apply wp_ret. right. split_and!; try done. lia.
Qed.
Lemma goes_pos_lt s s' c t : pok (ps s) → rest (ps s) = c :: t → goes s s' t → at_pos s < at_pos s'.
Proof.
  intros Hp Hr G. pose proof (length_rest _ Hp) as H1. pose proof (length_rest _ (go_pok _ _ _ G)) as H2.
  destruct (goes_same _ _ _ G) as (Ep & _). rewrite (go_rest _ _ _ G) in H2. rewrite Hr in H1.
  unfold len in *. rewrite Ep in H2. simpl in H1. lia.
Qed.

(** The alternatives read so far are at [l], behind the state [s]. *)
Definition ainv (s : cstate) (l : Z) (s1 : cstate) : Prop :=
  stays s s1 ∨
  ∃ lr m, fin s (Some (lr, rest (ps s1), group_count (ps s1))) 1 l s1 ∧ (length (rest (ps s1)) < m)%nat ∧
    ref_alternatives ci rf (rest (ps s)) (group_count (ps s)) =
      ref_alts ci rf m lr (rest (ps s1)) (group_count (ps s1)).

(** A character more pays for the next alternative. *)
Lemma good_next s s1 s2 o l t :
  good s → fin s (Some o) 1 l s1 → goes s1 s2 t → at_pos s1 < at_pos s2 → good s2 ∧ slack s + 1 ≤ slack s2.
Proof.
  intros Hg F G Hlt. destruct o as [[r t1] g1]. destruct F as (Hb & Ho & Hp & _ & _ & He & _ & _ & Hs).
  pose proof (slack_goes _ _ _ Hb G). pose proof (g_slack _ Hg).
  destruct (goes_same _ _ _ G) as (_ & _ & _ & Ee & El & _).
  split; [|lia]. split; [by eapply base_goes|by rewrite El|by rewrite Ee|lia].
Qed.

Lemma wp_alt_body s l s1 :
  good s → (length (rest (ps s)) < S n)%nat → ainv s l s1 →
  wp (alt_body pe l) (λ r s', match r with
    | inl a => ainv s a s' ∧ (length (rest (ps s')) < length (rest (ps s1)))%nat
    | inr b => tpost s (ref_alternatives ci rf (rest (ps s)) (group_count (ps s))) b s'
    end) s1.
Proof.
  intros Hg Hn [St|(lr & m & F & Hm & E)]; unfold alt_body.
  - pose proof (b_pok _ (proj1 (proj1 St))) as Hpk.
    assert (length (rest (ps s1)) ≤ length (rest (ps s)))%nat as Hle.
    { apply rest_le; [apply Hg|apply St|apply St]. }
    apply wp_bind, wp_peek_char; [done|]. destruct (rest (ps s1)) as [|c t] eqn:Hr; cbn [hd0]; [apply wp_ret; by left|].
    case_match; [|apply wp_ret; by left]. apply wp_bind. eapply wp_consume; [done|done|]. intros s2 G2.
    pose proof (stays_goes _ _ _ (proj1 St) G2) as St2. pose proof (go_rest _ _ _ G2) as Hr2.
    pose proof (stays_trans _ _ _ St St2) as St12. simpl in Hle.
    apply wp_bind. eapply wp_mono; [apply (safe_parse_term pe n Hsafe); [apply St2|rewrite Hr2; lia]|].
    intros r s3 St3. pose proof (broken_rest _ _ (proj1 St2) St3) as Hl3. rewrite Hr2 in Hl3.
    pose proof (stays_trans _ _ _ St12 St3) as St13. apply wp_bind. unfold term_failed. apply wp_bind. hnf.
    destruct (_ && _); [by left|]. apply wp_bind.
    eapply wp_mono; [apply (safe_pool_add (S n)); [apply St3|lia]|]. intros a s4 St4. apply wp_ret.
    split; [left; exact (stays_trans _ _ _ St13 St4)|]. pose proof (broken_rest _ _ (proj1 St3) St4). simpl. lia.
  - destruct m as [|m]; [lia|]. pose proof F as (Hb1 & Ho1 & Hp1 & _ & _ & He1 & Ha1 & (l1 & Hl1) & Hs1).
    pose proof (b_pok _ Hb1) as Hpk. rewrite E.
    assert (length (rest (ps s1)) ≤ length (rest (ps s)))%nat as Hle by by apply rest_le; [apply Hg|..].
    apply wp_bind, wp_peek_char; [done|]. destruct (rest (ps s1)) as [|c t] eqn:Hr; cbn [hd0]; [apply wp_ret; by right|].
    cbn [ref_alts] in E |- *. destruct (c =? 124); [|apply wp_ret; by right].
    apply wp_bind. eapply wp_consume; [done|done|]. intros s2 G2. pose proof (go_rest _ _ _ G2) as Hr2.
    pose proof (goes_pos_lt _ _ _ _ Hpk Hr G2) as Hlt.
    destruct (goes_same _ _ _ G2) as (_ & _ & Eg & _ & El2 & _).
    destruct (good_next _ _ _ _ _ _ Hg F G2 Hlt) as [Hg2 Hs2]. simpl in Hle, Hm.
    apply wp_bind. eapply wp_mono; [apply (wp_parse_term s2 Hg2); rewrite Hr2; lia|].
    rewrite Hr2, Eg. intros r s3 [St3|F3].
    { assert (stays s s3) as St13 by (destruct St3; split; [done|lia]).
      pose proof (rest_le s2 s3 (g_base _ Hg2) (proj1 (proj1 St3)) (proj2 St3)) as Hl3. rewrite Hr2 in Hl3.
      apply wp_bind. unfold term_failed. apply wp_bind. hnf. destruct (_ && _); [by left|]. apply wp_bind.
      eapply wp_mono; [apply (safe_pool_add (S n)); [apply St3|lia]|]. intros a s4 St4. apply wp_ret.
      split; [left; exact (stays_trans _ _ _ St13 St4)|]. pose proof (broken_rest _ _ (proj1 St3) St4). simpl. lia. }
    apply wp_bind. unfold term_failed. apply wp_bind. hnf.
    destruct (ref_term ci rf t (group_count (ps s1))) as [[[r3 t3] g3]|].
    + pose proof F3 as (Hb3 & Ho3 & Hp3 & Hr3 & Hg3 & He3 & Ha3 & (l3 & Hl3) & Hs3).
      pose proof (rest_le s2 s3 (g_base _ Hg2) Hb3 Hp3) as Hle3. rewrite Hr2, Hr3 in Hle3.
      rewrite bool_decide_true by done. rewrite andb_false_r. apply wp_bind. pose proof (g_slack _ Hg).
      assert (good s3) as Hgs3 by (split; try done; lia).
      eapply wp_mono; [apply wp_pool_add; [done|by apply good_room]|]. intros idx s4 Had. apply wp_ret.
      pose proof (proj1 (proj2 Had)) as Ep. rewrite Ep, Hr3. split; [|simpl; lia].
      eapply (added_fin s s3 (Alt lr r3) l r 1) in Had; try done; [|lia|..|lia].
      * destruct Had as [[St _]|F4]; [by left|]. right. exists (Alt lr r3), m.
        rewrite Ep, Hr3, Hg3 in *. split_and!; [done|lia|done].
      * exists (l1 ++ l3). by rewrite Hl3, El2, Hl1, app_assoc.
      * split; [|done]. rewrite Hl3, El2. by apply ast_app.
    + destruct F3 as (Hb3 & Ho3 & Hp3 & -> & He3). rewrite bool_decide_false by congruence. simpl.
      right. split_and!; try done. lia.
Qed.

Lemma wp_parse_alternatives s :
  good s → (length (rest (ps s)) < S n)%nat →
  wp (parse_alternatives pe) (tpost s (ref_alternatives ci rf (rest (ps s)) (group_count (ps s)))) s.
Proof.
  intros Hg Hn. unfold parse_alternatives. apply wp_bind. eapply wp_mono; [by apply wp_parse_term|].
  intros l s1 Ht. apply wp_bind. unfold term_failed. apply wp_bind. hnf.
  assert (ainv s l s1 ∨ ref_term ci rf (rest (ps s)) (group_count (ps s)) = None ∧ fin s None 1 l s1) as [Ha|[E F]].
  { destruct Ht as [St|F]; [by left; left|]. destruct (ref_term ci rf _ _) as [[[r t] g]|] eqn:E; [|by right].
    left; right. pose proof F as (_ & _ & _ & Hr & Hgc & _). exists r, (S (length (rest (ps s1)))). rewrite Hr, Hgc.
    split_and!; [done|lia|]. unfold ref_alternatives. by rewrite E. }
  - destruct (_ && _) eqn:Hf.
    + destruct Ha as [St|(lr & m & F & _)]; [by left|].
      destruct F as (_ & _ & _ & _ & _ & He & _). rewrite bool_decide_true in Hf by done.
      by rewrite andb_false_r in Hf.
    + unfold parse_fuel. apply wp_bind, wp_bind. hnf.
      apply (wp_loop (ainv s) (λ _ s1, length (rest (ps s1)))); [done| |].
      { unfold rest. rewrite length_drop. lia. }
      intros l2 s2 Ha2. by apply wp_alt_body.
  - unfold ref_alternatives. rewrite E. destruct F as (Hb & Ho & Hp & -> & He).
    rewrite bool_decide_false by congruence. simpl. right. by split_and!.
Qed.
End recursive.

Lemma wp_parse_expr fuel : ∀ s,
  good s → (length (rest (ps s)) < fuel)%nat →
  wp (parse_expr fuel) (tpost s (ref_expr ci fuel (rest (ps s)) (group_count (ps s)))) s.
Proof.
  induction fuel as [|fuel IH]; intros s Hg Hn; [lia|].
  cbn [parse_expr ref_expr]. apply (wp_parse_alternatives _ _ fuel); [apply safe_parse_expr|done..].
Qed.
End parse.
End RegexParse.
