(* ===== verification/RegexCompile.v ===== *)
(** * Compiling a pattern

    [cobalt_regex_compile] returns the program of the expression the pattern
    stands for, or reports the error; in either case no other block stays
    allocated. *)
From stdpp Require Import relations.
From S2P Require Import Prelude World Regex RegexVM RegexSem RegexPike RegexRun RegexGen RegexRef RegexParse.

(** ** Compiled programs and the matches of their expressions

    The machine can stop at the end of a program exactly behind a match of the
    expression: at the beginning of the text from the entry for exact matches,
    anywhere in the text from the entry for searches. *)
Module RegexLink.
Import Regex RegexVM RegexSem RegexPike RegexRun RegexGen.

(** ** Properties of all instructions of an expression *)

(** Every instruction but the branches has the property [P]. *)
Fixpoint leaves (fl : Z) (P : cobalt_regex_inst → Prop) (r : regex) : Prop :=
  match r with
  | Empty => True
  | Char c => P (i_char (ignore_case fl) c)
  | Any => P (i_any (dot_all fl))
  | Class b neg => P (i_class b neg)
  | Bol => P (i_test OP_BOL 0)
  | Eol => P (i_test OP_EOL 0)
  | Boundary neg => P (i_boundary neg)
  | Concat r1 r2 | Alt r1 r2 => leaves fl P r1 ∧ leaves fl P r2
  | Quant r _ _ _ => leaves fl P r
  | Group r gid => P (i_save ((2 * gid) mod 256)) ∧ leaves fl P r ∧ P (i_save ((2 * gid + 1) mod 256))
  | Backref gid => P (i_backref (ignore_case fl) gid)
  end.

Section leaves.
Variables (fl hi : Z) (P : cobalt_regex_inst → Prop).
Hypothesis HPsplit : ∀ gr x y, 0 ≤ x ≤ hi → 0 ≤ y ≤ hi → P (i_split gr x y).
Hypothesis HPjump : ∀ x, 0 ≤ x ≤ hi → P (i_jump x).

Section pieces.
Variables (g : Z → list cobalt_regex_inst) (k : Z).
Hypothesis Hk : 0 ≤ k.
Hypothesis Hg : ∀ a, 0 ≤ a → a + k ≤ hi → Forall P (g a).

Lemma copies_forall n : ∀ a, 0 ≤ a → a + Z.of_nat n * k ≤ hi → Forall P (copies_code g k n a).
Proof.
  induction n as [|n IH]; intros a Ha Hhi; simpl; [done|].
  apply Forall_app. split; [apply Hg; nia|apply IH; nia].
Qed.

Lemma options_forall gr n : ∀ a e, 0 ≤ a → 0 ≤ e ≤ hi → a + Z.of_nat n * (k + 1) ≤ hi →
  Forall P (options_code g k gr n a e).
Proof.
  induction n as [|n IH]; intros a e Ha He Hhi; simpl; [done|].
  constructor; [apply HPsplit; nia|]. apply Forall_app. split; [apply Hg; nia|apply IH; nia].
Qed.

Lemma star_forall gr a : 0 ≤ a → a + k + 2 ≤ hi → Forall P (star_code g k gr a).
Proof.
  intros Ha Hhi. constructor; [apply HPsplit; lia|]. apply Forall_app. split; [apply Hg; lia|].
  constructor; [apply HPjump; lia|done].
Qed.
End pieces.

Lemma gen_forall r : ∀ a, 0 ≤ a → a + size r ≤ hi → leaves fl P r → Forall P (gen fl r a).
Proof.
  induction r as [|c| |b neg| | |neg|r1 IH1 r2 IH2|r1 IH1 r2 IH2|r IH mn mx gr|r IH gid|gid];
    intros a Ha Hhi Hl; cbn [leaves gen size] in *; try (by repeat constructor).
  - destruct Hl. pose proof (size_nonneg r1). pose proof (size_nonneg r2).
    apply Forall_app. split; [apply IH1|apply IH2]; done || lia.
  - destruct Hl. pose proof (size_nonneg r1). pose proof (size_nonneg r2). constructor; [apply HPsplit; lia|].
    apply Forall_app. split; [apply IH1; done || lia|]. constructor; [apply HPjump; lia|apply IH2; done || lia].
  - pose proof (size_nonneg r). assert (∀ a, 0 ≤ a → a + size r ≤ hi → Forall P (gen fl r a)) as Hr by auto.
    repeat case_match.
    + constructor; [apply HPsplit; lia|apply Hr; lia].
    + apply star_forall; done || lia.
    + apply Forall_app. split; [apply Hr; lia|]. constructor; [apply HPsplit; lia|done].
    + apply Forall_app. split; [apply copies_forall|apply star_forall]; done || nia.
    + apply Forall_app. split; [apply copies_forall|apply options_forall]; done || nia.
    + apply Forall_app. split; [apply copies_forall; done || nia|done].
  - destruct Hl as (? & ? & ?). pose proof (size_nonneg r). constructor; [done|].
    apply Forall_app. split; [apply IH; done || lia|by constructor].
Qed.
End leaves.

(** ** The three properties the machine needs *)

(** Branches stay at or below [hi], slots and groups are those that exist. *)
Definition inst_in (hi : Z) (i : cobalt_regex_inst) : Prop :=
  match opcode i with
  | OP_JUMP => 0 ≤ u_target i ≤ hi
  | OP_SPLIT => 0 ≤ u_target1 i ≤ hi ∧ 0 ≤ u_target2 i ≤ hi
  | OP_SAVE => 0 ≤ sub_op i < 2 * COBALT_REGEX_MAX_CAPTURES
  | OP_BACKREF => 1 ≤ sub_op i < COBALT_REGEX_MAX_CAPTURES
  | _ => True
  end.

Lemma gen_inst_in fl hi r a : 0 ≤ a → a + size r ≤ hi → wf r → Forall (inst_in hi) (gen fl r a).
Proof.
  intros Ha Hhi Hwf. apply (gen_forall fl hi); [by intros []|done|done|done|]. clear a Ha Hhi.
  induction r as [|c| |b neg| | |neg|r1 IH1 r2 IH2|r1 IH1 r2 IH2|r IH mn mx gr|r IH gid|gid]; simpl in *; try done.
  - destruct Hwf; auto.
  - destruct Hwf; auto.
  - destruct Hwf; auto.
  - destruct Hwf as [Hr Hg]. unfold COBALT_REGEX_MAX_CAPTURES in *.
    split_and!; [|by apply IH|]; unfold inst_in, COBALT_REGEX_MAX_CAPTURES;
      cbn [opcode sub_op i_save i_test with_words]; rewrite Z.mod_small; lia.
Qed.

Lemma inst_in_ok hi i : inst_in hi i → inst_ok i.
Proof. unfold inst_in, inst_ok. destruct (opcode i); intros; destruct_and?; try split; lia || done. Qed.

Lemma gen_no_match fl r a : 0 ≤ a → Forall (λ i, opcode i ≠ OP_MATCH) (gen fl r a).
Proof. intros Ha. apply (gen_forall fl (a + size r)); [done|done|done|done|]. by induction r. Qed.

(** No back references. *)
Fixpoint backref_free (r : regex) : bool :=
  match r with
  | Concat r1 r2 | Alt r1 r2 => backref_free r1 && backref_free r2
  | Quant r _ _ _ | Group r _ => backref_free r
  | Backref _ => false
  | _ => true
  end.

Lemma gen_no_backref fl r a :
  0 ≤ a → backref_free r = true → Forall (λ i, opcode i ≠ OP_BACKREF) (gen fl r a).
Proof.
  intros Ha Hr. apply (gen_forall fl (a + size r)); [done|done|done|done|]. clear a Ha.
  induction r; simpl in *; try done; try (apply andb_true_iff in Hr as [? ?]); auto.
Qed.

(** ** Where a match is *)

Section text.
Variables (fl : Z) (text : list Z).
Notation tlen := (text_len text).

Lemma nsteps_inv {A} (R : relation A) (P : A → A → Prop) :
  (∀ x, P x x) → (∀ x y z, R x y → P y z → P x z) → ∀ n x y, nsteps R n x y → P x y.
Proof. intros H0 HS n x y. induction 1; eauto. Qed.

(** The groups of an expression leave the slots of the whole match alone. *)
Lemma matches_slots r σ σ' : wf r → matches fl text r σ σ' →
  length σ'.2 = length σ.2 ∧ ∀ k : nat, (k < 2)%nat → σ'.2 !! k = σ.2 !! k.
Proof.
  intros Hwf. revert σ σ'.
  induction r as [|c| |b neg| | |neg|r1 IH1 r2 IH2|r1 IH1 r2 IH2|r IH mn mx gr|r IH gid|gid];
    intros σ σ'; simpl in *.
  - by intros ->.
  - by intros (d & _ & _ & ->).
  - by intros (d & _ & _ & ->).
  - by intros (d & _ & _ & ->).
  - by intros [_ ->].
  - by intros [_ ->].
  - by intros [_ ->].
  - intros (τ & H1 & H2). destruct Hwf. destruct (IH1 ltac:(done) _ _ H1) as [? E1], (IH2 ltac:(done) _ _ H2) as [? E2].
    split; [congruence|]. intros k Hk. by rewrite E2, E1.
  - destruct Hwf. intros [H1|H2]; eauto.
  - intros (n & _ & _ & Hn). revert σ σ' Hn. destruct Hwf as [Hwf _].
    apply (nsteps_inv _ (λ σ σ', length σ'.2 = length σ.2 ∧ ∀ k : nat, (k < 2)%nat → σ'.2 !! k = σ.2 !! k)); [done|].
    intros x y z Hxy [? E2]. destruct (IH Hwf _ _ Hxy) as [? E1]. split; [congruence|]. intros k Hk. by rewrite E2, E1.
  - intros (τ & H & ->). destruct Hwf as [Hwf Hg]. destruct (IH Hwf _ _ H) as [El E]. unfold save in *. simpl in *.
    rewrite length_insert in *. split; [done|]. intros k Hk.
    rewrite list_lookup_insert_ne, E, list_lookup_insert_ne by lia. done.
  - by intros (s & e & _ & _ & _ & _ & _ & _ & ->).
Qed.

Lemma matches_pos r σ σ' : matches fl text r σ σ' → 0 ≤ σ.1 ≤ tlen → σ.1 ≤ σ'.1 ≤ tlen.
Proof.
  revert σ σ'.
  assert (∀ f σ σ', one_char text f σ σ' → 0 ≤ σ.1 ≤ tlen → σ.1 ≤ σ'.1 ≤ tlen) as Hone.
  { intros f σ σ' (c & Hc & _ & ->) Hp. apply (tx_range text) in Hc; simpl; lia. }
  induction r as [|c| |b neg| | |neg|r1 IH1 r2 IH2|r1 IH1 r2 IH2|r IH mn mx gr|r IH gid|gid];
    intros σ σ'; simpl; eauto.
  - intros -> ?. lia.
  - intros [_ ->] ?. lia.
  - intros [_ ->] ?. lia.
  - intros [_ ->] ?. lia.
  - intros (τ & H1 & H2) Hp. specialize (IH1 _ _ H1 Hp). specialize (IH2 _ _ H2). lia.
  - intros [H1|H2]; eauto.
  - intros (n & _ & _ & Hn). revert Hn. apply (nsteps_inv _ (λ σ σ', 0 ≤ σ.1 ≤ tlen → σ.1 ≤ σ'.1 ≤ tlen)); [lia|].
    intros x y z Hxy Hyz Hp. specialize (IH _ _ Hxy Hp). lia.
  - intros (τ & H & ->) Hp. exact (IH _ _ H Hp).
  - intros (s & e & _ & _ & _ & _ & Hse & Ht & ->) Hp. simpl. destruct (decide (s = e)); [lia|].
    destruct (Ht (e - s - 1)) as (c & d & Hc & _); [lia|]. apply (tx_range text) in Hc; lia.
Qed.

(** The whole expression matches the text from [i] to [j] with the captures [sl]. *)
Definition finds (r : regex) (i j : Z) (sl : list Z) : Prop :=
  ∃ σ, matches fl text r (save 0 (i, replicate num_slots UNSET)) σ ∧ (j, sl) = save 1 σ.

Lemma finds_bounds r i j sl : wf r → 0 ≤ i ≤ tlen → finds r i j sl →
  i ≤ j ≤ tlen ∧ sl !! 0%nat = Some i ∧ sl !! 1%nat = Some j ∧ length sl = num_slots.
Proof.
  intros Hwf Hi ([j' sl'] & Hm & [= -> ->]). pose proof (matches_pos _ _ _ Hm Hi) as Hp. simpl in Hp.
  destruct (matches_slots _ _ _ Hwf Hm) as [Hl E]. unfold save in Hl, E. cbn [fst snd] in Hl, E.
  rewrite length_insert, length_replicate in Hl.
  split_and!; try lia.
  - rewrite list_lookup_insert_ne, E by lia. reflexivity.
  - change (Z.to_nat 1) with 1%nat. rewrite list_lookup_insert_eq; [done|]. rewrite Hl. unfold num_slots. lia.
  - by rewrite length_insert.
Qed.

(** ** Anchors *)

(** The expression begins with [^]. *)
Fixpoint anchored_start (r : regex) : bool :=
  match r with
  | Bol => true
  | Concat r _ | Group r _ => anchored_start r
  | _ => false
  end.
Definition anchor (r : regex) : bool := anchored_start r && negb (by_line fl).

Lemma anchor_matches r σ σ' : anchor r = true → matches fl text r σ σ' → σ.1 = 0.
Proof.
  unfold anchor. rewrite andb_true_iff, negb_true_iff. intros [Ha Hl]. revert σ σ'.
  induction r; intros σ σ'; simpl in *; try done.
  - intros [Hb _]. unfold at_bol in Hb. rewrite Hl, orb_false_r in Hb. by apply Z.eqb_eq.
  - intros (τ & H1 & _). by eapply IHr1.
  - intros (τ & H1 & _). by apply (IHr Ha (save (2 * gid) σ) τ).
Qed.

(** ** Runs of a program *)

Variables (r : regex) (prog : list cobalt_regex_inst).
Hypothesis Hwf : wf r.
Hypothesis Htext : ∀ c, c ∈ text → 0 ≤ c.
Hypothesis Hprog : prog = program fl r (anchor r).
Notation nst := (nstep fl text prog).
Notation e := (entry (anchor r)).
Notation last := (e + size r + 2).

Lemma sits_entry : sits prog e (i_save 0 :: gen fl r (e + 1) ++ [i_save 1; i_match]).
Proof.
  exists (prefix_code (anchor r)), []. rewrite app_nil_r, Hprog. split; [done|]. by destruct (anchor r).
Qed.

Lemma last_match : prog !! Z.to_nat last = Some i_match.
Proof.
  pose proof sits_entry as H. apply sits_tail in H.
  eapply sits_app_at in H as [_ H]; [|by rewrite length_gen]. apply sits_tail, sits_head in H as [_ H].
  by replace (e + 1 + size r + 1) with last in H by lia.
Qed.

Lemma match_last p i : 0 ≤ p → prog !! Z.to_nat p = Some i → opcode i = OP_MATCH → p = last.
Proof.
  intros Hp Hi Hm. pose proof (size_nonneg r).
  assert (Forall (λ i, opcode i ≠ OP_MATCH) (prefix_code (anchor r) ++ i_save 0 :: gen fl r (e + 1) ++ [i_save 1])) as Hf.
  { apply Forall_app. split; [destruct (anchor r); by repeat constructor|]. constructor; [done|].
    apply Forall_app. split; [apply gen_no_match; destruct (anchor r); simpl; lia|by repeat constructor]. }
  pose proof (length_program fl r (anchor r)) as Hl. rewrite <- Hprog in Hl.
  assert (prog = (prefix_code (anchor r) ++ i_save 0 :: gen fl r (e + 1) ++ [i_save 1]) ++ [i_match]) as E.
  { rewrite Hprog. unfold program. by rewrite <- app_assoc, <- app_comm_cons, <- app_assoc. }
  pose proof (lookup_lt_Some _ _ _ Hi) as Hlt. rewrite E in Hi, Hl. rewrite E in Hlt.
  apply lookup_app_Some in Hi as [Hi|[Hge Hi]].
  - by apply (proj1 (Forall_lookup _ _) Hf) in Hi.
  - rewrite length_app in Hl, Hlt. simpl in *. lia.
Qed.

(** From the entry to the end, by a match. *)
Lemma entry_implements :
  implements fl text prog (λ σ σ', ∃ τ, matches fl text r (save 0 σ) τ ∧ σ' = save 1 τ) e last.
Proof.
  pose proof sits_entry as Hs. pose proof (size_nonneg r). pose proof (sits_tail _ _ _ _ Hs) as Hs1.
  eapply sits_app_at in Hs1 as [Hg Hs2]; [|by rewrite length_gen].
  assert (implements fl text prog (λ σ σ', σ' = save 0 σ) e (e + 1)) as I0 by by eapply implements_inst; [exact Hs|].
  assert (implements fl text prog (matches fl text r) (e + 1) (e + 1 + size r)) as I1 by by apply gen_implements.
  assert (implements fl text prog (λ σ σ', σ' = save 1 σ) (e + 1 + size r) (e + 1 + size r + 1)) as I2
    by by eapply implements_inst; [exact Hs2|].
  replace last with (e + 1 + size r + 1) by lia.
  eapply implements_ext; [|eapply implements_seq; [|exact I0|eapply implements_seq; [|exact I1|exact I2]]]; [|lia..].
  intros σ σ'. split; [intros (τ & -> & τ' & H1 & ->); by exists τ'|].
  intros (τ & H1 & ->). exists (save 0 σ). split; [done|]. by exists τ.
Qed.

(** The machine does not go on at the end. *)
Lemma nsteps_last n σ τ : nsteps nst n (last, σ) (last, τ) → σ = τ.
Proof.
  intros H. inversion_clear H as [|m x y z Hst]; [done|].
  destruct Hst as (i & _ & Hi & Hm). simpl in Hi. rewrite last_match in Hi. by injection Hi as <-.
Qed.

Lemma runs_entry σ τ :
  rtc nst (e, σ) (last, τ) ↔ ∃ σ1, matches fl text r (save 0 σ) σ1 ∧ τ = save 1 σ1.
Proof.
  destruct entry_implements as [Hm Ht]. split.
  - intros [n Hn]%rtc_nsteps. destruct (Ht n σ last τ Hn) as (n' & σ' & _ & H & Hn'); [lia|].
    by apply nsteps_last in Hn' as ->.
  - intros H. by apply Hm.
Qed.

Lemma runs_exact j sl : rtc nst (e, (0, replicate num_slots UNSET)) (last, (j, sl)) ↔ finds r 0 j sl.
Proof. apply runs_entry. Qed.

(** Skipping part of the text. *)
Lemma skip_iff i j sl σ : 0 ≤ i → σ = (j, sl) → i ≤ j ≤ tlen →
  rtc (one_char text (λ _, true)) (i, sl) σ.
Proof.
  intros Hi -> Hj. remember (Z.to_nat (j - i)) as n eqn:En. revert i Hi Hj En.
  induction n as [|n IH]; intros i Hi Hj En; [replace i with j by lia; done|].
  destruct (tx_some text i) as [c Hc]; [lia|]. apply (rtc_l _ _ (i + 1, sl)); [by exists c|]. apply IH; lia.
Qed.

Lemma skipped σ σ' : rtc (one_char text (λ _, true)) σ σ' → 0 ≤ σ.1 ≤ tlen → σ.1 ≤ σ'.1 ≤ tlen ∧ σ'.2 = σ.2.
Proof.
  induction 1 as [σ|σ τ σ' (c & Hc & _ & ->) _ IH]; intros Hp; [split; [lia|done]|].
  apply (tx_range text) in Hc; [|lia]. simpl in IH. destruct IH; [lia|]. split; [lia|done].
Qed.

Lemma prefix_implements : anchor r = false → implements fl text prog (rtc (one_char text (λ _, true))) 0 3.
Proof.
  intros Ha. assert (sits prog 0 ([i_split false 1 3; i_any true; i_jump 0] ++ i_save 0 :: gen fl r 4 ++ [i_save 1; i_match])) as Hs.
  { exists [], []. rewrite app_nil_r, Hprog, Ha. done. }
  pose proof (sits_tail _ _ _ _ Hs) as Hs1. pose proof (sits_tail _ _ _ _ Hs1) as Hs2.
  eapply (implements_star fl text prog _ false 0 2 3); [done|done|exact Hs| |exact Hs2].
  eapply (implements_inst fl text prog _ 1); [exact Hs1|]. intros σ pc' σ'. unfold moves. simpl.
  by rewrite (one_char_ext text (char_matches (i_any true)) (λ _, true)) by (intros; by apply char_matches_any).
Qed.

Lemma runs_search j sl :
  rtc nst (0, (0, replicate num_slots UNSET)) (last, (j, sl)) ↔ ∃ i, 0 ≤ i ≤ tlen ∧ finds r i j sl.
Proof.
  assert (0 ≤ tlen) by (unfold text_len; lia). pose proof (size_nonneg r).
  pose proof (runs_exact j sl) as Hx. pose proof runs_entry as Hy. pose proof prefix_implements as Hpre.
  destruct (anchor r) eqn:Ha.
  - simpl in *. rewrite Hx. split; [intros; exists 0; split; [lia|done]|].
    intros (i & Hi & Hf). pose proof Hf as (σ & Hm & _). apply anchor_matches in Hm; [|done]. simpl in Hm. by subst.
  - cbn [entry] in *. destruct (Hpre eq_refl) as [Hpm Hpt]. clear Hx. split.
    + intros [n Hn]%rtc_nsteps. destruct (Hpt n _ _ _ Hn) as (n' & [i sl'] & _ & Hsk & Hn'); [lia|].
      apply skipped in Hsk as [Hi Esl]; [|simpl; lia]. simpl in *. subst sl'. exists i. split; [lia|].
      apply Hy. apply rtc_nsteps. eauto.
    + intros (i & Hi & Hf). etrans; [apply Hpm, (skip_iff 0 i); [lia|done|lia]|]. by apply Hy.
Qed.
End text.
End RegexLink.

Module RegexCompile.
Import Regex RegexSem RegexMem RegexGen RegexRef RegexLex RegexParse RegexWf RegexLink.

Notation bytes := (Forall (λ c, 0 < c < 256)).
Notation ln c := (Z.of_nat (length c)).

(** The object for the expression [r] with [g] groups. *)
Record compiled (fl : Z) (r : regex) (g : Z) (re : cobalt_regex) : Prop := {
  c_code : code re = program fl r (anchor fl r);
  c_flags : re_flags re = fl;
  c_groups : capture_count re = g;
  c_exact : exact_pc re = entry (anchor fl r);
  c_search : search_pc re = 0;
  c_size : inst_count re < 2 ^ 32;
  c_room : inst_count re ≤ re_capacity re
}.

(** The two blocks of the object, besides those of the caller, [h0]. *)
Record owns (h0 : gmap Z Z) (re : cobalt_regex) (e : renv) : Prop := {
  o_ok : heap_ok e;
  o_self : re_self re ≠ NULL ∧ is_Some (heap e !! re_self re);
  o_insts : re_insts re ≠ NULL ∧ is_Some (heap e !! re_insts re);
  o_apart : re_self re ≠ re_insts re;
  o_rest : delete (re_self re) (delete (re_insts re) (heap e)) = h0
}.

(** ** Memory *)

Lemma wp_node_pool_destroy h0 s :
  mem h0 s →
  wp node_pool_destroy (λ _ s', mem h0 s' ∧ prs s' = prs s ∧ cg s' = cg s ∧ env_le (env s) (env s') ∧
    nodes (pool s') = NULL) s.
Proof.
  intros Hm. pose proof Hm as [Hok Hn Hi Hs Hr]. unfold node_pool_destroy. apply wp_bind. hnf.
  destruct (Z.eqb_spec (nodes (pool s)) NULL) as [E|Hne].
  - apply wp_bind, wp_ret. hnf. split_and!; [|done|done|done|done].
    by eapply mem_ext; [exact Hm|..].
  - apply wp_bind, wp_on_env. destruct Hn as [?|Hn]; [done|]. destruct Hs as [?|Hs]; [done|].
    apply wp_re_free; [done|done|done|]. intros e' Hh Hok' Hle _. hnf. split_and!; try done.
    split; simpl; [done|by left| |by left|].
    + destruct Hi as [?|[c Hc]]; [by left|right]. rewrite Hh, lookup_delete_ne by done. by exists c.
    + rewrite Hh, <- Hr. apply map_eq. intros k. rewrite !lookup_delete.
      repeat case_decide; subst; try done. symmetry. by apply heap_null.
Qed.

(** Without blocks of its own. *)
Lemma mem_restored h0 s : mem h0 s → nodes (pool s) = NULL → insts (cg s) = NULL → heap (env s) = h0.
Proof.
  intros [Hok _ _ _ Hr] En Ei. rewrite En, Ei in Hr. pose proof (heap_null _ Hok) as H0.
  rewrite !delete_id in Hr; [done|done|]. by rewrite delete_id.
Qed.

Lemma wp_free_insts h0 s :
  mem h0 s → nodes (pool s) = NULL →
  wp (if insts (cg s) =? NULL then mret tt else on_env (re_free (insts (cg s))))
     (λ _ s', heap (env s') = h0 ∧ env_le (env s) (env s')) s.
Proof.
  intros Hm En. pose proof Hm as [Hok _ Hi _ Hr]. destruct (Z.eqb_spec (insts (cg s)) NULL) as [E|Hne].
  - apply wp_ret. split; [by apply mem_restored|done].
  - apply wp_on_env. destruct Hi as [?|Hi]; [done|]. apply wp_re_free; [done|done|done|].
    intros e' Hh Hok' Hle _. split; [|done]. simpl. rewrite Hh, <- Hr, En. symmetry. apply delete_id.
    rewrite lookup_delete_ne by done. by apply heap_null.
Qed.

(** ** Anchors *)

Lemma wp_anchored_start fuel : ∀ idx r s,
  ast (content (pool s)) idx r → idx < Z.of_nat fuel →
  ast_is_anchored_start fuel idx s = Ret (anchored_start r) s.
Proof.
  induction fuel as [|fuel IH]; intros idx r s Ha Hf; [apply ast_range in Ha; lia|].
  pose proof (ast_range _ _ _ Ha). cbn [ast_is_anchored_start]. rewrite (proj2 (Z.eqb_neq _ _)) by lia.
  unfold get_node, mbind, get_pool. destruct r; destruct Ha as (_ & i & j & Hl & Hk); rewrite Hl; simpl; try done.
  - destruct Hk as (? & ? & ? & ?). apply IH; [done|lia].
  - destruct Hk as (? & ?). apply IH; [done|lia].
Qed.

(** ** The whole compilation *)

Section compile.
(** The pattern and its flags, the caller's environment, and the most
    instructions the program may have. *)
Variables (pat : list Z) (fl : Z) (e0 : renv) (limit : Z).
Notation cmax := (2 * ln pat + 1).

(** No request is larger than this many bytes. *)
Definition budget : Z :=
  64 * sizeof_ast_node + sizeof_ast_node * (2 * cmax) + sizeof_inst * (32 + 2 * limit).

Hypothesis Hpat : bytes pat.
Hypothesis Hlen : cmax < AST_NULL.
Hypothesis Hok : heap_ok e0.
Hypothesis Hlimit : 0 ≤ limit < 2 ^ 32.
Hypothesis Hsize : ∀ r g, ref_parse fl pat = Some (r, g) → size r + 6 ≤ limit.

Notation cg0 := (Codegen NULL [] 0 false).
Notation start := (CState (Parser pat 0 fl 0 COBALT_SUCCESS) (Pool NULL [] 0 false) cg0 e0).
Notation good := (RegexParse.good pat fl (heap e0) e0 cg0 cmax budget).

(** The results that are not objects. *)
Definition refused (o : option cobalt_regex) (e : renv) : Prop :=
  o = None ∧ heap e = heap e0 ∧
  (last_error e = COBALT_ERROR_INVALID_ARGUMENT ∧ ref_parse fl pat = None ∨
   last_error e = COBALT_ERROR_OUT_OF_MEMORY ∧ starved e budget).

Definition compile_post (o : option cobalt_regex) (e : renv) : Prop :=
  refused o e ∨
  ∃ re r g, o = Some re ∧ ref_parse fl pat = Some (r, g) ∧ compiled fl r g re ∧ owns (heap e0) re e.

Lemma start_mem : mem (heap e0) start.
Proof.
  split; simpl; [done|by left|by left|by left|]. pose proof (heap_null _ Hok).
  rewrite !delete_id; [done|done|]. by rewrite delete_id.
Qed.

Lemma wp_node_pool_init :
  wp node_pool_init (λ ok s, (ok = true ∧ good s ∧ pool_oom (pool s) = false ∧ prs s = prs start) ∨
    (ok = false ∧ heap (env s) = heap e0 ∧ starved (env s) budget)) start.
Proof.
  unfold node_pool_init. apply wp_bind, wp_on_env. apply wp_re_alloc; [done| |].
  - intros q e' Hq Hnew Hh Hok' Hle. rewrite (proj2 (Z.eqb_neq _ _) Hq). apply wp_bind. hnf.
    assert (mem (heap e0) (with_pool (with_env start e') (Pool q [] 64 false))) as Hm.
    { eapply mem_nodes_grown; [apply start_mem|done|done| |done|done]. simpl. rewrite Hh.
      symmetry. apply delete_id. rewrite lookup_insert_ne by done. by apply heap_null. }
    apply wp_ret. left. split_and!; try done. split; simpl; [|done|done|].
    + split; simpl; try done. split; simpl; [unfold len; simpl; lia|done].
    + unfold slack, count, len. simpl. lia.
  - intros e' Hh Hok' Hle Hst. rewrite Z.eqb_refl. apply wp_bind. hnf. apply wp_ret. right.
    split_and!; [done|done|]. simpl. eapply starved_mono; [exact Hst|]. unfold budget, sizeof_ast_node, sizeof_inst. lia.
Qed.

Lemma wp_compile_error h0 s err (Q : option cobalt_regex → cstate → Prop) :
  heap (env s) = h0 →
  (∀ e', heap e' = h0 → last_error e' = err → env_le (env s) e' → Q None (with_env s e')) →
  wp (compile_error err) Q s.
Proof.
  intros Hh HQ. unfold compile_error. apply wp_bind, wp_on_env. apply wp_error_set. apply wp_ret.
  apply HQ; [done|done|]. split; [done|simpl; lia].
Qed.

(** What is left to do when the parser failed. *)
Lemma wp_give_up err s :
  mem (heap e0) s → insts (cg s) = NULL →
  (err = COBALT_ERROR_INVALID_ARGUMENT ∧ ref_parse fl pat = None ∨
   err = COBALT_ERROR_OUT_OF_MEMORY ∧ starved (env s) budget) →
  wp (node_pool_destroy ;;; compile_error err) (λ o s', compile_post o (env s')) s.
Proof.
  intros Hm Ei Herr. apply wp_bind. eapply wp_mono; [by apply wp_node_pool_destroy|].
  intros [] s1 (Hm1 & _ & Ec & Hle & En). eapply wp_compile_error; [apply mem_restored; [done|done|by rewrite Ec]|].
  intros e' Hh He Hle'. left. split_and!; [done|done|]. simpl. rewrite He.
  destruct Herr as [?|[-> Hst]]; [by left|right]. split; [done|]. eapply starved_le, Hst. by etrans.
Qed.

Lemma wp_regex_finish r g s exact_pc :
  mem (heap e0) s → nodes (pool s) = NULL → insts (cg s) ≠ NULL →
  group_count (prs s) = g → ref_parse fl pat = Some (r, g) →
  has budget s (program fl r (anchor fl r)) → near s exact_pc (entry (anchor fl r)) →
  wp (finish fl exact_pc) (λ o s', compile_post o (env s')) s.
Proof.
  intros Hm En Ei Hg Hparse Hhas Hne. unfold finish. apply wp_bind. hnf. pose proof (Hsize _ _ Hparse) as Hs.
  destruct Hhas as [[Ho Hst]|(Ho & Ecode & Hcap)]; rewrite Ho.
  { apply wp_bind. eapply wp_mono; [by apply wp_free_insts|]. intros [] s1 [Hh Hle].
    eapply wp_compile_error; [exact Hh|]. intros e' Hh' He Hle'. left. split_and!; [done|done|right]. split; [done|].
    simpl. eapply starved_le, Hst. by etrans. }
  destruct Hne as [?|Hpc]; [congruence|]. apply wp_bind, wp_on_env.
  apply wp_re_alloc; [apply Hm| |].
  - intros q e' Hq Hnew Hh Hok' Hle. rewrite (proj2 (Z.eqb_neq _ _) Hq). apply wp_bind. hnf. right.
    eexists _, r, g. split_and!; [done|done| |].
    + pose proof (length_program fl r (anchor fl r)) as Hl. rewrite Ecode in *.
      split; unfold inst_count; simpl; rewrite ?Ecode; try done; destruct (anchor fl r); simpl in *; lia.
    + destruct Hm as [Hok1 _ Hi _ Hr]. destruct Hi as [?|[c Hc]]; [done|].
      assert (q ≠ insts (cg s)) as Hqi by congruence.
      split; simpl; [done| | |done|].
      * split; [done|]. rewrite Hh, lookup_insert_eq. by eexists.
      * split; [done|]. rewrite Hh, lookup_insert_ne by done. by exists c.
      * rewrite Hh, <- Hr, En. apply map_eq. intros k. rewrite !lookup_delete, lookup_insert.
        repeat case_decide; subst; try done. by rewrite heap_null.
  - intros e' Hh Hok' Hle Hst. rewrite Z.eqb_refl. apply wp_bind.
    eapply wp_mono; [apply (wp_free_insts (heap e0) (with_env s e')); [by apply mem_env|done]|].
    intros [] s1 [Hh1 Hle1]. eapply wp_compile_error; [exact Hh1|]. intros e2 Hh2 He Hle2. left.
    split_and!; [done|done|right]. split; [done|]. simpl. eapply starved_le; [exact Hle2|]. eapply starved_le; [exact Hle1|].
    eapply starved_mono; [exact Hst|]. unfold budget, sizeof_regex, sizeof_ast_node, sizeof_inst. lia.
Qed.

Lemma wp_or_compile_body :
  wp_or (no_block e0 budget) (compile_body fl) (λ o s', compile_post o (env s')) start.
Proof.
  unfold compile_body. apply wp_or_bind, wp_or_of. eapply wp_mono; [apply wp_node_pool_init|].
  intros ok s [(-> & Hg & Ho & Ep)|(-> & Hh & Hst)]; cbn [negb].
  2: { apply wp_or_of. eapply wp_compile_error; [exact Hh|]. intros e' Hh' He Hle. left. split_and!; [done|done|right].
       split; [done|]. simpl. by eapply starved_le. }
  apply wp_or_bind, wp_or_of. hnf. rewrite Ep. cbn [prs pattern].
  assert (rest (prs s) = pat) as Hrest by (rewrite Ep; unfold rest; simpl; by rewrite drop_0).
  apply wp_or_bind, wp_or_of. eapply wp_mono; [eapply wp_parse_expr; [done| |exact Hg|rewrite Hrest; lia]|].
  { unfold budget, sizeof_ast_node, sizeof_inst. lia. }
  rewrite Hrest, Ep. cbn [prs group_count]. intros root s1 Ht. apply wp_or_bind, wp_or_of. hnf. apply wp_or_bind, wp_or_of. hnf.
  assert (RegexParse.base pat fl (heap e0) e0 cg0 budget s1) as Hb by (destruct Ht as [St|F]; [apply St|apply F]).
  assert (insts (cg s1) = NULL) as Ei by by rewrite (b_cg _ _ _ _ _ _ _ Hb).
  pose proof (b_mem _ _ _ _ _ _ _ Hb) as Hm. destruct Ht as [St|F].
  { rewrite (proj2 (proj1 St)), orb_true_r. apply wp_or_of. apply wp_give_up; [done|done|].
    right. split; [done|]. apply (b_starved _ _ _ _ _ _ _ Hb), St. }
  destruct F as (_ & Ho1 & _ & F). rewrite Ho1, orb_false_r.
  pose proof (length_rest _ (b_pok _ _ _ _ _ _ _ Hb)) as Hl.
  assert (∀ o, ref_expr (ignore_case fl) (S (length pat)) pat 0 = o →
    match o with Some (r, [], g) => Some (r, g) | _ => None end = ref_parse fl pat) as Hparse by by intros o <-.
  specialize (Hparse _ eq_refl). destruct (ref_expr _ _ pat 0) as [[[r t] g]|].
  2: { destruct F as [-> He]. rewrite He, bool_decide_false by done. cbn [negb orb]. apply wp_or_of.
       apply wp_give_up; [done|done|left; by split]. }
  destruct F as (Hr & Hgc & He & Ha & (l & El) & _). rewrite He, bool_decide_true by done. cbn [negb orb].
  rewrite Hr in Hl. destruct t as [|c t].
  2: { rewrite (proj2 (Z.ltb_lt _ _)) by (simpl in Hl; lia). apply wp_or_of.
       apply wp_give_up; [done|done|left; by split]. }
  rewrite (proj2 (Z.ltb_ge _ _)) by (simpl in Hl; lia). symmetry in Hparse. pose proof (ast_lt _ _ _ Ha) as Hlt.
  apply wp_or_bind, wp_or_of. unfold wp at 1. rewrite (wp_anchored_start _ _ r) by (done || lia).
  change (anchored_start r && negb (has_flag fl COBALT_REGEX_MULTILINE)) with (anchor fl r).
  destruct (ref_parse_wf _ _ _ _ Hpat Hparse) as [Hwf _].
  apply wp_or_bind. eapply wp_or_mono.
  { apply (wp_or_emit_program (prs s1) (pool s1) (heap e0) e0 limit budget ltac:(lia)
      ltac:(unfold budget, sizeof_ast_node, sizeof_inst; lia) fl r); try done; [apply Hb|apply Hb|].
    by eapply Hsize. }
  intros x s2 [(I2 & L2 & H2) Ne]. apply wp_or_of, wp_bind.
  eapply wp_mono; [apply wp_node_pool_destroy, I2|]. intros [] s3 (Hm3 & Ep3 & Ec3 & Hle3 & En3).
  eapply (wp_regex_finish r g); [done|done| | |done| |].
  - rewrite Ec3. apply I2.
  - rewrite Ep3, (i_prs _ _ _ _ _ I2). done.
  - unfold has in *. rewrite Ec3. destruct H2 as [[? ?]|?]; [left|by right]. split; [done|by eapply starved_le].
  - unfold near in *. by rewrite Ec3.
Qed.

(** The function itself. *)
Lemma wp_or_compile :
  wp_or (no_block e0 budget) (cobalt_regex_compile_with_alloc (Some pat) fl) compile_post e0.
Proof.
  pose proof wp_or_compile_body as H. unfold wp_or, cobalt_regex_compile_with_alloc in *.
  destruct (compile_body fl _); done.
Qed.
End compile.

(** [cobalt_regex_destroy] gives both blocks back. *)
Lemma wp_regex_destroy h0 re e :
  owns h0 re e → wp (cobalt_regex_destroy (Some re)) (λ _ e', heap e' = h0 ∧ heap_ok e') e.
Proof.
  intros [Hok [Hs0 Hs] [Hi0 Hi] Hap Hr]. unfold cobalt_regex_destroy. rewrite (proj2 (Z.eqb_neq _ _) Hi0).
  apply wp_bind, wp_re_free; [done|done|done|]. intros e1 Hh1 Hok1 _ _.
  apply wp_re_free; [done|done|by rewrite Hh1, lookup_delete_ne by done|]. intros e2 Hh2 Hok2 _ _.
  by rewrite Hh2, Hh1, Hr.
Qed.
End RegexCompile.
