(* ===== verification/RegexSpec.v ===== *)
(** * Regular expressions, end to end

    Compiling, searching and matching against the meaning of the expression that
    the pattern stands for, the errors, and where the code does something else. *)
From stdpp Require Import relations strings.
From stdpp Require Import strings.
From S2P Require Import Prelude World Regex RegexVM RegexSem RegexPike RegexRun RegexGen RegexRef RegexCompile.

Module RegexSpec.
Import Regex RegexVM RegexSem RegexPike RegexRun RegexMem RegexGen RegexRef RegexLink RegexCompile.

(** ** Programs *)

Lemma program_in fl r : wf r →
  Forall (inst_in (Z.of_nat (length (program fl r (anchor fl r))) - 1)) (program fl r (anchor fl r)).
Proof.
  intros Hwf. rewrite length_program. pose proof (size_nonneg r). unfold program. apply Forall_app. split.
  { destruct (anchor fl r); [by constructor|]. unfold prefix_code, entry.
    set (hi := 3 + size r + 3 - 1). assert (3 ≤ hi) by lia.
    assert (inst_in hi (i_split true 3 1)) as H1 by (change (0 ≤ 3 ≤ hi ∧ 0 ≤ 1 ≤ hi); lia).
    assert (inst_in hi (i_jump 0)) as H2 by (change (0 ≤ 0 ≤ hi); lia).
    by repeat apply Forall_cons_2. }
  constructor; [done|]. apply Forall_app. split; [|repeat (apply Forall_cons_2; [done|]); by apply Forall_nil_2].
  apply gen_inst_in; [destruct (anchor fl r); simpl; lia|lia|done].
Qed.

Lemma program_no_backref fl r : backref_free r = true → Forall (λ i, opcode i ≠ OP_BACKREF) (program fl r (anchor fl r)).
Proof.
  intros Hr. unfold program. apply Forall_app. split; [by destruct (anchor fl r); repeat constructor|].
  constructor; [done|]. apply Forall_app. split; [|by repeat constructor].
  apply gen_no_backref; [by destruct (anchor fl r)|done].
Qed.

(** ** Runs *)

(** The captures of a match, from its slots. *)
Definition captures_of (sl : list Z) (n : Z) : list cobalt_regex_capture :=
  capture_of (Thread 0 0 0 0 sl) <$> seqZ 0 n.

Lemma captures_head sl n i j :
  0 < n → sl !! 0%nat = Some i → sl !! 1%nat = Some j → 0 ≤ i ≤ j → j < UNSET →
  head (captures_of sl n) = Some (Capture i j (j - i)).
Proof.
  intros Hn Hi Hj Hij Hu. unfold captures_of. rewrite (seqZ_cons 0 n) by lia. cbn [fmap list_fmap head]. unfold capture_of.
  change (Z.to_nat (2 * 0)) with 0%nat. change (Z.to_nat (2 * 0 + 1)) with 1%nat. cbn [slots]. rewrite Hi, Hj.
  rewrite (proj2 (Z.eqb_neq _ _)), (proj2 (Z.eqb_neq _ _)), (proj2 (Z.leb_le _ _)) by lia. done.
Qed.

Section run.
Variables (fl : Z) (r : regex) (g : Z) (re : cobalt_regex) (text : list Z).
Hypothesis Hre : compiled fl r g re.
Hypothesis Hwf : wf r.
Hypothesis Htext : ∀ c, c ∈ text → 0 ≤ c.
Hypothesis Htlen : text_len text < UNSET.

(** A match of the kind that is asked for. *)
Definition hit (full : bool) (i j : Z) (sl : list Z) : Prop :=
  0 ≤ i ≤ text_len text ∧ (full = true → i = 0 ∧ j = text_len text) ∧ finds fl text r i j sl.

Definition start_of (full : bool) : Z := if full then exact_pc re else search_pc re.

Lemma code_ok : Forall inst_ok (code re).
Proof.
  rewrite (c_code _ _ _ _ Hre). eapply Forall_impl; [by apply program_in|]. intros i. apply inst_in_ok.
Qed.

Lemma start_nonneg full : 0 ≤ start_of full.
Proof.
  unfold start_of. destruct full; [rewrite (c_exact _ _ _ _ Hre); by destruct (anchor fl r)|by rewrite (c_search _ _ _ _ Hre)].
Qed.

(** Where the machine can stop. *)
Lemma reach_match full p j sl i :
  reach re text (start_of full) p j sl → code re !! Z.to_nat p = Some i → opcode i = OP_MATCH →
  ∃ k, 0 ≤ k ≤ text_len text ∧ (full = true → k = 0) ∧ finds fl text r k j sl.
Proof.
  intros Hr Hi Hm. pose proof (reach_inv _ _ _ code_ok (start_nonneg full) _ _ _ Hr) as (Hp & _).
  assert (0 ≤ text_len text) by (unfold text_len; lia).
  pose proof (match_last _ _ _ (c_code _ _ _ _ Hre) _ _ Hp Hi Hm) as ->.
  unfold reach in Hr. rewrite (c_flags _ _ _ _ Hre) in Hr. destruct full; simpl in Hr.
  - rewrite (c_exact _ _ _ _ Hre) in Hr.
    apply (runs_exact _ _ _ _ Hwf Htext (c_code _ _ _ _ Hre)) in Hr. exists 0. split_and!; [lia|lia|done|done].
  - rewrite (c_search _ _ _ _ Hre) in Hr.
    apply (runs_search _ _ _ _ Hwf Htext (c_code _ _ _ _ Hre)) in Hr as (k & Hk & Hf). by exists k.
Qed.

Lemma hit_reach full i j sl : hit full i j sl →
  ∃ p, reach re text (start_of full) p j sl ∧ code re !! Z.to_nat p = Some i_match.
Proof.
  intros (Hi & Hfull & Hf). eexists. split; [|apply (last_match _ _ _ (c_code _ _ _ _ Hre))].
  unfold reach. rewrite (c_flags _ _ _ _ Hre). destruct full; simpl.
  - rewrite (c_exact _ _ _ _ Hre). destruct (Hfull eq_refl) as [-> _].
    by apply (runs_exact _ _ _ _ Hwf Htext (c_code _ _ _ _ Hre)).
  - rewrite (c_search _ _ _ _ Hre). apply (runs_search _ _ _ _ Hwf Htext (c_code _ _ _ _ Hre)). by exists i.
Qed.

(** What the machine has found when it stops. *)
Lemma wp_machine full :
  wp (vm_main re text full (start_of full)) (λ _ s,
    (matched s = true → ∃ i j, hit full i j (slots (best_match s))) ∧
    (backref_free r = true → ∀ i j sl, hit full i j sl → matched s = true)) (vm_init re).
Proof.
  eapply wp_mono; [apply wp_vm_main; [apply code_ok|apply Hre|apply start_nonneg|done|]|].
  - intros -> p pos sl i Hr Hi Hm. destruct (reach_match true _ _ _ _ Hr Hi Hm) as (k & Hk & E & Hf). rewrite (E eq_refl) in Hf.
    apply finds_bounds in Hf as (_ & ? & ? & _); [done|done|lia].
  - intros [] s [[_ Hb] Hc]. split.
    + intros Hm. destruct (Hb Hm) as (p & pos & i & Hr & Hi & Ho & Hf).
      destruct (reach_match full _ _ _ _ Hr Hi Ho) as (k & Hk & Hk0 & Hfd). exists k, pos.
      split_and!; try done; [lia|lia|]. intros E. split; [by apply Hk0|by apply Hf].
    + intros Hbf i j sl Hh. destruct (hit_reach _ _ _ _ Hh) as (p & Hr & Hi).
      apply (Hc ltac:(unfold no_backref; rewrite (c_code _ _ _ _ Hre); by apply program_no_backref) p j sl i_match Hr Hi); [done|].
      intros E. apply Hh, E.
Qed.

(** The results of [cobalt_regex_search] and [cobalt_regex_match_exact]. *)
Definition run_post (full caps : bool) (n : Z) (e0 : renv) (res : Z * list cobalt_regex_capture) (e : renv) : Prop :=
  heap e = heap e0 ∧ heap_ok e ∧ env_le e0 e ∧
  ((∃ i j sl, hit full i j sl ∧ res = (1, if caps then captures_of sl n else [])) ∨
   (res = (0, []) ∧ (backref_free r = true → ∀ i j sl, ¬ hit full i j sl)) ∨
   (res = (-1, []) ∧ last_error e = COBALT_ERROR_OUT_OF_MEMORY ∧ COBALT_REGEX_STACK_THRESHOLD < inst_count re ∧
    starved e (inst_count re * (2 * sizeof_pike_thread + 4)))).

Lemma code_nonempty : inst_count re ≠ 0.
Proof.
  unfold inst_count. rewrite (c_code _ _ _ _ Hre), length_program. pose proof (size_nonneg r). destruct (anchor fl r); simpl; lia.
Qed.

Lemma wp_run_vm full caps n e :
  heap_ok e → wp (run_vm (Some re) (Some text) caps n (start_of full) full) (run_post full caps n e) e.
Proof.
  intros Hok. unfold run_vm. rewrite (proj2 (Z.eqb_neq _ _) code_nonempty).
  pose proof (wp_machine full) as Hm. unfold wp in Hm. pose proof (c_size _ _ _ _ Hre).
  destruct (vm_main re text full (start_of full) (vm_init re)) as [[] s|f] eqn:Hrun; [|done].
  destruct Hm as [Hsound Hcompl].
  assert (∀ e', heap e' = heap e → heap_ok e' → env_le e e' →
    run_post full caps n e (if matched s then (1, if caps then capture_of (best_match s) <$> seqZ 0 n else []) else (0, [])) e') as Hfin.
  { intros e' Hh Hok' Hle. split_and!; [done..|]. destruct (matched s) eqn:E.
    - left. destruct (Hsound eq_refl) as (i & j & Hh'). by exists i, j, (slots (best_match s)).
    - right; left. split; [done|]. intros Hb i j sl Hit. by specialize (Hcompl Hb i j sl Hit). }
  destruct (Z.ltb_spec COBALT_REGEX_STACK_THRESHOLD (inst_count re)) as [Hlarge|Hsmall].
  - apply wp_bind, wp_re_alloc; [done| |].
    + intros q e1 Hq Hnew Hh1 Hok1 Hle1. rewrite (proj2 (Z.eqb_neq _ _) Hq). cbn [andb].
      apply wp_bind, wp_re_free; [done|done|rewrite Hh1, lookup_insert_eq; by eexists|].
      intros e2 Hh2 Hok2 Hle2 _. apply wp_ret, Hfin; [|done|by etrans]. by rewrite Hh2, Hh1, delete_insert_id.
    + intros e1 Hh1 Hok1 Hle1 Hst. rewrite Z.eqb_refl. cbn [andb]. apply wp_bind, wp_error_set, wp_ret.
      split_and!; [done|by eapply heap_ok_ext|done|]. right; right. split_and!; try done. simpl.
      eapply starved_mono; [exact Hst|]. unfold wrap64, sizeof_pike_thread.
      assert (0 ≤ inst_count re) by (unfold inst_count; lia).
      etrans; [apply Z.mod_le; lia|]. lia.
  - apply wp_bind, wp_ret. rewrite Z.eqb_refl. cbn [andb]. apply wp_bind, wp_ret, wp_ret. by apply Hfin.
Qed.
End run.

(** ** Compiling *)

(** C19: Compiling a pattern of bytes gives the program of the expression that the
    pattern stands for, with its entries, flags and number of groups, and leaves
    exactly two blocks allocated besides the caller's; a pattern that is not an
    expression is refused as an invalid argument and a refused allocation is
    reported as out of memory, with every block of the compilation released.  The
    one fault possible is a write through the null array of instructions, when
    its first block is refused. *)
Theorem compile_refines pat fl e0 limit
  (Hpat : Forall (λ c, 0 < c < 256) pat) (Hlen : 2 * Z.of_nat (length pat) + 1 < AST_NULL) (Hok : heap_ok e0)
  (Hlimit : 0 ≤ limit < 2 ^ 32)
  (Hsize : ∀ r g, ref_parse fl pat = Some (r, g) → size r + 6 ≤ limit) :
  wp_or (no_block e0 (budget pat limit)) (cobalt_regex_compile (Some pat) fl) (compile_post pat fl e0 limit) e0.
Proof. by apply wp_or_compile. Qed.

(** C39: Every program that is compiled keeps to its own instructions: branches
    lead to instructions of the program, captures are saved in the 32 slots there
    are, back references are to groups below 16, and the array has room for what
    it holds. *)
Theorem compile_program_in_range pat fl e0 limit
  (Hpat : Forall (λ c, 0 < c < 256) pat) (Hlen : 2 * Z.of_nat (length pat) + 1 < AST_NULL) (Hok : heap_ok e0)
  (Hlimit : 0 ≤ limit < 2 ^ 32)
  (Hsize : ∀ r g, ref_parse fl pat = Some (r, g) → size r + 6 ≤ limit) :
  wp_or (no_block e0 (budget pat limit)) (cobalt_regex_compile (Some pat) fl) (λ o _, ∀ re, o = Some re →
    Forall (inst_in (inst_count re - 1)) (code re) ∧ inst_count re ≤ re_capacity re ∧
    0 ≤ cobalt_regex_capture_count o < COBALT_REGEX_MAX_CAPTURES ∧
    0 ≤ exact_pc re < inst_count re ∧ 0 ≤ search_pc re < inst_count re) e0.
Proof.
  eapply wp_or_mono; [by apply (wp_or_compile pat fl e0 limit)|]. intros o e' H re ->.
  destruct H as [(? & _)|(re' & r & g & [= <-] & Hp & Hc & _)]; [done|].
  destruct (RegexWf.ref_parse_wf _ _ _ _ Hpat Hp) as [Hwf Hg]. pose proof (program_in fl r Hwf) as Hi.
  pose proof (length_program fl r (anchor fl r)) as Hl. pose proof (size_nonneg r). pose proof Hc as [Ec _ Eg Ee Es _ ?].
  unfold inst_count in *. simpl. rewrite Ec, Eg, Ee, Es in *. split_and!; try done; destruct (anchor fl r); simpl in *; lia.
Qed.

(** ** Matching *)

(** C20: Matching a whole text with a compiled pattern does not fault and
    terminates; when it returns 1 the expression matches the text from its
    beginning to its end, with the captures that are written, and when it returns
    0 for an expression without back references there is no such match.  The
    caller's memory is as before; -1 stands for a refused allocation. *)
Theorem match_exact_correct pat fl r g re text caps n e0
  (Hpat : Forall (λ c, 0 < c < 256) pat) (Hparse : ref_parse fl pat = Some (r, g)) (Hre : compiled fl r g re)
  (Htext : Forall (λ c, 0 < c < 256) text) (Htlen : text_len text < UNSET) (Hok : heap_ok e0) :
  wp (cobalt_regex_match_exact (Some re) (Some text) caps n) (λ res e,
    heap e = heap e0 ∧
    ((∃ sl, finds fl text r 0 (text_len text) sl ∧ res = (1, if caps then captures_of sl n else [])) ∨
     (res = (0, []) ∧ (backref_free r = true → ∀ sl, ¬ finds fl text r 0 (text_len text) sl)) ∨
     (res = (-1, []) ∧ last_error e = COBALT_ERROR_OUT_OF_MEMORY ∧
      starved e (inst_count re * (2 * sizeof_pike_thread + 4))))) e0.
Proof.
  destruct (RegexWf.ref_parse_wf _ _ _ _ Hpat Hparse) as [Hwf _].
  assert (∀ c, c ∈ text → 0 ≤ c) as Ht by (intros c Hc; rewrite Forall_forall in Htext; apply Htext in Hc; lia).
  eapply wp_mono; [exact (wp_run_vm fl r g re text Hre Hwf Ht Htlen true caps n e0 Hok)|].
  intros res e (Hh & _ & _ & H). split; [done|]. destruct H as [(i & j & sl & (_ & Hij & Hf) & ->)|[[-> H]|(-> & ? & _ & ?)]].
  - destruct (Hij eq_refl) as [-> ->]. left. by exists sl.
  - right; left. split; [done|]. intros Hb sl Hf. apply (H Hb 0 (text_len text) sl).
    split_and!; [done|unfold text_len; lia|done|done].
  - by right; right.
Qed.

(** C21: Searching a text with a compiled pattern does not fault and terminates;
    when it returns 1 the expression matches a part of the text, which the first
    capture delimits, and the other captures are those of this match, and when
    it returns 0 for an expression without back references no part of the text
    matches.  The caller's memory is as before. *)
Theorem search_correct pat fl r g re text caps n e0
  (Hpat : Forall (λ c, 0 < c < 256) pat) (Hparse : ref_parse fl pat = Some (r, g)) (Hre : compiled fl r g re)
  (Htext : Forall (λ c, 0 < c < 256) text) (Htlen : text_len text < UNSET) (Hok : heap_ok e0) :
  wp (cobalt_regex_search (Some re) (Some text) caps n) (λ res e,
    heap e = heap e0 ∧
    ((∃ i j sl, 0 ≤ i ≤ j ∧ j ≤ text_len text ∧ finds fl text r i j sl ∧
        res = (1, if caps then captures_of sl n else []) ∧
        (0 < n → head (captures_of sl n) = Some (Capture i j (j - i)))) ∨
     (res = (0, []) ∧ (backref_free r = true → ∀ i j sl, 0 ≤ i ≤ text_len text → ¬ finds fl text r i j sl)) ∨
     (res = (-1, []) ∧ last_error e = COBALT_ERROR_OUT_OF_MEMORY ∧
      starved e (inst_count re * (2 * sizeof_pike_thread + 4))))) e0.
Proof.
  destruct (RegexWf.ref_parse_wf _ _ _ _ Hpat Hparse) as [Hwf _].
  assert (∀ c, c ∈ text → 0 ≤ c) as Ht by (intros c Hc; rewrite Forall_forall in Htext; apply Htext in Hc; lia).
  eapply wp_mono; [exact (wp_run_vm fl r g re text Hre Hwf Ht Htlen false caps n e0 Hok)|].
  intros res e (Hh & _ & _ & H). split; [done|]. destruct H as [(i & j & sl & (Hi & _ & Hf) & ->)|[[-> H]|(-> & ? & _ & ?)]].
  - left. exists i, j, sl. pose proof (finds_bounds _ _ _ _ _ _ Hwf Hi Hf) as (Hj & H0 & H1 & _).
    split_and!; try done; [lia..|]. intros Hn. by apply captures_head; [..|lia|lia].
  - right; left. split; [done|]. intros Hb i j sl Hi Hf. by apply (H Hb i j sl).
  - by right; right.
Qed.

(** The most that a compilation and a search ask for at once. *)
Definition test_budget (pat : list Z) (limit : Z) : Z := budget pat limit + limit * (2 * sizeof_pike_thread + 4).

(** C23: [cobalt_regex_test] compiles, searches and destroys: it returns 1 only
    when a part of the text matches, 0 for a pattern without back references
    only when none does, and -1 for a pattern that is not an expression or when
    memory is refused; afterwards exactly the caller's blocks are allocated.
    The one way not to return is the write through the null instruction array
    when the instruction block of the compilation is refused ([no_block]). *)
Theorem test_correct pat text e0 limit
  (Hpat : Forall (λ c, 0 < c < 256) pat) (Hlen : 2 * Z.of_nat (length pat) + 1 < AST_NULL) (Hok : heap_ok e0)
  (Hlimit : 0 ≤ limit < 2 ^ 32)
  (Hsize : ∀ r g, ref_parse 0 pat = Some (r, g) → size r + 6 ≤ limit)
  (Htext : Forall (λ c, 0 < c < 256) text) (Htlen : text_len text < UNSET) :
  wp_or (no_block e0 (budget pat limit)) (cobalt_regex_test (Some pat) (Some text)) (λ res e,
    heap e = heap e0 ∧
    ((res = 1 ∧ ∃ r g i j sl, ref_parse 0 pat = Some (r, g) ∧ 0 ≤ i ≤ text_len text ∧ finds 0 text r i j sl) ∨
     (res = 0 ∧ ∃ r g, ref_parse 0 pat = Some (r, g) ∧
        (backref_free r = true → ∀ i j sl, 0 ≤ i ≤ text_len text → ¬ finds 0 text r i j sl)) ∨
     (res = -1 ∧ (ref_parse 0 pat = None ∨ starved e (test_budget pat limit))))) e0.
Proof.
  assert (∀ c, c ∈ text → 0 ≤ c) as Ht by (intros c Hc; rewrite Forall_forall in Htext; apply Htext in Hc; lia).
  assert (budget pat limit ≤ test_budget pat limit) as Hb by (unfold test_budget, sizeof_pike_thread; lia).
  unfold cobalt_regex_test. apply wp_or_bind. eapply wp_or_mono; [by apply (wp_or_compile pat 0 e0 limit)|].
  intros o e [(-> & Hh & He)|(re & r & g & -> & Hp & Hc & Ho)].
  { apply wp_or_ret. split; [done|]. right; right. split; [done|]. destruct He as [[_ ?]|[_ Hs]]; [by left|right].
    by eapply starved_mono. }
  destruct (RegexWf.ref_parse_wf _ _ _ _ Hpat Hp) as [Hwf _]. apply wp_or_of, wp_bind.
  eapply wp_mono; [exact (wp_run_vm 0 r g re text Hc Hwf Ht Htlen false false 0 e (o_ok _ _ _ Ho))|].
  intros res e1 (Hh1 & Hok1 & Hle1 & H). apply wp_bind.
  assert (owns (heap e0) re e1) as Ho1 by (destruct Ho; split; rewrite ?Hh1; done).
  destruct Ho1 as [_ [Hs0 Hs1] [Hi0 Hi1] Hap Hr]. unfold cobalt_regex_destroy. rewrite (proj2 (Z.eqb_neq _ _) Hi0).
  apply wp_bind, wp_re_free; [done|done|done|]. intros e2 Hh2 Hok2 Hle2 _.
  apply wp_re_free; [done|done|by rewrite Hh2, lookup_delete_ne by done|]. intros e3 Hh3 Hok3 Hle3 _.
  apply wp_ret. split; [by rewrite Hh3, Hh2, Hr|].
  destruct H as [(i & j & sl & (Hi & _ & Hf) & ->)|[[-> H]|(-> & _ & _ & Hst)]].
  - left. split; [done|]. by exists r, g, i, j, sl.
  - right; left. split; [done|]. exists r, g. split; [done|]. intros Hbf i j sl Hi Hf. by apply (H Hbf i j sl).
  - right; right. split; [done|]. right. do 2 (eapply starved_le; [eassumption|]). eapply starved_mono; [exact Hst|].
    specialize (Hsize _ _ Hp). pose proof (length_program 0 r (anchor 0 r)) as Hl. unfold inst_count.
    rewrite (c_code _ _ _ _ Hc), Hl. unfold test_budget, budget, sizeof_ast_node, sizeof_inst, sizeof_pike_thread.
    destruct (anchor 0 r); simpl; lia.
Qed.

(** A null pattern, object or text is refused as an invalid argument and
    nothing is allocated. *)
Theorem null_arguments_refused fl caps n (re : option cobalt_regex) (text pat : option (list Z)) e
  (Hnull : re = None ∨ text = None) :
  cobalt_regex_compile None fl e = Ret None (with_error e COBALT_ERROR_INVALID_ARGUMENT) ∧
  cobalt_regex_search re text caps n e = Ret (-1, []) (with_error e COBALT_ERROR_INVALID_ARGUMENT) ∧
  cobalt_regex_match_exact re text caps n e = Ret (-1, []) (with_error e COBALT_ERROR_INVALID_ARGUMENT) ∧
  (pat = None ∨ text = None → cobalt_regex_test pat text e = Ret (-1) (with_error e COBALT_ERROR_INVALID_ARGUMENT)) ∧
  cobalt_regex_destroy None e = Ret tt e.
Proof.
  split_and!; [done|by destruct Hnull as [->| ->]; [|destruct re]|by destruct Hnull as [->| ->]; [|destruct re]| |done].
  intros [->| ->]; [done|by destruct pat].
Qed.

(** ** Instances *)

(** The bytes of a C string. *)
Definition chars (s : string) : list Z := (λ a, Z.of_N (Ascii.N_of_ascii a)) <$> String.list_ascii_of_string s.

(** An allocator that grants everything. *)
Definition generous : renv := world0 (λ _ _, true).

(** Compile [p] and run [f] on the text [t] with room for one capture. *)
Definition on_text (f : option cobalt_regex → option (list Z) → bool → Z → M renv (Z * list cobalt_regex_capture))
    (p t : string) : M renv (Z * list cobalt_regex_capture) :=
  re <- cobalt_regex_compile (Some (chars p)) 0 ;; f re (Some (chars t)) true 1.

Definition demo_re : cobalt_regex :=
  match cobalt_regex_compile (Some (chars "a(b|c)*")) 0 generous with
  | Ret (Some re) _ => re
  | _ => Re 0 0 [] 0 0 0 0 0
  end.

Definition demo_regex : regex := Concat (Char 97) (Quant (Group (Alt (Char 98) (Char 99)) 1) 0 (-1) true).

Lemma demo_parse : ref_parse 0 (chars "a(b|c)*") = Some (demo_regex, 1).
Proof. vm_compute. reflexivity. Defined.

Lemma demo_size r g : ref_parse 0 (chars "a(b|c)*") = Some (r, g) → size r + 6 ≤ 15.
Proof. rewrite demo_parse. intros [= <- <-]. vm_compute. discriminate. Qed.

Lemma demo_compiled : compiled 0 demo_regex 1 demo_re.
Proof. split; vm_compute; (reflexivity || discriminate). Qed.

(** A run that is known to return a value with [P]. *)
Lemma wp_returns {S A} (P : A → Prop) (c : M S A) Q s :
  match c s with Ret a _ => P a | Fault _ => False end → wp c Q s → ∃ a s', result (c s) = inl a ∧ P a ∧ Q a s'.
Proof. unfold wp. destruct (c s) as [a s'|f]; [|done]. by exists a, s'. Qed.

Lemma wp_or_returns {S A} (P : A → Prop) F (c : M S A) Q s :
  match c s with Ret a _ => P a | Fault _ => False end → wp_or F c Q s → ∃ a s', P a ∧ Q a s'.
Proof. unfold wp_or. destruct (c s) as [a s'|f]; [|done]. by exists a, s'. Qed.

Lemma compile_refines_witness :
  wp_or (no_block generous (budget (chars "a(b|c)*") 15)) (cobalt_regex_compile (Some (chars "a(b|c)*")) 0)
    (compile_post (chars "a(b|c)*") 0 generous 15) generous.
Proof.
  apply compile_refines; [repeat constructor|reflexivity|apply heap_ok_world0|lia|apply demo_size].
Defined.

Lemma compile_program_in_range_witness :
  wp_or (no_block generous (budget (chars "a(b|c)*") 15)) (cobalt_regex_compile (Some (chars "a(b|c)*")) 0)
    (λ o _, ∀ re, o = Some re →
      Forall (inst_in (inst_count re - 1)) (code re) ∧ inst_count re ≤ re_capacity re ∧
      0 ≤ cobalt_regex_capture_count o < COBALT_REGEX_MAX_CAPTURES ∧
      0 ≤ exact_pc re < inst_count re ∧ 0 ≤ search_pc re < inst_count re) generous.
Proof.
  apply compile_program_in_range; [repeat constructor|reflexivity|apply heap_ok_world0|lia|apply demo_size].
Defined.

Lemma match_exact_correct_witness :
  ∃ sl, finds 0 (chars "abcb") demo_regex 0 4 sl ∧
    result (cobalt_regex_match_exact (Some demo_re) (Some (chars "abcb")) true 2 generous) =
      inl (1, captures_of sl 2).
Proof.
  pose proof (match_exact_correct (chars "a(b|c)*") 0 demo_regex 1 demo_re (chars "abcb") true 2 generous
      ltac:(repeat constructor) demo_parse demo_compiled ltac:(repeat constructor) ltac:(reflexivity)
      (heap_ok_world0 _)) as H.
  apply (wp_returns (λ res, res.1 = 1)) in H; [|vm_compute; reflexivity].
  destruct H as (res & e & E & E1 & _ & [(sl & Hf & ->)|[[-> _]|[-> _]]]);
    [|discriminate E1|discriminate E1].
  exact (ex_intro _ sl (conj Hf E)).
Defined.

Lemma search_correct_witness :
  ∃ i j sl, 0 ≤ i ≤ j ∧ finds 0 (chars "xxab") demo_regex i j sl ∧
    result (cobalt_regex_search (Some demo_re) (Some (chars "xxab")) true 2 generous) =
      inl (1, captures_of sl 2).
Proof.
  pose proof (search_correct (chars "a(b|c)*") 0 demo_regex 1 demo_re (chars "xxab") true 2 generous
      ltac:(repeat constructor) demo_parse demo_compiled ltac:(repeat constructor) ltac:(reflexivity)
      (heap_ok_world0 _)) as H.
  apply (wp_returns (λ res, res.1 = 1)) in H; [|vm_compute; reflexivity].
  destruct H as (res & e & E & E1 & _ & [(i & j & sl & Hi & _ & Hf & -> & _)|[[-> _]|[-> _]]]);
    [|discriminate E1|discriminate E1].
  exists i, j, sl. exact (conj Hi (conj Hf E)).
Defined.

Lemma test_correct_witness :
  ∃ r g i j sl, ref_parse 0 (chars "a(b|c)*") = Some (r, g) ∧ finds 0 (chars "xxab") r i j sl.
Proof.
  pose proof (test_correct (chars "a(b|c)*") (chars "xxab") generous 15 ltac:(repeat constructor) ltac:(reflexivity)
      (heap_ok_world0 _) ltac:(lia) demo_size ltac:(repeat constructor) ltac:(reflexivity)) as H.
  apply (wp_or_returns (λ res, res = 1)) in H; [|vm_compute; reflexivity].
  destruct H as (res & e & -> & _ & [(_ & r & g & i & j & sl & Hp & _ & Hf)|[[E _]|[E _]]]); [|discriminate E|discriminate E].
  exists r, g, i, j, sl. exact (conj Hp Hf).
Defined.

Lemma null_arguments_refused_witness :
  cobalt_regex_search (Some demo_re) None true 1 generous =
    Ret (-1, []) (with_error generous COBALT_ERROR_INVALID_ARGUMENT).
Proof. apply (null_arguments_refused 0 true 1 (Some demo_re) None None generous). by right. Defined.
End RegexSpec.

(** ** Regular expressions on concrete patterns

    Patterns on which the functions of src/src/algorithm/regex.c depart from what
    they promise. *)
Module RegexTexts.
Import Regex RegexVM RegexSem RegexMem RegexGen RegexRef RegexLink RegexCompile RegexSpec.

(** ** Where the code does something else *)

Lemma finds_intro fl text r i j sl :
  matches fl text r (save 0 (i, replicate num_slots UNSET)) (j, sl) → finds fl text r i j (<[1%nat := j]> sl).
Proof. intros H. by exists (j, sl). Qed.

Ltac find_char := eexists; split_and!; [reflexivity|reflexivity|reflexivity].

(** A search does not return the first match: the program for [abcd|bc] finds
    the second alternative in [abcd] before the first one is complete, and then
    keeps only matches that begin where this one does, although the text matches
    from its beginning. *)
Theorem search_not_leftmost :
  result (on_text cobalt_regex_search "abcd|bc" "abcd" generous) = inl (1, [Capture 1 3 2]) ∧
  ∃ r g sl, ref_parse 0 (chars "abcd|bc") = Some (r, g) ∧ finds 0 (chars "abcd") r 0 4 sl.
Proof.
  split; [vm_compute; reflexivity|].
  exists (Alt (Concat (Concat (Concat (Char 97) (Char 98)) (Char 99)) (Char 100)) (Concat (Char 98) (Char 99))), 0.
  eexists. split; [vm_compute; reflexivity|]. eapply finds_intro.
  left. eexists. split; [eexists; split; [eexists; split; [find_char|find_char]|find_char]|find_char].
Qed.

(** A quantifier that is followed by a question mark matches as much as one
    that is not: both [a+?] and [a+] find all of the three letters, although one
    of them is a match. *)
Theorem lazy_quantifier_ignored :
  result (on_text cobalt_regex_search "a+?" "xaaa" generous) = inl (1, [Capture 1 4 3]) ∧
  result (on_text cobalt_regex_search "a+" "xaaa" generous) = inl (1, [Capture 1 4 3]) ∧
  ∃ r g sl, ref_parse 0 (chars "a+?") = Some (r, g) ∧ finds 0 (chars "xaaa") r 1 2 sl.
Proof.
  split_and!; [vm_compute; reflexivity..|]. exists (Quant (Char 97) 1 (-1) false), 0. eexists.
  split; [vm_compute; reflexivity|]. eapply finds_intro. exists 1%nat.
  split; [lia|]. split; [by left|]. econstructor; [find_char|constructor].
Qed.

(** Back references lose matches: a reference to an empty group is only
    followed when a character is left to read, and following it marks the
    instructions behind it as reached at the next position already, so that a
    thread that does get there is dropped. *)
Theorem backreference_loses_matches :
  result (on_text cobalt_regex_match_exact "(a?)b\1" "b" generous) = inl (0, []) ∧
  (∃ r g sl, ref_parse 0 (chars "(a?)b\1") = Some (r, g) ∧ finds 0 (chars "b") r 0 1 sl) ∧
  result (on_text cobalt_regex_match_exact "(?:()\1|a)b" "ab" generous) = inl (0, []) ∧
  (∃ r g sl, ref_parse 0 (chars "(?:()\1|a)b") = Some (r, g) ∧ finds 0 (chars "ab") r 0 2 sl).
Proof.
  split_and!; [vm_compute; reflexivity| |vm_compute; reflexivity|].
  - exists (Concat (Concat (Group (Quant (Char 97) 0 1 true) 1) (Char 98)) (Backref 1)), 1. eexists.
    split; [vm_compute; reflexivity|]. eapply finds_intro.
    eexists. split; [eexists; split|].
    + eexists. split; [|reflexivity]. exists 0%nat. split; [lia|]. split; [right; lia|constructor].
    + find_char.
    + exists 0, 0. split_and!; [reflexivity|reflexivity|done|done|lia| |reflexivity]. intros k Hk. lia.
  - exists (Concat (Alt (Concat (Group Empty 1) (Backref 1)) (Char 97)) (Char 98)), 1. eexists.
    split; [vm_compute; reflexivity|]. eapply finds_intro.
    eexists. split; [right; find_char|find_char].
Qed.

(** When the first block for instructions is refused, compiling writes
    through the null pointer instead of reporting that memory has run out. *)
Theorem compile_writes_null :
  result (cobalt_regex_compile (Some (chars "a")) 0 (world0 (λ k _, (k =? 0)%nat))) = inr NullDeref.
Proof. vm_compute. reflexivity. Qed.
End RegexTexts.
