(* ===== verification/ShmRing.v ===== *)
(** * The shared-memory rings of src/src/container/shm_ring.c

    The calls of the single-producer single-consumer ring are trees of accesses
    to the shared memory, one node per access, so that two processes can
    interleave between any two of them.  The memory is a list of bytes behind
    the region's header; frame headers are stored little-endian. *)
From S2P Require Import Prelude World TicketRing TicketRingInv.

Module ShmRing.

Definition COBALT_SHM_MAGIC : Z := 0x434F425F53484D31.
Definition COBALT_SHM_VERSION : Z := 1.
Inductive cobalt_shm_mode : Set := COBALT_SHM_MODE_UNKNOWN | COBALT_SHM_MODE_SPSC | COBALT_SHM_MODE_MPMC.
#[export] Instance shm_mode_eq_dec : EqDecision cobalt_shm_mode.
Proof. solve_decision. Defined.
Definition COBALT_SHM_FRAME_NORMAL : Z := 0.
Definition COBALT_SHM_FRAME_WRAP : Z := 1.
Definition COBALT_SHM_ALIGN : Z := 8.

Definition sizeof_frame : Z := 8.
Definition sizeof_header : Z := 320.
Definition sizeof_slot : Z := 16.
Definition sizeof_spsc : Z := 72.
Definition sizeof_mpmc : Z := 48.

(** [ALIGN_UP(x, a)] for [size_t] *)
Definition ALIGN_UP (x a : Z) : Z := Z.land (wrap64 (x + a - 1)) (wrap64 (Z.lnot (a - 1))).

(** [cobalt_shm_frame_t] *)
Record frame := Frame { f_length : Z; f_type : Z; f_flags : Z }.

(** The fixed part of [cobalt_shm_header_t]; the cursors are shared memory. *)
Record header := Header {
  magic : Z; version : Z; mode : cobalt_shm_mode; total_shm_size : Z; hdr_capacity : Z; hdr_slot_size : Z; creator_pid : Z }.

(** ** Bytes *)

Fixpoint le_bytes (n : nat) (z : Z) : list Z :=
  match n with O => [] | S n => z mod 256 :: le_bytes n (z / 256) end.
Fixpoint le_value (bs : list Z) : Z :=
  match bs with [] => 0 | b :: bs => b + 256 * le_value bs end.

Definition encode (f : frame) : list Z := le_bytes 4 (f_length f) ++ le_bytes 2 (f_type f) ++ le_bytes 2 (f_flags f).
Definition decode (bs : list Z) : frame :=
  Frame (le_value (take 4 bs)) (le_value (take 2 (drop 4 bs))) (le_value (take 2 (drop 6 bs))).

Definition slice (m : list Z) (off n : Z) : list Z := take (Z.to_nat n) (drop (Z.to_nat off) m).
Definition splice (m : list Z) (off : Z) (bs : list Z) : list Z :=
  take (Z.to_nat off) m ++ bs ++ drop (Z.to_nat off + length bs) m.

Definition inside (m : list Z) (off n : Z) : bool := (0 <=? off) && (off + n <=? Z.of_nat (length m)).

(** A frame header in the buffer; [None] outside of it. *)
Definition get_frame (m : list Z) (off : Z) : option frame :=
  if inside m off sizeof_frame then Some (decode (slice m off sizeof_frame)) else None.
Definition put_frame (m : list Z) (off : Z) (f : frame) : option (list Z) :=
  if inside m off sizeof_frame then Some (splice m off (encode f)) else None.

(** ** Calls as trees of accesses *)

Inductive cursor : Set := Write | Read.
#[export] Instance cursor_eq_dec : EqDecision cursor.
Proof. solve_decision. Defined.

Inductive prog (A : Type) : Type :=
  | PRet (a : A)
  | PLoad (c : cursor) (k : Z → prog A)
  | PStore (c : cursor) (v : Z) (k : prog A)
  | PGet (off : Z) (k : frame → prog A)
  | PPut (off : Z) (f : frame) (k : prog A).
Arguments PRet {A} a.
Arguments PLoad {A} c k.
Arguments PStore {A} c v k.
Arguments PGet {A} off k.
Arguments PPut {A} off f k.

(** ** The handle: [struct cobalt_shm_spsc] *)

Record cobalt_shm_spsc := Spsc {
  capacity : Z;
  mask : Z;
  reserved_len : Z;
  reserved_write_pos : Z;
  is_reserved : bool;
  peeked_frame_len : Z;
  is_peeked : bool
}.
Abbreviation handle := cobalt_shm_spsc.

Definition fresh_handle (cap : Z) : handle := Spsc cap (cap - 1) 0 0 false 0 false.

(** [(x & (x - 1)) != 0] *)
Definition not_pow2 (x : Z) : bool := negb (Z.land x (wrap64 (x - 1)) =? 0).

(** The shared region: its header, the two cursors and the bytes behind the
    header. *)
Record shm := Shm { hdr : header; wcur : Z; rcur : Z; buffer : list Z }.

Definition bad_address (shm_addr : Z) : bool := (shm_addr =? NULL) || negb (shm_addr mod 64 =? 0).

(** [out_spsc] tells whether the pointer to the result is not NULL, [granted]
    whether [calloc] finds memory; [bytes] is what the region holds behind the
    header. *)
Definition cobalt_shm_spsc_init (shm_addr total_size cap : Z) (out_spsc granted : bool) (pid : Z) (bytes : list Z)
    : cobalt_error * option (shm * handle) :=
  if bad_address shm_addr || negb out_spsc || (cap =? 0) || not_pow2 cap then (COBALT_ERROR_INVALID_ARGUMENT, None)
  else if total_size <? wrap64 (sizeof_header + cap) then (COBALT_ERROR_INVALID_ARGUMENT, None)
  else if negb granted then (COBALT_ERROR_OUT_OF_MEMORY, None)
  else
    let h := Header COBALT_SHM_MAGIC COBALT_SHM_VERSION COBALT_SHM_MODE_SPSC total_size cap 0 pid in
    (COBALT_SUCCESS, Some (Shm h 0 0 bytes, fresh_handle cap)).

Definition cobalt_shm_spsc_attach (shm_addr total_size : Z) (out_spsc granted : bool) (r : shm) : cobalt_error * option handle :=
  if bad_address shm_addr || negb out_spsc || (total_size <? sizeof_header) then (COBALT_ERROR_INVALID_ARGUMENT, None)
  else if negb (magic (hdr r) =? COBALT_SHM_MAGIC) || negb (version (hdr r) =? COBALT_SHM_VERSION)
          || negb (bool_decide (mode (hdr r) = COBALT_SHM_MODE_SPSC)) then (COBALT_ERROR_INVALID_ARGUMENT, None)
  else if (hdr_capacity (hdr r) =? 0) || not_pow2 (hdr_capacity (hdr r)) then (COBALT_ERROR_INVALID_ARGUMENT, None)
  else if total_size <? wrap64 (sizeof_header + hdr_capacity (hdr r)) then (COBALT_ERROR_INVALID_ARGUMENT, None)
  else if negb granted then (COBALT_ERROR_OUT_OF_MEMORY, None)
  else (COBALT_SUCCESS, Some (fresh_handle (hdr_capacity (hdr r)))).

(** ** The producer *)

(** A message in the buffer: where its payload is, its type and length. *)
Record view := View { ptr : Z; vtype : Z; vlen : Z }.

(** The code that is returned, the pointer and numbers stored through the other
    arguments, and the handle afterwards. *)
Abbreviation answer := (cobalt_error * option view * option handle)%type.
Definition fails (code : cobalt_error) (spsc : handle) : answer := (code, None, Some spsc).
Definition null_handle : prog answer := PRet (COBALT_ERROR_INVALID_ARGUMENT, None, None).

Definition set_reserved (spsc : handle) (len pos : Z) : handle :=
  Spsc (capacity spsc) (mask spsc) len pos true (peeked_frame_len spsc) (is_peeked spsc).
Definition clear_reserved (spsc : handle) : handle :=
  Spsc (capacity spsc) (mask spsc) (reserved_len spsc) (reserved_write_pos spsc) false (peeked_frame_len spsc) (is_peeked spsc).
Definition set_peeked (spsc : handle) (n : Z) : handle :=
  Spsc (capacity spsc) (mask spsc) (reserved_len spsc) (reserved_write_pos spsc) (is_reserved spsc) n true.
Definition clear_peeked (spsc : handle) : handle :=
  Spsc (capacity spsc) (mask spsc) (reserved_len spsc) (reserved_write_pos spsc) (is_reserved spsc) (peeked_frame_len spsc) false.

Definition frame_bytes (len : Z) : Z := ALIGN_UP (sizeof_frame + len) COBALT_SHM_ALIGN.

(** The last test of [reserve]: room at [write_pos], which is at [offset]. *)
Definition reserve_at (spsc : handle) (len frame_size read_pos write_pos offset : Z) : answer :=
  let used := wrap64 (write_pos - read_pos) in
  if (capacity spsc <? used) || (capacity spsc - used <? frame_size) then fails COBALT_ERROR_QUEUE_FULL spsc
  else (COBALT_SUCCESS, Some (View (offset + sizeof_frame) 0 len), Some (set_reserved spsc len write_pos)).

(** [out_ptr] tells whether the pointer to the result is not NULL. *)
Definition cobalt_shm_spsc_reserve (spsc : option handle) (len : Z) (out_ptr : bool) : prog answer :=
  match spsc with
  | None => null_handle
  | Some spsc =>
      if negb out_ptr || is_reserved spsc then PRet (fails COBALT_ERROR_INVALID_ARGUMENT spsc)
      else if UINT32_MAX - sizeof_frame <? len then PRet (fails COBALT_ERROR_INVALID_ARGUMENT spsc)
      else
        let frame_size := frame_bytes len in
        if wrap64 (capacity spsc - sizeof_frame) <? frame_size then PRet (fails COBALT_ERROR_INVALID_ARGUMENT spsc)
        else
          PLoad Write (λ write_pos,
          PLoad Read (λ read_pos,
            let offset := Z.land write_pos (mask spsc) in
            let tail_space := capacity spsc - offset in
            if tail_space <? frame_size then
              let wrapped_write_pos := wrap64 (write_pos + tail_space) in
              let used := wrap64 (wrapped_write_pos - read_pos) in
              if capacity spsc <? used then PRet (fails COBALT_ERROR_QUEUE_FULL spsc)
              else if capacity spsc - used <? frame_size then PRet (fails COBALT_ERROR_QUEUE_FULL spsc)
              else
                let rest := PRet (reserve_at spsc len frame_size read_pos wrapped_write_pos 0) in
                if sizeof_frame <=? tail_space then
                  PPut offset (Frame (wrap32 (tail_space - sizeof_frame)) 0 COBALT_SHM_FRAME_WRAP) rest
                else rest
            else PRet (reserve_at spsc len frame_size read_pos write_pos offset)))
  end.

Definition cobalt_shm_spsc_commit (spsc : option handle) (msg_type len : Z) : prog answer :=
  match spsc with
  | None => null_handle
  | Some spsc =>
      if negb (is_reserved spsc) || (reserved_len spsc <? len) then PRet (fails COBALT_ERROR_INVALID_ARGUMENT spsc)
      else
        PPut (Z.land (reserved_write_pos spsc) (mask spsc)) (Frame (wrap32 len) msg_type COBALT_SHM_FRAME_NORMAL)
        (PStore Write (wrap64 (reserved_write_pos spsc + frame_bytes len))
        (PRet (COBALT_SUCCESS, None, Some (clear_reserved spsc))))
  end.

Definition cobalt_shm_spsc_cancel (spsc : option handle) : prog answer :=
  match spsc with
  | None => null_handle
  | Some spsc =>
      if negb (is_reserved spsc) then PRet (fails COBALT_ERROR_INVALID_ARGUMENT spsc)
      else PRet (COBALT_SUCCESS, None, Some (clear_reserved spsc))
  end.

(** ** The consumer *)

(** The rounds of [peek]: [wraps] more frames of padding may be skipped, so
    [wrap_count] is [1 - wraps]. *)
Fixpoint peek_rounds (spsc : handle) (wraps : nat) : prog answer :=
  PLoad Read (λ read_pos,
  PLoad Write (λ write_pos,
    if read_pos =? write_pos then PRet (fails COBALT_ERROR_EMPTY_CONTAINER spsc)
    else if write_pos <? read_pos then PRet (fails COBALT_ERROR_GENERAL spsc)
    else
      let offset := Z.land read_pos (mask spsc) in
      PGet offset (λ f,
        if negb (Z.land (f_flags f) COBALT_SHM_FRAME_WRAP =? 0) then
          if offset =? 0 then PRet (fails COBALT_ERROR_GENERAL spsc)
          else
            match wraps with
            | O => PRet (fails COBALT_ERROR_GENERAL spsc)
            | S wraps => PStore Read (wrap64 (read_pos + (capacity spsc - offset))) (peek_rounds spsc wraps)
            end
        else
          let unread := wrap64 (write_pos - read_pos) in
          let frame_size := frame_bytes (f_length f) in
          if (unread <? frame_size) || (capacity spsc <? offset + frame_size) then PRet (fails COBALT_ERROR_GENERAL spsc)
          else PRet (COBALT_SUCCESS, Some (View (offset + sizeof_frame) (f_type f) (f_length f)), Some (set_peeked spsc frame_size))))).

Definition cobalt_shm_spsc_peek (spsc : option handle) (out_ptr : bool) : prog answer :=
  match spsc with
  | None => null_handle
  | Some spsc =>
      if negb out_ptr then PRet (fails COBALT_ERROR_INVALID_ARGUMENT spsc) else peek_rounds spsc 1
  end.

Definition cobalt_shm_spsc_consume (spsc : option handle) : prog answer :=
  match spsc with
  | None => null_handle
  | Some spsc =>
      if negb (is_peeked spsc) then PRet (fails COBALT_ERROR_INVALID_ARGUMENT spsc)
      else
        PLoad Read (λ read_pos,
        PStore Read (wrap64 (read_pos + peeked_frame_len spsc))
        (PRet (COBALT_SUCCESS, None, Some (clear_peeked spsc))))
  end.

Definition cobalt_shm_spsc_detach (spsc : option handle) : option handle := None.

(** ** A call that runs alone *)

Fixpoint run {A} (p : prog A) (r : shm) : option (A * shm) :=
  match p with
  | PRet a => Some (a, r)
  | PLoad c k => run (k (match c with Write => wcur r | Read => rcur r end)) r
  | PStore Write v k => run k (Shm (hdr r) v (rcur r) (buffer r))
  | PStore Read v k => run k (Shm (hdr r) (wcur r) v (buffer r))
  | PGet off k => match get_frame (buffer r) off with Some f => run (k f) r | None => None end
  | PPut off f k =>
      match put_frame (buffer r) off f with Some m => run k (Shm (hdr r) (wcur r) (rcur r) m) | None => None end
  end.
End ShmRing.

(** ** Two processes on one ring *)
Module SpscSystem.
Import ShmRing.

(** A message: its type and its payload. *)
Record msg := Msg { m_type : Z; m_body : list Z }.

(** The shared bytes and cursors, the values each cursor has had, and what was
    committed and consumed so far. *)
Record state := State {
  mem : list Z;
  W : Z;
  R : Z;
  whist : list Z;
  rhist : list Z;
  sent : list msg;
  received : list msg
}.

Definition with_mem (s : state) (m : list Z) : state := State m (W s) (R s) (whist s) (rhist s) (sent s) (received s).
Definition with_write (s : state) (v : Z) (gs : list msg) : state :=
  State (mem s) v (R s) (whist s ++ [v]) (rhist s) (sent s ++ gs) (received s).
Definition with_read (s : state) (v : Z) (gs : list msg) : state :=
  State (mem s) (W s) v (whist s) (rhist s ++ [v]) (sent s) (received s ++ gs).

Definition cur (c : cursor) (s : state) : Z := match c with Write => W s | Read => R s end.
Definition hist (c : cursor) (s : state) : list Z := match c with Write => whist s | Read => rhist s end.

Inductive call : Type :=
  | CReserve (len : Z) | CCommit (msg_type len : Z) | CCancel
  | CPeek | CConsume.

Definition body (c : call) (h : handle) : prog answer :=
  match c with
  | CReserve len => cobalt_shm_spsc_reserve (Some h) len true
  | CCommit t len => cobalt_shm_spsc_commit (Some h) t len
  | CCancel => cobalt_shm_spsc_cancel (Some h)
  | CPeek => cobalt_shm_spsc_peek (Some h) true
  | CConsume => cobalt_shm_spsc_consume (Some h)
  end.

(** The calls of the two sides, with arguments of their C types. *)
Definition producer_call (c : call) : Prop :=
  match c with
  | CReserve len => 0 ≤ len
  | CCommit t len => 0 ≤ t < 2 ^ 16 ∧ 0 ≤ len
  | CCancel => True
  | _ => False
  end.
Definition consumer_call (c : call) : Prop := match c with CPeek | CConsume => True | _ => False end.

(** A process: its handle, the call it is in, the last value it saw of the other
    side's cursor, and the view a successful [reserve] or [peek] gave it. *)
Record thread := Thread {
  hand : handle;
  running : option (call * prog answer);
  seen : Z;
  held : option view
}.

(** The store that ends a commit publishes the message at the reservation; the
    one that ends a consume drops the message of the view. *)
Definition emit_write (h : handle) (c : call) (v : Z) (s : state) : state :=
  with_write s v
    match c with
    | CCommit t len => [Msg t (slice (mem s) (Z.land (reserved_write_pos h) (mask h) + sizeof_frame) len)]
    | _ => []
    end.
Definition emit_read (vw : option view) (c : call) (v : Z) (s : state) : state :=
  with_read s v
    match c, vw with
    | CConsume, Some vw => [Msg (vtype vw) (slice (mem s) (ptr vw) (vlen vw))]
    | _, _ => []
    end.

(** One access.  The own cursor is read exactly; of the other one any value it
    has had may be read that is not older than what was seen before. *)
Inductive act (own : cursor) (emit : Z → state → state) : state → Z → prog answer → state → Z → prog answer → Prop :=
  | act_own s n k : act own emit s n (PLoad own k) s n (k (cur own s))
  | act_load c s n k y : c ≠ own → y ∈ hist c s → n ≤ y → act own emit s n (PLoad c k) s y (k y)
  | act_store s n v k : act own emit s n (PStore own v k) (emit v s) n k
  | act_get s n off f k : get_frame (mem s) off = Some f → act own emit s n (PGet off k) s n (k f)
  | act_put s n off f m k : put_frame (mem s) off f = Some m → act own emit s n (PPut off f k) (with_mem s m) n k.

Record config := Config { shared : state; prod : thread; cons : thread }.

Definition starts (c : call) (t : thread) : thread := Thread (hand t) (Some (c, body c (hand t))) (seen t) (held t).
Definition goes (c : call) (t : thread) (p : prog answer) (n : Z) : thread := Thread (hand t) (Some (c, p)) n (held t).
Definition returns (t : thread) (code : cobalt_error) (vw : option view) (h : handle) : thread :=
  Thread h None (seen t) (if decide (code = COBALT_SUCCESS) then vw else held t).

(** What a step shows: the result of a call. *)
Abbreviation label := (option (call * cobalt_error)).

Inductive step : config → label → config → Prop :=
  | producer_starts s p q c : running p = None → producer_call c → step (Config s p q) None (Config s (starts c p) q)
  | producer_fills s p q vw j b : running p = None → held p = Some vw → 0 ≤ j < vlen vw →
      step (Config s p q) None (Config (with_mem s (splice (mem s) (ptr vw + j) [b])) p q)
  | producer_acts s p q c x s' n' x' : running p = Some (c, x) →
      act Write (emit_write (hand p) c) s (seen p) x s' n' x' → step (Config s p q) None (Config s' (goes c p x' n') q)
  | producer_returns s p q c code vw h : running p = Some (c, PRet (code, vw, Some h)) →
      step (Config s p q) (Some (c, code)) (Config s (returns p code vw h) q)
  | consumer_starts s p q c : running q = None → consumer_call c → step (Config s p q) None (Config s p (starts c q))
  | consumer_acts s p q c x s' n' x' : running q = Some (c, x) →
      act Read (emit_read (held q) c) s (seen q) x s' n' x' → step (Config s p q) None (Config s' p (goes c q x' n'))
  | consumer_returns s p q c code vw h : running q = Some (c, PRet (code, vw, Some h)) →
      step (Config s p q) (Some (c, code)) (Config s p (returns q code vw h)).

(** The executions considered write less than 2^62 bytes in all. *)
Definition small (s : state) : Prop := W s < 2 ^ 62.

Inductive reach (c0 : config) : list (call * cobalt_error) → config → Prop :=
  | reach_refl : reach c0 [] c0
  | reach_step tr c l c' : reach c0 tr c → step c l c' → small (shared c') → reach c0 (tr ++ option_list l) c'.

(** After [init] and [attach]: the bytes are whatever the region held. *)
Definition initial (cap : Z) (bytes : list Z) : config :=
  Config (State bytes 0 0 [0] [0] [] [])
    (Thread (fresh_handle cap) None 0 None) (Thread (fresh_handle cap) None 0 None).
End SpscSystem.

(** ** The invariant of the ring *)
Module SpscInv.
Import ShmRing SpscSystem.

(** *** Bytes *)

Lemma length_le_bytes n z : length (le_bytes n z) = n.
Proof. revert z. induction n as [|n IH]; intros z; simpl; [done|]. by rewrite IH. Qed.

Lemma le_value_bytes n z : 0 ≤ z < 256 ^ Z.of_nat n → le_value (le_bytes n z) = z.
Proof.
  revert z. induction n as [|n IH]; intros z Hz; cbn [le_bytes le_value]; [simpl in Hz; lia|].
  rewrite Nat2Z.inj_succ, Z.pow_succ_r in Hz by lia. pose proof (Z.div_mod z 256 ltac:(lia)).
  pose proof (Z.mod_pos_bound z 256 ltac:(lia)). rewrite IH; [lia|]. split; [apply Z.div_pos; lia|].
  apply Z.div_lt_upper_bound; lia.
Qed.

Definition frame_ok (f : frame) : Prop := 0 ≤ f_length f < 2 ^ 32 ∧ 0 ≤ f_type f < 2 ^ 16 ∧ 0 ≤ f_flags f < 2 ^ 16.

Lemma length_encode f : length (encode f) = 8%nat.
Proof. unfold encode. by rewrite !length_app, !length_le_bytes. Qed.

Lemma decode_encode f : frame_ok f → decode (encode f) = f.
Proof.
  intros (Hl & Ht & Hf). unfold decode, encode.
  rewrite take_app_length' by (by rewrite length_le_bytes).
  rewrite drop_app_length' by (by rewrite length_le_bytes).
  rewrite take_app_length' by (by rewrite length_le_bytes).
  rewrite app_assoc, drop_app_length' by (by rewrite length_app, !length_le_bytes).
  rewrite take_ge by (by rewrite length_le_bytes).
  rewrite !le_value_bytes by (simpl; lia). by destruct f.
Qed.

Lemma length_splice m off bs : 0 ≤ off → off + Z.of_nat (length bs) ≤ Z.of_nat (length m) → length (splice m off bs) = length m.
Proof. intros. unfold splice. rewrite !length_app, length_take, length_drop. lia. Qed.

(** A slice that a write does not touch. *)
Lemma slice_splice_ne m off bs o n : 0 ≤ off → 0 ≤ o → 0 ≤ n → off + Z.of_nat (length bs) ≤ Z.of_nat (length m) →
  o + n ≤ off ∨ off + Z.of_nat (length bs) ≤ o → slice (splice m off bs) o n = slice m o n.
Proof.
  intros Hoff Ho Hn Hm Hd. unfold slice, splice. apply list_eq. intros i.
  destruct (decide (i < Z.to_nat n)%nat) as [Hi|Hi]; [|by rewrite !lookup_take_ge by lia].
  rewrite !lookup_take_lt, !lookup_drop by lia. destruct Hd as [Hd|Hd].
  - rewrite lookup_app_l by (rewrite length_take; lia). by rewrite lookup_take_lt by lia.
  - rewrite lookup_app_r by (rewrite length_take; lia). rewrite lookup_app_r by (rewrite length_take; lia).
    rewrite lookup_drop, !length_take. f_equal. lia.
Qed.

(** The slice that was written. *)
Lemma slice_splice_eq m off bs : 0 ≤ off → off + Z.of_nat (length bs) ≤ Z.of_nat (length m) →
  slice (splice m off bs) off (Z.of_nat (length bs)) = bs.
Proof.
  intros Hoff Hm. unfold slice, splice. rewrite Nat2Z.id. rewrite drop_app_length' by (rewrite length_take; lia).
  by rewrite take_app_length.
Qed.

Lemma slice_put m off f : 0 ≤ off → off + 8 ≤ Z.of_nat (length m) → slice (splice m off (encode f)) off 8 = encode f.
Proof.
  intros. pose proof (slice_splice_eq m off (encode f)) as E. rewrite length_encode in E. apply E; simpl; lia.
Qed.

Lemma length_slice m off n : 0 ≤ off → 0 ≤ n → off + n ≤ Z.of_nat (length m) → Z.of_nat (length (slice m off n)) = n.
Proof. intros. unfold slice. rewrite length_take, length_drop. lia. Qed.

(** *** Sizes *)

Definition pad (n : Z) : Z := (n + 7) / 8 * 8.

Lemma pad_bounds n : n ≤ pad n < n + 8.
Proof. unfold pad. pose proof (Z.div_mod (n + 7) 8 ltac:(lia)). pose proof (Z.mod_pos_bound (n + 7) 8 ltac:(lia)). lia. Qed.

Lemma pad_divide n : (8 | pad n).
Proof. unfold pad. apply Z.divide_factor_r. Qed.

Lemma pad_mono a b : a ≤ b → pad a ≤ pad b.
Proof. intros. unfold pad. apply Z.mul_le_mono_nonneg_r; [lia|]. apply Z.div_le_mono; lia. Qed.

Lemma frame_bytes_pad n : 0 ≤ n < 2 ^ 62 → frame_bytes n = pad (8 + n).
Proof.
  intros Hn. unfold frame_bytes, ALIGN_UP, COBALT_SHM_ALIGN, sizeof_frame, pad. rewrite wrap64_small by lia.
  replace (8 + n + 8 - 1) with (8 + n + 7) by lia. set (x := 8 + n + 7).
  change (wrap64 (Z.lnot (8 - 1))) with (2 ^ 64 - 8).
  apply Z.bits_inj'. intros i Hi. rewrite Z.land_spec.
  change 8 with (2 ^ 3) at 2 3. rewrite <- Z.shiftr_div_pow2, <- Z.shiftl_mul_pow2 by lia.
  replace (2 ^ 64 - 8) with (Z.shiftl (Z.ones 61) 3) by reflexivity.
  rewrite !Z.shiftl_spec by lia. destruct (Z.ltb_spec i 3).
  - rewrite !(Z.testbit_neg_r _ (i - 3)) by lia. by rewrite andb_false_r.
  - rewrite Z.shiftr_spec by lia. replace (i - 3 + 3) with i by lia.
    destruct (Z.ltb_spec (i - 3) 61).
    + rewrite Z.ones_spec_low by lia. by rewrite andb_true_r.
    + rewrite Z.ones_spec_high by lia. rewrite andb_false_r. symmetry. apply Z.bits_above_log2; [lia|].
      apply Z.log2_lt_pow2; [lia|]. apply Z.lt_le_trans with (2 ^ 63); [lia|]. apply Z.pow_le_mono_r; lia.
Qed.

(** *** Packets

    What is between the cursors: messages, each of which may follow a frame of
    padding up to the end of the buffer. *)
Section ring.
Variable k : Z.
Hypothesis Hk : 3 ≤ k ≤ 60.
Abbreviation C := (2 ^ k).

Lemma C_range : 8 ≤ C ≤ 2 ^ 60 ∧ (8 | C).
Proof.
  split; [split; [change 8 with (2 ^ 3)|]; apply Z.pow_le_mono_r; lia|].
  exists (2 ^ (k - 3)). change 8 with (2 ^ 3). rewrite <- Z.pow_add_r by lia. f_equal. lia.
Qed.

Lemma land_offset pos : Z.land pos (C - 1) = pos mod C.
Proof. replace (C - 1) with (Z.ones k) by (rewrite Z.ones_equiv; lia). by rewrite Z.land_ones by lia. Qed.

Lemma offset_range pos : 0 ≤ pos mod C < C.
Proof. pose proof C_range. apply Z.mod_pos_bound. lia. Qed.

Definition start (pos : Z) (b : bool) : Z := if b then pos + (C - pos mod C) else pos.
#[local] Arguments start : simpl never.

Lemma start_bounds pos b : pos ≤ start pos b ≤ pos + C.
Proof. pose proof (offset_range pos). unfold start. destruct b; lia. Qed.

Lemma start_offset pos : start pos true mod C = 0.
Proof.
  unfold start. pose proof C_range. pose proof (Z.div_mod pos C ltac:(lia)) as E.
  replace (pos + (C - pos mod C)) with ((pos / C + 1) * C) by nia. apply Z.mod_mul. lia.
Qed.

Lemma start_divide pos b : (8 | pos) → (8 | start pos b).
Proof.
  intros Hp. destruct b; [|done]. pose proof C_range as [HC Hd]. pose proof (start_offset pos) as E.
  apply Z.mod_divide in E; [|lia]. by etrans.
Qed.

Definition msize (g : msg) : Z := pad (8 + Z.of_nat (length (m_body g))).
Definition gframe (g : msg) : frame := Frame (Z.of_nat (length (m_body g))) (m_type g) COBALT_SHM_FRAME_NORMAL.

Definition wrap_at (m : list Z) (pos : Z) : Prop :=
  pos mod C ≠ 0 ∧ pos mod C + 8 ≤ C ∧
  ∃ n, 0 ≤ n < 2 ^ 32 ∧ slice m (pos mod C) 8 = encode (Frame n 0 COBALT_SHM_FRAME_WRAP).

Record msg_at (m : list Z) (pos : Z) (g : msg) : Prop := {
  ma_ok : frame_ok (gframe g);
  ma_fits : pos mod C + msize g ≤ C;
  ma_frame : slice m (pos mod C) 8 = encode (gframe g);
  ma_body : slice m (pos mod C + 8) (Z.of_nat (length (m_body g))) = m_body g
}.

Abbreviation packet := (bool * msg)%type.

Fixpoint layout (m : list Z) (pos : Z) (pks : list packet) (e : Z) : Prop :=
  match pks with
  | [] => pos = e
  | (b, g) :: pks => (b = true → wrap_at m pos) ∧ msg_at m (start pos b) g ∧ layout m (start pos b + msize g) pks e
  end.

Fixpoint ends (pos : Z) (pks : list packet) : list Z :=
  match pks with
  | [] => []
  | (b, g) :: pks => (start pos b + msize g) :: ends (start pos b + msize g) pks
  end.

Lemma msize_bounds g : 8 + Z.of_nat (length (m_body g)) ≤ msize g < 16 + Z.of_nat (length (m_body g)).
Proof. unfold msize. pose proof (pad_bounds (8 + Z.of_nat (length (m_body g)))). lia. Qed.

Lemma layout_le m pks : ∀ pos e, layout m pos pks e → pos ≤ e.
Proof.
  induction pks as [|[b g] pks IH]; intros pos e; simpl; [lia|]. intros (_ & _ & Hl). apply IH in Hl.
  pose proof (start_bounds pos b). pose proof (msize_bounds g). lia.
Qed.

Lemma ends_gt m pks : ∀ pos e y, layout m pos pks e → y ∈ ends pos pks → pos + 8 ≤ y ≤ e.
Proof.
  induction pks as [|[b g] pks IH]; intros pos e y; simpl; [intros _ H; by apply elem_of_nil in H|].
  intros (_ & _ & Hl) Hy. pose proof (start_bounds pos b). pose proof (msize_bounds g). pose proof (layout_le _ _ _ _ Hl).
  apply elem_of_cons in Hy as [->|Hy]; [lia|]. apply (IH _ e) in Hy; [lia|done].
Qed.

(** Two stretches of the stream less than a lap apart are disjoint in memory. *)
Lemma stretches_disjoint a n b m r : r ≤ a → 0 ≤ n → a + n ≤ b → 0 ≤ m → b + m ≤ r + C →
  a mod C + n ≤ b mod C ∨ b mod C + m ≤ a mod C.
Proof.
  intros Hr Hn Hab Hm Hb. pose proof C_range. pose proof (offset_range a). pose proof (offset_range b).
  pose proof (Z.div_mod a C ltac:(lia)) as Ea. pose proof (Z.div_mod b C ltac:(lia)) as Eb.
  set (qa := a / C) in *. set (qb := b / C) in *.
  assert (qb = qa ∨ qb = qa + 1) as [->| ->]; [|left; lia|right; lia].
  assert (qa ≤ qb) by (apply Z.div_le_mono; lia). assert (qb < qa + 2) by nia. lia.
Qed.

(** Writing at a stretch behind the packets. *)
Lemma layout_splice m q bs r pks : ∀ pos e, layout m pos pks e → C ≤ Z.of_nat (length m) →
  r ≤ pos → e ≤ q → q + Z.of_nat (length bs) ≤ r + C → q mod C + Z.of_nat (length bs) ≤ C →
  layout (splice m (q mod C) bs) pos pks e.
Proof.
  induction pks as [|[b g] pks IH]; intros pos e Hl Hm Hr He Hq Hqm; simpl in *; [done|].
  destruct Hl as (Hw & Hg & Hl). pose proof (layout_le _ _ _ _ Hl) as Hle. pose proof (start_bounds pos b) as Hs.
  pose proof (msize_bounds g) as Hsz. pose proof (offset_range q) as Hoq.
  assert (∀ o n, 0 ≤ n → r ≤ o → o + n ≤ e → slice (splice m (q mod C) bs) (o mod C) n = slice m (o mod C) n) as Hkeep.
  { intros o n Hn Ho Hoe. pose proof (offset_range o). apply slice_splice_ne; try lia.
    destruct (stretches_disjoint o n q (Z.of_nat (length bs)) r); lia. }
  split_and!; [| |apply IH; try done; lia].
  - intros ->. destruct (Hw eq_refl) as (H0 & H8 & n & Hn & E). split_and!; [done|done|]. exists n. split; [done|].
    rewrite Hkeep; [done|lia|lia|]. lia.
  - destruct Hg as [H1 H2 H3 H4]. pose proof (offset_range (start pos b)) as Hos. split; [done|done|rewrite Hkeep; [done|lia..]|].
    set (p := start pos b) in *. set (n := Z.of_nat (length (m_body g))) in *.
    destruct (decide (n = 0)) as [E|Hn0]; [unfold n in E; destruct (m_body g); [done|simpl in E; lia]|].
    assert ((p + 8) mod C = p mod C + 8) as E8.
    { rewrite Z.add_mod by lia. rewrite (Z.mod_small 8) by lia. apply Z.mod_small. lia. }
    rewrite <- E8, Hkeep, E8; [done|lia..].
Qed.

Lemma layout_app m pks : ∀ pos e pks' e', layout m pos pks e → layout m e pks' e' → layout m pos (pks ++ pks') e'.
Proof.
  induction pks as [|[b g] pks IH]; intros pos e pks' e' Hl Hl'; simpl in *; [by subst|].
  destruct Hl as (? & ? & ?). split_and!; [done|done|]. by eapply IH.
Qed.

Lemma ends_app m pks : ∀ pos e pks', layout m pos pks e → ends pos (pks ++ pks') = ends pos pks ++ ends e pks'.
Proof.
  induction pks as [|[b g] pks IH]; intros pos e pks' Hl; simpl in *; [by subst|].
  destruct Hl as (? & ? & ?). f_equal. by apply IH.
Qed.

(** *** The invariant *)

Record G (s : state) (pks : list packet) : Prop := {
  g_mem : C ≤ Z.of_nat (length (mem s));
  g_cur : 0 ≤ R s ≤ W s ∧ W s ≤ R s + C;
  g_small : small s;
  g_div : (8 | R s) ∧ (8 | W s);
  g_lay : layout (mem s) (R s) pks (W s);
  g_msgs : sent s = received s ++ (snd <$> pks);
  g_wh y : y ∈ whist s → y ≤ W s ∧ (R s ≤ y → y ∈ R s :: ends (R s) pks);
  g_rh y : y ∈ rhist s → 0 ≤ y ≤ R s;
  g_last : W s ∈ whist s ∧ R s ∈ rhist s
}.

(** A write behind the write cursor and before the read cursor's next lap. *)
Lemma G_free s pks q bs : G s pks → W s ≤ q → q + Z.of_nat (length bs) ≤ R s + C →
  q mod C + Z.of_nat (length bs) ≤ C → G (with_mem s (splice (mem s) (q mod C) bs)) pks.
Proof.
  intros [Hm Hc Hsm Hd Hl Hms Hw Hr Hla] Hq Hqr Hqm. pose proof (offset_range q). split; try done; simpl.
  - by rewrite length_splice by lia.
  - eapply layout_splice; try done; lia.
Qed.

Lemma G_publish s pks b g : G s pks → (b = true → wrap_at (mem s) (W s)) → msg_at (mem s) (start (W s) b) g →
  start (W s) b + msize g ≤ R s + C → small (with_write s (start (W s) b + msize g) [g]) →
  G (with_write s (start (W s) b + msize g) [g]) (pks ++ [(b, g)]).
Proof.
  intros [Hm Hc Hsm [Hd1 Hd2] Hl Hms Hw Hr [Hla1 Hla2]] Hb Hg Hfit Hsm'. pose proof (start_bounds (W s) b). pose proof (msize_bounds g).
  split; simpl; try done; try lia.
  - split; [done|]. apply Z.divide_add_r; [by apply start_divide|apply pad_divide].
  - eapply layout_app; [done|]. simpl. by split_and!.
  - by rewrite fmap_app, app_assoc, Hms.
  - intros y [Hy|Hy]%elem_of_app.
    + destruct (Hw y Hy) as [Hle Hin]. split; [lia|]. intros Hry. rewrite (ends_app _ _ _ _ _ Hl). specialize (Hin Hry).
      apply elem_of_cons in Hin as [->|Hin]; [apply elem_of_cons; by left|].
      apply elem_of_cons. right. apply elem_of_app. by left.
    + apply list_elem_of_singleton in Hy as ->. split; [lia|]. intros _. rewrite (ends_app _ _ _ _ _ Hl).
      apply elem_of_cons. right. apply elem_of_app. right. apply elem_of_cons. by left.
  - split; [set_solver|done].
Qed.

Lemma G_skip s pks g : G s ((true, g) :: pks) → G (with_read s (start (R s) true) []) ((false, g) :: pks).
Proof.
  intros [Hm Hc Hsm [Hd1 Hd2] Hl Hms Hw Hr [Hla1 Hla2]]. simpl in Hl. destruct Hl as (Hwr & Hg & Hl).
  pose proof (start_bounds (R s) true). pose proof (offset_range (R s)). pose proof (layout_le _ _ _ _ Hl). pose proof (msize_bounds g).
  split; simpl; try done; try lia.
  - split; [by apply start_divide|done].
  - by rewrite app_nil_r.
  - intros y Hy. destruct (Hw y Hy) as [Hle Hin]. split; [done|]. intros Hry.
    assert (R s < start (R s) true) by (unfold start; lia). specialize (Hin ltac:(lia)). simpl in Hin.
    apply elem_of_cons in Hin as [->|Hin]; [lia|]. apply elem_of_cons. by right.
  - intros y [Hy|Hy]%elem_of_app; [apply Hr in Hy; lia|]. apply list_elem_of_singleton in Hy as ->. lia.
  - split; [done|set_solver].
Qed.

Lemma G_drop s pks g : G s ((false, g) :: pks) → G (with_read s (R s + msize g) [g]) pks.
Proof.
  intros [Hm Hc Hsm [Hd1 Hd2] Hl Hms Hw Hr [Hla1 Hla2]]. simpl in Hl. destruct Hl as (Hwr & Hg & Hl). change (start (R s) false) with (R s) in *.
  pose proof (layout_le _ _ _ _ Hl). pose proof (msize_bounds g).
  split; simpl; try done; try lia.
  - split; [apply Z.divide_add_r; [done|apply pad_divide]|done].
  - rewrite Hms. simpl. by rewrite <- app_assoc.
  - intros y Hy. destruct (Hw y Hy) as [Hle Hin]. split; [done|]. intros Hry. specialize (Hin ltac:(lia)). simpl in Hin.
    apply elem_of_cons in Hin as [->|Hin]; [lia|]. done.
  - intros y [Hy|Hy]%elem_of_app; [apply Hr in Hy; lia|]. apply list_elem_of_singleton in Hy as ->. lia.
  - split; [done|set_solver].
Qed.

(** *** One side while the other one moves *)

Definition Inv (s : state) : Prop := ∃ pks, G s pks.

(** What the consumer may do, as the producer sees it, and the other way
    round. *)
Definition relP (s s' : state) : Prop := mem s' = mem s ∧ W s' = W s ∧ R s ≤ R s'.
Definition relC (s s' : state) : Prop := R s' = R s ∧ ∀ pks, G s pks → ∃ t, G s' (pks ++ t).

#[export] Instance relP_refl : Reflexive relP.
Proof. intros s. by split_and!. Qed.
#[export] Instance relP_trans : Transitive relP.
Proof. intros s1 s2 s3 (E1 & E2 & ?) (E3 & E4 & ?). rewrite E1 in E3. rewrite E2 in E4. split_and!; [done|done|lia]. Qed.
#[export] Instance relC_refl : Reflexive relC.
Proof. intros s. split; [done|]. intros pks. exists []. by rewrite app_nil_r. Qed.
#[export] Instance relC_trans : Transitive relC.
Proof.
  intros s1 s2 s3 [E1 H1] [E2 H2]. split; [congruence|]. intros pks Hp.
  destruct (H1 _ Hp) as [t1 Ht1]. destruct (H2 _ Ht1) as [t2 Ht2]. exists (t1 ++ t2). by rewrite app_assoc.
Qed.

Section rwp.
Context (own : cursor) (Rely Guar : state → state → Prop) (emit : Z → state → state).
Context `{!Transitive Rely} `{!Reflexive Rely}.

(** The rest [p] of a call is safe from [s] when before each access the other
    side may move as [Rely] allows; its own writes keep [Guar]. *)
Fixpoint rwp (p : prog answer) (Q : answer → state → Z → Prop) (s : state) (n : Z) : Prop :=
  ∀ s', Rely s s' → Inv s' →
  match p with
  | PRet a => Q a s' n
  | PLoad c kont =>
      if decide (c = own) then rwp (kont (cur own s')) Q s' n
      else ∀ y, y ∈ hist c s' → n ≤ y → rwp (kont y) Q s' y
  | PStore c v kont =>
      c = own ∧ (small (emit v s') → Guar s' (emit v s') ∧ Inv (emit v s') ∧ rwp kont Q (emit v s') n)
  | PGet off kont => ∃ f, get_frame (mem s') off = Some f ∧ rwp (kont f) Q s' n
  | PPut off f kont =>
      ∃ m, put_frame (mem s') off f = Some m ∧ Guar s' (with_mem s' m) ∧ Inv (with_mem s' m) ∧ rwp kont Q (with_mem s' m) n
  end.

Lemma rwp_rely p Q s s' n : rwp p Q s n → Rely s s' → rwp p Q s' n.
Proof. intros Hp Hs. destruct p; intros s'' Hs'' HI; apply Hp; try done; by etrans. Qed.

(** What a step of the call leaves. *)
Lemma rwp_act p Q s n s' n' p' : rwp p Q s n → Inv s → act own emit s n p s' n' p' → small s' →
  (s' = s ∨ Guar s s') ∧ Inv s' ∧ rwp p' Q s' n'.
Proof.
  intros Hp HI Ha Hsm. destruct Ha as [s n kont|c s n kont y Hc Hy Hn|s n v kont|s n off f kont Hf|s n off f m kont Hf].
  - specialize (Hp s (reflexivity s) HI). simpl in Hp. rewrite decide_True in Hp by done. split_and!; [by left|done..].
  - specialize (Hp s (reflexivity s) HI). simpl in Hp. rewrite decide_False in Hp by done. split_and!; [by left|done|]. by apply Hp.
  - destruct (Hp s (reflexivity s) HI) as [_ H]. destruct (H Hsm) as (? & ? & ?). split_and!; [by right|done..].
  - destruct (Hp s (reflexivity s) HI) as (f' & Hf' & H). rewrite Hf in Hf'. injection Hf' as <-. split_and!; [by left|done..].
  - destruct (Hp s (reflexivity s) HI) as (m' & Hm' & ? & ? & H). rewrite Hf in Hm'. injection Hm' as <-.
    split_and!; [by right|done..].
Qed.

(** A call that has not returned can go on. *)
Lemma rwp_progress p Q s n : rwp p Q s n → Inv s → (∀ c, c ≠ own → ∃ y, y ∈ hist c s ∧ n ≤ y) →
  (∃ a, p = PRet a) ∨ ∃ s' n' p', act own emit s n p s' n' p'.
Proof.
  intros Hp HI Hy. destruct p as [a|c kont|c v kont|off kont|off f kont].
  - left. by exists a.
  - right. destruct (decide (c = own)) as [->|Hc]; [eexists _, _, _; by apply act_own|].
    destruct (Hy c Hc) as (y & Hin & Hle). eexists _, _, _. by eapply act_load.
  - right. destruct (Hp s (reflexivity s) HI) as [-> _]. eexists _, _, _. by apply act_store.
  - right. destruct (Hp s (reflexivity s) HI) as (f & Hf & _). eexists _, _, _. by eapply act_get.
  - right. destruct (Hp s (reflexivity s) HI) as (m & Hm & _). eexists _, _, _. by eapply act_put.
Qed.
End rwp.

(** *** The producer *)

(** The reservation of a handle: behind the write cursor, or behind padding that
    was written there, with room before the read cursor's next lap. *)
Definition reserved_at (h : handle) (vw : option view) (s : state) : Prop :=
  ∃ b, reserved_write_pos h = start (W s) b ∧ (b = true → wrap_at (mem s) (W s)) ∧
    0 ≤ reserved_len h < 2 ^ 32 - 8 ∧
    start (W s) b mod C + pad (8 + reserved_len h) ≤ C ∧ start (W s) b + pad (8 + reserved_len h) ≤ R s + C ∧
    vw = Some (View (start (W s) b mod C + 8) 0 (reserved_len h)).

Record PIdle (h : handle) (vw : option view) (s : state) : Prop := {
  pi_cap : capacity h = C ∧ mask h = C - 1;
  pi_res : if is_reserved h then reserved_at h vw s else vw = None
}.

Lemma PIdle_rely h vw s s' : PIdle h vw s → relP s s' → PIdle h vw s'.
Proof.
  intros [Hc Hr] (Em & Ew & Hle). split; [done|]. destruct (is_reserved h); [|done].
  destruct Hr as (b & H1 & H2 & H3 & H4 & H5 & H6). exists b. rewrite Em, Ew. split_and!; try done; lia.
Qed.

(** The result of a call of the producer. *)
Definition QP (vw : option view) (a : answer) (s : state) (n : Z) : Prop :=
  match a with
  | (code, vw', Some h) => code ≠ COBALT_ERROR_GENERAL ∧ PIdle h (if decide (code = COBALT_SUCCESS) then vw' else vw) s
  | _ => False
  end.

Abbreviation rwpP h c := (rwp Write relP relC (emit_write h c)).

Lemma rwpP_fails h c vw code s n : PIdle h vw s → code ≠ COBALT_SUCCESS → code ≠ COBALT_ERROR_GENERAL →
  rwpP h c (PRet (fails code h)) (QP vw) s n.
Proof. intros Hp H1 H2 s' Hs _. simpl. rewrite decide_False by done. split; [done|]. by eapply PIdle_rely. Qed.

Lemma offset_divide pos : (8 | pos) → (8 | pos mod C).
Proof.
  intros Hp. pose proof C_range as [HC Hd]. rewrite Z.mod_eq by lia. apply Z.divide_sub_r; [done|]. by apply Z.divide_mul_l.
Qed.

Lemma put_ok m off f : C ≤ Z.of_nat (length m) → 0 ≤ off → off + 8 ≤ C → put_frame m off f = Some (splice m off (encode f)).
Proof.
  intros. unfold put_frame, inside, sizeof_frame. by rewrite (proj2 (Z.leb_le _ _)), (proj2 (Z.leb_le _ _)) by lia.
Qed.

Lemma relC_free s q bs : W s ≤ q → q + Z.of_nat (length bs) ≤ R s + C → q mod C + Z.of_nat (length bs) ≤ C →
  relC s (with_mem s (splice (mem s) (q mod C) bs)).
Proof. intros. split; [done|]. intros pks Hp. exists []. rewrite app_nil_r. by apply G_free. Qed.

Lemma relC_inv s s' : Inv s → relC s s' → Inv s'.
Proof. intros [pks Hp] [_ H]. destruct (H _ Hp) as [t Ht]. by eexists. Qed.

Lemma reserve_rwp h len vw s n : PIdle h vw s → 0 ≤ len →
  rwpP h (CReserve len) (cobalt_shm_spsc_reserve (Some h) len true) (QP vw) s n.
Proof.
  intros Hp Hlen. unfold cobalt_shm_spsc_reserve. cbn [negb orb]. destruct (is_reserved h) eqn:Er; [by apply rwpP_fails|].
  unfold UINT32_MAX, sizeof_frame. destruct (Z.ltb_spec (2 ^ 32 - 1 - 8) len) as [|Hl32]; [by apply rwpP_fails|].
  rewrite frame_bytes_pad by lia. set (fs := pad (8 + len)).
  pose proof (pi_cap _ _ _ Hp) as [Ecap Emask]. rewrite Ecap, Emask. pose proof C_range as [HC Hd8].
  pose proof (pad_bounds (8 + len)) as Hfs. fold fs in Hfs.
  rewrite wrap64_small by lia. destruct (Z.ltb_spec (C - 8) fs) as [|Hfit]; [by apply rwpP_fails|].
  intros s1 Hs1 [pks1 HG1]. rewrite decide_True by done. cbn [cur]. intros s2 Hs2 [pks2 HG2]. rewrite decide_False by done.
  intros y Hy _. cbv zeta. apply (g_rh _ _ HG2) in Hy. pose proof (g_cur _ _ HG2) as Hc2. pose proof (g_small _ _ HG2) as Hsm2.
  unfold small in Hsm2. assert (W s2 = W s1) as EW by apply Hs2. rewrite <- EW, !land_offset.
  pose proof (PIdle_rely _ _ _ _ (PIdle_rely _ _ _ _ Hp Hs1) Hs2) as Hp2.
  set (tail := C - W s2 mod C). pose proof (offset_range (W s2)) as Ho.
  assert (start (W s2) true = W s2 + tail) as Est by done. assert (W s2 mod C + tail = C) as Etail by (unfold tail; lia).
  destruct (Z.ltb_spec tail fs) as [Hlt|Hge].
  - rewrite (wrap64_small (W s2 + tail)), (wrap64_small (W s2 + tail - y)) by lia.
    destruct (Z.ltb_spec C (W s2 + tail - y)) as [|Hu]; [by apply rwpP_fails|].
    destruct (Z.ltb_spec (C - (W s2 + tail - y)) fs) as [|Hf]; [by apply rwpP_fails|].
    assert (8 ≤ tail) as Ht8.
    { assert (8 | tail) as Hdt by (apply Z.divide_sub_r; [done|]; apply offset_divide; apply (g_div _ _ HG2)).
      destruct Hdt as [z Hz]. lia. }
    clearbody tail. rewrite (proj2 (Z.leb_le 8 tail)) by done. intros s3 Hs3 HI3. destruct HI3 as [pks3 HG3].
    assert (mem s3 = mem s2 ∧ W s3 = W s2 ∧ R s2 ≤ R s3) as (Em3 & Ew3 & Hr3) by apply Hs3.
    pose proof (g_mem _ _ HG3) as Hm3.
    eexists. split; [apply put_ok; [done|lia|lia]|].
    assert (relC s3 (with_mem s3 (splice (mem s3) (W s2 mod C) (encode (Frame (wrap32 (tail - 8)) 0 COBALT_SHM_FRAME_WRAP))))) as Hrel.
    { apply relC_free; rewrite ?length_encode; simpl Z.of_nat; lia. }
    split_and!; [done|eapply relC_inv; [by exists pks3|done]|].
    intros s4 (Em4 & Ew4 & Hr4) [pks4 HG4]. simpl in Em4, Ew4, Hr4. unfold reserve_at.
    rewrite (wrap64_small (W s2 + tail - y)) by lia. rewrite Ecap.
    rewrite (proj2 (Z.ltb_ge C _)), (proj2 (Z.ltb_ge _ fs)) by lia. simpl. split; [done|]. split; [done|]. simpl.
    exists true. rewrite Ew4, Ew3, Est. cbn [reserved_len set_reserved]. fold fs. split_and!; try done; try lia.
    + intros _. rewrite Em4. unfold wrap_at. split_and!; [lia|lia|].
      exists (wrap32 (tail - 8)). split; [apply Z.mod_pos_bound; lia|]. apply slice_put; lia.
    + rewrite <- Est, start_offset. lia.
    + rewrite <- Est, start_offset. done.
  - unfold reserve_at. rewrite Ecap.
    destruct ((C <? wrap64 (W s2 - y)) || (C - wrap64 (W s2 - y) <? fs)) eqn:Efull; [by apply rwpP_fails|].
    rewrite wrap64_small in Efull by lia. apply orb_false_elim in Efull as [E1%Z.ltb_ge E2%Z.ltb_ge].
    intros s3 (Em3 & Ew3 & Hr3) _. simpl. split; [done|]. split; [done|]. simpl. exists false.
    rewrite Ew3. change (start (W s2) false) with (W s2). cbn [reserved_len set_reserved]. fold fs. by split_and!; try lia.
Qed.

Lemma commit_rwp h t len vw s n : PIdle h vw s → 0 ≤ t < 2 ^ 16 → 0 ≤ len →
  rwpP h (CCommit t len) (cobalt_shm_spsc_commit (Some h) t len) (QP vw) s n.
Proof.
  intros Hp Ht Hlen. unfold cobalt_shm_spsc_commit. destruct (is_reserved h) eqn:Er; cbn [negb orb]; [|by apply rwpP_fails].
  destruct (Z.ltb_spec (reserved_len h) len) as [|Hl]; [by apply rwpP_fails|].
  pose proof (pi_cap _ _ _ Hp) as [Ecap Emask]. pose proof C_range as [HC Hd8].
  intros s1 Hs1 HI1. pose proof (PIdle_rely _ _ _ _ Hp Hs1) as Hp1. pose proof HI1 as [pks1 HG1].
  pose proof (pi_res _ _ _ Hp1) as Hres. rewrite Er in Hres. destruct Hres as (b & Epos & Hwrap & Hrl & Hfit & Hroom & Evw).
  rewrite Emask, Epos, land_offset. set (q := start (W s1) b) in *.
  pose proof (pad_bounds (8 + len)) as Hfs. pose proof (pad_mono (8 + len) (8 + reserved_len h) ltac:(lia)) as Hmono.
  pose proof (offset_range q) as Hoq. pose proof (start_bounds (W s1) b) as Hsb. fold q in Hsb. pose proof (g_mem _ _ HG1) as Hm1.
  set (f := Frame (wrap32 len) t COBALT_SHM_FRAME_NORMAL). assert (wrap32 len = len) as Ew32 by (apply Z.mod_small; lia).
  eexists. split; [apply put_ok; [done|lia|lia]|].
  assert (relC s1 (with_mem s1 (splice (mem s1) (q mod C) (encode f)))) as Hrel.
  { apply relC_free; rewrite ?length_encode; simpl Z.of_nat; lia. }
  split_and!; [done|by eapply relC_inv|].
  intros s2 (Em2 & Ew2 & Hr2) [pks2 HG2]. simpl in Em2, Ew2, Hr2. split; [done|].
  rewrite frame_bytes_pad by lia. pose proof (g_cur _ _ HG2) as Hc2. pose proof (g_small _ _ HG2) as Hsm2. unfold small in Hsm2.
  rewrite wrap64_small by lia. unfold emit_write. rewrite Emask, Epos, land_offset. fold q. unfold sizeof_frame.
  set (g := Msg t (slice (mem s2) (q mod C + 8) len)). intros Hsmall.
  assert (Z.of_nat (length (m_body g)) = len) as Elen.
  { unfold g. simpl. apply length_slice; try lia. pose proof (g_mem _ _ HG2). lia. }
  assert (pad (8 + len) = msize g) as Esz by (unfold msize; by rewrite Elen). rewrite Esz in *.
  assert (∀ pks, G s2 pks → G (with_write s2 (q + msize g) [g]) (pks ++ [(b, g)])) as Hpub.
  { intros pks HG. assert (start (W s2) b = q) as Eq by (by rewrite Ew2). rewrite <- Eq. apply G_publish; try done; rewrite ?Eq; try lia.
    - intros ->. rewrite Em2, Ew2. destruct (Hwrap eq_refl) as (H1 & H2 & z & Hz & Es). split_and!; [done|done|].
      exists z. split; [done|]. rewrite <- Es. pose proof (offset_range (W s1)). apply slice_splice_ne; rewrite ?length_encode; simpl Z.of_nat; try lia.
      assert (W s1 + 8 ≤ q) by (change q with (W s1 + (C - W s1 mod C)); lia). pose proof (g_cur _ _ HG1).
      destruct (stretches_disjoint (W s1) 8 q 8 (R s1)); lia.
    - split.
      + unfold gframe, frame_ok, COBALT_SHM_FRAME_NORMAL. rewrite Elen. cbn [f_length f_type f_flags]. simpl m_type. lia.
      + lia.
      + rewrite Em2. rewrite slice_put by lia. unfold f, gframe. by rewrite Elen, Ew32.
      + by rewrite Elen.
    - exact Hsmall. }
  split_and!.
  - split; [done|]. intros pks HG. eexists. by apply Hpub.
  - eexists. by apply Hpub.
  - intros s3 Hs3 _. simpl. split; [done|]. by split.
Qed.

Lemma cancel_rwp h vw s n : PIdle h vw s → rwpP h CCancel (cobalt_shm_spsc_cancel (Some h)) (QP vw) s n.
Proof.
  intros Hp. unfold cobalt_shm_spsc_cancel. destruct (is_reserved h) eqn:Er; cbn [negb]; [|by apply rwpP_fails].
  intros s' Hs _. simpl. split; [done|]. split; [apply Hp|done].
Qed.

(** A byte of the payload written into the reservation. *)
Lemma fill_ok h vw s j x : PIdle h (Some vw) s → Inv s → 0 ≤ j < vlen vw →
  let s' := with_mem s (splice (mem s) (ptr vw + j) [x]) in relC s s' ∧ Inv s' ∧ PIdle h (Some vw) s'.
Proof.
  intros [Hcap Hr] HI Hj. destruct (is_reserved h) eqn:Er; [|done].
  destruct Hr as (b & Epos & Hwrap & Hrl & Hfit & Hroom & [= ->]). cbn [ptr vlen] in *.
  set (q := start (W s) b) in *. pose proof C_range as [HC _]. pose proof (offset_range q) as Hoq.
  pose proof (pad_bounds (8 + reserved_len h)). pose proof (start_bounds (W s) b) as Hsb. fold q in Hsb.
  assert ((q + 8 + j) mod C = q mod C + 8 + j) as E.
  { rewrite (Z.div_mod q C) at 1 by lia. replace (C * (q / C) + q mod C + 8 + j) with (q mod C + 8 + j + q / C * C) by lia.
    rewrite Z.mod_add by lia. apply Z.mod_small. lia. }
  rewrite <- E. assert (relC s (with_mem s (splice (mem s) ((q + 8 + j) mod C) [x]))) as Hrel.
  { apply relC_free; simpl length; lia. }
  split_and!; [done|by eapply relC_inv|]. split; [done|]. rewrite Er. exists b. split_and!; try done; [|lia|lia].
  intros ->. destruct (Hwrap eq_refl) as (H1 & H2 & z & Hz & Es). split_and!; [done|done|]. exists z. split; [done|].
  rewrite <- Es. simpl. destruct HI as [pks HG]. pose proof (g_mem _ _ HG). pose proof (offset_range (W s)). pose proof (g_cur _ _ HG).
  assert (W s + 8 ≤ q) by (change q with (W s + (C - W s mod C)); lia).
  apply slice_splice_ne; simpl length; try lia. destruct (stretches_disjoint (W s) 8 (q + 8 + j) 1 (R s)); lia.
Qed.

(** *** The consumer *)

Record CIdle (h : handle) (vw : option view) (s : state) (n : Z) : Prop := {
  ci_cap : capacity h = C ∧ mask h = C - 1;
  ci_seen : R s ≤ n;
  ci_peek : is_peeked h = true → ∃ g t, G s ((false, g) :: t) ∧ peeked_frame_len h = msize g ∧ R s + msize g ≤ n ∧
    vw = Some (View (R s mod C + 8) (m_type g) (Z.of_nat (length (m_body g))))
}.

Lemma CIdle_rely h vw s s' n : CIdle h vw s n → relC s s' → CIdle h vw s' n.
Proof.
  intros [Hc Hs Hp] [ER HR]. split; [done|lia|]. rewrite ER. intros Hpk.
  destruct (Hp Hpk) as (g & t & HG & ? & ? & ?). destruct (HR _ HG) as [t' HG']. by exists g, (t ++ t').
Qed.

Lemma CIdle_seen h vw s n y : CIdle h vw s n → n ≤ y → CIdle h vw s y.
Proof.
  intros [Hc Hs Hp] Hy. split; [done|lia|]. intros Hpk. destruct (Hp Hpk) as (g & t & ? & ? & ? & ?).
  exists g, t. split_and!; try done. lia.
Qed.

Definition QC (vw : option view) (a : answer) (s : state) (n : Z) : Prop :=
  match a with
  | (code, vw', Some h) => code ≠ COBALT_ERROR_GENERAL ∧ CIdle h (if decide (code = COBALT_SUCCESS) then vw' else vw) s n
  | _ => False
  end.

Abbreviation rwpC vw c := (rwp Read relC relP (emit_read vw c)).

Lemma rwpC_fails h c vw code s n : CIdle h vw s n → code ≠ COBALT_SUCCESS → code ≠ COBALT_ERROR_GENERAL →
  rwpC vw c (PRet (fails code h)) (QC vw) s n.
Proof. intros Hp H1 H2 s' Hs _. simpl. rewrite decide_False by done. split; [done|]. by eapply CIdle_rely. Qed.

Lemma get_ok m off f : C ≤ Z.of_nat (length m) → 0 ≤ off → off + 8 ≤ C → slice m off 8 = encode f → frame_ok f →
  get_frame m off = Some f.
Proof.
  intros Hm Ho H8 E Hf. unfold get_frame, inside, sizeof_frame.
  rewrite (proj2 (Z.leb_le _ _)), (proj2 (Z.leb_le _ _)) by lia. simpl. by rewrite E, decode_encode.
Qed.

Lemma get_message s g t : G s ((false, g) :: t) → get_frame (mem s) (R s mod C) = Some (gframe g).
Proof.
  intros HG. pose proof (g_lay _ _ HG) as (_ & [H1 H2 H3 H4] & _). change (start (R s) false) with (R s) in *.
  pose proof (msize_bounds g). pose proof (offset_range (R s)). apply get_ok; try done; try lia. apply (g_mem _ _ HG).
Qed.

Lemma wrap_frame_ok z : 0 ≤ z < 2 ^ 32 → frame_ok (Frame z 0 COBALT_SHM_FRAME_WRAP).
Proof. intros. unfold frame_ok, COBALT_SHM_FRAME_WRAP. cbn [f_length f_type f_flags]. lia. Qed.

(** Padding is not mistaken for a message. *)
Lemma front_unique s g t g' t' : G s ((true, g) :: t) → ¬ G s ((false, g') :: t').
Proof.
  intros HG HG'. pose proof (g_lay _ _ HG) as (Hw & _). destruct (Hw eq_refl) as (_ & _ & z & Hz & Es).
  pose proof (g_lay _ _ HG') as (_ & [H1 _ H3 _] & _). change (start (R s) false) with (R s) in H3. rewrite Es in H3.
  apply (f_equal decode) in H3. rewrite !decode_encode in H3; [done|done|by apply wrap_frame_ok].
Qed.

(** What [peek] does with the frame it finds. *)
Definition peek_frame (spsc : handle) (wraps : nat) (read_pos write_pos offset : Z) (f : frame) : prog answer :=
  if negb (Z.land (f_flags f) COBALT_SHM_FRAME_WRAP =? 0) then
    if offset =? 0 then PRet (fails COBALT_ERROR_GENERAL spsc)
    else
      match wraps with
      | O => PRet (fails COBALT_ERROR_GENERAL spsc)
      | S wraps => PStore Read (wrap64 (read_pos + (capacity spsc - offset))) (peek_rounds spsc wraps)
      end
  else
    if (wrap64 (write_pos - read_pos) <? frame_bytes (f_length f)) || (capacity spsc <? offset + frame_bytes (f_length f)) then
      PRet (fails COBALT_ERROR_GENERAL spsc)
    else PRet (COBALT_SUCCESS, Some (View (offset + sizeof_frame) (f_type f) (f_length f)),
               Some (set_peeked spsc (frame_bytes (f_length f)))).

Lemma peek_rounds_eq spsc wraps : peek_rounds spsc wraps =
  PLoad Read (λ r, PLoad Write (λ w,
    if r =? w then PRet (fails COBALT_ERROR_EMPTY_CONTAINER spsc)
    else if w <? r then PRet (fails COBALT_ERROR_GENERAL spsc)
    else PGet (Z.land r (mask spsc)) (peek_frame spsc wraps r w (Z.land r (mask spsc))))).
Proof. by destruct wraps. Qed.

(** The frame of a message. *)
Lemma peek_message h c wraps y vw s n g t : capacity h = C → mask h = C - 1 → G s ((false, g) :: t) → R s + msize g ≤ y < 2 ^ 62 → y ≤ n →
  rwpC vw c (PGet (R s mod C) (peek_frame h wraps (R s) y (R s mod C))) (QC vw) s n.
Proof.
  intros Ecap Emask HG Hy Hn s1 [ER1 HR1] _. destruct (HR1 _ HG) as [t1 HG1]. simpl in HG1.
  exists (gframe g). split; [rewrite <- ER1; by eapply get_message|].
  pose proof (g_lay _ _ HG1) as (_ & Hma & _). change (start (R s1) false) with (R s1) in *. pose proof (ma_ok _ _ _ Hma) as (Hf1 & Hf2 & _).
  pose proof (ma_fits _ _ _ Hma) as Hfit. simpl in Hf1. pose proof (g_cur _ _ HG1). pose proof C_range as [HC _].
  unfold peek_frame. cbn [gframe f_flags f_length f_type]. change (Z.land COBALT_SHM_FRAME_NORMAL COBALT_SHM_FRAME_WRAP =? 0) with true.
  cbn [negb]. rewrite frame_bytes_pad by lia. fold (msize g). pose proof (msize_bounds g). rewrite wrap64_small by lia.
  rewrite Ecap. rewrite (proj2 (Z.ltb_ge _ (msize g))), (proj2 (Z.ltb_ge C _)) by (rewrite <- ?ER1; lia). cbn [orb].
  intros s2 [ER2 HR2] _. destruct (HR2 _ HG1) as [t2 HG2]. simpl. split; [done|]. split; [done|lia|].
  intros _. exists g, ((t ++ t1) ++ t2). split_and!; [exact HG2|done|lia|]. by rewrite ER2, ER1.
Qed.

(** The cursor values seen are ends of packets. *)
Lemma seen_packet s pks y : G s pks → y ∈ whist s → R s ≤ y → y ≠ R s →
  ∃ b g t, pks = (b, g) :: t ∧ start (R s) b + msize g ≤ y ∧ y < 2 ^ 62.
Proof.
  intros HG Hy Hle Hne. destruct (g_wh _ _ HG y Hy) as [Hyw Hin]. specialize (Hin Hle). pose proof (g_small _ _ HG) as Hsm. unfold small in Hsm.
  apply elem_of_cons in Hin as [->|Hin]; [done|]. destruct pks as [|[b g] t]; [by apply elem_of_nil in Hin|].
  exists b, g, t. split; [done|]. pose proof (g_lay _ _ HG) as (_ & _ & Hl). split; [|lia]. simpl in Hin.
  apply elem_of_cons in Hin as [->|Hin]; [lia|]. apply (ends_gt _ _ _ _ _ Hl) in Hin. lia.
Qed.

(** A round of [peek] when no padding is in front. *)
Lemma peek_plain h c wraps vw s n g t : CIdle h vw s n → G s ((false, g) :: t) → R s + msize g ≤ n →
  rwpC vw c (peek_rounds h wraps) (QC vw) s n.
Proof.
  intros Hi HG Hn. destruct (ci_cap _ _ _ _ Hi) as [Ecap Emask]. rewrite peek_rounds_eq.
  intros s1 Hs1 _. rewrite decide_True by done. intros s2 Hs2 HI2. rewrite decide_False by done. intros y Hy Hny.
  pose proof (transitivity Hs1 Hs2) as Hs. destruct Hs as [ER HR]. destruct (HR _ HG) as [t' HG2]. simpl in HG2. cbn [cur].
  assert (R s1 = R s2) as -> by (symmetry; apply Hs2). pose proof (msize_bounds g).
  destruct (g_wh _ _ HG2 y Hy) as [Hyw _]. pose proof (g_small _ _ HG2) as Hsm. unfold small in Hsm.
  rewrite (proj2 (Z.eqb_neq _ _)), (proj2 (Z.ltb_ge _ _)) by lia. rewrite Emask, land_offset.
  eapply peek_message; try done; lia.
Qed.

Lemma peek_rwp h vw s n : CIdle h vw s n → rwpC vw CPeek (cobalt_shm_spsc_peek (Some h) true) (QC vw) s n.
Proof.
  intros Hi. destruct (ci_cap _ _ _ _ Hi) as [Ecap Emask]. unfold cobalt_shm_spsc_peek. cbn [negb]. rewrite peek_rounds_eq.
  intros s1 Hs1 _. rewrite decide_True by done. intros s2 Hs2 [pks2 HG2]. rewrite decide_False by done. intros y Hy Hny.
  pose proof (CIdle_rely _ _ _ _ _ Hi (transitivity Hs1 Hs2)) as Hi2. pose proof (CIdle_seen _ _ _ _ _ Hi2 Hny) as Hi2y.
  pose proof (ci_seen _ _ _ _ Hi2) as Hseen. cbn [cur]. assert (R s1 = R s2) as -> by (symmetry; apply Hs2).
  destruct (Z.eqb_spec (R s2) y) as [E|Hne]; [by apply rwpC_fails|]. rewrite (proj2 (Z.ltb_ge _ _)) by lia.
  destruct (seen_packet _ _ _ HG2 Hy) as (b & g & t & -> & Hend & Hy62); [lia|lia|]. rewrite Emask, land_offset.
  destruct b; [|eapply peek_message; try done; lia].
  assert (is_peeked h = false) as Hnp.
  { apply not_true_is_false. intros Hpk. destruct (ci_peek _ _ _ _ Hi2 Hpk) as (g' & t' & HG' & _).
    by apply (front_unique _ _ _ _ _ HG2) in HG'. }
  intros s3 Hs3 _. destruct Hs3 as [ER3 HR3]. destruct (HR3 _ HG2) as [t3 HG3]. simpl in HG3.
  pose proof (g_lay _ _ HG3) as (Hw & Hma & _). destruct (Hw eq_refl) as (H0 & H8 & z & Hz & Es). pose proof (offset_range (R s3)).
  rewrite <- ER3 in *. exists (Frame z 0 COBALT_SHM_FRAME_WRAP). split.
  { apply get_ok; [apply (g_mem _ _ HG3)|lia|lia|done|by apply wrap_frame_ok]. }
  unfold peek_frame. change (Z.land (f_flags (Frame z 0 COBALT_SHM_FRAME_WRAP)) COBALT_SHM_FRAME_WRAP =? 0) with false. cbn [negb].
  rewrite (proj2 (Z.eqb_neq _ _) H0). rewrite Ecap. change (R s3 + (C - R s3 mod C)) with (start (R s3) true).
  pose proof (start_bounds (R s3) true) as Hsb. pose proof (msize_bounds g). pose proof C_range as [HC _].
  pose proof (g_cur _ _ HG3) as Hc3. pose proof (g_small _ _ HG3) as Hsm3. unfold small in Hsm3. rewrite wrap64_small by lia.
  intros s4 [ER4 HR4] _. destruct (HR4 _ HG3) as [t4 HG4]. simpl in HG4. split; [done|]. intros Hsmall.
  rewrite <- ER4 in *. pose proof (G_skip _ _ _ HG4) as HGs.
  change (emit_read vw CPeek (start (R s4) true) s4) with (with_read s4 (start (R s4) true) []) in *. split_and!.
  - split_and!; [done|done|]. simpl. lia.
  - by eexists.
  - eapply peek_plain; [|exact HGs|simpl; lia]. split; [done|simpl; lia|].
    congruence.
Qed.

Lemma consume_rwp h vw s n : CIdle h vw s n → rwpC vw CConsume (cobalt_shm_spsc_consume (Some h)) (QC vw) s n.
Proof.
  intros Hi. destruct (ci_cap _ _ _ _ Hi) as [Ecap Emask]. unfold cobalt_shm_spsc_consume.
  destruct (is_peeked h) eqn:Hpk; cbn [negb]; [|by apply rwpC_fails].
  intros s1 Hs1 _. rewrite decide_True by done. intros s2 Hs2 _. cbn [cur]. assert (R s1 = R s2) as -> by (symmetry; apply Hs2).
  pose proof (CIdle_rely _ _ _ _ _ Hi (transitivity Hs1 Hs2)) as Hi2.
  destruct (ci_peek _ _ _ _ Hi2 Hpk) as (g & t & HG & Elen & Hn & ->). rewrite Elen. pose proof (msize_bounds g).
  pose proof (g_cur _ _ HG) as Hc. pose proof (g_small _ _ HG) as Hsm. unfold small in Hsm. pose proof C_range as [HC _].
  pose proof (g_lay _ _ HG) as (_ & Hma & Hl). change (start (R s2) false) with (R s2) in *. pose proof (layout_le _ _ _ _ Hl).
  rewrite wrap64_small by lia. split; [done|]. intros _.
  assert (emit_read (Some (View (R s2 mod C + 8) (m_type g) (Z.of_nat (length (m_body g))))) CConsume (R s2 + msize g) s2
    = with_read s2 (R s2 + msize g) [g]) as ->.
  { unfold emit_read. cbn [vtype ptr vlen]. rewrite (ma_body _ _ _ Hma). by destruct g. }
  split_and!; [|eexists; by apply G_drop|].
  - split_and!; [done|done|simpl; lia].
  - intros s3 [ER3 _] _. simpl. split; [done|]. split; [done|rewrite ER3; simpl; lia|done].
Qed.

(** *** The whole system *)

Definition prod_ok (t : thread) (s : state) : Prop :=
  match running t with
  | None => PIdle (hand t) (held t) s
  | Some (c, p) => rwpP (hand t) c p (QP (held t)) s (seen t)
  end ∧ seen t ≤ R s.

Definition cons_ok (t : thread) (s : state) : Prop :=
  match running t with
  | None => CIdle (hand t) (held t) s (seen t)
  | Some (c, p) => rwpC (held t) c p (QC (held t)) s (seen t)
  end ∧ seen t ≤ W s.

Definition sys_ok (c : config) : Prop := Inv (shared c) ∧ prod_ok (prod c) (shared c) ∧ cons_ok (cons c) (shared c).

Lemma prod_ok_rely t s s' : prod_ok t s → relP s s' → prod_ok t s'.
Proof.
  intros [Hp Hs] Hr. split; [|destruct Hr as (_ & _ & ?); lia].
  destruct (running t) as [[c p]|]; [|by eapply PIdle_rely]. eapply rwp_rely; [apply _|exact Hp|exact Hr].
Qed.

(** The consumer's cursor and the number it saw survive what the producer does. *)
Lemma cons_ok_rely t s s' : cons_ok t s → relC s s' → W s ≤ W s' → cons_ok t s'.
Proof.
  intros [Hp Hs] Hr HW. split; [|lia].
  destruct (running t) as [[c p]|]; [|by eapply CIdle_rely]. eapply rwp_rely; [apply _|exact Hp|exact Hr].
Qed.

Lemma layout_prefix_le m m' pks : ∀ pos e t e', layout m pos pks e → layout m' pos (pks ++ t) e' → e ≤ e'.
Proof.
  induction pks as [|[b g] pks IH]; intros pos e t e'; simpl.
  - intros -> Hl. by eapply layout_le.
  - intros (_ & _ & H1) (_ & _ & H2). by eapply IH.
Qed.

Lemma relC_W s s' : Inv s → relC s s' → W s ≤ W s'.
Proof.
  intros [pks HG] [ER HR]. destruct (HR _ HG) as [t HG']. pose proof (g_lay _ _ HG) as Hl. pose proof (g_lay _ _ HG') as Hl'.
  rewrite ER in Hl'. by eapply layout_prefix_le.
Qed.

Lemma act_seen own emit s n p s' n' p' : act own emit s n p s' n' p' → n' = n ∨ ∃ c, c ≠ own ∧ s' = s ∧ n' ∈ hist c s.
Proof. destruct 1; eauto. Qed.

Lemma prod_starts t s c : prod_ok t s → running t = None → producer_call c → prod_ok (starts c t) s.
Proof.
  intros [Hp Hs] Hr Hc. rewrite Hr in Hp. split; [|done]. simpl. destruct c; simpl in *; try done.
  - by apply reserve_rwp.
  - destruct Hc. by apply commit_rwp.
  - by apply cancel_rwp.
Qed.

Lemma cons_starts t s c : cons_ok t s → running t = None → consumer_call c → cons_ok (starts c t) s.
Proof.
  intros [Hp Hs] Hr Hc. rewrite Hr in Hp. split; [|done]. simpl. destruct c; simpl in *; try done.
  - by apply peek_rwp.
  - by apply consume_rwp.
Qed.

Lemma prod_returns t s c code vw h : Inv s → prod_ok t s → running t = Some (c, PRet (code, vw, Some h)) →
  prod_ok (returns t code vw h) s ∧ code ≠ COBALT_ERROR_GENERAL.
Proof.
  intros HI [Hp Hs] Hr. rewrite Hr in Hp. destruct (Hp s (reflexivity s) HI) as [Hc Hi]. split; [|done]. by split.
Qed.

Lemma cons_returns t s c code vw h : Inv s → cons_ok t s → running t = Some (c, PRet (code, vw, Some h)) →
  cons_ok (returns t code vw h) s ∧ code ≠ COBALT_ERROR_GENERAL.
Proof.
  intros HI [Hp Hs] Hr. rewrite Hr in Hp. destruct (Hp s (reflexivity s) HI) as [Hc Hi]. split; [|done]. by split.
Qed.

Lemma prod_acts t s c x s' n' x' : Inv s → prod_ok t s → running t = Some (c, x) →
  act Write (emit_write (hand t) c) s (seen t) x s' n' x' → small s' →
  prod_ok (goes c t x' n') s' ∧ Inv s' ∧ relC s s'.
Proof.
  intros HI [Hp Hs] Hr Ha Hsm. rewrite Hr in Hp.
  destruct (rwp_act Write relP relC _ _ _ _ _ _ _ _ Hp HI Ha Hsm) as (Hg & HI' & Hp').
  assert (relC s s') as Hrel by (by destruct Hg as [->|]). split_and!; [|done|done]. split; [done|]. simpl.
  destruct Hrel as [ER _]. destruct (act_seen _ _ _ _ _ _ _ _ Ha) as [->|([] & Hc & -> & Hin)]; [lia|done|].
  destruct HI as [pks HG]. apply (g_rh _ _ HG) in Hin. lia.
Qed.

Lemma cons_acts t s c x s' n' x' : Inv s → cons_ok t s → running t = Some (c, x) →
  act Read (emit_read (held t) c) s (seen t) x s' n' x' → small s' →
  cons_ok (goes c t x' n') s' ∧ Inv s' ∧ relP s s'.
Proof.
  intros HI [Hp Hs] Hr Ha Hsm. rewrite Hr in Hp.
  destruct (rwp_act Read relC relP _ _ _ _ _ _ _ _ Hp HI Ha Hsm) as (Hg & HI' & Hp').
  assert (relP s s') as Hrel by (by destruct Hg as [->|]). split_and!; [|done|done]. split; [done|]. simpl.
  destruct Hrel as (_ & EW & _). destruct (act_seen _ _ _ _ _ _ _ _ Ha) as [->|([] & Hc & -> & Hin)]; [lia| |done].
  destruct HI as [pks HG]. apply (g_wh _ _ HG) in Hin. lia.
Qed.

Lemma sys_step c l c' : sys_ok c → step c l c' → small (shared c') →
  sys_ok c' ∧ ∀ cl code, l = Some (cl, code) → code ≠ COBALT_ERROR_GENERAL.
Proof.
  intros (HI & Hp & Hq) Hst Hsm. destruct Hst; cbn [shared prod cons] in *.
  - split; [|done]. split_and!; [done|by apply prod_starts|done].
  - split; [|done]. destruct Hp as [Hp Hs]. rewrite H, H0 in Hp. destruct (fill_ok _ _ _ j b Hp HI H1) as (Hrel & HI' & Hp').
    split; [done|]. split; [|eapply cons_ok_rely; [done|done|by apply relC_W]]. split; [|done]. cbn [prod]. by rewrite H, H0.
  - split; [|done]. destruct (prod_acts _ _ _ _ _ _ _ HI Hp H H0 Hsm) as (Hp' & HI' & Hrel).
    split_and!; [done|done|]. eapply cons_ok_rely; [done|done|by apply relC_W].
  - destruct (prod_returns _ _ _ _ _ _ HI Hp H) as [Hp' Hc]. split; [by split_and!|]. by intros ?? [= -> ->].
  - split; [|done]. split_and!; [done|done|by apply cons_starts].
  - split; [|done]. destruct (cons_acts _ _ _ _ _ _ _ HI Hq H H0 Hsm) as (Hq' & HI' & Hrel).
    split_and!; [done|by eapply prod_ok_rely|done].
  - destruct (cons_returns _ _ _ _ _ _ HI Hq H) as [Hq' Hc]. split; [by split_and!|]. by intros ?? [= -> ->].
Qed.

Lemma sys_initial bytes : C ≤ Z.of_nat (length bytes) → sys_ok (initial C bytes).
Proof.
  intros Hb. pose proof C_range as [HC _].
  assert (G (State bytes 0 0 [0] [0] [] []) []) as HG.
  { split; simpl; try done; try lia.
    - split; apply Z.divide_0_r.
    - intros y ->%list_elem_of_singleton. split; [lia|]. intros _. apply list_elem_of_singleton. done.
    - intros y ->%list_elem_of_singleton. lia.
    - split; by apply list_elem_of_singleton. }
  split_and!; [by eexists| |]; (split; [split; simpl; done|simpl; lia]).
Qed.

Lemma sys_reach bytes tr c : C ≤ Z.of_nat (length bytes) → reach (initial C bytes) tr c →
  sys_ok c ∧ Forall (λ r, r.2 ≠ COBALT_ERROR_GENERAL) tr.
Proof.
  intros Hb. induction 1 as [|tr c l c' Hr [IH1 IH2] Hst Hsm]; [split; [by apply sys_initial|done]|].
  destruct (sys_step _ _ _ IH1 Hst Hsm) as [H1 H2]. split; [done|]. apply Forall_app. split; [done|].
  destruct l as [[cl code]|]; [|done]. constructor; [|done]. by eapply H2.
Qed.
End ring.
End SpscInv.

(** ** What the ring promises *)
Module SpscSpec.
Import ShmRing SpscSystem SpscInv.

(** C8: A producer and a consumer on one ring, in any interleaving of their
    accesses to the shared memory and with loads of the other side's cursor that
    may be old: the messages consumed are the first ones that were committed, in
    order and with their types and payloads; no more than the capacity is in
    flight; and from a successful peek to the consume the view shows exactly the
    next message, whatever the producer writes meanwhile. *)
Theorem spsc_fifo k bytes tr c (Hk : 3 ≤ k ≤ 60) (Hb : 2 ^ k ≤ Z.of_nat (length bytes))
  (Hr : reach (initial (2 ^ k) bytes) tr c) :
  let s := shared c in
  ∃ in_flight, sent s = received s ++ in_flight ∧ 0 ≤ R s ≤ W s ∧ W s ≤ R s + 2 ^ k ∧
    (running (cons c) = None → is_peeked (hand (cons c)) = true →
     ∃ vw g rest, held (cons c) = Some vw ∧ in_flight = g :: rest ∧ vtype vw = m_type g ∧
       slice (mem s) (ptr vw) (vlen vw) = m_body g).
Proof.
  intros s. destruct (sys_reach k Hk bytes tr c Hb Hr) as [([pks HG] & _ & Hq & _) _]. fold s in HG, Hq.
  exists (snd <$> pks). split_and!; [apply (g_msgs _ _ _ HG)|apply (g_cur _ _ _ HG)..|].
  intros Hidle Hpk. rewrite Hidle in Hq. destruct (ci_peek _ _ _ _ _ Hq Hpk) as (g & t & HG' & _ & _ & Evw).
  pose proof (g_msgs _ _ _ HG) as E1. pose proof (g_msgs _ _ _ HG') as E2. rewrite E1 in E2. apply app_inv_head in E2.
  eexists _, g, (snd <$> t). split_and!; [exact Evw|exact E2|done|]. simpl.
  pose proof (g_lay _ _ _ HG') as (_ & Hma & _). apply (ma_body _ _ _ _ Hma).
Qed.

(** C9: In any interleaving no call of the two sides gets stuck on an access
    outside the buffer: a call under way can take its next step or return; and
    no call ever answers that the ring is corrupted. *)
Theorem spsc_never_stuck k bytes tr c (Hk : 3 ≤ k ≤ 60) (Hb : 2 ^ k ≤ Z.of_nat (length bytes))
  (Hr : reach (initial (2 ^ k) bytes) tr c) :
  Forall (λ r, r.2 ≠ COBALT_ERROR_GENERAL) tr ∧
  (running (prod c) ≠ None → ∃ l s' p', step c l (Config s' p' (cons c))) ∧
  (running (cons c) ≠ None → ∃ l s' q', step c l (Config s' (prod c) q')).
Proof.
  destruct (sys_reach k Hk bytes tr c Hb Hr) as [(HI & [Hp Hps] & Hq & Hqs) Hf]. split; [done|].
  destruct c as [s p q]. cbn [shared prod cons] in *. pose proof HI as [pks HG]. destruct (g_last _ _ _ HG) as [HW HR]. split.
  - intros Hrun. destruct (running p) as [[cl x]|] eqn:Er; [|done].
    destruct (rwp_progress k _ _ _ _ _ _ _ _ Hp HI) as [[a ->]|(s' & n' & x' & Ha)].
    { intros [] Hc; [done|]. by exists (R s). }
    + destruct a as [[code vw] [h|]]; [|by destruct (Hp s (reflexivity s) HI)]. eexists _, _, _. by eapply producer_returns.
    + eexists _, _, _. by eapply producer_acts.
  - intros Hrun. destruct (running q) as [[cl x]|] eqn:Er; [|done].
    destruct (rwp_progress k _ _ _ _ _ _ _ _ Hq HI) as [[a ->]|(s' & n' & x' & Ha)].
    { intros [] Hc; [|done]. by exists (W s). }
    + destruct a as [[code vw] [h|]]; [|by destruct (Hq s (reflexivity s) HI)]. eexists _, _, _. by eapply consumer_returns.
    + eexists _, _, _. by eapply consumer_acts.
Qed.

(** The region as a process that runs alone finds it. *)
Definition region (h : header) (s : state) : shm := Shm h (W s) (R s) (mem s).

(** C10: From every reachable state with messages in flight, a consumer that is
    not in a call and peeks while the producer rests gets the next message: the
    call returns success, also across the end of the buffer, with the type and a
    view of the payload. *)
Theorem spsc_peek_delivers k bytes tr c hd g rest (Hk : 3 ≤ k ≤ 60) (Hb : 2 ^ k ≤ Z.of_nat (length bytes))
  (Hr : reach (initial (2 ^ k) bytes) tr c) (Hidle : running (cons c) = None)
  (Hmsg : sent (shared c) = received (shared c) ++ g :: rest) :
  ∃ vw h r, run (cobalt_shm_spsc_peek (Some (hand (cons c))) true) (region hd (shared c)) = Some (COBALT_SUCCESS, Some vw, Some h, r) ∧
    vtype vw = m_type g ∧ slice (buffer r) (ptr vw) (vlen vw) = m_body g.
Proof.
  destruct (sys_reach k Hk bytes tr c Hb Hr) as [([pks HG] & _ & Hq & _) _]. rewrite Hidle in Hq.
  destruct (ci_cap _ _ _ _ _ Hq) as [Ecap Emask]. set (h := hand (cons c)) in *. set (s := shared c) in *.
  pose proof (g_msgs _ _ _ HG) as E. rewrite Hmsg in E. apply app_inv_head in E.
  destruct pks as [|[b g'] t]; [done|]. simpl in E. injection E as <- ->.
  assert (∀ wraps s', G k s' ((false, g) :: t) → ∃ vw h' r,
    run (peek_rounds h wraps) (region hd s') = Some (COBALT_SUCCESS, Some vw, Some h', r) ∧
    vtype vw = m_type g ∧ slice (buffer r) (ptr vw) (vlen vw) = m_body g) as Hplain.
  { intros wraps s' HG'. rewrite peek_rounds_eq. cbn [run region wcur rcur buffer]. 
    pose proof (g_lay _ _ _ HG') as (_ & Hma & Hl). change (start k (R s') false) with (R s') in *.
    pose proof (layout_le _ Hk _ _ _ _ Hl). pose proof (msize_bounds g). pose proof (g_cur _ _ _ HG') as Hc. pose proof (g_small _ _ _ HG') as Hsm.
    unfold small in Hsm. rewrite (proj2 (Z.eqb_neq _ _)), (proj2 (Z.ltb_ge _ _)) by lia. cbn [run region buffer].
    rewrite Emask, (land_offset k Hk), (get_message k Hk _ _ _ HG'). unfold peek_frame. cbn [gframe f_flags f_length f_type].
    change (Z.land COBALT_SHM_FRAME_NORMAL COBALT_SHM_FRAME_WRAP =? 0) with true. cbn [negb].
    pose proof (ma_ok _ _ _ _ Hma) as (Hf1 & _). simpl in Hf1. pose proof (ma_fits _ _ _ _ Hma) as Hfit.
    rewrite frame_bytes_pad by lia. fold (msize g). rewrite wrap64_small by lia. rewrite Ecap.
    rewrite (proj2 (Z.ltb_ge _ (msize g))), (proj2 (Z.ltb_ge (2 ^ k) _)) by lia. cbn [orb run].
    eexists _, _, _. split_and!; [done|done|]. apply (ma_body _ _ _ _ Hma). }
  unfold cobalt_shm_spsc_peek. cbn [negb]. destruct b; [|by apply Hplain].
  rewrite peek_rounds_eq. cbn [run region wcur rcur buffer]. pose proof (g_lay _ _ _ HG) as (Hw & Hma & Hl).
  destruct (Hw eq_refl) as (H0 & H8 & z & Hz & Es). pose proof (start_bounds k Hk (R s) true) as Hsb. pose proof (msize_bounds g).
  pose proof (layout_le _ Hk _ _ _ _ Hl). pose proof (g_small _ _ _ HG) as Hsm. unfold small in Hsm. pose proof (g_cur _ _ _ HG) as Hc.
  rewrite (proj2 (Z.eqb_neq _ _)), (proj2 (Z.ltb_ge _ _)) by lia. cbn [run region buffer]. rewrite Emask, (land_offset k Hk).
  pose proof (offset_range k Hk (R s)). erewrite (get_ok k Hk); [|apply (g_mem _ _ _ HG)|lia|lia|exact Es|by apply wrap_frame_ok].
  unfold peek_frame. change (Z.land (f_flags (Frame z 0 COBALT_SHM_FRAME_WRAP)) COBALT_SHM_FRAME_WRAP =? 0) with false. cbn [negb].
  rewrite (proj2 (Z.eqb_neq _ _) H0), Ecap. change (R s + (2 ^ k - R s mod 2 ^ k)) with (start k (R s) true).
  rewrite wrap64_small by lia. cbn [run region hdr wcur buffer].
  apply (Hplain 0%nat (with_read s (start k (R s) true) [])). by apply G_skip.
Qed.

(** When all messages are consumed, a message whose frame is at most half
    the capacity can always be reserved: on an empty ring without a reservation
    the call returns success. *)
Theorem spsc_reserve_succeeds k bytes tr c hd len (Hk : 3 ≤ k ≤ 60) (Hb : 2 ^ k ≤ Z.of_nat (length bytes))
  (Hr : reach (initial (2 ^ k) bytes) tr c) (Hidle : running (prod c) = None) (Hfree : is_reserved (hand (prod c)) = false)
  (Hempty : W (shared c) = R (shared c)) (Hlen : 0 ≤ len < 2 ^ 32 - 8) (Hhalf : frame_bytes len ≤ 2 ^ (k - 1)) :
  ∃ vw h r, run (cobalt_shm_spsc_reserve (Some (hand (prod c))) len true) (region hd (shared c)) = Some (COBALT_SUCCESS, Some vw, Some h, r) ∧
    vlen vw = len ∧ 0 ≤ ptr vw ∧ ptr vw + len ≤ 2 ^ k.
Proof.
  destruct (sys_reach k Hk bytes tr c Hb Hr) as [([pks HG] & [Hp _] & _) _]. rewrite Hidle in Hp.
  destruct (pi_cap _ _ _ _ Hp) as [Ecap Emask]. set (h := hand (prod c)) in *. set (s := shared c) in *.
  pose proof (C_range k Hk) as [HC HC8]. assert (2 ^ k = 2 * 2 ^ (k - 1)) as E2 by (rewrite <- Z.pow_succ_r by lia; f_equal; lia).
  rewrite frame_bytes_pad in Hhalf by lia. set (fs := pad (8 + len)) in *. pose proof (pad_bounds (8 + len)) as Hfs. fold fs in Hfs.
  pose proof (g_small _ _ _ HG) as Hsm. unfold small in Hsm. pose proof (g_cur _ _ _ HG) as Hc. pose proof (offset_range k Hk (W s)) as Ho.
  assert (8 | fs) as Hd by apply pad_divide. pose proof (offset_divide k Hk _ (proj2 (g_div _ _ _ HG))) as Hdo.
  assert (8 ≤ 2 ^ (k - 1)) as H8 by (destruct Hd; lia).
  unfold cobalt_shm_spsc_reserve. cbn [negb orb]. rewrite Hfree. unfold UINT32_MAX, sizeof_frame.
  rewrite (proj2 (Z.ltb_ge _ len)) by lia. rewrite frame_bytes_pad by lia. fold fs. rewrite Ecap, Emask, wrap64_small by lia.
  rewrite (proj2 (Z.ltb_ge _ fs)) by lia. cbn [run region wcur rcur]. rewrite (land_offset k Hk), <- Hempty.
  set (o := W s mod 2 ^ k) in *. destruct (Z.ltb_spec (2 ^ k - o) fs) as [Hlt|Hge].
  - rewrite (wrap64_small (W s + _)), (wrap64_small (W s + (2 ^ k - o) - W s)) by lia.
    rewrite (proj2 (Z.ltb_ge (2 ^ k) _)), (proj2 (Z.ltb_ge _ fs)) by lia. rewrite (proj2 (Z.leb_le 8 _)) by (destruct HC8, Hdo; lia).
    cbn [run region buffer]. rewrite (put_ok k Hk); [|apply (g_mem _ _ _ HG)|lia|destruct HC8, Hdo; lia]. cbn [run region hdr wcur rcur buffer].
    unfold reserve_at. rewrite (wrap64_small (W s + (2 ^ k - o) - W s)), Ecap by lia.
    rewrite (proj2 (Z.ltb_ge (2 ^ k) _)), (proj2 (Z.ltb_ge _ fs)) by lia. cbn [orb].
    eexists _, _, _. split_and!; [done|done|simpl; unfold sizeof_frame; lia..].
  - unfold reserve_at. rewrite (wrap64_small (W s - W s)), Ecap by lia.
    rewrite (proj2 (Z.ltb_ge (2 ^ k) _)), (proj2 (Z.ltb_ge _ fs)) by lia. cbn [orb run].
    eexists _, _, _. split_and!; [done|done|simpl; unfold sizeof_frame; lia..].
Qed.

(** C40: Above half the capacity an empty ring can refuse a message for good: when
    the cursors meet at an offset such that the frame fits neither behind it nor
    in front of it, [reserve] answers that the queue is full, although every
    message has been consumed and the length is one that the call admits. *)
Theorem spsc_empty_refuses k h len r (Hk : 3 ≤ k ≤ 60) (Hcap : capacity h = 2 ^ k ∧ mask h = 2 ^ k - 1)
  (Hfree : is_reserved h = false) (Hempty : wcur r = rcur r) (Hw : 0 ≤ wcur r < 2 ^ 62)
  (Hlen : 0 ≤ len < 2 ^ 32 - 8) (Hadm : frame_bytes len ≤ 2 ^ k - 8)
  (Hbehind : 2 ^ k - wcur r mod 2 ^ k < frame_bytes len) (Hbefore : wcur r mod 2 ^ k < frame_bytes len) :
  run (cobalt_shm_spsc_reserve (Some h) len true) r = Some (fails COBALT_ERROR_QUEUE_FULL h, r).
Proof.
  destruct Hcap as [Ecap Emask]. pose proof (C_range k Hk) as [HC _]. pose proof (offset_range k Hk (wcur r)).
  unfold cobalt_shm_spsc_reserve. cbn [negb orb]. rewrite Hfree. unfold UINT32_MAX, sizeof_frame.
  rewrite (proj2 (Z.ltb_ge _ len)) by lia. rewrite Ecap, Emask, wrap64_small by lia. rewrite (proj2 (Z.ltb_ge _ (frame_bytes len))) by lia.
  cbn [run]. rewrite (land_offset k Hk), <- Hempty. rewrite (proj2 (Z.ltb_lt _ _) Hbehind).
  set (o := wcur r mod 2 ^ k) in *. rewrite (wrap64_small (wcur r + _)), (wrap64_small (wcur r + (2 ^ k - o) - wcur r)) by lia.
  rewrite (proj2 (Z.ltb_ge (2 ^ k) _)), (proj2 (Z.ltb_lt _ (frame_bytes len))) by lia. done.
Qed.

(** A process that attaches to a region finds the handle that its creator has. *)
Theorem spsc_init_attach addr size cap pid bytes r h : 0 ≤ cap ≤ 2 ^ 63 →
  cobalt_shm_spsc_init addr size cap true true pid bytes = (COBALT_SUCCESS, Some (r, h)) →
  cobalt_shm_spsc_attach addr size true true r = (COBALT_SUCCESS, Some h).
Proof.
  intros Hcap. unfold cobalt_shm_spsc_init, cobalt_shm_spsc_attach. cbn [negb]. rewrite orb_false_r, wrap64_small by (unfold sizeof_header; lia).
  destruct (bad_address addr || (cap =? 0) || not_pow2 cap) eqn:E; [done|].
  apply orb_false_elim in E as [[E1 E2]%orb_false_elim E3]. destruct (Z.ltb_spec size (sizeof_header + cap)) as [|Hs]; [done|].
  intros [= <- <-]. cbn [hdr magic version mode hdr_capacity]. rewrite E1. cbn [orb].
  destruct (Z.ltb_spec size sizeof_header) as [Hlt|_].
  - exfalso. lia.
  - rewrite wrap64_small by (unfold sizeof_header; lia). rewrite !Z.eqb_refl, bool_decide_true by done. cbn [negb orb]. rewrite E2, E3. cbn [orb].
    by rewrite (proj2 (Z.ltb_ge _ _)).
Qed.

(** ** Calls that run alone, as steps *)

Fixpoint alone (own : cursor) (emit : Z → state → state) (p : prog answer) (s : state) (n : Z) : option (answer * state * Z) :=
  match p with
  | PRet a => Some (a, s, n)
  | PLoad c kont =>
      if decide (c = own) then alone own emit (kont (cur own s)) s n
      else if bool_decide (cur c s ∈ hist c s ∧ n ≤ cur c s) then alone own emit (kont (cur c s)) s (cur c s) else None
  | PStore c v kont =>
      if decide (c = own) then if W (emit v s) <? 2 ^ 62 then alone own emit kont (emit v s) n else None else None
  | PGet off kont => match get_frame (mem s) off with Some f => alone own emit (kont f) s n | None => None end
  | PPut off f kont => match put_frame (mem s) off f with Some m => alone own emit kont (with_mem s m) n | None => None end
  end.

Definition produce_alone (c : call) (g : config) : option (cobalt_error * config) :=
  let p := prod g in
  match alone Write (emit_write (hand p) c) (body c (hand p)) (shared g) (seen p) with
  | Some (code, vw, Some h, s, n) => Some (code, Config s (Thread h None n (if decide (code = COBALT_SUCCESS) then vw else held p)) (cons g))
  | _ => None
  end.

Definition consume_alone (c : call) (g : config) : option (cobalt_error * config) :=
  let q := cons g in
  match alone Read (emit_read (held q) c) (body c (hand q)) (shared g) (seen q) with
  | Some (code, vw, Some h, s, n) => Some (code, Config s (prod g) (Thread h None n (if decide (code = COBALT_SUCCESS) then vw else held q)))
  | _ => None
  end.

Lemma reach_alone c0 tr own emit (K : state → Z → prog answer → config) :
  (∀ s n p, shared (K s n p) = s) → (∀ s n p s' n' p', act own emit s n p s' n' p' → step (K s n p) None (K s' n' p')) →
  ∀ p s n a s' n', reach c0 tr (K s n p) → small s → alone own emit p s n = Some (a, s', n') →
  reach c0 tr (K s' n' (PRet a)) ∧ small s'.
Proof.
  intros Hsh Hst. assert (∀ p s n s' n' p', reach c0 tr (K s n p) → act own emit s n p s' n' p' → small s' → reach c0 tr (K s' n' p')) as Hgo.
  { intros p s n s' n' p' Hr Ha Hsm. rewrite <- (app_nil_r tr). eapply (reach_step _ _ _ None); [exact Hr|by apply Hst|by rewrite Hsh]. }
  induction p as [a|cu kont IH|cu v p IH|off kont IH|off f p IH]; intros s n a' s' n' Hr Hsm Ha; simpl in Ha.
  - by simplify_eq.
  - destruct (decide (cu = own)) as [->|Hc].
    + eapply IH; [|done|exact Ha]. eapply Hgo; [exact Hr|apply act_own|done].
    + destruct (bool_decide_reflect (cur cu s ∈ hist cu s ∧ n ≤ cur cu s)) as [[H1 H2]|]; [|done].
      eapply IH; [|done|exact Ha]. eapply Hgo; [exact Hr|by apply act_load|done].
  - destruct (decide (cu = own)) as [->|]; [|done]. destruct (Z.ltb_spec (W (emit v s)) (2 ^ 62)) as [Hs|]; [|done].
    eapply IH; [|exact Hs|exact Ha]. eapply Hgo; [exact Hr|apply act_store|exact Hs].
  - destruct (get_frame (mem s) off) as [f|] eqn:Ef; [|done]. eapply IH; [|done|exact Ha]. eapply Hgo; [exact Hr|by apply act_get|done].
  - destruct (put_frame (mem s) off f) as [m|] eqn:Ef; [|done]. apply (IH (with_mem s m) n a' s' n'); [|exact Hsm|exact Ha].
    eapply Hgo; [exact Hr|by apply act_put|exact Hsm].
Qed.

Lemma reach_produce c0 tr g c code g' : reach c0 tr g → small (shared g) → running (prod g) = None → producer_call c →
  produce_alone c g = Some (code, g') → reach c0 (tr ++ [(c, code)]) g' ∧ small (shared g').
Proof.
  intros Hr Hsm Hidle Hc. destruct g as [s p q]. unfold produce_alone. cbn [shared prod cons] in *.
  destruct (alone _ _ _ _ _) as [[[[[code' vw] [h|]] s'] n']|] eqn:Ea; [|done|done]. intros [= <- <-].
  assert (reach c0 tr (Config s (starts c p) q)) as H0.
  { rewrite <- (app_nil_r tr). eapply (reach_step _ _ _ None); [exact Hr|by apply producer_starts|done]. }
  destruct (reach_alone c0 tr Write (emit_write (hand p) c) (λ s n x, Config s (Thread (hand p) (Some (c, x)) n (held p)) q)
    ltac:(done) ltac:(intros s1 n1 p1 s2 n2 p2 Ha; by apply (producer_acts s1 (Thread (hand p) (Some (c, p1)) n1 (held p)) q c p1)) _ _ _ _ _ _ H0 Hsm Ea) as [H1 H2].
  split; [|done]. eapply (reach_step _ _ _ (Some _)); [exact H1| |done].
  by eapply (producer_returns s' (Thread (hand p) (Some (c, PRet (code', vw, Some h))) n' (held p))).
Qed.

Lemma reach_consume c0 tr g c code g' : reach c0 tr g → small (shared g) → running (cons g) = None → consumer_call c →
  consume_alone c g = Some (code, g') → reach c0 (tr ++ [(c, code)]) g' ∧ small (shared g').
Proof.
  intros Hr Hsm Hidle Hc. destruct g as [s p q]. unfold consume_alone. cbn [shared prod cons] in *.
  destruct (alone _ _ _ _ _) as [[[[[code' vw] [h|]] s'] n']|] eqn:Ea; [|done|done]. intros [= <- <-].
  assert (reach c0 tr (Config s p (starts c q))) as H0.
  { rewrite <- (app_nil_r tr). eapply (reach_step _ _ _ None); [exact Hr|by apply consumer_starts|done]. }
  destruct (reach_alone c0 tr Read (emit_read (held q) c) (λ s n x, Config s p (Thread (hand q) (Some (c, x)) n (held q)))
    ltac:(done) ltac:(intros s1 n1 p1 s2 n2 p2 Ha; by apply (consumer_acts s1 p (Thread (hand q) (Some (c, p1)) n1 (held q)) c p1)) _ _ _ _ _ _ H0 Hsm Ea) as [H1 H2].
  split; [|done]. eapply (reach_step _ _ _ (Some _)); [exact H1| |done].
  by eapply (consumer_returns s' p (Thread (hand q) (Some (c, PRet (code', vw, Some h))) n' (held q))).
Qed.

(** ** A message on its way *)

Definition small_ring : list Z := replicate 32 0.
Definition demo0 : config := initial (2 ^ 5) small_ring.

(** Three bytes are reserved, one is written, and the message is committed; the
    consumer looks at it. *)
Definition demo_reserved : config := match produce_alone (CReserve 3) demo0 with Some (_, g) => g | None => demo0 end.
Definition demo_filled : config :=
  Config (with_mem (shared demo_reserved) (splice (mem (shared demo_reserved)) 8 [65])) (prod demo_reserved) (cons demo_reserved).
Definition demo_committed : config := match produce_alone (CCommit 7 3) demo_filled with Some (_, g) => g | None => demo0 end.
Definition demo_peeked : config := match consume_alone CPeek demo_committed with Some (_, g) => g | None => demo0 end.
Definition demo_trace : list (call * cobalt_error) :=
  [(CReserve 3, COBALT_SUCCESS); (CCommit 7 3, COBALT_SUCCESS); (CPeek, COBALT_SUCCESS)].

Lemma demo_committed_reach : reach demo0 [(CReserve 3, COBALT_SUCCESS); (CCommit 7 3, COBALT_SUCCESS)] demo_committed ∧ small (shared demo_committed).
Proof.
  destruct (reach_produce demo0 [] demo0 (CReserve 3) COBALT_SUCCESS demo_reserved) as [H1 _];
    [apply reach_refl|by vm_compute|done|simpl; lia|by vm_compute|].
  assert (reach demo0 [(CReserve 3, COBALT_SUCCESS)] demo_filled) as H2.
  { rewrite <- (app_nil_r [_]). eapply (reach_step _ _ _ None); [exact H1| |by vm_compute].
    apply (producer_fills (shared demo_reserved) (prod demo_reserved) (cons demo_reserved) (View 8 0 3) 0 65); [by vm_compute|by vm_compute|simpl; lia]. }
  apply (reach_produce demo0 [(CReserve 3, COBALT_SUCCESS)] demo_filled (CCommit 7 3) COBALT_SUCCESS demo_committed H2);
    [by vm_compute|by vm_compute|simpl; lia|by vm_compute].
Qed.

Lemma demo_peeked_reach : reach demo0 demo_trace demo_peeked.
Proof.
  destruct demo_committed_reach as [H1 H2].
  apply (reach_consume demo0 _ demo_committed CPeek COBALT_SUCCESS demo_peeked H1 H2); [by vm_compute|done|by vm_compute].
Qed.

Lemma spsc_fifo_witness :
  ∃ in_flight, sent (shared demo_peeked) = received (shared demo_peeked) ++ in_flight ∧
    0 ≤ R (shared demo_peeked) ≤ W (shared demo_peeked) ∧ W (shared demo_peeked) ≤ R (shared demo_peeked) + 2 ^ 5 ∧
    (running (cons demo_peeked) = None → is_peeked (hand (cons demo_peeked)) = true →
     ∃ vw g rest, held (cons demo_peeked) = Some vw ∧ in_flight = g :: rest ∧ vtype vw = m_type g ∧
       slice (mem (shared demo_peeked)) (ptr vw) (vlen vw) = m_body g).
Proof. apply (spsc_fifo 5 small_ring demo_trace demo_peeked); [lia|simpl; lia|apply demo_peeked_reach]. Defined.

Lemma spsc_never_stuck_witness :
  Forall (λ r, r.2 ≠ COBALT_ERROR_GENERAL) demo_trace ∧
  (running (prod demo_peeked) ≠ None → ∃ l s' p', step demo_peeked l (Config s' p' (cons demo_peeked))) ∧
  (running (cons demo_peeked) ≠ None → ∃ l s' q', step demo_peeked l (Config s' (prod demo_peeked) q')).
Proof. apply (spsc_never_stuck 5 small_ring); [lia|simpl; lia|apply demo_peeked_reach]. Defined.

Definition demo_header : header := Header COBALT_SHM_MAGIC COBALT_SHM_VERSION COBALT_SHM_MODE_SPSC 352 32 0 1.

Lemma spsc_peek_delivers_witness :
  ∃ vw h r, run (cobalt_shm_spsc_peek (Some (hand (cons demo_committed))) true) (region demo_header (shared demo_committed))
      = Some (COBALT_SUCCESS, Some vw, Some h, r) ∧ vtype vw = 7 ∧ slice (buffer r) (ptr vw) (vlen vw) = [65; 0; 0].
Proof.
  apply (spsc_peek_delivers 5 small_ring _ demo_committed demo_header (Msg 7 [65; 0; 0]) [] ltac:(lia) ltac:(simpl; lia) (proj1 demo_committed_reach));
    [by vm_compute|by vm_compute].
Defined.

Lemma spsc_reserve_succeeds_witness :
  ∃ vw h r, run (cobalt_shm_spsc_reserve (Some (hand (prod demo0))) 8 true) (region demo_header (shared demo0)) = Some (COBALT_SUCCESS, Some vw, Some h, r) ∧
    vlen vw = 8 ∧ 0 ≤ ptr vw ∧ ptr vw + 8 ≤ 2 ^ 5.
Proof.
  apply (spsc_reserve_succeeds 5 small_ring [] demo0); [lia|simpl; lia|apply reach_refl|reflexivity|reflexivity|reflexivity|lia|vm_compute; discriminate].
Defined.

(** The region in which one message of 8 bytes was sent and consumed, and a
    message of 16 bytes that its 32 bytes could hold. *)
Lemma spsc_empty_refuses_witness :
  run (cobalt_shm_spsc_reserve (Some (fresh_handle 32)) 16 true) (Shm demo_header 16 16 small_ring)
  = Some (fails COBALT_ERROR_QUEUE_FULL (fresh_handle 32), Shm demo_header 16 16 small_ring).
Proof. apply (spsc_empty_refuses 5); try (by vm_compute); try (vm_compute; split; congruence). Defined.
End SpscSpec.

(** ** The multi-producer multi-consumer ring

    Slots with sequence numbers, as in [TicketRing]; a slot holds a message of up
    to [slot_size] bytes. *)
Module ShmMpmc.
Import ShmRing.

(** [struct cobalt_shm_mpmc] *)
Record cobalt_shm_mpmc := Mpmc { m_capacity : Z; m_mask : Z; m_slot_size : Z; m_slot_stride : Z }.

(** [cobalt_shm_mpmc_slot_t] *)
Record slot := Slot { sequence : Z; actual_len : Z; payload : list Z }.

Record mring := MRing { write_cursor : Z; read_cursor : Z; slots : list slot }.

Definition slot_stride (slot_size : Z) : Z := ALIGN_UP (sizeof_slot + slot_size) 64.

(** The size of the slots overflows, or the region is too small for them. *)
Definition no_room (total_size cap stride : Z) : bool :=
  (stride =? 0) || ((SIZE_MAX - sizeof_header) / stride <? cap) || (total_size <? wrap64 (sizeof_header + wrap64 (cap * stride))).

(** [old i] is what the region holds in the payload of slot [i]. *)
Definition cobalt_shm_mpmc_init (shm_addr total_size cap slot_size : Z) (out_mpmc granted : bool) (pid : Z) (old : Z → list Z)
    : cobalt_error * option (header * mring * cobalt_shm_mpmc) :=
  if bad_address shm_addr || negb out_mpmc || (cap <? 2) || not_pow2 cap || (slot_size =? 0)
     || (UINT32_MAX - sizeof_slot <? slot_size) then (COBALT_ERROR_INVALID_ARGUMENT, None)
  else
    let stride := slot_stride slot_size in
    if no_room total_size cap stride then (COBALT_ERROR_INVALID_ARGUMENT, None)
    else if negb granted then (COBALT_ERROR_OUT_OF_MEMORY, None)
    else
      (COBALT_SUCCESS,
       Some (Header COBALT_SHM_MAGIC COBALT_SHM_VERSION COBALT_SHM_MODE_MPMC total_size cap slot_size pid,
             MRing 0 0 ((λ i, Slot i 0 (old i)) <$> seqZ 0 cap),
             Mpmc cap (cap - 1) slot_size stride)).

Definition cobalt_shm_mpmc_attach (shm_addr total_size : Z) (out_mpmc granted : bool) (h : header)
    : cobalt_error * option cobalt_shm_mpmc :=
  if bad_address shm_addr || negb out_mpmc || (total_size <? sizeof_header) then (COBALT_ERROR_INVALID_ARGUMENT, None)
  else if negb (magic h =? COBALT_SHM_MAGIC) || negb (version h =? COBALT_SHM_VERSION)
          || negb (bool_decide (mode h = COBALT_SHM_MODE_MPMC)) then (COBALT_ERROR_INVALID_ARGUMENT, None)
  else if (hdr_capacity h <? 2) || not_pow2 (hdr_capacity h) || (hdr_slot_size h =? 0) then (COBALT_ERROR_INVALID_ARGUMENT, None)
  else
    let stride := slot_stride (hdr_slot_size h) in
    if no_room total_size (hdr_capacity h) stride then (COBALT_ERROR_INVALID_ARGUMENT, None)
    else if negb granted then (COBALT_ERROR_OUT_OF_MEMORY, None)
    else (COBALT_SUCCESS, Some (Mpmc (hdr_capacity h) (hdr_capacity h - 1) (hdr_slot_size h) stride)).

Definition cobalt_shm_mpmc_detach (mpmc : option cobalt_shm_mpmc) : option cobalt_shm_mpmc := None.
Definition cobalt_shm_mpmc_capacity (mpmc : option cobalt_shm_mpmc) : Z := match mpmc with Some h => m_capacity h | None => 0 end.
Definition cobalt_shm_mpmc_slot_size (mpmc : option cobalt_shm_mpmc) : Z := match mpmc with Some h => m_slot_size h | None => 0 end.

(** Where a call is: before the load of the cursor, of the sequence number, the
    compare-and-swap, the access to the slot, and the release of the slot.  A
    pop knows the size of its buffer, and at the end the length of the message
    and the bytes it has copied. *)
Inductive pc : Type :=
  | Idle
  | PushLoad (data : list Z) | PushTest (data : list Z) (pos : Z) | PushCas (data : list Z) (pos : Z)
  | PushWrite (data : list Z) (pos : Z) | PushPublish (data : list Z) (pos : Z)
  | PopLoad (size : Z) | PopTest (size pos : Z) | PopCas (size pos : Z)
  | PopRead (size pos : Z) | PopRelease (size actual : Z) (out : list Z) (pos : Z).

Inductive event : Type :=
  | Pushed (data : list Z) (pos : Z) | Full
  | Popped (size actual : Z) (out : list Z) (pos : Z) | Empty.

(** The tests at the beginning of the calls: an error code, or the call starts. *)
Definition cobalt_shm_mpmc_push (mpmc : option cobalt_shm_mpmc) (data : option (list Z)) : cobalt_error + pc :=
  match mpmc, data with
  | Some h, Some data =>
      if m_slot_size h <? Z.of_nat (length data) then inl COBALT_ERROR_INVALID_ARGUMENT else inr (PushLoad data)
  | _, _ => inl COBALT_ERROR_INVALID_ARGUMENT
  end.

Definition cobalt_shm_mpmc_pop (mpmc : option cobalt_shm_mpmc) (buf : bool) (buf_size : Z) : cobalt_error + pc :=
  match mpmc with
  | None => inl COBALT_ERROR_INVALID_ARGUMENT
  | Some _ =>
      if negb buf && (0 <? buf_size) then inl COBALT_ERROR_INVALID_ARGUMENT
      else inr (PopLoad (if buf && (0 <? buf_size) then buf_size else 0))
  end.

Section steps.
Context (h : cobalt_shm_mpmc).

Definition index (pos : Z) : nat := Z.to_nat (Z.land pos (m_mask h)).
Definition set_slot (r : mring) (pos : Z) (sl : slot) : mring := MRing (write_cursor r) (read_cursor r) (<[index pos := sl]> (slots r)).

(** The steps of the loop of [push]; [None] is an access outside the region. *)
Definition push_step (ch : TicketRing.choice) (r : mring) (p : pc) : option (mring * pc * option event) :=
  match p with
  | PushLoad d => Some (r, PushTest d (TicketRing.aload ch (write_cursor r)), None)
  | PushTest d pos =>
      sl ← slots r !! index pos;
      let diff := TicketRing.to_signed (TicketRing.aload ch (sequence sl)) - TicketRing.to_signed pos in
      if diff =? 0 then Some (r, PushCas d pos, None)
      else if diff <? 0 then Some (r, Idle, Some Full)
      else Some (r, PushLoad d, None)
  | PushCas d pos =>
      if negb (TicketRing.spurious ch) && (write_cursor r =? pos) then
        Some (MRing (wrap64 (pos + 1)) (read_cursor r) (slots r), PushWrite d pos, None)
      else Some (r, PushTest d (TicketRing.aload ch (write_cursor r)), None)
  | PushWrite d pos =>
      sl ← slots r !! index pos;
      if (length (payload sl) <? length d)%nat then None
      else Some (set_slot r pos (Slot (sequence sl) (wrap32 (Z.of_nat (length d))) (d ++ drop (length d) (payload sl))), PushPublish d pos, None)
  | PushPublish d pos =>
      sl ← slots r !! index pos;
      Some (set_slot r pos (Slot (wrap64 (pos + 1)) (actual_len sl) (payload sl)), Idle, Some (Pushed d pos))
  | _ => None
  end.

Definition pop_step (ch : TicketRing.choice) (r : mring) (p : pc) : option (mring * pc * option event) :=
  match p with
  | PopLoad n => Some (r, PopTest n (TicketRing.aload ch (read_cursor r)), None)
  | PopTest n pos =>
      sl ← slots r !! index pos;
      let diff := TicketRing.to_signed (TicketRing.aload ch (sequence sl)) - TicketRing.to_signed (wrap64 (pos + 1)) in
      if diff =? 0 then Some (r, PopCas n pos, None)
      else if diff <? 0 then Some (r, Idle, Some Empty)
      else Some (r, PopLoad n, None)
  | PopCas n pos =>
      if negb (TicketRing.spurious ch) && (read_cursor r =? pos) then
        Some (MRing (write_cursor r) (wrap64 (pos + 1)) (slots r), PopRead n pos, None)
      else Some (r, PopTest n (TicketRing.aload ch (read_cursor r)), None)
  | PopRead n pos =>
      sl ← slots r !! index pos;
      let actual := actual_len sl in
      let to_copy := if actual <? n then actual else n in
      if Z.of_nat (length (payload sl)) <? to_copy then None
      else Some (r, PopRelease n actual (take (Z.to_nat to_copy) (payload sl)) pos, None)
  | PopRelease n actual out pos =>
      sl ← slots r !! index pos;
      Some (set_slot r pos (Slot (wrap64 (pos + m_capacity h)) (actual_len sl) (payload sl)), Idle, Some (Popped n actual out pos))
  | _ => None
  end.

Definition thread_step (ch : TicketRing.choice) (r : mring) (p : pc) : option (mring * pc * option event) :=
  match p with
  | PushLoad _ | PushTest _ _ | PushCas _ _ | PushWrite _ _ | PushPublish _ _ => push_step ch r p
  | _ => pop_step ch r p
  end.

Record config := Config { shared : mring; threads : list pc }.

Inductive step : config → option event → config → Prop :=
  | step_push r ths t d p : ths !! t = Some Idle → cobalt_shm_mpmc_push (Some h) (Some d) = inr p →
      step (Config r ths) None (Config r (<[t := p]> ths))
  | step_pop r ths t b n p : ths !! t = Some Idle → cobalt_shm_mpmc_pop (Some h) b n = inr p →
      step (Config r ths) None (Config r (<[t := p]> ths))
  | step_thread r ths t ch p r' p' ev : ths !! t = Some p → thread_step ch r p = Some (r', p', ev) →
      step (Config r ths) ev (Config r' (<[t := p']> ths)).

Inductive reach (c : config) : nat → list event → config → Prop :=
  | reach_refl : reach c 0 [] c
  | reach_step n tr c1 ev c2 : reach c n tr c1 → step c1 ev c2 → reach c (S n) (tr ++ option_list ev) c2.
End steps.
End ShmMpmc.

(** ** The multi-producer ring is a ring of tickets *)
Module MpmcSpec.
Import ShmRing ShmMpmc.

Section sim.
Variables (k sz : Z).
Hypothesis (Hk : 1 ≤ k ≤ 60) (Hsz : 0 < sz ≤ UINT32_MAX - sizeof_slot).
Abbreviation handle := (Mpmc (2 ^ k) (2 ^ k - 1) sz (slot_stride sz)).

(** A slot holds the message of its cell. *)
Record slot_sim (sl : slot) (c : TicketRing.cell (list Z)) : Prop := {
  ss_seq : sequence sl = TicketRing.sequence c;
  ss_len : 0 ≤ actual_len sl ≤ Z.of_nat (length (payload sl));
  ss_room : sz ≤ Z.of_nat (length (payload sl));
  ss_data : take (Z.to_nat (actual_len sl)) (payload sl) = TicketRing.data c
}.

Record ring_sim (r : mring) (q : TicketRing.ring (list Z)) : Prop := {
  rs_write : write_cursor r = TicketRing.tail q;
  rs_read : read_cursor r = TicketRing.head q;
  rs_mask : TicketRing.mask q = 2 ^ k - 1;
  rs_slots : Forall2 slot_sim (slots r) (TicketRing.buffer q);
  rs_len : length (slots r) = Z.to_nat (2 ^ k)
}.

Inductive pc_sim : pc → TicketRing.pc (list Z) → Prop :=
  | sim_idle : pc_sim Idle TicketRing.Idle
  | sim_pload d : Z.of_nat (length d) ≤ sz → pc_sim (PushLoad d) (TicketRing.ELoad d)
  | sim_ptest d pos : Z.of_nat (length d) ≤ sz → pc_sim (PushTest d pos) (TicketRing.ETest d pos)
  | sim_pcas d pos : Z.of_nat (length d) ≤ sz → pc_sim (PushCas d pos) (TicketRing.ECas d pos)
  | sim_pwrite d pos : Z.of_nat (length d) ≤ sz → pc_sim (PushWrite d pos) (TicketRing.EWrite d pos)
  | sim_ppublish d pos : Z.of_nat (length d) ≤ sz → pc_sim (PushPublish d pos) (TicketRing.EPublish d pos)
  | sim_load n : 0 ≤ n → pc_sim (PopLoad n) TicketRing.DLoad
  | sim_test n pos : 0 ≤ n → pc_sim (PopTest n pos) (TicketRing.DTest pos)
  | sim_cas n pos : 0 ≤ n → pc_sim (PopCas n pos) (TicketRing.DCas pos)
  | sim_read n pos : 0 ≤ n → pc_sim (PopRead n pos) (TicketRing.DRead pos)
  | sim_release n v pos : 0 ≤ n →
      pc_sim (PopRelease n (Z.of_nat (length v)) (take (Z.to_nat n) v) pos) (TicketRing.DRelease v pos).

Inductive ev_sim : event → TicketRing.event (list Z) → Prop :=
  | sim_pushed d pos : ev_sim (Pushed d pos) (TicketRing.Enqueued d pos)
  | sim_full : ev_sim Full TicketRing.Full
  | sim_popped n v pos : ev_sim (Popped n (Z.of_nat (length v)) (take (Z.to_nat n) v) pos) (TicketRing.Dequeued v pos)
  | sim_empty : ev_sim Empty TicketRing.Empty.

Lemma index_slot r q pos : ring_sim r q → index handle pos = TicketRing.slot q pos.
Proof. intros H. unfold index, TicketRing.slot. by rewrite (rs_mask _ _ H). Qed.

(** Every ticket has a slot. *)
Lemma slot_lookup r q pos : ring_sim r q →
  ∃ sl c, slots r !! index handle pos = Some sl ∧ TicketRing.buffer q !! TicketRing.slot q pos = Some c ∧ slot_sim sl c.
Proof.
  intros H. pose proof (TicketRingInv.C_bounds k Hk). assert (index handle pos < length (slots r))%nat as Hlt.
  { rewrite (rs_len _ _ H). unfold index. simpl. replace (2 ^ k - 1) with (Z.ones k) by (rewrite Z.ones_equiv; lia).
    rewrite Z.land_ones by lia. pose proof (Z.mod_pos_bound pos (2 ^ k)). lia. }
  destruct (lookup_lt_is_Some_2 _ _ Hlt) as [sl Hsl]. destruct (Forall2_lookup_l _ _ _ _ _ (rs_slots _ _ H) Hsl) as (c & Hc & Hs).
  exists sl, c. by rewrite <- (index_slot _ _ _ H).
Qed.

Lemma sim_set r q pos sl c : ring_sim r q → slot_sim sl c → ring_sim (set_slot handle r pos sl) (TicketRing.set_cell q pos c).
Proof.
  intros H Hs. split; simpl; try apply H.
  - rewrite <- (index_slot _ _ _ H). apply Forall2_insert; [apply H|done].
  - rewrite length_insert. apply H.
Qed.

Lemma release_seq r q pos : ring_sim r q → wrap64 (pos + 2 ^ k) = wrap64 (wrap64 (pos + TicketRing.mask q) + 1).
Proof.
  intros H. rewrite (rs_mask _ _ H). unfold wrap64. rewrite Zplus_mod_idemp_l. f_equal. lia.
Qed.

(** A step of a call is a step of the ring of tickets, and never a fault. *)
Lemma step_sim ch r q p x : ring_sim r q → pc_sim p x → p ≠ Idle →
  ∃ r' p' ev q' x' ev', thread_step handle ch r p = Some (r', p', ev) ∧ TicketRing.thread_step ch q x = Some (q', x', ev') ∧
    ring_sim r' q' ∧ pc_sim p' x' ∧ option_Forall2 ev_sim ev ev'.
Proof.
  intros Hr Hp Hne. pose proof Hr as [Ew Er Em Hf Hl]. unfold UINT32_MAX, sizeof_slot in Hsz.
  destruct Hp as [|d Hd|d pos Hd|d pos Hd|d pos Hd|d pos Hd|n Hn|n pos Hn|n pos Hn|n pos Hn|n v pos Hn];
    [done|simpl; rewrite ?Ew, ?Er..].
  - do 6 eexists. split_and!; [done|done|done|by constructor|constructor].
  - destruct (slot_lookup _ _ pos Hr) as (sl & c & -> & -> & Hs). simpl. rewrite (ss_seq _ _ Hs).
    destruct (_ =? 0); [|destruct (_ <? 0)]; do 6 eexists; split_and!; try done; repeat constructor; done.
  - destruct (negb _ && _); do 6 eexists; split_and!; try done; constructor; done.
  - destruct (slot_lookup _ _ pos Hr) as (sl & c & -> & -> & Hs). simpl. destruct Hs as [H1 H2 H3 H4].
    rewrite (proj2 (Nat.ltb_ge _ _)) by lia. do 6 eexists. split_and!; try done; try (constructor; done).
    apply sim_set; [done|]. assert (wrap32 (Z.of_nat (length d)) = Z.of_nat (length d)) as E by (apply Z.mod_small; lia).
    split; simpl; rewrite ?E, ?length_app, ?length_drop; [done|lia|lia|]. rewrite Nat2Z.id. by apply take_app_length.
  - destruct (slot_lookup _ _ pos Hr) as (sl & c & -> & -> & Hs). simpl. destruct Hs as [H1 H2 H3 H4].
    do 6 eexists. split_and!; try done; try (repeat constructor; done). apply sim_set; [done|]. by split.
  - do 6 eexists. split_and!; [done|done|done|by constructor|constructor].
  - destruct (slot_lookup _ _ pos Hr) as (sl & c & -> & -> & Hs). simpl. rewrite (ss_seq _ _ Hs).
    destruct (_ =? 0); [|destruct (_ <? 0)]; do 6 eexists; split_and!; try done; repeat constructor; done.
  - destruct (negb _ && _); do 6 eexists; split_and!; try done; constructor; done.
  - destruct (slot_lookup _ _ pos Hr) as (sl & c & -> & -> & Hs). simpl. destruct Hs as [H1 H2 H3 H4].
    set (tc := if actual_len sl <? n then actual_len sl else n).
    assert (tc ≤ actual_len sl ∧ take (Z.to_nat tc) (payload sl) = take (Z.to_nat n) (TicketRing.data c)) as [Htc Eout].
    { unfold tc. rewrite <- H4, take_take. destruct (Z.ltb_spec (actual_len sl) n); (split; [lia|]); f_equal; lia. }
    rewrite (proj2 (Z.ltb_ge _ tc)) by lia. do 6 eexists. split_and!; try done; [|constructor].
    rewrite Eout. assert (actual_len sl = Z.of_nat (length (TicketRing.data c))) as -> by (rewrite <- H4, length_take; lia).
    by constructor.
  - destruct (slot_lookup _ _ pos Hr) as (sl & c & -> & -> & Hs). simpl. destruct Hs as [H1 H2 H3 H4].
    rewrite (release_seq _ _ pos Hr). do 6 eexists. split_and!; try done; try (repeat constructor; done).
    apply sim_set; [done|]. by split.
Qed.

Definition config_sim (c : config) (d : TicketRing.config (list Z)) : Prop :=
  ring_sim (shared c) (TicketRing.shared d) ∧ Forall2 pc_sim (threads c) (TicketRing.threads d).

Lemma system_sim c d ev c' : config_sim c d → step handle c ev c' →
  ∃ ev' d', TicketRing.step d ev' d' ∧ config_sim c' d' ∧ option_Forall2 ev_sim ev ev'.
Proof.
  intros [Hr Hths] Hst. destruct d as [q xs]. simpl in *.
  assert (∀ ths t p, Forall2 pc_sim ths xs → ths !! t = Some p → ∃ x, xs !! t = Some x ∧ pc_sim p x) as Hlook.
  { intros ths t p Hf Ht. by eapply Forall2_lookup_l. }
  destruct Hst as [r ths t data p Ht Hp|r ths t b n p Ht Hp|r ths t ch p r' p' ev Ht Hs]; simpl in *.
  - destruct (Hlook _ _ _ Hths Ht) as (x & Hx & Hs). inversion Hs; subst.
    destruct (Z.ltb_spec sz (Z.of_nat (length data))); [done|]. injection Hp as <-.
    eexists None, _. split_and!; [by apply TicketRing.step_enqueue| |constructor]. split; [done|]. apply Forall2_insert; [done|by constructor].
  - destruct (Hlook _ _ _ Hths Ht) as (x & Hx & Hs). inversion Hs; subst.
    destruct (negb b && (0 <? n)); [done|]. injection Hp as <-.
    eexists None, _. split_and!; [by apply TicketRing.step_dequeue| |constructor]. split; [done|]. apply Forall2_insert; [done|].
    constructor. destruct (b && (0 <? n)) eqn:E; [|done]. apply andb_true_iff in E as [_ E%Z.ltb_lt]. lia.
  - destruct (Hlook _ _ _ Hths Ht) as (x & Hx & Hps).
    assert (p ≠ Idle) as Hne by (by intros ->).
    destruct (step_sim ch r q p x Hr Hps Hne) as (r1 & p1 & ev1 & q1 & x1 & ev1' & E1 & E2 & H1 & H2 & H3).
    rewrite Hs in E1. simplify_eq. eexists _, _. split_and!; [by eapply TicketRing.step_thread| |exact H3].
    split; [done|]. by apply Forall2_insert.
Qed.

Lemma reach_sim c0 d0 m tr c : config_sim c0 d0 → reach handle c0 m tr c →
  ∃ tr' d, TicketRing.reach d0 m tr' d ∧ config_sim c d ∧ Forall2 ev_sim tr tr'.
Proof.
  intros H0. induction 1 as [|m tr c1 ev c2 Hr IH Hst]; [by exists [], d0; split_and!; [constructor|..]|].
  destruct IH as (tr1 & d1 & Hr1 & Hs1 & Ht1). destruct (system_sim _ _ _ _ Hs1 Hst) as (ev' & d2 & Hst' & Hs2 & Hev).
  exists (tr1 ++ option_list ev'), d2. split_and!; [by eapply TicketRing.reach_step|done|].
  apply Forall2_app; [done|]. destruct Hev; by repeat constructor.
Qed.

(** What [init] leaves. *)
Definition start (old : Z → list Z) (n : nat) : config :=
  Config (MRing 0 0 ((λ i, Slot i 0 (old i)) <$> seqZ 0 (2 ^ k))) (replicate n Idle).

Lemma start_sim old n : (∀ i, sz ≤ Z.of_nat (length (old i))) →
  config_sim (start old n) (TicketRing.Config (TicketRing.initial (2 ^ k) []) (replicate n TicketRing.Idle)).
Proof.
  intros Hold. split; simpl.
  - split; simpl; try done.
    + apply Forall2_fmap. apply Forall_Forall2_diag, Forall_true. intros i. split; simpl; try done. specialize (Hold i). lia.
    + by rewrite length_fmap, length_seqZ.
  - apply Forall2_replicate. constructor.
Qed.
End sim.

Lemma init_start addr total k sz pid old hd r h :
  cobalt_shm_mpmc_init addr total (2 ^ k) sz true true pid old = (COBALT_SUCCESS, Some (hd, r, h)) →
  h = Mpmc (2 ^ k) (2 ^ k - 1) sz (slot_stride sz) ∧ r = shared (start k old 0) ∧ sz ≠ 0 ∧ sz ≤ UINT32_MAX - sizeof_slot.
Proof.
  unfold cobalt_shm_mpmc_init. destruct (_ || _) eqn:E; [done|]. destruct (no_room _ _ _); [done|]. cbn [negb].
  intros [= <- <- <-]. apply orb_false_elim in E as [E E2%Z.ltb_ge]. apply orb_false_elim in E as [_ E1%Z.eqb_neq]. done.
Qed.

Definition push_tickets (tr : list event) : list Z := omap (λ e, match e with Pushed _ p => Some p | _ => None end) tr.
Definition pop_tickets (tr : list event) : list Z := omap (λ e, match e with Popped _ _ _ p => Some p | _ => None end) tr.

Lemma tickets_sim tr tr' : Forall2 ev_sim tr tr' →
  push_tickets tr = TicketRingInv.enq_tickets tr' ∧ pop_tickets tr = TicketRingInv.deq_tickets tr'.
Proof.
  unfold push_tickets, pop_tickets, TicketRingInv.enq_tickets, TicketRingInv.deq_tickets.
  induction 1 as [|e e' tr tr' He _ [IH1 IH2]]; [done|]. destruct He; simpl; split; try exact IH1; try exact IH2; f_equal; assumption.
Qed.

Section system.
Context (k addr total sz pid : Z) (old : Z → list Z) (hd : header) (r0 : mring) (h : cobalt_shm_mpmc) (n m : nat) (tr : list event) (c : config).
Hypothesis (Hk : 1 ≤ k ≤ 60) (Hsz : 0 ≤ sz).
Hypothesis (Hinit : cobalt_shm_mpmc_init addr total (2 ^ k) sz true true pid old = (COBALT_SUCCESS, Some (hd, r0, h))).
Hypothesis (Hold : ∀ i, sz ≤ Z.of_nat (length (old i))).
Hypothesis (Hm : Z.of_nat m < 2 ^ 61).
Hypothesis (Hr : reach h (Config r0 (replicate n Idle)) m tr c).

Lemma reached : ∃ tr' d,
  TicketRing.reach (TicketRing.Config (TicketRing.initial (2 ^ k) []) (replicate n TicketRing.Idle)) m tr' d ∧
  config_sim k sz c d ∧ Forall2 ev_sim tr tr' ∧ h = Mpmc (2 ^ k) (2 ^ k - 1) sz (slot_stride sz) ∧ 0 < sz ≤ UINT32_MAX - sizeof_slot.
Proof.
  destruct (init_start _ _ _ _ _ _ _ _ _ Hinit) as (Eh & Er & H0 & Hmax). rewrite Eh, Er in Hr.
  destruct (reach_sim k sz Hk ltac:(lia) _ _ _ _ _ (start_sim k sz old n Hold) Hr) as (tr' & d & ? & ? & ?).
  exists tr', d. split_and!; done || lia.
Qed.


End system.

(** ** One message through a ring of two slots *)

(** Steps of the threads [ts] in turn, each on the values in memory. *)
Fixpoint play (h : cobalt_shm_mpmc) (ts : list nat) (c : config) : option (config * list event) :=
  match ts with
  | [] => Some (c, [])
  | t :: ts =>
      p ← threads c !! t;
      '(r, p, ev) ← thread_step h (TicketRing.Choice None false) (shared c) p;
      '(c, evs) ← play h ts (Config r (<[t := p]> (threads c)));
      Some (c, option_list ev ++ evs)
  end.

Lemma reach_play h c0 ts : ∀ m tr c c' evs, reach h c0 m tr c → play h ts c = Some (c', evs) →
  reach h c0 (m + length ts) (tr ++ evs) c'.
Proof.
  induction ts as [|t ts IH]; intros m tr c c' evs Hr Hp; simpl in Hp.
  - simplify_eq. by rewrite Nat.add_0_r, app_nil_r.
  - destruct (threads c !! t) as [p|] eqn:Ht; [|done]. simpl in Hp.
    destruct (thread_step _ _ _ _) as [[[r p'] ev]|] eqn:Es; [|done]. simpl in Hp.
    destruct (play _ _ _) as [[c2 evs2]|] eqn:Ep; [|done]. simplify_eq/=. rewrite Nat.add_succ_r, <- Nat.add_succ_l, app_assoc.
    eapply IH; [|exact Ep]. eapply reach_step; [exact Hr|]. destruct c as [r0 ths]. simpl in *. by eapply step_thread.
Qed.

Definition demo_handle : cobalt_shm_mpmc := Mpmc 2 1 4 (slot_stride 4).
Definition demo_slots : mring := MRing 0 0 [Slot 0 0 [0; 0; 0; 0]; Slot 1 0 [0; 0; 0; 0]].
Definition demo_start : config := Config demo_slots [Idle; Idle].
Definition demo_header : header := Header COBALT_SHM_MAGIC COBALT_SHM_VERSION COBALT_SHM_MODE_MPMC 448 2 4 1.

(** One thread pushes three bytes, the other pops two of them. *)
Definition demo_end : config := Config (MRing 1 1 [Slot 2 3 [7; 8; 9; 0]; Slot 1 0 [0; 0; 0; 0]]) [Idle; Idle].
Definition demo_events : list event := [Pushed [7; 8; 9] 0; Popped 2 3 [7; 8] 0].

Lemma demo_reach : reach demo_handle demo_start 12 demo_events demo_end.
Proof.
  assert (reach demo_handle demo_start 1 [] (Config demo_slots [PushLoad [7; 8; 9]; Idle])) as H1.
  { apply (reach_step _ _ 0 [] demo_start None _ (reach_refl _ _)). by apply (step_push _ demo_slots [Idle; Idle] 0 [7; 8; 9]). }
  eapply (reach_play _ _ [0; 0; 0; 0; 0]%nat) in H1; [|vm_compute; reflexivity].
  eapply (reach_step _ _ _ _ _ None) in H1; [|by apply (step_pop _ _ _ 1 true 2 (PopLoad 2))].
  eapply (reach_play _ _ [1; 1; 1; 1; 1]%nat) in H1; [|vm_compute; reflexivity]. exact H1.
Qed.


Definition demo_pushing : config := Config demo_slots [PushLoad [7; 8; 9]; Idle].

End MpmcSpec.
