(* ===== verification/Strings.v ===== *)
(** * String helpers of src/src/utils/string.c

    The counters of type [int] do not overflow: strings and arrays of strings are
    shorter than 2^31.

    A block of memory is a list of cells: the bytes of a string or the pointers
    of an array; [None] is a cell that was not written yet.  A string is the
    cells in front of the first NUL. *)
From S2P Require Import Prelude World.

Module Strings.

Notation block := (list (option Z)).
Definition sworld : Type := world unit block.

(** ** Memory *)

(** [p[i]] *)
Definition get (p : Z) (i : nat) : M sworld Z :=
  b <- load p ;;
  match b !! i with
  | Some (Some v) => mret v
  | Some None => mfail Uninit
  | None => mfail BadAccess
  end.

(** [memcpy(p + i, l, length l)] *)
Definition write (p : Z) (i : nat) (l : list Z) : M sworld unit :=
  b <- load p ;;
  if (length b <? i + length l)%nat then mfail BadAccess
  else store p (take i b ++ (Some <$> l) ++ drop (i + length l) b).

(** [alloc->alloc(alloc, bytes)] for [n] cells *)
Definition alloc_cells (bytes : Z) (n : nat) : M sworld Z := alloc_node bytes (replicate n None).

(** The cells in front of the first NUL. *)
Fixpoint cstr (b : block) : option (list Z) :=
  match b with
  | Some c :: b => if c =? 0 then Some [] else cons c <$> cstr b
  | _ => None
  end.

(** Reading a string to its end. *)
Definition read_str (p : Z) : M sworld (list Z) :=
  b <- load p ;;
  match cstr b with Some s => mret s | None => mfail BadAccess end.

Definition ln (s : list Z) : Z := Z.of_nat (length s).

(** A new string with the characters [s]. *)
Definition new_str (s : list Z) : M sworld Z :=
  result <- alloc_cells (ln s + 1) (S (length s)) ;;
  if result =? NULL then mret NULL
  else write result 0 s ;;; write result (length s) [0] ;;; mret result.

(** ** Copies *)

Definition strdup_impl (s : Z) : M sworld Z :=
  if s =? NULL then mret NULL
  else
    bs <- read_str s ;;
    dup <- alloc_cells (ln bs + 1) (S (length bs)) ;;
    if dup =? NULL then mret NULL else write dup 0 (bs ++ [0]) ;;; mret dup.

(** ** Formatting *)

Section format.
(** What the C library writes for a format and its arguments, [None] when it
    reports an error. *)
Context {args : Type} (vsnprintf : list Z → args → option (list Z)).

(** The returned value and what was stored in [*out], [None] when nothing was;
    [out] tells whether the pointer to the result is not NULL. *)
Definition vformat_impl (out : bool) (fmt : Z) (ap : args) : M sworld (Z * option Z) :=
  if negb out || (fmt =? NULL) then mret (-1, None)
  else
    f <- read_str fmt ;;
    match vsnprintf f ap with
    | None => mret (-1, Some NULL)
    | Some text =>
        buf <- alloc_cells (ln text + 1) (S (length text)) ;;
        if buf =? NULL then mret (-1, Some NULL)
        else write buf 0 (text ++ [0]) ;;; mret (ln text, Some buf)
    end.

Definition cobalt_vformat := vformat_impl.
Definition cobalt_vformat_with_alloc := vformat_impl.
Definition cobalt_snprintf (out : bool) (fmt : Z) (ap : args) : M sworld (Z * option Z) :=
  if negb out || (fmt =? NULL) then mret (-1, None) else vformat_impl out fmt ap.
Definition cobalt_snprintf_with_alloc (out : bool) (fmt : Z) (ap : args) : M sworld (Z * option Z) :=
  if negb out || (fmt =? NULL) then mret (-1, None) else vformat_impl out fmt ap.
End format.

(** ** Splitting *)

Definition count_delims (delim : Z) (s : list Z) : nat := length (filter (λ c, c = delim) s).

(** [for (int i = 0; i < idx; i++) alloc->free(alloc, parts[i])] *)
Fixpoint free_parts (parts : Z) (i n : nat) : M sworld unit :=
  match n with
  | O => mret tt
  | S n => q <- get parts i ;; free_node q ;;; free_parts parts (S i) n
  end.

(** A piece is complete; [false] when its block was refused. *)
Definition add_piece (parts : Z) (idx : nat) (piece : list Z) : M sworld bool :=
  q <- alloc_cells (ln piece + 1) (S (length piece)) ;;
  write parts idx [q] ;;;
  if q =? NULL then free_parts parts 0 idx ;;; free_node parts ;;; mret false
  else write q 0 piece ;;; write q (length piece) [0] ;;; mret true.

(** The loop over the string: [piece] is what is between [start] and [p], [rest]
    what is at [p]; the result is the array and the number of pieces. *)
Fixpoint split_loop (parts delim : Z) (idx : nat) (piece rest : list Z) : M sworld (Z * Z) :=
  match rest with
  | [] =>
      ok <- add_piece parts idx piece ;;
      if negb ok then mret (NULL, 0)
      else write parts (S idx) [NULL] ;;; mret (parts, Z.of_nat (S idx))
  | c :: rest =>
      if c =? delim then
        ok <- add_piece parts idx piece ;;
        if negb ok then mret (NULL, 0) else split_loop parts delim (S idx) [] rest
      else split_loop parts delim idx (piece ++ [c]) rest
  end.

(** The array and [*count]. *)
Definition split_impl (str delim : Z) : M sworld (Z * Z) :=
  if str =? NULL then mret (NULL, 0)
  else
    s <- read_str str ;;
    let cnt := S (count_delims delim s) in
    parts <- alloc_cells (sizeof_ptr * (Z.of_nat cnt + 1)) (S cnt) ;;
    if parts =? NULL then mret (NULL, 0) else split_loop parts delim 0 [] s.

(** ** Joining *)

(** The first loop: the number of strings and their length. *)
Definition measure_body (parts : Z) (st : nat * Z) : M sworld ((nat * Z) + (nat * Z)) :=
  let '(n, total) := st in
  q <- get parts n ;;
  if q =? NULL then mret (inr (n, total))
  else s <- read_str q ;; mret (inl (S n, wrap64 (total + ln s))).

(** The second loop; [p] is an offset into the result. *)
Definition copy_body (parts delim result : Z) (st : nat * nat) : M sworld ((nat * nat) + nat) :=
  let '(i, p) := st in
  q <- get parts i ;;
  if q =? NULL then mret (inr p)
  else
    p <- (if (0 <? i)%nat then write result p [delim] ;;; mret (S p) else mret p) ;;
    q <- get parts i ;;
    s <- read_str q ;;
    write result p s ;;;
    mret (inl (S i, p + length s)%nat).

(** Both loops stop at the end of the array at the latest. *)
Definition array_fuel (parts : Z) : M sworld nat := b <- load parts ;; mret (S (length b)).

Definition join_impl (parts delim : Z) : M sworld Z :=
  if parts =? NULL then mret NULL
  else
    fuel <- array_fuel parts ;;
    r <- loop fuel (measure_body parts) (0%nat, 0) ;;
    let '(n, total) := r in
    let total := if (0 <? n)%nat then wrap64 (total + (Z.of_nat n - 1)) else total in
    result <- alloc_cells (wrap64 (total + 1)) (Z.to_nat (wrap64 (total + 1))) ;;
    if result =? NULL then mret NULL
    else
      p <- loop fuel (copy_body parts delim result) (0%nat, 0%nat) ;;
      write result p [0] ;;;
      mret result.

(** ** Stripping *)

Definition is_blank (c : Z) : bool := (c =? 32) || (c =? 9) || (c =? 10) || (c =? 13).

(** [while (start[0] == ' ' || ...) start++] *)
Fixpoint skip_blanks (s : list Z) : list Z :=
  match s with
  | c :: s' => if is_blank c then skip_blanks s' else s
  | [] => []
  end.

(** [while (end > start && (end[-1] == ' ' || ...)) end--] *)
Fixpoint trim_end (s : list Z) (n : nat) : nat :=
  match n with
  | O => O
  | S m => if is_blank (default 0 (s !! m)) then trim_end s m else n
  end.

Definition strip_impl (str : Z) : M sworld Z :=
  if str =? NULL then mret NULL
  else
    s <- read_str str ;;
    let start := skip_blanks s in
    let len := trim_end start (length start) in
    new_str (take len start).

(** ** Comparisons of the C library, on the characters in front of the NUL *)

(** The difference at the first of [n] positions where the strings differ; a
    string that ends has a NUL there. *)
Fixpoint strncmp (n : nat) (a b : list Z) : Z :=
  match n with
  | O => 0
  | S n =>
      let x := default 0 (head a) in
      let y := default 0 (head b) in
      if x =? y then if x =? 0 then 0 else strncmp n (tail a) (tail b) else x - y
  end.

Definition strcmp (a b : list Z) : Z := strncmp (S (length a + length b)) a b.

(** Where the first occurrence of [sub] begins. *)
Fixpoint strstr (s sub : list Z) : option nat :=
  if strncmp (length sub) s sub =? 0 then Some 0%nat
  else match s with [] => None | _ :: s => S <$> strstr s sub end.

Definition cobalt_starts_with (str prefix : option (list Z)) : bool :=
  match str, prefix with
  | Some str, Some prefix =>
      if (length str <? length prefix)%nat then false
      else strncmp (length prefix) str prefix =? 0
  | _, _ => false
  end.

Definition cobalt_ends_with (str suffix : option (list Z)) : bool :=
  match str, suffix with
  | Some str, Some suffix =>
      if (length str <? length suffix)%nat then false
      else strcmp (drop (length str - length suffix) str) suffix =? 0
  | _, _ => false
  end.

Definition cobalt_contains (str sub : option (list Z)) : bool :=
  match str, sub with
  | Some str, Some sub => match strstr str sub with Some _ => true | None => false end
  | _, _ => false
  end.

Definition cobalt_strdup := strdup_impl.
Definition cobalt_split := split_impl.
Definition cobalt_join := join_impl.
Definition cobalt_strip := strip_impl.

(** The variants that take an allocator use it, or the system's for NULL: either
    is the allocator of the world. *)
Definition cobalt_strdup_with_alloc := strdup_impl.
Definition cobalt_split_with_alloc := split_impl.
Definition cobalt_join_with_alloc := join_impl.
Definition cobalt_strip_with_alloc := strip_impl.
End Strings.

(** ** What the functions compute, and their memory *)
Module StringsSpec.
Import Strings.

(** The strings between the delimiters, the first of which begins with [piece]. *)
Fixpoint split_on (d : Z) (piece rest : list Z) : list (list Z) :=
  match rest with
  | [] => [piece]
  | c :: rest => if c =? d then piece :: split_on d [] rest else split_on d (piece ++ [c]) rest
  end.

(** The strings with delimiters between them. *)
Definition prefixed (d : Z) (pieces : list (list Z)) : list Z := concat (cons d <$> pieces).
Definition join_on (d : Z) (pieces : list (list Z)) : list Z := tail (prefixed d pieces).

Lemma prefixed_split d rest : ∀ piece, prefixed d (split_on d piece rest) = d :: piece ++ rest.
Proof.
  unfold prefixed. induction rest as [|c rest IH]; intros piece; simpl; [by rewrite !app_nil_r|].
  destruct (Z.eqb_spec c d) as [->|]; simpl; rewrite IH; simpl; [done|]. by rewrite <- app_assoc.
Qed.

Lemma join_split d s : join_on d (split_on d [] s) = s.
Proof. unfold join_on. by rewrite prefixed_split. Qed.

Lemma length_split d rest : ∀ piece, length (split_on d piece rest) = S (count_delims d rest).
Proof.
  unfold count_delims. induction rest as [|c rest IH]; intros piece; simpl; [done|].
  rewrite filter_cons. destruct (Z.eqb_spec c d) as [->|]; simpl.
  - rewrite decide_True by done. simpl. by rewrite IH.
  - rewrite decide_False by done. by rewrite IH.
Qed.

Lemma split_no_delim d rest : ∀ piece, d ∉ piece → Forall (λ s, d ∉ s) (split_on d piece rest).
Proof.
  induction rest as [|c rest IH]; intros piece Hp; simpl; [by repeat constructor|].
  destruct (Z.eqb_spec c d); [constructor; [done|apply IH; set_solver]|apply IH; set_solver].
Qed.

Lemma split_piece d s : ∀ piece rest, d ∉ s → split_on d piece (s ++ rest) = split_on d (piece ++ s) rest.
Proof.
  induction s as [|c s IH]; intros piece rest Hs; simpl; [by rewrite app_nil_r|].
  apply not_elem_of_cons in Hs as [Hc Hs]. rewrite (proj2 (Z.eqb_neq _ _)) by done.
  rewrite IH by done. by rewrite <- app_assoc.
Qed.

Lemma split_join d pieces : pieces ≠ [] → Forall (λ s, d ∉ s) pieces → split_on d [] (join_on d pieces) = pieces.
Proof.
  intros Hne Hd. destruct pieces as [|s pieces]; [done|]. clear Hne. unfold join_on, prefixed. simpl.
  revert s Hd. induction pieces as [|s' pieces IH]; intros s [Hs Hd]%Forall_cons; simpl.
  - pose proof (split_piece d s [] [] Hs) as E. rewrite app_nil_r in *. by rewrite E.
  - rewrite split_piece by done. simpl. rewrite Z.eqb_refl. f_equal. by apply IH.
Qed.

(** ** Reading and writing *)

Definition str_block (s : list Z) : block := Some <$> s ++ [0].

Definition string_at (w : sworld) (p : Z) (s : list Z) : Prop := ∃ b, heap w !! p = Some b ∧ cstr b = Some s.

Lemma cstr_block s b : Forall (λ c, c ≠ 0) s → cstr ((Some <$> s) ++ Some 0 :: b) = Some s.
Proof.
  induction 1 as [|c s Hc _ IH]; [done|]. rewrite fmap_cons. cbn [app cstr].
  rewrite (proj2 (Z.eqb_neq _ _) Hc). by rewrite IH.
Qed.

Lemma cstr_str_block s : Forall (λ c, c ≠ 0) s → cstr (str_block s) = Some s.
Proof. intros Hs. unfold str_block. rewrite fmap_app. by apply cstr_block. Qed.

Lemma cstr_nonzero b : ∀ s, cstr b = Some s → Forall (λ c, c ≠ 0) s.
Proof.
  induction b as [|[c|] b IH]; intros s; simpl; [done| |done].
  destruct (Z.eqb_spec c 0); [by intros [= <-]|]. destruct (cstr b); [|done]. intros [= <-]. by constructor; [|apply IH].
Qed.

Lemma wp_read_str p s (Q : list Z → sworld → Prop) w : string_at w p s → Q s w → wp (read_str p) Q w.
Proof. intros (b & Hb & Hs) HQ. unfold read_str. apply wp_bind. eapply wp_load; [done|]. by rewrite Hs. Qed.

Lemma wp_cell p i v b (Q : Z → sworld → Prop) w :
  heap w !! p = Some b → b !! i = Some (Some v) → Q v w → wp (get p i) Q w.
Proof. intros Hb Hi HQ. unfold get. apply wp_bind. eapply wp_load; [done|]. by rewrite Hi. Qed.

(** A write into the cells that were not written yet. *)
Lemma wp_write p pre l n (Q : unit → sworld → Prop) w :
  heap w !! p = Some ((Some <$> pre) ++ replicate n None) → (length l ≤ n)%nat →
  Q tt (with_heap w (<[p := (Some <$> pre ++ l) ++ replicate (n - length l) None]> (heap w))) →
  wp (write p (length pre) l) Q w.
Proof.
  intros Hb Hl HQ. unfold write. apply wp_bind. eapply wp_load; [done|].
  rewrite length_app, length_fmap, length_replicate. rewrite (proj2 (Nat.ltb_ge _ _)) by lia.
  eapply wp_store; [done|].
  replace (take (length pre) ((Some <$> pre) ++ replicate n None)) with (Some <$> pre)
    by (rewrite take_app_le, take_ge; rewrite ?length_fmap; done).
  replace (drop (length pre + length l) ((Some <$> pre) ++ replicate n None)) with (replicate (n - length l) (@None Z)).
  - by rewrite app_assoc, <- fmap_app.
  - rewrite drop_app, drop_ge, length_fmap by (rewrite length_fmap; lia). simpl.
    rewrite drop_replicate. f_equal. lia.
Qed.

(** Later worlds: the same allocator, addresses further on. *)
Definition later (w w' : sworld) : Prop := oracle w' = oracle w ∧ brk w ≤ brk w'.

#[export] Instance later_refl : Reflexive later.
Proof. intros w. split; [done|lia]. Qed.
#[export] Instance later_trans : Transitive later.
Proof. intros w1 w2 w3 [E1 ?] [E2 ?]. split; [congruence|lia]. Qed.

Lemma starved_later w w' n : later w w' → starved w n → starved w' n.
Proof. intros [E Hb] [H|(k & m & Hm & Ho)]; [left; lia|]. right. exists k, m. by rewrite E. Qed.

Lemma wp_alloc_cells bytes n (Q : Z → sworld → Prop) w :
  heap_ok w →
  (∀ q w', q ≠ NULL → heap w !! q = None → heap w' = <[q := replicate n None]> (heap w) → heap_ok w' → later w w' → Q q w') →
  (∀ w', heap w' = heap w → heap_ok w' → later w w' → starved w' bytes → Q NULL w') →
  wp (alloc_cells bytes n) Q w.
Proof.
  intros Hok H1 H2. unfold alloc_cells. apply wp_alloc_node.
  - intros Ho Hb. apply H1; simpl; try done.
    + destruct Hok as [[? _] _]. unfold NULL. lia.
    + by apply heap_fresh.
    + by apply heap_ok_node.
    + split; [done|simpl; lia].
  - intros Hr%refuses_starved. by apply H2.
Qed.

(** A block that was written is still the same block. *)
Lemma heap_ok_write (w : sworld) p b c : heap_ok w → heap w !! p = Some b → heap_ok (with_heap w (<[p := c]> (heap w))).
Proof.
  intros Hok Hp. eapply heap_ok_dom; [exact Hok|done|]. simpl. rewrite dom_insert_lookup_L; [done|by eexists].
Qed.

Lemma wp_new_str s (Q : Z → sworld → Prop) w :
  heap_ok w →
  (∀ q w', q ≠ NULL → heap w !! q = None → heap w' = <[q := str_block s]> (heap w) → heap_ok w' → later w w' → Q q w') →
  (∀ w', heap w' = heap w → heap_ok w' → later w w' → starved w' (ln s + 1) → Q NULL w') →
  wp (new_str s) Q w.
Proof.
  intros Hok H1 H2. unfold new_str. apply wp_bind, wp_alloc_cells; [done| |].
  - intros q w' Hq Hnew Hh Hok' Hle. rewrite (proj2 (Z.eqb_neq _ _) Hq). apply wp_bind.
    assert (heap w' !! q = Some (replicate (S (length s)) None)) as Hb by by rewrite Hh, lookup_insert_eq.
    apply (wp_write q [] s (S (length s))); [done|lia|]. apply wp_bind.
    apply (wp_write q s [0] 1); [|simpl; lia|].
    { simpl. rewrite lookup_insert_eq. simpl. do 2 f_equal. replace (S (length s) - length s)%nat with 1%nat by lia. done. }
    apply wp_ret, H1; try done.
    + simpl. rewrite !insert_insert_eq, app_nil_r, Hh, insert_insert_eq. done.
    + eapply heap_ok_write; [eapply heap_ok_write; [done|exact Hb]|]. simpl. by rewrite lookup_insert_eq.
  - intros w' Hh Hok' Hle Hs. rewrite Z.eqb_refl. apply wp_ret. auto.
Qed.

(** ** Splitting *)

(** The array at [parts] holds [ptrs], which point to the strings [done]; [k]
    cells are left; the caller's blocks are [h0]. *)
Record arr (h0 : gmap Z block) (parts : Z) (ptrs : list Z) (done : list (list Z)) (k : nat) (w : sworld) : Prop := {
  a_ok : heap_ok w;
  a_blk : heap w !! parts = Some ((Some <$> ptrs) ++ replicate k None);
  a_nodup : NoDup (parts :: ptrs);
  a_null : NULL ∉ parts :: ptrs;
  a_strs : Forall2 (λ q s, heap w !! q = Some (str_block s)) ptrs done;
  a_new : ∀ q, q ∈ parts :: ptrs → h0 !! q = None;
  a_rest : ∀ q, q ∉ parts :: ptrs → heap w !! q = h0 !! q
}.

Lemma wp_free_parts parts b l : ∀ i (w : sworld),
  heap_ok w → heap w !! parts = Some b → (∀ j q, l !! j = Some q → b !! (i + j)%nat = Some (Some q)) →
  NoDup (parts :: l) → NULL ∉ l → (∀ q, q ∈ l → is_Some (heap w !! q)) →
  wp (free_parts parts i (length l)) (λ _ w', heap_ok w' ∧ later w w' ∧
    (∀ q, q ∈ l → heap w' !! q = None) ∧ (∀ q, q ∉ l → heap w' !! q = heap w !! q)) w.
Proof.
  induction l as [|q l IH]; intros i w Hok Hb Hl Hnd Hnull Hin; cbn [free_parts length].
  { apply wp_ret. split_and!; [done|done|set_solver|done]. }
  apply NoDup_cons in Hnd as [Hp Hnd]. apply NoDup_cons in Hnd as [Hq Hnd].
  apply not_elem_of_cons in Hp as [Hpq Hp]. apply not_elem_of_cons in Hnull as [Hq0 Hnull].
  pose proof (Hl 0%nat q eq_refl) as Hi. rewrite Nat.add_0_r in Hi.
  apply wp_bind. eapply wp_cell; [exact Hb|exact Hi|]. apply wp_bind.
  destruct (Hin q) as [c Hc]; [set_solver|]. eapply wp_free_node; [done|exact Hc|].
  set (w1 := with_heap w (delete q (heap w))).
  assert (heap_ok w1) as Hok1.
  { eapply heap_ok_dom; [exact Hok|done|]. simpl. rewrite dom_delete. set_solver. }
  eapply wp_mono; [apply (IH (S i) w1); [done| | |by constructor|done|]|].
  - simpl. by rewrite lookup_delete_ne by done.
  - intros j q' Hj. specialize (Hl (S j) q' Hj). by replace (i + S j)%nat with (S i + j)%nat in Hl by lia.
  - intros q' Hq'. simpl. rewrite lookup_delete_ne by set_solver. apply Hin. set_solver.
  - intros [] w2 (Hok2 & Hle & Hgone & Hkeep). simpl in Hkeep. split_and!; [done|by destruct Hle; split| |].
    + intros q' [->|Hq']%elem_of_cons; [|by apply Hgone]. rewrite Hkeep by done. by rewrite lookup_delete_eq.
    + intros q' [Hne Hq']%not_elem_of_cons. rewrite Hkeep by done. by rewrite lookup_delete_ne by done.
Qed.

Lemma wp_add_piece h0 parts ptrs done k piece w :
  arr h0 parts ptrs done (S k) w →
  wp (add_piece parts (length ptrs) piece) (λ ok w', later w w' ∧
    ((ok = true ∧ ∃ q, arr h0 parts (ptrs ++ [q]) (done ++ [piece]) k w') ∨
     (ok = false ∧ heap w' = h0 ∧ heap_ok w' ∧ starved w' (ln piece + 1)))) w.
Proof.
  intros [Hok Hb Hnd Hnull Hs Hnew Hrest]. unfold add_piece. apply wp_bind, wp_alloc_cells; [done| |].
  - intros q w1 Hq Hfresh Hh1 Hok1 Hle1.
    assert (q ≠ parts ∧ q ∉ ptrs) as [Hqp Hqs].
    { split; [intros E; by rewrite E, Hb in Hfresh|]. intros Hin. apply list_elem_of_lookup in Hin as [j Hj].
      destruct (Forall2_lookup_l _ _ _ _ _ Hs Hj) as (s & _ & Hqs). by rewrite Hqs in Hfresh. }
    assert (heap w1 !! parts = Some ((Some <$> ptrs) ++ replicate (S k) None)) as Hb1
      by by rewrite Hh1, lookup_insert_ne.
    apply wp_bind, (wp_write parts ptrs [q] (S k)); [done|simpl; lia|]. rewrite (proj2 (Z.eqb_neq _ _) Hq).
    set (w2 := with_heap w1 _). assert (heap_ok w2) as Hok2 by by eapply heap_ok_write.
    apply wp_bind, (wp_write q [] piece (S (length piece))); [|lia|].
    { simpl. rewrite lookup_insert_ne, Hh1, lookup_insert_eq by done. done. }
    apply wp_bind, (wp_write q piece [0] 1); [|simpl; lia|].
    { simpl. rewrite lookup_insert_eq. replace (S (length piece) - length piece)%nat with 1%nat by lia. done. }
    apply wp_ret. split; [by destruct Hle1; split|]. left. split; [reflexivity|]. exists q.
    simpl. rewrite app_nil_r, insert_insert_eq, Nat.sub_0_r, Hh1. split; simpl.
    + eapply heap_ok_dom; [exact Hok1|done|]. simpl. rewrite !dom_insert, Hh1, dom_insert.
      assert (parts ∈ dom (heap w)) by by apply elem_of_dom. set_solver.
    + by rewrite lookup_insert_ne, lookup_insert_eq by done.
    + apply NoDup_cons in Hnd as [? ?]. apply NoDup_cons. split; [set_solver|].
      apply NoDup_app. split_and!; [done|set_solver|apply NoDup_singleton].
    + set_solver.
    + apply Forall2_app; [|constructor; [by rewrite lookup_insert_eq|constructor]].
      eapply Forall2_impl; [exact Hs|]. simpl. intros p s' Hp'.
      assert (p ≠ q) by (intros ->; by rewrite Hp' in Hfresh). assert (p ≠ parts); [|by rewrite !lookup_insert_ne by done].
      intros E. rewrite E, Hb in Hp'. apply (inj Some), (f_equal last) in Hp'.
      rewrite replicate_S_end, app_assoc, last_snoc in Hp'. unfold str_block in Hp'.
      rewrite fmap_app in Hp'. change (Some <$> [0]) with [Some 0] in Hp'. by rewrite last_snoc in Hp'.
    + intros p Hp. destruct (decide (p = q)) as [->|]; [|apply Hnew; set_solver].
      rewrite <- Hrest; [done|]. set_solver.
    + intros p Hp. rewrite !lookup_insert_ne by set_solver. apply Hrest. set_solver.
  - intros w1 Hh1 Hok1 Hle1 Hst. rewrite Z.eqb_refl.
    apply wp_bind, (wp_write parts ptrs [NULL] (S k)); [by rewrite Hh1|simpl; lia|].
    set (w2 := with_heap w1 _). assert (heap_ok w2) as Hok2 by (eapply heap_ok_write; [done|by rewrite Hh1]).
    apply NoDup_cons in Hnd as [Hpp Hnd']. apply wp_bind.
    eapply wp_mono; [apply (wp_free_parts parts ((Some <$> ptrs ++ [NULL]) ++ replicate (S k - 1) None) ptrs 0 w2)|].
    + done.
    + simpl. by rewrite lookup_insert_eq.
    + intros j q Hj. simpl. rewrite lookup_app_l.
      * rewrite list_lookup_fmap, lookup_app_l, Hj by by eapply lookup_lt_Some. done.
      * rewrite length_fmap, length_app. apply lookup_lt_Some in Hj. simpl. lia.
    + by constructor.
    + set_solver.
    + intros q Hq. assert (q ≠ parts) by set_solver. simpl. rewrite lookup_insert_ne, Hh1 by done.
      apply list_elem_of_lookup in Hq as [j Hj]. by destruct (Forall2_lookup_l _ _ _ _ _ Hs Hj) as (s & _ & ->).
    + intros [] w3 (Hok3 & Hle3 & Hgone & Hkeep).
      assert (heap w3 !! parts = Some ((Some <$> ptrs ++ [NULL]) ++ replicate (S k - 1) None)) as Hb3.
      { rewrite Hkeep by done. simpl. by rewrite lookup_insert_eq. }
      apply wp_bind. eapply wp_free_node; [set_solver|exact Hb3|]. apply wp_ret.
      assert (later w w3) as Hle by (etrans; [exact Hle1|]; by destruct Hle3; split).
      split; [by destruct Hle; split|]. right. split_and!; [reflexivity| | |].
      * simpl. apply map_eq. intros p. rewrite lookup_delete. case_decide as Hp; [subst; symmetry; apply Hnew; set_solver|].
        destruct (decide (p ∈ ptrs)) as [Hin|Hin]; [rewrite Hgone by done; symmetry; apply Hnew; set_solver|].
        rewrite Hkeep by done. simpl. rewrite lookup_insert_ne, Hh1 by done. apply Hrest. set_solver.
      * eapply heap_ok_dom; [exact Hok3|done|]. simpl. rewrite dom_delete. set_solver.
      * eapply starved_later; [|exact Hst]. by destruct Hle3; split.
Qed.

(** The array at [parts] holds pointers to the strings [pieces] and a NULL; these
    blocks are all there is besides the caller's, [h0]. *)
Record owned (h0 : gmap Z block) (parts : Z) (ptrs : list Z) (pieces : list (list Z)) (w : sworld) : Prop := {
  p_ok : heap_ok w;
  p_blk : heap w !! parts = Some (Some <$> ptrs ++ [NULL]);
  p_nodup : NoDup (parts :: ptrs);
  p_null : NULL ∉ parts :: ptrs;
  p_strs : Forall2 (λ q s, heap w !! q = Some (str_block s)) ptrs pieces;
  p_new : ∀ q, q ∈ parts :: ptrs → h0 !! q = None;
  p_rest : ∀ q, q ∉ parts :: ptrs → heap w !! q = h0 !! q
}.

Definition split_post (h0 : gmap Z block) (pieces : list (list Z)) (bytes : Z) (r : Z * Z) (w : sworld) : Prop :=
  (r = (NULL, 0) ∧ heap w = h0 ∧ heap_ok w ∧ starved w bytes) ∨
  (∃ parts ptrs, r = (parts, Z.of_nat (length pieces)) ∧ owned h0 parts ptrs pieces w).

Lemma wp_split_pieces h0 parts d rest bytes : ∀ piece ptrs done w,
  arr h0 parts ptrs done (S (length (split_on d piece rest))) w → ln piece + ln rest + 1 ≤ bytes →
  wp (split_loop parts d (length ptrs) piece rest)
     (λ r w', later w w' ∧ split_post h0 (done ++ split_on d piece rest) bytes r w') w.
Proof.
  induction rest as [|c rest IH]; intros piece ptrs done w Ha Hbytes; cbn [split_loop split_on] in *.
  - apply wp_bind. eapply wp_mono; [by apply wp_add_piece|].
    intros ok w1 [Hle [[-> [q [Hok Hb Hnd Hnull Hs Hnew Hrest]]]|(-> & Hh & Hok & Hst)]]; cbn [negb].
    2: { apply wp_ret. split; [done|]. left. split_and!; [done|done|done|]. eapply starved_mono; [done|]. unfold ln in *. simpl in *. lia. }
    apply wp_bind. replace (S (length ptrs)) with (length (ptrs ++ [q])) by (rewrite length_app; simpl; lia).
    simpl in Hb. apply (wp_write parts (ptrs ++ [q]) [NULL] 1); [done|simpl; lia|]. apply wp_ret.
    split; [by destruct Hle; split|]. right. exists parts, (ptrs ++ [q]). split.
    + f_equal. apply Forall2_length in Hs. rewrite !length_app in *. simpl in *. lia.
    + split; simpl; try done; rewrite ?app_nil_r.
      * by eapply heap_ok_write.
      * by rewrite lookup_insert_eq.
      * apply NoDup_cons in Hnd as [Hp _]. apply Forall2_same_length_lookup. split; [by eapply Forall2_length|].
        intros j q' s' Hq' Hs'. rewrite lookup_insert_ne.
        -- by eapply (Forall2_lookup_lr _ _ _ _ _ _ Hs).
        -- intros <-. apply Hp. by eapply list_elem_of_lookup_2.
      * intros q' Hq'. rewrite lookup_insert_ne; [by apply Hrest|]. set_solver.
  - destruct (c =? d).
    + apply wp_bind. eapply wp_mono; [by apply wp_add_piece|].
      intros ok w1 [Hle [[-> [q Ha1]]|(-> & Hh & Hok & Hst)]]; cbn [negb].
      2: { apply wp_ret. split; [done|]. left. split_and!; [done|done|done|]. eapply starved_mono; [done|]. unfold ln in *. simpl in *. lia. }
      replace (S (length ptrs)) with (length (ptrs ++ [q])) by (rewrite length_app; simpl; lia).
      eapply wp_mono; [apply (IH [] _ (done ++ [piece])); [exact Ha1|unfold ln in *; simpl in *; lia]|].
      intros r w2 [Hle2 H]. split; [by etrans|]. by rewrite <- app_assoc in H.
    + apply IH; [done|]. unfold ln in *. rewrite length_app. simpl in *. lia.
Qed.

(** The most bytes that are asked for at once to split [s]. *)
Definition split_budget (s : list Z) : Z := sizeof_ptr * (ln s + 2).

Lemma wp_split d p s w :
  heap_ok w → p ≠ NULL → string_at w p s →
  wp (cobalt_split p d) (λ r w', later w w' ∧ split_post (heap w) (split_on d [] s) (split_budget s) r w') w.
Proof.
  intros Hok Hp Hs. unfold cobalt_split, split_impl. rewrite (proj2 (Z.eqb_neq _ _) Hp).
  apply wp_bind. eapply wp_read_str; [exact Hs|].
  assert (count_delims d s ≤ length s)%nat as Hc by apply length_filter.
  apply wp_bind, wp_alloc_cells; [done| |].
  - intros parts w1 Hq Hnew Hh Hok1 Hle. rewrite (proj2 (Z.eqb_neq _ _) Hq).
    eapply wp_mono; [apply (wp_split_pieces (heap w) parts d s (split_budget s) [] [] [])|].
    + split; [done| | | |constructor| |].
      * rewrite Hh, lookup_insert_eq, length_split. done.
      * apply NoDup_singleton.
      * set_solver.
      * intros q Hq'. assert (q = parts) as -> by set_solver. done.
      * intros q Hq'. rewrite Hh, lookup_insert_ne by set_solver. done.
    + unfold split_budget, sizeof_ptr, ln. simpl. lia.
    + intros r w2 [Hle2 H]. split; [by etrans|done].
  - intros w1 Hh Hok1 Hle Hst. rewrite Z.eqb_refl. apply wp_ret. split; [done|]. left. split_and!; [done|done|done|].
    eapply starved_mono; [exact Hst|]. unfold split_budget, sizeof_ptr, ln. lia.
Qed.

(** ** Joining *)

(** The array at [parts] holds pointers to the strings [pieces]. *)
Definition strings_at (w : sworld) (parts : Z) (pieces : list (list Z)) : Prop :=
  ∃ ptrs b, heap w !! parts = Some ((Some <$> ptrs) ++ Some NULL :: b) ∧
    Forall2 (λ q s, q ≠ NULL ∧ string_at w q s) ptrs pieces.

Lemma owned_strings h0 parts ptrs pieces w :
  Forall (Forall (λ c, c ≠ 0)) pieces → owned h0 parts ptrs pieces w → strings_at w parts pieces.
Proof.
  intros Hz [_ Hb _ Hnull Hs _ _]. exists ptrs, []. split; [by rewrite Hb, fmap_app|].
  apply Forall2_same_length_lookup. split; [by eapply Forall2_length|]. intros j q s Hq Hj. split.
  - intros ->. apply Hnull. apply elem_of_cons. right. by eapply list_elem_of_lookup_2.
  - exists (str_block s). split; [by eapply (Forall2_lookup_lr _ _ _ _ _ _ Hs)|]. apply cstr_str_block.
    by eapply Forall_lookup_1 in Hz.
Qed.

(** The lengths of the strings together. *)
Definition total (pieces : list (list Z)) : Z := Z.of_nat (length (concat pieces)).

Lemma length_prefixed d pieces : Z.of_nat (length (prefixed d pieces)) = total pieces + Z.of_nat (length pieces).
Proof.
  unfold prefixed, total. induction pieces as [|s pieces IH]; [done|].
  rewrite fmap_cons, !concat_cons, !length_app. cbn [length]. lia.
Qed.

Lemma join_length d pieces : pieces ≠ [] → Z.of_nat (length (join_on d pieces)) = total pieces + Z.of_nat (length pieces) - 1.
Proof.
  intros Hne. pose proof (length_prefixed d pieces) as H. unfold join_on. destruct pieces; [done|]. simpl in *. lia.
Qed.

Lemma prefixed_snoc d pieces s : prefixed d (pieces ++ [s]) = prefixed d pieces ++ d :: s.
Proof. unfold prefixed. rewrite fmap_app, concat_app. simpl. by rewrite app_nil_r. Qed.

Lemma join_snoc d pieces s :
  join_on d (pieces ++ [s]) = match pieces with [] => s | _ => (join_on d pieces ++ [d]) ++ s end.
Proof.
  unfold join_on. rewrite prefixed_snoc. destruct pieces as [|s' pieces]; [done|].
  unfold prefixed. simpl. by rewrite <- !app_assoc.
Qed.

Lemma total_take pieces n s : pieces !! n = Some s → total (take (S n) pieces) = total (take n pieces) + ln s.
Proof.
  intros Hs. unfold total, ln. rewrite (take_S_r _ _ s) by done. rewrite concat_app, length_app. simpl. rewrite app_nil_r. lia.
Qed.

Lemma total_le pieces n : 0 ≤ total (take n pieces) ≤ total pieces.
Proof.
  unfold total. pose proof (f_equal (λ l, length (concat l)) (take_drop n pieces)) as E. simpl in E.
  rewrite concat_app, length_app in E. lia.
Qed.

(** What the two loops see of the array. *)
Lemma strings_lookup w parts ptrs b pieces i :
  heap w !! parts = Some ((Some <$> ptrs) ++ Some NULL :: b) →
  Forall2 (λ q s, q ≠ NULL ∧ string_at w q s) ptrs pieces → (i ≤ length pieces)%nat →
  ∃ q, ((Some <$> ptrs) ++ Some NULL :: b) !! i = Some (Some q) ∧
    ((q = NULL ∧ i = length pieces) ∨ (q ≠ NULL ∧ ∃ s, pieces !! i = Some s ∧ string_at w q s)).
Proof.
  intros Hb Hs Hi. pose proof (Forall2_length _ _ _ Hs) as Hl. destruct (decide (i = length pieces)) as [->|Hne].
  - exists NULL. split; [|by left]. by rewrite lookup_app_r, length_fmap, Hl, Nat.sub_diag by (rewrite length_fmap; lia).
  - destruct (lookup_lt_is_Some_2 ptrs i) as [q Hq]; [lia|]. exists q. split.
    + by rewrite lookup_app_l, list_lookup_fmap, Hq by (rewrite length_fmap; lia).
    + right. destruct (Forall2_lookup_l _ _ _ _ _ Hs Hq) as (s & Hs' & ? & ?). eauto.
Qed.

Lemma wp_measure w parts pieces fuel :
  strings_at w parts pieces → total pieces < 2 ^ 64 → (length pieces < fuel)%nat →
  wp (loop fuel (measure_body parts) (0%nat, 0)) (λ r w', w' = w ∧ r = (length pieces, total pieces)) w.
Proof.
  intros (ptrs & b & Hb & Hs) Ht Hf.
  apply (wp_loop (λ st w', w' = w ∧ (st.1 ≤ length pieces)%nat ∧ st.2 = total (take st.1 pieces))
    (λ st _, length pieces - st.1)%nat).
  - split_and!; [done|simpl; lia|done].
  - simpl. lia.
  - intros [n t] w' (-> & Hn & Et). simpl in Hn, Et. unfold measure_body.
    destruct (strings_lookup _ _ _ _ _ _ Hb Hs Hn) as (q & Hq & Hcase).
    apply wp_bind. eapply wp_cell; [exact Hb|exact Hq|]. destruct Hcase as [[-> Hn']|(Hq0 & s & Hs' & Hstr)].
    + rewrite Z.eqb_refl. apply wp_ret. subst. by rewrite take_ge by done.
    + rewrite (proj2 (Z.eqb_neq _ _) Hq0). apply wp_bind. eapply wp_read_str; [exact Hstr|]. apply wp_ret.
      apply lookup_lt_Some in Hs' as Hlt. simpl. split_and!; [done|lia| |lia].
      rewrite (total_take _ _ s) by done. pose proof (total_le pieces (S n)) as Hle.
      rewrite (total_take _ _ s) in Hle by done. subst t. unfold wrap64. rewrite Z.mod_small; [done|]. lia.
Qed.

(** The string is copied up to the [i]-th piece. *)
Definition copied (w : sworld) (d result : Z) (pieces : list (list Z)) (N : nat) (st : nat * nat) (w' : sworld) : Prop :=
  (st.1 ≤ length pieces)%nat ∧ st.2 = length (join_on d (take st.1 pieces)) ∧
  w' = with_heap w (<[result := (Some <$> join_on d (take st.1 pieces)) ++ replicate (N - st.2) None]> (heap w)).

Lemma join_fits d pieces i : (length (join_on d (take i pieces)) ≤ length (join_on d pieces))%nat.
Proof.
  pose proof (f_equal (λ l, length (prefixed d l)) (take_drop i pieces)) as E. simpl in E.
  unfold prefixed in E. rewrite fmap_app, concat_app, length_app in E. unfold join_on. rewrite !length_tl.
  unfold prefixed. lia.
Qed.

Lemma wp_copy w d parts pieces result fuel :
  strings_at w parts pieces → heap w !! result = Some (replicate (S (length (join_on d pieces))) None) →
  (length pieces < fuel)%nat →
  wp (loop fuel (copy_body parts d result) (0%nat, 0%nat)) (λ p w',
    copied w d result pieces (S (length (join_on d pieces))) (length pieces, p) w') w.
Proof.
  intros (ptrs & b & Hb & Hs) Hr Hf. set (N := S (length (join_on d pieces))).
  assert (result ≠ parts) as Hrp.
  { intros E. rewrite E, Hb in Hr. apply (inj Some), (f_equal (λ l, l !! length ptrs)) in Hr.
    rewrite lookup_app_r, length_fmap, Nat.sub_diag in Hr by (rewrite length_fmap; lia).
    symmetry in Hr. apply (lookup_replicate_1 _ _ (Some NULL)) in Hr as [? _]. done. }
  apply (wp_loop (copied w d result pieces N) (λ st _, length pieces - st.1)%nat).
  - split_and!; [simpl; lia|done|]. cbn [fst snd take]. rewrite Nat.sub_0_r. change (Some <$> join_on d []) with (@nil (option Z)). cbn [app]. rewrite insert_id by done. by destruct w.
  - simpl. lia.
  - intros [i p] w' (Hi & Ep & ->). simpl in Hi, Ep. unfold copy_body.
    destruct (strings_lookup _ _ _ _ _ _ Hb Hs Hi) as (q & Hq & Hcase).
    apply wp_bind. eapply wp_cell; [simpl; rewrite lookup_insert_ne by done; exact Hb|exact Hq|].
    destruct Hcase as [[-> Hn]|(Hq0 & s & Hs' & Hstr)].
    { rewrite Z.eqb_refl. apply wp_ret. subst i. done. }
    rewrite (proj2 (Z.eqb_neq _ _) Hq0). pose proof (lookup_lt_Some _ _ _ Hs') as Hlt.
    assert (result ≠ q) as Hrq.
    { intros <-. destruct Hstr as (b' & Hb' & Hc). rewrite Hr in Hb'. by injection Hb' as <-. }
    pose proof (join_snoc d (take i pieces) s) as Hsnoc. rewrite <- (take_S_r _ _ s) in Hsnoc by done.
    pose proof (join_fits d pieces (S i)) as Hfit. rewrite Hsnoc in Hfit.
    set (J := join_on d (take i pieces)) in *.
    set (J1 := if (0 <? i)%nat then J ++ [d] else J).
    assert (join_on d (take (S i) pieces) = J1 ++ s) as EJ.
    { rewrite Hsnoc. unfold J1. destruct i as [|i]; [done|]. simpl. destruct pieces; [done|]. done. }
    assert (length J1 + length s < N)%nat as HN.
    { unfold N. rewrite <- Hsnoc, EJ, length_app in Hfit. lia. }
    apply wp_bind.
    assert (∀ K : nat → M sworld ((nat * nat) + nat), wp (K (length J1))
      (λ r w', match r with inl a' => copied w d result pieces N a' w' ∧ (length pieces - a'.1 < length pieces - i)%nat
               | inr b => copied w d result pieces N (length pieces, b) w' end)
      (with_heap w (<[result := (Some <$> J1) ++ replicate (N - length J1) None]> (heap w))) →
      wp (if (0 <? i)%nat then write result p [d] ;;; mret (S p) else mret p) (λ p, wp (K p)
        (λ r w', match r with inl a' => copied w d result pieces N a' w' ∧ (length pieces - a'.1 < length pieces - i)%nat
               | inr b => copied w d result pieces N (length pieces, b) w' end))
      (with_heap w (<[result := (Some <$> J) ++ replicate (N - p) None]> (heap w)))) as Hdelim.
    { intros K HK. unfold J1 in *. destruct (0 <? i)%nat.
      - rewrite length_app in *. simpl in *. apply wp_bind. rewrite Ep.
        apply (wp_write result J [d] (N - length J)); [simpl; by rewrite lookup_insert_eq|simpl; lia|].
        apply wp_ret. replace (S (length J)) with (length J + 1)%nat by lia. simpl. rewrite insert_insert_eq.
        replace (N - length J - 1)%nat with (N - (length J + 1))%nat by lia. exact HK.
      - apply wp_ret. by rewrite Ep. }
    apply Hdelim. apply wp_bind. eapply wp_cell; [simpl; rewrite lookup_insert_ne by done; exact Hb|exact Hq|].
    apply wp_bind. eapply (wp_read_str q s).
    { destruct Hstr as (b' & ? & ?). exists b'. simpl. by rewrite lookup_insert_ne by done. }
    apply wp_bind. apply (wp_write result J1 s (N - length J1)); [simpl; by rewrite lookup_insert_eq|lia|].
    apply wp_ret. split; [|simpl; lia]. unfold copied. cbn [fst snd]. rewrite EJ, length_app.
    split_and!; [lia|done|]. unfold with_heap. simpl. rewrite insert_insert_eq. do 2 f_equal.
    by rewrite Nat.sub_add_distr.
Qed.

Lemma wp_join w d parts pieces :
  heap_ok w → parts ≠ NULL → strings_at w parts pieces → ln (join_on d pieces) + 1 < 2 ^ 64 →
  wp (cobalt_join parts d) (λ r w', later w w' ∧ heap_ok w' ∧
    ((r = NULL ∧ heap w' = heap w ∧ starved w' (ln (join_on d pieces) + 1)) ∨
     (r ≠ NULL ∧ heap w !! r = None ∧ heap w' = <[r := str_block (join_on d pieces)]> (heap w)))) w.
Proof.
  intros Hok Hp Hs Hb. pose proof Hs as (ptrs & b & Hblk & Hptrs). pose proof (Forall2_length _ _ _ Hptrs) as Hl.
  unfold cobalt_join, join_impl. rewrite (proj2 (Z.eqb_neq _ _) Hp). apply wp_bind. unfold array_fuel.
  apply wp_bind. eapply wp_load; [exact Hblk|]. apply wp_ret.
  set (fuel := S (length ((Some <$> ptrs) ++ Some NULL :: b))).
  assert (length pieces < fuel)%nat as Hf by (unfold fuel; rewrite length_app, length_fmap; lia).
  assert (0 ≤ total pieces) by (unfold total; lia).
  assert (pieces = [] ∨ pieces ≠ [] ∧ ln (join_on d pieces) = total pieces + Z.of_nat (length pieces) - 1) as Hlen.
  { destruct pieces; [by left|right]. split; [done|]. by apply join_length. }
  apply wp_bind. eapply wp_mono; [apply (wp_measure w parts pieces fuel Hs); [|done]|].
  { destruct Hlen as [->|[Hne Hlen]]; [done|]. destruct pieces; [done|]. simpl in Hlen. lia. }
  intros r w1 [-> ->].
  replace (if (0 <? length pieces)%nat then wrap64 (total pieces + (Z.of_nat (length pieces) - 1)) else total pieces)
    with (ln (join_on d pieces)).
  2: { destruct Hlen as [->|[Hne Hlen]]; [done|]. destruct pieces; [done|]. cbn [length Nat.ltb Nat.leb].
       unfold wrap64. rewrite Z.mod_small; simpl in *; lia. }
  assert (wrap64 (ln (join_on d pieces) + 1) = Z.of_nat (S (length (join_on d pieces)))) as Ew.
  { unfold wrap64, ln in *. rewrite Z.mod_small; lia. }
  rewrite Ew, Nat2Z.id. apply wp_bind, wp_alloc_cells; [done| |].
  - intros q w1 Hq Hnew Hh Hok1 Hle. rewrite (proj2 (Z.eqb_neq _ _) Hq). apply wp_bind.
    eapply wp_mono; [apply (wp_copy w1 d parts pieces q fuel); [|by rewrite Hh, lookup_insert_eq|done]|].
    { exists ptrs, b. split; [rewrite Hh, lookup_insert_ne; [done|intros ->; by rewrite Hblk in Hnew]|].
      eapply Forall2_impl; [exact Hptrs|]. intros p s [? (b' & Hb' & ?)]. split; [done|]. exists b'.
      rewrite Hh, lookup_insert_ne; [done|]. intros ->. by rewrite Hb' in Hnew. }
    intros p w2 (_ & Ep & ->). simpl in Ep. rewrite take_ge in Ep by done. subst p. apply wp_bind.
    apply (wp_write q (join_on d pieces) [0] 1).
    { cbn [heap with_heap fst snd]. rewrite lookup_insert_eq, take_ge by done. do 3 f_equal. lia. }
    { simpl. lia. }
    apply wp_ret. split; [by destruct Hle; split|].
    assert (heap w1 !! q = Some (replicate (S (length (join_on d pieces))) None)) as Hq1 by by rewrite Hh, lookup_insert_eq.
    split; [|right; split_and!; [done|done|]].
    + eapply heap_ok_write; [eapply heap_ok_write; [done|exact Hq1]|]. simpl. by rewrite lookup_insert_eq.
    + simpl. rewrite !insert_insert_eq, app_nil_r, Hh, insert_insert_eq. done.
  - intros w1 Hh Hok1 Hle Hst. rewrite Z.eqb_refl. apply wp_ret. split_and!; [done|done|]. left. split_and!; [done|done|].
    eapply starved_mono; [exact Hst|]. unfold ln. lia.
Qed.

(** ** Comparisons *)

Lemma strncmp_prefix b : ∀ a, Forall (λ c, c ≠ 0) b → strncmp (length b) a b = 0 ↔ b `prefix_of` a.
Proof.
  induction b as [|y b IH]; intros a Hb; cbn [strncmp length]; [split; [intros _; apply prefix_nil|done]|].
  apply Forall_cons in Hb as [Hy Hb]. destruct a as [|x a]; cbn [head tail].
  - change (default 0 (Some y)) with y. change (default 0 None) with 0. destruct (Z.eqb_spec 0 y); [congruence|]. split; [lia|]. intros [l Hl]. done.
  - change (default 0 (Some x)) with x. change (default 0 (Some y)) with y. destruct (Z.eqb_spec x y) as [->|Hne].
    + rewrite (proj2 (Z.eqb_neq _ _) Hy), IH by done. split; [apply prefix_cons|apply prefix_cons_inv_2].
    + split; [lia|]. intros H%prefix_cons_inv_1. congruence.
Qed.

Lemma strncmp_eq n : ∀ a b, Forall (λ c, c ≠ 0) a → Forall (λ c, c ≠ 0) b → (length a < n)%nat →
  strncmp n a b = 0 ↔ a = b.
Proof.
  induction n as [|n IH]; intros a b Ha Hb Hn; [lia|]. cbn [strncmp].
  destruct a as [|x a], b as [|y b]; cbn [head tail].
  - done.
  - apply Forall_cons in Hb as [Hy _]. change (default 0 (Some y)) with y. change (default 0 None) with 0.
    destruct (Z.eqb_spec 0 y); [congruence|]. split; [lia|done].
  - apply Forall_cons in Ha as [Hx _]. change (default 0 (Some x)) with x. change (default 0 None) with 0.
    rewrite (proj2 (Z.eqb_neq _ _) Hx). split; [lia|done].
  - apply Forall_cons in Ha as [Hx Ha]. apply Forall_cons in Hb as [Hy Hb].
    change (default 0 (Some x)) with x. change (default 0 (Some y)) with y. destruct (Z.eqb_spec x y) as [->|Hne].
    + rewrite (proj2 (Z.eqb_neq _ _) Hy), IH by (done || (simpl in Hn; lia)). split; congruence.
    + split; [lia|congruence].
Qed.

Lemma strstr_spec sub : Forall (λ c, c ≠ 0) sub → ∀ s, is_Some (strstr s sub) ↔ ∃ l r, s = l ++ sub ++ r.
Proof.
  intros Hsub. induction s as [|c s IH]; cbn [strstr].
  - destruct (Z.eqb_spec (strncmp (length sub) [] sub) 0) as [E|E]; rewrite strncmp_prefix in E by done.
    + split; [|by eexists]. intros _. destruct E as [r Hr]. by exists [], r.
    + split; [by intros [? ?]|]. intros (l & r & H). destruct E. symmetry in H.
      apply app_eq_nil in H as [_ H]. by exists r.
  - destruct (Z.eqb_spec (strncmp (length sub) (c :: s) sub) 0) as [E|E]; rewrite strncmp_prefix in E by done.
    + split; [|by eexists]. intros _. destruct E as [r Hr]. by exists [], r.
    + rewrite fmap_is_Some, IH. split.
      * intros (l & r & ->). by exists (c :: l), r.
      * intros ([|c' l] & r & H); [destruct E; by exists r|]. injection H as -> ->. by exists l, r.
Qed.

(** The comparisons of strings without NUL characters agree with the
    relations they are named after: prefix, suffix and part of a string. *)
Theorem string_tests_correct s t (Hs : Forall (λ c, c ≠ 0) s) (Ht : Forall (λ c, c ≠ 0) t) :
  (cobalt_starts_with (Some s) (Some t) = true ↔ t `prefix_of` s) ∧
  (cobalt_ends_with (Some s) (Some t) = true ↔ t `suffix_of` s) ∧
  (cobalt_contains (Some s) (Some t) = true ↔ ∃ l r, s = l ++ t ++ r).
Proof.
  split_and!; unfold cobalt_starts_with, cobalt_ends_with, cobalt_contains.
  - destruct (Nat.ltb_spec (length s) (length t)) as [H|H].
    + split; [done|]. intros Hp%prefix_length. lia.
    + by rewrite Z.eqb_eq, strncmp_prefix.
  - destruct (Nat.ltb_spec (length s) (length t)) as [H|H].
    + split; [done|]. intros Hp%suffix_length. lia.
    + unfold strcmp. rewrite Z.eqb_eq, strncmp_eq; [|by apply Forall_drop|done|rewrite length_drop; lia]. split.
      * intros <-. exists (take (length s - length t) s). by rewrite take_drop.
      * intros [l ->]. rewrite length_app. replace (length l + length t - length t)%nat with (length l) by lia.
        by rewrite drop_app_length.
  - rewrite <- strstr_spec by done. destruct (strstr s t); by split.
Qed.

Lemma string_tests_correct_witness :
  cobalt_ends_with (Some [97; 98; 99]) (Some [98; 99]) = true ∧ [98; 99] `suffix_of` [97; 98; 99].
Proof.
  split; [reflexivity|]. apply (string_tests_correct [97; 98; 99] [98; 99]); [repeat constructor; discriminate..|reflexivity].
Defined.

(** ** Stripping *)

Lemma skip_blanks_spec s : ∃ l, s = l ++ skip_blanks s ∧ Forall (λ c, is_blank c = true) l ∧
  (∀ c, head (skip_blanks s) = Some c → is_blank c = false).
Proof.
  induction s as [|c s (l & E & Hl & Hh)]; simpl; [by exists []|]. destruct (is_blank c) eqn:Hc.
  - exists (c :: l). split_and!; [simpl; by rewrite <- E|by constructor|done].
  - exists []. split_and!; [done|done|]. by intros c' [= <-].
Qed.

Lemma trim_end_spec s n : (n ≤ length s)%nat →
  (trim_end s n ≤ n)%nat ∧ Forall (λ c, is_blank c = true) (drop (trim_end s n) (take n s)) ∧
  (∀ c, last (take (trim_end s n) s) = Some c → is_blank c = false).
Proof.
  induction n as [|n IH]; intros Hn; cbn [trim_end]; [by split_and!|].
  destruct (lookup_lt_is_Some_2 s n) as [c Hc]; [lia|]. rewrite Hc. simpl. destruct IH as (Hle & Hb & Hl); [lia|].
  destruct (is_blank c) eqn:E.
  - split_and!; [lia| |done]. rewrite (take_S_r _ _ _ Hc), drop_app_le by (rewrite length_take; lia).
    apply Forall_app. split; [done|by constructor].
  - split_and!; [lia|rewrite drop_ge by (rewrite length_take; lia); done|].
    intros c'. rewrite (take_S_r _ _ _ Hc), last_snoc. by intros [= <-].
Qed.

(** Stripping a string gives a new string without its blanks at either end:
    what is cut off is blank, what is left neither begins nor ends with a blank;
    out of memory the result is NULL and nothing is allocated. *)
Theorem strip_correct p s w (Hok : heap_ok w) (Hp : p ≠ NULL) (Hs : string_at w p s) :
  wp (cobalt_strip p) (λ r w', heap_ok w' ∧
    ((r = NULL ∧ heap w' = heap w ∧ starved w' (ln s + 1)) ∨
     ∃ l m t, s = l ++ m ++ t ∧ Forall (λ c, is_blank c = true) (l ++ t) ∧
       (∀ c, head m = Some c ∨ last m = Some c → is_blank c = false) ∧
       heap w !! r = None ∧ heap w' = <[r := str_block m]> (heap w))) w.
Proof.
  unfold cobalt_strip, strip_impl. rewrite (proj2 (Z.eqb_neq _ _) Hp). apply wp_bind. eapply wp_read_str; [exact Hs|].
  destruct (skip_blanks_spec s) as (l & El & Hl & Hh). set (start := skip_blanks s) in *.
  destruct (trim_end_spec start (length start)) as (Hle & Ht & Hlast); [lia|]. rewrite (take_ge start) in Ht by done.
  set (n := trim_end start (length start)) in *. apply wp_new_str; [done| |].
  - intros q w' Hq Hnew Hheap Hok' _. split; [done|]. right. exists l, (take n start), (drop n start).
    split_and!; [by rewrite take_drop|by apply Forall_app| |done|done].
    intros c [Hc|Hc]; [|by apply Hlast]. apply Hh. rewrite <- (take_drop n start). by destruct (take n start).
  - intros w' Hheap Hok' _ Hst. split; [done|]. left. split_and!; [done|done|]. eapply starved_mono; [exact Hst|].
    unfold ln. rewrite El, length_app, length_take. lia.
Qed.

(** ** Copies and formatted text *)

Lemma wp_new_text {R} (none : R) (some : Z → R) s (Q : R → sworld → Prop) w :
  heap_ok w →
  (∀ q w', q ≠ NULL → heap w !! q = None → heap w' = <[q := str_block s]> (heap w) → heap_ok w' → Q (some q) w') →
  (∀ w', heap w' = heap w → heap_ok w' → starved w' (ln s + 1) → Q none w') →
  wp (q <- alloc_cells (ln s + 1) (S (length s)) ;;
      if q =? NULL then mret none else write q 0 (s ++ [0]) ;;; mret (some q)) Q w.
Proof.
  intros Hok HQ HN. apply wp_bind, wp_alloc_cells; [done| |].
  - intros q w' Hq Hnew Hh Hok' _. rewrite (proj2 (Z.eqb_neq _ _) Hq). apply wp_bind.
    assert (heap w' !! q = Some ((Some <$> []) ++ replicate (S (length s)) None)) as Hb by (by rewrite Hh, lookup_insert_eq).
    apply (wp_write q [] (s ++ [0]) _ _ _ Hb); [rewrite length_app; simpl; lia|]. apply wp_ret.
    apply HQ; [done|done| |by eapply heap_ok_write]. simpl. rewrite Hh, insert_insert_eq, length_app. simpl.
    replace (S (length s) - (length s + 1))%nat with 0%nat by lia. by rewrite app_nil_r.
  - intros w' Hh Hok' _ Hst. apply wp_ret. by apply HN.
Qed.

(** Duplicating a string gives the same string in a new block, or NULL when
    memory is refused. *)
Theorem strdup_copies p s w (Hok : heap_ok w) (Hp : p ≠ NULL) (Hs : string_at w p s) :
  wp (cobalt_strdup p) (λ r w', heap_ok w' ∧
    ((r = NULL ∧ heap w' = heap w ∧ starved w' (ln s + 1)) ∨
     (r ≠ NULL ∧ heap w !! r = None ∧ heap w' = <[r := str_block s]> (heap w)))) w.
Proof.
  unfold cobalt_strdup, strdup_impl. rewrite (proj2 (Z.eqb_neq _ _) Hp). apply wp_bind. eapply wp_read_str; [exact Hs|].
  apply (wp_new_text NULL id); [done| |]; intros; (split; [done|]); [right|left]; by split_and!.
Qed.

(** Formatting into a new block returns the length of the text, or -1 when the
    library reports an error or memory is refused. *)
Theorem snprintf_formats {args} (vsnprintf : list Z → args → option (list Z)) fmt ap f w
  (Hok : heap_ok w) (Hp : fmt ≠ NULL) (Hs : string_at w fmt f) :
  wp (cobalt_snprintf vsnprintf true fmt ap) (λ r w', heap_ok w' ∧
    match vsnprintf f ap with
    | None => r = (-1, Some NULL) ∧ w' = w
    | Some text =>
        (r = (-1, Some NULL) ∧ heap w' = heap w ∧ starved w' (ln text + 1)) ∨
        (∃ q, r = (ln text, Some q) ∧ q ≠ NULL ∧ heap w !! q = None ∧ heap w' = <[q := str_block text]> (heap w))
    end) w.
Proof.
  unfold cobalt_snprintf, vformat_impl. rewrite (proj2 (Z.eqb_neq _ _) Hp). cbn [negb orb]. apply wp_bind.
  eapply wp_read_str; [exact Hs|]. destruct (vsnprintf f ap) as [text|]; [|by apply wp_ret].
  apply (wp_new_text (-1, Some NULL) (λ q, (ln text, Some q))); [done| |].
  - intros q w' Hq Hn Hh Hok'. split; [done|]. right. by exists q.
  - intros w' Hh Hok' Hst. split; [done|]. by left.
Qed.

(** ** Round trips *)

Lemma split_nonzero d rest : ∀ piece, Forall (λ c, c ≠ 0) (piece ++ rest) →
  Forall (Forall (λ c, c ≠ 0)) (split_on d piece rest).
Proof.
  induction rest as [|c rest IH]; intros piece H; simpl.
  - rewrite app_nil_r in H. by repeat constructor.
  - apply Forall_app in H as [Hp H]. pose proof H as [Hc Hr]%Forall_cons.
    destruct (c =? d); [constructor; [done|by apply IH]|]. apply IH. apply Forall_app. split; [|done].
    apply Forall_app. split; [done|by constructor].
Qed.

(** What a split leaves: NULL and nothing allocated when memory is refused, or
    an array with the pieces of [s], the strings without the delimiter that make
    [s] when they are joined, their number, and a NULL at the end. *)
Definition split_result (d : Z) (s : list Z) (h0 : gmap Z block) (r : Z * Z) (w : sworld) : Prop :=
  (r = (NULL, 0) ∧ heap w = h0 ∧ starved w (split_budget s)) ∨
  ∃ pieces parts ptrs, Forall (λ piece, d ∉ piece) pieces ∧ join_on d pieces = s ∧
    r = (parts, Z.of_nat (length pieces)) ∧ owned h0 parts ptrs pieces w.

(** C36: Splitting a string that is not empty and joining the pieces.  The split
    returns an array of new strings, none of which contains the delimiter and
    which joined with the delimiter make the string, with their number; joining
    them with [cobalt_join] gives the string back in a new block.  A result is
    NULL only when memory is refused, and a refused split leaves nothing
    allocated. *)
Theorem split_join_roundtrip d p s w (Hok : heap_ok w) (Hp : p ≠ NULL) (Hs : string_at w p s) (Hne : s ≠ [])
  (Hlen : ln s + 1 < 2 ^ 31) :
  wp (cobalt_split p d) (λ r w1, split_result d s (heap w) r w1 ∧
    wp (cobalt_join r.1 d) (λ q w',
      (q = NULL ∧ starved w' (split_budget s)) ∨
      (q ≠ NULL ∧ heap w1 !! q = None ∧ heap w' = <[q := str_block s]> (heap w1))) w1) w.
Proof.
  eapply wp_mono; [by apply wp_split|].
  intros r w1 [Hle [(-> & Hh & Hok1 & Hst)|(parts & ptrs & -> & Ho)]]; cbn [fst].
  { split; [by left|]. unfold cobalt_join, join_impl. rewrite Z.eqb_refl. apply wp_ret. by left. }
  split.
  { right. exists (split_on d [] s), parts, ptrs. split_and!; [apply split_no_delim; set_solver|apply join_split|done|done]. }
  destruct Hs as (b & Hb & Hc). pose proof (cstr_nonzero _ _ Hc) as Hz.
  pose proof (owned_strings _ _ _ _ _ (split_nonzero d s [] Hz) Ho) as Hst. pose proof (join_split d s) as E.
  eapply wp_mono; [apply (wp_join w1 d parts (split_on d [] s)); [apply Ho| |done|]|].
  - intros ->. apply (p_null _ _ _ _ _ Ho). set_solver.
  - rewrite E. lia.
  - rewrite E. intros q w2 (Hle2 & _ & [(-> & _ & Hst2)|(Hq & Hnew & Hh2)]); [left|by right].
    split; [done|]. eapply starved_mono; [exact Hst2|]. unfold split_budget, sizeof_ptr, ln. lia.
Qed.

(** Joining strings that do not contain the delimiter and splitting the
    result gives the strings back, with their number, in blocks of their own;
    when memory is refused while splitting, every block of the pieces has been
    released. *)
Theorem join_split_roundtrip d parts pieces w (Hok : heap_ok w) (Hp : parts ≠ NULL) (Hs : strings_at w parts pieces)
  (Hne : pieces ≠ []) (Hd : Forall (λ s, d ∉ s) pieces) (Hd0 : d ≠ 0) (Hlen : ln (join_on d pieces) + 1 < 2 ^ 31) :
  wp (q <- cobalt_join parts d ;; r <- cobalt_split q d ;; mret (q, r)) (λ qr w',
    (qr = (NULL, (NULL, 0)) ∧ heap w' = heap w) ∨
    (heap w !! qr.1 = None ∧
     split_post (<[qr.1 := str_block (join_on d pieces)]> (heap w)) pieces (split_budget (join_on d pieces)) qr.2 w')) w.
Proof.
  apply wp_bind. eapply wp_mono; [apply (wp_join w d parts pieces); [done|done|done|lia]|].
  intros q w1 (Hle & Hok1 & [(-> & Hh & _)|(Hq & Hnew & Hh)]).
  { unfold cobalt_split, split_impl. rewrite Z.eqb_refl. apply wp_bind, wp_ret, wp_ret. by left. }
  assert (Forall (λ c, c ≠ 0) (join_on d pieces)) as Hz.
  { unfold join_on. assert (Forall (λ c, c ≠ 0) (prefixed d pieces)) as H; [|by destruct H].
    destruct Hs as (ptrs & b & _ & Hs). unfold prefixed. clear -Hs Hd0.
    induction Hs as [|q s ptrs pieces [_ (b' & _ & Hc)] _ IH]; [done|]. rewrite fmap_cons, concat_cons.
    apply Forall_app. split; [|done]. constructor; [done|by eapply cstr_nonzero]. }
  apply wp_bind. eapply wp_mono; [apply (wp_split d q (join_on d pieces) w1 Hok1 Hq)|].
  { exists (str_block (join_on d pieces)). split; [by rewrite Hh, lookup_insert_eq|by apply cstr_str_block]. }
  intros r w2 [_ H]. apply wp_ret. right. split; [done|]. rewrite split_join in H by done. by rewrite Hh in H.
Qed.

(** A string in memory. *)
Definition demo (s : list Z) : sworld := World None {[ 1 := str_block s ]} 2 (λ _ _, true) 0 COBALT_SUCCESS.

Lemma demo_ok s : heap_ok (demo s).
Proof. split; simpl; [lia|]. intros p c [<- _]%lookup_singleton_Some. lia. Qed.

Lemma demo_string s : Forall (λ c, c ≠ 0) s → string_at (demo s) 1 s.
Proof. intros Hs. exists (str_block s). split; [apply lookup_singleton_eq|by apply cstr_str_block]. Qed.

Lemma split_join_roundtrip_witness :
  let s := [97; 44; 44; 98] in
  wp (cobalt_split 1 44) (λ r w1, split_result 44 s (heap (demo s)) r w1 ∧
    wp (cobalt_join r.1 44) (λ q w',
      (q = NULL ∧ starved w' (split_budget s)) ∨
      (q ≠ NULL ∧ heap w1 !! q = None ∧ heap w' = <[q := str_block s]> (heap w1))) w1) (demo s).
Proof.
  apply split_join_roundtrip; [apply demo_ok|done|apply demo_string; repeat constructor; discriminate|done|reflexivity].
Defined.

Lemma strip_correct_witness :
  ∃ l m t, [32; 97; 32; 98; 9] = l ++ m ++ t ∧ Forall (λ c, is_blank c = true) (l ++ t) ∧
    (∀ c, head m = Some c ∨ last m = Some c → is_blank c = false).
Proof.
  pose proof (strip_correct 1 [32; 97; 32; 98; 9] (demo [32; 97; 32; 98; 9]) (demo_ok _) ltac:(done)
    (demo_string [32; 97; 32; 98; 9] ltac:(repeat constructor; discriminate))) as H.
  unfold wp in H. set (o := cobalt_strip 1 _) in H. vm_compute in o. subst o. cbv beta iota in H.
  destruct H as [_ [(? & _)|(l & m & t & E & H1 & H2 & _)]]; [discriminate|]. by exists l, m, t.
Defined.

Definition demo_parts : sworld :=
  World None {[ 1 := Some <$> [2; 3; NULL]; 2 := str_block [97]; 3 := str_block [98; 99] ]} 4 (λ _ _, true) 0 COBALT_SUCCESS.

Lemma join_split_roundtrip_witness :
  wp (q <- cobalt_join 1 44 ;; r <- cobalt_split q 44 ;; mret (q, r)) (λ qr w',
    (qr = (NULL, (NULL, 0)) ∧ heap w' = heap demo_parts) ∨
    (heap demo_parts !! qr.1 = None ∧
     split_post (<[qr.1 := str_block [97; 44; 98; 99]]> (heap demo_parts)) [[97]; [98; 99]] (split_budget [97; 44; 98; 99]) qr.2 w'))
    demo_parts.
Proof.
  apply (join_split_roundtrip 44 1 [[97]; [98; 99]]); try done.
  - split; simpl; [lia|]. intros p c. rewrite !lookup_insert_Some, lookup_singleton_Some. lia.
  - exists [2; 3], []. split; [reflexivity|]. repeat constructor; try done; by eexists.
  - repeat constructor; set_solver.
Defined.
End StringsSpec.
