(* ===== verification/Functional.v ===== *)
(** * Functional and stream algorithms: src/src/algorithm/functional.c and stream.c

    Arrays are blocks of elements of one type, at the addresses of their first
    elements; two pointer arguments may be the same address.  An array of [nmemb]
    elements fits the address space, so indices do not wrap. *)
From S2P Require Import Prelude World SortSpec.

Module Functional.

(** The arrays of the program, by address. *)
Notation memory A := (gmap Z (list A)).

Section arrays.
Context {A : Type}.
Implicit Types (p : Z) (i n : nat).

Definition get p i : M (memory A) A :=
  λ m, match m !! p with
       | Some l => match l !! i with Some x => Ret x m | None => Fault BadAccess end
       | None => Fault BadAccess
       end.

Definition put p i (x : A) : M (memory A) unit :=
  λ m, match m !! p with
       | Some l => if (length l <=? i)%nat then Fault BadAccess else Ret tt (<[p := <[i := x]> l]> m)
       | None => Fault BadAccess
       end.

(** [memcpy(dst + d, src + s, n)] in elements: the blocks must not overlap. *)
Definition memcpy (dst : Z) (d : nat) (src : Z) (s n : nat) : M (memory A) unit :=
  λ m, match m !! src, m !! dst with
       | Some from, Some to =>
           if (length from <? s + n)%nat || (length to <? d + n)%nat then Fault BadAccess
           else if (dst =? src) && (0 <? n)%nat && (d <? s + n)%nat && (s <? d + n)%nat then Fault BadAccess
           else Ret tt (<[dst := take d to ++ take n (drop s from) ++ drop (d + n) to]> m)
       | _, _ => Fault BadAccess
       end.

(** ** src/src/algorithm/functional.c *)

(** Pointers to elements are [None] for NULL. *)
Definition predicate_equal (a b : option A) (comp : A → A → Z) : bool :=
  match a, b with
  | Some a, Some b => comp a b =? 0
  | None, None => true
  | _, _ => false
  end.

Definition predicate_not_equal (a b : option A) (comp : A → A → Z) : bool := negb (predicate_equal a b comp).
Definition predicate_null (item : option A) : bool := match item with None => true | Some _ => false end.
Definition predicate_nonnull (item : option A) : bool := match item with None => false | Some _ => true end.

(** One round of the binary search between [left] and [right]; an element is
    given by its index. *)
Definition bsearch_body (key : A) (base : Z) (compar : A → A → Z) (st : nat * nat) : M (memory A) ((nat * nat) + option nat) :=
  let '(lo, hi) := st in
  if (lo <? hi)%nat then
    let mid := (lo + (hi - lo) / 2)%nat in
    x <- get base mid ;;
    let cmp := compar key x in
    mret (if cmp =? 0 then inr (Some mid) else if cmp <? 0 then inl (lo, mid) else inl (S mid, hi))
  else mret (inr None).

Definition cobalt_bsearch (key : option A) (base : Z) (nmemb : nat) (compar : option (A → A → Z)) : M (memory A) (option nat) :=
  match key, compar with
  | Some key, Some compar =>
      if (base =? NULL) || (nmemb =? 0)%nat then mret None
      else loop (S nmemb) (bsearch_body key base compar) (0%nat, nmemb)
  | _, _ => mret None
  end.

Definition find_body (base : Z) (nmemb : nat) (pred : A → bool) (i : nat) : M (memory A) (nat + option nat) :=
  if (i <? nmemb)%nat then x <- get base i ;; mret (if pred x then inr (Some i) else inl (S i)) else mret (inr None).

Definition cobalt_find_if (base : Z) (nmemb : nat) (pred : option (A → bool)) : M (memory A) (option nat) :=
  match pred with
  | Some pred => if (base =? NULL) || (nmemb =? 0)%nat then mret None else loop (S nmemb) (find_body base nmemb pred) 0%nat
  | None => mret None
  end.

(** The operation replaces the element it is handed. *)
Definition for_body (base : Z) (nmemb : nat) (op : A → A) (i : nat) : M (memory A) (nat + unit) :=
  if (i <? nmemb)%nat then x <- get base i ;; put base i (op x) ;;; mret (inl (S i)) else mret (inr tt).

Definition cobalt_for_each (base : Z) (nmemb : nat) (op : option (A → A)) : M (memory A) unit :=
  match op with
  | Some op => if (base =? NULL) || (nmemb =? 0)%nat then mret tt else loop (S nmemb) (for_body base nmemb op) 0%nat
  | None => mret tt
  end.

(** [fn] reads its first argument and writes its second. *)
Definition map_body (input output : Z) (nmemb : nat) (fn : A → A) (i : nat) : M (memory A) (nat + unit) :=
  if (i <? nmemb)%nat then x <- get input i ;; put output i (fn x) ;;; mret (inl (S i)) else mret (inr tt).

Definition cobalt_map (input output : Z) (nmemb : nat) (fn : option (A → A)) : M (memory A) Z :=
  match fn with
  | Some fn =>
      if (input =? NULL) || (output =? NULL) || (nmemb =? 0)%nat then mret (-1)
      else loop (S nmemb) (map_body input output nmemb fn) 0%nat ;;; mret 0
  | None => mret (-1)
  end.

(** The index and the number of elements kept so far. *)
Definition filter_body (input output : Z) (nmemb : nat) (pred : A → bool) (st : nat * nat) : M (memory A) ((nat * nat) + nat) :=
  let '(i, count) := st in
  if (i <? nmemb)%nat then
    x <- get input i ;;
    if pred x then
      (if (count =? i)%nat then mret tt else memcpy output count input i 1) ;;;
      mret (inl (S i, S count))
    else mret (inl (S i, count))
  else mret (inr count).

(** The returned value and the new value of [*nmemb]. *)
Definition cobalt_filter (input output : Z) (nmemb : option nat) (pred : option (A → bool)) : M (memory A) (Z * option nat) :=
  match nmemb, pred with
  | Some n, Some pred =>
      if (input =? NULL) || (output =? NULL) then mret (-1, Some n)
      else count <- loop (S n) (filter_body input output n pred) (0%nat, 0%nat) ;; mret (0, Some count)
  | _, _ => mret (-1, nmemb)
  end.

Definition fold_body {B} (input : Z) (nmemb : nat) (fn : B → A → B) (st : nat * B) : M (memory A) ((nat * B) + B) :=
  let '(i, acc) := st in
  if (i <? nmemb)%nat then x <- get input i ;; mret (inl (S i, fn acc x)) else mret (inr acc).

Definition cobalt_fold {B} (input : Z) (nmemb : nat) (initial : B) (fn : option (B → A → B)) : M (memory A) B :=
  match fn with
  | Some fn =>
      if (input =? NULL) || (nmemb =? 0)%nat then mret initial
      else loop (S nmemb) (fold_body input nmemb fn) (0%nat, initial)
  | None => mret initial
  end.

(** ** src/src/algorithm/stream.c *)

Definition cobalt_stream_take (input output : Z) (n nmemb size : nat) : M (memory A) unit :=
  if (input =? NULL) || (output =? NULL) || (size =? 0)%nat || (nmemb =? 0)%nat then mret tt
  else memcpy output 0 input 0 (if (n <? nmemb)%nat then n else nmemb).

(** The value stored through [out_nemb], when that is not NULL. *)
Definition cobalt_stream_drop (input output : Z) (n nmemb size : nat) : M (memory A) nat :=
  if (input =? NULL) || (output =? NULL) || (size =? 0)%nat || (nmemb =? 0)%nat then mret 0%nat
  else
    let skip := if (n <? nmemb)%nat then n else nmemb in
    let count := (nmemb - skip)%nat in
    (if (0 <? count)%nat then memcpy output 0 input skip count else mret tt) ;;;
    mret count.

(** [for (i = 0; i < count; i++) if (!pred(...)) break] *)
Definition while_body (input : Z) (count : nat) (pred : A → bool) (i : nat) : M (memory A) (nat + nat) :=
  if (i <? count)%nat then x <- get input i ;; mret (if pred x then inl (S i) else inr i) else mret (inr i).

(** [if (nmemb) *nmemb = 0] *)
Definition stored (nmemb : option nat) : option nat := match nmemb with Some _ => Some 0%nat | None => None end.

Definition cobalt_stream_take_while (input output : Z) (nmemb : option nat) (size : nat) (pred : option (A → bool))
    : M (memory A) (option nat) :=
  if (input =? NULL) || (output =? NULL) || (size =? 0)%nat then mret (stored nmemb)
  else
    match pred, nmemb with
    | None, _ => mret (stored nmemb)
    | Some _, None => mfail NullDeref
    | Some pred, Some count =>
        i <- loop (S count) (while_body input count pred) 0%nat ;;
        (if (0 <? i)%nat then memcpy output 0 input 0 i else mret tt) ;;;
        mret (Some i)
    end.

Definition cobalt_stream_drop_while (input output : Z) (nmemb : option nat) (size : nat) (pred : option (A → bool))
    : M (memory A) (option nat) :=
  if (input =? NULL) || (output =? NULL) || (size =? 0)%nat then mret (stored nmemb)
  else
    match pred, nmemb with
    | None, _ => mret (stored nmemb)
    | Some _, None => mfail NullDeref
    | Some pred, Some count =>
        skip <- loop (S count) (while_body input count pred) 0%nat ;;
        let remaining := (count - skip)%nat in
        (if (0 <? remaining)%nat then memcpy output 0 input skip remaining else mret tt) ;;;
        mret (Some remaining)
    end.
End arrays.
End Functional.

(** ** What the functions compute *)
Module FunctionalSpec.
Import Functional.

Section spec.
Context {A : Type}.
Implicit Types (m : memory A) (l : list A) (x : A).

Lemma wp_array_get m p i l x (Q : A → memory A → Prop) :
  m !! p = Some l → l !! i = Some x → Q x m → wp (get p i) Q m.
Proof. unfold wp, get. by intros -> ->. Qed.

Lemma wp_array_put m p i l x (Q : unit → memory A → Prop) :
  m !! p = Some l → (i < length l)%nat → Q tt (<[p := <[i := x]> l]> m) → wp (put p i x) Q m.
Proof. unfold wp, put. intros -> Hi. by rewrite (proj2 (Nat.leb_gt _ _)) by lia. Qed.

(** A copy between two arrays. *)
Lemma wp_memcpy m dst d src s n from to (Q : unit → memory A → Prop) :
  m !! src = Some from → m !! dst = Some to → dst ≠ src → (s + n ≤ length from)%nat → (d + n ≤ length to)%nat →
  Q tt (<[dst := take d to ++ take n (drop s from) ++ drop (d + n) to]> m) → wp (memcpy dst d src s n) Q m.
Proof.
  unfold wp, memcpy. intros -> -> Hne Hs Hd. rewrite !(proj2 (Nat.ltb_ge _ _)) by lia.
  by rewrite (proj2 (Z.eqb_neq _ _) Hne).
Qed.

(** One element moved within an array. *)
Lemma wp_memcpy_move m p d s l x (Q : unit → memory A → Prop) :
  m !! p = Some l → l !! s = Some x → (d < s)%nat → Q tt (<[p := <[d := x]> l]> m) → wp (memcpy p d p s 1) Q m.
Proof.
  unfold wp, memcpy. intros -> Hx Hds. pose proof (lookup_lt_Some _ _ _ Hx).
  rewrite !(proj2 (Nat.ltb_ge _ _)) by lia. rewrite Z.eqb_refl. simpl.
  rewrite (proj2 (Nat.ltb_lt d (s + 1))) by lia. rewrite (proj2 (Nat.ltb_ge s (d + 1))) by lia. simpl.
  intros HQ. rewrite insert_take_drop in HQ by lia. rewrite (drop_S _ x s) by done. simpl.
  by replace (d + 1)%nat with (S d) by lia.
Qed.

(** A loop over the indices below [n]. *)
Lemma wp_index_loop {B} (I : nat → memory A → Prop) (body : nat → M (memory A) (nat + B)) Q n m :
  I 0%nat m →
  (∀ i m, I i m → (i ≤ n)%nat →
     wp (body i) (λ r m', match r with inl i' => i' = S i ∧ (i < n)%nat ∧ I i' m' | inr b => Q b m' end) m) →
  wp (loop (S n) body 0%nat) Q m.
Proof.
  intros H0 Hb. apply (wp_loop (λ i m, I i m ∧ (i ≤ n)%nat) (λ i _, (n - i)%nat)); [split; [done|lia]|lia|].
  intros i m' [HI Hi]. eapply wp_mono; [by apply Hb|]. intros [i'|b] m2; [|done]. intros (-> & ? & ?).
  split; [split; [done|lia]|lia].
Qed.

(** ** Searching *)

Lemma sorted_lookup (R : relation A) l : StronglySorted R l →
  ∀ i j x y, (i < j)%nat → l !! i = Some x → l !! j = Some y → R x y.
Proof.
  induction 1 as [|z l _ IH Hz]; intros [|i] [|j] x y Hij Hx Hy; try done; try lia; simpl in *.
  - injection Hx as <-. by apply (proj1 (Forall_lookup _ _) Hz _ _ Hy).
  - apply (IH i j); [lia|done|done].
Qed.

Section search.
Context (cmp : A → A → Z) `{!Comparator cmp}.

Lemma below_key key x y : cmp x y ≤ 0 → 0 < cmp key y → 0 < cmp key x.
Proof. intros Hxy Hy. destruct (Z.lt_ge_cases 0 (cmp key x)); [done|]. pose proof (cmp_trans key x y). lia. Qed.

Lemma above_key key x y : cmp x y ≤ 0 → cmp key x < 0 → cmp key y < 0.
Proof.
  intros Hxy Hx. pose proof (cmp_trans key x y). pose proof (cmp_sym key y). pose proof (cmp_sym y key).
  pose proof (cmp_sym x key). pose proof (cmp_trans x y key). lia.
Qed.

(** C37: A binary search of a sorted array ends after at most as many rounds as
    there are elements and returns the index of an element equal to the key, or
    nothing when no element is; it changes nothing and reads only the array. *)
Theorem bsearch_correct (key : A) base nmemb m l (Hl : m !! base = Some l) (Hn : (0 < nmemb ≤ length l)%nat)
  (Hbase : base ≠ NULL) (Hsorted : StronglySorted (le cmp) (take nmemb l)) :
  wp (cobalt_bsearch (Some key) base nmemb (Some cmp)) (λ r m', m' = m ∧
    match r with
    | Some i => (i < nmemb)%nat ∧ ∃ x, l !! i = Some x ∧ cmp key x = 0
    | None => ∀ i x, (i < nmemb)%nat → l !! i = Some x → cmp key x ≠ 0
    end) m.
Proof.
  assert (∀ i j x y, (i < j < nmemb)%nat → l !! i = Some x → l !! j = Some y → cmp x y ≤ 0) as Hle.
  { intros i j x y Hij Hx Hy. apply (sorted_lookup _ _ Hsorted i j); [lia|..];
      rewrite lookup_take_lt by lia; done. }
  unfold cobalt_bsearch. rewrite (proj2 (Z.eqb_neq _ _) Hbase), (proj2 (Nat.eqb_neq _ _)) by lia. cbn [orb].
  apply (wp_loop (λ st m', m' = m ∧ (st.1 ≤ st.2 ≤ nmemb)%nat ∧
      (∀ i x, (i < st.1)%nat → l !! i = Some x → 0 < cmp key x) ∧
      (∀ i x, (st.2 ≤ i < nmemb)%nat → l !! i = Some x → cmp key x < 0)) (λ st _, st.2 - st.1)%nat).
  - simpl. split_and!; [done|lia|lia|lia|lia].
  - simpl. lia.
  - intros [lo hi] m' (-> & Hlh & Hlo & Hhi). cbn [fst snd] in *. unfold bsearch_body.
    destruct (Nat.ltb_spec lo hi) as [Hlt|Hge].
    + cbv zeta. set (mid := (lo + (hi - lo) / 2)%nat).
      assert (lo ≤ mid < hi)%nat as Hmid.
      { unfold mid. pose proof (Nat.div_lt_upper_bound (hi - lo) 2 (hi - lo)). lia. }
      clearbody mid.
      destruct (lookup_lt_is_Some_2 l mid) as [y Hy]; [lia|]. apply wp_bind. eapply wp_array_get; [exact Hl|exact Hy|].
      apply wp_ret. destruct (Z.eqb_spec (cmp key y) 0) as [E|E].
      { split; [done|]. split; [lia|]. by exists y. }
      destruct (Z.ltb_spec (cmp key y) 0) as [Hc|Hc]; (split; [|simpl; lia]); simpl; split_and!; try done; try lia.
      * intros i x Hi Hx. destruct (decide (i = mid)) as [->|]; [congruence|].
        eapply above_key; [|exact Hc]. eapply (Hle mid i); [lia|done|done].
      * intros i x Hi Hx. destruct (decide (i = mid)) as [->|]; [rewrite Hy in Hx; injection Hx as <-; lia|].
        eapply (below_key key x y); [|lia]. eapply (Hle i mid); [lia|done|done].
    + apply wp_ret. split; [done|]. intros i x Hi Hx. destruct (decide (i < lo)%nat).
      * specialize (Hlo i x ltac:(lia) Hx). lia.
      * specialize (Hhi i x ltac:(lia) Hx). lia.
Qed.
End search.

(** ** Filtering *)

(** Filtering an array in place terminates, moves exactly the elements that
    satisfy the predicate to its front in their order and returns their number. *)
Theorem filter_in_place p n m l (pred : A → bool) (Hl : m !! p = Some l) (Hn : (n ≤ length l)%nat) (Hp : p ≠ NULL) :
  wp (cobalt_filter p p (Some n) (Some pred)) (λ r m', ∃ l',
    r = (0, Some (length (filter pred (take n l)))) ∧ m' = <[p := l']> m ∧ length l' = length l ∧
    take (length (filter pred (take n l))) l' = filter pred (take n l)) m.
Proof.
  unfold cobalt_filter. rewrite (proj2 (Z.eqb_neq _ _) Hp). cbn [orb]. apply wp_bind.
  apply (wp_loop (λ st m', (st.1 ≤ n)%nat ∧ st.2 = length (filter pred (take st.1 l)) ∧ ∃ l',
      m' = <[p := l']> m ∧ length l' = length l ∧ take st.2 l' = filter pred (take st.1 l) ∧
      drop st.1 l' = drop st.1 l) (λ st _, n - st.1)%nat).
  - simpl. split_and!; [lia|done|]. exists l. split_and!; try done. 
    symmetry. by apply insert_id.
  - simpl. lia.
  - intros [i c] m' (Hi & Ec & l' & -> & Hlen & Ht & Hd). cbn [fst snd] in *. unfold filter_body.
    assert (c ≤ i)%nat as Hci by (rewrite Ec; etrans; [apply length_filter|rewrite length_take; lia]).
    destruct (Nat.ltb_spec i n) as [Hlt|Hge].
    + destruct (lookup_lt_is_Some_2 l i) as [x Hx]; [lia|].
      assert (l' !! i = Some x) as Hx'.
      { rewrite <- (Nat.add_0_r i), <- lookup_drop, Hd, lookup_drop, Nat.add_0_r. done. }
      assert (drop (S i) l' = drop (S i) l) as Hd1.
      { apply (f_equal tail) in Hd. by rewrite (drop_S _ x), (drop_S l x) in Hd. }
      apply wp_bind. eapply wp_array_get; [by rewrite lookup_insert_eq|done|].
      assert (filter pred (take (S i) l) = filter pred (take i l) ++ if pred x then [x] else []) as Ef.
      { rewrite (take_S_r _ _ _ Hx), filter_app. f_equal. rewrite filter_cons. simpl.
        destruct (pred x); [by rewrite decide_True by done|by rewrite decide_False by auto]. }
      destruct (pred x) eqn:Epx.
      * apply wp_bind.
        assert (wp (if (c =? i)%nat then mret tt else memcpy p c p i 1)
          (λ _ m', ∃ l2, m' = <[p := l2]> m ∧ length l2 = length l ∧ take (S c) l2 = take c l' ++ [x] ∧ drop (S i) l2 = drop (S i) l)
          (<[p := l']> m)) as Hmove.
        { destruct (Nat.eqb_spec c i) as [->|Hne].
          - apply wp_ret. exists l'. split_and!; try done. by rewrite (take_S_r _ _ _ Hx').
          - eapply wp_memcpy_move; [by rewrite lookup_insert_eq|done|lia|]. exists (<[c := x]> l').
            rewrite insert_insert_eq, length_insert. split_and!; try done.
            + rewrite (take_S_r _ _ x) by (rewrite list_lookup_insert_eq; [done|]; apply lookup_lt_Some in Hx'; lia).
              f_equal. by rewrite take_insert_ge by lia.
            + rewrite drop_insert_lt by lia. done. }
        eapply wp_mono; [exact Hmove|]. intros [] m2 (l2 & -> & Hlen2 & Ht2 & Hd2). apply wp_ret.
        split; [|simpl; lia]. cbn [fst snd]. rewrite Ef, length_app. split_and!; [lia|simpl; lia|].
        exists l2. split_and!; try done. by rewrite Ht2, Ht.
      * apply wp_ret. split; [|simpl; lia]. cbn [fst snd]. rewrite Ef, app_nil_r. split_and!; [lia|done|].
        exists l'. by split_and!.
    + apply wp_ret. assert (i = n) as -> by lia. apply wp_ret. exists l'. by rewrite <- Ec.
Qed.
(** Filtering into a second buffer leaves the leading elements that are kept
    uncopied: when the predicate holds of every element the call reports success
    and the full count, and the output buffer is not written at all. *)
Theorem filter_copies_nothing input output n m l (pred : A → bool) (Hl : m !! input = Some l) (Hn : (n ≤ length l)%nat)
  (Hin : input ≠ NULL) (Hout : output ≠ NULL) (Hall : Forall pred (take n l)) :
  wp (cobalt_filter input output (Some n) (Some pred)) (λ r m', r = (0, Some n) ∧ m' = m) m.
Proof.
  unfold cobalt_filter. rewrite (proj2 (Z.eqb_neq _ _) Hin), (proj2 (Z.eqb_neq _ _) Hout). cbn [orb]. apply wp_bind.
  apply (wp_loop (λ st m', (st.1 ≤ n)%nat ∧ st.2 = st.1 ∧ m' = m) (λ st _, n - st.1)%nat); [by split_and!; [simpl; lia|..]|simpl; lia|].
  intros [i c] m' (Hi & Ec & ->). cbn [fst snd] in *. subst c. unfold filter_body.
  destruct (Nat.ltb_spec i n) as [Hlt|Hge].
  - destruct (lookup_lt_is_Some_2 l i) as [x Hx]; [lia|]. apply wp_bind. eapply wp_array_get; [exact Hl|exact Hx|].
    assert (pred x) as Hpx by (apply (Forall_lookup_1 (λ x, pred x) _ i x Hall); by rewrite lookup_take_lt).
    apply Is_true_true in Hpx. rewrite Hpx, Nat.eqb_refl. apply wp_bind, wp_ret, wp_ret. simpl. split_and!; done || lia.
  - apply wp_ret, wp_ret. assert (i = n) as -> by lia. done.
Qed.

(** ** Searching, mapping and folding every element *)

(** The first element a predicate selects, and its index. *)
Theorem find_if_first base nmemb m l (pred : A → bool) (Hl : m !! base = Some l) (Hn : (0 < nmemb ≤ length l)%nat)
  (Hbase : base ≠ NULL) :
  wp (cobalt_find_if base nmemb (Some pred)) (λ r m', m' = m ∧ r = fst <$> list_find pred (take nmemb l)) m.
Proof.
  unfold cobalt_find_if. rewrite (proj2 (Z.eqb_neq _ _) Hbase), (proj2 (Nat.eqb_neq _ _)) by lia. cbn [orb].
  apply (wp_index_loop (λ i m', m' = m ∧ ∀ j y, (j < i)%nat → l !! j = Some y → ¬ pred y)); [split; [done|lia]|].
  intros i m' [-> Hbefore] Hi. unfold find_body. destruct (Nat.ltb_spec i nmemb) as [Hlt|Hge].
  - destruct (lookup_lt_is_Some_2 l i) as [x Hx]; [lia|]. apply wp_bind. eapply wp_array_get; [exact Hl|exact Hx|].
    apply wp_ret. destruct (pred x) eqn:Ep.
    + split; [done|]. rewrite (proj2 (list_find_Some pred (take nmemb l) i x)); [done|].
      split_and!; [by rewrite lookup_take_lt|by rewrite Ep|]. intros j y Hy Hj.
      apply (Hbefore j y Hj). rewrite lookup_take_lt in Hy by lia. done.
    + split_and!; [done|lia|done|]. intros j y Hj Hy. destruct (decide (j = i)) as [->|]; [|by apply (Hbefore j); [lia|]].
      rewrite Hx in Hy. injection Hy as <-. rewrite Ep. by intros [].
  - apply wp_ret. split; [done|]. assert (i = nmemb) as -> by lia.
    rewrite (proj2 (list_find_None pred (take nmemb l))); [done|]. apply Forall_lookup. intros j y Hy.
    apply lookup_take_Some in Hy as [Hy Hj]. by apply (Hbefore j).
Qed.

(** A fold combines the elements from the left. *)
Theorem fold_is_fold_left {B} input nmemb m l (b : B) (fn : B → A → B) (Hl : m !! input = Some l) (Hn : (nmemb ≤ length l)%nat)
  (Hin : input ≠ NULL) :
  wp (cobalt_fold input nmemb b (Some fn)) (λ r m', m' = m ∧ r = fold_left fn (take nmemb l) b) m.
Proof.
  unfold cobalt_fold. rewrite (proj2 (Z.eqb_neq _ _) Hin). cbn [orb]. destruct (Nat.eqb_spec nmemb 0) as [->|Hn0]; [by apply wp_ret|].
  apply (wp_loop (λ st m', m' = m ∧ (st.1 ≤ nmemb)%nat ∧ st.2 = fold_left fn (take st.1 l) b) (λ st _, nmemb - st.1)%nat);
    [simpl; split_and!; done || lia|simpl; lia|].
  intros [i acc] m' (-> & Hi & Ea). cbn [fst snd] in *. unfold fold_body. destruct (Nat.ltb_spec i nmemb) as [Hlt|Hge].
  - destruct (lookup_lt_is_Some_2 l i) as [x Hx]; [lia|]. apply wp_bind. eapply wp_array_get; [exact Hl|exact Hx|].
    apply wp_ret. cbn [fst snd]. rewrite (take_S_r _ _ _ Hx), fold_left_app, <- Ea. simpl. split_and!; done || lia.
  - apply wp_ret. assert (i = nmemb) as -> by lia. done.
Qed.

(** A map of one array into another, or into itself, applies the function to
    each element. *)
Theorem map_elements input output nmemb m l to (fn : A → A) (Hl : m !! input = Some l) (Ht : m !! output = Some to)
  (Hn : (0 < nmemb)%nat) (Hnl : (nmemb ≤ length l)%nat) (Hnt : (nmemb ≤ length to)%nat) (Hin : input ≠ NULL) (Hout : output ≠ NULL) :
  wp (cobalt_map input output nmemb (Some fn)) (λ r m',
    r = 0 ∧ m' = <[output := (fn <$> take nmemb l) ++ drop nmemb to]> m) m.
Proof.
  unfold cobalt_map. rewrite (proj2 (Z.eqb_neq _ _) Hin), (proj2 (Z.eqb_neq _ _) Hout), (proj2 (Nat.eqb_neq _ _)) by lia.
  cbn [orb]. apply wp_bind.
  apply (wp_index_loop (λ i m', m' = <[output := (fn <$> take i l) ++ drop i to]> m)); [simpl; by rewrite insert_id|].
  intros i m' -> Hi. unfold map_body. destruct (Nat.ltb_spec i nmemb) as [Hlt|Hge].
  - destruct (lookup_lt_is_Some_2 l i) as [x Hx]; [lia|]. destruct (lookup_lt_is_Some_2 to i) as [y Hy]; [lia|].
    assert (length (fn <$> take i l) = i) as Hfi by (rewrite length_fmap, length_take; lia).
    apply wp_bind. apply (wp_mono _ (λ r m', r = x ∧ m' = <[output := (fn <$> take i l) ++ drop i to]> m)).
    { destruct (decide (input = output)) as [<-|Hne].
      - rewrite Hl in Ht. injection Ht as <-. eapply wp_array_get; [by rewrite lookup_insert_eq| |done].
        rewrite lookup_app_r, Hfi, Nat.sub_diag, lookup_drop, Nat.add_0_r by lia. exact Hx.
      - eapply wp_array_get; [by rewrite lookup_insert_ne|exact Hx|done]. }
    intros r m2 [-> ->]. apply wp_bind. eapply wp_array_put; [by rewrite lookup_insert_eq| |].
    { rewrite length_app, Hfi, length_drop. lia. }
    apply wp_ret. split_and!; [done|done|]. rewrite insert_insert_eq. f_equal.
    rewrite (drop_S _ _ _ Hy), insert_app_r_alt, Hfi, Nat.sub_diag by lia. simpl.
    rewrite (take_S_r _ _ _ Hx), fmap_app, <- app_assoc. done.
  - apply wp_ret, wp_ret. assert (i = nmemb) as -> by lia. done.
Qed.

(** ** Streams *)

(** The longest prefix whose elements all satisfy a predicate. *)
Fixpoint prefix_while (pred : A → bool) l : list A :=
  match l with
  | [] => []
  | x :: l => if pred x then x :: prefix_while pred l else []
  end.

Lemma prefix_while_take (pred : A → bool) l i x : Forall pred (take i l) → l !! i = Some x → pred x = false →
  prefix_while pred l = take i l.
Proof.
  revert i. induction l as [|y l IH]; intros [|i] Hf Hx Hp; simpl in *; try done.
  - injection Hx as ->. by rewrite Hp.
  - inversion Hf as [|?? Hy Hf']; subst. apply Is_true_true in Hy. rewrite Hy. f_equal. by apply IH.
Qed.

Lemma prefix_while_all (pred : A → bool) l : Forall pred l → prefix_while pred l = l.
Proof. induction 1 as [|x l Hx _ IH]; simpl; [done|]. apply Is_true_true in Hx. by rewrite Hx, IH. Qed.

Lemma wp_while_loop input count m l pred (Q : nat → memory A → Prop) : m !! input = Some l → (count ≤ length l)%nat →
  Q (length (prefix_while pred (take count l))) m → wp (loop (S count) (while_body input count pred) 0%nat) Q m.
Proof.
  intros Hl Hn HQ. apply (wp_index_loop (λ i m', m' = m ∧ Forall pred (take i l))); [done|].
  intros i m' [-> Hf] Hi. unfold while_body. destruct (Nat.ltb_spec i count) as [Hlt|Hge].
  - destruct (lookup_lt_is_Some_2 l i) as [x Hx]; [lia|]. apply wp_bind. eapply wp_array_get; [exact Hl|exact Hx|].
    apply wp_ret. destruct (pred x) eqn:Ep.
    + split_and!; [done|lia|done|]. rewrite (take_S_r _ _ _ Hx). apply Forall_app. split; [done|]. apply Forall_singleton. by rewrite Ep.
    + erewrite (prefix_while_take pred (take count l) i x) in HQ; [|rewrite take_take; by replace (i `min` count)%nat with i by lia
        |by rewrite lookup_take_lt|done].
      rewrite take_take, length_take in HQ. by replace (i `min` count `min` length l)%nat with i in HQ by lia.
  - apply wp_ret. assert (i = count) as -> by lia. rewrite prefix_while_all in HQ by done.
    rewrite length_take in HQ. by replace (count `min` length l)%nat with count in HQ by lia.
Qed.

Lemma prefix_while_prefix pred l : take (length (prefix_while pred l)) l = prefix_while pred l.
Proof. induction l as [|x l IH]; simpl; [done|]. destruct (pred x); simpl; [by rewrite IH|done]. Qed.

Lemma prefix_while_length pred l : (length (prefix_while pred l) ≤ length l)%nat.
Proof. induction l as [|x l IH]; simpl; [lia|]. destruct (pred x); simpl; lia. Qed.

(** Taking and dropping while a predicate holds split an array: between them
    the two output buffers receive every element exactly once, in order, cut
    before the first element that fails the predicate, and the stored counts are
    the lengths of the two parts. *)
Theorem while_split input out1 out2 count size m l a b (pred : A → bool) (Hl : m !! input = Some l)
  (Ha : m !! out1 = Some a) (Hb : m !! out2 = Some b) (H1 : out1 ≠ input) (H2 : out2 ≠ input) (H12 : out1 ≠ out2)
  (Hn : (count ≤ length l)%nat) (Hna : (count ≤ length a)%nat) (Hnb : (count ≤ length b)%nat)
  (Hnull : input ≠ NULL ∧ out1 ≠ NULL ∧ out2 ≠ NULL) (Hsize : size ≠ 0%nat) :
  wp (r1 <- cobalt_stream_take_while input out1 (Some count) size (Some pred) ;;
      r2 <- cobalt_stream_drop_while input out2 (Some count) size (Some pred) ;;
      mret (r1, r2)) (λ r m', ∃ n1 n2 a' b',
    r = (Some n1, Some n2) ∧ m' = <[out2 := b']> (<[out1 := a']> m) ∧
    length a' = length a ∧ length b' = length b ∧
    take n1 a' = prefix_while pred (take count l) ∧ take n1 a' ++ take n2 b' = take count l ∧ (n1 + n2 = count)%nat) m.
Proof.
  destruct Hnull as (Hi0 & H10 & H20). set (pre := prefix_while pred (take count l)).
  assert (length pre ≤ count)%nat as Hk by (etrans; [apply prefix_while_length|rewrite length_take; lia]).
  assert (take (length pre) (take count l) = pre) as Hpre by apply prefix_while_prefix.
  apply wp_bind, (wp_mono _ (λ r m', r = Some (length pre) ∧ m' = <[out1 := pre ++ drop (length pre) a]> m)).
  { unfold cobalt_stream_take_while. rewrite (proj2 (Z.eqb_neq _ _) Hi0), (proj2 (Z.eqb_neq _ _) H10), (proj2 (Nat.eqb_neq _ _) Hsize).
    cbn [orb]. apply wp_bind. eapply wp_while_loop; [exact Hl|done|]. fold pre. destruct (Nat.ltb_spec 0 (length pre)) as [Hp|Hp].
    - apply wp_bind. eapply wp_memcpy; [exact Hl|exact Ha|done|simpl; lia|simpl; lia|]. apply wp_ret. split; [done|].
      simpl. rewrite drop_0. rewrite take_take in Hpre. replace (length pre `min` count)%nat with (length pre) in Hpre by lia.
      by rewrite Hpre.
    - apply wp_bind, wp_ret, wp_ret. split; [done|]. destruct pre; [|simpl in *; lia]. simpl. by rewrite drop_0, insert_id. }
  intros r1 m1 [-> ->]. apply wp_bind.
  apply (wp_mono _ (λ r m', r = Some (count - length pre)%nat ∧
    m' = <[out2 := drop (length pre) (take count l) ++ drop (count - length pre) b]> (<[out1 := pre ++ drop (length pre) a]> m))).
  { unfold cobalt_stream_drop_while. rewrite (proj2 (Z.eqb_neq _ _) Hi0), (proj2 (Z.eqb_neq _ _) H20), (proj2 (Nat.eqb_neq _ _) Hsize).
    cbn [orb]. apply wp_bind. eapply wp_while_loop; [by rewrite lookup_insert_ne|done|]. fold pre. cbv zeta.
    destruct (Nat.ltb_spec 0 (count - length pre)) as [Hp|Hp].
    - apply wp_bind. eapply wp_memcpy; [by rewrite lookup_insert_ne|by rewrite lookup_insert_ne|done|lia|lia|].
      apply wp_ret. split; [done|]. simpl.
      rewrite take_drop_commute. by replace (length pre + (count - length pre))%nat with count by lia.
    - apply wp_bind, wp_ret, wp_ret. split; [done|]. rewrite (drop_ge (take count l)) by (rewrite length_take; lia).
      replace (count - length pre)%nat with 0%nat by lia. rewrite drop_0. simpl. symmetry.
      apply insert_id. by rewrite lookup_insert_ne. }
  intros r2 m2 [-> ->]. apply wp_ret. eexists _, _, _, _. split_and!; [done|done|..].
  - rewrite length_app, length_drop. lia.
  - rewrite length_app, !length_drop, length_take. lia.
  - by rewrite take_app_length.
  - rewrite take_app_length, take_app_length' by (rewrite length_drop, length_take; lia).
    rewrite <- Hpre at 1. apply take_drop.
  - lia.
Qed.
End spec.

(** ** Instances *)

#[local] Instance Z_sub_comparator : Comparator Z.sub.
Proof. split; intros; lia. Qed.

(** The array of a sorted search, and a second one. *)
Definition two_arrays : gmap Z (list Z) := {[ 8 := [1; 3; 5; 7; 9]; 64 := [0; 0; 0; 0; 0]; 128 := [0; 0; 0; 0; 0] ]}.

(** Searching for 7. *)
Lemma bsearch_correct_witness :
  wp (cobalt_bsearch (Some 7) 8 5 (Some Z.sub)) (λ r m', m' = two_arrays ∧
    match r with
    | Some i => (i < 5)%nat ∧ ∃ x, [1; 3; 5; 7; 9] !! i = Some x ∧ 7 - x = 0
    | None => ∀ i x, (i < 5)%nat → [1; 3; 5; 7; 9] !! i = Some x → 7 - x ≠ 0
    end) two_arrays.
Proof.
  apply (bsearch_correct Z.sub 7 8 5 two_arrays [1; 3; 5; 7; 9]); [reflexivity|simpl; lia|discriminate|].
  simpl. unfold le. repeat constructor; lia.
Defined.

Lemma filter_in_place_witness :
  wp (cobalt_filter 8 8 (Some 5%nat) (Some (λ x, 4 <? x))) (λ r m', ∃ l',
    r = (0, Some (length (filter (λ x : Z, 4 <? x) (take 5 [1; 3; 5; 7; 9])))) ∧ m' = <[8 := l']> two_arrays ∧ length l' = 5%nat ∧
    take (length (filter (λ x : Z, 4 <? x) (take 5 [1; 3; 5; 7; 9]))) l' = filter (λ x : Z, 4 <? x) (take 5 [1; 3; 5; 7; 9])) two_arrays.
Proof. apply (filter_in_place 8 5 two_arrays [1; 3; 5; 7; 9] (λ x, 4 <? x)); [reflexivity|simpl; lia|discriminate]. Defined.

Lemma filter_copies_nothing_witness :
  wp (cobalt_filter 8 64 (Some 5%nat) (Some (λ x, 0 <? x))) (λ r m', r = (0, Some 5%nat) ∧ m' = two_arrays) two_arrays.
Proof.
  apply (filter_copies_nothing 8 64 5 two_arrays [1; 3; 5; 7; 9] (λ x, 0 <? x)); [reflexivity|simpl; lia|discriminate|discriminate|].
  repeat constructor.
Defined.

Lemma while_split_witness :
  wp (r1 <- cobalt_stream_take_while 8 64 (Some 5%nat) 4 (Some (λ x, x <? 4)) ;;
      r2 <- cobalt_stream_drop_while 8 128 (Some 5%nat) 4 (Some (λ x, x <? 4)) ;;
      mret (r1, r2)) (λ r m', ∃ n1 n2 a' b',
    r = (Some n1, Some n2) ∧ m' = <[128 := b']> (<[64 := a']> two_arrays) ∧
    length a' = 5%nat ∧ length b' = 5%nat ∧
    take n1 a' = prefix_while (λ x, x <? 4) (take 5 [1; 3; 5; 7; 9]) ∧
    take n1 a' ++ take n2 b' = take 5 [1; 3; 5; 7; 9] ∧ (n1 + n2 = 5)%nat) two_arrays.
Proof.
  apply (while_split 8 64 128 5 4 two_arrays [1; 3; 5; 7; 9] [0; 0; 0; 0; 0] [0; 0; 0; 0; 0] (λ x, x <? 4));
    try reflexivity; try discriminate; try (simpl; lia). split_and!; discriminate.
Defined.
End FunctionalSpec.
