(* ===== verification/Clients.v ===== *)
(** * Clients of the container interfaces

    Code that goes through the sequence interface (the generic iterator of
    src/src/interface/iterator.c) or the map interface (src/src/interface/map.c)
    is verified once, against the laws; every container that satisfies them
    inherits the result. *)
From S2P Require Import Prelude World Sequence Array Vector DLL List SortSpec ListSort.
From S2P Require Import RobinHood Map HashMap HashMapProofs HashMapRefine HashMapSpec.

Module Clients.
Import LinkedList HashMap HashMapProofs HashMapRefine HashMapSpec.

(** The generic iterator on any sequence container.  Draining a fresh
    iterator terminates, yields the elements in order and leaves the container
    as it was; without memory for the iterator it yields nothing. *)
Theorem iterator_visits_all {T C} `{!Sequence T C} (rep : world T C → list Z → Prop)
    `{!SequenceLaws rep} w xs :
  rep w xs →
  wp (it <- cobalt_iterator_new ;; r <- drain (S (length xs)) it ;; mret (it, r))
     (λ p w', rep w' xs ∧ match p.1 with Some _ => p.2 = xs | None => p.2 = [] end) w.
Proof. apply wp_iterate. Qed.

Lemma iterator_visits_all_witness :
  wp (it <- cobalt_iterator_new ;; r <- drain 4 it ;; mret (it, r))
     (λ p w', DLL.rep w' [30; 10; 20] ∧
       match p.1 with Some _ => p.2 = [30; 10; 20] | None => p.2 = [] end) ListSort.sample.
Proof. exact (iterator_visits_all DLL.rep ListSort.sample [30; 10; 20] ListSort.sample_rep). Defined.

(** Adding through the sequence interface.  [cobalt_sequence_add] infers
    success from the size before and after; on any sequence container it
    returns 0 exactly when the element was appended and -1 when the container
    is unchanged. *)
Theorem sequence_add_reports {T C} `{!Sequence T C} (rep : world T C → list Z → Prop)
    `{!SequenceLaws rep} w xs x :
  rep w xs →
  wp (cobalt_sequence_add x) (λ r w',
    (r = 0 ∧ rep w' (xs ++ [x])) ∨ (r = -1 ∧ rep w' xs)) w.
Proof. apply wp_sequence_add. Qed.

Lemma sequence_add_reports_witness :
  wp (cobalt_sequence_add 5) (λ r w',
    (r = 0 ∧ DLL.rep w' [30; 10; 20; 5]) ∨ (r = -1 ∧ DLL.rep w' [30; 10; 20])) ListSort.sample.
Proof. exact (sequence_add_reports DLL.rep ListSort.sample [30; 10; 20] 5 ListSort.sample_rep). Defined.

(** A batch of insertions through the map interface, on any container that
    satisfies its laws: the client succeeds with all pairs inserted, later ones
    overriding earlier ones, or stops at the first failure with a prefix of the
    batch inserted. *)
Theorem put_all_prefix {T C} `{!MapTable T C} {K} `{Countable K}
    (key_of : world T C → Z → Z → K → Prop) (rep : world T C → gmap K Z → Prop)
    `{!MapLaws K key_of rep} w m args kvs :
  rep w m →
  Forall2 (λ a kv, key_of w a.1.1 a.1.2 kv.1 ∧ a.2 = kv.2) args kvs →
  wp (put_all args) (λ r w',
    (r = 0 ∧ rep w' (insert_all kvs m)) ∨
    (r = -1 ∧ ∃ j, (j < length kvs)%nat ∧ rep w' (insert_all (take j kvs) m))) w.
Proof. apply wp_put_all. Qed.

Lemma put_all_prefix_witness :
  wp (put_all [(1, 1, 5); (2, 1, 6)]) (λ r w',
    (r = 0 ∧ srep two_keys w'
       (insert_all [([97], 5); ([98], 6)] {[ [97] := 10 ]})) ∨
    (r = -1 ∧ ∃ j, (j < 2)%nat ∧ srep two_keys w'
       (insert_all (take j [([97], 5); ([98], 6)]) {[ [97] := 10 ]}))) one_entry.
Proof.
  pose proof HashMapProofs.string_key_laws as Hl.
  refine (put_all_prefix (λ _ p n k, key_ok two_keys p n ∧ key_view two_keys p n = k)
    (srep two_keys) (MapLaws0 := hashmap_map_laws two_keys)
    one_entry {[ [97] := 10 ]} [(1, 1, 5); (2, 1, 6)] [([97], 5); ([98], 6)] one_entry_rep _).
  repeat constructor; simpl; try done; (eexists; split; [reflexivity|repeat constructor]).
Defined.

End Clients.
